(* ===== verification/_CoqProject ===== *)
-Q . S2P
Prelude.v
FrameLatch.v
FrameLatchCorrect.v
LowerBound.v
RidKey.v
Comparator.v
LatchMemo.v
BplusNode.v
BplusTree.v
BplusInv.v
BplusShape.v
BplusEdit.v
BplusState.v
BplusInsert.v
BplusDelete.v
BplusIndex.v
BplusValidate.v
BplusScan.v
BplusScanCorrect.v
Bitmap.v
LruCache.v
BufferPool.v
BufferPoolHeader.v
BufferPoolCorrect.v
RecordPage.v
RecordPageCorrect.v
RecordFile.v
RecordFileCorrect.v
RecordTheorems.v
TableMeta.v
Table.v
TableCorrect.v
TableBplus.v
StorageTheorems.v
BplusTheorems.v
TableTheorems.v
CLog.v
CLogCorrect.v
Mvcc.v
TrxKit.v
MvccCorrect.v
MvccSession.v
TrxCorrect.v
TrxEnd.v
TrxTheorems.v
SqlValue.v
SqlValueCorrect.v
Row.v
RowCorrect.v
SqlTheorems.v
Expr.v
Rewrite.v
RewriteCorrect.v
Operators.v
Aggregate.v
OrderScan.v
Catalog.v
IndexScan.v
Dml.v
PlanGen.v
Resolve.v
PlanExec.v
OperatorsCorrect.v
OrderCorrect.v
ScanCorrect.v
AggregateCorrect.v
PlanCorrect.v
SubQuery.v
ResolveCorrect.v
QueryTheorems.v
NetBuffer.v
SqlResult.v
PlainCommunicator.v
PlainCorrect.v
MysqlCommunicator.v
MysqlCorrect.v
SessionStage.v
SessionCorrect.v
NetTheorems.v
CatalogCorrect.v
