(* ===== verification/Prelude.v ===== *)
(** * landbase: a verification development

    landbase is a small relational database server in C++.  This library models its core,
    from the requests of its clients and the syntax trees of their statements down to the
    bytes of its pages, and proves what makes it correct.  Definitions keep the names of the
    source; a comment beside each group of them names the file it comes from
    ([src/src/observer/] is left out of the paths below).

    ** The program and the files

    - Storage engine.  [BufferPool] and its companions: [storage/buffer] (pages, frames, the
      file header with its bitmap of pages, eviction through the cache of [LruCache], the
      [Bitmap] of [deps/common/lang]).  [RecordPage], [RecordFile]: [storage/record]
      (records in the slots of pages, files of such pages, scans).
      [BplusNode], [BplusTree], [BplusScan] and the files behind them: [storage/index]
      (node handlers on arrays of items, insertion and deletion with splits, merges and the
      latches of [LatchMemo], scans; [BplusValidate] is its validator), with the keys of
      [Comparator] and [RidKey] and the search of [LowerBound].  [FrameLatch]: the latch of
      a frame ([storage/buffer/frame.cpp], [deps/common/lang/mutex.cpp]) among the threads
      that take it.  [TableMeta], [Table], [TableBplus]: [storage/table], [storage/field] (layout of records, record operations that keep the indexes up to
      date, the trees as indexes).
    - Databases.  [Catalog]: [storage/db], [storage/default/default_handler.cpp],
      [storage/common/meta_util.cpp], the documents of metadata in [storage/table],
      [storage/field] and [storage/index], and what these and [storage/table/table.cpp] do
      with files; [CatalogCorrect] proves it.
    - Transactions.  [CLog]: [storage/clog] (records of the log, its buffer, its file).
      [Mvcc], [MvccSession]: [storage/trx/mvcc_trx.cpp] (versions, statements, commit,
      rollback, redo).  [TrxKit], [TrxEnd]: the managers of transactions and recovery.
    - Values and expressions.  [SqlValue]: [sql/parser/value.cpp].  [Row]:
      [Table::make_record] and [RowTuple].  [Expr]: [sql/expr] (expressions, tuples,
      [do_expr]).
    - Statements and plans.  [Resolve]: [sql/stmt] (aliases, names, types of a syntax tree;
      SELECT, INSERT, DELETE, UPDATE).  [PlanGen]: [LogicalPlanGenerator].  [Rewrite]: the
      rules of [sql/optimizer] and their loop.  [PlanExec]: [PhysicalPlanGenerator],
      EXPLAIN, and the tree of operators.
    - Operators ([sql/operator]).  [Operators] (projection, predicate, nested loop join),
      [Aggregate], [OrderScan] (order, table scan, calculation, and the record
      scanner a table scan reopens), [IndexScan] (index scans and lists), [Dml] (insert,
      delete, update), [SubQuery] (the executor of a subquery).
    - Requests.  [NetBuffer]: the ring buffer, the buffered writer ([net]) and the loops over
      [::read] and [::write] ([deps/common/io]).  [SqlResult]: the state of a request and its
      session ([event], [session], [sql/executor/sql_result.cpp]).  [PlainCommunicator],
      [MysqlCommunicator]: the text protocol and that of MySQL ([net]).
      [SessionStage]: the stages of a request ([session/session_stage.cpp], [parse_stage],
      [resolve_stage], [optimize_stage], [execute_stage]) and the commands ([sql/executor]).

    A file named [...Correct], [...Inv], [...Spec] or the like proves what the file before it
    defines; the files named [...Theorems] hold the main theorems and their instances:
    [BplusTheorems], [StorageTheorems], [RecordTheorems], [TableTheorems], [TrxTheorems],
    [SqlTheorems], [QueryTheorems], [NetTheorems].

    ** State and operations

    An operation that changes state is a function of the monad [ST] below, of type
    [S -> outcome (A * S)].  [Crash] is a failed ASSERT or an access the language leaves
    undefined; [OutOfFuel] is a loop that was cut.  A theorem that ends in [Done] therefore
    shows that the code returns and does not fail.  Return codes are values of [RC.t].
    Integers are [Z] with their wrap-around written out where it can occur; memory is a list
    of bytes; floats are IEEE single precision, by [SpecFloat].  The tree works on an index
    file state, [BplusTree.state]; a record file on [RecordFile.file_state]; a table on its
    record file and its indexes; a transaction on tables, log and counter; a request on the
    world of its statements, its own state, and the writer of its connection; the databases
    of a process on the world of files and of the buffer pools it has opened.  The threads
    at the latch of a frame are the one part that interleaves: a step relation, [FrameLatch.step],
    whose steps are the sections the code runs under a mutex.

    Where components meet there is a class, and the client is proved against it: [IndexOps]
    (a table and its indexes, implemented by [TableBplus]), [PhysOps] (an operator and its
    children, implemented by every operator and by a whole plan), [ScanOps] and
    [IndexScanOps] (scans and what they read), [TrxOps] (insert, delete, update and the
    transaction), [SortOps] with the contract [StdSort] of [std::sort], [LibText] (the
    conversions between text and floating point numbers and [std::regex_match]), [Uninit]
    (what a variable holds before it is written), [TotalCmp] (an order of keys), [TrxEnds]
    (how the transaction of a session starts and ends), [DbOps] (what statements ask of a
    database), [OsWrite] with [OsWriteLaws] and [OsReadLaws] (the system calls: what is sent
    is what the calls took, a call that is to be tried again is not so for ever), [LoadOps]
    (the file of LOAD DATA and the insertion of its records, which [NetTheorems] takes from
    [Table]), [Os] (the calls on files and directories, any of which may fail), [Json] with [JsonSpec] (the documents of jsoncpp,
    and that reading gives back what was written).

    ** What is proved

    - The B+ tree represents a sorted index: lookups, range scans, insertion and deletion
      refine those of a sorted list, whatever the order of operations, without a failed
      ASSERT; the crabbing protocol keeps the latches it must.
    - The latch of a frame, in a debug build, excludes writers whatever the order of the
      threads, nobody sleeps while it is free, and a thread that takes a read latch twice
      stays recorded as its reader, which fails a later ASSERT.
    - The buffer pool is transparent for the pages there are; a page that is nowhere can
      come to show the stale data of a dirty free frame.  Allocation refines that of the
      header; flushing reaches the disk.  Records live in a map from RIDs, and scans see what
      is visible.
    - Tables keep every index equal to the entries of their records, or say where they do
      not; a new index has the entries of the records its transaction sees; the layout of
      the fields is disjoint.
    - Databases: the document of a table's metadata gives the table back; creating tables and
      indexes keeps the files and the opened tables together, so that a new process opens
      the same tables; a CREATE TABLE that failed leaves a file with which the database does
      not open again.
    - Transactions: commit and rollback, snapshots, the log and its recovery, and the
      histories on which they fail: a row that is inserted and deleted in one transaction
      keeps its end mark after commit, and rollback fails an ASSERT.
    - Values: the order of a column, which is none for floats and 8-bit characters, dates
      and their texts, what a record stores.
    - Queries: a SELECT that scans its tables yields the rows of its relational reading,
      through generator, rewriter and operators, when its conditions have no subquery and
      the rewriter may simplify them; the rewriter keeps the rows unless a constant decides
      a condition next to others; operators one by one, ORDER BY over nothing included;
      statements are created with names of the database and, aggregations apart, values of
      the announced types; subqueries end.
    - Requests: the buffered writer is a queue; requests are read however their bytes
      arrive; a SELECT is served from its text to the bytes of the answer; a MySQL client
      reads the columns and the texts of the rows back from the packets; LOAD DATA reads a
      file of rows back into a table, up to the first row the table refuses.
    The findings are theorems as well where they can be stated.

    ** Bounds and fuel

    Descents of the tree are bounded by 32 levels, since page numbers have 32 bits and every
    level but the root doubles the pages; scans by the pages and slots of a file; the
    passes of the rewriter by the number of nodes and expressions of a plan, which every
    changing pass makes smaller; the loops of an operator by the rows of its child; a
    plan by its depth, at most its number of nodes; the creation of a SELECT by the depth
    of its subqueries; the writer by its capacity and the patience of the system calls.
    Each bound is a hypothesis of the form "fuel is at least", and the
    theorems conclude that this is enough; [allocate_frame] has an infinite loop, which is
    proved as such.

    ** Not modelled

    - The scanner and the parser, generated by flex and bison; the event loop of the server
      and its start.  [storage/persist], which nothing uses.  The texts for debugging that resolvers,
      planners and operators add.
    - Threads, but for those at the latch of one frame in a debug build; without DEBUG the
      code changes [read_lockers_] in several threads at once.  The latches an operation of the
      tree takes are recorded and their order is proved, but operations run one after the
      other; whether a [try_latch] succeeds is a parameter.
    - The printers of the tree and of its pages.
    - Tuples and rows are values.  The code hands out pointers, some of them into pages that
      are no longer pinned; the findings say so.  A comparison that writes a date into its
      string operand does not change the operand here.  The executor of a subquery is a
      parameter of the expressions, and [SubQuery] models it over any plan. *)
From Stdlib Require Import ZArith Lia.
From stdpp Require Import base option gmap list.

#[export] Set Warnings "-clear-no-such-hyp,-register-all".
Declare Scope landbase_scope.
Delimit Scope landbase_scope with landbase.
Open Scope landbase_scope.
Open Scope Z_scope.

(** ** Return codes

    [enum class RC] of [src/observer/common/rc.h], constructor for constructor. *)
Module RC.
Inductive t : Set :=
| SUCCESS | INVALID_ARGUMENT | UNIMPLENMENT | SQL_SYNTAX | INTERNAL | NOMEM
| NOTFOUND | EMPTY | BUFFERPOOL_OPEN | BUFFERPOOL_NOBUF
| BUFFERPOOL_INVALID_PAGE_NUM | RECORD_OPENNED | RECORD_INVALID_RID
| RECORD_INVALID_KEY | RECORD_DUPLICATE_KEY | RECORD_NOMEM | RECORD_EOF
| RECORD_NOT_EXIST | RECORD_INVISIBLE | SCHEMA_DB_EXIST | SCHEMA_DB_NOT_EXIST
| TUPLE_NOT_EXIST | SCHEMA_DB_NOT_OPENED | SCHEMA_TABLE_NOT_EXIST
| SCHEMA_TABLE_EXIST | SCHEMA_FIELD_NOT_EXIST | SCHEMA_FIELD_MISSING
| SCHEMA_FIELD_TYPE_MISMATCH | SCHEMA_INDEX_NAME_REPEAT | IOERR_READ
| IOERR_WRITE | IOERR_ACCESS | IOERR_OPEN | IOERR_CLOSE | IOERR_SEEK
| IOERR_TOO_LONG | IOERR_SYNC | LOCKED_UNLOCK | LOCKED_NEED_WAIT
| LOCKED_CONCURRENCY_CONFLICT | FILE_EXIST | FILE_NOT_EXIST | FILE_NAME
| FILE_BOUND | FILE_CREATE | FILE_OPEN | FILE_NOT_OPENED | FILE_CLOSE
| FILE_REMOVE | FILE_SEEK | FILE_READ | FILE_WRITE | VARIABLE_NOT_EXISTS
| VARIABLE_NOT_VALID | LOGBUF_FULL | FAILURE | FAIL_TO_DELETE_FILE
| SCHEMA_FIELD_NOT_NULLABLE | NEED_TUPLE.

#[global] Instance t_eq_dec : EqDecision t.
Proof. solve_decision. Defined.

Definition succ (rc : t) : bool := bool_decide (rc = SUCCESS).
End RC.

(** ** Outcomes and the state monad

    A run of stateful code ends with a value and a new state ([Done]), stops in a
    failed [ASSERT]/[assert] or an access the language leaves undefined ([Crash]),
    or uses up the fuel of a loop or of a recursion that is not structural
    ([OutOfFuel]).  The two last outcomes are kept apart, so that a theorem ending
    in [Done] shows both that the code does not fail and that it terminates. *)
Inductive outcome (A : Type) : Type :=
| Done (a : A)
| Crash
| OutOfFuel.
Arguments Done {A} _.
Arguments Crash {A}.
Arguments OutOfFuel {A}.
Definition outcome_bind {A B} (c : outcome A) (k : A → outcome B) : outcome B :=
  match c with Done a => k a | Crash => Crash | OutOfFuel => OutOfFuel end.

Definition ST (S A : Type) : Type := S → outcome (A * S).

#[global] Instance ST_ret {S} : MRet (ST S) := λ A a s, Done (a, s).
#[global] Instance ST_bind {S} : MBind (ST S) := λ A B k c s,
  match c s with
  | Done (a, s') => k a s'
  | Crash => Crash
  | OutOfFuel => OutOfFuel
  end.

Section state_monad.
Context {S : Type}.
Definition st_get : ST S S := λ s, Done (s, s).
Definition st_modify (f : S → S) : ST S () := λ s, Done ((), f s).
Definition st_crash {A} : ST S A := λ _, Crash.
Definition st_nofuel {A} : ST S A := λ _, OutOfFuel.
(** [ASSERT(b, ...)] *)
Definition st_assert (b : bool) : ST S () :=
  λ s, if b then Done ((), s) else Crash.
(** a partial access: undefined outside its domain *)
Definition st_some {A} (o : option A) : ST S A :=
  λ s, match o with Some a => Done (a, s) | None => Crash end.
End state_monad.

(** A function reports failure either by its return code alone, or by its return
    code next to an out parameter that is only written on success. *)
Class FromRC (R : Type) := from_rc : RC.t → R.
#[global] Instance from_rc_rc : FromRC RC.t := λ rc, rc.
#[global] Instance from_rc_sum {A} : FromRC (RC.t + A) := inl.

(** [x <-? c ;; k] : [rc = c(x); if (rc != RC::SUCCESS) return rc; k] *)
Notation "x '<-?' c ';;' k" :=
  (mbind (λ r, match r with inl rc => mret (from_rc rc) | inr x => k end) c)
  (at level 100, c at next level, right associativity) : landbase_scope.
(** [try c ;; k] : [rc = c; if (rc != RC::SUCCESS) return rc; k] *)
Notation "'try' c ';;' k" :=
  (mbind (λ rc, if RC.succ rc then k else mret (from_rc rc)) c)
  (at level 100, c at next level, right associativity) : landbase_scope.
Notation "c ';;;' k" := (mbind (λ _, k) c)
  (at level 100, k at level 200, right associativity) : landbase_scope.

(** ** Reasoning about runs

    [wp c s Q]: [c] run in [s] ends normally, and its value and final state satisfy
    [Q]. *)
Definition wp {S A} (c : ST S A) (s : S) (Q : A → S → Prop) : Prop :=
  ∃ a s', c s = Done (a, s') ∧ Q a s'.

Section wp.
Context {S : Type}.
Implicit Types s : S.

Lemma wp_ret {A} (a : A) s Q : Q a s → wp (mret a) s Q.
Proof. intros. by exists a, s. Qed.
Lemma wp_bind {A B} (c : ST S A) (k : A → ST S B) s Q :
  wp c s (λ a s', wp (k a) s' Q) → wp (c ≫= k) s Q.
Proof.
  intros (a & s' & Hc & b & s'' & Hk & HQ). exists b, s''. split; [|done].
  unfold mbind, ST_bind. by rewrite Hc.
Qed.
Lemma wp_mono {A} (c : ST S A) s (Q Q' : A → S → Prop) :
  wp c s Q → (∀ a s', Q a s' → Q' a s') → wp c s Q'.
Proof. intros (a & s' & Hr & HQ) Himp. exists a, s'. auto. Qed.
Lemma wp_get s (Q : S → S → Prop) : Q s s → wp st_get s Q.
Proof. intros. by exists s, s. Qed.
Lemma wp_modify f s (Q : () → S → Prop) : Q () (f s) → wp (st_modify f) s Q.
Proof. intros. by exists (), (f s). Qed.
Lemma wp_some {A} (o : option A) a s (Q : A → S → Prop) :
  o = Some a → Q a s → wp (st_some o) s Q.
Proof. intros -> ?. by exists a, s. Qed.
Lemma wp_assert b s (Q : () → S → Prop) : b = true → Q () s → wp (st_assert b) s Q.
Proof. intros -> ?. by exists (), s. Qed.
End wp.

(** ** Three-way comparison

    The comparators of the code return an [int] whose sign matters.  A comparator
    is a total preorder when its sign is antisymmetric and [<= 0] is transitive;
    keys it cannot tell apart need not be equal. *)
Class TotalCmp {A : Type} (cmp : A → A → Z) : Prop := {
  cmp_swap : ∀ x y, Z.sgn (cmp y x) = - Z.sgn (cmp x y);
  cmp_le_trans : ∀ x y z, cmp x y <= 0 → cmp y z <= 0 → cmp x z <= 0
}.

Section total_cmp.
Context {A : Type} (cmp : A → A → Z) `{!TotalCmp cmp}.

Lemma cmp_flip_lt x y : cmp x y < 0 ↔ 0 < cmp y x.
Proof. pose proof (cmp_swap x y). lia. Qed.
Lemma cmp_flip_eq x y : cmp x y = 0 ↔ cmp y x = 0.
Proof. pose proof (cmp_swap x y). lia. Qed.
Lemma cmp_flip_le x y : cmp x y <= 0 ↔ 0 <= cmp y x.
Proof. pose proof (cmp_swap x y). lia. Qed.
Lemma cmp_refl x : cmp x x = 0.
Proof. pose proof (cmp_swap x x). lia. Qed.
Lemma cmp_lt_le_trans x y z : cmp x y < 0 → cmp y z <= 0 → cmp x z < 0.
Proof.
  intros H1 H2. destruct (decide (cmp x z < 0)) as [|Hge]; [done|].
  assert (Hzx : cmp z x <= 0) by (apply cmp_flip_le; lia).
  pose proof (cmp_le_trans _ _ _ H2 Hzx) as Hyx.
  apply cmp_flip_le in Hyx. lia.
Qed.
Lemma cmp_le_lt_trans x y z : cmp x y <= 0 → cmp y z < 0 → cmp x z < 0.
Proof.
  intros H1 H2. destruct (decide (cmp x z < 0)) as [|Hge]; [done|].
  assert (Hzx : cmp z x <= 0) by (apply cmp_flip_le; lia).
  pose proof (cmp_le_trans _ _ _ Hzx H1) as Hzy.
  apply cmp_flip_le in Hzy. lia.
Qed.
Lemma cmp_lt_trans x y z : cmp x y < 0 → cmp y z < 0 → cmp x z < 0.
Proof. intros. apply cmp_lt_le_trans with y; [done|lia]. Qed.
End total_cmp.

(** ** Array cells

    [memmove] of the cells from [i] on to [i + 1], then a store at [i]. *)
Definition list_insert_at {A} (i : nat) (x : A) (l : list A) : list A :=
  take i l ++ x :: drop i l.

Section list_insert_at.
Context {A : Type}.
Implicit Types (l : list A) (x : A) (i : nat).

Lemma length_list_insert_at i x l : length (list_insert_at i x l) = S (length l).
Proof.
  unfold list_insert_at. rewrite length_app, length_take; simpl.
  rewrite length_drop. lia.
Qed.
Lemma list_insert_at_app l1 l2 x : list_insert_at (length l1) x (l1 ++ l2) = l1 ++ x :: l2.
Proof. unfold list_insert_at. by rewrite take_app_length, drop_app_length. Qed.
Lemma elem_of_list_insert_at i x y l :
  y ∈ list_insert_at i x l ↔ y = x ∨ y ∈ l.
Proof.
  unfold list_insert_at. rewrite <-(take_drop i l) at 3.
  rewrite !elem_of_app, elem_of_cons. tauto.
Qed.
Lemma fmap_list_insert_at {B} (f : A → B) i x l :
  f <$> list_insert_at i x l = list_insert_at i (f x) (f <$> l).
Proof. unfold list_insert_at. by rewrite fmap_app, fmap_cons, fmap_take, fmap_drop. Qed.
Lemma delete_list_insert_at i x l :
  (i <= length l)%nat → delete i (list_insert_at i x l) = l.
Proof.
  intros Hi. unfold list_insert_at.
  rewrite <-(length_take_le l i) at 1 by lia.
  rewrite delete_middle. by rewrite take_drop.
Qed.
(** Cutting an array in two after an insertion. *)
Lemma take_list_insert_at_le n i x l :
  (n <= i)%nat → (i <= length l)%nat → take n (list_insert_at i x l) = take n l.
Proof.
  intros. unfold list_insert_at.
  rewrite take_app_le by (rewrite length_take; lia). by rewrite take_take, Nat.min_l by lia.
Qed.
Lemma drop_list_insert_at_le n i x l :
  (n <= i)%nat → (i <= length l)%nat →
  drop n (list_insert_at i x l) = list_insert_at (i - n) x (drop n l).
Proof.
  intros. unfold list_insert_at.
  rewrite drop_app_le by (rewrite length_take; lia).
  rewrite drop_drop, take_drop_commute. by replace (n + (i - n))%nat with i by lia.
Qed.
Lemma take_list_insert_at_gt n i x l :
  (i <= n)%nat → (i <= length l)%nat →
  take (S n) (list_insert_at i x l) = list_insert_at i x (take n l).
Proof.
  intros. unfold list_insert_at.
  rewrite take_app_ge by (rewrite length_take; lia).
  rewrite length_take, Nat.min_l by lia. rewrite take_take, Nat.min_l by lia. f_equal.
  replace (S n - i)%nat with (S (n - i)) by lia. simpl. f_equal.
  rewrite take_drop_commute. by replace (i + (n - i))%nat with n by lia.
Qed.
Lemma drop_list_insert_at_gt n i x l :
  (i <= n)%nat → (i <= length l)%nat → drop (S n) (list_insert_at i x l) = drop n l.
Proof.
  intros. unfold list_insert_at.
  rewrite drop_app_ge by (rewrite length_take; lia).
  rewrite length_take, Nat.min_l by lia.
  replace (S n - i)%nat with (S (n - i)) by lia. simpl.
  rewrite drop_drop. by replace (i + (n - i))%nat with n by lia.
Qed.
Lemma list_insert_at_mid l1 y l2 x :
  list_insert_at (S (length l1)) x (l1 ++ y :: l2) = l1 ++ y :: x :: l2.
Proof.
  replace (l1 ++ y :: l2) with ((l1 ++ [y]) ++ l2) by by rewrite <-app_assoc.
  replace (S (length l1)) with (length (l1 ++ [y])) by (rewrite length_app; simpl; lia).
  rewrite list_insert_at_app. by rewrite <-app_assoc.
Qed.
End list_insert_at.

(** ** Counting *)
Lemma count_filter_ext (f g : nat → bool) l :
  (∀ i, i ∈ l → f i = g i) →
  length (filter (λ i, f i = true) l) = length (filter (λ i, g i = true) l).
Proof.
  induction l as [|x l IH]; intros Heq; [done|]. rewrite !filter_cons.
  rewrite (Heq x) by left. assert (∀ i, i ∈ l → f i = g i) by (intros; apply Heq; by right).
  case_decide; simpl; by rewrite IH.
Qed.
Lemma count_filter_flip (f g : nat → bool) l i :
  NoDup l → i ∈ l → f i = false → g i = true → (∀ j, j ∈ l → j ≠ i → f j = g j) →
  length (filter (λ j, g j = true) l) = S (length (filter (λ j, f j = true) l)).
Proof.
  induction l as [|x l IH]; intros Hnd Hin Hf Hg Heq; [by apply not_elem_of_nil in Hin|].
  apply NoDup_cons in Hnd as [Hni Hnd]. rewrite !filter_cons.
  destruct (decide (x = i)) as [->|Hne].
  - rewrite Hf, Hg. rewrite decide_True, decide_False by done. simpl. f_equal.
    apply count_filter_ext. intros j Hj. symmetry. apply Heq; [by right|]. by intros ->.
  - apply elem_of_cons in Hin as [?|Hin]; [done|]. rewrite (Heq x) by (by left || done).
    assert (∀ j, j ∈ l → j ≠ i → f j = g j) by (intros; apply Heq; [by right|done]).
    case_decide; simpl; by rewrite IH.
Qed.

Lemma count_filter_all (f : nat → bool) l :
  (length (filter (λ i, f i = true) l) <= length l)%nat ∧
  (length (filter (λ i, f i = true) l) = length l ↔ ∀ i, i ∈ l → f i = true).
Proof.
  induction l as [|x l [IH1 IH2]]; [split; [done|]; split; [by intros _ ? ?%not_elem_of_nil|done]|].
  rewrite filter_cons. case_decide as Hx; simpl; (split; [lia|]).
  - split.
    + intros [= Heq]. rewrite IH2 in Heq. intros i [->|Hi]%elem_of_cons; auto.
    + intros Hall. f_equal. apply IH2. intros; apply Hall. by right.
  - split; [lia|]. intros Hall. by rewrite (Hall x) in Hx by left.
Qed.

Lemma half_spec (m : nat) : (2 * (m / 2) <= m < 2 * (m / 2) + 2)%nat.
Proof.
  pose proof (Nat.div_mod m 2 ltac:(done)). pose proof (Nat.mod_upper_bound m 2 ltac:(done)). lia.
Qed.

Lemma elem_of_snd {A B} (l : list (A * B)) a b : (a, b) ∈ l → b ∈ l.*2.
Proof. intros H. apply list_elem_of_fmap. by exists (a, b). Qed.
Lemma elem_of_snd_inv {A B} (l : list (A * B)) b : b ∈ l.*2 → ∃ a, (a, b) ∈ l.
Proof. intros ([a b'] & -> & H)%list_elem_of_fmap. by exists a. Qed.

(** ** Pages and numbers *)
Abbreviation PageNum := Z (only parsing).
Abbreviation SlotNum := Z (only parsing).
Definition BP_INVALID_PAGE_NUM : PageNum := -1.
Definition BP_HEADER_PAGE : PageNum := 0.

Lemma filter_all {A} (Pr : A → Prop) `{!∀ x, Decision (Pr x)} (xs : list A) :
  (∀ x, x ∈ xs → Pr x) → filter Pr xs = xs.
Proof.
  induction xs as [|x xs IH]; intros Hall; [done|].
  rewrite filter_cons_True by (apply Hall; left). f_equal. apply IH. intros. apply Hall. by right.
Qed.
