(* ===== verification/FrameLatch.v ===== *)
(** * Latches of frames ([storage/buffer/frame.cpp], [deps/common/lang/mutex.cpp])

    [RecursiveSharedMutex] and the latches and pins of a [Frame], compiled with CONCURRENCY.
    What runs under [mutex_] or [debug_lock_] is one step; between the steps of a call other
    threads run.  A thread that waits is asleep until it is notified.  A thread is also the
    [xid] of its session, which it keeps while it holds a latch; the counters are unbounded.

    [debug] tells whether DEBUG is defined: without it an ASSERT checks nothing.  It is a
    parameter of the calls of a single thread.  The steps of several threads are those of a
    debug build alone: without DEBUG [debug_lock_] is no lock, and [read_latch] changes the
    map [read_lockers_] in several threads at once, which has no meaning in C++.  In a debug
    build too [write_latch] sets [write_locker_] and [write_recursive_count_] outside
    [debug_lock_], while [read_latch] compares [write_locker_] with its own thread; that this
    word is written and read in one piece is assumed. *)
From S2P Require Import Prelude.
From Stdlib Require Import ZArith Lia.
From stdpp Require Import base option gmap list relations.
Local Open Scope Z_scope.

Abbreviation thread := nat.

(** ** [RecursiveSharedMutex]

    A turn of a waiting loop gives the mutex if it has been taken, and nothing if the thread
    waits; giving the mutex back tells whom to notify. *)
Module RecursiveSharedMutex.
Record t : Set := mk {
  shared_lock_count_ : Z; exclusive_lock_count_ : Z; recursive_owner_ : option thread; recursive_count_ : Z
}.
Definition make : t := mk 0 0 None 0.
Definition set_shared (n : Z) (m : t) : t := mk n (exclusive_lock_count_ m) (recursive_owner_ m) (recursive_count_ m).
Definition set_recursive (n : Z) (m : t) : t := mk (shared_lock_count_ m) (exclusive_lock_count_ m) (recursive_owner_ m) n.

Definition lock_shared (m : t) : option t :=
  if decide (exclusive_lock_count_ m > 0) then None else Some (set_shared (shared_lock_count_ m + 1) m).
Definition try_lock_shared (m : t) : option t :=
  if decide (exclusive_lock_count_ m = 0) then Some (set_shared (shared_lock_count_ m + 1) m) else None.
(** the mutex, and [exclusive_lock_cv_.notify_one] *)
Definition unlock_shared (m : t) : t * bool :=
  let m := set_shared (shared_lock_count_ m - 1) m in (m, bool_decide (shared_lock_count_ m = 0)).
Definition lock (self : thread) (m : t) : option t :=
  if decide (shared_lock_count_ m > 0 ∨ exclusive_lock_count_ m > 0) then
    if decide (recursive_owner_ m = Some self) then Some (set_recursive (recursive_count_ m + 1) m) else None
  else Some (mk (shared_lock_count_ m) (exclusive_lock_count_ m + 1) (Some self) 1).
(** the mutex, and [shared_lock_cv_.notify_all] with [exclusive_lock_cv_.notify_one] *)
Definition unlock (self : thread) (m : t) : t * bool :=
  if decide (recursive_owner_ m = Some self ∧ recursive_count_ m > 1) then (set_recursive (recursive_count_ m - 1) m, false)
  else
    let m := mk (shared_lock_count_ m) (exclusive_lock_count_ m - 1) None 0 in (m, bool_decide (exclusive_lock_count_ m = 0)).
End RecursiveSharedMutex.

(** ** [Frame]: pins and latches *)
Module FrameLatch.
Record t : Set := mk {
  pin_count_ : Z;
  lock_ : RecursiveSharedMutex.t;
  write_locker_ : option thread;
  write_recursive_count_ : Z;
  read_lockers_ : gmap thread Z
}.
Definition make : t := mk 0 RecursiveSharedMutex.make None 0 ∅.
Definition set_lock (m : RecursiveSharedMutex.t) (f : t) : t :=
  mk (pin_count_ f) m (write_locker_ f) (write_recursive_count_ f) (read_lockers_ f).
Definition set_pin (n : Z) (f : t) : t := mk n (lock_ f) (write_locker_ f) (write_recursive_count_ f) (read_lockers_ f).
Definition set_write (o : option thread) (n : Z) (f : t) : t := mk (pin_count_ f) (lock_ f) o n (read_lockers_ f).
Definition set_readers (l : gmap thread Z) (f : t) : t := mk (pin_count_ f) (lock_ f) (write_locker_ f) (write_recursive_count_ f) l.

Section frame.
Context (debug : bool).
(** an ASSERT that fails ends the process *)
Definition assert (b : bool) : option () := if debug && negb b then None else Some ().

(** [write_latch]: the checks before, and the fields after [lock_.lock] *)
Definition check_write (xid : thread) (f : t) : option () :=
  _ ← assert (bool_decide (pin_count_ f > 0)); assert (bool_decide (read_lockers_ f !! xid = None)).
Definition record_write (xid : thread) (f : t) : t := set_write (Some xid) (write_recursive_count_ f + 1) f.
(** [write_unlatch], before [lock_.unlock] *)
Definition begin_write_unlatch (xid : thread) (f : t) : option t :=
  _ ← assert (bool_decide (pin_count_ f > 0));
  _ ← assert (bool_decide (write_locker_ f = Some xid));
  let n := write_recursive_count_ f - 1 in
  Some (set_write (if decide (n = 0) then None else write_locker_ f) n f).
(** [read_latch] and [try_read_latch]: before and after [lock_] *)
Definition check_read (xid : thread) (f : t) : option () :=
  _ ← assert (bool_decide (pin_count_ f > 0)); assert (bool_decide (Some xid ≠ write_locker_ f)).
Definition record_read (xid : thread) (f : t) : t :=
  set_readers (<[xid := default 0 (read_lockers_ f !! xid) + 1]> (read_lockers_ f)) f.
(** [read_unlatch], before [lock_.unlock_shared]: the count is looked at but not changed *)
Definition begin_read_unlatch (xid : thread) (f : t) : option t :=
  _ ← assert (bool_decide (pin_count_ f > 0));
  if debug then
    let recursive_count := default 0 (read_lockers_ f !! xid) in
    _ ← assert (bool_decide (recursive_count > 0));
    Some (if decide (1 = recursive_count) then set_readers (delete xid (read_lockers_ f)) f else f)
  else Some f.
Definition pin (f : t) : t := set_pin (pin_count_ f + 1) f.
Definition unpin (f : t) : option t :=
  _ ← assert (bool_decide (pin_count_ f > 0));
  let f := set_pin (pin_count_ f - 1) f in
  if decide (pin_count_ f = 0) then
    _ ← assert (bool_decide (write_locker_ f = None));
    _ ← assert (bool_decide (read_lockers_ f = ∅));
    Some f
  else Some f.

(** the calls of a thread that nobody disturbs; nothing is left if it waits for ever *)
Definition locked (xid : thread) (record : thread → t → t) (m : option RecursiveSharedMutex.t) (f : t) : outcome t :=
  match m with Some m => Done (record xid (set_lock m f)) | None => OutOfFuel end.
Definition write_latch (xid : thread) (f : t) : outcome t :=
  match check_write xid f with
  | Some _ => locked xid record_write (RecursiveSharedMutex.lock xid (lock_ f)) f
  | None => Crash
  end.
Definition read_latch (xid : thread) (f : t) : outcome t :=
  match check_read xid f with
  | Some _ => locked xid record_read (RecursiveSharedMutex.lock_shared (lock_ f)) f
  | None => Crash
  end.
Definition write_unlatch (xid : thread) (f : t) : outcome t :=
  match begin_write_unlatch xid f with
  | Some f => Done (set_lock (RecursiveSharedMutex.unlock xid (lock_ f)).1 f)
  | None => Crash
  end.
Definition read_unlatch (xid : thread) (f : t) : outcome t :=
  match begin_read_unlatch xid f with
  | Some f => Done (set_lock (RecursiveSharedMutex.unlock_shared (lock_ f)).1 f)
  | None => Crash
  end.
End frame.
End FrameLatch.

(** ** Threads

    Where a thread is inside a call, and how many pins and latches it has. *)
Inductive pc : Set :=
| Idle
| LockExclusive (asleep : bool) | RecordWrite | UnlockExclusive
| LockShared (asleep : bool) | TryShared | RecordRead | UnlockShared.
#[global] Instance pc_eq_dec : EqDecision pc.
Proof. solve_decision. Defined.
Record ThreadState : Set := mk_thread { at_ : pc; pins : nat; writes : nat; reads : nat }.
Definition move (p : pc) (th : ThreadState) : ThreadState := mk_thread p (pins th) (writes th) (reads th).
Definition add_pins (p : nat) (th : ThreadState) : ThreadState := mk_thread (at_ th) p (writes th) (reads th).


(** Whom a step notifies: [NotifyExclusive] is [exclusive_lock_cv_.notify_one], which wakes
    a thread that sleeps before [lock], if there is one; [NotifyAll] wakes the threads that
    sleep before [lock_shared] too. *)
Inductive wakes : Set := NotifyNobody | NotifyExclusive | NotifyAll.
Definition wake_shared (th : ThreadState) : ThreadState :=
  match at_ th with LockShared true => move (LockShared false) th | _ => th end.
Inductive notify_one (l : list ThreadState) : list ThreadState → Prop :=
| notify_some i th : l !! i = Some th → at_ th = LockExclusive true → notify_one l (<[i := move (LockExclusive false) th]> l)
| notify_none : (∀ i th, l !! i = Some th → at_ th ≠ LockExclusive true) → notify_one l l.
Definition woken (w : wakes) (l l' : list ThreadState) : Prop :=
  match w with NotifyNobody => l' = l | NotifyExclusive => notify_one l l' | NotifyAll => notify_one (wake_shared <$> l) l' end.

(** ** The steps of threads that share a frame

    In a debug build.  A thread calls [write_latch] without a read latch of its own, [read_latch] without a
    write latch of its own, has a pin while it has a latch, and gives back what it has;
    [recursive_reads] tells whether it takes a read latch twice.  [None] is a failed ASSERT. *)
Section steps.
Import FrameLatch.
Context (recursive_reads : bool).
Abbreviation debug := true.
Implicit Types (f : FrameLatch.t) (l : list ThreadState) (th : ThreadState).
Inductive act (i : thread) : ThreadState → FrameLatch.t → option (ThreadState * FrameLatch.t * wakes) → Prop :=
| act_pin th f : at_ th = Idle → act i th f (Some (add_pins (S (pins th)) th, pin f, NotifyNobody))
| act_unpin th f n :
    at_ th = Idle → pins th = S n → (n = 0%nat → writes th = 0%nat ∧ reads th = 0%nat) →
    act i th f (f ← unpin debug f; Some (add_pins n th, f, NotifyNobody))
(* write_latch *)
| act_check_write th f :
    at_ th = Idle → pins th ≠ 0%nat → reads th = 0%nat →
    act i th f (_ ← check_write debug i f; Some (move (LockExclusive false) th, f, NotifyNobody))
| act_lock th f :
    at_ th = LockExclusive false →
    act i th f (Some (match RecursiveSharedMutex.lock i (lock_ f) with
                      | Some m => (move RecordWrite th, set_lock m f, NotifyNobody)
                      | None => (move (LockExclusive true) th, f, NotifyNobody)
                      end))
| act_record_write th f :
    at_ th = RecordWrite →
    act i th f (Some (mk_thread Idle (pins th) (S (writes th)) (reads th), record_write i f, NotifyNobody))
(* write_unlatch *)
| act_begin_write_unlatch th f n :
    at_ th = Idle → writes th = S n →
    act i th f (f ← begin_write_unlatch debug i f; Some (mk_thread UnlockExclusive (pins th) n (reads th), f, NotifyNobody))
| act_unlock th f :
    at_ th = UnlockExclusive →
    act i th f (Some (move Idle th, set_lock (RecursiveSharedMutex.unlock i (lock_ f)).1 f,
                      if (RecursiveSharedMutex.unlock i (lock_ f)).2 then NotifyAll else NotifyNobody))
(* read_latch and try_read_latch *)
| act_check_read th f (tries : bool) :
    at_ th = Idle → pins th ≠ 0%nat → writes th = 0%nat → (recursive_reads = false → reads th = 0%nat) →
    act i th f (_ ← check_read debug i f; Some (move (if tries then TryShared else LockShared false) th, f, NotifyNobody))
| act_lock_shared th f :
    at_ th = LockShared false →
    act i th f (Some (match RecursiveSharedMutex.lock_shared (lock_ f) with
                      | Some m => (move RecordRead th, set_lock m f, NotifyNobody)
                      | None => (move (LockShared true) th, f, NotifyNobody)
                      end))
| act_try_lock_shared th f :
    at_ th = TryShared →
    act i th f (Some (match RecursiveSharedMutex.try_lock_shared (lock_ f) with
                      | Some m => (move RecordRead th, set_lock m f, NotifyNobody)
                      | None => (move Idle th, f, NotifyNobody)
                      end))
| act_record_read th f :
    at_ th = RecordRead →
    act i th f (Some (mk_thread Idle (pins th) (writes th) (S (reads th)), record_read i f, NotifyNobody))
(* read_unlatch *)
| act_begin_read_unlatch th f n :
    at_ th = Idle → reads th = S n →
    act i th f (f ← begin_read_unlatch debug i f; Some (mk_thread UnlockShared (pins th) (writes th) n, f, NotifyNobody))
| act_unlock_shared th f :
    at_ th = UnlockShared →
    act i th f (Some (move Idle th, set_lock (RecursiveSharedMutex.unlock_shared (lock_ f)).1 f,
                      if (RecursiveSharedMutex.unlock_shared (lock_ f)).2 then NotifyExclusive else NotifyNobody)).

(** a step: of a thread, or a condition variable wakes a thread without a reason *)
Inductive step : FrameLatch.t * list ThreadState → option (FrameLatch.t * list ThreadState) → Prop :=
| step_act f l i th th' f' w l' :
    l !! i = Some th → act i th f (Some (th', f', w)) → woken w (<[i := th']> l) l' → step (f, l) (Some (f', l'))
| step_assert f l i th : l !! i = Some th → act i th f None → step (f, l) None
| step_spurious f l i th p :
    l !! i = Some th →
    (at_ th = LockExclusive true ∧ p = LockExclusive false ∨ at_ th = LockShared true ∧ p = LockShared false) →
    step (f, l) (Some (f, <[i := move p th]> l)).
Inductive reachable (n : nat) : FrameLatch.t * list ThreadState → Prop :=
| reachable_start : reachable n (FrameLatch.make, replicate n (mk_thread Idle 0 0 0))
| reachable_step s s' : reachable n s → step s (Some s') → reachable n s'.
End steps.
