(* ===== verification/FrameLatchCorrect.v ===== *)
(** * Latches of frames: exclusion, ASSERTs and wake-ups

    The counters of the mutex and of the frame are sums over the threads ([Inv]); no thread
    sleeps while the mutex is free unless another is about to try ([no_lost_wakeup]). *)
From S2P Require Import Prelude FrameLatch.
From Stdlib Require Import ZArith Lia.
From stdpp Require Import base option gmap list relations.
Import FrameLatch.
Local Open Scope Z_scope.

(** ** Sums over a list that changes at one place *)
Lemma sum_insert {A} (g : A → nat) (l : list A) i x y :
  l !! i = Some x → (sum_list_with g (<[i := y]> l) + g x = sum_list_with g l + g y)%nat.
Proof.
  revert i. induction l as [|z l IH]; intros [|i] Hi; simpl in *; [done|done|injection Hi as ->; lia|].
  specialize (IH i Hi). lia.
Qed.
Lemma sum_lookup {A} (g : A → nat) (l : list A) i x : l !! i = Some x → (g x <= sum_list_with g l)%nat.
Proof. revert i. induction l as [|z l IH]; intros [|i] Hi; simpl in *; try done; [injection Hi as ->|specialize (IH i Hi)]; lia. Qed.
Lemma sum_two {A} (g : A → nat) (l : list A) i j x y :
  l !! i = Some x → l !! j = Some y → i ≠ j → (g x + g y <= sum_list_with g l)%nat.
Proof.
  revert i j. induction l as [|z l IH]; intros [|i] [|j] Hi Hj Hij; simpl in *; try done.
  - injection Hi as ->. pose proof (sum_lookup g l j y Hj). lia.
  - injection Hj as ->. pose proof (sum_lookup g l i x Hi). lia.
  - specialize (IH i j Hi Hj ltac:(congruence)). lia.
Qed.

(** ** What a thread holds of the mutex *)
Definition held_r (th : ThreadState) : nat :=
  reads th + match at_ th with RecordRead | UnlockShared => 1 | _ => 0 end.
Definition held_w (th : ThreadState) : nat :=
  writes th + match at_ th with RecordWrite | UnlockExclusive => 1 | _ => 0 end.
Definition pc_ok (p : pc) (th : ThreadState) : Prop :=
  match p with
  | Idle => True
  | LockExclusive _ | RecordWrite | UnlockExclusive => reads th = 0%nat
  | LockShared _ | TryShared | RecordRead | UnlockShared => writes th = 0%nat
  end.
Definition thread_ok (th : ThreadState) : Prop :=
  (writes th = 0 ∨ reads th = 0)%nat ∧ (at_ th ≠ Idle ∨ 0 < writes th ∨ 0 < reads th → 0 < pins th)%nat ∧ pc_ok (at_ th) th.
Lemma thread_ok_move p th : thread_ok th → at_ th ≠ Idle ∨ (0 < pins th)%nat → pc_ok p th → thread_ok (move p th).
Proof. intros (H1 & H2 & H3) Ha Hp. split_and!; [done| |done]. intros _. destruct Ha; [apply H2; by left|done]. Qed.
Definition exclusive_ok (m : RecursiveSharedMutex.t) (l : list ThreadState) : Prop :=
  RecursiveSharedMutex.exclusive_lock_count_ m = 0 ∧ RecursiveSharedMutex.recursive_owner_ m = None ∧ sum_list_with held_w l = 0%nat ∨
  RecursiveSharedMutex.exclusive_lock_count_ m = 1 ∧ sum_list_with held_r l = 0%nat ∧
    ∃ i th, RecursiveSharedMutex.recursive_owner_ m = Some i ∧ l !! i = Some th ∧ (0 < held_w th)%nat ∧
      RecursiveSharedMutex.recursive_count_ m = Z.of_nat (held_w th) ∧ sum_list_with held_w l = held_w th.

(** a thread without its sleep: sleeping changes nothing else *)
Definition awake (th : ThreadState) : ThreadState :=
  match at_ th with LockExclusive true => move (LockExclusive false) th | _ => wake_shared th end.
Lemma awake_wake_shared th : awake (wake_shared th) = awake th.
Proof. destruct th as [[|[]| | |[]| | |] ? ? ?]; reflexivity. Qed.
Lemma notify_one_awake l l' : notify_one l l' → awake <$> l' = awake <$> l.
Proof.
  intros [i th Hi Hat|Hno]; [|done]. rewrite list_fmap_insert. apply list_insert_id. rewrite list_lookup_fmap, Hi. simpl. f_equal.
  destruct th as [p ? ? ?]. simpl in *. by subst.
Qed.
Lemma woken_awake w l l' : woken w l l' → awake <$> l' = awake <$> l.
Proof.
  destruct w; simpl; [by intros ->|apply notify_one_awake|]. intros ->%notify_one_awake. rewrite <-list_fmap_compose.
  apply list_fmap_ext. intros. apply awake_wake_shared.
Qed.

Section invariant.
Context (recursive_reads : bool).
Abbreviation debug := true.
Implicit Types (f : FrameLatch.t) (l : list ThreadState).
Record Inv f l : Prop := {
  inv_thread : ∀ i th, l !! i = Some th → thread_ok th;
  inv_shared : RecursiveSharedMutex.shared_lock_count_ (lock_ f) = Z.of_nat (sum_list_with held_r l);
  inv_exclusive : exclusive_ok (lock_ f) l;
  inv_pins : pin_count_ f = Z.of_nat (sum_list_with pins l);
  inv_writes : write_recursive_count_ f = Z.of_nat (sum_list_with writes l);
  inv_writer : ∀ i, write_locker_ f = Some i ↔ ∃ th, l !! i = Some th ∧ (0 < writes th)%nat;
  inv_readers : recursive_reads = false → ∀ i,
    read_lockers_ f !! i = (th ← l !! i; if decide (reads th = 0%nat) then None else Some 1) ∧
    ∀ th, l !! i = Some th → (reads th <= 1)%nat ∧ (at_ th = RecordRead ∨ (∃ b, at_ th = LockShared b) ∨ at_ th = TryShared → reads th = 0%nat)
}.

(** *** The mutex excludes *)
Lemma held_exclusive f l i th j th' :
  Inv f l → l !! i = Some th → (0 < held_w th)%nat → l !! j = Some th' →
  held_r th' = 0%nat ∧ (i ≠ j → held_w th' = 0%nat).
Proof.
  intros I Hi Hw Hj. pose proof (sum_lookup held_w l i th Hi). pose proof (sum_lookup held_r l j th' Hj).
  destruct (inv_exclusive f l I) as [(_ & _ & E)|(_ & Er & k & thk & _ & Hk & _ & _ & E)]; [lia|]. split; [lia|]. intros Hij.
  destruct (decide (i = k)) as [->|Hik].
  - assert (thk = th) as -> by congruence. pose proof (sum_two held_w l k j th th' Hi Hj Hij). lia.
  - pose proof (sum_two held_w l i k th thk Hi Hk Hik). lia.
Qed.
Lemma writes_held th : (writes th <= held_w th)%nat.
Proof. unfold held_w. lia. Qed.
Lemma reads_held th : (reads th <= held_r th)%nat.
Proof. unfold held_r. lia. Qed.

Lemma exclusive_insert m l i th th' :
  exclusive_ok m l → l !! i = Some th → held_w th' = held_w th → (held_r th' <= held_r th)%nat → exclusive_ok m (<[i := th']> l).
Proof.
  intros He Hi Hw Hr. pose proof (sum_insert held_w l i th th' Hi). pose proof (sum_insert held_r l i th th' Hi).
  destruct He as [(He & Ho & Hs)|(He & Hs & k & thk & Ho & Hk & Hpos & Hc & Hsum)]; [left; split_and!; [done|done|lia]|right].
  split_and!; [done|lia|]. destruct (decide (i = k)) as [->|Hik].
  - assert (thk = th) as -> by congruence. exists k, th'. rewrite list_lookup_insert_eq by (by eapply lookup_lt_Some).
    split_and!; try done; lia.
  - exists k, thk. rewrite list_lookup_insert_ne by done. split_and!; try done; lia.
Qed.
Lemma writer_insert f l i th th' :
  (∀ j, write_locker_ f = Some j ↔ ∃ th, l !! j = Some th ∧ (0 < writes th)%nat) → l !! i = Some th → writes th' = writes th →
  ∀ j, write_locker_ f = Some j ↔ ∃ th, <[i := th']> l !! j = Some th ∧ (0 < writes th)%nat.
Proof.
  intros Hw Hi Heq j. rewrite Hw. destruct (decide (i = j)) as [->|Hij].
  - rewrite list_lookup_insert_eq by (by eapply lookup_lt_Some). split; intros (x & Hx & Hp).
    + assert (x = th) as -> by congruence. exists th'. split; [done|lia].
    + injection Hx as <-. exists th. split; [done|lia].
  - by rewrite list_lookup_insert_ne.
Qed.
Lemma thread_insert l i th' :
  (∀ i th, l !! i = Some th → thread_ok th) → thread_ok th' → ∀ j th, <[i := th']> l !! j = Some th → thread_ok th.
Proof. intros Hl Hth j th [(<- & <- & _)|(_ & Hj)]%list_lookup_insert_Some; [done|by eapply Hl]. Qed.
Lemma readers_insert f l i th th' :
  (∀ i, read_lockers_ f !! i = (th ← l !! i; if decide (reads th = 0%nat) then None else Some 1) ∧
    ∀ th, l !! i = Some th → (reads th <= 1)%nat ∧ (at_ th = RecordRead ∨ (∃ b, at_ th = LockShared b) ∨ at_ th = TryShared → reads th = 0%nat)) →
  l !! i = Some th → reads th' = reads th →
  (at_ th' = RecordRead ∨ (∃ b, at_ th' = LockShared b) ∨ at_ th' = TryShared → reads th = 0%nat) →
  ∀ i0, read_lockers_ f !! i0 = (th ← <[i := th']> l !! i0; if decide (reads th = 0%nat) then None else Some 1) ∧
    ∀ th, <[i := th']> l !! i0 = Some th → (reads th <= 1)%nat ∧ (at_ th = RecordRead ∨ (∃ b, at_ th = LockShared b) ∨ at_ th = TryShared → reads th = 0%nat).
Proof.
  intros Hr Hi Heq Hat j. destruct (Hr j) as [H1 H2]. destruct (decide (i = j)) as [->|Hij].
  - rewrite list_lookup_insert_eq by (by eapply lookup_lt_Some). rewrite Hi in H1. simpl in *. rewrite Heq. split; [done|].
    intros x [= <-]. rewrite Heq. split; [by apply (H2 th Hi)|done].
  - rewrite list_lookup_insert_ne by done. done.
Qed.

(** the mutex may change, but not what is recorded in the frame *)
Lemma inv_mutex f m l i th th' :
  Inv f l → l !! i = Some th → pins th' = pins th → writes th' = writes th → reads th' = reads th → thread_ok th' →
  RecursiveSharedMutex.shared_lock_count_ m + Z.of_nat (held_r th) =
    RecursiveSharedMutex.shared_lock_count_ (lock_ f) + Z.of_nat (held_r th') →
  exclusive_ok m (<[i := th']> l) →
  (recursive_reads = false →
    at_ th' = RecordRead ∨ (∃ b, at_ th' = LockShared b) ∨ at_ th' = TryShared → reads th = 0%nat) →
  Inv (set_lock m f) (<[i := th']> l).
Proof.
  intros [It Is Ie Ip Iw Ik Ir] Hi Hp Hw Hr Hok Hs He Hat.
  pose proof (sum_insert held_r l i th th' Hi). pose proof (sum_insert pins l i th th' Hi). pose proof (sum_insert writes l i th th' Hi).
  constructor; cbn [lock_ set_lock pin_count_ write_recursive_count_ write_locker_ read_lockers_]; try done; try lia.
  - by apply thread_insert.
  - by eapply writer_insert.
  - intros Hrr. eapply readers_insert; [by apply Ir|exact Hi|exact Hr|by apply Hat].
Qed.
Lemma inv_quiet f l i th th' :
  Inv f l → l !! i = Some th → pins th' = pins th → writes th' = writes th → reads th' = reads th → thread_ok th' →
  held_w th' = held_w th → held_r th' = held_r th →
  (recursive_reads = false →
    at_ th' = RecordRead ∨ (∃ b, at_ th' = LockShared b) ∨ at_ th' = TryShared → reads th = 0%nat) →
  Inv f (<[i := th']> l).
Proof.
  intros I Hi Hp Hw Hr Hok Hhw Hhr Hat. assert (f = set_lock (lock_ f) f) as -> by by destruct f.
  eapply inv_mutex; try done; [cbn; lia|]. eapply exclusive_insert; [apply (inv_exclusive _ _ I)|exact Hi|done|lia].
Qed.

Ltac at_pc th Hat := destruct th as [? ? ? ?]; cbn [at_] in Hat; subst; unfold held_r, held_w in *;
  cbn [at_ pins writes reads move add_pins awake wake_shared] in *.
Ltac latch_side th Hat :=
  try done;
  try (apply thread_ok_move; [done|left; by rewrite Hat|]; match goal with Hok : thread_ok _ |- _ => destruct Hok as (_ & _ & Hok);
    rewrite Hat in Hok; done end);
  try (by intros _ [|[[]|]]); try (cbn -[held_r held_w]; lia).
Lemma act_lock_inv f l i th m :
  Inv f l → l !! i = Some th → at_ th = LockExclusive false → RecursiveSharedMutex.lock i (lock_ f) = Some m →
  Inv (set_lock m f) (<[i := move RecordWrite th]> l).
Proof.
  intros I Hi Hat Hm. pose proof (inv_thread _ _ I i th Hi) as Hok. pose proof (inv_shared _ _ I) as Hs.
  pose proof (inv_exclusive _ _ I) as He. pose proof (sum_lookup held_w l i th Hi) as Hwl.
  pose proof (sum_insert held_w l i th (move RecordWrite th) Hi) as Hw. pose proof (sum_insert held_r l i th (move RecordWrite th) Hi) as Hr.
  assert (i < length l)%nat as Hlen by by eapply lookup_lt_Some.
  assert (held_r (move RecordWrite th) = held_r th ∧ held_w (move RecordWrite th) = S (held_w th)) as [Er Ew] by (at_pc th Hat; lia).
  unfold RecursiveSharedMutex.lock in Hm. destruct (decide _) as [Hbusy|Hfree].
  - destruct (decide _) as [Hown|]; [|done]. injection Hm as <-. apply inv_mutex with th; latch_side th Hat.
    destruct He as [(_ & Ho & _)|(He & Hs0 & k & thk & Ho & Hk & Hpos & Hc & Hsum)]; [congruence|]. right.
    assert (k = i) as -> by congruence. assert (thk = th) as -> by congruence. split_and!; [done|lia|].
    exists i, (move RecordWrite th). rewrite list_lookup_insert_eq by done. cbn [RecursiveSharedMutex.recursive_count_ RecursiveSharedMutex.set_recursive].
    split_and!; try done; lia.
  - injection Hm as <-. destruct He as [(He & Ho & Hsum)|(He & _)]; [|lia].
    apply inv_mutex with th; latch_side th Hat.
    right. cbn [RecursiveSharedMutex.exclusive_lock_count_ RecursiveSharedMutex.recursive_owner_ RecursiveSharedMutex.recursive_count_].
    split_and!; [lia|lia|]. exists i, (move RecordWrite th). rewrite list_lookup_insert_eq by done. split_and!; try done; lia.
Qed.
Lemma act_unlock_inv f l i th :
  Inv f l → l !! i = Some th → at_ th = UnlockExclusive →
  Inv (set_lock (RecursiveSharedMutex.unlock i (lock_ f)).1 f) (<[i := move Idle th]> l).
Proof.
  intros I Hi Hat. pose proof (inv_thread _ _ I i th Hi) as Hok. pose proof (inv_shared _ _ I) as Hs.
  pose proof (inv_exclusive _ _ I) as He. pose proof (sum_lookup held_w l i th Hi) as Hwl.
  pose proof (sum_insert held_w l i th (move Idle th) Hi) as Hw. pose proof (sum_insert held_r l i th (move Idle th) Hi) as Hr.
  assert (i < length l)%nat as Hlen by by eapply lookup_lt_Some.
  assert (held_r (move Idle th) = held_r th ∧ held_w th = S (held_w (move Idle th))) as [Er Ew] by (at_pc th Hat; lia).
  destruct He as [(_ & _ & Hsum)|(He & Hs0 & k & thk & Ho & Hk & Hpos & Hc & Hsum)]; [lia|].
  destruct (decide (k = i)) as [->|Hki].
  2:{ pose proof (sum_two held_w l k i thk th Hk Hi Hki). lia. }
  assert (thk = th) as -> by congruence. unfold RecursiveSharedMutex.unlock. destruct (decide _) as [[_ Hmore]|Hlast].
  - apply inv_mutex with th; latch_side th Hat. right. split_and!; [done|lia|]. exists i, (move Idle th).
    rewrite list_lookup_insert_eq by done. cbn [RecursiveSharedMutex.recursive_count_ RecursiveSharedMutex.set_recursive fst].
    split_and!; try done; lia.
  - assert (held_w (move Idle th) = 0%nat).
    { destruct (decide (RecursiveSharedMutex.recursive_count_ (lock_ f) > 1)); [by exfalso; apply Hlast|lia]. }
    apply inv_mutex with th; latch_side th Hat. left. cbn. split_and!; [lia|done|lia].
Qed.
Lemma act_lock_shared_inv f l i th :
  Inv f l → l !! i = Some th → at_ th = LockShared false ∨ at_ th = TryShared → RecursiveSharedMutex.exclusive_lock_count_ (lock_ f) <= 0 →
  Inv (set_lock (RecursiveSharedMutex.set_shared (RecursiveSharedMutex.shared_lock_count_ (lock_ f) + 1) (lock_ f)) f)
    (<[i := move RecordRead th]> l).
Proof.
  intros I Hi Hat Hfree. pose proof (inv_thread _ _ I i th Hi) as Hok.
  pose proof (sum_insert held_w l i th (move RecordRead th) Hi) as Hw.
  assert (held_r (move RecordRead th) = S (held_r th) ∧ held_w (move RecordRead th) = held_w th) as [Er Ew]
    by (destruct Hat as [Hat|Hat]; at_pc th Hat; lia).
  apply inv_mutex with th; try done.
  - destruct Hat as [Hat|Hat]; latch_side th Hat.
  - cbn -[held_r held_w]. lia.
  - destruct (inv_exclusive _ _ I) as [(He & Ho & Hsum)|(He & _)]; [|lia]. left. split_and!; [done|done|lia].
  - intros Hrr _. destruct (inv_readers _ _ I Hrr i) as [_ H]. apply (H th Hi). destruct Hat as [->| ->]; [right; left; by eexists|by right; right].
Qed.
Lemma act_unlock_shared_inv f l i th :
  Inv f l → l !! i = Some th → at_ th = UnlockShared →
  Inv (set_lock (RecursiveSharedMutex.unlock_shared (lock_ f)).1 f) (<[i := move Idle th]> l).
Proof.
  intros I Hi Hat. pose proof (inv_thread _ _ I i th Hi) as Hok. pose proof (sum_lookup held_r l i th Hi).
  pose proof (sum_insert held_w l i th (move Idle th) Hi) as Hw.
  assert (held_r th = S (held_r (move Idle th)) ∧ held_w (move Idle th) = held_w th) as [Er Ew] by (at_pc th Hat; lia).
  apply inv_mutex with th; latch_side th Hat.
  destruct (inv_exclusive _ _ I) as [(He & Ho & Hsum)|(He & Hs0 & _)]; [|lia]. left. split_and!; [done|done|lia].
Qed.

(** *** What is recorded in the frame *)
Ltac asserts Hf :=
  repeat (let E := fresh in
    match type of Hf with ?g (assert debug ?b) = _ => destruct (assert debug b) eqn:E end; clear E; simpl in Hf; [|done]).
Lemma others_write_nothing f l i th j th' :
  Inv f l → l !! i = Some th → (0 < held_w th)%nat → l !! j = Some th' → i ≠ j → writes th' = 0%nat.
Proof. intros I Hi Hw Hj Hij. pose proof (held_exclusive f l i th j th' I Hi Hw Hj) as [_ H]. pose proof (writes_held th'). specialize (H Hij). lia. Qed.
Lemma act_record_write_inv f l i th :
  Inv f l → l !! i = Some th → at_ th = RecordWrite →
  Inv (record_write i f) (<[i := mk_thread Idle (pins th) (S (writes th)) (reads th)]> l).
Proof.
  intros I Hi Hat. set (th' := mk_thread Idle (pins th) (S (writes th)) (reads th)).
  pose proof (inv_thread _ _ I i th Hi) as (Hok1 & Hok2 & Hok3). rewrite Hat in Hok2, Hok3. cbn in Hok3.
  assert (held_w th' = held_w th ∧ held_r th' = held_r th ∧ (0 < held_w th)%nat) as (Ew & Er & Hpos)
    by (unfold held_w, held_r, th'; rewrite Hat; cbn; lia).
  pose proof (sum_insert held_r l i th th' Hi). pose proof (sum_insert pins l i th th' Hi) as Hp. pose proof (sum_insert writes l i th th' Hi) as Hw.
  assert (i < length l)%nat as Hlen by by eapply lookup_lt_Some.
  cbn in Hp, Hw. constructor; cbn [record_write set_write lock_ pin_count_ write_recursive_count_ write_locker_ read_lockers_].
  - eapply thread_insert; [apply (inv_thread _ _ I)|]. split_and!; [by right|intros _; apply Hok2; by left|done].
  - pose proof (inv_shared _ _ I). lia.
  - eapply exclusive_insert; [apply (inv_exclusive _ _ I)|exact Hi|done|lia].
  - pose proof (inv_pins _ _ I). lia.
  - pose proof (inv_writes _ _ I). lia.
  - intros j. split.
    + intros [= <-]. exists th'. rewrite list_lookup_insert_eq by done. split; [done|cbn; lia].
    + intros (x & [(-> & _)|(Hij & Hj)]%list_lookup_insert_Some & Hx); [done|].
      rewrite (others_write_nothing f l i th j x I Hi Hpos Hj Hij) in Hx. lia.
  - intros Hrr. eapply readers_insert; [by apply (inv_readers _ _ I)|exact Hi|done|]. by intros [|[[]|]].
Qed.
Lemma act_begin_write_unlatch_inv f f' l i th n :
  Inv f l → l !! i = Some th → at_ th = Idle → writes th = S n → begin_write_unlatch debug i f = Some f' →
  Inv f' (<[i := mk_thread UnlockExclusive (pins th) n (reads th)]> l).
Proof.
  intros I Hi Hat Hn Hf. set (th' := mk_thread UnlockExclusive (pins th) n (reads th)).
  pose proof (inv_thread _ _ I i th Hi) as (Hok1 & Hok2 & Hok3).
  assert (held_w th' = held_w th ∧ held_r th' = held_r th ∧ (0 < held_w th)%nat) as (Ew & Er & Hpos)
    by (unfold held_w, held_r, th'; rewrite Hat; cbn; lia).
  pose proof (sum_insert held_r l i th th' Hi). pose proof (sum_insert pins l i th th' Hi) as Hp. pose proof (sum_insert writes l i th th' Hi) as Hw.
  assert (i < length l)%nat as Hlen by by eapply lookup_lt_Some. cbn in Hp, Hw.
  assert (write_locker_ f = Some i) as Hlocker by (apply (inv_writer _ _ I); exists th; split; [done|lia]).
  assert (sum_list_with writes l = writes th) as Hsum.
  { destruct (inv_exclusive _ _ I) as [(_ & _ & E)|(_ & _ & k & thk & _ & Hk & _ & _ & E)].
    - pose proof (sum_lookup held_w l i th Hi). lia.
    - assert (k = i) as ->. { destruct (decide (k = i)); [done|]. pose proof (sum_two held_w l k i thk th Hk Hi ltac:(done)). lia. }
      assert (thk = th) as -> by congruence. pose proof (sum_lookup writes l i th Hi).
      assert (sum_list_with writes l <= sum_list_with held_w l)%nat.
      { clear. induction l as [|x l IH]; [done|]. simpl. pose proof (writes_held x). lia. }
      unfold held_w in E at 2. rewrite Hat in E. lia. }
  unfold begin_write_unlatch in Hf. asserts Hf. injection Hf as <-.
  pose proof (inv_writes _ _ I) as Hrec.
  constructor; cbn [set_write lock_ pin_count_ write_recursive_count_ write_locker_ read_lockers_].
  - eapply thread_insert; [apply (inv_thread _ _ I)|]. split_and!; [cbn; lia|intros _; apply Hok2; right; left; lia|cbn; lia].
  - pose proof (inv_shared _ _ I). lia.
  - eapply exclusive_insert; [apply (inv_exclusive _ _ I)|exact Hi|done|lia].
  - pose proof (inv_pins _ _ I). lia.
  - lia.
  - intros j. split.
    + destruct (decide _); [done|]. rewrite Hlocker. intros [= <-]. exists th'. rewrite list_lookup_insert_eq by done. split; [done|cbn; lia].
    + intros (x & [(-> & <- & _)|(Hij & Hj)]%list_lookup_insert_Some & Hx); [cbn in Hx; rewrite decide_False by lia; done|].
      rewrite (others_write_nothing f l i th j x I Hi Hpos Hj Hij) in Hx. lia.
  - intros Hrr. eapply readers_insert; [by apply (inv_readers _ _ I)|exact Hi|done|]. by intros [|[[]|]].
Qed.
Lemma act_record_read_inv f l i th :
  Inv f l → l !! i = Some th → at_ th = RecordRead →
  Inv (record_read i f) (<[i := mk_thread Idle (pins th) (writes th) (S (reads th))]> l).
Proof.
  intros I Hi Hat. set (th' := mk_thread Idle (pins th) (writes th) (S (reads th))).
  pose proof (inv_thread _ _ I i th Hi) as (Hok1 & Hok2 & Hok3). rewrite Hat in Hok2, Hok3. cbn in Hok3.
  assert (held_w th' = held_w th ∧ held_r th' = held_r th) as (Ew & Er) by (unfold held_w, held_r, th'; rewrite Hat; cbn; lia).
  pose proof (sum_insert held_r l i th th' Hi). pose proof (sum_insert pins l i th th' Hi) as Hp. pose proof (sum_insert writes l i th th' Hi) as Hw.
  assert (i < length l)%nat as Hlen by by eapply lookup_lt_Some. cbn in Hp, Hw.
  constructor; cbn [record_read set_readers lock_ pin_count_ write_recursive_count_ write_locker_ read_lockers_].
  - eapply thread_insert; [apply (inv_thread _ _ I)|]. split_and!; [by left|intros _; apply Hok2; by left|done].
  - pose proof (inv_shared _ _ I). lia.
  - eapply exclusive_insert; [apply (inv_exclusive _ _ I)|exact Hi|done|lia].
  - pose proof (inv_pins _ _ I). lia.
  - pose proof (inv_writes _ _ I). lia.
  - eapply writer_insert; [apply (inv_writer _ _ I)|exact Hi|done].
  - intros Hrr j. destruct (inv_readers _ _ I Hrr i) as [Hri Hri2]. destruct (inv_readers _ _ I Hrr j) as [Hrj Hrj2].
    destruct (Hri2 th Hi) as [_ H0]. specialize (H0 (or_introl Hat)). rewrite Hi in Hri. simpl in Hri. rewrite decide_True in Hri by done.
    destruct (decide (i = j)) as [->|Hij].
    + rewrite list_lookup_insert_eq, lookup_insert_eq by done. rewrite Hri. simpl. split; [done|].
      intros x [= <-]. cbn. split; [lia|by intros [|[[]|]]].
    + by rewrite list_lookup_insert_ne, lookup_insert_ne.
Qed.
Lemma act_begin_read_unlatch_inv f f' l i th n :
  Inv f l → l !! i = Some th → at_ th = Idle → reads th = S n → begin_read_unlatch debug i f = Some f' →
  Inv f' (<[i := mk_thread UnlockShared (pins th) (writes th) n]> l).
Proof.
  intros I Hi Hat Hn Hf. set (th' := mk_thread UnlockShared (pins th) (writes th) n).
  pose proof (inv_thread _ _ I i th Hi) as (Hok1 & Hok2 & Hok3).
  assert (held_w th' = held_w th ∧ held_r th' = held_r th) as (Ew & Er) by (unfold held_w, held_r, th'; rewrite Hat; cbn; lia).
  pose proof (sum_insert held_r l i th th' Hi). pose proof (sum_insert pins l i th th' Hi) as Hp. pose proof (sum_insert writes l i th th' Hi) as Hw.
  assert (i < length l)%nat as Hlen by by eapply lookup_lt_Some. cbn in Hp, Hw.
  unfold begin_read_unlatch in Hf. asserts Hf.
  assert (∃ readers, f' = set_readers readers f ∧ (recursive_reads = false → readers = delete i (read_lockers_ f)))
    as (readers & -> & Hreaders).
  { injection Hf as <-. destruct (decide (1 = _)) as [H1|H1]; [by eexists|].
    exists (read_lockers_ f). split; [by destruct f|]. intros Hrr. exfalso. apply H1.
    destruct (inv_readers _ _ I Hrr i) as [Hri _]. rewrite Hi in Hri. simpl in Hri. rewrite decide_False in Hri by lia. by rewrite Hri. }
  constructor; cbn [set_readers lock_ pin_count_ write_recursive_count_ write_locker_ read_lockers_].
  - eapply thread_insert; [apply (inv_thread _ _ I)|]. split_and!; [cbn; lia|intros _; apply Hok2; right; right; lia|cbn; lia].
  - pose proof (inv_shared _ _ I). lia.
  - eapply exclusive_insert; [apply (inv_exclusive _ _ I)|exact Hi|done|lia].
  - pose proof (inv_pins _ _ I). lia.
  - pose proof (inv_writes _ _ I). lia.
  - eapply writer_insert; [apply (inv_writer _ _ I)|exact Hi|done].
  - intros Hrr j. rewrite (Hreaders Hrr). destruct (inv_readers _ _ I Hrr i) as [_ Hri2]. destruct (inv_readers _ _ I Hrr j) as [Hrj Hrj2].
    destruct (Hri2 th Hi) as [H1 _]. destruct (decide (i = j)) as [->|Hij].
    + rewrite list_lookup_insert_eq, lookup_delete_eq by done. simpl. rewrite decide_True by lia. split; [done|].
      intros x [= <-]. cbn. split; [lia|by intros [|[[]|]]].
    + by rewrite list_lookup_insert_ne, lookup_delete_ne.
Qed.
Lemma inv_pin f l i th p :
  Inv f l → l !! i = Some th → at_ th = Idle → ((0 < writes th)%nat ∨ (0 < reads th)%nat → (0 < p)%nat) →
  Inv (set_pin (pin_count_ f - Z.of_nat (pins th) + Z.of_nat p) f) (<[i := add_pins p th]> l).
Proof.
  intros I Hi Hat Hp. pose proof (inv_thread _ _ I i th Hi) as (Hok1 & Hok2 & Hok3).
  pose proof (sum_insert held_r l i th (add_pins p th) Hi) as Hr. pose proof (sum_insert pins l i th (add_pins p th) Hi) as Hps.
  pose proof (sum_insert writes l i th (add_pins p th) Hi) as Hw. unfold held_r in Hr. cbn in Hr, Hps, Hw.
  constructor; cbn [set_pin lock_ pin_count_ write_recursive_count_ write_locker_ read_lockers_].
  - eapply thread_insert; [apply (inv_thread _ _ I)|]. split_and!; [done|intros [|Hlt]; [done|by apply Hp]|done].
  - pose proof (inv_shared _ _ I) as Hs. unfold held_r in Hs |- *. lia.
  - eapply exclusive_insert; [apply (inv_exclusive _ _ I)|exact Hi|done|done].
  - pose proof (inv_pins _ _ I). lia.
  - pose proof (inv_writes _ _ I). lia.
  - eapply writer_insert; [apply (inv_writer _ _ I)|exact Hi|done].
  - intros Hrr. eapply readers_insert; [by apply (inv_readers _ _ I)|exact Hi|done|]. cbn. rewrite Hat. by intros [|[[]|]].
Qed.

(** *** Every act *)
Lemma awake_not_asleep th : at_ th ≠ LockExclusive true → at_ th ≠ LockShared true → awake th = th.
Proof. destruct th as [[|[]| | |[]| | |] ? ? ?]; done. Qed.
Lemma act_awake i th f r : act recursive_reads i th f r → awake th = th.
Proof. intros H. apply awake_not_asleep; destruct H; congruence. Qed.
Lemma move_move p q th : move p (move q th) = move p th.
Proof. done. Qed.
Lemma unpin_set f f' : unpin debug f = Some f' → f' = set_pin (pin_count_ f - 1) f.
Proof.
  intros Hf. unfold unpin in Hf. asserts Hf. destruct (decide _); [asserts Hf|]; by injection Hf as <-.
Qed.
Lemma act_inv f f' l i th th' w :
  act recursive_reads i th f (Some (th', f', w)) → Inv f l → l !! i = Some th → Inv f' (<[i := awake th']> l).
Proof.
  intros Hact I Hi. pose proof (inv_thread _ _ I i th Hi) as Hok. remember (Some (th', f', w)) as r eqn:Er.
  destruct Hact as [th f Hat|th f n Hat Hn Hlast|th f Hat Hp Hr|th f Hat|th f Hat|th f n Hat Hn|th f Hat|th f tries Hat Hp Hw Hrr|th f Hat|th f Hat
    |th f Hat|th f n Hat Hn|th f Hat].
  - injection Er as <- <- <-. rewrite awake_not_asleep by (cbn; by rewrite Hat).
    replace (pin f) with (set_pin (pin_count_ f - Z.of_nat (pins th) + Z.of_nat (S (pins th))) f) by (unfold pin; f_equal; lia).
    apply inv_pin; [done|done|done|lia].
  - destruct (unpin debug f) as [f1|] eqn:Hf; [|done]. injection Er as <- <- <-. apply unpin_set in Hf as ->.
    rewrite awake_not_asleep by (cbn; by rewrite Hat).
    replace (pin_count_ f - 1) with (pin_count_ f - Z.of_nat (pins th) + Z.of_nat n) by lia.
    apply inv_pin; [done|done|done|]. destruct n; [destruct (Hlast eq_refl)|]; lia.
  - destruct (check_write debug i f) eqn:Hf; [|done]. injection Er as <- <- <-. cbn [awake move at_].
    apply inv_quiet with th; latch_side th Hat; try (unfold held_w, held_r; by rewrite Hat).
    apply thread_ok_move; [done|right; lia|done].
  - injection Er as Er. destruct (RecursiveSharedMutex.lock i (lock_ f)) as [m|] eqn:Hm; injection Er as <- <- <-; cbn [awake move at_].
    + by apply act_lock_inv.
    + rewrite ?move_move. apply inv_quiet with th; latch_side th Hat; unfold held_w, held_r; by rewrite Hat.
  - injection Er as <- <- <-. by apply act_record_write_inv.
  - destruct (begin_write_unlatch debug i f) eqn:Hf; [|done]. injection Er as <- <- <-. by eapply act_begin_write_unlatch_inv.
  - injection Er as <- <- <-. by apply act_unlock_inv.
  - destruct (check_read debug i f) eqn:Hf; [|done]. injection Er as <- <- <-.
    replace (awake _) with (move (if tries then TryShared else LockShared false) th) by by destruct tries.
    apply inv_quiet with th; try done.
    + apply thread_ok_move; [done|right; lia|by destruct tries].
    + unfold held_w. rewrite Hat. by destruct tries.
    + unfold held_r. rewrite Hat. by destruct tries.
    + intros Hrec _. by apply Hrr.
  - injection Er as Er. unfold RecursiveSharedMutex.lock_shared in Er. destruct (decide _); injection Er as <- <- <-; cbn [awake wake_shared move at_].
    + rewrite ?move_move. apply inv_quiet with th; latch_side th Hat; try (unfold held_w, held_r; by rewrite Hat).
      intros Hrr _. destruct (inv_readers _ _ I Hrr i) as [_ H]. apply (H th Hi). right. left. by eexists.
    + apply act_lock_shared_inv; [done|done|by left|lia].
  - injection Er as Er. unfold RecursiveSharedMutex.try_lock_shared in Er. destruct (decide _); injection Er as <- <- <-; cbn [awake wake_shared move at_].
    + apply act_lock_shared_inv; [done|done|by right|lia].
    + apply inv_quiet with th; latch_side th Hat; unfold held_w, held_r; by rewrite Hat.
  - injection Er as <- <- <-. by apply act_record_read_inv.
  - destruct (begin_read_unlatch debug i f) eqn:Hf; [|done]. injection Er as <- <- <-. by eapply act_begin_read_unlatch_inv.
  - injection Er as <- <- <-. by apply act_unlock_shared_inv.
Qed.

(** *** No ASSERT fails, unless a thread reads twice *)
Lemma assert_true b : b = true → assert debug b = Some ().
Proof. intros ->. unfold assert. by rewrite andb_false_r. Qed.
Lemma readers_when f l i th :
  Inv f l → recursive_reads = false → l !! i = Some th →
  read_lockers_ f !! i = if decide (reads th = 0%nat) then None else Some 1.
Proof. intros I Hrr Hi. destruct (inv_readers _ _ I Hrr i) as [H _]. by rewrite Hi in H. Qed.
Lemma all_free f l :
  Inv f l → (∀ i th, l !! i = Some th → writes th = 0%nat ∧ reads th = 0%nat) →
  write_locker_ f = None ∧ (recursive_reads = false → read_lockers_ f = ∅).
Proof.
  intros I Hall. split.
  - destruct (write_locker_ f) as [j|] eqn:E; [|done]. apply (inv_writer _ _ I) in E as (th & Hj & Hw). destruct (Hall j th Hj). lia.
  - intros Hrr. apply map_eq. intros j. rewrite lookup_empty. destruct (inv_readers _ _ I Hrr j) as [-> _].
    destruct (l !! j) as [th|] eqn:E; [|done]. simpl. by rewrite decide_True by apply (Hall j th E).
Qed.
Lemma pins_positive f l i th : Inv f l → l !! i = Some th → (0 < pins th)%nat → pin_count_ f > 0.
Proof. intros I Hi Hp. pose proof (inv_pins _ _ I). pose proof (sum_lookup pins l i th Hi). lia. Qed.
Lemma unpin_ok f l i th n :
  Inv f l → recursive_reads = false → l !! i = Some th → pins th = S n → (n = 0%nat → writes th = 0%nat ∧ reads th = 0%nat) →
  unpin debug f ≠ None.
Proof.
  intros I Hst Hi Hp Hlast. pose proof (pins_positive f l i th I Hi ltac:(lia)) as Hpos. pose proof (inv_pins _ _ I) as Hpins.
  unfold unpin. rewrite (assert_true (bool_decide (pin_count_ f > 0))) by by apply bool_decide_eq_true_2. simpl. destruct (decide _) as [Hz|]; [|done].
  destruct (all_free f l I) as [Hw Hr].
  { intros j thj Hj. destruct (decide (i = j)) as [->|Hij].
    - assert (thj = th) as -> by congruence. pose proof (sum_lookup pins l j th Hi). apply Hlast. lia.
    - pose proof (sum_two pins l i j th thj Hi Hj Hij). destruct (inv_thread _ _ I j thj Hj) as (_ & Hpj & _).
      destruct (decide (0 < writes thj ∨ 0 < reads thj)%nat); [specialize (Hpj ltac:(tauto))|]; lia. }
  cbn [set_pin write_locker_ read_lockers_]. rewrite Hw. rewrite (assert_true (bool_decide (None = None))) by by apply bool_decide_eq_true_2. simpl.
  rewrite assert_true; [done|]. apply bool_decide_eq_true_2, Hr; auto.
Qed.
Lemma act_assert f l i th : Inv f l → recursive_reads = false → l !! i = Some th → ¬ act recursive_reads i th f None.
Proof.
  intros I Hrr Hi Hact.
  pose proof (inv_thread _ _ I i th Hi) as (Hok1 & Hok2 & Hok3).
  remember None as r eqn:Er. destruct Hact as [| th f n Hat Hn Hlast|th f Hat Hp Hr| | |th f n Hat Hn| |th f tries Hat Hp Hw _| | | |th f n Hat Hn|];
    try done; revert Er.
  - destruct (unpin debug f) eqn:E; [done|]. by eapply unpin_ok in E.
  - unfold check_write. rewrite (assert_true (bool_decide (pin_count_ f > 0))) by (apply bool_decide_eq_true_2; eapply pins_positive; [done..|lia]). simpl.
    rewrite assert_true; [done|]. apply bool_decide_eq_true_2. rewrite (readers_when f l i th I Hrr Hi). by rewrite decide_True.
  - assert (write_locker_ f = Some i) as Hl by (apply (inv_writer _ _ I); exists th; split; [done|lia]).
    unfold begin_write_unlatch. rewrite (assert_true (bool_decide (pin_count_ f > 0))) by (apply bool_decide_eq_true_2; eapply pins_positive; [done..|apply Hok2; right; lia]). simpl.
    by rewrite assert_true by by apply bool_decide_eq_true_2.
  - unfold check_read. rewrite (assert_true (bool_decide (pin_count_ f > 0))) by (apply bool_decide_eq_true_2; eapply pins_positive; [done..|lia]). simpl.
    rewrite assert_true; [done|]. apply bool_decide_eq_true_2. intros E. symmetry in E. apply (inv_writer _ _ I) in E as (x & Hx & Hpos).
    assert (x = th) as -> by congruence. lia.
  - unfold begin_read_unlatch. rewrite (assert_true (bool_decide (pin_count_ f > 0))) by (apply bool_decide_eq_true_2; eapply pins_positive; [done..|apply Hok2; right; lia]). simpl.
    rewrite (readers_when f l i th I Hrr Hi). destruct (decide (reads th = 0%nat)); [lia|]. done.
Qed.

(** *** No wake-up is lost *)
Abbreviation excl f := (RecursiveSharedMutex.exclusive_lock_count_ (lock_ f)).
Abbreviation shared f := (RecursiveSharedMutex.shared_lock_count_ (lock_ f)).
Definition shared_awake l : Prop := ∀ i th, l !! i = Some th → at_ th ≠ LockShared true.
Definition exclusive_awake l : Prop :=
  (∃ i th, l !! i = Some th ∧ at_ th = LockExclusive true) → ∃ i th, l !! i = Some th ∧ at_ th = LockExclusive false.
Definition Wake f l : Prop := (excl f <= 0 → shared_awake l) ∧ (excl f <= 0 → shared f <= 0 → exclusive_awake l).

Lemma notify_one_exclusive l l' : notify_one l l' → exclusive_awake l'.
Proof.
  intros [i th Hi Hat|Hno]; [|intros (i & th & Hi & Hat); by destruct (Hno i th Hi)]. intros _. exists i, (move (LockExclusive false) th).
  by rewrite list_lookup_insert_eq by (by eapply lookup_lt_Some).
Qed.
Lemma notify_one_shared l l' : notify_one l l' → shared_awake l → shared_awake l'.
Proof. intros [i th Hi Hat|Hno] Hl; [|done]. intros j x [(<- & <- & _)|(_ & Hj)]%list_lookup_insert_Some; [done|by eapply Hl]. Qed.
Lemma wake_shared_awake l : shared_awake (wake_shared <$> l).
Proof. intros i th. rewrite list_lookup_fmap. destruct (l !! i) as [[[|[]| | |[]| | |] ? ? ?]|]; simpl; try done; by intros [= <-]. Qed.
Lemma shared_awake_insert l i th : shared_awake l → at_ th ≠ LockShared true → shared_awake (<[i := th]> l).
Proof. intros Hl Hth j x [(<- & <- & _)|(_ & Hj)]%list_lookup_insert_Some; [done|by eapply Hl]. Qed.
Lemma exclusive_awake_insert l i th th' :
  l !! i = Some th → exclusive_awake l → at_ th ≠ LockExclusive false → at_ th' ≠ LockExclusive true → exclusive_awake (<[i := th']> l).
Proof.
  intros Hi Hl Hth Hth' (j & x & [(_ & <- & _)|(Hij & Hj)]%list_lookup_insert_Some & Hat); [done|].
  destruct Hl as (k & y & Hk & Hy); [by exists j, x|]. exists k, y. split; [|done]. rewrite list_lookup_insert_ne; [done|].
  intros ->. congruence.
Qed.
(** a step that notifies nobody *)
Lemma wake_insert f f' l i th th' :
  Wake f l → l !! i = Some th → (excl f' <= 0 → excl f <= 0 ∧ at_ th' ≠ LockShared true) →
  (excl f' <= 0 → shared f' <= 0 → shared f <= 0 ∧ at_ th ≠ LockExclusive false ∧ at_ th' ≠ LockExclusive true) →
  Wake f' (<[i := th']> l).
Proof.
  intros [Hs He] Hi H1 H2. split.
  - intros Hx. destruct (H1 Hx). by apply shared_awake_insert; [apply Hs|].
  - intros Hx Hy. destruct (H1 Hx), (H2 Hx Hy) as (? & ? & ?). eapply exclusive_awake_insert; [done|by apply He|done|done].
Qed.
(** an act that leaves the mutex alone *)
Lemma wake_same f f' l i th th' :
  Wake f l → l !! i = Some th → lock_ f' = lock_ f → at_ th ≠ LockExclusive false → at_ th' ≠ LockShared true →
  at_ th' ≠ LockExclusive true → Wake f' (<[i := th']> l).
Proof. intros HW Hi Hl H1 H2 H3. eapply wake_insert; [done..| |]; rewrite Hl; auto. Qed.
Lemma begin_lock f f' i :
  unpin debug f = Some f' ∨ begin_write_unlatch debug i f = Some f' ∨ begin_read_unlatch debug i f = Some f' → lock_ f' = lock_ f.
Proof.
  intros [->%unpin_set|[H|H]]; [done| |].
  - unfold begin_write_unlatch in H. asserts H. by injection H as <-.
  - unfold begin_read_unlatch in H. asserts H. injection H as <-. by destruct (decide _).
Qed.
Lemma act_wake f f' l l' i th th' w :
  act recursive_reads i th f (Some (th', f', w)) → Inv f (awake <$> l) → Wake f l → l !! i = Some th →
  woken w (<[i := th']> l) l' → Wake f' l'.
Proof.
  intros Hact I HW Hi Hl. pose proof (inv_shared _ _ I) as Hsh.
  assert (excl f = 0 ∨ excl f = 1) as Hex by (destruct (inv_exclusive _ _ I) as [(?&_)|(?&_)]; auto).
  assert (Hla : (awake <$> l) !! i = Some th) by (rewrite list_lookup_fmap, Hi; simpl; f_equal; by eapply act_awake).
  remember (Some (th', f', w)) as r eqn:Er.
  destruct Hact as [th f Hat|th f n Hat Hn Hlast|th f Hat Hp Hr|th f Hat|th f Hat|th f n Hat Hn|th f Hat|th f tries Hat Hp Hw Hrr|th f Hat|th f Hat
    |th f Hat|th f n Hat Hn|th f Hat].
  1: { injection Er as <- <- <-. simpl in Hl. subst l'. eapply wake_same; try done; cbn; congruence. }
  1: { destruct (unpin debug f) as [f1|] eqn:Hf; [|done]. injection Er as <- <- <-. simpl in Hl. subst l'.
       eapply wake_same; [done|done|apply (begin_lock f f1 i); auto|cbn; congruence..]. }
  1: { destruct (check_write debug i f); [|done]. injection Er as <- <- <-. simpl in Hl. subst l'. eapply wake_same; try done; congruence. }
  2: { injection Er as <- <- <-. simpl in Hl. subst l'. eapply wake_same; try done; congruence. }
  2: { destruct (begin_write_unlatch debug i f) as [f1|] eqn:Hf; [|done]. injection Er as <- <- <-. simpl in Hl. subst l'.
       eapply wake_same; [done|done|apply (begin_lock f f1 i); auto|cbn; congruence..]. }
  3: { destruct (check_read debug i f); [|done]. injection Er as <- <- <-. simpl in Hl. subst l'.
       eapply wake_same; [done|done|done|congruence|by destruct tries..]. }
  5: { injection Er as <- <- <-. simpl in Hl. subst l'. eapply wake_same; try done; congruence. }
  5: { destruct (begin_read_unlatch debug i f) as [f1|] eqn:Hf; [|done]. injection Er as <- <- <-. simpl in Hl. subst l'.
       eapply wake_same; [done|done|apply (begin_lock f f1 i); auto|cbn; congruence..]. }
  - (* lock *) injection Er as Er. unfold RecursiveSharedMutex.lock in Er. destruct (decide _) as [Hbusy|Hfree].
    + destruct (decide _); injection Er as <- <- <-; simpl in Hl; subst l'; (eapply wake_insert; [done..| |]; cbn; [by intros|lia]).
    + injection Er as <- <- <-. simpl in Hl. subst l'. eapply wake_insert; [done..| |]; cbn; lia.
  - (* unlock *) injection Er as <- <- <-. unfold RecursiveSharedMutex.unlock in *. destruct (decide _) as [Hrec|Hlast].
    + simpl in Hl. subst l'. eapply wake_insert; [done..| |]; cbn; intros; split_and!; try done; congruence.
    + assert (excl f = 1) as H1.
      { pose proof (sum_lookup held_w (awake <$> l) i th Hla) as Hwl. unfold held_w at 1 in Hwl. rewrite Hat in Hwl.
        destruct (inv_exclusive _ _ I) as [(_ & _ & E)|(E & _)]; [lia|done]. }
      cbn [snd] in Hl. rewrite bool_decide_eq_true_2 in Hl by (cbn; lia). simpl in Hl. split; intros.
      * eapply notify_one_shared; [exact Hl|apply wake_shared_awake].
      * by eapply notify_one_exclusive.
  - (* lock_shared *) injection Er as Er. unfold RecursiveSharedMutex.lock_shared in Er.
    destruct (decide _); injection Er as <- <- <-; simpl in Hl; subst l'; (eapply wake_insert; [done..| |]; cbn; [try lia; by intros|lia]).
  - (* try_lock_shared *) injection Er as Er. unfold RecursiveSharedMutex.try_lock_shared in Er.
    destruct (decide _); injection Er as <- <- <-; simpl in Hl; subst l'.
    + eapply wake_insert; [done..| |]; cbn; [by intros|lia].
    + eapply wake_same; try done; congruence.
  - (* unlock_shared *) injection Er as <- <- <-. unfold RecursiveSharedMutex.unlock_shared in *. cbn [fst snd] in *.
    pose proof (sum_lookup held_r (awake <$> l) i th Hla) as Hrl. unfold held_r at 1 in Hrl. rewrite Hat in Hrl.
    destruct (bool_decide _) eqn:Hz; simpl in Hl.
    + split; intros Hx; cbn in Hx.
      * eapply notify_one_shared; [exact Hl|]. apply shared_awake_insert; [by apply HW|done].
      * intros _. by eapply notify_one_exclusive.
    + apply bool_decide_eq_false_1 in Hz. cbn in Hz. subst l'. eapply wake_insert; [done..| |]; cbn; [by intros|lia].
Qed.

(** *** A thread that sleeps holds nothing *)
Definition asleep (th : ThreadState) : Prop := at_ th = LockExclusive true ∨ at_ th = LockShared true.
Definition Sleep l : Prop := ∀ i th, l !! i = Some th → asleep th → writes th = 0%nat ∧ reads th = 0%nat.
Lemma act_sleep f f' l i th th' w :
  act recursive_reads i th f (Some (th', f', w)) → Inv f l → l !! i = Some th → asleep th' →
  writes th' = 0%nat ∧ reads th' = 0%nat.
Proof.
  intros Hact I Hi Hs. pose proof (inv_thread _ _ I i th Hi) as (Hok1 & Hok2 & Hok3).
  remember (Some (th', f', w)) as r eqn:Er.
  destruct Hact as [th f Hat|th f n Hat Hn Hlast|th f Hat Hp Hr|th f Hat|th f Hat|th f n Hat Hn|th f Hat|th f tries Hat Hp Hw Hrr|th f Hat|th f Hat
    |th f Hat|th f n Hat Hn|th f Hat]; try (injection Er as <- <- <-; destruct Hs; cbn in *; congruence).
  - destruct (unpin debug f); [|done]. injection Er as <- <- <-. destruct Hs; cbn in *; congruence.
  - destruct (check_write debug i f); [|done]. injection Er as <- <- <-. destruct Hs; cbn in *; congruence.
  - injection Er as Er. rewrite Hat in Hok3. cbn in Hok3. unfold RecursiveSharedMutex.lock in Er.
    destruct (decide _) as [Hbusy|]; [|injection Er as <- <- <-; destruct Hs; done].
    destruct (decide _) as [|Hown]; injection Er as <- <- <-; [destruct Hs; done|]. cbn. split; [|done].
    destruct (decide (writes th = 0%nat)) as [|Hpos]; [done|]. exfalso. apply Hown.
    pose proof (writes_held th). pose proof (sum_lookup held_w l i th Hi).
    destruct (inv_exclusive _ _ I) as [(_ & _ & E)|(_ & _ & k & thk & Ho & Hk & _ & _ & E)]; [lia|]. rewrite Ho.
    destruct (decide (k = i)) as [->|Hki]; [done|]. pose proof (sum_two held_w l k i thk th Hk Hi Hki). lia.
  - destruct (begin_write_unlatch debug i f); [|done]. injection Er as <- <- <-. destruct Hs; cbn in *; congruence.
  - destruct (check_read debug i f); [|done]. injection Er as <- <- <-. by destruct tries, Hs.
  - injection Er as Er. rewrite Hat in Hok3. cbn in Hok3. unfold RecursiveSharedMutex.lock_shared in Er.
    destruct (decide _) as [Hbusy|]; injection Er as <- <- <-; [|destruct Hs; done]. cbn. split; [done|].
    pose proof (reads_held th). pose proof (sum_lookup held_r l i th Hi).
    destruct (inv_exclusive _ _ I) as [(E & _)|(_ & E & _)]; lia.
  - injection Er as Er. unfold RecursiveSharedMutex.try_lock_shared in Er. destruct (decide _); injection Er as <- <- <-; destruct Hs; done.
  - destruct (begin_read_unlatch debug i f); [|done]. injection Er as <- <- <-. destruct Hs; done.
Qed.
(** what a wake-up does to a thread *)
Lemma woken_asleep w l l' i th' :
  woken w l l' → l' !! i = Some th' → ∃ th, l !! i = Some th ∧ (asleep th' → th = th') ∧ awake th = awake th'.
Proof.
  assert (Hone : ∀ l l', notify_one l l' → l' !! i = Some th' → ∃ th, l !! i = Some th ∧ (asleep th' → th = th') ∧ awake th = awake th').
  { clear. intros l l' [j th Hj Hat|Hno] Hi; [|by exists th'].
    apply list_lookup_insert_Some in Hi as [(<- & <- & _)|(_ & Hi)]; [|by exists th']. exists th. split_and!; [done|by intros []|].
    destruct th as [p ? ? ?]. cbn in Hat. by subst. }
  destruct w; simpl; [intros -> Hi; by exists th'|apply Hone|]. intros Hw Hi. destruct (Hone _ _ Hw Hi) as (th & Hth & Hs & Ha).
  rewrite list_lookup_fmap in Hth. destruct (l !! i) as [th0|] eqn:E0; [|done]. injection Hth as <-. exists th0. split; [done|].
  rewrite <-Ha, awake_wake_shared. split; [|done]. intros Hsl. specialize (Hs Hsl). rewrite <-Hs in Hsl |- *.
  destruct th0 as [[|[]| | |[]| | |] ? ? ?]; try done; by destruct Hsl.
Qed.

(** ** Reachable states *)
Lemma reachable_inv n s :
  reachable recursive_reads n s → Inv s.1 (awake <$> s.2) ∧ Wake s.1 s.2 ∧ Sleep s.2.
Proof.
  induction 1 as [|s s' Hs IH Hstep].
  - cbn [fst snd]. set (th := mk_thread Idle 0 0 0).
    assert (∀ g : ThreadState → nat, g th = 0%nat → sum_list_with g (awake <$> replicate n th) = 0%nat) as Hsum.
    { intros g Hg. clear -Hg. induction n as [|n' IHn]; [done|]. change (g th + sum_list_with g (awake <$> replicate n' th) = 0)%nat. lia. }
    assert (∀ l i x, l = replicate n th ∨ l = awake <$> replicate n th → l !! i = Some x → x = th) as Hall.
    { intros l i x [->| ->]; [by intros [-> _]%lookup_replicate|]. rewrite list_lookup_fmap.
      destruct (replicate n th !! i) eqn:E; [|done]. apply lookup_replicate in E as [-> _]. by intros [= <-]. }
    split; [|split].
    + constructor; cbn [make lock_ pin_count_ write_locker_ write_recursive_count_ read_lockers_]; rewrite ?Hsum by done; try done.
      * intros i x Hx. rewrite (Hall _ i x (or_intror eq_refl) Hx). split_and!; [by left|cbn; intros [|[]]; [done|lia..]|done].
      * left. by rewrite Hsum.
      * intros i. split; [done|]. intros (x & Hx & Hp). rewrite (Hall _ i x (or_intror eq_refl) Hx) in Hp. cbn in Hp. lia.
      * intros _ i. split; [|intros x Hx; rewrite (Hall _ i x (or_intror eq_refl) Hx); cbn; split; [lia|done]].
        destruct ((awake <$> replicate n th) !! i) as [x|] eqn:E; [|done]. by rewrite (Hall _ i x (or_intror eq_refl) E).
    + split; [intros _ i x Hx|intros _ _ (i & x & Hx & Hat)]; rewrite (Hall _ i x (or_introl eq_refl) Hx) in *; done.
    + intros i x Hx. rewrite (Hall _ i x (or_introl eq_refl) Hx). by intros [].
  - destruct IH as (I & HW & HS). inversion Hstep as [f l i th th' f' w l' Hi Hact Hl E1 E2|?|f l i th p Hi Hp E1 E2]; subst; cbn [fst snd] in *.
    + assert (Hla : (awake <$> l) !! i = Some th) by (rewrite list_lookup_fmap, Hi; simpl; f_equal; by eapply act_awake).
      split; [|split].
      * rewrite (woken_awake w _ _ Hl), list_fmap_insert. by eapply act_inv.
      * by eapply act_wake.
      * intros j x Hj Hx. destruct (woken_asleep w _ _ j x Hl Hj) as (y & Hy & Heq & _). rewrite (Heq Hx) in Hy.
        apply list_lookup_insert_Some in Hy as [(<- & <- & _)|(_ & Hy)]; [by eapply act_sleep|by apply (HS j x)].
    + assert (awake (move p th) = awake th) as Ha by (destruct th as [q ? ? ?]; destruct Hp as [[Hat ->]|[Hat ->]]; cbn in Hat; by subst).
      split; [|split].
      * rewrite list_fmap_insert, Ha, list_insert_id; [done|]. by rewrite list_lookup_fmap, Hi.
      * split.
        -- intros Hx. apply shared_awake_insert; [by apply HW|]. destruct Hp as [[_ ->]|[_ ->]]; done.
        -- intros Hx Hy (j & x & [(_ & <- & _)|(Hij & Hj)]%list_lookup_insert_Some & Hat); [destruct Hp as [[_ ->]|[_ ->]]; done|].
           destruct (proj2 HW Hx Hy) as (k & y & Hk & Hyat); [by exists j, x|]. exists k, y. split; [|done].
           rewrite list_lookup_insert_ne; [done|]. intros ->. destruct Hp as [[Hat2 _]|[Hat2 _]]; congruence.
      * intros j x [(<- & <- & _)|(_ & Hj)]%list_lookup_insert_Some; [destruct Hp as [[_ ->]|[_ ->]]; by intros []|by eapply HS].
Qed.
End invariant.

Lemma awake_fields th : pins (awake th) = pins th ∧ writes (awake th) = writes th ∧ reads (awake th) = reads th.
Proof. by destruct th as [[|[]| | |[]| | |] ? ? ?]. Qed.
Lemma awake_lookup (l : list ThreadState) i th : l !! i = Some th → (awake <$> l) !! i = Some (awake th).
Proof. intros Hi. by rewrite list_lookup_fmap, Hi. Qed.
Lemma awake_pins (l : list ThreadState) : sum_list_with pins (awake <$> l) = sum_list_with pins l.
Proof.
  induction l as [|th l IH]; [done|]. change (pins (awake th) + sum_list_with pins (awake <$> l) = pins th + sum_list_with pins l)%nat.
  rewrite IH. by destruct (awake_fields th) as (-> & _).
Qed.
Lemma sum_positive {A} (g : A → nat) (l : list A) : (0 < sum_list_with g l)%nat → ∃ i x, l !! i = Some x ∧ (0 < g x)%nat.
Proof.
  induction l as [|x l IH]; simpl; [lia|]. intros Hs. destruct (decide (g x = 0%nat)) as [H0|]; [|exists 0%nat, x; split; [done|lia]].
  destruct IH as (i & y & Hi & Hy); [lia|]. by exists (S i), y.
Qed.

(** *** While threads wait, another can go on *)
Section progress.
Context (recursive_reads : bool) (f : FrameLatch.t) (l : list ThreadState).
Definition inside_or_holding (x : ThreadState) : Prop :=
  (at_ x ≠ Idle ∧ ¬ asleep x) ∨ at_ x = Idle ∧ (0 < writes x ∨ 0 < reads x)%nat.
Definition can_go_on : Prop :=
  ∃ j th, l !! j = Some th ∧
    (at_ th ≠ Idle ∧ (∃ r, act recursive_reads j th f (Some r)) ∨ at_ th = Idle ∧ (0 < writes th ∨ 0 < reads th)%nat).
Lemma go_on j x : l !! j = Some x → inside_or_holding x → can_go_on.
Proof.
  intros Hj [[Hidle Hna]|]; [|by exists j, x; auto]. exists j, x. split; [done|]. left. split; [done|].
  destruct (at_ x) as [|[]| | |[]| | |] eqn:Hat; try done; try (exfalso; apply Hna; unfold asleep; by auto); eexists;
    [by apply act_lock|by apply act_record_write|by apply act_unlock|by apply act_lock_shared|by apply act_try_lock_shared
    |by apply act_record_read|by apply act_unlock_shared].
Qed.
Lemma holder_goes_on j y : Sleep l → (awake <$> l) !! j = Some y → (0 < held_w y ∨ 0 < held_r y)%nat → can_go_on.
Proof.
  intros HS Hj Hy. rewrite list_lookup_fmap in Hj. destruct (l !! j) as [x|] eqn:Ex; [|done]. injection Hj as <-.
  eapply go_on; [exact Ex|]. pose proof (HS j x Ex) as Hsx. unfold inside_or_holding, asleep, held_w, held_r in *.
  destruct x as [[|[]| | |[]| | |] p w r]; cbn in *;
    try (left; split; [done|intuition discriminate]); try (destruct (Hsx ltac:(auto)); lia). right. split; [done|lia].
Qed.
Lemma sleepers_wait i th :
  Inv recursive_reads f (awake <$> l) → Wake f l → Sleep l → l !! i = Some th → asleep th → can_go_on.
Proof.
  intros I HW HS Hi Hsl. destruct (inv_exclusive _ _ _ I) as [(He & _ & _)|(_ & _ & k & y & _ & Hk & Hpos & _)].
  2: { eapply holder_goes_on; [done|exact Hk|by left]. }
  destruct Hsl as [Hsl|Hsl]; [|by destruct (proj1 HW ltac:(lia) i th Hi)].
  destruct (decide (RecursiveSharedMutex.shared_lock_count_ (lock_ f) <= 0)) as [Hz|Hnz].
  - destruct (proj2 HW ltac:(lia) Hz) as (j & x & Hj & Hat); [by exists i, th|]. eapply go_on; [exact Hj|]. left.
    unfold asleep. rewrite Hat. intuition discriminate.
  - rewrite (inv_shared _ _ _ I) in Hnz. destruct (sum_positive held_r (awake <$> l)) as (j & y & Hj & Hy); [lia|].
    eapply holder_goes_on; [done|exact Hj|by right].
Qed.
End progress.

(** ** The main theorems *)
(** C28: Latches of a frame in a debug build.  Whatever the threads do that have a pin while they
    have a latch and do not change a read latch for a write latch: a thread with the write
    latch excludes every other latch, the pins are those of the threads, no ASSERT fails as
    long as no thread takes a read latch twice, and while threads wait there is another that
    can go on inside its call, or that has a latch to give back.  (A build without DEBUG is
    left out: there [read_latch] changes [read_lockers_] without a lock.  The word
    [write_locker_], which [write_latch] sets outside [debug_lock_], is taken to be written
    in one piece.) *)
Theorem latches_safe (recursive_reads : bool) (n : nat) (f : FrameLatch.t) (l : list ThreadState)
  (Hreach : reachable recursive_reads n (f, l)) :
  (∀ i th j th', l !! i = Some th → l !! j = Some th' → i ≠ j → (0 < writes th)%nat → writes th' = 0%nat ∧ reads th' = 0%nat) ∧
  pin_count_ f = Z.of_nat (sum_list_with pins l) ∧
  (recursive_reads = false → ¬ step recursive_reads (f, l) None) ∧
  ((∃ i th, l !! i = Some th ∧ asleep th) → ∃ j th, l !! j = Some th ∧
    (at_ th ≠ Idle ∧ (∃ r, act recursive_reads j th f (Some r)) ∨ at_ th = Idle ∧ (0 < writes th ∨ 0 < reads th)%nat)).
Proof.
  destruct (reachable_inv _ _ _ Hreach) as (I & HW & HS). cbn [fst snd] in *. split_and!.
  - intros i th j th' Hi%awake_lookup Hj%awake_lookup Hij Hw. destruct (awake_fields th) as (_ & Hwa & _), (awake_fields th') as (_ & <- & <-).
    pose proof (writes_held (awake th)). destruct (held_exclusive _ _ _ i _ j _ I Hi ltac:(lia) Hj) as [H1 H2].
    specialize (H2 Hij). pose proof (writes_held (awake th')). pose proof (reads_held (awake th')). lia.
  - by rewrite (inv_pins _ _ _ I), awake_pins.
  - intros Hst Hstep. inversion Hstep as [|? ? i th Hi Hact|]; subst. pose proof (act_awake _ _ _ _ _ Hact) as Ha.
    eapply (act_assert _ f (awake <$> l) i th I eq_refl); [|done]. by rewrite (awake_lookup l i th Hi), Ha.
  - intros (i & th & Hi & Hsl). by eapply sleepers_wait.
Qed.
(** *** An instance: a thread has the write latch, another sleeps before its read latch *)
Definition demo_frame : FrameLatch.t := FrameLatch.mk 2 (RecursiveSharedMutex.mk 0 1 (Some 0%nat) 1) (Some 0%nat) 1 ∅.
Definition demo_threads : list ThreadState := [mk_thread Idle 1 1 0; mk_thread (LockShared true) 1 0 0].
Ltac latch_step i a :=
  match goal with H : reachable _ _ _ |- _ =>
    eapply reachable_step in H;
      [|eapply (step_act _ _ _ i); [reflexivity| |];
        [match goal with |- act _ ?i ?th ?f _ => eapply (a i th f); done end|reflexivity]]; cbn in H end.
Lemma demo_latched : reachable false 2 (demo_frame, demo_threads).
Proof.
  pose proof (reachable_start false 2) as H. cbn [replicate] in H.
  latch_step 0%nat (act_pin false). latch_step 1%nat (act_pin false). latch_step 0%nat (act_check_write false).
  latch_step 0%nat (act_lock false). latch_step 0%nat (act_record_write false).
  latch_step 1%nat (λ i th f, act_check_read false i th f false). latch_step 1%nat (act_lock_shared false).
  exact H.
Qed.
Lemma latches_safe_witness :
  (∀ i th j th', demo_threads !! i = Some th → demo_threads !! j = Some th' → i ≠ j → (0 < writes th)%nat → writes th' = 0%nat ∧ reads th' = 0%nat) ∧
  pin_count_ demo_frame = Z.of_nat (sum_list_with pins demo_threads) ∧
  (false = false → ¬ step false (demo_frame, demo_threads) None) ∧
  ((∃ i th, demo_threads !! i = Some th ∧ asleep th) → ∃ j th, demo_threads !! j = Some th ∧
    (at_ th ≠ Idle ∧ (∃ r, act false j th demo_frame (Some r)) ∨ at_ th = Idle ∧ (0 < writes th ∨ 0 < reads th)%nat)).
Proof. apply (latches_safe false 2 demo_frame demo_threads demo_latched). Defined.

(** A read latch that is taken twice.  In a debug build one [read_latch] with its
    [read_unlatch] leaves the frame as it was, but of two the thread stays in
    [read_lockers_]: its next [write_latch] fails an ASSERT, and so does the [unpin] that
    gives the last pin back. *)
Theorem read_latch_leak (xid : thread) (f : FrameLatch.t)
  (Hpin : pin_count_ f > 0) (Hfree : RecursiveSharedMutex.exclusive_lock_count_ (lock_ f) <= 0 ∧ write_locker_ f = None)
  (Hnew : read_lockers_ f !! xid = None) :
  outcome_bind (read_latch true xid f) (read_unlatch true xid) = Done f ∧
  ∃ f', outcome_bind (read_latch true xid f) (λ f, outcome_bind (read_latch true xid f) (λ f,
          outcome_bind (read_unlatch true xid f) (read_unlatch true xid))) = Done f' ∧
    lock_ f' = lock_ f ∧ pin_count_ f' = pin_count_ f ∧ write_latch true xid f' = Crash ∧ (pin_count_ f = 1 → unpin true f' = None).
Proof.
  destruct f as [p m o n readers], m as [s x ow rc]. cbn in *. destruct Hfree as [Hfree ->].
  assert (bool_decide (p > 0) = true) as Hp by by apply bool_decide_eq_true_2.
  assert (E : ∀ s readers, read_latch true xid (FrameLatch.mk p (RecursiveSharedMutex.mk s x ow rc) None n readers) =
    Done (FrameLatch.mk p (RecursiveSharedMutex.mk (s + 1) x ow rc) None n (<[xid := default 0 (readers !! xid) + 1]> readers))).
  { intros s0 r0. unfold read_latch, check_read, assert, RecursiveSharedMutex.lock_shared. cbn. rewrite Hp. cbn.
    destruct (decide (x > 0)); [lia|]. done. }
  assert (U : ∀ s readers k, readers !! xid = Some k → k > 0 →
    read_unlatch true xid (FrameLatch.mk p (RecursiveSharedMutex.mk s x ow rc) None n readers) =
    Done (FrameLatch.mk p (RecursiveSharedMutex.mk (s - 1) x ow rc) None n (if decide (1 = k) then delete xid readers else readers))).
  { intros s0 r0 k Hk Hpos. unfold read_unlatch, begin_read_unlatch, assert. cbn. rewrite Hp, Hk. cbn.
    rewrite bool_decide_eq_true_2 by done. cbn. by destruct (decide (1 = k)). }
  split.
  - rewrite E, Hnew. cbn [outcome_bind default]. rewrite (U _ _ 1) by (by rewrite ?lookup_insert_eq). cbn.
    do 2 f_equal; [f_equal; lia|]. by rewrite delete_insert_id.
  - eexists. rewrite E, Hnew. cbn [outcome_bind]. rewrite E, lookup_insert_eq. cbn [outcome_bind].
    rewrite (U _ _ 2) by (by rewrite ?lookup_insert_eq). cbn [outcome_bind]. rewrite decide_False by done.
    rewrite (U _ _ 2) by (by rewrite ?lookup_insert_eq). rewrite decide_False by done. split_and!; [done|cbn; f_equal; lia|done| |].
    + unfold write_latch, check_write, assert. cbn. rewrite Hp. cbn. by rewrite bool_decide_eq_false_2 by (by rewrite lookup_insert_eq).
    + intros ->. unfold unpin, assert. cbn. rewrite bool_decide_eq_false_2; [done|]. intros H.
      apply (f_equal (λ m, m !! xid)) in H. rewrite lookup_insert_eq, lookup_empty in H. done.
Qed.
Lemma read_latch_leak_witness :
  outcome_bind (read_latch true 7%nat (pin FrameLatch.make)) (read_unlatch true 7%nat) = Done (pin FrameLatch.make) ∧
  ∃ f', outcome_bind (read_latch true 7%nat (pin FrameLatch.make)) (λ f, outcome_bind (read_latch true 7%nat f) (λ f,
          outcome_bind (read_unlatch true 7%nat f) (read_unlatch true 7%nat))) = Done f' ∧
    lock_ f' = lock_ (pin FrameLatch.make) ∧ pin_count_ f' = pin_count_ (pin FrameLatch.make) ∧ write_latch true 7%nat f' = Crash ∧
    (pin_count_ (pin FrameLatch.make) = 1 → unpin true f' = None).
Proof. apply (read_latch_leak 7%nat (pin FrameLatch.make)); [reflexivity|split; [discriminate|reflexivity]|reflexivity]. Defined.
