(* ===== verification/LowerBound.v ===== *)
(** * Binary search ([deps/common/lang/lower_bound.h])

    [common::lower_bound] is the search every B+ tree node lookup goes through.
    The iterators of the code are positions in an array; [comp *iter val] is the
    three-way comparison of the element at a position with the searched value.  The
    loop is a [Fixpoint] on fuel; the number of elements is enough fuel. *)
From S2P Require Import Prelude.
From Stdlib Require Import ZArith Lia.
From stdpp Require Import base option list.

Local Open Scope nat_scope.

Section lower_bound.
Context {A T : Type} (comp : A → T → Z).

(** One iteration per unit of fuel.  [None]: the search reads outside the array
    or runs out of fuel. *)
Fixpoint lower_bound_loop (fuel : nat) (l : list A) (val : T)
    (first last_count : nat) : option (nat * bool) :=
  if decide (last_count = 0) then Some (first, false)
  else match fuel with
  | O => None
  | S fuel =>
      let step := Nat.div2 last_count in
      let iter := first + step in
      x ← l !! iter;
      let result := comp x val in
      if decide (result = 0%Z) then Some (iter, true)
      else if decide (result < 0)%Z
      then lower_bound_loop fuel l val (S iter) (last_count - (step + 1))
      else lower_bound_loop fuel l val first step
  end.

Definition lower_bound (l : list A) (val : T) : option (nat * bool) :=
  lower_bound_loop (length l) l val 0 (length l).

(** What the search relies on: the array is partitioned by its comparison with
    the searched value. *)
Record partitioned (l : list A) (val : T) : Prop := {
  part_lt : ∀ i j x y, i ≤ j → l !! i = Some x → l !! j = Some y →
    (comp y val < 0)%Z → (comp x val < 0)%Z;
  part_gt : ∀ i j x y, i ≤ j → l !! i = Some x → l !! j = Some y →
    (0 < comp x val)%Z → (0 < comp y val)%Z
}.

(** The answer the header of the file promises: the position of a found element,
    or else the first position whose element is not smaller. *)
Definition lower_bound_answer (l : list A) (val : T) (i : nat) (found : bool) : Prop :=
  if found then ∃ x, l !! i = Some x ∧ comp x val = 0%Z
  else i ≤ length l ∧
    (∀ j x, l !! j = Some x → j < i → (comp x val < 0)%Z) ∧
    (∀ j x, l !! j = Some x → i ≤ j → (0 < comp x val)%Z).

Lemma lower_bound_loop_correct fuel l val first n :
  partitioned l val →
  n ≤ fuel → first + n ≤ length l →
  (∀ j x, l !! j = Some x → j < first → (comp x val < 0)%Z) →
  (∀ j x, l !! j = Some x → first + n ≤ j → (0 < comp x val)%Z) →
  ∃ i found, lower_bound_loop fuel l val first n = Some (i, found) ∧
    lower_bound_answer l val i found.
Proof.
  intros [Hlt Hgt]. revert first n.
  induction fuel as [|fuel IH]; intros first n Hfuel Hlen Hbelow Habove; simpl;
    (destruct (decide (n = 0)) as [->|Hn];
      [exists first, false; split; [done|]; split_and!; [lia|done|];
       intros; eapply Habove; [done|lia]|]).
  { lia. }
  assert (Nat.div2 n < n) as Hdiv by (apply Nat.lt_div2; lia).
  destruct (lookup_lt_is_Some_2 l (first + Nat.div2 n)) as [x Hx]; [lia|].
  rewrite Hx; simpl. remember (Nat.div2 n) as step eqn:Hstep. clear Hstep.
  destruct (decide (comp x val = 0%Z)) as [Heq|Hne].
  { eexists _, true. split; [done|]. by exists x. }
  destruct (decide (comp x val < 0)%Z) as [Hneg|Hpos].
  - apply IH; [lia|lia| |].
    + intros j y Hy Hj. eapply (Hlt j); [|exact Hy|exact Hx|done]. lia.
    + intros j y Hy Hj. eapply Habove; [done|lia].
  - apply IH; [lia|lia|done|].
    intros j y Hy Hj. eapply (Hgt _ j); [exact Hj|exact Hx|exact Hy|lia].
Qed.

Lemma lower_bound_total l val :
  partitioned l val →
  ∃ i found, lower_bound l val = Some (i, found) ∧ lower_bound_answer l val i found.
Proof.
  intros Hp. apply lower_bound_loop_correct; [done|lia|lia| |].
  - intros; lia.
  - intros j x Hx ?. apply lookup_lt_Some in Hx. lia.
Qed.

(** Found means present, not found means absent. *)
Lemma lower_bound_answer_found l val i found :
  lower_bound_answer l val i found →
  found = true ↔ ∃ x, x ∈ l ∧ comp x val = 0%Z.
Proof.
  destruct found; simpl.
  - intros (x & Hx & Hc). split; [|done]. intros _. exists x.
    split; [|done]. by eapply list_elem_of_lookup_2.
  - intros (_ & Hlt & Hgt). split; [done|]. intros (x & [j Hj]%list_elem_of_lookup & Hc).
    destruct (decide (j < i)) as [?|?].
    + specialize (Hlt _ _ Hj ltac:(lia)). lia.
    + specialize (Hgt _ _ Hj ltac:(lia)). lia.
Qed.
End lower_bound.

(** [Comparator<T>::operator()] at the integers. *)
Definition Comparator (v1 v2 : Z) : Z :=
  if decide (v1 < v2)%Z then (-1)%Z else if decide (v2 < v1)%Z then 1%Z else 0%Z.

#[global] Instance Comparator_total : TotalCmp Comparator.
Proof.
  split; unfold Comparator; intros; repeat case_decide; simpl; lia.
Qed.
