(* ===== verification/RidKey.v ===== *)
(** * Record identifiers and index keys

    [struct RID] ([storage/record/record.h]) and the interface the B+ tree asks of
    its keys.  A key is the concatenation of the indexed attributes and of the RID
    of the record; the tree only compares keys, so it is developed against the
    class [IndexKey]; [Comparator.v] discharges the class for the byte keys and the
    comparators of [storage/index/bplus_tree.h]. *)
From S2P Require Import Prelude.
From Stdlib Require Import ZArith Lia.
From stdpp Require Import base decidable countable.
Local Open Scope Z_scope.

Module RID.
Record t : Set := mk { page_num : PageNum; slot_num : SlotNum }.

#[global] Instance t_eq_dec : EqDecision t.
Proof. solve_decision. Defined.
#[global] Instance t_countable : Countable t.
Proof.
  refine (inj_countable' (λ r, (page_num r, slot_num r)) (λ p, mk p.1 p.2) _).
  by intros [].
Defined.

(** [RID::compare]; [int] subtraction, [None] where it overflows (undefined). *)
Definition sub32 (x y : Z) : option Z :=
  if decide (- 2 ^ 31 <= x - y < 2 ^ 31) then Some (x - y) else None.
Definition compare (rid1 rid2 : t) : option Z :=
  page_diff ← sub32 (page_num rid1) (page_num rid2);
  if decide (page_diff ≠ 0) then Some page_diff
  else sub32 (slot_num rid1) (slot_num rid2).

Definition min : t := mk 0 0.
Definition max : t := mk (2 ^ 31 - 1) (2 ^ 31 - 1).

(** The RIDs of stored records and the two sentinels: page and slot numbers are
    not negative. *)
Definition valid (r : t) : Prop :=
  0 <= page_num r < 2 ^ 31 ∧ 0 <= slot_num r < 2 ^ 31.
#[global] Instance valid_dec r : Decision (valid r).
Proof. unfold valid. apply _. Defined.

(** The comparison when nothing overflows. *)
Definition cmp (r1 r2 : t) : Z :=
  if decide (page_num r1 = page_num r2)
  then slot_num r1 - slot_num r2 else page_num r1 - page_num r2.

Lemma compare_valid r1 r2 : valid r1 → valid r2 → compare r1 r2 = Some (cmp r1 r2).
Proof.
    unfold valid, compare, cmp, sub32. intros [??] [??].
  repeat (case_decide || simpl); try done; lia.
Qed.

#[global] Instance cmp_total : TotalCmp cmp.
Proof.
  split; unfold cmp; intros; repeat case_decide; lia.
Qed.

Lemma cmp_eq r1 r2 : cmp r1 r2 = 0 → r1 = r2.
Proof.
  destruct r1, r2; unfold cmp; simpl; intros. case_decide; [|lia].
  f_equal; lia.
Qed.

Lemma min_le r : valid r → cmp min r <= 0.
Proof. unfold valid, cmp; simpl. intros [??]. case_decide; lia. Qed.
Lemma le_max r : valid r → cmp r max <= 0.
Proof. unfold valid, cmp; simpl. intros [??]. case_decide; lia. Qed.
End RID.

(** What a B+ tree needs of its keys. *)
Class IndexKey (K : Type) := {
(** [KeyComparator::operator()] *)
key_cmp : K → K → Z;
(** [KeyComparator::attr_comparator()] *)
attr_cmp : K → K → Z;
(** the key [memset] to zero *)
zero_key : K;
key_cmp_total :: TotalCmp key_cmp;
attr_cmp_total :: TotalCmp attr_cmp;
(** attributes are compared first *)
key_attr_sgn : ∀ x y, attr_cmp x y ≠ 0 → Z.sgn (key_cmp x y) = Z.sgn (attr_cmp x y)
}.

(** What a scan needs of the memory [U] a caller describes a bound with: the
    comparison of the attributes at the start of two user keys, [fix_user_key] when the
    first attribute is a [CHARS], and [make_key], which has no value when it reads
    outside of the user's memory. *)
Class UserKey (U K : Type) `{!IndexKey K} := {
  user_cmp : U → U → option Z;
  first_is_chars : bool;
  fix_user_key : U → nat → bool → option (RC.t + U * bool);
  make_key : U → RID.t → option K;
(** the attributes of a made key are those of the user key *)
make_key_attr : ∀ u r r' k k', make_key u r = Some k → make_key u r' = Some k' →
  attr_cmp k k' = 0;
(** [RID::min] and [RID::max] come first and last among equal attributes *)
make_key_min : ∀ u k x, make_key u RID.min = Some k → attr_cmp k x = 0 → key_cmp k x <= 0;
make_key_max : ∀ u k x, make_key u RID.max = Some k → attr_cmp x k = 0 → key_cmp x k <= 0
}.
