(* ===== verification/Comparator.v ===== *)
(** * Comparators ([deps/common/lang/comparator.cpp], [storage/index/bplus_tree.h])

    The comparison of attribute values and of index keys, on memory: a [char *] is the
    list of the bytes from the pointer on, and reading past the end of the buffer has
    no value.  [KeyComparator] over attributes of the types INTS, DATES, CHARS and
    TEXTS gives an instance of [IndexKey]; [compare_float] is not transitive, so an
    index on a FLOATS attribute is not covered. *)
From S2P Require Import Prelude RidKey.
From Stdlib Require Import ZArith Lia Floats.SpecFloat.
From stdpp Require Import base option list.
Local Open Scope Z_scope.

(** [sql/parser/value.h] *)
Inductive AttrType : Set :=
  UNDEFINED | CHARS | DATES | INTS | FLOATS | BOOLEANS | NULLS | TEXTS.
#[global] Instance AttrType_eq_dec : EqDecision AttrType.
Proof. solve_decision. Defined.

(** ** Memory *)
Abbreviation memory := (list Z) (only parsing).

(** Four little-endian bytes. *)
Definition load32 (m : memory) : option Z :=
  match m with
  | b0 :: b1 :: b2 :: b3 :: _ => Some (b0 + Z.shiftl b1 8 + Z.shiftl b2 16 + Z.shiftl b3 24)
  | _ => None
  end.
(** Two's complement. *)
Definition int32 (x : Z) : Z := if decide (x < 2 ^ 31) then x else x - 2 ^ 32.
Definition load_int (m : memory) : option Z := int32 <$> load32 m.
Definition store32 (x : Z) : memory :=
  [Z.land x 255; Z.land (Z.shiftr x 8) 255; Z.land (Z.shiftr x 16) 255; Z.land (Z.shiftr x 24) 255].
(** [memcpy] of [n] bytes from an offset *)
Definition load_bytes (off n : nat) (m : memory) : option memory :=
  if decide (off + n <= length m)%nat then Some (take n (drop off m)) else None.
(** and of [bytes] to an offset *)
Definition store_bytes (off : nat) (bytes data : memory) : option memory :=
  if decide (off + length bytes <= length data)%nat
  then Some (take off data ++ bytes ++ drop (off + length bytes) data) else None.

(** ** [common::compare_*] *)
Definition compare_int (arg1 arg2 : memory) : option Z :=
  v1 ← load_int arg1; v2 ← load_int arg2;
  Some (if decide (v1 > v2) then 1 else if decide (v1 < v2) then -1 else 0).

Definition compare_date (arg1 arg2 : memory) : option Z :=
  left ← load_int arg1; right ← load_int arg2;
  Some (if decide (left > right) then 1 else if decide (left < right) then -1 else 0).

(** IEEE 754 single precision *)
Definition float_of_bits (x : Z) : spec_float :=
  let s := Z.testbit x 31 in
  let e := Z.land (Z.shiftr x 23) 255 in
  let m := Z.land x (2 ^ 23 - 1) in
  if decide (e = 255) then if decide (m = 0) then S754_infinity s else S754_nan
  else if decide (e = 0) then
    match m with Zpos p => S754_finite s p (-149) | _ => S754_zero s end
  else match m + 2 ^ 23 with Zpos p => S754_finite s p (e - 150) | _ => S754_nan end.
Definition load_float (m : memory) : option spec_float := float_of_bits <$> load32 m.
(** [float] to [double] is exact *)
Definition to_double (f : spec_float) : spec_float :=
  match f with S754_finite s m e => binary_normalize 53 1024 (cond_Zopp s (Zpos m)) e s | _ => f end.
Definition double_of_Z (x : Z) : spec_float := binary_normalize 53 1024 x 0 false.
(** the double literal [1E-6] *)
Definition EPSILON : spec_float := SFdiv 53 1024 (double_of_Z 1) (double_of_Z 1000000).

Definition compare_float (arg1 arg2 : memory) : option Z :=
  v1 ← load_float arg1; v2 ← load_float arg2;
  let cmp := to_double (SFsub 24 128 v1 v2) in
  Some (if SFltb EPSILON cmp then 1 else if SFltb cmp (SFopp EPSILON) then -1 else 0).

(** [strncmp]: bytes are compared as [unsigned char] *)
Fixpoint strncmp (s1 s2 : memory) (n : nat) : option Z :=
  match n with
  | O => Some 0
  | S n =>
      match s1, s2 with
      | c1 :: s1, c2 :: s2 =>
          if decide (c1 ≠ c2) then Some (c1 - c2)
          else if decide (c1 = 0) then Some 0 else strncmp s1 s2 n
      | _, _ => None
      end
  end.
(** [char] is signed *)
Definition schar (b : Z) : Z := if decide (b < 128) then b else b - 256.

Definition compare_string (arg1 : memory) (arg1_max_length : nat) (arg2 : memory)
    (arg2_max_length : nat) : option Z :=
  let maxlen := Nat.min arg1_max_length arg2_max_length in
  result ← strncmp arg1 arg2 maxlen;
  if decide (result ≠ 0) then Some result
  else if decide (maxlen < arg1_max_length)%nat then c ← arg1 !! maxlen; Some (schar c - 0)
  else if decide (maxlen < arg2_max_length)%nat then c ← arg2 !! maxlen; Some (0 - schar c)
  else Some 0.

(** ** [AttrComparator] *)
Module AttrComparator.
Record t : Set := mk { attr_types_ : list AttrType; attr_lengths_ : list nat }.

Definition attr_length (c : t) : nat := foldr plus 0%nat (attr_lengths_ c).

(** The [switch] of the loop; [None] where the code asserts. *)
Definition compare_attr (attr_type : AttrType) (attr_length : nat) (v1 v2 : memory)
  : option Z :=
  match attr_type with
  | INTS => compare_int v1 v2
  | DATES => compare_date v1 v2
  | FLOATS => compare_float v1 v2
  | TEXTS | CHARS => compare_string v1 attr_length v2 attr_length
  | _ => None
  end.

Fixpoint compare_from (types : list AttrType) (lengths : list nat) (pos : nat)
    (v1 v2 : memory) : option Z :=
  match types with
  | [] => Some 0
  | attr_type :: types =>
      attr_length ← head lengths;
      res ← compare_attr attr_type attr_length (drop pos v1) (drop pos v2);
      if decide (res ≠ 0) then Some res
      else compare_from types (tail lengths) (pos + attr_length) v1 v2
  end.
Definition compare (c : t) (v1 v2 : memory) : option Z :=
  compare_from (attr_types_ c) (attr_lengths_ c) 0 v1 v2.
End AttrComparator.

(** ** [KeyComparator] *)
Definition load_rid (m : memory) : option RID.t :=
  p ← load_int m; s ← load_int (drop 4 m); Some (RID.mk p s).
Definition store_rid (r : RID.t) : memory := store32 (RID.page_num r) ++ store32 (RID.slot_num r).

Definition key_compare (c : AttrComparator.t) (v1 v2 : memory) : option Z :=
  result ← AttrComparator.compare c v1 v2;
  if decide (result ≠ 0) then Some result
  else
    rid1 ← load_rid (drop (AttrComparator.attr_length c) v1);
    rid2 ← load_rid (drop (AttrComparator.attr_length c) v2);
    RID.compare rid1 rid2.

(** [BplusTreeHandler::make_key]: the attributes of the user's record one after the
    other, then the RID. *)
Fixpoint make_key_attrs (offsets lengths : list nat) (user_key : memory) : option memory :=
  match offsets, lengths with
  | off :: offsets, len :: lengths =>
      attr ← load_bytes off len user_key;
      rest ← make_key_attrs offsets lengths user_key;
      Some (attr ++ rest)
  | _, _ => Some []
  end.
Definition make_key (offsets lengths : list nat) (user_key : memory) (rid : RID.t)
  : option memory :=
  attrs ← make_key_attrs offsets lengths user_key;
  Some (attrs ++ store_rid rid).

(** ** Composition of comparisons *)
Definition cmp_lex {A} (c1 c2 : A → A → Z) (x y : A) : Z :=
  if decide (c1 x y ≠ 0) then c1 x y else c2 x y.
Definition cmp_on {A B} (f : A → B) (c : B → B → Z) (x y : A) : Z := c (f x) (f y).

#[global] Instance cmp_lex_total {A} (c1 c2 : A → A → Z) :
  TotalCmp c1 → TotalCmp c2 → TotalCmp (cmp_lex c1 c2).
Proof.
  intros H1 H2. split; unfold cmp_lex.
  - intros x y. pose proof (cmp_swap (cmp := c1) x y). pose proof (cmp_swap (cmp := c2) x y).
    repeat case_decide; lia.
  - intros x y z.
    pose proof (cmp_le_trans (cmp := c1) x y z). pose proof (cmp_le_trans (cmp := c2) x y z).
    pose proof (cmp_le_trans (cmp := c1) z x y). pose proof (cmp_le_trans (cmp := c1) y z x).
    pose proof (cmp_swap (cmp := c1) x y). pose proof (cmp_swap (cmp := c1) y z).
    pose proof (cmp_swap (cmp := c1) x z).
    repeat case_decide; lia.
Qed.
#[global] Instance cmp_on_total {A B} (f : A → B) (c : B → B → Z) :
  TotalCmp c → TotalCmp (cmp_on f c).
Proof.
  intros H. split; unfold cmp_on; intros; [apply cmp_swap|by eapply cmp_le_trans].
Qed.
Definition cmp_sign (x y : Z) : Z := if decide (x > y) then 1 else if decide (x < y) then -1 else 0.
#[global] Instance cmp_sign_total : TotalCmp cmp_sign.
Proof. split; unfold cmp_sign; intros; repeat case_decide; lia. Qed.

(** ** The comparators as total preorders

    On buffers that are long enough the comparators are these total functions. *)
Definition int_at (m : memory) : Z := default 0 (load_int m).
Definition rid_at (m : memory) : RID.t := default RID.min (load_rid m).

Fixpoint strn (n : nat) (s1 s2 : memory) : Z :=
  match n with
  | O => 0
  | S n =>
      let c1 := default 0 (head s1) in let c2 := default 0 (head s2) in
      if decide (c1 ≠ c2) then c1 - c2
      else if decide (c1 = 0) then 0 else strn n (tail s1) (tail s2)
  end.
#[global] Instance strn_total n : TotalCmp (strn n).
Proof.
  induction n as [|n IH]; [by split|]. split; cbn [strn].
  - intros x y. pose proof (cmp_swap (cmp := strn n) (tail x) (tail y)).
    repeat case_decide; lia.
  - intros x y z. pose proof (cmp_le_trans (cmp := strn n) (tail x) (tail y) (tail z)).
    repeat case_decide; lia.
Qed.

Lemma strncmp_strn n s1 s2 :
  (n <= length s1)%nat → (n <= length s2)%nat → strncmp s1 s2 n = Some (strn n s1 s2).
Proof.
  revert s1 s2. induction n as [|n IH]; intros [|c1 s1] [|c2 s2] H1 H2; simpl in *; try done; try lia.
  repeat case_decide; try done. apply IH; lia.
Qed.

Definition attr_total (attr_type : AttrType) (len : nat) : memory → memory → Z :=
  match attr_type with
  | TEXTS | CHARS => strn len
  | _ => cmp_on int_at cmp_sign
  end.
Fixpoint attrs_total (types : list AttrType) (lengths : list nat) (v1 v2 : memory) : Z :=
  match types, lengths with
  | attr_type :: types, len :: lengths =>
      cmp_lex (attr_total attr_type len) (cmp_on (drop len) (attrs_total types lengths)) v1 v2
  | _, _ => 0
  end.
#[global] Instance attr_total_total attr_type len : TotalCmp (attr_total attr_type len).
Proof. destruct attr_type; apply _. Qed.
#[global] Instance attrs_total_total types lengths : TotalCmp (attrs_total types lengths).
Proof.
  revert lengths. induction types as [|t ts IH]; intros [|len lengths]; try by split.
  specialize (IH lengths). change (TotalCmp (cmp_lex (attr_total t len)
    (cmp_on (drop len) (attrs_total ts lengths)))). apply _.
Qed.

(** ** Supported keys *)
Definition attr_supported (attr_type : AttrType) (len : nat) : bool :=
  match attr_type with
  | INTS | DATES => bool_decide (len = 4)%nat
  | CHARS | TEXTS => true
  | _ => false
  end.
Fixpoint attrs_supported (types : list AttrType) (lengths : list nat) : bool :=
  match types, lengths with
  | [], [] => true
  | t :: types, len :: lengths => attr_supported t len && attrs_supported types lengths
  | _, _ => false
  end.

Lemma load32_is_Some m : (4 <= length m)%nat → is_Some (load32 m).
Proof. intros H. do 4 (destruct m as [|? m]; [simpl in H; lia|]). by eexists. Qed.
Lemma load_int_at m : (4 <= length m)%nat → load_int m = Some (int_at m).
Proof. intros H. unfold int_at, load_int. by destruct (load32_is_Some m H) as [x ->]. Qed.

(** What is stored is loaded again. *)
Definition is_int32 (x : Z) : Prop := - 2 ^ 31 <= x < 2 ^ 31.
Lemma load_int_store32 x m : is_int32 x → load_int (store32 x ++ m) = Some x.
Proof.
  unfold is_int32. intros Hx. unfold load_int, load32, store32. cbn [app fmap option_fmap option_map].
  assert (Z.land x 255 + Z.shiftl (Z.land (Z.shiftr x 8) 255) 8 + Z.shiftl (Z.land (Z.shiftr x 16) 255) 16
    + Z.shiftl (Z.land (Z.shiftr x 24) 255) 24 = x mod 2 ^ 32) as ->.
  { change 255 with (Z.ones 8). rewrite !Z.land_ones, !Z.shiftr_div_pow2, !Z.shiftl_mul_pow2 by lia.
    change (2 ^ 32) with (256 * (256 * (256 * 256))). rewrite !Z.rem_mul_r by lia.
    change (2 ^ 8) with 256. change (2 ^ 16) with (256 * 256). change (2 ^ 24) with (256 * (256 * 256)).
    rewrite <-!Z.div_div by lia. lia. }
  f_equal. unfold int32. change (2 ^ 32) with 4294967296. change (2 ^ 31) with 2147483648 in *.
  destruct (decide (0 <= x)).
  - rewrite Z.mod_small by lia. by rewrite decide_True by lia.
  - replace (x mod 4294967296) with (x + 4294967296).
    + rewrite decide_False by lia. lia.
    + apply (Z.mod_unique x 4294967296 (-1)); lia.
Qed.
Lemma load_rid_at m : (8 <= length m)%nat → load_rid m = Some (rid_at m).
Proof.
  intros H. unfold rid_at, load_rid. by rewrite !load_int_at by (rewrite ?length_drop; lia).
Qed.

Lemma compare_string_same v1 v2 n :
  (n <= length v1)%nat → (n <= length v2)%nat → compare_string v1 n v2 n = Some (strn n v1 v2).
Proof.
  intros H1 H2. unfold compare_string. rewrite Nat.min_id, strncmp_strn by done. simpl.
  rewrite !(decide_False (P := (n < n)%nat)) by lia. case_decide; f_equal; lia.
Qed.
Lemma compare_attr_total t len v1 v2 :
  attr_supported t len = true → (len <= length v1)%nat → (len <= length v2)%nat →
  AttrComparator.compare_attr t len v1 v2 = Some (attr_total t len v1 v2).
Proof.
  intros Hs H1 H2. destruct t; simpl in *; try done; try (by apply compare_string_same);
    apply bool_decide_eq_true_1 in Hs as ->; unfold compare_int, compare_date;
    by rewrite !load_int_at.
Qed.
Lemma compare_from_total types lengths pos v1 v2 :
  attrs_supported types lengths = true →
  (pos + foldr plus 0 lengths <= length v1)%nat → (pos + foldr plus 0 lengths <= length v2)%nat →
  AttrComparator.compare_from types lengths pos v1 v2 =
    Some (attrs_total types lengths (drop pos v1) (drop pos v2)).
Proof.
  revert lengths pos. induction types as [|t ts IH]; intros [|len lengths] pos Hs H1 H2; try done.
  simpl in Hs, H1, H2. apply andb_prop in Hs as [Ht Hs]. simpl.
  rewrite compare_attr_total by (done || (rewrite length_drop; lia)). simpl.
  unfold cmp_lex. case_decide; [done|]. unfold cmp_on. rewrite !drop_drop. apply IH; [done|lia..].
Qed.

Record supported : Set := Supported {
  comparator : AttrComparator.t;
  comparator_ok : attrs_supported (AttrComparator.attr_types_ comparator)
                    (AttrComparator.attr_lengths_ comparator) = true
}.

Section keys.
Context (c : supported).
Abbreviation attrs_len := (AttrComparator.attr_length (comparator c)).

(** A key of the index: bytes of the right length with the RID of a record. *)
Definition key_ok (m : memory) : bool :=
  bool_decide (length m = attrs_len + 8)%nat && bool_decide (RID.valid (rid_at (drop attrs_len m))).
Record index_key : Set := IndexKeyOf { key_bytes : memory; key_bytes_ok : key_ok key_bytes = true }.

Definition attrs_cmp (k1 k2 : index_key) : Z :=
  default 0 (AttrComparator.compare (comparator c) (key_bytes k1) (key_bytes k2)).
Definition keys_cmp (k1 k2 : index_key) : Z :=
  default 0 (key_compare (comparator c) (key_bytes k1) (key_bytes k2)).

Definition attrs_order : index_key → index_key → Z :=
  cmp_on key_bytes (attrs_total (AttrComparator.attr_types_ (comparator c))
                      (AttrComparator.attr_lengths_ (comparator c))).
Definition keys_order : index_key → index_key → Z :=
  cmp_lex attrs_order (cmp_on (λ k, rid_at (drop attrs_len (key_bytes k))) RID.cmp).

Lemma key_length_ok k : length (key_bytes k) = (attrs_len + 8)%nat.
Proof.
  destruct k as [m Hm]. simpl. apply andb_prop in Hm as [Hm _].
  by apply bool_decide_eq_true_1 in Hm.
Qed.
Lemma key_rid_ok k : RID.valid (rid_at (drop attrs_len (key_bytes k))).
Proof.
  destruct k as [m Hm]. simpl. apply andb_prop in Hm as [_ Hm].
  by apply bool_decide_eq_true_1 in Hm.
Qed.

(** On keys of the index the comparators of the code are defined, and are the
    lexicographic orders. *)
Lemma compare_defined k1 k2 :
  AttrComparator.compare (comparator c) (key_bytes k1) (key_bytes k2) = Some (attrs_order k1 k2).
Proof.
  unfold AttrComparator.compare, attrs_order, cmp_on.
  rewrite compare_from_total; [done|by destruct c|..]; rewrite key_length_ok;
    unfold AttrComparator.attr_length; lia.
Qed.
Lemma key_compare_defined k1 k2 :
  key_compare (comparator c) (key_bytes k1) (key_bytes k2) = Some (keys_order k1 k2).
Proof.
  unfold key_compare. rewrite compare_defined. simpl. unfold keys_order, cmp_lex.
  case_decide; [done|].
  rewrite !load_rid_at by (rewrite length_drop, key_length_ok; lia). simpl.
  by rewrite RID.compare_valid by apply key_rid_ok.
Qed.

Lemma attrs_cmp_order k1 k2 : attrs_cmp k1 k2 = attrs_order k1 k2.
Proof. unfold attrs_cmp. by rewrite compare_defined. Qed.
Lemma keys_cmp_order k1 k2 : keys_cmp k1 k2 = keys_order k1 k2.
Proof. unfold keys_cmp. by rewrite key_compare_defined. Qed.

Lemma total_ext {A} (c1 c2 : A → A → Z) :
  (∀ x y, c1 x y = c2 x y) → TotalCmp c2 → TotalCmp c1.
Proof.
  intros Heq [H1 H2]. split; intros; rewrite !Heq in *; [by apply H1|by eapply H2].
Qed.

Lemma zero_key_ok : key_ok (replicate (attrs_len + 8) 0) = true.
Proof.
  unfold key_ok. rewrite length_replicate, bool_decide_eq_true_2 by done. simpl.
  apply bool_decide_eq_true_2. rewrite drop_replicate.
  by replace (attrs_len + 8 - attrs_len)%nat with 8%nat by lia.
Qed.

#[global] Instance index_key_IndexKey : IndexKey index_key.
Proof.
  refine {| key_cmp := keys_cmp; attr_cmp := attrs_cmp;
            zero_key := IndexKeyOf (replicate (attrs_len + 8) 0) zero_key_ok |}.
  - eapply total_ext; [apply keys_cmp_order|]. unfold keys_order, attrs_order. apply _.
  - eapply total_ext; [apply attrs_cmp_order|]. unfold attrs_order. apply _.
  - intros x y. rewrite keys_cmp_order, attrs_cmp_order. unfold keys_order, cmp_lex.
    intros. by rewrite decide_True.
Defined.
End keys.

(** ** User keys

    The memory a scan is given, with the offsets [make_key] reads the attributes at. *)
Section user_keys.
Context (c : supported) (attr_offsets : list nat).
Abbreviation attrs_len := (AttrComparator.attr_length (comparator c)).
Abbreviation attr_lengths := (AttrComparator.attr_lengths_ (comparator c)).
Abbreviation attr_types := (AttrComparator.attr_types_ (comparator c)).

(** [make_key], when the bytes are those of a key of the index *)
Definition make_index_key (user_key : memory) (rid : RID.t) : option (index_key c) :=
  m ← make_key attr_offsets attr_lengths user_key rid;
  match decide (key_ok c m = true) with
  | left H => Some (IndexKeyOf c m H)
  | right _ => None
  end.

Fixpoint strlen (m : memory) : option nat :=
  match m with
  | [] => None
  | b :: m => if decide (b = 0) then Some 0%nat else S <$> strlen m
  end.

(** [BplusTreeScanner::fix_user_key] *)
Definition fix_key (user_key : memory) (key_len : nat) (want_greater : bool)
  : option (RC.t + memory * bool) :=
  attr_type ← head attr_types;
  attr_length ← head attr_lengths;
  n ← strlen user_key;
  if decide (attr_type = CHARS ∧ (key_len <= n)%nat) then
    if decide (key_len <= attr_length)%nat then
      key_buf ← load_bytes 0 key_len user_key;
      Some (inr (key_buf ++ replicate (attr_length - key_len) 0, false))
    else
      key_buf ← load_bytes 0 attr_length user_key;
      c ← user_key !! attr_length;
      if decide (c = 0) then Some (inr (key_buf, false))
      else if want_greater then
        last ← key_buf !! (attr_length - 1)%nat;
        Some (inr (<[(attr_length - 1)%nat := (last + 1) `mod` 256]> key_buf, true))
      else Some (inr (key_buf, true))
  else None.

Lemma int_at_app m x y : (4 <= length m)%nat → int_at (m ++ x) = int_at (m ++ y).
Proof. intros H. do 4 (destruct m as [|? m]; [simpl in H; lia|]). done. Qed.
Lemma strn_app n m x y : (n <= length m)%nat → strn n (m ++ x) (m ++ y) = 0.
Proof.
  revert m. induction n as [|n IH]; intros [|b m] H; simpl in *; try done; try lia.
  rewrite decide_False by (intros Hne; by apply Hne). case_decide; [done|]. apply IH. lia.
Qed.
Lemma attrs_total_app types lengths m x y :
  attrs_supported types lengths = true → foldr plus 0%nat lengths = length m →
  attrs_total types lengths (m ++ x) (m ++ y) = 0.
Proof.
  revert lengths m. induction types as [|t ts IH]; intros [|len lengths] m Hs Hl; try done.
  simpl in Hs, Hl. apply andb_prop in Hs as [Ht Hs]. simpl. unfold cmp_lex.
  assert (attr_total t len (m ++ x) (m ++ y) = 0) as ->.
  { destruct t; simpl in *; try done; try (apply strn_app; lia);
      apply bool_decide_eq_true_1 in Ht as ->; unfold cmp_on;
      rewrite (int_at_app m x y) by lia; by apply (cmp_refl cmp_sign). }
  rewrite decide_False by (intros Hne; by apply Hne). unfold cmp_on.
  rewrite !drop_app_le by lia. apply IH; [done|]. rewrite length_drop. lia.
Qed.

Lemma make_index_key_inv u r k :
  make_index_key u r = Some k →
  ∃ m, make_key_attrs attr_offsets attr_lengths u = Some m ∧
    key_bytes c k = m ++ store_rid r ∧ length m = attrs_len.
Proof.
  unfold make_index_key, make_key. intros Hk.
  destruct (make_key_attrs attr_offsets attr_lengths u) as [m|] eqn:Hm; [|done].
  simpl in Hk. destruct (decide _) as [Hok|]; [|done]. injection Hk as <-.
  exists m. split_and!; [done..|]. pose proof (key_length_ok c (IndexKeyOf c _ Hok)) as Hl.
  simpl in Hl. rewrite length_app in Hl. simpl in Hl. lia.
Qed.

Lemma make_index_key_attrs u r r' k k' :
  make_index_key u r = Some k → make_index_key u r' = Some k' → attrs_cmp c k k' = 0.
Proof.
  intros (m & Hm & Hk & Hl)%make_index_key_inv (m' & Hm' & Hk' & Hl')%make_index_key_inv.
  assert (m' = m) as -> by congruence. rewrite attrs_cmp_order. unfold attrs_order, cmp_on.
  rewrite Hk, Hk'. apply attrs_total_app; [by destruct c|]. by rewrite Hl.
Qed.

Lemma make_index_key_rid u r k :
  make_index_key u r = Some k → rid_at (drop attrs_len (key_bytes c k)) = rid_at (store_rid r).
Proof.
  intros (m & _ & -> & <-)%make_index_key_inv. by rewrite drop_app_length.
Qed.

Lemma keys_cmp_attrs_eq k k' :
  attrs_cmp c k k' = 0 →
  keys_cmp c k k' = RID.cmp (rid_at (drop attrs_len (key_bytes c k)))
                            (rid_at (drop attrs_len (key_bytes c k'))).
Proof.
  rewrite attrs_cmp_order, keys_cmp_order. unfold keys_order, cmp_lex. intros ->. done.
Qed.

#[global, refine] Instance memory_UserKey : UserKey memory (index_key c) := {|
  user_cmp := AttrComparator.compare (comparator c);
  first_is_chars := bool_decide (head attr_types = Some CHARS);
  fix_user_key := fix_key;
  RidKey.make_key := make_index_key
|}.
Proof.
  - apply make_index_key_attrs.
  - intros u k x Hk Hc. simpl in *. rewrite (keys_cmp_attrs_eq _ _ Hc).
    rewrite (make_index_key_rid _ _ _ Hk). apply RID.min_le, key_rid_ok.
  - intros u k x Hk Hc. simpl in *. rewrite (keys_cmp_attrs_eq _ _ Hc).
    rewrite (make_index_key_rid _ _ _ Hk). apply RID.le_max, key_rid_ok.
Defined.
End user_keys.
