(* ===== verification/LatchMemo.v ===== *)
(** * Latch memo ([storage/trx/latch_memo.h], [latch_memo.cpp])

    The list of pins and latches an operation on a B+ tree holds, and the pages it
    will give back to the buffer pool when it ends.  A frame is named by its page
    number.  The functions below are the bookkeeping of the memo; the release of an
    item is reported as a list, in the order the code releases them. *)
From S2P Require Import Prelude.
From Stdlib Require Import ZArith Lia.
From stdpp Require Import base option list.

Inductive LatchMemoType : Set := LATCH_NONE | SHARED | EXCLUSIVE | PIN.
#[global] Instance LatchMemoType_eq_dec : EqDecision LatchMemoType.
Proof. solve_decision. Defined.

(** [LatchMemoItem]: a type and either a frame or a lock (the root lock). *)
Inductive LatchTarget : Set := OnFrame (frame : PageNum) | OnLock.
#[global] Instance LatchTarget_eq_dec : EqDecision LatchTarget.
Proof. solve_decision. Defined.

Record LatchMemoItem : Set := LatchItem { item_type : LatchMemoType; item_on : LatchTarget }.
#[global] Instance LatchMemoItem_eq_dec : EqDecision LatchMemoItem.
Proof. solve_decision. Defined.

Record LatchMemo : Set := Memo {
  items_ : list LatchMemoItem;
  disposed_pages_ : list PageNum
}.

Definition memo_empty : LatchMemo := Memo [] [].

(** [items_.emplace_back(...)] *)
Definition memo_push (i : LatchMemoItem) (m : LatchMemo) : LatchMemo :=
  Memo (items_ m ++ [i]) (disposed_pages_ m).

Definition memo_point (m : LatchMemo) : nat := length (items_ m).

(** [LatchMemo::dispose_page] *)
Definition memo_dispose_page (p : PageNum) (m : LatchMemo) : LatchMemo :=
  Memo (items_ m) (disposed_pages_ m ++ [p]).

(** [LatchMemo::release_to]: the items released, newest first, and the rest. *)
Definition memo_release_to (point : nat) (m : LatchMemo)
  : option (list LatchMemoItem * LatchMemo) :=
  if decide (point <= length (items_ m))%nat
  then Some (rev (take point (items_ m)), Memo (drop point (items_ m)) (disposed_pages_ m))
  else None.

(** [LatchMemo::release]: every item, then the pages to dispose. *)
Definition memo_release (m : LatchMemo)
  : option (list LatchMemoItem * list PageNum * LatchMemo) :=
  '(released, m') ← memo_release_to (memo_point m) m;
  Some (released, disposed_pages_ m', Memo (items_ m') []).

Definition holds (t : LatchMemoType) (p : PageNum) (m : LatchMemo) : Prop :=
  LatchItem t (OnFrame p) ∈ items_ m.

Lemma memo_release_all m :
  memo_release m = Some (rev (items_ m), disposed_pages_ m, memo_empty).
Proof.
  unfold memo_release, memo_release_to, memo_point. rewrite decide_True by lia. simpl.
  by rewrite take_ge, drop_ge by lia.
Qed.
