(* ===== verification/BplusNode.v ===== *)
(** * B+ tree nodes ([storage/index/bplus_tree.h], [bplus_tree.cpp])

    The pages of an index and the handlers that read and edit one page.  A node
    keeps its header fields and the array of its items; [key_num] is the length of
    the array, so [increase_size] is part of every array edit.  An access the code
    [assert]s against, or one that would read array cells that hold no item, has
    no result ([None]).  The [set_key_at], [insert] and [remove] of the handlers
    only touch their own page and are here; the moves of internal items also write
    the parent field of the moved children and are in [BplusTree.v]. *)
From S2P Require Import Prelude LowerBound RidKey.
From Stdlib Require Import ZArith Lia.
From stdpp Require Import base option list.
Local Open Scope Z_scope.

(** [IndexFileHeader], the fields the tree operations use; the attribute layout is
    in [Comparator.v]. *)
Record IndexFileHeader : Set := FileHeader {
  root_page : PageNum;
  internal_max_size : nat;
  leaf_max_size : nat;
  unique : bool
}.

Inductive BplusTreeOperationType : Set := READ | INSERT | DELETE.
#[global] Instance BplusTreeOperationType_eq_dec : EqDecision BplusTreeOperationType.
Proof. solve_decision. Defined.

Section nodes.
Context {K : Type}.

(** [struct LeafIndexNode], [struct InternalIndexNode]: [IndexNode] with
    [is_leaf] as the tag. *)
Record LeafIndexNode : Type := LeafNode {
  leaf_parent : PageNum;
  next_brother : PageNum;
  leaf_array : list (K * RID.t)
}.
Record InternalIndexNode : Type := InternalNode {
  internal_parent : PageNum;
  internal_array : list (K * PageNum)
}.
Inductive IndexNode : Type :=
| LeafPage (n : LeafIndexNode)
| InternalPage (n : InternalIndexNode).
End nodes.
Arguments LeafIndexNode : clear implicits.
Arguments InternalIndexNode : clear implicits.
Arguments IndexNode : clear implicits.

(** ** [class IndexNodeHandler] *)
Module IndexNodeHandler.
Section handler.
Context {K : Type}.
Implicit Types (n : IndexNode K) (h : IndexFileHeader).

Definition is_leaf n : bool :=
  match n with LeafPage _ => true | InternalPage _ => false end.

Definition size n : nat :=
  match n with
  | LeafPage l => length (leaf_array l)
  | InternalPage i => length (internal_array i)
  end.

Definition max_size h n : nat :=
  if is_leaf n then leaf_max_size h else internal_max_size h.

Definition min_size h n : nat := let max := max_size h n in (max - max / 2)%nat.

Definition parent_page_num n : PageNum :=
  match n with
  | LeafPage l => leaf_parent l
  | InternalPage i => internal_parent i
  end.

Definition set_parent_page_num (p : PageNum) n : IndexNode K :=
  match n with
  | LeafPage l => LeafPage (LeafNode p (next_brother l) (leaf_array l))
  | InternalPage i => InternalPage (InternalNode p (internal_array i))
  end.

Definition is_safe h n (op : BplusTreeOperationType) (is_root_node : bool) : bool :=
  match op with
  | READ => true
  | INSERT => bool_decide (size n < max_size h n)%nat
  | DELETE =>
      if is_root_node then
        if is_leaf n then bool_decide (1 < size n)%nat
        else bool_decide (2 < size n)%nat
      else bool_decide (min_size h n < size n)%nat
  end.

Definition validate n : bool :=
  if decide (parent_page_num n = BP_INVALID_PAGE_NUM) then
    if decide (size n < 1)%nat then false
    else if negb (is_leaf n) && bool_decide (size n < 2)%nat then false
    else true
  else true.
End handler.
End IndexNodeHandler.

(** ** [class LeafIndexNodeHandler] *)
Module LeafIndexNodeHandler.
Section handler.
Context {K : Type}.
Implicit Types (n other : LeafIndexNode K) (item : K * RID.t).

Definition init_empty : LeafIndexNode K :=
  LeafNode BP_INVALID_PAGE_NUM BP_INVALID_PAGE_NUM [].

Definition set_next_page (p : PageNum) n : LeafIndexNode K :=
  LeafNode (leaf_parent n) p (leaf_array n).

Definition size n : nat := length (leaf_array n).

Definition key_at n (index : nat) : option K := fst <$> leaf_array n !! index.
Definition value_at n (index : nat) : option RID.t := snd <$> leaf_array n !! index.

(** both overloads of [lookup]: [comp] is the key or the attribute comparator *)
Definition lookup (comp : K → K → Z) n (key : K) : option (nat * bool) :=
  lower_bound (λ item k, comp item.1 k) (leaf_array n) key.

Definition set_array n (a : list (K * RID.t)) : LeafIndexNode K :=
  LeafNode (leaf_parent n) (next_brother n) a.

Definition insert n (index : nat) (key : K) (value : RID.t) : option (LeafIndexNode K) :=
  if decide (index <= size n)%nat
  then Some (set_array n (list_insert_at index (key, value) (leaf_array n)))
  else None.

Definition remove n (index : nat) : option (LeafIndexNode K) :=
  if decide (index < size n)%nat
  then Some (set_array n (delete index (leaf_array n)))
  else None.

(** [remove(key, comparator)]: the number of removed items and the node *)
Definition remove_key n (comp : K → K → Z) (key : K) : option (nat * LeafIndexNode K) :=
  '(index, found) ← lookup comp n key;
  if found : bool then n' ← remove n index; Some (1%nat, n') else Some (0%nat, n).

Definition append n item : LeafIndexNode K := set_array n (leaf_array n ++ [item]).
Definition preappend n item : LeafIndexNode K := set_array n (item :: leaf_array n).

(** [this.move_half_to(other)]: [(this, other)] after the move; [other] is the
    freshly initialised right node. *)
Definition move_half_to n other : option (LeafIndexNode K * LeafIndexNode K) :=
  let move_index := (size n / 2)%nat in
  if decide (size other = 0%nat)
  then Some (set_array n (take move_index (leaf_array n)),
             set_array other (drop move_index (leaf_array n)))
  else None.

Definition move_first_to_end n other : option (LeafIndexNode K * LeafIndexNode K) :=
  item ← leaf_array n !! 0%nat;
  Some (set_array n (drop 1 (leaf_array n)), append other item).

Definition move_last_to_front n other : option (LeafIndexNode K * LeafIndexNode K) :=
  item ← last (leaf_array n);
  Some (set_array n (take (size n - 1) (leaf_array n)), preappend other item).

Definition move_to n other : LeafIndexNode K * LeafIndexNode K :=
  (set_array n [],
   set_next_page (next_brother n) (set_array other (leaf_array other ++ leaf_array n))).
End handler.
End LeafIndexNodeHandler.

(** ** [class InternalIndexNodeHandler] *)
Module InternalIndexNodeHandler.
Section handler.
Context {K : Type}.
Implicit Types (n : InternalIndexNode K).

Definition init_empty : InternalIndexNode K := InternalNode BP_INVALID_PAGE_NUM [].

Definition size n : nat := length (internal_array n).

Definition set_array n (a : list (K * PageNum)) : InternalIndexNode K :=
  InternalNode (internal_parent n) a.

Definition key_at n (index : nat) : option K := fst <$> internal_array n !! index.
Definition value_at n (index : nat) : option PageNum := snd <$> internal_array n !! index.

(** [lookup]: the index of the child to follow, [*found], [*insert_position] *)
Definition lookup (comp : K → K → Z) n (key : K) : option (nat * bool * nat) :=
  if decide (size n = 0%nat) then Some (0%nat, false, 1%nat)
  else
    '(i, found) ← lower_bound (λ item k, comp item.1 k) (drop 1 (internal_array n)) key;
    let ret := (i + 1)%nat in
    if decide (size n <= ret)%nat then Some ((ret - 1)%nat, found, ret)
    else
      k ← key_at n ret;
      if decide (comp key k < 0) then Some ((ret - 1)%nat, found, ret)
      else Some (ret, found, ret).

(** [create_new_root] writes the items 0 and 1 of an initialised node. *)
Definition create_new_root `{IndexKey K} n (first_page_num : PageNum) (key : K)
    (page_num : PageNum) : option (InternalIndexNode K) :=
  if decide (size n = 0%nat)
  then Some (set_array n [(zero_key, first_page_num); (key, page_num)])
  else None.

Definition insert n (key : K) (page_num : PageNum) (comp : K → K → Z)
  : option (InternalIndexNode K) :=
  '(_, _, insert_position) ← lookup comp n key;
  if decide (insert_position <= size n)%nat
  then Some (set_array n (list_insert_at insert_position (key, page_num) (internal_array n)))
  else None.

Definition set_key_at n (index : nat) (key : K) : option (InternalIndexNode K) :=
  item ← internal_array n !! index;
  Some (set_array n (<[index := (key, item.2)]> (internal_array n))).

(** [value_index]: the first index whose child is [page_num], or -1 *)
Fixpoint value_index_from (i : nat) (a : list (K * PageNum)) (page_num : PageNum) : Z :=
  match a with
  | [] => -1
  | item :: a => if decide (page_num = item.2) then Z.of_nat i
                 else value_index_from (S i) a page_num
  end.
Definition value_index n (page_num : PageNum) : Z :=
  value_index_from 0 (internal_array n) page_num.

Definition remove n (index : nat) : option (InternalIndexNode K) :=
  if decide (index < size n)%nat
  then Some (set_array n (delete index (internal_array n)))
  else None.
End handler.
End InternalIndexNodeHandler.

(** ** Capacity of a page *)
Definition BP_PAGE_SIZE : Z := Z.shiftl 1 19.
(** [sizeof(PageNum)] and [sizeof(LSN)] are 4 *)
Definition BP_PAGE_DATA_SIZE : Z := BP_PAGE_SIZE - 4 - 4.
Definition sizeof_RID : Z := 8.
Definition sizeof_PageNum : Z := 4.
Definition IndexNode_HEADER_SIZE : Z := 12.
Definition LeafIndexNode_HEADER_SIZE : Z := IndexNode_HEADER_SIZE + 4.
Definition InternalIndexNode_HEADER_SIZE : Z := IndexNode_HEADER_SIZE.

Definition calc_internal_page_capacity (attr_length : Z) : Z :=
  let item_size := attr_length + sizeof_RID + sizeof_PageNum in
  Z.quot (BP_PAGE_DATA_SIZE - InternalIndexNode_HEADER_SIZE) item_size.

Definition calc_leaf_page_capacity (attr_length : Z) : Z :=
  let item_size := attr_length + sizeof_RID + sizeof_RID in
  Z.quot (BP_PAGE_DATA_SIZE - LeafIndexNode_HEADER_SIZE) item_size.
