(* ===== verification/BplusTree.v ===== *)
(** * B+ tree handler ([BplusTreeHandler], [storage/index/bplus_tree.cpp])

    The operations of the tree over the pages of its buffer pool, one definition per
    function of the source, on the state of one handler and one operation:

    - [file_header], [header_dirty]: [file_header_], [header_dirty_];
    - [pool]: the allocation state of [disk_buffer_pool_], behind the class
      [PagePool];
    - [pages]: the nodes in the frames of the pool, by page number;
    - [dirty]: the frames [mark_dirty] was called on;
    - [memo]: the [LatchMemo] of the running operation.

    A [Frame *] is its page number.  Pin counts are not part of this state: the memo
    records the pins it takes, and a direct [get_this_page]/[unpin_page] pair has no
    effect here.  The template parameter [IndexNodeHandlerType] is the argument of
    type [handler_type].  The recursions that climb the tree and the loop that
    descends it take fuel. *)
From S2P Require Import Prelude LowerBound RidKey LatchMemo BplusNode.
From Stdlib Require Import ZArith Lia.
From stdpp Require Import base option gmap list.
Local Open Scope Z_scope.

(** What the tree asks of [DiskBufferPool]: an allocated page was not in use, disposing
    of a page gives back nothing else, and page numbers are 32-bit integers. *)
Class PagePool (P : Type) := {
  pool_allocate : P → (RC.t + PageNum) * P;
  pool_dispose : PageNum → P → P;
  pool_pages : P → gset PageNum;
  pool_allocate_ok : ∀ s s' p, pool_allocate s = (inr p, s') →
    0 <= p ∧ (p ∉ pool_pages s) ∧ pool_pages s' = {[p]} ∪ pool_pages s;
  pool_allocate_err : ∀ s s' rc, pool_allocate s = (inl rc, s') → rc ≠ RC.SUCCESS;
  pool_pages_32 : ∀ s p, p ∈ pool_pages s → p < 2 ^ 31;
  pool_dispose_ok : ∀ s p,
    pool_pages s ∖ {[p]} ⊆ pool_pages (pool_dispose p s) ∧
    pool_pages (pool_dispose p s) ⊆ pool_pages s
}.

Inductive handler_type : Set := HLeaf | HInternal.

Section tree.
Context {K P : Type} `{!IndexKey K} `{!PagePool P}.

Record state : Type := State {
  file_header : IndexFileHeader;
  header_dirty : bool;
  pool : P;
  pages : gmap PageNum (IndexNode K);
  dirty : gset PageNum;
  memo : LatchMemo
}.
Abbreviation M := (ST state).

Definition set_memo (f : LatchMemo → LatchMemo) (s : state) : state :=
  State (file_header s) (header_dirty s) (pool s) (pages s) (dirty s) (f (memo s)).
Definition set_pages (f : gmap PageNum (IndexNode K) → gmap PageNum (IndexNode K))
    (s : state) : state :=
  State (file_header s) (header_dirty s) (pool s) (f (pages s)) (dirty s) (memo s).
Definition set_pool (p : P) (s : state) : state :=
  State (file_header s) (header_dirty s) p (pages s) (dirty s) (memo s).

(** ** Frames and the latch memo *)

(** [disk_buffer_pool_->get_this_page]: a page that is not in the file cannot be
    read. *)
Definition get_this_page (p : PageNum) : M (RC.t + PageNum) :=
  s ← st_get;
  match pages s !! p with
  | Some _ => mret (inr p)
  | None => mret (inl RC.IOERR_READ)
  end.

Definition read_node (p : PageNum) : M (IndexNode K) :=
  s ← st_get; st_some (pages s !! p).
Definition read_leaf (p : PageNum) : M (LeafIndexNode K) :=
  n ← read_node p; match n with LeafPage l => mret l | InternalPage _ => st_crash end.
Definition read_internal (p : PageNum) : M (InternalIndexNode K) :=
  n ← read_node p; match n with InternalPage i => mret i | LeafPage _ => st_crash end.
Definition write_node (p : PageNum) (n : IndexNode K) : M () :=
  st_modify (set_pages <[p := n]>).
Definition write_leaf (p : PageNum) (l : LeafIndexNode K) : M () := write_node p (LeafPage l).
Definition write_internal (p : PageNum) (i : InternalIndexNode K) : M () :=
  write_node p (InternalPage i).

Definition mark_dirty (p : PageNum) : M () :=
  st_modify (λ s, State (file_header s) (header_dirty s) (pool s) (pages s)
                        ({[p]} ∪ dirty s) (memo s)).

Definition set_parent_page_num (p parent : PageNum) : M () :=
  n ← read_node p;
  write_node p (IndexNodeHandler.set_parent_page_num parent n).

(** [DiskBufferPool::allocate_page] *)
Definition allocate_page : M (RC.t + PageNum) :=
  s ← st_get;
  let '(r, pool') := pool_allocate (pool s) in
  st_modify (set_pool pool') ;;;
  mret r.

(** [LatchMemo::get_page], [allocate_page], [dispose_page], [latch], [xlatch] *)
Definition memo_get_page (p : PageNum) : M (RC.t + PageNum) :=
  frame <-? get_this_page p ;;
  st_modify (set_memo (memo_push (LatchItem PIN (OnFrame frame)))) ;;;
  mret (inr frame).
Definition memo_allocate_page : M (RC.t + PageNum) :=
  frame <-? allocate_page ;;
  st_modify (set_memo (memo_push (LatchItem PIN (OnFrame frame)))) ;;;
  mret (inr frame).
Definition dispose_page (p : PageNum) : M () :=
  st_modify (set_memo (memo_dispose_page p)).
Definition latch (frame : PageNum) (t : LatchMemoType) : M () :=
  st_modify (set_memo (memo_push (LatchItem t (OnFrame frame)))).
Definition xlatch (frame : PageNum) : M () := latch frame EXCLUSIVE.
Definition latch_root (t : LatchMemoType) : M () :=
  st_modify (set_memo (memo_push (LatchItem t OnLock))).
Definition release_to (point : nat) : M () :=
  s ← st_get;
  m ← st_some (memo_release_to point (memo s));
  st_modify (set_memo (λ _, m.2)).

(** [LatchMemo::release]: the disposed pages go back to the pool, and what their
    frames held is gone. *)
Definition pool_dispose_page (p : PageNum) (s : state) : state :=
  State (file_header s) (header_dirty s) (pool_dispose p (pool s))
        (delete p (pages s)) (dirty s ∖ {[p]}) (memo s).
Definition release : M () :=
  s ← st_get;
  m ← st_some (memo_release (memo s));
  let '(_, disposed, m') := m in
  st_modify (λ s, foldl (flip pool_dispose_page) (set_memo (λ _, m') s) disposed).

(** The scope of a local [LatchMemo]: its destructor releases it on every return. *)
Definition with_latch_memo {A} (body : M A) : M A :=
  st_modify (set_memo (λ _, memo_empty)) ;;;
  r ← body;
  release ;;;
  mret r.

(** ** Header *)
Definition is_empty (s : state) : bool :=
  bool_decide (root_page (file_header s) = BP_INVALID_PAGE_NUM).

Definition update_root_page_num_locked (p : PageNum) : M () :=
  st_modify (λ s,
    let h := file_header s in
    State (FileHeader p (internal_max_size h) (leaf_max_size h) (unique h))
          true (pool s) (pages s) (dirty s) (memo s)).

(** ** Descending *)
Definition crabing_protocal_fetch_page (op : BplusTreeOperationType) (page_num : PageNum)
    (is_root_node : bool) : M (RC.t + PageNum) :=
  s ← st_get;
  let readonly := bool_decide (op = READ) in
  let point := memo_point (memo s) in
  frame <-? memo_get_page page_num ;;
  latch frame (if readonly then SHARED else EXCLUSIVE) ;;;
  n ← read_node frame;
  (if IndexNodeHandler.is_safe (file_header s) n op is_root_node
   then release_to point else mret ()) ;;;
  mret (inr frame).

Fixpoint find_leaf_loop (fuel : nat) (op : BplusTreeOperationType)
    (child_page_getter : InternalIndexNode K → option PageNum) (frame : PageNum)
  : M (RC.t + PageNum) :=
  match fuel with
  | O => st_nofuel
  | S fuel =>
      node ← read_node frame;
      match node with
      | LeafPage _ => mret (inr frame)
      | InternalPage internal_node =>
          next_page_id ← st_some (child_page_getter internal_node);
          frame' <-? crabing_protocal_fetch_page op next_page_id false ;;
          find_leaf_loop fuel op child_page_getter frame'
      end
  end.

Definition find_leaf_internal (fuel : nat) (op : BplusTreeOperationType)
    (child_page_getter : InternalIndexNode K → option PageNum) : M (RC.t + PageNum) :=
  (if decide (op ≠ READ) then latch_root EXCLUSIVE else latch_root SHARED) ;;;
  s ← st_get;
  if is_empty s then mret (inl RC.EMPTY)
  else
    frame <-? crabing_protocal_fetch_page op (root_page (file_header s)) true ;;
    find_leaf_loop fuel op child_page_getter frame.

(** [internal_node.value_at(internal_node.lookup(key_comparator_, key))] *)
Definition child_of_key (key : K) (n : InternalIndexNode K) : option PageNum :=
  '(i, _, _) ← InternalIndexNodeHandler.lookup key_cmp n key;
  InternalIndexNodeHandler.value_at n i.
Definition find_leaf (fuel : nat) (op : BplusTreeOperationType) (key : K)
  : M (RC.t + PageNum) :=
  find_leaf_internal fuel op (child_of_key key).

Definition left_most_page (fuel : nat) : M (RC.t + PageNum) :=
  find_leaf_internal fuel READ (λ n, InternalIndexNodeHandler.value_at n 0).

(** ** Moving internal items: the moved children get a new parent *)
Fixpoint set_parents (this : PageNum) (items : list (K * PageNum)) : M RC.t :=
  match items with
  | [] => mret RC.SUCCESS
  | item :: items =>
      frame <-? get_this_page item.2 ;;
      set_parent_page_num frame this ;;;
      mark_dirty frame ;;;
      set_parents this items
  end.

Definition copy_from (this : PageNum) (items : list (K * PageNum)) : M RC.t :=
  try set_parents this items ;;
  n ← read_internal this;
  write_internal this (InternalIndexNodeHandler.set_array n (internal_array n ++ items)) ;;;
  mret RC.SUCCESS.

Definition internal_append (this : PageNum) (item : K * PageNum) : M RC.t :=
  copy_from this [item].

Definition internal_preappend (this : PageNum) (item : K * PageNum) : M RC.t :=
  frame <-? get_this_page item.2 ;;
  set_parent_page_num frame this ;;;
  mark_dirty frame ;;;
  n ← read_internal this;
  write_internal this (InternalIndexNodeHandler.set_array n (item :: internal_array n)) ;;;
  mret RC.SUCCESS.

Definition update_internal_array (this : PageNum)
    (f : list (K * PageNum) → list (K * PageNum)) : M () :=
  n ← read_internal this;
  write_internal this (InternalIndexNodeHandler.set_array n (f (internal_array n))).

Definition internal_move_half_to (this other : PageNum) : M RC.t :=
  n ← read_internal this;
  let move_index := (InternalIndexNodeHandler.size n / 2)%nat in
  try copy_from other (drop move_index (internal_array n)) ;;
  update_internal_array this (take move_index) ;;;
  mret RC.SUCCESS.

Definition internal_move_to (this other : PageNum) : M RC.t :=
  n ← read_internal this;
  try copy_from other (internal_array n) ;;
  update_internal_array this (λ _, []) ;;;
  mret RC.SUCCESS.

Definition internal_move_first_to_end (this other : PageNum) : M RC.t :=
  n ← read_internal this;
  item ← st_some (internal_array n !! 0%nat);
  try internal_append other item ;;
  update_internal_array this (drop 1) ;;;
  mret RC.SUCCESS.

Definition internal_move_last_to_front (this other : PageNum) : M RC.t :=
  n ← read_internal this;
  item ← st_some (internal_array n !! (InternalIndexNodeHandler.size n - 1)%nat);
  try internal_preappend other item ;;
  update_internal_array this (λ a, take (length a - 1) a) ;;;
  mret RC.SUCCESS.

(** The member functions of the template parameter. *)
Definition leaf_pair (f : LeafIndexNode K → LeafIndexNode K →
    option (LeafIndexNode K * LeafIndexNode K)) (this other : PageNum) : M RC.t :=
  n ← read_leaf this;
  o ← read_leaf other;
  no ← st_some (f n o);
  write_leaf this no.1 ;;;
  write_leaf other no.2 ;;;
  mret RC.SUCCESS.

Definition init_empty (T : handler_type) (p : PageNum) : M () :=
  write_node p (match T with
                | HLeaf => LeafPage LeafIndexNodeHandler.init_empty
                | HInternal => InternalPage InternalIndexNodeHandler.init_empty
                end).
Definition move_half_to (T : handler_type) (this other : PageNum) : M RC.t :=
  match T with
  | HLeaf => leaf_pair LeafIndexNodeHandler.move_half_to this other
  | HInternal => internal_move_half_to this other
  end.
Definition move_to (T : handler_type) (this other : PageNum) : M RC.t :=
  match T with
  | HLeaf => leaf_pair (λ n o, Some (LeafIndexNodeHandler.move_to n o)) this other
  | HInternal => internal_move_to this other
  end.
Definition move_first_to_end (T : handler_type) (this other : PageNum) : M RC.t :=
  match T with
  | HLeaf => leaf_pair LeafIndexNodeHandler.move_first_to_end this other
  | HInternal => internal_move_first_to_end this other
  end.
Definition move_last_to_front (T : handler_type) (this other : PageNum) : M RC.t :=
  match T with
  | HLeaf => leaf_pair LeafIndexNodeHandler.move_last_to_front this other
  | HInternal => internal_move_last_to_front this other
  end.
Definition key_at (T : handler_type) (p : PageNum) (index : nat) : M K :=
  match T with
  | HLeaf => n ← read_leaf p; st_some (LeafIndexNodeHandler.key_at n index)
  | HInternal => n ← read_internal p; st_some (InternalIndexNodeHandler.key_at n index)
  end.

(** ** Insertion *)
Definition split (T : handler_type) (frame : PageNum) : M (RC.t + PageNum) :=
  new_frame <-? memo_allocate_page ;;
  xlatch new_frame ;;;
  init_empty T new_frame ;;;
  old_node ← read_node frame;
  set_parent_page_num new_frame (IndexNodeHandler.parent_page_num old_node) ;;;
  move_half_to T frame new_frame ;;;
  mark_dirty frame ;;;
  mark_dirty new_frame ;;;
  mret (inr new_frame).

Definition internal_insert (p : PageNum) (key : K) (page_num : PageNum) : M () :=
  n ← read_internal p;
  n' ← st_some (InternalIndexNodeHandler.insert n key page_num key_cmp);
  write_internal p n'.

Definition leaf_insert (p : PageNum) (index : nat) (key : K) (rid : RID.t) : M () :=
  n ← read_leaf p;
  n' ← st_some (LeafIndexNodeHandler.insert n index key rid);
  write_leaf p n'.

Fixpoint insert_entry_into_parent (fuel : nat) (frame new_frame : PageNum) (key : K)
  : M RC.t :=
  match fuel with
  | O => st_nofuel
  | S fuel =>
      node_handler ← read_node frame;
      let parent_page_num := IndexNodeHandler.parent_page_num node_handler in
      if decide (parent_page_num = BP_INVALID_PAGE_NUM) then
        root_frame <-? allocate_page ;;
        init_empty HInternal root_frame ;;;
        root_node ← read_internal root_frame;
        root_node' ← st_some
          (InternalIndexNodeHandler.create_new_root root_node frame key new_frame);
        write_internal root_frame root_node' ;;;
        set_parent_page_num frame root_frame ;;;
        set_parent_page_num new_frame root_frame ;;;
        mark_dirty frame ;;;
        mark_dirty new_frame ;;;
        update_root_page_num_locked root_frame ;;;
        mark_dirty root_frame ;;;
        mret RC.SUCCESS
      else
        parent_frame <-? memo_get_page parent_page_num ;;
        parent_node ← read_node parent_frame;
        s ← st_get;
        if decide (IndexNodeHandler.size parent_node
                     < IndexNodeHandler.max_size (file_header s) parent_node)%nat then
          internal_insert parent_frame key new_frame ;;;
          set_parent_page_num new_frame parent_page_num ;;;
          mark_dirty frame ;;;
          mark_dirty new_frame ;;;
          mark_dirty parent_frame ;;;
          mret RC.SUCCESS
        else
          new_parent_frame <-? split HInternal parent_frame ;;
          new_node_key ← key_at HInternal new_parent_frame 0;
          (if decide (0 < key_cmp key new_node_key) then
             internal_insert new_parent_frame key new_frame ;;;
             set_parent_page_num new_frame new_parent_frame
           else
             internal_insert parent_frame key new_frame ;;;
             set_parent_page_num new_frame parent_frame) ;;;
          new_node_key ← key_at HInternal new_parent_frame 0;
          insert_entry_into_parent fuel parent_frame new_parent_frame new_node_key
  end.

Definition insert_entry_into_leaf_node (fuel : nat) (frame : PageNum) (key : K)
    (rid : RID.t) : M RC.t :=
  leaf_node ← read_leaf frame;
  s ← st_get;
  pos ← st_some (if unique (file_header s)
                 then LeafIndexNodeHandler.lookup attr_cmp leaf_node key
                 else LeafIndexNodeHandler.lookup key_cmp leaf_node key);
  let '(insert_position, exists_) := pos in
  if exists_ : bool then mret RC.RECORD_DUPLICATE_KEY
  else if decide (LeafIndexNodeHandler.size leaf_node
                    < IndexNodeHandler.max_size (file_header s) (LeafPage leaf_node))%nat then
    leaf_insert frame insert_position key rid ;;;
    mark_dirty frame ;;;
    mret RC.SUCCESS
  else
    new_frame <-? split HLeaf frame ;;
    leaf_node ← read_leaf frame;
    new_index_node ← read_leaf new_frame;
    write_leaf new_frame
      (LeafIndexNodeHandler.set_next_page (next_brother leaf_node) new_index_node) ;;;
    set_parent_page_num new_frame (leaf_parent leaf_node) ;;;
    write_leaf frame (LeafIndexNodeHandler.set_next_page new_frame leaf_node) ;;;
    (if decide (insert_position < LeafIndexNodeHandler.size leaf_node)%nat
     then leaf_insert frame insert_position key rid
     else leaf_insert new_frame
            (insert_position - LeafIndexNodeHandler.size leaf_node) key rid) ;;;
    new_key ← key_at HLeaf new_frame 0;
    insert_entry_into_parent fuel frame new_frame new_key.

Definition create_new_tree (key : K) (rid : RID.t) : M RC.t :=
  s ← st_get;
  if decide (root_page (file_header s) ≠ BP_INVALID_PAGE_NUM) then mret RC.INTERNAL
  else
    frame <-? allocate_page ;;
    init_empty HLeaf frame ;;;
    leaf_insert frame 0 key rid ;;;
    update_root_page_num_locked frame ;;;
    mark_dirty frame ;;;
    mret RC.SUCCESS.

(** [insert_entry] after [make_key]; the fuel bounds the height of the tree. *)
Definition insert_entry (fuel : nat) (key : K) (rid : RID.t) : M RC.t :=
  s ← st_get;
  if is_empty s then create_new_tree key rid
  else with_latch_memo (
    frame <-? find_leaf fuel INSERT key ;;
    insert_entry_into_leaf_node fuel frame key rid).

(** ** Deletion *)
Definition adjust_root (root_frame : PageNum) : M RC.t :=
  root_node ← read_node root_frame;
  if IndexNodeHandler.is_leaf root_node
     && bool_decide (0 < IndexNodeHandler.size root_node)%nat then
    mark_dirty root_frame ;;;
    mret RC.SUCCESS
  else
    new_root_page_num <-?
      (match root_node with
       | LeafPage leaf =>
           st_assert (bool_decide (LeafIndexNodeHandler.size leaf = 0)%nat) ;;;
           mret (inr BP_INVALID_PAGE_NUM)
       | InternalPage internal_node =>
           child_page_num ← st_some (InternalIndexNodeHandler.value_at internal_node 0);
           child_frame <-? memo_get_page child_page_num ;;
           set_parent_page_num child_frame BP_INVALID_PAGE_NUM ;;;
           mret (inr child_page_num)
       end) ;;
    update_root_page_num_locked new_root_page_num ;;;
    dispose_page root_frame ;;;
    mret RC.SUCCESS.

Definition internal_remove (p : PageNum) (index : nat) : M () :=
  n ← read_internal p;
  n' ← st_some (InternalIndexNodeHandler.remove n index);
  write_internal p n'.

Definition internal_set_key_at (p : PageNum) (index : nat) (key : K) : M () :=
  n ← read_internal p;
  n' ← st_some (InternalIndexNodeHandler.set_key_at n index key);
  write_internal p n'.

(** [rec] is [coalesce_or_redistribute<InternalIndexNodeHandler>]. *)
Definition coalesce (rec : PageNum → M RC.t) (T : handler_type)
    (neighbor_frame frame parent_frame : PageNum) (index : nat) : M RC.t :=
  let '(left_frame, right_frame, index) :=
    if decide (index = 0%nat) then (frame, neighbor_frame, S index)
    else (neighbor_frame, frame, index) in
  internal_remove parent_frame index ;;;
  try move_to T right_frame left_frame ;;
  left_node ← read_node left_frame;
  (if IndexNodeHandler.is_leaf left_node then
     left_leaf_node ← read_leaf left_frame;
     right_leaf_node ← read_leaf right_frame;
     write_leaf left_frame
       (LeafIndexNodeHandler.set_next_page (next_brother right_leaf_node) left_leaf_node)
   else mret ()) ;;;
  dispose_page right_frame ;;;
  rec parent_frame.

Definition redistribute (T : handler_type)
    (neighbor_frame frame parent_frame : PageNum) (index : nat) : M RC.t :=
  (if decide (index = 0%nat) then
     move_first_to_end T neighbor_frame frame ;;;
     k ← key_at T neighbor_frame 0;
     internal_set_key_at parent_frame (index + 1) k
   else
     move_last_to_front T neighbor_frame frame ;;;
     k ← key_at T frame 0;
     internal_set_key_at parent_frame index k) ;;;
  mark_dirty neighbor_frame ;;;
  mark_dirty frame ;;;
  mark_dirty parent_frame ;;;
  mret RC.SUCCESS.

Fixpoint coalesce_or_redistribute (fuel : nat) (T : handler_type) (frame : PageNum)
  : M RC.t :=
  match fuel with
  | O => st_nofuel
  | S fuel =>
      index_node ← read_node frame;
      s ← st_get;
      let h := file_header s in
      if decide (IndexNodeHandler.min_size h index_node
                   <= IndexNodeHandler.size index_node)%nat then mret RC.SUCCESS
      else
        let parent_page_num := IndexNodeHandler.parent_page_num index_node in
        if decide (BP_INVALID_PAGE_NUM = parent_page_num) then
          if decide (1 < IndexNodeHandler.size index_node)%nat then mret RC.SUCCESS
          else adjust_root frame ;;; mret RC.SUCCESS
        else
          parent_frame <-? memo_get_page parent_page_num ;;
          st_assert (bool_decide (0 < IndexNodeHandler.size index_node)%nat) ;;;
          k ← key_at T frame (IndexNodeHandler.size index_node - 1);
          parent_index_node ← read_internal parent_frame;
          look ← st_some (InternalIndexNodeHandler.lookup key_cmp parent_index_node k);
          let '(index, _, _) := look in
          child ← st_some (InternalIndexNodeHandler.value_at parent_index_node index);
          st_assert (bool_decide (child = frame)) ;;;
          neighbor_page_num ← st_some
            (InternalIndexNodeHandler.value_at parent_index_node
               (if decide (index = 0%nat) then 1%nat else (index - 1)%nat));
          neighbor_frame <-? memo_get_page neighbor_page_num ;;
          xlatch neighbor_frame ;;;
          neighbor_node ← read_node neighbor_frame;
          if decide (IndexNodeHandler.max_size h index_node
                       < IndexNodeHandler.size index_node
                         + IndexNodeHandler.size neighbor_node)%nat
          then redistribute T neighbor_frame frame parent_frame index
          else coalesce (coalesce_or_redistribute fuel HInternal) T
                 neighbor_frame frame parent_frame index
  end.

Definition delete_entry_internal (fuel : nat) (leaf_frame : PageNum) (key : K) : M RC.t :=
  leaf_index_node ← read_leaf leaf_frame;
  r ← st_some (LeafIndexNodeHandler.remove_key leaf_index_node key_cmp key);
  let '(remove_count, leaf_index_node) := r in
  if decide (remove_count = 0%nat) then mret RC.RECORD_NOT_EXIST
  else
    write_leaf leaf_frame leaf_index_node ;;;
    mark_dirty leaf_frame ;;;
    s ← st_get;
    if decide (IndexNodeHandler.min_size (file_header s) (LeafPage leaf_index_node)
                 <= LeafIndexNodeHandler.size leaf_index_node)%nat
    then mret RC.SUCCESS
    else coalesce_or_redistribute fuel HLeaf leaf_frame.

(** [delete_entry] after [make_key] *)
Definition delete_entry (fuel : nat) (key : K) : M RC.t :=
  with_latch_memo (
    r ← find_leaf fuel DELETE key;
    match r with
    | inl rc => if decide (rc = RC.EMPTY) then mret RC.RECORD_NOT_EXIST else mret rc
    | inr leaf_frame => delete_entry_internal fuel leaf_frame key
    end).
End tree.
Arguments state : clear implicits.
