(* ===== verification/BplusInv.v ===== *)
(** * The B+ tree invariant

    A tree is described by an annotated page map [G : gmap PageNum gnode]: every
    page of the tree with its node, the half-open range [g_lo, g_hi) of the keys it
    is responsible for, and its level above the leaves.  [wf] says, page by page,
    that a node fits its annotation; nothing in it is global, so an operation is
    verified by looking at the pages it touches.  The ranges of the children of a
    node tile the range of the node ([tiled]); the leaf chain follows the ranges;
    parent fields and child lists mirror each other. *)
From S2P Require Import Prelude LowerBound RidKey LatchMemo BplusNode BplusTree.
From Stdlib Require Import ZArith Lia Sorted.
From stdpp Require Import base option gmap list sorting.
Local Open Scope Z_scope.

Inductive bound (K : Type) : Type := MInf | Fin (k : K) | PInf.
Arguments MInf {K}. Arguments Fin {K} _. Arguments PInf {K}.

Section bounds.
Context {K : Type} `{!IndexKey K}.
Implicit Types (b lo hi : bound K) (k : K).

(** Bounds are compared like keys, [MInf] first and [PInf] last. *)
Definition bcmp b1 b2 : Z :=
  match b1, b2 with
  | MInf, MInf | PInf, PInf => 0
  | MInf, _ | _, PInf => -1
  | _, MInf | PInf, _ => 1
  | Fin k1, Fin k2 => key_cmp k1 k2
  end.

#[global] Instance bcmp_total : TotalCmp bcmp.
Proof.
  split.
  - intros [|x|] [|y|]; simpl; try done. apply cmp_swap.
  - intros [|x|] [|y|] [|z|]; simpl; try lia. apply cmp_le_trans.
Qed.

Definition in_range lo hi b : Prop := bcmp lo b <= 0 ∧ bcmp b hi < 0.

Lemma in_range_lo lo hi : bcmp lo hi < 0 → in_range lo hi lo.
Proof. intros. split; [|done]. by rewrite (cmp_refl bcmp). Qed.
Lemma in_range_weaken lo hi lo' hi' b :
  bcmp lo' lo <= 0 → bcmp hi hi' <= 0 → in_range lo hi b → in_range lo' hi' b.
Proof.
  intros ?? [??]. split.
  - by eapply (cmp_le_trans lo').
  - by eapply (cmp_lt_le_trans bcmp).
Qed.
Lemma in_range_nonempty lo hi b : in_range lo hi b → bcmp lo hi < 0.
Proof. intros [??]. by eapply (cmp_le_lt_trans bcmp). Qed.
Lemma bcmp_MInf_l b : bcmp MInf b <= 0.
Proof. destruct b; simpl; lia. Qed.
Lemma bcmp_PInf_r b : bcmp b PInf <= 0.
Proof. destruct b; simpl; lia. Qed.
End bounds.

Section inv.
Context {K : Type} `{!IndexKey K}.

Record gnode : Type := GN {
  g_lo : bound K;
  g_hi : bound K;
  g_lvl : nat;
  g_node : IndexNode K
}.
Implicit Types (G : gmap PageNum gnode) (g : gnode) (p q c : PageNum)
  (items : list (K * PageNum)) (cs : list PageNum) (lo hi b : bound K).

Definition g_parent g : PageNum := IndexNodeHandler.parent_page_num (g_node g).
Definition g_kids g : list (K * PageNum) :=
  match g_node g with LeafPage _ => [] | InternalPage i => internal_array i end.
Definition g_entries g : list (K * RID.t) :=
  match g_node g with LeafPage l => leaf_array l | InternalPage _ => [] end.
Definition g_set_parent (p : PageNum) g : gnode :=
  GN (g_lo g) (g_hi g) (g_lvl g) (IndexNodeHandler.set_parent_page_num p (g_node g)).

(** The children's ranges follow one another from [lo] to [hi]. *)
Fixpoint tiled G lo hi cs : Prop :=
  match cs with
  | [] => lo = hi
  | c :: cs => ∃ g, G !! c = Some g ∧ g_lo g = lo ∧ bcmp lo (g_hi g) < 0 ∧
                    tiled G (g_hi g) hi cs
  end.

Definition keys_sorted {V} (a : list (K * V)) : Prop :=
  StronglySorted (λ x y, key_cmp x.1 y.1 < 0) a.

Definition child_ok G p (lvl : nat) (item : K * PageNum) : Prop :=
  ∃ g, G !! item.2 = Some g ∧ S (g_lvl g) = lvl ∧ g_parent g = p ∧
       (g_lo g = MInf ∨ g_lo g = Fin item.1).

Definition next_ok G hi (next : PageNum) : Prop :=
  (hi = PInf ∧ next = BP_INVALID_PAGE_NUM) ∨
  (∃ g, G !! next = Some g ∧ g_lvl g = 0%nat ∧ g_lo g = hi).

Definition node_ok G p g : Prop :=
  match g_node g with
  | LeafPage l =>
      g_lvl g = 0%nat ∧ keys_sorted (leaf_array l) ∧
      Forall (λ e, in_range (g_lo g) (g_hi g) (Fin e.1)) (leaf_array l) ∧
      next_ok G (g_hi g) (next_brother l)
  | InternalPage i =>
      tiled G (g_lo g) (g_hi g) (internal_array i).*2 ∧
      Forall (child_ok G p (g_lvl g)) (internal_array i)
  end.

Definition up_ok G root p g : Prop :=
  (p = root ∧ g_parent g = BP_INVALID_PAGE_NUM ∧ g_lo g = MInf ∧ g_hi g = PInf) ∨
  (p ≠ root ∧ ∃ gq k, G !! g_parent g = Some gq ∧ (k, p) ∈ g_kids gq).

Record wf (root : PageNum) G : Prop := {
  wf_root : is_Some (G !! root);
  wf_range : ∀ p g, G !! p = Some g → bcmp (g_lo g) (g_hi g) < 0;
  wf_num : ∀ p g, G !! p = Some g → 0 <= p;
  wf_lvl : ∀ p g r, G !! p = Some g → G !! root = Some r → p ≠ root →
    (g_lvl g < g_lvl r)%nat;
  wf_up : ∀ p g, G !! p = Some g → up_ok G root p g;
  wf_node : ∀ p g, G !! p = Some g → node_ok G p g
}.

(** Bounds on the number of items, which an operation relaxes at the node it is
    working on. *)
Definition sized (Sz : PageNum → IndexNode K → Prop) G : Prop :=
  ∀ p g, G !! p = Some g → Sz p (g_node g).

(** The entries of the tree: what its leaves hold. *)
Definition entries G (e : K * RID.t) : Prop :=
  ∃ p g, G !! p = Some g ∧ e ∈ g_entries g.

(** ** Tilings *)
Lemma tiled_app G lo hi cs1 cs2 :
  tiled G lo hi (cs1 ++ cs2) ↔ ∃ mid, tiled G lo mid cs1 ∧ tiled G mid hi cs2.
Proof.
  revert lo. induction cs1 as [|c cs1 IH]; intros lo; simpl.
  - naive_solver.
  - setoid_rewrite IH. naive_solver.
Qed.

Lemma tiled_ext G G' lo hi cs :
  (∀ c g, c ∈ cs → G !! c = Some g →
    ∃ g', G' !! c = Some g' ∧ g_lo g' = g_lo g ∧ g_hi g' = g_hi g) →
  tiled G lo hi cs → tiled G' lo hi cs.
Proof.
  revert lo. induction cs as [|c cs IH]; intros lo Hext; simpl; [done|].
  intros (g & Hg & <- & Hlt & Ht).
  destruct (Hext c g) as (g' & Hg' & Hlo & Hhi); [left|done|].
  exists g'. rewrite Hhi. split_and!; [done..|].
  apply IH; [|done]. intros c' g'' Hin. apply Hext. by right.
Qed.

Lemma tiled_le G lo hi cs : tiled G lo hi cs → bcmp lo hi <= 0.
Proof.
  revert lo. induction cs as [|c cs IH]; intros lo; simpl.
  - intros ->. by rewrite (cmp_refl bcmp).
  - intros (g & _ & _ & Hlt & Ht%IH).
    pose proof (cmp_lt_le_trans bcmp _ _ _ Hlt Ht). lia.
Qed.

Lemma tiled_elem G lo hi cs c g :
  tiled G lo hi cs → c ∈ cs → G !! c = Some g →
  bcmp lo (g_lo g) <= 0 ∧ bcmp (g_hi g) hi <= 0.
Proof.
  intros Ht (cs1 & cs2 & ->)%list_elem_of_split Hg.
  apply tiled_app in Ht as (mid & H1%tiled_le & g' & Hg' & <- & _ & H2%tiled_le).
  by simplify_eq.
Qed.

Lemma tiled_unique G lo hi cs c1 c2 g1 g2 b :
  tiled G lo hi cs → c1 ∈ cs → c2 ∈ cs →
  G !! c1 = Some g1 → G !! c2 = Some g2 →
  in_range (g_lo g1) (g_hi g1) b → in_range (g_lo g2) (g_hi g2) b → c1 = c2.
Proof.
  revert lo. induction cs as [|c cs IH]; intros lo; simpl.
  { intros _ ?%not_elem_of_nil; done. }
  intros (g & Hg & <- & Hlt & Ht) H1 H2 Hg1 Hg2 [Hb1 Hb1'] [Hb2 Hb2'].
  (* a later child starts after the head's range *)
  assert (∀ c' g', c' ∈ cs → G !! c' = Some g' →
    bcmp (g_lo g') b <= 0 → bcmp b (g_hi g) < 0 → False) as Hno.
  { intros c' g' Hin Hg' Hle Hlt'.
    destruct (tiled_elem _ _ _ _ _ _ Ht Hin Hg') as [Hle' _].
    pose proof (cmp_le_trans _ _ _ Hle' Hle) as H. apply (cmp_flip_le bcmp) in H. lia. }
  apply elem_of_cons in H1 as [->|H1]; apply elem_of_cons in H2 as [->|H2];
    simplify_eq; [done| | |by eapply IH]; exfalso.
  - by eapply (Hno c2).
  - by eapply (Hno c1).
Qed.

Lemma tiled_NoDup G lo hi cs : tiled G lo hi cs → NoDup cs.
Proof.
  revert lo. induction cs as [|c cs IH]; intros lo; simpl; [by constructor|].
  intros (g & Hg & <- & Hlt & Ht). constructor; [|by eapply IH].
  intros Hin. destruct (tiled_elem _ _ _ _ _ _ Ht Hin Hg) as [Hle _].
  apply (cmp_flip_le bcmp) in Hle. lia.
Qed.

(** The range of the child at a position. *)
Lemma tiled_lookup G lo hi cs (i : nat) c :
  tiled G lo hi cs → cs !! i = Some c →
  ∃ g, G !! c = Some g ∧ (i = 0%nat → g_lo g = lo) ∧
    match cs !! S i with
    | Some c' => ∃ g', G !! c' = Some g' ∧ g_lo g' = g_hi g
    | None => g_hi g = hi
    end.
Proof.
  intros Ht Hc. rewrite <-(take_drop_middle _ _ _ Hc) in Ht.
  apply tiled_app in Ht as (mid & H1 & g & Hg & Hlo & Hlt & H2).
  exists g. split_and!; [done| |].
  - intros ->. simpl in H1. congruence.
  - destruct (cs !! S i) as [c'|] eqn:Hc'.
    + rewrite (drop_S _ _ _ Hc') in H2. destruct H2 as (g' & ? & ? & _). eauto.
    + apply lookup_ge_None in Hc'. by rewrite drop_ge in H2 by done.
Qed.

Lemma tiled_order G lo hi cs (i j : nat) c1 c2 g1 g2 :
  tiled G lo hi cs → cs !! i = Some c1 → cs !! j = Some c2 → (i < j)%nat →
  G !! c1 = Some g1 → G !! c2 = Some g2 → bcmp (g_hi g1) (g_lo g2) <= 0.
Proof.
  intros Ht Hi Hj Hij H1 H2. rewrite <-(take_drop_middle _ _ _ Hi) in Ht.
  apply tiled_app in Ht as (mid & _ & g & Hg & _ & _ & Ht). simplify_eq.
  eapply (tiled_elem _ _ _ _ c2 g2 Ht); [|done].
  apply (list_elem_of_lookup_2 _ (j - S i)). rewrite lookup_drop. rewrite <-Hj. f_equal. lia.
Qed.

(** ** Consequences of [wf] *)
Section wf.
Context {root : PageNum} {G : gmap PageNum gnode} (Hwf : wf root G).

Lemma g_kids_internal g k c :
  (k, c) ∈ g_kids g → ∃ i, g_node g = InternalPage i ∧ (k, c) ∈ internal_array i.
Proof.
  unfold g_kids. destruct (g_node g) as [l|i]; [|by eauto].
  by intros ?%not_elem_of_nil.
Qed.

Lemma wf_child q gq k c :
  G !! q = Some gq → (k, c) ∈ g_kids gq →
  ∃ g, G !! c = Some g ∧ S (g_lvl g) = g_lvl gq ∧ g_parent g = q ∧
       (g_lo g = MInf ∨ g_lo g = Fin k) ∧
       bcmp (g_lo gq) (g_lo g) <= 0 ∧ bcmp (g_hi g) (g_hi gq) <= 0.
Proof.
  intros Hq (i & Hi & Hc)%g_kids_internal.
  pose proof (wf_node _ _ Hwf _ _ Hq) as Hnode.
  unfold node_ok in Hnode. rewrite Hi in Hnode. destruct Hnode as [Ht Hall].
  rewrite Forall_forall in Hall. destruct (Hall _ Hc) as (g & Hg & Hl & Hp & Hlo).
  simpl in *. exists g. split_and!; try done;
    eapply (tiled_elem _ _ _ _ c g Ht); try done;
    by eapply elem_of_snd.
Qed.

Lemma wf_child_not_root q gq k c :
  G !! q = Some gq → (k, c) ∈ g_kids gq → c ≠ root.
Proof.
  intros Hq Hc. destruct (wf_child _ _ _ _ Hq Hc) as (g & Hg & _ & Hp & _).
  destruct (wf_up _ _ Hwf _ _ Hg) as [(-> & Hinv & _)|[??]]; [|done].
  pose proof (wf_num _ _ Hwf _ _ Hq). unfold BP_INVALID_PAGE_NUM in *. lia.
Qed.

Lemma wf_parent p g :
  G !! p = Some g → p ≠ root →
  ∃ gq k, G !! g_parent g = Some gq ∧ (k, p) ∈ g_kids gq ∧ g_lvl gq = S (g_lvl g) ∧
    bcmp (g_lo gq) (g_lo g) <= 0 ∧ bcmp (g_hi g) (g_hi gq) <= 0.
Proof.
  intros Hp Hne. destruct (wf_up _ _ Hwf _ _ Hp) as [[??]|(_ & gq & k & Hq & Hk)];
    [done|].
  destruct (wf_child _ _ _ _ Hq Hk) as (g' & Hg' & Hl & _ & _ & ? & ?).
  simplify_eq. exists gq, k. split_and!; done.
Qed.

Lemma wf_parent_valid p g :
  G !! p = Some g → (g_parent g = BP_INVALID_PAGE_NUM ↔ p = root).
Proof.
  intros Hp. split.
  - intros Hinv. destruct (decide (p = root)) as [|Hne]; [done|].
    destruct (wf_parent _ _ Hp Hne) as (gq & k & Hq & _).
    pose proof (wf_num _ _ Hwf _ _ Hq). unfold BP_INVALID_PAGE_NUM in *. lia.
  - intros ->. destruct (wf_up _ _ Hwf _ _ Hp) as [(?&?&?)|[??]]; done.
Qed.

Lemma wf_root_node : ∃ g, G !! root = Some g ∧ g_parent g = BP_INVALID_PAGE_NUM ∧
  g_lo g = MInf ∧ g_hi g = PInf.
Proof.
  destruct (wf_root _ _ Hwf) as [g Hg]. exists g. split; [done|].
  destruct (wf_up _ _ Hwf _ _ Hg) as [(?&?&?)|[??]]; done.
Qed.

(** On each level a key belongs to one page. *)
Lemma wf_range_unique p1 p2 g1 g2 b :
  G !! p1 = Some g1 → G !! p2 = Some g2 → g_lvl g1 = g_lvl g2 →
  in_range (g_lo g1) (g_hi g1) b → in_range (g_lo g2) (g_hi g2) b → p1 = p2.
Proof.
  destruct (wf_root _ _ Hwf) as [gr Hr].
  remember (g_lvl gr - g_lvl g1)%nat as d eqn:Hd.
  revert p1 p2 g1 g2 Hd. induction d as [|d IH];
    intros p1 p2 g1 g2 Hd H1 H2 Hl Hb1 Hb2.
  - assert (p1 = root) as ->.
    { destruct (decide (p1 = root)); [done|].
      pose proof (wf_lvl _ _ Hwf _ _ _ H1 Hr). lia. }
    destruct (decide (p2 = root)); [done|].
    pose proof (wf_lvl _ _ Hwf _ _ _ H2 Hr). simplify_eq. lia.
  - assert (p1 ≠ root) as Hn1 by (intros ->; simplify_eq; lia).
    assert (p2 ≠ root) as Hn2 by (intros ->; simplify_eq; lia).
    destruct (wf_parent _ _ H1 Hn1) as (q1 & k1 & Hq1 & Hk1 & Hl1 & ? & ?).
    destruct (wf_parent _ _ H2 Hn2) as (q2 & k2 & Hq2 & Hk2 & Hl2 & ? & ?).
    assert (g_parent g1 = g_parent g2) as Heq.
    { eapply IH; [|exact Hq1|exact Hq2| | |]; [lia|lia| |];
        by eapply in_range_weaken. }
    rewrite <-Heq in Hq2. assert (q2 = q1) as -> by congruence.
    apply g_kids_internal in Hk1 as (i & Hi & Hk1).
    apply g_kids_internal in Hk2 as (i' & Hi' & Hk2).
    assert (i' = i) as -> by congruence.
    pose proof (wf_node _ _ Hwf _ _ Hq1) as Hnode.
    unfold node_ok in Hnode. rewrite Hi in Hnode. destruct Hnode as [Ht _].
    eapply (tiled_unique _ _ _ _ p1 p2 g1 g2 b Ht); try done;
      by eapply elem_of_snd.
Qed.

Lemma wf_hi_unique p1 p2 g1 g2 :
  G !! p1 = Some g1 → G !! p2 = Some g2 → g_lvl g1 = g_lvl g2 →
  g_hi g1 = g_hi g2 → p1 = p2.
Proof.
  intros H1 H2 Hl Hhi.
  pose proof (wf_range _ _ Hwf _ _ H1) as Hr1.
  pose proof (wf_range _ _ Hwf _ _ H2) as Hr2.
  destruct (decide (bcmp (g_lo g1) (g_lo g2) <= 0)) as [Hle|Hgt].
  - eapply (wf_range_unique _ _ _ _ (g_lo g2)); try done; split; try done.
    + by rewrite Hhi.
    + by rewrite (cmp_refl bcmp).
  - eapply (wf_range_unique _ _ _ _ (g_lo g1)); try done; split; try done.
    + by rewrite (cmp_refl bcmp).
    + apply (cmp_flip_le bcmp). lia.
    + by rewrite <-Hhi.
Qed.

(** An entry is in the leaf whose range holds its key. *)
Lemma wf_entry_leaf p g e :
  G !! p = Some g → g_lvl g = 0%nat → in_range (g_lo g) (g_hi g) (Fin e.1) →
  entries G e → e ∈ g_entries g.
Proof.
  intros Hp Hl Hr (p' & g' & Hp' & He).
  assert (p' = p) as ->; [|by simplify_eq].
  pose proof (wf_node _ _ Hwf _ _ Hp') as Hnode.
  unfold node_ok, g_entries in *.
  destruct (g_node g') as [l|i] eqn:Hn; [|by apply not_elem_of_nil in He].
  destruct Hnode as (Hl' & _ & Hall & _). rewrite Forall_forall in Hall.
  eapply wf_range_unique; try done; [congruence|]. by apply Hall.
Qed.
End wf.
End inv.
Arguments gnode : clear implicits.

(** * Searching inside a node

    In a tree that satisfies the invariant, [lookup] of an internal node returns the
    child whose range holds the key, and [lookup] of a leaf finds a key exactly when
    the leaf holds it. *)
Section lookup.
Context {K : Type} `{!IndexKey K}.
Implicit Types (G : gmap PageNum (gnode K)) (g : gnode K) (p q c : PageNum) (k key : K).

Lemma sorted_lookup_lt {V} (a : list (K * V)) (i j : nat) x y :
  keys_sorted a → a !! i = Some x → a !! j = Some y → (i < j)%nat → key_cmp x.1 y.1 < 0.
Proof.
  intros Hs. revert i j. induction Hs as [|z a Hs IH Hall]; intros i j Hi Hj Hij.
  { by rewrite lookup_nil in Hi. }
  destruct j as [|j]; [lia|]. destruct i as [|i]; simpl in *.
  - simplify_eq. rewrite Forall_forall in Hall. apply Hall.
    by eapply list_elem_of_lookup_2.
  - apply (IH i j); [done..|lia].
Qed.

Lemma keys_sorted_lookup {V} (a : list (K * V)) :
  (∀ (i j : nat) x y, a !! i = Some x → a !! j = Some y → (i < j)%nat →
    key_cmp x.1 y.1 < 0) → keys_sorted a.
Proof.
  induction a as [|z a IH]; intros H; [by constructor|].
  constructor.
  - apply IH. intros i j x y Hi Hj Hij. apply (H (S i) (S j)); [done..|lia].
  - rewrite Forall_lookup. intros i x Hi. apply (H 0%nat (S i)); [done..|lia].
Qed.

Lemma sorted_lookup_le {V} (a : list (K * V)) (i j : nat) x y :
  keys_sorted a → a !! i = Some x → a !! j = Some y → (i <= j)%nat → key_cmp x.1 y.1 <= 0.
Proof.
  intros Hs Hi Hj Hij. destruct (decide (i = j)) as [->|].
  - simplify_eq. by rewrite (cmp_refl key_cmp).
  - pose proof (sorted_lookup_lt a i j x y Hs Hi Hj). lia.
Qed.

Lemma sorted_partitioned {V} (a : list (K * V)) key :
  keys_sorted a → partitioned (λ item k, key_cmp item.1 k) a key.
Proof.
  intros Hs. split; intros i j x y Hij Hi Hj Hc;
    pose proof (sorted_lookup_le a i j x y Hs Hi Hj Hij) as Hle.
  - by eapply (cmp_le_lt_trans key_cmp).
  - apply (cmp_flip_lt key_cmp). apply (cmp_flip_lt key_cmp) in Hc.
    by eapply (cmp_lt_le_trans key_cmp).
Qed.

(** Attributes are compared first, so an array sorted by key is partitioned by any
    attribute value too. *)
Lemma attr_le_of_key_lt x y : key_cmp x y < 0 → attr_cmp x y <= 0.
Proof.
  intros H. destruct (decide (attr_cmp x y = 0)) as [|Hne]; [lia|].
  pose proof (key_attr_sgn x y Hne). lia.
Qed.
Lemma key_lt_of_attr_lt x y : attr_cmp x y < 0 → key_cmp x y < 0.
Proof.
  intros H. assert (attr_cmp x y ≠ 0) as Hne by lia.
  pose proof (key_attr_sgn x y Hne). lia.
Qed.

Lemma sorted_partitioned_attr {V} (a : list (K * V)) key :
  keys_sorted a → partitioned (λ item k, attr_cmp item.1 k) a key.
Proof.
  intros Hs. split; intros i j x y Hij Hi Hj Hc;
    (assert (attr_cmp x.1 y.1 <= 0) as Hle;
      [destruct (decide (i = j)) as [->|];
        [simplify_eq; by rewrite (cmp_refl attr_cmp)
        |apply attr_le_of_key_lt, (sorted_lookup_lt a i j); [done..|lia]]|]).
  - by eapply (cmp_le_lt_trans attr_cmp).
  - apply (cmp_flip_lt attr_cmp). apply (cmp_flip_lt attr_cmp) in Hc.
    by eapply (cmp_lt_le_trans attr_cmp).
Qed.

(** A sorted array stays sorted when an item goes where the search puts it, and
    when an item leaves. *)
Lemma insert_keys_sorted {V} (a : list (K * V)) i key v :
  keys_sorted a → lower_bound_answer (λ item k, key_cmp item.1 k) a key i false →
  keys_sorted (list_insert_at i (key, v) a).
Proof.
  intros Hs (Hle & Hbelow & Habove). unfold list_insert_at, keys_sorted in *.
  assert (∀ x, x ∈ take i a → key_cmp x.1 key < 0) as Ht.
  { intros x [j [Hj Hji]%lookup_take_Some]%list_elem_of_lookup. by eapply (Hbelow j). }
  assert (∀ x, x ∈ drop i a → key_cmp key x.1 < 0) as Hd.
  { intros x [j Hj]%list_elem_of_lookup. rewrite lookup_drop in Hj.
    apply (cmp_flip_lt key_cmp). apply (Habove (i + j)%nat); [done|lia]. }
  rewrite <-(take_drop i a) in Hs. apply StronglySorted_app in Hs as (Hx & Hs1 & Hs2).
  apply StronglySorted_app. split_and!; [|done|].
  - intros x1 x2 H1 [->|H2]%elem_of_cons; [by apply Ht|by apply Hx].
  - constructor; [done|]. rewrite Forall_forall. intros x Hin. by apply Hd.
Qed.

(** The search cuts a sorted array in the items below the key and the others. *)
Lemma answer_cut {V} (a : list (K * V)) i found key :
  keys_sorted a → lower_bound_answer (λ item k, key_cmp item.1 k) a key i found →
  (∀ x, x ∈ take i a → key_cmp x.1 key < 0) ∧ (∀ x, x ∈ drop i a → key_cmp key x.1 <= 0).
Proof.
  intros Hs Hans. split.
  - intros x [j [Hj Hji]%lookup_take_Some]%list_elem_of_lookup.
    destruct found; [|by eapply (proj1 (proj2 Hans))].
    destruct Hans as (y & Hy & Hc). pose proof (sorted_lookup_lt _ _ _ _ _ Hs Hj Hy Hji).
    apply (cmp_lt_le_trans key_cmp _ y.1); [done|lia].
  - intros x [j Hj]%list_elem_of_lookup. rewrite lookup_drop in Hj.
    apply (cmp_flip_le key_cmp). destruct found.
    + destruct Hans as (y & Hy & Hc).
      assert (key_cmp y.1 x.1 <= 0) as Hle by (eapply (sorted_lookup_le a i); try done; lia).
      apply (cmp_flip_le key_cmp) in Hle. apply (cmp_flip_le key_cmp).
      apply (cmp_le_trans _ y.1); [|by apply (cmp_flip_le key_cmp)].
      apply (cmp_flip_le key_cmp). lia.
    + destruct Hans as (_ & _ & Hab). specialize (Hab _ _ Hj ltac:(lia)). lia.
Qed.

Lemma delete_keys_sorted {V} (a : list (K * V)) i :
  keys_sorted a → keys_sorted (delete i a).
Proof.
  intros Hs. apply keys_sorted_lookup. intros j1 j2 x y H1 H2 Hlt.
  rewrite list_lookup_delete in H1, H2.
  repeat case_decide; eapply sorted_lookup_lt; try done; lia.
Qed.

(** The insert position found by attributes is the one found by key. *)
Lemma attr_answer_key {V} (a : list (K * V)) key i :
  lower_bound_answer (λ item k, attr_cmp item.1 k) a key i false →
  lower_bound_answer (λ item k, key_cmp item.1 k) a key i false.
Proof.
  intros (Hle & Hbelow & Habove). split_and!; [done| |]; intros j x Hx Hj.
  - by eapply key_lt_of_attr_lt, Hbelow.
  - apply (cmp_flip_lt key_cmp). apply key_lt_of_attr_lt.
    apply (cmp_flip_lt attr_cmp). by eapply Habove.
Qed.

Lemma leaf_lookup_spec (l : LeafIndexNode K) key :
  keys_sorted (leaf_array l) →
  ∃ i found, LeafIndexNodeHandler.lookup key_cmp l key = Some (i, found) ∧
    lower_bound_answer (λ item k, key_cmp item.1 k) (leaf_array l) key i found.
Proof. intros. by apply lower_bound_total, sorted_partitioned. Qed.

Lemma leaf_lookup_attr_spec (l : LeafIndexNode K) key :
  keys_sorted (leaf_array l) →
  ∃ i found, LeafIndexNodeHandler.lookup attr_cmp l key = Some (i, found) ∧
    lower_bound_answer (λ item k, attr_cmp item.1 k) (leaf_array l) key i found.
Proof. intros. by apply lower_bound_total, sorted_partitioned_attr. Qed.

Section internal.
Context {root : PageNum} {G : gmap PageNum (gnode K)} (Hwf : wf root G).
Context {q : PageNum} {gq : gnode K} {n : InternalIndexNode K}
  (Hq : G !! q = Some gq) (Hn : g_node gq = InternalPage n).

Lemma internal_node_ok :
  tiled G (g_lo gq) (g_hi gq) (internal_array n).*2 ∧
  Forall (child_ok G q (g_lvl gq)) (internal_array n).
Proof.
  pose proof (wf_node _ _ Hwf _ _ Hq) as H. unfold node_ok in H. by rewrite Hn in H.
Qed.

Lemma internal_size_pos : (0 < length (internal_array n))%nat.
Proof.
  destruct internal_node_ok as [Ht _]. destruct (internal_array n); simpl in *; [|lia].
  pose proof (wf_range _ _ Hwf _ _ Hq) as Hr. rewrite Ht in Hr.
  rewrite (cmp_refl bcmp) in Hr. lia.
Qed.

(** The child at a position, its range, and the separators around it. *)
Lemma internal_child i k c :
  internal_array n !! i = Some (k, c) →
  ∃ g, G !! c = Some g ∧ S (g_lvl g) = g_lvl gq ∧ g_parent g = q ∧
    (if decide (i = 0%nat) then g_lo g = g_lo gq else g_lo g = Fin k) ∧
    match internal_array n !! S i with
    | Some (k', c') => g_hi g = Fin k'
    | None => g_hi g = g_hi gq
    end.
Proof.
  intros Hi. destruct internal_node_ok as [Ht Hall]. rewrite Forall_lookup in Hall.
  assert (∀ j kj cj, internal_array n !! S j = Some (kj, cj) →
    ∃ gj, G !! cj = Some gj ∧ g_lo gj = Fin kj) as Hsep.
  { intros j kj cj Hj. destruct (Hall _ _ Hj) as (gj & Hgj & _ & _ & Hlo).
    exists gj. split; [done|]. destruct Hlo as [Hlo|]; [|done]. exfalso.
    destruct (lookup_lt_is_Some_2 (internal_array n) j) as [[k0 c0] Hj0].
    { apply lookup_lt_Some in Hj. lia. }
    destruct (tiled_lookup _ _ _ _ j c0 Ht) as (g0 & Hg0 & _ & Hnext).
    { by rewrite list_lookup_fmap, Hj0. }
    rewrite list_lookup_fmap, Hj in Hnext. destruct Hnext as (g' & ? & Heq).
    simpl in *. simplify_eq. rewrite Hlo in Heq.
    pose proof (wf_range _ _ Hwf _ _ Hg0) as Hr. rewrite <-Heq in Hr.
    pose proof (bcmp_MInf_l (g_lo g0)) as Hm. apply (cmp_flip_le bcmp) in Hm. lia. }
  destruct (Hall _ _ Hi) as (g & Hg & Hl & Hp & _). simpl in *.
  destruct (tiled_lookup _ _ _ _ i c Ht) as (g' & Hg' & H0 & Hnext).
  { by rewrite list_lookup_fmap, Hi. }
  assert (g' = g) as -> by congruence. exists g. split_and!; try done.
  - case_decide as Hi0; [by apply H0|]. destruct i as [|i]; [done|].
    destruct (Hsep _ _ _ Hi) as (? & ? & ?). by simplify_eq.
  - rewrite list_lookup_fmap in Hnext.
    destruct (internal_array n !! S i) as [[k' c']|] eqn:Hi'; [|done].
    simpl in Hnext. destruct Hnext as (g2 & Hg2 & <-).
    destruct (Hsep _ _ _ Hi') as (? & ? & ?). by simplify_eq.
Qed.

Lemma internal_seps_sorted : keys_sorted (drop 1 (internal_array n)).
Proof.
  apply keys_sorted_lookup.
  intros i j [k1 c1] [k2 c2] Hi Hj Hij. rewrite !lookup_drop in *. simpl in *.
  destruct (internal_child _ _ _ Hi) as (g1 & Hg1 & _ & _ & Hlo1 & _).
  destruct (internal_child _ _ _ Hj) as (g2 & Hg2 & _ & _ & Hlo2 & _).
  rewrite decide_False in Hlo1 by lia. rewrite decide_False in Hlo2 by lia.
  destruct internal_node_ok as [Ht _].
  assert (bcmp (g_hi g1) (g_lo g2) <= 0) as Hle.
  { eapply (tiled_order _ _ _ _ (S i) (S j)); [exact Ht| | | |done..];
      [by rewrite list_lookup_fmap, Hi|by rewrite list_lookup_fmap, Hj|lia]. }
  pose proof (wf_range _ _ Hwf _ _ Hg1) as Hr1.
  pose proof (cmp_lt_le_trans bcmp _ _ _ Hr1 Hle) as Hlt.
  by rewrite Hlo1, Hlo2 in Hlt.
Qed.

(** The child [lookup] selects is the one responsible for the key; the insert
    position is right after it. *)
Lemma internal_lookup_spec key :
  in_range (g_lo gq) (g_hi gq) (Fin key) →
  ∃ i k c g found,
    InternalIndexNodeHandler.lookup key_cmp n key =
      Some (i, found, if found : bool then i else S i) ∧
    internal_array n !! i = Some (k, c) ∧ G !! c = Some g ∧
    in_range (g_lo g) (g_hi g) (Fin key) ∧
    (found = true → bcmp (g_lo g) (Fin key) = 0).
Proof.
  intros [Hlo Hhi]. pose proof internal_size_pos as Hpos.
  unfold InternalIndexNodeHandler.lookup, InternalIndexNodeHandler.size.
  rewrite decide_False by lia.
  destruct (lower_bound_total (λ item k, key_cmp item.1 k)
    (drop 1 (internal_array n)) key) as (i0 & found & -> & Hans).
  { apply sorted_partitioned, internal_seps_sorted. }
  simpl. unfold InternalIndexNodeHandler.key_at.
  replace (i0 + 1 - 1)%nat with i0 by lia. replace (i0 + 1)%nat with (S i0) by lia.
  destruct found; simpl in Hans.
  - destruct Hans as ([k c] & Hx & Hc). rewrite lookup_drop in Hx. simpl in *.
    pose proof (lookup_lt_Some _ _ _ Hx).
    destruct (internal_child _ _ _ Hx) as (g & Hg & _ & _ & Hglo & _).
    rewrite decide_False in Hglo by lia.
    pose proof (proj1 (cmp_flip_eq key_cmp _ _) Hc) as Hc'.
    exists (S i0), k, c, g, true. rewrite decide_False by lia. rewrite Hx. simpl.
    rewrite decide_False by lia. rewrite Hglo.
    split_and!; [done..| |done]. split; [simpl; lia|].
    pose proof (wf_range _ _ Hwf _ _ Hg) as Hr. rewrite Hglo in Hr.
    apply (cmp_le_lt_trans bcmp _ (Fin k)); [simpl; lia|done].
  - destruct Hans as (Hle & Hbelow & Habove).
    rewrite length_drop in Hle.
    destruct (lookup_lt_is_Some_2 (internal_array n) i0) as [[k c] Hx]; [lia|].
    destruct (internal_child _ _ _ Hx) as (g & Hg & _ & _ & Hglo & Hghi).
    assert (bcmp (g_lo g) (Fin key) < 0 ∨ g_lo g = g_lo gq) as Hglo'.
    { case_decide as Hi0; [by right|left]. rewrite Hglo. simpl.
      apply (Hbelow (i0 - 1)%nat (k, c)); [|lia].
      rewrite lookup_drop. replace (1 + (i0 - 1))%nat with i0 by lia. done. }
    exists i0, k, c, g, false. split_and!; [|done..| |done]; [|split].
    + destruct (internal_array n !! S i0) as [[k' c']|] eqn:Hx'; simpl.
      * pose proof (lookup_lt_Some _ _ _ Hx'). rewrite decide_False by lia.
        assert (0 < key_cmp k' key) as Hk.
        { apply (Habove i0 (k', c')); [|lia]. by rewrite lookup_drop. }
        apply (cmp_flip_lt key_cmp) in Hk. by rewrite decide_True by lia.
      * apply lookup_ge_None in Hx'. by rewrite decide_True by lia.
    + destruct Hglo' as [?| ->]; [lia|done].
    + destruct (internal_array n !! S i0) as [[k' c']|] eqn:Hx'; rewrite Hghi; [|done].
      simpl. apply (cmp_flip_lt key_cmp).
      apply (Habove i0 (k', c')); [|lia]. by rewrite lookup_drop.
Qed.

(** The separators around the child at a position and a key of its range. *)
Lemma internal_key_position i k c g key :
  internal_array n !! i = Some (k, c) → G !! c = Some g →
  bcmp (g_lo g) (Fin key) < 0 → bcmp (Fin key) (g_hi g) < 0 →
  (∀ j x, internal_array n !! j = Some x → (0 < j <= i)%nat → key_cmp x.1 key < 0) ∧
  (∀ j x, internal_array n !! j = Some x → (i < j)%nat → key_cmp key x.1 < 0).
Proof.
  intros Hi Hg Hlo Hhi.
  destruct (internal_child _ _ _ Hi) as (g' & Hg' & _ & _ & Hlo' & Hhi').
  assert (g' = g) as -> by congruence.
  assert (∀ j, (0 < j)%nat → drop 1 (internal_array n) !! (j - 1)%nat =
    internal_array n !! j) as Hdrop.
  { intros j ?. rewrite lookup_drop. f_equal. lia. }
  split; intros j x Hj Hij.
  - rewrite decide_False in Hlo' by lia. rewrite Hlo' in Hlo. simpl in Hlo.
    apply (cmp_le_lt_trans key_cmp _ k); [|done].
    apply (sorted_lookup_le (drop 1 (internal_array n)) (j - 1) (i - 1) x (k, c));
      [apply internal_seps_sorted|by rewrite Hdrop by lia..|lia].
  - destruct (internal_array n !! S i) as [[k' c']|] eqn:Hsi.
    + rewrite Hhi' in Hhi. simpl in Hhi.
      apply (cmp_lt_le_trans key_cmp _ k'); [done|].
      apply (sorted_lookup_le (drop 1 (internal_array n)) i (j - 1) (k', c') x);
        [apply internal_seps_sorted|by rewrite lookup_drop|by rewrite Hdrop by lia|lia].
    + apply lookup_ge_None in Hsi. apply lookup_lt_Some in Hj. lia.
Qed.
End internal.

(** The lookup in an array that need not belong to a tree yet: a key strictly
    between two separators. *)
Lemma internal_lookup_raw (n : InternalIndexNode K) i key :
  keys_sorted (drop 1 (internal_array n)) → (i < length (internal_array n))%nat →
  (∀ j x, internal_array n !! j = Some x → (0 < j <= i)%nat → key_cmp x.1 key < 0) →
  (∀ j x, internal_array n !! j = Some x → (i < j)%nat → key_cmp key x.1 < 0) →
  InternalIndexNodeHandler.lookup key_cmp n key = Some (i, false, S i).
Proof.
  intros Hs Hlen Hbelow Habove.
  unfold InternalIndexNodeHandler.lookup, InternalIndexNodeHandler.size.
  rewrite decide_False by lia.
  destruct (lower_bound_total (λ item k, key_cmp item.1 k)
    (drop 1 (internal_array n)) key) as (i0 & found & -> & Hans).
  { by apply sorted_partitioned. }
  assert (found = false ∧ i0 = i) as [-> ->].
  { destruct found; simpl in Hans.
    - destruct Hans as (x & Hx & Hc). rewrite lookup_drop in Hx. simpl in Hx.
      destruct (decide (S i0 <= i)%nat).
      + pose proof (Hbelow _ _ Hx ltac:(lia)). lia.
      + pose proof (Habove _ _ Hx ltac:(lia)) as Hlt.
        apply (cmp_flip_lt key_cmp) in Hlt. lia.
    - split; [done|]. destruct Hans as (Hle & Hlo & Hhi). rewrite length_drop in Hle.
      destruct (Nat.lt_trichotomy i0 i) as [Hlt|[|Hgt]]; [|done|]; exfalso.
      + destruct (lookup_lt_is_Some_2 (internal_array n) (S i0)) as [x Hx]; [lia|].
        pose proof (Hbelow _ _ Hx ltac:(lia)).
        assert (0 < key_cmp x.1 key); [|lia].
        apply (Hhi i0); [by rewrite lookup_drop|lia].
      + destruct (lookup_lt_is_Some_2 (internal_array n) (S i)) as [x Hx]; [lia|].
        pose proof (Habove _ _ Hx ltac:(lia)) as Hc. apply (cmp_flip_lt key_cmp) in Hc.
        assert (key_cmp x.1 key < 0); [|lia].
        apply (Hlo i); [by rewrite lookup_drop|lia]. }
  simpl. replace (i + 1)%nat with (S i) by lia. replace (S i - 1)%nat with i by lia.
  unfold InternalIndexNodeHandler.key_at.
  destruct (internal_array n !! S i) as [x|] eqn:Hx; simpl.
  - pose proof (lookup_lt_Some _ _ _ Hx). rewrite decide_False by lia.
    by rewrite decide_True by (eapply Habove; [done|lia]).
  - apply lookup_ge_None in Hx. by rewrite decide_True by lia.
Qed.
End lookup.
