(* ===== verification/BplusShape.v ===== *)
(** * Tree surgery

    The edits every tree operation is made of, on annotated page maps: change a leaf
    array, split a node in two, merge two siblings, add a root above the root, drop
    a root with one child.  Each edit is shown to preserve [wf]; an operation of the
    tree that moves items between siblings is a merge followed by a split.  What
    happens away from the edited pages is settled once, in [wf_split_generic] and
    [wf_merge_generic], for leaves and internal nodes alike. *)
From S2P Require Import Prelude LowerBound RidKey LatchMemo BplusNode BplusTree BplusInv.
From Stdlib Require Import ZArith Lia.
From stdpp Require Import base option gmap sorting list.
Local Open Scope Z_scope.

Section shape.
Context {K : Type} `{!IndexKey K}.
Implicit Types (G : gmap PageNum (gnode K)) (g : gnode K) (p q a b c x : PageNum) (k : K).

Lemma g_parent_set p g : g_parent (g_set_parent p g) = p.
Proof. destruct g as [? ? ? [[]|[]]]; done. Qed.
Lemma g_kids_set p g : g_kids (g_set_parent p g) = g_kids g.
Proof. destruct g as [? ? ? [[]|[]]]; done. Qed.
Lemma g_entries_set p g : g_entries (g_set_parent p g) = g_entries g.
Proof. destruct g as [? ? ? [[]|[]]]; done. Qed.

(** What a node refers to: its children, and the next leaf. *)
Definition g_next g : PageNum :=
  match g_node g with LeafPage l => next_brother l | InternalPage _ => BP_INVALID_PAGE_NUM end.

Lemma node_ok_set_parent G p p' g : node_ok G p g → node_ok G p (g_set_parent p' g).
Proof. destruct g as [? ? ? [[]|[]]]; done. Qed.

Lemma node_ok_transfer G G' p g :
  node_ok G p g →
  (∀ gn, G !! g_next g = Some gn → g_lvl g = 0%nat → g_lo gn = g_hi g → g_lvl gn = 0%nat →
    ∃ gn', G' !! g_next g = Some gn' ∧ g_lvl gn' = g_lvl gn ∧ g_lo gn' = g_lo gn) →
  (∀ k c gc, (k, c) ∈ g_kids g → G !! c = Some gc → g_parent gc = p →
    ∃ gc', G' !! c = Some gc' ∧ g_lvl gc' = g_lvl gc ∧ g_parent gc' = g_parent gc ∧
           g_lo gc' = g_lo gc ∧ g_hi gc' = g_hi gc) →
  node_ok G' p g.
Proof.
  unfold node_ok, g_next, g_kids. destruct (g_node g) as [l|i].
  - intros (Hl & Hs & Hr & Hn) Hnext _. split_and!; try done.
    destruct Hn as [?|(gn & Hgn & Hln & Hlo)]; [by left|right].
    destruct (Hnext gn) as (gn' & ? & ? & ?); try done.
    exists gn'. split_and!; congruence.
  - intros [Ht Hall] _ Hkids. rewrite Forall_forall in Hall. split.
    + eapply tiled_ext; [|exact Ht]. intros c gc [k Hk]%elem_of_snd_inv Hgc.
      destruct (Hall _ Hk) as (gc' & Hgc' & _ & Hp & _); simpl in *.
      assert (gc' = gc) as -> by congruence.
      destruct (Hkids k c gc) as (gc'' & ? & ? & ? & ? & ?); try done. eauto.
    + rewrite Forall_forall. intros [k c] Hk.
      destruct (Hall _ Hk) as (gc & Hgc & Hl & Hp & Hlo); simpl in *.
      destruct (Hkids k c gc) as (gc' & ? & ? & ? & Hlo' & ?); try done.
      exists gc'. rewrite Hlo'. split_and!; [done|congruence..|done].
Qed.

(** ** Changing the array of a leaf *)
Lemma wf_update_leaf root G p g l (a : list (K * RID.t)) :
  wf root G → G !! p = Some g → g_node g = LeafPage l →
  keys_sorted a → Forall (λ e, in_range (g_lo g) (g_hi g) (Fin e.1)) a →
  wf root (<[p := GN (g_lo g) (g_hi g) (g_lvl g)
                     (LeafPage (LeafIndexNodeHandler.set_array l a))]> G).
Proof.
  intros Hwf Hp Hl Hs Hr.
  set (g' := GN _ _ _ _). set (G' := <[p := g']> G).
  assert (g_parent g' = g_parent g) as Hpar by (unfold g_parent; by rewrite Hl).
  assert (g_kids g' = g_kids g) as Hkids by (unfold g_kids; by rewrite Hl).
  assert (∀ x gx, G !! x = Some gx → ∃ gx', G' !! x = Some gx' ∧ g_lvl gx' = g_lvl gx ∧
    g_parent gx' = g_parent gx ∧ g_kids gx' = g_kids gx ∧
    g_lo gx' = g_lo gx ∧ g_hi gx' = g_hi gx) as Hsame.
  { intros x gx Hx. unfold G'. destruct (decide (x = p)) as [->|Hne].
    - exists g'. rewrite lookup_insert_eq. by simplify_eq.
    - exists gx. by rewrite lookup_insert_ne. }
  assert (∀ x gx, G' !! x = Some gx → ∃ gx', G !! x = Some gx' ∧ g_lvl gx' = g_lvl gx ∧
    g_parent gx' = g_parent gx ∧ g_lo gx' = g_lo gx ∧ g_hi gx' = g_hi gx) as Hback.
  { intros x gx Hx. unfold G' in Hx. destruct (decide (x = p)) as [->|Hne].
    - rewrite lookup_insert_eq in Hx. exists g. by simplify_eq.
    - rewrite lookup_insert_ne in Hx by done. by exists gx. }
  split.
  - destruct (wf_root _ _ Hwf) as [gr Hr']. destruct (Hsame _ _ Hr') as (? & ? & _). eauto.
  - intros x gx (gx' & Hx & _ & _ & <- & <-)%Hback. by apply (wf_range _ _ Hwf x).
  - intros x gx (gx' & Hx & _)%Hback. by apply (wf_num _ _ Hwf x gx').
  - intros x gx r (gx' & Hx & <- & _)%Hback (r' & Hr' & <- & _)%Hback.
    by apply (wf_lvl _ _ Hwf x).
  - intros x gx (gx' & Hx & _ & Hp' & Hlo & Hhi)%Hback.
    destruct (wf_up _ _ Hwf _ _ Hx) as [(? & ? & ? & ?)|(? & gq & k & Hq & Hk)].
    + left. split_and!; congruence.
    + right. split; [done|]. destruct (Hsame _ _ Hq) as (gq' & Hq' & _ & _ & Hkq & _).
      exists gq', k. rewrite <-Hp', Hkq. done.
  - intros x gx Hx. destruct (decide (x = p)) as [->|Hne].
    + unfold G' in Hx. rewrite lookup_insert_eq in Hx. injection Hx as <-.
      pose proof (wf_node _ _ Hwf _ _ Hp) as Hnode. unfold node_ok in Hnode |- *.
      rewrite Hl in Hnode. simpl. destruct Hnode as (? & _ & _ & Hn). split_and!; try done.
      destruct Hn as [?|(gn & Hgn & ? & ?)]; [by left|right].
      destruct (Hsame _ _ Hgn) as (gn' & ? & ? & _ & _ & ? & _).
      exists gn'. split_and!; [done|congruence..].
    + unfold G' in Hx. rewrite lookup_insert_ne in Hx by done.
      eapply node_ok_transfer; [by eapply (wf_node _ _ Hwf)|..].
      * intros gn Hgn _ _ _. destruct (Hsame _ _ Hgn) as (gn' & ? & ? & _ & _ & ? & _). eauto.
      * intros k c gc _ Hgc _. destruct (Hsame _ _ Hgc) as (gc' & ? & ? & ? & _ & ? & ?).
        exists gc'. done.
Qed.

(** ** Splitting a node *)
Section split.
Context {root : PageNum} {G G' : gmap PageNum (gnode K)} {a b q : PageNum}
  {ga ga' gb' gq gq' : gnode K} {nq nq' : InternalIndexNode K}
  {l1 l2 : list (K * PageNum)} {ka k : K}
  (Hwf : wf root G)
  (Ha : G !! a = Some ga) (Hq : G !! q = Some gq) (Hb : G !! b = None) (Hb0 : 0 <= b)
  (Hnq : g_node gq = InternalPage nq)
  (Hkq : internal_array nq = l1 ++ (ka, a) :: l2)
  (Ha' : G' !! a = Some ga') (Hb' : G' !! b = Some gb') (Hq' : G' !! q = Some gq')
  (Hga : g_lo ga' = g_lo ga ∧ g_hi ga' = Fin k ∧ g_lvl ga' = g_lvl ga ∧ g_parent ga' = q)
  (Hgb : g_lo gb' = Fin k ∧ g_hi gb' = g_hi ga ∧ g_lvl gb' = g_lvl ga ∧ g_parent gb' = q)
  (Hgq : g_lo gq' = g_lo gq ∧ g_hi gq' = g_hi gq ∧ g_lvl gq' = g_lvl gq ∧
         g_parent gq' = g_parent gq)
  (Hnq' : g_node gq' = InternalPage nq')
  (Hkq' : internal_array nq' = l1 ++ (ka, a) :: (k, b) :: l2)
  (Hlo : bcmp (g_lo ga) (Fin k) < 0) (Hhi : bcmp (Fin k) (g_hi ga) < 0)
  (Hoka : node_ok G' a ga') (Hokb : node_ok G' b gb')
  (Hother : ∀ x, x ≠ a → x ≠ b → x ≠ q →
    match G !! x with
    | None => G' !! x = None
    | Some g =>
        (G' !! x = Some g ∧ (g_parent g = a → ∃ kx, (kx, x) ∈ g_kids ga')) ∨
        (G' !! x = Some (g_set_parent b g) ∧ g_parent g = a ∧
         ∃ kx, (kx, x) ∈ g_kids gb')
    end).

Lemma split_parent_a : S (g_lvl ga) = g_lvl gq ∧ g_parent ga = q ∧
  (g_lo ga = MInf ∨ g_lo ga = Fin ka) ∧ a ≠ root.
Proof.
  assert ((ka, a) ∈ g_kids gq) as Hin.
  { unfold g_kids. rewrite Hnq, Hkq. apply elem_of_app; right; left. }
  destruct (wf_child Hwf _ _ _ _ Hq Hin) as (g & Hg & ? & ? & ? & _).
  assert (g = ga) as -> by congruence. split_and!; try done.
  exact (wf_child_not_root Hwf _ _ _ _ Hq Hin).
Qed.

Lemma split_fwd x g :
  G !! x = Some g →
  ∃ g', G' !! x = Some g' ∧ g_lvl g' = g_lvl g ∧ g_lo g' = g_lo g ∧
    (x ≠ a → g_hi g' = g_hi g ∧ (g_parent g ≠ a → g_parent g' = g_parent g) ∧
       ∀ kx, kx ∈ g_kids g → kx ∈ g_kids g').
Proof.
  intros Hx. destruct (decide (x = a)) as [->|Hna].
  { exists ga'. assert (g = ga) as -> by congruence. naive_solver. }
  destruct (decide (x = q)) as [->|Hnq0].
  { exists gq'. assert (g = gq) as -> by congruence.
    destruct Hgq as (? & ? & ? & ?). split_and!; try done. intros _. split_and!; try done.
    intros kx. unfold g_kids. rewrite Hnq, Hnq', Hkq, Hkq'.
    rewrite !elem_of_app, !elem_of_cons. tauto. }
  assert (x ≠ b) as Hnb by congruence.
  pose proof (Hother x Hna Hnb Hnq0) as Ho. rewrite Hx in Ho.
  destruct Ho as [[Hx' _]|(Hx' & Hp & _)]; rewrite Hx'; eexists; split_and!; try done.
  intros _. split_and!; try done. intros kx. by rewrite g_kids_set.
Qed.

Lemma split_bwd x g' :
  G' !! x = Some g' → x ≠ b →
  ∃ g, G !! x = Some g ∧ g_lvl g' = g_lvl g ∧ g_lo g' = g_lo g ∧
    (x ≠ a → g_hi g' = g_hi g) ∧
    (x ≠ a → x ≠ q →
       (g' = g ∧ (g_parent g = a → ∃ kx, (kx, x) ∈ g_kids ga')) ∨
       (g' = g_set_parent b g ∧ g_parent g = a ∧ ∃ kx, (kx, x) ∈ g_kids gb')).
Proof.
  intros Hx Hnb. destruct (decide (x = a)) as [->|Hna].
  { exists ga. assert (g' = ga') as -> by congruence. naive_solver. }
  destruct (decide (x = q)) as [->|Hnq0].
  { exists gq. assert (g' = gq') as -> by congruence. naive_solver. }
  pose proof (Hother x Hna Hnb Hnq0) as Ho. destruct (G !! x) as [g|] eqn:HG; [|congruence].
  exists g. destruct Ho as [[Hx' Hp]|(Hx' & Hp & Hk)]; rewrite Hx' in Hx;
    injection Hx as <-; split_and!; try done; intros; [left|right]; done.
Qed.

Lemma split_entries e :
  g_entries ga = g_entries ga' ++ g_entries gb' → entries G e ↔ entries G' e.
Proof.
  intros Hent. split.
  - intros (x & g & Hx & He). destruct (decide (x = a)) as [->|Hna].
    { assert (g = ga) as -> by congruence. rewrite Hent in He.
      apply elem_of_app in He as [He|He]; [by exists a, ga'|by exists b, gb']. }
    assert (x ≠ b) as Hnb by congruence.
    assert (x ≠ q) as Hnq0.
    { intros ->. assert (g = gq) as -> by congruence. unfold g_entries in He.
      rewrite Hnq in He. by apply not_elem_of_nil in He. }
    pose proof (Hother x Hna Hnb Hnq0) as Ho. rewrite Hx in Ho.
    destruct Ho as [[Hx' _]|(Hx' & _)]; exists x; eexists; (split; [done|]);
      by rewrite ?g_entries_set.
  - intros (x & g' & Hx & He). destruct (decide (x = b)) as [->|Hnb].
    { assert (g' = gb') as -> by congruence. exists a, ga. rewrite Hent.
      split; [done|]. apply elem_of_app. by right. }
    destruct (decide (x = a)) as [->|Hna].
    { assert (g' = ga') as -> by congruence. exists a, ga. rewrite Hent.
      split; [done|]. apply elem_of_app. by left. }
    assert (x ≠ q) as Hnq0.
    { intros ->. assert (g' = gq') as -> by congruence. unfold g_entries in He.
      rewrite Hnq' in He. by apply not_elem_of_nil in He. }
    destruct (split_bwd _ _ Hx Hnb) as (g & Hg & _ & _ & _ & Hcase).
    exists x, g. split; [done|].
    destruct (Hcase Hna Hnq0) as [[-> _]|(-> & _)]; [done|by rewrite g_entries_set in He].
Qed.

Lemma split_q_ok : node_ok G' q gq'.
Proof.
  destruct split_parent_a as (Hl & Hpa & Hloa & _).
  destruct Hga as (? & ? & ? & ?), Hgb as (? & ? & ? & ?), Hgq as (? & ? & ? & ?).
  pose proof (wf_node _ _ Hwf _ _ Hq) as Hnode. unfold node_ok in Hnode |- *.
  rewrite Hnq in Hnode. rewrite Hnq'. rewrite Hkq in Hnode. rewrite Hkq'.
  destruct Hnode as [Ht Hall]. rewrite fmap_app, fmap_cons in *. simpl in *.
  pose proof (tiled_NoDup _ _ _ _ Ht) as Hnd.
  apply NoDup_app in Hnd as (_ & Hna1 & [Hna2 _]%NoDup_cons).
  assert (∀ c g lo hi, c ≠ a → G !! c = Some g → child_ok G q (g_lvl gq) (lo, c) →
    ∃ g', G' !! c = Some g' ∧ g_lvl g' = g_lvl g ∧ g_lo g' = g_lo g ∧ g_hi g' = g_hi g ∧
      g_parent g' = g_parent g ∧ hi = hi :> bound K) as Hc.
  { intros c g lo hi Hca Hg (g0 & Hg0 & Hlg & Hpg & _). simpl in *.
    assert (g0 = g) as -> by congruence.
    destruct (split_fwd c g Hg) as (g' & ? & ? & ? & Hrest).
    destruct (Hrest Hca) as (? & Hpar & _). exists g'. split_and!; try done.
    apply Hpar. intros Hpa'. assert (q = a) by congruence. subst q.
    assert (gq = ga) by congruence. subst. lia. }
  rewrite Forall_app, Forall_cons in Hall. destruct Hall as (Hall1 & _ & Hall2).
  assert (∀ l, Forall (child_ok G q (g_lvl gq)) l → a ∉ l.*2 →
    Forall (child_ok G' q (g_lvl gq)) l ∧
    ∀ lo hi, tiled G lo hi l.*2 → tiled G' lo hi l.*2) as Hl12.
  { intros l Hl' Hna. rewrite !Forall_forall in *. split.
    - intros [kc c] Hin. pose proof (Hl' _ Hin) as (g & Hg & Hlg & Hpg & Hkg). simpl in *.
      assert (c ≠ a) as Hca by (intros ->; apply Hna; by eapply elem_of_snd).
      destruct (Hc c g kc MInf Hca Hg (Hl' _ Hin)) as (g' & ? & ? & Hlo' & ? & ? & _).
      exists g'. rewrite Hlo'. split_and!; [done|congruence..|done].
    - intros lo hi. apply tiled_ext. intros c g Hin Hg.
      apply elem_of_snd_inv in Hin as [kc Hin].
      assert (c ≠ a) as Hca by (intros ->; apply Hna; by eapply elem_of_snd).
      destruct (Hc c g kc MInf Hca Hg (Hl' _ Hin)) as (g' & ? & ? & ? & ? & ? & _). eauto. }
  destruct (Hl12 l1 Hall1) as [Hall1' Ht1]; [intros Hin; apply (Hna1 a Hin); left|].
  destruct (Hl12 l2 Hall2 Hna2) as [Hall2' Ht2].
  apply tiled_app in Ht as (mid & Htl1 & g & Hg & Hmid & Hlt & Htl2).
  assert (g = ga) as -> by congruence.
  replace (g_lo gq') with (g_lo gq) by congruence.
  replace (g_hi gq') with (g_hi gq) by congruence.
  replace (g_lvl gq') with (g_lvl gq) by congruence.
  split.
  - apply tiled_app. exists mid. split; [by apply Ht1|].
    exists ga'. split_and!; [done|congruence| |].
    { subst mid. by replace (g_hi ga') with (@Fin K k) by congruence. }
    exists gb'. replace (g_hi ga') with (@Fin K k) by congruence.
    replace (g_hi gb') with (g_hi ga) by congruence. split_and!; [done..|by apply Ht2].
  - rewrite Forall_app, !Forall_cons. split_and!; try done.
    + exists ga'. simpl. replace (g_lo ga') with (g_lo ga) by congruence.
      split_and!; [done|congruence..|done].
    + exists gb'. simpl. split_and!; [done|congruence..|by right].
Qed.

Lemma wf_split_generic : wf root G'.
Proof.
  destruct split_parent_a as (Hl & Hpa & Hloa & Har).
  destruct Hga as (? & ? & ? & ?), Hgb as (? & ? & ? & ?), Hgq as (? & ? & ? & ?).
  pose proof (wf_range _ _ Hwf).
  assert (b ≠ root) as Hbr.
  { intros ->. destruct (wf_root _ _ Hwf) as [? ?]. congruence. }
  split.
  - destruct (wf_root _ _ Hwf) as [gr Hr]. destruct (split_fwd _ _ Hr) as (? & ? & _). eauto.
  - intros x g' Hx. destruct (decide (x = b)) as [->|Hnb].
    { assert (g' = gb') as -> by congruence. by replace (g_lo gb') with (@Fin K k);
        replace (g_hi gb') with (g_hi ga). }
    destruct (decide (x = a)) as [->|Hna].
    { assert (g' = ga') as -> by congruence. by replace (g_lo ga') with (g_lo ga);
        replace (g_hi ga') with (@Fin K k). }
    destruct (split_bwd _ _ Hx Hnb) as (g & Hg & _ & -> & Hh & _).
    rewrite Hh by done. eauto.
  - intros x g' Hx. destruct (decide (x = b)) as [->|Hnb]; [done|].
    destruct (split_bwd _ _ Hx Hnb) as (g & Hg & _). by eapply (wf_num _ _ Hwf).
  - intros x g' r Hx Hr Hne.
    destruct (split_bwd _ _ Hr (not_eq_sym Hbr)) as (r0 & Hr0 & -> & _).
    destruct (decide (x = b)) as [->|Hnb].
    + assert (g' = gb') as -> by congruence. replace (g_lvl gb') with (g_lvl ga).
      by apply (wf_lvl _ _ Hwf a).
    + destruct (split_bwd _ _ Hx Hnb) as (g & Hg & -> & _). by apply (wf_lvl _ _ Hwf x).
  - intros x g' Hx. destruct (decide (x = b)) as [->|Hnb].
    { assert (g' = gb') as -> by congruence. right. split; [done|]. exists gq', k.
      replace (g_parent gb') with q. split; [done|]. unfold g_kids.
      rewrite Hnq', Hkq'. apply elem_of_app; right; right; left. }
    destruct (decide (x = a)) as [->|Hna].
    { assert (g' = ga') as -> by congruence. right. split; [done|]. exists gq', ka.
      replace (g_parent ga') with q. split; [done|]. unfold g_kids.
      rewrite Hnq', Hkq'. apply elem_of_app; right; left. }
    destruct (split_bwd _ _ Hx Hnb) as (g & Hg & Hlv & Hlo' & Hhi' & Hcase).
    specialize (Hhi' Hna). destruct (wf_up _ _ Hwf _ _ Hg) as [(-> & Hp & ? & ?)|(Hnr & _)].
    + left. split_and!; [done| |congruence..].
      destruct (decide (root = q)) as [->|Hnq0]; [congruence|].
      destruct (Hcase Hna Hnq0) as [[-> _]|(_ & Hpar & _)]; [done|].
      pose proof (wf_num _ _ Hwf _ _ Ha). unfold BP_INVALID_PAGE_NUM in *. lia.
    + right. split; [done|].
      destruct (wf_parent Hwf _ _ Hg Hnr) as (gy & ky & Hy & Hky & Hly & _).
      assert (x = q ∨ x ≠ q) as [->|Hnq0] by (destruct (decide (x = q)); auto).
      * assert (g = gq) as -> by congruence. assert (g' = gq') as -> by congruence.
        assert (g_parent gq ≠ a) as Hpna by (intros Heq; rewrite Heq in Hy;
          assert (gy = ga) by congruence; subst; lia).
        destruct (split_fwd _ _ Hy) as (gy' & Hy' & _ & _ & Hrest).
        destruct (Hrest Hpna) as (_ & _ & Hk). exists gy', ky.
        replace (g_parent gq') with (g_parent gq). auto.
      * destruct (Hcase Hna Hnq0) as [[-> Hka]|(-> & Hpar & kx & Hkx)].
        -- destruct (decide (g_parent g = a)) as [Heq|Hpna].
           ++ destruct (Hka Heq) as [kx Hkx]. exists ga', kx. by rewrite Heq.
           ++ destruct (split_fwd _ _ Hy) as (gy' & Hy' & _ & _ & Hrest).
              destruct (Hrest Hpna) as (_ & _ & Hk). exists gy', ky. auto.
        -- exists gb', kx. by rewrite g_parent_set.
  - intros x g' Hx. destruct (decide (x = b)) as [->|Hnb]; [congruence|].
    destruct (decide (x = a)) as [->|Hna]; [congruence|].
    destruct (decide (x = q)) as [->|Hnq0].
    { assert (g' = gq') as -> by congruence. apply split_q_ok. }
    destruct (split_bwd _ _ Hx Hnb) as (g & Hg & _ & _ & _ & Hcase).
    assert (node_ok G' x g) as Hok.
    { eapply node_ok_transfer; [by eapply (wf_node _ _ Hwf)|..].
      - intros gn Hgn _ _ _. destruct (split_fwd _ _ Hgn) as (gn' & ? & ? & ? & _). eauto.
      - intros kc c gc Hc Hgc Hpc. assert (c ≠ a) as Hca.
        { intros ->. assert (gc = ga) by congruence. congruence. }
        destruct (split_fwd _ _ Hgc) as (gc' & ? & ? & ? & Hrest).
        destruct (Hrest Hca) as (? & Hpar & _). exists gc'. split_and!; try done.
        apply Hpar. congruence. }
    destruct (Hcase Hna Hnq0) as [[-> _]|(-> & _)]; [done|by apply node_ok_set_parent].
Qed.
End split.

(** ** Merging two siblings *)
Section merge.
Context {root : PageNum} {G : gmap PageNum (gnode K)} {a b q : PageNum}
  {ga gb gq : gnode K} {nq : InternalIndexNode K}
  {l1 l2 : list (K * PageNum)} {ka kb : K}
  (Hwf : wf root G)
  (Ha : G !! a = Some ga) (Hb : G !! b = Some gb) (Hq : G !! q = Some gq)
  (Hnq : g_node gq = InternalPage nq)
  (Hkq : internal_array nq = l1 ++ (ka, a) :: (kb, b) :: l2).

(** The two siblings: same level, same parent, adjacent ranges. *)
Lemma merge_siblings :
  S (g_lvl ga) = g_lvl gq ∧ S (g_lvl gb) = g_lvl gq ∧ g_parent ga = q ∧
  g_parent gb = q ∧ (g_lo ga = MInf ∨ g_lo ga = Fin ka) ∧ g_hi ga = g_lo gb ∧
  a ≠ root ∧ b ≠ root ∧ a ≠ b.
Proof.
  assert ((ka, a) ∈ g_kids gq) as Hina.
  { unfold g_kids. rewrite Hnq, Hkq. apply elem_of_app; right; left. }
  assert ((kb, b) ∈ g_kids gq) as Hinb.
  { unfold g_kids. rewrite Hnq, Hkq. apply elem_of_app; right; right; left. }
  destruct (wf_child Hwf _ _ _ _ Hq Hina) as (g & Hg & ? & ? & ? & _).
  destruct (wf_child Hwf _ _ _ _ Hq Hinb) as (h & Hh & ? & ? & ? & _).
  assert (g = ga) as -> by congruence. assert (h = gb) as -> by congruence.
  pose proof (wf_node _ _ Hwf _ _ Hq) as Hnode. unfold node_ok in Hnode.
  rewrite Hnq, Hkq in Hnode. destruct Hnode as [Ht _].
  pose proof (tiled_NoDup _ _ _ _ Ht) as Hnd.
  rewrite fmap_app, !fmap_cons in Ht, Hnd. simpl in *.
  apply NoDup_app in Hnd as (_ & _ & [Hna _]%NoDup_cons).
  apply tiled_app in Ht as (mid & _ & g & Hg' & _ & _ & h & Hh' & Hhi & _).
  assert (g = ga) as -> by congruence. assert (h = gb) as -> by congruence.
  split_and!; try done.
  - exact (wf_child_not_root Hwf _ _ _ _ Hq Hina).
  - exact (wf_child_not_root Hwf _ _ _ _ Hq Hinb).
  - intros ->. apply Hna. left.
Qed.

Context {G' : gmap PageNum (gnode K)} {ga' gq' : gnode K} {nq' : InternalIndexNode K}
  (Ha' : G' !! a = Some ga') (Hb' : G' !! b = None) (Hq' : G' !! q = Some gq')
  (Hga : g_lo ga' = g_lo ga ∧ g_hi ga' = g_hi gb ∧ g_lvl ga' = g_lvl ga ∧ g_parent ga' = q)
  (Hgq : g_lo gq' = g_lo gq ∧ g_hi gq' = g_hi gq ∧ g_lvl gq' = g_lvl gq ∧
         g_parent gq' = g_parent gq)
  (Hnq' : g_node gq' = InternalPage nq')
  (Hkq' : internal_array nq' = l1 ++ (ka, a) :: l2)
  (Hoka : node_ok G' a ga')
  (Hkids : ∀ kx, kx ∈ g_kids ga ∨ kx ∈ g_kids gb → kx ∈ g_kids ga')
  (Hother : ∀ x, x ≠ a → x ≠ b → x ≠ q →
    match G !! x with
    | None => G' !! x = None
    | Some g =>
        (G' !! x = Some g ∧ g_parent g ≠ b) ∨
        (G' !! x = Some (g_set_parent a g) ∧ g_parent g = b)
    end).

Lemma merge_fwd x g :
  G !! x = Some g → x ≠ b →
  ∃ g', G' !! x = Some g' ∧ g_lvl g' = g_lvl g ∧ g_lo g' = g_lo g ∧
    (x ≠ a → g_hi g' = g_hi g ∧ (g_parent g ≠ b → g_parent g' = g_parent g) ∧
       (x ≠ q → ∀ kx, kx ∈ g_kids g → kx ∈ g_kids g')).
Proof.
  intros Hx Hnb. destruct (decide (x = a)) as [->|Hna].
  { exists ga'. assert (g = ga) as -> by congruence. naive_solver. }
  destruct (decide (x = q)) as [->|Hnq0].
  { exists gq'. assert (g = gq) as -> by congruence. naive_solver. }
  pose proof (Hother x Hna Hnb Hnq0) as Ho. rewrite Hx in Ho.
  destruct Ho as [[Hx' _]|(Hx' & Hp)]; rewrite Hx'; eexists; split_and!; try done.
  intros _. split_and!; try done. intros _ kx. by rewrite g_kids_set.
Qed.

Lemma merge_bwd x g' :
  G' !! x = Some g' → x ≠ b ∧
  ∃ g, G !! x = Some g ∧ g_lvl g' = g_lvl g ∧ g_lo g' = g_lo g ∧
    (x ≠ a → g_hi g' = g_hi g) ∧
    (x ≠ a → x ≠ q →
       (g' = g ∧ g_parent g ≠ b) ∨ (g' = g_set_parent a g ∧ g_parent g = b)).
Proof.
  intros Hx. assert (x ≠ b) as Hnb by congruence. split; [done|].
  destruct (decide (x = a)) as [->|Hna].
  { exists ga. assert (g' = ga') as -> by congruence. naive_solver. }
  destruct (decide (x = q)) as [->|Hnq0].
  { exists gq. assert (g' = gq') as -> by congruence. naive_solver. }
  pose proof (Hother x Hna Hnb Hnq0) as Ho. destruct (G !! x) as [g|] eqn:HG; [|congruence].
  exists g. destruct Ho as [[Hx' Hp]|(Hx' & Hp)]; rewrite Hx' in Hx;
    injection Hx as <-; split_and!; try done; intros; [left|right]; done.
Qed.

Lemma merge_entries e :
  g_entries ga' = g_entries ga ++ g_entries gb → entries G e ↔ entries G' e.
Proof.
  intros Hent. split.
  - intros (x & g & Hx & He). destruct (decide (x = a)) as [->|Hna].
    { assert (g = ga) as -> by congruence. exists a, ga'. rewrite Hent.
      split; [done|]. apply elem_of_app. by left. }
    destruct (decide (x = b)) as [->|Hnb].
    { assert (g = gb) as -> by congruence. exists a, ga'. rewrite Hent.
      split; [done|]. apply elem_of_app. by right. }
    assert (x ≠ q) as Hnq0.
    { intros ->. assert (g = gq) as -> by congruence. unfold g_entries in He.
      rewrite Hnq in He. by apply not_elem_of_nil in He. }
    pose proof (Hother x Hna Hnb Hnq0) as Ho. rewrite Hx in Ho.
    destruct Ho as [[Hx' _]|(Hx' & _)]; exists x; eexists; (split; [done|]);
      by rewrite ?g_entries_set.
  - intros (x & g' & Hx & He). destruct (merge_bwd _ _ Hx) as (Hnb & g & Hg & _ & _ & _ & Hcase).
    destruct (decide (x = a)) as [->|Hna].
    { assert (g' = ga') as -> by congruence. rewrite Hent in He.
      apply elem_of_app in He as [He|He]; [by exists a, ga|by exists b, gb]. }
    assert (x ≠ q) as Hnq0.
    { intros ->. assert (g' = gq') as -> by congruence. unfold g_entries in He.
      rewrite Hnq' in He. by apply not_elem_of_nil in He. }
    exists x, g. split; [done|].
    destruct (Hcase Hna Hnq0) as [[-> _]|(-> & _)]; [done|by rewrite g_entries_set in He].
Qed.

Lemma merge_q_ok : node_ok G' q gq'.
Proof.
  destruct merge_siblings as (Hla & Hlb & Hpa & Hpb & Hloa & Hadj & _ & _ & Hab).
  destruct Hga as (? & ? & ? & ?), Hgq as (? & ? & ? & ?).
  pose proof (wf_node _ _ Hwf _ _ Hq) as Hnode. unfold node_ok in Hnode |- *.
  rewrite Hnq in Hnode. rewrite Hnq'. rewrite Hkq in Hnode. rewrite Hkq'.
  destruct Hnode as [Ht Hall]. rewrite fmap_app, !fmap_cons in Ht.
  rewrite fmap_app, fmap_cons. simpl in *.
  pose proof (tiled_NoDup _ _ _ _ Ht) as Hnd.
  apply NoDup_app in Hnd as (_ & Hnl1 & [Hna2 [Hnb2 _]%NoDup_cons]%NoDup_cons).
  rewrite Forall_app, !Forall_cons in Hall. destruct Hall as (Hall1 & _ & _ & Hall2).
  assert (∀ l, Forall (child_ok G q (g_lvl gq)) l → a ∉ l.*2 → b ∉ l.*2 →
    Forall (child_ok G' q (g_lvl gq)) l ∧
    ∀ lo hi, tiled G lo hi l.*2 → tiled G' lo hi l.*2) as Hl12.
  { intros l Hl' Hna Hnb. rewrite Forall_forall in Hl'.
    assert (∀ kc c, (kc, c) ∈ l → ∃ g g', G !! c = Some g ∧ G' !! c = Some g' ∧
      S (g_lvl g) = g_lvl gq ∧ g_parent g = q ∧ (g_lo g = MInf ∨ g_lo g = Fin kc) ∧
      g_lvl g' = g_lvl g ∧ g_lo g' = g_lo g ∧ g_hi g' = g_hi g ∧ g_parent g' = q) as Hc.
    { intros kc c Hin. destruct (Hl' _ Hin) as (g & Hg & Hlg & Hpg & Hkg). simpl in *.
      assert (c ≠ a) as Hca by (intros ->; apply Hna; by eapply elem_of_snd).
      assert (c ≠ b) as Hcb by (intros ->; apply Hnb; by eapply elem_of_snd).
      destruct (merge_fwd c g Hg Hcb) as (g' & ? & ? & ? & Hrest).
      destruct (Hrest Hca) as (? & Hpar & _).
      exists g, g'. split_and!; try done. rewrite Hpar; [done|].
      intros Hpb'. assert (q = b) by congruence. subst q.
      assert (gq = gb) by congruence. subst. lia. }
    rewrite Forall_forall. split.
    - intros [kc c] Hin. destruct (Hc _ _ Hin) as (g & g' & ? & ? & ? & ? & Hkc & ? & Hlo' & ? & ?).
      exists g'. rewrite Hlo'. split_and!; [done|simpl; congruence..|done].
    - intros lo hi. apply tiled_ext. intros c g Hin Hg.
      apply elem_of_snd_inv in Hin as [kc Hin].
      destruct (Hc _ _ Hin) as (g0 & g' & ? & ? & ? & ? & ? & ? & ? & ? & ?).
      assert (g0 = g) as -> by congruence. eauto. }
  destruct (Hl12 l1 Hall1) as [Hall1' Ht1].
  { intros Hin; apply (Hnl1 a Hin); left. }
  { intros Hin; apply (Hnl1 b Hin); right; left. }
  destruct (Hl12 l2 Hall2) as [Hall2' Ht2]; [|done|].
  { intros Hin; apply Hna2; by right. }
  apply tiled_app in Ht as (mid & Htl1 & g & Hg & Hmid & Hlt & h & Hh & _ & Hlt' & Htl2).
  assert (g = ga) as -> by congruence. assert (h = gb) as -> by congruence.
  replace (g_lo gq') with (g_lo gq) by congruence.
  replace (g_hi gq') with (g_hi gq) by congruence.
  replace (g_lvl gq') with (g_lvl gq) by congruence.
  split.
  - apply tiled_app. exists mid. split; [by apply Ht1|].
    exists ga'. replace (g_hi ga') with (g_hi gb) by congruence.
    split_and!; [done|congruence| |by apply Ht2].
    apply (cmp_lt_le_trans bcmp _ (g_hi ga)); [done|lia].
  - rewrite Forall_app, !Forall_cons. split_and!; try done.
    exists ga'. simpl. replace (g_lo ga') with (g_lo ga) by congruence.
    split_and!; [done|congruence..|done].
Qed.

Lemma wf_merge_generic : wf root G'.
Proof.
  destruct merge_siblings as (Hla & Hlb & Hpa & Hpb & Hloa & Hadj & Har & Hbr & Hab).
  destruct Hga as (? & ? & ? & ?), Hgq as (? & ? & ? & ?).
  pose proof (wf_range _ _ Hwf) as Hrange.
  split.
  - destruct (wf_root _ _ Hwf) as [gr Hr].
    destruct (merge_fwd _ _ Hr (not_eq_sym Hbr)) as (? & ? & _). eauto.
  - intros x g' Hx. destruct (merge_bwd _ _ Hx) as (Hnb & g & Hg & _ & Hlo' & Hh & _).
    destruct (decide (x = a)) as [->|Hna].
    + assert (g' = ga') as -> by congruence. replace (g_lo ga') with (g_lo ga).
      replace (g_hi ga') with (g_hi gb). apply (cmp_lt_trans bcmp _ (g_hi ga)).
      * by apply (Hrange a).
      * rewrite Hadj. by apply (Hrange b).
    + rewrite Hlo', Hh by done. eauto.
  - intros x g' Hx. destruct (merge_bwd _ _ Hx) as (_ & g & Hg & _).
    by eapply (wf_num _ _ Hwf).
  - intros x g' r Hx Hr Hne. destruct (merge_bwd _ _ Hx) as (_ & g & Hg & -> & _).
    destruct (merge_bwd _ _ Hr) as (_ & r0 & Hr0 & -> & _). by apply (wf_lvl _ _ Hwf x).
  - intros x g' Hx.
    destruct (merge_bwd _ _ Hx) as (Hnb & g & Hg & _ & Hlo' & Hhi' & Hcase).
    destruct (decide (x = a)) as [->|Hna].
    { assert (g' = ga') as -> by congruence. right. split; [done|]. exists gq', ka.
      replace (g_parent ga') with q. split; [done|]. unfold g_kids.
      rewrite Hnq', Hkq'. apply elem_of_app; right; left. }
    specialize (Hhi' Hna). destruct (wf_up _ _ Hwf _ _ Hg) as [(-> & Hp & ? & ?)|(Hnr & _)].
    + left. split_and!; [done| |congruence..].
      destruct (decide (root = q)) as [->|Hnq0]; [congruence|].
      destruct (Hcase Hna Hnq0) as [[-> _]|(_ & Hpar)]; [done|].
      pose proof (wf_num _ _ Hwf _ _ Hb). unfold BP_INVALID_PAGE_NUM in *. lia.
    + right. split; [done|].
      destruct (wf_parent Hwf _ _ Hg Hnr) as (gy & ky & Hy & Hky & Hly & _).
      destruct (decide (x = q)) as [->|Hnq0].
      * assert (g = gq) as -> by congruence. assert (g' = gq') as -> by congruence.
        assert (g_parent gq ≠ b) as Hpnb by (intros Heq; rewrite Heq in Hy;
          assert (gy = gb) by congruence; subst; lia).
        assert (g_parent gq ≠ q) as Hpnq by (intros Heq; rewrite Heq in Hy;
          assert (gy = gq) by congruence; subst; lia).
        assert (g_parent gq ≠ a) as Hpna by (intros Heq; rewrite Heq in Hy;
          assert (gy = ga) by congruence; subst; lia).
        destruct (merge_fwd _ _ Hy Hpnb) as (gy' & Hy' & _ & _ & Hrest).
        destruct (Hrest Hpna) as (_ & _ & Hk). exists gy', ky.
        replace (g_parent gq') with (g_parent gq). auto.
      * destruct (Hcase Hna Hnq0) as [[-> Hpnb]|(-> & Hpar)].
        -- destruct (decide (g_parent g = a)) as [Heq|Hpna].
           ++ exists ga', ky. rewrite Heq in Hy |- *. split; [done|].
              apply Hkids. left. by assert (gy = ga) as <- by congruence.
           ++ destruct (decide (g_parent g = q)) as [Heq|Hpnq].
              ** (* a child of q other than a and b *)
                 exists gq', ky. rewrite Heq in Hy |- *. split; [done|].
                 assert (gy = gq) as -> by congruence. revert Hky.
                 unfold g_kids. rewrite Hnq, Hnq', Hkq, Hkq'.
                 rewrite !elem_of_app, !elem_of_cons. naive_solver.
              ** destruct (merge_fwd _ _ Hy Hpnb) as (gy' & Hy' & _ & _ & Hrest).
                 destruct (Hrest Hpna) as (_ & _ & Hk). exists gy', ky. auto.
        -- exists ga', ky. rewrite g_parent_set. split; [done|].
           apply Hkids. right. rewrite Hpar in Hy.
           by assert (gy = gb) as <- by congruence.
  - intros x g' Hx. destruct (decide (x = a)) as [->|Hna]; [congruence|].
    destruct (decide (x = q)) as [->|Hnq0].
    { assert (g' = gq') as -> by congruence. apply merge_q_ok. }
    destruct (merge_bwd _ _ Hx) as (Hnb & g & Hg & _ & _ & _ & Hcase).
    assert (node_ok G' x g) as Hok.
    { eapply node_ok_transfer; [by eapply (wf_node _ _ Hwf)|..].
      - intros gn Hgn Hlx Hlon Hln. assert (g_next g ≠ b) as Hnn.
        { intros Heq. rewrite Heq in Hgn. assert (gn = gb) as -> by congruence.
          apply Hna. apply (wf_hi_unique Hwf x a g ga); try done; [lia|congruence]. }
        destruct (merge_fwd _ _ Hgn Hnn) as (gn' & ? & ? & ? & _). eauto.
      - intros kc c gc Hc Hgc Hpc.
        assert (c ≠ a) as Hca by (intros ->; assert (gc = ga) by congruence; congruence).
        assert (c ≠ b) as Hcb by (intros ->; assert (gc = gb) by congruence; congruence).
        destruct (merge_fwd _ _ Hgc Hcb) as (gc' & ? & ? & ? & Hrest).
        destruct (Hrest Hca) as (? & Hpar & _). exists gc'. split_and!; try done.
        apply Hpar. congruence. }
    destruct (Hcase Hna Hnq0) as [[-> _]|(-> & _)]; [done|by apply node_ok_set_parent].
Qed.
End merge.

(** ** Giving children a new parent *)
Definition reparent (p : PageNum) (ks : list (K * PageNum)) G : gmap PageNum (gnode K) :=
  foldr (λ kc, alter (g_set_parent p) kc.2) G ks.

Lemma g_set_parent_twice p g : g_set_parent p (g_set_parent p g) = g_set_parent p g.
Proof. destruct g as [? ? ? [[]|[]]]; done. Qed.

Lemma lookup_reparent p ks G x :
  reparent p ks G !! x =
    if decide (x ∈ ks.*2) then g_set_parent p <$> G !! x else G !! x.
Proof.
  induction ks as [|[k c] ks IH].
  { destruct (decide _) as [Hin|]; [by apply not_elem_of_nil in Hin|done]. }
  unfold reparent in *. rewrite fmap_cons. simpl.
  destruct (decide (c = x)) as [->|Hne].
  - rewrite lookup_alter_eq, IH.
    destruct (decide (x ∈ ks.*2)); destruct (decide (x ∈ x :: ks.*2)) as [Hin|Hin];
      rewrite elem_of_cons in Hin; try (exfalso; tauto).
    + destruct (G !! x); simpl; [|done]. by rewrite g_set_parent_twice.
    + done.
  - rewrite lookup_alter_ne by done. rewrite IH.
    destruct (decide (x ∈ ks.*2)); destruct (decide (x ∈ c :: ks.*2)) as [Hin|Hin];
      rewrite elem_of_cons in Hin; try done; exfalso; naive_solver.
Qed.

(** ** Adding a root above the root, and dropping a root with a single child *)
Lemma wf_grow root G r gr z :
  wf root G → G !! root = Some gr → G !! r = None → 0 <= r →
  wf r (<[r := GN MInf PInf (S (g_lvl gr))
                  (InternalPage (InternalNode BP_INVALID_PAGE_NUM [(z, root)]))]>
          (<[root := g_set_parent r gr]> G)).
Proof.
  intros Hwf Hr Hfr H0. set (gr' := GN _ _ _ _). set (G' := <[r := gr']> _).
  destruct (wf_root_node Hwf) as (gr0 & Hr0 & Hpr & Hlo & Hhi).
  assert (gr0 = gr) as -> by congruence.
  assert (r ≠ root) as Hne by congruence.
  assert (G' !! r = Some gr') as Hr' by apply lookup_insert_eq.
  assert (G' !! root = Some (g_set_parent r gr)) as Hroot'.
  { unfold G'. by rewrite lookup_insert_ne, lookup_insert_eq by done. }
  assert (∀ x, x ≠ r → x ≠ root → G' !! x = G !! x) as Hoth.
  { intros x ??. unfold G'. by rewrite !lookup_insert_ne by done. }
  assert (∀ x g, G !! x = Some g → x ≠ r ∧ ∃ g', G' !! x = Some g' ∧ g_lvl g' = g_lvl g ∧
    g_lo g' = g_lo g ∧ g_hi g' = g_hi g ∧ g_kids g' = g_kids g ∧
    (x ≠ root → g' = g)) as Hfwd.
  { intros x g Hx. assert (x ≠ r) by congruence. split; [done|].
    destruct (decide (x = root)) as [->|Hnr].
    - exists (g_set_parent r gr). assert (g = gr) as -> by congruence.
      by rewrite g_kids_set.
    - exists g. by rewrite Hoth. }
  assert (∀ x g', G' !! x = Some g' → x ≠ r → ∃ g, G !! x = Some g ∧ g_lvl g' = g_lvl g ∧
    g_lo g' = g_lo g ∧ g_hi g' = g_hi g ∧ (x ≠ root → g' = g)) as Hbwd.
  { intros x g' Hx Hnx. destruct (decide (x = root)) as [->|Hnr].
    - exists gr. by assert (g' = g_set_parent r gr) as -> by congruence.
    - exists g'. by rewrite <-Hoth. }
  assert (∀ x g, G !! x = Some g → (x = root ∨ g_parent g ≠ BP_INVALID_PAGE_NUM) →
    node_ok G' x g) as Hok.
  { intros x g Hx Hxr. eapply node_ok_transfer; [by eapply (wf_node _ _ Hwf)|..].
    - intros gn Hgn _ _ _. destruct (Hfwd _ _ Hgn) as (_ & gn' & ? & ? & ? & _). eauto.
    - intros k c gc Hc Hgc Hpc. destruct (Hfwd _ _ Hgc) as (_ & gc' & ? & ? & ? & ? & _ & Heq).
      assert (c ≠ root) as Hcr by exact (wf_child_not_root Hwf _ _ _ _ Hx Hc).
      exists gc'. rewrite (Heq Hcr) in *. done. }
  split.
  - eauto.
  - intros x g' Hx. destruct (decide (x = r)) as [->|Hnx].
    { assert (g' = gr') as -> by congruence. done. }
    destruct (Hbwd _ _ Hx Hnx) as (g & Hg & _ & -> & -> & _). by eapply (wf_range _ _ Hwf).
  - intros x g' Hx. destruct (decide (x = r)) as [->|Hnx]; [done|].
    destruct (Hbwd _ _ Hx Hnx) as (g & Hg & _). by eapply (wf_num _ _ Hwf).
  - intros x g' r0 Hx Hr0' Hnx. assert (r0 = gr') as -> by congruence. simpl.
    destruct (Hbwd _ _ Hx Hnx) as (g & Hg & -> & _).
    destruct (decide (x = root)) as [->|Hnr]; [assert (g = gr) as -> by congruence; lia|].
    pose proof (wf_lvl _ _ Hwf _ _ _ Hg Hr Hnr). lia.
  - intros x g' Hx. destruct (decide (x = r)) as [->|Hnx].
    { assert (g' = gr') as -> by congruence. by left. }
    right. split; [done|]. destruct (decide (x = root)) as [->|Hnr].
    + assert (g' = g_set_parent r gr) as -> by congruence. exists gr', z.
      rewrite g_parent_set. split; [done|left].
    + destruct (Hbwd _ _ Hx Hnx) as (g & Hg & _ & _ & _ & Heq). rewrite (Heq Hnr) in *.
      destruct (wf_parent Hwf _ _ Hg Hnr) as (gq & k & Hq & Hk & _).
      destruct (Hfwd _ _ Hq) as (_ & gq' & ? & _ & _ & _ & Hkk & _).
      exists gq', k. by rewrite Hkk.
  - intros x g' Hx. destruct (decide (x = r)) as [->|Hnx].
    { assert (g' = gr') as -> by congruence. unfold node_ok; simpl. split.
      - exists (g_set_parent r gr). simpl. rewrite Hlo, Hhi. done.
      - constructor; [|constructor]. exists (g_set_parent r gr). simpl.
        rewrite g_parent_set. split_and!; try done. by left. }
    destruct (decide (x = root)) as [->|Hnr].
    + assert (g' = g_set_parent r gr) as -> by congruence.
      apply node_ok_set_parent, Hok; [done|by left].
    + destruct (Hbwd _ _ Hx Hnx) as (g & Hg & _ & _ & _ & Heq). rewrite (Heq Hnr) in *.
      apply Hok; [done|]. right. intros Hinv.
      by apply (wf_parent_valid Hwf _ _ Hg) in Hinv.
Qed.
End shape.
