(* ===== verification/BplusEdit.v ===== *)
(** * Tree edits on leaves and internal nodes

    The surgery of [BplusShape.v] at the two kinds of node: [split_at] cuts the
    array of a node in two, [merge_into] appends the array of a node to that of its
    left sibling, [shrink] drops a root with a single child.  Each keeps [wf] and
    the entries of the tree. *)
From S2P Require Import Prelude LowerBound RidKey LatchMemo BplusNode BplusTree BplusInv.
From S2P Require Import BplusShape.
From Stdlib Require Import ZArith Lia.
From stdpp Require Import base option gmap sorting list.
Local Open Scope Z_scope.

Section edit.
Context {K : Type} `{!IndexKey K}.
Implicit Types (G : gmap PageNum (gnode K)) (g : gnode K) (p q a b c x : PageNum) (k : K).

(** The two halves of a node cut at [n]; the left half of a leaf points to the new
    page [b]. *)
Definition left_half (n : nat) (b : PageNum) (node : IndexNode K) : IndexNode K :=
  match node with
  | LeafPage l => LeafPage (LeafNode (leaf_parent l) b (take n (leaf_array l)))
  | InternalPage i => InternalPage (InternalNode (internal_parent i) (take n (internal_array i)))
  end.
Definition right_half (n : nat) (node : IndexNode K) : IndexNode K :=
  match node with
  | LeafPage l => LeafPage (LeafNode (leaf_parent l) (next_brother l) (drop n (leaf_array l)))
  | InternalPage i => InternalPage (InternalNode (internal_parent i) (drop n (internal_array i)))
  end.
(** The left node with the items of its right sibling. *)
Definition joined (node1 node2 : IndexNode K) : IndexNode K :=
  match node1, node2 with
  | LeafPage l1, LeafPage l2 =>
      LeafPage (LeafNode (leaf_parent l1) (next_brother l2) (leaf_array l1 ++ leaf_array l2))
  | InternalPage i1, InternalPage i2 =>
      InternalPage (InternalNode (internal_parent i1) (internal_array i1 ++ internal_array i2))
  | _, _ => node1
  end.
(** The key of the item at a position, whatever the kind of the node. *)
Definition node_key (node : IndexNode K) (n : nat) : option K :=
  match node with
  | LeafPage l => fst <$> leaf_array l !! n
  | InternalPage i => fst <$> internal_array i !! n
  end.
Definition node_kids (node : IndexNode K) : list (K * PageNum) :=
  match node with LeafPage _ => [] | InternalPage i => internal_array i end.

Definition set_kids g (i : InternalIndexNode K) (ks : list (K * PageNum)) : gnode K :=
  GN (g_lo g) (g_hi g) (g_lvl g) (InternalPage (InternalIndexNodeHandler.set_array i ks)).

Definition split_at (n : nat) a b k ga q gq nq ks G : gmap PageNum (gnode K) :=
  <[b := GN (Fin k) (g_hi ga) (g_lvl ga) (right_half n (g_node ga))]>
  (<[a := GN (g_lo ga) (Fin k) (g_lvl ga) (left_half n b (g_node ga))]>
  (<[q := set_kids gq nq ks]>
  (reparent b (node_kids (right_half n (g_node ga))) G))).

Definition merge_into a b ga gb q gq nq ks G : gmap PageNum (gnode K) :=
  delete b
  (<[a := GN (g_lo ga) (g_hi gb) (g_lvl ga) (joined (g_node ga) (g_node gb))]>
  (<[q := set_kids gq nq ks]>
  (reparent a (node_kids (g_node gb)) G))).

Section split.
Context {root : PageNum} {G : gmap PageNum (gnode K)} {a b q : PageNum}
  {ga gq : gnode K} {nq : InternalIndexNode K} {l1 l2 : list (K * PageNum)} {ka k : K}
  {n : nat}
  (Hwf : wf root G)
  (Ha : G !! a = Some ga) (Hq : G !! q = Some gq) (Hb : G !! b = None) (Hb0 : 0 <= b)
  (Hnq : g_node gq = InternalPage nq)
  (Hkq : internal_array nq = l1 ++ (ka, a) :: l2)
  (Hn : (0 < n)%nat) (Hk : node_key (g_node ga) n = Some k).

Let G' := split_at n a b k ga q gq nq (l1 ++ (ka, a) :: (k, b) :: l2) G.

Lemma split_distinct : a ≠ q ∧ a ≠ b ∧ q ≠ b ∧ S (g_lvl ga) = g_lvl gq ∧ g_parent ga = q.
Proof.
  assert ((ka, a) ∈ g_kids gq) as Hin.
  { unfold g_kids. rewrite Hnq, Hkq. apply elem_of_app; right; left. }
  destruct (wf_child Hwf _ _ _ _ Hq Hin) as (g & Hg & ? & ? & _).
  assert (g = ga) as -> by congruence. split_and!; try congruence.
  intros ->. assert (gq = ga) by congruence. subst. lia.
Qed.

Lemma g_kids_node g : g_kids g = node_kids (g_node g).
Proof. done. Qed.

Lemma lookup_split_at x :
  G' !! x = if decide (x = b) then Some (GN (Fin k) (g_hi ga) (g_lvl ga) (right_half n (g_node ga)))
    else if decide (x = a) then Some (GN (g_lo ga) (Fin k) (g_lvl ga) (left_half n b (g_node ga)))
    else if decide (x = q) then Some (set_kids gq nq (l1 ++ (ka, a) :: (k, b) :: l2))
    else if decide (x ∈ (node_kids (right_half n (g_node ga))).*2)
    then g_set_parent b <$> G !! x else G !! x.
Proof.
  unfold G', split_at.
  destruct (decide (x = b)) as [->|]; [by rewrite lookup_insert_eq|].
  rewrite lookup_insert_ne by done.
  destruct (decide (x = a)) as [->|]; [by rewrite lookup_insert_eq|].
  rewrite lookup_insert_ne by done.
  destruct (decide (x = q)) as [->|]; [by rewrite lookup_insert_eq|].
  rewrite lookup_insert_ne by done. apply lookup_reparent.
Qed.

(** The cut key is strictly inside the range of the node. *)
Lemma split_key_range : bcmp (g_lo ga) (Fin k) < 0 ∧ bcmp (Fin k) (g_hi ga) < 0.
Proof.
  pose proof (wf_node _ _ Hwf _ _ Ha) as Hnode. unfold node_ok in Hnode.
  destruct (g_node ga) as [l|i] eqn:Hga; simpl in Hk.
  - destruct Hnode as (_ & Hs & Hr & _). rewrite Forall_lookup in Hr.
    destruct (leaf_array l !! n) as [[k0 r]|] eqn:He; [|done]. injection Hk as ->.
    destruct (lookup_lt_is_Some_2 (leaf_array l) 0) as [e0 He0].
    { apply lookup_lt_Some in He. lia. }
    destruct (Hr _ _ He) as [_ ?], (Hr _ _ He0) as [? _]. split; [|done].
    apply (cmp_le_lt_trans bcmp _ (Fin e0.1)); [done|]. simpl.
    apply (sorted_lookup_lt (leaf_array l) 0 n e0 (k, r)); done.
  - destruct (internal_array i !! n) as [[k0 c]|] eqn:He; [|done]. injection Hk as ->.
    destruct (internal_child Hwf Ha Hga _ _ _ He) as (g & Hg & _ & _ & Hlo & _).
    rewrite decide_False in Hlo by lia.
    destruct (lookup_lt_is_Some_2 (internal_array i) 0) as [[k0 c0] He0].
    { apply lookup_lt_Some in He. lia. }
    destruct (internal_child Hwf Ha Hga _ _ _ He0) as (g0 & Hg0 & _ & _ & Hlo0 & _).
    simpl in Hlo0. destruct Hnode as [Ht _].
    pose proof (wf_range _ _ Hwf _ _ Hg) as Hr. pose proof (wf_range _ _ Hwf _ _ Hg0) as Hr0.
    destruct (tiled_elem _ _ _ _ c g Ht) as [_ Hhi]; [|done|].
    { eapply elem_of_snd, list_elem_of_lookup_2, He. }
    rewrite <-Hlo, <-Hlo0. split.
    + apply (cmp_lt_le_trans bcmp _ (g_hi g0)); [done|].
      eapply (tiled_order _ _ _ _ 0 n); [exact Ht| | |lia|done..];
        by rewrite list_lookup_fmap, ?He, ?He0.
    + by apply (cmp_lt_le_trans bcmp _ (g_hi g)).
Qed.

Lemma split_entries_halves :
  g_entries ga = g_entries (GN (g_lo ga) (Fin k) (g_lvl ga) (left_half n b (g_node ga))) ++
    g_entries (GN (Fin k) (g_hi ga) (g_lvl ga) (right_half n (g_node ga))).
Proof.
  unfold g_entries. simpl. destruct (g_node ga) as [l|i]; simpl; [|done].
  by rewrite take_drop.
Qed.

(** A child of [a]: where it is, and that it is none of the edited pages. *)
Lemma split_kid kc c :
  (kc, c) ∈ g_kids ga →
  ∃ g, G !! c = Some g ∧ S (g_lvl g) = g_lvl ga ∧ g_parent g = a ∧
    (g_lo g = MInf ∨ g_lo g = Fin kc) ∧ c ≠ a ∧ c ≠ b ∧ c ≠ q.
Proof.
  intros Hin. destruct split_distinct as (_ & _ & _ & Hlq & _).
  destruct (wf_child Hwf _ _ _ _ Ha Hin) as (g & Hg & Hl & Hp & Hlo & _).
  exists g. split_and!; try done; intros ->.
  - assert (g = ga) by congruence. subst. lia.
  - congruence.
  - assert (g = gq) by congruence. subst. lia.
Qed.

Lemma split_left_ok :
  node_ok G' a (GN (g_lo ga) (Fin k) (g_lvl ga) (left_half n b (g_node ga))).
Proof.
  pose proof split_key_range as [Hlok Hkhi]. pose proof lookup_split_at as Hlk.
  destruct split_distinct as (_ & Hab & _).
  pose proof (wf_node _ _ Hwf _ _ Ha) as Hnode.
  assert (∀ kc c, (kc, c) ∈ g_kids ga → ∃ g, G !! c = Some g ∧ S (g_lvl g) = g_lvl ga ∧
    g_parent g = a ∧ (g_lo g = MInf ∨ g_lo g = Fin kc) ∧ c ≠ a ∧ c ≠ b ∧ c ≠ q) as Hkid
    by exact split_kid.
  unfold node_ok, g_kids in *. simpl.
  destruct (g_node ga) as [l|i] eqn:Hga; simpl in *.
  - destruct Hnode as (Hl & Hs & Hr & Hnx).
    destruct (leaf_array l !! n) as [[k0 r]|] eqn:He; [|done]. injection Hk as ->.
    split_and!; [done| | |].
    + unfold keys_sorted in *. rewrite <-(take_drop n (leaf_array l)) in Hs.
      by apply StronglySorted_app in Hs as (_ & ? & _).
    + rewrite Forall_lookup in Hr |- *. intros j e [Hj Hjn]%lookup_take_Some.
      split; [by apply (Hr _ _ Hj)|]. simpl.
      by apply (sorted_lookup_lt (leaf_array l) j n e (k, r)).
    + right. exists (GN (Fin k) (g_hi ga) (g_lvl ga) (right_half n (g_node ga))).
      rewrite Hlk, decide_True by done. rewrite Hga. done.
  - destruct Hnode as [Ht Hall].
    destruct (internal_array i !! n) as [[k0 c]|] eqn:He; [|done]. injection Hk as ->.
    destruct (internal_child Hwf Ha Hga _ _ _ He) as (g & Hg & _ & _ & Hlo & _).
    rewrite decide_False in Hlo by lia.
    rewrite <-(take_drop n (internal_array i)), fmap_app in Ht.
    pose proof (tiled_NoDup _ _ _ _ Ht) as (_ & Hnd & _)%NoDup_app.
    apply tiled_app in Ht as (mid & Ht1 & Ht2).
    assert (mid = Fin k) as ->.
    { rewrite (drop_S _ _ _ He) in Ht2. simpl in Ht2.
      destruct Ht2 as (g' & Hg' & <- & _). congruence. }
    assert (∀ kc c', (kc, c') ∈ take n (internal_array i) → G' !! c' = G !! c') as Hsame.
    { intros kc c' Hin. destruct (Hkid kc c') as (g' & _ & _ & _ & _ & ? & ? & ?).
      { eapply list_elem_of_lookup in Hin as [j [Hj _]%lookup_take_Some].
        by eapply list_elem_of_lookup_2. }
      rewrite Hlk, !decide_False; try done. apply Hnd. by eapply elem_of_snd. }
    split.
    + eapply tiled_ext; [|exact Ht1]. intros c' g' [kc Hin]%elem_of_snd_inv Hg'.
      exists g'. by rewrite (Hsame _ _ Hin).
    + rewrite Forall_forall. intros [kc c'] Hin.
      destruct (Hkid kc c') as (g' & ? & ? & ? & ? & _).
      { eapply list_elem_of_lookup in Hin as [j [Hj _]%lookup_take_Some].
        by eapply list_elem_of_lookup_2. }
      exists g'. simpl. rewrite (Hsame _ _ Hin). done.
Qed.

Lemma split_right_ok :
  node_ok G' b (GN (Fin k) (g_hi ga) (g_lvl ga) (right_half n (g_node ga))).
Proof.
  pose proof split_key_range as [Hlok Hkhi]. pose proof lookup_split_at as Hlk.
  destruct split_distinct as (_ & Hab & _ & Hlq & _).
  pose proof (wf_node _ _ Hwf _ _ Ha) as Hnode.
  assert (∀ kc c, (kc, c) ∈ g_kids ga → ∃ g, G !! c = Some g ∧ S (g_lvl g) = g_lvl ga ∧
    g_parent g = a ∧ (g_lo g = MInf ∨ g_lo g = Fin kc) ∧ c ≠ a ∧ c ≠ b ∧ c ≠ q) as Hkid
    by exact split_kid.
  unfold node_ok, g_kids in *. simpl.
  destruct (g_node ga) as [l|i] eqn:Hga; simpl in *.
  - destruct Hnode as (Hl & Hs & Hr & Hnx).
    destruct (leaf_array l !! n) as [[k0 r]|] eqn:He; [|done]. injection Hk as ->.
    split_and!; [done| | |].
    + unfold keys_sorted in *. rewrite <-(take_drop n (leaf_array l)) in Hs.
      by apply StronglySorted_app in Hs as (_ & _ & ?).
    + rewrite Forall_lookup in Hr |- *. intros j e Hj. rewrite lookup_drop in Hj.
      split; [|by apply (Hr _ _ Hj)]. simpl.
      apply (sorted_lookup_le (leaf_array l) n (n + j) (k, r) e); try done. lia.
    + destruct Hnx as [?|(gn & Hgn & Hln & Hlo)]; [by left|right].
      rewrite Hlk. rewrite decide_False by congruence.
      destruct (decide (next_brother l = a)) as [Heq|Hna].
      { eexists. split; [done|]. rewrite Heq in Hgn.
        by assert (gn = ga) as -> by congruence. }
      rewrite decide_False.
      2:{ intros Heq. rewrite Heq in Hgn. assert (gn = gq) by congruence. subst. lia. }
      simpl. eauto.
  - destruct Hnode as [Ht Hall].
    destruct (internal_array i !! n) as [[k0 c]|] eqn:He; [|done]. injection Hk as ->.
    destruct (internal_child Hwf Ha Hga _ _ _ He) as (g & Hg & _ & _ & Hlo & _).
    rewrite decide_False in Hlo by lia.
    rewrite <-(take_drop n (internal_array i)), fmap_app in Ht.
    apply tiled_app in Ht as (mid & Ht1 & Ht2).
    assert (mid = Fin k) as ->.
    { rewrite (drop_S _ _ _ He) in Ht2. simpl in Ht2.
      destruct Ht2 as (g' & Hg' & <- & _). congruence. }
    assert (∀ kc c', (kc, c') ∈ drop n (internal_array i) →
      (kc, c') ∈ internal_array i) as Hdrop.
    { intros kc c' [j Hj]%list_elem_of_lookup. rewrite lookup_drop in Hj.
      by eapply list_elem_of_lookup_2. }
    assert (∀ kc c' g', (kc, c') ∈ drop n (internal_array i) → G !! c' = Some g' →
      G' !! c' = Some (g_set_parent b g')) as Hset.
    { intros kc c' g' Hin Hg'. destruct (Hkid kc c') as (_ & _ & _ & _ & _ & ? & ? & ?).
      { by apply Hdrop. }
      rewrite Hlk, !decide_False by done.
      rewrite decide_True by by eapply elem_of_snd. by rewrite Hg'. }
    split.
    + eapply tiled_ext; [|exact Ht2]. intros c' g' [kc Hin]%elem_of_snd_inv Hg'.
      exists (g_set_parent b g'). by rewrite (Hset _ _ _ Hin Hg').
    + rewrite Forall_forall. intros [kc c'] Hin.
      destruct (Hkid kc c' (Hdrop _ _ Hin)) as (g' & Hg' & ? & ? & ? & _).
      exists (g_set_parent b g'). simpl. rewrite (Hset _ _ _ Hin Hg').
      by rewrite g_parent_set.
Qed.

Lemma split_other x :
  x ≠ a → x ≠ b → x ≠ q →
  match G !! x with
  | None => G' !! x = None
  | Some g =>
      (G' !! x = Some g ∧ (g_parent g = a → ∃ kx, (kx, x) ∈
         g_kids (GN (g_lo ga) (Fin k) (g_lvl ga) (left_half n b (g_node ga))))) ∨
      (G' !! x = Some (g_set_parent b g) ∧ g_parent g = a ∧
       ∃ kx, (kx, x) ∈ g_kids (GN (Fin k) (g_hi ga) (g_lvl ga) (right_half n (g_node ga))))
  end.
Proof.
  intros Hna Hnb Hnq0. rewrite lookup_split_at, !decide_False by done.
  rewrite !g_kids_node. simpl.
  assert (∀ kx, (kx, x) ∈ node_kids (g_node ga) ↔
    (kx, x) ∈ node_kids (left_half n b (g_node ga)) ∨
    (kx, x) ∈ node_kids (right_half n (g_node ga))) as Hkids.
  { intros kx. destruct (g_node ga) as [l|i]; simpl.
    - rewrite !elem_of_nil. tauto.
    - rewrite <-(take_drop n (internal_array i)) at 1. apply elem_of_app. }
  destruct (G !! x) as [g|] eqn:Hx; [|by case_decide].
  case_decide as Hin.
  - right. split; [done|]. apply elem_of_snd_inv in Hin as [kx Hin].
    destruct (split_kid kx x) as (g' & Hg' & _ & Hp & _).
    { rewrite g_kids_node. apply Hkids. by right. }
    assert (g' = g) as -> by congruence. eauto.
  - left. split; [done|]. intros Hp.
    assert (x ≠ root) as Hxr.
    { intros ->. pose proof (proj2 (wf_parent_valid Hwf _ _ Hx) eq_refl).
      pose proof (wf_num _ _ Hwf _ _ Ha). unfold BP_INVALID_PAGE_NUM in *. lia. }
    destruct (wf_parent Hwf _ _ Hx Hxr) as (gy & ky & Hy & Hky & _).
    rewrite Hp in Hy. assert (gy = ga) as -> by congruence.
    rewrite g_kids_node in Hky. apply Hkids in Hky as [?|Hr]; [by exists ky|].
    exfalso. apply Hin. by eapply elem_of_snd.
Qed.

Lemma left_half_parent : IndexNodeHandler.parent_page_num (left_half n b (g_node ga)) = g_parent ga.
Proof. unfold g_parent. by destruct (g_node ga). Qed.
Lemma right_half_parent : IndexNodeHandler.parent_page_num (right_half n (g_node ga)) = g_parent ga.
Proof. unfold g_parent. by destruct (g_node ga). Qed.

Lemma split_at_spec : wf root G' ∧ ∀ e, entries G e ↔ entries G' e.
Proof.
  destruct split_distinct as (? & ? & ? & ? & Hpa).
  pose proof split_key_range as [? ?].
  assert (G' !! a = Some (GN (g_lo ga) (Fin k) (g_lvl ga) (left_half n b (g_node ga)))) as Ha'
    by by rewrite lookup_split_at, decide_False, decide_True by done.
  assert (G' !! b = Some (GN (Fin k) (g_hi ga) (g_lvl ga) (right_half n (g_node ga)))) as Hb'
    by by rewrite lookup_split_at, decide_True by done.
  assert (G' !! q = Some (set_kids gq nq (l1 ++ (ka, a) :: (k, b) :: l2))) as Hq'
    by by rewrite lookup_split_at, !decide_False, decide_True by done.
  assert (g_parent (set_kids gq nq (l1 ++ (ka, a) :: (k, b) :: l2)) = g_parent gq) as Hpq
    by by unfold g_parent; rewrite Hnq.
  pose proof split_left_ok as Hok1. pose proof split_right_ok as Hok2.
  pose proof split_other as Hoth.
  set (ga' := GN (g_lo ga) (Fin k) (g_lvl ga) (left_half n b (g_node ga))) in *.
  set (gb' := GN (Fin k) (g_hi ga) (g_lvl ga) (right_half n (g_node ga))) in *.
  assert (g_lo ga' = g_lo ga ∧ g_hi ga' = Fin k ∧ g_lvl ga' = g_lvl ga ∧ g_parent ga' = q)
    as HA by (split_and!; try done; unfold g_parent at 1; simpl; by rewrite left_half_parent).
  assert (g_lo gb' = Fin k ∧ g_hi gb' = g_hi ga ∧ g_lvl gb' = g_lvl ga ∧ g_parent gb' = q)
    as HB by (split_and!; try done; unfold g_parent at 1; simpl; by rewrite right_half_parent).
  split; [|intros e].
  - by eapply (wf_split_generic Hwf Ha Hq Hb Hb0 Hnq Hkq Ha' Hb' Hq').
  - eapply (split_entries Ha Hq Hb Hnq Ha' Hb' Hq'); [done..|].
    apply split_entries_halves.
Qed.
End split.

(** Leaves are the nodes of level 0. *)
Lemma wf_leaf_lvl root G p g :
  wf root G → G !! p = Some g → (g_lvl g = 0%nat ↔ ∃ l, g_node g = LeafPage l).
Proof.
  intros Hwf Hp. pose proof (wf_node _ _ Hwf _ _ Hp) as Hnode. unfold node_ok in Hnode.
  destruct (g_node g) as [l|i] eqn:Hg.
  - destruct Hnode as [? _]. split; eauto.
  - split; [|by intros [? ?]]. intros Hl.
    pose proof (internal_size_pos Hwf Hp Hg) as Hpos.
    destruct (lookup_lt_is_Some_2 (internal_array i) 0 Hpos) as [[k c] Hi].
    destruct (internal_child Hwf Hp Hg _ _ _ Hi) as (gc & _ & ? & _). lia.
Qed.

Section merge.
Context {root : PageNum} {G : gmap PageNum (gnode K)} {a b q : PageNum}
  {ga gb gq : gnode K} {nq : InternalIndexNode K} {l1 l2 : list (K * PageNum)} {ka kb : K}
  (Hwf : wf root G)
  (Ha : G !! a = Some ga) (Hb : G !! b = Some gb) (Hq : G !! q = Some gq)
  (Hnq : g_node gq = InternalPage nq)
  (Hkq : internal_array nq = l1 ++ (ka, a) :: (kb, b) :: l2).

Let G' := merge_into a b ga gb q gq nq (l1 ++ (ka, a) :: l2) G.
Let ga' := GN (g_lo ga) (g_hi gb) (g_lvl ga) (joined (g_node ga) (g_node gb)).

Lemma merge_facts :
  S (g_lvl ga) = g_lvl gq ∧ S (g_lvl gb) = g_lvl gq ∧ g_parent ga = q ∧
  g_parent gb = q ∧ (g_lo ga = MInf ∨ g_lo ga = Fin ka) ∧ g_hi ga = g_lo gb ∧
  a ≠ root ∧ b ≠ root ∧ a ≠ b.
Proof. exact (merge_siblings Hwf Ha Hb Hq Hnq Hkq). Qed.

Lemma merge_same_kind :
  (∃ la lb, g_node ga = LeafPage la ∧ g_node gb = LeafPage lb) ∨
  (∃ ia ib, g_node ga = InternalPage ia ∧ g_node gb = InternalPage ib).
Proof.
  destruct merge_facts as (Hla & Hlb & _).
  pose proof (wf_leaf_lvl _ _ _ _ Hwf Ha) as Hka.
  pose proof (wf_leaf_lvl _ _ _ _ Hwf Hb) as Hkb.
  destruct (g_node ga) as [la|ia], (g_node gb) as [lb|ib]; [left|exfalso|exfalso|right];
    eauto.
  - destruct Hkb as [[l ?] _]; [|done]. rewrite (proj2 Hka) in Hla; [lia|eauto].
  - destruct Hka as [[l ?] _]; [|done]. rewrite (proj2 Hkb) in Hlb; [lia|eauto].
Qed.

Lemma lookup_merge_into x :
  G' !! x = if decide (x = b) then None
    else if decide (x = a) then Some ga'
    else if decide (x = q) then Some (set_kids gq nq (l1 ++ (ka, a) :: l2))
    else if decide (x ∈ (node_kids (g_node gb)).*2)
    then g_set_parent a <$> G !! x else G !! x.
Proof.
  unfold G', merge_into.
  destruct (decide (x = b)) as [->|]; [by rewrite lookup_delete_eq|].
  rewrite lookup_delete_ne by done.
  destruct (decide (x = a)) as [->|]; [by rewrite lookup_insert_eq|].
  rewrite lookup_insert_ne by done.
  destruct (decide (x = q)) as [->|]; [by rewrite lookup_insert_eq|].
  rewrite lookup_insert_ne by done. apply lookup_reparent.
Qed.

Lemma merge_kid p gp kc c :
  G !! p = Some gp → S (g_lvl gp) = g_lvl gq → (kc, c) ∈ g_kids gp →
  ∃ g, G !! c = Some g ∧ S (g_lvl g) = g_lvl gp ∧ g_parent g = p ∧
    (g_lo g = MInf ∨ g_lo g = Fin kc) ∧ c ≠ a ∧ c ≠ b ∧ c ≠ q.
Proof.
  intros Hp Hlp Hin. destruct merge_facts as (Hla & Hlb & _).
  destruct (wf_child Hwf _ _ _ _ Hp Hin) as (g & Hg & Hl & Hpar & Hlo & _).
  exists g. split_and!; try done; intros ->.
  - assert (g = ga) by congruence. subst. lia.
  - assert (g = gb) by congruence. subst. lia.
  - assert (g = gq) by congruence. subst. lia.
Qed.

Lemma merge_a_ok : node_ok G' a ga'.
Proof.
  destruct merge_facts as (Hla & Hlb & Hpa & Hpb & Hloa & Hadj & Har & Hbr & Hab).
  pose proof lookup_merge_into as Hlk.
  pose proof (wf_node _ _ Hwf _ _ Ha) as Hna. pose proof (wf_node _ _ Hwf _ _ Hb) as Hnb.
  pose proof (wf_range _ _ Hwf _ _ Ha) as Hra. pose proof (wf_range _ _ Hwf _ _ Hb) as Hrb.
  pose proof (merge_kid a ga) as Hkida. pose proof (merge_kid b gb) as Hkidb.
  unfold g_kids in *.
  destruct merge_same_kind as [(la & lb & Hga & Hgb)|(ia & ib & Hga & Hgb)];
    unfold node_ok in *; unfold ga'; rewrite Hga, Hgb in *; simpl in *.
  - destruct Hna as (Hl & Hsa & Hra' & _), Hnb as (_ & Hsb & Hrb' & Hnx).
    rewrite Forall_forall in Hra', Hrb'. split_and!; [done| | |].
    + apply StronglySorted_app. split_and!; [|done..].
      intros x y Hx Hy. destruct (Hra' _ Hx) as [_ H1], (Hrb' _ Hy) as [H2 _].
      rewrite Hadj in H1. exact (cmp_lt_le_trans bcmp _ _ _ H1 H2).
    + rewrite Forall_app, !Forall_forall. split; intros x Hx.
      * destruct (Hra' _ Hx) as [H1 H2]. split; [done|]. rewrite Hadj in H2.
        by eapply (cmp_lt_trans bcmp).
      * destruct (Hrb' _ Hx) as [H1 H2]. split; [|done].
        rewrite Hadj in Hra. pose proof (cmp_lt_le_trans bcmp _ _ _ Hra H1). lia.
    + destruct Hnx as [?|(gn & Hgn & Hln & Hlo)]; [by left|right]. rewrite Hlk.
      rewrite decide_False.
      2:{ intros Heq. rewrite Heq in Hgn. assert (gn = gb) by congruence. subst.
          rewrite Hlo in Hrb. rewrite (cmp_refl bcmp) in Hrb. lia. }
      destruct (decide (next_brother lb = a)) as [Heq|_].
      { eexists. split; [done|]. rewrite Heq in Hgn.
        by assert (gn = ga) as -> by congruence. }
      rewrite decide_False.
      2:{ intros Heq. rewrite Heq in Hgn. assert (gn = gq) by congruence. subst. lia. }
      simpl. eauto.
  - destruct Hna as [Hta Halla], Hnb as [Htb Hallb]. rewrite fmap_app.
    assert (∀ kc c, (kc, c) ∈ internal_array ib → ∃ g, G !! c = Some g ∧
      G' !! c = Some (g_set_parent a g) ∧ S (g_lvl g) = g_lvl gb ∧
      (g_lo g = MInf ∨ g_lo g = Fin kc)) as Hb'.
    { intros kc c Hin. destruct (Hkidb kc c Hb Hlb Hin) as (g & Hg & ? & ? & ? & ? & ? & ?).
      exists g. rewrite Hlk, !decide_False by done.
      rewrite decide_True by by eapply elem_of_snd. by rewrite Hg. }
    assert (∀ kc c, (kc, c) ∈ internal_array ia → ∃ g, G !! c = Some g ∧
      G' !! c = Some g ∧ S (g_lvl g) = g_lvl ga ∧ g_parent g = a ∧
      (g_lo g = MInf ∨ g_lo g = Fin kc)) as Ha'.
    { intros kc c Hin. destruct (Hkida kc c Ha Hla Hin) as (g & Hg & ? & ? & ? & ? & ? & ?).
      exists g. rewrite Hlk, !decide_False; try done.
      intros [k' Hin']%elem_of_snd_inv.
      destruct (Hkidb k' c Hb Hlb Hin') as (g' & ? & _ & ? & _). congruence. }
    split.
    + apply tiled_app. exists (g_hi ga). split; [|rewrite Hadj]; (eapply tiled_ext; [|done]);
        intros c g [kc Hin]%elem_of_snd_inv Hg.
      * destruct (Ha' _ _ Hin) as (g' & ? & ? & _).
        assert (g' = g) as -> by congruence. eauto.
      * destruct (Hb' _ _ Hin) as (g' & ? & ? & _).
        assert (g' = g) as -> by congruence. eauto.
    + rewrite Forall_app, !Forall_forall. split; intros [kc c] Hin.
      * destruct (Ha' _ _ Hin) as (g & _ & ? & ? & ? & ?). by exists g.
      * destruct (Hb' _ _ Hin) as (g & _ & ? & ? & ?). exists (g_set_parent a g).
        rewrite g_parent_set. simpl. split_and!; [done|lia|done..].
Qed.

Lemma merge_other x :
  x ≠ a → x ≠ b → x ≠ q →
  match G !! x with
  | None => G' !! x = None
  | Some g =>
      (G' !! x = Some g ∧ g_parent g ≠ b) ∨
      (G' !! x = Some (g_set_parent a g) ∧ g_parent g = b)
  end.
Proof.
  intros Hna Hnb Hnq0. destruct merge_facts as (_ & Hlb & _ & _ & _ & _ & _ & Hbr & _).
  rewrite lookup_merge_into, !decide_False by done.
  destruct (G !! x) as [g|] eqn:Hx; [|by case_decide].
  case_decide as Hin.
  - right. split; [done|]. apply elem_of_snd_inv in Hin as [kx Hin].
    destruct (merge_kid b gb kx x Hb Hlb Hin) as (g' & Hg' & _ & Hp & _). congruence.
  - left. split; [done|]. intros Hp. apply Hin.
    assert (x ≠ root) as Hxr.
    { intros ->. pose proof (proj2 (wf_parent_valid Hwf _ _ Hx) eq_refl).
      pose proof (wf_num _ _ Hwf _ _ Hb). unfold BP_INVALID_PAGE_NUM in *. lia. }
    destruct (wf_parent Hwf _ _ Hx Hxr) as (gy & ky & Hy & Hky & _).
    rewrite Hp in Hy. assert (gy = gb) as -> by congruence.
    by eapply elem_of_snd.
Qed.

Lemma merge_into_spec : wf root G' ∧ ∀ e, entries G e ↔ entries G' e.
Proof.
  destruct merge_facts as (Hla & Hlb & Hpa & Hpb & Hloa & Hadj & Har & Hbr & Hab).
  assert (a ≠ q) by (intros ->; assert (ga = gq) by congruence; subst; lia).
  assert (b ≠ q) by (intros ->; assert (gb = gq) by congruence; subst; lia).
  assert (G' !! a = Some ga') as Ha'
    by by rewrite lookup_merge_into, decide_False, decide_True by done.
  assert (G' !! b = None) as Hb' by by rewrite lookup_merge_into, decide_True by done.
  assert (G' !! q = Some (set_kids gq nq (l1 ++ (ka, a) :: l2))) as Hq'
    by by rewrite lookup_merge_into, !decide_False, decide_True by done.
  assert (g_lo ga' = g_lo ga ∧ g_hi ga' = g_hi gb ∧ g_lvl ga' = g_lvl ga ∧ g_parent ga' = q)
    as HA.
  { split_and!; try done. rewrite <-Hpa. unfold g_parent, ga'; simpl.
    destruct merge_same_kind as [(? & ? & -> & ->)|(? & ? & -> & ->)]; done. }
  assert (∀ kx, kx ∈ g_kids ga ∨ kx ∈ g_kids gb → kx ∈ g_kids ga') as Hkids.
  { intros kx. unfold ga', g_kids; simpl.
    destruct merge_same_kind as [(? & ? & -> & ->)|(? & ? & -> & ->)]; simpl.
    - rewrite !elem_of_nil. tauto.
    - by rewrite elem_of_app. }
  pose proof merge_a_ok as Hok. pose proof merge_other as Hoth.
  assert (g_parent (set_kids gq nq (l1 ++ (ka, a) :: l2)) = g_parent gq) as Hpq
    by by unfold g_parent; rewrite Hnq.
  split; [|intros e].
  - by eapply (wf_merge_generic Hwf Ha Hb Hq Hnq Hkq Ha' Hb' Hq').
  - eapply (merge_entries Ha Hb Hq Hnq Ha' Hb' Hq'); [done..|].
    unfold ga', g_entries; simpl.
    destruct merge_same_kind as [(? & ? & -> & ->)|(? & ? & -> & ->)]; done.
Qed.
End merge.

(** The tree below a root with a single child. *)
Definition shrink root c gc G : gmap PageNum (gnode K) :=
  <[c := g_set_parent BP_INVALID_PAGE_NUM gc]> (delete root G).

Lemma shrink_spec root G gr i k c :
  wf root G → G !! root = Some gr → g_node gr = InternalPage i →
  internal_array i = [(k, c)] →
  ∃ gc, G !! c = Some gc ∧ c ≠ root ∧ S (g_lvl gc) = g_lvl gr ∧
    wf c (shrink root c gc G) ∧ ∀ e, entries G e ↔ entries (shrink root c gc G) e.
Proof.
  intros Hwf Hr Hi Hk.
  destruct (wf_root_node Hwf) as (gr0 & Hr0 & Hpr & Hlor & Hhir).
  assert (gr0 = gr) as -> by congruence.
  destruct (internal_child Hwf Hr Hi 0 k c) as (gc & Hc & Hl & Hp & Hlo & Hhi);
    [by rewrite Hk|]. rewrite Hk in Hhi. simpl in Hlo, Hhi. rewrite Hlor in Hlo. rewrite Hhir in Hhi.
  assert (c ≠ root) as Hcr by (intros ->; assert (gc = gr) by congruence; subst; lia).
  exists gc. split_and!; try done; set (G' := shrink root c gc G);
    assert (∀ x, G' !! x = if decide (x = c) then Some (g_set_parent BP_INVALID_PAGE_NUM gc)
      else if decide (x = root) then None else G !! x) as Hlk.
  1,3: intros x; unfold G', shrink;
    destruct (decide (x = c)) as [->|]; [by rewrite lookup_insert_eq|];
    rewrite lookup_insert_ne by done;
    destruct (decide (x = root)) as [->|]; [by rewrite lookup_delete_eq|];
    by rewrite lookup_delete_ne by done.
  - assert (∀ x g', G' !! x = Some g' → x ≠ root ∧ ∃ g, G !! x = Some g ∧
      g_lvl g' = g_lvl g ∧ g_lo g' = g_lo g ∧ g_hi g' = g_hi g ∧ (x ≠ c → g' = g)) as Hbwd.
    { intros x g' Hx. rewrite Hlk in Hx. destruct (decide (x = c)) as [->|].
      - split; [done|]. exists gc. injection Hx as <-. done.
      - destruct (decide (x = root)); [done|]. split; [done|]. by exists g'. }
    assert (∀ x g, G !! x = Some g → x ≠ root → ∃ g', G' !! x = Some g' ∧
      g_lvl g' = g_lvl g ∧ g_lo g' = g_lo g ∧ g_hi g' = g_hi g ∧
      g_kids g' = g_kids g ∧ (x ≠ c → g' = g)) as Hfwd.
    { intros x g Hx Hxr. rewrite Hlk. destruct (decide (x = c)) as [->|].
      - assert (g = gc) as -> by congruence. eexists. split; [done|]. by rewrite g_kids_set.
      - rewrite decide_False by done. by exists g. }
    (* below the root only the child has no parent left *)
    assert (∀ x g, G !! x = Some g → x ≠ root → x ≠ c → g_parent g ≠ root) as Hpar.
    { intros x g Hx Hxr Hxc Hpx. destruct (wf_parent Hwf _ _ Hx Hxr) as (gy & ky & Hy & Hky & _).
      rewrite Hpx in Hy. assert (gy = gr) as -> by congruence.
      unfold g_kids in Hky. rewrite Hi, Hk in Hky. apply list_elem_of_singleton in Hky.
      congruence. }
    split.
    + rewrite Hlk, decide_True by done. eauto.
    + intros x g' (_ & g & Hg & _ & -> & -> & _)%Hbwd. by eapply (wf_range _ _ Hwf).
    + intros x g' (_ & g & Hg & _)%Hbwd. by eapply (wf_num _ _ Hwf).
    + intros x g' r (Hxr & g & Hg & -> & _)%Hbwd (_ & r0 & Hr0' & -> & _)%Hbwd Hxc.
      assert (r0 = gc) as -> by congruence.
      pose proof (wf_lvl _ _ Hwf _ _ _ Hg Hr Hxr).
      assert (g_lvl g ≠ g_lvl gc) as Hne; [|lia]. intros Heq. apply Hxc.
      pose proof (wf_range _ _ Hwf _ _ Hg) as Hrg. rewrite <-Hlo, <-Hhi in *.
      apply (wf_range_unique Hwf x c g gc (g_lo g)); try done.
      * by apply in_range_lo.
      * rewrite Hlo, Hhi. split; [apply bcmp_MInf_l|].
        apply (cmp_lt_le_trans bcmp _ (g_hi g)); [done|apply bcmp_PInf_r].
    + intros x g' Hx. destruct (decide (x = c)) as [->|Hxc].
      * left. rewrite Hlk, decide_True in Hx by done. injection Hx as <-.
        rewrite g_parent_set. simpl. split_and!; congruence.
      * destruct (Hbwd _ _ Hx) as (Hxr & g & Hg & _ & _ & _ & Heq). rewrite (Heq Hxc) in *.
        right. split; [done|].
        destruct (wf_parent Hwf _ _ Hg Hxr) as (gy & ky & Hy & Hky & _).
        destruct (Hfwd _ _ Hy (Hpar _ _ Hg Hxr Hxc)) as (gy' & ? & _ & _ & _ & Hkk & _).
        exists gy', ky. by rewrite Hkk.
    + intros x g' Hx. destruct (Hbwd _ _ Hx) as (Hxr & g & Hg & _ & _ & _ & Heq).
      assert (node_ok G' x g) as Hok.
      { eapply node_ok_transfer; [by eapply (wf_node _ _ Hwf)|..].
        - intros gn Hgn _ _ Hln.
          assert (g_next g ≠ root) as Hnr.
          { intros Hnr. rewrite Hnr in Hgn. assert (gn = gr) by congruence. subst. lia. }
          destruct (Hfwd _ _ Hgn Hnr) as (gn' & ? & ? & ? & _). eauto.
        - intros kx y gy Hy Hgy Hpy.
          assert (y ≠ root) as Hyr by exact (wf_child_not_root Hwf _ _ _ _ Hg Hy).
          assert (y ≠ c) as Hyc by (intros ->; assert (gy = gc) by congruence; congruence).
          destruct (Hfwd _ _ Hgy Hyr) as (gy' & ? & ? & ? & ? & _ & Heq').
          exists gy'. rewrite (Heq' Hyc) in *. done. }
      destruct (decide (x = c)) as [->|Hxc]; [|by rewrite (Heq Hxc)].
      rewrite Hlk, decide_True in Hx by done. injection Hx as <-.
      assert (g = gc) as -> by congruence. by apply node_ok_set_parent.
  - intros e. split.
    + intros (x & g & Hx & He). exists x. rewrite Hlk.
      destruct (decide (x = c)) as [->|].
      { eexists. split; [done|]. rewrite g_entries_set. by assert (gc = g) as -> by congruence. }
      rewrite decide_False; [eauto|]. intros ->. assert (g = gr) as -> by congruence.
      unfold g_entries in He. rewrite Hi in He. by apply not_elem_of_nil in He.
    + intros (x & g' & Hx & He). exists x. rewrite Hlk in Hx.
      destruct (decide (x = c)) as [->|].
      { exists gc. injection Hx as <-. by rewrite g_entries_set in He. }
      destruct (decide (x = root)); [done|eauto].
Qed.

(** The entries after a leaf got another array, and after a new root. *)
Lemma entries_update_leaf root G p g l (arr : list (K * RID.t)) e :
  wf root G → G !! p = Some g → g_node g = LeafPage l →
  entries (<[p := GN (g_lo g) (g_hi g) (g_lvl g)
                     (LeafPage (LeafIndexNodeHandler.set_array l arr))]> G) e ↔
  e ∈ arr ∨ (entries G e ∧ ¬ in_range (g_lo g) (g_hi g) (Fin e.1)).
Proof.
  intros Hwf Hp Hl.
  assert (g_lvl g = 0%nat) as Hlvl by (eapply wf_leaf_lvl; eauto).
  assert (∀ x gx, G !! x = Some gx → e ∈ g_entries gx →
    g_lvl gx = 0%nat ∧ in_range (g_lo gx) (g_hi gx) (Fin e.1)) as Hent.
  { intros x gx Hx He. pose proof (wf_node _ _ Hwf _ _ Hx) as Hnode.
    unfold node_ok, g_entries in *. destruct (g_node gx) as [lx|ix];
      [|by apply not_elem_of_nil in He].
    destruct Hnode as (? & _ & Hr & _). rewrite Forall_forall in Hr. auto. }
  split.
  - intros (x & gx & Hx & He). destruct (decide (x = p)) as [->|Hne].
    + rewrite lookup_insert_eq in Hx. injection Hx as <-. by left.
    + rewrite lookup_insert_ne in Hx by done. right. split; [by exists x, gx|].
      destruct (Hent _ _ Hx He) as [Hlx Hrx]. intros Hr. apply Hne.
      by eapply (wf_range_unique Hwf x p gx g (Fin e.1)); [..|congruence| |].
  - intros [He|[(x & gx & Hx & He) Hnr]].
    + exists p. eexists. by rewrite lookup_insert_eq.
    + exists x, gx. rewrite lookup_insert_ne; [done|]. intros <-.
      assert (gx = g) as -> by congruence. by destruct (Hent _ _ Hx He).
Qed.

Lemma entries_grow root G r gr z lvl e :
  G !! root = Some gr → G !! r = None →
  entries G e ↔
  entries (<[r := GN MInf PInf lvl
                   (InternalPage (InternalNode BP_INVALID_PAGE_NUM [(z, root)]))]>
            (<[root := g_set_parent r gr]> G)) e.
Proof.
  intros Hr Hf. assert (r ≠ root) by congruence. split.
  - intros (x & g & Hx & He). assert (x ≠ r) by congruence.
    destruct (decide (x = root)) as [->|].
    + exists root. eexists. rewrite lookup_insert_ne, lookup_insert_eq by done.
      split; [done|]. rewrite g_entries_set. congruence.
    + exists x, g. by rewrite !lookup_insert_ne by done.
  - intros (x & g & Hx & He). destruct (decide (x = r)) as [->|].
    { rewrite lookup_insert_eq in Hx. injection Hx as <-. by apply not_elem_of_nil in He. }
    rewrite lookup_insert_ne in Hx by done. destruct (decide (x = root)) as [->|].
    + rewrite lookup_insert_eq in Hx. injection Hx as <-. rewrite g_entries_set in He.
      by exists root, gr.
    + rewrite lookup_insert_ne in Hx by done. by exists x, g.
Qed.
End edit.
