(* ===== verification/BplusState.v ===== *)
(** * Runs of the B+ tree operations

    The part of the handler's state the tree depends on is its [view]: the header,
    the allocation state, the pages and the pages waiting to be disposed of.  The
    lemmas here say what the small operations of [BplusTree.v] do to the view; the
    frames marked dirty and the latches held are left unconstrained.  [shows] relates
    a view to an annotated tree of [BplusInv.v]. *)
From S2P Require Import Prelude LowerBound RidKey LatchMemo BplusNode BplusTree BplusInv BplusShape.
From S2P Require Import BplusEdit.
From Stdlib Require Import ZArith Lia.
From stdpp Require Import base option gmap sorting list.
Local Open Scope Z_scope.

Section state.
Context {K P : Type} `{!IndexKey K} `{!PagePool P}.
Abbreviation state := (state K P).
Abbreviation page_map := (gmap PageNum (IndexNode K)).
Implicit Types (s : state) (h : IndexFileHeader) (po : P) (pg : page_map)
  (ds : list PageNum) (p q : PageNum).

Definition view s : IndexFileHeader * P * page_map * list PageNum :=
  (file_header s, pool s, pages s, disposed_pages_ (memo s)).

(** The pool still has [n] pages to give. *)
Fixpoint pool_can (n : nat) po : Prop :=
  match n with
  | O => True
  | S n => match pool_allocate po with
           | (inr _, po') => pool_can n po'
           | (inl _, _) => False
           end
  end.

Lemma pool_can_le n m po : (n <= m)%nat → pool_can m po → pool_can n po.
Proof.
  revert n po. induction m as [|m IH]; intros [|n] po Hle; simpl; try done; [lia|].
  destruct (pool_allocate po) as [[rc|p] po']; [done|]. apply IH. lia.
Qed.

Lemma pool_can_S n po :
  pool_can (S n) po → ∃ p po', pool_allocate po = (inr p, po') ∧ pool_can n po'.
Proof. simpl. destruct (pool_allocate po) as [[rc|p] po']; [done|]. eauto. Qed.

Lemma view_header s h po pg ds : view s = (h, po, pg, ds) → file_header s = h.
Proof. by intros [= <- _ _ _]. Qed.
Lemma view_pages s h po pg ds : view s = (h, po, pg, ds) → pages s = pg.
Proof. by intros [= _ _ <- _]. Qed.

Section prim.
Context {s : state} {h po pg ds} (V : view s = (h, po, pg, ds)).

Lemma wp_get_this_page p n (Q : RC.t + PageNum → state → Prop) :
  pg !! p = Some n → (∀ s', view s' = view s → Q (inr p) s') → wp (get_this_page p) s Q.
Proof.
  intros Hp HQ. injection V as _ _ Hpg _. exists (inr p), s.
  split; [|by apply HQ]. unfold get_this_page, mbind, ST_bind, st_get. by rewrite Hpg, Hp.
Qed.
Lemma wp_read_node p n (Q : IndexNode K → state → Prop) :
  pg !! p = Some n → Q n s → wp (read_node p) s Q.
Proof.
  intros Hp HQ. injection V as _ _ Hpg _. exists n, s. split; [|done].
  unfold read_node, mbind, ST_bind, st_get. by rewrite Hpg, Hp.
Qed.
Lemma wp_read_leaf p l (Q : LeafIndexNode K → state → Prop) :
  pg !! p = Some (LeafPage l) → Q l s → wp (read_leaf p) s Q.
Proof. intros Hp HQ. apply wp_bind. eapply wp_read_node; [exact Hp|]. by apply wp_ret. Qed.
Lemma wp_read_internal p i (Q : InternalIndexNode K → state → Prop) :
  pg !! p = Some (InternalPage i) → Q i s → wp (read_internal p) s Q.
Proof. intros Hp HQ. apply wp_bind. eapply wp_read_node; [exact Hp|]. by apply wp_ret. Qed.
Lemma wp_write_node p n (Q : () → state → Prop) :
  (∀ s', view s' = (h, po, <[p := n]> pg, ds) → Q () s') → wp (write_node p n) s Q.
Proof.
  intros HQ. injection V as Hh Hpo Hpg Hds. apply wp_modify, HQ.
  unfold view. simpl. by rewrite Hpg, Hh, Hpo, Hds.
Qed.
Lemma wp_mark_dirty p (Q : () → state → Prop) :
  (∀ s', view s' = view s → Q () s') → wp (mark_dirty p) s Q.
Proof. intros HQ. by apply wp_modify, HQ. Qed.
Lemma wp_set_parent p parent n (Q : () → state → Prop) :
  pg !! p = Some n →
  (∀ s', view s' =
     (h, po, <[p := IndexNodeHandler.set_parent_page_num parent n]> pg, ds) → Q () s') →
  wp (set_parent_page_num p parent) s Q.
Proof. intros Hp HQ. apply wp_bind. eapply wp_read_node; [done|]. by apply wp_write_node. Qed.
Lemma wp_latch p t (Q : () → state → Prop) :
  (∀ s', view s' = view s → Q () s') → wp (latch p t) s Q.
Proof. intros HQ. by apply wp_modify, HQ. Qed.
Lemma wp_memo_get_page p n (Q : RC.t + PageNum → state → Prop) :
  pg !! p = Some n → (∀ s', view s' = view s → Q (inr p) s') → wp (memo_get_page p) s Q.
Proof.
  intros Hp HQ. apply wp_bind. eapply wp_get_this_page; [done|]. intros s' V'.
  apply wp_bind, wp_modify, wp_ret, HQ. by rewrite <-V'.
Qed.
Lemma wp_dispose_page p (Q : () → state → Prop) :
  (∀ s', view s' = (h, po, pg, ds ++ [p]) → Q () s') → wp (dispose_page p) s Q.
Proof.
  intros HQ. injection V as Hh Hpo Hpg Hds. apply wp_modify, HQ.
  unfold view. simpl. by rewrite Hpg, Hh, Hpo, Hds.
Qed.
Lemma wp_update_root p (Q : () → state → Prop) :
  (∀ s', view s' = (FileHeader p (internal_max_size h) (leaf_max_size h) (unique h),
                    po, pg, ds) → Q () s') →
  wp (update_root_page_num_locked p) s Q.
Proof.
  intros HQ. injection V as Hh Hpo Hpg Hds. apply wp_modify, HQ.
  unfold view. simpl. by rewrite Hpg, Hh, Hpo, Hds.
Qed.
Lemma wp_allocate p po' (Q : RC.t + PageNum → state → Prop) :
  pool_allocate po = (inr p, po') →
  (∀ s', view s' = (h, po', pg, ds) → Q (inr p) s') → wp allocate_page s Q.
Proof.
  intros Hal HQ. injection V as Hh Hpo Hpg Hds. apply wp_bind, wp_get.
  rewrite Hpo, Hal. apply wp_bind, wp_modify, wp_ret, HQ.
  unfold view. simpl. by rewrite Hpg, Hh, Hds.
Qed.
End prim.

Lemma wp_memo_allocate {s h po pg ds} (V : view s = (h, po, pg, ds)) p po'
    (Q : RC.t + PageNum → state → Prop) :
  pool_allocate po = (inr p, po') →
  (∀ s', view s' = (h, po', pg, ds) → Q (inr p) s') → wp memo_allocate_page s Q.
Proof.
  intros Hal HQ. apply wp_bind. eapply (wp_allocate V); [done|]. intros s' V'.
  apply wp_bind, wp_modify, wp_ret, HQ. by rewrite <-V'.
Qed.

(** ** The scope of a latch memo *)
Definition dispose_all po ds : P := foldl (flip pool_dispose) po ds.
Definition delete_all pg ds : page_map := foldl (flip delete) pg ds.

Lemma view_dispose_pages s ds :
  view (foldl (flip pool_dispose_page) s ds) =
  (file_header s, dispose_all (pool s) ds, delete_all (pages s) ds, disposed_pages_ (memo s)).
Proof. revert s. induction ds as [|p ds IH]; intros s; [done|]. simpl. by rewrite IH. Qed.

Lemma wp_release s h po pg ds (Q : () → state → Prop) :
  view s = (h, po, pg, ds) →
  (∀ s', view s' = (h, dispose_all po ds, delete_all pg ds, []) → Q () s') →
  wp release s Q.
Proof.
  intros V HQ. injection V as Hh Hpo Hpg Hds. unfold release.
  apply wp_bind, wp_get, wp_bind. eapply wp_some; [apply memo_release_all|].
  apply wp_modify, HQ. rewrite view_dispose_pages. simpl. by rewrite Hh, Hpo, Hpg, Hds.
Qed.

Lemma wp_with_latch_memo {A} (body : ST state A) s h po pg ds (Q : A → state → Prop) :
  view s = (h, po, pg, ds) →
  (∀ s', view s' = (h, po, pg, []) → items_ (memo s') = [] → wp body s' (λ r s'',
     ∀ s''', view s''' = (file_header s'', dispose_all (pool s'') (disposed_pages_ (memo s'')),
               delete_all (pages s'') (disposed_pages_ (memo s'')), []) → Q r s''')) →
  wp (with_latch_memo body) s Q.
Proof.
  intros V HQ. unfold with_latch_memo. apply wp_bind, wp_modify, wp_bind.
  eapply wp_mono; [apply HQ|].
  - injection V as <- <- <- _. done.
  - done.
  - intros r s'' Hr. apply wp_bind. eapply (wp_release s''); [done|].
    intros s3 V3. by apply wp_ret, Hr.
Qed.
End state.

(** Steps a run: every primitive is replaced by its effect on the view. *)
Ltac wp_fresh :=
  let s' := fresh "s" in let V' := fresh "V" in
  intros s' V';
  lazymatch goal with
  | V : view ?s = ?v, V' : view _ = view ?s |- _ =>
      rewrite V in V'; clear V; try clear s
  | V : view ?s = ?v, V' : view ?s' = (_, _, _, _) |- _ =>
      lazymatch s with s' => idtac | _ => clear V; try clear s end
  end;
  rename V' into V.
Ltac wp_simpl := cbn beta iota; try change (RC.succ RC.SUCCESS) with true; cbn beta iota.
Ltac wp_step :=
  wp_simpl;
  lazymatch goal with
  | |- wp (mbind _ _) _ _ => apply wp_bind
  | |- wp (mret _) _ _ => apply wp_ret
  | |- wp st_get _ _ => apply wp_get
  | |- wp (st_some _) _ _ => eapply wp_some
  | |- wp (st_assert _) _ _ => apply wp_assert
  | V : view ?s = _ |- wp (get_this_page _) ?s _ => eapply (wp_get_this_page V); [|wp_fresh]
  | V : view ?s = _ |- wp (read_node _) ?s _ => eapply (wp_read_node V)
  | V : view ?s = _ |- wp (read_leaf _) ?s _ => eapply (wp_read_leaf V)
  | V : view ?s = _ |- wp (read_internal _) ?s _ => eapply (wp_read_internal V)
  | V : view ?s = _ |- wp (write_node _ _) ?s _ => apply (wp_write_node V); wp_fresh
  | V : view ?s = _ |- wp (write_leaf _ _) ?s _ => apply (wp_write_node V); wp_fresh
  | V : view ?s = _ |- wp (write_internal _ _) ?s _ => apply (wp_write_node V); wp_fresh
  | V : view ?s = _ |- wp (mark_dirty _) ?s _ => apply wp_mark_dirty; wp_fresh
  | V : view ?s = _ |- wp (set_parent_page_num _ _) ?s _ =>
      eapply (wp_set_parent V); [|wp_fresh]
  | V : view ?s = _ |- wp (latch _ _) ?s _ => apply wp_latch; wp_fresh
  | V : view ?s = _ |- wp (xlatch _) ?s _ => apply wp_latch; wp_fresh
  | V : view ?s = _ |- wp (memo_get_page _) ?s _ => eapply (wp_memo_get_page V); [|wp_fresh]
  | V : view ?s = _ |- wp (dispose_page _) ?s _ => apply (wp_dispose_page V); wp_fresh
  | V : view ?s = _ |- wp (update_root_page_num_locked _) ?s _ =>
      apply (wp_update_root V); wp_fresh
  end;
  wp_simpl.
Ltac lk := repeat (rewrite lookup_insert_eq || rewrite lookup_insert_ne by done); done.

(** * Runs of the moves between nodes

    What [set_parents], [copy_from], the moves and [split] of [BplusTree.v] do to the
    view of a state. *)
Section moves.
Context {K P : Type} `{!IndexKey K} `{!PagePool P}.
Abbreviation state := (state K P).
Abbreviation page_map := (gmap PageNum (IndexNode K)).
Implicit Types (s : state) (h : IndexFileHeader) (po : P) (pg : page_map)
  (ds : list PageNum) (p q : PageNum) (n : IndexNode K) (l : LeafIndexNode K)
  (i : InternalIndexNode K) (items : list (K * PageNum)).

Lemma set_parent_twice p q n :
  IndexNodeHandler.set_parent_page_num p (IndexNodeHandler.set_parent_page_num q n) =
  IndexNodeHandler.set_parent_page_num p n.
Proof. by destruct n. Qed.

(** The pages after the children [items] got the parent [p]. *)
Definition page_reparent p items pg : page_map :=
  foldr (λ kc, alter (IndexNodeHandler.set_parent_page_num p) kc.2) pg items.

Lemma lookup_page_reparent p items pg x :
  page_reparent p items pg !! x =
    if decide (x ∈ items.*2) then IndexNodeHandler.set_parent_page_num p <$> pg !! x
    else pg !! x.
Proof.
  induction items as [|[k c] items IH].
  { destruct (decide _) as [Hin|]; [by apply not_elem_of_nil in Hin|done]. }
  unfold page_reparent in *. rewrite fmap_cons. simpl.
  destruct (decide (c = x)) as [->|Hne].
  - rewrite lookup_alter_eq, IH.
    destruct (decide (x ∈ items.*2)); destruct (decide (x ∈ x :: items.*2)) as [Hin|Hin];
      rewrite elem_of_cons in Hin; try (exfalso; tauto).
    + destruct (pg !! x); simpl; [|done]. by rewrite set_parent_twice.
    + done.
  - rewrite lookup_alter_ne by done. rewrite IH.
    destruct (decide (x ∈ items.*2)); destruct (decide (x ∈ c :: items.*2)) as [Hin|Hin];
      rewrite elem_of_cons in Hin; try done; exfalso; naive_solver.
Qed.

Lemma lookup_page_reparent_ne p items pg x :
  x ∉ items.*2 → page_reparent p items pg !! x = pg !! x.
Proof. intros. by rewrite lookup_page_reparent, decide_False by done. Qed.

Lemma page_reparent_head p k c n items pg :
  pg !! c = Some n →
  page_reparent p items (<[c := IndexNodeHandler.set_parent_page_num p n]> pg) =
  page_reparent p ((k, c) :: items) pg.
Proof.
  intros Hc. apply map_eq. intros x. rewrite !lookup_page_reparent, fmap_cons. simpl.
  destruct (decide (x = c)) as [->|].
  - rewrite lookup_insert_eq, Hc. simpl. rewrite set_parent_twice.
    rewrite (decide_True (P := c ∈ c :: _)) by left. by case_decide.
  - rewrite lookup_insert_ne by done.
    destruct (decide (x ∈ items.*2)) as [|Hn].
    + by rewrite decide_True by (by right).
    + rewrite decide_False; [done|]. rewrite elem_of_cons. tauto.
Qed.

(** The children to move are readable and are not the pages being edited. *)
Definition movable items pg : Prop := Forall (λ kc, is_Some (pg !! kc.2)) items.

Lemma movable_insert p n items pg : movable items pg → movable items (<[p := n]> pg).
Proof.
  intros Hall. eapply Forall_impl; [exact Hall|]. intros [k c] [m Hm]. simpl in *.
  destruct (decide (p = c)) as [->|]; [rewrite lookup_insert_eq; eauto|].
  rewrite lookup_insert_ne by done. eauto.
Qed.

Lemma wp_set_parents this items s h po pg ds (Q : RC.t → state → Prop) :
  view s = (h, po, pg, ds) → movable items pg →
  (∀ s', view s' = (h, po, page_reparent this items pg, ds) → Q RC.SUCCESS s') →
  wp (set_parents this items) s Q.
Proof.
  revert s pg. induction items as [|[k c] items IH]; intros s pg V Hm HQ; simpl.
  { by apply wp_ret, HQ. }
  inversion_clear Hm as [|?? [n Hn] Hm']. simpl in Hn.
  wp_step. wp_step; [done|]. wp_step. wp_step; [done|]. wp_step. wp_step.
  apply (IH _ _ V); [by apply movable_insert|].
  rewrite (page_reparent_head this k) by done. done.
Qed.

Lemma wp_copy_from this items i s h po pg ds (Q : RC.t → state → Prop) :
  view s = (h, po, pg, ds) → movable items pg →
  pg !! this = Some (InternalPage i) → this ∉ items.*2 →
  (∀ s', view s' = (h, po,
     <[this := InternalPage (InternalIndexNodeHandler.set_array i (internal_array i ++ items))]>
       (page_reparent this items pg), ds) → Q RC.SUCCESS s') →
  wp (copy_from this items) s Q.
Proof.
  intros V Hm Hthis Hni HQ. unfold copy_from. wp_step.
  apply (wp_set_parents _ _ _ _ _ _ _ _ V); [done|]. wp_fresh.
  wp_step. wp_step; [by rewrite lookup_page_reparent_ne|]. wp_step. wp_step. wp_step.
  by apply HQ.
Qed.

(** ** Splitting a node: the right half goes to a new page *)
Lemma wp_split_leaf a b l po' s h po pg ds (Q : RC.t + PageNum → state → Prop) :
  view s = (h, po, pg, ds) → pool_allocate po = (inr b, po') →
  pg !! a = Some (LeafPage l) → a ≠ b →
  (∀ s' pg', view s' = (h, po', pg', ds) →
    (∀ x, pg' !! x =
       if decide (x = b) then
         Some (LeafPage (LeafNode (leaf_parent l) BP_INVALID_PAGE_NUM
           (drop (length (leaf_array l) / 2) (leaf_array l))))
       else if decide (x = a) then
         Some (LeafPage (LeafIndexNodeHandler.set_array l
           (take (length (leaf_array l) / 2) (leaf_array l))))
       else pg !! x) →
    Q (inr b) s') →
  wp (BplusTree.split HLeaf a) s Q.
Proof.
  intros V Hal Ha Hab HQ. unfold BplusTree.split. wp_step.
  apply (wp_memo_allocate V _ _ _ Hal). wp_fresh. wp_step. wp_step. wp_step.
  unfold init_empty. wp_step. wp_step. wp_step; [lk|]. wp_step. wp_step; [lk|].
  simpl move_half_to. unfold leaf_pair. wp_step.
  do 2 (wp_step; wp_step; [rewrite ?lookup_insert_ne by done; lk|]).
  wp_step. wp_step; [done|]. repeat wp_step. eapply HQ; [exact V|].
  intros x. rewrite !lookup_insert. repeat case_decide; simplify_eq; done.
Qed.

Lemma wp_split_internal a b i po' s h po pg ds (Q : RC.t + PageNum → state → Prop) :
  let half := (length (internal_array i) / 2)%nat in
  view s = (h, po, pg, ds) → pool_allocate po = (inr b, po') →
  pg !! a = Some (InternalPage i) → a ≠ b →
  movable (internal_array i) pg → a ∉ (internal_array i).*2 → b ∉ (internal_array i).*2 →
  (∀ s' pg', view s' = (h, po', pg', ds) →
    (∀ x, pg' !! x =
       if decide (x = b) then
         Some (InternalPage (InternalNode (internal_parent i) (drop half (internal_array i))))
       else if decide (x = a) then
         Some (InternalPage (InternalIndexNodeHandler.set_array i (take half (internal_array i))))
       else if decide (x ∈ (drop half (internal_array i)).*2)
       then IndexNodeHandler.set_parent_page_num b <$> pg !! x
       else pg !! x) →
    Q (inr b) s') →
  wp (BplusTree.split HInternal a) s Q.
Proof.
  intros half V Hal Ha Hab Hm Hna Hnb HQ. unfold BplusTree.split. wp_step.
  apply (wp_memo_allocate V _ _ _ Hal). wp_fresh. wp_step. wp_step. wp_step.
  unfold init_empty. wp_step. wp_step. wp_step; [lk|]. wp_step. wp_step; [lk|].
  simpl move_half_to. unfold internal_move_half_to. wp_step. wp_step. wp_step; [lk|]. wp_step.
  assert (∀ x, x ∉ (internal_array i).*2 → x ∉ (drop half (internal_array i)).*2) as Hdrop.
  { intros x Hx Hin. apply Hx. rewrite fmap_drop in Hin. by eapply subseteq_drop. }
  eapply (wp_copy_from _ _ _ _ _ _ _ _ _ V); [|lk|by apply Hdrop|].
  { do 2 apply movable_insert. by apply Forall_drop. }
  wp_fresh. unfold update_internal_array. wp_step. wp_step.
  wp_step; [rewrite lookup_insert_ne, lookup_page_reparent_ne by auto; lk|].
  repeat wp_step. eapply HQ; [exact V|].
  intros x. rewrite !lookup_insert. change (InternalIndexNodeHandler.size i / 2)%nat with half.
  rewrite lookup_page_reparent, !lookup_insert.
  repeat case_decide; simplify_eq; try done; exfalso; eapply Hdrop; eauto.
Qed.
End moves.

(** * Descending a B+ tree

    [find_leaf] ends at the leaf whose range holds the key, after as many steps as
    the tree has levels, and the latches it still holds are those the crabbing
    protocol promises ([crabbed]): the leaf, and every ancestor from which a split or
    a merge of the leaf could not be absorbed below. *)
Section find.
Context {K P : Type} `{!IndexKey K} `{!PagePool P}.
Abbreviation state := (state K P).
Abbreviation page_map := (gmap PageNum (IndexNode K)).
Implicit Types (s : state) (h : IndexFileHeader) (po : P) (pg : page_map)
  (ds : list PageNum) (p q root : PageNum) (G : gmap PageNum (gnode K)) (m : LatchMemo)
  (op : BplusTreeOperationType).

(** The pages of the pool hold the tree. *)
Definition shows pg G : Prop := ∀ p g, G !! p = Some g → pg !! p = Some (g_node g).

Definition op_latch op : LatchMemoType := if decide (op = READ) then SHARED else EXCLUSIVE.

(** A page is latched, and so are its ancestors up to one that is safe for the
    operation, or up to the root and the lock of the root page number. *)
Inductive crabbed h G root op m : PageNum → Prop :=
| crabbed_safe p g :
    G !! p = Some g → holds (op_latch op) p m →
    IndexNodeHandler.is_safe h (g_node g) op (bool_decide (p = root)) = true →
    crabbed h G root op m p
| crabbed_root :
    holds (op_latch op) root m → LatchItem (op_latch op) OnLock ∈ items_ m →
    crabbed h G root op m root
| crabbed_up p g :
    G !! p = Some g → p ≠ root → holds (op_latch op) p m →
    crabbed h G root op m (g_parent g) → crabbed h G root op m p.

Lemma crabbed_mono h G root op m m' p :
  (∀ i, i ∈ items_ m → i ∈ items_ m') → crabbed h G root op m p → crabbed h G root op m' p.
Proof.
  unfold holds. intros Hsub. induction 1.
  - eapply crabbed_safe; [done|unfold holds; auto|done].
  - apply crabbed_root; [unfold holds|]; auto.
  - eapply crabbed_up; [done|done|unfold holds; auto|done].
Qed.

Lemma wp_crabing s h po pg ds op p b n (Q : RC.t + PageNum → state → Prop) :
  view s = (h, po, pg, ds) → pg !! p = Some n →
  (∀ s', view s' = view s →
    items_ (memo s') =
      (if IndexNodeHandler.is_safe h n op b then [] else items_ (memo s)) ++
      [LatchItem PIN (OnFrame p); LatchItem (op_latch op) (OnFrame p)] →
    Q (inr p) s') →
  wp (crabing_protocal_fetch_page op p b) s Q.
Proof.
  intros V Hp HQ. destruct s as [h0 hd po0 pg0 d [it dp]].
  injection V as -> -> -> ->.
  unfold crabing_protocal_fetch_page, memo_get_page, get_this_page, read_node, wp.
  unfold mbind, ST_bind, st_get. cbn [pages set_memo memo file_header pool header_dirty dirty].
  rewrite Hp. simpl.
  unfold op_latch in HQ. rewrite Hp. unfold st_some.
  assert (∀ A (x y : A), (if bool_decide (op = READ) then x else y) =
    (if decide (op = READ) then x else y)) as Hif by (intros; by case_decide; case_bool_decide).
  rewrite Hif.
  destruct (IndexNodeHandler.is_safe h n op b) eqn:Hs; simpl.
  - unfold release_to, mbind, ST_bind, st_get, memo_point, memo_release_to, st_some. simpl.
    rewrite decide_True by (rewrite !length_app; lia). simpl.
    eexists _, _. split; [done|]. apply HQ; [done|]. simpl.
    by rewrite <-app_assoc, drop_app_length.
  - eexists _, _. split; [done|]. apply HQ; [done|]. simpl. by rewrite <-app_assoc.
Qed.

Lemma wp_find_internal_empty fuel op getter s h po pg ds (Q : RC.t + PageNum → state → Prop) :
  view s = (h, po, pg, ds) → root_page h = BP_INVALID_PAGE_NUM →
  (∀ s', view s' = (h, po, pg, ds) → Q (inl RC.EMPTY) s') →
  wp (find_leaf_internal fuel op getter) s Q.
Proof.
  intros V Hroot HQ. unfold find_leaf_internal. wp_step.
  set (s1 := set_memo (memo_push (LatchItem (op_latch op) OnLock)) s).
  assert (wp (if decide (op ≠ READ) then latch_root EXCLUSIVE else latch_root SHARED) s
    (λ _ s', s' = s1)) as Hlatch.
  { unfold s1, op_latch. destruct op; by apply wp_modify. }
  eapply wp_mono; [exact Hlatch|]. intros _ ? ->.
  assert (view s1 = (h, po, pg, ds)) as V1 by by rewrite <-V.
  do 2 wp_step. unfold is_empty. rewrite (view_header _ _ _ _ _ V1), Hroot.
  rewrite bool_decide_eq_true_2 by done. wp_step. by apply HQ.
Qed.
Lemma wp_find_leaf_empty fuel op key s h po pg ds (Q : RC.t + PageNum → state → Prop) :
  view s = (h, po, pg, ds) → root_page h = BP_INVALID_PAGE_NUM →
  (∀ s', view s' = (h, po, pg, ds) → Q (inl RC.EMPTY) s') →
  wp (find_leaf fuel op key) s Q.
Proof. apply wp_find_internal_empty. Qed.

Section descend.
Context {root : PageNum} {G : gmap PageNum (gnode K)} (Hwf : wf root G).

(** A getter that follows [b]: it selects the child whose range holds [b]. *)
Definition follows (getter : InternalIndexNode K → option PageNum) (b : bound K) : Prop :=
  ∀ p g n, G !! p = Some g → g_node g = InternalPage n → in_range (g_lo g) (g_hi g) b →
    ∃ k c gc, getter n = Some c ∧ (k, c) ∈ internal_array n ∧ G !! c = Some gc ∧
      in_range (g_lo gc) (g_hi gc) b.

Lemma follows_key key : follows (child_of_key key) (Fin key).
Proof.
  intros p g n Hp Hn Hr.
  destruct (internal_lookup_spec Hwf Hp Hn key Hr) as
    (i & k & c & gc & found & Hlook & Hi & Hgc & Hrc & _).
  exists k, c, gc. split_and!; [|by eapply list_elem_of_lookup_2|done|exact Hrc].
  unfold child_of_key. rewrite Hlook. simpl.
  unfold InternalIndexNodeHandler.value_at. by rewrite Hi.
Qed.
Lemma follows_first : follows (λ n, InternalIndexNodeHandler.value_at n 0) MInf.
Proof.
  intros p g n Hp Hn Hr. pose proof (internal_size_pos Hwf Hp Hn) as Hpos.
  destruct (lookup_lt_is_Some_2 (internal_array n) 0) as [[k c] Hi]; [done|].
  destruct (internal_child Hwf Hp Hn _ _ _ Hi) as (gc & Hgc & _ & _ & Hlo & _).
  rewrite decide_True in Hlo by done. exists k, c, gc.
  unfold InternalIndexNodeHandler.value_at. rewrite Hi.
  split_and!; [done|by eapply list_elem_of_lookup_2|done|]. split; [rewrite Hlo; apply Hr|].
  pose proof (wf_range _ _ Hwf _ _ Hgc) as Hlt. rewrite Hlo in Hlt.
  destruct Hr as [Hr _]. by destruct (g_lo g).
Qed.

Lemma wp_find_leaf_loop fuel op getter b p g s h po pg ds (Q : RC.t + PageNum → state → Prop) :
  follows getter b → view s = (h, po, pg, ds) → shows pg G →
  G !! p = Some g → (g_lvl g < fuel)%nat → in_range (g_lo g) (g_hi g) b →
  crabbed h G root op (memo s) p →
  (∀ s' a ga l, view s' = (h, po, pg, ds) → G !! a = Some ga → g_node ga = LeafPage l →
     in_range (g_lo ga) (g_hi ga) b → crabbed h G root op (memo s') a → Q (inr a) s') →
  wp (find_leaf_loop fuel op getter p) s Q.
Proof.
  intros Hget V Hsh Hp Hf Hr Hc HQ. revert s p g V Hp Hf Hr Hc.
  induction fuel as [|fuel IH]; intros s p g V Hp Hf Hr Hc; [lia|]. simpl.
  wp_step. wp_step; [by apply Hsh|].
  destruct (g_node g) as [l|n] eqn:Hn; [wp_step; by eapply HQ|].
  destruct (Hget _ _ _ Hp Hn Hr) as (k & c & gc & Hsel & Hk & Hgc & Hrc).
  assert ((k, c) ∈ g_kids g) as Hkid by (unfold g_kids; by rewrite Hn).
  destruct (wf_child Hwf p g k c Hp Hkid) as (gc' & Hgc' & Hlc & Hpc & _).
  assert (gc' = gc) as -> by congruence.
  wp_step. wp_step; [exact Hsel|].
  wp_step. eapply (wp_crabing _ _ _ _ _ _ _ _ _ _ V); [by apply Hsh|].
  intros s' V' Hitems. simpl. rewrite V in V'.
  eapply (IH s' c gc V' Hgc); [lia|done|].
  pose proof (wf_child_not_root Hwf p g k c Hp Hkid) as Hnr.
  assert (holds (op_latch op) c (memo s')) as Hh.
  { unfold holds. rewrite Hitems. apply elem_of_app. right. right. left. }
  destruct (IndexNodeHandler.is_safe h (g_node gc) op false) eqn:Hs.
  - eapply crabbed_safe; [done..|]. by rewrite bool_decide_eq_false_2.
  - eapply crabbed_up; [done..|]. rewrite Hpc. eapply crabbed_mono; [|exact Hc].
    intros it Hit. rewrite Hitems. apply elem_of_app. by left.
Qed.

Lemma wp_find_leaf_internal fuel op getter b gr s h po pg ds
    (Q : RC.t + PageNum → state → Prop) :
  follows getter b → in_range MInf PInf b →
  view s = (h, po, pg, ds) → shows pg G → root_page h = root →
  G !! root = Some gr → (g_lvl gr < fuel)%nat →
  (∀ s' a ga l, view s' = (h, po, pg, ds) → G !! a = Some ga → g_node ga = LeafPage l →
     in_range (g_lo ga) (g_hi ga) b → crabbed h G root op (memo s') a → Q (inr a) s') →
  wp (find_leaf_internal fuel op getter) s Q.
Proof.
  intros Hget Hb V Hsh Hroot Hr Hf HQ. unfold find_leaf_internal.
  destruct (wf_root_node Hwf) as (gr0 & Hr0 & _ & Hlo & Hhi).
  assert (gr0 = gr) as -> by congruence. wp_step.
  set (s1 := set_memo (memo_push (LatchItem (op_latch op) OnLock)) s).
  assert (wp (if decide (op ≠ READ) then latch_root EXCLUSIVE else latch_root SHARED) s
    (λ _ s', s' = s1)) as Hlatch.
  { unfold s1, op_latch. destruct op; by apply wp_modify. }
  eapply wp_mono; [exact Hlatch|]. intros _ ? ->. clear Hlatch.
  assert (view s1 = (h, po, pg, ds)) as V1 by by rewrite <-V.
  do 2 wp_step. unfold is_empty. rewrite (view_header _ _ _ _ _ V1), Hroot.
  rewrite bool_decide_eq_false_2.
  2:{ pose proof (wf_num _ _ Hwf _ _ Hr). unfold BP_INVALID_PAGE_NUM. lia. }
  wp_step. eapply (wp_crabing _ _ _ _ _ _ _ _ _ _ V1); [by apply Hsh|].
  intros s' V' Hitems. simpl. rewrite V1 in V'.
  eapply (wp_find_leaf_loop fuel op getter b root gr s' h po pg ds); try done.
  { by rewrite Hlo, Hhi. }
  assert (holds (op_latch op) root (memo s')) as Hh.
  { unfold holds. rewrite Hitems. apply elem_of_app. right. right. left. }
  destruct (IndexNodeHandler.is_safe h (g_node gr) op true) eqn:Hs.
  - eapply crabbed_safe; [done..|]. by rewrite bool_decide_eq_true_2.
  - apply crabbed_root; [done|]. rewrite Hitems. unfold s1. simpl.
    rewrite !elem_of_app. left. right. left.
Qed.

Lemma wp_find_leaf fuel op key gr s h po pg ds (Q : RC.t + PageNum → state → Prop) :
  view s = (h, po, pg, ds) → shows pg G → root_page h = root →
  G !! root = Some gr → (g_lvl gr < fuel)%nat →
  (∀ s' a ga l, view s' = (h, po, pg, ds) → G !! a = Some ga → g_node ga = LeafPage l →
     in_range (g_lo ga) (g_hi ga) (Fin key) → crabbed h G root op (memo s') a →
     Q (inr a) s') →
  wp (find_leaf fuel op key) s Q.
Proof. intros. eapply wp_find_leaf_internal; [apply follows_key|by split|done..]. Qed.

Lemma wp_left_most_page fuel gr s h po pg ds (Q : RC.t + PageNum → state → Prop) :
  view s = (h, po, pg, ds) → shows pg G → root_page h = root →
  G !! root = Some gr → (g_lvl gr < fuel)%nat →
  (∀ s' a ga l, view s' = (h, po, pg, ds) → G !! a = Some ga → g_node ga = LeafPage l →
     in_range (g_lo ga) (g_hi ga) MInf → crabbed h G root READ (memo s') a →
     Q (inr a) s') →
  wp (left_most_page fuel) s Q.
Proof. intros. eapply wp_find_leaf_internal; [apply follows_first|by split|done..]. Qed.
End descend.
End find.
