(* ===== verification/BplusInsert.v ===== *)
(** * Insertion into a B+ tree

    [insert_entry_into_parent] is entered in the middle of a split: the pages of the
    two halves are written and the parent does not know of the new page yet.
    [pending] describes that moment by the tree before the split (whose node [a] may
    be one item too long) and the position of the cut; one step of the recursion
    completes the [split_at] of [BplusEdit.v] and, when the parent was full, leaves
    the parent pending. *)
From S2P Require Import Prelude LowerBound RidKey LatchMemo BplusNode BplusTree BplusInv BplusShape.
From S2P Require Import BplusEdit BplusState.
From Stdlib Require Import ZArith Lia.
From stdpp Require Import base option gmap sorting list numbers list_numbers.
Local Open Scope Z_scope.

Section insert.
Context {K P : Type} `{!IndexKey K} `{!PagePool P}.
Abbreviation state := (state K P).
Abbreviation page_map := (gmap PageNum (IndexNode K)).
Implicit Types (s : state) (h : IndexFileHeader) (po : P) (pg : page_map)
  (ds : list PageNum) (p q r a b x root : PageNum) (G : gmap PageNum (gnode K))
  (g ga gq : gnode K) (k key : K) (node : IndexNode K).

(** ** Sizes *)

(** The bounds on the number of items of a page.  A split of a full node of odd
    capacity leaves a left half one item below [min_size], hence the rounding. *)
Definition sizes_ok h root p node : Prop :=
  (IndexNodeHandler.size node <= IndexNodeHandler.max_size h node)%nat ∧
  ((if decide (p = root) then if IndexNodeHandler.is_leaf node then 1 else 2
    else IndexNodeHandler.max_size h node / 2) <= IndexNodeHandler.size node)%nat.

(** The capacities the operations are correct for. *)
Definition limits h : Prop := (4 <= leaf_max_size h)%nat ∧ (6 <= internal_max_size h)%nat.

(** A non-empty tree in the state of a handler. *)
Record tree h po pg G root : Prop := {
  tree_root : root_page h = root;
  tree_wf : wf root G;
  tree_shows : shows pg G;
  tree_sized : sized (sizes_ok h root) G;
  tree_pool : ∀ p g, G !! p = Some g → p ∈ pool_pages po
}.

Definition new_root h root : IndexFileHeader :=
  FileHeader root (internal_max_size h) (leaf_max_size h) (unique h).

Lemma max_size_new_root h root node :
  IndexNodeHandler.max_size (new_root h root) node = IndexNodeHandler.max_size h node.
Proof. by destruct node. Qed.
Lemma new_root_same h : new_root h (root_page h) = h.
Proof. by destruct h. Qed.

(** ** Halves and parent fields *)
Section halves.
Context (n : nat) (b p : PageNum).
Abbreviation set_parent := (IndexNodeHandler.set_parent_page_num p).

Lemma left_half_set_parent node : left_half n b (set_parent node) = set_parent (left_half n b node).
Proof. by destruct node. Qed.
Lemma right_half_set_parent node : right_half n (set_parent node) = set_parent (right_half n node).
Proof. by destruct node. Qed.
Lemma node_kids_set_parent node : node_kids (set_parent node) = node_kids node.
Proof. by destruct node. Qed.
Lemma node_key_set_parent node m : node_key (set_parent node) m = node_key node m.
Proof. by destruct node. Qed.
Lemma size_set_parent node : IndexNodeHandler.size (set_parent node) = IndexNodeHandler.size node.
Proof. by destruct node. Qed.
Lemma max_size_set_parent h node :
  IndexNodeHandler.max_size h (set_parent node) = IndexNodeHandler.max_size h node.
Proof. by destruct node. Qed.
Lemma is_leaf_set_parent node :
  IndexNodeHandler.is_leaf (set_parent node) = IndexNodeHandler.is_leaf node.
Proof. by destruct node. Qed.
Lemma max_size_left_half h node :
  IndexNodeHandler.max_size h (left_half n b node) = IndexNodeHandler.max_size h node.
Proof. by destruct node. Qed.
Lemma max_size_right_half h node :
  IndexNodeHandler.max_size h (right_half n node) = IndexNodeHandler.max_size h node.
Proof. by destruct node. Qed.
Lemma size_left_half node : (n <= IndexNodeHandler.size node)%nat →
  IndexNodeHandler.size (left_half n b node) = n.
Proof. destruct node; simpl; intros; rewrite length_take; lia. Qed.
Lemma size_right_half node :
  IndexNodeHandler.size (right_half n node) = (IndexNodeHandler.size node - n)%nat.
Proof. destruct node; simpl; intros; by rewrite length_drop. Qed.
Lemma parent_left_half node :
  IndexNodeHandler.parent_page_num (left_half n b node) = IndexNodeHandler.parent_page_num node.
Proof. by destruct node. Qed.
Lemma node_key_lt node k : node_key node n = Some k → (n < IndexNodeHandler.size node)%nat.
Proof.
  destruct node as [l|i]; simpl.
  - destruct (leaf_array l !! n) eqn:Hl; [|done]. by apply lookup_lt_Some in Hl.
  - destruct (internal_array i !! n) eqn:Hl; [|done]. by apply lookup_lt_Some in Hl.
Qed.
End halves.

Lemma sizes_ok_set_parent h root p q node :
  sizes_ok h root p node → sizes_ok h root p (IndexNodeHandler.set_parent_page_num q node).
Proof. by destruct node. Qed.

(** ** A split whose parent is not updated yet *)
Record pending h pg G a b k (n : nat) ga : Prop := {
  pend_a : G !! a = Some ga;
  pend_b : G !! b = None;
  pend_b0 : 0 <= b;
  pend_n : (0 < n)%nat;
  pend_key : node_key (g_node ga) n = Some k;
  pend_pg_a : pg !! a = Some (left_half n b (g_node ga));
  pend_pg_b : ∃ pb, pg !! b =
    Some (IndexNodeHandler.set_parent_page_num pb (right_half n (g_node ga)));
  pend_pg : ∀ x g, G !! x = Some g → x ≠ a → pg !! x =
    Some (if decide (x ∈ (node_kids (right_half n (g_node ga))).*2)
          then IndexNodeHandler.set_parent_page_num b (g_node g) else g_node g);
  pend_left : (IndexNodeHandler.max_size h (g_node ga) / 2 <= n
    <= IndexNodeHandler.max_size h (g_node ga))%nat;
  pend_right : (IndexNodeHandler.max_size h (g_node ga) / 2
    <= IndexNodeHandler.size (g_node ga) - n
    <= IndexNodeHandler.max_size h (g_node ga))%nat
}.

(** Everything but the node being split has an allowed size. *)
Definition sized_but h root a G : Prop :=
  ∀ p g, G !! p = Some g → p ≠ a → sizes_ok h root p (g_node g).

(** The split is complete when the parent lists both halves. *)
Section finish.
Context {h : IndexFileHeader} {root : PageNum} {G : gmap PageNum (gnode K)}
  {a b q : PageNum} {k : K} {n : nat} {ga gq : gnode K} {nq : InternalIndexNode K}
  {l1 l2 : list (K * PageNum)} {ka : K}.
Context (Hwf : wf root G) (Ha : G !! a = Some ga) (Hb : G !! b = None) (Hb0 : 0 <= b)
  (Hn : (0 < n)%nat) (Hk : node_key (g_node ga) n = Some k)
  (Hq : G !! q = Some gq) (Hnq : g_node gq = InternalPage nq)
  (Hkq : internal_array nq = l1 ++ (ka, a) :: l2).

Let ks := l1 ++ (ka, a) :: (k, b) :: l2.
Let G' := split_at n a b k ga q gq nq ks G.

Lemma shows_split_at pg' :
  pg' !! b = Some (right_half n (g_node ga)) →
  pg' !! a = Some (left_half n b (g_node ga)) →
  pg' !! q = Some (InternalPage (InternalIndexNodeHandler.set_array nq ks)) →
  (∀ x g, G !! x = Some g → x ≠ a → x ≠ b → x ≠ q → pg' !! x =
    Some (if decide (x ∈ (node_kids (right_half n (g_node ga))).*2)
          then IndexNodeHandler.set_parent_page_num b (g_node g) else g_node g)) →
  shows pg' G'.
Proof.
  intros Hpb Hpa Hpq Hoth x g' Hx. unfold G', ks in Hx. rewrite lookup_split_at in Hx.
  destruct (decide (x = b)) as [->|]; [by injection Hx as <-|].
  destruct (decide (x = a)) as [->|]; [by injection Hx as <-|].
  destruct (decide (x = q)) as [->|]; [by injection Hx as <-|].
  case_decide as Hin.
  - destruct (G !! x) as [g|] eqn:Hg; [|done]. injection Hx as <-.
    rewrite (Hoth _ _ Hg) by done. by rewrite decide_True.
  - rewrite (Hoth _ _ Hx) by done. by rewrite decide_False.
Qed.

Lemma sized_split_at (Sz : PageNum → IndexNode K → Prop) :
  Sz b (right_half n (g_node ga)) → Sz a (left_half n b (g_node ga)) →
  Sz q (InternalPage (InternalIndexNodeHandler.set_array nq ks)) →
  (∀ x g, G !! x = Some g → x ≠ a → x ≠ b → x ≠ q → Sz x (g_node g) ∧
     Sz x (IndexNodeHandler.set_parent_page_num b (g_node g))) →
  sized Sz G'.
Proof.
  intros Hsb Hsa Hsq Hoth x g' Hx. unfold G', ks in Hx. rewrite lookup_split_at in Hx.
  destruct (decide (x = b)) as [->|]; [by injection Hx as <-|].
  destruct (decide (x = a)) as [->|]; [by injection Hx as <-|].
  destruct (decide (x = q)) as [->|]; [by injection Hx as <-|].
  case_decide as Hin.
  - destruct (G !! x) as [g|] eqn:Hg; [|done]. injection Hx as <-. by eapply Hoth.
  - by eapply Hoth.
Qed.

Lemma split_at_dom x g' :
  G' !! x = Some g' → x = b ∨ ∃ g, G !! x = Some g.
Proof.
  intros Hx. unfold G', ks in Hx. rewrite lookup_split_at in Hx.
  destruct (decide (x = b)) as [->|]; [by left|]. right.
  destruct (decide (x = a)) as [->|]; [eauto|].
  destruct (decide (x = q)) as [->|]; [eauto|].
  case_decide; destruct (G !! x); eauto.
Qed.

Lemma split_at_lvl x g :
  G !! x = Some g → ∃ g', G' !! x = Some g' ∧ g_lvl g' = g_lvl g.
Proof.
  intros Hx. unfold G', ks. rewrite lookup_split_at.
  destruct (decide (x = b)) as [->|]; [congruence|].
  destruct (decide (x = a)) as [->|].
  { eexists. split; [done|]. simpl. congruence. }
  destruct (decide (x = q)) as [->|].
  { eexists. split; [done|]. simpl. congruence. }
  rewrite Hx. case_decide; eexists; by split.
Qed.
End finish.

(** ** One step up *)
Section parent.
Context {h : IndexFileHeader} {po : P} {pg : page_map} {ds : list PageNum} {root : PageNum}
  {G : gmap PageNum (gnode K)} {a b : PageNum} {k : K} {n : nat} {ga : gnode K}.
Context (Hlim : limits h) (Hroot : root_page h = root) (Hwf : wf root G)
  (Hpend : pending h pg G a b k n ga) (Hsz : sized_but h root a G)
  (Hpool : ∀ p g, G !! p = Some g → p ∈ pool_pages po) (Hbpool : b ∈ pool_pages po).

(** What is promised when the insertion is over. *)
Definition insert_post (h : IndexFileHeader) (ds : list PageNum)
    (E : K * RID.t → Prop) (Q : RC.t → state → Prop) : Prop :=
  ∀ s' po' pg' G' root', view s' = (new_root h root', po', pg', ds) →
    tree (new_root h root') po' pg' G' root' →
    (∀ e, E e ↔ entries G' e) → Q RC.SUCCESS s'.

Lemma pending_ne x g : G !! x = Some g → x ≠ b.
Proof. intros Hx ->. rewrite (pend_b _ _ _ _ _ _ _ _ Hpend) in Hx. done. Qed.

Lemma pending_key_lt : (n < IndexNodeHandler.size (g_node ga))%nat.
Proof. apply node_key_lt with k, (pend_key _ _ _ _ _ _ _ _ Hpend). Qed.

(** The halves have allowed sizes when they are not the root. *)
Lemma pending_sizes x y root' p :
  x ≠ root' → y ≠ root' →
  sizes_ok h root' x (IndexNodeHandler.set_parent_page_num p (left_half n b (g_node ga))) ∧
  sizes_ok h root' y (IndexNodeHandler.set_parent_page_num p (right_half n (g_node ga))).
Proof.
  intros Hx Hy. pose proof pending_key_lt. pose proof (pend_left _ _ _ _ _ _ _ _ Hpend).
  pose proof (pend_right _ _ _ _ _ _ _ _ Hpend).
  unfold sizes_ok. rewrite !max_size_set_parent, !size_set_parent, max_size_left_half,
    max_size_right_half, size_left_half, size_right_half by lia.
  rewrite !decide_False by done. lia.
Qed.

Lemma wp_parent_root fuel s Q :
  view s = (h, po, pg, ds) → a = root → pool_can 1 po →
  insert_post h ds (entries G) Q →
  wp (insert_entry_into_parent (S fuel) a b k) s Q.
Proof.
  intros V Har Hcan HQ.
  pose proof Hpend as [Ha Hb Hb0 Hn Hk Hpa [pb Hpb] Hpg _ _].
  simpl in Hcan. destruct (pool_allocate po) as [[rc|r] po'] eqn:Hal; [done|].
  apply pool_allocate_ok in Hal as Hok. destruct Hok as (Hr0 & Hrp & Hrpool).
  assert (G !! r = None) as HrG.
  { destruct (G !! r) eqn:Hr; [|done]. by apply Hpool in Hr. }
  assert (r ≠ b) as Hrb by (intros ->; done).
  assert (r ≠ a) as Hra by congruence.
  assert (b ≠ a) as Hba by congruence.
  simpl. wp_step. wp_step; [exact Hpa|].
  assert (IndexNodeHandler.parent_page_num (left_half n b (g_node ga)) = BP_INVALID_PAGE_NUM)
    as ->.
  { rewrite parent_left_half. by apply (wf_parent_valid Hwf _ _ Ha). }
  rewrite decide_True by done.
  wp_step. apply (wp_allocate V _ _ _ Hal). wp_fresh. unfold init_empty.
  wp_step. wp_step. wp_step. wp_step; [lk|]. wp_step. wp_step; [done|].
  wp_step. wp_step. wp_step. wp_step; [lk|]. wp_step.
  wp_step; [rewrite !lookup_insert_ne by done; exact Hpb|].
  repeat wp_step.
  (* the tree with the new root, before and after the cut *)
  set (ga1 := g_set_parent r ga).
  set (i1 := InternalNode BP_INVALID_PAGE_NUM [(zero_key, a)]).
  set (g1 := GN MInf PInf (S (g_lvl ga)) (InternalPage i1)).
  set (G1 := <[r := g1]> (<[a := ga1]> G)).
  assert (wf r G1) as Hwf1 by (unfold G1, g1, i1, ga1; subst a; by apply wf_grow).
  assert (G1 !! a = Some ga1) as Ha1.
  { unfold G1. by rewrite lookup_insert_ne, lookup_insert_eq by done. }
  assert (G1 !! r = Some g1) as Hr1 by apply lookup_insert_eq.
  assert (G1 !! b = None) as Hb1 by (unfold G1; by rewrite !lookup_insert_ne by done).
  assert (node_key (g_node ga1) n = Some k) as Hk1 by (unfold ga1; simpl; by rewrite node_key_set_parent).
  assert (∀ x g, G1 !! x = Some g → x ≠ a → x ≠ r → G !! x = Some g) as HG1.
  { intros x g. unfold G1. intros Hx ??. by rewrite !lookup_insert_ne in Hx by done. }
  pose proof (split_at_spec (l1 := []) (l2 := []) Hwf1 Ha1 Hr1 Hb1 Hb0 eq_refl eq_refl
    Hn Hk1) as [Hwf2 Hent2].
  eapply (HQ _ _ _ _ r); [exact V| |].
  - split; [done|exact Hwf2| | |].
    + eapply shows_split_at.
      * rewrite lookup_insert_eq. unfold ga1. simpl.
        by rewrite right_half_set_parent, set_parent_twice.
      * rewrite lookup_insert_ne, lookup_insert_eq by done. unfold ga1. simpl.
        by rewrite left_half_set_parent.
      * rewrite !lookup_insert_ne, lookup_insert_eq by done. done.
      * intros x g Hx Hxa Hxb Hxr. rewrite !lookup_insert_ne by done.
        unfold ga1. simpl. rewrite right_half_set_parent, node_kids_set_parent.
        apply Hpg; auto.
    + pose proof (pending_sizes a b r r) as [Hsa Hsb]; [done..|].
      apply sized_split_at.
      * unfold ga1. simpl. by rewrite right_half_set_parent.
      * unfold ga1. simpl. by rewrite left_half_set_parent.
      * unfold sizes_ok. rewrite decide_True by done. rewrite max_size_new_root. unfold IndexNodeHandler.max_size. destruct Hlim. simpl. lia.
      * intros x g Hx Hxa Hxb Hxr.
        assert (sizes_ok (new_root h r) r x (g_node g)) as Hs; [|split; [done|]].
        { destruct (Hsz x g) as [Hs1 Hs2]; [by apply HG1|done|].
          unfold sizes_ok. rewrite !max_size_new_root. rewrite decide_False by done.
          rewrite decide_False in Hs2 by congruence. done. }
        by apply sizes_ok_set_parent.
    + intros x g' Hx. rewrite Hrpool.
      destruct (split_at_dom Ha1 Hr1 _ _ Hx) as [->|[g Hg]].
      * set_solver.
      * destruct (decide (x = r)) as [->|]; [set_solver|].
        destruct (decide (x = a)) as [->|]; [apply Hpool in Ha; set_solver|].
        assert (x ∈ pool_pages po) by eauto. set_solver.
  - intros e. rewrite <-Hent2. subst a. unfold G1, ga1, g1, i1. by apply entries_grow.
Qed.

(** The parent of a node being split. *)
Lemma pending_parent :
  a ≠ root →
  ∃ gq nq l1 l2 ka, G !! g_parent ga = Some gq ∧ g_node gq = InternalPage nq ∧
    internal_array nq = l1 ++ (ka, a) :: l2.
Proof.
  intros Hne. pose proof (pend_a _ _ _ _ _ _ _ _ Hpend) as Ha.
  destruct (wf_parent Hwf _ _ Ha Hne) as (gq & ka & Hq & Hin & _).
  apply g_kids_internal in Hin as (nq & Hnq & Hin).
  apply list_elem_of_split in Hin as (l1 & l2 & Hkq). by exists gq, nq, l1, l2, ka.
Qed.

(** How the pages have it, and where the new key goes in it. *)
Lemma pending_parent_facts gq nq l1 l2 ka :
  a ≠ root → G !! g_parent ga = Some gq → g_node gq = InternalPage nq →
  internal_array nq = l1 ++ (ka, a) :: l2 →
  g_parent ga ≠ a ∧ g_parent ga ≠ b ∧ a ≠ b ∧
  pg !! g_parent ga = Some (InternalPage nq) ∧
  (∀ j y, internal_array nq !! j = Some y → (0 < j <= length l1)%nat → key_cmp y.1 k < 0) ∧
  (∀ j y, internal_array nq !! j = Some y → (length l1 < j)%nat → key_cmp k y.1 < 0).
Proof.
  intros Hne Hq Hnq Hkq. pose proof Hpend as [Ha Hb Hb0 Hn Hk Hpa _ Hpg _ _].
  destruct (split_distinct (k:=k) Hwf Ha Hq Hb Hnq Hkq Hn) as (Haq & Hab & Hqb & Hlvl & _).
  destruct (split_key_range Hwf Ha Hn Hk) as [Hlo Hhi].
  assert (internal_array nq !! length l1 = Some (ka, a)) as Hi.
  { rewrite Hkq. by apply list_lookup_middle. }
  destruct (internal_key_position Hwf Hq Hnq _ _ _ _ k Hi Ha Hlo Hhi) as [Hbelow Habove].
  split_and!; try done.
  rewrite (Hpg _ _ Hq) by done. rewrite decide_False; [by rewrite Hnq|].
  intros Hin. apply elem_of_snd_inv in Hin as [k' Hin].
  destruct (wf_child Hwf a ga k' (g_parent ga) Ha) as (gq' & Hq' & Hl & _).
  { unfold g_kids. destruct (g_node ga); simpl in *; [done|]. by eapply subseteq_drop. }
  assert (gq' = gq) as -> by congruence. lia.
Qed.

Lemma wp_internal_insert p i j key c s h' po' pg' Q :
  view s = (h', po', pg', ds) → pg' !! p = Some (InternalPage i) →
  InternalIndexNodeHandler.lookup key_cmp i key = Some (j, false, S j) →
  (j < length (internal_array i))%nat →
  (∀ s', view s' = (h', po', <[p := InternalPage (InternalIndexNodeHandler.set_array i
     (list_insert_at (S j) (key, c) (internal_array i)))]> pg', ds) → Q () s') →
  wp (internal_insert p key c) s Q.
Proof.
  intros V Hp Hlook Hj HQ. unfold internal_insert. wp_step. wp_step; [done|]. wp_step. wp_step.
  { unfold InternalIndexNodeHandler.insert. rewrite Hlook. simpl.
    rewrite decide_True; [done|]. unfold InternalIndexNodeHandler.size. lia. }
  wp_step. by apply HQ.
Qed.

Lemma keys_sorted_take {V} m (arr : list (K * V)) : keys_sorted arr → keys_sorted (take m arr).
Proof.
  intros Hs. rewrite <-(take_drop m arr) in Hs.
  apply keys_sorted_lookup. intros i j y z Hi Hj Hij.
  rewrite take_drop in Hs. apply lookup_take_Some in Hi as [Hi _], Hj as [Hj _].
  by eapply sorted_lookup_lt.
Qed.
Lemma keys_sorted_drop {V} m (arr : list (K * V)) : keys_sorted arr → keys_sorted (drop m arr).
Proof.
  intros Hs. apply keys_sorted_lookup. intros i j y z Hi Hj Hij.
  rewrite lookup_drop in Hi, Hj. eapply sorted_lookup_lt; [done..|lia].
Qed.

Lemma wp_parent_room fuel s gq nq l1 l2 ka Q :
  view s = (h, po, pg, ds) → a ≠ root →
  G !! g_parent ga = Some gq → g_node gq = InternalPage nq →
  internal_array nq = l1 ++ (ka, a) :: l2 →
  (length (internal_array nq) < internal_max_size h)%nat →
  insert_post h ds (entries G) Q →
  wp (insert_entry_into_parent (S fuel) a b k) s Q.
Proof.
  intros V Hne Hq Hnq Hkq Hroom HQ.
  destruct (pending_parent_facts _ _ _ _ _ Hne Hq Hnq Hkq) as
    (Hqa & Hqb & Hab & Hpq & Hbelow & Habove).
  pose proof Hpend as [Ha Hb Hb0 Hn Hk Hpa [pb Hpb] Hpg _ _].
  set (q := g_parent ga) in *.
  simpl. wp_step. wp_step; [exact Hpa|]. rewrite parent_left_half. fold (g_parent ga). fold q.
  rewrite decide_False by (intros Heq; by apply (wf_parent_valid Hwf _ _ Ha) in Heq).
  wp_step. wp_step; [exact Hpq|]. wp_step. wp_step; [exact Hpq|]. wp_step. wp_step.
  rewrite (view_header _ _ _ _ _ V). rewrite decide_True by done.
  wp_step. eapply (wp_internal_insert q nq (length l1) _ _ _ _ _ _ _ V); [done| | |].
  { apply internal_lookup_raw; [exact (internal_seps_sorted Hwf Hq Hnq)| |done..].
    rewrite Hkq, length_app. simpl. lia. }
  { rewrite Hkq, length_app. simpl. lia. }
  wp_fresh. wp_step. wp_step; [rewrite lookup_insert_ne by done; exact Hpb|]. repeat wp_step.
  rewrite Hkq, list_insert_at_mid in V.
  pose proof (split_at_spec Hwf Ha Hq Hb Hb0 Hnq Hkq Hn Hk) as [Hwf2 Hent2].
  rewrite <-(new_root_same h), Hroot in V.
  eapply (HQ _ _ _ _ root); [exact V| |exact Hent2].
  split; [done|exact Hwf2| | |].
  - eapply shows_split_at.
    + rewrite lookup_insert_eq, set_parent_twice. f_equal.
      unfold q, g_parent. by destruct (g_node ga).
    + by rewrite !lookup_insert_ne by done.
    + by rewrite lookup_insert_ne, lookup_insert_eq by done.
    + intros x g Hx Hxa Hxb Hxq. rewrite !lookup_insert_ne by done. by apply Hpg.
  - assert (∀ x g, G !! x = Some g → x ≠ a → sizes_ok (new_root h root) root x (g_node g)) as Hs.
    { intros x g Hx Hxa. rewrite <-Hroot, new_root_same, Hroot. by apply (Hsz x g). }
    assert (∀ node, IndexNodeHandler.set_parent_page_num
      (IndexNodeHandler.parent_page_num node) node = node) as Hid by by intros [[]|[]].
    assert (root ≠ b) as Hrb.
    { destruct (wf_root _ _ Hwf) as [gr Hr]. by eapply pending_ne. }
    apply sized_split_at.
    + rewrite <-(Hid (right_half _ _)). by eapply pending_sizes.
    + rewrite <-(Hid (left_half _ _ _)). by eapply pending_sizes.
    + pose proof (Hs _ _ Hq Hqa) as [_ Hmin]. rewrite Hnq in Hmin.
      unfold sizes_ok in *. simpl in *. rewrite <-list_insert_at_mid, length_list_insert_at, <-Hkq.
      unfold IndexNodeHandler.max_size in *. simpl in *. lia.
    + intros x g Hx Hxa Hxb Hxq. split; [by apply Hs|]. by apply sizes_ok_set_parent, Hs.
  - intros x g' Hx. destruct (split_at_dom Ha Hq _ _ Hx) as [->|[g Hg]]; eauto.
Qed.

(** A full parent is split in turn: what is pending then. *)
Section full.
Context {gq : gnode K} {nq : InternalIndexNode K} {l1 l2 : list (K * PageNum)} {ka : K}.
Context (Hne : a ≠ root) (Hq : G !! g_parent ga = Some gq)
  (Hnq : g_node gq = InternalPage nq)
  (Hkq : internal_array nq = l1 ++ (ka, a) :: l2)
  (Hfull : length (internal_array nq) = internal_max_size h).

Let q := g_parent ga.
Let half := (length (internal_array nq) / 2)%nat.
Let ks := l1 ++ (ka, a) :: (k, b) :: l2.
Let G1 := split_at n a b k ga q gq nq ks G.
Let gq1 := set_kids gq nq ks.

Lemma full_pending r kr n1 pg2 :
  0 <= r → G !! r = None → r ≠ b →
  (n1 = half ∨ n1 = S half) → fst <$> ks !! n1 = Some kr →
  (∀ x, x ≠ b → x ∈ (drop n1 ks).*2 ↔ x ∈ (drop half (internal_array nq)).*2) →
  pg2 !! q = Some (InternalPage (InternalIndexNodeHandler.set_array nq (take n1 ks))) →
  pg2 !! r = Some (InternalPage (InternalNode (internal_parent nq) (drop n1 ks))) →
  pg2 !! b = Some (IndexNodeHandler.set_parent_page_num
    (if decide (b ∈ (drop n1 ks).*2) then r else q) (right_half n (g_node ga))) →
  (∀ x, x ≠ q → x ≠ r → x ≠ b → pg2 !! x =
    if decide (x ∈ (drop half (internal_array nq)).*2)
    then IndexNodeHandler.set_parent_page_num r <$> pg !! x else pg !! x) →
  pending h pg2 G1 q r kr n1 gq1.
Proof.
  intros Hr0 HrG Hrb Hn1 Hkr Hdrop Hpq Hpr Hpb Hoth.
  pose proof Hpend as [Ha Hb Hb0 Hn Hk Hpa _ Hpg _ _].
  assert (q ≠ b) as Hqb by by eapply pending_ne.
  assert (a ≠ b) as Hab by by eapply pending_ne.
  destruct (split_distinct (k:=k) Hwf Ha Hq Hb Hnq Hkq Hn) as (Haq & _).
  assert (G !! q = Some gq) as Hq' by exact Hq.
  assert (length ks = S (internal_max_size h)) as Hlen.
  { unfold ks. by rewrite <-list_insert_at_mid, length_list_insert_at, <-Hkq, Hfull. }
  destruct Hlim as [_ Hmax].
  split.
  - unfold G1, ks. rewrite lookup_split_at, !decide_False, decide_True by done. done.
  - unfold G1, ks. rewrite lookup_split_at.
    assert (r ≠ q) by (intros ->; by rewrite Hq' in HrG).
    assert (r ≠ a) by congruence.
    rewrite (decide_False (P := r = b)) by done. rewrite (decide_False (P := r = a)) by done.
    rewrite (decide_False (P := r = q)) by done.
    rewrite HrG. by destruct (decide (r ∈ _)).
  - done.
  - unfold half in Hn1. rewrite Hfull in Hn1.
    pose proof (half_spec (internal_max_size h)). lia.
  - exact Hkr.
  - exact Hpq.
  - exists (internal_parent nq). exact Hpr.
  - intros x g Hx Hxq. simpl. unfold G1, ks in Hx. rewrite lookup_split_at in Hx.
    destruct (decide (x = b)) as [->|Hxb].
    { injection Hx as <-. rewrite Hpb. simpl.
      destruct (decide (b ∈ _)); [done|]. f_equal.
      unfold q, g_parent. by destruct (g_node ga). }
    assert (x ≠ r).
    { intros ->. destruct (decide (r = a)); [congruence|].
      rewrite decide_False in Hx by done. rewrite HrG in Hx. by destruct (decide (r ∈ _)). }
    rewrite Hoth by done. pose proof (Hdrop x Hxb) as Hd.
    assert (pg !! x = Some (g_node g)) as ->.
    2:{ by destruct (decide (x ∈ (drop half _).*2)), (decide (x ∈ (drop n1 _).*2)) as [H1|H1];
          try done; exfalso; tauto. }
    destruct (decide (x = a)) as [->|Hxa].
    { rewrite Hpa. by injection Hx as <-. }
    rewrite decide_False in Hx by done.
    destruct (G !! x) as [g0|] eqn:Hgx; [|by destruct (decide (x ∈ _))].
    rewrite (Hpg _ _ Hgx) by done. destruct (decide (x ∈ _)); by injection Hx as <-.
  - change (IndexNodeHandler.max_size h (g_node gq1)) with (internal_max_size h).
    unfold half in Hn1. rewrite Hfull in Hn1.
    pose proof (half_spec (internal_max_size h)). lia.
  - change (IndexNodeHandler.max_size h (g_node gq1)) with (internal_max_size h).
    change (IndexNodeHandler.size (g_node gq1)) with (length ks). rewrite Hlen.
    unfold half in Hn1. rewrite Hfull in Hn1.
    pose proof (half_spec (internal_max_size h)). lia.
Qed.

Lemma full_sized : sized_but h root q G1.
Proof.
  intros x g Hx Hxq. unfold G1, ks in Hx. rewrite lookup_split_at in Hx.
  assert (∀ node, IndexNodeHandler.set_parent_page_num
    (IndexNodeHandler.parent_page_num node) node = node) as Hid by by intros [[]|[]].
  assert (root ≠ b) as Hrb.
  { destruct (wf_root _ _ Hwf) as [gr Hr]. by eapply pending_ne. }
  destruct (decide (x = b)) as [->|].
  { injection Hx as <-. simpl. rewrite <-(Hid (right_half _ _)). by eapply pending_sizes. }
  destruct (decide (x = a)) as [->|].
  { injection Hx as <-. simpl. rewrite <-(Hid (left_half _ _ _)). by eapply pending_sizes. }
  rewrite decide_False in Hx by done. case_decide.
  - destruct (G !! x) as [g0|] eqn:Hg; [|done]. injection Hx as <-.
    apply sizes_ok_set_parent. by apply (Hsz x g0).
  - by apply (Hsz x g).
Qed.

Lemma full_half : (0 < half < length (internal_array nq))%nat.
Proof.
  destruct Hlim as [_ Hmax]. unfold half. rewrite Hfull.
  pose proof (half_spec (internal_max_size h)). lia.
Qed.

Lemma full_ks : ks = list_insert_at (S (length l1)) (k, b) (internal_array nq).
Proof. unfold ks. by rewrite Hkq, list_insert_at_mid. Qed.

Lemma full_position : (length l1 < length (internal_array nq))%nat.
Proof. rewrite Hkq, length_app. simpl. lia. Qed.

(** Where the new item goes when its key is right, or left, of the middle. *)
Lemma full_right kr cr :
  internal_array nq !! half = Some (kr, cr) → 0 < key_cmp k kr →
  (half <= length l1)%nat ∧
  InternalIndexNodeHandler.lookup key_cmp
    (InternalNode (internal_parent nq) (drop half (internal_array nq))) k =
    Some ((length l1 - half)%nat, false, S (length l1 - half)) ∧
  drop half ks =
    list_insert_at (S (length l1 - half)) (k, b) (drop half (internal_array nq)) ∧
  take half ks = take half (internal_array nq) ∧ fst <$> ks !! half = Some kr.
Proof.
  intros Hkr Hlt. pose proof full_half. pose proof full_position.
  destruct (pending_parent_facts _ _ _ _ _ Hne Hq Hnq Hkq) as
    (_ & _ & _ & _ & Hbelow & Habove).
  assert (half <= length l1)%nat as Hj.
  { destruct (decide (length l1 < half)%nat) as [Hlt'|]; [|lia].
    pose proof (Habove half _ Hkr Hlt') as Hc. simpl in Hc. lia. }
  split_and!; [done| | | |].
  - apply internal_lookup_raw; simpl.
    + rewrite drop_drop, Nat.add_comm, <-drop_drop. apply keys_sorted_drop.
      exact (internal_seps_sorted Hwf Hq Hnq).
    + rewrite length_drop. lia.
    + intros j y Hy Hij. rewrite lookup_drop in Hy. apply (Hbelow _ _ Hy). lia.
    + intros j y Hy Hij. rewrite lookup_drop in Hy. apply (Habove _ _ Hy). lia.
  - rewrite full_ks, drop_list_insert_at_le by lia. f_equal. lia.
  - rewrite full_ks. apply take_list_insert_at_le; lia.
  - rewrite full_ks. unfold list_insert_at.
    rewrite lookup_app_l by (rewrite length_take; lia).
    rewrite lookup_take_lt by lia. by rewrite Hkr.
Qed.

Lemma full_left kr cr :
  internal_array nq !! half = Some (kr, cr) → ¬ 0 < key_cmp k kr →
  (length l1 < half)%nat ∧
  InternalIndexNodeHandler.lookup key_cmp
    (InternalIndexNodeHandler.set_array nq (take half (internal_array nq))) k =
    Some (length l1, false, S (length l1)) ∧
  take (S half) ks =
    list_insert_at (S (length l1)) (k, b) (take half (internal_array nq)) ∧
  drop (S half) ks = drop half (internal_array nq) ∧ fst <$> ks !! S half = Some kr.
Proof.
  intros Hkr Hge. pose proof full_half. pose proof full_position.
  destruct (pending_parent_facts _ _ _ _ _ Hne Hq Hnq Hkq) as
    (_ & _ & _ & _ & Hbelow & Habove).
  assert (length l1 < half)%nat as Hj.
  { destruct (decide (length l1 < half)%nat) as [|Hle]; [done|].
    pose proof (Hbelow half _ Hkr ltac:(lia)) as Hc. simpl in Hc.
    apply (cmp_flip_lt key_cmp) in Hc. lia. }
  split_and!; [done| | | |].
  - apply internal_lookup_raw; simpl.
    + replace half with (1 + (half - 1))%nat by lia.
      rewrite <-take_drop_commute. apply keys_sorted_take.
      exact (internal_seps_sorted Hwf Hq Hnq).
    + rewrite length_take. lia.
    + intros j y [Hy _]%lookup_take_Some Hij. apply (Hbelow _ _ Hy). lia.
    + intros j y [Hy _]%lookup_take_Some Hij. apply (Habove _ _ Hy). lia.
  - rewrite full_ks. apply take_list_insert_at_gt; lia.
  - rewrite full_ks. apply drop_list_insert_at_gt; lia.
  - rewrite full_ks. unfold list_insert_at.
    rewrite lookup_app_r by (rewrite length_take; lia).
    rewrite length_take, Nat.min_l by lia.
    replace (S half - S (length l1))%nat with (S (half - S (length l1))) by lia. simpl.
    rewrite lookup_drop. by replace (S (length l1) + (half - S (length l1)))%nat with half
      by lia; rewrite Hkr.
Qed.

(** The item of [b] is written to the half that [a] is in. *)
Lemma wp_parent_full fuel s r po' Q :
  view s = (h, po, pg, ds) → pool_allocate po = (inr r, po') →
  (∀ s' pg2 kr n1, view s' = (h, po', pg2, ds) →
     pending h pg2 G1 q r kr n1 gq1 →
     wp (insert_entry_into_parent fuel q r kr) s' Q) →
  wp (insert_entry_into_parent (S fuel) a b k) s Q.
Proof.
  intros V Hal HQ. pose proof Hlim as [_ Hmax].
  destruct (pending_parent_facts _ _ _ _ _ Hne Hq Hnq Hkq) as
    (Hqa & Hqb & Hab & Hpq & Hbelow & Habove).
  pose proof Hpend as [Ha Hb Hb0 Hn Hk Hpa [pb Hpb] Hpg _ _].
  fold q in Hqa, Hqb, Hpq. assert (G !! q = Some gq) as Hqq by exact Hq.
  apply pool_allocate_ok in Hal as Hok. destruct Hok as (Hr0 & Hrp & Hrpool).
  assert (G !! r = None) as HrG.
  { destruct (G !! r) eqn:Hr; [|done]. by apply Hpool in Hr. }
  assert (r ≠ b) as Hrb by (intros ->; done).
  assert (q ≠ r) as Hqr by congruence.
  (* the children of [q] *)
  assert (∀ c, c ∈ (internal_array nq).*2 → is_Some (pg !! c) ∧ c ≠ q ∧ c ≠ r ∧ c ≠ b) as Hkid.
  { intros c [kc Hc]%elem_of_snd_inv.
    destruct (wf_child Hwf q gq kc c Hq) as (gc & Hgc & Hl & _).
    { unfold g_kids. by rewrite Hnq. }
    split_and!; [| | |by eapply pending_ne].
    - destruct (decide (c = a)) as [->|]; [eauto|]. rewrite (Hpg _ _ Hgc) by done. eauto.
    - intros ->. assert (gc = gq) by congruence. subst gc. lia.
    - intros ->. congruence. }
  simpl. wp_step. wp_step; [exact Hpa|]. rewrite parent_left_half. fold (g_parent ga). fold q.
  rewrite decide_False by (intros Heq; by apply (wf_parent_valid Hwf _ _ Ha) in Heq).
  wp_step. wp_step; [exact Hpq|]. wp_step. wp_step; [exact Hpq|]. wp_step. wp_step.
  rewrite (view_header _ _ _ _ _ V). rewrite decide_False.
  2:{ unfold IndexNodeHandler.size, IndexNodeHandler.max_size. simpl. lia. }
  wp_step. eapply (wp_split_internal q r nq po' _ _ _ _ _ _ V Hal Hpq Hqr).
  { apply Forall_forall. intros [kc c] Hc. by apply Hkid, (elem_of_snd _ kc). }
  { intros Hc. by apply Hkid in Hc as (_ & ? & _). }
  { intros Hc. by apply Hkid in Hc as (_ & _ & ? & _). }
  clear V. intros s' pg1 V Hpg1. fold half in Hpg1.
  pose proof full_half as Hhalf.
  destruct (lookup_lt_is_Some_2 (internal_array nq) half) as [[kr cr] Hkr]; [lia|].
  assert (pg1 !! b = pg !! b) as Hpgb.
  { assert (b ∉ (drop half (internal_array nq)).*2).
    { intros Hin. rewrite fmap_drop in Hin. apply subseteq_drop in Hin.
      by apply Hkid in Hin as (_ & _ & _ & ?). }
    by rewrite Hpg1, !decide_False by done. }
  assert (pg1 !! r = Some (InternalPage
    (InternalNode (internal_parent nq) (drop half (internal_array nq))))) as Hpgr
    by by rewrite Hpg1, decide_True.
  assert (pg1 !! q = Some (InternalPage
    (InternalIndexNodeHandler.set_array nq (take half (internal_array nq))))) as Hpgq
    by by rewrite Hpg1, decide_False, decide_True.
  wp_step. simpl key_at. wp_step. wp_step; [exact Hpgr|]. wp_step.
  { unfold InternalIndexNodeHandler.key_at. simpl. rewrite lookup_drop, Nat.add_0_r.
    by rewrite Hkr. }
  simpl. wp_step. destruct (decide (0 < key_cmp k kr)) as [Hlt|Hge].
  - destruct (full_right _ _ Hkr Hlt) as (Hj & Hlook & Hdrop & Htake & Hkey).
    wp_step. eapply (wp_internal_insert r _ _ _ _ _ _ _ _ _ V Hpgr Hlook).
    { simpl. rewrite length_drop. pose proof full_position. lia. }
    wp_fresh. simpl in V. rewrite <-Hdrop in V.
    wp_step; [rewrite lookup_insert_ne, Hpgb by done; exact Hpb|].
    wp_step. wp_step. wp_step; [lk|]. wp_step.
    { unfold InternalIndexNodeHandler.key_at. simpl. rewrite lookup_drop, Nat.add_0_r.
      exact Hkey. }
    apply (HQ _ _ _ half V). eapply (full_pending r kr half); try done; [by left|..].
    + intros x Hx. rewrite Hdrop, fmap_list_insert_at, elem_of_list_insert_at. simpl. tauto.
    + rewrite !lookup_insert_ne by done. by rewrite Htake.
    + by rewrite lookup_insert_ne, lookup_insert_eq by done.
    + rewrite lookup_insert_eq, set_parent_twice, decide_True; [done|].
      rewrite Hdrop, fmap_list_insert_at, elem_of_list_insert_at. by left.
    + intros x ???. rewrite !lookup_insert_ne by done. by rewrite Hpg1, !decide_False by done.
  - destruct (full_left _ _ Hkr Hge) as (Hj & Hlook & Htake & Hdrop & Hkey).
    wp_step. eapply (wp_internal_insert q _ _ _ _ _ _ _ _ _ V Hpgq Hlook).
    { simpl. rewrite length_take. lia. }
    wp_fresh. simpl in V. rewrite <-Htake in V.
    wp_step; [rewrite lookup_insert_ne, Hpgb by done; exact Hpb|].
    wp_step. wp_step. wp_step; [rewrite !lookup_insert_ne by done; exact Hpgr|]. wp_step.
    { unfold InternalIndexNodeHandler.key_at. simpl. rewrite lookup_drop, Nat.add_0_r.
      by rewrite Hkr. }
    apply (HQ _ _ _ (S half) V). eapply (full_pending r kr (S half)); try done; [by right|..].
    + intros x Hx. by rewrite Hdrop.
    + by rewrite lookup_insert_ne, lookup_insert_eq by done.
    + rewrite !lookup_insert_ne by done. by rewrite Hdrop.
    + rewrite lookup_insert_eq, set_parent_twice, decide_False; [done|].
      rewrite Hdrop, fmap_drop. intros Hin%subseteq_drop.
      by apply Hkid in Hin as (_ & _ & _ & ?).
    + intros x ???. rewrite !lookup_insert_ne by done. by rewrite Hpg1, !decide_False by done.
Qed.
End full.
End parent.

(** The recursion ends at the latest at the root, and completes the insertion. *)
Lemma wp_insert_into_parent fuel h po pg ds root G a b k n ga gr s Q :
  limits h → root_page h = root → wf root G → pending h pg G a b k n ga →
  sized_but h root a G → (∀ p g, G !! p = Some g → p ∈ pool_pages po) → b ∈ pool_pages po →
  G !! root = Some gr → (g_lvl gr < fuel + g_lvl ga)%nat →
  pool_can (S (g_lvl gr - g_lvl ga)) po →
  view s = (h, po, pg, ds) → insert_post h ds (entries G) Q →
  wp (insert_entry_into_parent fuel a b k) s Q.
Proof.
  intros Hlim Hroot. revert po pg G a b k n ga gr s.
  induction fuel as [|fuel IH];
    intros po pg G a b k n ga gr s Hwf Hpend Hsz Hpool Hbp Hr Hfuel Hcan V HQ;
    pose proof (pend_a _ _ _ _ _ _ _ _ Hpend) as Ha.
  { destruct (decide (a = root)) as [->|Hne]; [assert (ga = gr) by congruence; subst; lia|].
    pose proof (wf_lvl _ _ Hwf _ _ _ Ha Hr Hne). lia. }
  destruct (decide (a = root)) as [Har|Hne].
  { eapply (wp_parent_root Hlim Hroot Hwf Hpend Hsz Hpool Hbp _ _ _ V Har); [|done].
    eapply pool_can_le; [|exact Hcan]. lia. }
  destruct (pending_parent Hwf Hpend Hne) as (gq & nq & l1 & l2 & ka & Hq & Hnq & Hkq).
  destruct (decide (length (internal_array nq) < internal_max_size h)%nat) as [Hlt|Hge].
  { by eapply (wp_parent_room Hroot Hwf Hpend Hsz Hpool Hbp). }
  pose proof Hpend as [_ Hb Hb0 Hn Hk _ _ _ _ _].
  destruct (split_distinct (k:=k) Hwf Ha Hq Hb Hnq Hkq Hn) as (Haq & Hab & Hqb & Hlvl & _).
  destruct (split_at_spec Hwf Ha Hq Hb Hb0 Hnq Hkq Hn Hk) as [Hwf1 Hent1].
  destruct (Hsz _ _ Hq) as [Hmax _]; [done|].
  unfold IndexNodeHandler.max_size, IndexNodeHandler.size in Hmax. rewrite Hnq in Hmax.
  simpl in Hmax. assert (length (internal_array nq) = internal_max_size h) as Hfull by lia.
  destruct (split_at_lvl (b:=b) (k:=k) (n:=n) (gq:=gq) (nq:=nq) (l1:=l1) (l2:=l2) (ka:=ka)
    Ha Hb Hq _ _ Hr) as (gr1 & Hr1 & Hlr1).
  assert (g_lvl gq <= g_lvl gr)%nat.
  { destruct (decide (g_parent ga = root)) as [Hqr|Hqr];
      [assert (gq = gr) by congruence; by subst gq|].
    pose proof (wf_lvl _ _ Hwf _ _ _ Hq Hr Hqr). lia. }
  apply pool_can_S in Hcan as (r & po' & Hal & Hcan).
  apply pool_allocate_ok in Hal as Hok. destruct Hok as (Hr0 & Hrp & Hrpool).
  eapply (wp_parent_full Hlim Hwf Hpend Hpool Hbp Hne Hq Hnq Hkq Hfull _ _ _ _ _ V Hal).
  intros s' pg2 kr n1 V2 Hpend2.
  eapply (IH po' pg2 _ _ r kr n1 _ gr1 _ Hwf1 Hpend2).
  - by eapply full_sized.
  - intros x g Hx. rewrite Hrpool. destruct (split_at_dom Ha Hq _ _ Hx) as [->|[g' Hg']].
    + set_solver.
    + apply Hpool in Hg'. set_solver.
  - rewrite Hrpool. set_solver.
  - exact Hr1.
  - simpl. lia.
  - eapply pool_can_le; [|exact Hcan]. simpl. lia.
  - exact V2.
  - intros s'' po'' pg'' G'' root'' V'' Ht He. eapply HQ; [exact V''|exact Ht|].
    intros e. rewrite Hent1. apply He.
Qed.

(** ** The leaf *)
Section leaf.
Context {h : IndexFileHeader} {po : P} {pg : page_map} {ds : list PageNum} {root : PageNum}
  {G : gmap PageNum (gnode K)} {a : PageNum} {ga : gnode K} {l : LeafIndexNode K}
  {key : K} {rid : RID.t} {pos : nat}.
Context (Htree : tree h po pg G root) (Ha : G !! a = Some ga) (Hl : g_node ga = LeafPage l)
  (Hrange : in_range (g_lo ga) (g_hi ga) (Fin key))
  (Hpos : lower_bound_answer (λ item k, key_cmp item.1 k) (leaf_array l) key pos false).

Let arr' := list_insert_at pos (key, rid) (leaf_array l).
Let ga' := GN (g_lo ga) (g_hi ga) (g_lvl ga) (LeafPage (LeafIndexNodeHandler.set_array l arr')).
Let G' := <[a := ga']> G.

Lemma leaf_sorted_range :
  keys_sorted (leaf_array l) ∧
  Forall (λ e, in_range (g_lo ga) (g_hi ga) (Fin e.1)) (leaf_array l).
Proof.
  pose proof (wf_node _ _ (tree_wf _ _ _ _ _ Htree) _ _ Ha) as Hok. unfold node_ok in Hok.
  rewrite Hl in Hok. by destruct Hok as (_ & ? & ? & _).
Qed.

Lemma leaf_insert_wf : wf root G'.
Proof.
  destruct leaf_sorted_range as [Hs Hr].
  apply (wf_update_leaf root G a ga l arr'); [apply Htree|done|done| |].
  - by apply insert_keys_sorted.
  - apply Forall_forall. intros e [->|He]%elem_of_list_insert_at; [done|].
    rewrite Forall_forall in Hr. by apply Hr.
Qed.

Lemma leaf_insert_entries e : e = (key, rid) ∨ entries G e ↔ entries G' e.
Proof.
  unfold G', ga'. rewrite (entries_update_leaf root) by (done || apply Htree).
  unfold arr'. rewrite elem_of_list_insert_at.
  assert (∀ e, e ∈ leaf_array l → entries G e) as Hin.
  { intros e0 He. exists a, ga. split; [done|]. unfold g_entries. by rewrite Hl. }
  split.
  - intros [->|He]; [by left; left|].
    destruct (decide (bcmp (g_lo ga) (Fin e.1) <= 0 ∧ bcmp (Fin e.1) (g_hi ga) < 0)) as [Hr|Hr].
    + left. right. assert (e ∈ g_entries ga) as Hg.
      { eapply (wf_entry_leaf (tree_wf _ _ _ _ _ Htree)); try done.
        eapply (wf_leaf_lvl root G a); [apply Htree|done|eauto]. }
      unfold g_entries in Hg. by rewrite Hl in Hg.
    + right. by split.
  - intros [[->|He]|[He _]]; [by left|right; by apply Hin|by right].
Qed.

(** A leaf with room. *)
Lemma leaf_insert_tree pg' :
  (length (leaf_array l) < leaf_max_size h)%nat →
  pg' = <[a := LeafPage (LeafIndexNodeHandler.set_array l arr')]> pg → tree h po pg' G' root.
Proof.
  intros Hlt ->. pose proof Htree as [Hroot Hwf Hsh Hsz Hpool].
  split; [done|apply leaf_insert_wf| | |].
  - intros x g Hx. unfold G' in Hx. destruct (decide (x = a)) as [->|].
    + rewrite lookup_insert_eq in Hx. rewrite lookup_insert_eq. by injection Hx as <-.
    + rewrite lookup_insert_ne in Hx by done. rewrite lookup_insert_ne by done. by apply Hsh.
  - intros x g Hx. unfold G' in Hx. destruct (decide (x = a)) as [->|].
    + rewrite lookup_insert_eq in Hx. injection Hx as <-. destruct (Hsz _ _ Ha) as [_ Hmin].
      rewrite Hl in Hmin. unfold sizes_ok, IndexNodeHandler.max_size in *. simpl in *.
      unfold arr'. rewrite length_list_insert_at. lia.
    + rewrite lookup_insert_ne in Hx by done. by apply Hsz.
  - intros x g Hx. unfold G' in Hx. destruct (decide (x = a)) as [->|]; [eauto|].
    rewrite lookup_insert_ne in Hx by done. eauto.
Qed.

(** A full leaf, after its split. *)
Lemma leaf_insert_pending b kn n1 pg' :
  limits h → length (leaf_array l) = leaf_max_size h → b ∉ pool_pages po → 0 <= b →
  (n1 = (length (leaf_array l) / 2)%nat ∨ n1 = S (length (leaf_array l) / 2)) →
  fst <$> arr' !! n1 = Some kn →
  pg' !! a = Some (LeafPage (LeafNode (leaf_parent l) b (take n1 arr'))) →
  pg' !! b = Some (LeafPage (LeafNode (leaf_parent l) (next_brother l) (drop n1 arr'))) →
  (∀ x, x ≠ a → x ≠ b → pg' !! x = pg !! x) →
  pending h pg' G' a b kn n1 ga' ∧ sized_but h root a G'.
Proof.
  intros [Hlim _] Hfull Hb Hb0 Hn1 Hkn Hpa Hpb Hoth.
  pose proof Htree as [Hroot Hwf Hsh Hsz Hpool].
  assert (G !! b = None) as HbG by (destruct (G !! b) eqn:E; [by apply Hpool in E|done]).
  assert (a ≠ b) as Hab by congruence.
  pose proof (half_spec (leaf_max_size h)). rewrite Hfull in Hn1.
  assert (length arr' = S (leaf_max_size h)) as Hlen
    by by unfold arr'; rewrite length_list_insert_at, Hfull.
  split; [split|].
  - apply lookup_insert_eq.
  - unfold G'. by rewrite lookup_insert_ne.
  - done.
  - lia.
  - exact Hkn.
  - exact Hpa.
  - exists (leaf_parent l). exact Hpb.
  - intros x g Hx Hxa. unfold G' in Hx. rewrite lookup_insert_ne in Hx by done.
    rewrite Hoth by congruence. simpl.
    by apply Hsh.
  - change (IndexNodeHandler.max_size h (g_node ga')) with (leaf_max_size h). lia.
  - change (IndexNodeHandler.max_size h (g_node ga')) with (leaf_max_size h).
    change (IndexNodeHandler.size (g_node ga')) with (length arr'). lia.
  - intros x g Hx Hxa. unfold G' in Hx. rewrite lookup_insert_ne in Hx by done. by apply Hsz.
Qed.
End leaf.

Lemma wp_leaf_insert p (pos : nat) key rid l s h po pg ds (Q : () → state → Prop) :
  view s = (h, po, pg, ds) → pg !! p = Some (LeafPage l) → (pos <= length (leaf_array l))%nat →
  (∀ s', view s' = (h, po, <[p := LeafPage (LeafIndexNodeHandler.set_array l
     (list_insert_at pos (key, rid) (leaf_array l)))]> pg, ds) → Q () s') →
  wp (leaf_insert p pos key rid) s Q.
Proof.
  intros V Hp Hpos HQ. unfold leaf_insert. wp_step. wp_step; [done|]. wp_step. wp_step.
  { unfold LeafIndexNodeHandler.insert. by rewrite decide_True. }
  wp_step. by apply HQ.
Qed.

(** The comparison a leaf uses to reject a key. *)
Definition dup_cmp h : K → K → Z := if unique h then attr_cmp else key_cmp.

Section into_leaf.
Context {h : IndexFileHeader} {po : P} {pg : page_map} {ds : list PageNum} {root : PageNum}
  {G : gmap PageNum (gnode K)} {a : PageNum} {ga gr : gnode K} {l : LeafIndexNode K}
  {key : K} {rid : RID.t}.
Context (Hlim : limits h) (Htree : tree h po pg G root) (Ha : G !! a = Some ga)
  (Hl : g_node ga = LeafPage l) (Hrange : in_range (g_lo ga) (g_hi ga) (Fin key))
  (Hr : G !! root = Some gr).

Lemma leaf_dup_lookup :
  ∃ pos found,
    (if unique h then LeafIndexNodeHandler.lookup attr_cmp l key
     else LeafIndexNodeHandler.lookup key_cmp l key) = Some (pos, found) ∧
    (found = true ↔ ∃ e, e ∈ leaf_array l ∧ dup_cmp h e.1 key = 0) ∧
    (found = false →
       lower_bound_answer (λ item k, key_cmp item.1 k) (leaf_array l) key pos false).
Proof.
  destruct (leaf_sorted_range Htree Ha Hl) as [Hs _]. unfold dup_cmp.
  destruct (unique h).
  - destruct (leaf_lookup_attr_spec l key Hs) as (pos & found & Hlook & Hans).
    exists pos, found. split; [done|]. split; [exact (lower_bound_answer_found _ _ _ _ _ Hans)|].
    intros ->. by apply attr_answer_key.
  - destruct (leaf_lookup_spec l key Hs) as (pos & found & Hlook & Hans).
    exists pos, found. split; [done|]. split; [exact (lower_bound_answer_found _ _ _ _ _ Hans)|].
    by intros ->.
Qed.

(** The rest of the insertion into a full leaf, after [split]. *)
Definition leaf_full_tail (fuel : nat) (frame : PageNum) (key : K) (rid : RID.t)
    (insert_position : nat) (r : RC.t + PageNum) : ST state RC.t :=
  match r with
  | inl rc => mret (from_rc rc)
  | inr new_frame =>
      leaf_node ← read_leaf frame;
      new_index_node ← read_leaf new_frame;
      write_leaf new_frame
        (LeafIndexNodeHandler.set_next_page (next_brother leaf_node) new_index_node) ;;;
      set_parent_page_num new_frame (leaf_parent leaf_node) ;;;
      write_leaf frame (LeafIndexNodeHandler.set_next_page new_frame leaf_node) ;;;
      (if decide (insert_position < LeafIndexNodeHandler.size leaf_node)%nat
       then leaf_insert frame insert_position key rid
       else leaf_insert new_frame
              (insert_position - LeafIndexNodeHandler.size leaf_node) key rid) ;;;
      new_key ← key_at HLeaf new_frame 0;
      insert_entry_into_parent fuel frame new_frame new_key
  end.

Lemma wp_leaf_full_tail b po' pos pg1 fuel s Q :
  (g_lvl gr < fuel)%nat → length (leaf_array l) = leaf_max_size h →
  lower_bound_answer (λ item k, key_cmp item.1 k) (leaf_array l) key pos false →
  pool_allocate po = (inr b, po') → pool_can (S (g_lvl gr)) po' →
  view s = (h, po', pg1, ds) →
  (∀ x, pg1 !! x =
     if decide (x = b) then
       Some (LeafPage (LeafNode (leaf_parent l) BP_INVALID_PAGE_NUM
         (drop (length (leaf_array l) / 2) (leaf_array l))))
     else if decide (x = a) then
       Some (LeafPage (LeafIndexNodeHandler.set_array l
         (take (length (leaf_array l) / 2) (leaf_array l))))
     else pg !! x) →
  insert_post h ds (λ e, e = (key, rid) ∨ entries G e) Q →
  wp (leaf_full_tail fuel a key rid pos (inr b)) s Q.
Proof.
  intros Hfuel Hfull Hans Hal Hcan V Hpg1 HQ.
  pose proof Htree as [Hroot Hwf Hsh Hsz Hpool].
  apply pool_allocate_ok in Hal as (Hb0 & Hbp & Hbpool).
  assert (a ≠ b) as Hab by (intros ->; apply Hpool in Ha; done).
  set (half := (length (leaf_array l) / 2)%nat) in *.
  set (arr' := list_insert_at pos (key, rid) (leaf_array l)).
  assert (0 < half < length (leaf_array l))%nat as Hhalf.
  { unfold half. rewrite Hfull. pose proof (half_spec (leaf_max_size h)).
    destruct Hlim. lia. }
  pose proof Hans as (Hpos & _).
  (* what is left to do once both halves are written *)
  assert (∀ n1 s' pg', (n1 = half ∨ n1 = S half) → view s' = (h, po', pg', ds) →
    pg' !! a = Some (LeafPage (LeafNode (leaf_parent l) b (take n1 arr'))) →
    pg' !! b = Some (LeafPage (LeafNode (leaf_parent l) (next_brother l) (drop n1 arr'))) →
    (∀ x, x ≠ a → x ≠ b → pg' !! x = pg !! x) →
    wp (new_key ← key_at HLeaf b 0; insert_entry_into_parent fuel a b new_key) s' Q) as Hend.
  { intros n1 s' pg' Hn1 V' Hpa Hpb Hoth.
    destruct (lookup_lt_is_Some_2 arr' n1) as [[kn rn] Hkn].
    { unfold arr'. rewrite length_list_insert_at. lia. }
    clear V. wp_step. simpl key_at. wp_step. wp_step; [exact Hpb|]. wp_step.
    { unfold LeafIndexNodeHandler.key_at. simpl. rewrite lookup_drop, Nat.add_0_r.
      by rewrite Hkn. }
    destruct (leaf_insert_pending (l:=l) (key:=key) (rid:=rid) (pos:=pos) Htree Ha b kn n1 pg')
      as [Hpend Hszb]; try done; [fold arr'; by rewrite Hkn|].
    set (ga1 := GN (g_lo ga) (g_hi ga) (g_lvl ga)
      (LeafPage (LeafIndexNodeHandler.set_array l arr'))) in *.
    assert (∃ gr1, <[a := ga1]> G !! root = Some gr1 ∧ g_lvl gr1 = g_lvl gr) as
      (gr1 & Hr1 & Hlr1).
    { destruct (decide (a = root)) as [->|].
      - rewrite lookup_insert_eq. eexists. split; [done|]. simpl. congruence.
      - rewrite lookup_insert_ne by done. by exists gr. }
    eapply (wp_insert_into_parent fuel h po' pg' ds root _ a b kn n1 _ gr1 s' Q Hlim Hroot
      (leaf_insert_wf Htree Ha Hl Hrange Hans) Hpend Hszb); try done.
    - intros x g Hx. rewrite Hbpool. destruct (decide (x = a)) as [->|].
      + apply Hpool in Ha. set_solver.
      + rewrite lookup_insert_ne in Hx by done. apply Hpool in Hx. set_solver.
    - rewrite Hbpool. set_solver.
    - simpl. lia.
    - eapply pool_can_le; [|exact Hcan]. lia.
    - intros s2 po2 pg2 G2 root2 V2 Ht2 He2. eapply HQ; [exact V2|exact Ht2|].
      intros e. rewrite <-He2. by eapply leaf_insert_entries. }
  assert (pg1 !! a = Some (LeafPage (LeafIndexNodeHandler.set_array l
    (take half (leaf_array l))))) as Hpga by by rewrite Hpg1, decide_False, decide_True.
  assert (pg1 !! b = Some (LeafPage (LeafNode (leaf_parent l) BP_INVALID_PAGE_NUM
    (drop half (leaf_array l))))) as Hpgb by by rewrite Hpg1, decide_True.
  unfold leaf_full_tail. wp_step. wp_step; [exact Hpga|]. wp_step. wp_step; [exact Hpgb|].
  wp_step. wp_step. wp_step. wp_step; [lk|]. wp_step. wp_step. wp_step.
  change (LeafIndexNodeHandler.size _) with (length (take half (leaf_array l))).
  rewrite length_take, Nat.min_l by lia.
  destruct (decide (pos < half)%nat) as [Hlt|Hge].
  - eapply (wp_leaf_insert _ _ _ _ _ _ _ _ _ _ _ V); [lk| |].
    { simpl. rewrite length_take. lia. }
    wp_fresh. eapply (Hend (S half) _ _ (or_intror eq_refl) V).
    + rewrite lookup_insert_eq. simpl. unfold arr'.
      by rewrite take_list_insert_at_gt by lia.
    + rewrite !lookup_insert_ne, lookup_insert_eq by done. simpl. unfold arr'.
      by rewrite drop_list_insert_at_gt by lia.
    + intros x ??. rewrite !lookup_insert_ne by done. by rewrite Hpg1, !decide_False by done.
  - eapply (wp_leaf_insert _ _ _ _ _ _ _ _ _ _ _ V); [lk| |].
    { simpl. rewrite length_drop. lia. }
    wp_fresh. eapply (Hend half _ _ (or_introl eq_refl) V).
    + rewrite lookup_insert_ne, lookup_insert_eq by done. simpl. unfold arr'.
      by rewrite take_list_insert_at_le by lia.
    + rewrite lookup_insert_eq. simpl. unfold arr'. by rewrite drop_list_insert_at_le by lia.
    + intros x ??. rewrite !lookup_insert_ne by done. by rewrite Hpg1, !decide_False by done.
Qed.

Lemma wp_into_leaf fuel s Q :
  view s = (h, po, pg, ds) → (g_lvl gr < fuel)%nat → pool_can (S (S (g_lvl gr))) po →
  (∀ e s', view s' = (h, po, pg, ds) → e ∈ leaf_array l → dup_cmp h e.1 key = 0 →
     Q RC.RECORD_DUPLICATE_KEY s') →
  ((∀ e, e ∈ leaf_array l → dup_cmp h e.1 key ≠ 0) →
     insert_post h ds (λ e, e = (key, rid) ∨ entries G e) Q) →
  wp (insert_entry_into_leaf_node fuel a key rid) s Q.
Proof.
  intros V Hfuel Hcan Hdup Hok. pose proof Htree as [Hroot Hwf Hsh Hsz Hpool].
  assert (pg !! a = Some (LeafPage l)) as Hpa by by rewrite (Hsh _ _ Ha), Hl.
  unfold insert_entry_into_leaf_node.
  destruct leaf_dup_lookup as (pos & found & Hlook & Hfound & Hans).
  wp_step. wp_step; [exact Hpa|]. wp_step. wp_step. rewrite (view_header _ _ _ _ _ V).
  wp_step. wp_step; [exact Hlook|]. destruct found.
  { wp_step. destruct (proj1 Hfound eq_refl) as (e & He & Hc). by eapply Hdup. }
  specialize (Hans eq_refl). pose proof Hans as (Hpos & _).
  assert (insert_post h ds (λ e, e = (key, rid) ∨ entries G e) Q) as HQ.
  { apply Hok. intros e He Hc. assert (false = true); [|done]. apply Hfound. by exists e. }
  assert (g_lvl ga = 0%nat) as Hlvl by (eapply (wf_leaf_lvl root G a); eauto).
  set (ga1 := GN (g_lo ga) (g_hi ga) (g_lvl ga) (LeafPage (LeafIndexNodeHandler.set_array l
    (list_insert_at pos (key, rid) (leaf_array l))))).
  set (G1 := <[a := ga1]> G).
  destruct (Hsz _ _ Ha) as [Hmax _]. rewrite Hl in Hmax.
  change (IndexNodeHandler.max_size h (LeafPage l)) with (leaf_max_size h) in *.
  change (IndexNodeHandler.size (LeafPage l)) with (length (leaf_array l)) in Hmax.
  change (LeafIndexNodeHandler.size l) with (length (leaf_array l)).
  destruct (decide (length (leaf_array l) < leaf_max_size h)%nat) as [Hlt|Hge].
  - wp_step. apply (wp_leaf_insert _ _ _ _ _ _ _ _ _ _ _ V Hpa Hpos). wp_fresh.
    repeat wp_step. rewrite <-(new_root_same h), Hroot in V.
    eapply (HQ _ _ _ G1 root V).
    + rewrite <-Hroot, new_root_same, Hroot. by eapply leaf_insert_tree.
    + intros e. by eapply leaf_insert_entries.
  - assert (length (leaf_array l) = leaf_max_size h) as Hfull by lia.
    apply pool_can_S in Hcan as (b & po' & Hal & Hcan).
    apply pool_allocate_ok in Hal as Hb. destruct Hb as (Hb0 & Hbp & Hbpool).
    assert (a ≠ b) as Hab by (intros ->; apply Hpool in Ha; done).
    wp_step. apply (wp_split_leaf _ b l po' _ _ _ _ _ _ V Hal Hpa Hab).
    clear V. intros s' pg1 V Hpg1.
    assert (pg1 !! a = Some (LeafPage (LeafIndexNodeHandler.set_array l
      (take (length (leaf_array l) / 2) (leaf_array l))))) as Hpga
      by by rewrite Hpg1, decide_False, decide_True.
    assert (pg1 !! b = Some (LeafPage (LeafNode (leaf_parent l) BP_INVALID_PAGE_NUM
      (drop (length (leaf_array l) / 2) (leaf_array l))))) as Hpgb
      by by rewrite Hpg1, decide_True.
    by eapply (wp_leaf_full_tail b po' pos).
Qed.
End into_leaf.
End insert.

(** * The height of a B+ tree

    Every internal node of a tree within its size bounds has two children, so a tree
    has at least [2 ^ level] leaves.  Page numbers are 32-bit integers: no tree has
    more than 32 levels, and fuel 32 is enough for every walk. *)
Section height.
Context {K P : Type} `{!IndexKey K} `{!PagePool P}.
Implicit Types (h : IndexFileHeader) (po : P) (p q root : PageNum)
  (G : gmap PageNum (gnode K)) (g : gnode K).

Context {h : IndexFileHeader} {root : PageNum} {G : gmap PageNum (gnode K)}
  (Hlim : limits h) (Hwf : wf root G) (Hsz : sized (sizes_ok h root) G).

Lemma two_children p g n :
  G !! p = Some g → g_node g = InternalPage n → (2 <= length (internal_array n))%nat.
Proof.
  intros Hp Hn. destruct (Hsz _ _ Hp) as [_ Hmin]. rewrite Hn in Hmin.
  cbn [IndexNodeHandler.is_leaf IndexNodeHandler.size] in Hmin. destruct Hlim as [_ Hmax]. pose proof (half_spec (internal_max_size h)).
  change (IndexNodeHandler.max_size h (InternalPage n)) with (internal_max_size h) in Hmin.
  case_decide; lia.
Qed.

(** The leaves below a page. *)
Lemma leaves_below lvl p g :
  G !! p = Some g → g_lvl g = lvl →
  ∃ ps, NoDup ps ∧ length ps = (2 ^ lvl)%nat ∧
    ∀ x, x ∈ ps → ∃ gx, G !! x = Some gx ∧
      bcmp (g_lo g) (g_lo gx) <= 0 ∧ bcmp (g_hi gx) (g_hi g) <= 0.
Proof.
  revert p g. induction lvl as [|lvl IH]; intros p g Hp Hl.
  - exists [p]. split_and!; [apply NoDup_singleton|done|].
    intros x ->%list_elem_of_singleton. exists g. rewrite !(cmp_refl bcmp). by split_and!.
  - destruct (g_node g) as [l|n] eqn:Hn.
    { assert (g_lvl g = 0%nat) by (eapply (wf_leaf_lvl root G p); eauto). lia. }
    pose proof (two_children _ _ _ Hp Hn) as H2.
    destruct (lookup_lt_is_Some_2 (internal_array n) 0) as [[k0 c0] H0]; [lia|].
    destruct (lookup_lt_is_Some_2 (internal_array n) 1) as [[k1 c1] H1]; [lia|].
    destruct (internal_child Hwf Hp Hn _ _ _ H0) as (g0 & Hg0 & Hl0 & _ & Hlo0 & Hhi0).
    destruct (internal_child Hwf Hp Hn _ _ _ H1) as (g1 & Hg1 & Hl1 & _ & Hlo1 & _).
    rewrite H1 in Hhi0. simpl in Hlo0, Hlo1.
    destruct (wf_child Hwf p g k1 c1 Hp) as (g1' & Hg1' & _ & _ & _ & Hle1 & Hhi1).
    { unfold g_kids. rewrite Hn. by eapply list_elem_of_lookup_2. }
    destruct (wf_child Hwf p g k0 c0 Hp) as (g0' & Hg0' & _ & _ & _ & _ & Hhi0').
    { unfold g_kids. rewrite Hn. by eapply list_elem_of_lookup_2. }
    assert (g1' = g1) as -> by congruence. assert (g0' = g0) as -> by congruence.
    destruct (IH c0 g0 Hg0 ltac:(lia)) as (ps0 & Hnd0 & Hlen0 & Hin0).
    destruct (IH c1 g1 Hg1 ltac:(lia)) as (ps1 & Hnd1 & Hlen1 & Hin1).
    exists (ps0 ++ ps1). split_and!.
    + apply NoDup_app. split_and!; [done| |done]. intros x Hx0 Hx1.
      destruct (Hin0 _ Hx0) as (gx & Hgx & _ & Hxhi).
      destruct (Hin1 _ Hx1) as (gx' & Hgx' & Hxlo & _).
      assert (gx' = gx) as -> by congruence. rewrite Hhi0 in Hxhi. rewrite Hlo1 in Hxlo.
      pose proof (cmp_le_trans _ _ _ Hxhi Hxlo) as Hle. apply (cmp_flip_le bcmp) in Hle.
      pose proof (wf_range _ _ Hwf _ _ Hgx). lia.
    + rewrite length_app, Hlen0, Hlen1. simpl. lia.
    + intros x [Hx|Hx]%elem_of_app.
      * destruct (Hin0 _ Hx) as (gx & Hgx & Hxlo & Hxhi). exists gx. rewrite <-Hlo0.
        split_and!; [done..|]. by eapply (cmp_le_trans _ (g_hi g0)).
      * destruct (Hin1 _ Hx) as (gx & Hgx & Hxlo & Hxhi). exists gx. split_and!; [done|..].
        -- by eapply (cmp_le_trans _ (g_lo g1)).
        -- by eapply (cmp_le_trans _ (g_hi g1)).
Qed.

Lemma height_bound N gr :
  (∀ p g, G !! p = Some g → p < N) → G !! root = Some gr → 2 ^ Z.of_nat (g_lvl gr) <= N.
Proof.
  intros HN Hr. destruct (leaves_below _ _ _ Hr eq_refl) as (ps & Hnd & Hlen & Hin).
  assert (0 <= N) as HN0.
  { pose proof (HN _ _ Hr). pose proof (wf_num _ _ Hwf _ _ Hr). lia. }
  assert (length ps <= length (seqZ 0 N))%nat as Hle.
  { apply submseteq_length, NoDup_submseteq; [done|].
    intros x Hx. destruct (Hin _ Hx) as (gx & Hgx & _). apply elem_of_seqZ.
    pose proof (HN _ _ Hgx). pose proof (wf_num _ _ Hwf _ _ Hgx). lia. }
  rewrite length_seqZ, Hlen in Hle. apply inj_le in Hle. rewrite Nat2Z.inj_pow in Hle. lia.
Qed.
End height.

(** A tree on 32-bit page numbers. *)
Lemma levels_32 {K} `{!IndexKey K} h root (G : gmap PageNum (gnode K)) gr :
  limits h → wf root G → sized (sizes_ok h root) G →
  (∀ p g, G !! p = Some g → p < 2 ^ 31) → G !! root = Some gr → (g_lvl gr < 32)%nat.
Proof.
  intros Hlim Hwf Hsz HN Hr. pose proof (height_bound Hlim Hwf Hsz (2 ^ 31) gr HN Hr) as Hb.
  apply Z.pow_le_mono_r_iff in Hb; lia.
Qed.
