(* ===== verification/BplusDelete.v ===== *)
(** * Deletion from a B+ tree

    After an entry left its leaf the tree is well formed, and one page may be one
    item short ([short]).  [coalesce_or_redistribute] moves an item from a sibling
    ([merge_into] followed by [split_at] at the new boundary), or merges the two
    siblings ([merge_into]) and goes on with their parent, which is short then;
    [adjust_root] drops a root with a single child, or the last leaf. *)
From S2P Require Import Prelude LowerBound RidKey LatchMemo BplusNode BplusTree BplusInv.
From S2P Require Import BplusShape BplusEdit BplusState.
From S2P Require Import BplusInsert.
From Stdlib Require Import ZArith Lia.
From stdpp Require Import base option gmap sorting list.
Local Open Scope Z_scope.

Section delete.
Context {K P : Type} `{!IndexKey K} `{!PagePool P}.
Abbreviation state := (state K P).
Abbreviation page_map := (gmap PageNum (IndexNode K)).
Implicit Types (s : state) (h : IndexFileHeader) (po : P) (pg : page_map)
  (ds : list PageNum) (p q a b x root : PageNum) (G : gmap PageNum (gnode K))
  (g ga gb gq : gnode K) (k key : K) (node na nb : IndexNode K) (T : handler_type).

Definition of_kind T node : Prop :=
  match T, node with HLeaf, LeafPage _ | HInternal, InternalPage _ => True | _, _ => False end.

(** Two neighbours under one parent: they are of one kind, and a left leaf points to
    the right one. *)
Definition neighbours b na nb : Prop :=
  match na, nb with
  | LeafPage la, LeafPage lb => next_brother la = b ∧ leaf_parent la = leaf_parent lb
  | InternalPage ia, InternalPage ib => internal_parent ia = internal_parent ib
  | _, _ => False
  end.

(** The children of the two nodes can be written, and are not the nodes. *)
Definition kids_apart a b pg (items : list (K * PageNum)) : Prop :=
  Forall (λ kc, is_Some (pg !! kc.2) ∧ kc.2 ≠ a ∧ kc.2 ≠ b) items.

Lemma kids_apart_movable a b pg items : kids_apart a b pg items → movable items pg.
Proof. intros H. eapply Forall_impl; [exact H|]. by intros kc (? & _). Qed.
Lemma kids_apart_not_elem a b pg items :
  kids_apart a b pg items → (a ∉ items.*2) ∧ (b ∉ items.*2).
Proof.
  unfold kids_apart. rewrite Forall_forall.
  intros H. split; intros [kc Hin]%elem_of_snd_inv; by destruct (H _ Hin) as (_ & ? & ?).
Qed.

(** ** The three moves between neighbours *)
Lemma wp_move_to T a b na nb s h po pg ds (Q : RC.t → state → Prop) :
  view s = (h, po, pg, ds) → pg !! a = Some na → pg !! b = Some nb → a ≠ b →
  of_kind T na → neighbours b na nb → kids_apart a b pg (node_kids nb) →
  (∀ s' pg', view s' = (h, po, pg', ds) → pg' !! a = Some (joined na nb) →
     (∃ nb', pg' !! b = Some nb' ∧ IndexNodeHandler.is_leaf nb' = IndexNodeHandler.is_leaf nb ∧
        (∀ l l', nb = LeafPage l → nb' = LeafPage l' → next_brother l' = next_brother l)) →
     (∀ x, x ≠ a → x ≠ b → pg' !! x =
        if decide (x ∈ (node_kids nb).*2)
        then IndexNodeHandler.set_parent_page_num a <$> pg !! x else pg !! x) →
     Q RC.SUCCESS s') →
  wp (move_to T b a) s Q.
Proof.
  intros V Ha Hb Hab Hkind Hnb Hkids HQ.
  destruct T, na as [la|ia], nb as [lb|ib]; try done; simpl move_to.
  - unfold leaf_pair. wp_step. wp_step; [exact Hb|]. wp_step. wp_step; [exact Ha|].
    wp_step. wp_step; [done|]. repeat wp_step. eapply HQ; [exact V| | |].
    + by rewrite lookup_insert_eq.
    + eexists. rewrite lookup_insert_ne, lookup_insert_eq by done. split_and!; try done.
      by intros l l' [= <-] [= <-].
    + intros x ??. by rewrite !lookup_insert_ne by done.
  - unfold internal_move_to. wp_step. wp_step; [exact Hb|]. wp_step.
    simpl in Hkids. destruct (kids_apart_not_elem _ _ _ _ Hkids) as [Hna Hnb'].
    eapply (wp_copy_from _ _ _ _ _ _ _ _ _ V); [by eapply kids_apart_movable|exact Ha|done|].
    wp_fresh. unfold update_internal_array. wp_step. wp_step.
    wp_step; [rewrite lookup_insert_ne, lookup_page_reparent_ne by done; exact Hb|].
    repeat wp_step. eapply HQ; [exact V| | |].
    + by rewrite lookup_insert_ne, lookup_insert_eq by done.
    + eexists. rewrite lookup_insert_eq. split_and!; done.
    + intros x ??. rewrite !lookup_insert_ne by done. apply lookup_page_reparent.
Qed.

Lemma wp_first_to_end T a b na nb s h po pg ds (Q : RC.t → state → Prop) :
  view s = (h, po, pg, ds) → pg !! a = Some na → pg !! b = Some nb → a ≠ b →
  of_kind T na → neighbours b na nb → kids_apart a b pg (node_kids nb) →
  (0 < IndexNodeHandler.size nb)%nat →
  (∀ s' pg', view s' = (h, po, pg', ds) →
     let n := S (IndexNodeHandler.size na) in
     pg' !! a = Some (left_half n b (joined na nb)) →
     pg' !! b = Some (right_half n (joined na nb)) →
     (∀ x, x ≠ a → x ≠ b → pg' !! x =
        if decide (x ∈ (take 1 (node_kids nb)).*2)
        then IndexNodeHandler.set_parent_page_num a <$> pg !! x else pg !! x) →
     Q RC.SUCCESS s') →
  wp (move_first_to_end T b a) s Q.
Proof.
  intros V Ha Hb Hab Hkind Hnb Hkids Hsize HQ.
  assert (∀ A (l1 l2 : list A) y, l1 ++ [y] = take (S (length l1)) (l1 ++ y :: l2) ∧
    l2 = drop (S (length l1)) (l1 ++ y :: l2)) as Hcut.
  { intros A l1 l2 y. rewrite (cons_middle y l1 l2), app_assoc.
    rewrite <-(Nat.add_1_r (length l1)). change 1%nat with (length [y]).
    by rewrite <-length_app, take_app_length, drop_app_length. }
  destruct T, na as [la|ia], nb as [lb|ib]; try done; simpl move_first_to_end.
  - destruct Hnb as [Hnext Hpar]. simpl in Hsize.
    destruct (leaf_array lb) as [|e arr] eqn:Harr; [simpl in Hsize; lia|].
    unfold leaf_pair. wp_step. wp_step; [exact Hb|]. wp_step. wp_step; [exact Ha|].
    wp_step. wp_step; [unfold LeafIndexNodeHandler.move_first_to_end; by rewrite Harr|].
    repeat wp_step. destruct (Hcut _ (leaf_array la) arr e) as [Hc1 Hc2].
    eapply HQ; [exact V| | |].
    + rewrite lookup_insert_eq. simpl. rewrite Harr, <-Hnext. simpl in Hc1. by rewrite <-Hc1.
    + rewrite lookup_insert_ne, lookup_insert_eq by done. simpl. rewrite Harr, Hpar.
      simpl in Hc2. by rewrite <-Hc2.
    + intros x ??. by rewrite !lookup_insert_ne by done.
  - simpl in Hsize, Hkids, Hnb. destruct (internal_array ib) as [|[k c] arr] eqn:Harr;
      [simpl in Hsize; lia|].
    unfold internal_move_first_to_end. wp_step. wp_step; [exact Hb|].
    wp_step. wp_step; [by rewrite Harr|]. wp_step. unfold internal_append.
    assert (kids_apart a b pg [(k, c)]) as Hkid.
    { inversion_clear Hkids. by constructor. }
    destruct (kids_apart_not_elem _ _ _ _ Hkid) as [Hna Hnb'].
    eapply (wp_copy_from _ _ _ _ _ _ _ _ _ V); [by eapply kids_apart_movable|exact Ha|done|].
    wp_fresh. unfold update_internal_array. wp_step. wp_step.
    wp_step; [rewrite lookup_insert_ne, lookup_page_reparent_ne by done; exact Hb|].
    repeat wp_step. destruct (Hcut _ (internal_array ia) arr (k, c)) as [Hc1 Hc2].
    eapply HQ; [exact V| | |].
    + rewrite lookup_insert_ne, lookup_insert_eq by done. simpl. rewrite Harr.
      simpl in Hc1. by rewrite <-Hc1.
    + rewrite lookup_insert_eq. simpl. rewrite Harr. simpl in Hc2. rewrite <-Hc2.
      unfold InternalIndexNodeHandler.set_array. by rewrite <-Hnb.
    + intros x ??. rewrite !lookup_insert_ne by done.
      change (node_kids (InternalPage ib)) with (internal_array ib). rewrite Harr.
      change (take 1 ((k, c) :: arr)) with [(k, c)]. apply lookup_page_reparent.
Qed.

Lemma wp_last_to_front T a b na nb s h po pg ds (Q : RC.t → state → Prop) :
  view s = (h, po, pg, ds) → pg !! a = Some na → pg !! b = Some nb → a ≠ b →
  of_kind T na → neighbours b na nb → kids_apart a b pg (node_kids na) →
  (0 < IndexNodeHandler.size na)%nat →
  (∀ s' pg', view s' = (h, po, pg', ds) →
     let n := (IndexNodeHandler.size na - 1)%nat in
     pg' !! a = Some (left_half n b (joined na nb)) →
     pg' !! b = Some (right_half n (joined na nb)) →
     (∀ x, x ≠ a → x ≠ b → pg' !! x =
        if decide (x ∈ (drop n (node_kids na)).*2)
        then IndexNodeHandler.set_parent_page_num b <$> pg !! x else pg !! x) →
     Q RC.SUCCESS s') →
  wp (move_last_to_front T a b) s Q.
Proof.
  intros V Ha Hb Hab Hkind Hnb Hkids Hsize HQ.
  assert (∀ A (l1 l2 : list A) y, l1 = take (length (l1 ++ [y]) - 1) ((l1 ++ [y]) ++ l2) ∧
    y :: l2 = drop (length (l1 ++ [y]) - 1) ((l1 ++ [y]) ++ l2) ∧
    take (length (l1 ++ [y]) - 1) (l1 ++ [y]) = l1 ∧
    drop (length (l1 ++ [y]) - 1) (l1 ++ [y]) = [y]) as Hcut.
  { intros A l1 l2 y. rewrite length_app. simpl. rewrite Nat.add_sub.
    rewrite <-app_assoc, !take_app_length, !drop_app_length. done. }
  destruct T, na as [la|ia], nb as [lb|ib]; try done; simpl move_last_to_front.
  - destruct Hnb as [Hnext Hpar]. simpl in Hsize.
    destruct (leaf_array la) as [|e arr _] eqn:Harr using rev_ind; [simpl in Hsize; lia|].
    destruct (Hcut _ arr (leaf_array lb) e) as (Hc1 & Hc2 & Hc3 & Hc4).
    unfold leaf_pair. wp_step. wp_step; [exact Ha|]. wp_step. wp_step; [exact Hb|].
    wp_step. wp_step.
    { unfold LeafIndexNodeHandler.move_last_to_front, LeafIndexNodeHandler.size.
      by rewrite Harr, last_snoc. }
    simpl. rewrite Hc3. repeat wp_step.
    eapply HQ; [exact V| | |].
    + rewrite lookup_insert_ne, lookup_insert_eq by done. simpl. rewrite Harr, <-Hnext.
      by rewrite <-Hc1.
    + rewrite lookup_insert_eq. simpl. rewrite Harr, Hpar, <-Hc2. done.
    + intros x ??. rewrite !lookup_insert_ne by done.
      change (node_kids (LeafPage la)) with (@nil (K * PageNum)). by rewrite drop_nil.
  - simpl in Hsize, Hkids, Hnb.
    destruct (internal_array ia) as [|[k c] arr _] eqn:Harr using rev_ind;
      [simpl in Hsize; lia|].
    destruct (Hcut _ arr (internal_array ib) (k, c)) as (Hc1 & Hc2 & Hc3 & Hc4).
    unfold internal_move_last_to_front. wp_step. wp_step; [exact Ha|].
    wp_step. unfold InternalIndexNodeHandler.size. rewrite Harr.
    wp_step; [rewrite length_app; simpl; rewrite Nat.add_sub; by apply list_lookup_middle|].
    wp_step. unfold internal_preappend.
    assert (∃ nc, pg !! c = Some nc) as [nc Hc].
    { unfold kids_apart in Hkids. rewrite Forall_forall in Hkids.
      apply (Hkids (k, c)). rewrite elem_of_app. right. left. }
    assert (c ≠ a ∧ c ≠ b) as [Hca Hcb].
    { unfold kids_apart in Hkids. rewrite Forall_forall in Hkids.
      apply (Hkids (k, c)). rewrite elem_of_app. right. left. }
    wp_step. wp_step; [exact Hc|]. wp_step. wp_step; [exact Hc|]. wp_step. wp_step.
    wp_step. wp_step; [rewrite lookup_insert_ne by done; exact Hb|].
    wp_step. wp_step. wp_step. unfold update_internal_array. wp_step. wp_step.
    wp_step; [rewrite !lookup_insert_ne by done; exact Ha|]. rewrite Harr, Hc3. repeat wp_step.
    eapply HQ; [exact V| | |].
    + rewrite lookup_insert_eq. simpl. rewrite Harr. by rewrite <-Hc1.
    + rewrite lookup_insert_ne, lookup_insert_eq by done. simpl. rewrite Harr, <-Hc2.
      unfold InternalIndexNodeHandler.set_array. by rewrite <-Hnb.
    + intros x ??. rewrite !lookup_insert_ne by done.
      change (node_kids (InternalPage ia)) with (internal_array ia).
      change (IndexNodeHandler.size (InternalPage ia)) with (length (internal_array ia)).
      rewrite Harr, Hc4. destruct (decide (x = c)) as [->|].
      * rewrite lookup_insert_eq, decide_True by left. by rewrite Hc.
      * rewrite lookup_insert_ne by done. rewrite decide_False; [done|].
        change ([(k, c)].*2) with [c]. by rewrite list_elem_of_singleton.
Qed.

Lemma set_own_parent node :
  IndexNodeHandler.set_parent_page_num (IndexNodeHandler.parent_page_num node) node = node.
Proof. by destruct node as [[]|[]]. Qed.

(** ** Two siblings of a tree *)
Section siblings.
Context {h : IndexFileHeader} {pg : page_map} {root : PageNum} {G : gmap PageNum (gnode K)}
  {a b q : PageNum} {ga gb gq : gnode K} {nq : InternalIndexNode K}
  {l1 l2 : list (K * PageNum)} {ka kb : K}.
Context (Hwf : wf root G)
  (Ha : G !! a = Some ga) (Hb : G !! b = Some gb) (Hq : G !! q = Some gq)
  (Hnq : g_node gq = InternalPage nq)
  (Hkq : internal_array nq = l1 ++ (ka, a) :: (kb, b) :: l2).

Lemma sibling_kid p gp k c g :
  G !! p = Some gp → S (g_lvl gp) = g_lvl gq → (k, c) ∈ g_kids gp → G !! c = Some g →
  IndexNodeHandler.set_parent_page_num p (g_node g) = g_node g ∧ c ≠ a ∧ c ≠ b ∧ c ≠ q.
Proof.
  intros Hp Hl Hin Hc.
  destruct (merge_kid Hwf Ha Hb Hq Hnq Hkq _ _ _ _ Hp Hl Hin) as
    (g' & Hg' & _ & Hpar & _ & Hca & Hcb & Hcq).
  assert (g' = g) as -> by congruence. split_and!; try done.
  rewrite <-Hpar. apply set_own_parent.
Qed.

Lemma sibling_kids_apart p gp :
  G !! p = Some gp → S (g_lvl gp) = g_lvl gq → shows pg G →
  kids_apart a b pg (node_kids (g_node gp)).
Proof.
  intros Hp Hl Hsh. apply Forall_forall. intros [k c] Hin. simpl.
  destruct (wf_child Hwf _ _ _ _ Hp Hin) as (g & Hg & _).
  destruct (sibling_kid _ _ _ _ _ Hp Hl Hin Hg) as (_ & ? & ? & _).
  split_and!; [|done..]. rewrite (Hsh _ _ Hg). eauto.
Qed.

Lemma sibling_neighbours : neighbours b (g_node ga) (g_node gb).
Proof.
  destruct (merge_facts Hwf Ha Hb Hq Hnq Hkq) as (Hla & Hlb & Hpa & Hpb & _ & Hadj & _).
  destruct (merge_same_kind Hwf Ha Hb Hq Hnq Hkq) as
    [(la & lb & Hna & Hnb)|(ia & ib & Hna & Hnb)]; rewrite Hna, Hnb;
    unfold g_parent in Hpa, Hpb; rewrite Hna in Hpa; rewrite Hnb in Hpb; simpl in *;
    [split; [|congruence]|congruence].
  pose proof (wf_node _ _ Hwf _ _ Ha) as Hok. unfold node_ok in Hok. rewrite Hna in Hok.
  destruct Hok as (Hl0 & _ & _ & Hnext). rewrite Hadj in Hnext.
  pose proof (wf_range _ _ Hwf _ _ Hb) as Hr.
  destruct Hnext as [[Hinf _]|(gn & Hgn & Hln & Hlo)].
  - rewrite Hinf in Hr. pose proof (bcmp_PInf_r (g_hi gb)) as Hle.
    apply (cmp_flip_le bcmp) in Hle. lia.
  - apply (wf_range_unique Hwf _ _ gn gb (g_lo gb) Hgn Hb); [lia| |by apply in_range_lo].
    rewrite <-Hlo. apply in_range_lo. by eapply (wf_range _ _ Hwf).
Qed.

Lemma siblings_distinct : a ≠ b ∧ a ≠ q ∧ b ≠ q.
Proof.
  destruct (merge_facts Hwf Ha Hb Hq Hnq Hkq) as (Hla & Hlb & _ & _ & _ & _ & _ & _ & Hab).
  split_and!; [done|..]; intros ->.
  - assert (ga = gq) by congruence. subst. lia.
  - assert (gb = gq) by congruence. subst. lia.
Qed.

Lemma kids_NoDup p gp : G !! p = Some gp → NoDup (node_kids (g_node gp)).*2.
Proof.
  intros Hp. destruct (g_node gp) as [l|i] eqn:Hn; [constructor|].
  destruct (internal_node_ok Hwf Hp Hn) as [Ht _]. by eapply tiled_NoDup.
Qed.

(** Merging the siblings: what the pages must hold. *)
Lemma shows_merge_into pg' :
  shows pg G → pg' !! a = Some (joined (g_node ga) (g_node gb)) →
  pg' !! q = Some (InternalPage (InternalIndexNodeHandler.set_array nq (l1 ++ (ka, a) :: l2))) →
  (∀ x, x ≠ a → x ≠ b → x ≠ q → pg' !! x =
     if decide (x ∈ (node_kids (g_node gb)).*2)
     then IndexNodeHandler.set_parent_page_num a <$> pg !! x else pg !! x) →
  shows pg' (merge_into a b ga gb q gq nq (l1 ++ (ka, a) :: l2) G).
Proof.
  intros Hsh Hpa Hpq Hoth x g Hx. rewrite lookup_merge_into in Hx.
  destruct (decide (x = b)); [done|].
  destruct (decide (x = a)) as [->|]; [by injection Hx as <-|].
  destruct (decide (x = q)) as [->|]; [by injection Hx as <-|].
  rewrite Hoth by done. destruct (decide (x ∈ _)).
  - destruct (G !! x) as [g0|] eqn:Hg; [|done]. injection Hx as <-. by rewrite (Hsh _ _ Hg).
  - by apply Hsh.
Qed.

(** Moving the boundary between the siblings. *)
Section boundary.
Context {n : nat} {k : K} (Hn : (0 < n)%nat)
  (Hk : node_key (joined (g_node ga) (g_node gb)) n = Some k).

Let ga1 := GN (g_lo ga) (g_hi gb) (g_lvl ga) (joined (g_node ga) (g_node gb)).
Let gq1 := set_kids gq nq (l1 ++ (ka, a) :: l2).
Let nq1 := InternalIndexNodeHandler.set_array nq (l1 ++ (ka, a) :: l2).
Let G1 := merge_into a b ga gb q gq nq (l1 ++ (ka, a) :: l2) G.
Let G' := split_at n a b k ga1 q gq1 nq1 (l1 ++ (ka, a) :: (k, b) :: l2) G1.

Lemma rebalance_spec : wf root G' ∧ ∀ e, entries G e ↔ entries G' e.
Proof.
  destruct siblings_distinct as (Hab & Haq & Hbq).
  destruct (merge_into_spec Hwf Ha Hb Hq Hnq Hkq) as [Hwf1 Hent1]. fold G1 in Hwf1, Hent1.
  assert (G1 !! a = Some ga1) as Ha1.
  { unfold G1. by rewrite lookup_merge_into, decide_False, decide_True. }
  assert (G1 !! b = None) as Hb1.
  { unfold G1. by rewrite lookup_merge_into, decide_True. }
  assert (G1 !! q = Some gq1) as Hq1.
  { unfold G1. by rewrite lookup_merge_into, (decide_False (P := q = b)),
      (decide_False (P := q = a)), decide_True by done. }
  destruct (split_at_spec (n:=n) (k:=k) (nq:=nq1) (ka:=ka) (l1:=l1) (l2:=l2) Hwf1 Ha1 Hq1 Hb1
    (wf_num _ _ Hwf _ _ Hb) eq_refl eq_refl Hn Hk) as [Hwf2 Hent2].
  split; [exact Hwf2|]. intros e. rewrite Hent1. apply Hent2.
Qed.

Lemma lookup_rebalance x :
  G' !! x =
    if decide (x = b) then Some (GN (Fin k) (g_hi gb) (g_lvl ga)
      (right_half n (joined (g_node ga) (g_node gb))))
    else if decide (x = a) then Some (GN (g_lo ga) (Fin k) (g_lvl ga)
      (left_half n b (joined (g_node ga) (g_node gb))))
    else if decide (x = q) then Some (set_kids gq nq (l1 ++ (ka, a) :: (k, b) :: l2))
    else
      let g1 := if decide (x ∈ (node_kids (g_node gb)).*2)
                then g_set_parent a <$> G !! x else G !! x in
      if decide (x ∈ (node_kids (right_half n (joined (g_node ga) (g_node gb)))).*2)
      then g_set_parent b <$> g1 else g1.
Proof.
  unfold G'. rewrite lookup_split_at. unfold G1. rewrite lookup_merge_into.
  destruct (decide (x = b)); [done|]. destruct (decide (x = a)); [done|].
  destruct (decide (x = q)); [done|]. done.
Qed.

Lemma shows_rebalance pg' :
  shows pg G →
  pg' !! a = Some (left_half n b (joined (g_node ga) (g_node gb))) →
  pg' !! b = Some (right_half n (joined (g_node ga) (g_node gb))) →
  pg' !! q = Some (InternalPage
    (InternalIndexNodeHandler.set_array nq (l1 ++ (ka, a) :: (k, b) :: l2))) →
  (∀ x g, G !! x = Some g → x ≠ a → x ≠ b → x ≠ q → pg' !! x = Some
     (if decide (x ∈ (node_kids (right_half n (joined (g_node ga) (g_node gb)))).*2)
      then IndexNodeHandler.set_parent_page_num b (g_node g)
      else if decide (x ∈ (node_kids (g_node gb)).*2)
      then IndexNodeHandler.set_parent_page_num a (g_node g) else g_node g)) →
  shows pg' G'.
Proof.
  intros Hsh Hpa Hpb Hpq Hoth x g Hx. rewrite lookup_rebalance in Hx.
  destruct (decide (x = b)) as [->|]; [by injection Hx as <-|].
  destruct (decide (x = a)) as [->|]; [by injection Hx as <-|].
  destruct (decide (x = q)) as [->|]; [by injection Hx as <-|].
  cbv zeta in Hx. destruct (G !! x) as [g0|] eqn:Hg;
    [|by destruct (decide (x ∈ (node_kids (g_node gb)).*2)),
        (decide (x ∈ (node_kids (right_half _ _)).*2))].
  rewrite (Hoth _ _ Hg) by done.
  destruct (decide (x ∈ (node_kids (right_half _ _)).*2)),
    (decide (x ∈ (node_kids (g_node gb)).*2)); injection Hx as <-; try done.
  simpl. by rewrite set_parent_twice.
Qed.
End boundary.

Lemma set_separator k :
  <[S (length l1) := (k, b)]> (internal_array nq) = l1 ++ (ka, a) :: (k, b) :: l2.
Proof.
  rewrite Hkq. rewrite (cons_middle (ka, a)), (cons_middle (ka, a) l1 ((k, b) :: l2)), !app_assoc.
  replace (S (length l1)) with (length (l1 ++ [(ka, a)]) + 0)%nat by (rewrite length_app; simpl; lia).
  by rewrite insert_app_r.
Qed.

Lemma wp_key_at T p node i k s h' po ds pg' (Q : K → state → Prop) :
  view s = (h', po, pg', ds) → pg' !! p = Some node → of_kind T node →
  node_key node i = Some k → Q k s → wp (key_at T p i) s Q.
Proof.
  intros V Hp Hkind Hk HQ. destruct T, node; try done; simpl key_at;
    (wp_step; wp_step; [exact Hp|]; wp_step; [exact Hk|exact HQ]).
Qed.

Lemma wp_set_separator i k s h' po ds pg' (Q : () → state → Prop) :
  view s = (h', po, pg', ds) → pg' !! q = Some (InternalPage nq) → i = S (length l1) →
  (∀ s', view s' = (h', po, <[q := InternalPage (InternalIndexNodeHandler.set_array nq
     (l1 ++ (ka, a) :: (k, b) :: l2))]> pg', ds) → Q () s') →
  wp (internal_set_key_at q i k) s Q.
Proof.
  intros V Hp -> HQ. unfold internal_set_key_at. wp_step. wp_step; [exact Hp|]. wp_step. wp_step.
  { unfold InternalIndexNodeHandler.set_key_at.
    assert (internal_array nq !! S (length l1) = Some (kb, b)) as ->.
    { rewrite Hkq, (cons_middle (ka, a)), app_assoc. apply list_lookup_middle.
      rewrite length_app. simpl. lia. }
    simpl. by rewrite set_separator. }
  wp_step. by apply HQ.
Qed.

Lemma node_key_right_half node n : node_key (right_half n node) 0 = node_key node n.
Proof. destruct node; simpl; by rewrite lookup_drop, Nat.add_0_r. Qed.
Lemma of_kind_right_half T node n : of_kind T node → of_kind T (right_half n node).
Proof. by destruct T, node. Qed.
Lemma node_key_is_Some node n :
  (n < IndexNodeHandler.size node)%nat → is_Some (node_key node n).
Proof.
  destruct node as [l|i]; simpl; intros Hn;
    by destruct (lookup_lt_is_Some_2 _ _ Hn) as [? ->].
Qed.
Lemma joined_size : IndexNodeHandler.size (joined (g_node ga) (g_node gb)) =
  (IndexNodeHandler.size (g_node ga) + IndexNodeHandler.size (g_node gb))%nat.
Proof.
  destruct (merge_same_kind Hwf Ha Hb Hq Hnq Hkq) as
    [(la & lb & -> & ->)|(ia & ib & -> & ->)]; simpl; by rewrite length_app.
Qed.
Lemma joined_kids : node_kids (joined (g_node ga) (g_node gb)) =
  node_kids (g_node ga) ++ node_kids (g_node gb).
Proof.
  by destruct (merge_same_kind Hwf Ha Hb Hq Hnq Hkq) as
    [(la & lb & -> & ->)|(ia & ib & -> & ->)].
Qed.
Lemma of_kind_joined T : of_kind T (g_node ga) → of_kind T (joined (g_node ga) (g_node gb)).
Proof.
  by destruct (merge_same_kind Hwf Ha Hb Hq Hnq Hkq) as
    [(la & lb & -> & ->)|(ia & ib & -> & ->)].
Qed.
Lemma right_half_kids n node : node_kids (right_half n node) = drop n (node_kids node).
Proof. destruct node; simpl; by rewrite ?drop_nil. Qed.
Lemma kids_size node : (length (node_kids node) <= IndexNodeHandler.size node)%nat ∧
  (node_kids node ≠ [] → length (node_kids node) = IndexNodeHandler.size node).
Proof. destruct node; simpl; split; try done; lia. Qed.

Abbreviation rebalanced n k :=
  (split_at n a b k (GN (g_lo ga) (g_hi gb) (g_lvl ga) (joined (g_node ga) (g_node gb))) q
    (set_kids gq nq (l1 ++ (ka, a) :: l2))
    (InternalIndexNodeHandler.set_array nq (l1 ++ (ka, a) :: l2))
    (l1 ++ (ka, a) :: (k, b) :: l2)
    (merge_into a b ga gb q gq nq (l1 ++ (ka, a) :: l2) G)).

(** The left sibling is short: it takes the first item of the right one. *)
Lemma wp_redistribute_left T s po ds Q :
  view s = (h, po, pg, ds) → shows pg G → of_kind T (g_node ga) → l1 = [] →
  (2 <= IndexNodeHandler.size (g_node gb))%nat →
  (∀ s' pg' k, view s' = (h, po, pg', ds) →
     let n := S (IndexNodeHandler.size (g_node ga)) in
     node_key (joined (g_node ga) (g_node gb)) n = Some k →
     shows pg' (rebalanced n k) → Q RC.SUCCESS s') →
  wp (redistribute T b a q 0) s Q.
Proof.
  intros V Hsh Hkind Hl1 Hsize HQ.
  destruct siblings_distinct as (Hab & Haq & Hbq).
  destruct (merge_facts Hwf Ha Hb Hq Hnq Hkq) as (Hla & Hlb & _).
  set (n := S (IndexNodeHandler.size (g_node ga))) in *.
  destruct (node_key_is_Some (joined (g_node ga) (g_node gb)) n) as [k Hk].
  { rewrite joined_size. lia. }
  unfold redistribute. rewrite decide_True by done. wp_step. wp_step.
  eapply (wp_first_to_end T a b _ _ s h po pg ds _ V (Hsh _ _ Ha) (Hsh _ _ Hb) Hab Hkind
    sibling_neighbours); [by eapply sibling_kids_apart|lia|].
  clear V. intros s' pg1 V. cbv zeta. fold n. intros Hpa Hpb Hoth.
  assert (∀ x, x ∉ (node_kids (g_node gb)).*2 → x ≠ a → x ≠ b → pg1 !! x = pg !! x) as Hno.
  { intros x Hx ??. rewrite Hoth by done. rewrite decide_False; [done|].
    rewrite fmap_take. intros Hin. apply Hx. by eapply subseteq_take. }
  assert (q ∉ (node_kids (g_node gb)).*2) as Hqk.
  { intros [kc Hin]%elem_of_snd_inv.
    by destruct (sibling_kid b gb kc q gq Hb Hlb Hin Hq) as (_ & _ & _ & ?). }
  wp_step. eapply (wp_key_at T b _ 0 k); [exact V|exact Hpb| | |].
  { by apply of_kind_right_half, of_kind_joined. }
  { by rewrite node_key_right_half. }
  cbn beta. eapply (wp_set_separator _ k _ _ _ _ _ _ V); [|by rewrite Hl1|].
  { rewrite Hno by done. by rewrite (Hsh _ _ Hq), Hnq. }
  wp_fresh. repeat wp_step. eapply (HQ _ _ k V Hk).
  apply (shows_rebalance (n:=n) (k:=k)); [done|..].
  - by rewrite lookup_insert_ne by done.
  - by rewrite lookup_insert_ne by done.
  - by rewrite lookup_insert_eq.
  - intros x g Hx ???. rewrite lookup_insert_ne by done.
    rewrite right_half_kids, joined_kids.
    assert (drop n (node_kids (g_node ga) ++ node_kids (g_node gb)) =
      drop 1 (node_kids (g_node gb))) as ->.
    { destruct (merge_same_kind Hwf Ha Hb Hq Hnq Hkq) as
        [(la & lb & Hna & Hnb)|(ia & ib & Hna & Hnb)]; unfold n; rewrite Hna, Hnb; simpl.
      - done.
      - rewrite drop_app_ge by lia.
        by replace (S (length (internal_array ia)) - length (internal_array ia))%nat with 1%nat
          by lia. }
    rewrite Hoth by done. rewrite (Hsh _ _ Hx).
    pose proof (kids_NoDup b gb Hb) as Hnd.
    assert (∀ y, y ∈ (node_kids (g_node gb)).*2 ↔ y ∈ (take 1 (node_kids (g_node gb))).*2 ∨
      y ∈ (drop 1 (node_kids (g_node gb))).*2) as Hsplit.
    { intros y. by rewrite <-elem_of_app, <-fmap_app, take_drop. }
    destruct (decide (x ∈ (node_kids (g_node gb)).*2)) as [Hin|Hin].
    + assert (IndexNodeHandler.set_parent_page_num b (g_node g) = g_node g) as Hid.
      { pose proof Hin as [kc Hin']%elem_of_snd_inv. by eapply (sibling_kid b gb kc x g). }
      rewrite <-(take_drop 1 (node_kids (g_node gb))), fmap_app in Hnd.
      apply NoDup_app in Hnd as (_ & Hnd & _). specialize (Hnd x).
      apply Hsplit in Hin. rewrite Hid.
      destruct (decide (x ∈ (take 1 _).*2)), (decide (x ∈ (drop 1 _).*2)); try done;
        exfalso; tauto.
    + assert (x ∉ (take 1 (node_kids (g_node gb))).*2) by (intros ?; apply Hin, Hsplit; tauto).
      assert (x ∉ (drop 1 (node_kids (g_node gb))).*2) by (intros ?; apply Hin, Hsplit; tauto).
      by rewrite !decide_False by done.
Qed.

(** The right sibling is short: it takes the last item of the left one. *)
Lemma wp_redistribute_right T s po ds Q :
  view s = (h, po, pg, ds) → shows pg G → of_kind T (g_node ga) →
  (2 <= IndexNodeHandler.size (g_node ga))%nat →
  (∀ s' pg' k, view s' = (h, po, pg', ds) →
     let n := (IndexNodeHandler.size (g_node ga) - 1)%nat in
     node_key (joined (g_node ga) (g_node gb)) n = Some k →
     shows pg' (rebalanced n k) → Q RC.SUCCESS s') →
  wp (redistribute T a b q (S (length l1))) s Q.
Proof.
  intros V Hsh Hkind Hsize HQ.
  destruct siblings_distinct as (Hab & Haq & Hbq).
  destruct (merge_facts Hwf Ha Hb Hq Hnq Hkq) as (Hla & Hlb & _).
  set (n := (IndexNodeHandler.size (g_node ga) - 1)%nat) in *.
  destruct (node_key_is_Some (joined (g_node ga) (g_node gb)) n) as [k Hk].
  { rewrite joined_size. lia. }
  unfold redistribute. rewrite decide_False by done. wp_step. wp_step.
  eapply (wp_last_to_front T a b _ _ s h po pg ds _ V (Hsh _ _ Ha) (Hsh _ _ Hb) Hab Hkind
    sibling_neighbours); [by eapply sibling_kids_apart|lia|].
  clear V. intros s' pg1 V. cbv zeta. fold n. intros Hpa Hpb Hoth.
  assert (q ∉ (drop n (node_kids (g_node ga))).*2) as Hqk.
  { intros [kc Hin]%elem_of_snd_inv. apply subseteq_drop in Hin.
    by destruct (sibling_kid a ga kc q gq Ha Hla Hin Hq) as (_ & _ & _ & ?). }
  wp_step. eapply (wp_key_at T b _ 0 k); [exact V|exact Hpb| | |].
  { by apply of_kind_right_half, of_kind_joined. }
  { by rewrite node_key_right_half. }
  cbn beta. eapply (wp_set_separator _ k _ _ _ _ _ _ V); [|done|].
  { rewrite Hoth, decide_False by done. by rewrite (Hsh _ _ Hq), Hnq. }
  wp_fresh. repeat wp_step. eapply (HQ _ _ k V Hk).
  apply (shows_rebalance (n:=n) (k:=k)); [done|..].
  - by rewrite lookup_insert_ne by done.
  - by rewrite lookup_insert_ne by done.
  - by rewrite lookup_insert_eq.
  - intros x g Hx ???. rewrite lookup_insert_ne by done.
    rewrite right_half_kids, joined_kids.
    assert (drop n (node_kids (g_node ga) ++ node_kids (g_node gb)) =
      drop n (node_kids (g_node ga)) ++ node_kids (g_node gb)) as ->.
    { destruct (merge_same_kind Hwf Ha Hb Hq Hnq Hkq) as
        [(la & lb & Hna & Hnb)|(ia & ib & Hna & Hnb)]; unfold n; rewrite Hna, Hnb;
        cbn [node_kids IndexNodeHandler.size].
      - cbn [app]. by rewrite !drop_nil.
      - apply drop_app_le. lia. }
    rewrite Hoth by done. rewrite (Hsh _ _ Hx), fmap_app.
    assert (x ∈ (node_kids (g_node gb)).*2 →
      IndexNodeHandler.set_parent_page_num b (g_node g) = g_node g) as Hid.
    { intros [kc Hin']%elem_of_snd_inv. by eapply (sibling_kid b gb kc x g). }
    destruct (decide (x ∈ (drop n (node_kids (g_node ga))).*2)) as [Hin|Hin];
      [rewrite decide_True by (apply elem_of_app; by left); done|].
    destruct (decide (x ∈ (node_kids (g_node gb)).*2)) as [Hin2|Hin2];
      [rewrite decide_True by (apply elem_of_app; by right); by rewrite Hid|].
    rewrite decide_False; [done|]. by rewrite elem_of_app; intros [?|?].
Qed.

(** The items of the right sibling go to the left one, and the parent forgets the
    right one. *)
Lemma wp_coalesce rec T (index : nat) s po ds Q :
  view s = (h, po, pg, ds) → shows pg G → of_kind T (g_node ga) →
  (index = 0%nat ∧ l1 = [] ∨ index = S (length l1)) →
  (∀ s' pg', view s' = (h, po, pg', ds ++ [b]) →
     shows pg' (merge_into a b ga gb q gq nq (l1 ++ (ka, a) :: l2) G) →
     wp (rec q) s' Q) →
  wp (coalesce rec T (if decide (index = 0%nat) then b else a)
        (if decide (index = 0%nat) then a else b) q index) s Q.
Proof.
  intros V Hsh Hkind Hindex HQ.
  destruct siblings_distinct as (Hab & Haq & Hbq).
  destruct (merge_facts Hwf Ha Hb Hq Hnq Hkq) as (Hla & Hlb & _).
  unfold coalesce.
  assert ((if decide (index = 0%nat)
    then (if decide (index = 0%nat) then a else b, if decide (index = 0%nat) then b else a, S index)
    else (if decide (index = 0%nat) then b else a, if decide (index = 0%nat) then a else b, index))
    = (a, b, S (length l1))) as ->.
  { destruct (decide (index = 0%nat)); destruct Hindex as [[? ->]| ->]; try done. by subst. }
  set (nq' := InternalIndexNodeHandler.set_array nq (l1 ++ (ka, a) :: l2)).
  wp_step. unfold internal_remove. wp_step.
  wp_step; [rewrite (Hsh _ _ Hq), Hnq; done|]. wp_step.
  apply (wp_some _ nq').
  { unfold InternalIndexNodeHandler.remove, InternalIndexNodeHandler.size.
    rewrite Hkq, length_app. simpl. rewrite decide_True by lia. unfold nq'. do 2 f_equal.
    rewrite (cons_middle (ka, a)), app_assoc.
    replace (S (length l1)) with (length (l1 ++ [(ka, a)])) by (rewrite length_app; simpl; lia).
    rewrite delete_middle. by rewrite <-app_assoc. }
  wp_step. wp_step.
  assert (kids_apart a b (<[q := InternalPage nq']> pg) (node_kids (g_node gb))) as Hap.
  { eapply Forall_impl; [by apply (sibling_kids_apart b gb)|].
    intros [kc c] ([m Hm] & ? & ?). split_and!; [|done..]. simpl in *.
    destruct (decide (c = q)) as [->|]; [rewrite lookup_insert_eq; eauto|].
    rewrite lookup_insert_ne by done. eauto. }
  eapply (wp_move_to T a b _ _ _ _ _ _ _ _ V); [..|exact Hap|].
  { rewrite lookup_insert_ne by done. by apply Hsh. }
  { rewrite lookup_insert_ne by done. by apply Hsh. }
  { done. }
  { done. }
  { exact sibling_neighbours. }
  clear V. intros s' pg1 V Hpa (nb' & Hpb & Hleaf & Hnext) Hoth.
  assert (q ∉ (node_kids (g_node gb)).*2) as Hqk.
  { intros [kc Hin]%elem_of_snd_inv.
    by destruct (sibling_kid b gb kc q gq Hb Hlb Hin Hq) as (_ & _ & _ & ?). }
  assert (∀ s' pg', view s' = (h, po, pg', ds) → (∀ x, x ≠ b → pg' !! x = pg1 !! x) →
    wp (dispose_page b ;;; rec q) s' Q) as Hend.
  { clear V. intros s2 pg2 V2 Heq. wp_step. wp_step. apply (HQ _ _ V).
    apply shows_merge_into; [done|by rewrite Heq|..].
    - rewrite Heq, Hoth, decide_False by done. by rewrite lookup_insert_eq.
    - intros x ???. rewrite Heq, Hoth by done. by rewrite lookup_insert_ne. }
  wp_step. wp_step; [exact Hpa|]. wp_step.
  destruct (merge_same_kind Hwf Ha Hb Hq Hnq Hkq) as
    [(la & lb & Hna & Hnb)|(ia & ib & Hna & Hnb)]; rewrite Hna, Hnb in *; simpl.
  - destruct nb' as [lb'|]; [|done]. specialize (Hnext lb lb' eq_refl eq_refl).
    wp_step. wp_step; [exact Hpa|]. wp_step. wp_step; [exact Hpb|].
    wp_step. apply (Hend _ _ V). intros x Hx. destruct (decide (x = a)) as [->|].
    + rewrite lookup_insert_eq, Hpa. simpl. rewrite Hnext. done.
    + by rewrite lookup_insert_ne.
  - wp_step. by apply (Hend _ _ V).
Qed.
End siblings.

(** ** The recursion *)

(** The tree at the end of an operation: possibly empty. *)
Definition settled h pg G root : Prop :=
  (root = BP_INVALID_PAGE_NUM ∧ G = ∅) ∨
  (wf root G ∧ shows pg G ∧ sized (sizes_ok h root) G).

(** One page may be one item short of its bound. *)
Definition short h root p G : Prop :=
  ∀ x g, G !! x = Some g →
    if decide (x = p) then
      (IndexNodeHandler.size (g_node g) <= IndexNodeHandler.max_size h (g_node g))%nat ∧
      ((if decide (x = root) then if IndexNodeHandler.is_leaf (g_node g) then 0 else 1
        else IndexNodeHandler.max_size h (g_node g) / 2 - 1)
         <= IndexNodeHandler.size (g_node g))%nat
    else sizes_ok h root x (g_node g).

Definition delete_post h po ds G (Q : RC.t → state → Prop) : Prop :=
  ∀ s' pg' ds' G' root', view s' = (new_root h root', po, pg', ds ++ ds') →
    settled (new_root h root') pg' G' root' → (∀ e, entries G e ↔ entries G' e) →
    (∀ x, x ∈ ds' → G' !! x = None) →
    (∀ x g', G' !! x = Some g' → is_Some (G !! x)) → Q RC.SUCCESS s'.

Lemma delete_post_mono h po ds G G1 ds1 Q :
  delete_post h po ds G Q → (∀ e, entries G e ↔ entries G1 e) →
  (∀ x, x ∈ ds1 → G1 !! x = None) → (∀ x g', G1 !! x = Some g' → is_Some (G !! x)) →
  delete_post h po (ds ++ ds1) G1 Q.
Proof.
  intros HQ Hent Hds Hdom s' pg' ds' G' root' V' Hset Hent' Hds' Hdom'.
  eapply (HQ s' pg' (ds1 ++ ds') G' root'); [by rewrite app_assoc|done|..].
  - intros e. by rewrite Hent.
  - intros x [Hx|Hx]%elem_of_app; [|by apply Hds'].
    destruct (G' !! x) as [g'|] eqn:Hg'; [|done].
    destruct (Hdom' _ _ Hg') as [g1 Hg1]. by rewrite (Hds _ Hx) in Hg1.
  - intros x g' Hx. destruct (Hdom' _ _ Hx) as [g1 Hg1]. by eapply Hdom.
Qed.

Section root.
Context {h : IndexFileHeader} {po : P} {pg : page_map} {ds : list PageNum} {root : PageNum}
  {G : gmap PageNum (gnode K)} {gr : gnode K}.
Context (Hlim : limits h) (Hroot : root_page h = root) (Hwf : wf root G) (Hsh : shows pg G)
  (Hshort : short h root root G) (Hr : G !! root = Some gr).

Lemma root_leaf_only l x g : g_node gr = LeafPage l → G !! x = Some g → x = root.
Proof.
  intros Hl Hx. destruct (decide (x = root)) as [|Hne]; [done|].
  assert (g_lvl gr = 0%nat) by (eapply (wf_leaf_lvl root G root); eauto).
  pose proof (wf_lvl _ _ Hwf _ _ _ Hx Hr Hne). lia.
Qed.

Lemma settled_same s' (Q : RC.t → state → Prop) :
  view s' = (h, po, pg, ds) →
  ((if IndexNodeHandler.is_leaf (g_node gr) then 1 else 2)
    <= IndexNodeHandler.size (g_node gr))%nat →
  delete_post h po ds G Q → Q RC.SUCCESS s'.
Proof.
  intros V Hsize HQ. eapply (HQ s' pg [] G root).
  - rewrite app_nil_r, <-Hroot, new_root_same. exact V.
  - right. split_and!; [done..|]. intros x g Hx. pose proof (Hshort _ _ Hx) as Hs.
    unfold sizes_ok. rewrite max_size_new_root. destruct (decide (x = root)) as [->|Hne].
    + assert (g = gr) as -> by congruence. by destruct Hs.
    + unfold sizes_ok in Hs. by rewrite decide_False in Hs.
  - done.
  - by intros x ?%not_elem_of_nil.
  - eauto.
Qed.

Lemma wp_adjust_root s Q :
  view s = (h, po, pg, ds) → (IndexNodeHandler.size (g_node gr) <= 1)%nat →
  delete_post h po ds G Q →
  wp (adjust_root root ;;; mret RC.SUCCESS) s Q.
Proof.
  intros V Hsize HQ. unfold adjust_root. wp_step. wp_step. wp_step; [by apply Hsh|].
  pose proof (Hshort _ _ Hr) as Hs. rewrite !decide_True in Hs by done. destruct Hs as [_ Hs].
  destruct (g_node gr) as [l|i] eqn:Hn; cbn [IndexNodeHandler.is_leaf] in *.
  - (* the last leaf *)
    change (IndexNodeHandler.size (LeafPage l)) with (length (leaf_array l)) in *.
    destruct (decide (0 < length (leaf_array l))%nat) as [Hpos|Hzero].
    + rewrite bool_decide_eq_true_2 by done. simpl. repeat wp_step.
      apply (settled_same _ _ V); [|done]. rewrite Hn. simpl. lia.
    + rewrite bool_decide_eq_false_2 by done. simpl. wp_step. wp_step. wp_step.
      { apply bool_decide_eq_true_2. unfold LeafIndexNodeHandler.size. lia. }
      repeat wp_step. eapply (HQ _ pg [root] ∅ BP_INVALID_PAGE_NUM); [exact V|by left| | |].
      * intros e. split; [|by intros (x & g & Hx & _)].
        intros (x & g & Hx & He). pose proof (root_leaf_only _ _ _ Hn Hx) as ->.
        assert (g = gr) as -> by congruence. unfold g_entries in He. rewrite Hn in He.
        destruct (leaf_array l); [by apply not_elem_of_nil in He|simpl in Hzero; lia].
      * intros x _. apply lookup_empty.
      * intros x g' Hx. by rewrite lookup_empty in Hx.
  - (* a root with a single child *)
    change (IndexNodeHandler.size (InternalPage i)) with (length (internal_array i)) in *.
    destruct (internal_array i) as [|[k c] [|]] eqn:Hk; simpl in Hs, Hsize; [lia| |lia].
    destruct (shrink_spec root G gr i k c Hwf Hr Hn Hk) as (gc & Hc & Hcr & Hl & Hwf' & Hent).
    simpl andb. cbv iota. wp_step. wp_step. wp_step.
    { unfold InternalIndexNodeHandler.value_at. by rewrite Hk. }
    wp_step. wp_step; [by apply Hsh|]. wp_step. wp_step; [by apply Hsh|].
    repeat wp_step. eapply (HQ _ _ [root] (shrink root c gc G) c); [exact V| |done|..].
    + right. split_and!; [done|..].
      * intros x g Hx. unfold shrink in Hx. destruct (decide (x = c)) as [->|].
        { rewrite lookup_insert_eq in Hx. rewrite lookup_insert_eq. by injection Hx as <-. }
        rewrite lookup_insert_ne in Hx by done. rewrite lookup_insert_ne by done.
        apply lookup_delete_Some in Hx as [_ Hx]. by apply Hsh.
      * intros x g Hx. unfold shrink in Hx. destruct (decide (x = c)) as [->|].
        { rewrite lookup_insert_eq in Hx. injection Hx as <-.
          pose proof (Hshort _ _ Hc) as Hsc. rewrite decide_False in Hsc by done.
          destruct Hsc as [Hmax Hmin]. rewrite decide_False in Hmin by done.
          unfold sizes_ok. simpl. rewrite max_size_new_root, max_size_set_parent,
            size_set_parent, is_leaf_set_parent. split; [done|]. rewrite decide_True by done.
          destruct Hlim. pose proof (half_spec (leaf_max_size h)).
          pose proof (half_spec (internal_max_size h)).
          unfold IndexNodeHandler.max_size in Hmin.
          destruct (IndexNodeHandler.is_leaf (g_node gc)); lia. }
        rewrite lookup_insert_ne in Hx by done.
        apply lookup_delete_Some in Hx as [Hxr Hx].
        pose proof (Hshort _ _ Hx) as Hsx. rewrite decide_False in Hsx by done.
        destruct Hsx as [Hmax Hmin]. rewrite decide_False in Hmin by done.
        unfold sizes_ok. rewrite max_size_new_root. split; [done|]. by rewrite decide_False.
    + intros x ->%list_elem_of_singleton. unfold shrink.
      by rewrite lookup_insert_ne, lookup_delete_eq by done.
    + intros x g' Hx. unfold shrink in Hx. destruct (decide (x = c)) as [->|]; [eauto|].
      rewrite lookup_insert_ne in Hx by done. apply lookup_delete_Some in Hx as [_ Hx]. eauto.
Qed.
End root.

Lemma short_settled h po pg ds root G p g s' (Q : RC.t → state → Prop) :
  view s' = (h, po, pg, ds) → root_page h = root → wf root G → shows pg G →
  short h root p G → G !! p = Some g → sizes_ok h root p (g_node g) →
  delete_post h po ds G Q → Q RC.SUCCESS s'.
Proof.
  intros V Hroot Hwf Hsh Hshort Hp Hs HQ. eapply (HQ s' pg [] G root).
  - rewrite app_nil_r, <-Hroot, new_root_same. exact V.
  - right. split_and!; [done..|]. intros x gx Hx. rewrite <-Hroot, new_root_same, Hroot.
    pose proof (Hshort _ _ Hx) as Hsx. destruct (decide (x = p)) as [->|]; [|done].
    by assert (gx = g) as -> by congruence.
  - done.
  - by intros x ?%not_elem_of_nil.
  - eauto.
Qed.

(** ** Sizes after a step *)
Section step_sizes.
Context {h : IndexFileHeader} {root p : PageNum} {G : gmap PageNum (gnode K)}
  {a b q : PageNum} {ga gb gq : gnode K} {nq : InternalIndexNode K}
  {l1 l2 : list (K * PageNum)} {ka kb : K}.
Context (Hlim : limits h) (Hwf : wf root G) (Hshort : short h root p G)
  (Hp : p = a ∨ p = b)
  (Ha : G !! a = Some ga) (Hb : G !! b = Some gb) (Hq : G !! q = Some gq)
  (Hnq : g_node gq = InternalPage nq)
  (Hkq : internal_array nq = l1 ++ (ka, a) :: (kb, b) :: l2).

Let max := IndexNodeHandler.max_size h (g_node ga).

Lemma step_max : IndexNodeHandler.max_size h (g_node gb) = max ∧
  IndexNodeHandler.max_size h (joined (g_node ga) (g_node gb)) = max ∧ (4 <= max)%nat.
Proof.
  unfold max. destruct Hlim as [? ?].
  destruct (merge_same_kind Hwf Ha Hb Hq Hnq Hkq) as
    [(la & lb & -> & ->)|(ia & ib & -> & ->)]; unfold IndexNodeHandler.max_size; simpl; lia.
Qed.

Lemma step_not_root : a ≠ root ∧ b ≠ root ∧ p ≠ root ∧ q ≠ p.
Proof.
  destruct (merge_facts Hwf Ha Hb Hq Hnq Hkq) as (_ & _ & _ & _ & _ & _ & ? & ? & _).
  destruct (siblings_distinct Hwf Ha Hb Hq Hnq Hkq) as (_ & ? & ?).
  destruct Hp as [->| ->]; split_and!; congruence.
Qed.

(** The sizes of the two siblings. *)
Lemma step_sizes :
  (IndexNodeHandler.size (g_node ga) <= max ∧ IndexNodeHandler.size (g_node gb) <= max ∧
   max / 2 - 1 <= IndexNodeHandler.size (g_node ga) ∧
   max / 2 - 1 <= IndexNodeHandler.size (g_node gb) ∧
   (p = a → max / 2 <= IndexNodeHandler.size (g_node gb)) ∧
   (p = b → max / 2 <= IndexNodeHandler.size (g_node ga)))%nat.
Proof.
  destruct step_not_root as (Har & Hbr & _ & _).
  destruct (siblings_distinct Hwf Ha Hb Hq Hnq Hkq) as (Hab & _).
  destruct step_max as (Hmb & _ & _).
  pose proof (Hshort _ _ Ha) as Hsa. pose proof (Hshort _ _ Hb) as Hsb.
  unfold sizes_ok in *. rewrite Hmb in Hsb. fold max in Hsa.
  rewrite !(decide_False (P := a = root)) in Hsa by done.
  rewrite !(decide_False (P := b = root)) in Hsb by done.
  destruct (decide (a = p)), (decide (b = p)); split_and!; try lia; intros; congruence.
Qed.

Lemma step_other x g :
  G !! x = Some g → x ≠ a → x ≠ b → sizes_ok h root x (g_node g).
Proof.
  intros Hx ??. pose proof (Hshort _ _ Hx) as Hs.
  rewrite decide_False in Hs; [done|]. destruct Hp; congruence.
Qed.

Lemma step_parent :
  sizes_ok h root q (InternalPage nq) ∧ (2 <= length (internal_array nq))%nat.
Proof.
  destruct (siblings_distinct Hwf Ha Hb Hq Hnq Hkq) as (_ & ? & ?).
  rewrite <-Hnq. split; [by apply step_other|].
  rewrite Hkq, length_app. simpl. lia.
Qed.

Lemma rebalance_sized n k :
  (max / 2 <= n <= max)%nat →
  (max / 2 <= IndexNodeHandler.size (g_node ga) + IndexNodeHandler.size (g_node gb) - n
    <= max)%nat →
  (n <= IndexNodeHandler.size (g_node ga) + IndexNodeHandler.size (g_node gb))%nat →
  sized (sizes_ok h root)
    (split_at n a b k (GN (g_lo ga) (g_hi gb) (g_lvl ga) (joined (g_node ga) (g_node gb))) q
      (set_kids gq nq (l1 ++ (ka, a) :: l2))
      (InternalIndexNodeHandler.set_array nq (l1 ++ (ka, a) :: l2))
      (l1 ++ (ka, a) :: (k, b) :: l2)
      (merge_into a b ga gb q gq nq (l1 ++ (ka, a) :: l2) G)).
Proof.
  intros Hn1 Hn2 Hn3 x g Hx.
  rewrite lookup_rebalance in Hx.
  destruct step_not_root as (Har & Hbr & _). destruct step_max as (_ & Hmj & _).
  pose proof (joined_size Hwf Ha Hb Hq Hnq Hkq) as Hjs.
  destruct (decide (x = b)) as [->|Hxb].
  { injection Hx as <-. unfold sizes_ok. cbn [g_node]. rewrite decide_False by done.
    rewrite max_size_right_half, size_right_half, Hmj, Hjs. lia. }
  destruct (decide (x = a)) as [->|Hxa].
  { injection Hx as <-. unfold sizes_ok. cbn [g_node]. rewrite decide_False by done.
    rewrite max_size_left_half, size_left_half, Hmj by lia. lia. }
  destruct (decide (x = q)) as [->|Hxq].
  { injection Hx as <-. destruct step_parent as [Hsq _]. unfold sizes_ok in *. simpl in *.
    rewrite Hkq in Hsq. rewrite !length_app in *. simpl in *. exact Hsq. }
  cbv zeta in Hx. destruct (G !! x) as [g0|] eqn:Hg.
  2:{ by destruct (decide (x ∈ (node_kids (g_node gb)).*2)),
      (decide (x ∈ (node_kids (right_half _ _)).*2)). }
  pose proof (step_other _ _ Hg Hxa Hxb) as Hs.
  destruct (decide (x ∈ (node_kids (g_node gb)).*2)),
    (decide (x ∈ (node_kids (right_half _ _)).*2)); injection Hx as <-; simpl;
    by repeat apply sizes_ok_set_parent.
Qed.

Lemma rebalance_dom n k x g' :
  split_at n a b k (GN (g_lo ga) (g_hi gb) (g_lvl ga) (joined (g_node ga) (g_node gb))) q
      (set_kids gq nq (l1 ++ (ka, a) :: l2))
      (InternalIndexNodeHandler.set_array nq (l1 ++ (ka, a) :: l2))
      (l1 ++ (ka, a) :: (k, b) :: l2)
      (merge_into a b ga gb q gq nq (l1 ++ (ka, a) :: l2) G) !! x = Some g' →
  is_Some (G !! x).
Proof.
  intros Hx. rewrite lookup_rebalance in Hx.
  destruct (decide (x = b)) as [->|]; [eauto|]. destruct (decide (x = a)) as [->|]; [eauto|].
  destruct (decide (x = q)) as [->|]; [eauto|]. cbv zeta in Hx.
  destruct (G !! x); [eauto|].
  by destruct (decide (x ∈ (node_kids (g_node gb)).*2)),
    (decide (x ∈ (node_kids (right_half _ _)).*2)).
Qed.

Lemma merge_short :
  (IndexNodeHandler.size (g_node ga) + IndexNodeHandler.size (g_node gb) <= max)%nat →
  short h root q (merge_into a b ga gb q gq nq (l1 ++ (ka, a) :: l2) G).
Proof.
  intros Hsum x g Hx. rewrite lookup_merge_into in Hx.
  destruct step_not_root as (Har & Hbr & _). destruct step_max as (_ & Hmj & _).
  pose proof (joined_size Hwf Ha Hb Hq Hnq Hkq) as Hjs.
  destruct (siblings_distinct Hwf Ha Hb Hq Hnq Hkq) as (Hab & Haq & Hbq).
  destruct (decide (x = b)) as [->|Hxb]; [done|].
  destruct (decide (x = a)) as [->|Hxa].
  { rewrite decide_False by done. injection Hx as <-. unfold sizes_ok. cbn [g_node].
    rewrite decide_False, Hmj, Hjs by done. destruct step_sizes as (? & ? & ? & ? & Hp1 & Hp2).
    destruct Hp as [Hpa|Hpb]; [specialize (Hp1 Hpa)|specialize (Hp2 Hpb)]; lia. }
  destruct (decide (x = q)) as [->|Hxq].
  { injection Hx as <-. destruct step_parent as [[Hmax Hmin] Hlen].
    unfold IndexNodeHandler.max_size in Hmax, Hmin |- *.
    cbn [g_node set_kids IndexNodeHandler.size IndexNodeHandler.is_leaf
      InternalIndexNodeHandler.set_array internal_array] in *.
    rewrite Hkq in Hmax, Hmin, Hlen. rewrite !length_app in *. cbn [length] in *.
    case_decide; lia. }
  case_decide.
  - destruct (G !! x) as [g0|] eqn:Hg; [|done]. injection Hx as <-. simpl.
    apply sizes_ok_set_parent. by eapply step_other.
  - by eapply step_other.
Qed.

Lemma merge_dom x g' :
  merge_into a b ga gb q gq nq (l1 ++ (ka, a) :: l2) G !! x = Some g' → is_Some (G !! x).
Proof.
  intros Hx. rewrite lookup_merge_into in Hx.
  destruct (decide (x = b)) as [->|]; [done|]. destruct (decide (x = a)) as [->|]; [eauto|].
  destruct (decide (x = q)) as [->|]; [eauto|].
  case_decide; [|eauto]. destruct (G !! x); [eauto|done].
Qed.

Lemma merge_lvl x g :
  G !! x = Some g → x ≠ b →
  ∃ g', merge_into a b ga gb q gq nq (l1 ++ (ka, a) :: l2) G !! x = Some g' ∧
    g_lvl g' = g_lvl g ∧ (x = q → of_kind HInternal (g_node g')).
Proof.
  intros Hx Hxb. destruct (siblings_distinct Hwf Ha Hb Hq Hnq Hkq) as (_ & Haq & _).
  rewrite lookup_merge_into, decide_False by done.
  destruct (decide (x = a)) as [->|].
  { eexists. split_and!; [done| |by intros ->]. simpl. congruence. }
  destruct (decide (x = q)) as [->|].
  { eexists. split_and!; [done| |done]. simpl. congruence. }
  rewrite Hx. case_decide; eexists; by split_and!.
Qed.
End step_sizes.

(** ** Finding a short page from its parent *)
Section find_short.
Context {h : IndexFileHeader} {root p : PageNum} {G : gmap PageNum (gnode K)} {g : gnode K}.
Context (Hlim : limits h) (Hwf : wf root G) (Hshort : short h root p G)
  (Hp : G !! p = Some g) (Hne : p ≠ root).

Lemma short_size :
  ((if IndexNodeHandler.is_leaf (g_node g) then 1 else 2)
    <= IndexNodeHandler.size (g_node g))%nat.
Proof.
  pose proof (Hshort _ _ Hp) as Hs. rewrite decide_True in Hs by done. destruct Hs as [_ Hs].
  rewrite decide_False in Hs by done. destruct Hlim.
  pose proof (half_spec (leaf_max_size h)). pose proof (half_spec (internal_max_size h)).
  unfold IndexNodeHandler.max_size in Hs.
  destruct (IndexNodeHandler.is_leaf (g_node g)); lia.
Qed.

(** The last key of the page is in its range. *)
Lemma last_key_range :
  ∃ k, node_key (g_node g) (IndexNodeHandler.size (g_node g) - 1) = Some k ∧
    in_range (g_lo g) (g_hi g) (Fin k).
Proof.
  pose proof short_size as Hsize. destruct (g_node g) as [l|i] eqn:Hn; simpl in *.
  - destruct (lookup_lt_is_Some_2 (leaf_array l) (length (leaf_array l) - 1)) as [e He]; [lia|].
    exists e.1. rewrite He. split; [done|].
    pose proof (wf_node _ _ Hwf _ _ Hp) as Hok. unfold node_ok in Hok. rewrite Hn in Hok.
    destruct Hok as (_ & _ & Hr & _). rewrite Forall_lookup in Hr. by eapply Hr.
  - destruct (lookup_lt_is_Some_2 (internal_array i) (length (internal_array i) - 1))
      as [[k c] He]; [lia|].
    exists k. rewrite He. split; [done|].
    destruct (internal_child Hwf Hp Hn _ _ _ He) as (gc & Hgc & _ & _ & Hlo & _).
    rewrite decide_False in Hlo by lia. rewrite <-Hlo.
    destruct (wf_child Hwf p g k c Hp) as (gc' & Hgc' & _ & _ & _ & Hle & Hge).
    { unfold g_kids. rewrite Hn. by eapply list_elem_of_lookup_2. }
    assert (gc' = gc) as -> by congruence.
    apply (in_range_weaken (g_lo gc) (g_hi gc)); [done..|]. apply in_range_lo.
    by eapply (wf_range _ _ Hwf).
Qed.

(** The lookup of that key in the parent finds the page, and its neighbour. *)
Lemma short_lookup k :
  in_range (g_lo g) (g_hi g) (Fin k) →
  ∃ gq nq l1 ka a kb b l2 index found ins,
    G !! g_parent g = Some gq ∧ g_node gq = InternalPage nq ∧
    InternalIndexNodeHandler.lookup key_cmp nq k = Some (index, found, ins) ∧
    internal_array nq = l1 ++ (ka, a) :: (kb, b) :: l2 ∧
    (index = 0%nat ∧ l1 = [] ∨ index = S (length l1)) ∧
    p = (if decide (index = 0%nat) then a else b) ∧
    InternalIndexNodeHandler.value_at nq index = Some p ∧
    InternalIndexNodeHandler.value_at nq
      (if decide (index = 0%nat) then 1%nat else (index - 1)%nat) =
      Some (if decide (index = 0%nat) then b else a).
Proof.
  intros Hr. destruct (wf_parent Hwf _ _ Hp Hne) as (gq & kp & Hq & Hin & Hlvl & Hlo & Hhi).
  pose proof Hin as (nq & Hnq & _)%g_kids_internal.
  destruct (internal_lookup_spec Hwf Hq Hnq k) as
    (i & k' & c & gc & found & Hlook & Hi & Hgc & Hrc & _).
  { by apply (in_range_weaken (g_lo g) (g_hi g)). }
  destruct (internal_child Hwf Hq Hnq _ _ _ Hi) as (gc' & Hgc' & Hlc & _).
  assert (gc' = gc) as -> by congruence.
  assert (c = p) as -> by (eapply (wf_range_unique Hwf); try done; lia).
  unfold InternalIndexNodeHandler.value_at.
  assert (2 <= length (internal_array nq))%nat as H2.
  { pose proof (Hshort _ _ Hq) as Hs.
    rewrite decide_False in Hs by (intros Heq; rewrite Heq in Hq; assert (gq = g) by congruence;
      subst; lia).
    destruct Hs as [_ Hmin]. rewrite Hnq in Hmin. unfold IndexNodeHandler.max_size in Hmin.
    cbn [IndexNodeHandler.is_leaf IndexNodeHandler.size] in Hmin. destruct Hlim.
    pose proof (half_spec (internal_max_size h)). case_decide; lia. }
  destruct i as [|i].
  - destruct (internal_array nq) as [|[ka a] [|[kb b] l2]] eqn:Harr;
      [simpl in H2; lia..|]. simpl in Hi. injection Hi as -> ->.
    exists gq, nq, [], k', p, kb, b, l2, 0%nat, found. eexists. rewrite Harr.
    split_and!; try done. by left.
  - pose proof (lookup_lt_Some _ _ _ Hi).
    destruct (lookup_lt_is_Some_2 (internal_array nq) i) as [[ka a] Ha]; [lia|].
    exists gq, nq, (take i (internal_array nq)), ka, a, k', p, (drop (S (S i)) (internal_array nq)),
      (S i), found. eexists.
    rewrite !(decide_False (P := S i = 0%nat)) by done.
    replace (S i - 1)%nat with i by lia.
    split_and!; try done.
    + rewrite <-(drop_S _ _ _ Hi), <-(drop_S _ _ _ Ha). by rewrite take_drop.
    + right. rewrite length_take. lia.
    + by rewrite Hi.
    + by rewrite Ha.
Qed.
End find_short.

Lemma wp_coalesce_or_redistribute fuel h po pg ds root G T p g gr s Q :
  limits h → root_page h = root → wf root G → shows pg G → short h root p G →
  G !! p = Some g → of_kind T (g_node g) → G !! root = Some gr →
  (g_lvl gr < fuel + g_lvl g)%nat → view s = (h, po, pg, ds) → delete_post h po ds G Q →
  wp (coalesce_or_redistribute fuel T p) s Q.
Proof.
  intros Hlim Hroot. revert pg ds G T p g gr s.
  induction fuel as [|fuel IH];
    intros pg ds G T p g gr s Hwf Hsh Hshort Hp Hkind Hr Hfuel V HQ.
  { destruct (decide (p = root)) as [->|Hne]; [assert (g = gr) by congruence; subst; lia|].
    pose proof (wf_lvl _ _ Hwf _ _ _ Hp Hr Hne). lia. }
  cbn [coalesce_or_redistribute].
  wp_step. wp_step; [by apply Hsh|]. wp_step. wp_step. rewrite (view_header _ _ _ _ _ V).
  destruct (decide (IndexNodeHandler.min_size h (g_node g) <= _)%nat) as [Hmin|Hmin].
  { wp_step. eapply short_settled; try done.
    unfold sizes_ok. pose proof (Hshort _ _ Hp) as Hs. rewrite decide_True in Hs by done.
    destruct Hs as [Hmax Hs]. split; [exact Hmax|].
    unfold IndexNodeHandler.min_size in Hmin. destruct Hlim as [Hlim1 Hlim2].
    pose proof (half_spec (IndexNodeHandler.max_size h (g_node g))).
    unfold IndexNodeHandler.max_size in *. case_decide; [|lia].
    destruct (IndexNodeHandler.is_leaf (g_node g)); lia. }
  destruct (decide (BP_INVALID_PAGE_NUM = _)) as [Hinv|Hvalid].
  { assert (p = root) as -> by (by apply (wf_parent_valid Hwf _ _ Hp)).
    assert (gr = g) as -> by congruence.
    destruct (decide (1 < _)%nat) as [Hgt|Hle].
    - wp_step. eapply settled_same; try done. by destruct (IndexNodeHandler.is_leaf _); lia.
    - eapply wp_adjust_root; try done. lia. }
  assert (p ≠ root) as Hne.
  { intros ->. apply Hvalid. symmetry. by apply (wf_parent_valid Hwf _ _ Hp). }
  pose proof (short_size Hlim Hshort Hp Hne) as Hsize.
  destruct (last_key_range Hlim Hwf Hshort Hp Hne) as (k & Hk & Hkr).
  destruct (short_lookup Hlim Hwf Hshort Hp Hne k Hkr) as
    (gq & nq & l1 & ka & a & kb & b & l2 & index & found & ins & Hq & Hnq & Hlook & Hkq &
     Hindex & Hpi & Hvp & Hvn).
  fold (g_parent g). set (q := g_parent g) in *.
  wp_step. wp_step; [by apply Hsh|]. wp_step. wp_step.
  { apply bool_decide_eq_true_2. destruct (IndexNodeHandler.is_leaf _); lia. }
  wp_step. eapply (wp_key_at T p _ _ k); [exact V|by apply Hsh|done|exact Hk|].
  wp_step. wp_step; [rewrite (Hsh _ _ Hq), Hnq; done|]. wp_step. wp_step; [exact Hlook|].
  wp_step. wp_step; [exact Hvp|]. wp_step. wp_step; [by apply bool_decide_eq_true_2|].
  wp_step. wp_step; [exact Hvn|].
  assert (∃ ga, G !! a = Some ga) as [ga Ha].
  { destruct (wf_child Hwf q gq ka a Hq) as (ga & ? & _); [|eauto]. unfold g_kids.
    rewrite Hnq, Hkq, elem_of_app. right. left. }
  assert (∃ gb, G !! b = Some gb) as [gb Hb].
  { destruct (wf_child Hwf q gq kb b Hq) as (gb & ? & _); [|eauto]. unfold g_kids.
    rewrite Hnq, Hkq, elem_of_app. right. right. left. }
  assert (p = a ∨ p = b) as Hab by (rewrite Hpi; case_decide; auto).
  destruct (step_max (h:=h) Hlim Hwf Ha Hb Hq Hnq Hkq) as (Hmb & Hmj & Hm4).
  destruct (step_sizes Hlim Hwf Hshort Hab Ha Hb Hq Hnq Hkq) as (Hsa & Hsb & Hsa' & Hsb' & Hpa & Hpb).
  destruct (merge_facts Hwf Ha Hb Hq Hnq Hkq) as (Hla & Hlb & _).
  assert (of_kind T (g_node ga)) as Hka.
  { destruct Hab as [->| ->]; [by assert (g = ga) as <- by congruence|].
    assert (g = gb) as -> by congruence.
    destruct (merge_same_kind Hwf Ha Hb Hq Hnq Hkq) as
      [(la & lb & Hna & Hnb)|(ia & ib & Hna & Hnb)]; rewrite Hnb in Hkind; rewrite Hna;
      by destruct T. }
  assert (∃ gnb, G !! (if decide (index = 0%nat) then b else a) = Some gnb ∧
    (IndexNodeHandler.size (g_node g) + IndexNodeHandler.size (g_node gnb) =
     IndexNodeHandler.size (g_node ga) + IndexNodeHandler.size (g_node gb))%nat) as
    (gnb & Hgnb & Hsum).
  { case_decide; [exists gb|exists ga]; (split; [done|]); rewrite Hpi in Hp.
    - by assert (g = ga) as -> by congruence.
    - assert (g = gb) as -> by congruence. lia. }
  assert (IndexNodeHandler.max_size h (g_node g) = IndexNodeHandler.max_size h (g_node ga)) as Hmg.
  { destruct Hab as [->| ->]; [by assert (g = ga) as <- by congruence|].
    by assert (g = gb) as -> by congruence. }
  assert (S (g_lvl g) = g_lvl gq) as Hlg.
  { destruct Hab as [->| ->]; [by assert (g = ga) as -> by congruence|].
    by assert (g = gb) as -> by congruence. }
  unfold IndexNodeHandler.min_size in Hmin. rewrite Hmg in Hmin.
  pose proof (half_spec (IndexNodeHandler.max_size h (g_node ga))) as Hhalf.
  wp_step. wp_step; [by apply Hsh|]. wp_step. wp_step. wp_step. wp_step; [by apply Hsh|].
  rewrite Hmg, Hsum. destruct (decide (IndexNodeHandler.max_size h (g_node ga) < _)%nat) as [Hmove|Hmerge].
  - assert (∀ n k s' pg', (0 < n)%nat →
      node_key (joined (g_node ga) (g_node gb)) n = Some k → view s' = (h, po, pg', ds) →
      (n = S (IndexNodeHandler.size (g_node ga)) ∧ p = a ∨
       n = (IndexNodeHandler.size (g_node ga) - 1)%nat ∧ p = b) →
      shows pg' (split_at n a b k
        (GN (g_lo ga) (g_hi gb) (g_lvl ga) (joined (g_node ga) (g_node gb))) q
        (set_kids gq nq (l1 ++ (ka, a) :: l2))
        (InternalIndexNodeHandler.set_array nq (l1 ++ (ka, a) :: l2))
        (l1 ++ (ka, a) :: (k, b) :: l2)
        (merge_into a b ga gb q gq nq (l1 ++ (ka, a) :: l2) G)) → Q RC.SUCCESS s') as Hend.
    { clear V. intros n kn s' pg' Hn Hkn V Hnp Hsh'.
      destruct (rebalance_spec Hwf Ha Hb Hq Hnq Hkq Hn Hkn) as [Hwf' Hent'].
      rewrite <-(new_root_same h), Hroot in V.
      eapply (HQ s' pg' []); [by rewrite app_nil_r|right; split_and!; [exact Hwf'|exact Hsh'|]| | |].
      - rewrite <-Hroot, new_root_same, Hroot.
        apply (rebalance_sized Hlim Hwf Hshort Hab Ha Hb Hq Hnq Hkq);
          (destruct Hnp as [[-> Hpx]|[-> Hpx]];
            [specialize (Hpa Hpx); assert (g = ga) as -> by congruence
            |specialize (Hpb Hpx); assert (g = gb) as -> by congruence]; lia).
      - exact Hent'.
      - by intros x ?%not_elem_of_nil.
      - intros x g' Hx. by eapply rebalance_dom in Hx. }
    destruct Hindex as [[-> Hl1]| ->]; simpl in Hpi; subst p.
    + specialize (Hpa eq_refl). assert (g = ga) as -> by congruence.
      eapply (wp_redistribute_left Hwf Ha Hb Hq Hnq Hkq T _ _ _ _ V Hsh Hka Hl1); [lia|].
      intros s' pg' kn V' n Hkn Hsh'. apply (Hend n kn s' pg'); auto; unfold n; lia.
    + specialize (Hpb eq_refl). assert (g = gb) as -> by congruence.
      eapply (wp_redistribute_right Hwf Ha Hb Hq Hnq Hkq T _ _ _ _ V Hsh Hka); [lia|].
      intros s' pg' kn V' n Hkn Hsh'. apply (Hend n kn s' pg'); auto; unfold n; lia.
  - clear Hsum. subst p.
    apply (wp_coalesce Hwf Ha Hb Hq Hnq Hkq _ T index _ po ds _ V Hsh Hka Hindex).
    clear V. intros s' pg' V Hsh'.
    destruct (merge_into_spec Hwf Ha Hb Hq Hnq Hkq) as [Hwf' Hent'].
    assert (∀ x g', merge_into a b ga gb q gq nq (l1 ++ (ka, a) :: l2) G !! x = Some g' →
      is_Some (G !! x)) as Hdom by (intros x g'; by apply merge_dom).
    destruct (step_not_root Hwf Hshort Hab Ha Hb Hq Hnq Hkq) as (_ & Hbr & _ & _).
    destruct (siblings_distinct Hwf Ha Hb Hq Hnq Hkq) as (_ & _ & Hbq).
    destruct (merge_lvl Hwf Hab Ha Hb Hq Hnq Hkq q gq Hq) as (gq' & Hq' & Hlq & Hkq'); [done|].
    destruct (merge_lvl Hwf Hab Ha Hb Hq Hnq Hkq root gr Hr) as (gr' & Hr' & Hlr & _); [done|].
    eapply (IH pg' (ds ++ [b]) _ HInternal q gq' gr' s' Hwf' Hsh'); auto.
    + apply (merge_short Hlim Hwf Hshort Hab Ha Hb Hq Hnq Hkq). lia.
    + lia.
    + eapply delete_post_mono; [exact HQ|exact Hent'| |exact Hdom].
      intros x ->%list_elem_of_singleton. rewrite lookup_merge_into. by rewrite decide_True.
Qed.
End delete.
