(* ===== verification/BplusIndex.v ===== *)
(** * The B+ tree as an index

    What a client of [BplusTreeHandler] can rely on.  [holds s G] says that the
    handler's pages hold the annotated tree [G], possibly empty.  [insert_entry] and
    [delete_entry] end (fuel 32 is enough on 32-bit page numbers), keep [holds], and
    change the entries the way the abstract index [index_insert], [index_delete]
    does. *)
From S2P Require Import Prelude LowerBound RidKey LatchMemo BplusNode BplusTree BplusInv BplusShape.
From S2P Require Import BplusEdit BplusState BplusInsert BplusDelete.
From Stdlib Require Import ZArith Lia Sorted.
From stdpp Require Import base option gmap sorting list.
Local Open Scope Z_scope.

Section index.
Context {K P : Type} `{!IndexKey K} `{!PagePool P}.
Abbreviation state := (state K P).
Abbreviation page_map := (gmap PageNum (IndexNode K)).
Implicit Types (s : state) (h : IndexFileHeader) (po : P) (pg : page_map)
  (ds : list PageNum) (p q a x root : PageNum) (G : gmap PageNum (gnode K))
  (g ga : gnode K) (key : K) (rid : RID.t) (e : K * RID.t).

Definition holds s G : Prop :=
  settled (file_header s) (pages s) G (root_page (file_header s)) ∧
  ∀ p g, G !! p = Some g → p ∈ pool_pages (pool s).

(** The number of levels of the tree. *)
Definition levels s G : nat :=
  match G !! root_page (file_header s) with Some gr => S (g_lvl gr) | None => 0 end.

Lemma holds_tree s G :
  holds s G → root_page (file_header s) ≠ BP_INVALID_PAGE_NUM →
  tree (file_header s) (pool s) (pages s) G (root_page (file_header s)).
Proof. intros [[[? _]|(? & ? & ?)] ?] Hne; [done|]. by split. Qed.

Lemma holds_empty s G :
  holds s G → root_page (file_header s) = BP_INVALID_PAGE_NUM → G = ∅.
Proof.
  intros [[[_ ?]|(Hwf & _ & _)] _] He; [done|].
  destruct (wf_root _ _ Hwf) as [g Hg]. pose proof (wf_num _ _ Hwf _ _ Hg) as Hn.
  rewrite He in Hn. unfold BP_INVALID_PAGE_NUM in Hn. lia.
Qed.

Lemma levels_tree s G root gr :
  tree (file_header s) (pool s) (pages s) G root → G !! root = Some gr →
  levels s G = S (g_lvl gr).
Proof. intros [<- _ _ _ _] Hr. unfold levels. by rewrite Hr. Qed.

Lemma tree_holds s h po pg G root ds :
  view s = (h, po, pg, ds) → root_page h = root → settled h pg G root →
  (∀ p g, G !! p = Some g → p ∈ pool_pages po) → holds s G.
Proof. intros [= <- <- <- _] <- ??. by split. Qed.

Lemma tree_settled h po pg G root : tree h po pg G root → settled h pg G root.
Proof. intros [_ ? ? ? _]. right. by split_and!. Qed.

(** ** After the memo is released *)
Lemma lookup_delete_all pg ds x :
  x ∉ ds → delete_all pg ds !! x = pg !! x.
Proof.
  revert pg. induction ds as [|d ds IH]; intros pg Hx; [done|].
  apply not_elem_of_cons in Hx as [Hne Hx]. simpl. rewrite IH by done.
  by rewrite lookup_delete_ne.
Qed.
Lemma elem_of_dispose_all po ds x :
  x ∈ pool_pages po → x ∉ ds → x ∈ pool_pages (dispose_all po ds).
Proof.
  revert po. induction ds as [|d ds IH]; intros po Hin Hx; [done|].
  apply not_elem_of_cons in Hx as [Hne Hx]. simpl. apply IH; [|done].
  destruct (pool_dispose_ok po d) as [Hsub _]. set_solver.
Qed.

Lemma settled_released h po pg G root ds :
  settled h pg G root → (∀ x, x ∈ ds → G !! x = None) →
  (∀ p g, G !! p = Some g → p ∈ pool_pages po) →
  settled h (delete_all pg ds) G root ∧
  ∀ p g, G !! p = Some g → p ∈ pool_pages (dispose_all po ds).
Proof.
  intros Hset Hds Hpool.
  assert (∀ x g, G !! x = Some g → x ∉ ds) as Hni.
  { intros x g Hx Hin. by rewrite (Hds _ Hin) in Hx. }
  split.
  - destruct Hset as [?|(? & Hsh & ?)]; [by left|right]. split_and!; [done| |done].
    intros x g Hx. rewrite lookup_delete_all by by eapply Hni. by apply Hsh.
  - intros x g Hx. apply elem_of_dispose_all; eauto.
Qed.

(** ** Insertion *)
Lemma wp_create_new_tree key rid s G (Q : RC.t → state → Prop) :
  limits (file_header s) → holds s G → root_page (file_header s) = BP_INVALID_PAGE_NUM →
  pool_can 1 (pool s) →
  (∀ s' G' r, file_header s' = new_root (file_header s) r → holds s' G' →
     (∀ e, e = (key, rid) ∨ entries G e ↔ entries G' e) → Q RC.SUCCESS s') →
  wp (create_new_tree key rid) s Q.
Proof.
  intros Hlim Hh He Hcan HQ. pose proof (holds_empty _ _ Hh He) as ->.
  apply pool_can_S in Hcan as (r & po' & Hal & _).
  apply pool_allocate_ok in Hal as Hr. destruct Hr as (Hr0 & _ & Hrpool).
  assert (view s = (file_header s, pool s, pages s, disposed_pages_ (memo s))) as V by done.
  unfold create_new_tree. wp_step. wp_step. rewrite He, decide_False by (by intros []).
  wp_step. apply (wp_allocate V _ _ _ Hal). clear V. intros s' V.
  unfold init_empty. wp_step. wp_step. wp_step.
  eapply (wp_leaf_insert r 0 key rid _ _ _ _ _ _ _ V); [lk|simpl; lia|].
  wp_fresh. simpl in V. rewrite insert_insert_eq in V. repeat wp_step.
  set (l := LeafNode BP_INVALID_PAGE_NUM BP_INVALID_PAGE_NUM [(key, rid)]).
  set (gl := GN (@MInf K) PInf 0 (LeafPage l)).
  assert (wf r {[r := gl]}) as Hwf.
  { split.
    - rewrite lookup_singleton_eq. eauto.
    - by intros p g [<- <-]%lookup_singleton_Some.
    - by intros p g [<- _]%lookup_singleton_Some.
    - by intros p g gr [<- _]%lookup_singleton_Some.
    - intros p g [<- <-]%lookup_singleton_Some. by left.
    - intros p g [<- <-]%lookup_singleton_Some. unfold node_ok. simpl. split_and!; [done|..].
      + repeat constructor.
      + constructor; [|constructor]. by split.
      + by left. }
  eapply (HQ _ {[r := gl]} r); [by eapply view_header| |].
  - eapply tree_holds; [exact V|done|right; split_and!; [exact Hwf|..]|].
    + intros p g [<- <-]%lookup_singleton_Some. by rewrite lookup_insert_eq.
    + intros p g [<- <-]%lookup_singleton_Some. unfold sizes_ok, IndexNodeHandler.max_size.
      rewrite decide_True by done. simpl. destruct Hlim. lia.
    + intros p g [<- _]%lookup_singleton_Some. rewrite Hrpool. set_solver.
  - intros e. split.
    + intros [->|(p & g & Hp & _)]; [|by rewrite lookup_empty in Hp].
      exists r, gl. rewrite lookup_singleton_eq. split; [done|]. unfold g_entries. simpl. by left.
    + intros (p & g & [<- <-]%lookup_singleton_Some & Hin). unfold g_entries in Hin.
      simpl in Hin. apply list_elem_of_singleton in Hin. by left.
Qed.

(** The outcome of an insertion: refused because of an entry the comparison cannot
    tell apart, or done. *)
Definition insert_outcome s G key rid (rc : RC.t) s' : Prop :=
  (rc = RC.RECORD_DUPLICATE_KEY ∧ file_header s' = file_header s ∧ holds s' G ∧
     ∃ e, entries G e ∧ dup_cmp (file_header s) e.1 key = 0) ∨
  (rc = RC.SUCCESS ∧ (∀ e, entries G e → key_cmp e.1 key ≠ 0) ∧
     ∃ G' r, file_header s' = new_root (file_header s) r ∧ holds s' G' ∧
       ∀ e, entries G' e ↔ e = (key, rid) ∨ entries G e).

Lemma insert_entry_wp fuel key rid s G :
  limits (file_header s) → holds s G → (levels s G <= fuel)%nat →
  pool_can (S (levels s G)) (pool s) →
  wp (insert_entry fuel key rid) s (insert_outcome s G key rid).
Proof.
  intros Hlim Hh Hfuel Hcan. unfold insert_entry. wp_step. wp_step. unfold is_empty.
  case_bool_decide as Hroot.
  { eapply (wp_create_new_tree _ _ _ _ _ Hlim Hh Hroot).
    - eapply pool_can_le; [|exact Hcan]. lia.
    - intros s' G' r Hfh Hh' Hent. right. split; [done|]. split.
      + pose proof (holds_empty _ _ Hh Hroot) as ->.
        by intros e (p & g & Hp & _).
      + exists G', r. split_and!; [done..|]. intros e. by rewrite <-Hent. }
  pose proof (holds_tree _ _ Hh Hroot) as Htree. pose proof Htree as [_ Hwf Hsh Hsz Hpool].
  destruct (wf_root _ _ Hwf) as [gr Hr]. pose proof (levels_tree _ _ _ _ Htree Hr) as Hlv.
  set (root := root_page (file_header s)) in *.
  eapply wp_with_latch_memo; [done|]. intros s1 V1 _.
  wp_step. eapply (wp_find_leaf Hwf fuel INSERT key gr _ _ _ _ _ _ V1 Hsh); [done|done|lia|].
  intros s2 a ga l V2 Ha Hl Hrange _. clear V1. cbn beta iota.
  assert (∀ e, e ∈ leaf_array l → entries G e) as Hin.
  { intros e0 He. exists a, ga. split; [done|]. unfold g_entries. by rewrite Hl. }
  eapply (wp_into_leaf Hlim Htree Ha Hl Hrange Hr fuel s2 _ V2); [lia|by rewrite <-Hlv| |].
  - intros e s3 V3 He Hc s4 V4. left.
    assert (file_header s3 = file_header s ∧ pool s3 = pool s ∧ pages s3 = pages s ∧
      disposed_pages_ (memo s3) = []) as (E1 & E2 & E3 & E4) by by injection V3 as -> -> -> ->.
    rewrite E1, E2, E3, E4 in V4. simpl in V4.
    split; [done|]. split; [by eapply view_header|]. split; [|by exists e; auto].
    eapply tree_holds; [exact V4|done|by eapply tree_settled|done].
  - intros Hno s3 po' pg' G' root' V3 Ht' Hent s4 V4. right. split; [done|].
    assert (file_header s3 = new_root (file_header s) root' ∧ pool s3 = po' ∧ pages s3 = pg' ∧
      disposed_pages_ (memo s3) = []) as (E1 & E2 & E3 & E4) by by injection V3 as -> -> -> ->.
    rewrite E1, E2, E3, E4 in V4. simpl in V4. split.
    + intros e He Hc. destruct (decide (bcmp (g_lo ga) (Fin e.1) <= 0 ∧
        bcmp (Fin e.1) (g_hi ga) < 0)) as [Hre|Hre].
      * assert (e ∈ g_entries ga) as Hg.
        { eapply (wf_entry_leaf Hwf); try done. eapply (wf_leaf_lvl root G a); eauto. }
        unfold g_entries in Hg. rewrite Hl in Hg. apply (Hno _ Hg).
        unfold dup_cmp. destruct (unique _); [|done].
        destruct (decide (attr_cmp e.1 key = 0)) as [|Hne]; [done|].
        pose proof (key_attr_sgn _ _ Hne). lia.
      * apply Hre. destruct Hrange as [Hlo Hhi]. split.
        -- apply (cmp_le_trans _ (Fin key)); [done|]. simpl. apply (cmp_flip_le key_cmp). lia.
        -- apply (cmp_le_lt_trans bcmp _ (Fin key)); [simpl; lia|done].
    + exists G', root'. split; [by eapply view_header|]. split.
      * eapply tree_holds; [exact V4|done|by eapply tree_settled|]. apply Ht'.
      * intros e. by rewrite <-Hent.
Qed.

(** ** Deletion *)
Section leaf_delete.
Context {h : IndexFileHeader} {po : P} {pg : page_map} {root a : PageNum}
  {G : gmap PageNum (gnode K)} {ga : gnode K} {l : LeafIndexNode K} {key : K} {i : nat}
  {e0 : K * RID.t}.
Context (Hlim : limits h) (Htree : tree h po pg G root) (Ha : G !! a = Some ga)
  (Hl : g_node ga = LeafPage l) (Hrange : in_range (g_lo ga) (g_hi ga) (Fin key))
  (Hi : leaf_array l !! i = Some e0) (He0 : key_cmp e0.1 key = 0).

Let l' := LeafIndexNodeHandler.set_array l (delete i (leaf_array l)).
Let G' := <[a := GN (g_lo ga) (g_hi ga) (g_lvl ga) (LeafPage l')]> G.

Lemma leaf_delete_wf : wf root G'.
Proof.
  destruct (leaf_sorted_range Htree Ha Hl) as [Hs Hr].
  apply (wf_update_leaf root G a ga l); [apply Htree|done|done| |].
  - by apply delete_keys_sorted.
  - apply Forall_forall. intros e He. rewrite Forall_forall in Hr. apply Hr.
    by eapply list_elem_of_delete_inv.
Qed.

(** A key outside the range of the leaf is another key. *)
Lemma not_in_range_ne k : ¬ in_range (g_lo ga) (g_hi ga) (Fin k) → key_cmp k key ≠ 0.
Proof.
  intros Hn Hc. apply Hn. destruct Hrange as [Hlo Hhi]. split.
  - apply (cmp_le_trans _ (Fin key)); [done|]. simpl. apply (cmp_flip_le key_cmp). lia.
  - apply (cmp_le_lt_trans bcmp _ (Fin key)); [simpl; lia|done].
Qed.

Lemma leaf_delete_entries e : entries G' e ↔ entries G e ∧ key_cmp e.1 key ≠ 0.
Proof.
  destruct (leaf_sorted_range Htree Ha Hl) as [Hs Hr].
  unfold G', l'. rewrite (entries_update_leaf root) by (done || apply Htree).
  assert (∀ e, e ∈ delete i (leaf_array l) ↔ e ∈ leaf_array l ∧ key_cmp e.1 key ≠ 0) as Hdel.
  { intros e1. split.
    - intros [j Hj]%list_elem_of_lookup. rewrite list_lookup_delete in Hj.
      assert (∀ j', j' ≠ i → leaf_array l !! j' = Some e1 →
        e1 ∈ leaf_array l ∧ key_cmp e1.1 key ≠ 0) as Hne.
      { intros j' Hj' Hlk. split; [by eapply list_elem_of_lookup_2|]. intros Hc.
        assert (key_cmp e1.1 e0.1 = 0) as Heq.
        { assert (key_cmp e1.1 e0.1 <= 0 ∧ key_cmp e0.1 e1.1 <= 0) as [H1 H2].
          { split; apply (cmp_le_trans _ key); try lia; apply (cmp_flip_le key_cmp); lia. }
          apply (cmp_flip_le key_cmp) in H2. lia. }
        destruct (Nat.lt_trichotomy j' i) as [Hlt|[|Hgt]]; [|done|].
        - pose proof (sorted_lookup_lt _ _ _ _ _ Hs Hlk Hi Hlt). lia.
        - pose proof (sorted_lookup_lt _ _ _ _ _ Hs Hi Hlk Hgt) as Hc'.
          apply (cmp_flip_lt key_cmp) in Hc'. lia. }
      case_decide; eapply Hne; [|done| |done]; lia.
    - intros [[j Hj]%list_elem_of_lookup Hc].
      assert (j ≠ i) as Hji by (intros ->; assert (e1 = e0) by congruence; by subst).
      destruct (decide (j < i)%nat).
      + apply (list_elem_of_lookup_2 _ j). rewrite list_lookup_delete. by rewrite decide_True.
      + apply (list_elem_of_lookup_2 _ (j - 1)). rewrite list_lookup_delete.
        rewrite decide_False by lia. by replace (S (j - 1)) with j by lia. }
  rewrite Hdel. split.
  - intros [[He Hc]|[He Hn]].
    + split; [|done]. exists a, ga. split; [done|]. unfold g_entries. by rewrite Hl.
    + split; [done|]. by apply not_in_range_ne.
  - intros [He Hc].
    destruct (decide (bcmp (g_lo ga) (Fin e.1) <= 0 ∧ bcmp (Fin e.1) (g_hi ga) < 0)) as [Hr'|Hr'].
    + left. split; [|done]. assert (e ∈ g_entries ga) as Hg.
      { eapply (wf_entry_leaf (tree_wf _ _ _ _ _ Htree)); try done.
        eapply (wf_leaf_lvl root G a); [apply Htree|done|eauto]. }
      unfold g_entries in Hg. by rewrite Hl in Hg.
    + right. by split.
Qed.

Lemma leaf_delete_shows : shows (<[a := LeafPage l']> pg) G'.
Proof.
  intros x g Hx. unfold G' in Hx. destruct (decide (x = a)) as [->|].
  - rewrite lookup_insert_eq in Hx. rewrite lookup_insert_eq. by injection Hx as <-.
  - rewrite lookup_insert_ne in Hx by done. rewrite lookup_insert_ne by done.
    by apply (tree_shows _ _ _ _ _ Htree).
Qed.

Lemma leaf_delete_length : S (length (delete i (leaf_array l))) = length (leaf_array l).
Proof.
  pose proof (lookup_lt_Some _ _ _ Hi). rewrite length_delete by eauto. lia.
Qed.

Lemma leaf_delete_short : short h root a G'.
Proof.
  intros x g Hx. unfold G' in Hx. destruct (decide (x = a)) as [->|].
  - rewrite lookup_insert_eq in Hx. injection Hx as <-. cbn [g_node].
    destruct (tree_sized _ _ _ _ _ Htree _ _ Ha) as [Hmax Hmin]. rewrite Hl in Hmax, Hmin.
    unfold IndexNodeHandler.max_size in *. simpl in Hmax.
    cbn [IndexNodeHandler.is_leaf IndexNodeHandler.size l' leaf_array
      LeafIndexNodeHandler.set_array] in *.
    pose proof leaf_delete_length. case_decide; lia.
  - rewrite lookup_insert_ne in Hx by done. by apply (tree_sized _ _ _ _ _ Htree).
Qed.

Lemma leaf_delete_dom x g : G' !! x = Some g → is_Some (G !! x).
Proof.
  intros Hx. unfold G' in Hx. destruct (decide (x = a)) as [->|]; [eauto|].
  rewrite lookup_insert_ne in Hx by done. eauto.
Qed.
End leaf_delete.

(** [delete_entry_internal] at the leaf of the key. *)
Section delete_internal.
Context {h : IndexFileHeader} {po : P} {pg : page_map} {ds : list PageNum}
  {root a : PageNum} {G : gmap PageNum (gnode K)} {ga gr : gnode K} {l : LeafIndexNode K}
  {key : K}.
Context (Hlim : limits h) (Htree : tree h po pg G root) (Ha : G !! a = Some ga)
  (Hl : g_node ga = LeafPage l) (Hrange : in_range (g_lo ga) (g_hi ga) (Fin key))
  (Hr : G !! root = Some gr).

Lemma leaf_absent e :
  (∀ e, e ∈ leaf_array l → key_cmp e.1 key ≠ 0) → entries G e → key_cmp e.1 key ≠ 0.
Proof.
  intros Hno He.
  destruct (decide (bcmp (g_lo ga) (Fin e.1) <= 0 ∧ bcmp (Fin e.1) (g_hi ga) < 0)) as [Hr'|Hr'].
  - assert (e ∈ g_entries ga) as Hg.
    { eapply (wf_entry_leaf (tree_wf _ _ _ _ _ Htree)); try done.
      eapply (wf_leaf_lvl root G a); [apply Htree|done|eauto]. }
    unfold g_entries in Hg. rewrite Hl in Hg. by apply Hno.
  - by apply (not_in_range_ne Hrange).
Qed.

Lemma wp_delete_internal fuel s Q :
  view s = (h, po, pg, ds) → (g_lvl gr < fuel)%nat →
  ((∀ e, entries G e → key_cmp e.1 key ≠ 0) →
     ∀ s', view s' = (h, po, pg, ds) → Q RC.RECORD_NOT_EXIST s') →
  (∀ e0, entries G e0 → key_cmp e0.1 key = 0 →
     ∀ s' pg' ds' G' root', view s' = (new_root h root', po, pg', ds ++ ds') →
       settled (new_root h root') pg' G' root' →
       (∀ e, entries G' e ↔ entries G e ∧ key_cmp e.1 key ≠ 0) →
       (∀ x, x ∈ ds' → G' !! x = None) →
       (∀ x g', G' !! x = Some g' → is_Some (G !! x)) → Q RC.SUCCESS s') →
  wp (delete_entry_internal fuel a key) s Q.
Proof.
  intros V Hfuel Hno Hok. pose proof Htree as [Hroot Hwf Hsh Hsz Hpool].
  assert (pg !! a = Some (LeafPage l)) as Hpa by by rewrite (Hsh _ _ Ha), Hl.
  destruct (leaf_sorted_range Htree Ha Hl) as [Hs _].
  destruct (leaf_lookup_spec l key Hs) as (i & found & Hlook & Hans).
  pose proof (lower_bound_answer_found _ _ _ _ _ Hans) as Hfound.
  unfold delete_entry_internal. wp_step. wp_step; [exact Hpa|]. wp_step.
  destruct found.
  - destruct Hans as (e0 & Hi & Hc0).
    set (l' := LeafIndexNodeHandler.set_array l (delete i (leaf_array l))).
    apply (wp_some _ (1%nat, l')).
    { unfold LeafIndexNodeHandler.remove_key. rewrite Hlook. simpl.
      unfold LeafIndexNodeHandler.remove, LeafIndexNodeHandler.size.
      by rewrite decide_True by (by eapply lookup_lt_Some). }
    cbn beta iota. rewrite decide_False by done. repeat (wp_step; []).
    rewrite (view_header _ _ _ _ _ V).
    assert (g_lvl ga = 0%nat) as Hlvl by (eapply (wf_leaf_lvl root G a); eauto).
    assert (entries G e0) as He0.
    { exists a, ga. split; [done|]. unfold g_entries. rewrite Hl.
      by eapply list_elem_of_lookup_2. }
    set (G1 := <[a := GN (g_lo ga) (g_hi ga) (g_lvl ga) (LeafPage l')]> G).
    assert (delete_post h po ds G1 Q) as Hpost.
    { intros s' pg' ds' G' root' V' Hset Hent Hds Hdom.
      eapply (Hok e0 He0 Hc0 s' pg' ds' G' root' V' Hset); [|done|].
      - intros e. rewrite <-Hent. by eapply leaf_delete_entries.
      - intros x g' Hx. destruct (Hdom _ _ Hx) as [g1 Hg1].
        by eapply (leaf_delete_dom Ha). }
    assert (∃ gr1, G1 !! root = Some gr1 ∧ g_lvl gr1 = g_lvl gr) as (gr1 & Hr1 & Hlr1).
    { unfold G1. destruct (decide (a = root)) as [->|].
      - rewrite lookup_insert_eq. eexists. split; [done|]. simpl. congruence.
      - rewrite lookup_insert_ne by done. by exists gr. }
    assert (G1 !! a = Some (GN (g_lo ga) (g_hi ga) (g_lvl ga) (LeafPage l'))) as Ha1
      by apply lookup_insert_eq.
    destruct (decide (IndexNodeHandler.min_size h (LeafPage l') <= _)%nat) as [Hmin|Hmin].
    + wp_step. eapply (short_settled h po _ ds root G1 a _ _ Q V Hroot); [..|exact Hpost].
      * by eapply leaf_delete_wf.
      * by eapply leaf_delete_shows.
      * by eapply leaf_delete_short.
      * exact Ha1.
      * pose proof (leaf_delete_short Htree Ha Hl Hi a _ Ha1) as Hs1.
        rewrite decide_True in Hs1 by done. destruct Hs1 as [Hmax _]. split; [exact Hmax|].
        unfold IndexNodeHandler.min_size, IndexNodeHandler.max_size in *. destruct Hlim.
        pose proof (half_spec (leaf_max_size h)).
        cbn [g_node IndexNodeHandler.is_leaf IndexNodeHandler.size l' leaf_array
          LeafIndexNodeHandler.set_array] in *.
        change (LeafIndexNodeHandler.size l') with (length (delete i (leaf_array l))) in Hmin.
        case_decide; lia.
    + eapply (wp_coalesce_or_redistribute fuel h po _ ds root G1 HLeaf a _ gr1 _ Q Hlim Hroot
        (leaf_delete_wf Htree Ha Hl)); try exact Hpost; try exact V; try done.
      * by eapply leaf_delete_shows.
      * by eapply leaf_delete_short.
      * rewrite Hlr1. simpl. lia.
  - apply (wp_some _ (0%nat, l)).
    { unfold LeafIndexNodeHandler.remove_key. by rewrite Hlook. }
    cbn beta iota. rewrite decide_True by done. wp_step. apply (Hno); [|done].
    intros e. apply leaf_absent. intros e1 He1 Hc1.
    assert (false = true); [|done]. apply Hfound. by exists e1.
Qed.
End delete_internal.

(** The outcome of a deletion. *)
Definition delete_outcome s G key (rc : RC.t) s' : Prop :=
  (rc = RC.RECORD_NOT_EXIST ∧ file_header s' = file_header s ∧ holds s' G ∧
     ∀ e, entries G e → key_cmp e.1 key ≠ 0) ∨
  (rc = RC.SUCCESS ∧ (∃ e, entries G e ∧ key_cmp e.1 key = 0) ∧
     ∃ G' r, file_header s' = new_root (file_header s) r ∧ holds s' G' ∧
       ∀ e, entries G' e ↔ entries G e ∧ key_cmp e.1 key ≠ 0).

Lemma delete_entry_wp fuel key s G :
  limits (file_header s) → holds s G → (levels s G <= fuel)%nat →
  wp (delete_entry fuel key) s (delete_outcome s G key).
Proof.
  intros Hlim Hh Hfuel. unfold delete_entry.
  eapply wp_with_latch_memo; [done|]. intros s1 V1 _. wp_step.
  destruct (decide (root_page (file_header s) = BP_INVALID_PAGE_NUM)) as [Hroot|Hroot].
  { eapply (wp_find_leaf_empty _ _ _ _ _ _ _ _ _ V1 Hroot). intros s2 V2. cbn beta iota.
    rewrite decide_True by done. wp_step. intros s4 V4. left.
    assert (file_header s2 = file_header s ∧ pool s2 = pool s ∧ pages s2 = pages s ∧
      disposed_pages_ (memo s2) = []) as (E1 & E2 & E3 & E4) by by injection V2 as -> -> -> ->.
    rewrite E1, E2, E3, E4 in V4. simpl in V4.
    split; [done|]. split; [by eapply view_header|]. destruct Hh as [Hset Hpool].
    split; [eapply tree_holds; [exact V4|reflexivity|exact Hset|exact Hpool]|].
    pose proof (holds_empty _ _ (conj Hset Hpool) Hroot) as ->.
    by intros e (p & g & Hp & _). }
  pose proof (holds_tree _ _ Hh Hroot) as Htree. pose proof Htree as [_ Hwf Hsh Hsz Hpool].
  destruct (wf_root _ _ Hwf) as [gr Hr]. pose proof (levels_tree _ _ _ _ Htree Hr) as Hlv.
  set (root := root_page (file_header s)) in *.
  eapply (wp_find_leaf Hwf fuel DELETE key gr _ _ _ _ _ _ V1 Hsh); [done|done|lia|].
  intros s2 a ga l V2 Ha Hl Hrange _. clear V1. cbn beta iota.
  eapply (wp_delete_internal Hlim Htree Ha Hl Hrange Hr fuel s2 _ V2); [lia| |].
  - intros Hno s3 V3 s4 V4. left.
    assert (file_header s3 = file_header s ∧ pool s3 = pool s ∧ pages s3 = pages s ∧
      disposed_pages_ (memo s3) = []) as (E1 & E2 & E3 & E4) by by injection V3 as -> -> -> ->.
    rewrite E1, E2, E3, E4 in V4. simpl in V4.
    split; [done|]. split; [by eapply view_header|]. split; [|done].
    eapply tree_holds; [exact V4|done|by eapply tree_settled|done].
  - intros e0 He0 Hc0 s3 pg' ds' G' root' V3 Hset Hent Hds Hdom s4 V4. right.
    assert (file_header s3 = new_root (file_header s) root' ∧ pool s3 = pool s ∧ pages s3 = pg' ∧
      disposed_pages_ (memo s3) = ds') as (E1 & E2 & E3 & E4) by by injection V3 as -> -> -> ->.
    rewrite E1, E2, E3, E4 in V4. split; [done|]. split; [by exists e0|].
    exists G', root'. split; [by eapply view_header|]. split; [|exact Hent].
    destruct (settled_released _ (pool s) pg' G' root' ds' Hset Hds) as [Hset' Hpool'].
    { intros p g Hp. destruct (Hdom _ _ Hp). by eapply Hpool. }
    eapply tree_holds; [exact V4|done|exact Hset'|exact Hpool'].
Qed.
End index.

(** * The index a B+ tree implements

    The abstract index: the sorted list of its entries, with insertion, removal and
    membership; [represents] relates the state of a handler to it. *)
(** ** The abstract index *)
Section index.
Context {K : Type} `{!IndexKey K}.
Implicit Types (A : list (K * RID.t)) (e : K * RID.t) (key : K).

Fixpoint index_add e A : list (K * RID.t) :=
  match A with
  | [] => [e]
  | x :: A => if decide (key_cmp e.1 x.1 < 0) then e :: x :: A else x :: index_add e A
  end.
Definition index_remove key A : list (K * RID.t) := filter (λ e, key_cmp e.1 key ≠ 0) A.
Definition index_has (cmp : K → K → Z) A key : bool :=
  existsb (λ e, bool_decide (cmp e.1 key = 0)) A.

(** What inserting into an index may do.  Without [unique] the outcome is
    determined.  With [unique] an entry whose attributes are those of the key is
    refused only when it meets it in the leaf of the key. *)
Inductive index_insert (unique : bool) A key (rid : RID.t) : RC.t → list (K * RID.t) → Prop :=
| insert_added :
    index_has key_cmp A key = false →
    index_insert unique A key rid RC.SUCCESS (index_add (key, rid) A)
| insert_refused :
    index_has (if unique then attr_cmp else key_cmp) A key = true →
    index_insert unique A key rid RC.RECORD_DUPLICATE_KEY A.

Definition index_delete A key : RC.t * list (K * RID.t) :=
  if index_has key_cmp A key then (RC.SUCCESS, index_remove key A)
  else (RC.RECORD_NOT_EXIST, A).

Lemma index_has_true cmp A key : index_has cmp A key = true ↔ ∃ e, e ∈ A ∧ cmp e.1 key = 0.
Proof.
  unfold index_has. rewrite existsb_exists. setoid_rewrite bool_decide_eq_true.
  by setoid_rewrite list_elem_of_In.
Qed.
Lemma index_has_false cmp A key : index_has cmp A key = false ↔ ∀ e, e ∈ A → cmp e.1 key ≠ 0.
Proof.
  destruct (index_has cmp A key) eqn:Hh; split; try done.
  - apply index_has_true in Hh as (e & He & Hc). intros Hno. by destruct (Hno e).
  - intros _ e He Hc. assert (index_has cmp A key = true); [|congruence].
    apply index_has_true. eauto.
Qed.

Lemma elem_of_index_add e x A : x ∈ index_add e A ↔ x = e ∨ x ∈ A.
Proof.
  induction A as [|y A IH]; simpl; [by rewrite list_elem_of_singleton, elem_of_nil; intuition|].
  case_decide; rewrite !elem_of_cons, ?IH; intuition.
Qed.

Lemma index_add_sorted e A :
  keys_sorted A → (∀ x, x ∈ A → key_cmp x.1 e.1 ≠ 0) → keys_sorted (index_add e A).
Proof.
  unfold keys_sorted. induction 1 as [|y A Hs IH Hy]; simpl; intros Hne.
  { repeat constructor. }
  case_decide as Hlt.
  - constructor; [by constructor|]. constructor; [done|]. eapply Forall_impl; [exact Hy|].
    intros z Hz. by eapply (cmp_lt_trans key_cmp).
  - constructor; [apply IH; intros; apply Hne; by right|].
    apply Forall_forall. intros z [->|Hz]%elem_of_index_add.
    + assert (key_cmp y.1 e.1 ≠ 0) by (apply Hne; left).
      pose proof (cmp_swap (cmp := key_cmp) y.1 e.1). simpl. lia.
    + rewrite Forall_forall in Hy. by apply Hy.
Qed.

Lemma index_remove_sorted key A : keys_sorted A → keys_sorted (index_remove key A).
Proof.
  unfold keys_sorted, index_remove. induction 1 as [|y A Hs IH Hy]; [constructor|].
  rewrite filter_cons. case_decide; [|done]. constructor; [done|].
  rewrite Forall_forall in *. intros z [_ Hz]%list_elem_of_filter. by apply Hy.
Qed.
End index.

(** ** The state of a handler and the index it represents *)
Section represents.
Context {K P : Type} `{!IndexKey K} `{!PagePool P}.
Abbreviation state := (state K P).
Implicit Types (s : state) (A : list (K * RID.t)) (e : K * RID.t) (key : K).

Definition represents s A : Prop :=
  limits (file_header s) ∧ keys_sorted A ∧
  ∃ G, holds s G ∧ ∀ e, e ∈ A ↔ entries G e.

(** The index is determined by the state. *)
Lemma sorted_unique A A' :
  keys_sorted A → keys_sorted A' → (∀ e, e ∈ A ↔ e ∈ A') → A = A'.
Proof.
  assert (∀ (B : list (K * RID.t)) x, keys_sorted (x :: B) → x ∉ B) as Hni.
  { intros B x Hs Hx. inversion Hs as [|?? _ Hall]; subst. rewrite Forall_forall in Hall.
    pose proof (Hall x Hx). rewrite (cmp_refl key_cmp) in *. lia. }
  revert A'. induction A as [|x A IH]; intros [|y A'] Hs Hs' Heq; [done|..].
  - exfalso. eapply not_elem_of_nil. apply Heq. left.
  - exfalso. eapply not_elem_of_nil. apply Heq. left.
  - assert (x = y) as ->.
    { inversion Hs as [|?? _ H1]; inversion Hs' as [|?? _ H2]; subst.
      rewrite Forall_forall in H1, H2.
      assert (x ∈ y :: A') as [->|Hx]%elem_of_cons by (apply Heq; left); [done|].
      assert (y ∈ x :: A) as [->|Hy]%elem_of_cons by (apply Heq; left); [done|].
      pose proof (H1 _ Hy). pose proof (H2 _ Hx). pose proof (cmp_swap (cmp := key_cmp) x.1 y.1). simpl in *. lia. }
    pose proof (Hni _ _ Hs). pose proof (Hni _ _ Hs'). f_equal.
    apply IH; [by inversion Hs|by inversion Hs'|]. intros e. split; intros He.
    + assert (e ∈ y :: A') as [->|?]%elem_of_cons by (apply Heq; by right); done.
    + assert (e ∈ y :: A) as [->|?]%elem_of_cons by (apply Heq; by right); done.
Qed.

Lemma holds_levels s G : limits (file_header s) → holds s G → (levels s G <= 32)%nat.
Proof.
  intros Hlim [Hset Hpool]. unfold levels.
  destruct (G !! root_page (file_header s)) as [gr|] eqn:Hr; [|lia].
  destruct Hset as [[_ ->]|(Hwf & _ & Hsz)]; [by rewrite lookup_empty in Hr|].
  pose proof (levels_32 _ _ _ gr Hlim Hwf Hsz) as Hlv.
  assert (g_lvl gr < 32)%nat; [|lia]. apply Hlv; [|done].
  intros p g Hp. apply (pool_pages_32 (pool s)). by eapply Hpool.
Qed.

Lemma holds_nil s : root_page (file_header s) = BP_INVALID_PAGE_NUM → holds s ∅.
Proof. intros Hr. split; [left; by rewrite Hr|]. intros p g Hp. by rewrite lookup_empty in Hp. Qed.

Lemma represents_nil s :
  limits (file_header s) → root_page (file_header s) = BP_INVALID_PAGE_NUM → represents s [].
Proof.
  intros Hlim Hr. split_and!; [done|constructor|]. exists ∅. split; [by apply holds_nil|].
  intros e. rewrite elem_of_nil. split; [done|]. by intros (p & g & Hp & _).
Qed.

Lemma index_has_entries s A G cmp key :
  (∀ e, e ∈ A ↔ entries G e) → index_has cmp A key = true ↔ ∃ e, entries G e ∧ cmp e.1 key = 0.
Proof. intros Hent. rewrite index_has_true. by setoid_rewrite Hent. Qed.

(** ** Refinement *)
Lemma insert_entry_refines key rid s A :
  represents s A → pool_can 33 (pool s) →
  wp (insert_entry 32 key rid) s (λ rc s', ∃ A',
    index_insert (unique (file_header s)) A key rid rc A' ∧ represents s' A').
Proof.
  intros (Hlim & HA & G & Hh & Hent) Hcan. pose proof (holds_levels _ _ Hlim Hh) as Hlv.
  eapply wp_mono.
  { apply (insert_entry_wp 32 key rid s G Hlim Hh Hlv). eapply pool_can_le; [|exact Hcan]. lia. }
  intros rc s' [(-> & Hfh & Hh' & e & He & Hc)|(-> & Hno & G' & r & Hfh & Hh' & Hent')].
  - exists A. split.
    + apply insert_refused. apply index_has_true. exists e. split; [by apply Hent|].
      unfold dup_cmp in Hc. by destruct (unique _).
    + split_and!; [by rewrite Hfh|done|]. by exists G.
  - exists (index_add (key, rid) A). split.
    + apply insert_added. apply index_has_false. intros e He. apply Hno. by apply Hent.
    + split_and!; [by rewrite Hfh| |].
      * apply index_add_sorted; [done|]. intros x Hx. apply Hno. by apply Hent.
      * exists G'. split; [done|]. intros e. by rewrite elem_of_index_add, Hent, Hent'.
Qed.

Lemma delete_entry_refines key s A :
  represents s A →
  wp (delete_entry 32 key) s (λ rc s', ∃ A',
    index_delete A key = (rc, A') ∧ represents s' A').
Proof.
  intros (Hlim & HA & G & Hh & Hent). pose proof (holds_levels _ _ Hlim Hh) as Hlv.
  eapply wp_mono; [apply (delete_entry_wp 32 key s G Hlim Hh Hlv)|].
  intros rc s' [(-> & Hfh & Hh' & Hno)|(-> & (e0 & He0 & Hc0) & G' & r & Hfh & Hh' & Hent')];
    unfold index_delete.
  - rewrite (proj2 (index_has_false key_cmp A key)) by (intros e He; apply Hno; by apply Hent).
    exists A. split; [done|]. split_and!; [by rewrite Hfh|done|]. by exists G.
  - rewrite (proj2 (index_has_true key_cmp A key)) by (exists e0; by rewrite Hent).
    exists (index_remove key A). split; [done|].
    split_and!; [by rewrite Hfh|by apply index_remove_sorted|].
    exists G'. split; [done|]. intros e. unfold index_remove.
    rewrite list_elem_of_filter, Hent, Hent'. tauto.
Qed.
End represents.

(** * The leaf chain

    From any leaf the [next_brother] fields lead through the entries of the tree from
    that leaf on, in the order of their keys, and end. *)
Section chain.
Context {K : Type} `{!IndexKey K}.
Implicit Types (G : gmap PageNum (gnode K)) (g : gnode K) (p root : PageNum)
  (es : list (K * RID.t)) (e : K * RID.t) (l : LeafIndexNode K).

Inductive chain G : PageNum → list (K * RID.t) → Prop :=
| chain_end : chain G BP_INVALID_PAGE_NUM []
| chain_leaf p g l es :
    G !! p = Some g → g_node g = LeafPage l → chain G (next_brother l) es →
    chain G p (leaf_array l ++ es).

Lemma count_filter_lt {A} (Q R : A → Prop) `{!∀ x, Decision (Q x)} `{!∀ x, Decision (R x)}
    (xs : list A) y :
  (∀ x, Q x → R x) → y ∈ xs → R y → ¬ Q y →
  (length (filter Q xs) < length (filter R xs))%nat.
Proof.
  intros Hsub. assert (∀ zs, length (filter Q zs) <= length (filter R zs))%nat as Hle.
  { induction zs as [|z zs IH]; [done|]. rewrite !filter_cons.
    repeat case_decide; simpl; try lia. naive_solver. }
  induction xs as [|x xs IH]; intros Hy HR HQ; [by apply not_elem_of_nil in Hy|].
  rewrite !filter_cons. apply elem_of_cons in Hy as [->|Hy].
  - rewrite decide_False, decide_True by done. simpl. specialize (Hle xs). lia.
  - specialize (IH Hy HR HQ). repeat case_decide; simpl; try lia. naive_solver.
Qed.

Section wf.
Context {root : PageNum} {G : gmap PageNum (gnode K)} (Hwf : wf root G).

Definition pages_above (b : bound K) : nat :=
  length (filter (λ x : PageNum * gnode K, bcmp b (g_lo x.2) < 0) (map_to_list G)).

Lemma leaf_chain p g l :
  G !! p = Some g → g_node g = LeafPage l →
  ∃ es, chain G (next_brother l) es ∧ keys_sorted (leaf_array l ++ es) ∧
    ∀ e, e ∈ leaf_array l ++ es ↔ entries G e ∧ bcmp (g_lo g) (Fin e.1) <= 0.
Proof.
  remember (pages_above (g_lo g)) as n eqn:Hn. revert p g l Hn.
  induction (lt_wf n) as [n _ IH]. intros p g l Hn Hp Hl.
  pose proof (wf_node _ _ Hwf _ _ Hp) as Hnode. unfold node_ok in Hnode. rewrite Hl in Hnode.
  destruct Hnode as (Hlvl & Hsort & Hall & Hnext). rewrite Forall_forall in Hall.
  assert (∀ e, entries G e → in_range (g_lo g) (g_hi g) (Fin e.1) → e ∈ leaf_array l) as Hin.
  { intros e He Hr. pose proof (wf_entry_leaf Hwf p g e Hp Hlvl Hr He) as Hg.
    unfold g_entries in Hg. by rewrite Hl in Hg. }
  assert (∀ e, e ∈ leaf_array l → entries G e ∧ bcmp (g_lo g) (Fin e.1) <= 0) as Hleaf.
  { intros e He. split; [|by apply Hall]. exists p, g. split; [done|].
    unfold g_entries. by rewrite Hl. }
  destruct Hnext as [[Hhi Hinv]|(g' & Hg' & Hlvl' & Hlo')].
  - exists []. rewrite Hinv, app_nil_r. split_and!; [constructor|done|]. intros e. split; [auto|].
    intros [He Hlo]. apply Hin; [done|]. split; [done|]. by rewrite Hhi.
  - pose proof (wf_range _ _ Hwf _ _ Hp) as Hlt.
    destruct (proj1 (wf_leaf_lvl root G _ _ Hwf Hg') Hlvl') as [l' Hl'].
    destruct (IH (pages_above (g_lo g'))) with (p := next_brother l) (g := g') (l := l')
      as (es & Hch & Hs' & Hes); [|done..|].
    { subst n. apply (count_filter_lt _ _ _ (next_brother l, g')).
      - intros [x gx]. simpl. rewrite Hlo'. intros. by eapply (cmp_lt_trans bcmp).
      - by apply elem_of_map_to_list.
      - simpl. by rewrite Hlo'.
      - simpl. rewrite (cmp_refl bcmp). lia. }
    exists (leaf_array l' ++ es). split_and!; [by econstructor| |].
    + apply StronglySorted_app. split_and!; [|done|done]. intros e1 e2 He1 [_ He2]%Hes.
      destruct (Hall _ He1) as [_ H1]. rewrite Hlo' in He2.
      exact (cmp_lt_le_trans bcmp _ _ _ H1 He2).
    + intros e. rewrite elem_of_app, Hes, Hlo'. split.
      * intros [He|[He Hlo]]; [auto|]. split; [done|]. apply (cmp_le_trans _ (g_hi g)); lia.
      * intros [He Hlo]. destruct (decide (bcmp (Fin e.1) (g_hi g) < 0)) as [Hh|Hh].
        -- left. apply Hin; [done|]. by split.
        -- right. split; [done|]. apply (cmp_flip_le bcmp). lia.
Qed.

Lemma chain_invalid es : chain G BP_INVALID_PAGE_NUM es → es = [].
Proof.
  inversion 1 as [|? g ? ? Hp]; [done|]. pose proof (wf_num _ _ Hwf _ _ Hp).
  unfold BP_INVALID_PAGE_NUM in *. lia.
Qed.

Lemma chain_det p es es' : chain G p es → chain G p es' → es = es'.
Proof.
  intros Hc. revert es'. induction Hc as [|p g l es Hp Hl Hc IH]; intros es' Hc'.
  - symmetry. by apply chain_invalid.
  - inversion Hc' as [|? g' l' es2 Hp' Hl' Hc2]; subst.
    + pose proof (wf_num _ _ Hwf _ _ Hp). unfold BP_INVALID_PAGE_NUM in *. lia.
    + assert (l' = l) as -> by congruence. f_equal. by apply IH.
Qed.

(** What follows a leaf is not below the end of its range. *)
Lemma chain_above_hi p g l es e :
  G !! p = Some g → g_node g = LeafPage l → chain G (next_brother l) es → e ∈ es →
  bcmp (g_hi g) (Fin e.1) <= 0.
Proof.
  intros Hp Hl Hc He. pose proof (wf_node _ _ Hwf _ _ Hp) as Hnode. unfold node_ok in Hnode.
  rewrite Hl in Hnode. destruct Hnode as (_ & _ & _ & [[_ Hinv]|(g' & Hg' & Hlvl' & Hlo')]).
  - rewrite Hinv in Hc. rewrite (chain_invalid _ Hc) in He. by apply not_elem_of_nil in He.
  - destruct (proj1 (wf_leaf_lvl root G _ _ Hwf Hg') Hlvl') as [l' Hl'].
    destruct (leaf_chain _ _ _ Hg' Hl') as (es' & Hc' & _ & Hes).
    rewrite <-Hlo'. apply Hes. rewrite (chain_det _ es (leaf_array l' ++ es') Hc) in He; [done|].
    by econstructor.
Qed.

Lemma leaf_somewhere : ∃ p g l, G !! p = Some g ∧ g_node g = LeafPage l.
Proof.
  destruct (wf_root _ _ Hwf) as [gr Hr]. remember (g_lvl gr) as n eqn:Hn.
  revert gr Hr Hn. generalize root at 1 as p. intros p gr Hp Hn. revert p gr Hp Hn.
  induction n as [|n IH]; intros p g Hp Hn.
  - destruct (proj1 (wf_leaf_lvl root G _ _ Hwf Hp)) as [l Hl]; [done|]. eauto.
  - destruct (g_node g) as [l|i] eqn:Hg; [eauto|].
    destruct (lookup_lt_is_Some_2 _ _ (internal_size_pos Hwf Hp Hg)) as [[k c] Hi].
    destruct (internal_child Hwf Hp Hg _ _ _ Hi) as (gc & Hgc & Hlc & _).
    apply (IH c gc Hgc). lia.
Qed.
End wf.
End chain.
