(* ===== verification/BplusValidate.v ===== *)
(** * The validators of the tree ([BplusTreeHandler::validate_tree], [storage/index/bplus_tree.cpp])

    The checks the code has for its own trees: every node against its parent and its
    children, and the chain of the leaves.  What they print is left out.  A failing
    [get_this_page] ends a check with [false], except for the children of a node, where it
    is only reported.  [levels_fuel] bounds the depth of the tree, [chain_fuel] the number
    of leaves.  At the end of the file: a tree that represents an index passes. *)
From S2P Require Import Prelude LowerBound RidKey LatchMemo BplusNode BplusTree BplusInv BplusShape.
From S2P Require Import BplusEdit BplusState BplusInsert BplusDelete BplusIndex.
From Stdlib Require Import ZArith Lia Sorted.
From stdpp Require Import base option gmap sorting list.
Local Open Scope Z_scope.

Section validate.
Context {K P : Type} `{!IndexKey K} `{!PagePool P}.
Abbreviation M := (ST (state K P)).

(** each key is less than the next *)
Fixpoint keys_in_order {V} (a : list (K * V)) : bool :=
  match a with
  | x :: (y :: _) as a => if decide (0 <= key_cmp x.1 y.1) then false else keys_in_order a
  | _ => true
  end.
(** A node with the keys [keys] against its parent: the key at [first] is not below the
    separator before the node, the last key is below the one behind it. *)
Definition validate_in_parent (this parent : PageNum) (keys : list K) (first : nat) : M bool :=
  r ← get_this_page parent;
  match r with
  | inl _ => mret false
  | inr parent_frame =>
      parent_node ← read_internal parent_frame;
      let index := InternalIndexNodeHandler.value_index parent_node this in
      if decide (index < 0) then mret false
      else
        let index_in_parent := Z.to_nat index in
        low ← (if decide (index_in_parent = 0%nat) then mret true
               else
                 k ← st_some (keys !! first);
                 item ← st_some (InternalIndexNodeHandler.key_at parent_node index_in_parent);
                 mret (bool_decide (0 <= key_cmp k item)));
        if negb low then mret false
        else if decide (S index_in_parent < InternalIndexNodeHandler.size parent_node)%nat then
          k ← st_some (last keys);
          item ← st_some (InternalIndexNodeHandler.key_at parent_node (S index_in_parent));
          mret (bool_decide (key_cmp k item < 0))
        else mret true
  end.
(** [LeafIndexNodeHandler::validate] *)
Definition leaf_validate (this : PageNum) : M bool :=
  n ← read_leaf this;
  if negb (IndexNodeHandler.validate (LeafPage n)) then mret false
  else if negb (keys_in_order (leaf_array n)) then mret false
  else
    let parent := IndexNodeHandler.parent_page_num (LeafPage n) in
    if decide (parent = BP_INVALID_PAGE_NUM) then mret true
    else validate_in_parent this parent (leaf_array n).*1 0.
(** the loop over the children *)
Fixpoint validate_children (this : PageNum) (items : list (K * PageNum)) : M bool :=
  match items with
  | [] => mret true
  | item :: items =>
      if decide (item.2 < 0) then validate_children this items
      else
        r ← get_this_page item.2;
        match r with
        | inl _ => validate_children this items
        | inr child_frame =>
            child ← read_node child_frame;
            if decide (IndexNodeHandler.parent_page_num child = this) then validate_children this items else mret false
        end
  end.
(** [InternalIndexNodeHandler::validate]: the first key is not looked at *)
Definition internal_validate (this : PageNum) : M bool :=
  n ← read_internal this;
  if negb (IndexNodeHandler.validate (InternalPage n)) then mret false
  else if negb (keys_in_order (drop 1 (internal_array n))) then mret false
  else
    result ← validate_children this (internal_array n);
    if negb result then mret false
    else
      let parent := IndexNodeHandler.parent_page_num (InternalPage n) in
      if decide (parent = BP_INVALID_PAGE_NUM) then mret true
      else validate_in_parent this parent (internal_array n).*1 1.
(** [validate_node_recursive] *)
Fixpoint validate_node_recursive (levels_fuel : nat) (frame : PageNum) : M bool :=
  match levels_fuel with
  | O => st_nofuel
  | S levels_fuel =>
      node ← read_node frame;
      match node with
      | LeafPage _ => leaf_validate frame
      | InternalPage internal_node =>
          result ← internal_validate frame;
          (fix go (items : list (K * PageNum)) (result : bool) : M bool :=
             if negb result then mret false
             else
               match items with
               | [] => mret true
               | item :: items =>
                   r ← memo_get_page item.2;
                   match r with
                   | inl _ => mret false
                   | inr child_frame => result ← validate_node_recursive levels_fuel child_frame; go items result
                   end
               end) (internal_array internal_node) result
      end
  end.
(** [validate_leaf_link]: the loop, with the last key of the leaf before *)
Fixpoint leaf_link_loop (chain_fuel : nat) (next_page_num : PageNum) (prev_key : K) : M bool :=
  if decide (next_page_num = BP_INVALID_PAGE_NUM) then mret true
  else
    match chain_fuel with
    | O => st_nofuel
    | S chain_fuel =>
        r ← memo_get_page next_page_num;
        match r with
        | inl _ => mret false
        | inr frame =>
            leaf_node ← read_leaf frame;
            first ← st_some (LeafIndexNodeHandler.key_at leaf_node 0);
            prev ← st_some (last (leaf_array leaf_node).*1);
            if decide (0 <= key_cmp prev_key first) then mret false
            else leaf_link_loop chain_fuel (next_brother leaf_node) prev
        end
    end.
Definition validate_leaf_link (levels_fuel chain_fuel : nat) : M bool :=
  s ← st_get;
  if is_empty s then mret true
  else
    r ← left_most_page levels_fuel;
    match r with
    | inl _ => mret false
    | inr frame =>
        leaf_node ← read_leaf frame;
        prev_key ← st_some (last (leaf_array leaf_node).*1);
        leaf_link_loop chain_fuel (next_brother leaf_node) prev_key
    end.
(** [validate_tree] *)
Definition validate_tree (levels_fuel chain_fuel : nat) : M bool :=
  s ← st_get;
  if is_empty s then mret true
  else with_latch_memo (
    r ← memo_get_page (root_page (file_header s));
    match r with
    | inl _ => mret false
    | inr frame =>
        b ← validate_node_recursive levels_fuel frame;
        if negb b then mret false else validate_leaf_link levels_fuel chain_fuel
    end).
End validate.

(** * The validators accept every index

    A tree that represents an index passes [validate_tree], which changes no page; the
    levels of the tree and the number of its pages are fuel enough. *)
Section correct.
Context {K P : Type} `{!IndexKey K} `{!PagePool P}.
Abbreviation page_map := (gmap PageNum (IndexNode K)).
Implicit Types (s : state K P) (po : P) (pg : page_map) (ds : list PageNum).

Lemma keys_in_order_sorted {V} (a : list (K * V)) : keys_sorted a → keys_in_order a = true.
Proof.
  induction a as [|x [|y a] IH]; [done..|]. intros Hs. inversion Hs as [|? ? Hs' Hall]; subst.
  apply Forall_inv in Hall. cbn [keys_in_order]. rewrite decide_False by lia. by apply IH.
Qed.
Lemma value_index_at (n : InternalIndexNode K) i k c :
  NoDup (internal_array n).*2 → internal_array n !! i = Some (k, c) → InternalIndexNodeHandler.value_index n c = Z.of_nat i.
Proof.
  unfold InternalIndexNodeHandler.value_index. intros Hnd Hi.
  assert (∀ j, InternalIndexNodeHandler.value_index_from j (internal_array n) c = Z.of_nat (j + i)) as Hg; [|apply (Hg 0%nat)].
  revert i Hi. induction (internal_array n) as [|[k' c'] a IH]; intros i Hi j; [done|].
  apply NoDup_cons in Hnd as [Hni Hnd]. cbn. destruct i as [|i].
  - injection Hi as -> ->. rewrite decide_True by done. f_equal. lia.
  - rewrite decide_False; [rewrite (IH Hnd i Hi (S j)); f_equal; lia|].
    intros <-. apply Hni. apply list_elem_of_fmap. exists (k, c). split; [done|]. by eapply list_elem_of_lookup_2.
Qed.

Section wf.
Context {root : PageNum} {G : gmap PageNum (gnode K)} (Hwf : wf root G).
Context {h : IndexFileHeader} (Hlim : limits h) (Hsz : sized (sizes_ok h root) G).

(** the keys from the second on separate the children *)
Lemma separators_in_range p g n i k :
  G !! p = Some g → g_node g = InternalPage n → (internal_array n).*1 !! i = Some k → (1 <= i)%nat →
  in_range (g_lo g) (g_hi g) (Fin k).
Proof.
  intros Hp Hn Hk Hi. rewrite list_lookup_fmap in Hk. destruct (internal_array n !! i) as [[k' c]|] eqn:Hic; [|done].
  injection Hk as ->. destruct (internal_child Hwf Hp Hn _ _ _ Hic) as (gc & Hgc & _ & _ & Hlo & _).
  rewrite decide_False in Hlo by lia.
  destruct (wf_child Hwf p g k c Hp) as (gc' & Hgc' & _ & _ & _ & Hle & Hhi).
  { unfold g_kids. rewrite Hn. by eapply list_elem_of_lookup_2. }
  assert (gc' = gc) as -> by congruence. rewrite Hlo in Hle. split; [done|].
  pose proof (wf_range _ _ Hwf _ _ Hgc) as Hr. rewrite Hlo in Hr. by eapply (cmp_lt_le_trans bcmp).
Qed.
Lemma leaf_keys_in_range p g l i k :
  G !! p = Some g → g_node g = LeafPage l → (leaf_array l).*1 !! i = Some k → in_range (g_lo g) (g_hi g) (Fin k).
Proof.
  intros Hp Hl Hk. rewrite list_lookup_fmap in Hk. destruct (leaf_array l !! i) as [e|] eqn:He; [|done].
  injection Hk as <-. pose proof (wf_node _ _ Hwf _ _ Hp) as Hnode. unfold node_ok in Hnode. rewrite Hl in Hnode.
  destruct Hnode as (_ & _ & Hall & _). rewrite Forall_lookup in Hall. by apply (Hall _ _ He).
Qed.
Lemma internal_apart p g n : G !! p = Some g → g_node g = InternalPage n → NoDup (internal_array n).*2.
Proof. intros Hp Hn. destruct (internal_node_ok Hwf Hp Hn) as [Ht _]. by eapply tiled_NoDup. Qed.
(** a node has the items the validators ask for *)
Lemma node_items p g :
  G !! p = Some g →
  IndexNodeHandler.validate (g_node g) = true ∧
  match g_node g with LeafPage l => (0 < length (leaf_array l))%nat | InternalPage n => (1 < length (internal_array n))%nat end.
Proof.
  intros Hp. pose proof (Hsz _ _ Hp) as [_ Hmin]. destruct Hlim as [Hleaf Hint].
  pose proof (Nat.Div0.div_le_mono 4 (leaf_max_size h) 2 Hleaf) as H2. change (4 / 2)%nat with 2%nat in H2.
  pose proof (Nat.Div0.div_le_mono 6 (internal_max_size h) 2 Hint) as H3. change (6 / 2)%nat with 3%nat in H3.
  destruct (g_node g) as [l|n] eqn:Hn; cbn [IndexNodeHandler.is_leaf IndexNodeHandler.size IndexNodeHandler.max_size] in Hmin |- *.
  - assert (0 < length (leaf_array l))%nat by (case_decide; lia). split; [|done].
    unfold IndexNodeHandler.validate, IndexNodeHandler.size. destruct (decide (IndexNodeHandler.parent_page_num _ = BP_INVALID_PAGE_NUM)); [|done]. by rewrite decide_False by lia.
  - assert (1 < length (internal_array n))%nat by (case_decide; lia). split; [|done].
    unfold IndexNodeHandler.validate, IndexNodeHandler.size. destruct (decide (IndexNodeHandler.parent_page_num _ = BP_INVALID_PAGE_NUM)); [|done].
    by rewrite decide_False, bool_decide_eq_false_2, andb_false_r by lia.
Qed.

Context {po : P} {pg : page_map} (Hroot : root_page h = root) (Hsh : shows pg G).

Lemma wp_in_parent p g keys first s ds (Q : bool → state K P → Prop) :
  view s = (h, po, pg, ds) → G !! p = Some g → p ≠ root → (first < length keys)%nat →
  (∀ i k, (first <= i)%nat → keys !! i = Some k → in_range (g_lo g) (g_hi g) (Fin k)) →
  (∀ s', view s' = (h, po, pg, ds) → Q true s') →
  wp (validate_in_parent p (g_parent g) keys first) s Q.
Proof.
  intros V Hp Hne Hlen Hkeys HQ.
  destruct (wf_parent Hwf p g Hp Hne) as (gq & k & Hq & Hkid & _). unfold g_kids in Hkid.
  destruct (g_node gq) as [|nq] eqn:Hnq; [by apply not_elem_of_nil in Hkid|].
  apply list_elem_of_lookup in Hkid as [i Hi].
  destruct (internal_child Hwf Hq Hnq _ _ _ Hi) as (g' & Hg' & _ & _ & Hlo & Hhi).
  assert (g' = g) as -> by congruence.
  unfold validate_in_parent. do 2 wp_step; [by apply Hsh|].
  wp_step. wp_step; [rewrite <-Hnq; by apply Hsh|].
  rewrite (value_index_at nq i k p (internal_apart _ _ _ Hq Hnq) Hi). rewrite decide_False by lia. rewrite Nat2Z.id.
  wp_step. apply (wp_mono _ _ (λ b s', b = true ∧ view s' = (h, po, pg, ds))).
  { case_decide as H0; [wp_step; done|].
    destruct (lookup_lt_is_Some_2 keys first Hlen) as [kf Hkf]. destruct (Hkeys first kf ltac:(lia) Hkf) as [Hr _].
    wp_step. wp_step; [exact Hkf|]. wp_step. wp_step; [unfold InternalIndexNodeHandler.key_at; by rewrite Hi|]. wp_step.
    split; [|done]. apply bool_decide_eq_true_2. rewrite Hlo in Hr. cbn in Hr. by apply (cmp_flip_le key_cmp). }
  intros ? s2 [-> V2]. clear Hlo. cbn [negb]. case_decide as Hlast; [|wp_step; by apply HQ].
  destruct (lookup_lt_is_Some_2 _ _ Hlast) as [[k2 c2] Hk2]. rewrite Hk2 in Hhi.
  destruct (lookup_lt_is_Some_2 keys (pred (length keys))) as [kl Hkl]; [lia|].
  destruct (Hkeys (pred (length keys)) kl ltac:(lia) Hkl) as [_ Hr]. rewrite Hhi in Hr. cbn in Hr.
  wp_step. wp_step; [by rewrite last_lookup|]. wp_step. wp_step; [unfold InternalIndexNodeHandler.key_at; by rewrite Hk2|]. wp_step.
  rewrite bool_decide_eq_true_2 by done. by apply HQ.
Qed.

Lemma wp_leaf_validate p g l s ds (Q : bool → state K P → Prop) :
  view s = (h, po, pg, ds) → G !! p = Some g → g_node g = LeafPage l →
  (∀ s', view s' = (h, po, pg, ds) → Q true s') → wp (leaf_validate p) s Q.
Proof.
  intros V Hp Hl HQ. destruct (node_items p g Hp) as [Hv Hlen]. rewrite Hl in Hv, Hlen.
  unfold leaf_validate. wp_step. wp_step; [rewrite <-Hl; by apply Hsh|]. rewrite Hv.
  pose proof (wf_node _ _ Hwf _ _ Hp) as Hnode. unfold node_ok in Hnode. rewrite Hl in Hnode. destruct Hnode as (_ & Hs & _).
  rewrite (keys_in_order_sorted _ Hs). cbn [negb]. rewrite <-Hl. fold (g_parent g). case_decide as Hpar; [wp_step; by apply HQ|].
  eapply wp_in_parent; [done|done| |by rewrite length_fmap| |done].
  - intros ->. apply Hpar. by apply (wf_parent_valid Hwf root g).
  - intros i k _ Hk. by eapply leaf_keys_in_range.
Qed.
Lemma wp_validate_children p g items s ds (Q : bool → state K P → Prop) :
  view s = (h, po, pg, ds) → G !! p = Some g → (∀ x, x ∈ items → x ∈ g_kids g) →
  (∀ s', view s' = (h, po, pg, ds) → Q true s') → wp (validate_children p items) s Q.
Proof.
  intros V Hp. revert s V. induction items as [|[k c] items IH]; intros s V Hin HQ; cbn [validate_children]; [wp_step; by apply HQ|].
  destruct (wf_child Hwf p g k c Hp) as (gc & Hgc & _ & Hpar & _); [apply Hin; left|].
  cbn [snd]. rewrite decide_False by (pose proof (wf_num _ _ Hwf _ _ Hgc); lia).
  do 2 wp_step; [by apply Hsh|]. wp_step. wp_step; [by apply Hsh|]. fold (g_parent gc). rewrite decide_True by done.
  apply IH; [done| |done]. intros x Hx. apply Hin. by right.
Qed.
Lemma wp_internal_validate p g n s ds (Q : bool → state K P → Prop) :
  view s = (h, po, pg, ds) → G !! p = Some g → g_node g = InternalPage n →
  (∀ s', view s' = (h, po, pg, ds) → Q true s') → wp (internal_validate p) s Q.
Proof.
  intros V Hp Hn HQ. destruct (node_items p g Hp) as [Hv Hlen]. rewrite Hn in Hv, Hlen.
  unfold internal_validate. wp_step. wp_step; [rewrite <-Hn; by apply Hsh|]. rewrite Hv.
  rewrite (keys_in_order_sorted _ (internal_seps_sorted Hwf Hp Hn)). cbn [negb]. wp_step.
  eapply (wp_validate_children p g); [done|done|intros x; unfold g_kids; by rewrite Hn|]. clear V. intros ? V. cbn [negb].
  rewrite <-Hn. fold (g_parent g). case_decide as Hpar; [wp_step; by apply HQ|].
  eapply wp_in_parent; [done|done| |by rewrite length_fmap| |done].
  - intros ->. apply Hpar. by apply (wf_parent_valid Hwf root g).
  - intros i k Hi Hk. by eapply separators_in_range.
Qed.
Lemma wp_validate_nodes fuel p g s ds (Q : bool → state K P → Prop) :
  view s = (h, po, pg, ds) → G !! p = Some g → (g_lvl g < fuel)%nat →
  (∀ s', view s' = (h, po, pg, ds) → Q true s') → wp (validate_node_recursive fuel p) s Q.
Proof.
  revert p g s Q. induction fuel as [|fuel IH]; intros p g s Q V Hp Hf HQ; [lia|]. cbn [validate_node_recursive].
  wp_step. wp_step; [by apply Hsh|]. destruct (g_node g) as [l|n] eqn:Hn; [by eapply wp_leaf_validate|].
  wp_step. eapply wp_internal_validate; [done..|]. clear V. intros ? V.
  assert (∀ x, x ∈ internal_array n → x ∈ g_kids g) as Hin by (intros x; unfold g_kids; by rewrite Hn).
  match type of V with view ?x = _ => revert x V end. induction (internal_array n) as [|[k c] items IHi]; intros s2 V; cbn [negb]; [wp_step; by apply HQ|].
  destruct (wf_child Hwf p g k c Hp) as (gc & Hgc & Hl & _); [apply Hin; left|]. cbn [snd].
  do 2 wp_step; [by apply Hsh|]. wp_step. eapply (IH c gc); [done|done|lia|]. clear V. intros ? V.
  apply IHi; [|done]. intros x Hx. apply Hin. by right.
Qed.

(** the chain of the leaves *)
Lemma pages_above_next g g' p' :
  bcmp (g_lo g) (g_hi g) < 0 → G !! p' = Some g' → g_lo g' = g_hi g →
  (pages_above (G := G) (g_lo g') < pages_above (G := G) (g_lo g))%nat.
Proof.
  intros Hlt Hg' Hlo. apply (count_filter_lt _ _ _ (p', g')).
  - intros [x gx]. simpl. rewrite Hlo. intros. by eapply (cmp_lt_trans bcmp).
  - by apply elem_of_map_to_list.
  - simpl. by rewrite Hlo.
  - simpl. rewrite (cmp_refl bcmp). lia.
Qed.
Lemma wp_leaf_link fuel p g l k s ds (Q : bool → state K P → Prop) :
  view s = (h, po, pg, ds) → G !! p = Some g → g_node g = LeafPage l → (pages_above (G := G) (g_lo g) <= fuel)%nat →
  in_range (g_lo g) (g_hi g) (Fin k) →
  (∀ s', view s' = (h, po, pg, ds) → Q true s') → wp (leaf_link_loop fuel (next_brother l) k) s Q.
Proof.
  revert p g l k s. induction fuel as [|fuel IH]; intros p g l k s V Hp Hl Hf Hk HQ; cbn [leaf_link_loop];
    pose proof (wf_node _ _ Hwf _ _ Hp) as Hnode; unfold node_ok in Hnode; rewrite Hl in Hnode;
    destruct Hnode as (_ & _ & _ & [[_ Hinv]|(g' & Hg' & Hlvl & Hlo)]);
    try (rewrite decide_True by done; wp_step; by apply HQ);
    pose proof (pages_above_next g g' _ (wf_range _ _ Hwf _ _ Hp) Hg' Hlo) as Hlt; [lia|].
  rewrite decide_False by (pose proof (wf_num _ _ Hwf _ _ Hg'); unfold BP_INVALID_PAGE_NUM; lia).
  destruct (proj1 (wf_leaf_lvl root G _ _ Hwf Hg') Hlvl) as [l' Hl'].
  pose proof (node_items _ _ Hg') as [_ Hlen]. rewrite Hl' in Hlen.
  assert (length (leaf_array l').*1 = length (leaf_array l')) as Hfm by apply length_fmap.
  destruct (lookup_lt_is_Some_2 (leaf_array l').*1 0) as [k0 Hk0]; [lia|].
  destruct (lookup_lt_is_Some_2 (leaf_array l').*1 (pred (length (leaf_array l').*1))) as [k1 Hk1]; [lia|].
  do 2 wp_step; [by apply Hsh|]. wp_step. wp_step; [rewrite <-Hl'; by apply Hsh|].
  wp_step. wp_step; [unfold LeafIndexNodeHandler.key_at; by rewrite <-list_lookup_fmap|].
  wp_step. wp_step; [by rewrite last_lookup|].
  destruct (leaf_keys_in_range _ _ _ _ _ Hg' Hl' Hk0) as [H0 _]. destruct Hk as [_ Hhi]. rewrite <-Hlo in Hhi.
  pose proof (cmp_lt_le_trans bcmp _ _ _ Hhi H0) as Hcmp. cbn in Hcmp. rewrite decide_False by lia.
  eapply IH; [done|exact Hg'|exact Hl'|lia| |done]. by eapply leaf_keys_in_range.
Qed.
Lemma wp_validate_leaf_link levels fuel gr s ds (Q : bool → state K P → Prop) :
  view s = (h, po, pg, ds) → G !! root = Some gr → (g_lvl gr < levels)%nat → (size pg <= fuel)%nat →
  (∀ s', view s' = (h, po, pg, ds) → Q true s') → wp (validate_leaf_link levels fuel) s Q.
Proof.
  intros V Hr Hlv Hf HQ. unfold validate_leaf_link. wp_step. wp_step.
  unfold is_empty. rewrite (view_header _ _ _ _ _ V), Hroot.
  rewrite bool_decide_eq_false_2 by (pose proof (wf_num _ _ Hwf _ _ Hr); unfold BP_INVALID_PAGE_NUM; lia).
  wp_step. eapply (wp_left_most_page Hwf levels gr); [done..|]. clear V. intros s2 a ga l V Ha Hl _ _.
  pose proof (node_items _ _ Ha) as [_ Hlen]. rewrite Hl in Hlen.
  assert (length (leaf_array l).*1 = length (leaf_array l)) as Hfm by apply length_fmap.
  destruct (lookup_lt_is_Some_2 (leaf_array l).*1 (pred (length (leaf_array l).*1))) as [k Hk]; [lia|].
  wp_step. wp_step; [rewrite <-Hl; by apply Hsh|]. wp_step. wp_step; [by rewrite last_lookup|].
  eapply wp_leaf_link; [done..| |by eapply leaf_keys_in_range|done].
  unfold pages_above. etransitivity; [apply length_filter|]. rewrite length_map_to_list.
  etransitivity; [|exact Hf]. rewrite <-!size_dom. apply subseteq_size. intros x [g Hg]%elem_of_dom.
  apply elem_of_dom. exists (g_node g). by apply Hsh.
Qed.
End wf.

Lemma validate_tree_accepts s A fuel :
  represents s A → (size (pages s) <= fuel)%nat →
  ∃ s', validate_tree 32 fuel s = Done (true, s') ∧ pages s' = pages s ∧ file_header s' = file_header s.
Proof.
  intros (Hlim & _ & G & Hh & _) Hf.
  enough (wp (validate_tree 32 fuel) s (λ b s', b = true ∧ pages s' = pages s ∧ file_header s' = file_header s)) as (b & s' & Hrun & -> & ?)
    by (by exists s').
  unfold validate_tree. wp_step. wp_step. unfold is_empty. case_bool_decide as He; [by wp_step|].
  pose proof (holds_levels s G Hlim Hh) as Hlv. destruct (holds_tree s G Hh He) as [_ Hwf Hsh Hsz _].
  destruct (wf_root _ _ Hwf) as [gr Hr]. unfold levels in Hlv. rewrite Hr in Hlv.
  eapply wp_with_latch_memo; [reflexivity|]. intros s1 V _.
  do 2 wp_step; [by apply Hsh|].
  wp_step. eapply (wp_validate_nodes Hwf Hlim Hsz Hsh); [done|exact Hr|lia|]. clear V. intros ? V. cbn [negb].
  eapply (wp_validate_leaf_link Hwf Hlim Hsz eq_refl Hsh); [done|exact Hr|lia|done|]. clear V. intros s3 V s4 V4.
  injection V as Hh3 _ Hp3 Hd3. rewrite Hh3, Hp3, Hd3 in V4. injection V4 as Hh4 _ Hp4 _. done.
Qed.
End correct.
