(* ===== verification/BplusScan.v ===== *)
(** * Scanning a B+ tree ([BplusTreeScanner], [storage/index/bplus_tree.cpp])

    The scanner walks the leaf chain from the first entry not below the left bound to
    the last one not above the right bound.  Its state is the tree's and
    [current_frame_], [right_key_], [iter_index_], [inited_], [first_emitted_]; the
    memo of the tree's state is [latch_memo_].  [lockable] says whether
    [try_slatch] gets the latch of a page. *)
From S2P Require Import Prelude LowerBound RidKey LatchMemo BplusNode BplusTree.
From Stdlib Require Import ZArith Lia.
From stdpp Require Import base option gmap list.
Local Open Scope Z_scope.

Section scanner.
Context {K U P : Type} `{!IndexKey K} `{!UserKey U K} `{!PagePool P}.
Context (lockable : PageNum → bool).

Record scanner : Type := Scanner {
  tree_handler_ : state K P;
  inited_ : bool;
  current_frame_ : option PageNum;
  right_key_ : option K;
  iter_index_ : Z;
  first_emitted_ : bool
}.
Abbreviation M := (ST scanner).

Definition set_tree (t : state K P) (s : scanner) : scanner :=
  Scanner t (inited_ s) (current_frame_ s) (right_key_ s) (iter_index_ s) (first_emitted_ s).
Definition set_inited (b : bool) (s : scanner) : scanner :=
  Scanner (tree_handler_ s) b (current_frame_ s) (right_key_ s) (iter_index_ s) (first_emitted_ s).
Definition set_frame (f : option PageNum) (s : scanner) : scanner :=
  Scanner (tree_handler_ s) (inited_ s) f (right_key_ s) (iter_index_ s) (first_emitted_ s).
Definition set_right (k : option K) (s : scanner) : scanner :=
  Scanner (tree_handler_ s) (inited_ s) (current_frame_ s) k (iter_index_ s) (first_emitted_ s).
Definition set_index (i : Z) (s : scanner) : scanner :=
  Scanner (tree_handler_ s) (inited_ s) (current_frame_ s) (right_key_ s) i (first_emitted_ s).
Definition set_emitted (b : bool) (s : scanner) : scanner :=
  Scanner (tree_handler_ s) (inited_ s) (current_frame_ s) (right_key_ s) (iter_index_ s) b.

(** A scanner before [open]. *)
Definition new_scanner (t : state K P) : scanner := Scanner t false None None (-1) false.

(** A step of the tree. *)
Definition lift {A} (c : ST (state K P) A) : M A := λ s,
  match c (tree_handler_ s) with
  | Done (a, t) => Done (a, set_tree t s)
  | Crash => Crash
  | OutOfFuel => OutOfFuel
  end.

(** The node of [current_frame_]: a leaf. *)
Definition current_node : M (LeafIndexNode K) :=
  s ← st_get; frame ← st_some (current_frame_ s); lift (read_leaf frame).
Definition index_nat (i : Z) : option nat := if decide (0 <= i) then Some (Z.to_nat i) else None.

Definition fetch_item : M RID.t :=
  node ← current_node;
  s ← st_get;
  i ← st_some (index_nat (iter_index_ s));
  st_some (LeafIndexNodeHandler.value_at node i).

Definition touch_end : M bool :=
  s ← st_get;
  match right_key_ s with
  | None => mret false
  | Some right_key =>
      node ← current_node;
      i ← st_some (index_nat (iter_index_ s));
      this_key ← st_some (LeafIndexNodeHandler.key_at node i);
      mret (bool_decide (0 < key_cmp this_key right_key))
  end.

(** ** [open] *)
Record scan_bound : Type := ScanBound { user_key : U; key_len : nat; inclusive : bool }.

Definition range_refused (left right : option scan_bound) : option bool :=
  match left, right with
  | Some l, Some r =>
      result ← user_cmp (user_key l) (user_key r);
      Some (bool_decide (0 < result) ||
            (bool_decide (result = 0) && (negb (inclusive l) || negb (inclusive r))))
  | _, _ => Some false
  end.

(** The key a bound is compared with: [left] chooses between the two directions. *)
Definition bound_key (left : bool) (b : scan_bound) : option (RC.t + K) :=
  fixed ← (if first_is_chars then fix_user_key (user_key b) (key_len b) left
           else Some (inr (user_key b, false)));
  match fixed with
  | inl rc => Some (inl rc)
  | inr (fixed_key, should_inclusive_after_fix) =>
      let inclusive := inclusive b || should_inclusive_after_fix in
      key ← make_key fixed_key (if Bool.eqb left inclusive then RID.min else RID.max);
      Some (inr key)
  end.

(** The part of [open] that finds the first entry; [inl rc] returns early. *)
Definition open_left (fuel : nat) (left : option scan_bound) : M (RC.t + ()) :=
  match left with
  | None =>
      frame <-? lift (left_most_page fuel) ;;
      st_modify (set_frame (Some frame)) ;;;
      st_modify (set_index 0) ;;;
      mret (inr ())
  | Some left_bound =>
      left_key <-? st_some (bound_key true left_bound) ;;
      r ← lift (find_leaf fuel READ left_key);
      match r with
      | inl RC.EMPTY => st_modify (set_frame None) ;;; mret (inl RC.SUCCESS)
      | inl rc => mret (inl rc)
      | inr frame =>
          st_modify (set_frame (Some frame)) ;;;
          left_node ← current_node;
          look ← st_some (LeafIndexNodeHandler.lookup key_cmp left_node left_key);
          let '(left_index, _) := look in
          if decide (LeafIndexNodeHandler.size left_node <= left_index)%nat then
            let next_page_num := next_brother left_node in
            if decide (next_page_num = BP_INVALID_PAGE_NUM) then
              lift release ;;;
              st_modify (set_frame None) ;;;
              mret (inl RC.SUCCESS)
            else
              frame <-? lift (memo_get_page next_page_num) ;;
              st_modify (set_frame (Some frame)) ;;;
              lift (latch frame SHARED) ;;;
              st_modify (set_index 0) ;;;
              mret (inr ())
          else
            st_modify (set_index (Z.of_nat left_index)) ;;;
            mret (inr ())
      end
  end.

Definition scan_open (fuel : nat) (left right : option scan_bound) : M RC.t :=
  s ← st_get;
  if inited_ s then mret RC.INTERNAL
  else
    st_modify (λ s, set_emitted false (set_inited true s)) ;;;
    refused ← st_some (range_refused left right);
    if refused : bool then mret RC.INVALID_ARGUMENT
    else
      positioned <-? open_left fuel left ;;
      right_key <-? (match right with
                     | None => mret (inr None)
                     | Some right_bound =>
                         key <-? st_some (bound_key false right_bound) ;; mret (inr (Some key))
                     end) ;;
      st_modify (set_right right_key) ;;;
      at_end ← touch_end;
      (if at_end : bool then st_modify (set_frame None) else mret ()) ;;;
      mret RC.SUCCESS.

(** ** [next_entry]: [fuel] bounds the number of leaves the call walks over *)
Fixpoint next_entry_idx (fuel : nat) (idx_need_increase : bool) : M (RC.t + RID.t) :=
  match fuel with
  | O => st_nofuel
  | S fuel =>
      s ← st_get;
      match current_frame_ s with
      | None => mret (inl RC.RECORD_EOF)
      | Some _ =>
          if negb (first_emitted_ s) then
            rid ← fetch_item;
            st_modify (set_emitted true) ;;;
            mret (inr rid)
          else
            (if idx_need_increase then st_modify (λ s, set_index (iter_index_ s + 1) s)
             else mret ()) ;;;
            node ← current_node;
            s ← st_get;
            if decide (iter_index_ s < Z.of_nat (LeafIndexNodeHandler.size node)) then
              at_end ← touch_end;
              if at_end : bool then mret (inl RC.RECORD_EOF)
              else rid ← fetch_item; mret (inr rid)
            else
              let next_page_num := next_brother node in
              if decide (BP_INVALID_PAGE_NUM = next_page_num) then mret (inl RC.RECORD_EOF)
              else
                let point := memo_point (memo (tree_handler_ s)) in
                frame <-? lift (memo_get_page next_page_num) ;;
                st_modify (set_frame (Some frame)) ;;;
                if lockable frame then
                  lift (latch frame SHARED) ;;;
                  lift (release_to point) ;;;
                  st_modify (set_index (-1)) ;;;
                  next_entry_idx fuel true
                else mret (inl RC.LOCKED_NEED_WAIT)
      end
  end.
Definition next_entry (fuel : nat) : M (RC.t + RID.t) := next_entry_idx fuel true.

Definition scan_close : M RC.t := st_modify (set_inited false) ;;; mret RC.SUCCESS.

(** The loop of [get_entry]: the entries until the scan ends, and why it ends. *)
Fixpoint scan_all (fuel : nat) : M (list RID.t * RC.t) :=
  match fuel with
  | O => st_nofuel
  | S fuel =>
      r ← next_entry fuel;
      match r with
      | inl rc => mret ([], rc)
      | inr rid => '(rids, rc) ← scan_all fuel; mret (rid :: rids, rc)
      end
  end.

(** A scan from [open] to [close]; [get_entry] is the scan of one user key. *)
Definition scan_range (fuel : nat) (left right : option scan_bound) : M (RC.t * list RID.t) :=
  rc ← scan_open fuel left right;
  if RC.succ rc then
    '(rids, rc) ← scan_all fuel;
    scan_close ;;;
    mret (if decide (rc = RC.RECORD_EOF) then RC.SUCCESS else rc, rids)
  else mret (rc, []).
Definition get_entry (fuel : nat) (key : U) (len : nat) : M (RC.t * list RID.t) :=
  scan_range fuel (Some (ScanBound key len true)) (Some (ScanBound key len true)).
End scanner.
Arguments scanner : clear implicits.
Arguments scan_bound : clear implicits.
