(* ===== verification/BplusScanCorrect.v ===== *)
(** * What a scan returns

    On a tree that represents a sorted index, with no competing latches, a scan from
    [open] to the end returns the RIDs of the entries between its two keys, in key
    order, each once. *)
From S2P Require Import Prelude LowerBound RidKey LatchMemo BplusNode BplusTree BplusInv.
From S2P Require Import BplusShape BplusEdit BplusState.
From S2P Require Import BplusInsert BplusDelete BplusIndex.
From S2P Require Import BplusScan.
From Stdlib Require Import ZArith Lia Sorted.
From stdpp Require Import base option gmap sorting list.
Local Open Scope Z_scope.

Section scan.
Context {K U P : Type} `{!IndexKey K} `{!UserKey U K} `{!PagePool P}.
Context (lockable : PageNum → bool).
Abbreviation scanner := (scanner K P).
Abbreviation state := (state K P).
Implicit Types (s : scanner) (t : state) (h : IndexFileHeader) (po : P)
  (pg : gmap PageNum (IndexNode K)) (G : gmap PageNum (gnode K)) (a p root : PageNum)
  (l : LeafIndexNode K) (es R : list (K * RID.t)) (e : K * RID.t) (i fuel : nat).

(** ** Steps *)
Lemma wp_lift {A} (c : ST state A) s (Q : A → scanner → Prop) :
  wp c (tree_handler_ s) (λ x t, Q x (set_tree t s)) → wp (lift c) s Q.
Proof.
  intros (x & t & Hc & HQ). exists x, (set_tree t s). split; [|done].
  unfold lift. by rewrite Hc.
Qed.

(** The steps of the memo, with the number of items they leave. *)
Lemma wp_get_page_point {t h po pg ds} (V : view t = (h, po, pg, ds)) {p n} :
  pg !! p = Some n →
  wp (memo_get_page p) t (λ r t', r = inr p ∧ view t' = (h, po, pg, ds) ∧
    memo_point (memo t') = S (memo_point (memo t))).
Proof.
  intros Hp. apply wp_bind. injection V as Vh Vpo Vpg Vds. exists (inr p), t. split.
  { unfold get_this_page, mbind, ST_bind, st_get. by rewrite Vpg, Hp. }
  apply wp_bind, wp_modify, wp_ret. split_and!; [done| |].
  - unfold view. simpl. by rewrite Vh, Vpo, Vpg, Vds.
  - unfold memo_point. simpl. rewrite length_app. simpl. lia.
Qed.
Lemma wp_latch_point t p ty h po pg ds :
  view t = (h, po, pg, ds) →
  wp (latch p ty) t (λ _ t', view t' = (h, po, pg, ds) ∧
    memo_point (memo t') = S (memo_point (memo t))).
Proof.
  intros V. apply wp_modify. split; [by rewrite <-V|].
  unfold memo_point. simpl. rewrite length_app. simpl. lia.
Qed.
Lemma wp_release_to_point t point h po pg ds :
  view t = (h, po, pg, ds) → (point <= memo_point (memo t))%nat →
  wp (release_to point) t (λ _ t', view t' = (h, po, pg, ds)).
Proof.
  intros V Hle. apply wp_bind, wp_get, wp_bind. eapply wp_some.
  { unfold memo_release_to. rewrite decide_True by exact Hle. done. }
  apply wp_modify. by rewrite <-V.
Qed.

(** The upper bound of a scan. *)
Definition below (rk : option K) e : Prop :=
  match rk with Some k => key_cmp e.1 k <= 0 | None => True end.
#[global] Instance below_dec rk e : Decision (below rk e).
Proof. destruct rk; simpl; apply _. Defined.
Definition above (lk : option K) e : Prop :=
  match lk with Some k => key_cmp k e.1 <= 0 | None => True end.
#[global] Instance above_dec lk e : Decision (above lk e).
Proof. destruct lk; simpl; apply _. Defined.

Lemma filter_none {A} (Pr : A → Prop) `{!∀ x, Decision (Pr x)} (xs : list A) :
  (∀ x, x ∈ xs → ¬ Pr x) → filter Pr xs = [].
Proof.
  induction xs as [|x xs IH]; intros Hno; [done|].
  rewrite filter_cons_False by (apply Hno; left). apply IH. intros. apply Hno. by right.
Qed.

Lemma filter_below_stop rk e R :
  keys_sorted (e :: R) → ¬ below rk e → filter (below rk) (e :: R) = [].
Proof.
  intros Hs Hn. apply filter_none. intros x [->|Hx]%elem_of_cons; [done|].
  destruct rk as [k|]; simpl in *; [|done]. inversion Hs as [|?? _ Hall]; subst.
  rewrite Forall_forall in Hall. specialize (Hall _ Hx). simpl in Hall.
  intros Hle. apply Hn. pose proof (cmp_lt_le_trans key_cmp _ _ _ Hall Hle). lia.
Qed.

Lemma filter_sorted (Pr : K * RID.t → Prop) `{!∀ x, Decision (Pr x)} R :
  keys_sorted R → keys_sorted (filter Pr R).
Proof.
  unfold keys_sorted. induction 1 as [|y A Hs IH Hy]; [constructor|].
  rewrite filter_cons. case_decide; [|done]. constructor; [done|].
  rewrite Forall_forall in *. intros z [_ Hz]%list_elem_of_filter. by apply Hy.
Qed.

Lemma leaf_nonempty h root G p g l :
  limits h → sized (sizes_ok h root) G → G !! p = Some g → g_node g = LeafPage l →
  (0 < length (leaf_array l))%nat.
Proof.
  intros [Hmax _] Hsz Hp Hl. destruct (Hsz _ _ Hp) as [_ Hmin]. rewrite Hl in Hmin.
  cbn [IndexNodeHandler.is_leaf IndexNodeHandler.size] in Hmin.
  change (IndexNodeHandler.max_size h (LeafPage l)) with (leaf_max_size h) in Hmin.
  pose proof (half_spec (leaf_max_size h)). case_decide; lia.
Qed.

Section walk.
Context {h : IndexFileHeader} {po : P} {pg : gmap PageNum (IndexNode K)}
  {root : PageNum} {G : gmap PageNum (gnode K)}.
Context (Hwf : wf root G) (Hsh : shows pg G)
  (Hfull : ∀ p g l, G !! p = Some g → g_node g = LeafPage l → (0 < length (leaf_array l))%nat)
  (Hlock : ∀ p, lockable p = true).

(** The scanner stands in the leaf [l] of page [a] at position [i]; the leaves
    after it hold [es]. *)
Record positioned s a (i : Z) l es : Prop := {
  pos_view : view (tree_handler_ s) = (h, po, pg, []);
  pos_frame : current_frame_ s = Some a;
  pos_index : iter_index_ s = i;
  pos_leaf : pg !! a = Some (LeafPage l);
  pos_rest : chain G (next_brother l) es
}.

Section at_leaf.
Context {s a} {i : Z} {l es} (Hpos : positioned s a i l es).

Lemma wp_current_node (Q : LeafIndexNode K → scanner → Prop) :
  Q l s → wp current_node s Q.
Proof.
  destruct Hpos as [V Hf _ Hl _]. intros HQ. unfold current_node.
  apply wp_bind, wp_get, wp_bind. rewrite Hf. eapply wp_some; [done|].
  apply wp_lift. eapply (wp_read_leaf V); [exact Hl|]. by destruct s.
Qed.

Lemma wp_fetch_item n e (Q : RID.t → scanner → Prop) :
  i = Z.of_nat n → leaf_array l !! n = Some e → Q e.2 s → wp fetch_item s Q.
Proof.
  intros Hi He HQ. unfold fetch_item. apply wp_bind, wp_current_node, wp_bind, wp_get, wp_bind.
  rewrite (pos_index _ _ _ _ _ Hpos). unfold index_nat. rewrite decide_True by lia.
  eapply wp_some; [done|]. eapply wp_some; [|exact HQ].
  unfold LeafIndexNodeHandler.value_at. rewrite Hi, Nat2Z.id, He. done.
Qed.

Lemma wp_touch_end n e (Q : bool → scanner → Prop) :
  i = Z.of_nat n → leaf_array l !! n = Some e →
  Q (bool_decide (¬ below (right_key_ s) e)) s → wp touch_end s Q.
Proof.
  intros Hi He HQ. unfold touch_end. apply wp_bind, wp_get.
  destruct (right_key_ s) as [k|] eqn:Hk.
  - apply wp_bind, wp_current_node, wp_bind.
    rewrite (pos_index _ _ _ _ _ Hpos). unfold index_nat. rewrite decide_True by lia.
    eapply wp_some; [done|]. apply wp_bind. eapply wp_some.
    { unfold LeafIndexNodeHandler.key_at. rewrite Hi, Nat2Z.id, He. done. }
    apply wp_ret. replace (bool_decide (0 < key_cmp e.1 k))
      with (bool_decide (¬ below (Some k) e)); [done|].
    apply bool_decide_ext. simpl. lia.
  - by apply wp_ret.
Qed.
End at_leaf.

Lemma chain_next p es :
  chain G p es → p ≠ BP_INVALID_PAGE_NUM →
  ∃ l es', pg !! p = Some (LeafPage l) ∧ es = leaf_array l ++ es' ∧
    chain G (next_brother l) es' ∧ (0 < length (leaf_array l))%nat.
Proof.
  intros Hc Hne. destruct Hc as [|p g l es Hp Hl Hc]; [done|]. exists l, es.
  split_and!; [by rewrite (Hsh _ _ Hp), Hl|done|done|by eapply Hfull].
Qed.

(** The scanner after it has emitted what precedes [R]. *)
Definition remaining s rk R : Prop :=
  ∃ a n l es, positioned s a (Z.of_nat n) l es ∧ right_key_ s = rk ∧
    first_emitted_ s = true ∧ (n < length (leaf_array l))%nat ∧
    R = drop (S n) (leaf_array l) ++ es.

Lemma wp_next_entry_in_leaf fuel (b : bool) s a (i : Z) n l es e rk
    (Q : RC.t + RID.t → scanner → Prop) :
  positioned s a i l es → right_key_ s = rk → first_emitted_ s = true →
  (if b then i + 1 else i) = Z.of_nat n → leaf_array l !! n = Some e →
  (below rk e → ∀ s', remaining s' rk (drop (S n) (leaf_array l) ++ es) → Q (inr e.2) s') →
  (¬ below rk e → ∀ s', Q (inl RC.RECORD_EOF) s') →
  wp (next_entry_idx lockable (S fuel) b) s Q.
Proof.
  intros Hpos Hrk Hem Hi He Hin Hout. cbn [next_entry_idx].
  apply wp_bind, wp_get. rewrite (pos_frame _ _ _ _ _ Hpos), Hem. cbn [negb].
  set (s1 := if b then set_index (i + 1) s else s).
  assert (positioned s1 a (Z.of_nat n) l es) as Hpos1.
  { unfold s1. destruct Hpos as [? ? Hix ? ?]. destruct b; split; simpl; try done; congruence. }
  assert (right_key_ s1 = rk ∧ first_emitted_ s1 = true) as [Hrk1 Hem1] by by unfold s1; destruct b.
  apply wp_bind. assert (wp (if b then st_modify (λ s, set_index (iter_index_ s + 1) s) else mret ())
    s (λ _ s', s' = s1)) as Hstep.
  { unfold s1. rewrite <-(pos_index _ _ _ _ _ Hpos). destruct b; [by apply wp_modify|by apply wp_ret]. }
  eapply wp_mono; [exact Hstep|]. intros _ ? ->. clear Hstep.
  apply wp_bind, (wp_current_node Hpos1), wp_bind, wp_get.
  pose proof (lookup_lt_Some _ _ _ He) as Hlt.
  rewrite (pos_index _ _ _ _ _ Hpos1). unfold LeafIndexNodeHandler.size.
  rewrite decide_True by lia. apply wp_bind.
  eapply (wp_touch_end Hpos1); [done|exact He|]. rewrite Hrk1. case_bool_decide as Hb.
  - apply wp_ret. by apply Hout.
  - apply wp_bind. eapply (wp_fetch_item Hpos1); [done|exact He|]. apply wp_ret, Hin.
    + destruct (decide (below rk e)); done.
    + exists a, n, l, es. split_and!; done.
Qed.

(** One call of [next_entry] after the first. *)
Lemma wp_next_entry fuel s rk R (Q : RC.t + RID.t → scanner → Prop) :
  remaining s rk R → (2 <= fuel)%nat →
  (∀ e R' s', R = e :: R' → below rk e → remaining s' rk R' → Q (inr e.2) s') →
  ((∀ e R', R = e :: R' → ¬ below rk e) → ∀ s', Q (inl RC.RECORD_EOF) s') →
  wp (next_entry lockable fuel) s Q.
Proof.
  intros (a & n & l & es & Hpos & Hrk & Hem & Hn & ->) Hfuel Hin Hout.
  unfold next_entry. destruct fuel as [|fuel]; [lia|].
  destruct (leaf_array l !! S n) as [e|] eqn:He.
  { rewrite (drop_S _ _ _ He) in Hin, Hout.
    eapply (wp_next_entry_in_leaf fuel true s a (Z.of_nat n) (S n)); try done; [lia|..].
    - intros Hb s' Hs'. by eapply Hin.
    - intros Hb s'. apply Hout. by intros ?? [= <- <-]. }
  apply lookup_ge_None in He. rewrite drop_ge in Hin, Hout by lia. simpl in Hin, Hout.
  cbn [next_entry_idx]. apply wp_bind, wp_get.
  rewrite (pos_frame _ _ _ _ _ Hpos), Hem. cbn [negb].
  set (s1 := set_index (iter_index_ s + 1) s). apply wp_bind, wp_modify. fold s1.
  assert (positioned s1 a (Z.of_nat n + 1) l es) as Hpos1.
  { destruct Hpos as [? ? Hix ? ?]. split; simpl; try done. congruence. }
  apply wp_bind, (wp_current_node Hpos1), wp_bind, wp_get.
  rewrite (pos_index _ _ _ _ _ Hpos1). unfold LeafIndexNodeHandler.size.
  rewrite decide_False by lia. case_decide as Hnext.
  { apply wp_ret, Hout. intros e R' ->. pose proof (pos_rest _ _ _ _ _ Hpos) as Hc.
    rewrite <-Hnext in Hc. inversion Hc as [|? g ? ? Hp]; subst.
    pose proof (wf_num _ _ Hwf _ _ Hp). unfold BP_INVALID_PAGE_NUM in *. lia. }
  destruct (chain_next _ _ (pos_rest _ _ _ _ _ Hpos)) as (l' & es' & Hl' & -> & Hc' & Hlen);
    [done|].
  apply wp_bind, wp_lift. eapply wp_mono; [eapply (wp_get_page_point (pos_view _ _ _ _ _ Hpos1) Hl')|].
  intros r t1 (-> & V1 & Hp1). cbn beta iota. apply wp_bind, wp_modify. rewrite Hlock.
  apply wp_bind, wp_lift. eapply wp_mono; [apply (wp_latch_point _ _ _ _ _ _ _ V1)|].
  intros [] t2 (V2 & Hp2). apply wp_bind, wp_lift.
  eapply wp_mono; [apply (wp_release_to_point _ _ _ _ _ _ V2); simpl in *; lia|].
  intros [] t3 V3. apply wp_bind, wp_modify.
  destruct fuel as [|fuel]; [lia|].
  destruct (lookup_lt_is_Some_2 (leaf_array l') 0 Hlen) as [e He'].
  eapply (wp_next_entry_in_leaf fuel true _ (next_brother l) (-1) 0 l' es' e);
    [by split|done|done|done|exact He'|..].
  - intros Hb s' Hs'. eapply (Hin e); [|done|exact Hs'].
    by rewrite <-(take_drop_middle _ _ _ He').
  - intros Hb s'. apply Hout. intros e' R'.
    rewrite <-(take_drop_middle _ _ _ He'). simpl. by intros [= <- <-].
Qed.

(** ** The whole walk *)
Lemma wp_scan_rest R fuel s rk :
  remaining s rk R → keys_sorted R → (length R + 3 <= fuel)%nat →
  wp (scan_all lockable fuel) s (λ r _, r = ((filter (below rk) R).*2, RC.RECORD_EOF)).
Proof.
  revert R s. induction fuel as [|fuel IH]; intros R s Hrem Hs Hf; [lia|].
  cbn [scan_all]. apply wp_bind. eapply (wp_next_entry fuel s rk R _ Hrem); [lia|..].
  - intros e R' s' -> Hb Hrem'. cbn beta iota. apply wp_bind.
    eapply wp_mono; [apply (IH R' s' Hrem'); [by inversion Hs|simpl in Hf; lia]|].
    intros r s2 ->. cbn beta iota. apply wp_ret. by rewrite filter_cons_True.
  - intros Hstop s'. cbn beta iota. apply wp_ret.
    destruct R as [|e R']; [done|]. by rewrite filter_below_stop by (done || by eapply Hstop).
Qed.

(** After a successful [open]: at the end, or at the first entry of [R]. *)
Definition opened s rk R : Prop :=
  (current_frame_ s = None ∧ filter (below rk) R = []) ∨
  ∃ a n l es e R', positioned s a (Z.of_nat n) l es ∧ right_key_ s = rk ∧
    first_emitted_ s = false ∧ leaf_array l !! n = Some e ∧ below rk e ∧
    R = e :: R' ∧ R' = drop (S n) (leaf_array l) ++ es.

Lemma wp_scan_all R fuel s rk :
  opened s rk R → keys_sorted R → (length R + 3 <= fuel)%nat →
  wp (scan_all lockable fuel) s (λ r _, r = ((filter (below rk) R).*2, RC.RECORD_EOF)).
Proof.
  intros Hop Hs Hf. destruct fuel as [|fuel]; [lia|]. cbn [scan_all].
  destruct fuel as [|fuel]; [lia|]. apply wp_bind. unfold next_entry. cbn [next_entry_idx]. apply wp_bind, wp_get.
  destruct Hop as [[Hcur Hnil]|(a & n & l & es & e & R' & Hpos & Hrk & Hem & He & Hb & -> & HR')].
  - rewrite Hcur, Hnil. apply wp_ret. cbn beta iota. by apply wp_ret.
  - rewrite (pos_frame _ _ _ _ _ Hpos), Hem. cbn [negb].
    apply wp_bind, (wp_fetch_item Hpos n e); [done..|].
    apply wp_bind, wp_modify, wp_ret. cbn beta iota. apply wp_bind.
    eapply wp_mono; [eapply (wp_scan_rest R')|].
    + exists a, n, l, es. split_and!; [|done|done|by eapply lookup_lt_Some|done].
      by destruct Hpos; split.
    + by inversion Hs.
    + simpl in Hf. lia.
    + intros r s2 ->. cbn beta iota. apply wp_ret. by rewrite filter_cons_True.
Qed.

(** ** [open] *)
Context (Hroot : root_page h = root).

Definition from_left (lk : option K) R : Prop :=
  keys_sorted R ∧ ∀ e, e ∈ R ↔ entries G e ∧ above lk e.
Definition left_bound (left : option (scan_bound U)) (lk : option K) : Prop :=
  match left with
  | None => lk = None
  | Some b => ∃ k, bound_key true b = Some (inr k) ∧ lk = Some k
  end.
Definition right_bound (right : option (scan_bound U)) (rk : option K) : Prop :=
  match right with
  | None => rk = None
  | Some b => ∃ k, bound_key false b = Some (inr k) ∧ rk = Some k
  end.

(** The entries not below a key that lies in the range of a leaf. *)
Lemma from_left_cut a ga l es key i found :
  G !! a = Some ga → g_node ga = LeafPage l → in_range (g_lo ga) (g_hi ga) (Fin key) →
  keys_sorted (leaf_array l ++ es) →
  (∀ e, e ∈ leaf_array l ++ es ↔ entries G e ∧ bcmp (g_lo ga) (Fin e.1) <= 0) →
  (∀ e, e ∈ es → bcmp (g_hi ga) (Fin e.1) <= 0) →
  lower_bound_answer (λ item k, key_cmp item.1 k) (leaf_array l) key i found →
  from_left (Some key) (drop i (leaf_array l) ++ es).
Proof.
  intros Ha Hl [Hlo Hhi] Hs Hes Hup Hans.
  pose proof Hs as (_ & Hs1 & _)%StronglySorted_app.
  destruct (answer_cut _ _ _ _ Hs1 Hans) as [Hlow Hhigh]. split.
  - rewrite <-(take_drop i (leaf_array l)), <-app_assoc in Hs.
    by apply StronglySorted_app in Hs as (_ & _ & ?).
  - intros e. simpl. split.
    + intros He. assert (key_cmp key e.1 <= 0) as Hk.
      { apply elem_of_app in He as [He|He]; [by apply Hhigh|].
        pose proof (cmp_lt_le_trans bcmp _ _ _ Hhi (Hup _ He)) as Hlt. simpl in Hlt. lia. }
      split; [|done]. apply Hes. rewrite elem_of_app in *.
      destruct He as [He|He]; [left|by right].
      rewrite <-(take_drop i (leaf_array l)). apply elem_of_app. by right.
    + intros [He Hk]. assert (e ∈ leaf_array l ++ es) as Hin.
      { apply Hes. split; [done|]. by apply (cmp_le_trans _ (Fin key)). }
      rewrite <-(take_drop i (leaf_array l)), <-app_assoc in Hin.
      apply elem_of_app in Hin as [Hin%Hlow|?]; [|done].
      apply (cmp_flip_le key_cmp) in Hk. lia.
Qed.

Lemma wp_open_left fuel left lk s gr (Q : RC.t + () → scanner → Prop) :
  view (tree_handler_ s) = (h, po, pg, []) → G !! root = Some gr → (g_lvl gr < fuel)%nat →
  left_bound left lk →
  (∀ s', current_frame_ s' = None → from_left lk [] → Q (inl RC.SUCCESS) s') →
  (∀ s' a n l es, right_key_ s' = right_key_ s → first_emitted_ s' = first_emitted_ s →
     positioned s' a (Z.of_nat n) l es → (n < length (leaf_array l))%nat →
     from_left lk (drop n (leaf_array l) ++ es) → Q (inr ()) s') →
  wp (open_left fuel left) s Q.
Proof.
  intros V Hr Hfuel Hlk Hend Hok. destruct left as [b|]; simpl in Hlk; cbn [open_left].
  - destruct Hlk as (key & Hkey & ->). apply wp_bind. eapply wp_some; [exact Hkey|].
    cbn beta iota. apply wp_bind, wp_lift.
    eapply (wp_find_leaf Hwf fuel READ key gr _ _ _ _ _ _ V Hsh Hroot Hr Hfuel).
    intros t a ga l V1 Ha Hl Hrange _. cbn beta iota.
    destruct (leaf_chain Hwf a ga l Ha Hl) as (es & Hch & Hs & Hes).
    apply wp_bind, wp_modify. set (s1 := set_frame (Some a) (set_tree t s)).
    assert (positioned s1 a (iter_index_ s) l es) as Hpos1.
    { split; try done. by rewrite (Hsh _ _ Ha), Hl. }
    apply wp_bind, (wp_current_node Hpos1).
    pose proof Hs as (Hcross & Hs1 & _)%StronglySorted_app.
    destruct (leaf_lookup_spec l key Hs1) as (i & found & Hlook & Hans).
    apply wp_bind. eapply wp_some; [exact Hlook|]. cbn beta iota.
    assert (∀ e, e ∈ es → bcmp (g_hi ga) (Fin e.1) <= 0) as Hup.
    { intros e He. apply (chain_above_hi Hwf a ga l es); done. }
    pose proof (from_left_cut a ga l es key i found Ha Hl Hrange Hs Hes Hup Hans) as Hfl.
    unfold LeafIndexNodeHandler.size. case_decide as Hi.
    + rewrite drop_ge in Hfl by done. simpl in Hfl. case_decide as Hnext.
      * apply wp_bind, wp_lift. eapply (wp_release t); [exact V1|]. intros t2 V2.
        apply wp_bind, wp_modify, wp_ret. apply Hend; [done|].
        rewrite Hnext in Hch. by rewrite (chain_invalid Hwf _ Hch) in Hfl.
      * destruct (chain_next _ _ Hch Hnext) as (l' & es' & Hl' & -> & Hc' & Hlen).
        apply wp_bind, wp_lift. eapply (wp_memo_get_page V1); [exact Hl'|]. intros t2 V2.
        cbn beta iota. apply wp_bind, wp_modify, wp_bind, wp_lift.
        eapply (wp_latch (s := t2)). intros t3 V3.
        apply wp_bind, wp_modify, wp_ret.
        apply (Hok _ (next_brother l) 0%nat l' es'); try done.
        split; try done. simpl. by rewrite V3, V2, V1.
    + apply wp_bind, wp_modify, wp_ret. apply (Hok _ a i l es); try done; [|lia].
      by destruct Hpos1; split.
  - subst lk. apply wp_bind, wp_lift.
    eapply (wp_left_most_page Hwf fuel gr _ _ _ _ _ _ V Hsh Hroot Hr Hfuel).
    intros t a ga l V1 Ha Hl [Hlo _] _. cbn beta iota.
    destruct (leaf_chain Hwf a ga l Ha Hl) as (es & Hch & Hs & Hes).
    apply wp_bind, wp_modify, wp_bind, wp_modify, wp_ret.
    apply (Hok _ a 0%nat l es); try done; [|by eapply Hfull|].
    + split; try done. by rewrite (Hsh _ _ Ha), Hl.
    + split; [done|]. intros e. rewrite drop_0, Hes. simpl.
      split; intros [He _]; split; try done. by destruct (g_lo ga).
Qed.

Lemma wp_scan_open fuel left right lk rk s gr (Q : RC.t → scanner → Prop) :
  view (tree_handler_ s) = (h, po, pg, []) → inited_ s = false →
  G !! root = Some gr → (g_lvl gr < fuel)%nat →
  range_refused left right = Some false → left_bound left lk → right_bound right rk →
  (∀ s' R, from_left lk R → opened s' rk R → Q RC.SUCCESS s') →
  wp (scan_open fuel left right) s Q.
Proof.
  intros V Hin Hr Hfuel Href Hlk Hrk HQ. unfold scan_open.
  apply wp_bind, wp_get. rewrite Hin. apply wp_bind, wp_modify, wp_bind.
  eapply wp_some; [exact Href|]. apply wp_bind.
  eapply (wp_open_left fuel left lk _ gr); [exact V|done..| |].
  { intros s' Hcur Hfl. apply wp_ret. apply (HQ s' []); [done|]. by left. }
  intros s1 a n l es _ Hem1 Hpos Hn Hfl. cbn beta iota.
  assert (wp (match right with
              | None => mret (inr None)
              | Some right_bound =>
                  key <-? st_some (bound_key false right_bound) ;; mret (inr (Some key))
              end) s1 (λ r s', r = inr rk ∧ s' = s1)) as Hright.
  { destruct right as [b|]; simpl in Hrk; [|subst rk; by apply wp_ret].
    destruct Hrk as (k & Hk & ->). apply wp_bind. eapply wp_some; [exact Hk|]. by apply wp_ret. }
  apply wp_bind. eapply wp_mono; [exact Hright|]. intros ? ? [-> ->]. cbn beta iota.
  apply wp_bind, wp_modify, wp_bind.
  assert (positioned (set_right rk s1) a (Z.of_nat n) l es) as Hpos2 by by destruct Hpos; split.
  destruct (lookup_lt_is_Some_2 _ _ Hn) as [e He].
  eapply (wp_touch_end Hpos2 n e); [done|exact He|].
  rewrite (drop_S _ _ _ He) in Hfl. apply wp_bind. case_bool_decide as Hb.
  - apply wp_modify, wp_ret. eapply HQ; [exact Hfl|]. left. split; [done|].
    by apply filter_below_stop; [apply Hfl|].
  - apply wp_ret, wp_ret. eapply HQ; [exact Hfl|]. right.
    exists a, n, l, es, e, (drop (S n) (leaf_array l) ++ es). split_and!; done.
Qed.
End walk.

Lemma filter_filter {A} (P1 P2 : A → Prop) `{!∀ x, Decision (P1 x)} `{!∀ x, Decision (P2 x)} (xs : list A) :
  filter P1 (filter P2 xs) = filter (λ x, P2 x ∧ P1 x) xs.
Proof.
  induction xs as [|x xs IH]; [done|]. rewrite !filter_cons.
  repeat case_decide; rewrite ?filter_cons, IH; try case_decide; tauto.
Qed.

Lemma wp_scan_open_empty fuel left right lk s h po pg (Q : RC.t → scanner → Prop) :
  view (tree_handler_ s) = (h, po, pg, []) → root_page h = BP_INVALID_PAGE_NUM →
  inited_ s = false → range_refused left right = Some false → left_bound left lk →
  (left = None → ∀ s', Q RC.EMPTY s') →
  (left ≠ None → ∀ s', current_frame_ s' = None → Q RC.SUCCESS s') →
  wp (scan_open fuel left right) s Q.
Proof.
  intros V Hroot Hin Href Hlk Hnone Hsome. unfold scan_open.
  apply wp_bind, wp_get. rewrite Hin. apply wp_bind, wp_modify, wp_bind.
  eapply wp_some; [exact Href|]. apply wp_bind.
  destruct left as [b|]; cbn [open_left] in *.
  - destruct Hlk as (key & Hkey & _). apply wp_bind. eapply wp_some; [exact Hkey|].
    cbn beta iota. apply wp_bind, wp_lift. eapply wp_find_leaf_empty; [exact V|done|].
    intros t V1. cbn beta iota. apply wp_bind, wp_modify, wp_ret, wp_ret.
    by apply Hsome.
  - apply wp_bind, wp_lift. eapply wp_find_internal_empty; [exact V|done|].
    intros t V1. apply wp_ret, wp_ret. by apply Hnone.
Qed.

Lemma wp_scan_all_end fuel s :
  current_frame_ s = None →
  wp (scan_all lockable (S (S fuel))) s (λ r _, r = ([], RC.RECORD_EOF)).
Proof.
  intros Hcur. apply wp_bind. unfold next_entry. cbn [next_entry_idx].
  apply wp_bind, wp_get. rewrite Hcur. apply wp_ret. cbn beta iota. by apply wp_ret.
Qed.

(** ** A scan of the index *)
Definition scan_outcome (left : option (scan_bound U)) lk rk (A : list (K * RID.t))
  : RC.t * list RID.t :=
  (if bool_decide (A = []) && negb (bool_decide (is_Some left)) then RC.EMPTY else RC.SUCCESS,
   (filter (λ e, above lk e ∧ below rk e) A).*2).

Lemma scan_range_refines fuel left right lk rk t A :
  (∀ p, lockable p = true) → represents t A → disposed_pages_ (memo t) = [] →
  (length A + 33 <= fuel)%nat →
  range_refused left right = Some false → left_bound left lk → right_bound right rk →
  wp (scan_range lockable fuel left right) (new_scanner t)
    (λ r _, r = scan_outcome left lk rk A).
Proof.
  intros Hlock (Hlim & HA & G & Hh & Hent) Hds Hfuel Href Hlk Hrk.
  assert (view t = (file_header t, pool t, pages t, [])) as V by by rewrite <-Hds.
  pose proof (holds_levels _ _ Hlim Hh) as Hlv. unfold scan_range, scan_outcome. apply wp_bind.
  destruct (decide (root_page (file_header t) = BP_INVALID_PAGE_NUM)) as [Hroot|Hroot].
  - pose proof (holds_empty _ _ Hh Hroot) as ->.
    assert (A = []) as ->.
    { destruct A as [|e A]; [done|]. assert (e ∈ e :: A) as (p & g & Hp & _)%Hent by left.
      by rewrite lookup_empty in Hp. }
    rewrite bool_decide_eq_true_2 by done. cbn [andb].
    eapply (wp_scan_open_empty fuel left right lk (new_scanner t)); [exact V|done..| |].
    + intros -> s'. by apply wp_ret.
    + intros Hsome s' Hcur. destruct left as [b|]; [|done]. cbn [RC.succ]. apply wp_bind.
      do 2 (destruct fuel as [|fuel]; [simpl in Hfuel; lia|]).
      eapply wp_mono; [by apply wp_scan_all_end|]. intros ? s2 ->. cbn beta iota.
      apply wp_bind, wp_bind, wp_modify, wp_ret, wp_ret. done.
  - destruct (holds_tree _ _ Hh Hroot) as [_ Hwf Hsh Hsz _].
    destruct (wf_root _ _ Hwf) as [gr Hr].
    assert (levels t G = S (g_lvl gr)) as Hl by (unfold levels; by rewrite Hr).
    assert (∀ p g l, G !! p = Some g → g_node g = LeafPage l → (0 < length (leaf_array l))%nat)
      as Hfull by (intros p g l Hp Hg; by eapply (leaf_nonempty _ _ _ _ _ _ Hlim Hsz)).
    eapply (wp_scan_open Hwf Hsh Hfull eq_refl fuel left right lk rk (new_scanner t) gr);
      try done; [lia|].
    intros s' R [HsR HR] Hop. cbn [RC.succ].
    assert (R = filter (above lk) A) as ->.
    { apply sorted_unique; [done|by apply filter_sorted|]. intros e.
      rewrite list_elem_of_filter, HR, Hent. tauto. }
    assert (A ≠ []) as HAne.
    { intros ->. destruct (leaf_somewhere Hwf) as (p & g & l & Hp & Hg).
      pose proof (Hfull p g l Hp Hg). destruct (leaf_array l) as [|e arr] eqn:Harr; [simpl in *; lia|].
      assert (e ∈ []) as Hin; [|by apply not_elem_of_nil in Hin].
      apply Hent. exists p, g. split; [done|]. unfold g_entries. rewrite Hg, Harr. left. }
    rewrite bool_decide_eq_false_2 by done. cbn [andb]. apply wp_bind.
    eapply wp_mono; [eapply (wp_scan_all Hwf Hsh Hfull Hlock); [exact Hop|done|]|].
    { pose proof (length_filter (above lk) A). lia. }
    intros ? s2 ->. cbn beta iota. apply wp_bind, wp_bind, wp_modify, wp_ret, wp_ret.
    by rewrite filter_filter.
Qed.
End scan.
