(* ===== verification/Bitmap.v ===== *)
(** * Bitmaps ([deps/common/lang/bitmap.cpp])

    A [char] is its unsigned value, between 0 and 255; the [-1] the code compares a
    byte with is 255 here.  [None]: an access outside the array. *)
From S2P Require Import Prelude.
From Stdlib Require Import ZArith Lia.
From stdpp Require Import base option list.
Local Open Scope Z_scope.

#[local] Opaque Nat.div Nat.modulo.

Module Bitmap.

(** [find_first_zero], [find_first_setted]: the bits [i], [i + 1], ... of a byte *)
Fixpoint find_first (want : bool) (byte : Z) (i : nat) (n : nat) : Z :=
  match n with
  | O => -1
  | S n => if Bool.eqb (Z.testbit byte (Z.of_nat i)) want then Z.of_nat i
           else find_first want byte (S i) n
  end.
Definition find_first_zero (byte : Z) (start : nat) : Z := find_first false byte start (8 - start).
Definition find_first_setted (byte : Z) (start : nat) : Z := find_first true byte start (8 - start).

(** [bytes] *)
Definition bytes (size : nat) : nat :=
  if decide (size mod 8 = 0)%nat then (size / 8)%nat else (size / 8 + 1)%nat.

Definition get_bit (bitmap : list Z) (index : nat) : option bool :=
  bits ← bitmap !! (index / 8)%nat;
  Some (Z.testbit bits (Z.of_nat (index mod 8))).
Definition set_bit (bitmap : list Z) (index : nat) : option (list Z) :=
  bits ← bitmap !! (index / 8)%nat;
  Some (<[(index / 8)%nat := Z.lor bits (Z.shiftl 1 (Z.of_nat (index mod 8)))]> bitmap).
(** [bits &= ~(1 << k)] *)
Definition clear_bit (bitmap : list Z) (index : nat) : option (list Z) :=
  bits ← bitmap !! (index / 8)%nat;
  Some (<[(index / 8)%nat := Z.ldiff bits (Z.shiftl 1 (Z.of_nat (index mod 8)))]> bitmap).

(** The loop of [next_unsetted_bit] ([want = false]) and [next_setted_bit]
    ([want = true]) over the bytes from [iter] on; a byte without a wanted bit is
    skipped, and [start_in_byte] is only reset after a byte that was searched. *)
Definition skip_byte (want : bool) : Z := if want then 0 else 255.
Fixpoint next_bit_loop (want : bool) (l : list Z) (iter : nat) (start_in_byte : nat) : Z :=
  match l with
  | [] => -1
  | byte :: l =>
      if decide (byte ≠ skip_byte want) then
        let index_in_byte := find_first want byte start_in_byte (8 - start_in_byte) in
        if decide (0 <= index_in_byte) then Z.of_nat iter * 8 + index_in_byte
        else next_bit_loop want l (S iter) 0
      else next_bit_loop want l (S iter) start_in_byte
  end.
Definition next_bit (want : bool) (bitmap : list Z) (size start : nat) : option Z :=
  if decide (bytes size <= length bitmap)%nat then
    let ret := next_bit_loop want (drop (start / 8) (take (bytes size) bitmap))
                 (start / 8) (start mod 8) in
    Some (if decide (Z.of_nat size <= ret) then -1 else ret)
  else None.
Definition next_unsetted_bit : list Z → nat → nat → option Z := next_bit false.
Definition next_setted_bit : list Z → nat → nat → option Z := next_bit true.

(** ** Bits *)
Definition bit (bitmap : list Z) (index : nat) : bool := default false (get_bit bitmap index).

Lemma div8_bit (k : nat) : (k / 8 * 8 + k mod 8 = k)%nat ∧ (k mod 8 < 8)%nat.
Proof.
  pose proof (Nat.div_mod k 8 ltac:(done)). pose proof (Nat.mod_upper_bound k 8 ltac:(done)). lia.
Qed.
Lemma div8_unique (q r : nat) : (r < 8)%nat → ((q * 8 + r) / 8 = q ∧ (q * 8 + r) mod 8 = r)%nat.
Proof.
  intros Hr. split.
  - rewrite Nat.div_add_l by done. rewrite Nat.div_small by done. lia.
  - rewrite Nat.add_comm, Nat.Div0.mod_add. by apply Nat.mod_small.
Qed.

Lemma get_bit_is_Some bitmap k :
  (k < 8 * length bitmap)%nat ↔ is_Some (get_bit bitmap k).
Proof.
  unfold get_bit. destruct (div8_bit k). split.
  - intros Hk. destruct (lookup_lt_is_Some_2 bitmap (k / 8)) as [b ->]; [lia|]. eauto.
  - destruct (bitmap !! (k / 8)%nat) eqn:Hb; [|by intros []]. apply lookup_lt_Some in Hb. lia.
Qed.

Section edit.
Context (f : Z → Z → Z) (v : bool)
  (Hf : ∀ b i j, 0 <= i → 0 <= j →
     Z.testbit (f b (Z.shiftl 1 i)) j = if decide (i = j) then v else Z.testbit b j).

Lemma bit_edit bitmap bits k j :
  bitmap !! (k / 8)%nat = Some bits →
  bit (<[(k / 8)%nat := f bits (Z.shiftl 1 (Z.of_nat (k mod 8)))]> bitmap) j =
    if decide (j = k) then v else bit bitmap j.
Proof.
  intros Hb. unfold bit, get_bit. destruct (div8_bit k), (div8_bit j).
  destruct (decide (j / 8 = k / 8)%nat) as [Heq|Hne].
  - rewrite Heq, list_lookup_insert_eq by by eapply lookup_lt_Some. rewrite Hb. simpl.
    rewrite Hf by lia. destruct (decide (j = k)) as [->|].
    + by rewrite decide_True.
    + rewrite decide_False; [done|]. intros Hm%Nat2Z.inj. congruence.
  - rewrite list_lookup_insert_ne by done. rewrite decide_False; [done|]. by intros ->.
Qed.
End edit.

Lemma testbit_set b i j : 0 <= i → 0 <= j →
  Z.testbit (Z.lor b (Z.shiftl 1 i)) j = if decide (i = j) then true else Z.testbit b j.
Proof.
  intros Hi Hj. rewrite Z.lor_spec, Z.shiftl_1_l, Z.pow2_bits_eqb by lia.
  case_decide; destruct (Z.eqb_spec i j); try lia; by rewrite ?orb_true_r, ?orb_false_r.
Qed.
Lemma testbit_clear b i j : 0 <= i → 0 <= j →
  Z.testbit (Z.ldiff b (Z.shiftl 1 i)) j = if decide (i = j) then false else Z.testbit b j.
Proof.
  intros Hi Hj. rewrite Z.ldiff_spec, Z.shiftl_1_l, Z.pow2_bits_eqb by lia.
  case_decide; destruct (Z.eqb_spec i j); try lia; simpl; by rewrite ?andb_false_r, ?andb_true_r.
Qed.

Lemma set_bit_spec bitmap k :
  (k < 8 * length bitmap)%nat →
  ∃ bitmap', set_bit bitmap k = Some bitmap' ∧ length bitmap' = length bitmap ∧
    ∀ j, bit bitmap' j = if decide (j = k) then true else bit bitmap j.
Proof.
  intros Hk. destruct (div8_bit k).
  destruct (lookup_lt_is_Some_2 bitmap (k / 8)) as [b Hb]; [lia|].
  unfold set_bit. rewrite Hb. eexists. split; [done|]. rewrite length_insert. split; [done|].
  intros j. by apply (bit_edit Z.lor true testbit_set).
Qed.
Lemma clear_bit_spec bitmap k :
  (k < 8 * length bitmap)%nat →
  ∃ bitmap', clear_bit bitmap k = Some bitmap' ∧ length bitmap' = length bitmap ∧
    ∀ j, bit bitmap' j = if decide (j = k) then false else bit bitmap j.
Proof.
  intros Hk. destruct (div8_bit k).
  destruct (lookup_lt_is_Some_2 bitmap (k / 8)) as [b Hb]; [lia|].
  unfold clear_bit. rewrite Hb. eexists. split; [done|]. rewrite length_insert. split; [done|].
  intros j. by apply (bit_edit Z.ldiff false testbit_clear).
Qed.

(** Bytes stay bytes. *)
Definition byte_ok (b : Z) : Prop := 0 <= b < 256.
Lemma byte_ok_bits b : 0 <= b → (∀ j, 8 <= j → Z.testbit b j = false) → byte_ok b.
Proof.
  intros Hb Hbits. split; [done|]. destruct (decide (b < 256)) as [|Hge]; [done|exfalso].
  assert (8 <= Z.log2 b) as Hl by (change 8 with (Z.log2 256); apply Z.log2_le_mono; lia).
  specialize (Hbits (Z.log2 b) Hl). rewrite Z.bit_log2 in Hbits by lia. done.
Qed.
Lemma byte_ok_testbit b j : byte_ok b → 8 <= j → Z.testbit b j = false.
Proof.
  intros [Hb0 Hb] Hj. destruct (decide (b = 0)) as [->|Hne]; [apply Z.bits_0|].
  apply Z.bits_above_log2; [done|]. apply Z.lt_le_trans with 8; [|done].
  apply Z.log2_lt_pow2; [lia|]. by change (2 ^ 8) with 256.
Qed.
Lemma set_bit_bytes bitmap k bitmap' :
  Forall byte_ok bitmap → set_bit bitmap k = Some bitmap' → Forall byte_ok bitmap'.
Proof.
  unfold set_bit. intros Hok Hs. destruct (bitmap !! (k / 8)%nat) as [b|] eqn:Hb; [|done].
  injection Hs as <-. pose proof (Forall_lookup_1 _ _ _ _ Hok Hb) as Hbyte. destruct (div8_bit k).
  apply Forall_insert; [done|]. apply byte_ok_bits.
  - apply Z.lor_nonneg. split; [apply Hbyte|]. apply Z.shiftl_nonneg. lia.
  - intros j Hj. rewrite testbit_set by lia. rewrite decide_False by lia.
    by apply byte_ok_testbit.
Qed.
Lemma clear_bit_bytes bitmap k bitmap' :
  Forall byte_ok bitmap → clear_bit bitmap k = Some bitmap' → Forall byte_ok bitmap'.
Proof.
  unfold clear_bit. intros Hok Hs. destruct (bitmap !! (k / 8)%nat) as [b|] eqn:Hb; [|done].
  injection Hs as <-. pose proof (Forall_lookup_1 _ _ _ _ Hok Hb) as Hbyte. destruct (div8_bit k).
  apply Forall_insert; [done|]. apply byte_ok_bits.
  - apply Z.ldiff_nonneg. left. apply Hbyte.
  - intros j Hj. rewrite testbit_clear by lia. rewrite decide_False by lia.
    by apply byte_ok_testbit.
Qed.

(** ** Searching *)
Lemma find_first_spec want byte i n :
  (find_first want byte i n = -1 ∧
     ∀ j, (i <= j < i + n)%nat → Z.testbit byte (Z.of_nat j) ≠ want) ∨
  (∃ r : nat, find_first want byte i n = Z.of_nat r ∧ (i <= r < i + n)%nat ∧
     Z.testbit byte (Z.of_nat r) = want ∧
     ∀ j, (i <= j < r)%nat → Z.testbit byte (Z.of_nat j) ≠ want).
Proof.
  revert i. induction n as [|n IH]; intros i; simpl.
  - left. split; [done|]. lia.
  - destruct (Bool.eqb_spec (Z.testbit byte (Z.of_nat i)) want) as [Heq|Hne].
    + right. exists i. split_and!; [done|lia|lia|done|]. lia.
    + destruct (IH (S i)) as [[-> Hno]|(r & -> & Hr & Hw & Hno)].
      * left. split; [done|]. intros j Hj. destruct (decide (j = i)) as [->|]; [done|].
        apply Hno. lia.
      * right. exists r. split_and!; [done|lia|lia|done|]. intros j Hj.
        destruct (decide (j = i)) as [->|]; [done|]. apply Hno. lia.
Qed.

Lemma skip_byte_bits want b j :
  byte_ok b → (j < 8)%nat → b = skip_byte want → Z.testbit b (Z.of_nat j) ≠ want.
Proof.
  intros _ Hj ->. destruct want; unfold skip_byte.
  - by rewrite Z.bits_0.
  - change 255 with (Z.ones 8). rewrite Z.ones_spec_low by lia. done.
Qed.

(** The answer of a search: the first wanted bit from [start] on. *)
Definition first_bit (want : bool) (bits : nat → bool) (size start : nat) (r : Z) : Prop :=
  (r = -1 ∧ ∀ j, (start <= j < size)%nat → bits j ≠ want) ∨
  (∃ k, r = Z.of_nat k ∧ (start <= k < size)%nat ∧ bits k = want ∧
     ∀ j, (start <= j < k)%nat → bits j ≠ want).

Lemma next_bit_loop_spec want l iter s bits :
  Forall byte_ok l → (s < 8)%nat →
  (∀ i j b, l !! i = Some b → (j < 8)%nat →
     bits ((iter + i) * 8 + j)%nat = Z.testbit b (Z.of_nat j)) →
  (s = 0%nat ∨ ∃ b l', l = b :: l' ∧ b ≠ skip_byte want) →
  (next_bit_loop want l iter s = -1 ∧
     ∀ k, (iter * 8 + s <= k < (iter + length l) * 8)%nat → bits k ≠ want) ∨
  (∃ k, next_bit_loop want l iter s = Z.of_nat k ∧
     (iter * 8 + s <= k < (iter + length l) * 8)%nat ∧ bits k = want ∧
     ∀ j, (iter * 8 + s <= j < k)%nat → bits j ≠ want).
Proof.
  revert iter s. induction l as [|b l IH]; intros iter s Hok Hs Hbits Hgood; simpl.
  { left. split; [done|]. lia. }
  inversion_clear Hok as [|?? Hb Hl].
  assert (∀ j, (j < 8)%nat → bits (iter * 8 + j)%nat = Z.testbit b (Z.of_nat j)) as Hhere.
  { intros j Hj. rewrite <-(Hbits 0%nat j b) by done. f_equal. lia. }
  assert (∀ i j b', l !! i = Some b' → (j < 8)%nat →
    bits ((S iter + i) * 8 + j)%nat = Z.testbit b' (Z.of_nat j)) as Hrest.
  { intros i j b' Hi Hj. rewrite <-(Hbits (S i) j b') by done. f_equal. lia. }
  (* the wanted bits of this byte, when there are none from [s] on *)
  assert ((∀ j, (s <= j < 8)%nat → Z.testbit b (Z.of_nat j) ≠ want) →
    next_bit_loop want l (S iter) 0 = -1 ∧
     (∀ k, (iter * 8 + s <= k < (iter + S (length l)) * 8)%nat → bits k ≠ want) ∨
    (∃ k, next_bit_loop want l (S iter) 0 = Z.of_nat k ∧
     (iter * 8 + s <= k < (iter + S (length l)) * 8)%nat ∧ bits k = want ∧
     ∀ j, (iter * 8 + s <= j < k)%nat → bits j ≠ want)) as Hnext.
  { intros Hno.
    assert (∀ k, (iter * 8 + s <= k < S iter * 8)%nat → bits k ≠ want) as Hno'.
    { intros k Hk. replace k with (iter * 8 + (k - iter * 8))%nat by lia.
      rewrite Hhere by lia. apply Hno. lia. }
    destruct (IH (S iter) 0%nat Hl ltac:(lia) Hrest ltac:(by left)) as
      [[Hr Hn]|(k & Hr & Hk & Hw & Hn)]; [left|right; exists k]; split_and!; try done; try lia.
    - intros k Hk. destruct (decide (k < S iter * 8)%nat); [apply Hno'; lia|apply Hn; lia].
    - intros j Hj. destruct (decide (j < S iter * 8)%nat); [apply Hno'; lia|apply Hn; lia]. }
  destruct (decide (b ≠ skip_byte want)) as [Hne|Heq].
  - destruct (find_first_spec want b s (8 - s)) as [[Hr Hno]|(r & Hr & Hrs & Hw & Hno)]; rewrite Hr.
    + rewrite decide_False by lia. apply Hnext. intros j Hj. apply Hno. lia.
    + rewrite decide_True by lia. right. exists (iter * 8 + r)%nat. split_and!; [lia|lia|lia| |].
      * rewrite Hhere by lia. done.
      * intros j Hj. replace j with (iter * 8 + (j - iter * 8))%nat by lia.
        rewrite Hhere by lia. apply Hno. lia.
  - assert (b = skip_byte want) as Hskip by (destruct (decide (b = skip_byte want)); tauto).
    destruct Hgood as [->|(b' & l' & [= <- <-] & Hbad)]; [|done].
    apply Hnext. intros j Hj. by apply skip_byte_bits; [|lia|].
Qed.

(** The search is right when it starts at the first bit of a byte, or in a byte it
    does not skip. *)
Lemma next_bit_spec want bitmap size start :
  Forall byte_ok bitmap → (bytes size <= length bitmap)%nat →
  ((start mod 8)%nat = 0%nat ∨
   ∃ b, bitmap !! (start / 8)%nat = Some b ∧ b ≠ skip_byte want ∧ (start / 8 < bytes size)%nat) →
  ∃ r, next_bit want bitmap size start = Some r ∧ first_bit want (bit bitmap) size start r.
Proof.
  intros Hok Hlen Hgood. unfold next_bit. rewrite decide_True by done. eexists. split; [done|].
  destruct (div8_bit start) as [Hst Hmod]. destruct (div8_bit size) as [Hsz Hszmod].
  assert (size <= bytes size * 8 < size + 8)%nat as Hbytes by (unfold bytes; case_decide; lia).
  set (l := drop (start / 8) (take (bytes size) bitmap)).
  assert (length l = (bytes size - start / 8)%nat) as Hll.
  { unfold l. rewrite length_drop, length_take. lia. }
  assert (∀ i b, l !! i = Some b → bitmap !! (start / 8 + i)%nat = Some b) as Hl.
  { intros i b. unfold l. rewrite lookup_drop. by intros [? _]%lookup_take_Some. }
  destruct (next_bit_loop_spec want l (start / 8) (start mod 8) (bit bitmap)) as
    [[-> Hno]|(k & -> & Hk & Hw & Hno)]; [| | | | |].
  - apply Forall_drop, Forall_take, Hok.
  - done.
  - intros i j b Hi Hj. unfold bit, get_bit.
    destruct (div8_unique (start / 8 + i) j Hj) as [-> ->]. by rewrite (Hl _ _ Hi).
  - destruct Hgood as [?|(b & Hb & Hne & Hlt)]; [by left|right].
    assert (l !! 0%nat = Some b) as Hl0.
    { unfold l. rewrite lookup_drop, Nat.add_0_r, lookup_take_lt by lia. done. }
    destruct l as [|b' l']; [done|]. injection Hl0 as ->. by eexists _, _.
  - rewrite decide_False by lia. left. split; [done|]. intros j Hj. apply Hno. lia.
  - case_decide.
    + left. split; [done|]. intros j Hj. apply Hno. lia.
    + right. exists k. split_and!; [done|lia|lia|done|]. intros j Hj. apply Hno. lia.
Qed.
Lemma bytes_bounds size : (size <= bytes size * 8 < size + 8)%nat.
Proof. destruct (div8_bit size). unfold bytes. case_decide; lia. Qed.

(** The search after a set bit, which is in a byte that is not zero unless the search
    starts at the next byte. *)
Lemma next_setted_after bitmap size c :
  Forall byte_ok bitmap → (bytes size <= length bitmap)%nat → bit bitmap c = true → (c < size)%nat →
  ∃ r, next_bit true bitmap size (S c) = Some r ∧ first_bit true (bit bitmap) size (S c) r.
Proof.
  intros Hok Hlen Hc Hlt. apply next_bit_spec; [done..|].
  destruct (decide (S c mod 8 = 0)%nat) as [|Hmod]; [by left|right].
  pose proof (div8_bit c) as [Hc1 Hc2]. pose proof (bytes_bounds size).
  assert (S c / 8 = c / 8)%nat as ->.
  { destruct (decide (c mod 8 = 7)%nat) as [H7|].
    - exfalso. apply Hmod. replace (S c) with ((S (c / 8)) * 8 + 0)%nat by lia.
      apply div8_unique. lia.
    - replace (S c) with (c / 8 * 8 + S (c mod 8))%nat by lia. apply div8_unique. lia. }
  unfold bit, get_bit in Hc. destruct (bitmap !! (c / 8)%nat) as [b|]; [|done].
  exists b. split_and!; [done| |lia]. intros ->. cbn in Hc. by rewrite Z.bits_0 in Hc.
Qed.
End Bitmap.
