(* ===== verification/LruCache.v ===== *)
(** * Least recently used cache ([deps/common/lang/lru_cache.h])

    The nodes of [LruCache] form a list from [lru_front_], the most recently used, to
    [lru_tail_]; the hash set [searcher_] indexes the same nodes by key.  The model is
    that list of key and value pairs.  [searcher_] is the search [find]; the pointer
    surgery of [lru_touch], [lru_push] and [lru_remove] is the corresponding edit of
    the list. *)
From S2P Require Import Prelude.
From Stdlib Require Import ZArith Lia.
From stdpp Require Import base option sets list.

Module LruCache.
Section lru.
Context {K V : Type} `{!EqDecision K}.
Implicit Types (l : list (K * V)) (k : K) (v : V).

(** [searcher_.find] *)
Fixpoint find k l : option V :=
  match l with
  | [] => None
  | (k', v) :: l => if decide (k' = k) then Some v else find k l
  end.

(** [lru_remove]: unlinks the node of a key *)
Fixpoint unlink k l : list (K * V) :=
  match l with
  | [] => []
  | (k', v) :: l => if decide (k' = k) then l else (k', v) :: unlink k l
  end.

Definition count l : nat := length l.

(** [lru_push] *)
Definition lru_push k v l : list (K * V) := (k, v) :: l.
(** [lru_touch]: the node moves to the front *)
Definition lru_touch k v l : list (K * V) := (k, v) :: unlink k l.

Definition get k l : option V * list (K * V) :=
  match find k l with
  | None => (None, l)
  | Some v => (Some v, lru_touch k v l)
  end.

Definition put k v l : list (K * V) :=
  match find k l with
  | Some _ => lru_touch k v l
  | None => lru_push k v l
  end.

Definition remove k l : list (K * V) :=
  match find k l with
  | Some _ => unlink k l
  | None => l
  end.

(** [foreach] and [foreach_reverse] with a callback that never stops early fold over
    the nodes in the one and in the other order. *)
Definition foreach {A} (f : A → K * V → A) (a : A) l : A := foldl f a l.
Definition foreach_reverse {A} (f : A → K * V → A) (a : A) l : A := foldl f a (rev l).

(** One node per key. *)
Definition wf l : Prop := NoDup l.*1.

Lemma find_Some k v l : wf l → (find k l = Some v ↔ (k, v) ∈ l).
Proof.
  unfold wf. induction l as [|[k' v'] l IH]; simpl; intros Hnd.
  { split; [done|]. by intros ?%not_elem_of_nil. }
  apply NoDup_cons in Hnd as [Hni Hnd]. rewrite elem_of_cons. case_decide as Hk.
  - subst. split; [intros [= ->]; by left|]. intros [[= ->]|Hin]; [done|].
    exfalso. apply Hni. apply list_elem_of_fmap. by exists (k, v).
  - rewrite IH by done. split; [by right|]. intros [[= -> ->]|?]; done.
Qed.

Lemma find_None k l : find k l = None ↔ k ∉ l.*1.
Proof.
  induction l as [|[k' v'] l IH]; simpl.
  - split; [|done]. intros _. by apply not_elem_of_nil.
  - rewrite not_elem_of_cons. case_decide; [|rewrite IH]; split; naive_solver.
Qed.

Lemma find_unlink k k' l :
  wf l → find k' (unlink k l) = if decide (k' = k) then None else find k' l.
Proof.
  unfold wf. induction l as [|[k0 v0] l IH]; simpl; intros Hnd; [by case_decide|].
  apply NoDup_cons in Hnd as [Hni Hnd].
  destruct (decide (k0 = k)) as [->|Hne].
  - destruct (decide (k' = k)) as [->|Hne'].
    + by apply find_None.
    + by rewrite decide_False by congruence.
  - simpl. rewrite IH by done. destruct (decide (k0 = k')) as [->|]; [|done].
    by rewrite decide_False.
Qed.

Lemma unlink_subseteq k l : unlink k l ⊆ l.
Proof.
  induction l as [|[k0 v0] l IH]; simpl; [done|]. case_decide; set_solver.
Qed.

Lemma unlink_wf k l : wf l → wf (unlink k l) ∧ k ∉ (unlink k l).*1.
Proof.
  unfold wf. intros Hnd. split.
  - induction l as [|[k0 v0] l IH]; simpl in *; [done|].
    apply NoDup_cons in Hnd as [Hni Hnd]. case_decide; [done|]. simpl.
    apply NoDup_cons. split; [|by apply IH].
    intros Hin. apply Hni. apply list_elem_of_fmap in Hin as ([k1 v1] & -> & Hin).
    apply list_elem_of_fmap. exists (k1, v1). split; [done|]. by eapply unlink_subseteq.
  - apply find_None. rewrite find_unlink by done. by rewrite decide_True.
Qed.

Lemma length_unlink k l : is_Some (find k l) → S (length (unlink k l)) = length l.
Proof.
  induction l as [|[k0 v0] l IH]; simpl; [by intros []|]. case_decide; [done|].
  intros Hs. simpl. by rewrite IH.
Qed.

Lemma touch_wf k v l : wf l → wf (lru_touch k v l).
Proof.
  intros Hwf. destruct (unlink_wf k l Hwf). unfold lru_touch, wf. simpl. by apply NoDup_cons.
Qed.

Lemma find_touch k k' v l :
  wf l → find k' (lru_touch k v l) = if decide (k' = k) then Some v else find k' l.
Proof.
  intros Hwf. unfold lru_touch. simpl. destruct (decide (k = k')) as [->|].
  - by rewrite decide_True.
  - rewrite find_unlink by done. by rewrite !decide_False by congruence.
Qed.

(** ** The cache is a finite map *)
Lemma get_wf k l : wf l → wf (get k l).2.
Proof. intros Hwf. unfold get. destruct (find k l); simpl; [by apply touch_wf|done]. Qed.
Lemma get_find k l k' : wf l → (get k l).1 = find k l ∧ find k' (get k l).2 = find k' l.
Proof.
  intros Hwf. unfold get. destruct (find k l) eqn:Hf; cbn [fst snd]; [|done]. split; [done|].
  rewrite find_touch by done. case_decide; by subst.
Qed.
Lemma put_wf k v l : wf l → wf (put k v l).
Proof.
  intros Hwf. unfold put. destruct (find k l) eqn:Hf; [by apply touch_wf|].
  unfold lru_push, wf. simpl. apply NoDup_cons. split; [by apply find_None|done].
Qed.
Lemma put_find k v l k' :
  wf l → find k' (put k v l) = if decide (k' = k) then Some v else find k' l.
Proof.
  intros Hwf. unfold put. destruct (find k l) eqn:Hf; [by apply find_touch|].
  unfold lru_push. simpl. destruct (decide (k = k')), (decide (k' = k)); congruence.
Qed.
Lemma remove_wf k l : wf l → wf (remove k l).
Proof. intros Hwf. unfold remove. destruct (find k l); [by apply unlink_wf|done]. Qed.
Lemma remove_find k l k' :
  wf l → find k' (remove k l) = if decide (k' = k) then None else find k' l.
Proof.
  intros Hwf. unfold remove. destruct (find k l) eqn:Hf; [by apply find_unlink|].
  case_decide; by subst.
Qed.
Lemma length_put k v l :
  length (put k v l) = match find k l with Some _ => length l | None => S (length l) end.
Proof.
  unfold put. destruct (find k l) eqn:Hf; simpl; [|done]. apply length_unlink. eauto.
Qed.
Lemma length_get k l : length (get k l).2 = length l.
Proof.
  unfold get. destruct (find k l) eqn:Hf; simpl; [|done]. apply length_unlink. eauto.
Qed.
Lemma length_remove k l : is_Some (find k l) → S (length (remove k l)) = length l.
Proof. intros H. unfold remove. destruct H as [v Hv]. rewrite Hv. apply length_unlink. eauto. Qed.

(** The most recently used key is in front, and the others keep their order: the
    tail is the least recently used one. *)
Lemma get_recency k v l :
  find k l = Some v → (get k l).2 = (k, v) :: unlink k l.
Proof. intros Hf. unfold get. by rewrite Hf. Qed.

Lemma unlink_sublist k l : unlink k l `sublist_of` l.
Proof.
  induction l as [|[k0 v0] l IH]; simpl; [done|]. case_decide; by constructor.
Qed.
End lru.
End LruCache.
