(* ===== verification/BufferPool.v ===== *)
(** * Buffer pool ([storage/buffer/disk_buffer_pool.cpp], [frame.h], [page.h])

    The frames of [BPFrameManager], the pages on disk, and the operations of
    [DiskBufferPool] on them.  A [Frame *] is the key its frame has in the frame
    manager.  A page holds either the file header (page 0) or data of a type that is
    a parameter; [file_header_] is the data of the header frame, reached through the
    frame.  Reading a page that is not in the file fails with [IOERR_READ]; whether a
    write succeeds is a parameter, [writen_ok].  The locks are not modelled: an
    operation runs alone. *)
From S2P Require Import Prelude Bitmap LruCache.
From Stdlib Require Import ZArith Lia.
From stdpp Require Import base option gmap list.
Local Open Scope Z_scope.

(** ** The file header: page allocation *)

(** [BP_PAGE_DATA_SIZE - sizeof(page_count) - sizeof(allocated_pages)] bytes of
    bitmap, eight pages each. *)
Definition MAX_PAGE_NUM : Z := (Z.shiftl 1 19 - 4 - 4 - 4 - 4) * 8.

Module BPFileHeader.
Record t : Set := mk {
  page_count : nat;
  allocated_pages : Z;
  bitmap : list Z
}.

(** The scan of [allocate_page] for a free page: the first clear bit below
    [page_count]. *)
Fixpoint find_free (h : t) (i : nat) (n : nat) : option nat :=
  match n with
  | O => None
  | S n => if Bitmap.bit (bitmap h) i then find_free h (S i) n else Some i
  end.

(** [allocated_pages++; bitmap |= bit] *)
Definition take_page (h : t) (i : nat) : option t :=
  b ← Bitmap.set_bit (bitmap h) i;
  Some (mk (page_count h) (allocated_pages h + 1) b).
(** [allocated_pages++; page_count++; bitmap |= bit] *)
Definition extend_page (h : t) : option t :=
  b ← Bitmap.set_bit (bitmap h) (page_count h);
  Some (mk (S (page_count h)) (allocated_pages h + 1) b).
(** [allocated_pages--; bitmap &= ~bit] *)
Definition release_page (h : t) (i : nat) : option t :=
  b ← Bitmap.clear_bit (bitmap h) i;
  Some (mk (page_count h) (allocated_pages h - 1) b).

(** The header's part of [allocate_page]: a free page below [page_count], or the page
    after the last one. *)
Definition choose_free (h : t) : option nat :=
  if decide (allocated_pages h < Z.of_nat (page_count h))
  then find_free h 0 (page_count h) else None.
Definition allocate (h : t) : RC.t + (nat * t) :=
  match choose_free h with
  | Some i => match take_page h i with Some h' => inr (i, h') | None => inl RC.INTERNAL end
  | None =>
      if decide (MAX_PAGE_NUM <= Z.of_nat (page_count h)) then inl RC.BUFFERPOOL_NOBUF
      else match extend_page h with
           | Some h' => inr (page_count h, h')
           | None => inl RC.INTERNAL
           end
  end.

(** the header [BufferPoolManager::create_file] writes *)
Definition initial : t := mk 1 1 (1 :: replicate (Z.to_nat (MAX_PAGE_NUM / 8) - 1) 0).
End BPFileHeader.

(** ** Frames *)
Abbreviation FrameId := (Z * Z)%type (only parsing).

Section pool.
Context {D : Type} (zero_data : D) (writen_ok : Z → PageNum → bool).

Inductive PageData : Type :=
| HeaderData (h : BPFileHeader.t)
| UserData (d : D).

Record Frame : Type := MkFrame {
  dirty_ : bool;
  pin_count_ : nat;
  frame_fd : Z;
  page_num_ : PageNum;
  frame_data : PageData
}.

Definition set_dirty (b : bool) (f : Frame) : Frame :=
  MkFrame b (pin_count_ f) (frame_fd f) (page_num_ f) (frame_data f).
Definition set_pin (n : nat) (f : Frame) : Frame :=
  MkFrame (dirty_ f) n (frame_fd f) (page_num_ f) (frame_data f).
Definition set_fd (fd : Z) (f : Frame) : Frame :=
  MkFrame (dirty_ f) (pin_count_ f) fd (page_num_ f) (frame_data f).
Definition set_page_num (p : PageNum) (f : Frame) : Frame :=
  MkFrame (dirty_ f) (pin_count_ f) (frame_fd f) p (frame_data f).
Definition set_data (d : PageData) (f : Frame) : Frame :=
  MkFrame (dirty_ f) (pin_count_ f) (frame_fd f) (page_num_ f) d.
Definition frame_id (f : Frame) : FrameId := (frame_fd f, page_num_ f).

(** [frames_], the free list of [allocator_], and the files by descriptor. *)
Record bp_state : Type := BpState {
  frames : list (FrameId * Frame);
  free_frames : list Frame;
  files : gmap Z (gmap PageNum PageData)
}.
Abbreviation M := (ST bp_state).

Definition set_frames (l : list (FrameId * Frame)) (s : bp_state) : bp_state :=
  BpState l (free_frames s) (files s).

(** Access through a frame pointer: [frames_] is not touched. *)
Definition frame_at (id : FrameId) : M Frame :=
  s ← st_get; st_some (LruCache.find id (frames s)).
Definition update (id : FrameId) (f : Frame → Frame) (l : list (FrameId * Frame))
  : list (FrameId * Frame) := (λ x, if decide (x.1 = id) then (x.1, f x.2) else x) <$> l.
Definition frame_modify (id : FrameId) (f : Frame → Frame) : M () :=
  frame_at id ;;; st_modify (λ s, set_frames (update id f (frames s)) s).

Definition pin (id : FrameId) : M () := frame_modify id (λ f, set_pin (S (pin_count_ f)) f).
(** [unpin] asserts that the frame is pinned *)
Definition unpin (id : FrameId) : M () :=
  f ← frame_at id;
  st_assert (bool_decide (0 < pin_count_ f)%nat) ;;;
  frame_modify id (λ f, set_pin (pin_count_ f - 1) f).
Definition mark_dirty (id : FrameId) : M () := frame_modify id (set_dirty true).

(** ** [BPFrameManager] *)
Definition get_internal (id : FrameId) : M (option FrameId) :=
  s ← st_get;
  let '(frame, l) := LruCache.get id (frames s) in
  st_modify (set_frames l) ;;;
  match frame with
  | Some _ => pin id ;;; mret (Some id)
  | None => mret None
  end.

Definition mgr_alloc (fd : Z) (page_num : PageNum) : M (option FrameId) :=
  let id := (fd, page_num) in
  frame ← get_internal id;
  match frame with
  | Some id => mret (Some id)
  | None =>
      s ← st_get;
      match free_frames s with
      | [] => mret None
      | frame :: rest =>
          st_assert (bool_decide (pin_count_ frame = 0)%nat) ;;;
          st_modify (λ s, BpState
            (LruCache.put id (set_pin 1 (set_page_num page_num frame)) (frames s)) rest (files s)) ;;;
          mret (Some id)
      end
  end.

Definition free_internal (id : FrameId) : M () :=
  s ← st_get;
  let '(frame_source, l) := LruCache.get id (frames s) in
  st_modify (set_frames l) ;;;
  f ← st_some frame_source;
  st_assert (bool_decide (pin_count_ f = 1)%nat) ;;;
  st_modify (λ s, BpState (LruCache.remove id (frames s)) (free_frames s ++ [set_pin 0 f]) (files s)).

(** The frames [purge_frames] collects: the least recently used ones that are not
    pinned, at most [count]. *)
Definition can_purge (f : Frame) : bool := bool_decide (pin_count_ f = 0)%nat.
Definition frames_can_purge (count : nat) (l : list (FrameId * Frame)) : list FrameId :=
  take (Nat.max count 1) (filter (λ x, can_purge x.2 = true) (rev l)).*1.

Fixpoint purge_each (purger : FrameId → M RC.t) (ids : list FrameId) : M nat :=
  match ids with
  | [] => mret 0%nat
  | id :: ids =>
      rc ← purger id;
      freed ← (if RC.succ rc then f ← frame_at id; free_internal (frame_id f) ;;; mret 1%nat
               else unpin id ;;; mret 0%nat);
      n ← purge_each purger ids;
      mret (freed + n)%nat
  end.

Fixpoint pin_each (ids : list FrameId) : M () :=
  match ids with
  | [] => mret ()
  | id :: ids => pin id ;;; pin_each ids
  end.

Definition purge_frames (count : nat) (purger : FrameId → M RC.t) : M nat :=
  s ← st_get;
  let ids := frames_can_purge count (frames s) in
  pin_each ids ;;;
  purge_each purger ids.

(** the frames of a file, each pinned once more *)
Definition find_list (fd : Z) : M (list FrameId) :=
  s ← st_get;
  let ids := filter (λ id : FrameId, id.1 = fd) (frames s).*1 in
  pin_each ids ;;;
  mret ids.

(** ** [DiskBufferPool] *)
Definition write_file (fd : Z) (p : PageNum) (d : PageData) : M () :=
  st_modify (λ s, BpState (frames s) (free_frames s)
                    (<[fd := <[p := d]> (default ∅ (files s !! fd))]> (files s))).

Definition flush_page_internal (fd : Z) (id : FrameId) : M RC.t :=
  f ← frame_at id;
  if writen_ok fd (page_num_ f) then
    write_file fd (page_num_ f) (frame_data f) ;;;
    frame_modify id (set_dirty false) ;;;
    mret RC.SUCCESS
  else mret RC.IOERR_WRITE.

(** [BufferPoolManager::flush_page]: by the pool the frame belongs to *)
Definition bpm_flush_page (id : FrameId) : M RC.t :=
  f ← frame_at id;
  s ← st_get;
  match files s !! frame_fd f with
  | None => mret RC.INTERNAL
  | Some _ => flush_page_internal (frame_fd f) id
  end.

Definition allocate_purger (fd : Z) (id : FrameId) : M RC.t :=
  f ← frame_at id;
  if negb (dirty_ f) then mret RC.SUCCESS
  else if decide (frame_fd f = fd) then flush_page_internal fd id
  else bpm_flush_page id.

(** [allocate_frame]: retries until a frame is free *)
Fixpoint allocate_frame (fuel : nat) (fd : Z) (page_num : PageNum) : M (RC.t + FrameId) :=
  match fuel with
  | O => st_nofuel
  | S fuel =>
      frame ← mgr_alloc fd page_num;
      match frame with
      | Some id => mret (inr id)
      | None => purge_frames 1 (allocate_purger fd) ;;; allocate_frame fuel fd page_num
      end
  end.

Definition load_page (fd : Z) (page_num : PageNum) (id : FrameId) : M RC.t :=
  s ← st_get;
  match files s !! fd ≫= (!!) page_num with
  | None => mret RC.IOERR_READ
  | Some d =>
      frame_modify id (λ f, set_page_num page_num (set_data d f)) ;;;
      mret RC.SUCCESS
  end.

Definition purge_frame (fd : Z) (page_num : PageNum) (id : FrameId) : M RC.t :=
  f ← frame_at id;
  if decide (pin_count_ f ≠ 1)%nat then mret RC.LOCKED_UNLOCK
  else
    try (if dirty_ f then flush_page_internal fd id else mret RC.SUCCESS) ;;
    free_internal (fd, page_num) ;;;
    mret RC.SUCCESS.

Definition get_this_page (fuel : nat) (fd : Z) (page_num : PageNum) : M (RC.t + FrameId) :=
  used_match_frame ← get_internal (fd, page_num);
  match used_match_frame with
  | Some id => mret (inr id)
  | None =>
      allocated_frame <-? allocate_frame fuel fd page_num ;;
      frame_modify allocated_frame (set_fd fd) ;;;
      rc ← load_page fd page_num allocated_frame;
      if RC.succ rc then mret (inr allocated_frame)
      else purge_frame fd page_num allocated_frame ;;; mret (inl rc)
  end.

(** [file_header_] *)
Definition file_header (fd : Z) : M BPFileHeader.t :=
  f ← frame_at (fd, BP_HEADER_PAGE);
  match frame_data f with HeaderData h => mret h | UserData _ => st_crash end.
Definition set_file_header (fd : Z) (h : BPFileHeader.t) : M () :=
  frame_modify (fd, BP_HEADER_PAGE) (set_data (HeaderData h)).

Definition allocate_page (fuel : nat) (fd : Z) : M (RC.t + FrameId) :=
  h ← file_header fd;
  match BPFileHeader.choose_free h with
  | Some i =>
      h' ← st_some (BPFileHeader.take_page h i);
      set_file_header fd h' ;;;
      mark_dirty (fd, BP_HEADER_PAGE) ;;;
      get_this_page fuel fd (Z.of_nat i)
  | None =>
      if decide (MAX_PAGE_NUM <= Z.of_nat (BPFileHeader.page_count h)) then
        mret (inl RC.BUFFERPOOL_NOBUF)
      else
        let page_num := Z.of_nat (BPFileHeader.page_count h) in
        allocated_frame <-? allocate_frame fuel fd page_num ;;
        h' ← st_some (BPFileHeader.extend_page h);
        set_file_header fd h' ;;;
        mark_dirty (fd, BP_HEADER_PAGE) ;;;
        frame_modify allocated_frame (λ f, set_page_num page_num
          (set_data (UserData zero_data) (set_fd fd f))) ;;;
        flush_page_internal fd allocated_frame ;;;
        mret (inr allocated_frame)
  end.

Definition dispose_page (fd : Z) (page_num : PageNum) : M RC.t :=
  used_frame ← get_internal (fd, page_num);
  match used_frame with
  | None => mret RC.NOTFOUND
  | Some _ =>
      free_internal (fd, page_num) ;;;
      mark_dirty (fd, BP_HEADER_PAGE) ;;;
      h ← file_header fd;
      h' ← st_some (BPFileHeader.release_page h (Z.to_nat page_num));
      set_file_header fd h' ;;;
      mret RC.SUCCESS
  end.

Definition unpin_page (id : FrameId) : M RC.t := unpin id ;;; mret RC.SUCCESS.

Definition purge_page (fd : Z) (page_num : PageNum) : M RC.t :=
  used_frame ← get_internal (fd, page_num);
  match used_frame with
  | Some id => purge_frame fd page_num id
  | None => mret RC.SUCCESS
  end.

Fixpoint purge_all (fd : Z) (ids : list FrameId) : M () :=
  match ids with
  | [] => mret ()
  | id :: ids => f ← frame_at id; purge_frame fd (page_num_ f) id ;;; purge_all fd ids
  end.
Definition purge_all_pages (fd : Z) : M RC.t :=
  used ← find_list fd; purge_all fd used ;;; mret RC.SUCCESS.

Fixpoint unpin_each (ids : list FrameId) : M () :=
  match ids with [] => mret () | id :: ids => unpin id ;;; unpin_each ids end.
(** [check_all_pages_unpinned] only logs what it finds *)
Definition check_all_pages_unpinned (fd : Z) : M RC.t :=
  ids ← find_list fd; unpin_each ids ;;; mret RC.SUCCESS.

Definition flush_page (fd : Z) (id : FrameId) : M RC.t := flush_page_internal fd id.

Fixpoint flush_each (fd : Z) (ids : list FrameId) : M RC.t :=
  match ids with
  | [] => mret RC.SUCCESS
  | id :: ids => try flush_page fd id ;; flush_each fd ids
  end.
Definition flush_all_pages (fd : Z) : M RC.t :=
  ids ← find_list fd; flush_each fd ids.

Definition recover_page (fd : Z) (page_num : PageNum) : M RC.t :=
  h ← file_header fd;
  b ← st_some (Bitmap.get_bit (BPFileHeader.bitmap h) (Z.to_nat page_num));
  if b : bool then mret RC.SUCCESS
  else
    bm ← st_some (Bitmap.set_bit (BPFileHeader.bitmap h) (Z.to_nat page_num));
    set_file_header fd (BPFileHeader.mk (S (BPFileHeader.page_count h))
      (BPFileHeader.allocated_pages h + 1) bm) ;;;
    mark_dirty (fd, BP_HEADER_PAGE) ;;;
    mret RC.SUCCESS.

Definition check_page_num (fd : Z) (page_num : PageNum) : M RC.t :=
  h ← file_header fd;
  if decide (Z.of_nat (BPFileHeader.page_count h) <= page_num)
  then mret RC.BUFFERPOOL_INVALID_PAGE_NUM
  else
    b ← st_some (Bitmap.get_bit (BPFileHeader.bitmap h) (Z.to_nat page_num));
    mret (if b : bool then RC.SUCCESS else RC.BUFFERPOOL_INVALID_PAGE_NUM).

(** [open_file] of a file that exists, with a fresh descriptor [fd] *)
Definition open_file (fuel : nat) (fd : Z) : M RC.t :=
  hdr <-? allocate_frame fuel fd BP_HEADER_PAGE ;;
  frame_modify hdr (set_fd fd) ;;;
  rc ← load_page fd BP_HEADER_PAGE hdr;
  if RC.succ rc then mret RC.SUCCESS
  else purge_frame fd BP_HEADER_PAGE hdr ;;; mret rc.

Definition close_file (fd : Z) : M RC.t :=
  unpin (fd, BP_HEADER_PAGE) ;;;
  rc ← purge_all_pages fd;
  mret rc.

(** [BufferPoolManager::create_file]: the first page of a new file *)
Definition create_file (fd : Z) : M RC.t :=
  if writen_ok fd BP_HEADER_PAGE then
    write_file fd BP_HEADER_PAGE (HeaderData BPFileHeader.initial) ;;; mret RC.SUCCESS
  else mret RC.IOERR_WRITE.

(** [BufferPoolIterator]: the bitmap is that of the file as it is, its size the number of
    pages when the iterator was initialised. *)
Record BufferPoolIterator : Set := MkBpIterator {
  bitmap_size : nat;
  current_page_num_ : nat
}.
Definition bp_iterator_init (h : BPFileHeader.t) (start_page : PageNum) : BufferPoolIterator :=
  MkBpIterator (BPFileHeader.page_count h) (if decide (start_page <= 0) then 0%nat else Z.to_nat start_page).
Definition bp_iterator_has_next (h : BPFileHeader.t) (it : BufferPoolIterator) : option bool :=
  r ← Bitmap.next_setted_bit (BPFileHeader.bitmap h) (bitmap_size it) (S (current_page_num_ it));
  Some (bool_decide (r ≠ -1)).
Definition bp_iterator_next (h : BPFileHeader.t) (it : BufferPoolIterator)
  : option (PageNum * BufferPoolIterator) :=
  next_page ← Bitmap.next_setted_bit (BPFileHeader.bitmap h) (bitmap_size it) (S (current_page_num_ it));
  Some (next_page, if decide (next_page ≠ -1)
                   then MkBpIterator (bitmap_size it) (Z.to_nat next_page) else it).
End pool.
Arguments PageData : clear implicits.
Arguments Frame : clear implicits.
Arguments bp_state : clear implicits.
