(* ===== verification/BufferPoolHeader.v ===== *)
(** * Page allocation

    The invariant of the file header and what allocating and disposing of a page do
    to the set of allocated pages; the instance of [PagePool] for the B+ tree. *)
From S2P Require Import Prelude LowerBound RidKey LatchMemo BplusNode BplusTree Bitmap LruCache.
From S2P Require Import BufferPool.
From Stdlib Require Import ZArith Lia.
From stdpp Require Import base option gmap sets list.
Local Open Scope Z_scope.

Import BPFileHeader.
#[local] Opaque Nat.div Nat.modulo.

Section header.
Implicit Types (h : BPFileHeader.t) (i j : nat).

(** The allocated pages. *)
Definition allocated h i : bool :=
  bool_decide (i < page_count h)%nat && Bitmap.bit (bitmap h) i.
Definition count_allocated h : nat :=
  length (filter (λ i, Bitmap.bit (bitmap h) i = true) (seq 0 (page_count h))).

(** [header_wf]: the bitmap covers all the pages a file can have, page 0 is the
    header, nothing is allocated beyond [page_count], and [allocated_pages] counts
    the set bits. *)
Record header_wf h : Prop := {
  hw_length : Z.of_nat (8 * length (bitmap h)) = MAX_PAGE_NUM;
  hw_count : (0 < page_count h)%nat ∧ Z.of_nat (page_count h) <= MAX_PAGE_NUM;
  hw_first : Bitmap.bit (bitmap h) 0 = true;
  hw_beyond : ∀ i, (page_count h <= i)%nat → Bitmap.bit (bitmap h) i = false;
  hw_allocated : allocated_pages h = Z.of_nat (count_allocated h)
}.

Lemma allocated_bit h i : header_wf h → allocated h i = Bitmap.bit (bitmap h) i.
Proof.
  intros Hwf. unfold allocated. case_bool_decide; [done|]. simpl.
  symmetry. apply (hw_beyond _ Hwf). lia.
Qed.

Lemma find_free_spec h i n :
  match find_free h i n with
  | Some j => (i <= j < i + n)%nat ∧ Bitmap.bit (bitmap h) j = false ∧
              ∀ m, (i <= m < j)%nat → Bitmap.bit (bitmap h) m = true
  | None => ∀ m, (i <= m < i + n)%nat → Bitmap.bit (bitmap h) m = true
  end.
Proof.
  revert i. induction n as [|n IH]; intros i; simpl; [lia|].
  destruct (Bitmap.bit (bitmap h) i) eqn:Hb.
  - specialize (IH (S i)). destruct (find_free h (S i) n) as [j|].
    + destruct IH as (? & ? & Hm). split_and!; [lia|lia|done|]. intros m Hm'.
      destruct (decide (m = i)) as [->|]; [done|]. apply Hm. lia.
    + intros m Hm'. destruct (decide (m = i)) as [->|]; [done|]. apply IH. lia.
  - split_and!; [lia|lia|done|]. lia.
Qed.

(** ** The set of allocated pages *)
Definition header_pages h : gset Z :=
  list_to_set (Z.of_nat <$> filter (λ i, Bitmap.bit (bitmap h) i = true) (seq 0 (page_count h))).

Lemma elem_of_header_pages h p :
  p ∈ header_pages h ↔ ∃ i, p = Z.of_nat i ∧ allocated h i = true.
Proof.
  unfold header_pages, allocated. rewrite elem_of_list_to_set, list_elem_of_fmap.
  setoid_rewrite list_elem_of_filter. setoid_rewrite elem_of_seq.
  split; intros (i & -> & H).
  - destruct H as [Hb Hi]. exists i. split; [done|]. rewrite Hb.
    rewrite bool_decide_eq_true_2 by lia. done.
  - apply andb_prop in H as [Hi Hb]. apply bool_decide_eq_true_1 in Hi.
    exists i. split; [done|]. split; [done|lia].
Qed.

Lemma set_bit_inv bm i bm' :
  Bitmap.set_bit bm i = Some bm' →
  length bm' = length bm ∧ ∀ j, Bitmap.bit bm' j = if decide (j = i) then true else Bitmap.bit bm j.
Proof.
  intros Hs. destruct (decide (i < 8 * length bm)%nat) as [Hi|Hi].
  - destruct (Bitmap.set_bit_spec bm i Hi) as (bm2 & Hs2 & ? & ?).
    assert (bm2 = bm') as -> by congruence. done.
  - unfold Bitmap.set_bit in Hs. destruct (bm !! (i / 8)%nat) eqn:Hb; [|done].
    apply lookup_lt_Some in Hb. destruct (Bitmap.div8_bit i). lia.
Qed.
Lemma clear_bit_inv bm i bm' :
  Bitmap.clear_bit bm i = Some bm' →
  length bm' = length bm ∧ ∀ j, Bitmap.bit bm' j = if decide (j = i) then false else Bitmap.bit bm j.
Proof.
  intros Hs. destruct (decide (i < 8 * length bm)%nat) as [Hi|Hi].
  - destruct (Bitmap.clear_bit_spec bm i Hi) as (bm2 & Hs2 & ? & ?).
    assert (bm2 = bm') as -> by congruence. done.
  - unfold Bitmap.clear_bit in Hs. destruct (bm !! (i / 8)%nat) eqn:Hb; [|done].
    apply lookup_lt_Some in Hb. destruct (Bitmap.div8_bit i). lia.
Qed.

(** What an allocation does, whatever the header. *)
Lemma allocate_inv h i h' :
  allocate h = inr (i, h') →
  allocated h i = false ∧
  (∀ j, allocated h' j = if decide (j = i) then true else allocated h j) ∧
  allocated_pages h' = allocated_pages h + 1 ∧ length (bitmap h') = length (bitmap h) ∧
  ((i < page_count h)%nat ∧ page_count h' = page_count h ∨
   i = page_count h ∧ page_count h' = S (page_count h) ∧ Z.of_nat (page_count h) < MAX_PAGE_NUM).
Proof.
  unfold allocate, choose_free. intros Hal.
  destruct (if decide _ then _ else _) as [k|] eqn:Hfree.
  - case_decide; [|done]. pose proof (find_free_spec h 0 (page_count h)) as Hspec.
    rewrite Hfree in Hspec. destruct Hspec as (Hk & Hb & _).
    unfold take_page in Hal. destruct (Bitmap.set_bit (bitmap h) k) as [bm|] eqn:Hs; [|done].
    simpl in Hal. injection Hal as <- <-. destruct (set_bit_inv _ _ _ Hs) as [Hl Hbits].
    unfold allocated. simpl. rewrite Hb, andb_false_r. split_and!; [done| |done|done|left; lia].
    intros j. rewrite Hbits. case_decide; [|done]. subst. by rewrite bool_decide_eq_true_2 by lia.
  - clear Hfree. case_decide as Hmax; [done|].
    unfold extend_page in Hal.
    destruct (Bitmap.set_bit (bitmap h) (page_count h)) as [bm|] eqn:Hs; [|done].
    simpl in Hal. injection Hal as <- <-. destruct (set_bit_inv _ _ _ Hs) as [Hl Hbits].
    unfold allocated. simpl. rewrite bool_decide_eq_false_2 by lia.
    split_and!; [done| |done|done|right; lia].
    intros j. rewrite Hbits. case_decide as Hj.
    + subst. by rewrite bool_decide_eq_true_2 by lia.
    + f_equal. apply bool_decide_ext. lia.
Qed.

Lemma release_inv h i h' :
  release_page h i = Some h' →
  (∀ j, allocated h' j = if decide (j = i) then false else allocated h j) ∧
  allocated_pages h' = allocated_pages h - 1 ∧ length (bitmap h') = length (bitmap h) ∧
  page_count h' = page_count h.
Proof.
  unfold release_page. destruct (Bitmap.clear_bit (bitmap h) i) as [bm|] eqn:Hs; [|done].
  intros [= <-]. destruct (clear_bit_inv _ _ _ Hs) as [Hl Hbits].
  split_and!; [|done..]. intros j. unfold allocated. simpl. rewrite Hbits.
  case_decide; [by rewrite andb_false_r|done].
Qed.

(** ** Counting *)
Lemma count_allocated_eq h :
  count_allocated h = length (filter (λ i, allocated h i = true) (seq 0 (page_count h))).
Proof.
  unfold count_allocated. apply count_filter_ext. intros i Hi%elem_of_seq. unfold allocated.
  by rewrite bool_decide_eq_true_2 by lia.
Qed.

(** Every page of the file is allocated exactly when the two counters agree. *)
Lemma count_full h :
  header_wf h →
  allocated_pages h <= Z.of_nat (page_count h) ∧
  (allocated_pages h = Z.of_nat (page_count h) ↔ ∀ i, (i < page_count h)%nat → allocated h i = true).
Proof.
  intros Hwf. rewrite (hw_allocated _ Hwf), count_allocated_eq.
  destruct (count_filter_all (allocated h) (seq 0 (page_count h))) as [H1 H2]. rewrite length_seq in H1, H2.
  split; [lia|]. rewrite Nat2Z.inj_iff, H2. setoid_rewrite elem_of_seq.
  split; intros Hall i Hi; apply Hall; lia.
Qed.

(** ** Allocation and release keep the invariant *)
Lemma count_allocated_pos h : header_wf h → 0 < allocated_pages h.
Proof.
  intros Hwf. rewrite (hw_allocated _ Hwf). unfold count_allocated.
  assert (0%nat ∈ filter (λ i, Bitmap.bit (bitmap h) i = true) (seq 0 (page_count h))) as Hin.
  { rewrite list_elem_of_filter, elem_of_seq. split; [apply Hwf|]. pose proof (hw_count _ Hwf). lia. }
  destruct (filter _ _); [by apply not_elem_of_nil in Hin|]. simpl. lia.
Qed.

Lemma count_extend h h' :
  page_count h' = S (page_count h) →
  (∀ j, allocated h' j = if decide (j = page_count h) then true else allocated h j) →
  count_allocated h' = S (count_allocated h).
Proof.
  intros Hpc Hal. rewrite !count_allocated_eq, Hpc, seq_S, filter_app, length_app.
  rewrite (count_filter_ext (allocated h') (allocated h)).
  - rewrite filter_cons, decide_True; [simpl; lia|]. by rewrite Hal, decide_True by lia.
  - intros i Hi%elem_of_seq. rewrite Hal, decide_False by lia. done.
Qed.

Lemma allocate_wf h i h' : header_wf h → allocate h = inr (i, h') → header_wf h'.
Proof.
  intros Hwf Hal. destruct (allocate_inv _ _ _ Hal) as (Hfree & Hbits & Hcnt & Hlen & Hpc).
  destruct (hw_count _ Hwf) as [H0 Hmax].
  assert (page_count h' = page_count h ∨ page_count h' = S (page_count h)) as Hpc' by lia.
  assert (∀ j, Bitmap.bit (bitmap h') j = if decide (j = i) then true else Bitmap.bit (bitmap h) j)
    as Hbit.
  { intros j. unfold allocate in Hal. destruct (choose_free h).
    - unfold take_page in Hal. destruct (Bitmap.set_bit _ _) as [bm|] eqn:Hs; [|done].
      simpl in Hal. injection Hal as <- <-. by apply (set_bit_inv _ _ _ Hs).
    - case_decide; [done|]. unfold extend_page in Hal.
      destruct (Bitmap.set_bit _ _) as [bm|] eqn:Hs; [|done].
      simpl in Hal. injection Hal as <- <-. by apply (set_bit_inv _ _ _ Hs). }
  split.
  - rewrite Hlen. apply (hw_length _ Hwf).
  - lia.
  - rewrite Hbit. case_decide; [done|apply (hw_first _ Hwf)].
  - intros j Hj. rewrite Hbit, decide_False by lia. apply (hw_beyond _ Hwf). lia.
  - rewrite Hcnt, (hw_allocated _ Hwf). destruct Hpc as [[Hi Hpc]|(-> & Hpc & _)].
    + rewrite !count_allocated_eq, Hpc, (count_filter_flip (allocated h) (allocated h') _ i).
      * lia.
      * apply NoDup_seq.
      * apply elem_of_seq. lia.
      * done.
      * by rewrite Hbits, decide_True.
      * intros j _ Hj. by rewrite Hbits, decide_False.
    + rewrite (count_extend h h') by done. lia.
Qed.

Lemma release_wf h i h' :
  header_wf h → i ≠ 0%nat → allocated h i = true → release_page h i = Some h' → header_wf h'.
Proof.
  intros Hwf Hi0 Hal Hrel. destruct (release_inv _ _ _ Hrel) as (Hbits & Hcnt & Hlen & Hpc).
  assert (∀ j, Bitmap.bit (bitmap h') j = if decide (j = i) then false else Bitmap.bit (bitmap h) j)
    as Hbit.
  { intros j. unfold release_page in Hrel. destruct (Bitmap.clear_bit _ _) as [bm|] eqn:Hs; [|done].
    injection Hrel as <-. by apply (clear_bit_inv _ _ _ Hs). }
  split.
  - rewrite Hlen. apply (hw_length _ Hwf).
  - rewrite Hpc. apply (hw_count _ Hwf).
  - rewrite Hbit, decide_False by done. apply (hw_first _ Hwf).
  - intros j Hj. rewrite Hbit. case_decide; [done|]. apply (hw_beyond _ Hwf). lia.
  - assert (i < page_count h)%nat as Hi.
    { unfold allocated in Hal. apply andb_prop in Hal as [Hi _].
      by apply bool_decide_eq_true_1 in Hi. }
    rewrite Hcnt, (hw_allocated _ Hwf), !count_allocated_eq, Hpc,
      (count_filter_flip (allocated h') (allocated h) _ i).
    + lia.
    + apply NoDup_seq.
    + apply elem_of_seq. lia.
    + by rewrite Hbits, decide_True.
    + done.
    + intros j _ Hj. by rewrite Hbits, decide_False.
Qed.

(** What [allocate_page] chooses on a well-formed header: the lowest page that is
    not allocated, unless the file has reached its maximal size. *)
Lemma allocate_lowest h :
  header_wf h →
  match allocate h with
  | inr (i, _) => allocated h i = false ∧ ∀ j, (j < i)%nat → allocated h j = true
  | inl rc => rc = RC.BUFFERPOOL_NOBUF ∧
              ∀ i, Z.of_nat i < MAX_PAGE_NUM → allocated h i = true
  end.
Proof.
  intros Hwf. destruct (count_full h Hwf) as [Hle Hfull].
  pose proof (hw_length _ Hwf) as Hlen. pose proof (hw_count _ Hwf) as [_ Hmax].
  unfold allocate, choose_free. case_decide as Hlt.
  - pose proof (find_free_spec h 0 (page_count h)) as Hspec.
    destruct (find_free h 0 (page_count h)) as [i|].
    + destruct Hspec as (Hi & Hb & Hbelow). unfold take_page.
      destruct (Bitmap.set_bit_spec (bitmap h) i) as (bm & -> & _); [lia|]. simpl.
      rewrite allocated_bit by done. split; [done|]. intros j Hj.
      rewrite allocated_bit by done. apply Hbelow. lia.
    + exfalso. assert (allocated_pages h = Z.of_nat (page_count h)); [|lia].
      apply Hfull. intros i Hi. rewrite allocated_bit by done. apply Hspec. lia.
  - assert (∀ i, (i < page_count h)%nat → allocated h i = true) as Hall by (apply Hfull; lia).
    case_decide.
    + split; [done|]. intros i Hi. apply Hall. lia.
    + unfold extend_page.
      destruct (Bitmap.set_bit_spec (bitmap h) (page_count h)) as (bm & -> & _); [lia|].
      simpl. split; [|done]. unfold allocated. by rewrite bool_decide_eq_false_2 by lia.
Qed.

Lemma choose_free_wf h i :
  header_wf h → choose_free h = Some i →
  (i < page_count h)%nat ∧ allocated h i = false ∧ i ≠ 0%nat ∧ is_Some (take_page h i).
Proof.
  intros Hwf. pose proof (hw_length _ Hwf). pose proof (hw_count _ Hwf).
  unfold choose_free. case_decide; [|done].
  pose proof (find_free_spec h 0 (page_count h)) as Hspec. intros Hf. rewrite Hf in Hspec.
  destruct Hspec as (Hi & Hb & _). split_and!; [lia|by rewrite allocated_bit| |].
  - intros ->. by rewrite (hw_first _ Hwf) in Hb.
  - unfold take_page. destruct (Bitmap.set_bit_spec (bitmap h) i) as (bm & -> & _); [lia|]. done.
Qed.
Lemma extend_page_wf h :
  header_wf h → Z.of_nat (page_count h) < MAX_PAGE_NUM → is_Some (extend_page h).
Proof.
  intros Hwf Hlt. pose proof (hw_length _ Hwf). unfold extend_page.
  destruct (Bitmap.set_bit_spec (bitmap h) (page_count h)) as (bm & -> & _); [lia|]. done.
Qed.
End header.

(** The header of a new file. *)
Lemma first_byte_bit b n j :
  Bitmap.bit (b :: replicate n 0) j = bool_decide (j < 8)%nat && Z.testbit b (Z.of_nat j).
Proof.
  unfold Bitmap.bit, Bitmap.get_bit. pose proof (Bitmap.div8_bit j) as [Hj Hm].
  destruct (j / 8)%nat as [|q] eqn:Hq.
  - rewrite bool_decide_eq_true_2 by lia. replace (j mod 8)%nat with j by lia. done.
  - rewrite bool_decide_eq_false_2 by lia. rewrite lookup_cons.
    destruct (replicate n 0 !! q) as [x|] eqn:Hr; [|done].
    apply lookup_replicate in Hr as [-> _].
    change (Z.testbit 0 (Z.of_nat (j mod 8)%nat) = false). by rewrite Z.bits_0.
Qed.
(** A header whose pages are the bits of the first byte. *)
Lemma first_byte_wf pages count b n :
  Z.of_nat (8 * S n) = MAX_PAGE_NUM → (0 < pages <= 8)%nat → Z.testbit b 0 = true →
  (∀ i, (pages <= i < 8)%nat → Z.testbit b (Z.of_nat i) = false) →
  count = Z.of_nat (length (filter (λ i, Z.testbit b (Z.of_nat i) = true) (seq 0 pages))) →
  header_wf (mk pages count (b :: replicate n 0)).
Proof.
  intros Hn Hp H0 Hb Hc.
  split; cbn [bitmap page_count allocated_pages].
  - by rewrite length_cons, length_replicate.
  - assert (MAX_PAGE_NUM = 4194176) as -> by done. lia.
  - by rewrite first_byte_bit.
  - intros i Hi. rewrite first_byte_bit. destruct (decide (i < 8)%nat).
    + rewrite Hb by lia. apply andb_false_r.
    + by rewrite bool_decide_eq_false_2.
  - rewrite Hc. unfold count_allocated. cbn [bitmap page_count].
    f_equal. apply count_filter_ext.
    intros i Hi%elem_of_seq. rewrite first_byte_bit, bool_decide_eq_true_2 by lia. done.
Qed.
Lemma initial_wf : header_wf BPFileHeader.initial.
Proof.
  apply first_byte_wf; [|lia|done| |done].
  - assert (MAX_PAGE_NUM / 8 = 524272) as -> by done.
    assert (MAX_PAGE_NUM = 4194176) as -> by done. lia.
  - intros i Hi. rewrite Z.bits_above_log2; [done|lia|]. change (Z.log2 1) with 0. lia.
Qed.

(** ** The page allocator of the B+ tree *)
Record pool_header : Set := PoolHeader {
  ph_header : BPFileHeader.t;
  ph_ok : bool_decide (Z.of_nat (page_count ph_header) <= MAX_PAGE_NUM) = true
}.

(** [allocate_page] and [dispose_page] as the tree sees them, when frames are
    available: a header out of bounds stays as it is. *)
Definition ph_update (h : BPFileHeader.t) (ph : pool_header) : pool_header :=
  match decide (bool_decide (Z.of_nat (page_count h) <= MAX_PAGE_NUM) = true) with
  | left H => PoolHeader h H
  | right _ => ph
  end.
Definition ph_allocate (ph : pool_header) : (RC.t + PageNum) * pool_header :=
  match allocate (ph_header ph) with
  | inl rc => (inl rc, ph)
  | inr (i, h') => (inr (Z.of_nat i), ph_update h' ph)
  end.
Definition ph_dispose (p : PageNum) (ph : pool_header) : pool_header :=
  if decide (0 <= p) then
    match release_page (ph_header ph) (Z.to_nat p) with
    | Some h' => ph_update h' ph
    | None => ph
    end
  else ph.

Lemma ph_update_header h ph :
  Z.of_nat (page_count h) <= MAX_PAGE_NUM → ph_header (ph_update h ph) = h.
Proof.
  intros Hle. unfold ph_update. case_decide as Hd; [done|].
  exfalso. apply Hd. by apply bool_decide_eq_true_2.
Qed.
Lemma ph_bound ph : Z.of_nat (page_count (ph_header ph)) <= MAX_PAGE_NUM.
Proof. apply (bool_decide_eq_true_1 _ (ph_ok ph)). Qed.

Lemma allocate_rc h rc : allocate h = inl rc → rc ≠ RC.SUCCESS.
Proof.
  unfold allocate. intros Hal.
  repeat (case_match || case_decide); by simplify_eq.
Qed.

#[global] Program Instance header_pool : PagePool pool_header := {|
  pool_allocate := ph_allocate;
  pool_dispose := ph_dispose;
  pool_pages ph := header_pages (ph_header ph)
|}.
Next Obligation.
  intros s s' p Hal. unfold ph_allocate in Hal.
  destruct (allocate (ph_header s)) as [|[i h']] eqn:Ha; [done|]. injection Hal as <- <-.
  destruct (allocate_inv _ _ _ Ha) as (Hfree & Hbits & _ & _ & Hpc).
  pose proof (ph_bound s).
  split_and!; [lia| |].
  - rewrite elem_of_header_pages. intros (j & ->%Nat2Z.inj & ?). congruence.
  - rewrite ph_update_header by lia.
    apply set_eq. intros x. rewrite elem_of_union, elem_of_singleton, !elem_of_header_pages. split.
    + intros (j & -> & Hj). rewrite Hbits in Hj. case_decide; [by left; subst|right; eauto].
    + intros [->|(j & -> & Hj)]; eexists; (split; [done|]); rewrite Hbits; by case_decide.
Qed.
Next Obligation.
  intros s s' rc Hal. unfold ph_allocate in Hal.
  destruct (allocate (ph_header s)) as [rc'|[i h']] eqn:Ha; [|done]. injection Hal as <- <-.
  by eapply allocate_rc.
Qed.
Next Obligation.
  intros s p Hp. apply elem_of_header_pages in Hp as (i & -> & Hi).
  apply andb_prop in Hi as [Hi _]. apply bool_decide_eq_true_1 in Hi.
  pose proof (ph_bound s) as Hb. unfold MAX_PAGE_NUM in Hb. change (Z.shiftl 1 19) with 524288 in Hb.
  change (2 ^ 31) with 2147483648. lia.
Qed.
Next Obligation.
  intros s p. unfold ph_dispose.
  assert (∀ A : gset PageNum, A ∖ {[p]} ⊆ A ∧ A ⊆ A) as Hsame by set_solver.
  case_decide as Hp; [|apply Hsame].
  destruct (release_page (ph_header s) (Z.to_nat p)) as [h'|] eqn:Hr; [|apply Hsame].
  destruct (release_inv _ _ _ Hr) as (Hbits & _ & _ & Hpc).
  rewrite ph_update_header by (rewrite Hpc; apply ph_bound).
  split; intros x.
  - rewrite elem_of_difference, elem_of_singleton, !elem_of_header_pages.
    intros [(i & -> & Hi) Hne]. exists i. split; [done|]. rewrite Hbits, decide_False by lia. done.
  - rewrite !elem_of_header_pages. intros (i & -> & Hi). exists i. split; [done|].
    rewrite Hbits in Hi. by case_decide.
Qed.
