(* ===== verification/BufferPoolCorrect.v ===== *)
(** * Steps of the buffer pool

    What the primitives of [BPFrameManager] and [DiskBufferPool] do to the frames, seen
    as a finite map from [FrameId]; the order of the LRU list only decides which frame
    is evicted. *)
From S2P Require Import Prelude Bitmap LruCache BufferPool BufferPoolHeader.
From Stdlib Require Import ZArith Lia.
From stdpp Require Import base option gmap list.
Local Open Scope Z_scope.

Section steps.
Context {D : Type}.
Abbreviation frame_map := (gmap FrameId (Frame D)).
Abbreviation file_map := (gmap Z (gmap PageNum (PageData D))).
Implicit Types (s : bp_state D) (m : frame_map) (fr : list (Frame D)) (fl : file_map)
  (id : FrameId) (f : Frame D) (p : PageNum).

(** The frames, the free list and the files of a state. *)
Record at_state s m fr fl : Prop := {
  at_wf : LruCache.wf (frames s);
  at_map : (list_to_map (frames s) : frame_map) = m;
  at_free : free_frames s = fr;
  at_files : files s = fl
}.

Lemma find_list_to_map id (l : list (FrameId * Frame D)) :
  LruCache.find id l = (list_to_map l : frame_map) !! id.
Proof.
  induction l as [|[id' f'] l IH]; simpl; [by rewrite lookup_empty|].
  case_decide as Hd; [subst; by rewrite lookup_insert_eq|by rewrite lookup_insert_ne].
Qed.

Lemma update_fst id (g : Frame D → Frame D) l : (update id g l).*1 = l.*1.
Proof.
  unfold update. rewrite <-list_fmap_compose. apply list_fmap_ext. intros i x _. simpl.
  by case_decide.
Qed.
Lemma find_update id id' (g : Frame D → Frame D) l :
  LruCache.find id' (update id g l) =
  if decide (id' = id) then g <$> LruCache.find id' l else LruCache.find id' l.
Proof.
  induction l as [|[i f] l IH]; simpl; [by case_decide|].
  destruct (decide (i = id)) as [->|Hne]; simpl.
  - rewrite IH. repeat case_decide; by subst.
  - rewrite IH. repeat case_decide; by subst.
Qed.

Section at_one.
Context {s m fr fl} (H : at_state s m fr fl).

Lemma at_find id : LruCache.find id (frames s) = m !! id.
Proof. rewrite find_list_to_map. by rewrite (at_map _ _ _ _ H). Qed.

Lemma wp_frame_at id f (Q : Frame D → bp_state D → Prop) :
  m !! id = Some f → Q f s → wp (frame_at id) s Q.
Proof.
  intros Hf HQ. apply wp_bind, wp_get. eapply wp_some; [|exact HQ]. by rewrite at_find.
Qed.

Lemma wp_frame_modify id f g (Q : () → bp_state D → Prop) :
  m !! id = Some f → (∀ s', at_state s' (<[id := g f]> m) fr fl → Q () s') →
  wp (frame_modify id g) s Q.
Proof.
  intros Hf HQ. apply wp_bind, (wp_frame_at id f); [done|]. apply wp_modify, HQ.
  destruct H as [Hwf Hm Hfr Hfl]. split; simpl; try done.
  - unfold LruCache.wf. by rewrite update_fst.
  - apply map_eq. intros i. rewrite <-find_list_to_map, find_update, at_find.
    case_decide as Hi; [subst i; by rewrite lookup_insert_eq, Hf|by rewrite lookup_insert_ne].
Qed.

Lemma wp_pin id f (Q : () → bp_state D → Prop) :
  m !! id = Some f →
  (∀ s', at_state s' (<[id := set_pin (S (pin_count_ f)) f]> m) fr fl → Q () s') →
  wp (pin id) s Q.
Proof. intros Hf HQ. by eapply wp_frame_modify. Qed.

Lemma wp_unpin id f (Q : () → bp_state D → Prop) :
  m !! id = Some f → (0 < pin_count_ f)%nat →
  (∀ s', at_state s' (<[id := set_pin (pin_count_ f - 1) f]> m) fr fl → Q () s') →
  wp (unpin id) s Q.
Proof.
  intros Hf Hp HQ. apply wp_bind, (wp_frame_at id f); [done|].
  apply wp_bind, wp_assert; [by apply bool_decide_eq_true_2|]. by eapply wp_frame_modify.
Qed.

Lemma wp_frame_dirty id f (Q : () → bp_state D → Prop) :
  m !! id = Some f → (∀ s', at_state s' (<[id := set_dirty true f]> m) fr fl → Q () s') →
  wp (mark_dirty id) s Q.
Proof. intros Hf HQ. by eapply wp_frame_modify. Qed.

(** [frames_.get] moves the frame to the front. *)
Lemma at_get id : at_state (set_frames (LruCache.get id (frames s)).2 s) m fr fl.
Proof.
  destruct H as [Hwf Hm Hfr Hfl]. split; simpl; try done; [by apply LruCache.get_wf|].
  apply map_eq. intros i. rewrite <-find_list_to_map.
  destruct (LruCache.get_find id (frames s) i Hwf) as [_ ->]. apply at_find.
Qed.

Lemma wp_get_internal_hit id f (Q : option FrameId → bp_state D → Prop) :
  m !! id = Some f →
  (∀ s', at_state s' (<[id := set_pin (S (pin_count_ f)) f]> m) fr fl → Q (Some id) s') →
  wp (get_internal id) s Q.
Proof.
  intros Hf HQ. apply wp_bind, wp_get.
  pose proof (at_get id) as Hg. destruct (LruCache.get_find id (frames s) id (at_wf _ _ _ _ H)) as [Hr _].
  destruct (LruCache.get id (frames s)) as [r l]. simpl in Hr, Hg. rewrite at_find, Hf in Hr. subst r.
  apply wp_bind, wp_modify, wp_bind.
  destruct Hg as [H1 H2 H3 H4].
  assert (at_state (set_frames l s) m fr fl) as Hg' by by split.
  apply wp_bind. apply wp_bind, wp_get. eapply wp_some.
  { rewrite find_list_to_map. simpl. simpl in H2. by rewrite H2, Hf. }
  apply wp_modify, wp_ret, HQ. split; simpl; try done.
  - unfold LruCache.wf. by rewrite update_fst.
  - apply map_eq. intros i. simpl in H2. rewrite <-find_list_to_map, find_update, find_list_to_map, H2.
    case_decide as Hi; [subst i; by rewrite lookup_insert_eq, Hf|by rewrite lookup_insert_ne].
Qed.

Lemma wp_get_internal_miss id (Q : option FrameId → bp_state D → Prop) :
  m !! id = None → (∀ s', at_state s' m fr fl → Q None s') → wp (get_internal id) s Q.
Proof.
  intros Hf HQ. apply wp_bind, wp_get.
  pose proof (at_get id) as Hg. destruct (LruCache.get_find id (frames s) id (at_wf _ _ _ _ H)) as [Hr _].
  destruct (LruCache.get id (frames s)) as [r l]. simpl in Hr, Hg. rewrite at_find, Hf in Hr. subst r.
  apply wp_bind, wp_modify, wp_ret. by apply HQ.
Qed.

Lemma wp_free_internal id f (Q : () → bp_state D → Prop) :
  m !! id = Some f → pin_count_ f = 1%nat →
  (∀ s', at_state s' (delete id m) (fr ++ [set_pin 0 f]) fl → Q () s') →
  wp (free_internal id) s Q.
Proof.
  intros Hf Hp HQ. apply wp_bind, wp_get.
  pose proof (at_get id) as Hg. destruct (LruCache.get_find id (frames s) id (at_wf _ _ _ _ H)) as [Hr _].
  destruct (LruCache.get id (frames s)) as [r l]. simpl in Hr, Hg. rewrite at_find, Hf in Hr. subst r.
  apply wp_bind, wp_modify, wp_bind. eapply wp_some; [done|].
  apply wp_bind, wp_assert; [by apply bool_decide_eq_true_2|]. apply wp_modify, HQ.
  destruct Hg as [H1 H2 H3 H4]. simpl in *. split; simpl; try done.
  - by apply LruCache.remove_wf.
  - apply map_eq. intros i. rewrite <-find_list_to_map, LruCache.remove_find by done.
    rewrite find_list_to_map, H2. case_decide as Hi; [subst; by rewrite lookup_delete_eq|].
    by rewrite lookup_delete_ne.
  - by rewrite H3.
Qed.

(** ** Files *)
Definition file_write (fd : Z) p (d : PageData D) fl : file_map :=
  <[fd := <[p := d]> (default ∅ (fl !! fd))]> fl.

Lemma wp_write_file fd p d (Q : () → bp_state D → Prop) :
  (∀ s', at_state s' m fr (file_write fd p d fl) → Q () s') → wp (write_file fd p d) s Q.
Proof.
  intros HQ. apply wp_modify, HQ. destruct H as [H1 H2 H3 H4]. split; simpl; try done.
  by rewrite H4.
Qed.
End at_one.

Lemma wp_mgr_alloc_free s m fr fl fd p f fr' (Q : option FrameId → bp_state D → Prop) :
  at_state s m fr fl → m !! (fd, p) = None → fr = f :: fr' → pin_count_ f = 0%nat →
  (∀ s', at_state s' (<[(fd, p) := set_pin 1 (set_page_num p f)]> m) fr' fl → Q (Some (fd, p)) s') →
  wp (mgr_alloc fd p) s Q.
Proof.
  intros H Hm -> Hp HQ. unfold mgr_alloc. apply wp_bind, (wp_get_internal_miss H); [done|].
  intros s1 H1. apply wp_bind, wp_get. rewrite (at_free _ _ _ _ H1).
  apply wp_bind, wp_assert; [by apply bool_decide_eq_true_2|].
  apply wp_bind, wp_modify, wp_ret, HQ. destruct H1 as [H1 H2 H3 H4].
  split; simpl; try done; [by apply LruCache.put_wf|].
  apply map_eq. intros i. rewrite <-find_list_to_map, LruCache.put_find, find_list_to_map, H2 by done.
  case_decide as Hi; [subst i; by rewrite lookup_insert_eq|by rewrite lookup_insert_ne].
Qed.

Lemma wp_mgr_alloc_none s m fl fd p (Q : option FrameId → bp_state D → Prop) :
  at_state s m [] fl → m !! (fd, p) = None → (∀ s', at_state s' m [] fl → Q None s') →
  wp (mgr_alloc fd p) s Q.
Proof.
  intros H Hm HQ. unfold mgr_alloc. apply wp_bind, (wp_get_internal_miss H); [done|].
  intros s1 H1. apply wp_bind, wp_get. rewrite (at_free _ _ _ _ H1). by apply wp_ret, HQ.
Qed.

(** ** The frame to evict *)
Lemma frames_can_purge_one s m fr fl :
  at_state s m fr fl →
  match frames_can_purge 1 (frames s) with
  | [] => ∀ id f, m !! id = Some f → pin_count_ f ≠ 0%nat
  | [id] => ∃ f, m !! id = Some f ∧ pin_count_ f = 0%nat
  | _ => False
  end.
Proof.
  intros [Hwf Hm _ _]. unfold frames_can_purge. change (Nat.max 1 1) with 1%nat.
  assert (∀ x, x ∈ filter (λ x : FrameId * Frame D, can_purge x.2 = true) (rev (frames s)) ↔
    m !! x.1 = Some x.2 ∧ pin_count_ x.2 = 0%nat) as Hin.
  { intros [id f]. rewrite list_elem_of_filter, list_elem_of_In, <-in_rev, <-list_elem_of_In.
    unfold can_purge. rewrite bool_decide_eq_true. simpl.
    rewrite <-(LruCache.find_Some id f _ Hwf), find_list_to_map, Hm. tauto. }
  destruct (filter _ _) as [|[id f] l]; simpl.
  - intros id f Hf Hp. eapply not_elem_of_nil. apply (Hin (id, f)). done.
  - exists f. apply (Hin (id, f)). left.
Qed.
(** ** Flushing *)
Context (writen_ok : Z → PageNum → bool).

Lemma wp_flush_internal s m fr fl fd id f (Q : RC.t → bp_state D → Prop) :
  at_state s m fr fl → m !! id = Some f →
  (if writen_ok fd (page_num_ f)
   then ∀ s', at_state s' (<[id := set_dirty false f]> m) fr
                (file_write fd (page_num_ f) (frame_data f) fl) → Q RC.SUCCESS s'
   else ∀ s', at_state s' m fr fl → Q RC.IOERR_WRITE s') →
  wp (flush_page_internal writen_ok fd id) s Q.
Proof.
  intros H Hf HQ. unfold flush_page_internal. apply wp_bind, (wp_frame_at H id f); [done|].
  destruct (writen_ok fd (page_num_ f)); [|by apply wp_ret, HQ].
  apply wp_bind, (wp_write_file H). intros s1 H1.
  apply wp_bind, (wp_frame_modify H1 id f); [done|]. intros s2 H2. by apply wp_ret, HQ.
Qed.
End steps.

(** * The buffer pool is a transparent cache

    [page m fl id] is what a page holds: the data of its frame, or else what the file
    has.  Eviction, loading and flushing change no page, and never touch a frame that
    is pinned. *)
Section correct.
Context {D : Type}.
Abbreviation frame_map := (gmap FrameId (Frame D)).
Abbreviation file_map := (gmap Z (gmap PageNum (PageData D))).
Implicit Types (s : bp_state D) (m : frame_map) (fr : list (Frame D)) (fl : file_map)
  (id : FrameId) (f : Frame D) (p : PageNum).

Definition on_disk fl id : option (PageData D) := fl !! id.1 ≫= (.!! id.2).
Definition page m fl id : option (PageData D) :=
  match m !! id with Some f => Some (frame_data f) | None => on_disk fl id end.

(** Every frame is registered under its own [FrameId], a frame that is not dirty agrees
    with its file, the file of a frame is open, and the free frames are not pinned. *)
Record pool_ok m fr fl : Prop := {
  ok_id : ∀ id f, m !! id = Some f → frame_id f = id;
  ok_clean : ∀ id f, m !! id = Some f → dirty_ f = false → on_disk fl id = Some (frame_data f);
  ok_open : ∀ id f, m !! id = Some f → is_Some (fl !! id.1);
  ok_free : ∀ f, f ∈ fr → pin_count_ f = 0%nat
}.

(** No page changes and the pinned frames stay as they are. *)
Definition keeps m fl m' fl' : Prop :=
  (∀ id, page m' fl' id = page m fl id) ∧
  (∀ id f, m !! id = Some f → (0 < pin_count_ f)%nat → m' !! id = Some f) ∧
  (∀ id, m !! id = None → m' !! id = None) ∧
  (∀ fd, is_Some (fl !! fd) → is_Some (fl' !! fd)).

Lemma keeps_refl m fl : keeps m fl m fl.
Proof. by split_and!. Qed.

Lemma keeps_trans m1 fl1 m2 fl2 m3 fl3 :
  keeps m1 fl1 m2 fl2 → keeps m2 fl2 m3 fl3 → keeps m1 fl1 m3 fl3.
Proof.
  intros (A1 & A2 & A3 & A4) (B1 & B2 & B3 & B4). split_and!.
  - intros id. by rewrite B1.
  - intros id f Hf Hp. by apply B2; [apply A2|].
  - intros id Hid. by apply B3, A3.
  - intros fd Hfd. by apply B4, A4.
Qed.

Lemma on_disk_write fd p d fl id :
  on_disk (file_write fd p d fl) id = if decide (id = (fd, p)) then Some d else on_disk fl id.
Proof.
  unfold on_disk, file_write. destruct id as [fd' p']. simpl.
  destruct (decide (fd' = fd)) as [->|Hfd].
  - rewrite lookup_insert_eq. simpl. destruct (decide (p' = p)) as [->|Hp].
    + by rewrite lookup_insert_eq, decide_True.
    + rewrite lookup_insert_ne, decide_False by congruence.
      destruct (fl !! fd); simpl; [done|by rewrite lookup_empty].
  - rewrite lookup_insert_ne, decide_False by congruence. done.
Qed.

Lemma file_write_open fd p d fl fd' :
  is_Some (fl !! fd') → is_Some (file_write fd p d fl !! fd').
Proof.
  intros Hs. unfold file_write. destruct (decide (fd' = fd)) as [->|];
    [rewrite lookup_insert_eq; eauto|by rewrite lookup_insert_ne].
Qed.

(** A page written with what its frame holds, and the frame clean afterwards. *)
Lemma flush_ok m fr fl id f :
  pool_ok m fr fl → m !! id = Some f →
  pool_ok (<[id := set_dirty false f]> m) fr (file_write id.1 id.2 (frame_data f) fl).
Proof.
  intros [Hid Hcl Hop Hfr] Hf. destruct id as [fd p]. split; [..|done].
  - intros i g. destruct (decide (i = (fd, p))) as [->|Hne].
    + rewrite lookup_insert_eq. intros [= <-]. exact (Hid _ _ Hf).
    + rewrite lookup_insert_ne by done. apply Hid.
  - intros i g. rewrite on_disk_write. destruct (decide (i = (fd, p))) as [->|Hne].
    + rewrite lookup_insert_eq, decide_True by done. by intros [= <-].
    + rewrite lookup_insert_ne, decide_False by done. apply Hcl.
  - intros i g Hi. apply file_write_open. destruct (decide (i = (fd, p))) as [->|Hne].
    + by eapply Hop.
    + rewrite lookup_insert_ne in Hi by done. by eapply Hop.
Qed.

Lemma flush_page_eq m fl id f i :
  m !! id = Some f →
  page (<[id := set_dirty false f]> m) (file_write id.1 id.2 (frame_data f) fl) i = page m fl i.
Proof.
  intros Hf. unfold page. rewrite on_disk_write. destruct id as [fd p]. simpl.
  destruct (decide (i = (fd, p))) as [->|Hne]; [by rewrite lookup_insert_eq, Hf|].
  by rewrite lookup_insert_ne.
Qed.

(** ** Eviction *)

(** Removing a frame whose data is on disk. *)
Lemma evict_ok m fr fl id f' :
  pool_ok m fr fl → pin_count_ f' = 0%nat → pool_ok (delete id m) (fr ++ [f']) fl.
Proof.
  intros [Hid Hcl Hop Hfr] Hp. split.
  - intros i g [_ Hi]%lookup_delete_Some. by apply Hid.
  - intros i g [_ Hi]%lookup_delete_Some. by apply Hcl.
  - intros i g [_ Hi]%lookup_delete_Some. by eapply Hop.
  - intros g [Hg|Hg]%elem_of_app; [by apply Hfr|]. by apply list_elem_of_singleton in Hg as ->.
Qed.
Lemma evict_keeps m fl id f :
  m !! id = Some f → pin_count_ f = 0%nat → on_disk fl id = Some (frame_data f) →
  keeps m fl (delete id m) fl.
Proof.
  intros Hf Hp Hd. split_and!; [| | |done].
  - intros i. unfold page. destruct (decide (i = id)) as [->|].
    + by rewrite lookup_delete_eq, Hf.
    + by rewrite lookup_delete_ne.
  - intros i g Hg Hpos. destruct (decide (i = id)) as [->|]; [assert (g = f) by congruence; subst; lia|].
    by rewrite lookup_delete_ne.
  - intros i Hi. by apply lookup_delete_None; right.
Qed.

(** The victim a purge picks is pinned first, so the purger sees it with count 1. *)
Lemma pin_ok m fr fl id f n :
  pool_ok m fr fl → m !! id = Some f → pool_ok (<[id := set_pin n f]> m) fr fl.
Proof.
  intros [Hid Hcl Hop Hfr] Hf. split; [..|done].
  - intros i g. destruct (decide (i = id)) as [->|Hne];
      [rewrite lookup_insert_eq; intros [= <-]; exact (Hid _ _ Hf)|].
    rewrite lookup_insert_ne by done. apply Hid.
  - intros i g. destruct (decide (i = id)) as [->|Hne];
      [rewrite lookup_insert_eq; intros [= <-]; exact (Hcl _ _ Hf)|].
    rewrite lookup_insert_ne by done. apply Hcl.
  - intros i g Hi. destruct (decide (i = id)) as [->|Hne]; [by eapply Hop|].
    rewrite lookup_insert_ne in Hi by done. by eapply Hop.
Qed.

Lemma set_pin_back f : pin_count_ f = 0%nat → set_pin 0 (set_pin 1 f) = f.
Proof. destruct f; simpl. by intros ->. Qed.

Context (writen_ok : Z → PageNum → bool).

(** The purger of [allocate_frame]: the frame it is given ends clean and on disk, or
    its write fails and nothing changes. *)
Lemma wp_allocate_purger s m fr fl fd id f (Q : RC.t → bp_state D → Prop) :
  at_state s m fr fl → pool_ok m fr fl → m !! id = Some f →
  (dirty_ f = false → ∀ s', at_state s' m fr fl → Q RC.SUCCESS s') →
  (dirty_ f = true → writen_ok id.1 id.2 = true → ∀ s',
     at_state s' (<[id := set_dirty false f]> m) fr (file_write id.1 id.2 (frame_data f) fl) →
     Q RC.SUCCESS s') →
  (dirty_ f = true → writen_ok id.1 id.2 = false → ∀ s', at_state s' m fr fl → Q RC.IOERR_WRITE s') →
  wp (allocate_purger writen_ok fd id) s Q.
Proof.
  intros H Hok Hf Hcl Hw Hfail. unfold allocate_purger. apply wp_bind, (wp_frame_at H id f); [done|].
  destruct (dirty_ f) eqn:Hd; cbn [negb]; [|by apply wp_ret, Hcl].
  pose proof (ok_id _ _ _ Hok _ _ Hf) as Hid. unfold frame_id in Hid.
  assert (frame_fd f = id.1 ∧ page_num_ f = id.2) as [Hfd Hp] by by rewrite <-Hid.
  assert (wp (flush_page_internal writen_ok id.1 id) s Q) as Hflush.
  { eapply wp_flush_internal; [exact H|exact Hf|]. rewrite Hp.
    destruct (writen_ok id.1 id.2) eqn:Hwr; intros s' H'; auto. }
  case_decide as Hsame.
  - rewrite <-Hfd, Hsame in Hflush. exact Hflush.
  - unfold bpm_flush_page. apply wp_bind, (wp_frame_at H id f); [done|].
    apply wp_bind, wp_get. rewrite (at_files _ _ _ _ H), Hfd.
    destruct (ok_open _ _ _ Hok _ _ Hf) as [pages ->]. exact Hflush.
Qed.

(** One round of [purge_frames]: nothing to evict, a write that fails, or one frame
    fewer in use. *)
Lemma wp_purge_one s m fr fl fd (Q : nat → bp_state D → Prop) :
  at_state s m fr fl → pool_ok m fr fl →
  ((∀ id f, m !! id = Some f → pin_count_ f ≠ 0%nat) → ∀ s', at_state s' m fr fl → Q 0%nat s') →
  (∀ id f, m !! id = Some f → pin_count_ f = 0%nat → dirty_ f = true → writen_ok id.1 id.2 = false →
     ∀ s', at_state s' m fr fl → Q 0%nat s') →
  (∀ id f s' f' fl', m !! id = Some f → at_state s' (delete id m) (fr ++ [f']) fl' →
     pool_ok (delete id m) (fr ++ [f']) fl' → keeps m fl (delete id m) fl' → dirty_ f' = false →
     Q 1%nat s') →
  wp (purge_frames 1 (allocate_purger writen_ok fd)) s Q.
Proof.
  intros H Hok Hnone Hfail Hone. unfold purge_frames. apply wp_bind, wp_get.
  pose proof (frames_can_purge_one _ _ _ _ H) as Hpick.
  destruct (frames_can_purge 1 (frames s)) as [|id [|]]; [|destruct Hpick as (f & Hf & Hp)|done].
  { apply wp_bind, wp_ret, wp_ret. by apply Hnone. }
  apply wp_bind. cbn [pin_each]. apply wp_bind, (wp_pin H id f); [done|]. intros s1 H1.
  apply wp_ret. cbn [purge_each]. rewrite Hp in H1. set (f1 := set_pin 1 f) in *.
  assert (<[id := f1]> m !! id = Some f1) as Hf1 by apply lookup_insert_eq.
  pose proof (pin_ok _ _ _ _ _ 1 Hok Hf) as Hok1. fold f1 in Hok1.
  apply wp_bind. eapply (wp_allocate_purger _ _ _ _ fd id f1); [exact H1|exact Hok1|done|..].
  - intros Hd s2 H2. cbn [RC.succ]. apply wp_bind, wp_bind, (wp_frame_at H2 id f1); [done|].
    rewrite (ok_id _ _ _ Hok1 _ _ Hf1). apply wp_bind, (wp_free_internal H2 id f1); [done..|].
    intros s3 H3. apply wp_ret, wp_bind, wp_ret, wp_ret.
    rewrite delete_insert_eq in H3. eapply (Hone id f); [done|exact H3| | |exact Hd].
    + by apply evict_ok.
    + eapply evict_keeps; [done|done|]. by apply (ok_clean _ _ _ Hok _ _ Hf).
  - intros Hd Hw s2 H2. cbn [RC.succ]. rewrite insert_insert_eq in H2.
    set (f2 := set_dirty false f1) in *.
    assert (<[id := f2]> m !! id = Some f2) as Hf2 by apply lookup_insert_eq.
    apply wp_bind, wp_bind, (wp_frame_at H2 id f2); [done|].
    assert (frame_id f2 = id) as -> by exact (ok_id _ _ _ Hok _ _ Hf).
    apply wp_bind, (wp_free_internal H2 id f2); [done..|].
    intros s3 H3. apply wp_ret, wp_bind, wp_ret, wp_ret.
    rewrite delete_insert_eq in H3. eapply (Hone id f); [done|exact H3| | |done].
    + pose proof (flush_ok _ _ _ _ _ Hok Hf) as Hfl.
      pose proof (evict_ok _ _ _ id (set_pin 0 f2) Hfl eq_refl) as He.
      by rewrite delete_insert_eq in He.
    + split_and!.
      * intros i. rewrite <-(flush_page_eq m fl id f i Hf). unfold page.
        destruct (decide (i = id)) as [->|].
        -- rewrite lookup_delete_eq, lookup_insert_eq, on_disk_write.
           by rewrite decide_True by by destruct id.
        -- by rewrite lookup_delete_ne, lookup_insert_ne.
      * intros i g Hg Hpos. destruct (decide (i = id)) as [->|];
          [assert (g = f) by congruence; subst; lia|]. by rewrite lookup_delete_ne.
      * intros i Hi. by apply lookup_delete_None; right.
      * intros fd'. apply file_write_open.
  - intros Hd Hw s2 H2. change (RC.succ RC.IOERR_WRITE) with false.
    apply wp_bind, wp_bind, (wp_unpin H2 id f1); [done|simpl; lia|]. intros s3 H3.
    apply wp_ret, wp_bind, wp_ret, wp_ret. rewrite insert_insert_eq in H3.
    unfold f1 in H3. simpl in H3. eapply (Hfail id f); [done..|].
    assert (set_pin 0 (set_pin 1 f) = f) as Hback by by apply set_pin_back.
    rewrite Hback, insert_id in H3 by done. exact H3.
Qed.

(** ** [allocate_frame] *)

(** A frame can be had: one is free, or one is not pinned. *)
Definition frame_available m fr : Prop :=
  fr ≠ [] ∨ ∃ id f, m !! id = Some f ∧ pin_count_ f = 0%nat.

(** When no frame is free, the ones that are not pinned can be written if they must:
    [allocate_frame] tries the victim whose write fails again and again. *)
Definition can_evict m fr : Prop :=
  fr = [] → ∀ id f, m !! id = Some f → pin_count_ f = 0%nat → dirty_ f = true →
    writen_ok id.1 id.2 = true.
Lemma can_evict_all m fr : (∀ fd p, writen_ok fd p = true) → can_evict m fr.
Proof. by intros Hw _ id f _ _ _. Qed.

(** The frame [allocate_frame] takes: the first free one, as it was left, or else a clean
    one. *)
Definition taken fr p f : Prop :=
  match fr with
  | g :: _ => f = set_pin 1 (set_page_num p g)
  | [] => dirty_ f = false
  end.

Lemma wp_allocate_frame fuel s m fr fl fd p (Q : RC.t + FrameId → bp_state D → Prop) :
  at_state s m fr fl → pool_ok m fr fl → m !! (fd, p) = None →
  frame_available m fr → can_evict m fr → (2 <= fuel)%nat →
  (∀ s' m' fr' fl' f, at_state s' (<[(fd, p) := f]> m') fr' fl' → pool_ok m' fr' fl' →
     keeps m fl m' fl' → m' !! (fd, p) = None → pin_count_ f = 1%nat →
     taken fr p f → Q (inr (fd, p)) s') →
  wp (allocate_frame writen_ok fuel fd p) s Q.
Proof.
  intros H Hok Hm Hav Hw Hfuel HQ. destruct fuel as [|[|fuel]]; [lia..|].
  cbn [allocate_frame]. apply wp_bind. destruct fr as [|f fr].
  - apply (wp_mgr_alloc_none _ _ _ _ _ _ H Hm). intros s1 H1. apply wp_bind.
    apply (wp_purge_one _ _ _ _ fd _ H1 Hok).
    + intros Hno. exfalso. destruct Hav as [|(id & f & Hf & Hp)]; [done|]. by eapply Hno.
    + intros id f Hf Hp Hd Hbad. by rewrite (Hw eq_refl id f Hf Hp Hd) in Hbad.
    + intros id f s2 f' fl' Hf H2 Hok2 Hkeep Hcl. apply wp_bind.
      pose proof (proj1 (proj2 (proj2 Hkeep)) _ Hm) as Hm2.
      eapply (wp_mgr_alloc_free _ _ _ _ fd p f' [] _ H2 Hm2); [done|apply (ok_free _ _ _ Hok2); left|].
      intros s3 H3. apply wp_ret. eapply HQ; try done.
      destruct Hok2 as [O1 O2 O3 O4]. split; try done. by intros ? ?%not_elem_of_nil.
  - assert (pin_count_ f = 0%nat) as Hp by (apply Hok; left).
    eapply (wp_mgr_alloc_free _ _ _ _ fd p f fr _ H Hm); [done|done|].
    intros s1 H1. apply wp_ret. eapply HQ; try done.
    destruct Hok as [O1 O2 O3 O4]. split; try done. intros g Hg. apply O4. by right.
Qed.

(** ** [get_this_page] *)
Lemma page_fresh m fl id f :
  page (<[id := f]> m) fl id = Some (frame_data f).
Proof. unfold page. by rewrite lookup_insert_eq. Qed.
Lemma page_other m fl id id' f :
  id' ≠ id → page (<[id := f]> m) fl id' = page m fl id'.
Proof. intros Hne. unfold page. by rewrite lookup_insert_ne. Qed.

(** What [get_this_page] promises: the frame of the page, pinned once more, holds what
    the page holds; every other page and every other pinned frame is as before. *)
Record got_page m fl fd p (d : PageData D) s' : Prop := {
  got : ∃ m' fr' fl' f, at_state s' m' fr' fl' ∧ pool_ok m' fr' fl' ∧
    m' !! (fd, p) = Some f ∧ frame_data f = d ∧
    pin_count_ f = S (match m !! (fd, p) with Some g => pin_count_ g | None => 0%nat end) ∧
    (∀ id, page m' fl' id = page m fl id) ∧
    (∀ id g, id ≠ (fd, p) → m !! id = Some g → (0 < pin_count_ g)%nat → m' !! id = Some g)
}.

Lemma wp_get_this_page_hit s m fr fl fd p f fuel :
  at_state s m fr fl → pool_ok m fr fl → m !! (fd, p) = Some f →
  wp (get_this_page writen_ok fuel fd p) s
    (λ r s', r = inr (fd, p) ∧ got_page m fl fd p (frame_data f) s').
Proof.
  intros H Hok Hf. unfold get_this_page. apply wp_bind, (wp_get_internal_hit H _ f); [done|].
  intros s1 H1. apply wp_ret. split; [done|]. constructor.
  eexists _, _, _, _. split; [exact H1|]. split; [by apply pin_ok|].
  split_and!; [by apply lookup_insert_eq|done|by rewrite Hf| |].
  - intros id. unfold page. destruct (decide (id = (fd, p))) as [->|];
      [by rewrite lookup_insert_eq, Hf|by rewrite lookup_insert_ne].
  - intros id g Hne Hg _. by rewrite lookup_insert_ne.
Qed.

Lemma wp_get_this_page_load s m fr fl fd p d fuel :
  at_state s m fr fl → pool_ok m fr fl → m !! (fd, p) = None → on_disk fl (fd, p) = Some d →
  frame_available m fr → can_evict m fr → (2 <= fuel)%nat →
  wp (get_this_page writen_ok fuel fd p) s
    (λ r s', r = inr (fd, p) ∧ got_page m fl fd p d s').
Proof.
  intros H Hok Hm Hd Hav Hw Hfuel. unfold get_this_page.
  apply wp_bind, (wp_get_internal_miss H); [done|]. intros s1 H1.
  apply wp_bind, (wp_allocate_frame _ _ _ _ _ _ _ _ H1 Hok Hm Hav Hw Hfuel).
  intros s2 m2 fr2 fl2 f H2 Hok2 (Hpages & Hpins & _ & Hopen) Hm2 Hp _. cbn beta iota.
  apply wp_bind, (wp_frame_modify H2 _ f); [by apply lookup_insert_eq|]. intros s3 H3.
  rewrite insert_insert_eq in H3. apply wp_bind. unfold load_page. apply wp_bind, wp_get.
  assert (on_disk fl2 (fd, p) = Some d) as Hd2.
  { pose proof (Hpages (fd, p)) as Heq. unfold page in Heq. by rewrite Hm2, Hm, Hd in Heq. }
  rewrite (at_files _ _ _ _ H3). change (fl2 !! fd ≫= (.!! p)) with (on_disk fl2 (fd, p)). rewrite Hd2.
  apply wp_bind, (wp_frame_modify H3 _ (set_fd fd f)); [by apply lookup_insert_eq|]. intros s4 H4.
  rewrite insert_insert_eq in H4. apply wp_ret. cbn [RC.succ]. apply wp_ret. split; [done|].
  constructor. eexists _, _, _, _. split; [exact H4|]. split_and!.
  - destruct Hok2 as [O1 O2 O3 O4]. split; [..|done]; intros id g;
      (destruct (decide (id = (fd, p))) as [->|];
        [rewrite lookup_insert_eq; intros [= <-]|rewrite lookup_insert_ne by done]);
      [done|apply O1|done|apply O2| |apply O3].
    apply Hopen. unfold on_disk in Hd. simpl in *. destruct (fl !! fd); [by eexists|done].
  - by apply lookup_insert_eq.
  - done.
  - simpl. by rewrite Hp, Hm.
  - intros id. destruct (decide (id = (fd, p))) as [->|Hne].
    + rewrite page_fresh. unfold page. by rewrite Hm, Hd.
    + rewrite page_other by done. apply Hpages.
  - intros id g Hne Hg Hpos. rewrite lookup_insert_ne by done. by apply Hpins.
Qed.

(** A page that is nowhere.  The frame taken for it goes back to the free list.  When
    that frame was free and dirty, as [free] leaves the frame of a page that is disposed,
    [purge_frame] flushes what it holds first: the page now reads as the stale data, from
    the file, or from the frame when the write fails. *)
Definition missing_page m fr fl fd p s' : Prop :=
  ∃ m' fr' fl', at_state s' m' fr' fl' ∧ pool_ok m' fr' fl' ∧
    match fr with
    | g :: _ => if dirty_ g
        then page m' fl' (fd, p) = Some (frame_data g) ∧
          (∀ id, id ≠ (fd, p) → page m' fl' id = page m fl id) ∧
          (∀ id f, m !! id = Some f → (0 < pin_count_ f)%nat → m' !! id = Some f)
        else keeps m fl m' fl'
    | [] => keeps m fl m' fl'
    end.

Section load_fails.
Context {s m fr fl} {fd : Z} {p : PageNum} {f : Frame D}.
Context (H : at_state s (<[(fd, p) := f]> m) fr fl) (Hok : pool_ok m fr fl).
Context (Hm : m !! (fd, p) = None) (Hop : is_Some (fl !! fd)).
Context (Hid : frame_id f = (fd, p)) (Hp : pin_count_ f = 1%nat).

Lemma wp_purge_clean (Q : RC.t → bp_state D → Prop) :
  dirty_ f = false →
  (∀ s', at_state s' m (fr ++ [set_pin 0 f]) fl → pool_ok m (fr ++ [set_pin 0 f]) fl → Q RC.SUCCESS s') →
  wp (purge_frame writen_ok fd p (fd, p)) s Q.
Proof.
  intros Hc HQ. unfold purge_frame.
  apply wp_bind, (wp_frame_at H _ f); [by apply lookup_insert_eq|].
  rewrite Hp, decide_False, Hc by lia. apply wp_bind, wp_ret. cbn [RC.succ].
  apply wp_bind, (wp_free_internal H _ f); [by apply lookup_insert_eq|done|].
  intros s1 H1. apply wp_ret. rewrite delete_insert_id in H1 by done. apply HQ; [done|].
  destruct Hok as [O1 O2 O3 O4]. split; try done.
  intros g [Hg|Hg]%elem_of_app; [by apply O4|]. by apply list_elem_of_singleton in Hg as ->.
Qed.

Lemma wp_purge_stale (Q : RC.t → bp_state D → Prop) :
  dirty_ f = true →
  (∀ rc s' m' fr' fl', at_state s' m' fr' fl' → pool_ok m' fr' fl' →
     page m' fl' (fd, p) = Some (frame_data f) →
     (∀ id, id ≠ (fd, p) → page m' fl' id = page m fl id) →
     (∀ id g, m !! id = Some g → m' !! id = Some g) → Q rc s') →
  wp (purge_frame writen_ok fd p (fd, p)) s Q.
Proof.
  intros Hdirty HQ. pose proof Hid as Hfp. injection Hfp as _ Hpn. unfold purge_frame.
  apply wp_bind, (wp_frame_at H _ f); [by apply lookup_insert_eq|].
  rewrite Hp, decide_False, Hdirty by lia.
  apply wp_bind. eapply (wp_flush_internal writen_ok); [exact H|by apply lookup_insert_eq|].
  rewrite Hpn. destruct (writen_ok fd p); intros s1 H1; cbn [RC.succ].
  - rewrite insert_insert_eq in H1.
    apply wp_bind, (wp_free_internal H1 _ (set_dirty false f)); [by apply lookup_insert_eq|done|].
    intros s2 H2. rewrite delete_insert_id in H2 by done. apply wp_ret.
    eapply HQ; [exact H2|..]; [|by unfold page; rewrite Hm, on_disk_write, decide_True| |done].
    + destruct Hok as [O1 O2 O3 O4]. split; [done|..].
      * intros id g Hg Hcl. rewrite on_disk_write, decide_False by congruence. by apply O2.
      * intros id g Hg. by eapply file_write_open, O3.
      * intros g [Hg|Hg]%elem_of_app; [by apply O4|]. by apply list_elem_of_singleton in Hg as ->.
    + intros id Hne. unfold page. by rewrite on_disk_write, decide_False.
  - apply wp_ret. eapply HQ; [exact H1|..]; [|by apply page_fresh|by intros; apply page_other|].
    + destruct Hok as [O1 O2 O3 O4]. split; [..|done]; intros id g;
        (destruct (decide (id = (fd, p))) as [->|];
          [rewrite lookup_insert_eq; intros [= <-]|rewrite lookup_insert_ne by done]);
        [done|apply O1|congruence|apply O2|done|apply O3].
    + intros id g Hg. rewrite lookup_insert_ne; [done|]. congruence.
Qed.
End load_fails.

Lemma wp_get_this_page_missing s m fr fl fd p fuel :
  at_state s m fr fl → pool_ok m fr fl → m !! (fd, p) = None → on_disk fl (fd, p) = None →
  is_Some (fl !! fd) → frame_available m fr → can_evict m fr → (2 <= fuel)%nat →
  wp (get_this_page writen_ok fuel fd p) s (λ r s', r = inl RC.IOERR_READ ∧
    missing_page m fr fl fd p s').
Proof.
  intros H Hok Hm Hd Hop Hav Hw Hfuel. unfold get_this_page.
  apply wp_bind, (wp_get_internal_miss H); [done|]. intros s1 H1.
  apply wp_bind, (wp_allocate_frame _ _ _ _ _ _ _ _ H1 Hok Hm Hav Hw Hfuel).
  intros s2 m2 fr2 fl2 f H2 Hok2 Hkeep Hm2 Hp Htaken.
  cbn beta iota. apply wp_bind, (wp_frame_modify H2 _ f); [by apply lookup_insert_eq|]. intros s3 H3.
  rewrite insert_insert_eq in H3. apply wp_bind. unfold load_page. apply wp_bind, wp_get.
  assert (on_disk fl2 (fd, p) = None) as Hd2.
  { pose proof (proj1 Hkeep (fd, p)) as Heq. unfold page in Heq. by rewrite Hm2, Hm, Hd in Heq. }
  rewrite (at_files _ _ _ _ H3). change (fl2 !! fd ≫= (.!! p)) with (on_disk fl2 (fd, p)). rewrite Hd2.
  apply wp_ret. change (RC.succ RC.IOERR_READ) with false. apply wp_bind.
  assert (is_Some (fl2 !! fd)) as Hop2 by by apply Hkeep.
  assert (pin_count_ (set_fd fd f) = 1%nat) as Hp3 by done.
  assert (dirty_ f = false → wp (purge_frame writen_ok fd p (fd, p)) s3 (λ _ s', ∃ m' fr' fl',
    at_state s' m' fr' fl' ∧ pool_ok m' fr' fl' ∧ keeps m fl m' fl')) as Hclean.
  { intros Hc. apply (wp_purge_clean H3 Hok2 Hm2 Hp3); [done|]. intros s4 H4 Hok4.
    by eexists _, _, _. }
  destruct fr as [|g fr]; simpl in Htaken.
  - eapply wp_mono; [by apply Hclean|]. intros rc s4 (m' & fr' & fl' & H4 & Hok4 & Hk).
    apply wp_ret. split; [done|]. by exists m', fr', fl'.
  - subst f. destruct (dirty_ g) eqn:Hg.
    + apply (wp_purge_stale H3 Hok2 Hm2 Hop2 eq_refl Hp3); [done|].
      intros rc s4 m' fr' fl' H4 Hok4 Hpage Hother Hkept. apply wp_ret. split; [done|].
      exists m', fr', fl'. rewrite Hg. split_and!; [done..| |].
      * intros id Hne. rewrite Hother by done. apply Hkeep.
      * intros id x Hx Hpos. by apply Hkept, Hkeep.
    + eapply wp_mono; [by apply Hclean|]. intros rc s4 (m' & fr' & fl' & H4 & Hok4 & Hk).
      apply wp_ret. split; [done|]. exists m', fr', fl'. by rewrite Hg.
Qed.
End correct.

(** * Allocating, disposing and flushing pages of the buffer pool

    [allocate_page] and [dispose_page] of [DiskBufferPool] do to the file header in its
    frame what [BPFileHeader.allocate] and [release_page] do to a header, and leave the
    other pages alone; a frame cannot be had when all of them are pinned. *)
Section alloc.
Context {D : Type}.
Abbreviation frame_map := (gmap FrameId (Frame D)).
Abbreviation file_map := (gmap Z (gmap PageNum (PageData D))).
Implicit Types (s : bp_state D) (m : frame_map) (fr : list (Frame D)) (fl : file_map)
  (id : FrameId) (f : Frame D) (p : PageNum).

(** A frame written to and marked dirty. *)
Definition dirtied (d : PageData D) f : Frame D := set_dirty true (set_data d f).

Lemma dirty_ok m fr fl id f d :
  pool_ok m fr fl → m !! id = Some f → pool_ok (<[id := dirtied d f]> m) fr fl.
Proof.
  intros [Hid Hcl Hop Hfr] Hf. split; [..|done]; intros i g;
    (destruct (decide (i = id)) as [->|Hne];
      [rewrite lookup_insert_eq; intros [= <-]|rewrite lookup_insert_ne by done]).
  - exact (Hid _ _ Hf).
  - apply Hid.
  - done.
  - apply Hcl.
  - exact (Hop _ _ Hf).
  - apply Hop.
Qed.

Section header.
Context {s m fr fl} (H : at_state s m fr fl).
Context {fd : Z} {hf : Frame D} {h : BPFileHeader.t}.
Context (Hhf : m !! (fd, BP_HEADER_PAGE) = Some hf) (Hh : frame_data hf = HeaderData h).

Lemma wp_file_header (Q : BPFileHeader.t → bp_state D → Prop) :
  Q h s → wp (file_header fd) s Q.
Proof.
  intros HQ. unfold file_header. apply wp_bind, (wp_frame_at H _ hf); [done|]. rewrite Hh.
  by apply wp_ret.
Qed.

(** [file_header_ = h'; hdr_frame_->mark_dirty()] *)
Lemma wp_update_header {A} h' (k : ST (bp_state D) A) (Q : A → bp_state D → Prop) :
  (∀ s', at_state s' (<[(fd, BP_HEADER_PAGE) := dirtied (HeaderData h') hf]> m) fr fl → wp k s' Q) →
  wp (set_file_header fd h' ;;; mark_dirty (fd, BP_HEADER_PAGE) ;;; k) s Q.
Proof.
  intros HQ. apply wp_bind, (wp_frame_modify H _ hf); [done|]. intros s1 H1.
  apply wp_bind, (wp_frame_dirty H1 _ (set_data (HeaderData h') hf)); [by apply lookup_insert_eq|].
  intros s2 H2. rewrite insert_insert_eq in H2. by apply HQ.
Qed.
End header.

Context (zero_data : D) (writen_ok : Z → PageNum → bool).

(** ** [allocate_page] *)

(** The state after a successful allocation of page [p]: the header is [h'], page [p] is
    in its frame, pinned, with the data [d], and the other pages are as before. *)
Definition allocated_page m fl fd p h' (d : PageData D) s' : Prop :=
  ∃ m' fr' fl' f, at_state s' m' fr' fl' ∧ pool_ok m' fr' fl' ∧
    m' !! (fd, p) = Some f ∧ frame_data f = d ∧ (0 < pin_count_ f)%nat ∧
    page m' fl' (fd, BP_HEADER_PAGE) = Some (HeaderData h') ∧
    ∀ id, id ≠ (fd, p) → id ≠ (fd, BP_HEADER_PAGE) → page m' fl' id = page m fl id.

Section allocate.
Context {s m fr fl} (H : at_state s m fr fl) (Hok : pool_ok m fr fl).
Context {fd : Z} {hf : Frame D} {h : BPFileHeader.t} {fuel : nat}.
Context (Hhf : m !! (fd, BP_HEADER_PAGE) = Some hf) (Hh : frame_data hf = HeaderData h)
  (Hpin : (0 < pin_count_ hf)%nat) (Hav : frame_available m fr)
  (Hw : ∀ fd p, writen_ok fd p = true) (Hfuel : (2 <= fuel)%nat).

Lemma available_update id f g :
  m !! id = Some f → (0 < pin_count_ f)%nat → frame_available (<[id := g]> m) fr.
Proof.
  clear Hhf. intros Hf Hp. destruct Hav as [?|(i & x & Hx & Hx0)]; [by left|]. right.
  exists i, x. split; [|done]. rewrite lookup_insert_ne; [done|]. intros ->.
  assert (x = f) by congruence. subst. lia.
Qed.

(** A page below [page_count] that is free: it is taken, with what it held. *)
Lemma wp_allocate_reuse i h' d :
  BPFileHeader.choose_free h = Some i → BPFileHeader.take_page h i = Some h' →
  i ≠ 0%nat → m !! (fd, Z.of_nat i) = None → on_disk fl (fd, Z.of_nat i) = Some d →
  wp (allocate_page zero_data writen_ok fuel fd) s (λ r s',
    r = inr (fd, Z.of_nat i) ∧ allocated_page m fl fd (Z.of_nat i) h' d s').
Proof.
  intros Hch Htake Hi0 Hmi Hdi. unfold allocate_page.
  apply wp_bind, (wp_file_header H Hhf Hh). rewrite Hch.
  apply wp_bind. eapply wp_some; [exact Htake|].
  apply (wp_update_header H Hhf). intros s1 H1.
  set (m1 := <[(fd, BP_HEADER_PAGE) := dirtied (HeaderData h') hf]> m) in *.
  assert ((fd, Z.of_nat i) ≠ (fd, BP_HEADER_PAGE)) as Hne by (intros [= Hc]; unfold BP_HEADER_PAGE in Hc; lia).
  assert (m1 !! (fd, Z.of_nat i) = None) as Hm1 by by unfold m1; rewrite lookup_insert_ne.
  eapply wp_mono.
  { apply (wp_get_this_page_load writen_ok s1 m1 fr fl fd (Z.of_nat i) d fuel H1); try done.
    - by apply dirty_ok.
    - by eapply available_update.
    - by apply can_evict_all. }
  intros r s2 [-> [(m' & fr' & fl' & f & H2 & Hok2 & Hf & Hd & Hp & Hpages & Hpins)]].
  split; [done|]. exists m', fr', fl', f. split_and!; try done; [lia| |].
  - rewrite Hpages. unfold m1. by rewrite page_fresh.
  - intros id Hid Hid0. rewrite Hpages. unfold m1. by rewrite page_other.
Qed.

(** No free page below [page_count]: the file grows by one zeroed page. *)
Lemma wp_allocate_extend h' :
  BPFileHeader.choose_free h = None → Z.of_nat (BPFileHeader.page_count h) < MAX_PAGE_NUM →
  BPFileHeader.extend_page h = Some h' → (0 < BPFileHeader.page_count h)%nat →
  m !! (fd, Z.of_nat (BPFileHeader.page_count h)) = None →
  wp (allocate_page zero_data writen_ok fuel fd) s (λ r s',
    r = inr (fd, Z.of_nat (BPFileHeader.page_count h)) ∧
    allocated_page m fl fd (Z.of_nat (BPFileHeader.page_count h)) h' (UserData zero_data) s').
Proof.
  intros Hch Hmax Hext Hpos Hm. set (p := Z.of_nat (BPFileHeader.page_count h)) in *.
  unfold allocate_page. apply wp_bind, (wp_file_header H Hhf Hh). rewrite Hch.
  rewrite decide_False by lia. fold p.
  apply wp_bind, (wp_allocate_frame writen_ok fuel s m fr fl fd p _ H Hok Hm Hav (can_evict_all _ _ _ Hw) Hfuel).
  intros s1 m1 fr1 fl1 f H1 Hok1 (Hpages & Hpins & _ & Hopen) Hm1 Hp _. cbn beta iota.
  assert ((fd, p) ≠ (fd, BP_HEADER_PAGE)) as Hne by (intros [= Hc]; unfold BP_HEADER_PAGE in Hc; lia).
  pose proof (Hpins _ _ Hhf Hpin) as Hhf1.
  apply wp_bind. eapply wp_some; [exact Hext|].
  apply (wp_update_header H1 (hf := hf)); [by rewrite lookup_insert_ne|]. intros s2 H2.
  rewrite insert_insert_ne in H2 by done.
  set (m2 := <[(fd, BP_HEADER_PAGE) := dirtied (HeaderData h') hf]> m1) in *.
  apply wp_bind, (wp_frame_modify H2 _ f); [by apply lookup_insert_eq|]. intros s3 H3.
  rewrite insert_insert_eq in H3.
  set (f3 := set_page_num p (set_data (UserData zero_data) (set_fd fd f))) in *.
  apply wp_bind. eapply (wp_flush_internal writen_ok); [exact H3|by apply lookup_insert_eq|].
  rewrite Hw. intros s4 H4. rewrite insert_insert_eq in H4. apply wp_ret. split; [done|].
  exists (<[(fd, p) := set_dirty false f3]> m2), fr1,
    (file_write fd p (UserData zero_data) fl1), (set_dirty false f3).
  assert (pool_ok m2 fr1 fl1) as Hok2 by by apply dirty_ok.
  split_and!; [exact H4| |by apply lookup_insert_eq|done|simpl; lia| |].
  - destruct Hok2 as [O1 O2 O3 O4]. split; [..|done]; intros id g;
      (destruct (decide (id = (fd, p))) as [->|Hid];
        [rewrite lookup_insert_eq; intros [= <-]|rewrite lookup_insert_ne by done]).
    + done.
    + apply O1.
    + intros _. by rewrite on_disk_write, decide_True.
    + rewrite on_disk_write, decide_False by done. apply O2.
    + apply file_write_open, Hopen. exact (ok_open _ _ _ Hok _ _ Hhf).
    + intros Hg. by eapply file_write_open, O3.
  - rewrite page_other by done. unfold m2, page. by rewrite lookup_insert_eq.
  - intros id Hid Hid0. rewrite page_other by done. unfold m2. rewrite <-Hpages.
    unfold page. rewrite lookup_insert_ne by done. rewrite on_disk_write.
    by rewrite decide_False by done.
Qed.

(** The file is full: nothing changes. *)
Lemma wp_allocate_full :
  BPFileHeader.choose_free h = None → MAX_PAGE_NUM <= Z.of_nat (BPFileHeader.page_count h) →
  wp (allocate_page zero_data writen_ok fuel fd) s (λ r s',
    r = inl RC.BUFFERPOOL_NOBUF ∧ s' = s).
Proof.
  intros Hch Hmax. unfold allocate_page. apply wp_bind, (wp_file_header H Hhf Hh). rewrite Hch.
  rewrite decide_True by lia. by apply wp_ret.
Qed.
End allocate.

(** ** [dispose_page] *)
Lemma wp_dispose_page_frame s m fr fl fd hf h h' p f :
  at_state s m fr fl → pool_ok m fr fl →
  m !! (fd, BP_HEADER_PAGE) = Some hf → frame_data hf = HeaderData h →
  p ≠ BP_HEADER_PAGE → m !! (fd, p) = Some f → pin_count_ f = 0%nat →
  BPFileHeader.release_page h (Z.to_nat p) = Some h' →
  wp (dispose_page fd p) s (λ rc s', rc = RC.SUCCESS ∧ ∃ m' fr', at_state s' m' fr' fl ∧
    pool_ok m' fr' fl ∧ m' !! (fd, p) = None ∧
    page m' fl (fd, BP_HEADER_PAGE) = Some (HeaderData h') ∧
    ∀ id, id ≠ (fd, p) → id ≠ (fd, BP_HEADER_PAGE) → page m' fl id = page m fl id).
Proof.
  intros H Hok Hhf Hh Hp0 Hf Hpin Hrel. unfold dispose_page.
  apply wp_bind, (wp_get_internal_hit H _ f); [done|]. intros s1 H1. rewrite Hpin in H1.
  apply wp_bind, (wp_free_internal H1 _ (set_pin 1 f)); [by apply lookup_insert_eq|done|].
  intros s2 H2. rewrite delete_insert_eq in H2. set (m2 := delete (fd, p) m) in *.
  assert ((fd, p) ≠ (fd, BP_HEADER_PAGE)) as Hne by congruence.
  assert (m2 !! (fd, BP_HEADER_PAGE) = Some hf) as Hhf2 by (unfold m2; by rewrite lookup_delete_ne).
  apply wp_bind, (wp_frame_dirty H2 _ hf); [done|]. intros s3 H3.
  apply wp_bind, (wp_file_header H3 (lookup_insert_eq _ _ _) (h := h)); [done|].
  apply wp_bind. eapply wp_some; [exact Hrel|].
  apply wp_bind, (wp_frame_modify H3 _ (set_dirty true hf)); [by apply lookup_insert_eq|].
  intros s4 H4. rewrite insert_insert_eq in H4. apply wp_ret. split; [done|].
  assert (set_data (HeaderData h') (set_dirty true hf) = dirtied (HeaderData h') hf) as Hdf by done.
  unfold set_file_header in *. rewrite Hdf in H4.
  eexists _, _. split; [exact H4|].
  assert (pool_ok m2 (fr ++ [set_pin 0 (set_pin 1 f)]) fl) as Hok2 by by apply evict_ok.
  split_and!.
  - by apply dirty_ok.
  - rewrite lookup_insert_ne by done. by apply lookup_delete_eq.
  - by rewrite page_fresh.
  - intros id Hid Hid0. rewrite page_other by done. unfold m2, page. by rewrite lookup_delete_ne.
Qed.

(** A page that is in no frame is not released: the call fails. *)
Lemma wp_dispose_page_absent s m fr fl fd p :
  at_state s m fr fl → m !! (fd, p) = None →
  wp (dispose_page fd p) s (λ rc s', rc = RC.NOTFOUND ∧ at_state s' m fr fl).
Proof.
  intros H Hm. unfold dispose_page. apply wp_bind, (wp_get_internal_miss H); [done|].
  intros s1 H1. by apply wp_ret.
Qed.

(** ** [flush_all_pages] *)
Lemma wp_pin_each ids s m fr fl (Q : () → bp_state D → Prop) :
  at_state s m fr fl → NoDup ids → (∀ id, id ∈ ids → is_Some (m !! id)) →
  (∀ s' m', at_state s' m' fr fl →
     (∀ id, m' !! id = if decide (id ∈ ids)
        then (λ f, set_pin (S (pin_count_ f)) f) <$> m !! id else m !! id) → Q () s') →
  wp (pin_each ids) s Q.
Proof.
  revert s m Q. induction ids as [|i ids IH]; intros s m Q H Hnd Hin HQ; cbn [pin_each].
  { apply wp_ret. by apply (HQ s m). }
  apply NoDup_cons in Hnd as [Hni Hnd]. destruct (Hin i) as [f Hf]; [left|].
  apply wp_bind, (wp_pin H i f); [done|]. intros s1 H1. eapply IH; [exact H1|done| |].
  - intros id Hid. destruct (decide (id = i)) as [->|]; [done|].
    rewrite lookup_insert_ne by done. apply Hin. by right.
  - intros s2 m2 H2 Hm2. apply (HQ s2 m2 H2). intros id. rewrite Hm2.
    destruct (decide (id = i)) as [->|Hne].
    + rewrite decide_False by done. rewrite decide_True by left. by rewrite lookup_insert_eq, Hf.
    + rewrite lookup_insert_ne by done.
      destruct (decide (id ∈ ids)); [rewrite decide_True by (by right); done|].
      rewrite decide_False; [done|]. by intros [?|?]%elem_of_cons.
Qed.

Lemma wp_flush_each fd ids s m fr fl (Q : RC.t → bp_state D → Prop) :
  (∀ fd p, writen_ok fd p = true) →
  at_state s m fr fl → pool_ok m fr fl → NoDup ids →
  (∀ id, id ∈ ids → is_Some (m !! id) ∧ id.1 = fd) →
  (∀ s' m' fl', at_state s' m' fr fl' → pool_ok m' fr fl' →
     (∀ id, page m' fl' id = page m fl id) →
     (∀ id, m' !! id = if decide (id ∈ ids) then set_dirty false <$> m !! id else m !! id) →
     Q RC.SUCCESS s') →
  wp (flush_each writen_ok fd ids) s Q.
Proof.
  intros Hw. revert s m fl Q. induction ids as [|i ids IH]; intros s m fl Q H Hok Hnd Hin HQ; cbn [flush_each].
  { apply wp_ret. by apply (HQ s m fl). }
  apply NoDup_cons in Hnd as [Hni Hnd]. destruct (Hin i) as [[f Hf] Hfd]; [left|].
  pose proof (ok_id _ _ _ Hok _ _ Hf) as Hid.
  apply wp_bind. eapply (wp_flush_internal writen_ok); [exact H|exact Hf|]. rewrite Hw.
  intros s1 H1. cbn [RC.succ].
  assert (fd = i.1 ∧ page_num_ f = i.2) as [-> Hp] by by rewrite <-Hid in *.
  rewrite Hp in H1. eapply IH; [exact H1|by apply flush_ok|done| |].
  - intros id Hid'. destruct (Hin id) as [? ?]; [by right|]. split; [|done].
    destruct (decide (id = i)) as [->|]; [done|]. by rewrite lookup_insert_ne.
  - intros s2 m2 fl2 H2 Hok2 Hpages Hm2. apply (HQ s2 m2 fl2 H2 Hok2).
    + intros id. rewrite Hpages. by apply flush_page_eq.
    + intros id. rewrite Hm2. destruct (decide (id = i)) as [->|Hne].
      * rewrite decide_False by done. rewrite decide_True by left. by rewrite lookup_insert_eq, Hf.
      * rewrite lookup_insert_ne by done.
        destruct (decide (id ∈ ids)); [rewrite decide_True by (by right); done|].
        rewrite decide_False; [done|]. by intros [?|?]%elem_of_cons.
Qed.

(** Every frame of the file ends clean, so every page of it is on disk as it was in
    memory; and every frame of the file has one pin more than before. *)
Lemma wp_flush_all s m fr fl fd :
  (∀ fd p, writen_ok fd p = true) → at_state s m fr fl → pool_ok m fr fl →
  wp (flush_all_pages writen_ok fd) s (λ rc s', rc = RC.SUCCESS ∧ ∃ m' fl',
    at_state s' m' fr fl' ∧ pool_ok m' fr fl' ∧ (∀ id, page m' fl' id = page m fl id) ∧
    (∀ id f, id.1 = fd → m !! id = Some f → on_disk fl' id = Some (frame_data f)) ∧
    (∀ id f, id.1 = fd → m !! id = Some f →
       pin_count_ <$> (m' !! id) = Some (S (pin_count_ f)))).
Proof.
  intros Hw H Hok. unfold flush_all_pages, find_list.
  apply wp_bind, wp_bind, wp_get. set (ids := filter (λ id : FrameId, id.1 = fd) (frames s).*1).
  assert (∀ id, id ∈ ids ↔ id.1 = fd ∧ is_Some (m !! id)) as Hids.
  { intros id. unfold ids. rewrite list_elem_of_filter. rewrite <-(at_find H id).
    destruct (LruCache.find id (frames s)) as [f|] eqn:Hf.
    - apply LruCache.find_Some in Hf; [|apply H]. split; [intros [? _]; split; [done|by eexists]|].
      intros [? _]. split; [done|]. apply list_elem_of_fmap. by exists (id, f).
    - apply LruCache.find_None in Hf. split; [by intros [_ ?]|]. by intros [_ [??]]. }
  assert (NoDup ids) as Hnd by apply NoDup_filter, H.
  apply wp_bind. eapply (wp_pin_each ids); [exact H|done|by intros id [_ ?]%Hids|].
  intros s1 m1 H1 Hm1. apply wp_ret.
  assert (pool_ok m1 fr fl) as Hok1.
  { destruct Hok as [O1 O2 O3 O4]. split; [..|done]; intros id g; rewrite Hm1;
      (case_decide as Hin; [destruct (m !! id) as [f|] eqn:Hf; [|done]; intros [= <-]|]).
    - exact (O1 _ _ Hf).
    - apply O1.
    - exact (O2 _ _ Hf).
    - apply O2.
    - exact (O3 _ _ Hf).
    - apply O3. }
  assert (∀ id, page m1 fl id = page m fl id) as Hpages1.
  { intros id. unfold page. rewrite Hm1. case_decide; [|done]. by destruct (m !! id). }
  eapply (wp_flush_each fd ids); [done|exact H1|exact Hok1|done| |].
  - intros id Hid. rewrite Hm1, decide_True by done. apply Hids in Hid as [? [f ->]].
    split; [by eexists|done].
  - intros s2 m2 fl2 H2 Hok2 Hpages2 Hm2. split; [done|]. exists m2, fl2.
    assert (∀ id f, id.1 = fd → m !! id = Some f →
      m2 !! id = Some (set_dirty false (set_pin (S (pin_count_ f)) f))) as Hat.
    { intros id f Hfd Hf. assert (id ∈ ids) as Hin by (apply Hids; eauto).
      rewrite Hm2, decide_True, Hm1, decide_True, Hf by done. done. }
    split_and!; [done|done|intros id; by rewrite Hpages2| |].
    + intros id f Hfd Hf. by apply (ok_clean _ _ _ Hok2 _ _ (Hat _ _ Hfd Hf)).
    + intros id f Hfd Hf. by rewrite (Hat _ _ Hfd Hf).
Qed.

(** ** No frame to be had *)
Lemma allocate_frame_pinned s m fl fd p fuel :
  at_state s m [] fl → m !! (fd, p) = None →
  (∀ id f, m !! id = Some f → pin_count_ f ≠ 0%nat) →
  allocate_frame writen_ok fuel fd p s = OutOfFuel.
Proof.
  intros H Hm Hpin. revert s H. induction fuel as [|fuel IH]; intros s H; [done|].
  cbn [allocate_frame]. unfold mbind, ST_bind.
  destruct (wp_mgr_alloc_none s m fl fd p (λ r s', r = None ∧ at_state s' m [] fl) H Hm)
    as (r & s1 & -> & -> & H1); [done|].
  assert (purge_frames 1 (allocate_purger writen_ok fd) s1 = Done (0%nat, s1)) as ->.
  { unfold purge_frames, mbind, ST_bind, st_get.
    pose proof (frames_can_purge_one _ _ _ _ H1) as Hpick.
    destruct (frames_can_purge 1 (frames s1)) as [|id [|]]; [done| |done].
    destruct Hpick as (f & Hf & Hp). by destruct (Hpin _ _ Hf). }
  by apply IH.
Qed.
End alloc.
