(* ===== verification/RecordPage.v ===== *)
(** * Records of a page ([RecordPageHandler], [storage/record/record_manager.*])

    A page of a table file is its [PageHeader], the bytes of the slot bitmap and the
    cells of the slots; [cells !! i] are the [record_size] bytes at
    [first_record_offset + i * record_size], which [RecordPageCorrect.v] shows to lie
    behind the bitmap, inside the page and apart from each other.  The page remembers
    whether its frame was marked dirty.  Latches are not in the model: a build without
    [CONCURRENCY] has none. *)
From S2P Require Import Prelude RidKey Comparator Bitmap.
From Stdlib Require Import ZArith Lia.
From stdpp Require Import base option list.
Local Open Scope Z_scope.

(** [BP_PAGE_DATA_SIZE] of [storage/buffer/page.h] *)
Definition PAGE_DATA_SIZE : Z := Z.shiftl 1 19 - 4 - 4.

Record PageHeader : Set := MkPageHeader {
  record_num : Z;
  record_real_size : Z;
  record_size : Z;
  record_capacity : Z;
  first_record_offset : Z
}.
Definition PAGE_HEADER_SIZE : Z := 20.

(** [int] division truncates *)
Definition align8 (size : Z) : Z := Z.quot (size + 7) 8 * 8.
(** The [double] quotient [(page_size - header - 1) / (record_size + 0.125)], truncated.
    Both operands are exact, and the quotient, when it is not an integer, is further
    than [1 / (8 * record_size + 1)] from the next one, which no rounding of a [double]
    of this size crosses: the result is the integer quotient of the eightfold operands. *)
Definition page_record_capacity (page_size record_size : Z) : Z :=
  Z.quot (8 * (page_size - PAGE_HEADER_SIZE - 1)) (8 * record_size + 1).
Definition page_bitmap_size (record_capacity : Z) : Z := Z.quot (record_capacity + 7) 8.

Record record_page : Set := RecordPage {
  page_header : PageHeader;
  slot_bitmap : list Z;
  cells : list memory;
  dirty : bool
}.
Definition set_record_num (n : Z) (h : PageHeader) : PageHeader :=
  MkPageHeader n (record_real_size h) (record_size h) (record_capacity h) (first_record_offset h).
Definition set_slots (n : Z) (bm : list Z) (p : record_page) : record_page :=
  RecordPage (set_record_num n (page_header p)) bm (cells p) (dirty p).
Definition set_cells (l : list memory) (p : record_page) : record_page :=
  RecordPage (page_header p) (slot_bitmap p) l (dirty p).
Definition mark_page_dirty (p : record_page) : record_page :=
  RecordPage (page_header p) (slot_bitmap p) (cells p) true.

(** [fix_record_capacity]: [None] when the loop does not end within [fuel] rounds *)
Fixpoint fix_record_capacity (fuel : nat) (record_size record_capacity last_record_offset : Z)
  : option Z :=
  if decide (last_record_offset > PAGE_DATA_SIZE) then
    match fuel with
    | O => None
    | S fuel => fix_record_capacity fuel record_size (record_capacity - 1)
                  (last_record_offset - record_size)
    end
  else Some record_capacity.

(** The header [init_empty_page] writes. *)
Definition init_header (fuel : nat) (size : Z) : option PageHeader :=
  let record_size := align8 size in
  let capacity := page_record_capacity PAGE_DATA_SIZE record_size in
  let first := align8 (PAGE_HEADER_SIZE + page_bitmap_size capacity) in
  capacity ← fix_record_capacity fuel record_size capacity (first + capacity * record_size);
  Some (MkPageHeader 0 size record_size capacity first).

(** [init_empty_page] of a page whose slots happen to hold [area]; the page is flushed
    at the end. *)
Definition init_empty_page (fuel : nat) (size : Z) (area : nat → memory) : outcome record_page :=
  match init_header fuel size with
  | None => OutOfFuel
  | Some h =>
      if decide (first_record_offset h + record_capacity h * record_size h <= PAGE_DATA_SIZE) then
        Done (RecordPage h (replicate (Z.to_nat (page_bitmap_size (record_capacity h))) 0)
                (area <$> seq 0 (Z.to_nat (record_capacity h))) false)
      else Crash
  end.

(** ** Slots

    A negative slot number is an access outside of the bitmap. *)
Definition slot_index (slot : SlotNum) : option nat :=
  if decide (0 <= slot) then Some (Z.to_nat slot) else None.
Definition slot_bit (p : record_page) (slot : SlotNum) : option bool :=
  i ← slot_index slot; Bitmap.get_bit (slot_bitmap p) i.
(** the record at a slot: the first [record_real_size] bytes of its cell *)
Definition real_size (p : record_page) : nat := Z.to_nat (record_real_size (page_header p)).
Definition get_record_data (p : record_page) (slot : SlotNum) : option memory :=
  i ← slot_index slot; take (real_size p) <$> cells p !! i.
(** [memcpy(get_record_data(slot), data, record_real_size)] *)
Definition put_record_data (slot : SlotNum) (data : memory) (p : record_page) : option record_page :=
  i ← slot_index slot;
  cell ← cells p !! i;
  data ← load_bytes 0 (real_size p) data;
  Some (set_cells (<[i := data ++ drop (real_size p) cell]> (cells p)) p).

Module RecordPageHandler.
Abbreviation M := (ST record_page).
Definition st_update (f : record_page → option record_page) : M () :=
  p ← st_get; p' ← st_some (f p); st_modify (λ _, p').
Definition mark_dirty : M () := st_modify mark_page_dirty.

Section handler.
Context (page_num : PageNum) (readonly_ : bool).

Definition insert_record (data : memory) : M (RC.t + RID.t) :=
  st_assert (negb readonly_) ;;;
  p ← st_get;
  let h := page_header p in
  if decide (record_num h = record_capacity h) then mret (inl RC.RECORD_NOMEM)
  else
    index ← st_some (Bitmap.next_unsetted_bit (slot_bitmap p) (Z.to_nat (record_capacity h)) 0);
    i ← st_some (slot_index index);
    bm ← st_some (Bitmap.set_bit (slot_bitmap p) i);
    st_modify (set_slots (record_num h + 1) bm) ;;;
    st_update (put_record_data index data) ;;;
    mark_dirty ;;;
    mret (inr (RID.mk page_num index)).

Definition update_record (data : memory) (rid : RID.t) : M RC.t :=
  st_assert (negb readonly_) ;;;
  p ← st_get;
  if decide (record_capacity (page_header p) <= RID.slot_num rid) then mret RC.INVALID_ARGUMENT
  else
    b ← st_some (slot_bit p (RID.slot_num rid));
    if negb b then mret RC.RECORD_NOT_EXIST
    else
      st_update (put_record_data (RID.slot_num rid) data) ;;;
      mark_dirty ;;;
      mret RC.SUCCESS.

Definition recover_insert_record (data : memory) (rid : RID.t) : M RC.t :=
  p ← st_get;
  if decide (record_capacity (page_header p) <= RID.slot_num rid) then mret RC.RECORD_INVALID_RID
  else
    b ← st_some (slot_bit p (RID.slot_num rid));
    (if negb b then
       i ← st_some (slot_index (RID.slot_num rid));
       bm ← st_some (Bitmap.set_bit (slot_bitmap p) i);
       st_modify (set_slots (record_num (page_header p) + 1) bm)
     else mret ()) ;;;
    st_update (put_record_data (RID.slot_num rid) data) ;;;
    mark_dirty ;;;
    mret RC.SUCCESS.

(** The handler gives its frame back when the page has become empty. *)
Definition delete_record (rid : RID.t) : M RC.t :=
  st_assert (negb readonly_) ;;;
  p ← st_get;
  if decide (record_capacity (page_header p) <= RID.slot_num rid) then mret RC.INVALID_ARGUMENT
  else
    b ← st_some (slot_bit p (RID.slot_num rid));
    if (b : bool) then
      i ← st_some (slot_index (RID.slot_num rid));
      bm ← st_some (Bitmap.clear_bit (slot_bitmap p) i);
      st_modify (set_slots (record_num (page_header p) - 1) bm) ;;;
      mark_dirty ;;;
      mret RC.SUCCESS
    else mret RC.RECORD_NOT_EXIST.

Definition get_record (rid : RID.t) : M (RC.t + memory) :=
  p ← st_get;
  if decide (record_capacity (page_header p) <= RID.slot_num rid) then mret (inl RC.RECORD_INVALID_RID)
  else
    b ← st_some (slot_bit p (RID.slot_num rid));
    if negb b then mret (inl RC.RECORD_NOT_EXIST)
    else
      data ← st_some (get_record_data p (RID.slot_num rid));
      mret (inr data).

Definition is_full (p : record_page) : bool :=
  bool_decide (record_capacity (page_header p) <= record_num (page_header p)).
End handler.
End RecordPageHandler.

(** ** [RecordPageIterator]

    The iterator reads the bitmap of the page as it is when it moves on. *)
Record RecordPageIterator : Set := MkPageIterator {
  iter_page_num : PageNum;
  iter_capacity : Z;
  next_slot_num : SlotNum
}.
Definition page_iterator_next_bit (p : record_page) (capacity : Z) (start : SlotNum) : option SlotNum :=
  i ← slot_index start;
  Bitmap.next_setted_bit (slot_bitmap p) (Z.to_nat capacity) i.
Definition page_iterator_init (page_num : PageNum) (p : record_page) (start_slot_num : SlotNum)
  : option RecordPageIterator :=
  let capacity := record_capacity (page_header p) in
  next ← page_iterator_next_bit p capacity start_slot_num;
  Some (MkPageIterator page_num capacity next).
Definition page_iterator_has_next (it : RecordPageIterator) : bool := bool_decide (next_slot_num it ≠ -1).
(** [next]: the slot it stands on, and the iterator moved on *)
Definition page_iterator_next (p : record_page) (it : RecordPageIterator)
  : option ((RC.t * RID.t) * RecordPageIterator) :=
  let slot := next_slot_num it in
  next ← (if decide (0 <= slot) then page_iterator_next_bit p (iter_capacity it) (slot + 1) else Some slot);
  Some ((if decide (slot ≠ -1) then RC.SUCCESS else RC.RECORD_EOF,
         RID.mk (iter_page_num it) slot),
        MkPageIterator (iter_page_num it) (iter_capacity it) next).
