(* ===== verification/RecordPageCorrect.v ===== *)
(** * Correctness of the record page

    The layout of a page, its invariant, and what the operations of
    [RecordPageHandler] do to the records of the page. *)
From S2P Require Import Prelude RidKey Comparator Bitmap RecordPage.
From Stdlib Require Import ZArith Lia.
From stdpp Require Import base option list.
Local Open Scope Z_scope.
#[local] Opaque Nat.div Nat.modulo Z.quot.

(** ** Layout *)
Lemma quot_pos_bounds a b : 0 <= a → 0 < b → b * Z.quot a b <= a < b * Z.quot a b + b.
Proof.
  intros Ha Hb. rewrite Z.quot_div_nonneg by lia.
  pose proof (Z.div_mod a b ltac:(lia)). pose proof (Z.mod_pos_bound a b Hb). lia.
Qed.
Lemma align8_bounds size : 0 <= size → size <= align8 size < size + 8.
Proof. intros Hs. unfold align8. pose proof (quot_pos_bounds (size + 7) 8). lia. Qed.

Lemma fix_record_capacity_spec fuel size capacity last c :
  fix_record_capacity fuel size capacity last = Some c →
  last - (capacity - c) * size <= PAGE_DATA_SIZE ∧ c <= capacity.
Proof.
  revert capacity last. induction fuel as [|fuel IH]; intros capacity last; cbn [fix_record_capacity];
    case_decide as Hl; try done.
  - intros [= <-]. lia.
  - intros Hf. apply IH in Hf. lia.
  - intros [= <-]. lia.
Qed.

Lemma PAGE_DATA_SIZE_eq : PAGE_DATA_SIZE = 524280.
Proof. done. Qed.

(** What the header of an empty page says about the place of the records. *)
Record layout_ok (size : Z) (h : PageHeader) : Prop := {
  lo_num : record_num h = 0;
  lo_real : record_real_size h = size;
  lo_size : size <= record_size h < size + 8;
  lo_capacity : 0 <= record_capacity h;
  lo_bitmap : PAGE_HEADER_SIZE + page_bitmap_size (record_capacity h) <= first_record_offset h;
  lo_aligned : (8 | first_record_offset h) ∧ (8 | record_size h);
  lo_inside : first_record_offset h + record_capacity h * record_size h <= PAGE_DATA_SIZE
}.
Lemma init_header_ok fuel size :
  0 < size < 2 ^ 20 → (1 <= fuel)%nat →
  ∃ h, init_header fuel size = Some h ∧ layout_ok size h.
Proof.
  intros Hsize Hfuel. unfold init_header. pose proof (align8_bounds size ltac:(lia)) as Hal.
  set (rs := align8 size) in *. set (c := page_record_capacity PAGE_DATA_SIZE rs).
  assert (0 <= c ∧ (8 * rs + 1) * c <= 8 * 524259) as [Hc0 Hc].
  { unfold c, page_record_capacity. rewrite PAGE_DATA_SIZE_eq. unfold PAGE_HEADER_SIZE.
    pose proof (quot_pos_bounds (8 * (524280 - 20 - 1)) (8 * rs + 1) ltac:(lia) ltac:(lia)).
    split; [apply Z.quot_pos; lia|lia]. }
  assert (8 <= rs) as Hrs8.
  { unfold rs, align8 in *. lia. }
  set (first := align8 (PAGE_HEADER_SIZE + page_bitmap_size c)).
  assert (page_bitmap_size c * 8 <= c + 7 < page_bitmap_size c * 8 + 8) as Hbm.
  { unfold page_bitmap_size. pose proof (quot_pos_bounds (c + 7) 8). lia. }
  assert (PAGE_HEADER_SIZE + page_bitmap_size c <= first < PAGE_HEADER_SIZE + page_bitmap_size c + 8) as Hfirst.
  { apply align8_bounds. unfold PAGE_HEADER_SIZE. lia. }
  assert (PAGE_HEADER_SIZE = 20) as HH by done.
  assert (8 * (first + c * rs) < 8 * 524280 + 64) as Hlast by lia.
  destruct (fix_record_capacity fuel rs c (first + c * rs)) as [c'|] eqn:Hfix.
  - pose proof (fix_record_capacity_spec _ _ _ _ _ Hfix) as [Hin Hle].
    eexists. split; [done|].
    assert (c - 1 <= c' ∧ 0 <= c') as [Hc1 Hc0'].
    { destruct fuel as [|fuel]; [lia|]. cbn [fix_record_capacity] in Hfix.
      rewrite PAGE_DATA_SIZE_eq in *. case_decide as Hbig; [|injection Hfix as <-; lia].
      assert (c ≠ 0) by (intros ->; lia).
      destruct fuel as [|fuel]; cbn [fix_record_capacity] in Hfix; rewrite PAGE_DATA_SIZE_eq in Hfix;
        (rewrite decide_False in Hfix by lia); injection Hfix as <-; lia. }
    split; cbn [record_num record_real_size record_size record_capacity first_record_offset]; try done.
    + assert (page_bitmap_size c' <= page_bitmap_size c); [|fold first; lia].
      unfold page_bitmap_size. apply Z.quot_le_mono; lia.
    + split; [unfold first|unfold rs]; unfold align8; by apply Z.divide_factor_r.
    + fold first. lia.
  - exfalso. destruct fuel as [|fuel]; [lia|]. cbn [fix_record_capacity] in Hfix.
    rewrite PAGE_DATA_SIZE_eq in *. case_decide as Hbig; [|done].
    destruct fuel as [|fuel]; cbn [fix_record_capacity] in Hfix; rewrite PAGE_DATA_SIZE_eq in Hfix;
      (rewrite decide_False in Hfix by lia); done.
Qed.

(** ** The records of a page *)
Definition page_lookup (p : record_page) (i : nat) : option memory :=
  if bool_decide (Z.of_nat i < record_capacity (page_header p)) && Bitmap.bit (slot_bitmap p) i
  then take (real_size p) <$> cells p !! i else None.
Definition capacity (p : record_page) : nat := Z.to_nat (record_capacity (page_header p)).
Definition count_slots (p : record_page) : nat :=
  length (filter (λ i, Bitmap.bit (slot_bitmap p) i = true) (seq 0 (capacity p))).

Record page_wf (p : record_page) : Prop := {
  pw_capacity : 0 <= record_capacity (page_header p) < 2 ^ 31;
  pw_bitmap : Z.of_nat (length (slot_bitmap p)) = page_bitmap_size (record_capacity (page_header p));
  pw_bytes : Forall Bitmap.byte_ok (slot_bitmap p);
  pw_cells : length (cells p) = capacity p;
  pw_cell : ∀ i cell, cells p !! i = Some cell → (real_size p <= length cell)%nat;
  pw_num : record_num (page_header p) = Z.of_nat (count_slots p)
}.

Section page.
Context {p : record_page} (Hwf : page_wf p).
Implicit Types (i : nat) (rid : RID.t) (data : memory).

Lemma bitmap_covers : (capacity p <= 8 * length (slot_bitmap p))%nat ∧
  (Bitmap.bytes (capacity p) <= length (slot_bitmap p))%nat.
Proof.
  pose proof (pw_bitmap _ Hwf) as Hb. pose proof (pw_capacity _ Hwf) as Hc.
  unfold page_bitmap_size in Hb. unfold capacity.
  pose proof (quot_pos_bounds (record_capacity (page_header p) + 7) 8 ltac:(lia) ltac:(lia)).
  split; [lia|]. unfold Bitmap.bytes.
  pose proof (Bitmap.div8_bit (Z.to_nat (record_capacity (page_header p)))).
  case_decide; lia.
Qed.
Lemma slot_bit_in i :
  Z.of_nat i < record_capacity (page_header p) →
  slot_bit p (Z.of_nat i) = Some (Bitmap.bit (slot_bitmap p) i).
Proof.
  intros Hi. destruct bitmap_covers as [Hc _]. pose proof (pw_capacity _ Hwf).
  unfold slot_bit, slot_index. rewrite decide_True by lia. cbn. rewrite Nat2Z.id.
  unfold Bitmap.bit. destruct (proj1 (Bitmap.get_bit_is_Some (slot_bitmap p) i)) as [b ->]; [|done].
  unfold capacity in Hc. lia.
Qed.
Lemma page_lookup_Some i data :
  page_lookup p i = Some data ↔ Z.of_nat i < record_capacity (page_header p) ∧
    Bitmap.bit (slot_bitmap p) i = true ∧ take (real_size p) <$> cells p !! i = Some data.
Proof.
  unfold page_lookup. destruct (decide (Z.of_nat i < record_capacity (page_header p))).
  - rewrite bool_decide_eq_true_2 by done. simpl. destruct (Bitmap.bit _ i); naive_solver.
  - rewrite bool_decide_eq_false_2 by done. simpl. naive_solver.
Qed.
Lemma cell_in i :
  Z.of_nat i < record_capacity (page_header p) →
  ∃ cell, cells p !! i = Some cell ∧ (real_size p <= length cell)%nat.
Proof.
  intros Hi. destruct (lookup_lt_is_Some_2 (cells p) i) as [cell Hc].
  { rewrite (pw_cells _ Hwf). unfold capacity. lia. }
  exists cell. split; [done|]. by eapply pw_cell.
Qed.
Lemma page_lookup_in i :
  Z.of_nat i < record_capacity (page_header p) →
  is_Some (page_lookup p i) ↔ Bitmap.bit (slot_bitmap p) i = true.
Proof.
  intros Hi. unfold page_lookup. rewrite bool_decide_eq_true_2 by done. simpl.
  destruct (Bitmap.bit _ i); [|naive_solver]. destruct (cell_in i Hi) as (c & -> & _). naive_solver.
Qed.
Lemma full_iff :
  record_num (page_header p) <= record_capacity (page_header p) ∧
  (record_num (page_header p) = record_capacity (page_header p) ↔
   ∀ i, Z.of_nat i < record_capacity (page_header p) → is_Some (page_lookup p i)).
Proof.
  pose proof (pw_capacity _ Hwf).
  destruct (count_filter_all (Bitmap.bit (slot_bitmap p)) (seq 0 (capacity p))) as [H1 H2].
  fold (count_slots p) in H1, H2. rewrite length_seq in H1, H2. unfold capacity in *.
  pose proof (pw_num _ Hwf) as Hnum. split; [lia|].
  assert (record_num (page_header p) = record_capacity (page_header p) ↔
    count_slots p = Z.to_nat (record_capacity (page_header p))) as -> by lia.
  rewrite H2. setoid_rewrite elem_of_seq. split; intros Hall i Hi.
  - apply page_lookup_in; [lia|]. apply Hall. lia.
  - apply page_lookup_in; [lia|]. apply Hall. lia.
Qed.

(** Writing a cell. *)
Lemma put_data i data :
  Z.of_nat i < record_capacity (page_header p) → (real_size p <= length data)%nat →
  ∃ cell', put_record_data (Z.of_nat i) data p = Some (set_cells (<[i := cell']> (cells p)) p) ∧
    take (real_size p) cell' = take (real_size p) data ∧ (real_size p <= length cell')%nat.
Proof.
  intros Hi Hd. destruct (cell_in i Hi) as (cell & Hcell & Hlen).
  unfold put_record_data, slot_index. rewrite decide_True by lia. cbn. rewrite Nat2Z.id, Hcell. cbn.
  unfold load_bytes. rewrite decide_True by lia. cbn. rewrite drop_0. eexists. split; [done|].
  rewrite take_app_le by (rewrite length_take; lia). rewrite take_take, Nat.min_id. split; [done|].
  rewrite length_app, length_take, length_drop. lia.
Qed.
End page.

(** Two pages that agree on everything but the slot [i]. *)
Lemma page_wf_slot p i v bm l :
  page_wf p → Z.of_nat i < record_capacity (page_header p) →
  Forall Bitmap.byte_ok bm → length bm = length (slot_bitmap p) →
  (∀ j, Bitmap.bit bm j = if decide (j = i) then v else Bitmap.bit (slot_bitmap p) j) →
  length l = length (cells p) → (∀ j cell, l !! j = Some cell → (real_size p <= length cell)%nat) →
  ∀ d, page_wf (RecordPage (set_record_num (record_num (page_header p) +
      (if v then if Bitmap.bit (slot_bitmap p) i then 0 else 1
       else if Bitmap.bit (slot_bitmap p) i then -1 else 0)) (page_header p)) bm l d).
Proof.
  intros Hwf Hi Hbytes Hlen Hbits Hl Hcell d. pose proof (pw_capacity _ Hwf) as Hc.
  split; cbn; try done.
  - rewrite Hlen. apply (pw_bitmap _ Hwf).
  - rewrite Hl. apply (pw_cells _ Hwf).
  - rewrite (pw_num _ Hwf). unfold count_slots, capacity. cbn.
    set (s := seq 0 (Z.to_nat (record_capacity (page_header p)))).
    assert (i ∈ s) as His by (apply elem_of_seq; lia).
    assert (NoDup s) as Hnd by apply NoDup_seq.
    assert (Bitmap.bit bm i = v) as Hbi by by rewrite Hbits, decide_True.
    assert (∀ j, j ∈ s → j ≠ i → Bitmap.bit bm j = Bitmap.bit (slot_bitmap p) j) as Hne.
    { intros j _ Hji. by rewrite Hbits, decide_False. }
    destruct (Bitmap.bit (slot_bitmap p) i) eqn:Hold, v.
    + rewrite (count_filter_ext (Bitmap.bit bm) (Bitmap.bit (slot_bitmap p))); [lia|].
      intros j Hj. destruct (decide (j = i)) as [->|]; [congruence|by apply Hne].
    + rewrite (count_filter_flip (Bitmap.bit bm) (Bitmap.bit (slot_bitmap p)) s i) by done. lia.
    + rewrite (count_filter_flip (Bitmap.bit (slot_bitmap p)) (Bitmap.bit bm) s i); try done; [lia|].
      intros j Hj Hji. symmetry. by apply Hne.
    + rewrite (count_filter_ext (Bitmap.bit bm) (Bitmap.bit (slot_bitmap p))); [lia|].
      intros j Hj. destruct (decide (j = i)) as [->|]; [congruence|by apply Hne].
Qed.

(** ** The operations

    [page_step p i o p']: the record of slot [i] becomes [o], and nothing else changes. *)
Record page_step (p : record_page) (i : nat) (o : option memory) (p' : record_page) : Prop := {
  ps_wf : page_wf p';
  ps_capacity : record_capacity (page_header p') = record_capacity (page_header p);
  ps_real : record_real_size (page_header p') = record_real_size (page_header p);
  ps_lookup : ∀ j, page_lookup p' j = if decide (j = i) then o else page_lookup p j
}.

Import RecordPageHandler.
Lemma wp_assoc {S A B C} (c : ST S A) (d : ST S B) (k : ST S C) s Q :
  wp ((c ;;; d) ;;; k) s Q → wp (c ;;; d ;;; k) s Q.
Proof.
  intros (a & s' & Hrun & HQ). exists a, s'. split; [|done]. rewrite <-Hrun.
  unfold mbind, ST_bind. by destruct (c s) as [[]| |].
Qed.
Section steps.
Context {p : record_page} (Hwf : page_wf p).
Implicit Types (i : nat) (rid : RID.t) (data : memory).

Lemma page_step_intro i v bm l n d :
  Z.of_nat i < record_capacity (page_header p) →
  Forall Bitmap.byte_ok bm → length bm = length (slot_bitmap p) →
  (∀ j, Bitmap.bit bm j = if decide (j = i) then v else Bitmap.bit (slot_bitmap p) j) →
  length l = length (cells p) → (∀ j cell, l !! j = Some cell → (real_size p <= length cell)%nat) →
  (∀ j, j ≠ i → l !! j = cells p !! j) →
  n = record_num (page_header p) + (if v then if Bitmap.bit (slot_bitmap p) i then 0 else 1
       else if Bitmap.bit (slot_bitmap p) i then -1 else 0) →
  page_step p i (if v then take (real_size p) <$> l !! i else None)
    (RecordPage (set_record_num n (page_header p)) bm l d).
Proof.
  intros Hi Hbytes Hlen Hbits Hl Hcell Hsame ->. split; [by apply page_wf_slot|done|done|].
  intros j. unfold page_lookup at 1. cbn. rewrite Hbits. case_decide as Hj.
  - subst j. rewrite bool_decide_eq_true_2 by done. by destruct v.
  - unfold page_lookup. by rewrite Hsame.
Qed.

Lemma wp_put i data bm n (Q : () → record_page → Prop) :
  Z.of_nat i < record_capacity (page_header p) → (real_size p <= length data)%nat →
  Forall Bitmap.byte_ok bm → length bm = length (slot_bitmap p) →
  (∀ j, Bitmap.bit bm j = if decide (j = i) then true else Bitmap.bit (slot_bitmap p) j) →
  n = record_num (page_header p) + (if Bitmap.bit (slot_bitmap p) i then 0 else 1) →
  (∀ p', page_step p i (Some (take (real_size p) data)) p' → dirty p' = true → Q () p') →
  wp (st_update (put_record_data (Z.of_nat i) data) ;;; mark_dirty) (set_slots n bm p) Q.
Proof.
  intros Hi Hd Hbytes Hlen Hbits Hn HQ.
  destruct (put_data Hwf i data Hi Hd) as (cell' & Hput & Htake & Hcl).
  assert (put_record_data (Z.of_nat i) data (set_slots n bm p) =
    Some (set_cells (<[i := cell']> (cells p)) (set_slots n bm p))) as Hput'.
  { unfold put_record_data in *. cbn. destruct (slot_index (Z.of_nat i)) as [k|]; [|done]. cbn in *.
    destruct (cells p !! k); [|done]. cbn in *. change (real_size (set_slots n bm p)) with (real_size p).
    destruct (load_bytes 0 (real_size p) data); [|done]. cbn in *. by injection Hput as ->. }
  unfold st_update. apply wp_bind, wp_bind, wp_get, wp_bind. eapply wp_some; [exact Hput'|].
  apply wp_modify, wp_modify. apply HQ; [|done].
  assert (<[i := cell']> (cells p) !! i = Some cell') as Hget.
  { destruct (cell_in Hwf i Hi) as (c & Hc & _). apply list_lookup_insert_eq.
    by apply lookup_lt_Some in Hc. }
  pose proof (page_step_intro i true bm (<[i := cell']> (cells p)) n true Hi Hbytes Hlen Hbits) as Hstep.
  rewrite Hget in Hstep. cbn in Hstep. rewrite Htake in Hstep. apply Hstep.
  - apply length_insert.
  - intros j cell [(<- & <- & _)|[_ Hj]]%list_lookup_insert_Some; [done|]. by eapply pw_cell.
  - intros j Hj. by apply list_lookup_insert_ne.
  - done.
Qed.

Lemma wp_put_same i data (Q : () → record_page → Prop) :
  Z.of_nat i < record_capacity (page_header p) → (real_size p <= length data)%nat →
  Bitmap.bit (slot_bitmap p) i = true →
  (∀ p', page_step p i (Some (take (real_size p) data)) p' → dirty p' = true → Q () p') →
  wp (st_update (put_record_data (Z.of_nat i) data) ;;; mark_dirty) p Q.
Proof.
  intros Hi Hd Hb HQ.
  assert (set_slots (record_num (page_header p)) (slot_bitmap p) p = p) as Hp
    by by destruct p as [[] ? ? ?].
  pose proof (wp_put i data (slot_bitmap p) (record_num (page_header p)) Q Hi Hd) as Hput.
  rewrite Hp in Hput. apply Hput; try done.
  - apply Hwf.
  - intros j. case_decide; by subst.
  - rewrite Hb. lia.
Qed.

(** [insert_record] takes the first free slot, and fails only on a full page. *)
Lemma wp_page_insert page_num data :
  (real_size p <= length data)%nat →
  wp (insert_record page_num false data) p (λ r p',
    if is_full p then r = inl RC.RECORD_NOMEM ∧ p' = p
    else ∃ i, r = inr (RID.mk page_num (Z.of_nat i)) ∧ Z.of_nat i < record_capacity (page_header p) ∧
      page_lookup p i = None ∧ (∀ j, (j < i)%nat → is_Some (page_lookup p j)) ∧
      page_step p i (Some (take (real_size p) data)) p' ∧ dirty p' = true).
Proof.
  intros Hd. pose proof (full_iff Hwf) as [Hle Hfull]. unfold is_full, insert_record.
  apply wp_bind, wp_assert; [done|]. apply wp_bind, wp_get. case_decide as Heq.
  { rewrite bool_decide_eq_true_2 by lia. by apply wp_ret. }
  rewrite bool_decide_eq_false_2 by lia.
  destruct (bitmap_covers Hwf) as [Hcov Hbytes].
  destruct (Bitmap.next_bit_spec false (slot_bitmap p) (capacity p) 0 (pw_bytes _ Hwf) Hbytes)
    as (r & Hr & Hfirst); [by left|].
  apply wp_bind. eapply wp_some; [exact Hr|].
  pose proof (pw_capacity _ Hwf) as Hcap.
  destruct Hfirst as [[-> Hno]|(i & -> & Hi & Hbit & Hbelow)].
  { exfalso. apply Heq, Hfull. intros i Hi. apply (page_lookup_in Hwf); [done|].
    apply not_false_is_true, Hno. unfold capacity. lia. }
  unfold capacity in Hi.
  apply wp_bind. eapply wp_some. { unfold slot_index. rewrite decide_True by lia. done. }
  rewrite Nat2Z.id. destruct (Bitmap.set_bit_spec (slot_bitmap p) i) as (bm & Hset & Hlen & Hbits).
  { unfold capacity in Hcov. lia. }
  apply wp_bind. eapply wp_some; [exact Hset|]. apply wp_bind, wp_modify.
  apply wp_assoc, wp_bind. eapply wp_put; try done.
  - lia.
  - by eapply Bitmap.set_bit_bytes, Hset; apply Hwf.
  - by rewrite Hbit.
  - intros p' Hp' Hd'. apply wp_ret. exists i. split_and!; [done|lia| | |done|done].
    + destruct (page_lookup p i) eqn:Hl; [|done]. apply page_lookup_Some in Hl as (_ & Hb & _). congruence.
    + intros j Hj. apply (page_lookup_in Hwf); [lia|]. apply not_false_is_true, Hbelow. lia.
Qed.

(** The record of a slot number that is not negative. *)
Definition lookup_rid rid : option memory := page_lookup p (Z.to_nat (RID.slot_num rid)).
Lemma lookup_rid_in rid :
  0 <= RID.slot_num rid < record_capacity (page_header p) →
  slot_bit p (RID.slot_num rid) = Some (bool_decide (is_Some (lookup_rid rid))).
Proof.
  intros Hs. rewrite <-(Z2Nat.id (RID.slot_num rid)) by lia.
  rewrite (slot_bit_in Hwf) by lia. f_equal. unfold lookup_rid.
  destruct (decide (is_Some (page_lookup p (Z.to_nat (RID.slot_num rid))))) as [Hl|Hl].
  - rewrite bool_decide_eq_true_2 by done. by apply (page_lookup_in Hwf); [lia|].
  - rewrite bool_decide_eq_false_2 by done. apply not_true_is_false. intros Hb. apply Hl.
    by apply (page_lookup_in Hwf); [lia|].
Qed.

Lemma wp_page_update data rid :
  0 <= RID.slot_num rid → (real_size p <= length data)%nat →
  wp (update_record false data rid) p (λ rc p',
    if decide (record_capacity (page_header p) <= RID.slot_num rid)
    then rc = RC.INVALID_ARGUMENT ∧ p' = p
    else match lookup_rid rid with
         | None => rc = RC.RECORD_NOT_EXIST ∧ p' = p
         | Some _ => rc = RC.SUCCESS ∧
             page_step p (Z.to_nat (RID.slot_num rid)) (Some (take (real_size p) data)) p' ∧
             dirty p' = true
         end).
Proof.
  intros Hs Hd. unfold update_record. apply wp_bind, wp_assert; [done|].
  apply wp_bind, wp_get. case_decide as Hc; [by apply wp_ret|].
  apply wp_bind. eapply wp_some; [apply lookup_rid_in; lia|].
  destruct (lookup_rid rid) as [old|] eqn:Hl; [|by apply wp_ret]. simpl.
  unfold lookup_rid in Hl. apply page_lookup_Some in Hl as (Hi & Hb & _).
  apply wp_assoc, wp_bind.
  rewrite <-(Z2Nat.id (RID.slot_num rid)) by lia. apply wp_put_same; try done.
  intros p' Hp' Hd'. apply wp_ret. rewrite Nat2Z.id. done.
Qed.

(** Recovery writes the record whether the slot is taken or not. *)
Lemma wp_page_recover_insert data rid :
  0 <= RID.slot_num rid → (real_size p <= length data)%nat →
  wp (recover_insert_record data rid) p (λ rc p',
    if decide (record_capacity (page_header p) <= RID.slot_num rid)
    then rc = RC.RECORD_INVALID_RID ∧ p' = p
    else rc = RC.SUCCESS ∧
         page_step p (Z.to_nat (RID.slot_num rid)) (Some (take (real_size p) data)) p' ∧
         dirty p' = true).
Proof.
  intros Hs Hd. unfold recover_insert_record.
  apply wp_bind, wp_get. case_decide as Hc; [by apply wp_ret|].
  apply wp_bind. eapply wp_some; [apply lookup_rid_in; lia|].
  set (i := Z.to_nat (RID.slot_num rid)).
  assert (Z.of_nat i = RID.slot_num rid) as Hi by (unfold i; lia). rewrite <-Hi.
  assert (wp (if negb (bool_decide (is_Some (lookup_rid rid)))
      then i' ← st_some (slot_index (Z.of_nat i)); bm ← st_some (Bitmap.set_bit (slot_bitmap p) i');
           st_modify (set_slots (record_num (page_header p) + 1) bm)
      else mret ()) p (λ _ p1, ∃ bm n, p1 = set_slots n bm p ∧ Forall Bitmap.byte_ok bm ∧
        length bm = length (slot_bitmap p) ∧
        (∀ j, Bitmap.bit bm j = if decide (j = i) then true else Bitmap.bit (slot_bitmap p) j) ∧
        n = record_num (page_header p) + (if Bitmap.bit (slot_bitmap p) i then 0 else 1))) as Hset.
  { destruct (lookup_rid rid) as [old|] eqn:Hl; simpl.
    - apply page_lookup_Some in Hl as (_ & Hb & _). fold i in Hb. apply wp_ret.
      exists (slot_bitmap p), (record_num (page_header p)). rewrite Hb.
      split_and!; [by destruct p as [[] ? ? ?]|apply Hwf|done| |lia].
      intros j. case_decide; by subst.
    - apply wp_bind. eapply wp_some. { unfold slot_index. rewrite decide_True by lia. done. }
      rewrite Nat2Z.id. destruct (bitmap_covers Hwf) as [Hcov _]. unfold capacity in Hcov.
      destruct (Bitmap.set_bit_spec (slot_bitmap p) i) as (bm & Hset & Hlen & Hbits); [lia|].
      apply wp_bind. eapply wp_some; [exact Hset|]. apply wp_modify.
      eexists bm, _. split_and!; [done| |done|done|].
      + by eapply Bitmap.set_bit_bytes, Hset; apply Hwf.
      + destruct (Bitmap.bit (slot_bitmap p) i) eqn:Hb; [|done]. exfalso.
        apply (page_lookup_in Hwf) in Hb as [? Hx]; [|lia]. unfold lookup_rid in Hl. fold i in Hl.
        congruence. }
  apply wp_bind. eapply wp_mono; [exact Hset|]. intros _ p1 (bm & n & -> & Hbytes & Hlen & Hbits & Hn).
  apply wp_assoc, wp_bind. eapply wp_put; try done; [lia|]. intros p' Hp' Hd'. by apply wp_ret.
Qed.

Lemma wp_page_delete rid :
  0 <= RID.slot_num rid →
  wp (delete_record false rid) p (λ rc p',
    if decide (record_capacity (page_header p) <= RID.slot_num rid)
    then rc = RC.INVALID_ARGUMENT ∧ p' = p
    else match lookup_rid rid with
         | None => rc = RC.RECORD_NOT_EXIST ∧ p' = p
         | Some _ => rc = RC.SUCCESS ∧ page_step p (Z.to_nat (RID.slot_num rid)) None p' ∧
             dirty p' = true
         end).
Proof.
  intros Hs. unfold delete_record. apply wp_bind, wp_assert; [done|].
  apply wp_bind, wp_get. case_decide as Hc; [by apply wp_ret|].
  apply wp_bind. eapply wp_some; [apply lookup_rid_in; lia|].
  destruct (lookup_rid rid) as [old|] eqn:Hl; [|by apply wp_ret]. simpl.
  unfold lookup_rid in Hl. set (i := Z.to_nat (RID.slot_num rid)) in *.
  apply page_lookup_Some in Hl as (Hi & Hb & _).
  apply wp_bind. eapply wp_some. { unfold slot_index. rewrite decide_True by lia. done. } fold i.
  destruct (bitmap_covers Hwf) as [Hcov _]. unfold capacity in Hcov.
  destruct (Bitmap.clear_bit_spec (slot_bitmap p) i) as (bm & Hset & Hlen & Hbits); [lia|].
  apply wp_bind. eapply wp_some; [exact Hset|]. apply wp_bind, wp_modify, wp_bind, wp_modify, wp_ret.
  split; [done|]. split; [|done].
  apply (page_step_intro i false bm (cells p)); try done.
  - by eapply Bitmap.clear_bit_bytes, Hset; apply Hwf.
  - apply Hwf.
  - rewrite Hb. lia.
Qed.

Lemma wp_page_get rid :
  0 <= RID.slot_num rid →
  wp (get_record rid) p (λ r p', p' = p ∧ r =
    if decide (record_capacity (page_header p) <= RID.slot_num rid) then inl RC.RECORD_INVALID_RID
    else match lookup_rid rid with
         | None => inl RC.RECORD_NOT_EXIST
         | Some data => inr data
         end).
Proof.
  intros Hs. unfold get_record. apply wp_bind, wp_get. case_decide as Hc; [by apply wp_ret|].
  apply wp_bind. eapply wp_some; [apply lookup_rid_in; lia|].
  destruct (lookup_rid rid) as [data|] eqn:Hl; simpl; [|by apply wp_ret].
  unfold lookup_rid in Hl. apply page_lookup_Some in Hl as (Hi & _ & Hd).
  apply wp_bind. eapply wp_some; [|by apply wp_ret].
  unfold get_record_data, slot_index. by rewrite decide_True by lia.
Qed.

(** [st_update] of a record in place: the page is not marked dirty. *)
Lemma wp_put_in_place rid data old (Q : () → record_page → Prop) :
  0 <= RID.slot_num rid → lookup_rid rid = Some old → (real_size p <= length data)%nat →
  (∀ p', page_step p (Z.to_nat (RID.slot_num rid)) (Some (take (real_size p) data)) p' →
     dirty p' = dirty p → Q () p') →
  wp (st_update (put_record_data (RID.slot_num rid) data)) p Q.
Proof.
  intros Hs Hl Hd HQ. unfold lookup_rid in Hl. set (i := Z.to_nat (RID.slot_num rid)) in *.
  apply page_lookup_Some in Hl as (Hi & Hb & _).
  destruct (put_data Hwf i data Hi Hd) as (cell' & Hput & Htake & Hcl).
  unfold st_update. apply wp_bind, wp_get, wp_bind. eapply wp_some.
  { replace (RID.slot_num rid) with (Z.of_nat i) by (unfold i; lia). exact Hput. }
  apply wp_modify. apply HQ; [|done].
  assert (<[i := cell']> (cells p) !! i = Some cell') as Hget.
  { destruct (cell_in Hwf i Hi) as (c & Hc & _). apply list_lookup_insert_eq.
    by apply lookup_lt_Some in Hc. }
  pose proof (page_step_intro i true (slot_bitmap p) (<[i := cell']> (cells p))
    (record_num (page_header p)) (dirty p) Hi (pw_bytes _ Hwf) eq_refl) as Hstep.
  rewrite Hget in Hstep. cbn in Hstep. rewrite Htake in Hstep.
  unfold set_cells. replace (page_header p) with (set_record_num (record_num (page_header p)) (page_header p))
    by by destruct p as [[] ? ? ?].
  apply Hstep.
  - intros j. case_decide; by subst.
  - apply length_insert.
  - intros j cell [(<- & <- & _)|[_ Hj]]%list_lookup_insert_Some; [done|]. by eapply pw_cell.
  - intros j Hj. by apply list_lookup_insert_ne.
  - rewrite Hb. lia.
Qed.
End steps.

(** ** The empty page *)
Lemma init_empty_page_ok fuel size area :
  0 < size < 2 ^ 20 → (1 <= fuel)%nat → (∀ i, size <= Z.of_nat (length (area i))) →
  ∃ p, init_empty_page fuel size area = Done p ∧ page_wf p ∧ layout_ok size (page_header p) ∧
    real_size p = Z.to_nat size ∧ ∀ i, page_lookup p i = None.
Proof.
  intros Hsize Hfuel Harea. destruct (init_header_ok fuel size Hsize Hfuel) as (h & Hh & Hok).
  unfold init_empty_page. rewrite Hh, decide_True by apply Hok. eexists. split; [done|].
  assert (∀ n i, Bitmap.bit (replicate n 0) i = false) as Hbit.
  { intros n i. unfold Bitmap.bit, Bitmap.get_bit.
    destruct (replicate n 0 !! (i / 8)%nat) as [b|] eqn:Hb; [|done].
    apply lookup_replicate in Hb as [-> _]. cbn. apply Z.bits_0. }
  assert (page_bitmap_size (record_capacity h) * 8 <= record_capacity h + 7) as Hbm.
  { unfold page_bitmap_size. pose proof (lo_capacity _ _ Hok).
    pose proof (quot_pos_bounds (record_capacity h + 7) 8). lia. }
  assert (0 <= page_bitmap_size (record_capacity h)) as Hbm0.
  { unfold page_bitmap_size. apply Z.quot_pos; pose proof (lo_capacity _ _ Hok); lia. }
  assert (record_capacity h < 2 ^ 31) as Hcap.
  { pose proof (lo_inside _ _ Hok). pose proof (lo_bitmap _ _ Hok). pose proof (lo_size _ _ Hok).
    rewrite PAGE_DATA_SIZE_eq in *. unfold PAGE_HEADER_SIZE in *.
    pose proof (lo_capacity _ _ Hok). nia. }
  split_and!; [|done|unfold real_size; cbn; by rewrite (lo_real _ _ Hok)|].
  - split; cbn.
    + split; [apply Hok|done].
    + rewrite length_replicate. lia.
    + apply Forall_replicate. unfold Bitmap.byte_ok. lia.
    + by rewrite length_fmap, length_seq.
    + intros i cell Hc. apply list_lookup_fmap_Some in Hc as (k & -> & _).
      unfold real_size. cbn. rewrite (lo_real _ _ Hok). specialize (Harea k). lia.
    + rewrite (lo_num _ _ Hok). unfold count_slots. cbn.
      rewrite (count_filter_ext _ (λ _, false)) by (intros; apply Hbit).
      induction (seq _ _) as [|x l IH]; [done|]. rewrite filter_cons. by rewrite decide_False.
  - intros i. unfold page_lookup. cbn. rewrite Hbit. by rewrite andb_false_r.
Qed.
