(* ===== verification/RecordFile.v ===== *)
(** * Record files ([RecordFileHandler], [RecordFileScanner], [storage/record/record_manager.cpp])

    The state is the header page of the file, its record pages as the buffer pool shows
    them, and [free_pages_].  [get_this_page] of a page that is not there is
    [IOERR_READ]; frames are taken to be available, as in the theorems of
    [StorageTheorems.v], and page 0, the header, is no record page. *)
From S2P Require Import Prelude RidKey Comparator Bitmap LruCache BufferPool RecordPage.
From Stdlib Require Import ZArith Lia.
From stdpp Require Import base option gmap sets list.
Local Open Scope Z_scope.

Record file_state : Type := FileState {
  file_hdr : BPFileHeader.t;
  record_pages : gmap PageNum record_page;
  free_pages_ : gset PageNum;
  opened : bool
}.
Definition set_hdr (h : BPFileHeader.t) (s : file_state) : file_state :=
  FileState h (record_pages s) (free_pages_ s) (opened s).
Definition set_page (p : PageNum) (pg : record_page) (s : file_state) : file_state :=
  FileState (file_hdr s) (<[p := pg]> (record_pages s)) (free_pages_ s) (opened s).
Definition set_free (f : gset PageNum → gset PageNum) (s : file_state) : file_state :=
  FileState (file_hdr s) (record_pages s) (f (free_pages_ s)) (opened s).

(** [begin]: the first element in the iteration order of [std::unordered_set];
    [flush_page]: the outcome of writing a page; [area p i]: what slot [i] of a page that
    has just been allocated holds. *)
Section record_file.
Context (begin : gset PageNum → PageNum) (flush_page : PageNum → RC.t)
  (area : PageNum → nat → memory).
Abbreviation M := (ST file_state).

(** [page_handler.init] of the page and an operation of the
    handler *)
Definition on_page {A} (page_num : PageNum) (c : ST record_page A) : M (RC.t + A) :=
  st_assert (bool_decide (page_num ≠ BP_HEADER_PAGE)) ;;;
  s ← st_get;
  match record_pages s !! page_num with
  | None => mret (inl RC.IOERR_READ)
  | Some pg =>
      match c pg with
      | Done (a, pg') => st_modify (set_page page_num pg') ;;; mret (inr a)
      | Crash => st_crash
      | OutOfFuel => st_nofuel
      end
  end.

Definition find_free_page : nat → M (RC.t + option PageNum) :=
  fix go fuel :=
  match fuel with
  | O => st_nofuel
  | S fuel =>
      s ← st_get;
      if decide (free_pages_ s = ∅) then mret (inr None)
      else
        let current_page_num := begin (free_pages_ s) in
        full <-? on_page current_page_num (p ← st_get; mret (RecordPageHandler.is_full p)) ;;
        if full : bool then
          st_modify (set_free (λ X, X ∖ {[current_page_num]})) ;;; go fuel
        else mret (inr (Some current_page_num))
  end.

(** [allocate_page] and [init_empty_page] *)
Definition new_record_page (fuel : nat) (record_size : Z) : M (RC.t + PageNum) :=
  s ← st_get;
  match BPFileHeader.allocate (file_hdr s) with
  | inl rc => mret (inl rc)
  | inr (i, h) =>
      let current_page_num := Z.of_nat i in
      st_modify (set_hdr h) ;;;
      match init_empty_page fuel record_size (area current_page_num) with
      | Crash => st_crash
      | OutOfFuel => st_nofuel
      | Done pg =>
          st_modify (set_page current_page_num pg) ;;;
          try mret (flush_page current_page_num) ;;
          st_modify (set_free (λ X, {[current_page_num]} ∪ X)) ;;;
          mret (inr current_page_num)
      end
  end.

Definition insert_record (fuel : nat) (data : memory) (record_size : Z) : M (RC.t + RID.t) :=
  s ← st_get;
  found <-? find_free_page (S (size (free_pages_ s))) ;;
  page <-? (match found with
            | Some p => mret (inr p)
            | None => new_record_page fuel record_size
            end) ;;
  r <-? on_page page (RecordPageHandler.insert_record page false data) ;;
  mret r.

Definition update_record (data : memory) (rid : RID.t) : M RC.t :=
  rc <-? on_page (RID.page_num rid) (RecordPageHandler.update_record false data rid) ;;
  mret rc.

Definition delete_record (rid : RID.t) : M RC.t :=
  rc <-? on_page (RID.page_num rid) (RecordPageHandler.delete_record false rid) ;;
  if RC.succ rc then st_modify (set_free (λ X, {[RID.page_num rid]} ∪ X)) ;;; mret rc
  else mret rc.

(** [DiskBufferPool::recover_page] on the header *)
Definition recover_header (h : BPFileHeader.t) (page_num : PageNum) : option BPFileHeader.t :=
  b ← Bitmap.get_bit (BPFileHeader.bitmap h) (Z.to_nat page_num);
  if b : bool then Some h
  else
    bm ← Bitmap.set_bit (BPFileHeader.bitmap h) (Z.to_nat page_num);
    Some (BPFileHeader.mk (S (BPFileHeader.page_count h)) (BPFileHeader.allocated_pages h + 1) bm).

(** [recover_init] also marks the page as allocated *)
Definition recover_insert_record (data : memory) (rid : RID.t) : M RC.t :=
  _ <-? on_page (RID.page_num rid) (mret ()) ;;
  s ← st_get;
  h ← st_some (recover_header (file_hdr s) (RID.page_num rid));
  st_modify (set_hdr h) ;;;
  rc <-? on_page (RID.page_num rid) (RecordPageHandler.recover_insert_record data rid) ;;
  mret rc.

Definition get_record (rid : RID.t) : M (RC.t + memory) :=
  r <-? on_page (RID.page_num rid) (RecordPageHandler.get_record rid) ;;
  mret r.

(** [visit_record]: the visitor is given the record in place; [None] is a failed [ASSERT]
    of the visitor.  What it writes is on the page, which is not marked dirty. *)
Definition visit_in_page {A} (rid : RID.t) (visitor : memory → option (memory * A))
  : ST record_page (RC.t + A) :=
  data <-? RecordPageHandler.get_record rid ;;
  r ← st_some (visitor data);
  RecordPageHandler.st_update (put_record_data (RID.slot_num rid) r.1) ;;;
  mret (inr r.2).
Definition visit_record {A} (rid : RID.t) (visitor : memory → option (memory * A)) : M (RC.t + A) :=
  r <-? on_page (RID.page_num rid) (visit_in_page rid visitor) ;;
  mret r.

(** [init] and [init_free_pages] *)
Definition init_free_pages : nat → BufferPoolIterator → M RC.t :=
  fix go fuel it :=
  match fuel with
  | O => st_nofuel
  | S fuel =>
      s ← st_get;
      more ← st_some (bp_iterator_has_next (file_hdr s) it);
      if negb more then mret RC.SUCCESS
      else
        r ← st_some (bp_iterator_next (file_hdr s) it);
        let '(current_page_num, it) := r in
        full <-? on_page current_page_num (p ← st_get; mret (RecordPageHandler.is_full p)) ;;
        (if full : bool then mret () else st_modify (set_free (λ X, {[current_page_num]} ∪ X))) ;;;
        go fuel it
  end.
Definition init_handler : M RC.t :=
  s ← st_get;
  if opened s then mret RC.RECORD_OPENNED
  else
    st_modify (λ s, FileState (file_hdr s) (record_pages s) (free_pages_ s) true) ;;;
    init_free_pages (S (BPFileHeader.page_count (file_hdr s))) (bp_iterator_init (file_hdr s) 0) ;;;
    mret RC.SUCCESS.
Definition close_handler : M () :=
  s ← st_get;
  if opened s then st_modify (λ s, FileState (file_hdr s) (record_pages s) ∅ false) else mret ().
End record_file.

(** ** [RecordFileScanner]

    [filter]: the condition filter, if there is one; [visit]: [trx_->visit_record], if
    there is a transaction. *)
Record RecordFileScanner : Type := Scanner {
  bp_iterator_ : BufferPoolIterator;
  record_page_iterator_ : option RecordPageIterator;
  next_record_ : RID.t * memory
}.
Definition set_page_iterator (it : RecordPageIterator) (sc : RecordFileScanner) : RecordFileScanner :=
  Scanner (bp_iterator_ sc) (Some it) (next_record_ sc).
Definition set_bp_iterator (it : BufferPoolIterator) (sc : RecordFileScanner) : RecordFileScanner :=
  Scanner it (record_page_iterator_ sc) (next_record_ sc).
Definition set_next_record (r : RID.t * memory) (sc : RecordFileScanner) : RecordFileScanner :=
  Scanner (bp_iterator_ sc) (record_page_iterator_ sc) r.
(** [next_record_.rid().slot_num = -1] *)
Definition set_no_record (sc : RecordFileScanner) : RecordFileScanner :=
  set_next_record (RID.mk (RID.page_num (next_record_ sc).1) (-1), (next_record_ sc).2) sc.

Section scanner.
Context (filter : option (RID.t → memory → bool)) (visit : option (RID.t → memory → bool → RC.t))
  (readonly_ : bool) (s : file_state).
Abbreviation M := (ST RecordFileScanner).

Definition fetch_next_record_in_page (p : record_page) : nat → M RC.t :=
  fix go fuel :=
  match fuel with
  | O => st_nofuel
  | S fuel =>
      sc ← st_get;
      it ← st_some (record_page_iterator_ sc);
      if page_iterator_has_next it then
        r ← st_some (page_iterator_next p it);
        let '((rc, rid), it') := r in
        st_modify (set_page_iterator it') ;;;
        if negb (RC.succ rc) then mret rc
        else
          data ← st_some (get_record_data p (RID.slot_num rid));
          st_modify (set_next_record (rid, data)) ;;;
          if negb (match filter with Some f => f rid data | None => true end) then go fuel
          else
            match visit with
            | None => mret rc
            | Some v =>
                let rc := v rid data readonly_ in
                if decide (rc = RC.RECORD_INVISIBLE) then go fuel else mret rc
            end
      else
        st_modify set_no_record ;;; mret RC.RECORD_EOF
  end.

Definition iterator_page (it : RecordPageIterator) : option record_page :=
  record_pages s !! iter_page_num it.
(** enough for the slots of a page *)
Definition page_fuel (p : record_page) : nat := S (Z.to_nat (record_capacity (page_header p))).

Definition next_pages : nat → M RC.t :=
  fix go fuel :=
  match fuel with
  | O => st_nofuel
  | S fuel =>
      sc ← st_get;
      more ← st_some (bp_iterator_has_next (file_hdr s) (bp_iterator_ sc));
      if more : bool then
        r ← st_some (bp_iterator_next (file_hdr s) (bp_iterator_ sc));
        let '(page_num, it) := r in
        st_modify (set_bp_iterator it) ;;;
        st_assert (bool_decide (page_num ≠ BP_HEADER_PAGE)) ;;;
        match record_pages s !! page_num with
        | None => mret RC.IOERR_READ
        | Some p =>
            page_it ← st_some (page_iterator_init page_num p 0);
            st_modify (set_page_iterator page_it) ;;;
            rc ← fetch_next_record_in_page p (page_fuel p);
            if decide (rc ≠ RC.RECORD_EOF) then mret rc else go fuel
        end
      else
        st_modify set_no_record ;;; mret RC.RECORD_EOF
  end.

Definition fetch_next_record : M RC.t :=
  sc ← st_get;
  rc ← (match record_page_iterator_ sc with
        | Some it =>
            p ← st_some (iterator_page it);
            fetch_next_record_in_page p (page_fuel p)
        | None => mret RC.RECORD_EOF
        end);
  if decide (rc ≠ RC.RECORD_EOF) then mret rc
  else next_pages (S (bitmap_size (bp_iterator_ sc))).

(** A scanner that has not been used before; its [next_record_] is only read once [fetch_next_record] has set it. *)
Definition open_scan : outcome (RC.t * RecordFileScanner) :=
  let sc := Scanner (bp_iterator_init (file_hdr s) 0) None (RID.mk (-1) (-1), []) in
  match fetch_next_record sc with
  | Done (rc, sc) => Done (if decide (rc = RC.RECORD_EOF) then RC.SUCCESS else rc, sc)
  | Crash => Crash
  | OutOfFuel => OutOfFuel
  end.
Definition has_next (sc : RecordFileScanner) : bool :=
  bool_decide (RID.slot_num (next_record_ sc).1 ≠ -1).
Definition scanner_next : M (RC.t * (RID.t * memory)) :=
  sc ← st_get;
  let record := next_record_ sc in
  rc ← fetch_next_record;
  mret (if decide (rc = RC.RECORD_EOF) then RC.SUCCESS else rc, record).

(** The loop of the callers: [while (scanner.has_next()) { scanner.next(record); ... }] *)
Definition scan_loop : nat → M (RC.t * list (RID.t * memory)) :=
  fix go fuel :=
  match fuel with
  | O => st_nofuel
  | S fuel =>
      sc ← st_get;
      if has_next sc then
        r ← scanner_next;
        if negb (RC.succ r.1) then mret (r.1, [])
        else
          rest ← go fuel;
          mret (rest.1, r.2 :: rest.2)
      else mret (RC.SUCCESS, [])
  end.
Definition scan_file (fuel : nat) : outcome (RC.t * list (RID.t * memory)) :=
  match open_scan with
  | Done (rc, sc) =>
      if RC.succ rc then
        match scan_loop fuel sc with
        | Done (r, _) => Done r
        | Crash => Crash
        | OutOfFuel => OutOfFuel
        end
      else Done (rc, [])
  | Crash => Crash
  | OutOfFuel => OutOfFuel
  end.
End scanner.
