(* ===== verification/RecordFileCorrect.v ===== *)
(** * Correctness of record files

    A record file is a map from RIDs to records: what each operation of
    [RecordFileHandler] does to it, with the invariant on the pages, the file header and
    [free_pages_]. *)
From S2P Require Import Prelude RidKey Comparator Bitmap LruCache BufferPool BufferPoolHeader RecordPage RecordPageCorrect.
From S2P Require Import RecordFile.
From Stdlib Require Import ZArith Lia.
From stdpp Require Import base option gmap sets list.
Local Open Scope Z_scope.
#[local] Opaque Nat.div Nat.modulo.

(** The record of a RID. *)
Definition file_lookup (s : file_state) (rid : RID.t) : option memory :=
  if decide (0 <= RID.slot_num rid)
  then record_pages s !! RID.page_num rid ≫= λ pg, page_lookup pg (Z.to_nat (RID.slot_num rid))
  else None.

(** The record pages are the allocated pages but the header; each is well formed and
    holds records of the size [size]; every page with a free slot is in [free_pages_]. *)
Record file_wf (size : Z) (s : file_state) : Prop := {
  fw_hdr : header_wf (file_hdr s);
  fw_pages : ∀ p, is_Some (record_pages s !! p) ↔
    ∃ i, p = Z.of_nat i ∧ i ≠ 0%nat ∧ allocated (file_hdr s) i = true;
  fw_page : ∀ p pg, record_pages s !! p = Some pg → page_wf pg ∧ real_size pg = Z.to_nat size;
  fw_free : ∀ p, p ∈ free_pages_ s → is_Some (record_pages s !! p);
  fw_not_full : ∀ p pg, record_pages s !! p = Some pg →
    RecordPageHandler.is_full pg = false → p ∈ free_pages_ s
}.

(** The record of [rid] becomes [o]. *)
Definition file_step (size : Z) (s : file_state) (rid : RID.t) (o : option memory)
  (s' : file_state) : Prop :=
  file_wf size s' ∧ ∀ rid', file_lookup s' rid' = if decide (rid' = rid) then o else file_lookup s rid'.

Lemma page_not_header size s p pg :
  file_wf size s → record_pages s !! p = Some pg → p ≠ BP_HEADER_PAGE ∧ 0 < p.
Proof.
  intros Hwf Hp. destruct (proj1 (fw_pages _ _ Hwf p)) as (i & -> & Hi & _); [by eexists|].
  unfold BP_HEADER_PAGE. lia.
Qed.
Lemma file_lookup_page s p i :
  file_lookup s (RID.mk p (Z.of_nat i)) = record_pages s !! p ≫= λ pg, page_lookup pg i.
Proof. unfold file_lookup. cbn. rewrite decide_True by lia. by rewrite Nat2Z.id. Qed.

Section steps.
Context {size : Z} {s : file_state} (Hwf : file_wf size s).
Implicit Types (p : PageNum) (rid : RID.t) (data : memory).

Lemma wp_on_page {A} p pg (c : ST record_page A) (Q : RC.t + A → file_state → Prop) :
  record_pages s !! p = Some pg → wp c pg (λ a pg', Q (inr a) (set_page p pg' s)) →
  wp (on_page p c) s Q.
Proof.
  intros Hp (a & pg' & Hc & HQ). destruct (page_not_header _ _ _ _ Hwf Hp) as [Hne _].
  unfold on_page. apply wp_bind, wp_assert; [by apply bool_decide_eq_true_2|].
  apply wp_bind, wp_get. rewrite Hp, Hc. by apply wp_bind, wp_modify, wp_ret.
Qed.
Lemma wp_on_page_none {A} p (c : ST record_page A) (Q : RC.t + A → file_state → Prop) :
  record_pages s !! p = None → p ≠ BP_HEADER_PAGE → Q (inl RC.IOERR_READ) s → wp (on_page p c) s Q.
Proof.
  intros Hp Hne HQ. unfold on_page. apply wp_bind, wp_assert; [by apply bool_decide_eq_true_2|].
  apply wp_bind, wp_get. rewrite Hp. by apply wp_ret.
Qed.

(** A page that stays as it is. *)
Lemma set_page_same p pg : record_pages s !! p = Some pg → set_page p pg s = s.
Proof. intros Hp. unfold set_page. rewrite insert_id by done. by destruct s. Qed.

(** A page whose record [i] changes; [free_pages_] only grows by that page. *)
Lemma set_page_step p pg pg' i o X :
  record_pages s !! p = Some pg → page_step pg i o pg' →
  (∀ q, q ∈ X ↔ q ∈ free_pages_ s ∨ q = p ∧ q ∈ X) →
  (RecordPageHandler.is_full pg' = false → p ∈ X) →
  file_step size s (RID.mk p (Z.of_nat i)) o
    (FileState (file_hdr s) (<[p := pg']> (record_pages s)) X (opened s)).
Proof.
  intros Hp Hstep HX Hfull. pose proof (fw_page _ _ Hwf _ _ Hp) as [_ Hreal]. split; [split; cbn|].
  - apply Hwf.
  - intros q. rewrite <-(fw_pages _ _ Hwf), lookup_insert. case_decide; [subst; rewrite Hp|done].
    split; by eexists.
  - intros q qg [[<- <-]|[_ Hq]]%lookup_insert_Some; [|by eapply fw_page].
    split; [apply Hstep|]. unfold real_size in *. by rewrite (ps_real _ _ _ _ Hstep).
  - intros q Hq. rewrite lookup_insert. case_decide; [by eexists|].
    apply HX in Hq as [Hq|[-> _]]; [|done]. by eapply fw_free.
  - intros q qg [[<- <-]|[_ Hq]]%lookup_insert_Some Hnf; [by apply Hfull|].
    apply HX. left. by eapply fw_not_full.
  - intros [q n]. unfold file_lookup. cbn. rewrite lookup_insert. case_decide as Hn.
    + destruct (decide (p = q)) as [<-|Hpq]; cbn.
      * rewrite (ps_lookup _ _ _ _ Hstep), Hp. cbn.
        destruct (decide (Z.to_nat n = i)) as [<-|Hni].
        -- rewrite decide_True; [done|]. f_equal. lia.
        -- rewrite decide_False; [done|]. intros [= ->]. lia.
      * rewrite decide_False; [done|]. by intros [= ->].
    + rewrite decide_False; [done|]. intros [= -> ->]. lia.
Qed.
Lemma set_page_step' p pg pg' i o :
  record_pages s !! p = Some pg → page_step pg i o pg' →
  (RecordPageHandler.is_full pg' = false → p ∈ free_pages_ s) →
  file_step size s (RID.mk p (Z.of_nat i)) o (set_page p pg' s).
Proof. intros Hp Hstep Hfull. eapply set_page_step; [done|done| |done]. naive_solver. Qed.

(** Reading. *)
Lemma wp_get_record rid :
  0 <= RID.slot_num rid → RID.page_num rid ≠ BP_HEADER_PAGE →
  wp (get_record rid) s (λ r s', s' = s ∧
    match file_lookup s rid with
    | Some data => r = inr data
    | None => r = inl RC.IOERR_READ ∨ r = inl RC.RECORD_INVALID_RID ∨ r = inl RC.RECORD_NOT_EXIST
    end).
Proof.
  intros Hs Hne. unfold get_record, file_lookup. rewrite decide_True by done.
  destruct (record_pages s !! RID.page_num rid) as [pg|] eqn:Hp; cbn.
  - apply wp_bind. eapply wp_on_page; [done|].
    destruct (fw_page _ _ Hwf _ _ Hp) as [Hpwf _].
    eapply wp_mono; [by apply (wp_page_get Hpwf)|].
    intros r pg' [-> ->]. apply wp_ret. split; [by apply set_page_same|].
    unfold lookup_rid. case_decide as Hc.
    + assert (page_lookup pg (Z.to_nat (RID.slot_num rid)) = None) as ->; [|by right; left].
      destruct (page_lookup pg (Z.to_nat (RID.slot_num rid))) eqn:Hl; [|done].
      apply page_lookup_Some in Hl as [? _]. lia.
    + destruct (page_lookup pg _); [done|]. by right; right.
  - apply wp_bind. apply wp_on_page_none; [done..|]. apply wp_ret. by split; [|left].
Qed.

(** Writing a record that is there. *)
Lemma full_step pg i data pg' :
  page_wf pg → is_Some (page_lookup pg i) → page_step pg i (Some data) pg' →
  RecordPageHandler.is_full pg' = RecordPageHandler.is_full pg.
Proof.
  intros Hpg Hi Hstep. unfold RecordPageHandler.is_full. apply bool_decide_ext.
  destruct (full_iff Hpg) as [Hle Hfull]. destruct (full_iff (ps_wf _ _ _ _ Hstep)) as [Hle' Hfull'].
  rewrite (ps_capacity _ _ _ _ Hstep) in *.
  assert (record_num (page_header pg') = record_capacity (page_header pg) ↔
          record_num (page_header pg) = record_capacity (page_header pg)); [|lia].
  rewrite Hfull, Hfull'. split; intros Hall j Hj; specialize (Hall j Hj).
  - rewrite (ps_lookup _ _ _ _ Hstep) in Hall. case_decide; by subst.
  - rewrite (ps_lookup _ _ _ _ Hstep). by case_decide.
Qed.

Lemma wp_update_record data rid :
  0 <= RID.slot_num rid → RID.page_num rid ≠ BP_HEADER_PAGE → (Z.to_nat size <= length data)%nat →
  wp (update_record data rid) s (λ rc s',
    match file_lookup s rid with
    | Some _ => rc = RC.SUCCESS ∧ file_step size s rid (Some (take (Z.to_nat size) data)) s'
    | None => (rc = RC.IOERR_READ ∨ rc = RC.INVALID_ARGUMENT ∨ rc = RC.RECORD_NOT_EXIST) ∧ s' = s
    end).
Proof.
  intros Hs Hne Hd. unfold update_record, file_lookup. rewrite decide_True by done.
  destruct (record_pages s !! RID.page_num rid) as [pg|] eqn:Hp; cbn.
  - destruct (fw_page _ _ Hwf _ _ Hp) as [Hpwf Hreal]. apply wp_bind. eapply wp_on_page; [done|].
    eapply wp_mono; [apply (wp_page_update Hpwf); [done|by rewrite Hreal]|].
    intros rc pg' Hpost. apply wp_ret. unfold lookup_rid in Hpost. case_decide as Hc.
    + destruct Hpost as [-> ->].
      assert (page_lookup pg (Z.to_nat (RID.slot_num rid)) = None) as ->.
      { destruct (page_lookup pg (Z.to_nat (RID.slot_num rid))) eqn:Hl; [|done].
        apply page_lookup_Some in Hl as [? _]. lia. }
      split; [by right; left|by apply set_page_same].
    + destruct (page_lookup pg _) as [old|] eqn:Hl.
      * destruct Hpost as (-> & Hstep & _). split; [done|]. rewrite Hreal in Hstep.
        destruct rid as [q n]. cbn in *. rewrite <-(Z2Nat.id n) at 1 by done.
        eapply set_page_step'; [done|done|]. erewrite (full_step pg (Z.to_nat n)); [|done| |done]; [|by eexists].
        by intros; eapply fw_not_full.
      * destruct Hpost as [-> ->]. split; [by right; right|by apply set_page_same].
  - apply wp_bind, wp_on_page_none; [done..|]. apply wp_ret. by split; [left|].
Qed.

Lemma wp_delete_record rid :
  0 <= RID.slot_num rid → RID.page_num rid ≠ BP_HEADER_PAGE →
  wp (delete_record rid) s (λ rc s',
    match file_lookup s rid with
    | Some _ => rc = RC.SUCCESS ∧ file_step size s rid None s'
    | None => (rc = RC.IOERR_READ ∨ rc = RC.INVALID_ARGUMENT ∨ rc = RC.RECORD_NOT_EXIST) ∧ s' = s
    end).
Proof.
  intros Hs Hne. unfold delete_record, file_lookup. rewrite decide_True by done.
  destruct (record_pages s !! RID.page_num rid) as [pg|] eqn:Hp; cbn.
  - destruct (fw_page _ _ Hwf _ _ Hp) as [Hpwf Hreal]. apply wp_bind. eapply wp_on_page; [done|].
    eapply wp_mono; [by apply (wp_page_delete Hpwf)|].
    intros rc pg' Hpost. unfold lookup_rid in Hpost. case_decide as Hc.
    + destruct Hpost as [-> ->].
      assert (page_lookup pg (Z.to_nat (RID.slot_num rid)) = None) as ->.
      { destruct (page_lookup pg (Z.to_nat (RID.slot_num rid))) eqn:Hl; [|done].
        apply page_lookup_Some in Hl as [? _]. lia. }
      apply wp_ret. split; [by right; left|by apply set_page_same].
    + destruct (page_lookup pg _) as [old|] eqn:Hl.
      * destruct Hpost as (-> & Hstep & _). apply wp_bind, wp_modify, wp_ret. split; [done|].
        destruct rid as [q n]. cbn in *. rewrite <-(Z2Nat.id n) at 1 by done.
        eapply (set_page_step q pg pg' (Z.to_nat n) None ({[q]} ∪ free_pages_ s)); [done|done|set_solver|set_solver].
      * destruct Hpost as [-> ->]. apply wp_ret. split; [by right; right|by apply set_page_same].
  - apply wp_bind, wp_on_page_none; [done..|]. apply wp_ret. by split; [left|].
Qed.
End steps.

(** ** Insertion *)
Section insert.
Context (begin : gset PageNum → PageNum) (Hbegin : ∀ X, X ≠ ∅ → begin X ∈ X).
Context (flush_page : PageNum → RC.t) (Hflush : ∀ p, flush_page p = RC.SUCCESS).
Context (area : PageNum → nat → memory) {size : Z}
  (Harea : ∀ p i, size <= Z.of_nat (length (area p i))) (Hsize : 0 < size < 2 ^ 20).
Context (fuel : nat) (Hfuel : (1 <= fuel)%nat).
(** a page has room for a record *)
Context (Hroom : ∀ h, init_header fuel size = Some h → 0 < record_capacity h).

(** Only [free_pages_] may have shrunk, by full pages. *)
Definition same_file (s s' : file_state) : Prop :=
  file_hdr s' = file_hdr s ∧ record_pages s' = record_pages s ∧ opened s' = opened s.
Lemma same_file_lookup s s' rid : same_file s s' → file_lookup s' rid = file_lookup s rid.
Proof. intros (_ & Hp & _). unfold file_lookup. by rewrite Hp. Qed.

Lemma wp_find_free_page n s :
  file_wf size s → (base.size (free_pages_ s) < n)%nat →
  wp (find_free_page begin n) s (λ r s', file_wf size s' ∧ same_file s s' ∧
    match r with
    | inr (Some p) => ∃ pg, record_pages s !! p = Some pg ∧ RecordPageHandler.is_full pg = false
    | inr None => ∀ p pg, record_pages s !! p = Some pg → RecordPageHandler.is_full pg = true
    | inl _ => False
    end).
Proof.
  revert s. induction n as [|n IH]; intros s Hwf Hn; [lia|].
  cbn [find_free_page]. apply wp_bind, wp_get. case_decide as Hempty.
  { apply wp_ret. split_and!; [done|done|]. intros p pg Hp.
    destruct (RecordPageHandler.is_full pg) eqn:Hf; [done|].
    pose proof (fw_not_full _ _ Hwf _ _ Hp Hf). set_solver. }
  pose proof (Hbegin _ Hempty) as Hb. set (p := begin (free_pages_ s)) in *.
  destruct (fw_free _ _ Hwf _ Hb) as [pg Hp].
  apply wp_bind. eapply (wp_on_page Hwf); [done|]. apply wp_bind, wp_get, wp_ret.
  rewrite (set_page_same Hwf p pg) by done.
  destruct (RecordPageHandler.is_full pg) eqn:Hf.
  - apply wp_bind, wp_modify. eapply wp_mono; [apply IH|].
    + destruct Hwf as [H1 H2 H3 H4 H5]. split; try done; cbn.
      * intros q Hq. apply H4. set_solver.
      * intros q qg Hq Hqf. apply elem_of_difference. split; [by eapply H5|].
        intros ->%elem_of_singleton. congruence.
    + cbn. assert (base.size (free_pages_ s ∖ {[p]}) < base.size (free_pages_ s))%nat; [|lia].
      apply subset_size. set_solver.
    + intros r s' (Hwf' & Hsame & Hr). by split_and!.
  - apply wp_ret. split_and!; [done|done|]. by exists pg.
Qed.

(** A new page. *)
Lemma wp_new_record_page s :
  file_wf size s →
  wp (new_record_page flush_page area fuel size) s (λ r s',
    match BPFileHeader.allocate (file_hdr s) with
    | inl rc => r = inl rc ∧ s' = s
    | inr (i, _) => r = inr (Z.of_nat i) ∧ file_wf size s' ∧
        (∃ pg, record_pages s' !! Z.of_nat i = Some pg ∧ RecordPageHandler.is_full pg = false) ∧
        ∀ rid, file_lookup s' rid = file_lookup s rid
    end).
Proof.
  intros Hwf. unfold new_record_page. apply wp_bind, wp_get.
  destruct (BPFileHeader.allocate (file_hdr s)) as [rc|[i h]] eqn:Hal; [by apply wp_ret|].
  pose proof (allocate_wf _ _ _ (fw_hdr _ _ Hwf) Hal) as Hh.
  destruct (allocate_inv _ _ _ Hal) as (Hfree & Hbits & _).
  destruct (init_empty_page_ok fuel size (area (Z.of_nat i)) Hsize Hfuel (Harea _))
    as (pg & Hpg & Hpgwf & Hlay & Hreal & Hnone).
  assert (i ≠ 0%nat) as Hi.
  { intros ->. rewrite allocated_bit, (hw_first _ (fw_hdr _ _ Hwf)) in Hfree by apply Hwf. done. }
  assert (record_pages s !! Z.of_nat i = None) as Hnew.
  { destruct (record_pages s !! Z.of_nat i) eqn:He; [|done].
    destruct (proj1 (fw_pages _ _ Hwf (Z.of_nat i))) as (j & Hij & _ & Hj); [by eexists|].
    apply Nat2Z.inj in Hij as <-. congruence. }
  assert (RecordPageHandler.is_full pg = false) as Hnf.
  { unfold RecordPageHandler.is_full. apply bool_decide_eq_false_2.
    rewrite (lo_num _ _ Hlay). unfold init_empty_page in Hpg.
    destruct (init_header fuel size) as [hh|] eqn:Hhh; [|done].
    case_decide; [|done]. injection Hpg as <-. pose proof (Hroom _ eq_refl). cbn. lia. }
  apply wp_bind, wp_modify. rewrite Hpg. apply wp_bind, wp_modify.
  apply wp_bind, wp_ret. rewrite Hflush. apply wp_bind, wp_modify, wp_ret.
  split; [done|]. split; [split; cbn|split].
  - done.
  - intros p. rewrite lookup_insert. case_decide as Hp.
    + split; [|by eexists]. intros _. exists i. split_and!; [done|done|]. by rewrite Hbits, decide_True.
    + rewrite (fw_pages _ _ Hwf). split; intros (j & -> & Hj & Haj); exists j.
      * rewrite Hbits, decide_False by (by intros ->). done.
      * rewrite Hbits, decide_False in Haj by (by intros ->). done.
  - intros p qg [[<- <-]|[_ Hq]]%lookup_insert_Some; [done|]. by eapply fw_page.
  - intros p [->%elem_of_singleton|Hp]%elem_of_union; rewrite lookup_insert.
    + case_decide; [by eexists|done].
    + case_decide; [by eexists|by eapply fw_free].
  - intros p qg [[<- <-]|[_ Hq]]%lookup_insert_Some Hf; [set_solver|].
    apply elem_of_union. right. by eapply fw_not_full.
  - exists pg. split; [|done]. cbn. apply lookup_insert_eq.
  - intros [p n]. unfold file_lookup. cbn. case_decide; [|done]. rewrite lookup_insert.
    case_decide as Hp; [|done]. subst p. cbn. by rewrite Hnone, Hnew.
Qed.

(** [insert_record] into a page that is not full *)
Lemma wp_insert_in_page s p pg data :
  file_wf size s → record_pages s !! p = Some pg → RecordPageHandler.is_full pg = false →
  (Z.to_nat size <= length data)%nat →
  wp (on_page p (RecordPageHandler.insert_record p false data)) s (λ r s', ∃ rid,
    r = inr (inr rid) ∧ file_lookup s rid = None ∧ RID.page_num rid = p ∧ 0 <= RID.slot_num rid ∧
    file_step size s rid (Some (take (Z.to_nat size) data)) s').
Proof.
  intros Hwf Hp Hnf Hd. destruct (fw_page _ _ Hwf _ _ Hp) as [Hpwf Hreal].
  eapply (wp_on_page Hwf); [done|].
  eapply wp_mono; [apply (wp_page_insert Hpwf); by rewrite Hreal|].
  intros r pg' Hpost. rewrite Hnf in Hpost. destruct Hpost as (i & -> & Hi & Hnone & _ & Hstep & _).
  exists (RID.mk p (Z.of_nat i)). cbn. rewrite file_lookup_page, Hp. cbn.
  split_and!; [done|done|done|lia|]. rewrite Hreal in Hstep.
  eapply (set_page_step' Hwf); [done|done|]. intros _. by eapply fw_not_full.
Qed.

(** [insert_record] puts the record where there was none, and fails only when every
    record page is full and the file cannot grow. *)
Lemma wp_insert_record s data :
  file_wf size s → (Z.to_nat size <= length data)%nat →
  wp (insert_record begin flush_page area fuel data size) s (λ r s',
    match r with
    | inr rid => file_lookup s rid = None ∧ 0 < RID.page_num rid ∧ 0 <= RID.slot_num rid ∧
        file_step size s rid (Some (take (Z.to_nat size) data)) s'
    | inl rc => rc = RC.BUFFERPOOL_NOBUF ∧ same_file s s' ∧ file_wf size s' ∧
        ∀ p pg, record_pages s !! p = Some pg → RecordPageHandler.is_full pg = true
    end).
Proof.
  intros Hwf Hd. unfold insert_record. apply wp_bind, wp_get, wp_bind.
  eapply wp_mono; [apply wp_find_free_page; [done|lia]|].
  intros found s1 (Hwf1 & Hsame & Hfound).
  assert (∀ s2 p pg, file_wf size s2 → (∀ rid, file_lookup s2 rid = file_lookup s rid) →
    record_pages s2 !! p = Some pg → RecordPageHandler.is_full pg = false →
    wp (r <-? on_page p (RecordPageHandler.insert_record p false data) ;; mret r) s2 (λ r s',
      match r with
      | inr rid => file_lookup s rid = None ∧ 0 < RID.page_num rid ∧ 0 <= RID.slot_num rid ∧
          file_step size s rid (Some (take (Z.to_nat size) data)) s'
      | inl rc => rc = RC.BUFFERPOOL_NOBUF ∧ same_file s s' ∧ file_wf size s' ∧
          ∀ p pg, record_pages s !! p = Some pg → RecordPageHandler.is_full pg = true
      end)) as Hin.
  { intros s2 p pg Hwf2 Hl2 Hp Hnf. apply wp_bind. eapply wp_mono; [by eapply wp_insert_in_page|].
    intros r s' (rid & -> & Hnone & Hpn & Hsl & Hwf' & Hl'). apply wp_ret.
    destruct (page_not_header _ _ _ _ Hwf2 Hp) as [_ Hpos].
    rewrite <-Hl2. split_and!; [done|lia|done|]. split; [done|]. intros rid'. by rewrite Hl', Hl2. }
  destruct found as [rc|[p|]]; [done| |].
  - destruct Hfound as (pg & Hp & Hnf). apply wp_bind, wp_ret. eapply Hin; [done| |by rewrite (proj1 (proj2 Hsame))|done].
    intros rid. by apply same_file_lookup.
  - apply wp_bind. eapply wp_mono; [by apply wp_new_record_page|]. intros r s2 Hr.
    pose proof (allocate_lowest _ (fw_hdr _ _ Hwf1)) as Hl.
    destruct (BPFileHeader.allocate (file_hdr s1)) as [rc|[i h]] eqn:Hal.
    + destruct Hr as [-> ->]. destruct Hl as [-> _]. apply wp_ret. by split_and!.
    + destruct Hr as (-> & Hwf2 & (pg & Hp & Hnf) & Hl2). eapply Hin; try done.
      intros rid. rewrite Hl2. by apply same_file_lookup.
Qed.
End insert.

(** ** Visiting, recovery, opening *)
Section visit.
Context {size : Z} {s : file_state} (Hwf : file_wf size s).

(** The dirty flags of the pages. *)
Definition dirty_pages (s : file_state) (p : PageNum) : option bool := dirty <$> record_pages s !! p.

Lemma wp_visit_record {A} rid (visitor : memory → option (memory * A)) data data' a :
  0 <= RID.slot_num rid → file_lookup s rid = Some data → visitor data = Some (data', a) →
  length data' = Z.to_nat size →
  wp (visit_record rid visitor) s (λ r s', r = inr a ∧ file_step size s rid (Some data') s' ∧
    ∀ p, dirty_pages s' p = dirty_pages s p).
Proof.
  intros Hs Hl Hv Hlen. unfold file_lookup in Hl. rewrite decide_True in Hl by done.
  destruct (record_pages s !! RID.page_num rid) as [pg|] eqn:Hp; [|done]. cbn in Hl.
  destruct (fw_page _ _ Hwf _ _ Hp) as [Hpwf Hreal].
  unfold visit_record. apply wp_bind. eapply (wp_on_page Hwf); [done|].
  unfold visit_in_page. apply wp_bind.
  eapply wp_mono; [by apply (wp_page_get Hpwf)|]. intros r pg0 [-> ->].
  unfold lookup_rid. rewrite Hl. pose proof Hl as (Hi & _ & _)%page_lookup_Some.
  rewrite decide_False by lia.
  apply wp_bind. eapply wp_some; [exact Hv|]. cbn. apply wp_bind.
  eapply (wp_put_in_place Hpwf); [done|exact Hl|lia|].
  intros pg' Hstep Hdirty. apply wp_ret, wp_ret. split; [done|]. split.
  - rewrite Hreal, take_ge in Hstep by lia. destruct rid as [q n]. cbn in *.
    rewrite <-(Z2Nat.id n) at 1 by done. eapply (set_page_step' Hwf); [done|done|].
    erewrite (full_step pg (Z.to_nat n)); [|done|by eexists|done]. intros. by eapply fw_not_full.
  - intros p. unfold dirty_pages. cbn. rewrite lookup_insert. case_decide; [subst|done].
    rewrite Hp. cbn. by rewrite Hdirty.
Qed.
Lemma wp_visit_record_none {A} rid (visitor : memory → option (memory * A)) :
  0 <= RID.slot_num rid → RID.page_num rid ≠ BP_HEADER_PAGE → file_lookup s rid = None →
  wp (visit_record rid visitor) s (λ r s', s' = s ∧
    (r = inl RC.IOERR_READ ∨ r = inl RC.RECORD_INVALID_RID ∨ r = inl RC.RECORD_NOT_EXIST)).
Proof.
  intros Hs Hne Hl. unfold file_lookup in Hl. rewrite decide_True in Hl by done.
  unfold visit_record. apply wp_bind.
  destruct (record_pages s !! RID.page_num rid) as [pg|] eqn:Hp; cbn in Hl.
  - destruct (fw_page _ _ Hwf _ _ Hp) as [Hpwf _]. eapply (wp_on_page Hwf); [done|].
    unfold visit_in_page. apply wp_bind.
    eapply wp_mono; [by apply (wp_page_get Hpwf)|]. intros r pg0 [-> ->].
    unfold lookup_rid. rewrite Hl. case_decide; apply wp_ret, wp_ret; cbn;
      (split; [by apply (set_page_same Hwf)|]); naive_solver.
  - apply wp_on_page_none; [done..|]. apply wp_ret. split; [done|by left].
Qed.

(** Recovery writes the record into a slot of a page that is there. *)
Lemma wp_recover_insert_record data rid pg :
  0 <= RID.slot_num rid < record_capacity (page_header pg) →
  record_pages s !! RID.page_num rid = Some pg → (Z.to_nat size <= length data)%nat →
  wp (recover_insert_record data rid) s (λ rc s',
    rc = RC.SUCCESS ∧ file_step size s rid (Some (take (Z.to_nat size) data)) s').
Proof.
  intros Hs Hp Hd. destruct (fw_page _ _ Hwf _ _ Hp) as [Hpwf Hreal].
  destruct (page_not_header _ _ _ _ Hwf Hp) as [Hne Hpos].
  unfold recover_insert_record. apply wp_bind. eapply (wp_on_page Hwf); [done|]. apply wp_ret.
  rewrite (set_page_same Hwf) by done. apply wp_bind, wp_get, wp_bind.
  destruct (proj1 (fw_pages _ _ Hwf (RID.page_num rid))) as (i & Hpi & Hi & Hal); [by eexists|].
  assert (recover_header (file_hdr s) (RID.page_num rid) = Some (file_hdr s)) as Hrec.
  { rewrite allocated_bit in Hal by apply Hwf. unfold recover_header. rewrite Hpi, Nat2Z.id.
    unfold Bitmap.bit in Hal. destruct (Bitmap.get_bit _ i) as [[]|]; done. }
  eapply wp_some; [exact Hrec|]. apply wp_bind, wp_modify.
  replace (set_hdr (file_hdr s) s) with s by by destruct s.
  apply wp_bind. eapply (wp_on_page Hwf); [done|].
  eapply wp_mono; [apply (wp_page_recover_insert Hpwf); [lia|by rewrite Hreal]|].
  intros rc pg' Hpost. apply wp_ret. cbn beta in Hpost. rewrite decide_False in Hpost by lia.
  destruct Hpost as (-> & Hstep & _). split; [done|]. rewrite Hreal in Hstep.
  destruct rid as [q n]. cbn in *. rewrite <-(Z2Nat.id n) at 1 by lia.
  eapply (set_page_step' Hwf); [done|done|]. intros Hnf.
  destruct (RecordPageHandler.is_full pg) eqn:Hf; [exfalso|by eapply fw_not_full].
  revert Hf Hnf. unfold RecordPageHandler.is_full. rewrite bool_decide_eq_true, bool_decide_eq_false.
  destruct (full_iff Hpwf) as [Hle Hfull]. destruct (full_iff (ps_wf _ _ _ _ Hstep)) as [Hle' Hfull'].
  rewrite (ps_capacity _ _ _ _ Hstep) in *. intros Hf Hnf. apply Hnf.
  apply Z.eq_le_incl. symmetry. apply Hfull'. intros j Hj. rewrite (ps_lookup _ _ _ _ Hstep).
  case_decide; [by eexists|]. apply Hfull; lia.
Qed.
End visit.

(** [init_free_pages] finds every page that is not full. *)
Section init.
Context {size : Z}.

(** [file_wf] without its last clause, which is what [init_handler] establishes. *)
Record file_ok (s : file_state) : Prop := {
  fo_hdr : header_wf (file_hdr s);
  fo_bytes : Forall Bitmap.byte_ok (BPFileHeader.bitmap (file_hdr s));
  fo_pages : ∀ p, is_Some (record_pages s !! p) ↔
    ∃ i, p = Z.of_nat i ∧ i ≠ 0%nat ∧ allocated (file_hdr s) i = true;
  fo_page : ∀ p pg, record_pages s !! p = Some pg → page_wf pg ∧ real_size pg = Z.to_nat size
}.


(** The next page of [BufferPoolIterator]: the next allocated one. *)
Lemma bp_iterator_spec s it :
  file_ok s → bitmap_size it = BPFileHeader.page_count (file_hdr s) →
  allocated (file_hdr s) (current_page_num_ it) = true →
  (bp_iterator_has_next (file_hdr s) it = Some false ∧
   ∀ j, (current_page_num_ it < j)%nat → allocated (file_hdr s) j = false) ∨
  (∃ k, bp_iterator_has_next (file_hdr s) it = Some true ∧
     bp_iterator_next (file_hdr s) it = Some (Z.of_nat k, MkBpIterator (bitmap_size it) k) ∧
     (current_page_num_ it < k < BPFileHeader.page_count (file_hdr s))%nat ∧
     allocated (file_hdr s) k = true ∧
     ∀ j, (current_page_num_ it < j < k)%nat → allocated (file_hdr s) j = false).
Proof.
  intros Hok Hsz Hcur. pose proof (fo_hdr _ Hok) as Hh. set (c := current_page_num_ it) in *.
  pose proof (hw_length _ Hh) as Hlen. pose proof (hw_count _ Hh) as [_ Hmax].
  rewrite allocated_bit in Hcur by done.
  assert (c < BPFileHeader.page_count (file_hdr s))%nat as Hc.
  { destruct (decide (c < BPFileHeader.page_count (file_hdr s))%nat) as [|Hge]; [done|].
    rewrite (hw_beyond _ Hh) in Hcur by lia. done. }
  destruct (Bitmap.next_setted_after (BPFileHeader.bitmap (file_hdr s)) (bitmap_size it) c)
    as (r & Hr & Hfirst); [apply Hok| |done|lia|].
  { rewrite Hsz. pose proof (Bitmap.bytes_bounds (BPFileHeader.page_count (file_hdr s))). lia. }
  unfold bp_iterator_has_next, bp_iterator_next. fold c. unfold Bitmap.next_setted_bit. rewrite Hr. cbn.
  destruct Hfirst as [[-> Hno]|(k & -> & Hk & Hbit & Hno)].
  - left. split; [done|]. intros j Hj. rewrite allocated_bit by done.
    destruct (decide (j < BPFileHeader.page_count (file_hdr s))%nat).
    + apply not_true_is_false, Hno. lia.
    + apply (hw_beyond _ Hh). lia.
  - right. exists k. rewrite bool_decide_eq_true_2, decide_True, Nat2Z.id by lia.
    split_and!; [done|done|lia|lia|by rewrite allocated_bit|].
    intros j Hj. rewrite allocated_bit by done. apply not_true_is_false, Hno. lia.
Qed.
End init.

(** * Correctness of the record scanner

    A scan of a record file returns the records of the file in the order of their RIDs,
    less those the filter or the transaction hides. *)
(** ** Opening a record file *)
Section init.
Context {size : Z}.

Definition with_free (X : gset PageNum) (s : file_state) : file_state :=
  FileState (file_hdr s) (record_pages s) X (opened s).
Lemma wp_init_free_pages n s it :
  file_ok (size := size) s → bitmap_size it = BPFileHeader.page_count (file_hdr s) →
  allocated (file_hdr s) (current_page_num_ it) = true →
  (BPFileHeader.page_count (file_hdr s) - current_page_num_ it < n)%nat →
  wp (init_free_pages n it) s (λ rc s', rc = RC.SUCCESS ∧ ∃ X, s' = with_free X s ∧
    ∀ p, p ∈ X ↔ p ∈ free_pages_ s ∨ ∃ i pg, p = Z.of_nat i ∧ (current_page_num_ it < i)%nat ∧
      record_pages s !! p = Some pg ∧ RecordPageHandler.is_full pg = false).
Proof.
  revert s it. induction n as [|n IH]; intros s it Hok Hsz Hcur Hn; [lia|].
  cbn [init_free_pages]. apply wp_bind, wp_get, wp_bind.
  assert (∀ i pg, record_pages s !! Z.of_nat i = Some pg → allocated (file_hdr s) i = true) as Hal.
  { intros i pg Hi. destruct (proj1 (fo_pages _ Hok (Z.of_nat i))) as (j & ->%Nat2Z.inj & _ & ?); [by eexists|done]. }
  destruct (bp_iterator_spec s it Hok Hsz Hcur) as [[Hhas Hno]|(k & Hhas & Hnext & Hk & Hka & Hbetween)];
    (eapply wp_some; [exact Hhas|]); cbn [negb].
  - apply wp_ret. split; [done|]. exists (free_pages_ s). split; [by destruct s|].
    intros p. split; [by left|]. intros [?|(i & pg & -> & Hi & Hp & _)]; [done|].
    apply Hal in Hp. rewrite Hno in Hp by done. done.
  - apply wp_bind. eapply wp_some; [exact Hnext|]. cbn [fst snd].
    destruct (proj2 (fo_pages _ Hok (Z.of_nat k))) as [pg Hp]; [exists k; split_and!; [done|lia|done]|].
    assert (wp (on_page (Z.of_nat k) (p ← st_get; mret (RecordPageHandler.is_full p))) s
      (λ r s', s' = s ∧ r = inr (RecordPageHandler.is_full pg))) as Hfull.
    { unfold on_page. apply wp_bind, wp_assert.
      { apply bool_decide_eq_true_2. unfold BP_HEADER_PAGE. lia. }
      apply wp_bind, wp_get. rewrite Hp. cbn. apply wp_bind, wp_modify, wp_ret.
      split; [|done]. unfold set_page. rewrite insert_id by done. by destruct s. }
    apply wp_bind. eapply wp_mono; [exact Hfull|]. intros r s0 [-> ->].
    assert (∀ X', wp (init_free_pages n (MkBpIterator (bitmap_size it) k)) (with_free X' s) (λ rc s',
      rc = RC.SUCCESS ∧ ∃ X, s' = with_free X s ∧ ∀ p, p ∈ X ↔ p ∈ X' ∨ ∃ i pg, p = Z.of_nat i ∧
        (k < i)%nat ∧ record_pages s !! p = Some pg ∧ RecordPageHandler.is_full pg = false)) as Hgo.
    { intros X'. eapply wp_mono; [apply (IH (with_free X' s)); [by destruct Hok|done|done|cbn; lia]|].
      intros rc s' [-> (X & -> & HX)]. split; [done|]. exists X. split; [done|]. apply HX. }
    assert (∀ i pg', (current_page_num_ it < i)%nat → record_pages s !! Z.of_nat i = Some pg' →
      i = k ∨ (k < i)%nat) as Hsplit.
    { intros i pg' Hi Hpi. destruct (Nat.lt_trichotomy i k) as [Hlt|[->|]]; [|by left|by right].
      apply Hal in Hpi. rewrite Hbetween in Hpi by lia. done. }
    apply wp_bind. destruct (RecordPageHandler.is_full pg) eqn:Hf.
    + apply wp_ret. replace s with (with_free (free_pages_ s) s) at 1 by by destruct s.
      eapply wp_mono; [apply Hgo|]. intros rc s' [-> (X & -> & HX)]. split; [done|].
      exists X. split; [done|]. intros p. rewrite HX. split; intros [?|(i & pg' & -> & Hi & Hpi & Hfi)];
        [by left|right; exists i, pg'; split_and!; [done|lia|done|done]|by left|].
      destruct (Hsplit _ _ Hi Hpi) as [->|]; [congruence|]. right. by exists i, pg'.
    + apply wp_modify. change (set_free _ s) with (with_free ({[Z.of_nat k]} ∪ free_pages_ s) s).
      eapply wp_mono; [apply Hgo|]. intros rc s' [-> (X & -> & HX)]. split; [done|].
      exists X. split; [done|]. intros p. rewrite HX, elem_of_union, elem_of_singleton. split.
      * intros [[->|?]|(i & pg' & -> & Hi & Hpi & Hfi)]; [|by left|].
        -- right. exists k, pg. split_and!; [done|lia|done|done].
        -- right. exists i, pg'. split_and!; [done|lia|done|done].
      * intros [?|(i & pg' & -> & Hi & Hpi & Hfi)]; [by left; right|].
        destruct (Hsplit _ _ Hi Hpi) as [->|]; [by left; left|]. right. by exists i, pg'.
Qed.

(** Opening a file whose pages are in order establishes the invariant. *)
Lemma wp_init_handler s :
  file_ok (size := size) s → opened s = false → free_pages_ s = ∅ →
  wp init_handler s (λ rc s', rc = RC.SUCCESS ∧ file_wf size s' ∧
    ∀ rid, file_lookup s' rid = file_lookup s rid).
Proof.
  intros Hok Hop Hfree. unfold init_handler. apply wp_bind, wp_get. rewrite Hop.
  apply wp_bind, wp_modify, wp_bind.
  set (s1 := FileState _ _ _ _). eapply wp_mono.
  { apply (wp_init_free_pages _ s1); [by destruct Hok|done| |cbn; lia].
    cbn. rewrite allocated_bit; apply Hok. }
  intros rc s' [-> (X & -> & HX)]. apply wp_ret. split; [done|]. split; [|done].
  cbn in HX. rewrite Hfree in HX. split; cbn; try apply Hok.
  - intros p [?%elem_of_empty|(i & pg & _ & _ & Hp & _)]%HX; [done|by eexists].
  - intros p pg Hp Hf. apply HX. right.
    destruct (proj1 (fo_pages _ Hok p)) as (i & -> & Hi & _); [by eexists|].
    exists i, pg. split_and!; [done|change (0 < i)%nat; lia|done|done].
Qed.
End init.

(** ** The records of a page and of a file, in order *)
Definition records_from (p : record_page) (pn : PageNum) (k n : nat) : list (RID.t * memory) :=
  omap (λ i, (λ d, (RID.mk pn (Z.of_nat i), d)) <$> page_lookup p i) (seq k n).
Lemma length_records_from p pn k n : (length (records_from p pn k n) <= n)%nat.
Proof.
  revert k. induction n as [|n IH]; intros k; [done|]. unfold records_from in *. cbn.
  specialize (IH (S k)). destruct (page_lookup p k); cbn; lia.
Qed.
Definition page_records (p : record_page) (pn : PageNum) : list (RID.t * memory) :=
  records_from p pn 0 (capacity p).
Definition pages_records (s : file_state) (i n : nat) : list (RID.t * memory) :=
  mjoin ((λ j, match record_pages s !! Z.of_nat j with
               | Some p => page_records p (Z.of_nat j)
               | None => []
               end) <$> seq i n).
Definition file_records (s : file_state) : list (RID.t * memory) :=
  pages_records s 0 (BPFileHeader.page_count (file_hdr s)).

Lemma elem_of_records_from p pn k n rid d :
  (rid, d) ∈ records_from p pn k n ↔
  ∃ i, rid = RID.mk pn (Z.of_nat i) ∧ (k <= i < k + n)%nat ∧ page_lookup p i = Some d.
Proof.
  unfold records_from. rewrite list_elem_of_omap. split.
  - intros (i & Hi%elem_of_seq & Hd). destruct (page_lookup p i) as [d'|] eqn:Hl; [|done].
    injection Hd as <- <-. by exists i.
  - intros (i & -> & Hi & Hl). exists i. rewrite Hl. split; [by apply elem_of_seq|done].
Qed.
(** [file_records] are the records of the file. *)
Lemma elem_of_file_records size s rid d :
  file_wf size s → (rid, d) ∈ file_records s ↔ file_lookup s rid = Some d.
Proof.
  intros Hwf. unfold file_records, pages_records. rewrite list_elem_of_join.
  setoid_rewrite list_elem_of_fmap. split.
  - intros (l & Hin & j & -> & Hj%elem_of_seq).
    destruct (record_pages s !! Z.of_nat j) as [p|] eqn:Hp; [|by apply elem_of_nil in Hin].
    apply elem_of_records_from in Hin as (i & -> & Hi & Hl). by rewrite file_lookup_page, Hp.
  - unfold file_lookup. case_decide as Hs; [|done]. destruct rid as [pn sn]. cbn in *.
    destruct (record_pages s !! pn) as [p|] eqn:Hp; [|done]. cbn. intros Hl.
    destruct (proj1 (fw_pages _ _ Hwf pn)) as (j & -> & Hj & Hal); [by eexists|].
    exists (page_records p (Z.of_nat j)). split.
    + apply elem_of_records_from. exists (Z.to_nat sn). rewrite Z2Nat.id by done. split_and!; [done|lia| |done].
      apply page_lookup_Some in Hl as [Hc _]. unfold capacity. lia.
    + exists j. rewrite Hp. split; [done|]. apply elem_of_seq.
      unfold allocated in Hal. apply andb_prop in Hal as [Hlt%bool_decide_eq_true_1 _]. lia.
Qed.

(** Every RID comes once. *)
Lemma records_from_nodup p pn k n : NoDup (records_from p pn k n).*1.
Proof.
  revert k. induction n as [|n IH]; intros k; [constructor|]. unfold records_from in *. cbn.
  destruct (page_lookup p k) as [d|]; [|apply IH]. cbn. constructor; [|apply IH].
  intros ([rid d'] & Heq & Hin)%list_elem_of_fmap. apply elem_of_records_from in Hin as (i & -> & Hi & _).
  injection Heq as Heq. lia.
Qed.
Lemma pages_records_nodup s i n : NoDup (pages_records s i n).*1.
Proof.
  revert i. induction n as [|n IH]; intros i; [constructor|]. unfold pages_records in *. cbn. rewrite fmap_app.
  apply NoDup_app. split; [destruct (record_pages s !! Z.of_nat i); [apply records_from_nodup|constructor]|].
  split; [|apply IH]. intros rid ([r1 d1] & -> & H1)%list_elem_of_fmap ([r2 d2] & Heq & H2)%list_elem_of_fmap. cbn in Heq. subst r2.
  apply list_elem_of_join in H2 as (l & Hl & (j & -> & Hj%elem_of_seq)%list_elem_of_fmap).
  destruct (record_pages s !! Z.of_nat i); [|by apply elem_of_nil in H1].
  destruct (record_pages s !! Z.of_nat j); [|by apply elem_of_nil in Hl].
  apply elem_of_records_from in H1 as (a & -> & _). apply elem_of_records_from in Hl as (b & Heq & _).
  injection Heq as Heq _. lia.
Qed.

(** ** The iterator of a page *)
Section page_scan.
Context {p : record_page} (Hwf : page_wf p) (pn : PageNum).

(** What is still to come. *)
Definition page_rest (it : RecordPageIterator) : list (RID.t * memory) :=
  if decide (next_slot_num it = -1) then []
  else records_from p pn (Z.to_nat (next_slot_num it)) (capacity p - Z.to_nat (next_slot_num it)).
Definition page_iter_ok (it : RecordPageIterator) : Prop :=
  iter_page_num it = pn ∧ iter_capacity it = record_capacity (page_header p) ∧
  (next_slot_num it = -1 ∨ ∃ k, next_slot_num it = Z.of_nat k ∧ is_Some (page_lookup p k)).

Lemma records_from_skip k n m :
  (∀ j, (k <= j < k + n)%nat → page_lookup p j = None) →
  records_from p pn k (n + m) = records_from p pn (k + n) m.
Proof.
  intros Hno. unfold records_from. rewrite seq_app, omap_app.
  assert (omap (λ i, (λ d, (RID.mk pn (Z.of_nat i), d)) <$> page_lookup p i) (seq k n) = []) as ->; [|done].
  revert k Hno. induction n as [|n IH]; intros k Hno; [done|]. cbn. rewrite Hno by lia. cbn.
  apply IH. intros j Hj. apply Hno. lia.
Qed.
Lemma page_lookup_bit j :
  (j < capacity p)%nat → Bitmap.bit (slot_bitmap p) j ≠ true → page_lookup p j = None.
Proof.
  intros Hj Hb. destruct (page_lookup p j) eqn:Hl; [|done].
  by apply page_lookup_Some in Hl as (_ & ? & _).
Qed.

(** The search for the next slot in use, from [k] on. *)
Lemma next_slot_spec k r :
  Bitmap.first_bit true (Bitmap.bit (slot_bitmap p)) (capacity p) k r → (k <= capacity p)%nat →
  let it := MkPageIterator pn (record_capacity (page_header p)) r in
  page_iter_ok it ∧ page_rest it = records_from p pn k (capacity p - k).
Proof.
  intros Hfirst Hk. destruct Hfirst as [[-> Hno]|(i & -> & Hi & Hb & Hno)]; cbn.
  - split; [split_and!; [done|done|by left]|]. unfold page_rest. cbn.
    replace (capacity p - k)%nat with (capacity p - k + 0)%nat by lia.
    rewrite records_from_skip; [done|]. intros j Hj. apply page_lookup_bit; [lia|]. apply Hno. lia.
  - split.
    + split_and!; [done|done|]. right. exists i. split; [done|]. apply (page_lookup_in Hwf); [|done].
      unfold capacity in *. lia.
    + unfold page_rest. cbn. rewrite decide_False, Nat2Z.id by lia.
      replace (capacity p - k)%nat with ((i - k) + (capacity p - i))%nat by lia.
      rewrite records_from_skip; [by replace (k + (i - k))%nat with i by lia|].
      intros j Hj. apply page_lookup_bit; [lia|]. apply Hno. lia.
Qed.

Lemma page_iterator_init_spec :
  ∃ it, page_iterator_init pn p 0 = Some it ∧ page_iter_ok it ∧ page_rest it = page_records p pn.
Proof.
  destruct (bitmap_covers Hwf) as [_ Hb].
  destruct (Bitmap.next_bit_spec true (slot_bitmap p) (capacity p) 0 (pw_bytes _ Hwf) Hb)
    as (r & Hr & Hfirst); [by left|].
  unfold page_iterator_init.
  assert (page_iterator_next_bit p (record_capacity (page_header p)) 0 = Some r) as -> by exact Hr.
  eexists. split; [done|].
  destruct (next_slot_spec 0 r Hfirst ltac:(lia)) as [Hok Hrest]. split; [done|].
  by rewrite Hrest, Nat.sub_0_r.
Qed.

Lemma page_iterator_next_spec it k :
  page_iter_ok it → next_slot_num it = Z.of_nat k →
  ∃ it' d, page_iterator_next p it = Some ((RC.SUCCESS, RID.mk pn (Z.of_nat k)), it') ∧
    get_record_data p (Z.of_nat k) = Some d ∧ page_iter_ok it' ∧
    page_rest it = (RID.mk pn (Z.of_nat k), d) :: page_rest it'.
Proof.
  intros (Hpn & Hcap & [Hno|(k' & Hk' & [d Hd])]) Hk; [lia|].
  assert (k' = k) as -> by lia. clear Hk'.
  pose proof Hd as (Hi & Hbit & Hcell)%page_lookup_Some. pose proof (pw_capacity _ Hwf).
  destruct (bitmap_covers Hwf) as [_ Hb].
  destruct (Bitmap.next_setted_after (slot_bitmap p) (capacity p) k (pw_bytes _ Hwf) Hb Hbit)
    as (r & Hr & Hfirst); [unfold capacity; lia|].
  destruct (next_slot_spec (S k) r Hfirst) as [Hok Hrest]; [unfold capacity; lia|].
  exists (MkPageIterator pn (record_capacity (page_header p)) r), d. split_and!; [| |done|].
  - unfold page_iterator_next. rewrite Hk, Hpn, Hcap. rewrite decide_True by lia.
    assert (page_iterator_next_bit p (record_capacity (page_header p)) (Z.of_nat k + 1) = Some r) as ->.
    { unfold page_iterator_next_bit, slot_index. rewrite decide_True by lia.
      replace (Z.to_nat (Z.of_nat k + 1)) with (S k) by lia. exact Hr. }
    cbn. rewrite decide_True by lia. done.
  - unfold get_record_data, slot_index. rewrite decide_True by lia. cbn. by rewrite Nat2Z.id.
  - rewrite Hrest. unfold page_rest. rewrite Hk, decide_False, Nat2Z.id by lia.
    replace (capacity p - k)%nat with (S (capacity p - S k)) by (unfold capacity; lia).
    unfold records_from. cbn. by rewrite Hd.
Qed.
End page_scan.

(** ** The scan *)
Section scan.
Context (filter : option (RID.t → memory → bool)) (visit : option (RID.t → memory → bool → RC.t))
  (readonly_ : bool) (s : file_state) {size : Z} (Hwf : file_wf size s)
  (Hbytes : Forall Bitmap.byte_ok (BPFileHeader.bitmap (file_hdr s))).

(** What the transaction says of a record, and whether the scan returns it. *)
Definition verdict (r : RID.t * memory) : RC.t :=
  match visit with Some v => v r.1 r.2 readonly_ | None => RC.SUCCESS end.
Definition scan_keeps (r : RID.t * memory) : bool :=
  match filter with Some f => f r.1 r.2 | None => true end &&
  negb (bool_decide (verdict r = RC.RECORD_INVISIBLE)).
Context (Hverdict : ∀ r, verdict r ≠ RC.RECORD_EOF).

Fixpoint seek (l : list (RID.t * memory)) : option ((RID.t * memory) * list (RID.t * memory)) :=
  match l with
  | [] => None
  | r :: l => if scan_keeps r then Some (r, l) else seek l
  end.
Lemma seek_app l1 l2 :
  seek (l1 ++ l2) = match seek l1 with Some (r, l) => Some (r, l ++ l2) | None => seek l2 end.
Proof. induction l1 as [|r l1 IH]; [done|]. cbn. by destruct (scan_keeps r). Qed.
Lemma seek_filter l :
  match seek l with
  | Some (r, l') => base.filter (λ r, scan_keeps r = true) l =
      r :: base.filter (λ r, scan_keeps r = true) l' ∧ (length l' < length l)%nat
  | None => base.filter (λ r, scan_keeps r = true) l = []
  end.
Proof.
  induction l as [|r l IH]; [done|]. cbn [seek]. rewrite filter_cons.
  destruct (scan_keeps r) eqn:Hk.
  - rewrite decide_True by done. cbn. split; [done|lia].
  - rewrite decide_False by done. destruct (seek l) as [[r' l']|]; [|done]. cbn.
    destruct IH. split; [done|lia].
Qed.

(** The scanner stands on a page, or before the first one. *)
Definition scan_at (sc : RecordFileScanner) (l : list (RID.t * memory)) : Prop :=
  bitmap_size (bp_iterator_ sc) = BPFileHeader.page_count (file_hdr s) ∧
  allocated (file_hdr s) (current_page_num_ (bp_iterator_ sc)) = true ∧
  match record_page_iterator_ sc with
  | None => l = []
  | Some it => ∃ p, record_pages s !! iter_page_num it = Some p ∧
      page_iter_ok (p := p) (iter_page_num it) it ∧ page_rest (p := p) (iter_page_num it) it = l
  end.
(** The record that was fetched. *)
Definition fetched (o : option ((RID.t * memory) * list (RID.t * memory))) (rc : RC.t)
  (sc : RecordFileScanner) (rest : list (RID.t * memory)) : Prop :=
  match o with
  | None => rc = RC.RECORD_EOF ∧ RID.slot_num (next_record_ sc).1 = -1 ∧ rest = []
  | Some (r, l) => rc = verdict r ∧ next_record_ sc = r ∧ rest = l ∧ 0 <= RID.slot_num r.1
  end.

Lemma wp_fetch_in_page n p it sc (l : list (RID.t * memory)) :
  record_page_iterator_ sc = Some it → record_pages s !! iter_page_num it = Some p →
  scan_at sc l → (length l < n)%nat →
  wp (fetch_next_record_in_page filter visit readonly_ p n) sc (λ rc sc',
    bp_iterator_ sc' = bp_iterator_ sc ∧ ∃ l', scan_at sc' l' ∧ fetched (seek l) rc sc' l').
Proof.
  revert it sc l. induction n as [|n IH]; intros it sc l Hit Hp (Hsz & Hcur & Hat) Hn; [lia|].
  rewrite Hit in Hat. destruct Hat as (p' & Hp' & Hok & Hrest). rewrite Hp in Hp'. injection Hp' as <-.
  destruct (fw_page _ _ Hwf _ _ Hp) as [Hpwf _].
  cbn [fetch_next_record_in_page]. apply wp_bind, wp_get, wp_bind. eapply wp_some; [exact Hit|].
  unfold page_iterator_has_next. destruct (proj2 (proj2 Hok)) as [Hno|(k & Hk & _)].
  - rewrite bool_decide_eq_false_2 by lia. apply wp_bind, wp_modify, wp_ret. split; [done|].
    exists []. rewrite <-Hrest. unfold page_rest. rewrite decide_True by done. split; [|done].
    split_and!; [done|done|]. cbn. rewrite Hit. exists p. split_and!; [done|by split_and!; [| |left]; apply Hok || done|].
    unfold page_rest. by rewrite decide_True.
  - rewrite bool_decide_eq_true_2 by lia.
    destruct (page_iterator_next_spec Hpwf _ it k Hok Hk) as (it' & d & Hnext & Hd & Hok' & Hrest').
    apply wp_bind. eapply wp_some; [exact Hnext|]. cbn [fst snd]. apply wp_bind, wp_modify.
    change (RC.succ RC.SUCCESS) with true. cbn [negb].
    apply wp_bind. eapply wp_some; [exact Hd|]. apply wp_bind, wp_modify.
    set (r := (RID.mk (iter_page_num it) (Z.of_nat k), d)) in *.
    set (sc1 := set_next_record r (set_page_iterator it' sc)).
    rewrite <-Hrest, Hrest' in *. cbn [seek length] in *.
    assert (iter_page_num it' = iter_page_num it) as Hpn by apply Hok'.
    assert (scan_at sc1 (page_rest (p := p) (iter_page_num it) it')) as Hat1.
    { split_and!; [done|done|]. cbn. exists p. by rewrite Hpn. }
    assert (wp (fetch_next_record_in_page filter visit readonly_ p n) sc1 (λ rc sc',
      bp_iterator_ sc' = bp_iterator_ sc1 ∧ ∃ l', scan_at sc' l' ∧
        fetched (seek (page_rest (p := p) (iter_page_num it) it')) rc sc' l')) as Hloop.
    { apply (IH it'); [done|by rewrite Hpn|done|lia]. }
    unfold scan_keeps, verdict. fold r. change (RID.mk (iter_page_num it) (Z.of_nat k)) with r.1.
    change d with r.2. destruct (match filter with Some f => f r.1 r.2 | None => true end); cbn [negb andb];
      [|exact Hloop].
    assert (0 <= RID.slot_num r.1) as Hpos by (cbn; lia).
    destruct visit as [v|] eqn:Hv.
    + destruct (decide (v r.1 r.2 readonly_ = RC.RECORD_INVISIBLE)) as [Hinv|Hinv].
      * rewrite bool_decide_eq_true_2 by done. cbn [negb]. exact Hloop.
      * rewrite bool_decide_eq_false_2 by done. cbn [negb]. apply wp_ret. split; [done|].
        eexists. split; [exact Hat1|]. unfold fetched, verdict. by rewrite Hv.
    + rewrite bool_decide_eq_false_2 by done. cbn [negb]. apply wp_ret. split; [done|].
      eexists. split; [exact Hat1|]. unfold fetched, verdict. by rewrite Hv.
Qed.

(** The pages after the one the scanner stands on. *)
Definition later (c : nat) : list (RID.t * memory) :=
  pages_records s (S c) (BPFileHeader.page_count (file_hdr s) - S c).
Lemma pages_records_skip i n m :
  (∀ j, (i <= j < i + n)%nat → record_pages s !! Z.of_nat j = None) →
  pages_records s i (n + m) = pages_records s (i + n) m.
Proof.
  intros Hno. unfold pages_records. rewrite seq_app, fmap_app, join_app.
  match goal with |- ?l ++ _ = _ => assert (l = []) as -> end; [|done].
  revert i Hno. induction n as [|n IH]; intros i Hno; [done|]. cbn. rewrite Hno by lia. cbn.
  apply IH. intros j Hj. apply Hno. lia.
Qed.
Lemma page_absent j : allocated (file_hdr s) j = false → record_pages s !! Z.of_nat j = None.
Proof.
  intros Hj. destruct (record_pages s !! Z.of_nat j) eqn:Hp; [|done].
  destruct (proj1 (fw_pages _ _ Hwf (Z.of_nat j))) as (i & ->%Nat2Z.inj & _ & Hi); [by eexists|congruence].
Qed.
Lemma later_none c :
  (∀ j, (c < j)%nat → allocated (file_hdr s) j = false) → later c = [].
Proof.
  intros Hno. unfold later. set (n := (BPFileHeader.page_count (file_hdr s) - S c)%nat).
  replace n with (n + 0)%nat by lia. rewrite pages_records_skip; [done|].
  intros j Hj. apply page_absent, Hno. lia.
Qed.
Lemma later_next c k p :
  (c < k < BPFileHeader.page_count (file_hdr s))%nat → record_pages s !! Z.of_nat k = Some p →
  (∀ j, (c < j < k)%nat → allocated (file_hdr s) j = false) →
  later c = page_records p (Z.of_nat k) ++ later k.
Proof.
  intros Hk Hp Hno. unfold later at 1.
  replace (BPFileHeader.page_count (file_hdr s) - S c)%nat
    with ((k - S c) + S (BPFileHeader.page_count (file_hdr s) - S k))%nat by lia.
  rewrite pages_records_skip by (intros j Hj; apply page_absent, Hno; lia).
  replace (S c + (k - S c))%nat with k by lia. unfold pages_records at 1. cbn. by rewrite Hp.
Qed.

(** The state of the scan: the records that have not been fetched yet. *)
Definition scanning (sc : RecordFileScanner) (rest : list (RID.t * memory)) : Prop :=
  ∃ l, scan_at sc l ∧ rest = l ++ later (current_page_num_ (bp_iterator_ sc)).

Lemma file_wf_ok : file_ok (size := size) s.
Proof. split; [apply Hwf|done|apply Hwf|apply Hwf]. Qed.

Lemma wp_next_pages n sc l :
  scan_at sc l → (BPFileHeader.page_count (file_hdr s) - current_page_num_ (bp_iterator_ sc) < n)%nat →
  (∀ it, record_page_iterator_ sc = Some it → l = []) →
  wp (next_pages filter visit readonly_ s n) sc (λ rc sc', ∃ rest, scanning sc' rest ∧
    fetched (seek (later (current_page_num_ (bp_iterator_ sc)))) rc sc' rest).
Proof.
  revert sc l. induction n as [|n IH]; intros sc l Hat Hn Hend; [lia|].
  pose proof Hat as (Hsz & Hcur & Hit). cbn [next_pages]. apply wp_bind, wp_get, wp_bind.
  destruct (bp_iterator_spec s (bp_iterator_ sc) file_wf_ok Hsz Hcur)
    as [[Hhas Hno]|(k & Hhas & Hnext & Hk & Hka & Hbetween)]; (eapply wp_some; [exact Hhas|]).
  - rewrite (later_none _ Hno). apply wp_bind, wp_modify, wp_ret. exists []. split; [|done].
    exists l. split; [by destruct sc|]. cbn. rewrite (later_none _ Hno), app_nil_r.
    destruct (record_page_iterator_ sc) as [it|] eqn:Hi; [by rewrite (Hend it)|done].
  - apply wp_bind. eapply wp_some; [exact Hnext|]. cbn [fst snd]. apply wp_bind, wp_modify.
    destruct (proj2 (fw_pages _ _ Hwf (Z.of_nat k))) as [p Hp]; [exists k; split_and!; [done|lia|done]|].
    destruct (fw_page _ _ Hwf _ _ Hp) as [Hpwf _].
    rewrite (later_next _ k p) by (done || lia).
    apply wp_bind, wp_assert. { apply bool_decide_eq_true_2. unfold BP_HEADER_PAGE. lia. }
    rewrite Hp. destruct (page_iterator_init_spec Hpwf (Z.of_nat k)) as (it & Hinit & Hok & Hrest).
    apply wp_bind. eapply wp_some; [exact Hinit|]. apply wp_bind, wp_modify.
    set (sc1 := set_page_iterator _ _).
    assert (iter_page_num it = Z.of_nat k) as Hpn by apply Hok.
    assert (scan_at sc1 (page_records p (Z.of_nat k))) as Hat1.
    { split_and!; [done|done|]. cbn. exists p. by rewrite Hpn. }
    assert (length (page_records p (Z.of_nat k)) < page_fuel p)%nat as Hlen.
    { apply le_n_S, length_records_from. }
    apply wp_bind. eapply wp_mono; [eapply wp_fetch_in_page; [done|by rewrite Hpn|exact Hat1|exact Hlen]|].
    intros rc sc2 (Hbp & l2 & Hat2 & Hf). rewrite seek_app.
    destruct (seek (page_records p (Z.of_nat k))) as [[r l']|].
    + destruct Hf as (-> & Hnr & -> & Hpos). rewrite decide_True by apply Hverdict. apply wp_ret.
      exists (l' ++ later k). split; [|done]. exists l'. split; [done|]. by rewrite Hbp.
    + destruct Hf as (-> & Hslot & ->). rewrite decide_False by naive_solver.
      eapply wp_mono; [eapply (IH sc2 []); [done|rewrite Hbp; cbn; lia|done]|].
      intros rc sc' Hpost. rewrite Hbp in Hpost. exact Hpost.
Qed.

Lemma wp_fetch_next_record sc rest :
  scanning sc rest →
  wp (fetch_next_record filter visit readonly_ s) sc (λ rc sc', ∃ rest', scanning sc' rest' ∧
    fetched (seek rest) rc sc' rest').
Proof.
  intros (l & Hat & ->). pose proof Hat as (Hsz & Hcur & Hit). unfold fetch_next_record.
  apply wp_bind, wp_get. rewrite seek_app.
  destruct (record_page_iterator_ sc) as [it|] eqn:Hi.
  - destruct Hit as (p & Hp & Hok & Hrest). apply wp_bind, wp_bind.
    eapply wp_some; [exact Hp|].
    assert (length l < page_fuel p)%nat as Hlen.
    { rewrite <-Hrest. unfold page_fuel, page_rest. fold (capacity p). case_decide; [cbn; lia|].
      apply le_n_S. etrans; [apply length_records_from|lia]. }
    eapply wp_mono; [by eapply wp_fetch_in_page|]. intros rc sc2 (Hbp & l2 & Hat2 & Hf).
    destruct (seek l) as [[r l']|].
    + destruct Hf as (-> & Hnr & -> & Hpos). rewrite decide_True by apply Hverdict. apply wp_ret.
      exists (l' ++ later (current_page_num_ (bp_iterator_ sc))). split; [|done].
      exists l'. by rewrite Hbp.
    + destruct Hf as (-> & Hslot & ->). rewrite decide_False by naive_solver.
      eapply wp_mono; [eapply (wp_next_pages _ sc2 []); [done|rewrite Hbp, Hsz; lia|done]|].
      intros rc sc' Hpost. rewrite Hbp in Hpost. exact Hpost.
  - apply wp_bind, wp_ret. rewrite decide_False by naive_solver. subst l. cbn [seek].
    eapply wp_next_pages; [exact Hat|rewrite Hsz; lia|]. intros it. by rewrite Hi.
Qed.

(** What a scan over the visible records [K] gives: [next] fetches the record after the
    one it returns, and gives up both when the transaction refuses it. *)
Fixpoint scan_result (K : list (RID.t * memory)) : RC.t * list (RID.t * memory) :=
  match K with
  | [] => (RC.SUCCESS, [])
  | r :: K =>
      match K with
      | [] => (RC.SUCCESS, [r])
      | r2 :: _ =>
          if decide (verdict r2 = RC.SUCCESS)
          then ((scan_result K).1, r :: (scan_result K).2) else (verdict r2, [])
      end
  end.
Definition scan_outcome (K : list (RID.t * memory)) : RC.t * list (RID.t * memory) :=
  match K with
  | [] => (RC.SUCCESS, [])
  | r :: _ => if decide (verdict r = RC.SUCCESS) then scan_result K else (verdict r, [])
  end.
Lemma scan_result_cons r r2 K :
  scan_result (r :: r2 :: K) = if decide (verdict r2 = RC.SUCCESS)
    then ((scan_result (r2 :: K)).1, r :: (scan_result (r2 :: K)).2) else (verdict r2, []).
Proof. done. Qed.
Lemma scan_outcome_all K :
  (∀ r, r ∈ K → verdict r = RC.SUCCESS) → scan_outcome K = (RC.SUCCESS, K).
Proof.
  intros Hall. destruct K as [|r K]; [done|]. unfold scan_outcome. rewrite decide_True by (apply Hall; by left).
  revert r Hall. induction K as [|r2 K IH]; intros r Hall; [done|].
  rewrite scan_result_cons, decide_True by (apply Hall; right; by left).
  rewrite IH; [done|]. intros r' Hr'. apply Hall. by right.
Qed.

(** A scan that gives a record up ends with what the transaction says of it. *)
Lemma scan_outcome_refused K :
  (∃ r, r ∈ K ∧ verdict r ≠ RC.SUCCESS) →
  (∃ r, r ∈ K ∧ (scan_outcome K).1 = verdict r ∧ verdict r ≠ RC.SUCCESS) ∧
  (scan_outcome K).2 `prefix_of` K ∧ ∀ r, r ∈ (scan_outcome K).2 → verdict r = RC.SUCCESS.
Proof.
  intros (r0 & Hin & Hr0). destruct K as [|r K]; [by apply elem_of_nil in Hin|]. cbn [scan_outcome].
  case_decide as Hr.
  2:{ split; [exists r; split; [left|done]|]. split; [apply prefix_nil|]. by intros ? ?%elem_of_nil. }
  apply elem_of_cons in Hin as [->|Hin]; [done|]. revert r Hr Hin. induction K as [|r2 K IH]; intros r Hr Hin; [by apply elem_of_nil in Hin|].
  rewrite scan_result_cons. case_decide as Hr2.
  2:{ split; [exists r2; split; [right; left|done]|]. split; [apply prefix_nil|]. by intros ? ?%elem_of_nil. }
  apply elem_of_cons in Hin as [->|Hin]; [done|].
  destruct (IH r2 Hr2 Hin) as ((x & Hx & Hv & Hne) & Hp & Hall). cbn [fst snd].
  split; [exists x; split; [by right|done]|]. split; [by apply prefix_cons|].
  intros r' [->|Hr']%elem_of_cons; [done|by apply Hall].
Qed.

(** The scanner holds the first record of [K], and the rest is still to be fetched. *)
Definition holding (sc : RecordFileScanner) (K : list (RID.t * memory)) : Prop :=
  ∃ rest, scanning sc rest ∧
  match K with
  | [] => RID.slot_num (next_record_ sc).1 = -1 ∧ rest = []
  | r :: K' => next_record_ sc = r ∧ verdict r = RC.SUCCESS ∧ 0 <= RID.slot_num r.1 ∧
      K' = base.filter (λ r, scan_keeps r = true) rest
  end.

Lemma fetched_holding rest rc sc rest' :
  fetched (seek rest) rc sc rest' → scanning sc rest' →
  match base.filter (λ r, scan_keeps r = true) rest with
  | [] => rc = RC.RECORD_EOF ∧ holding sc []
  | r :: K => rc = verdict r ∧ (verdict r = RC.SUCCESS → holding sc (r :: K))
  end.
Proof.
  intros Hf Hsc. pose proof (seek_filter rest) as Hs. destruct (seek rest) as [[r l]|].
  - destruct Hf as (-> & Hnr & -> & Hpos). destruct Hs as [-> _]. split; [done|].
    intros Hv. exists l. by split_and!.
  - destruct Hf as (-> & Hslot & ->). rewrite Hs. split; [done|]. by exists [].
Qed.

Lemma wp_scan_loop n sc K :
  holding sc K → (length K < n)%nat →
  wp (scan_loop filter visit readonly_ s n) sc (λ r _, r = scan_result K).
Proof.
  revert sc K. induction n as [|n IH]; intros sc K (rest & Hsc & HK) Hn; [lia|].
  cbn [scan_loop]. apply wp_bind, wp_get. unfold has_next. destruct K as [|r K].
  { destruct HK as [HK _]. rewrite bool_decide_eq_false_2 by lia. by apply wp_ret. }
  destruct HK as (Hnr & Hv & Hpos & HK). rewrite Hnr, bool_decide_eq_true_2 by lia.
  apply wp_bind. unfold scanner_next. apply wp_bind, wp_get, wp_bind.
  eapply wp_mono; [by apply wp_fetch_next_record|]. intros rc sc' (rest' & Hsc' & Hf).
  pose proof (fetched_holding _ _ _ _ Hf Hsc') as Hh. rewrite <-HK in Hh. apply wp_ret. cbn [fst snd].
  rewrite Hnr. cbn [length] in Hn. destruct K as [|r2 K].
  - destruct Hh as [-> Hh]. rewrite decide_True by done.
    change (RC.succ RC.SUCCESS) with true. cbn [negb].
    apply wp_bind. eapply wp_mono; [apply (IH sc' []); [done|cbn [length] in *; lia]|]. intros x sc2 ->. by apply wp_ret.
  - destruct Hh as [-> Hh]. rewrite decide_False by apply Hverdict. rewrite scan_result_cons.
    destruct (decide (verdict r2 = RC.SUCCESS)) as [Hv2|Hv2].
    + rewrite Hv2. change (RC.succ RC.SUCCESS) with true. cbn [negb].
      apply wp_bind. eapply wp_mono; [apply (IH sc' (r2 :: K)); [by apply Hh|cbn [length] in *; lia]|].
      intros x sc2 ->. by apply wp_ret.
    + unfold RC.succ. rewrite bool_decide_eq_false_2 by done. cbn [negb]. by apply wp_ret.
Qed.

(** Before the first fetch: there is no page, or its slots have all been seen. *)
Definition idle (sc : RecordFileScanner) : Prop :=
  match record_page_iterator_ sc with
  | None => True
  | Some it => ∃ p, record_pages s !! iter_page_num it = Some p ∧
      page_iter_ok (p := p) (iter_page_num it) it ∧ next_slot_num it = -1
  end.
Lemma scanning_start sc :
  bp_iterator_ sc = bp_iterator_init (file_hdr s) 0 → idle sc → scanning sc (file_records s).
Proof.
  intros Hbp Hidle. exists []. pose proof (hw_count _ (fw_hdr _ _ Hwf)) as [Hc _]. unfold scan_at. rewrite Hbp. split.
  - split_and!; [done| |].
    + cbn. rewrite allocated_bit by apply Hwf. apply (hw_first _ (fw_hdr _ _ Hwf)).
    + unfold idle in Hidle. destruct (record_page_iterator_ sc) as [it|]; [|done].
      destruct Hidle as (p & Hp & Hok & Hno). exists p. split; [done|split; [done|]]. unfold page_rest. by rewrite decide_True.
  - change (file_records s = later 0). unfold file_records, later.
    destruct (BPFileHeader.page_count (file_hdr s)) as [|pc]; [lia|].
    replace (S pc - 1)%nat with pc by lia.
    change (S pc) with (1 + pc)%nat. apply (pages_records_skip 0 1 pc).
    intros j Hj. destruct (record_pages s !! Z.of_nat j) eqn:Hp; [|done].
    destruct (page_not_header _ _ _ _ Hwf Hp). lia.
Qed.
(** At the end of a scan the scanner is idle again. *)
Lemma holding_end sc : holding sc [] → has_next sc = false ∧ idle sc.
Proof.
  intros (rest & (l & (_ & _ & Hat) & Hl) & Hslot & ->). split.
  - unfold has_next. rewrite Hslot. apply bool_decide_eq_false_2. intros Hne. by apply Hne.
  - symmetry in Hl. apply app_eq_nil in Hl as [-> _]. unfold idle.
    destruct (record_page_iterator_ sc) as [it|]; [|done]. destruct Hat as (p & Hp & Hok & Hrest).
    exists p. split; [done|split; [done|]]. destruct Hok as (Hpn & Hcap & [Hno|(k & Hk & Hsome)]); [done|].
    destruct (page_iterator_next_spec (proj1 (fw_page _ _ Hwf _ _ Hp)) (iter_page_num it) it k) as (it' & d & _ & _ & _ & Hcons);
      [split; [done|split; [done|right; by exists k]]|done|congruence].
Qed.
(** A fetch brings the scanner to the next record to be seen, if the transaction allows
    it. *)
Lemma fetch_holding sc rest :
  scanning sc rest → (∀ r, scan_keeps r = true → verdict r = RC.SUCCESS) →
  ∃ sc', let K := base.filter (λ r, scan_keeps r = true) rest in
    fetch_next_record filter visit readonly_ s sc =
      Done (match K with [] => RC.RECORD_EOF | _ => RC.SUCCESS end, sc') ∧ holding sc' K.
Proof.
  intros Hsc Hv. destruct (wp_fetch_next_record sc rest Hsc) as (rc & sc' & Hrun & rest' & Hsc' & Hf).
  exists sc'. pose proof (fetched_holding _ _ _ _ Hf Hsc') as Hh. cbn. destruct (base.filter _ rest) as [|r K] eqn:HK.
  - destruct Hh as [-> Hh]. done.
  - destruct Hh as [-> Hh]. assert (verdict r = RC.SUCCESS) as Hr.
    { apply Hv. assert (r ∈ base.filter (λ r, scan_keeps r = true) rest) as Hin by (rewrite HK; left).
      by apply list_elem_of_filter in Hin as [? _]. }
    rewrite Hr in Hrun. split; [done|by apply Hh].
Qed.

Lemma scan_file_outcome fuel :
  (length (file_records s) < fuel)%nat →
  scan_file filter visit readonly_ s fuel =
  Done (scan_outcome (base.filter (λ r, scan_keeps r = true) (file_records s))).
Proof.
  intros Hfuel. set (K := base.filter _ _).
  assert (length K < fuel)%nat as HK.
  { eapply Nat.le_lt_trans; [|exact Hfuel]. apply length_filter. }
  unfold scan_file, open_scan. set (sc0 := Scanner _ _ _).
  assert (scanning sc0 (file_records s)) as Hsc0 by (by apply scanning_start).
  destruct (wp_fetch_next_record sc0 _ Hsc0) as (rc & sc & Hrun & rest & Hsc & Hf).
  rewrite Hrun. pose proof (fetched_holding _ _ _ _ Hf Hsc) as Hh. fold K in Hh.
  destruct K as [|r K'].
  - destruct Hh as [-> Hh]. rewrite decide_True by done. change (RC.succ RC.SUCCESS) with true.
    destruct (wp_scan_loop fuel sc [] Hh HK) as (x & sc2 & -> & ->). done.
  - destruct Hh as [-> Hh]. rewrite decide_False by apply Hverdict. unfold scan_outcome.
    destruct (decide (verdict r = RC.SUCCESS)) as [Hv|Hv].
    + rewrite Hv. change (RC.succ RC.SUCCESS) with true.
      destruct (wp_scan_loop fuel sc (r :: K') (Hh Hv) HK) as (x & sc2 & -> & ->). done.
    + unfold RC.succ. by rewrite bool_decide_eq_false_2.
Qed.
End scan.
