(* ===== verification/RecordTheorems.v ===== *)
(** * Theorems about record files

    The layout of a record page, record files as maps from RIDs to records, scans. *)
From S2P Require Import Prelude RidKey Comparator Bitmap LruCache BufferPool BufferPoolHeader.
From S2P Require Import RecordPage RecordPageCorrect RecordFile RecordFileCorrect.
From Stdlib Require Import ZArith Lia.
From stdpp Require Import base option gmap sets list.
Local Open Scope Z_scope.
#[local] Opaque Nat.div Nat.modulo.

(** [init_empty_page] lays a page out for records of any size below 2^20: the bitmap
    covers the slots and ends before the first record, the records are aligned, large
    enough and inside the page, the loop of [fix_record_capacity] runs at most once, and
    the page is empty. *)
Theorem record_page_layout fuel size area :
  0 < size < 2 ^ 20 → (1 <= fuel)%nat → (∀ i, size <= Z.of_nat (length (area i))) →
  ∃ p, init_empty_page fuel size area = Done p ∧ page_wf p ∧ layout_ok size (page_header p) ∧
    real_size p = Z.to_nat size ∧ ∀ i, page_lookup p i = None.
Proof. apply init_empty_page_ok. Qed.

Lemma record_page_layout_witness :
  ∃ p, init_empty_page 1 100000 (λ _, replicate (Z.to_nat 100000) 7) = Done p ∧ page_wf p ∧
    layout_ok 100000 (page_header p) ∧ real_size p = Z.to_nat 100000 ∧ ∀ i, page_lookup p i = None.
Proof.
  apply record_page_layout; [done|lia|]. intros i. rewrite length_replicate. lia.
Defined.

(** C22: [insert_record] puts the record under a RID that was not in use, whatever the
    order in which [free_pages_] is visited, and leaves all the other records; it fails
    only when every record page is full and the file cannot grow. *)
Theorem record_insert_correct begin flush_page area size fuel s data :
  (∀ X, X ≠ ∅ → begin X ∈ X) → (∀ p, flush_page p = RC.SUCCESS) →
  (∀ p i, size <= Z.of_nat (length (area p i))) → 0 < size < 2 ^ 20 → (1 <= fuel)%nat →
  (∀ h, init_header fuel size = Some h → 0 < record_capacity h) →
  file_wf size s → (Z.to_nat size <= length data)%nat →
  wp (RecordFile.insert_record begin flush_page area fuel data size) s (λ r s',
    match r with
    | inr rid => file_lookup s rid = None ∧ 0 < RID.page_num rid ∧ 0 <= RID.slot_num rid ∧
        file_step size s rid (Some (take (Z.to_nat size) data)) s'
    | inl rc => rc = RC.BUFFERPOOL_NOBUF ∧ same_file s s' ∧ file_wf size s' ∧
        ∀ p pg, record_pages s !! p = Some pg → RecordPageHandler.is_full pg = true
    end).
Proof. intros. by apply RecordFileCorrect.wp_insert_record. Qed.

(** A file that has only its header page. *)
Lemma empty_file_wf size : file_wf size (FileState BPFileHeader.initial ∅ ∅ true).
Proof.
  split; cbn [file_hdr record_pages free_pages_].
  - apply initial_wf.
  - intros p. rewrite lookup_empty. split; [by intros []|]. intros (i & -> & Hi & Hal).
    unfold allocated in Hal. apply andb_prop in Hal as [Hlt%bool_decide_eq_true_1 _].
    cbn [BPFileHeader.page_count BPFileHeader.initial] in Hlt. lia.
  - intros p pg. by rewrite lookup_empty.
  - set_solver.
  - intros p pg. by rewrite lookup_empty.
Qed.
Definition first_element (X : gset PageNum) : PageNum := default 0 (head (elements X)).
Lemma first_element_in X : X ≠ ∅ → first_element X ∈ X.
Proof.
  intros Hne. unfold first_element. destruct (elements X) as [|x l] eqn:He.
  - by apply elements_empty_inv, leibniz_equiv in He.
  - apply elem_of_elements. rewrite He. by left.
Qed.

Lemma record_insert_correct_witness : let s := FileState BPFileHeader.initial ∅ ∅ true in
  wp (RecordFile.insert_record first_element (λ _, RC.SUCCESS) (λ _ _, [0; 0; 0; 0]) 1 [1; 2; 3; 4] 4) s
    (λ r s', match r with
    | inr rid => file_lookup s rid = None ∧ 0 < RID.page_num rid ∧ 0 <= RID.slot_num rid ∧
        file_step 4 s rid (Some [1; 2; 3; 4]) s'
    | inl rc => rc = RC.BUFFERPOOL_NOBUF ∧ same_file s s' ∧ file_wf 4 s' ∧
        ∀ p pg, record_pages s !! p = Some pg → RecordPageHandler.is_full pg = true
    end).
Proof.
  cbv zeta. eapply (record_insert_correct first_element (λ _, RC.SUCCESS) (λ _ _, [0; 0; 0; 0]) 4 1
    (FileState BPFileHeader.initial ∅ ∅ true) [1; 2; 3; 4]).
  - apply first_element_in.
  - done.
  - done.
  - done.
  - lia.
  - intros h [= <-]. done.
  - apply empty_file_wf.
  - done.
Defined.

(** C23: [get_record], [update_record] and [delete_record] read, replace and remove
    exactly the record of the RID; when there is none they return an error and change
    nothing. *)
Theorem record_access_correct size s rid data :
  file_wf size s → 0 <= RID.slot_num rid → RID.page_num rid ≠ BP_HEADER_PAGE →
  (Z.to_nat size <= length data)%nat →
  wp (RecordFile.get_record rid) s (λ r s', s' = s ∧
    match file_lookup s rid with
    | Some old => r = inr old
    | None => ∃ rc, r = inl rc ∧ rc ≠ RC.SUCCESS
    end) ∧
  wp (RecordFile.update_record data rid) s (λ rc s',
    match file_lookup s rid with
    | Some _ => rc = RC.SUCCESS ∧ file_step size s rid (Some (take (Z.to_nat size) data)) s'
    | None => rc ≠ RC.SUCCESS ∧ s' = s
    end) ∧
  wp (RecordFile.delete_record rid) s (λ rc s',
    match file_lookup s rid with
    | Some _ => rc = RC.SUCCESS ∧ file_step size s rid None s'
    | None => rc ≠ RC.SUCCESS ∧ s' = s
    end).
Proof.
  intros Hwf Hs Hne Hd. split_and!.
  - eapply wp_mono; [by apply (RecordFileCorrect.wp_get_record Hwf)|]. intros r s' [-> Hr].
    split; [done|]. destruct (file_lookup s rid); [done|]. destruct Hr as [->|[->| ->]]; by eexists.
  - eapply wp_mono; [by apply (RecordFileCorrect.wp_update_record Hwf)|]. intros r s' Hr.
    destruct (file_lookup s rid); [done|]. destruct Hr as [[->|[->| ->]] ->]; done.
  - eapply wp_mono; [by apply (RecordFileCorrect.wp_delete_record Hwf)|]. intros r s' Hr.
    destruct (file_lookup s rid); [done|]. destruct Hr as [[->|[->| ->]] ->]; done.
Qed.

(** A file with one record page: slots 0 and 2 of three are in use. *)
Definition three_slots : record_page :=
  RecordPage (MkPageHeader 2 4 8 3 24) [5]
    [[1; 2; 3; 4; 0; 0; 0; 0]; [9; 9; 9; 9; 9; 9; 9; 9]; [5; 6; 7; 8; 0; 0; 0; 0]] false.
Definition one_page_header : BPFileHeader.t :=
  BPFileHeader.mk 2 2 (3 :: replicate (Z.to_nat 524271) 0).
Definition one_page_file : file_state := FileState one_page_header {[1 := three_slots]} {[1]} true.
Lemma three_slots_wf : page_wf three_slots.
Proof.
  split; cbn [page_header slot_bitmap cells three_slots record_capacity].
  - done.
  - done.
  - repeat constructor; vm_compute; congruence.
  - done.
  - intros i cell Hc. do 3 (destruct i as [|i]; [injection Hc as <-; vm_compute; lia|]). done.
  - vm_compute. done.
Qed.
Lemma one_page_header_wf : header_wf one_page_header.
Proof.
  apply first_byte_wf; [|lia|done| |done].
  - assert (MAX_PAGE_NUM = 4194176) as -> by done. lia.
  - intros i Hi. rewrite Z.bits_above_log2; [done|lia|]. change (Z.log2 3) with 1. lia.
Qed.
Lemma one_page_file_Some p pg : record_pages one_page_file !! p = Some pg → p = 1 ∧ pg = three_slots.
Proof. unfold one_page_file. cbn. by intros [<- <-]%lookup_singleton_Some. Qed.
Lemma one_page_file_wf : file_wf 4 one_page_file.
Proof.
  split.
  - apply one_page_header_wf.
  - intros p. split.
    + intros [pg [-> ->]%one_page_file_Some]. exists 1%nat. split_and!; [done|done|].
      rewrite allocated_bit by apply one_page_header_wf. cbn. unfold one_page_header.
      by rewrite first_byte_bit.
    + intros (i & -> & Hi & Hal). unfold allocated in Hal.
      apply andb_prop in Hal as [Hlt%bool_decide_eq_true_1 _].
      change (i < 2)%nat in Hlt. assert (i = 1%nat) as -> by lia. by eexists.
  - intros p pg [-> ->]%one_page_file_Some. split; [apply three_slots_wf|done].
  - intros p Hp. cbn in Hp. apply elem_of_singleton in Hp as ->. by eexists.
  - intros p pg [-> ->]%one_page_file_Some _. cbn. set_solver.
Qed.

Lemma record_access_correct_witness : let rid := RID.mk 1 2 in
  wp (RecordFile.get_record rid) one_page_file (λ r s', s' = one_page_file ∧ r = inr [5; 6; 7; 8]) ∧
  wp (RecordFile.update_record [4; 3; 2; 1] rid) one_page_file (λ rc s',
    rc = RC.SUCCESS ∧ file_step 4 one_page_file rid (Some [4; 3; 2; 1]) s') ∧
  wp (RecordFile.delete_record rid) one_page_file (λ rc s',
    rc = RC.SUCCESS ∧ file_step 4 one_page_file rid None s').
Proof.
  exact (record_access_correct 4 one_page_file (RID.mk 1 2) [4; 3; 2; 1] one_page_file_wf
    ltac:(done) ltac:(done) ltac:(done)).
Defined.

(** opening a record file finds every page with a free slot, so the file satisfies
    the invariant the operations keep. *)
Theorem record_open_correct size s :
  file_ok (size := size) s → opened s = false → free_pages_ s = ∅ →
  wp init_handler s (λ rc s', rc = RC.SUCCESS ∧ file_wf size s' ∧
    ∀ rid, file_lookup s' rid = file_lookup s rid).
Proof. apply wp_init_handler. Qed.

Lemma one_page_bytes : Forall Bitmap.byte_ok (BPFileHeader.bitmap one_page_header).
Proof.
  unfold one_page_header. cbn [BPFileHeader.bitmap].
  constructor; [done|]. apply Forall_replicate. done.
Qed.
Lemma record_open_correct_witness :
  wp init_handler (FileState one_page_header {[1 := three_slots]} ∅ false) (λ rc s',
    rc = RC.SUCCESS ∧ file_wf 4 s' ∧ ∀ rid, file_lookup s' rid =
      file_lookup (FileState one_page_header {[1 := three_slots]} ∅ false) rid).
Proof.
  refine (record_open_correct 4 (FileState one_page_header {[1 := three_slots]} ∅ false) _ eq_refl eq_refl).
  split; [apply one_page_header_wf|apply one_page_bytes|apply one_page_file_wf|apply one_page_file_wf].
Defined.

(** C24: a scan returns exactly the records of the file that the filter keeps and the
    transaction sees, in the order of the pages and slots, when the transaction refuses
    none of them; the two loops of the scanner and the loop of the caller end. *)
Theorem record_scan_correct filter visit readonly_ s size fuel :
  file_wf size s → Forall Bitmap.byte_ok (BPFileHeader.bitmap (file_hdr s)) →
  (∀ r, verdict visit readonly_ r = RC.SUCCESS ∨ verdict visit readonly_ r = RC.RECORD_INVISIBLE) →
  (length (file_records s) < fuel)%nat →
  scan_file filter visit readonly_ s fuel =
    Done (RC.SUCCESS, base.filter (λ r, scan_keeps filter visit readonly_ r = true) (file_records s)) ∧
  ∀ rid d, (rid, d) ∈ file_records s ↔ file_lookup s rid = Some d.
Proof.
  intros Hwf Hbytes Hv Hfuel. split; [|intros; by eapply elem_of_file_records].
  rewrite (scan_file_outcome filter visit readonly_ s Hwf Hbytes); [|by intros r; destruct (Hv r) as [-> | ->]|done].
  f_equal. apply scan_outcome_all. intros r [Hk _]%list_elem_of_filter. unfold scan_keeps in Hk.
  destruct (Hv r) as [|Hi]; [done|]. rewrite Hi, bool_decide_eq_true_2, andb_false_r in Hk; done.
Qed.

Lemma record_scan_correct_witness :
  scan_file (Some (λ rid _, bool_decide (RID.slot_num rid ≠ 0))) None true one_page_file 3 =
    Done (RC.SUCCESS, base.filter (λ r, scan_keeps (Some (λ rid _, bool_decide (RID.slot_num rid ≠ 0)))
      None true r = true) (file_records one_page_file)) ∧
  ∀ rid d, (rid, d) ∈ file_records one_page_file ↔ file_lookup one_page_file rid = Some d.
Proof.
  apply (record_scan_correct _ _ _ one_page_file 4); [apply one_page_file_wf|apply one_page_bytes| |].
  - intros r. by left.
  - vm_compute. lia.
Defined.

(** a scan whose transaction refuses a record (a conflict) gives up with that code;
    the record before it is lost with it, since [next] fetches one record ahead. *)
Theorem record_scan_conflict filter visit readonly_ s size fuel l1 r l2 :
  file_wf size s → Forall Bitmap.byte_ok (BPFileHeader.bitmap (file_hdr s)) →
  (∀ r, verdict visit readonly_ r ≠ RC.RECORD_EOF) → (length (file_records s) < fuel)%nat →
  base.filter (λ r, scan_keeps filter visit readonly_ r = true) (file_records s) = l1 ++ r :: l2 →
  (∀ r, r ∈ l1 → verdict visit readonly_ r = RC.SUCCESS) → verdict visit readonly_ r ≠ RC.SUCCESS →
  scan_file filter visit readonly_ s fuel = Done (verdict visit readonly_ r, take (length l1 - 1) l1).
Proof.
  intros Hwf Hbytes Hv Hfuel Hl Hl1 Hr.
  rewrite (scan_file_outcome filter visit readonly_ s Hwf Hbytes) by done. rewrite Hl. f_equal.
  destruct l1 as [|r1 l1]; [by unfold scan_outcome; cbn; rewrite decide_False|].
  unfold scan_outcome. cbn [app]. rewrite decide_True by (apply Hl1; by left).
  clear Hl. revert r1 Hl1. induction l1 as [|r2 l1 IH]; intros r1 Hl1.
  - cbn [app]. rewrite scan_result_cons, decide_False by done. done.
  - cbn [app]. rewrite scan_result_cons, decide_True by (apply Hl1; right; by left).
    rewrite (IH r2) by (intros r' Hr'; apply Hl1; by right). cbn [fst snd length].
    replace (S (length l1) - 1)%nat with (length l1) by lia.
    by replace (S (S (length l1)) - 1)%nat with (S (length l1)) by lia.
Qed.

Lemma record_scan_conflict_witness :
  let visit := Some (λ (rid : RID.t) (_ : memory) (_ : bool),
    if decide (RID.slot_num rid = 2) then RC.LOCKED_CONCURRENCY_CONFLICT else RC.SUCCESS) in
  scan_file None visit false one_page_file 3 = Done (RC.LOCKED_CONCURRENCY_CONFLICT, []).
Proof.
  intros visit.
  refine (record_scan_conflict None visit false one_page_file 4 3 [(RID.mk 1 0, [1; 2; 3; 4])]
    (RID.mk 1 2, [5; 6; 7; 8]) [] one_page_file_wf one_page_bytes _ _ _ _ _).
  - intros r. unfold verdict, visit. by case_decide.
  - vm_compute. lia.
  - vm_compute. done.
  - intros r ->%list_elem_of_singleton. done.
  - done.
Defined.
