(* ===== verification/TableMeta.v ===== *)
(** * Table metadata ([storage/table/table_meta.cpp], [storage/field/field_meta.cpp],
      [storage/index/index_meta.cpp])

    The fields of a table and their places in a record: the fields of the transaction
    manager, the bitmap of the null fields, the fields of the user.  [trx_fields] are the
    fields [TrxKit::instance()] asks for. *)
From S2P Require Import Prelude RidKey Comparator Bitmap.
From Stdlib Require Import ZArith Lia Ascii.
From stdpp Require Import base option strings list.
Local Open Scope Z_scope.

(** [common::is_blank]; [isspace] of the C locale *)
Definition isspace (c : ascii) : bool :=
  let n := Ascii.nat_of_ascii c in bool_decide (n = 32 ∨ 9 <= n <= 13)%nat.
Fixpoint is_blank (s : string) : bool :=
  match s with
  | EmptyString => true
  | String c s => isspace c && is_blank s
  end.

(** [ATTR_TYPE_NAME] of [sql/parser/value.cpp] *)
Definition attr_type_to_string (type : AttrType) : string :=
  match type with
  | UNDEFINED => "undefined" | CHARS => "chars" | DATES => "dates" | INTS => "ints" | FLOATS => "floats"
  | BOOLEANS => "booleans" | NULLS => "nulls" | TEXTS => "texts"
  end.

Module FieldMeta.
Record t : Set := mk {
  name : string;
  type : AttrType;
  nullable : bool;
  offset : Z;
  len : Z;
  visible : bool
}.
#[global] Instance t_eq_dec : EqDecision t.
Proof. solve_decision. Defined.

Definition init (name : string) (type : AttrType) (nullable : bool) (offset len : Z) (visible : bool)
  : RC.t + t :=
  if is_blank name then inl RC.INVALID_ARGUMENT
  else if decide (type = UNDEFINED ∨ offset < 0 ∨ len <= 0) then inl RC.INVALID_ARGUMENT
  else inr (mk name type nullable offset len visible).
(** the default constructor, which leaves [nullable_] alone *)
Definition empty : t := mk "" UNDEFINED false (-1) 0 false.
(** the constructor asserts that [init] succeeds *)
Definition make (name : string) (type : AttrType) (nullable : bool) (offset len : Z) (visible : bool)
  : option t :=
  match init name type nullable offset len visible with inl _ => None | inr f => Some f end.
End FieldMeta.

(** [AttrInfoSqlNode] *)
Record AttrInfo : Set := MkAttrInfo {
  attr_type : AttrType;
  attr_name : string;
  attr_len : Z;
  attr_nullable : bool
}.

Module IndexMeta.
Record t : Set := mk { name : string; fields : list string; unique : bool }.
Definition init (name : string) (fields : list string) (unique : bool) : RC.t + t :=
  if is_blank name then inl RC.INVALID_ARGUMENT else inr (mk name fields unique).
End IndexMeta.

Module TableMeta.
Record t : Set := mk {
  table_id : Z;
  name : string;
  fields : list FieldMeta.t;
  indexes : list IndexMeta.t;
  record_size : Z
}.

Section meta.
Context (trx_fields : option (list FieldMeta.t)).

(** The loops of [init] over the fields of the transaction manager and of the user, each
    field placed behind the one before. *)
Fixpoint place_trx_fields (l : list FieldMeta.t) (field_offset : Z) : option (list FieldMeta.t * Z) :=
  match l with
  | [] => Some ([], field_offset)
  | f :: l =>
      f' ← FieldMeta.make (FieldMeta.name f) (FieldMeta.type f) (FieldMeta.nullable f) field_offset
             (FieldMeta.len f) false;
      r ← place_trx_fields l (field_offset + FieldMeta.len f);
      Some (f' :: r.1, r.2)
  end.
Fixpoint place_fields (l : list AttrInfo) (field_offset : Z) : RC.t + (list FieldMeta.t * Z) :=
  match l with
  | [] => inr ([], field_offset)
  | a :: l =>
      match FieldMeta.init (attr_name a) (attr_type a) (attr_nullable a) field_offset (attr_len a) true with
      | inl rc => inl rc
      | inr f =>
          match place_fields l (field_offset + attr_len a) with
          | inl rc => inl rc
          | inr (fs, o) => inr (f :: fs, o)
          end
      end
  end.

Definition null_field_name : string := "__null".
(** [(trx_field_num + 1 + field_num) / 8 + 1] *)
Definition null_field_len (trx_field_num field_num : Z) : Z :=
  Z.quot (trx_field_num + 1 + field_num) 8 + 1.

Definition init (table_id : Z) (name : string) (attributes : list AttrInfo) : outcome (RC.t + t) :=
  if is_blank name then Done (inl RC.INVALID_ARGUMENT)
  else if decide (attributes = []) then Done (inl RC.INVALID_ARGUMENT)
  else
    let trx := default [] trx_fields in
    match place_trx_fields trx 0 with
    | None => Crash
    | Some (trx, field_offset) =>
        let len := null_field_len (Z.of_nat (length trx)) (Z.of_nat (length attributes)) in
        (* a failure here is only logged *)
        let null_field :=
          match FieldMeta.init null_field_name CHARS false field_offset len false with
          | inr f => f | inl _ => FieldMeta.empty end in
        match place_fields attributes (field_offset + len) with
        | inl rc => Done (inl rc)
        | inr (fs, record_size) =>
            Done (inr (mk table_id name (trx ++ null_field :: fs) [] record_size))
        end
    end.

Definition sys_field_num : nat := length (default [] trx_fields) + 1.
Definition field_num (m : t) : nat := length (fields m).
(** the fields of the user, behind those of the system *)
Definition user_fields (m : t) : list FieldMeta.t := drop sys_field_num (fields m).
Definition null_field (m : t) : option FieldMeta.t := fields m !! (sys_field_num - 1)%nat.
Definition field (m : t) (index : nat) : option FieldMeta.t := fields m !! index.
Definition field_by_name (m : t) (name : string) : option FieldMeta.t :=
  List.find (λ f, bool_decide (FieldMeta.name f = name)) (fields m).
Definition find_field_by_offset (m : t) (offset : Z) : option FieldMeta.t :=
  List.find (λ f, bool_decide (FieldMeta.offset f = offset)) (fields m).
(** [field_index]: by offset; -1 when there is none *)
Fixpoint index_of_offset (l : list FieldMeta.t) (offset : Z) (i : Z) : Z :=
  match l with
  | [] => -1
  | f :: l => if decide (offset = FieldMeta.offset f) then i else index_of_offset l offset (i + 1)
  end.
Definition field_index (m : t) (f : FieldMeta.t) : Z :=
  index_of_offset (fields m) (FieldMeta.offset f) 0.

Definition add_index (m : t) (i : IndexMeta.t) : t :=
  mk (table_id m) (name m) (fields m) (indexes m ++ [i]) (record_size m).
Definition index_by_name (m : t) (name : string) : option IndexMeta.t :=
  List.find (λ i, bool_decide (IndexMeta.name i = name)) (indexes m).
Definition find_index_by_fields (m : t) (names : list string) : option IndexMeta.t :=
  List.find (λ i, bool_decide (IndexMeta.fields i = names)) (indexes m).
Definition find_index_by_field (m : t) (name : string) : option IndexMeta.t :=
  find_index_by_fields m [name].

(** [bitmap_of_null_field(data)]: the bytes of the record from the null field on *)
Definition bitmap_of_null_field (m : t) (data : memory) : option (list Z) :=
  f ← null_field m; Some (drop (Z.to_nat (FieldMeta.offset f)) data).
Definition null_bit (m : t) (data : memory) (index : nat) : option bool :=
  bm ← bitmap_of_null_field m data; Bitmap.get_bit bm index.

(** The record size [deserialize] computes from the fields, sorted by offset. *)
Definition reload_record_size (fs : list FieldMeta.t) : option Z :=
  f ← head fs; l ← last fs;
  Some (FieldMeta.offset l + FieldMeta.len l - FieldMeta.offset f).
End meta.
End TableMeta.

(** ** The layout of a record

    [chained o l e]: the fields follow each other without gaps from the offset [o] to
    [e]. *)
Fixpoint chained (o : Z) (l : list FieldMeta.t) (e : Z) : Prop :=
  match l with
  | [] => o = e
  | f :: l => FieldMeta.offset f = o ∧ 0 < FieldMeta.len f ∧ chained (o + FieldMeta.len f) l e
  end.

Lemma chained_app o l1 m l2 e : chained o l1 m → chained m l2 e → chained o (l1 ++ l2) e.
Proof.
  revert o. induction l1 as [|f l1 IH]; intros o; cbn; [by intros ->|].
  intros (? & ? & ?) ?. split_and!; [done..|]. by apply IH.
Qed.
Lemma chained_le o l e : chained o l e → o <= e.
Proof. revert o. induction l as [|g l IH]; intros o; cbn; [lia|]. intros (? & ? & H%IH). lia. Qed.
Lemma chained_bounds o l e i f :
  chained o l e → l !! i = Some f → o <= FieldMeta.offset f ∧ FieldMeta.offset f + FieldMeta.len f <= e.
Proof.
  revert o i. induction l as [|g l IH]; intros o [|i]; cbn; try done; intros (Ho & Hl & Hc).
  - intros [= ->]. apply chained_le in Hc. lia.
  - intros Hi. destruct (IH _ _ Hc Hi). lia.
Qed.
Lemma chained_len o l e i f : chained o l e → l !! i = Some f → 0 < FieldMeta.len f.
Proof.
  revert o i. induction l as [|g l IH]; intros o [|i]; cbn; try done; intros (_ & Hl & Hc).
  - by intros [= ->].
  - by apply (IH _ _ Hc).
Qed.
Lemma chained_disjoint o l e i j f g :
  chained o l e → l !! i = Some f → l !! j = Some g → (i < j)%nat →
  FieldMeta.offset f + FieldMeta.len f <= FieldMeta.offset g.
Proof.
  revert o i j. induction l as [|h l IH]; intros o i j; [done|]. cbn. intros (Ho & Hl & Hc) Hi Hj Hij.
  destruct j as [|j]; [lia|]. destruct i as [|i]; cbn in *.
  - injection Hi as ->. destruct (chained_bounds _ _ _ _ _ Hc Hj). lia.
  - apply (IH _ i j Hc Hi Hj). lia.
Qed.
Lemma chained_index o l e i f k :
  chained o l e → l !! i = Some f →
  TableMeta.index_of_offset l (FieldMeta.offset f) k = k + Z.of_nat i.
Proof.
  revert o i k. induction l as [|g l IH]; intros o [|i] k; cbn; try done.
  - intros _ [= ->]. rewrite decide_True by done. lia.
  - intros (Ho & Hl & Hc) Hi. destruct (chained_bounds _ _ _ _ _ Hc Hi).
    rewrite decide_False by lia. rewrite (IH _ _ _ Hc Hi). lia.
Qed.
Lemma chained_size l e : chained 0 l e → l ≠ [] → TableMeta.reload_record_size l = Some e.
Proof.
  intros Hc Hne. destruct l as [|f l]; [done|]. cbn in Hc. destruct Hc as (Ho & Hl & Hc).
  unfold TableMeta.reload_record_size. change (head (f :: l)) with (Some f). simpl.
  assert (∀ l o g, chained o l e → last (g :: l) = Some g ∧ l = [] ∧ o = e ∨
    ∃ h, last (g :: l) = Some h ∧ FieldMeta.offset h + FieldMeta.len h = e) as Hlast.
  { clear. induction l as [|h l IH]; intros o g; cbn; [intros ->; by left|].
    intros (Ho & Hl & Hc). destruct (IH _ h Hc) as [(Hla & -> & ?)|(h' & Hla & ?)]; right.
    - exists h. split; [done|lia].
    - exists h'. split; [|done]. by destruct l. }
  destruct (Hlast _ _ f Hc) as [(-> & -> & ?)|(h & -> & ?)]; simpl; f_equal; lia.
Qed.

Section init.
Context (trx_fields : option (list FieldMeta.t)).

Lemma make_inv name ty n o l v f :
  FieldMeta.make name ty n o l v = Some f → FieldMeta.offset f = o ∧ FieldMeta.len f = l ∧ 0 < l.
Proof.
  unfold FieldMeta.make, FieldMeta.init. destruct (is_blank name); [done|]. case_decide; [done|].
  intros [= <-]. cbn. split_and!; [done|done|lia].
Qed.
Lemma place_trx_chained l o fs e :
  TableMeta.place_trx_fields l o = Some (fs, e) → chained o fs e ∧ length fs = length l.
Proof.
  revert o fs. induction l as [|f l IH]; intros o fs; cbn; [by intros [= <- <-]|].
  destruct (FieldMeta.make _ _ _ _ _ _) as [f'|] eqn:Hf; [|done]. cbn.
  destruct (TableMeta.place_trx_fields l _) as [[fs' e']|] eqn:Hp; [|done]. cbn.
  intros [= <- <-]. apply make_inv in Hf as (? & Hl & ?). apply IH in Hp as [? ?]. cbn.
  rewrite Hl. split_and!; [done|done|done|by f_equal].
Qed.
Lemma place_chained l o fs e :
  TableMeta.place_fields l o = inr (fs, e) → chained o fs e ∧ length fs = length l.
Proof.
  revert o fs. induction l as [|a l IH]; intros o fs; cbn; [by intros [= <- <-]|].
  destruct (FieldMeta.init _ _ _ _ _ _) as [|f] eqn:Hf; [done|].
  destruct (TableMeta.place_fields l _) as [|[fs' e']] eqn:Hp; [done|].
  intros [= <- <-]. assert (FieldMeta.make (attr_name a) (attr_type a) (attr_nullable a) o (attr_len a) true = Some f)
    as (? & Hl & ?)%make_inv by (unfold FieldMeta.make; by rewrite Hf).
  apply IH in Hp as [? ?]. cbn. rewrite Hl. split_and!; [done|done|done|by f_equal].
Qed.

(** What [init] builds. *)
Record meta_wf (m : TableMeta.t) : Prop := {
  mw_chained : chained 0 (TableMeta.fields m) (TableMeta.record_size m);
  mw_user : (TableMeta.sys_field_num trx_fields < TableMeta.field_num m)%nat;
  mw_null : ∃ f, TableMeta.null_field trx_fields m = Some f ∧
    Z.of_nat (TableMeta.field_num m) <= 8 * FieldMeta.len f
}.
Lemma init_wf id name attrs m :
  TableMeta.init trx_fields id name attrs = Done (inr m) → meta_wf m.
Proof.
  unfold TableMeta.init. destruct (is_blank name); [done|]. case_decide as Hne; [done|].
  destruct (TableMeta.place_trx_fields _ 0) as [[trx o]|] eqn:Ht; [|done].
  apply place_trx_chained in Ht as [Hct Hlt].
  set (len := TableMeta.null_field_len _ _).
  assert (0 < len) as Hn0.
  { unfold len, TableMeta.null_field_len. rewrite Z.quot_div_nonneg by lia.
    pose proof (Z.div_pos (Z.of_nat (length trx) + 1 + Z.of_nat (length attrs)) 8). lia. }
  pose proof (chained_le _ _ _ Hct) as Ho.
  set (nf := match FieldMeta.init _ _ _ _ _ _ with inr f => f | inl _ => _ end).
  assert (FieldMeta.offset nf = o ∧ FieldMeta.len nf = len) as [Hno Hnl].
  { unfold nf, FieldMeta.init. change (is_blank TableMeta.null_field_name) with false. cbv iota.
    rewrite decide_False; [done|]. intros [?|[?|?]]; [done|lia|lia]. }
  clearbody nf. fold len.
  destruct (TableMeta.place_fields attrs _) as [|[fs e]] eqn:Hf; [done|]. intros [= <-].
  apply place_chained in Hf as [Hcf Hlf]. split; cbn.
  - apply (chained_app _ _ o); [done|]. cbn. by rewrite Hno, Hnl.
  - unfold TableMeta.sys_field_num, TableMeta.field_num. cbn. rewrite length_app. cbn.
    destruct attrs; [done|]. cbn in Hlf. lia.
  - exists nf. unfold TableMeta.null_field, TableMeta.sys_field_num, TableMeta.field_num. cbn. split.
    + replace (length (default [] trx_fields) + 1 - 1)%nat with (length trx) by lia.
      by rewrite list_lookup_middle.
    + rewrite Hnl, length_app. cbn. unfold len, TableMeta.null_field_len.
      rewrite Z.quot_div_nonneg by lia.
      pose proof (Z.div_mod (Z.of_nat (length trx) + 1 + Z.of_nat (length attrs)) 8 ltac:(lia)).
      pose proof (Z.mod_pos_bound (Z.of_nat (length trx) + 1 + Z.of_nat (length attrs)) 8 ltac:(lia)). lia.
Qed.

Lemma user_field_in m f : f ∈ TableMeta.user_fields trx_fields m → f ∈ TableMeta.fields m.
Proof.
  unfold TableMeta.user_fields. intros [k Hk]%list_elem_of_lookup_1. rewrite lookup_drop in Hk.
  by eapply list_elem_of_lookup_2.
Qed.
End init.
