(* ===== verification/Table.v ===== *)
(** * Tables ([Table], [storage/table/table.cpp])

    A table is its metadata, its record file and its indexes.  What the table asks of an
    index is the class [IndexOps]; what it may rely on is [IndexSpec], which
    [TableBplus.v] discharges for the B+ tree. *)
From S2P Require Import Prelude RidKey Comparator Bitmap LruCache BufferPool RecordPage RecordFile.
From S2P Require Import TableMeta.
From Stdlib Require Import ZArith Lia.
From stdpp Require Import base option strings gmap sets list.
Local Open Scope Z_scope.

(** [class Index]: the name, the fields, [insert_entry] and [delete_entry] *)
Class IndexOps (I : Type) := {
  index_name : I → string;
  field_metas : I → list FieldMeta.t;
  index_insert_entry : memory → RID.t → ST I RC.t;
  index_delete_entry : memory → RID.t → ST I RC.t
}.

(** the bytes of a field in a record *)
Definition field_bytes (f : FieldMeta.t) (d : memory) : memory :=
  take (Z.to_nat (FieldMeta.len f)) (drop (Z.to_nat (FieldMeta.offset f)) d).

(** The promise of an index: a set of entries, of which [index_holds i d r] tells whether
    the entry of the record [d] at [r] is one; entries are the same when [index_same]
    says so, which is about the indexed fields of the records and the RIDs. *)
Class IndexSpec (I : Type) `{!IndexOps I} := {
  index_ok : I → Prop;
  index_room : I → Prop;
  index_accepts : I → memory → RID.t → Prop;
  index_same : I → memory → RID.t → memory → RID.t → bool;
  index_holds : I → memory → RID.t → bool;
  index_duplicate : I → memory → Prop;
  index_static : I → I → Prop :=
    λ i i', field_metas i' = field_metas i ∧ index_name i' = index_name i ∧
      (∀ d r, index_accepts i' d r ↔ index_accepts i d r) ∧
      (∀ d r d' r', index_same i' d r d' r' = index_same i d r d' r');
  index_same_fields : ∀ i d d' r, index_accepts i d r → index_accepts i d' r →
    (∀ f, f ∈ field_metas i → field_bytes f d = field_bytes f d') → index_same i d r d' r = true;
  index_same_rid : ∀ i d r d' r', index_accepts i d r → index_accepts i d' r' →
    index_same i d r d' r' = true → r = r';
  index_same_trans : ∀ i d r d' r' d2 r2, index_accepts i d r → index_accepts i d' r' →
    index_accepts i d2 r2 → index_same i d r d' r' = true →
    index_same i d r d2 r2 = index_same i d' r' d2 r2;
  index_holds_same : ∀ i d r d' r', index_ok i → index_accepts i d r → index_accepts i d' r' →
    index_same i d r d' r' = true → index_holds i d r = index_holds i d' r';
  index_insert_spec : ∀ i d r, index_ok i → index_room i → index_accepts i d r →
    wp (index_insert_entry d r) i (λ rc i', index_ok i' ∧ index_static i i' ∧
      ((rc = RC.SUCCESS ∧ index_holds i d r = false ∧ ∀ d' r', index_accepts i d' r' →
          index_holds i' d' r' = index_holds i d' r' || index_same i d r d' r') ∨
       (rc = RC.RECORD_DUPLICATE_KEY ∧ (index_holds i d r = true ∨ index_duplicate i d) ∧ ∀ d' r', index_accepts i d' r' →
          index_holds i' d' r' = index_holds i d' r')));
  index_delete_spec : ∀ i d r, index_ok i → index_accepts i d r →
    wp (index_delete_entry d r) i (λ rc i', index_ok i' ∧ index_static i i' ∧
      rc = (if index_holds i d r then RC.SUCCESS else RC.RECORD_NOT_EXIST) ∧
      ∀ d' r', index_accepts i d' r' →
        index_holds i' d' r' = index_holds i d' r' && negb (index_same i d r d' r'))
}.

Section table.
Context {I : Type} `{!IndexOps I}.
Context (trx_fields : option (list FieldMeta.t)).
Context (begin : gset PageNum → PageNum) (flush_page : PageNum → RC.t)
  (area : PageNum → nat → memory) (fuel : nat).

Record table : Type := MkTable {
  table_meta_ : TableMeta.t;
  record_handler_ : file_state;
  indexes_ : list I
}.
Definition set_handler (h : file_state) (t : table) : table :=
  MkTable (table_meta_ t) h (indexes_ t).
Definition set_indexes (l : list I) (t : table) : table :=
  MkTable (table_meta_ t) (record_handler_ t) l.
Abbreviation M := (ST table).

(** a call of the record handler, or of the code over the list of the indexes *)
Definition on_handler {A} (c : ST file_state A) : M A := λ t,
  match c (record_handler_ t) with
  | Done (a, h) => Done (a, set_handler h t)
  | Crash => Crash
  | OutOfFuel => OutOfFuel
  end.
Definition on_indexes {A} (c : TableMeta.t → ST (list I) A) : M A := λ t,
  match c (table_meta_ t) (indexes_ t) with
  | Done (a, l) => Done (a, set_indexes l t)
  | Crash => Crash
  | OutOfFuel => OutOfFuel
  end.

(** Whether an indexed field of the record is null: the loop over [field_metas]. *)
Fixpoint has_null (m : TableMeta.t) (data : memory) (fs : list FieldMeta.t) : option (RC.t + bool) :=
  match fs with
  | [] => Some (inr false)
  | f :: fs =>
      let field_index := TableMeta.field_index m f in
      if decide (field_index = -1) then Some (inl RC.INTERNAL)
      else
        b ← TableMeta.null_bit trx_fields m data (Z.to_nat field_index);
        if b : bool then Some (inr true) else has_null m data fs
  end.

(** One index of the list, the rest of which [k] goes over. *)
Definition with_head {A} (c : ST I A) (k : A → ST (list I) RC.t) : ST (list I) RC.t := λ l,
  match l with
  | [] => Crash
  | i :: l =>
      match c i with
      | Done (a, i') =>
          match k a l with
          | Done (rc, l') => Done (rc, i' :: l')
          | Crash => Crash
          | OutOfFuel => OutOfFuel
          end
      | Crash => Crash
      | OutOfFuel => OutOfFuel
      end
  end.

(** The loop of [insert_entry_of_indexes] and of [delete_entry_of_indexes] over the
    indexes: [rc] is the variable of the function, [op] what is done to an index without
    null fields, [stop] whether a return code of it ends the loop. *)
Section each_index.
Context (op : memory → RID.t → ST I RC.t) (stop : RC.t → bool) (data : memory) (rid : RID.t).

Fixpoint each_index (m : TableMeta.t) (n : nat) (rc : RC.t) : ST (list I) RC.t :=
  match n with
  | O => mret rc
  | S n =>
      with_head
        (i ← st_get;
         null ← st_some (has_null m data (field_metas i));
         match null with
         | inl rc => mret (inl rc)
         | inr true => mret (inr rc)
         | inr false => rc ← op data rid; mret (if stop rc then inl rc else inr rc)
         end)
        (λ r, match r with inl rc => mret rc | inr rc => each_index m n rc end)
  end.
End each_index.

Definition insert_entry_of_indexes (data : memory) (rid : RID.t) : M RC.t :=
  on_indexes (λ m, l ← st_get;
    each_index index_insert_entry (λ rc, negb (RC.succ rc)) data rid m (length l) RC.SUCCESS).
Definition delete_entry_of_indexes (data : memory) (rid : RID.t) (error_on_not_exists : bool) : M RC.t :=
  on_indexes (λ m, l ← st_get;
    each_index index_delete_entry
      (λ rc, negb (RC.succ rc) && (bool_decide (rc ≠ RC.RECORD_INVALID_KEY) || negb error_on_not_exists))
      data rid m (length l) RC.SUCCESS).

(** what [insert_record] and [recover_insert_record] undo when an index refuses *)
Definition insert_into_indexes (data : memory) (rid : RID.t) : M RC.t :=
  rc ← insert_entry_of_indexes data rid;
  if RC.succ rc then mret rc
  else
    delete_entry_of_indexes data rid false ;;;
    on_handler (RecordFile.delete_record rid) ;;;
    mret rc.

Definition insert_record (data : memory) : M (RC.t + RID.t) :=
  t ← st_get;
  rid <-? on_handler (RecordFile.insert_record begin flush_page area fuel data
                        (TableMeta.record_size (table_meta_ t))) ;;
  rc ← insert_into_indexes data rid;
  mret (if RC.succ rc then inr rid else inl rc).

Definition recover_insert_record (data : memory) (rid : RID.t) : M RC.t :=
  try on_handler (RecordFile.recover_insert_record data rid) ;;
  insert_into_indexes data rid.

Definition visit_record {A} (rid : RID.t) (visitor : memory → option (memory * A)) : M (RC.t + A) :=
  on_handler (RecordFile.visit_record rid visitor).

Definition get_record (rid : RID.t) : M (RC.t + memory) :=
  visit_record rid (λ data, Some (data, data)).

Definition update_record (rid : RID.t) (data new_data : memory) (new_rid : RID.t) : M RC.t :=
  try delete_entry_of_indexes data rid false ;;
  rc ← insert_entry_of_indexes new_data new_rid;
  if negb (RC.succ rc) then
    insert_entry_of_indexes data rid ;;; mret rc
  else on_handler (RecordFile.update_record new_data rid).

Definition delete_record (data : memory) (rid : RID.t) : M RC.t :=
  try delete_entry_of_indexes data rid true ;;
  on_handler (RecordFile.delete_record rid).

Definition is_null (t : table) (f : FieldMeta.t) (data : memory) : option bool :=
  let field_index := TableMeta.field_index (table_meta_ t) f in
  if decide (field_index = -1) then Some false
  else TableMeta.null_bit trx_fields (table_meta_ t) data (Z.to_nat field_index).

(** [create_index] scans the table and inserts every record the scan returns into the new
    index, the null fields not looked at; the metadata is written at the end, with the
    result [write_meta].  A failure of the scan comes after the records before it. *)
Fixpoint fill_index (records : list (RID.t * memory)) : ST I RC.t :=
  match records with
  | [] => mret RC.SUCCESS
  | (rid, data) :: records =>
      try index_insert_entry data rid ;;
      fill_index records
  end.
Definition create_index (scan_fuel : nat) (visit : option (RID.t → memory → bool → RC.t))
  (unique : bool) (fields : list FieldMeta.t) (name : string) (new_index : RC.t + I)
  (write_meta : TableMeta.t → RC.t) : M RC.t :=
  t ← st_get;
  let names := FieldMeta.name <$> fields in
  if is_blank name || bool_decide (fields = []) then mret RC.INVALID_ARGUMENT
  else if TableMeta.find_index_by_fields (table_meta_ t) names is Some _ then mret RC.INVALID_ARGUMENT
  else
    match IndexMeta.init name names unique with
    | inl rc => mret rc
    | inr index_meta =>
        match new_index with
        | inl rc => mret rc
        | inr index =>
            match scan_file None visit true (record_handler_ t) scan_fuel with
            | Crash => st_crash
            | OutOfFuel => st_nofuel
            | Done (scanned, records) =>
                match fill_index records index with
                | Crash => st_crash
                | OutOfFuel => st_nofuel
                | Done (rc, index) =>
                    let rc := if RC.succ rc then scanned else rc in
                    if negb (RC.succ rc) then mret rc
                    else
                      st_modify (λ t, set_indexes (indexes_ t ++ [index]) t) ;;;
                      let new_table_meta := TableMeta.add_index (table_meta_ t) index_meta in
                      try mret (write_meta new_table_meta) ;;
                      st_modify (λ t, MkTable new_table_meta (record_handler_ t) (indexes_ t)) ;;;
                      mret RC.SUCCESS
                end
            end
        end
    end.

Definition find_index (t : table) (name : string) : option I :=
  List.find (λ i, bool_decide (index_name i = name)) (indexes_ t).
Definition find_index_by_field (t : table) (field : string) : option I :=
  m ← TableMeta.find_index_by_field (table_meta_ t) field;
  find_index t (IndexMeta.name m).
(** [find_indexes_by_field]: by the first field of an index *)
Definition find_indexes_by_field (t : table) (field : string) : list I :=
  filter (λ i, FieldMeta.name <$> head (field_metas i) = Some field) (indexes_ t).
(** [find_index_by_fields]: the order of the names does not matter *)
Definition find_index_by_fields (t : table) (names : list string) : option I :=
  List.find (λ i,
    bool_decide (length (field_metas i) = size (list_to_set names : gset string)) &&
    forallb (λ f, bool_decide (FieldMeta.name f ∈ names)) (field_metas i)) (indexes_ t).

(** [index_sync] is [Index::sync]. *)
Fixpoint sync_each (index_sync : ST I RC.t) (n : nat) : ST (list I) RC.t :=
  match n with
  | O => mret RC.SUCCESS
  | S n => with_head index_sync (λ rc, if RC.succ rc then sync_each index_sync n else mret rc)
  end.
Definition sync (index_sync : ST I RC.t) : M RC.t :=
  on_indexes (λ _, l ← st_get; sync_each index_sync (length l)).
End table.
Arguments table : clear implicits.
