(* ===== verification/TableCorrect.v ===== *)
(** * Correctness of tables

    The records of a table and the entries of its indexes stay in step: the invariant
    [table_wf], and what insertion and deletion do to it, the undoing of an insertion that
    an index refuses included. *)
From S2P Require Import Prelude RidKey Comparator Bitmap LruCache BufferPool BufferPoolHeader.
From S2P Require Import RecordPage RecordPageCorrect RecordFile RecordFileCorrect.
From S2P Require Import TableMeta Table.
From Stdlib Require Import ZArith Lia.
From stdpp Require Import base option strings gmap sets list.
Local Open Scope Z_scope.
#[local] Opaque Nat.div Nat.modulo.

(** The RIDs of records are valid. *)
Lemma file_rid_valid size s rid d :
  file_wf size s → file_lookup s rid = Some d → RID.valid rid.
Proof.
  intros Hwf. unfold file_lookup. case_decide as Hs; [|done].
  destruct (record_pages s !! RID.page_num rid) as [pg|] eqn:Hp; [|done]. cbn. intros Hl.
  destruct (fw_page _ _ Hwf _ _ Hp) as [Hpg _].
  apply page_lookup_Some in Hl as (Hc & _). pose proof (pw_capacity _ Hpg).
  destruct (proj1 (fw_pages _ _ Hwf (RID.page_num rid))) as (i & Hpi & Hi & Hal); [by eexists|].
  unfold allocated in Hal. apply andb_prop in Hal as [Hlt%bool_decide_eq_true_1 _].
  pose proof (hw_count _ (fw_hdr _ _ Hwf)) as [_ Hmax].
  assert (MAX_PAGE_NUM = 4194176) as HM by done. unfold RID.valid. change (2 ^ 31) with 2147483648 in *.
  lia.
Qed.

Section indexes.
Context {I : Type} `{!IndexOps I} `{!IndexSpec I}.
Context (trx_fields : option (list FieldMeta.t)).
Implicit Types (i : I) (l : list I) (d data : memory) (r rid : RID.t).

Lemma index_same_refl i d r : index_accepts i d r → index_same i d r d r = true.
Proof. intros. by apply index_same_fields. Qed.
Lemma static_refl i : index_static i i.
Proof. by split_and!. Qed.
Lemma static_trans i1 i2 i3 : index_static i1 i2 → index_static i2 i3 → index_static i1 i3.
Proof.
  intros (H1 & H2 & H3 & H4) (K1 & K2 & K3 & K4). split_and!; [congruence|congruence| |].
  - intros. by rewrite K3.
  - intros. by rewrite K4.
Qed.

(** An index with the same entries. *)
Definition index_equiv i i' : Prop :=
  index_static i i' ∧ (index_ok i → index_ok i') ∧
  ∀ d r, index_accepts i d r → index_holds i' d r = index_holds i d r.
Lemma index_equiv_refl i : index_equiv i i.
Proof. split_and!; [apply static_refl|done|done]. Qed.

(** Whether a record has no entry in the index, some indexed field being null. *)
Definition skips (m : TableMeta.t) data i : bool :=
  match has_null trx_fields m data (field_metas i) with Some (inr b) => b | _ => false end.
(** The metadata knows the fields of the index, and the record has its bitmap. *)
Definition nulls_known (m : TableMeta.t) data i : Prop :=
  has_null trx_fields m data (field_metas i) = Some (inr (skips m data i)).

Lemma skips_static m data i i' : index_static i i' → skips m data i' = skips m data i.
Proof. intros (Hf & _). unfold skips. by rewrite Hf. Qed.
Lemma nulls_known_static m data i i' : index_static i i' → nulls_known m data i → nulls_known m data i'.
Proof. intros Hst. unfold nulls_known. rewrite (skips_static _ _ _ _ Hst). by destruct Hst as [-> _]. Qed.

(** The entry of a record put into an index, and taken out of it. *)
Definition entry_added data rid i i' : Prop :=
  index_static i i' ∧ index_ok i' ∧ ∀ d r, index_accepts i d r →
    index_holds i' d r = index_holds i d r || index_same i data rid d r.
Definition entry_removed data rid i i' : Prop :=
  index_static i i' ∧ index_ok i' ∧ ∀ d r, index_accepts i d r →
    index_holds i' d r = index_holds i d r && negb (index_same i data rid d r).
Definition added m data rid i i' : Prop :=
  if skips m data i then i' = i else index_holds i data rid = false ∧ entry_added data rid i i'.
Definition removed m data rid i i' : Prop :=
  if skips m data i then i' = i else entry_removed data rid i i'.

Lemma removed_added data rid i i1 i2 :
  index_ok i → index_accepts i data rid → index_holds i data rid = false →
  entry_added data rid i i1 → entry_removed data rid i1 i2 → index_equiv i i2.
Proof.
  intros Hok Hacc Hno (Hst1 & _ & Hadd) (Hst2 & Hok2 & Hrem).
  split_and!; [by eapply static_trans|done|]. intros d r Hd.
  destruct Hst1 as (Hf & Hn & Ha & Hs). rewrite Hrem by by apply Ha. rewrite Hadd by done. rewrite Hs.
  destruct (index_same i data rid d r) eqn:Hsame; [|by rewrite orb_false_r, andb_true_r].
  rewrite andb_false_r. symmetry. rewrite <-(index_holds_same i data rid d r) by done. done.
Qed.

Lemma indexes_equiv_refl l : Forall2 index_equiv l l.
Proof. induction l; constructor; [apply index_equiv_refl|done]. Qed.

(** What the loop needs of each index. *)
Definition ready m data rid i : Prop :=
  index_ok i ∧ index_accepts i data rid ∧ nulls_known m data i.

Lemma wp_insert_each m data rid l rc0 :
  Forall (λ i, ready m data rid i ∧ index_room i) l → RC.succ rc0 = true →
  wp (each_index trx_fields index_insert_entry (λ rc, negb (RC.succ rc)) data rid m (length l) rc0) l
    (λ rc l', (rc = RC.SUCCESS ∧ Forall2 (added m data rid) l l') ∨
      (rc = RC.RECORD_DUPLICATE_KEY ∧ ∃ l1 i l2 l1' i', l = l1 ++ i :: l2 ∧ l' = l1' ++ i' :: l2 ∧
         Forall2 (added m data rid) l1 l1' ∧ skips m data i = false ∧ index_equiv i i' ∧
         (index_holds i data rid = true ∨ index_duplicate i data))).
Proof.
  intros Hl Hrc0. apply bool_decide_eq_true_1 in Hrc0 as ->.
  induction l as [|i l IH]; [apply wp_ret; left; by split; [|constructor]|].
  apply Forall_cons in Hl as [[(Hok & Hacc & Hnull) Hroom] Hl]. specialize (IH Hl).
  cbn [each_index length].
  assert (wp (i ← st_get; null ← st_some (has_null trx_fields m data (field_metas i));
    match null with
    | inl rc => mret (inl rc)
    | inr true => mret (inr RC.SUCCESS)
    | inr false => rc ← index_insert_entry data rid; mret (if negb (RC.succ rc) then inl rc else inr rc)
    end) i (λ res i', (res = inr RC.SUCCESS ∧ added m data rid i i') ∨
      (res = inl RC.RECORD_DUPLICATE_KEY ∧ skips m data i = false ∧ index_equiv i i' ∧
        (index_holds i data rid = true ∨ index_duplicate i data)))) as Hone.
  { apply wp_bind, wp_get, wp_bind. eapply wp_some; [exact Hnull|].
    unfold added. destruct (skips m data i) eqn:Hsk; [apply wp_ret; by left|].
    apply wp_bind. eapply wp_mono; [by apply index_insert_spec|].
    intros rc i' (Hok' & Hst & [(-> & Hno & Hadd)|(-> & Hdup & Hsame)]); apply wp_ret.
    - left. by split_and!.
    - right. by split_and!. }
  destruct Hone as (res & i' & Hrun & Hr). unfold wp, with_head. cbn. rewrite Hrun.
  destruct Hr as [[-> Hadd]|(-> & Hsk & Heq & Hdup)].
  - destruct IH as (rc & l' & Hrun' & Hpost). rewrite Hrun'. exists rc, (i' :: l'). split; [done|].
    destruct Hpost as [[-> Hall]|(-> & l1 & j & l2 & l1' & j' & -> & -> & Hall & Hj)].
    + left. split; [done|by constructor].
    + right. split; [done|]. exists (i :: l1), j, l2, (i' :: l1'), j'.
      split; [done|]. split; [done|]. split; [by constructor|done].
  - exists RC.RECORD_DUPLICATE_KEY, (i' :: l). split; [done|]. right. split; [done|].
    exists [], i, l, [], i'. by split_and!.
Qed.

(** Taking the entries out, as far as they are there. *)
Lemma wp_delete_each m data rid l stop rc0 :
  Forall (ready m data rid) l → stop RC.SUCCESS = false → stop RC.RECORD_NOT_EXIST = true →
  rc0 = RC.SUCCESS →
  wp (each_index trx_fields index_delete_entry stop data rid m (length l) rc0) l
    (λ rc l', (rc = RC.SUCCESS ∧ Forall2 (removed m data rid) l l' ∧
        Forall (λ i, skips m data i = true ∨ index_holds i data rid = true) l) ∨
      (rc = RC.RECORD_NOT_EXIST ∧ ∃ l1 i l2 l1' i', l = l1 ++ i :: l2 ∧ l' = l1' ++ i' :: l2 ∧
         Forall2 (removed m data rid) l1 l1' ∧
         Forall (λ i, skips m data i = true ∨ index_holds i data rid = true) l1 ∧
         skips m data i = false ∧ index_holds i data rid = false ∧ index_equiv i i')).
Proof.
  intros Hl Hstop1 Hstop2 ->.
  induction l as [|i l IH]; [apply wp_ret; left; split_and!; [done|by constructor..]|].
  apply Forall_cons in Hl as [(Hok & Hacc & Hnull) Hl]. specialize (IH Hl).
  cbn [each_index length].
  assert (wp (i ← st_get; null ← st_some (has_null trx_fields m data (field_metas i));
    match null with
    | inl rc => mret (inl rc)
    | inr true => mret (inr RC.SUCCESS)
    | inr false => rc ← index_delete_entry data rid; mret (if stop rc then inl rc else inr rc)
    end) i (λ res i', (res = inr RC.SUCCESS ∧ removed m data rid i i' ∧
        (skips m data i = true ∨ index_holds i data rid = true)) ∨
      (res = inl RC.RECORD_NOT_EXIST ∧ skips m data i = false ∧ index_holds i data rid = false ∧
       index_equiv i i'))) as Hone.
  { apply wp_bind, wp_get, wp_bind. eapply wp_some; [exact Hnull|].
    unfold removed. destruct (skips m data i) eqn:Hsk; [apply wp_ret; left; by split_and!; [| |left]|].
    apply wp_bind. eapply wp_mono; [by apply index_delete_spec|].
    intros rc i' (Hok' & Hst & -> & Hrem). destruct (index_holds i data rid) eqn:Hh; apply wp_ret.
    - rewrite Hstop1. left. split_and!; [done| |by right]. by split_and!.
    - rewrite Hstop2. right. split_and!; [done..|]. split_and!; [done|done|].
      intros d r Hd. rewrite Hrem by done. destruct (index_same i data rid d r) eqn:Hsame; [|by rewrite andb_true_r].
      rewrite andb_false_r. rewrite <-(index_holds_same i data rid d r) by done. done. }
  destruct Hone as (res & i' & Hrun & Hr). unfold wp, with_head. cbn. rewrite Hrun.
  destruct Hr as [(-> & Hrem & Hsk)|(-> & Hsk & Hno & Heq)].
  - destruct IH as (rc & l' & Hrun' & Hpost). rewrite Hrun'. exists rc, (i' :: l'). split; [done|].
    destruct Hpost as [(-> & Hall & Hin)|(-> & l1 & j & l2 & l1' & j' & -> & -> & Hall & Hin & Hj)].
    + left. split_and!; [done|by constructor|by constructor].
    + right. split; [done|]. exists (i :: l1), j, l2, (i' :: l1'), j'.
      split_and!; [done|done|by constructor|by constructor|by destruct Hj as (?&?&?)..].
  - exists RC.RECORD_NOT_EXIST, (i' :: l). split; [done|]. right. split; [done|].
    exists [], i, l, [], i'. by split_and!.
Qed.

(** Undoing: the entries that were added are taken out again, and the loop stops at the
    index that refused. *)
Lemma wp_undo_each m data rid l1 i l2 l1' i' :
  Forall (ready m data rid) (l1 ++ i :: l2) → Forall2 (added m data rid) l1 l1' →
  skips m data i = false → index_holds i data rid = false → index_equiv i i' →
  wp (each_index trx_fields index_delete_entry
        (λ rc, negb (RC.succ rc) && (bool_decide (rc ≠ RC.RECORD_INVALID_KEY) || negb false))
        data rid m (length (l1' ++ i' :: l2)) RC.SUCCESS) (l1' ++ i' :: l2)
    (λ _ l', Forall2 index_equiv (l1 ++ i :: l2) l').
Proof.
  intros Hready Hadded Hsk Hno Heq. apply Forall_app in Hready as [Hr1 Hr2].
  apply Forall_cons in Hr2 as [(Hok & Hacc & Hnull) Hr2].
  assert (Forall (ready m data rid) l1') as Hr1'.
  { clear -Hadded Hr1. induction Hadded as [|j j' l1 l1' Hj Hadded IH]; [constructor|].
    apply Forall_cons in Hr1 as [(Hok & Hacc & Hnull) Hr1]. constructor; [|by apply IH].
    unfold added in Hj. destruct (skips m data j); [by subst|]. destruct Hj as (_ & Hst & Hok' & _).
    split_and!; [done|by apply Hst|by eapply nulls_known_static]. }
  assert (Forall (λ j, skips m data j = true ∨ index_holds j data rid = true) l1') as Hheld.
  { clear -Hadded Hr1. induction Hadded as [|j j' l1 l1' Hj Hadded IH]; [constructor|].
    apply Forall_cons in Hr1 as [(Hok & Hacc & Hnull) Hr1]. constructor; [|by apply IH].
    unfold added in Hj. destruct (skips m data j) eqn:Hsk; [by subst; left|right].
    destruct Hj as (_ & _ & _ & Hadd). rewrite Hadd, index_same_refl by done. apply orb_true_r. }
  assert (∀ l1 l1' l1'', Forall (ready m data rid) l1 → Forall2 (added m data rid) l1 l1' →
    Forall2 (removed m data rid) l1' l1'' → Forall2 index_equiv l1 l1'') as Hback.
  { clear. intros l1 l1' l1'' Hr Hadd. revert l1''. induction Hadd as [|j j' l1 l1' Hj Hadded IH].
    - intros l1'' Hrem. inversion Hrem. constructor.
    - intros l1'' Hrem. inversion Hrem as [|? j'' ? l'' Hj'' Hrem'']; subst.
      apply Forall_cons in Hr as [(Hok & Hacc & Hnull) Hr]. constructor; [|by apply IH].
      unfold added, removed in Hj, Hj''. destruct (skips m data j) eqn:Hsk.
      + subst j'. rewrite Hsk in Hj''. subst. apply index_equiv_refl.
      + destruct Hj as (Hno & Hst & Hok' & Hadd). rewrite (skips_static _ _ _ _ Hst), Hsk in Hj''.
        by eapply removed_added. }
  destruct Heq as (Hst & Hok' & Hh).
  eapply wp_mono.
  { apply wp_delete_each; [|done|done|done]. apply Forall_app. split; [done|]. constructor; [|done].
    split_and!; [by apply Hok'|by apply Hst|by eapply nulls_known_static]. }
  intros rc l' [(_ & _ & Hin)|(_ & k1 & j & k2 & k1' & j' & Hl & -> & Hrem & Hin & Hskj & Hnoj & Hej)].
  - exfalso. apply Forall_app in Hin as [_ Hin]. apply Forall_cons in Hin as [[Hx|Hx] _].
    + rewrite (skips_static _ _ _ _ Hst) in Hx. congruence.
    + rewrite Hh in Hx by done. congruence.
  - assert (k1 = l1' ∧ j = i' ∧ k2 = l2) as (-> & -> & ->).
    { clear -Hl Hheld Hin Hskj Hnoj Hsk Hno Hst Hh Hacc.
      assert (skips m data i' = false ∧ index_holds i' data rid = false) as [Hski' Hnoi'].
      { rewrite (skips_static _ _ _ _ Hst), Hh by done. done. }
      clear -Hl Hheld Hin Hskj Hnoj Hski' Hnoi'.
      revert k1 Hl Hin. induction l1' as [|a l1' IH]; intros [|b k1] Hl Hin; cbn in Hl.
      - by injection Hl as -> ->.
      - injection Hl as -> _. apply Forall_cons in Hin as [[?|?] _]; congruence.
      - injection Hl as -> _. apply Forall_cons in Hheld as [[?|?] _]; congruence.
      - injection Hl as -> Hl. apply Forall_cons in Hin as [_ Hin]. apply Forall_cons in Hheld as [_ Hheld].
        destruct (IH Hheld k1 Hl Hin) as (-> & -> & ->). done. }
    apply Forall2_app; [by eapply Hback|]. constructor.
    + destruct Hej as (Hst' & Hok'' & Hh'). split_and!; [by eapply static_trans|naive_solver|].
      intros d r Hd. rewrite Hh' by by apply Hst. by apply Hh.
    + apply indexes_equiv_refl.
Qed.
End indexes.

(** ** The records an index follows *)
Section follows.
Context {I : Type} `{!IndexOps I} `{!IndexSpec I}.
Context (trx_fields : option (list FieldMeta.t)) (m : TableMeta.t).
Implicit Types (i : I) (l : list I) (d data : memory) (r rid : RID.t).
Implicit Types (look : RID.t → option memory).

Definition look_set look rid (od : option memory) : RID.t → option memory :=
  λ r, if decide (r = rid) then od else look r.
(** An index holds the entries of the records without null in its fields, and no more. *)
Definition in_step look i : Prop :=
  ∀ d r, index_accepts i d r → index_holds i d r = true ↔
    ∃ d', look r = Some d' ∧ skips trx_fields m d' i = false ∧ index_same i d r d' r = true.
(** An index is over fields of the user, and takes the records of the table. *)
Definition index_fits i : Prop :=
  index_ok i ∧ (∀ f, f ∈ field_metas i → f ∈ TableMeta.user_fields trx_fields m) ∧
  ∀ d r, Z.of_nat (length d) = TableMeta.record_size m → RID.valid r → index_accepts i d r.
Definition follows look i : Prop := index_fits i ∧ in_step look i.

Lemma same_sym i d r d' r' :
  index_accepts i d r → index_accepts i d' r' → index_same i d r d' r' = true →
  index_same i d' r' d r = true.
Proof.
  intros Ha Ha' Hs. rewrite <-(index_same_trans i d r d' r' d r) by done. by apply index_same_refl.
Qed.

Lemma fits_static i i' : index_static i i' → index_ok i' → index_fits i → index_fits i'.
Proof.
  intros Hst Hok (_ & Hf & Ha). split_and!; [done| |].
  - by destruct Hst as [-> _].
  - intros d r Hd Hr. apply Hst. by apply Ha.
Qed.
Lemma in_step_ext look look' i : (∀ r, look' r = look r) → in_step look i → in_step look' i.
Proof. intros Heq Hs d r Hd. rewrite (Hs d r Hd). by setoid_rewrite Heq. Qed.
Lemma follows_ext look look' l :
  (∀ r, look' r = look r) → Forall (follows look) l → Forall (follows look') l.
Proof.
  intros Heq Hl. eapply Forall_impl; [exact Hl|]. intros i [Hf Hs]. split; [done|by eapply in_step_ext].
Qed.
Lemma follows_equiv look l l' :
  Forall2 index_equiv l l' → Forall (follows look) l → Forall (follows look) l'.
Proof.
  induction 1 as [|i i' l l' (Hst & Hok & Hh) Hl IH]; [done|]. intros [[Hf Hs] Hfs]%Forall_cons.
  constructor; [|by apply IH]. split; [apply (fits_static i); [done|apply Hok, Hf|done]|].
  intros d r Hd. apply Hst in Hd. rewrite Hh, (Hs d r Hd) by done. pose proof Hst as (_ & _ & _ & Hsm).
  setoid_rewrite Hsm. by setoid_rewrite (skips_static trx_fields m _ _ _ Hst).
Qed.

Lemma follows_added look data rid i i' :
  look rid = None → index_accepts i data rid →
  follows look i → added trx_fields m data rid i i' → follows (look_set look rid (Some data)) i'.
Proof.
  intros Hnew Hacc [Hf Hs] Hadd. unfold added in Hadd. unfold in_step in Hs.
  destruct (skips trx_fields m data i) eqn:Hsk.
  - subst i'. split; [done|]. intros d r Hd. rewrite Hs by done. unfold look_set.
    case_decide as Hr; [subst r|done]. rewrite Hnew.
    split; [by intros (d' & ? & _)|]. intros (d' & [= <-] & Hx & _). congruence.
  - destruct Hadd as (_ & Hst & Hok' & Hadd). split; [by eapply fits_static|].
    intros d r Hd. apply Hst in Hd. rewrite Hadd, orb_true_iff, Hs by done.
    pose proof Hst as (_ & _ & _ & Hsm). setoid_rewrite Hsm.
    setoid_rewrite (skips_static trx_fields m _ _ _ Hst). unfold look_set. case_decide as Hr.
    + subst r. rewrite Hnew. split.
      * intros [(d' & ? & _)|Hx]; [done|]. exists data. split_and!; [done..|]. by apply same_sym.
      * intros (d' & [= <-] & _ & Hx). right. by apply same_sym.
    + split; [|by left]. intros [?|Hx]; [done|]. destruct Hr.
      by rewrite (index_same_rid i data rid d r Hacc Hd Hx).
Qed.
Lemma follows_removed look data rid i i' :
  look rid = Some data → index_accepts i data rid →
  follows look i → removed trx_fields m data rid i i' → follows (look_set look rid None) i'.
Proof.
  intros Hold Hacc [Hf Hs] Hrem. unfold removed in Hrem. unfold in_step in Hs.
  destruct (skips trx_fields m data i) eqn:Hsk.
  - subst i'. split; [done|]. intros d r Hd. rewrite Hs by done. unfold look_set.
    case_decide as Hr; [subst r|done]. rewrite Hold.
    split; [|by intros (d' & ? & _)]. intros (d' & [= <-] & Hx & _). congruence.
  - destruct Hrem as (Hst & Hok' & Hrem). split; [by eapply fits_static|].
    intros d r Hd. apply Hst in Hd. rewrite Hrem, andb_true_iff, negb_true_iff, Hs by done.
    pose proof Hst as (_ & _ & _ & Hsm). setoid_rewrite Hsm.
    setoid_rewrite (skips_static trx_fields m _ _ _ Hst). unfold look_set. case_decide as Hr.
    + subst r. rewrite Hold. split; [|by intros (d' & ? & _)].
      intros [(d' & [= <-] & _ & Hx) Hn]. apply same_sym in Hx; [congruence|done..].
    + split; [by intros [? _]|]. intros Hx. split; [done|]. apply not_true_is_false. intros Hy.
      destruct Hr. by rewrite (index_same_rid i data rid d r Hacc Hd Hy).
Qed.
Lemma all_added look data rid l l' :
  look rid = None → Forall (ready trx_fields m data rid) l →
  Forall (follows look) l → Forall2 (added trx_fields m data rid) l l' →
  Forall (follows (look_set look rid (Some data))) l'.
Proof.
  intros Hnew Hr Hf Hadd. revert Hr Hf. induction Hadd as [|i i' l l' Hi Hadd IH]; [done|].
  intros [(_ & Hacc & _) Hr]%Forall_cons [Hfi Hf]%Forall_cons.
  constructor; [by eapply follows_added|by apply IH].
Qed.
Lemma all_removed look data rid l l' :
  look rid = Some data → Forall (ready trx_fields m data rid) l →
  Forall (follows look) l → Forall2 (removed trx_fields m data rid) l l' →
  Forall (follows (look_set look rid None)) l'.
Proof.
  intros Hold Hr Hf Hrem. revert Hr Hf. induction Hrem as [|i i' l l' Hi Hrem IH]; [done|].
  intros [(_ & Hacc & _) Hr]%Forall_cons [Hfi Hf]%Forall_cons.
  constructor; [by eapply follows_removed|by apply IH].
Qed.

(** The entry of a record of the file is in the indexes, that of another is not. *)
Lemma follows_holds look data rid l :
  look rid = Some data → Forall (follows look) l → Forall (ready trx_fields m data rid) l →
  Forall (λ i, skips trx_fields m data i = false → index_holds i data rid = true) l.
Proof.
  intros Hl Hf Hr. rewrite Forall_forall in *. intros i Hi Hsk.
  destruct (Hr i Hi) as (_ & Hacc & _). destruct (Hf i Hi) as [_ Hs].
  apply Hs; [done|]. exists data. split_and!; [done..|]. by apply index_same_refl.
Qed.
Lemma follows_misses look data rid l :
  look rid = None → Forall (follows look) l → Forall (ready trx_fields m data rid) l →
  Forall (λ i, index_holds i data rid = false) l.
Proof.
  intros Hl Hf Hr. rewrite Forall_forall in *. intros i Hi.
  destruct (Hr i Hi) as (_ & Hacc & _). destruct (Hf i Hi) as [_ Hs].
  apply not_true_is_false. intros (d' & Hd' & _)%(Hs data rid); [congruence|done].
Qed.

(** *** What filling a new index puts into it, nulls and all *)
Lemma wp_fill_holds (records : list (RID.t * memory)) i :
  index_ok i → Forall (λ e, index_accepts i e.2 e.1) records →
  (∀ pre rest i', records = pre ++ rest → fill_index pre i = Done (RC.SUCCESS, i') → index_room i') →
  wp (fill_index records) i (λ rc i', index_ok i' ∧ index_static i i' ∧
    ((rc = RC.SUCCESS ∧ ∀ d r, index_accepts i d r →
        index_holds i' d r = index_holds i d r || existsb (λ e, index_same i e.2 e.1 d r) records) ∨
     (rc = RC.RECORD_DUPLICATE_KEY ∧ ∃ pre e rest i1, records = pre ++ e :: rest ∧ fill_index pre i = Done (RC.SUCCESS, i1) ∧
        (index_holds i1 e.2 e.1 = true ∨ index_duplicate i1 e.2) ∧
        ∀ d r, index_accepts i d r →
          index_holds i1 d r = index_holds i d r || existsb (λ e, index_same i e.2 e.1 d r) pre))).
Proof.
  revert i. induction records as [|[rid d] records IH]; intros i Hok Hacc Hroom.
  { apply wp_ret. split; [done|]. split; [apply static_refl|]. left. split; [done|]. intros. by rewrite orb_false_r. }
  apply Forall_cons in Hacc as [Hd Hacc]. cbn in Hd.
  destruct (index_insert_spec i d rid Hok (Hroom [] ((rid, d) :: records) i eq_refl eq_refl) Hd) as (rc & i1 & Hrun & Hok1 & Hst & Hpost).
  cbn [fill_index]. apply wp_bind. eexists _, _. split; [exact Hrun|].
  destruct Hpost as [(-> & Hno & Hadd)|(-> & Hdup & Hsame)].
  2:{ apply wp_ret. split; [done|]. split; [done|]. right. split; [done|]. exists [], (rid, d), records, i.
      split; [done|]. split; [done|]. split; [exact Hdup|]. intros. by rewrite orb_false_r. }
  change (RC.succ RC.SUCCESS) with true. cbv iota. pose proof Hst as (_ & _ & Ha & Hs).
  assert (∀ pre, fill_index ((rid, d) :: pre) i = fill_index pre i1) as Hfill.
  { intros pre. cbn [fill_index]. unfold mbind, ST_bind. by rewrite Hrun. }
  eapply wp_mono.
  - apply (IH i1 Hok1).
    + eapply Forall_impl; [exact Hacc|]. intros e. by apply Ha.
    + intros pre rest i' -> Hpre. apply (Hroom ((rid, d) :: pre) rest); [done|]. by rewrite Hfill.
  - intros rc i' (Hok' & Hst' & Hres). split; [done|]. split; [by eapply static_trans|].
    assert (∀ (l : list (RID.t * memory)) d' r', index_accepts i d' r' →
      index_holds i1 d' r' || existsb (λ e, index_same i1 e.2 e.1 d' r') l =
      index_holds i d' r' || existsb (λ e, index_same i e.2 e.1 d' r') ((rid, d) :: l)) as Heq.
    { intros l d' r' Hd'. rewrite Hadd by done. cbn [existsb fst snd]. rewrite <-orb_assoc. do 2 f_equal.
      induction l as [|e l IHl]; [done|]. cbn [existsb]. by rewrite Hs, IHl. }
    destruct Hres as [(-> & Hh)|(-> & pre & e & rest & i2 & -> & Hpre & Hdup & Hh)].
    + left. split; [done|]. intros d' r' Hd'. rewrite Hh by by apply Ha. by apply Heq.
    + right. split; [done|]. exists ((rid, d) :: pre), e, rest, i2. split; [done|]. split; [by rewrite Hfill|].
      split; [done|]. intros d' r' Hd'. rewrite Hh by by apply Ha. by apply Heq.
Qed.

(** The null bits of a record of the right size are there. *)
Lemma null_bit_there data (k : nat) :
  meta_wf trx_fields m → Z.of_nat (length data) = TableMeta.record_size m →
  (k < TableMeta.field_num m)%nat → is_Some (TableMeta.null_bit trx_fields m data k).
Proof.
  intros Hm Hlen Hk. destruct (mw_null _ _ Hm) as (f & Hf & Hbits).
  unfold TableMeta.null_bit, TableMeta.bitmap_of_null_field. rewrite Hf. cbn.
  apply Bitmap.get_bit_is_Some. rewrite length_drop.
  destruct (chained_bounds _ _ _ _ _ (mw_chained _ _ Hm) Hf). lia.
Qed.
Lemma nulls_known_fits data i :
  meta_wf trx_fields m → Z.of_nat (length data) = TableMeta.record_size m →
  (∀ f, f ∈ field_metas i → f ∈ TableMeta.user_fields trx_fields m) → nulls_known trx_fields m data i.
Proof.
  intros Hm Hlen Hin. unfold nulls_known, skips.
  assert (∃ b, has_null trx_fields m data (field_metas i) = Some (inr b)) as [b ->]; [|done].
  induction (field_metas i) as [|f fs IH]; [by eexists|]. cbn [has_null].
  destruct (list_elem_of_lookup_1 _ _ (user_field_in _ _ _ (Hin f ltac:(by left)))) as [k Hk].
  unfold TableMeta.field_index.
  rewrite (chained_index _ _ _ _ _ 0 (mw_chained _ _ Hm) Hk), Z.add_0_l.
  rewrite decide_False by lia. rewrite Nat2Z.id.
  destruct (null_bit_there data k Hm Hlen) as [b ->]; [by eapply lookup_lt_Some|].
  cbn. destruct b; [by eexists|]. apply IH. intros g Hg. apply Hin. by right.
Qed.
Lemma all_ready look data rid l :
  meta_wf trx_fields m → Forall (follows look) l →
  Z.of_nat (length data) = TableMeta.record_size m → RID.valid rid →
  Forall (ready trx_fields m data rid) l.
Proof.
  intros Hm Hf Hlen Hrid. eapply Forall_impl; [exact Hf|]. intros i [(Hok & Hin & Ha) _].
  split_and!; [done|by apply Ha|]. by apply nulls_known_fits.
Qed.
End follows.

(** ** The invariant of a table *)
Section table.
Context {I : Type} `{!IndexOps I} `{!IndexSpec I}.
Context (trx_fields : option (list FieldMeta.t)).
Implicit Types (t : table I) (l : list I) (data : memory) (rid : RID.t).

Definition rec_size t : Z := TableMeta.record_size (table_meta_ t).
Definition table_lookup t rid : option memory := file_lookup (record_handler_ t) rid.
(** The indexes hold the entries of the records of [look]; in a well-formed table these
    are the records of the file. *)
Record table_inv (look : RID.t → option memory) t : Prop := {
  tw_meta : meta_wf trx_fields (table_meta_ t);
  tw_file : file_wf (rec_size t) (record_handler_ t);
  tw_follows : Forall (follows trx_fields (table_meta_ t) look) (indexes_ t)
}.
Definition table_wf t : Prop := table_inv (table_lookup t) t.

Lemma table_inv_ext look look' t : (∀ rid, look' rid = look rid) → table_inv look t → table_inv look' t.
Proof. intros Heq [Hm Hf Hl]. split; [done|done|]. by eapply follows_ext. Qed.
Lemma table_inv_wf look t : (∀ rid, table_lookup t rid = look rid) → table_inv look t → table_wf t.
Proof. intros Heq. by apply table_inv_ext. Qed.

Lemma rec_size_pos look t : table_inv look t → 0 < rec_size t.
Proof.
  intros Hwf. pose proof (tw_meta _ _ Hwf) as Hm. destruct (mw_null _ _ Hm) as (f & Hf & Hl).
  destruct (chained_bounds _ _ _ _ _ (mw_chained _ _ Hm) Hf). pose proof (mw_user _ _ Hm).
  unfold rec_size. lia.
Qed.
Lemma file_lookup_length size s rid d :
  0 <= size → file_wf size s → file_lookup s rid = Some d → Z.of_nat (length d) = size.
Proof.
  intros Hsz Hwf. unfold file_lookup. case_decide; [|done].
  destruct (record_pages s !! RID.page_num rid) as [pg|] eqn:Hp; [|done]. cbn.
  destruct (fw_page _ _ Hwf _ _ Hp) as [Hpg Hreal]. intros (_ & _ & Hc)%page_lookup_Some.
  destruct (cells pg !! _) as [cell|] eqn:Hcell; [|done]. injection Hc as <-.
  pose proof (pw_cell _ Hpg _ _ Hcell). rewrite length_take. lia.
Qed.
Lemma table_lookup_valid look t rid data :
  table_inv look t → table_lookup t rid = Some data →
  RID.valid rid ∧ RID.page_num rid ≠ BP_HEADER_PAGE ∧ Z.of_nat (length data) = rec_size t.
Proof.
  intros Hwf Hl. pose proof (tw_file _ _ Hwf) as Hfile. pose proof (rec_size_pos _ _ Hwf). split_and!.
  - by eapply file_rid_valid.
  - unfold table_lookup, file_lookup in Hl. case_decide; [|done].
    destruct (record_pages _ !! RID.page_num rid) eqn:Hp; [|done]. by eapply page_not_header.
  - eapply file_lookup_length; [|done..]. lia.
Qed.

Lemma wp_on_handler {A} t (c : ST file_state A) (Q : A → table I → Prop) :
  wp c (record_handler_ t) (λ a h, Q a (set_handler h t)) → wp (on_handler c) t Q.
Proof. intros (a & h & Hc & HQ). exists a, (set_handler h t). unfold on_handler. by rewrite Hc. Qed.
Lemma wp_on_indexes {A} t (c : TableMeta.t → ST (list I) A) (Q : A → table I → Prop) :
  wp (c (table_meta_ t)) (indexes_ t) (λ a l, Q a (set_indexes l t)) → wp (on_indexes c) t Q.
Proof. intros (a & l & Hc & HQ). exists a, (set_indexes l t). unfold on_indexes. by rewrite Hc. Qed.

(** Deleting the entries of a record of the file from the indexes that follow it. *)
Lemma wp_delete_entries t look data rid e :
  look rid = Some data → meta_wf trx_fields (table_meta_ t) →
  Forall (follows trx_fields (table_meta_ t) look) (indexes_ t) →
  Z.of_nat (length data) = rec_size t → RID.valid rid →
  wp (delete_entry_of_indexes trx_fields data rid e) t (λ rc t', rc = RC.SUCCESS ∧
    ∃ l, t' = set_indexes l t ∧
    Forall (follows trx_fields (table_meta_ t) (look_set look rid None)) l).
Proof.
  intros Hlook Hm Hf Hlen Hvalid. pose proof (all_ready _ _ _ _ _ _ Hm Hf Hlen Hvalid) as Hready.
  pose proof (follows_holds _ _ _ _ _ _ Hlook Hf Hready) as Hheld.
  unfold delete_entry_of_indexes. apply wp_on_indexes, wp_bind, wp_get.
  eapply wp_mono; [apply wp_delete_each; [done|done|by destruct e|done]|].
  intros rc l' [(-> & Hrem & _)|(_ & l1 & i & l2 & l1' & i' & Heq & _ & _ & _ & Hsk & Hno & _)].
  - split; [done|]. exists l'. split; [done|]. by eapply all_removed.
  - exfalso. rewrite Heq in Hheld. apply Forall_app in Hheld as [_ [Hx _]%Forall_cons].
    rewrite Hx in Hno by done. done.
Qed.

(** Inserting the entries of a record that is to come: all of them, or those of the
    indexes before the one that refuses. *)
Lemma wp_insert_entries t look data rid :
  look rid = None → meta_wf trx_fields (table_meta_ t) →
  Forall (follows trx_fields (table_meta_ t) look) (indexes_ t) → Forall index_room (indexes_ t) →
  Z.of_nat (length data) = rec_size t → RID.valid rid →
  wp (insert_entry_of_indexes trx_fields data rid) t (λ rc t', ∃ l, t' = set_indexes l t ∧
    ((rc = RC.SUCCESS ∧ Forall (follows trx_fields (table_meta_ t) (look_set look rid (Some data))) l) ∨
     (rc = RC.RECORD_DUPLICATE_KEY ∧ ∃ l1 i l2 l1' i', indexes_ t = l1 ++ i :: l2 ∧ l = l1' ++ i' :: l2 ∧
       Forall2 (added trx_fields (table_meta_ t) data rid) l1 l1' ∧
       skips trx_fields (table_meta_ t) data i = false ∧ index_equiv i i' ∧ index_duplicate i data ∧
       Forall (follows trx_fields (table_meta_ t) (look_set look rid (Some data))) l1' ∧
       Forall (follows trx_fields (table_meta_ t) look) (i' :: l2)))).
Proof.
  intros Hlook Hm Hf Hroom Hlen Hvalid. pose proof (all_ready _ _ _ _ _ _ Hm Hf Hlen Hvalid) as Hready.
  unfold insert_entry_of_indexes. apply wp_on_indexes, wp_bind, wp_get.
  eapply wp_mono; [apply wp_insert_each; [by apply Forall_and|done]|].
  pose proof (follows_misses _ _ _ _ _ _ Hlook Hf Hready) as Hmiss.
  intros rc l' [[-> Hadd]|(-> & l1 & i & l2 & l1' & i' & Hl & -> & Hadd & Hsk & Heq & Hdup)].
  - exists l'. split; [done|]. left. split; [done|]. by eapply all_added.
  - exists (l1' ++ i' :: l2). split; [done|]. right. split; [done|].
    exists l1, i, l2, l1', i'. rewrite Hl in Hready, Hf.
    apply Forall_app in Hready as [Hr1 _]. apply Forall_app in Hf as [Hf1 Hf2].
    rewrite Hl in Hmiss. apply Forall_app in Hmiss as [_ [Hm1 _]%Forall_cons].
    assert (index_duplicate i data) by (destruct Hdup as [Hd|?]; [by rewrite Hm1 in Hd|done]).
    split; [done|]. split; [done|]. split; [done|]. split; [done|]. split; [done|]. split; [done|].
    split; [by eapply all_added|].
    apply (follows_equiv _ _ _ (i :: l2)); [|done]. constructor; [done|apply indexes_equiv_refl].
Qed.

(** ** Insertion *)
Section insert.
Context (begin : gset PageNum → PageNum) (Hbegin : ∀ X, X ≠ ∅ → begin X ∈ X).
Context (flush_page : PageNum → RC.t) (Hflush : ∀ p, flush_page p = RC.SUCCESS).
Context (area : PageNum → nat → memory) (fuel : nat) (Hfuel : (1 <= fuel)%nat).

(** What a record file of records of the size [size] needs. *)
Definition storable (size : Z) : Prop :=
  0 < size < 2 ^ 20 ∧ (∀ p (k : nat), size <= Z.of_nat (length (area p k))) ∧
  ∀ h, init_header fuel size = Some h → 0 < record_capacity h.

(** The file of [t] is the file [h0] with the record, and the indexes follow [look]. *)
Lemma wp_insert_into_indexes t data rid h0 look :
  table_inv look (set_handler h0 t) →
  file_step (rec_size t) h0 rid (Some data) (record_handler_ t) →
  file_lookup h0 rid = None → look rid = None →
  Z.of_nat (length data) = rec_size t → Forall index_room (indexes_ t) →
  wp (insert_into_indexes trx_fields data rid) t (λ rc t', table_meta_ t' = table_meta_ t ∧
    ((rc = RC.SUCCESS ∧ table_inv (look_set look rid (Some data)) t' ∧
      ∀ rid', table_lookup t' rid' = table_lookup t rid') ∨
     (rc = RC.RECORD_DUPLICATE_KEY ∧ (∃ i, i ∈ indexes_ t ∧ index_duplicate i data) ∧ table_inv look t' ∧
      ∀ rid', table_lookup t' rid' = file_lookup h0 rid'))).
Proof.
  intros [Hm _ Hf] [Hfile Hlook] Hnew Hno Hlen Hroom. cbn in Hm, Hf.
  assert (file_lookup (record_handler_ t) rid = Some data) as Hnow by by rewrite Hlook, decide_True.
  pose proof (file_rid_valid _ _ _ _ Hfile Hnow) as Hvalid.
  pose proof (all_ready _ _ _ _ _ _ Hm Hf Hlen Hvalid) as Hready.
  unfold insert_into_indexes. apply wp_bind.
  eapply wp_mono; [by apply (wp_insert_entries t look)|].
  intros rc t1 (l & -> & [[-> Hl]|(-> & l1 & i & l2 & l1' & i' & Hl & -> & Hadd & Hsk & Heq & Hdup & _)]).
  - change (RC.succ RC.SUCCESS) with true. apply wp_ret. split; [done|]. by left.
  - change (RC.succ RC.RECORD_DUPLICATE_KEY) with false. cbv iota.
    unfold delete_entry_of_indexes. apply wp_bind, wp_on_indexes, wp_bind, wp_get. cbn [indexes_ set_indexes].
    pose proof (follows_misses _ _ _ _ _ _ Hno Hf Hready) as Hmiss. rewrite Hl in Hready, Hmiss.
    eapply wp_mono.
    { eapply (wp_undo_each trx_fields (table_meta_ t) data rid l1 i l2); try done.
      by apply Forall_app in Hmiss as [_ [? _]%Forall_cons]. }
    intros rc' l' Hequiv. apply wp_bind, wp_on_handler. rewrite <-Hl in Hequiv. cbn.
    eapply wp_mono.
    { apply (wp_delete_record Hfile); [apply Hvalid|].
      unfold file_lookup in Hnow. case_decide; [|done].
      destruct (record_pages _ !! RID.page_num rid) eqn:Hp; [|done]. by eapply page_not_header. }
    intros rc2 h2 Hdel. rewrite Hnow in Hdel. destruct Hdel as (_ & Hfile2 & Hlook2). apply wp_ret.
    split; [done|]. right. split; [done|]. split; [exists i; split; [rewrite Hl; apply elem_of_app; right; left|done]|]. split.
    + split; [done|done|]. by eapply follows_equiv.
    + intros rid'. unfold table_lookup. cbn. rewrite Hlook2, Hlook. by case_decide; [subst; rewrite Hnew|].
Qed.

Lemma wp_table_insert_inv t data look :
  table_inv look t → (∀ rid, table_lookup t rid = None → look rid = None) →
  storable (rec_size t) → Z.of_nat (length data) = rec_size t → Forall index_room (indexes_ t) →
  wp (Table.insert_record trx_fields begin flush_page area fuel data) t (λ res t',
    table_meta_ t' = table_meta_ t ∧
    match res with
    | inr rid => table_lookup t rid = None ∧ table_inv (look_set look rid (Some data)) t' ∧
        ∀ rid', table_lookup t' rid' = look_set (table_lookup t) rid (Some data) rid'
    | inl rc => (rc = RC.RECORD_DUPLICATE_KEY ∨ rc = RC.BUFFERPOOL_NOBUF) ∧ table_inv look t' ∧
        ∀ rid', table_lookup t' rid' = table_lookup t rid'
    end).
Proof.
  intros Hwf Hsub (Hsize & Harea & Hroom) Hlen Hroomi. unfold Table.insert_record.
  apply wp_bind, wp_get, wp_bind, wp_on_handler.
  eapply wp_mono.
  { apply (wp_insert_record begin Hbegin flush_page Hflush area Harea Hsize fuel Hfuel Hroom);
      [apply Hwf|unfold rec_size in *; lia]. }
  intros [rc|rid] h Hpost.
  - destruct Hpost as (-> & Hsame & Hh & _). apply wp_ret. split; [done|].
    split_and!; [by right|split; [apply Hwf|done|apply Hwf]|]. intros rid'. by apply same_file_lookup.
  - destruct Hpost as (Hnone & Hpage & Hslot & Hstep). apply wp_bind.
    rewrite take_ge in Hstep by (unfold rec_size in *; lia).
    eapply wp_mono.
    { apply (wp_insert_into_indexes (set_handler h t) data rid (record_handler_ t) look); try done.
      - by destruct t.
      - by apply Hsub. }
    intros rc t' (Hm & Hres). apply wp_ret. split; [done|].
    destruct Hres as [(-> & Hwf' & Hlook)|(-> & _ & Hwf' & Hlook)].
    + split_and!; [done|done|]. intros rid'. rewrite Hlook. apply Hstep.
    + split_and!; [by left|done|done].
Qed.
End insert.

(** ** Deletion and update *)
Lemma wp_table_delete_inv t data rid look :
  table_inv look t → table_lookup t rid = Some data → look rid = Some data →
  wp (Table.delete_record trx_fields data rid) t (λ rc t', rc = RC.SUCCESS ∧
    table_meta_ t' = table_meta_ t ∧ table_inv (look_set look rid None) t' ∧
    ∀ rid', table_lookup t' rid' = look_set (table_lookup t) rid None rid').
Proof.
  intros Hwf Hl Hlook. destruct (table_lookup_valid _ _ _ _ Hwf Hl) as (Hvalid & Hpage & Hlen).
  unfold Table.delete_record. apply wp_bind.
  eapply wp_mono; [by apply (wp_delete_entries t look); [|apply Hwf..| |]|].
  intros rc t1 (-> & l & -> & Hf). change (RC.succ RC.SUCCESS) with true. cbv iota.
  apply wp_on_handler. cbn.
  eapply wp_mono; [apply (wp_delete_record (tw_file _ _ Hwf)); [apply Hvalid|done]|].
  intros rc h Hdel. unfold table_lookup in Hl. rewrite Hl in Hdel. destruct Hdel as (-> & Hfile & Hlook').
  split_and!; [done|done| |done]. split; [apply Hwf|done|done].
Qed.

(** A visit in place leaves the indexes alone. *)
Lemma wp_table_visit_inv {A} t rid (visitor : memory → option (memory * A)) data data' a look :
  table_inv look t → table_lookup t rid = Some data → visitor data = Some (data', a) →
  length data' = length data →
  wp (Table.visit_record rid visitor) t (λ res t', res = inr a ∧
    table_meta_ t' = table_meta_ t ∧ indexes_ t' = indexes_ t ∧ table_inv look t' ∧
    ∀ rid', table_lookup t' rid' = look_set (table_lookup t) rid (Some data') rid').
Proof.
  intros Hwf Hl Hv Hlen. destruct (table_lookup_valid _ _ _ _ Hwf Hl) as (Hvalid & Hpage & Hlend).
  unfold Table.visit_record. apply wp_on_handler.
  eapply wp_mono.
  { eapply (wp_visit_record (tw_file _ _ Hwf)); [apply Hvalid|exact Hl|exact Hv|]. rewrite Hlen. lia. }
  intros res h (-> & [Hfile Hlook] & _). split_and!; [done..| |done]. split; [apply Hwf|done|apply Hwf].
Qed.

(** There is room for the entries after the deletion of the old ones, and after the
    insertion of the new ones. *)
Definition update_room t (old new : memory) rid : Prop :=
  ∀ rc t1, delete_entry_of_indexes trx_fields old rid false t = Done (rc, t1) →
    Forall index_room (indexes_ t1) ∧
    ∀ rc2 t2, insert_entry_of_indexes trx_fields new rid t1 = Done (rc2, t2) →
      Forall index_room (indexes_ t2).

(** The update of a record keeps the table well-formed when the new entries are taken;
    when an index refuses one, the records are as before. *)
Lemma wp_table_update t (old new : memory) rid :
  table_wf t → table_lookup t rid = Some old → Z.of_nat (length new) = rec_size t →
  update_room t old new rid →
  wp (Table.update_record trx_fields rid old new rid) t (λ rc t', table_meta_ t' = table_meta_ t ∧
    ((rc = RC.SUCCESS ∧ table_wf t' ∧
      ∀ rid', table_lookup t' rid' = if decide (rid' = rid) then Some new else table_lookup t rid') ∨
     (rc = RC.RECORD_DUPLICATE_KEY ∧ ∀ rid', table_lookup t' rid' = table_lookup t rid'))).
Proof.
  intros Hwf Hl Hnew Hroom. destruct (table_lookup_valid _ _ _ _ Hwf Hl) as (Hvalid & Hpage & Hlen).
  pose proof (tw_meta _ _ Hwf) as Hm. unfold Table.update_record. apply wp_bind.
  destruct (wp_delete_entries t (table_lookup t) old rid false Hl Hm (tw_follows _ _ Hwf) Hlen Hvalid)
    as (rc & t1 & Hdel & -> & l & -> & Hf).
  destruct (Hroom _ _ Hdel) as [Hroom1 Hroom2]. eexists _, _. split; [exact Hdel|].
  change (RC.succ RC.SUCCESS) with true. cbv iota. apply wp_bind.
  destruct (wp_insert_entries (set_indexes l t) (look_set (table_lookup t) rid None) new rid)
    as (rc & t2 & Hins & l2 & -> & Hpost); [by unfold look_set; rewrite decide_True|done..|].
  eexists _, _. split; [exact Hins|]. pose proof (Hroom2 _ _ Hins) as Hr2. cbn in Hr2.
  destruct Hpost as [[-> Hf2]|(-> & k1 & i & k2 & k1' & i' & Hk & -> & _ & _ & _ & _ & Hf1 & Hf2)].
  - change (RC.succ RC.SUCCESS) with true. cbn [negb]. apply wp_on_handler. cbn.
    eapply wp_mono.
    { apply (wp_update_record (tw_file _ _ Hwf)); [apply Hvalid|done|unfold rec_size in *; lia]. }
    intros rc h Hup. unfold table_lookup in Hl. rewrite Hl, take_ge in Hup by lia.
    destruct Hup as (-> & Hfile & Hlook). split; [done|]. left. split_and!; [done| |done].
    apply (table_inv_wf (look_set (look_set (table_lookup t) rid None) rid (Some new))).
    + intros r. unfold table_lookup. cbn. rewrite Hlook. unfold look_set. by case_decide.
    + by split.
  - change (RC.succ RC.RECORD_DUPLICATE_KEY) with false. cbn [negb]. apply wp_bind.
    unfold insert_entry_of_indexes. apply wp_on_indexes, wp_bind, wp_get. cbn.
    eapply wp_mono.
    { apply wp_insert_each; [|done]. apply Forall_and. split; [|done]. apply Forall_app. split.
      - by eapply all_ready.
      - by eapply all_ready. }
    intros rc' l' _. apply wp_ret. split; [done|]. by right.
Qed.

(** ** A new index *)
Lemma has_null_add_index m x data fs :
  has_null trx_fields (TableMeta.add_index m x) data fs = has_null trx_fields m data fs.
Proof.
  induction fs as [|f fs IH]; [done|]. cbn [has_null]. rewrite IH.
  change (TableMeta.field_index (TableMeta.add_index m x) f) with (TableMeta.field_index m f).
  case_decide; [done|]. reflexivity.
Qed.
Lemma follows_add_index m x (look : RID.t → option memory) l :
  Forall (follows trx_fields m look) l → Forall (follows trx_fields (TableMeta.add_index m x) look) l.
Proof. intros Hl. eapply Forall_impl; [exact Hl|]. intros i [Hf Hs].
  split; [exact Hf|]. intros d r Hd. rewrite (Hs d r Hd). unfold skips. by setoid_rewrite has_null_add_index.
Qed.

(** The new index has no entry, knows its fields, and has room for the records. *)
Record index_fresh t (i : I) : Prop := {
  if_fits : index_fits trx_fields (table_meta_ t) i;
  if_empty : ∀ d r, index_accepts i d r → index_holds i d r = false;
  if_room : ∀ pre i', pre `sublist_of` file_records (record_handler_ t) →
    fill_index pre i = Done (RC.SUCCESS, i') → index_room i'
}.
(** the record is one the scan hands to the index *)
Definition indexed t visit rid d : Prop :=
  table_lookup t rid = Some d ∧ verdict visit true (rid, d) = RC.SUCCESS.
(** no record is null in the fields of the index, and the transaction sees all of them *)
Definition all_indexed t visit i : Prop :=
  ∀ rid d, table_lookup t rid = Some d → skips trx_fields (table_meta_ t) d i = false ∧ indexed t visit rid d.
(** Two records a unique index takes for one. *)
Definition index_clash t visit i : Prop :=
  ∃ pre rid d i1, indexed t visit rid d ∧ fill_index pre i = Done (RC.SUCCESS, i1) ∧
    Forall (λ e, indexed t visit e.1 e.2 ∧ e.1 ≠ rid) pre ∧ index_duplicate i1 d.

Lemma new_index_filled t i visit (l : list (RID.t * memory)) :
  table_wf t → index_fresh t i → l `sublist_of` file_records (record_handler_ t) →
  (∀ e, e ∈ l → indexed t visit e.1 e.2) →
  wp (fill_index l) i (λ rc i', index_ok i' ∧ index_static i i' ∧
    ((rc = RC.SUCCESS ∧ ∀ d r, index_accepts i d r →
        index_holds i' d r = true ↔ ∃ d', (r, d') ∈ l ∧ index_same i d r d' r = true) ∨
     (rc = RC.RECORD_DUPLICATE_KEY ∧ index_clash t visit i))).
Proof.
  intros Hwf Hfresh Hsub Hl. pose proof (if_fits _ _ Hfresh) as (Hok & _ & Hacc).
  assert (∀ e, e ∈ l → index_accepts i e.2 e.1) as Haccs.
  { intros e He. destruct (Hl e He) as [Hlook _]. destruct (table_lookup_valid _ _ _ _ Hwf Hlook) as (? & _ & ?). by apply Hacc. }
  assert (∀ (pre : list (RID.t * memory)) d r, (∀ e, e ∈ pre → e ∈ l) → index_accepts i d r →
    index_holds i d r || existsb (λ e, index_same i e.2 e.1 d r) pre = true ↔
    ∃ d', (r, d') ∈ pre ∧ index_same i d r d' r = true) as Hex.
  { intros pre d r Hpre Hd. rewrite (if_empty _ _ Hfresh), orb_false_l, existsb_exists by done. split.
    - intros ([r' d'] & He%list_elem_of_In & Hs). cbn in Hs. pose proof (Haccs _ (Hpre _ He)) as Ha. cbn in Ha.
      assert (r' = r) as -> by by eapply index_same_rid. exists d'. split; [done|]. by apply same_sym.
    - intros (d' & He & Hs). exists (r, d'). split; [by apply list_elem_of_In|]. cbn. apply same_sym; [done| |done].
      by apply (Haccs (r, d')), Hpre. }
  eapply wp_mono.
  { apply wp_fill_holds; [done|by apply Forall_forall|]. intros pre rest i' -> Hpre.
    apply (if_room _ _ Hfresh pre i'); [|done]. etrans; [|exact Hsub]. by apply sublist_inserts_r. }
  intros rc i' (Hok' & Hst & [(-> & Hh)|(-> & pre & [r d] & rest & i1 & -> & Hfill & Hdup & Hh)]).
  - split; [done|]. split; [done|]. left. split; [done|]. intros d r Hd. rewrite Hh by done. by apply Hex.
  - split; [done|]. split; [done|]. right. split; [done|]. cbn in Hdup.
    assert (NoDup ((pre ++ (r, d) :: rest).*1)) as Hnd.
    { eapply sublist_NoDup; [|apply (fmap_sublist fst), Hsub]. apply pages_records_nodup. }
    rewrite fmap_app, fmap_cons in Hnd. apply NoDup_app in Hnd as (_ & Hnd & _).
    assert (∀ e, e ∈ pre → e.1 ≠ r) as Hne.
    { intros e He Heq. apply (Hnd e.1); [by apply list_elem_of_fmap_2|]. rewrite Heq. left. }
    exists pre, r, d, i1. split; [apply (Hl (r, d)), elem_of_app; right; left|]. split; [done|]. split.
    { apply Forall_forall. intros e He. split; [apply Hl, elem_of_app; by left|by apply Hne]. }
    destruct Hdup as [Hd|]; [|done]. exfalso.
    rewrite Hh in Hd by (apply (Haccs (r, d)), elem_of_app; right; left).
    apply Hex in Hd as (d' & He & _); [by apply (Hne _ He)| |apply (Haccs (r, d)), elem_of_app; right; left].
    intros e He. apply elem_of_app. by left.
Qed.
Lemma wp_create_index t i scan_fuel visit unique fields name write_meta :
  table_wf t → Forall Bitmap.byte_ok (BPFileHeader.bitmap (file_hdr (record_handler_ t))) →
  (length (file_records (record_handler_ t)) < scan_fuel)%nat → index_fresh t i →
  (∀ r, verdict visit true r ≠ RC.RECORD_EOF) → (∀ m, write_meta m = RC.SUCCESS) →
  wp (create_index scan_fuel visit unique fields name (inr i) write_meta) t (λ rc t',
    (rc = RC.SUCCESS ∧ (∀ rid, table_lookup t' rid = table_lookup t rid) ∧
      (∃ i', indexes_ t' = indexes_ t ++ [i'] ∧ index_static i i' ∧
        ∀ d r, index_accepts i d r →
          index_holds i' d r = true ↔ ∃ d', indexed t visit r d' ∧ index_same i d r d' r = true) ∧
      (all_indexed t visit i → table_wf t')) ∨
    (t' = t ∧ (rc = RC.INVALID_ARGUMENT ∨ (rc = RC.RECORD_DUPLICATE_KEY ∧ index_clash t visit i) ∨
      ∃ rid d, table_lookup t rid = Some d ∧ rc = verdict visit true (rid, d) ∧ rc ≠ RC.SUCCESS ∧ rc ≠ RC.RECORD_INVISIBLE))).
Proof.
  intros Hwf Hbytes Hfuel Hfresh Hverdict Hwrite. unfold create_index. apply wp_bind, wp_get.
  destruct (is_blank name || _); [apply wp_ret; right; split; [done|by left]|].
  destruct (TableMeta.find_index_by_fields _ _); [apply wp_ret; right; split; [done|by left]|].
  unfold IndexMeta.init. destruct (is_blank name); [apply wp_ret; right; split; [done|by left]|].
  pose proof (tw_file _ _ Hwf) as Hfile. set (F := file_records (record_handler_ t)) in *.
  rewrite (scan_file_outcome None visit true (record_handler_ t) Hfile Hbytes Hverdict) by done. fold F.
  set (K := base.filter _ F).
  assert (∀ rid d, (rid, d) ∈ F ↔ table_lookup t rid = Some d) as Hin by (intros; by eapply elem_of_file_records).
  assert (∀ e, e ∈ K ↔ table_lookup t e.1 = Some e.2 ∧ verdict visit true e ≠ RC.RECORD_INVISIBLE) as HK.
  { intros [rid d]. unfold K. rewrite list_elem_of_filter, Hin. unfold scan_keeps.
    rewrite andb_true_l, negb_true_iff, bool_decide_eq_false. cbn. tauto. }
  assert (K `sublist_of` F) as Hsub by apply sublist_filter.
  assert (∀ l : list (RID.t * memory), l `sublist_of` K → (∀ e, e ∈ l → verdict visit true e = RC.SUCCESS) →
    wp (fill_index l) i (λ rc i', index_ok i' ∧ index_static i i' ∧
      ((rc = RC.SUCCESS ∧ ∀ d r, index_accepts i d r →
          index_holds i' d r = true ↔ ∃ d', (r, d') ∈ l ∧ index_same i d r d' r = true) ∨
       (rc = RC.RECORD_DUPLICATE_KEY ∧ index_clash t visit i)))) as Hfill.
  { intros l Hl Hv. apply (new_index_filled t i visit l); [done|done|by etrans|].
    intros [r d] He. split; [|by apply Hv]. apply HK. apply (elem_of_submseteq l K (r, d)); [done|by apply sublist_submseteq]. }
  destruct (decide (Forall (λ e, verdict visit true e = RC.SUCCESS) K)) as [Hall|Hno].
  - rewrite Forall_forall in Hall. rewrite scan_outcome_all by done.
    destruct (Hfill K) as (rc & i' & -> & Hok' & Hst & [[-> Hh]|[-> Hclash]]); [done|done| |].
    2:{ apply wp_ret. right. split; [done|]. right. by left. }
    change (RC.succ RC.SUCCESS) with true. cbn [negb].
    apply wp_bind, wp_modify. rewrite Hwrite. apply wp_bind, wp_ret.
    change (RC.succ RC.SUCCESS) with true. cbv iota. apply wp_bind, wp_modify, wp_ret.
    assert (∀ d r, index_accepts i d r → index_holds i' d r = true ↔
      ∃ d', indexed t visit r d' ∧ index_same i d r d' r = true) as Hholds.
    { intros d r Hd. rewrite Hh by done. split; intros (d' & Hd' & Hs); exists d'; (split; [|done]).
      - split; [by apply (HK (r, d'))|by apply Hall].
      - apply HK. cbn. destruct Hd' as [? Hv]. split; [done|]. by rewrite Hv. }
    left. split; [done|]. split; [done|]. split; [by exists i'|]. intros Hai.
    split; [by destruct (tw_meta _ _ Hwf); split|apply Hwf|]. cbn. apply follows_add_index, Forall_app. split; [apply Hwf|].
    constructor; [|done]. split; [eapply fits_static; [exact Hst|done|apply (if_fits _ _ Hfresh)]|].
    intros d r Hd. pose proof Hst as (_ & _ & Ha & Hs). apply Ha in Hd. rewrite Hholds by done.
    setoid_rewrite Hs. setoid_rewrite (skips_static trx_fields _ _ _ _ Hst). split.
    + intros (d' & [Hl _] & Hsame). exists d'. split; [done|]. split; [by destruct (Hai r d' Hl)|done].
    + intros (d' & Hl & _ & Hsame). exists d'. split; [by destruct (Hai r d' Hl)|done].
  - assert (∃ r, r ∈ K ∧ verdict visit true r ≠ RC.SUCCESS) as Hex.
    { apply not_Forall_Exists, Exists_exists in Hno; [|apply _]. exact Hno. }
    destruct (scan_outcome_refused visit true K Hex) as ((r & Hr & Hrc & Hne) & Hp & Hall).
    destruct (scan_outcome _ _ K) as [scanned l] eqn:Hout. cbn [fst snd] in *. subst scanned.
    destruct (Hfill l) as (rc & i' & -> & Hok' & Hst & [[-> Hh]|[-> Hclash]]); [by destruct Hp as [k ->]; apply sublist_inserts_r|done| |].
    2:{ apply wp_ret. right. split; [done|]. right. by left. }
    change (RC.succ RC.SUCCESS) with true. cbv iota. apply HK in Hr as [Hl Hvis]. destruct r as [rid d].
    destruct (RC.succ _) eqn:Hs; [by apply bool_decide_eq_true_1 in Hs|]. apply wp_ret. right. split; [done|]. right. right.
    by exists rid, d.
Qed.
End table.
