(* ===== verification/TableBplus.v ===== *)
(** * B+ tree indexes of a table ([BplusTreeIndex], [storage/index/bplus_tree_index.cpp])

    An index of a table is a B+ tree handler whose keys are made of the indexed fields of
    a record and its RID: [TableBplus.v] shows that it keeps the promise [IndexSpec] of
    [Table.v]. *)
From S2P Require Import Prelude LowerBound RidKey Comparator BufferPool BufferPoolHeader LatchMemo.
From S2P Require Import BplusNode BplusTree BplusInv BplusState BplusIndex TableMeta Table.
From Stdlib Require Import ZArith Lia.
From stdpp Require Import base option strings gmap list.
Local Open Scope Z_scope.

(** [BplusTreeIndex]: the name and fields of [Index], and [index_handler_] *)
Record BplusTreeIndex : Type := MkBplusTreeIndex {
  index_meta_name : string;
  field_metas_ : list FieldMeta.t;
  key_config : supported;
  index_handler_ : state (index_key key_config) pool_header
}.
Definition field_offsets (fs : list FieldMeta.t) : list nat := (λ f, Z.to_nat (FieldMeta.offset f)) <$> fs.
Definition field_lengths (fs : list FieldMeta.t) : list nat := (λ f, Z.to_nat (FieldMeta.len f)) <$> fs.
Definition field_types (fs : list FieldMeta.t) : list AttrType := FieldMeta.type <$> fs.

(** the key [BplusTreeHandler::make_key] makes of a record *)
Definition record_key (i : BplusTreeIndex) (record : memory) (rid : RID.t) : option (index_key (key_config i)) :=
  make_index_key (key_config i) (field_offsets (field_metas_ i)) record rid.

(** an operation of [index_handler_] with the key of a record *)
Definition with_key (op : ∀ i : BplusTreeIndex, index_key (key_config i) →
    ST (state (index_key (key_config i)) pool_header) RC.t)
  (record : memory) (rid : RID.t) : ST BplusTreeIndex RC.t := λ i,
  match record_key i record rid with
  | None => Crash
  | Some key =>
      match op i key (index_handler_ i) with
      | Done (rc, h) => Done (rc, MkBplusTreeIndex (index_meta_name i) (field_metas_ i) (key_config i) h)
      | Crash => Crash
      | OutOfFuel => OutOfFuel
      end
  end.
(** [BplusTreeIndex::insert_entry] and [BplusTreeIndex::delete_entry] *)
Definition bplus_insert_entry (record : memory) (rid : RID.t) : ST BplusTreeIndex RC.t :=
  with_key (λ _ key, insert_entry 32 key rid) record rid.
Definition bplus_delete_entry (record : memory) (rid : RID.t) : ST BplusTreeIndex RC.t :=
  with_key (λ _ key, delete_entry 32 key) record rid.

#[global] Instance BplusTreeIndex_IndexOps : IndexOps BplusTreeIndex := {|
  index_name := index_meta_name;
  field_metas := field_metas_;
  index_insert_entry := bplus_insert_entry;
  index_delete_entry := bplus_delete_entry
|}.

(** ** The promise kept *)
Definition bplus_ok (i : BplusTreeIndex) : Prop := ∃ A, represents (index_handler_ i) A.
(** An index is created over fields of the table: its handler has their types and
    lengths. *)
Definition config_match (i : BplusTreeIndex) : Prop :=
  comparator (key_config i) = AttrComparator.mk (field_types (field_metas_ i)) (field_lengths (field_metas_ i)).
Definition bplus_accepts (i : BplusTreeIndex) (d : memory) (r : RID.t) : Prop :=
  config_match i ∧ RID.valid r ∧ is_Some (record_key i d r).
Definition bplus_same (i : BplusTreeIndex) (d : memory) (r : RID.t) (d' : memory) (r' : RID.t) : bool :=
  match record_key i d r, record_key i d' r' with
  | Some k, Some k' => bool_decide (key_cmp k k' = 0)
  | _, _ => false
  end.
(** The tree holds the entry of a record when it can delete it. *)
Definition bplus_holds (i : BplusTreeIndex) (d : memory) (r : RID.t) : bool :=
  match bplus_delete_entry d r i with Done (RC.SUCCESS, _) => true | _ => false end.

(** A unique index has an entry with the attributes of the record. *)
Definition bplus_duplicate (i : BplusTreeIndex) (d : memory) : Prop :=
  unique (file_header (index_handler_ i)) = true ∧ ∃ A r k,
    represents (index_handler_ i) A ∧ record_key i d r = Some k ∧ index_has attr_cmp A k = true.

(** *** RIDs in keys *)
Lemma int_at_store32 x m : 0 <= x < 2 ^ 31 → int_at (store32 x ++ m) = x.
Proof. intros Hx. unfold int_at. by rewrite load_int_store32 by (unfold is_int32; lia). Qed.
Lemma rid_at_store r : RID.valid r → rid_at (store_rid r) = r.
Proof.
  intros [Hp Hs]. unfold rid_at, load_rid, store_rid.
  rewrite (drop_app_length' (store32 (RID.page_num r))) by done.
  rewrite !load_int_at by (cbn; lia). cbn [mbind option_bind default].
  rewrite int_at_store32 by done. rewrite <-(app_nil_r (store32 (RID.slot_num r))).
  rewrite int_at_store32 by done. by destruct r.
Qed.

(** Keys that compare equal have the same RID. *)
Lemma key_cmp_rid (i : BplusTreeIndex) d r d' r' k k' :
  RID.valid r → RID.valid r' → record_key i d r = Some k → record_key i d' r' = Some k' →
  key_cmp k k' = 0 → r = r'.
Proof.
  intros Hr Hr' Hk%make_index_key_rid Hk'%make_index_key_rid Hc.
  assert (attr_cmp k k' = 0) as Ha.
  { destruct (decide (attr_cmp k k' = 0)) as [|Hne]; [done|]. pose proof (key_attr_sgn k k' Hne). lia. }
  change (keys_cmp (key_config i) k k' = 0) in Hc. rewrite keys_cmp_attrs_eq in Hc by exact Ha.
  rewrite Hk, Hk', !rid_at_store in Hc by done. by apply RID.cmp_eq.
Qed.

Lemma bplus_insert_run i d r k A :
  record_key i d r = Some k → represents (index_handler_ i) A → pool_can 33 (pool (index_handler_ i)) →
  ∃ rc h A', bplus_insert_entry d r i =
      Done (rc, MkBplusTreeIndex (index_meta_name i) (field_metas_ i) (key_config i) h) ∧
    index_insert (unique (file_header (index_handler_ i))) A k r rc A' ∧ represents h A'.
Proof.
  intros Hk HA Hroom. destruct (insert_entry_refines k r _ A HA Hroom) as (rc & h & Hrun & A' & Hi & HA').
  exists rc, h, A'. unfold bplus_insert_entry, with_key. by rewrite Hk, Hrun.
Qed.
Lemma bplus_delete_run i d r k A :
  record_key i d r = Some k → represents (index_handler_ i) A →
  ∃ rc h A', bplus_delete_entry d r i =
      Done (rc, MkBplusTreeIndex (index_meta_name i) (field_metas_ i) (key_config i) h) ∧
    index_delete A k = (rc, A') ∧ represents h A'.
Proof.
  intros Hk HA. destruct (delete_entry_refines k _ A HA) as (rc & h & Hrun & A' & Hi & HA').
  exists rc, h, A'. unfold bplus_delete_entry, with_key. by rewrite Hk, Hrun.
Qed.
Lemma bplus_holds_has i d r k A :
  record_key i d r = Some k → represents (index_handler_ i) A →
  bplus_holds i d r = index_has key_cmp A k.
Proof.
  intros Hk HA. destruct (bplus_delete_run i d r k A Hk HA) as (rc & h & A' & Hrun & Hi & _).
  unfold bplus_holds. rewrite Hrun. unfold index_delete in Hi.
  destruct (index_has key_cmp A k); injection Hi as <- _; done.
Qed.

Lemma cmp_eq_trans {A} (cmp : A → A → Z) `{!TotalCmp cmp} x y z : cmp x y = 0 → cmp y z = 0 → cmp x z = 0.
Proof.
  intros H1 H2. pose proof (cmp_le_trans (cmp := cmp) x y z). pose proof (cmp_le_trans (cmp := cmp) z y x).
  pose proof (cmp_swap (cmp := cmp) x y). pose proof (cmp_swap (cmp := cmp) y z).
  pose proof (cmp_swap (cmp := cmp) x z). lia.
Qed.
Lemma index_has_same {K} `{!IndexKey K} (A : list (K * RID.t)) k k' :
  key_cmp k k' = 0 → index_has key_cmp A k = index_has key_cmp A k'.
Proof.
  intros Hc. apply eq_true_iff_eq. rewrite !index_has_true. split; intros (e & He & Hk); exists e;
    (split; [done|]).
  - by apply (cmp_eq_trans key_cmp e.1 k k').
  - apply (cmp_eq_trans key_cmp e.1 k' k); [done|]. by apply (cmp_flip_eq key_cmp).
Qed.

(** The key is made of the bytes of the fields. *)
Lemma make_key_attrs_fields fs (d d' : memory) m m' :
  (∀ f, f ∈ fs → field_bytes f d = field_bytes f d') →
  make_key_attrs (field_offsets fs) (field_lengths fs) d = Some m →
  make_key_attrs (field_offsets fs) (field_lengths fs) d' = Some m' → m = m'.
Proof.
  revert m m'. induction fs as [|f fs IH]; intros m m' Hf; cbn; [by intros [= <-] [= <-]|].
  unfold load_bytes. case_decide; [|done]. case_decide; [|done]. cbn.
  destruct (make_key_attrs _ _ d) as [n|] eqn:Hn; [|done].
  destruct (make_key_attrs _ _ d') as [n'|] eqn:Hn'; [|done]. cbn. intros [= <-] [= <-].
  rewrite (IH n n'); [|by intros g Hg; apply Hf; right|done|done]. f_equal. apply Hf. left.
Qed.
Lemma record_key_fields i d d' r k k' :
  config_match i → (∀ f, f ∈ field_metas_ i → field_bytes f d = field_bytes f d') →
  record_key i d r = Some k → record_key i d' r = Some k' → k = k'.
Proof.
  intros Hc Hf. unfold record_key, make_index_key, Comparator.make_key. rewrite Hc.
  cbn [AttrComparator.attr_lengths_].
  destruct (make_key_attrs _ _ d) as [m|] eqn:Hm; [|done].
  destruct (make_key_attrs _ _ d') as [m'|] eqn:Hm'; [|done]. cbn [mbind option_bind].
  rewrite (make_key_attrs_fields _ _ _ _ _ Hf Hm Hm'). case_decide; [|done]. congruence.
Qed.

#[global, refine] Instance BplusTreeIndex_IndexSpec : IndexSpec BplusTreeIndex := {|
  index_ok := bplus_ok;
  index_room := λ i, pool_can 33 (pool (index_handler_ i));
  index_accepts := bplus_accepts;
  index_same := bplus_same;
  index_holds := bplus_holds;
  index_duplicate := bplus_duplicate
|}.
Proof.
  - intros i d d' r (Hc & _ & [k Hk]) (_ & _ & [k' Hk']) Hf. unfold bplus_same.
    rewrite Hk, Hk', (record_key_fields i d d' r k k' Hc Hf Hk Hk'). apply bool_decide_eq_true_2, (cmp_refl key_cmp).
  - intros i d r d' r' (_ & Hr & [k Hk]) (_ & Hr' & [k' Hk']). unfold bplus_same. rewrite Hk, Hk'.
    intros Hc%bool_decide_eq_true_1. by eapply key_cmp_rid.
  - intros i d r d' r' d2 r2 (_ & _ & [k Hk]) (_ & _ & [k' Hk']) (_ & _ & [k2 Hk2]). unfold bplus_same.
    rewrite Hk, Hk', Hk2. intros Hc%bool_decide_eq_true_1. apply bool_decide_ext. split; intros H.
    + apply (cmp_eq_trans key_cmp k' k k2); [by apply (cmp_flip_eq key_cmp)|done].
    + by apply (cmp_eq_trans key_cmp k k' k2).
  - intros i d r d' r' [A HA] (_ & _ & [k Hk]) (_ & _ & [k' Hk']). unfold bplus_same. rewrite Hk, Hk'.
    intros Hc%bool_decide_eq_true_1. rewrite (bplus_holds_has _ _ _ _ A Hk HA), (bplus_holds_has _ _ _ _ A Hk' HA).
    by apply index_has_same.
  - intros i d r [A HA] Hroom (_ & Hr & [k Hk]).
    destruct (bplus_insert_run i d r k A Hk HA Hroom) as (rc & h & A' & Hrun & Hins & HA').
    eexists rc, _. split; [exact Hrun|]. set (i' := MkBplusTreeIndex _ _ _ _).
    assert (∀ d' r', bplus_accepts i d' r' → ∃ k', record_key i d' r' = Some k' ∧
      bplus_holds i d' r' = index_has key_cmp A k' ∧ bplus_holds i' d' r' = index_has key_cmp A' k') as Hh.
    { intros d' r' (_ & _ & [k' Hk']). exists k'. split_and!; [done|by apply bplus_holds_has|].
      by apply (bplus_holds_has i'). }
    split_and!; [by exists A'|done..|]. inversion Hins as [Hno|Hdup]; subst.
    + left. split_and!; [done|by rewrite (bplus_holds_has _ _ _ _ A Hk HA)|].
      intros d' r' (k' & Hk' & -> & ->)%Hh. unfold bplus_same. rewrite Hk, Hk'.
      apply eq_true_iff_eq. rewrite orb_true_iff, !index_has_true, bool_decide_eq_true. split.
      * intros (e & [->|He]%elem_of_index_add & Hc); [by right|]. left. by exists e.
      * intros [(e & He & Hc)|Hc]; [exists e|exists (k, r)]; (split; [apply elem_of_index_add|done]); auto.
    + right. split; [done|]. split; [|by intros d' r' (k' & Hk' & -> & ->)%Hh]. rewrite (bplus_holds_has _ _ _ _ _ Hk HA).
      destruct (unique (file_header (index_handler_ i))) eqn:Hu; [|by left]. right. split; [done|]. by eexists _, r, k.
  - intros i d r [A HA] (_ & Hr & [k Hk]).
    destruct (bplus_delete_run i d r k A Hk HA) as (rc & h & A' & Hrun & Hdel & HA').
    eexists rc, _. split; [exact Hrun|]. set (i' := MkBplusTreeIndex _ _ _ _).
    split_and!; [by exists A'|done..| |].
    + rewrite (bplus_holds_has _ _ _ _ A Hk HA). unfold index_delete in Hdel.
      by destruct (index_has key_cmp A k); injection Hdel as <- _.
    + intros d' r' (_ & Hr' & [k' Hk']). rewrite (bplus_holds_has _ _ _ _ A Hk' HA).
      rewrite (bplus_holds_has i' _ _ k' A' Hk' HA'). unfold bplus_same. rewrite Hk, Hk'.
      unfold index_delete in Hdel. destruct (index_has key_cmp A k) eqn:Hhas.
      * injection Hdel as <- <-. apply eq_true_iff_eq.
        rewrite andb_true_iff, negb_true_iff, bool_decide_eq_false, !index_has_true. unfold index_remove. split.
        -- intros (e & [Hne He]%list_elem_of_filter & Hc). split; [by exists e|]. intros Hkk. apply Hne.
           apply (cmp_eq_trans key_cmp e.1 k' k); [done|]. by apply (cmp_flip_eq key_cmp).
        -- intros [(e & He & Hc) Hne]. exists e. split; [|done]. apply list_elem_of_filter. split; [|done]. intros Hek. apply Hne.
           apply (cmp_eq_trans key_cmp k e.1 k'); [by apply (cmp_flip_eq key_cmp)|done].
      * injection Hdel as <- <-. destruct (bool_decide (key_cmp k k' = 0)) eqn:Hkk; [|by rewrite andb_true_r].
        apply bool_decide_eq_true_1 in Hkk. cbn [negb]. rewrite andb_false_r.
        pose proof (index_has_same A k k' Hkk) as Hsame. rewrite Hhas in Hsame. symmetry. exact Hsame.
Defined.

(** ** The records of a table are taken *)
Lemma make_key_attrs_length size fs (d : memory) :
  Forall (λ f, 0 <= FieldMeta.offset f ∧ 0 <= FieldMeta.len f ∧
    FieldMeta.offset f + FieldMeta.len f <= size) fs → size <= Z.of_nat (length d) →
  ∃ m, make_key_attrs (field_offsets fs) (field_lengths fs) d = Some m ∧
    length m = foldr plus 0%nat (field_lengths fs).
Proof.
  intros Hfs Hd. induction fs as [|f fs IH]; [by exists []|].
  apply Forall_cons in Hfs as [(Ho & Hl & Hs) Hfs]. destruct (IH Hfs) as (m & Hm & Hlm).
  cbn [field_offsets field_lengths fmap list_fmap make_key_attrs foldr].
  unfold load_bytes. rewrite decide_True by lia. cbn [mbind option_bind].
  unfold field_offsets, field_lengths in Hm. rewrite Hm. cbn [mbind option_bind].
  eexists. split; [done|]. rewrite length_app, length_take, length_drop, Hlm.
  unfold field_lengths. lia.
Qed.
Lemma bplus_accepts_fields i size d r :
  config_match i → Forall (λ f, 0 <= FieldMeta.offset f ∧ 0 <= FieldMeta.len f ∧
    FieldMeta.offset f + FieldMeta.len f <= size) (field_metas_ i) →
  size <= Z.of_nat (length d) → RID.valid r → bplus_accepts i d r.
Proof.
  intros Hc Hfs Hd Hr. split; [done|]. split; [done|].
  destruct (make_key_attrs_length size _ d Hfs Hd) as (m & Hm & Hl).
  unfold record_key, make_index_key, Comparator.make_key. rewrite Hc. cbn [AttrComparator.attr_lengths_].
  rewrite Hm. cbn [mbind option_bind]. case_decide as Hok; [by eexists|]. destruct Hok.
  unfold key_ok, AttrComparator.attr_length. rewrite Hc. cbn [AttrComparator.attr_lengths_].
  rewrite length_app, bool_decide_eq_true_2 by (rewrite Hl; done).
  rewrite <-Hl, drop_app_length, rid_at_store by done. by apply bool_decide_eq_true_2.
Qed.

(** A new index over fields of the table follows an empty table. *)
Lemma bplus_fits trx_fields m i :
  chained 0 (TableMeta.fields m) (TableMeta.record_size m) → config_match i → bplus_ok i →
  (∀ f, f ∈ field_metas_ i → f ∈ TableMeta.user_fields trx_fields m) →
  index_ok i ∧ (∀ f, f ∈ field_metas i → f ∈ TableMeta.user_fields trx_fields m) ∧
  ∀ d r, Z.of_nat (length d) = TableMeta.record_size m → RID.valid r → index_accepts i d r.
Proof.
  intros Hm Hc Hok Hin. split_and!; [done|done|]. intros d r Hd Hr.
  apply (bplus_accepts_fields _ (TableMeta.record_size m)); [done| |lia|done].
  apply Forall_forall. intros f Hf. apply Hin, user_field_in, list_elem_of_lookup_1 in Hf as [k Hk].
  destruct (chained_bounds _ _ _ _ _ Hm Hk). pose proof (chained_len _ _ _ _ _ Hm Hk). lia.
Qed.
