(* ===== verification/StorageTheorems.v ===== *)
(** * Theorems about the storage primitives and the buffer pool

    The bitmap search, the LRU cache, page allocation in the file header, and the buffer
    pool as a transparent, write-back cache of its files. *)
From S2P Require Import Prelude Bitmap LruCache BufferPool BufferPoolHeader BufferPoolCorrect.
From Stdlib Require Import ZArith Lia.
From stdpp Require Import base option gmap list.
Local Open Scope Z_scope.
#[local] Opaque Nat.div Nat.modulo.

(** ** Bitmap *)

(** [next_setted_bit] and [next_unsetted_bit] return the first bit they are asked for,
    or -1 when there is none, if the search starts at the first bit of a byte or in a
    byte that has such a bit. *)
Theorem bitmap_next_bit_correct want bitmap size start :
  Forall Bitmap.byte_ok bitmap → (Bitmap.bytes size <= length bitmap)%nat →
  ((start mod 8)%nat = 0%nat ∨
   ∃ b, bitmap !! (start / 8)%nat = Some b ∧ b ≠ Bitmap.skip_byte want ∧
     (start / 8 < Bitmap.bytes size)%nat) →
  ∃ r, Bitmap.next_bit want bitmap size start = Some r ∧
       Bitmap.first_bit want (Bitmap.bit bitmap) size start r.
Proof. apply Bitmap.next_bit_spec. Qed.

Lemma bitmap_next_bit_correct_witness :
  ∃ r, Bitmap.next_bit true [5; 0; 2] 20 1 = Some r ∧
       Bitmap.first_bit true (Bitmap.bit [5; 0; 2]) 20 1 r.
Proof.
  apply bitmap_next_bit_correct.
  - repeat constructor; vm_compute; intuition discriminate.
  - vm_compute. lia.
  - right. exists 5. split_and!; [done|done|vm_compute; lia].
Defined.

(** Started in the middle of a byte without such a bit, the search misses bits: the
    offset in the first byte is applied to the next byte too. *)
Theorem bitmap_next_bit_misses :
  Bitmap.next_setted_bit [0; 1] 16 1 = Some (-1) ∧ Bitmap.bit [0; 1] 8 = true.
Proof. vm_compute. done. Qed.

(** ** LRU cache *)

(** the cache is a finite map with at most one entry per key: what [get] returns,
    what is found after [put] and after [remove], and the keys stay unique. *)
Theorem lru_cache_map {K V} `{!EqDecision K} (l : list (K * V)) k v k' :
  LruCache.wf l →
  ((LruCache.get k l).1 = LruCache.find k l ∧ LruCache.wf (LruCache.get k l).2 ∧
   LruCache.find k' (LruCache.get k l).2 = LruCache.find k' l) ∧
  (LruCache.wf (LruCache.put k v l) ∧
   LruCache.find k' (LruCache.put k v l) = if decide (k' = k) then Some v else LruCache.find k' l) ∧
  (LruCache.wf (LruCache.remove k l) ∧
   LruCache.find k' (LruCache.remove k l) = if decide (k' = k) then None else LruCache.find k' l).
Proof.
  intros Hwf. split_and!.
  - by apply LruCache.get_find.
  - by apply LruCache.get_wf.
  - by apply LruCache.get_find.
  - by apply LruCache.put_wf.
  - by apply LruCache.put_find.
  - by apply LruCache.remove_wf.
  - by apply LruCache.remove_find.
Qed.

Lemma lru_cache_map_witness :
  LruCache.find 2 (LruCache.put 2 7 [(1, 5); (2, 6)]) = Some 7.
Proof.
  assert (LruCache.wf [(1, 5); (2, 6)]) as Hwf.
  { unfold LruCache.wf. repeat constructor; set_solver. }
  destruct (lru_cache_map [(1, 5); (2, 6)] 2 7 2 Hwf) as (_ & [_ H] & _).
  rewrite decide_True in H by done. exact H.
Defined.

(** [get] and [put] make their key the most recently used, and the other keys keep
    their order: [foreach_reverse], and with it [purge_frames], visits the keys from the
    least recently used on. *)
Theorem lru_cache_recency {K V} `{!EqDecision K} (l : list (K * V)) k v :
  (is_Some (LruCache.find k l) → head (LruCache.get k l).2 = (λ x, (k, x)) <$> LruCache.find k l) ∧
  head (LruCache.put k v l) = Some (k, v) ∧
  tail (LruCache.put k v l) = LruCache.unlink k l ∧
  tail (LruCache.get k l).2 = (match LruCache.find k l with Some _ => LruCache.unlink k l | None => tail l end) ∧
  LruCache.unlink k l `sublist_of` l.
Proof.
  unfold LruCache.get, LruCache.put. split_and!.
  - intros [x Hx]. by rewrite Hx.
  - by destruct (LruCache.find k l).
  - destruct (LruCache.find k l) eqn:Hf; [done|]. simpl.
    clear -Hf. induction l as [|[k0 v0] l IH]; [done|]. simpl in *. case_decide; [done|].
    f_equal. by apply IH.
  - by destruct (LruCache.find k l).
  - apply LruCache.unlink_sublist.
Qed.

(** ** Page allocation *)

(** allocation takes the lowest page that is not allocated, extends the file by
    one page only when every page below is, and fails only when the file has its
    maximal size; the count of pages and the bitmap stay consistent. *)
Theorem header_allocate_correct h :
  header_wf h →
  match BPFileHeader.allocate h with
  | inr (i, h') =>
      header_wf h' ∧ allocated h i = false ∧ (∀ j, (j < i)%nat → allocated h j = true) ∧
      ∀ j, allocated h' j = if decide (j = i) then true else allocated h j
  | inl rc => rc = RC.BUFFERPOOL_NOBUF ∧ ∀ i, Z.of_nat i < MAX_PAGE_NUM → allocated h i = true
  end.
Proof.
  intros Hwf. pose proof (allocate_lowest h Hwf) as Hl.
  destruct (BPFileHeader.allocate h) as [rc|[i h']] eqn:Hal; [done|].
  destruct Hl as [Hfree Hlow]. split_and!; [by eapply allocate_wf|done|done|].
  by apply (allocate_inv _ _ _ Hal).
Qed.

Lemma header_allocate_correct_witness :
  match BPFileHeader.allocate BPFileHeader.initial with
  | inr (i, h') =>
      header_wf h' ∧ allocated BPFileHeader.initial i = false ∧
      (∀ j, (j < i)%nat → allocated BPFileHeader.initial j = true) ∧
      ∀ j, allocated h' j = if decide (j = i) then true else allocated BPFileHeader.initial j
  | inl rc => rc = RC.BUFFERPOOL_NOBUF ∧
              ∀ i, Z.of_nat i < MAX_PAGE_NUM → allocated BPFileHeader.initial i = true
  end.
Proof. exact (header_allocate_correct BPFileHeader.initial initial_wf). Defined.

(** releasing an allocated page other than the header page keeps the header
    consistent, frees exactly that page, and the next allocation returns it when no lower
    page is free. *)
Theorem header_release_correct h i h' :
  header_wf h → i ≠ 0%nat → allocated h i = true →
  BPFileHeader.release_page h i = Some h' →
  header_wf h' ∧ (∀ j, allocated h' j = if decide (j = i) then false else allocated h j) ∧
  ((∀ j, (j < i)%nat → allocated h j = true) → ∃ h'', BPFileHeader.allocate h' = inr (i, h'')).
Proof.
  intros Hwf Hi Hal Hrel. pose proof (release_wf _ _ _ Hwf Hi Hal Hrel) as Hwf'.
  destruct (release_inv _ _ _ Hrel) as (Hbits & _ & _ & Hpc). split_and!; [done|done|].
  intros Hlow. pose proof (allocate_lowest h' Hwf') as Hl.
  destruct (BPFileHeader.allocate h') as [rc|[k h'']].
  - exfalso. destruct Hl as [_ Hall]. specialize (Hall i). rewrite Hbits, decide_True in Hall by done.
    assert (false = true); [apply Hall|done].
    unfold allocated in Hal. apply andb_prop in Hal as [Hlt _]. apply bool_decide_eq_true_1 in Hlt.
    pose proof (hw_count _ Hwf). lia.
  - destruct Hl as [Hk Hbelow]. exists h''. do 2 f_equal.
    destruct (Nat.lt_trichotomy k i) as [Hki|[->|Hki]]; [|done|].
    + rewrite Hbits, decide_False in Hk by lia. by rewrite Hlow in Hk.
    + specialize (Hbelow i Hki). by rewrite Hbits, decide_True in Hbelow.
Qed.

Lemma header_release_correct_witness : ∃ h h',
  header_wf h ∧ BPFileHeader.release_page h 1 = Some h' ∧
  header_wf h' ∧ (∀ j, allocated h' j = if decide (j = 1%nat) then false else allocated h j) ∧
  ((∀ j, (j < 1)%nat → allocated h j = true) → ∃ h'', BPFileHeader.allocate h' = inr (1%nat, h'')).
Proof.
  destruct (BPFileHeader.allocate BPFileHeader.initial) as [rc|[i h]] eqn:Hal.
  { exfalso. unfold BPFileHeader.allocate in Hal. simpl in Hal. done. }
  pose proof (allocate_wf _ _ _ initial_wf Hal) as Hwf.
  destruct (allocate_inv _ _ _ Hal) as (_ & Hbits & _ & Hlen & Hpc).
  assert (i = 1%nat) as ->.
  { destruct Hpc as [[Hi _]|[-> _]]; [|done]. pose proof (allocate_lowest _ initial_wf) as Hl.
    rewrite Hal in Hl. destruct Hl as [Hl _]. simpl in Hi.
    assert (i = 0%nat) as -> by lia. done. }
  assert (allocated h 1 = true) as H1 by by rewrite Hbits, decide_True.
  destruct (Bitmap.clear_bit_spec (BPFileHeader.bitmap h) 1) as (bm & Hb & _ & _).
  { pose proof (hw_length _ Hwf). pose proof (hw_count _ Hwf). lia. }
  exists h, (BPFileHeader.mk (BPFileHeader.page_count h) (BPFileHeader.allocated_pages h - 1) bm).
  assert (BPFileHeader.release_page h 1 =
    Some (BPFileHeader.mk (BPFileHeader.page_count h) (BPFileHeader.allocated_pages h - 1) bm)) as Hrel.
  { unfold BPFileHeader.release_page. by rewrite Hb. }
  split; [exact Hwf|]. split; [exact Hrel|].
  exact (header_release_correct h 1 _ Hwf ltac:(lia) H1 Hrel).
Defined.

(** ** The buffer pool *)
Section pool.
Context {D : Type} (zero_data : D).
Implicit Types (m : gmap FrameId (Frame D)) (fl : gmap Z (gmap PageNum (PageData D))).

(** C39: [get_this_page] of an open file, when a frame is free or not pinned. A page that
    is in the cache or on disk ends in a frame, pinned once more, that holds it as it was;
    a victim that is dirty is written first, no page changes, and the other pinned frames
    stay. A page that is nowhere is reported as [IOERR_READ], and no page changes, unless
    the frame taken for it was free and dirty, as the frame of a page that is disposed can
    be: its stale data are then flushed, and the page reads as them from now on. When no
    frame is free, the dirty frames that are not pinned must be ones the system can write:
    the loop of [allocate_frame] never gives up on a victim. *)
Theorem get_this_page_correct writen_ok fuel s m fr fl fd p :
  at_state s m fr fl → pool_ok m fr fl → is_Some (fl !! fd) →
  frame_available m fr → can_evict writen_ok m fr → (2 <= fuel)%nat →
  wp (get_this_page writen_ok fuel fd p) s (λ r s',
    match page m fl (fd, p) with
    | Some d => r = inr (fd, p) ∧ got_page m fl fd p d s'
    | None => r = inl RC.IOERR_READ ∧ missing_page m fr fl fd p s'
    end).
Proof.
  intros Hat Hok Hop Hav Hw Hfuel. unfold page. destruct (m !! (fd, p)) as [f|] eqn:Hf.
  - by eapply wp_get_this_page_hit.
  - destruct (on_disk fl (fd, p)) as [d|] eqn:Hd.
    + by eapply wp_get_this_page_load.
    + by eapply wp_get_this_page_missing.
Qed.

(** [allocate_page] is the page allocation of the header: it returns the page the
    header chose, pinned and with the header updated, and changes no other page. *)
Theorem allocate_page_correct writen_ok fuel s m fr fl fd hf h :
  at_state s m fr fl → pool_ok m fr fl → m !! (fd, BP_HEADER_PAGE) = Some hf →
  frame_data hf = HeaderData h → (0 < pin_count_ hf)%nat → header_wf h →
  frame_available m fr → (∀ fd p, writen_ok fd p = true) → (2 <= fuel)%nat →
  (∀ i, allocated h i = false →
     m !! (fd, Z.of_nat i) = None ∧ ((i < BPFileHeader.page_count h)%nat → is_Some (on_disk fl (fd, Z.of_nat i)))) →
  wp (allocate_page zero_data writen_ok fuel fd) s (λ r s',
    match BPFileHeader.allocate h with
    | inl rc => r = inl rc ∧ s' = s
    | inr (i, h') => r = inr (fd, Z.of_nat i) ∧
        ∃ d, allocated_page m fl fd (Z.of_nat i) h' d s'
    end).
Proof.
  intros Hat Hok Hhf Hh Hpin Hwf Hav Hw Hfuel Hfree.
  unfold BPFileHeader.allocate. destruct (BPFileHeader.choose_free h) as [i|] eqn:Hc.
  - destruct (choose_free_wf h i Hwf Hc) as (Hlt & Hi & Hi0 & [h' Ht]). rewrite Ht.
    destruct (Hfree i Hi) as [Hm Hd]. destruct (Hd Hlt) as [d Hdisk]. eapply wp_mono.
    { by apply (wp_allocate_reuse zero_data writen_ok Hat Hok Hhf Hh Hpin Hav Hw Hfuel i h' d). }
    intros r s' [-> Hal]. split; [done|by exists d].
  - case_decide as Hmax; [by eapply wp_allocate_full|].
    destruct (extend_page_wf h Hwf) as [h' He]; [lia|]. rewrite He. eapply wp_mono.
    { apply (wp_allocate_extend zero_data writen_ok Hat Hok Hhf Hh Hpin Hav Hw Hfuel h');
        try done; [lia|apply (hw_count _ Hwf)|].
      apply Hfree. unfold allocated. by rewrite bool_decide_eq_false_2 by lia. }
    intros r s' [-> Hal]. split; [done|by eexists].
Qed.

(** [dispose_page] of a page that is in a frame nobody else uses frees the frame and
    the page in the header, and changes no other page; of a page that is in no frame it
    returns [NOTFOUND] and leaves the page allocated. *)
Theorem dispose_page_correct s m fr fl fd hf h p :
  at_state s m fr fl → pool_ok m fr fl → m !! (fd, BP_HEADER_PAGE) = Some hf →
  frame_data hf = HeaderData h → header_wf h → BP_HEADER_PAGE < p → p < MAX_PAGE_NUM →
  (∀ f, m !! (fd, p) = Some f → pin_count_ f = 0%nat) →
  wp (dispose_page fd p) s (λ rc s',
    match m !! (fd, p) with
    | None => rc = RC.NOTFOUND ∧ at_state s' m fr fl
    | Some _ => rc = RC.SUCCESS ∧ ∃ m' fr' h', at_state s' m' fr' fl ∧ pool_ok m' fr' fl ∧
        m' !! (fd, p) = None ∧
        BPFileHeader.release_page h (Z.to_nat p) = Some h' ∧
        page m' fl (fd, BP_HEADER_PAGE) = Some (HeaderData h') ∧
        ∀ id, id ≠ (fd, p) → id ≠ (fd, BP_HEADER_PAGE) → page m' fl id = page m fl id
    end).
Proof.
  intros Hat Hok Hhf Hh Hwf Hp Hmax Hpin. destruct (m !! (fd, p)) as [f|] eqn:Hf.
  - destruct (Bitmap.clear_bit_spec (BPFileHeader.bitmap h) (Z.to_nat p)) as (bm & Hb & _).
    { pose proof (hw_length _ Hwf). unfold BP_HEADER_PAGE in Hp. lia. }
    eapply wp_mono.
    { eapply (wp_dispose_page_frame s m fr fl fd hf h); try done; [unfold BP_HEADER_PAGE in *; lia| |].
      - by apply Hpin.
      - unfold BPFileHeader.release_page. by rewrite Hb. }
    intros rc s' [-> (m' & fr' & ? & ? & ? & ? & ?)]. split; [done|].
    exists m', fr'. eexists. split_and!; try done.
    unfold BPFileHeader.release_page. by rewrite Hb.
  - by eapply wp_dispose_page_absent.
Qed.

(** [flush_all_pages] writes every cached page of the file to disk and changes no
    page; each of those frames is left pinned once more than before. *)
Theorem flush_all_pages_correct writen_ok s m fr fl fd :
  (∀ fd p, writen_ok fd p = true) → at_state s m fr fl → pool_ok m fr fl →
  wp (flush_all_pages writen_ok fd) s (λ rc s', rc = RC.SUCCESS ∧ ∃ m' fl',
    at_state s' m' fr fl' ∧ pool_ok m' fr fl' ∧ (∀ id, page m' fl' id = page m fl id) ∧
    (∀ id f, id.1 = fd → m !! id = Some f → on_disk fl' id = Some (frame_data f)) ∧
    (∀ id f, id.1 = fd → m !! id = Some f →
       pin_count_ <$> (m' !! id) = Some (S (pin_count_ f)))).
Proof. apply wp_flush_all. Qed.

(** when every frame is pinned and none is free, [allocate_frame] does not come to
    an end, and with it [get_this_page] of a page that is not cached: no number of rounds
    is enough. *)
Theorem get_this_page_stuck writen_ok fuel s m fl fd p :
  at_state s m [] fl → m !! (fd, p) = None →
  (∀ id f, m !! id = Some f → pin_count_ f ≠ 0%nat) →
  get_this_page writen_ok fuel fd p s = OutOfFuel.
Proof.
  intros Hat Hm Hpin.
  assert (wp (get_internal (fd, p)) s (λ r s', r = None ∧ at_state s' m [] fl)) as Hg.
  { by eapply wp_get_internal_miss. }
  destruct Hg as (r & s' & Hg & -> & Hat').
  unfold get_this_page. unfold mbind at 1, ST_bind at 1. rewrite Hg.
  unfold mbind, ST_bind. by rewrite (allocate_frame_pinned writen_ok s' m fl fd p fuel).
Qed.
End pool.

(** *** A small pool

    File 3 has its header page pinned in a frame, pages 1 and 2 on disk and page 1 free;
    one more frame is free. *)
Definition small_header : BPFileHeader.t := BPFileHeader.mk 3 2 (5 :: replicate (Z.to_nat 524271) 0).
Definition small_map : gmap FrameId (Frame nat) :=
  {[(3, 0) := MkFrame false 1 3 0 (HeaderData small_header)]}.
Definition small_free : list (Frame nat) := [MkFrame false 0 0 0 (UserData 0%nat)].
Definition small_files : gmap Z (gmap PageNum (PageData nat)) :=
  {[3 := {[0 := HeaderData small_header; 1 := UserData 7%nat; 2 := UserData 9%nat]}]}.
Definition small_pool : bp_state nat :=
  BpState [((3, 0), MkFrame false 1 3 0 (HeaderData small_header))] small_free small_files.

Lemma small_header_wf : header_wf small_header.
Proof.
  apply first_byte_wf; [|lia|done| |done].
  - assert (MAX_PAGE_NUM = 4194176) as -> by done. lia.
  - intros i Hi. rewrite Z.bits_above_log2; [done|lia|]. change (Z.log2 5) with 2. lia.
Qed.
Lemma small_at : at_state small_pool small_map small_free small_files.
Proof. split; [|done..]. unfold LruCache.wf. repeat constructor. set_solver. Qed.
Lemma small_map_Some id f :
  small_map !! id = Some f → id = (3, 0) ∧ f = MkFrame false 1 3 0 (HeaderData small_header).
Proof. unfold small_map. by intros [<- <-]%lookup_singleton_Some. Qed.
Lemma small_ok : pool_ok small_map small_free small_files.
Proof.
  split.
  - intros id f [-> ->]%small_map_Some. done.
  - intros id f [-> ->]%small_map_Some _. done.
  - intros id f [-> ->]%small_map_Some. by eexists.
  - intros f ->%list_elem_of_singleton. done.
Qed.
Lemma small_available : frame_available small_map small_free.
Proof. by left. Qed.

(** a free frame that is dirty, and a page past the end of the file *)
Definition stale_frame : Frame nat := MkFrame true 0 3 1 (UserData 4%nat).
Definition stale_pool : bp_state nat := BpState (frames small_pool) [stale_frame] small_files.

Lemma get_this_page_correct_witness :
  wp (get_this_page (λ _ _, true) 2 3 2) small_pool (λ r s',
    r = inr (3, 2) ∧ got_page small_map small_files 3 2 (UserData 9%nat) s') ∧
  wp (get_this_page (λ _ _, true) 2 3 7) stale_pool (λ r s', r = inl RC.IOERR_READ ∧
    missing_page small_map [stale_frame] small_files 3 7 s').
Proof.
  split.
  - refine (get_this_page_correct (λ _ _, true) 2 small_pool small_map small_free small_files 3 2
      small_at small_ok _ small_available _ _); [by eexists|by apply can_evict_all|lia].
  - refine (get_this_page_correct (λ _ _, true) 2 stale_pool small_map [stale_frame] small_files 3 7
      _ _ _ _ _ _); [by split; try apply small_at| |by eexists|by left|by apply can_evict_all|lia].
    split; [apply small_ok..|]. by intros f ->%list_elem_of_singleton.
Defined.

Lemma allocate_page_correct_witness :
  wp (allocate_page 0%nat (λ _ _, true) 2 3) small_pool (λ r s',
    match BPFileHeader.allocate small_header with
    | inl rc => r = inl rc ∧ s' = small_pool
    | inr (i, h') => r = inr (3, Z.of_nat i) ∧
        ∃ d, allocated_page small_map small_files 3 (Z.of_nat i) h' d s'
    end).
Proof.
  refine (allocate_page_correct 0%nat (λ _ _, true) 2 small_pool small_map small_free small_files 3
    _ small_header small_at small_ok eq_refl eq_refl _ small_header_wf small_available _ _ _);
    [cbn; lia|done|lia|].
  intros i Hi. unfold allocated, small_header in Hi.
  cbn [BPFileHeader.bitmap BPFileHeader.page_count] in Hi. rewrite first_byte_bit in Hi. split.
  - destruct i as [|i]; [done|]. unfold small_map. apply lookup_singleton_ne. by intros [= Heq].
  - intros Hlt. change (i < 3)%nat in Hlt. destruct i as [|[|[|i]]]; [by eexists..|lia].
Defined.

Lemma dispose_page_correct_witness : ∃ (s : bp_state nat) m (fr : list (Frame nat)) fl,
  wp (dispose_page 3 1) s (λ rc s', rc = RC.SUCCESS ∧ ∃ m' fr' h', at_state s' m' fr' fl ∧
    pool_ok m' fr' fl ∧ m' !! (3, 1) = None ∧
    BPFileHeader.release_page small_header 1 = Some h' ∧
    page m' fl (3, BP_HEADER_PAGE) = Some (HeaderData h') ∧
    ∀ id, id ≠ (3, 1) → id ≠ (3, BP_HEADER_PAGE) → page m' fl id = page m fl id).
Proof.
  pose (f := MkFrame false 0 3 1 (UserData 7%nat)).
  pose (s := BpState (((3, 1), f) :: frames small_pool) [] small_files).
  pose (m := <[(3, 1) := f]> small_map).
  assert (at_state s m [] small_files) as Hat.
  { split; [|done..]. unfold LruCache.wf. repeat constructor; set_solver. }
  assert (pool_ok m [] small_files) as Hok.
  { unfold m. split.
    - intros id g [[<- <-]|[_ Hg]]%lookup_insert_Some; [done|]. by apply (ok_id _ _ _ small_ok).
    - intros id g [[<- <-]|[_ Hg]]%lookup_insert_Some; [done|]. by apply (ok_clean _ _ _ small_ok).
    - intros id g [[<- <-]|[_ Hg]]%lookup_insert_Some; [by eexists|].
      by apply (ok_open _ _ _ small_ok id g).
    - by intros g ?%elem_of_nil. }
  exists s, m, [], small_files.
  refine (dispose_page_correct s m [] small_files 3 _ small_header 1 Hat Hok eq_refl eq_refl
    small_header_wf _ _ _); [done|done|].
  intros g Hg. by injection Hg as <-.
Defined.

Lemma flush_all_pages_correct_witness :
  wp (flush_all_pages (λ _ _, true) 3) small_pool (λ rc s', rc = RC.SUCCESS ∧ ∃ m' fl',
    at_state s' m' small_free fl' ∧ pool_ok m' small_free fl' ∧
    (∀ id, page m' fl' id = page small_map small_files id) ∧
    (∀ id f, id.1 = 3 → small_map !! id = Some f → on_disk fl' id = Some (frame_data f)) ∧
    (∀ id f, id.1 = 3 → small_map !! id = Some f →
       pin_count_ <$> (m' !! id) = Some (S (pin_count_ f)))).
Proof.
  exact (flush_all_pages_correct (λ _ _, true) small_pool small_map small_free small_files 3
    (λ _ _, eq_refl) small_at small_ok).
Defined.

Lemma get_this_page_stuck_witness :
  get_this_page (λ _ _, true) 100 3 2
    (BpState (frames small_pool) [] small_files) = OutOfFuel.
Proof.
  refine (get_this_page_stuck (λ _ _, true) 100 _ small_map small_files 3 2 _ _ _).
  - split; [|done..]. apply small_at.
  - done.
  - intros id f [-> ->]%small_map_Some. done.
Defined.
