(* ===== verification/BplusTheorems.v ===== *)
(** * Theorems about the B+ tree

    The properties of [BplusTreeHandler] and [BplusTreeScanner], each at a concrete
    tree over a 4-byte [INTS] attribute and the page allocator of the buffer pool. *)
From S2P Require Import Prelude Comparator BufferPool BufferPoolHeader LowerBound RidKey.
From S2P Require Import LatchMemo BplusNode BplusTree BplusInv BplusShape BplusEdit.
From S2P Require Import BplusState BplusInsert BplusDelete.
From S2P Require Import BplusIndex BplusScan BplusScanCorrect BplusValidate.
From Stdlib Require Import ZArith Lia Sorted.
From stdpp Require Import base option gmap sorting list.
Local Open Scope Z_scope.

(** ** A concrete tree *)
Definition int_index : supported := Supported (AttrComparator.mk [INTS] [4%nat]) eq_refl.
Abbreviation int_key := (index_key int_index).
Definition rid_of (slot : nat) : RID.t := RID.mk 7 (Z.of_nat slot).
(** the key of the attribute value [x], a byte, in the record at slot [x] *)
Definition key_of (x : nat) : int_key :=
  default (zero_key (K := int_key)) (make_index_key int_index [0%nat] (store32 (Z.of_nat x)) (rid_of x)).
Definition small_pool : pool_header :=
  PoolHeader (BPFileHeader.mk 1 1 (1 :: replicate 15 0)) eq_refl.
Definition empty_tree : state int_key pool_header :=
  State (FileHeader BP_INVALID_PAGE_NUM 6 4 false) false small_pool ∅ ∅ memo_empty.
Definition after {A S} (c : ST S A) (s : S) : S :=
  match c s with Done (_, s') => s' | _ => s end.
Definition tree_with (xs : list nat) : state int_key pool_header :=
  foldl (λ s x, after (insert_entry 32 (key_of x) (rid_of x)) s) empty_tree xs.
Definition index_with (xs : list nat) : list (int_key * RID.t) :=
  foldl (λ A x, index_add (key_of x, rid_of x) A) [] xs.

Lemma after_wp {A S} (c : ST S A) s (Q : A → S → Prop) : wp c s Q → ∃ a, Q a (after c s).
Proof. intros (a & s' & Hc & HQ). exists a. unfold after. by rewrite Hc. Qed.

Lemma empty_tree_represents : represents empty_tree [].
Proof. apply represents_nil; [split; simpl; lia|done]. Qed.

(** A successful insertion adds the entry. *)
Lemma insert_success {K P} `{!IndexKey K} `{!PagePool P} (s s' : state K P) A key rid :
  represents s A → pool_can 33 (pool s) → insert_entry 32 key rid s = Done (RC.SUCCESS, s') →
  represents s' (index_add (key, rid) A) ∧ index_has key_cmp A key = false.
Proof.
  intros Hr Hc Hrun. destruct (insert_entry_refines key rid s A Hr Hc) as (rc & s2 & Hrun' & A' & Hi & Hr').
  rewrite Hrun in Hrun'. injection Hrun' as <- <-. by inversion Hi; subst.
Qed.

(** One more entry in a concrete tree. *)
Lemma tree_with_represents xs x :
  represents (tree_with xs) (index_with xs) → pool_can 33 (pool (tree_with xs)) →
  (match insert_entry 32 (key_of x) (rid_of x) (tree_with xs) with
   | Done (RC.SUCCESS, _) => True | _ => False end) →
  represents (tree_with (xs ++ [x])) (index_with (xs ++ [x])).
Proof.
  intros Hr Hc Hrun. unfold tree_with, index_with in *. rewrite !foldl_app. simpl. unfold after.
  destruct (insert_entry _ _ _ _) as [[[] s']| |] eqn:He in *; try done.
  by apply (insert_success _ s' _ _ _ Hr Hc) in He as [? _].
Qed.

Ltac grow_tree xs := apply (tree_with_represents xs); [|vm_compute; exact I..].
Lemma tree_3_represents : represents (tree_with [5; 2; 9]%nat) (index_with [5; 2; 9]%nat).
Proof.
  grow_tree [5; 2]%nat. grow_tree [5]%nat. grow_tree (@nil nat). apply empty_tree_represents.
Qed.

(** ** The operations *)
Section theorems.
Context {K U P : Type} `{!IndexKey K} `{!UserKey U K} `{!PagePool P}.

(** C3: [insert_entry] on a tree that represents the sorted index [A] always ends
    (fuel 32 covers every tree on 32-bit page numbers), never fails an assertion, and
    does to the represented index what inserting the entry into [A] does: the entry
    is added at its place and everything else is kept, or it is refused as a
    duplicate and nothing changes.  The pool must have a page for each level. *)
Theorem insert_entry_correct (s : state K P) A key rid :
  represents s A → pool_can 33 (pool s) →
  wp (insert_entry 32 key rid) s (λ rc s', ∃ A',
    index_insert (unique (file_header s)) A key rid rc A' ∧ represents s' A').
Proof. apply insert_entry_refines. Qed.

(** C4: [delete_entry] on a tree that represents the sorted index [A] always ends,
    never fails an assertion, returns [RECORD_NOT_EXIST] and changes nothing when [A]
    has no entry with the key, and otherwise removes exactly that entry. *)
Theorem delete_entry_correct (s : state K P) A key :
  represents s A →
  wp (delete_entry 32 key) s (λ rc s', ∃ A',
    index_delete A key = (rc, A') ∧ represents s' A').
Proof. apply delete_entry_refines. Qed.

(** C25: a scan from [open] over every [next_entry] to [RECORD_EOF], when no other
    operation holds a latch, returns the RIDs of the entries between the two bounds
    in key order, each once; on an empty tree it returns [EMPTY] when there is no
    left bound. *)
Theorem scan_correct (lockable : PageNum → bool) fuel left right lk rk (t : state K P) A :
  (∀ p, lockable p = true) → represents t A → disposed_pages_ (memo t) = [] →
  (length A + 33 <= fuel)%nat →
  range_refused (U := U) left right = Some false → left_bound left lk → right_bound right rk →
  wp (scan_range lockable fuel left right) (new_scanner t)
    (λ r _, r = scan_outcome left lk rk A).
Proof. apply scan_range_refines. Qed.
End theorems.

Lemma insert_entry_correct_witness :
  represents (tree_with [5; 2; 9]%nat) (index_with [5; 2; 9]%nat) ∧
  wp (insert_entry 32 (key_of 4) (rid_of 4)) (tree_with [5; 2; 9]%nat) (λ rc s', ∃ A',
    index_insert false (index_with [5; 2; 9]%nat) (key_of 4) (rid_of 4) rc A' ∧ represents s' A').
Proof.
  split; [apply tree_3_represents|].
  apply (insert_entry_correct (tree_with [5; 2; 9]%nat)); [apply tree_3_represents|].
  vm_compute. done.
Defined.

Lemma delete_entry_correct_witness :
  represents (tree_with [5; 2; 9]%nat) (index_with [5; 2; 9]%nat) ∧
  wp (delete_entry 32 (key_of 5)) (tree_with [5; 2; 9]%nat) (λ rc s', ∃ A',
    index_delete (index_with [5; 2; 9]%nat) (key_of 5) = (rc, A') ∧ represents s' A').
Proof.
  split; [apply tree_3_represents|]. apply delete_entry_correct, tree_3_represents.
Defined.

Definition from_3 : scan_bound (list Z) := ScanBound (store32 3) 4 true.
Definition to_9 : scan_bound (list Z) := ScanBound (store32 9) 4 false.
#[local] Instance int_user : UserKey (list Z) int_key := memory_UserKey int_index [0%nat].
Definition key_of_bound (left : bool) (b : scan_bound (list Z)) : int_key :=
  match bound_key (K := int_key) left b with Some (inr k) => k | _ => zero_key end.

Lemma scan_correct_witness :
  represents (tree_with [5; 2; 9]%nat) (index_with [5; 2; 9]%nat) ∧
  wp (scan_range (U := list Z) (λ _, true) 40 (Some from_3) (Some to_9))
     (new_scanner (tree_with [5; 2; 9]%nat))
     (λ r _, r = scan_outcome (Some from_3) (Some (key_of_bound true from_3))
                   (Some (key_of_bound false to_9)) (index_with [5; 2; 9]%nat)).
Proof.
  split; [apply tree_3_represents|].
  apply scan_correct; [done|apply tree_3_represents|vm_compute; done|vm_compute; lia|vm_compute; done|..].
  - exists (key_of_bound true from_3). split; [|done]. vm_compute. done.
  - exists (key_of_bound false to_9). split; [|done]. vm_compute. done.
Defined.

(** ** Lookup by user key *)
Section get_entry.
Context {K U P : Type} `{!IndexKey K} `{!UserKey U K} `{!PagePool P}.

Lemma between_min_max u k k' (e : K * RID.t) :
  make_key u RID.min = Some k → make_key u RID.max = Some k' →
  above (Some k) e ∧ below (Some k') e ↔ attr_cmp e.1 k = 0.
Proof.
  intros Hk Hk'. pose proof (make_key_attr u _ _ _ _ Hk Hk') as Heq. simpl. split.
  - intros [H1 H2].
    assert (attr_cmp k e.1 <= 0) as Ha.
    { destruct (decide (attr_cmp k e.1 = 0)) as [|Hne]; [lia|].
      pose proof (key_attr_sgn _ _ Hne). lia. }
    assert (attr_cmp e.1 k' <= 0) as Hb.
    { destruct (decide (attr_cmp e.1 k' = 0)) as [|Hne]; [lia|].
      pose proof (key_attr_sgn _ _ Hne). lia. }
    assert (attr_cmp e.1 k <= 0) as Hc.
    { apply (cmp_le_trans _ k'); [done|]. apply (cmp_flip_eq attr_cmp) in Heq. lia. }
    apply (cmp_flip_le attr_cmp) in Ha. lia.
  - intros He. split.
    + apply (make_key_min u); [done|]. by apply (cmp_flip_eq attr_cmp).
    + apply (make_key_max u); [done|].
      assert (attr_cmp e.1 k' <= 0 ∧ attr_cmp k' e.1 <= 0) as [? Hd].
      { split; apply (cmp_le_trans _ k); try lia; apply (cmp_flip_eq attr_cmp) in Heq;
          apply (cmp_flip_eq attr_cmp) in He; lia. }
      apply (cmp_flip_le attr_cmp) in Hd. lia.
Qed.

(** [get_entry] on a fixed-length user key returns the RIDs of exactly the entries
    whose attributes equal the user's, in key order. *)
Theorem get_entry_correct (lockable : PageNum → bool) fuel u len k k' (t : state K P) A :
  (∀ p, lockable p = true) → represents t A → disposed_pages_ (memo t) = [] →
  (length A + 33 <= fuel)%nat → first_is_chars = false → user_cmp u u = Some 0 →
  make_key u RID.min = Some k → make_key u RID.max = Some k' →
  wp (get_entry lockable fuel u len) (new_scanner t)
    (λ r _, r = (RC.SUCCESS, (filter (λ e, attr_cmp e.1 k = 0) A).*2)).
Proof.
  intros Hlock Hrep Hds Hf Hch Hcmp Hk Hk'. eapply wp_mono.
  - apply (scan_range_refines lockable fuel _ _ (Some k) (Some k') t A); try done.
    + simpl. by rewrite Hcmp.
    + exists k. split; [|done]. unfold bound_key. rewrite Hch. simpl. by rewrite Hk.
    + exists k'. split; [|done]. unfold bound_key. rewrite Hch. simpl. by rewrite Hk'.
  - intros r _ ->. unfold scan_outcome. rewrite andb_false_r. do 2 f_equal.
    apply list_filter_iff. intros e. by apply (between_min_max u).
Qed.

(** C26: [find_leaf] for any operation ends at the leaf whose range holds the key,
    changes no page, and leaves the latches the crabbing protocol requires: the leaf
    is latched in the mode of the operation, and so are all its ancestors up to one
    that is safe for the operation, or up to the root together with the lock of the
    root page number. *)
Theorem find_leaf_crabbing (s : state K P) G op key :
  limits (file_header s) → BplusIndex.holds s G →
  root_page (file_header s) ≠ BP_INVALID_PAGE_NUM →
  wp (find_leaf 32 op key) s (λ r s', ∃ a ga l, r = inr a ∧
    G !! a = Some ga ∧ g_node ga = LeafPage l ∧ in_range (g_lo ga) (g_hi ga) (Fin key) ∧
    pages s' = pages s ∧ file_header s' = file_header s ∧
    crabbed (file_header s) G (root_page (file_header s)) op (memo s') a).
Proof.
  intros Hlim Hh Hroot. pose proof (holds_levels _ _ Hlim Hh) as Hlv.
  destruct (holds_tree _ _ Hh Hroot) as [_ Hwf Hsh Hsz _].
  destruct (wf_root _ _ Hwf) as [gr Hr].
  assert (levels s G = S (g_lvl gr)) as Hl by (unfold levels; by rewrite Hr).
  eapply (wp_find_leaf Hwf 32 op key gr s); [done..|lia|].
  intros s' a ga l V Ha Hla Hrange Hc. exists a, ga, l. split_and!; try done; by injection V.
Qed.

(** The states of a handler: from an empty tree by insertions, while the pool has
    pages, and deletions. *)
Inductive reachable : state K P → Prop :=
| reach_empty s : limits (file_header s) → is_empty s = true → reachable s
| reach_insert s key rid rc s' :
    reachable s → pool_can 33 (pool s) → insert_entry 32 key rid s = Done (rc, s') → reachable s'
| reach_delete s key rc s' :
    reachable s → delete_entry 32 key s = Done (rc, s') → reachable s'.

Lemma reachable_represents s : reachable s → ∃ A, represents s A.
Proof.
  induction 1 as [s Hlim He|s key rid rc s' _ [A Hr] Hcan Hrun|s key rc s' _ [A Hr] Hrun].
  - exists []. apply represents_nil; [done|]. by apply bool_decide_eq_true_1 in He.
  - destruct (insert_entry_refines key rid s A Hr Hcan) as (rc' & s2 & Hrun' & A' & _ & Hr').
    rewrite Hrun in Hrun'. injection Hrun' as <- <-. by exists A'.
  - destruct (delete_entry_refines key s A Hr) as (rc' & s2 & Hrun' & A' & _ & Hr').
    rewrite Hrun in Hrun'. injection Hrun' as <- <-. by exists A'.
Qed.

(** C27: in every state reached by insertions and deletions the pages are those of a
    well-formed tree of some index, the page bounds hold, the next operation ends
    normally (no assertion of the code fails, no page is missing, no fuel runs out), and
    the code's own [validate_tree] accepts the tree and leaves its pages as they are. *)
Theorem reachable_safe (s : state K P) :
  reachable s →
  (∃ A, represents s A) ∧
  (∀ key, ∃ rc s', delete_entry 32 key s = Done (rc, s')) ∧
  (pool_can 33 (pool s) → ∀ key rid, ∃ rc s', insert_entry 32 key rid s = Done (rc, s')) ∧
  (∀ fuel, (size (pages s) <= fuel)%nat → ∃ s', validate_tree 32 fuel s = Done (true, s') ∧ pages s' = pages s).
Proof.
  intros Hr. destruct (reachable_represents s Hr) as [A HA]. split_and!; [by exists A| | |].
  - intros key. destruct (delete_entry_refines key s A HA) as (rc & s' & Hrun & _). eauto.
  - intros Hc key rid. destruct (insert_entry_refines key rid s A HA Hc) as (rc & s' & Hrun & _).
    eauto.
  - intros fuel Hf. destruct (validate_tree_accepts s A fuel HA Hf) as (s' & Hrun & Hp & _). eauto.
Qed.
End get_entry.

Lemma get_entry_correct_witness :
  represents (tree_with [5; 2; 9]%nat) (index_with [5; 2; 9]%nat) ∧
  wp (get_entry (λ _, true) 40 (store32 5) 4) (new_scanner (tree_with [5; 2; 9]%nat))
    (λ r _, r = (RC.SUCCESS, (filter (λ e : int_key * RID.t,
       attr_cmp e.1 (key_of_bound true (ScanBound (store32 5) 4 true)) = 0)
       (index_with [5; 2; 9]%nat)).*2)).
Proof.
  split; [apply tree_3_represents|].
  apply (get_entry_correct (λ _, true) 40 (store32 5) 4
    (key_of_bound true (ScanBound (store32 5) 4 true))
    (key_of_bound false (ScanBound (store32 5) 4 true)));
    [done|apply tree_3_represents|vm_compute; done|vm_compute; lia|vm_compute; done..].
Defined.

Lemma find_leaf_crabbing_witness : ∃ G,
  BplusIndex.holds (tree_with [5; 2; 9]%nat) G ∧
  wp (find_leaf 32 INSERT (key_of 4)) (tree_with [5; 2; 9]%nat) (λ r s', ∃ a ga l, r = inr a ∧
      G !! a = Some ga ∧ g_node ga = LeafPage l ∧ in_range (g_lo ga) (g_hi ga) (Fin (key_of 4)) ∧
      pages s' = pages (tree_with [5; 2; 9]%nat) ∧
      file_header s' = file_header (tree_with [5; 2; 9]%nat) ∧
      crabbed (file_header (tree_with [5; 2; 9]%nat)) G
        (root_page (file_header (tree_with [5; 2; 9]%nat))) INSERT (memo s') a).
Proof.
  destruct tree_3_represents as (Hlim & _ & G & Hh & _). exists G. split; [exact Hh|].
  apply find_leaf_crabbing; [exact Hlim|exact Hh|vm_compute; done].
Defined.

Lemma reachable_safe_witness :
  reachable empty_tree ∧ (∃ A, represents empty_tree A) ∧
  (∀ key, ∃ rc s', delete_entry 32 key empty_tree = Done (rc, s')) ∧
  (pool_can 33 (pool empty_tree) →
    ∀ key rid, ∃ rc s', insert_entry 32 key rid empty_tree = Done (rc, s')) ∧
  (∀ fuel, (size (pages empty_tree) <= fuel)%nat →
    ∃ s', validate_tree 32 fuel empty_tree = Done (true, s') ∧ pages s' = pages empty_tree).
Proof.
  assert (reachable empty_tree) as Hr by (apply reach_empty; [split; simpl; lia|done]).
  split; [exact Hr|]. exact (reachable_safe empty_tree Hr).
Defined.

(** ** Capacities and height *)

(** the capacities a new index is created with fit the page: a leaf or an internal
    node that holds as many items as its maximal size ends before the page data does,
    and one more item would not have fitted. *)
Theorem page_capacity_fits attr_length :
  0 <= attr_length →
  (let item_size := attr_length + sizeof_RID + sizeof_RID in
   let used n := LeafIndexNode_HEADER_SIZE + n * item_size in
   used (calc_leaf_page_capacity attr_length) <= BP_PAGE_DATA_SIZE <
   used (calc_leaf_page_capacity attr_length + 1)) ∧
  (let item_size := attr_length + sizeof_RID + sizeof_PageNum in
   let used n := InternalIndexNode_HEADER_SIZE + n * item_size in
   used (calc_internal_page_capacity attr_length) <= BP_PAGE_DATA_SIZE <
   used (calc_internal_page_capacity attr_length + 1)).
Proof.
  intros Hl.
  unfold calc_leaf_page_capacity, calc_internal_page_capacity, sizeof_RID, sizeof_PageNum in *.
  change BP_PAGE_DATA_SIZE with 524280 in *. change LeafIndexNode_HEADER_SIZE with 16.
  change InternalIndexNode_HEADER_SIZE with 12. cbn zeta.
  rewrite !Z.quot_div_nonneg by lia.
  split.
  - pose proof (Z.div_mod (524280 - 16) (attr_length + 8 + 8) ltac:(lia)).
    pose proof (Z.mod_pos_bound (524280 - 16) (attr_length + 8 + 8) ltac:(lia)). nia.
  - pose proof (Z.div_mod (524280 - 12) (attr_length + 8 + 4) ltac:(lia)).
    pose proof (Z.mod_pos_bound (524280 - 12) (attr_length + 8 + 4) ltac:(lia)). nia.
Qed.

Lemma page_capacity_fits_witness :
  0 <= 4 ∧
  LeafIndexNode_HEADER_SIZE + calc_leaf_page_capacity 4 * (4 + 8 + 8) <= BP_PAGE_DATA_SIZE.
Proof.
  split; [lia|]. exact (proj1 (proj1 (page_capacity_fits 4 ltac:(lia)))).
Defined.

(** ** What the code does not do

    Concrete runs of behaviours that the comments and the names promise otherwise. *)
Definition key_in (x slot : nat) : int_key :=
  default (zero_key (K := int_key))
    (make_index_key int_index [0%nat] (store32 (Z.of_nat x)) (rid_of slot)).
Definition unique_tree (xs : list (nat * nat)) : state int_key pool_header :=
  foldl (λ s x, after (insert_entry 32 (key_in x.1 x.2) (rid_of x.2)) s)
    (State (FileHeader BP_INVALID_PAGE_NUM 6 4 true) false small_pool ∅ ∅ memo_empty) xs.
Definition result_of {A S} (c : ST S A) (s : S) : option A :=
  match c s with Done (a, _) => Some a | _ => None end.

(** A unique index with the attribute values 1 to 5 accepts another entry with the value
    3: the duplicate is looked for in one leaf only, and the equal entry is the first of
    the next leaf. *)
Lemma unique_index_duplicate :
  let s := unique_tree [(1, 5); (2, 5); (3, 5); (4, 5); (5, 5)]%nat in
  unique (file_header s) = true ∧
  result_of (get_entry (λ _, true) 60 (store32 3) 4) (new_scanner s) =
    Some (RC.SUCCESS, [rid_of 5]) ∧
  result_of (insert_entry 32 (key_in 3 1) (rid_of 1)) s = Some RC.SUCCESS.
Proof. vm_compute. done. Qed.

(** With every page clean, a deletion that merges a leaf into its left neighbour changes
    the neighbour's page without marking it dirty: an eviction would drop the moved
    entry. *)
Definition clean (s : state int_key pool_header) : state int_key pool_header :=
  State (file_header s) (header_dirty s) (pool s) (pages s) ∅ (memo s).
Definition size_of_leaf (n : option (IndexNode int_key)) : option nat :=
  match n with Some (LeafPage l) => Some (length (leaf_array l)) | _ => None end.
Lemma coalesce_not_dirty :
  let s := clean (after (delete_entry 32 (key_of 5)) (tree_with [1; 2; 3; 4; 5]%nat)) in
  let s' := after (delete_entry 32 (key_of 4)) s in
  result_of (delete_entry 32 (key_of 4)) s = Some RC.SUCCESS ∧
  size_of_leaf (pages s !! 1) = Some 2%nat ∧ size_of_leaf (pages s' !! 1) = Some 3%nat ∧
  (1 ∉ dirty s').
Proof. vm_compute. split_and!; [done..|]. intros H. inversion H. Qed.

(** A scan that meets a latched leaf returns [LOCKED_NEED_WAIT] with the scanner already
    on the new leaf and the old index: the retry its caller is asked for reports the end
    of the scan and the three entries of that leaf are lost. *)
Lemma scan_retry_skips :
  let s := after (scan_open (U := list Z) 40 None None) (new_scanner (tree_with [1; 2; 3; 4; 5]%nat)) in
  let first := next_entry (λ _, false) 40 in
  let s3 := after first (after first (after first s)) in
  result_of first s = Some (inr (rid_of 1)) ∧
  result_of first (after first s) = Some (inr (rid_of 2)) ∧
  result_of first (after first (after first s)) = Some (inl RC.LOCKED_NEED_WAIT) ∧
  result_of (next_entry (λ _, true) 40) s3 = Some (inl RC.RECORD_EOF).
Proof. vm_compute. done. Qed.
