(* ===== verification/TableTheorems.v ===== *)
(** * Theorems about tables

    The layout of the records of a table, and a table with its indexes as a map from RIDs
    to records.  The concrete table has one [INTS] column and a B+ tree index on it. *)
From S2P Require Import Prelude RidKey Comparator Bitmap LruCache BufferPool BufferPoolHeader.
From S2P Require Import LatchMemo BplusNode BplusTree BplusInv BplusState BplusIndex.
From S2P Require Import RecordPage RecordPageCorrect RecordFile RecordFileCorrect TableMeta Table.
From S2P Require Import TableCorrect TableBplus BplusTheorems RecordTheorems.
From Stdlib Require Import ZArith Lia.
From stdpp Require Import base option strings gmap sets list.
Local Open Scope Z_scope.
#[local] Opaque Nat.div Nat.modulo.

(** ** Record layout *)

(** [TableMeta::init] places the fields one behind the other from offset 0 to the
    record size without overlap, the bitmap of the null fields has a bit for each field
    and lies inside the record, [field_index] finds each field again by its offset, and
    the record size is the one [deserialize] computes from the stored fields. *)
Theorem table_meta_layout trx_fields id name attrs m :
  TableMeta.init trx_fields id name attrs = Done (inr m) →
  (∀ i f, TableMeta.field m i = Some f →
    0 <= FieldMeta.offset f ∧ FieldMeta.offset f + FieldMeta.len f <= TableMeta.record_size m ∧
    TableMeta.field_index m f = Z.of_nat i) ∧
  (∀ i j f g, TableMeta.field m i = Some f → TableMeta.field m j = Some g → (i < j)%nat →
    FieldMeta.offset f + FieldMeta.len f <= FieldMeta.offset g) ∧
  (∀ data i, Z.of_nat (length data) = TableMeta.record_size m → (i < TableMeta.field_num m)%nat →
    is_Some (TableMeta.null_bit trx_fields m data i)) ∧
  TableMeta.reload_record_size (TableMeta.fields m) = Some (TableMeta.record_size m).
Proof.
  intros Hm%init_wf. pose proof (mw_chained _ _ Hm) as Hc. split_and!.
  - intros i f Hf. destruct (chained_bounds _ _ _ _ _ Hc Hf). split_and!; [done..|].
    unfold TableMeta.field_index. rewrite (chained_index _ _ _ _ _ 0 Hc Hf). lia.
  - intros i j f g Hf Hg. by apply (chained_disjoint _ _ _ _ _ _ _ Hc).
  - intros data i Hlen Hi. by apply null_bit_there.
  - apply chained_size; [done|]. intros He. pose proof (mw_user _ _ Hm) as Hu.
    unfold TableMeta.field_num in Hu. rewrite He in Hu. cbn in Hu. lia.
Qed.

(** the fields the MVCC manager adds *)
Definition xid_fields : list FieldMeta.t :=
  [FieldMeta.mk "__trx_xid_begin" INTS false 0 4 false; FieldMeta.mk "__trx_xid_end" INTS false 0 4 false].
Definition user_attrs : list AttrInfo :=
  [MkAttrInfo INTS "id" 4 false; MkAttrInfo CHARS "name" 20 true; MkAttrInfo DATES "born" 4 true].
Definition sample_meta : TableMeta.t :=
  match TableMeta.init (Some xid_fields) 1 "people" user_attrs with
  | Done (inr m) => m
  | _ => TableMeta.mk 0 "" [] [] 0
  end.
Lemma table_meta_layout_witness :
  TableMeta.init (Some xid_fields) 1 "people" user_attrs = Done (inr sample_meta) ∧
  TableMeta.record_size sample_meta = 37 ∧
  TableMeta.reload_record_size (TableMeta.fields sample_meta) = Some (TableMeta.record_size sample_meta).
Proof.
  split; [reflexivity|]. split; [reflexivity|].
  exact (proj2 (proj2 (proj2 (table_meta_layout (Some xid_fields) 1 "people" user_attrs sample_meta eq_refl)))).
Defined.

(** ** A table as a map from RIDs to records *)
Section theorems.
Context {I : Type} `{!IndexOps I} `{!IndexSpec I}.
Context (trx_fields : option (list FieldMeta.t)).
Implicit Types (t : table I).

(** C10: [insert_record] puts the record under a RID not in use and its entries into every
    index without null fields, or, when the file is full or an index refuses a duplicate,
    takes back what it did: the records are those before, the indexes still hold exactly
    the entries of the records. *)
Theorem table_insert_correct begin flush_page area fuel t data :
  (∀ X, X ≠ ∅ → begin X ∈ X) → (∀ p, flush_page p = RC.SUCCESS) → (1 <= fuel)%nat →
  table_wf trx_fields t → storable area fuel (rec_size t) → Z.of_nat (length data) = rec_size t →
  Forall index_room (indexes_ t) →
  wp (Table.insert_record trx_fields begin flush_page area fuel data) t (λ res t',
    table_wf trx_fields t' ∧ table_meta_ t' = table_meta_ t ∧
    match res with
    | inr rid => table_lookup t rid = None ∧
        ∀ rid', table_lookup t' rid' = if decide (rid' = rid) then Some data else table_lookup t rid'
    | inl rc => (rc = RC.RECORD_DUPLICATE_KEY ∨ rc = RC.BUFFERPOOL_NOBUF) ∧
        ∀ rid', table_lookup t' rid' = table_lookup t rid'
    end).
Proof.
  intros Hbegin Hflush Hfuel Hwf Hst Hlen Hroom. eapply wp_mono.
  - by apply (wp_table_insert_inv trx_fields begin Hbegin flush_page Hflush area fuel Hfuel t data (table_lookup t)).
  - intros [rc|rid] t' (Hm & Hres).
    + destruct Hres as (Hrc & Hinv & Hl). split; [by eapply table_inv_wf|]. by split.
    + destruct Hres as (Hnone & Hinv & Hl). split; [by eapply table_inv_wf|]. by split.
Qed.

(** C11: [delete_record] of a record of the table takes its entries out of the indexes and
    the record out of the file, and nothing else. *)
Theorem table_delete_correct t data rid :
  table_wf trx_fields t → table_lookup t rid = Some data →
  wp (Table.delete_record trx_fields data rid) t (λ rc t', rc = RC.SUCCESS ∧
    table_wf trx_fields t' ∧ table_meta_ t' = table_meta_ t ∧
    ∀ rid', table_lookup t' rid' = if decide (rid' = rid) then None else table_lookup t rid').
Proof.
  intros Hwf Hl. eapply wp_mono; [by apply (wp_table_delete_inv trx_fields t data rid (table_lookup t))|].
  intros rc t' (-> & Hm & Hinv & Hlook). split_and!; [done|by eapply table_inv_wf|done|done].
Qed.

(** C33: [update_record] replaces the record and moves its entries; when an index refuses
    the new entry the records stay as they are. *)
Theorem table_update_correct t (old new : memory) rid :
  table_wf trx_fields t → table_lookup t rid = Some old → Z.of_nat (length new) = rec_size t →
  update_room trx_fields t old new rid →
  wp (Table.update_record trx_fields rid old new rid) t (λ rc t', table_meta_ t' = table_meta_ t ∧
    ((rc = RC.SUCCESS ∧ table_wf trx_fields t' ∧
      ∀ rid', table_lookup t' rid' = if decide (rid' = rid) then Some new else table_lookup t rid') ∨
     (rc = RC.RECORD_DUPLICATE_KEY ∧ ∀ rid', table_lookup t' rid' = table_lookup t rid'))).
Proof. intros. by apply wp_table_update. Qed.

(** C34: [create_index] with a new index that is empty and has room, whose metadata can be
    written.  It fills the index with exactly the entries of the records the transaction
    sees, those with null fields included, and adds it to the table; only when the
    transaction sees every record and none is null in the fields of the index does the table
    stay well-formed, for the operations on records leave nulls out and take all records.
    Otherwise it changes nothing: the arguments are wrong, a unique index gets two records
    it takes for one, or the transaction refuses a record. *)
Theorem create_index_correct t i scan_fuel visit unique fields name write_meta :
  table_wf trx_fields t → Forall Bitmap.byte_ok (BPFileHeader.bitmap (file_hdr (record_handler_ t))) →
  (length (file_records (record_handler_ t)) < scan_fuel)%nat → index_fresh trx_fields t i →
  (∀ r, verdict visit true r ≠ RC.RECORD_EOF) → (∀ m, write_meta m = RC.SUCCESS) →
  wp (create_index scan_fuel visit unique fields name (inr i) write_meta) t (λ rc t',
    (rc = RC.SUCCESS ∧ (∀ rid, table_lookup t' rid = table_lookup t rid) ∧
      (∃ i', indexes_ t' = indexes_ t ++ [i'] ∧ index_static i i' ∧
        ∀ d r, index_accepts i d r →
          index_holds i' d r = true ↔ ∃ d', indexed t visit r d' ∧ index_same i d r d' r = true) ∧
      (all_indexed trx_fields t visit i → table_wf trx_fields t')) ∨
    (t' = t ∧ (rc = RC.INVALID_ARGUMENT ∨ (rc = RC.RECORD_DUPLICATE_KEY ∧ index_clash t visit i) ∨
      ∃ rid d, table_lookup t rid = Some d ∧ rc = verdict visit true (rid, d) ∧ rc ≠ RC.SUCCESS ∧ rc ≠ RC.RECORD_INVISIBLE))).
Proof. intros. by apply wp_create_index. Qed.
End theorems.

(** *** A concrete table *)
Definition id_meta : TableMeta.t :=
  match TableMeta.init None 1 "t" [MkAttrInfo INTS "id" 4 false] with
  | Done (inr m) => m
  | _ => TableMeta.mk 0 "" [] [] 0
  end.
Definition id_field : FieldMeta.t := FieldMeta.mk "id" INTS false 1 4 true.
Definition id_index : BplusTreeIndex := MkBplusTreeIndex "i_id" [id_field] int_index empty_tree.
Definition id_table : table BplusTreeIndex :=
  MkTable id_meta (FileState BPFileHeader.initial ∅ ∅ true) [id_index].
(** the null bitmap, then the number *)
Definition id_record (x : Z) : list Z := [0; x; 0; 0; 0].
Abbreviation id_insert x :=
  (Table.insert_record None first_element (λ _, RC.SUCCESS) (λ _ _, [0; 0; 0; 0; 0]) 1 (id_record x)).
Definition id_table_1 : table BplusTreeIndex := after (id_insert 7) id_table.
Definition id_rid : RID.t := RID.mk 1 0.

Lemma id_table_wf : table_wf None id_table.
Proof.
  assert (meta_wf None id_meta) as Hm by by apply (init_wf None 1 "t" [MkAttrInfo INTS "id" 4 false]).
  assert (represents (index_handler_ id_index) []) as Hr by apply empty_tree_represents.
  split; [done|apply empty_file_wf|]. constructor; [|done]. split.
  - apply bplus_fits; [apply Hm|reflexivity|by exists []|]. intros f ->%list_elem_of_singleton. left.
  - intros d r (_ & _ & [k Hk]). cbn [index_holds BplusTreeIndex_IndexSpec].
    rewrite (bplus_holds_has id_index d r k [] Hk Hr). split; [done|].
    intros (d' & Hd' & _). unfold table_lookup, file_lookup in Hd'. cbn in Hd'.
    case_decide; [|done]. by rewrite lookup_empty in Hd'.
Qed.
Lemma id_storable : storable (λ _ _, [0; 0; 0; 0; 0]) 1 (rec_size id_table).
Proof. split; [done|]. split; [done|]. intros h [= <-]. done. Qed.
Lemma id_room : Forall index_room (indexes_ id_table).
Proof. constructor; [|done]. vm_compute. done. Qed.
Lemma id_table_1_wf : table_wf None id_table_1 ∧ table_lookup id_table_1 id_rid = Some (id_record 7).
Proof.
  destruct (wp_table_insert_inv None first_element first_element_in (λ _, RC.SUCCESS) (λ _, eq_refl)
    (λ _ _, [0; 0; 0; 0; 0]) 1 (le_n 1) id_table (id_record 7) _ id_table_wf (λ _ H, H) id_storable eq_refl id_room)
    as (res & t1 & Hrun & _ & Hres).
  assert (table_lookup (after (id_insert 7) id_table) id_rid = Some (id_record 7)) as Hl by (vm_compute; done).
  unfold id_table_1, after in *. rewrite Hrun in Hl |- *. split; [|done].
  destruct res; destruct Hres as (_ & Hinv & Hlook); by eapply table_inv_wf.
Qed.

Lemma table_insert_correct_witness :
  wp (id_insert 7) id_table (λ res t', table_wf None t' ∧ table_meta_ t' = table_meta_ id_table ∧
    match res with
    | inr rid => table_lookup id_table rid = None ∧
        ∀ rid', table_lookup t' rid' = if decide (rid' = rid) then Some (id_record 7) else table_lookup id_table rid'
    | inl rc => (rc = RC.RECORD_DUPLICATE_KEY ∨ rc = RC.BUFFERPOOL_NOBUF) ∧
        ∀ rid', table_lookup t' rid' = table_lookup id_table rid'
    end).
Proof.
  apply table_insert_correct; [apply first_element_in|done|done|apply id_table_wf|apply id_storable|done|apply id_room].
Defined.

Lemma table_delete_correct_witness :
  wp (Table.delete_record None (id_record 7) id_rid) id_table_1 (λ rc t', rc = RC.SUCCESS ∧
    table_wf None t' ∧ table_meta_ t' = table_meta_ id_table_1 ∧
    ∀ rid', table_lookup t' rid' = if decide (rid' = id_rid) then None else table_lookup id_table_1 rid').
Proof. apply table_delete_correct; apply id_table_1_wf. Defined.

Definition rooms {I} `{!IndexOps I} `{!IndexSpec I} (l : list I) : Prop := foldr (λ i P, index_room i ∧ P) True l.
Lemma rooms_all {I} `{!IndexOps I} `{!IndexSpec I} (l : list I) : rooms l → Forall index_room l.
Proof. induction l; [done|]. intros [? ?]. constructor; auto. Qed.
Lemma update_room_run {I} `{!IndexOps I} `{!IndexSpec I} trx_fields (t : table I) old new rid :
  match delete_entry_of_indexes trx_fields old rid false t with
  | Done (_, t1) => rooms (indexes_ t1) ∧
      match insert_entry_of_indexes trx_fields new rid t1 with
      | Done (_, t2) => rooms (indexes_ t2)
      | _ => True
      end
  | _ => True
  end → update_room trx_fields t old new rid.
Proof.
  intros Hr rc t1 Hd. rewrite Hd in Hr. destruct Hr as [H1 H2]. split; [by apply rooms_all|].
  intros rc2 t2 Hi. rewrite Hi in H2. by apply rooms_all.
Qed.
Lemma table_update_correct_witness :
  wp (Table.update_record None id_rid (id_record 7) (id_record 9) id_rid) id_table_1
    (λ rc t', table_meta_ t' = table_meta_ id_table_1 ∧
    ((rc = RC.SUCCESS ∧ table_wf None t' ∧ ∀ rid', table_lookup t' rid' =
        if decide (rid' = id_rid) then Some (id_record 9) else table_lookup id_table_1 rid') ∨
     (rc = RC.RECORD_DUPLICATE_KEY ∧ ∀ rid', table_lookup t' rid' = table_lookup id_table_1 rid'))).
Proof.
  apply table_update_correct; [apply id_table_1_wf|apply id_table_1_wf|vm_compute; done|].
  apply update_room_run. vm_compute. split_and!; exact Logic.I.
Defined.

(** a table of one [CHARS] column over a file with two records, and an index for it *)
Definition c_meta : TableMeta.t :=
  match TableMeta.init None 2 "c" [MkAttrInfo CHARS "c" 3 false] with
  | Done (inr m) => m
  | _ => TableMeta.mk 0 "" [] [] 0
  end.
Definition c_field : FieldMeta.t := FieldMeta.mk "c" CHARS false 1 3 true.
Definition c_config : supported := Supported (AttrComparator.mk [CHARS] [3%nat]) eq_refl.
Definition c_index : BplusTreeIndex := MkBplusTreeIndex "i_c" [c_field] c_config
  (State (FileHeader BP_INVALID_PAGE_NUM 6 4 false) false small_pool ∅ ∅ memo_empty).
Definition c_table : table BplusTreeIndex := MkTable c_meta one_page_file [].
Definition c_records : list (RID.t * memory) := [(RID.mk 1 0, [1; 2; 3; 4]); (RID.mk 1 2, [5; 6; 7; 8])].
Lemma c_table_records : file_records (record_handler_ c_table) = c_records.
Proof. vm_compute. done. Qed.

Lemma c_table_wf : table_wf None c_table.
Proof.
  split; [by apply (init_wf None 2 "c" [MkAttrInfo CHARS "c" 3 false])|apply one_page_file_wf|done].
Qed.
Lemma c_index_fresh : index_fresh None c_table c_index.
Proof.
  assert (represents (index_handler_ c_index) []) as Hr.
  { apply represents_nil; [split; simpl; lia|done]. }
  split.
  - apply (bplus_fits None c_meta); [apply (tw_meta _ _ _ c_table_wf)|reflexivity|by exists []|].
    intros f ->%list_elem_of_singleton. left.
  - intros d r (_ & _ & [k Hk]). cbn [index_holds BplusTreeIndex_IndexSpec].
    by rewrite (bplus_holds_has c_index d r k [] Hk Hr).
  - rewrite c_table_records. intros pre i' Hsub Hfill.
    assert (match fill_index pre c_index with Done (_, i1) => index_room i1 | _ => True end) as Hroom; [|by rewrite Hfill in Hroom].
    clear Hfill. unfold c_records in Hsub.
    repeat (match goal with H : _ `sublist_of` _ |- _ => inversion H; clear H; subst end); vm_compute; exact Logic.I.
Qed.
Lemma create_index_correct_witness :
  let visit := Some (λ (rid : RID.t) (_ : memory) (_ : bool), if decide (RID.slot_num rid = 0) then RC.SUCCESS else RC.RECORD_INVISIBLE) in
  wp (create_index 3 visit false [c_field] "i_c" (inr c_index) (λ _, RC.SUCCESS)) c_table (λ rc t',
    (rc = RC.SUCCESS ∧ (∀ rid, table_lookup t' rid = table_lookup c_table rid) ∧
      (∃ i', indexes_ t' = indexes_ c_table ++ [i'] ∧ index_static c_index i' ∧
        ∀ d r, index_accepts c_index d r →
          index_holds i' d r = true ↔ ∃ d', indexed c_table visit r d' ∧ index_same c_index d r d' r = true) ∧
      (all_indexed None c_table visit c_index → table_wf None t')) ∨
    (t' = c_table ∧ (rc = RC.INVALID_ARGUMENT ∨ (rc = RC.RECORD_DUPLICATE_KEY ∧ index_clash c_table visit c_index) ∨
      ∃ rid d, table_lookup c_table rid = Some d ∧ rc = verdict visit true (rid, d) ∧ rc ≠ RC.SUCCESS ∧ rc ≠ RC.RECORD_INVISIBLE))).
Proof.
  intros visit.
  apply (create_index_correct None c_table c_index 3 visit false [c_field] "i_c" (λ _, RC.SUCCESS));
    [apply c_table_wf|apply one_page_bytes|rewrite c_table_records; cbn; lia|apply c_index_fresh| |done].
  intros r. unfold verdict, visit. by case_decide.
Defined.
