(* ===== verification/CLog.v ===== *)
(** * The commit log ([storage/clog/clog.h], [storage/clog/clog.cpp])

    Log records, the buffer that collects them, the file they are written to and read
    back from, and the loop that hands the records of the file to a handler.  [writen] is
    [common::writen]: what reaches the file, and whether it is everything; [fsync_ok]
    is the result of [fsync].  Reads of the file succeed up to its end. *)
From S2P Require Import Prelude RidKey Comparator.
From Stdlib Require Import ZArith Lia.
From stdpp Require Import base option list.
Local Open Scope Z_scope.

Module CLogType.
Inductive t : Set := ERROR | MTR_BEGIN | MTR_COMMIT | MTR_ROLLBACK | INSERT | UPDATE | DELETE.
#[global] Instance t_eq_dec : EqDecision t.
Proof. solve_decision. Defined.
(** [clog_type_to_integer] *)
Definition to_integer (type : t) : Z :=
  match type with
  | ERROR => 0 | MTR_BEGIN => 1 | MTR_COMMIT => 2 | MTR_ROLLBACK => 3
  | INSERT => 4 | UPDATE => 5 | DELETE => 6
  end.
(** [clog_type_from_integer]; [None] is a value of the enumeration type without a name,
    which every [switch] treats as its default *)
Definition from_integer (value : Z) : option t :=
  match value with
  | 0 => Some ERROR | 1 => Some MTR_BEGIN | 2 => Some MTR_COMMIT | 3 => Some MTR_ROLLBACK
  | 4 => Some INSERT | 5 => Some UPDATE | 6 => Some DELETE | _ => None
  end.
End CLogType.

Record CLogRecordHeader : Set := MkCLogRecordHeader {
  lsn_ : Z;
  log_trx_id_ : Z;
  type_ : Z;
  logrec_len_ : Z
}.
(** [CLogRecordData]: [padding_] are the four bytes between [data_offset_] and the pointer
    [data_], which is null in [None] *)
Record CLogRecordData : Set := MkCLogRecordData {
  table_id_ : Z;
  rid_ : RID.t;
  data_len_ : Z;
  data_offset_ : Z;
  padding_ : memory;
  data_ : option memory
}.
Record CLogRecord : Set := MkCLogRecord {
  header_ : CLogRecordHeader;
  data_record_ : CLogRecordData;
  commit_xid_ : Z
}.
Definition HEADER_SIZE : Z := 24.
Definition sizeof_CLogRecordHeader : nat := 16.
Definition sizeof_CLogRecordCommitData : Z := 4.

Module CLogRecord.
(** [new CLogRecord()]: zeroed, then the default member initialisers *)
Definition empty_data : CLogRecordData := MkCLogRecordData (-1) (RID.mk 0 0) 0 0 [0; 0; 0; 0] None.
Definition default_commit_xid : Z := -1.
Definition log_type (r : CLogRecord) : option CLogType.t := CLogType.from_integer (type_ (header_ r)).
Definition trx_id (r : CLogRecord) : Z := log_trx_id_ (header_ r).
Definition logrec_len (r : CLogRecord) : Z := logrec_len_ (header_ r).

Definition build_mtr_record (type : CLogType.t) (trx_id : Z) : CLogRecord :=
  MkCLogRecord (MkCLogRecordHeader (-1) trx_id (CLogType.to_integer type) 0) empty_data default_commit_xid.
Definition build_commit_record (trx_id commit_xid : Z) : CLogRecord :=
  MkCLogRecord
    (MkCLogRecordHeader (-1) trx_id (CLogType.to_integer CLogType.MTR_COMMIT) sizeof_CLogRecordCommitData)
    empty_data commit_xid.
Definition build_data_record (type : CLogType.t) (trx_id table_id : Z) (rid : RID.t)
    (data_len data_offset : Z) (data : memory) : option CLogRecord :=
  buf ← (if decide (data_len > 0) then Some <$> load_bytes 0 (Z.to_nat data_len) data else Some None);
  Some (MkCLogRecord
    (MkCLogRecordHeader (-1) trx_id (CLogType.to_integer type) (HEADER_SIZE + data_len))
    (MkCLogRecordData table_id rid data_len data_offset (padding_ empty_data) buf) default_commit_xid).

(** [build(header, data)]; no value where the code asserts or copies more than [data] has *)
Definition build (header : CLogRecordHeader) (data : memory) : option CLogRecord :=
  if decide (logrec_len_ header <= 0) then Some (MkCLogRecord header empty_data default_commit_xid)
  else if decide (type_ header = CLogType.to_integer CLogType.MTR_COMMIT) then
    if decide (logrec_len_ header = sizeof_CLogRecordCommitData) then
      xid ← load_int data;
      Some (MkCLogRecord header empty_data xid)
    else None
  else
    table_id ← load_int data;
    rid ← load_rid (drop 4 data);
    data_len ← load_int (drop 12 data);
    data_offset ← load_int (drop 16 data);
    padding ← load_bytes 20 4 data;
    buf ← (if decide (logrec_len_ header > HEADER_SIZE)
           then Some <$> load_bytes (Z.to_nat HEADER_SIZE) (Z.to_nat (logrec_len_ header - HEADER_SIZE)) data
           else Some None);
    Some (MkCLogRecord header (MkCLogRecordData table_id rid data_len data_offset padding buf)
            default_commit_xid).
End CLogRecord.

(** ** The file *)
Record CLogFile : Set := MkCLogFile { contents : memory; position : nat; eof_ : bool }.

(** the bytes of the structures in memory *)
Definition header_bytes (h : CLogRecordHeader) : memory :=
  store32 (lsn_ h) ++ store32 (log_trx_id_ h) ++ store32 (type_ h) ++ store32 (logrec_len_ h).
Definition header_of_bytes (m : memory) : option CLogRecordHeader :=
  lsn ← load_int m; trx_id ← load_int (drop 4 m); type ← load_int (drop 8 m); len ← load_int (drop 12 m);
  Some (MkCLogRecordHeader lsn trx_id type len).
Definition data_bytes (d : CLogRecordData) : memory :=
  store32 (table_id_ d) ++ store_rid (rid_ d) ++ store32 (data_len_ d) ++ store32 (data_offset_ d) ++ padding_ d.
Definition commit_bytes (xid : Z) : memory := store32 xid.

Section log.
Context (writen : memory → memory → memory * bool) (fsync_ok : bool).

(** [CLogFile::write]: the file is open with [O_APPEND] *)
Definition file_write (data : memory) (len : Z) : ST CLogFile RC.t :=
  f ← st_get;
  bytes ← st_some (load_bytes 0 (Z.to_nat len) data);
  let '(written, all) := writen (contents f) bytes in
  st_modify (λ f, let c := contents f ++ written in MkCLogFile c (length c) (eof_ f)) ;;;
  mret (if all then RC.SUCCESS else RC.IOERR_WRITE).
Definition file_read (len : nat) : ST CLogFile (RC.t + memory) :=
  f ← st_get;
  if decide (position f + len <= length (contents f))%nat then
    st_modify (λ f, MkCLogFile (contents f) (position f + len) (eof_ f)) ;;;
    mret (inr (take len (drop (position f) (contents f))))
  else
    st_modify (λ f, MkCLogFile (contents f) (length (contents f)) true) ;;;
    mret (inl RC.IOERR_READ).
Definition file_sync : ST CLogFile RC.t := mret (if fsync_ok then RC.SUCCESS else RC.IOERR_SYNC).

(** ** The buffer *)
Record CLogBuffer : Set := MkCLogBuffer { log_records_ : list CLogRecord; total_size_ : Z }.
Definition CLOG_BUFFER_SIZE : Z := 4 * 1024 * 1024.

Definition append_log_record (log_record : CLogRecord) : ST CLogBuffer RC.t :=
  b ← st_get;
  if decide (total_size_ b + CLogRecord.logrec_len log_record >= CLOG_BUFFER_SIZE) then mret RC.LOGBUF_FULL
  else
    st_modify (λ b, MkCLogBuffer (log_records_ b ++ [log_record])
      (total_size_ b + CLogRecord.logrec_len log_record)) ;;;
    mret RC.SUCCESS.

(** a null [data_] is only read for a length of 0 *)
Definition write_log_record (log_record : CLogRecord) : ST CLogFile RC.t :=
  let header := header_ log_record in
  try file_write (header_bytes header) (Z.of_nat sizeof_CLogRecordHeader) ;;
  match CLogRecord.log_type log_record with
  | Some (CLogType.MTR_BEGIN | CLogType.MTR_ROLLBACK) => mret RC.SUCCESS
  | Some CLogType.MTR_COMMIT => file_write (commit_bytes (commit_xid_ log_record)) (logrec_len_ header)
  | _ =>
      let data_record := data_record_ log_record in
      try file_write (data_bytes data_record) HEADER_SIZE ;;
      file_write (default [] (data_ data_record)) (data_len_ data_record)
  end.

(** [CLogManager]: the buffer and the file *)
Record CLogManager : Set := MkCLogManager { log_buffer_ : CLogBuffer; log_file_ : CLogFile }.
Abbreviation M := (ST CLogManager).
Definition on_file {A} (c : ST CLogFile A) : M A := λ s,
  match c (log_file_ s) with
  | Done (a, f) => Done (a, MkCLogManager (log_buffer_ s) f)
  | Crash => Crash
  | OutOfFuel => OutOfFuel
  end.
Definition on_buffer {A} (c : ST CLogBuffer A) : M A := λ s,
  match c (log_buffer_ s) with
  | Done (a, b) => Done (a, MkCLogManager b (log_file_ s))
  | Crash => Crash
  | OutOfFuel => OutOfFuel
  end.

(** [CLogBuffer::flush_buffer]: the loop over the records, which ends when none is left *)
Fixpoint flush_loop (n : nat) : M () :=
  match n with
  | O => mret ()
  | S n =>
      s ← st_get;
      match log_records_ (log_buffer_ s) with
      | [] => mret ()
      | log_record :: rest =>
          on_buffer (st_modify (λ b, MkCLogBuffer rest (total_size_ b))) ;;;
          rc ← on_file (write_log_record log_record);
          st_assert (RC.succ rc) ;;;
          on_buffer (st_modify (λ b,
            MkCLogBuffer (log_records_ b) (total_size_ b - CLogRecord.logrec_len log_record))) ;;;
          flush_loop n
      end
  end.
Definition flush_buffer : M RC.t :=
  s ← st_get;
  flush_loop (length (log_records_ (log_buffer_ s))) ;;;
  on_file file_sync.

Definition append_log (log_record : CLogRecord) : M RC.t := on_buffer (append_log_record log_record).
Definition append_data_log (type : CLogType.t) (trx_id table_id : Z) (rid : RID.t)
    (data_len data_offset : Z) (data : memory) : M RC.t :=
  log_record ← st_some (CLogRecord.build_data_record type trx_id table_id rid data_len data_offset data);
  append_log log_record.
Definition begin_trx (trx_id : Z) : M RC.t :=
  append_log (CLogRecord.build_mtr_record CLogType.MTR_BEGIN trx_id).
Definition commit_trx (trx_id commit_xid : Z) : M RC.t :=
  try append_log (CLogRecord.build_commit_record trx_id commit_xid) ;;
  flush_buffer.
Definition rollback_trx (trx_id : Z) : M RC.t :=
  append_log (CLogRecord.build_mtr_record CLogType.MTR_ROLLBACK trx_id).
End log.

(** ** Reading the log *)
Record CLogRecordIterator : Set := MkCLogRecordIterator {
  it_file : CLogFile;
  log_record_ : option CLogRecord
}.
Definition iterator_valid (it : CLogRecordIterator) : bool := bool_decide (is_Some (log_record_ it)).
Definition iterator_file {A} (c : ST CLogFile A) : ST CLogRecordIterator A := λ it,
  match c (it_file it) with
  | Done (a, f) => Done (a, MkCLogRecordIterator f (log_record_ it))
  | Crash => Crash
  | OutOfFuel => OutOfFuel
  end.
Definition set_log_record (r : option CLogRecord) : ST CLogRecordIterator () :=
  st_modify (λ it, MkCLogRecordIterator (it_file it) r).

(** [CLogRecordIterator::next] *)
Definition iterator_next : ST CLogRecordIterator RC.t :=
  set_log_record None ;;;
  r ← iterator_file (file_read sizeof_CLogRecordHeader);
  match r with
  | inl rc => it ← st_get; mret (if eof_ (it_file it) then RC.RECORD_EOF else rc)
  | inr bytes =>
      header ← st_some (header_of_bytes bytes);
      let record_size := logrec_len_ header in
      data <-? (if decide (record_size > 0) then iterator_file (file_read (Z.to_nat record_size))
                else mret (inr [])) ;;
      log_record ← st_some (CLogRecord.build header data);
      set_log_record (Some log_record) ;;;
      mret RC.SUCCESS
  end.

(** The loop of [CLogManager::recover] over the log, [redo] being its [switch]: [inl] when
    [redo] failed and [recover] returns, [inr] when the loop ends with its [rc]. *)
Section loop.
Context {W : Type} (redo : CLogRecord → ST W RC.t).
Definition on_iterator {A} (c : ST CLogRecordIterator A) : ST (CLogRecordIterator * W) A := λ s,
  match c s.1 with
  | Done (a, it) => Done (a, (it, s.2))
  | Crash => Crash
  | OutOfFuel => OutOfFuel
  end.
Definition on_world {A} (c : ST W A) : ST (CLogRecordIterator * W) A := λ s,
  match c s.2 with
  | Done (a, w) => Done (a, (s.1, w))
  | Crash => Crash
  | OutOfFuel => OutOfFuel
  end.
Fixpoint recover_loop (fuel : nat) : ST (CLogRecordIterator * W) (RC.t + RC.t) :=
  match fuel with
  | O => st_nofuel
  | S fuel =>
      rc ← on_iterator iterator_next;
      s ← st_get;
      match log_record_ s.1 with
      | Some log_record =>
          if RC.succ rc then
            rc ← on_world (redo log_record);
            if RC.succ rc then recover_loop fuel else mret (inl rc)
          else mret (inr rc)
      | None => mret (inr rc)
      end
  end.

(** The same over the records themselves. *)
Fixpoint replay (rs : list CLogRecord) (rc : RC.t) : ST W (RC.t + RC.t) :=
  match rs with
  | [] => mret (inr rc)
  | r :: rs => rc' ← redo r; if RC.succ rc' then replay rs rc else mret (inl rc')
  end.
End loop.
