(* ===== verification/CLogCorrect.v ===== *)
(** * Correctness of the commit log

    Records are read back as they were written; a log that ends inside a record is read up
    to that record. *)
From S2P Require Import Prelude RidKey Comparator CLog.
From Stdlib Require Import ZArith Lia.
From stdpp Require Import base option list.
Local Open Scope Z_scope.

(** The records the transaction manager builds. *)
Inductive built : CLogRecord → Prop :=
| built_mtr type trx_id :
    type = CLogType.MTR_BEGIN ∨ type = CLogType.MTR_ROLLBACK → is_int32 trx_id →
    built (CLogRecord.build_mtr_record type trx_id)
| built_commit trx_id commit_xid :
    is_int32 trx_id → is_int32 commit_xid → built (CLogRecord.build_commit_record trx_id commit_xid)
| built_data type trx_id table_id rid offset data r :
    type = CLogType.INSERT ∨ type = CLogType.UPDATE ∨ type = CLogType.DELETE →
    is_int32 trx_id → is_int32 table_id → is_int32 (RID.page_num rid) → is_int32 (RID.slot_num rid) →
    is_int32 offset → HEADER_SIZE + Z.of_nat (length data) < 2 ^ 31 →
    CLogRecord.build_data_record type trx_id table_id rid (Z.of_nat (length data)) offset data = Some r →
    built r.

(** What a data record is. *)
Lemma build_data_record_eq type trx_id table_id rid offset data :
  CLogRecord.build_data_record type trx_id table_id rid (Z.of_nat (length data)) offset data =
  Some (MkCLogRecord
    (MkCLogRecordHeader (-1) trx_id (CLogType.to_integer type) (HEADER_SIZE + Z.of_nat (length data)))
    (MkCLogRecordData table_id rid (Z.of_nat (length data)) offset [0; 0; 0; 0]
      (if decide (data = []) then None else Some data)) (-1)).
Proof.
  unfold CLogRecord.build_data_record. destruct data as [|b data]; [done|].
  rewrite decide_True by (cbn; lia). unfold load_bytes. rewrite Nat2Z.id, decide_True by lia.
  cbn [fmap option_fmap option_map mbind option_bind]. rewrite drop_0, firstn_all. done.
Qed.

(** ** Bytes of a record *)
Definition body_bytes (r : CLogRecord) : memory :=
  match CLogRecord.log_type r with
  | Some (CLogType.MTR_BEGIN | CLogType.MTR_ROLLBACK) => []
  | Some CLogType.MTR_COMMIT => commit_bytes (commit_xid_ r)
  | _ => data_bytes (data_record_ r) ++ default [] (data_ (data_record_ r))
  end.
Definition record_bytes (r : CLogRecord) : memory := header_bytes (header_ r) ++ body_bytes r.

Lemma length_header_bytes h : length (header_bytes h) = sizeof_CLogRecordHeader.
Proof. done. Qed.
Lemma length_body_bytes r : built r → Z.of_nat (length (body_bytes r)) = CLogRecord.logrec_len r.
Proof.
  intros [type trx [-> | ->] _|trx xid _ _|type trx tid rid off data r' Ht _ _ _ _ _ _ Hb]; [done..|].
  rewrite build_data_record_eq in Hb. injection Hb as <-.
  assert (∀ a, body_bytes (MkCLogRecord (MkCLogRecordHeader (-1) trx (CLogType.to_integer type) a)
    (MkCLogRecordData tid rid (Z.of_nat (length data)) off [0; 0; 0; 0]
      (if decide (data = []) then None else Some data)) (-1)) =
    data_bytes (MkCLogRecordData tid rid (Z.of_nat (length data)) off [0; 0; 0; 0] None) ++ data) as ->.
  { intros a. unfold body_bytes. destruct Ht as [->|[->| ->]]; cbn; by destruct data. }
  rewrite length_app. unfold CLogRecord.logrec_len. cbn [header_ logrec_len_].
  change (length (data_bytes _)) with 24%nat. unfold HEADER_SIZE. lia.
Qed.
Lemma built_header r :
  built r → is_int32 (lsn_ (header_ r)) ∧ is_int32 (log_trx_id_ (header_ r)) ∧
    is_int32 (type_ (header_ r)) ∧ is_int32 (logrec_len_ (header_ r)).
Proof.
  unfold is_int32. change (2 ^ 31) with 2147483648.
  intros [type trx [-> | ->] Hi|trx xid Hi _|type trx tid rid off data r' Ht Hi _ _ _ _ Hl Hb].
  1-3: unfold is_int32 in *; cbn -[Z.le Z.lt]; split_and!; try done; lia.
  rewrite build_data_record_eq in Hb. injection Hb as <-. unfold is_int32, HEADER_SIZE in *.
  destruct Ht as [->|[->| ->]]; cbn -[Z.le Z.lt]; change (2 ^ 31) with 2147483648 in *; lia.
Qed.

Lemma load_int_at_store x n m : is_int32 x → length n = 4%nat → load_int (drop 4 (n ++ store32 x ++ m)) = Some x.
Proof. intros Hx Hn. rewrite drop_app_length' by done. by apply load_int_store32. Qed.
Lemma load_rid_app p n m : is_int32 p → is_int32 n → load_rid (store32 p ++ store32 n ++ m) = Some (RID.mk p n).
Proof.
  intros Hp Hn. unfold load_rid. rewrite load_int_store32 by done. cbn [mbind option_bind].
  by rewrite load_int_at_store.
Qed.
Lemma load_bytes_mid (pre d post : memory) off n :
  length pre = off → length d = n → load_bytes off n (pre ++ d ++ post) = Some d.
Proof.
  intros <- <-. unfold load_bytes. rewrite decide_True by (rewrite !length_app; lia).
  by rewrite drop_app_length, take_app_length.
Qed.
Lemma header_roundtrip h m :
  is_int32 (lsn_ h) → is_int32 (log_trx_id_ h) → is_int32 (type_ h) → is_int32 (logrec_len_ h) →
  header_of_bytes (header_bytes h ++ m) = Some h.
Proof.
  intros H1 H2 H3 H4. unfold header_of_bytes, header_bytes. rewrite <-!app_assoc.
  rewrite load_int_store32 by done. cbn [mbind option_bind].
  rewrite load_int_at_store by done. cbn [mbind option_bind].
  replace 12%nat with (4 + 8)%nat by done. replace 8%nat with (4 + 4)%nat by done.
  rewrite <-!drop_drop. rewrite !drop_app_length' by done.
  rewrite load_int_store32 by done. cbn [mbind option_bind].
  rewrite load_int_store32 by done. cbn [mbind option_bind]. by destruct h.
Qed.

(** [build] on the bytes of the body gives the record back. *)
Lemma build_roundtrip r : built r → CLogRecord.build (header_ r) (body_bytes r) = Some r.
Proof.
  intros [type trx Ht Hi|trx xid Hi Hx|type trx tid rid off data r0 Ht Hi Htid Hp Hs Ho Hl Hb]; [..|clear r].
  - done.
  - unfold CLogRecord.build. cbn [header_ CLogRecord.build_commit_record logrec_len_ type_].
    rewrite decide_False by (unfold sizeof_CLogRecordCommitData; lia).
    rewrite decide_True by done. rewrite decide_True by done.
    change (body_bytes _) with (store32 xid). rewrite <-(app_nil_r (store32 xid)).
    by rewrite load_int_store32.
  - rewrite build_data_record_eq in Hb. injection Hb as <-. set (r := MkCLogRecord _ _ _).
    set (len := Z.of_nat (length data)) in *. assert (is_int32 len) as Hlen.
    { unfold is_int32, HEADER_SIZE in *. lia. }
    assert (body_bytes r = store32 tid ++ store32 (RID.page_num rid) ++ store32 (RID.slot_num rid) ++
      store32 len ++ store32 off ++ [0; 0; 0; 0] ++ data) as ->.
    { unfold body_bytes, data_bytes, store_rid, r, CLogRecord.log_type. rewrite <-!app_assoc.
      destruct Ht as [->|[->| ->]]; cbn [header_ type_ CLogType.to_integer CLogType.from_integer];
        destruct (decide (data = [])) as [->|]; done. }
    unfold CLogRecord.build. change (logrec_len_ (header_ r)) with (HEADER_SIZE + len).
    rewrite decide_False by (unfold HEADER_SIZE; lia).
    rewrite decide_False by (destruct Ht as [->|[->| ->]]; done).
    rewrite load_int_store32 by done. cbn [mbind option_bind].
    replace 20%nat with (4 + (4 + (4 + (4 + 4))))%nat by done.
    replace 16%nat with (4 + (4 + (4 + 4)))%nat by done.
    replace 12%nat with (4 + (4 + 4))%nat by done. rewrite <-!drop_drop.
    rewrite !drop_app_length' by done.
    rewrite load_rid_app by done. cbn [mbind option_bind].
    rewrite !load_int_store32 by done. cbn [mbind option_bind].
    set (pre := store32 tid ++ store32 (RID.page_num rid) ++ store32 (RID.slot_num rid) ++
      store32 len ++ store32 off).
    replace (store32 tid ++ _) with (pre ++ [0; 0; 0; 0] ++ data) by (unfold pre; by rewrite <-!app_assoc).
    rewrite (load_bytes_mid pre [0; 0; 0; 0] data (4 + (4 + (4 + (4 + 4)))) 4 eq_refl eq_refl). cbn [mbind option_bind].
    rewrite (app_assoc pre). rewrite <-(app_nil_r data).
    destruct (decide (data = [])) as [Hd|Hd].
    + rewrite decide_False by (unfold len; subst data; cbn; lia). cbn [mbind option_bind].
      unfold r. by destruct rid.
    + rewrite decide_True by (unfold len; destruct data; [done|]; cbn; lia).
      rewrite load_bytes_mid by (try done; unfold len; lia). cbn [mbind option_bind fmap option_fmap option_map].
      unfold r. by destruct rid.
Qed.

(** ** Writing *)
Section write.
Context (writen : memory → memory → memory * bool) (fsync_ok : bool).
Context (Hwriten : ∀ c d, writen c d = (d, true)).

Lemma wp_file_write data len f :
  Z.of_nat (length data) = len →
  wp (file_write writen data len) f (λ rc f', rc = RC.SUCCESS ∧
    contents f' = contents f ++ data ∧ eof_ f' = eof_ f).
Proof.
  intros Hl. unfold file_write. apply wp_bind, wp_get, wp_bind.
  eapply (wp_some _ data). { unfold load_bytes. rewrite decide_True, drop_0, take_ge by lia. done. }
  rewrite Hwriten. apply wp_bind, wp_modify, wp_ret. done.
Qed.
Lemma wp_write_log_record r f :
  built r → wp (write_log_record writen r) f (λ rc f', rc = RC.SUCCESS ∧
    contents f' = contents f ++ record_bytes r ∧ eof_ f' = eof_ f).
Proof.
  intros Hr. pose proof (length_body_bytes r Hr) as Hlen.
  unfold write_log_record. apply wp_bind. eapply wp_mono; [by apply wp_file_write|].
  intros rc f1 (-> & Hc1 & He1). change (RC.succ RC.SUCCESS) with true. cbv iota.
  unfold record_bytes. rewrite (app_assoc (contents f)), <-Hc1, <-He1. clear Hc1 He1.
  destruct Hr as [type trx Ht Hi|trx xid Hi Hx|type trx tid rid off data r0 Ht _ _ _ _ _ _ Hb].
  - unfold body_bytes. destruct Ht as [-> | ->]; cbn; apply wp_ret; by rewrite app_nil_r.
  - cbn. by apply wp_file_write.
  - rewrite build_data_record_eq in Hb. injection Hb as <-. set (r := MkCLogRecord _ _ _) in *.
    assert (∀ (Q : RC.t → CLogFile → Prop), wp (rc ← file_write writen (data_bytes (data_record_ r)) HEADER_SIZE;
      if RC.succ rc then file_write writen (default [] (data_ (data_record_ r))) (data_len_ (data_record_ r))
      else mret (from_rc rc)) f1 Q →
      wp (match CLogRecord.log_type r with
          | Some (CLogType.MTR_BEGIN | CLogType.MTR_ROLLBACK) => mret RC.SUCCESS
          | Some CLogType.MTR_COMMIT =>
              file_write writen (commit_bytes (commit_xid_ r)) (logrec_len_ (header_ r))
          | _ => rc ← file_write writen (data_bytes (data_record_ r)) HEADER_SIZE;
              if RC.succ rc then file_write writen (default [] (data_ (data_record_ r))) (data_len_ (data_record_ r))
              else mret (from_rc rc)
          end) f1 Q) as Hsw by (intros Q HQ; destruct Ht as [->|[->| ->]]; exact HQ).
    apply Hsw, wp_bind. eapply wp_mono; [by apply wp_file_write|].
    intros rc f2 (-> & Hc2 & He2). change (RC.succ RC.SUCCESS) with true. cbv iota.
    eapply wp_mono.
    { apply wp_file_write. unfold r. cbn. by destruct (decide (data = [])) as [->|]. }
    intros rc f3 (-> & -> & ->). rewrite Hc2, <-app_assoc. split_and!; [done| |done]. f_equal.
    unfold body_bytes. destruct Ht as [->|[->| ->]]; done.
Qed.

Definition log_bytes (rs : list CLogRecord) : memory := mjoin (record_bytes <$> rs).
Definition log_size (rs : list CLogRecord) : Z := foldr (λ r n, CLogRecord.logrec_len r + n) 0 rs.

(** Flushing writes the records of the buffer behind the file, in order. *)
Lemma wp_flush_loop rs n s :
  log_records_ (log_buffer_ s) = rs → n = length rs → Forall built rs →
  wp (flush_loop writen n) s (λ _ s', log_records_ (log_buffer_ s') = [] ∧
    total_size_ (log_buffer_ s') = total_size_ (log_buffer_ s) - log_size rs ∧
    contents (log_file_ s') = contents (log_file_ s) ++ log_bytes rs ∧
    eof_ (log_file_ s') = eof_ (log_file_ s)).
Proof.
  intros Hs -> Hb. revert s Hs. induction Hb as [|r rs Hr Hb IH]; intros s Hs.
  { apply wp_ret. cbn. rewrite app_nil_r. split_and!; [done|lia|done|done]. }
  cbn [length flush_loop]. apply wp_bind, wp_get. rewrite Hs. apply wp_bind.
  eexists _, _. split; [reflexivity|]. apply wp_bind.
  destruct (wp_write_log_record r (log_file_ s) Hr) as (rc & f & Hrun & -> & Hc & He).
  eexists RC.SUCCESS, _. split; [unfold on_file; cbn [log_file_]; by rewrite Hrun|].
  apply wp_bind, wp_assert; [done|]. apply wp_bind. eexists _, _. split; [reflexivity|].
  eapply wp_mono; [by apply IH|]. cbn. intros _ s' (-> & -> & -> & ->). rewrite Hc, He.
  unfold log_bytes. cbn. rewrite <-app_assoc.
  split_and!; [done|unfold log_size; lia|done|done].
Qed.
Lemma wp_flush_buffer s :
  Forall built (log_records_ (log_buffer_ s)) →
  wp (flush_buffer writen fsync_ok) s (λ rc s', rc = (if fsync_ok then RC.SUCCESS else RC.IOERR_SYNC) ∧
    log_records_ (log_buffer_ s') = [] ∧
    total_size_ (log_buffer_ s') = total_size_ (log_buffer_ s) - log_size (log_records_ (log_buffer_ s)) ∧
    contents (log_file_ s') = contents (log_file_ s) ++ log_bytes (log_records_ (log_buffer_ s)) ∧
    eof_ (log_file_ s') = eof_ (log_file_ s)).
Proof.
  intros Hb. unfold flush_buffer. apply wp_bind, wp_get, wp_bind.
  eapply wp_mono; [by apply wp_flush_loop|]. intros ? s' Hs'.
  eexists _, _. split; [reflexivity|]. done.
Qed.
End write.

(** ** Reading *)
Definition unread (f : CLogFile) : memory := drop (position f) (contents f).
Definition reading (f : CLogFile) : Prop := (position f <= length (contents f))%nat ∧ eof_ f = false.

Lemma wp_file_read n f d rest :
  reading f → unread f = d ++ rest → length d = n →
  wp (file_read n) f (λ r f', r = inr d ∧ reading f' ∧ unread f' = rest ∧ contents f' = contents f).
Proof.
  intros [Hp He] Hu Hn. unfold file_read. apply wp_bind, wp_get.
  assert (length (unread f) = length (contents f) - position f)%nat as Hlu by (unfold unread; by rewrite length_drop).
  rewrite Hu, length_app in Hlu. rewrite decide_True by lia.
  apply wp_bind, wp_modify, wp_ret. unfold unread in *. cbn. rewrite Hu. subst n.
  split_and!; [by rewrite take_app_length|split; cbn; [lia|done]| |done].
  rewrite <-drop_drop, Hu. by rewrite drop_app_length.
Qed.
Lemma wp_file_read_eof n f :
  reading f → (length (unread f) < n)%nat →
  wp (file_read n) f (λ r f', r = inl RC.IOERR_READ ∧ eof_ f' = true).
Proof.
  intros [Hp He] Hn. unfold file_read. apply wp_bind, wp_get. unfold unread in Hn. rewrite length_drop in Hn.
  rewrite decide_False by lia. by apply wp_bind, wp_modify, wp_ret.
Qed.

Lemma wp_iterator_file {A} (c : ST CLogFile A) it (Q : A → CLogRecordIterator → Prop) :
  wp c (it_file it) (λ a f, Q a (MkCLogRecordIterator f (log_record_ it))) → wp (iterator_file c) it Q.
Proof.
  intros (a & f & Hc & HQ). exists a, (MkCLogRecordIterator f (log_record_ it)).
  unfold iterator_file. by rewrite Hc.
Qed.

(** The next record of the file. *)
Lemma wp_iterator_next r rest it :
  built r → reading (it_file it) → unread (it_file it) = record_bytes r ++ rest →
  wp iterator_next it (λ rc it', rc = RC.SUCCESS ∧ log_record_ it' = Some r ∧
    reading (it_file it') ∧ unread (it_file it') = rest).
Proof.
  intros Hr Hread Hu. unfold record_bytes in Hu. rewrite <-app_assoc in Hu.
  destruct (built_header r Hr) as (H1 & H2 & H3 & H4).
  unfold iterator_next, set_log_record. apply wp_bind, wp_modify, wp_bind, wp_iterator_file. cbn [it_file].
  eapply wp_mono; [by apply (wp_file_read _ _ _ _ Hread Hu)|].
  intros res f1 (-> & Hread1 & Hu1 & _). apply wp_bind.
  eapply (wp_some _ (header_ r)). { rewrite <-(app_nil_r (header_bytes _)). by apply header_roundtrip. }
  pose proof (length_body_bytes r Hr) as Hlen. unfold CLogRecord.logrec_len in Hlen.
  apply wp_bind. eapply (wp_mono _ _ (λ res it', res = inr (body_bytes r) ∧ reading (it_file it') ∧
    unread (it_file it') = rest)).
  - case_decide as Hpos.
    + apply wp_iterator_file. cbn [it_file]. eapply wp_mono; [apply (wp_file_read _ _ _ _ Hread1 Hu1); lia|].
      by intros res f2 (-> & ? & ? & _).
    + apply wp_ret. assert (body_bytes r = []) as Hnil by (apply length_zero_iff_nil; lia).
      rewrite Hnil in Hu1 |- *. done.
  - intros res it2 (-> & Hread2 & Hu2). apply wp_bind.
    eapply wp_some; [by apply build_roundtrip|]. by apply wp_bind, wp_modify, wp_ret.
Qed.

(** The end of the file, in front of, inside, or behind the header of a record. *)
Lemma wp_iterator_next_header it :
  reading (it_file it) → (length (unread (it_file it)) < sizeof_CLogRecordHeader)%nat →
  wp iterator_next it (λ rc it', rc = RC.RECORD_EOF ∧ log_record_ it' = None).
Proof.
  intros Hread Hu. unfold iterator_next, set_log_record.
  apply wp_bind, wp_modify, wp_bind, wp_iterator_file. cbn [it_file].
  eapply wp_mono; [by apply wp_file_read_eof|]. intros res f1 (-> & He).
  apply wp_bind, wp_get, wp_ret. cbn. by rewrite He.
Qed.
Lemma wp_iterator_next_body r d it :
  built r → reading (it_file it) → unread (it_file it) = header_bytes (header_ r) ++ d →
  (length d < length (body_bytes r))%nat →
  wp iterator_next it (λ rc it', rc = RC.IOERR_READ ∧ log_record_ it' = None).
Proof.
  intros Hr Hread Hu Hd. destruct (built_header r Hr) as (H1 & H2 & H3 & H4).
  unfold iterator_next, set_log_record. apply wp_bind, wp_modify, wp_bind, wp_iterator_file. cbn [it_file].
  eapply wp_mono; [by apply (wp_file_read _ _ _ _ Hread Hu)|].
  intros res f1 (-> & Hread1 & Hu1 & _). apply wp_bind.
  eapply (wp_some _ (header_ r)). { rewrite <-(app_nil_r (header_bytes _)). by apply header_roundtrip. }
  pose proof (length_body_bytes r Hr) as Hlen. unfold CLogRecord.logrec_len in Hlen.
  apply wp_bind. rewrite decide_True by lia. apply wp_iterator_file. cbn [it_file].
  eapply wp_mono; [apply (wp_file_read_eof _ _ Hread1); rewrite Hu1; lia|].
  intros res f2 (-> & _). by apply wp_ret.
Qed.

(** *** The loop of recovery *)
(** What is left of a record that was being written, and how the loop ends on it. *)
Inductive torn : memory → RC.t → Prop :=
| torn_header d : (length d < sizeof_CLogRecordHeader)%nat → torn d RC.RECORD_EOF
| torn_body r d : built r → (length d < length (body_bytes r))%nat →
    torn (header_bytes (header_ r) ++ d) RC.IOERR_READ.

Section loop.
Context {W : Type} (redo : CLogRecord → ST W RC.t).

Lemma on_iterator_run {A} (c : ST CLogRecordIterator A) it (w : W) (Q : A → CLogRecordIterator → Prop) :
  wp c it Q → ∃ a it', on_iterator c (it, w) = Done (a, (it', w)) ∧ Q a it'.
Proof. intros (a & it' & Hc & HQ). exists a, it'. unfold on_iterator. cbn. by rewrite Hc. Qed.

(** The loop over the file is the loop over the records in it. *)
Lemma recover_loop_replay rs tail rc fuel it w :
  Forall built rs → torn tail rc → reading (it_file it) →
  unread (it_file it) = log_bytes rs ++ tail → (length rs < fuel)%nat →
  match recover_loop redo fuel (it, w), replay redo rs rc w with
  | Done (r, (_, w')), Done (r', w'') => r = r' ∧ w' = w''
  | Crash, Crash | OutOfFuel, OutOfFuel => True
  | _, _ => False
  end.
Proof.
  intros Hb Ht. revert fuel it w. induction Hb as [|r rs Hr Hb IH]; intros [|fuel] it w Hread Hu Hf;
    cbn [length] in Hf; try lia; cbn [recover_loop replay].
  - assert (wp iterator_next it (λ rc' it', rc' = rc ∧ log_record_ it' = None)) as Hn.
    { cbn in Hu. destruct Ht as [d Hd|r d Hr Hd].
      - apply wp_iterator_next_header; [done|]. by rewrite Hu.
      - by apply (wp_iterator_next_body r d). }
    destruct (on_iterator_run _ it w _ Hn) as (rc' & it' & Hrun & -> & Hnone).
    unfold mbind, ST_bind. rewrite Hrun. cbn. by rewrite Hnone.
  - unfold log_bytes in Hu. cbn in Hu. rewrite <-app_assoc in Hu.
    destruct (on_iterator_run _ it w _ (wp_iterator_next r _ it Hr Hread Hu))
      as (rc' & it' & Hrun & -> & Hsome & Hread' & Hu').
    unfold mbind, ST_bind. rewrite Hrun. cbn. rewrite Hsome. change (RC.succ RC.SUCCESS) with true. cbv iota.
    unfold on_world. cbn. destruct (redo r w) as [[rc' w']| |]; [|done..].
    destruct (RC.succ rc'); [|done]. by apply IH; [| |lia].
Qed.
End loop.

(** *** A log of which only a first part reached the file *)
Lemma log_prefix rs n :
  Forall built rs → (n <= length (log_bytes rs))%nat →
  ∃ rs1 rs2 tail rc, rs = rs1 ++ rs2 ∧ torn tail rc ∧ take n (log_bytes rs) = log_bytes rs1 ++ tail.
Proof.
  intros Hb. revert n. induction Hb as [|r rs Hr Hb IH]; intros n Hn.
  { exists [], [], [], RC.RECORD_EOF. cbn in *. rewrite take_nil. split_and!; [done| |done].
    apply torn_header. cbn. unfold sizeof_CLogRecordHeader. lia. }
  change (log_bytes (r :: rs)) with (record_bytes r ++ log_bytes rs) in *. rewrite length_app in Hn.
  assert (length (record_bytes r) = sizeof_CLogRecordHeader + length (body_bytes r))%nat as Hlen.
  { unfold record_bytes. by rewrite length_app. }
  destruct (decide (n < length (record_bytes r))%nat) as [Hin|Hout].
  - exists [], (r :: rs). rewrite take_app_le by lia.
    destruct (decide (n < sizeof_CLogRecordHeader)%nat) as [Hh|Hh].
    + exists (take n (record_bytes r)), RC.RECORD_EOF. split_and!; [done| |done].
      apply torn_header. rewrite length_take. lia.
    + exists (take n (record_bytes r)), RC.IOERR_READ. split_and!; [done| |done].
      unfold record_bytes. rewrite take_app_ge by (rewrite length_header_bytes; lia).
      apply torn_body; [done|]. rewrite length_take, length_header_bytes. lia.
  - destruct (IH (n - length (record_bytes r))%nat ltac:(lia)) as (rs1 & rs2 & tail & rc & -> & Ht & Heq).
    exists (r :: rs1), rs2, tail, rc. split_and!; [done..|].
    rewrite take_app_ge by lia. rewrite Heq. unfold log_bytes. cbn. by rewrite app_assoc.
Qed.
