(* ===== verification/Mvcc.v ===== *)
(** * Multi-version transactions ([storage/trx/trx.h], [storage/trx/mvcc_trx.cpp])

    Every record carries two hidden numbers, the transaction that made it and the one that
    ended it; a negative number belongs to a transaction that is still running.  A
    transaction works on the state of its database: the tables by their id, the log, the
    counter of the transaction numbers.  A record a transaction is handed points into its
    page, so that [set_int] on it writes the page: [in_place].

    [order] is the order in which the [unordered_set] of the operations is iterated. *)
From S2P Require Import Prelude RidKey Comparator Bitmap LruCache BufferPool RecordPage RecordFile.
From S2P Require Import TableMeta Table CLog.
From Stdlib Require Import ZArith Lia.
From stdpp Require Import base option strings gmap sets list.
Local Open Scope Z_scope.

(** ** [MvccTrxKit] *)
Definition mvcc_fields : list FieldMeta.t :=
  [FieldMeta.mk "__trx_xid_begin" INTS false 0 4 false;
   FieldMeta.mk "__trx_xid_end" INTS false 0 4 false].
Definition max_trx_id : Z := 2 ^ 31 - 1.
(** the increment of an [atomic<int32_t>] wraps around *)
Definition incr32 (x : Z) : Z := int32 ((x + 1) mod 2 ^ 32).

(** ** [Field] *)
(** [Field::set_int]; no value where it asserts or leaves the record *)
Definition set_int (f : FieldMeta.t) (data : memory) (value : Z) : option memory :=
  if decide (FieldMeta.type f = INTS ∧ FieldMeta.len f = 4)
  then store_bytes (Z.to_nat (FieldMeta.offset f)) (store32 value) data else None.
(** [Field::get_int] of a field of type [INTS] *)
Definition get_int (f : FieldMeta.t) (data : memory) : option Z :=
  if decide (FieldMeta.type f = INTS) then load_int (drop (Z.to_nat (FieldMeta.offset f)) data) else None.

(** [MvccTrx::trx_fields] *)
Definition trx_field_metas (m : TableMeta.t) : option (FieldMeta.t * FieldMeta.t) :=
  if decide (2 <= TableMeta.sys_field_num (Some mvcc_fields))%nat then
    b ← TableMeta.field m 0; e ← TableMeta.field m 1; Some (b, e)
  else None.

(** ** [Operation] *)
Module Operation.
Inductive Type_ : Set := INSERT | UPDATE | DELETE | UNDEFINED.
#[global] Instance Type_eq_dec : EqDecision Type_.
Proof. solve_decision. Defined.
Record t : Set := mk { type : Type_; table_id : Z; rid : RID.t }.
#[global] Instance t_eq_dec : EqDecision t.
Proof. solve_decision. Defined.
(** [OperationEqualer], which does not look at the type *)
Definition equal (op1 op2 : t) : bool :=
  bool_decide (table_id op1 = table_id op2) && bool_decide (rid op1 = rid op2).
End Operation.

(** [unordered_set::insert]: whether the element was put in *)
Definition op_insert (op : Operation.t) (ops : list Operation.t) : bool * list Operation.t :=
  if existsb (Operation.equal op) ops then (false, ops) else (true, op :: ops).

(** ** Visibility: [MvccTrx::visit_record] *)
Definition visit_xids (trx_id_ begin_xid end_xid : Z) (readonly : bool) : RC.t :=
  if decide (begin_xid > 0 ∧ end_xid > 0) then
    if decide (trx_id_ >= begin_xid ∧ trx_id_ <= end_xid) then RC.SUCCESS else RC.RECORD_INVISIBLE
  else if decide (begin_xid < 0) then
    if decide (- begin_xid = trx_id_) then RC.SUCCESS else RC.RECORD_INVISIBLE
  else if decide (end_xid < 0) then
    if readonly then
      if decide (- end_xid ≠ trx_id_) then RC.SUCCESS else RC.RECORD_INVISIBLE
    else
      if decide (- end_xid ≠ trx_id_) then RC.LOCKED_CONCURRENCY_CONFLICT else RC.RECORD_INVISIBLE
  else RC.SUCCESS.
Definition visit_data (m : TableMeta.t) (trx_id_ : Z) (data : memory) (readonly : bool) : option RC.t :=
  '(begin_field, end_field) ← trx_field_metas m;
  begin_xid ← get_int begin_field data;
  end_xid ← get_int end_field data;
  Some (visit_xids trx_id_ begin_xid end_xid readonly).

(** ** [MvccTrx] *)
Record MvccTrx : Set := MkMvccTrx {
  trx_id_ : Z;
  started_ : bool;
  recovering_ : bool;
  operations_ : list Operation.t
}.
(** the two constructors *)
Definition new_trx : MvccTrx := MkMvccTrx (-1) false false [].
Definition new_recovering_trx (trx_id : Z) : MvccTrx := MkMvccTrx trx_id true true [].

Section mvcc.
Context {I : Type} `{!IndexOps I}.
Context (begin : gset PageNum → PageNum) (flush_page : PageNum → RC.t)
  (area : PageNum → nat → memory) (fuel : nat).
Context (writen : memory → memory → memory * bool) (fsync_ok : bool).
Context (order : list Operation.t → list Operation.t).

(** what the transactions of a database share *)
Record db : Type := MkDb {
  tables_ : gmap Z (table I);
  log_manager_ : CLogManager;
  current_trx_id_ : Z
}.
Record session : Type := MkSession { trx_ : MvccTrx; db_ : db }.
Abbreviation M := (ST session).

Definition set_db (d : db) (s : session) : session := MkSession (trx_ s) d.
Definition set_operations (ops : list Operation.t) (s : session) : session :=
  MkSession (MkMvccTrx (trx_id_ (trx_ s)) (started_ (trx_ s)) (recovering_ (trx_ s)) ops) (db_ s).
Definition set_started (b : bool) (s : session) : session :=
  MkSession (MkMvccTrx (trx_id_ (trx_ s)) b (recovering_ (trx_ s)) (operations_ (trx_ s))) (db_ s).

(** a call of a table or of the log *)
Definition on_table {A} (table_id : Z) (c : ST (table I) A) : M A := λ s,
  match tables_ (db_ s) !! table_id with
  | None => Crash
  | Some t =>
      match c t with
      | Done (a, t') => Done (a, set_db (MkDb (<[table_id := t']> (tables_ (db_ s)))
                                   (log_manager_ (db_ s)) (current_trx_id_ (db_ s))) s)
      | Crash => Crash
      | OutOfFuel => OutOfFuel
      end
  end.
Definition on_log {A} (c : ST CLogManager A) : M A := λ s,
  match c (log_manager_ (db_ s)) with
  | Done (a, l) => Done (a, set_db (MkDb (tables_ (db_ s)) l (current_trx_id_ (db_ s))) s)
  | Crash => Crash
  | OutOfFuel => OutOfFuel
  end.
(** [trx_kit_.next_trx_id()] *)
Definition next_trx_id : M Z :=
  s ← st_get;
  let id := incr32 (current_trx_id_ (db_ s)) in
  st_modify (set_db (MkDb (tables_ (db_ s)) (log_manager_ (db_ s)) id)) ;;;
  mret id.

(** the fields of a table *)
Definition trx_fields (table_id : Z) : M (FieldMeta.t * FieldMeta.t) :=
  s ← st_get;
  t ← st_some (tables_ (db_ s) !! table_id);
  st_some (trx_field_metas (table_meta_ t)).

(** the record at [rid], through the pointer into its page *)
Definition in_place {A} (table_id : Z) (rid : RID.t) (f : memory → option (memory * A)) : M A :=
  r ← on_table table_id (Table.visit_record rid f);
  match r with inl _ => st_crash | inr a => mret a end.
Definition record_at (table_id : Z) (rid : RID.t) : M memory :=
  in_place table_id rid (λ data, Some (data, data)).
Definition set_int_at (table_id : Z) (rid : RID.t) (f : FieldMeta.t) (value : Z) : M memory :=
  in_place table_id rid (λ data, data' ← set_int f data value; Some (data', data')).

Definition insert_operation (op : Operation.t) : M bool :=
  s ← st_get;
  let '(inserted, ops) := op_insert op (operations_ (trx_ s)) in
  st_modify (set_operations ops) ;;;
  mret inserted.

Definition append_operation_log (type : CLogType.t) (table_id : Z) (rid : RID.t) (data : memory) : M () :=
  s ← st_get;
  rc ← on_log (append_data_log type (trx_id_ (trx_ s)) table_id rid (Z.of_nat (length data)) 0 data);
  st_assert (RC.succ rc).

(** [MvccTrx::visit_record] *)
Definition visit_record (table_id : Z) (rid : RID.t) (readonly : bool) : M RC.t :=
  '(begin_field, end_field) ← trx_fields table_id;
  data ← record_at table_id rid;
  s ← st_get;
  begin_xid ← st_some (get_int begin_field data);
  end_xid ← st_some (get_int end_field data);
  mret (visit_xids (trx_id_ (trx_ s)) begin_xid end_xid readonly).

(** [MvccTrx::insert_record]: the RID is the one the table sets in the record *)
Definition insert_record (table_id : Z) (record : memory) : M (RC.t + RID.t) :=
  '(begin_field, end_field) ← trx_fields table_id;
  s ← st_get;
  record ← st_some (set_int begin_field record (- trx_id_ (trx_ s)));
  record ← st_some (set_int end_field record max_trx_id);
  rid <-? on_table table_id
    (Table.insert_record (Some mvcc_fields) begin flush_page area fuel record) ;;
  append_operation_log CLogType.INSERT table_id rid record ;;;
  inserted ← insert_operation (Operation.mk Operation.INSERT table_id rid);
  mret (if inserted : bool then inr rid else inl RC.INTERNAL).

(** [MvccTrx::delete_record] *)
Definition delete_record (table_id : Z) (rid : RID.t) : M RC.t :=
  '(begin_field, end_field) ← trx_fields table_id;
  record ← record_at table_id rid;
  end_xid ← st_some (get_int end_field record);
  st_assert (bool_decide (end_xid > 0)) ;;;
  if decide (end_xid ≠ max_trx_id) then mret RC.SUCCESS
  else
    s ← st_get;
    record ← set_int_at table_id rid end_field (- trx_id_ (trx_ s));
    on_table table_id (Table.delete_entry_of_indexes (Some mvcc_fields) record rid false) ;;;
    append_operation_log CLogType.DELETE table_id rid [] ;;;
    insert_operation (Operation.mk Operation.DELETE table_id rid) ;;;
    mret RC.SUCCESS.

(** [MvccTrx::update_record]: [new_record] is a buffer of the caller *)
Definition update_record (table_id : Z) (rid : RID.t) (new_record : memory) : M RC.t :=
  rc ← visit_record table_id rid false;
  if negb (RC.succ rc) then mret rc
  else
    '(begin_field, end_field) ← trx_fields table_id;
    s ← st_get;
    record ← set_int_at table_id rid end_field (- trx_id_ (trx_ s));
    new_record ← st_some (set_int begin_field new_record (- trx_id_ (trx_ s)));
    new_record ← st_some (set_int end_field new_record max_trx_id);
    on_table table_id (Table.delete_entry_of_indexes (Some mvcc_fields) record rid false) ;;;
    r ← on_table table_id
      (Table.insert_record (Some mvcc_fields) begin flush_page area fuel new_record);
    match r with
    | inl rc =>
        on_table table_id (Table.insert_entry_of_indexes (Some mvcc_fields) record rid) ;;; mret rc
    | inr new_rid =>
        append_operation_log CLogType.DELETE table_id rid [] ;;;
        append_operation_log CLogType.INSERT table_id new_rid new_record ;;;
        insert_operation (Operation.mk Operation.DELETE table_id rid) ;;;
        insert_operation (Operation.mk Operation.INSERT table_id new_rid) ;;;
        mret RC.SUCCESS
    end.

(** [MvccTrx::start_if_need] *)
Definition start_if_need : M RC.t :=
  s ← st_get;
  if started_ (trx_ s) then mret RC.SUCCESS
  else
    st_assert (bool_decide (operations_ (trx_ s) = [])) ;;;
    id ← next_trx_id;
    st_modify (λ s, MkSession (MkMvccTrx id (started_ (trx_ s)) (recovering_ (trx_ s))
                       (operations_ (trx_ s))) (db_ s)) ;;;
    rc ← on_log (CLog.begin_trx id);
    st_assert (RC.succ rc) ;;;
    st_modify (set_started true) ;;;
    mret RC.SUCCESS.

(** The [record_updater]s: the number of the field must be [from] and becomes [to]. *)
Definition update_xid (f : FieldMeta.t) (from to : Z) (data : memory) : option (memory * ()) :=
  xid ← get_int f data;
  if decide (xid = from) then data' ← set_int f data to; Some (data', ()) else None.

Definition commit_operation (commit_xid : Z) (op : Operation.t) : M () :=
  let table_id := Operation.table_id op in
  match Operation.type op with
  | Operation.INSERT | Operation.DELETE =>
      '(begin_field, end_field) ← trx_fields table_id;
      s ← st_get;
      let xid_field := if decide (Operation.type op = Operation.INSERT) then begin_field else end_field in
      r ← on_table table_id (Table.visit_record (Operation.rid op)
            (update_xid xid_field (- trx_id_ (trx_ s)) commit_xid));
      st_assert (match r with inr _ => true | inl _ => false end)
  | _ => st_crash
  end.
Definition rollback_operation (op : Operation.t) : M () :=
  let table_id := Operation.table_id op in
  match Operation.type op with
  | Operation.INSERT =>
      r ← on_table table_id (Table.get_record (Operation.rid op));
      match r with
      | inl _ => st_crash
      | inr record =>
          rc ← on_table table_id (Table.delete_record (Some mvcc_fields) record (Operation.rid op));
          st_assert (RC.succ rc)
      end
  | Operation.UPDATE | Operation.DELETE =>
      '(begin_field, end_field) ← trx_fields table_id;
      s ← st_get;
      r ← on_table table_id (Table.visit_record (Operation.rid op)
            (update_xid end_field (- trx_id_ (trx_ s)) max_trx_id));
      st_assert (match r with inr _ => true | inl _ => false end)
  | Operation.UNDEFINED => st_crash
  end.
(** the loop over [operations_] *)
Fixpoint for_operations (f : Operation.t → M ()) (ops : list Operation.t) : M () :=
  match ops with
  | [] => mret ()
  | op :: ops => f op ;;; for_operations f ops
  end.

(** [MvccTrx::commit_with_trx_id] and [commit] *)
Definition commit_with_trx_id (commit_xid : Z) : M RC.t :=
  st_modify (set_started false) ;;;
  s ← st_get;
  for_operations (commit_operation commit_xid) (order (operations_ (trx_ s))) ;;;
  st_modify (set_operations []) ;;;
  if recovering_ (trx_ s) then mret RC.SUCCESS
  else on_log (CLog.commit_trx writen fsync_ok (trx_id_ (trx_ s)) commit_xid).
Definition commit : M RC.t :=
  commit_id ← next_trx_id;
  commit_with_trx_id commit_id.

(** [MvccTrx::rollback] *)
Definition rollback : M RC.t :=
  st_modify (set_started false) ;;;
  s ← st_get;
  for_operations rollback_operation (order (operations_ (trx_ s))) ;;;
  st_modify (set_operations []) ;;;
  if recovering_ (trx_ s) then mret RC.SUCCESS
  else on_log (CLog.rollback_trx (trx_id_ (trx_ s))).

(** [find_table]: only the records that change data need a table *)
Definition redo_table (log_record : CLogRecord) : M (RC.t + ()) :=
  match CLogRecord.log_type log_record with
  | Some (CLogType.INSERT | CLogType.UPDATE | CLogType.DELETE) =>
      s ← st_get;
      mret (match tables_ (db_ s) !! table_id_ (data_record_ log_record) with
            | Some _ => inr () | None => inl RC.SCHEMA_TABLE_NOT_EXIST end)
  | _ => mret (inr ())
  end.
(** [MvccTrx::redo] *)
Definition redo (log_record : CLogRecord) : M RC.t :=
  _ <-? redo_table log_record ;;
  let data_record := data_record_ log_record in
  let table_id := table_id_ data_record in
  match CLogRecord.log_type log_record with
  | Some CLogType.INSERT =>
      try on_table table_id (Table.recover_insert_record (Some mvcc_fields)
            (default [] (data_ data_record)) (rid_ data_record)) ;;
      insert_operation (Operation.mk Operation.INSERT table_id (rid_ data_record)) ;;;
      mret RC.SUCCESS
  | Some CLogType.DELETE =>
      '(begin_field, end_field) ← trx_fields table_id;
      s ← st_get;
      r ← on_table table_id (Table.visit_record (rid_ data_record)
            (update_xid end_field max_trx_id (- trx_id_ (trx_ s))));
      st_assert (match r with inr _ => true | inl _ => false end) ;;;
      insert_operation (Operation.mk Operation.DELETE table_id (rid_ data_record)) ;;;
      mret RC.SUCCESS
  | Some CLogType.MTR_COMMIT =>
      commit_with_trx_id (commit_xid_ log_record) ;;; mret RC.SUCCESS
  | Some CLogType.MTR_ROLLBACK => rollback ;;; mret RC.SUCCESS
  | _ => st_crash
  end.
End mvcc.
Arguments db : clear implicits.
Arguments session : clear implicits.
