(* ===== verification/TrxKit.v ===== *)
(** * The transaction managers ([storage/trx/trx.cpp], [mvcc_trx.cpp], [vacuous_trx.cpp]) and recovery

    [MvccTrxKit] keeps the transactions of the database; a transaction is a pointer into
    that list, here its position.  [recover] is [CLogManager::recover] with the loop of
    [CLog.recover_loop] over the log.  [VacuousTrx] passes on to the table. *)
From S2P Require Import Prelude RidKey Comparator Bitmap LruCache BufferPool RecordPage RecordFile.
From S2P Require Import TableMeta Table CLog Mvcc.
From Stdlib Require Import ZArith Lia.
From stdpp Require Import base option strings gmap sets list.
Local Open Scope Z_scope.

(** [TrxKit::create]; [name] is compared without regard to case *)
Inductive TrxKitKind : Set := Vacuous | MVCC.
Definition lower_ascii (c : Ascii.ascii) : Ascii.ascii :=
  let n := Ascii.N_of_ascii c in
  if decide (65 <= n ∧ n <= 90)%N then Ascii.ascii_of_N (n + 32) else c.
Fixpoint strcasecmp_eq (s1 s2 : string) : bool :=
  match s1, s2 with
  | EmptyString, EmptyString => true
  | String c1 s1, String c2 s2 => bool_decide (lower_ascii c1 = lower_ascii c2) && strcasecmp_eq s1 s2
  | _, _ => false
  end.
Definition trx_kit_create (name : string) : option TrxKitKind :=
  if is_blank name || strcasecmp_eq name "vacuous" then Some Vacuous
  else if strcasecmp_eq name "mvcc" then Some MVCC
  else None.
(** [trx_fields] of the two *)
Definition kit_trx_fields (k : TrxKitKind) : option (list FieldMeta.t) :=
  match k with Vacuous => None | MVCC => Some mvcc_fields end.

Section kit.
Context {I : Type} `{!IndexOps I}.
Context (begin : gset PageNum → PageNum) (flush_page : PageNum → RC.t)
  (area : PageNum → nat → memory) (fuel : nat).
Context (writen : memory → memory → memory * bool) (fsync_ok : bool).
Context (order : list Operation.t → list Operation.t).

Record kit : Type := MkKit { trxes_ : list MvccTrx; kit_db : db I }.
Abbreviation M := (ST kit).
Definition kit_trx_id (k : kit) : Z := current_trx_id_ (kit_db k).

(** [create_trx(log_manager)] and [create_trx(trx_id)] *)
Definition create_trx : M nat :=
  k ← st_get;
  st_modify (λ k, MkKit (trxes_ k ++ [new_trx]) (kit_db k)) ;;;
  mret (length (trxes_ k)).
Definition create_trx_id (trx_id : Z) : M nat :=
  k ← st_get;
  st_modify (λ k, MkKit (trxes_ k ++ [new_recovering_trx trx_id])
    (if decide (kit_trx_id k < trx_id)
     then MkDb (tables_ (kit_db k)) (log_manager_ (kit_db k)) trx_id else kit_db k)) ;;;
  mret (length (trxes_ k)).
Definition destroy_trx (i : nat) : M () :=
  st_modify (λ k, MkKit (delete i (trxes_ k)) (kit_db k)).
Definition find_trx (trx_id : Z) (k : kit) : option nat :=
  fst <$> list_find (λ t, trx_id_ t = trx_id) (trxes_ k).

(** a call of the transaction at a position *)
Definition on_trx {A} (i : nat) (c : ST (session I) A) : M A := λ k,
  match trxes_ k !! i with
  | None => Crash
  | Some t =>
      match c (MkSession t (kit_db k)) with
      | Done (a, s) => Done (a, MkKit (<[i := trx_ s]> (trxes_ k)) (db_ s))
      | Crash => Crash
      | OutOfFuel => OutOfFuel
      end
  end.

(** ** [CLogManager::recover] *)
Abbreviation trx_redo := (redo writen fsync_ok order).
(** the [switch] over the type of a log record *)
Definition recover_record (log_record : CLogRecord) : M RC.t :=
  k ← st_get;
  let trx := find_trx (CLogRecord.trx_id log_record) k in
  match CLogRecord.log_type log_record with
  | Some CLogType.MTR_BEGIN =>
      create_trx_id (CLogRecord.trx_id log_record) ;;; mret RC.SUCCESS
  | Some (CLogType.MTR_COMMIT | CLogType.MTR_ROLLBACK) =>
      match trx with
      | None => mret RC.INTERNAL
      | Some i => on_trx i (trx_redo log_record)
      end
  | _ => i ← st_some trx; on_trx i (trx_redo log_record)
  end.
(** the transactions that are left are rolled back and destroyed, the first one first *)
Fixpoint rollback_all (n : nat) : M () :=
  match n with
  | O => mret ()
  | S n => on_trx 0 (rollback order) ;;; destroy_trx 0 ;;; rollback_all n
  end.
(** the loop over the log file, whose position the iterator moves *)
Definition recover_log (loop_fuel : nat) : M (RC.t + RC.t) := λ k,
  let d := kit_db k in
  let l := log_manager_ d in
  match recover_loop recover_record loop_fuel (MkCLogRecordIterator (log_file_ l) None, k) with
  | Done (r, (it, k)) =>
      let d := kit_db k in
      Done (r, MkKit (trxes_ k) (MkDb (tables_ d)
        (MkCLogManager (log_buffer_ (log_manager_ d)) (it_file it)) (current_trx_id_ d)))
  | Crash => Crash
  | OutOfFuel => OutOfFuel
  end.
Definition recover (loop_fuel : nat) : M RC.t :=
  r ← recover_log loop_fuel;
  match r with
  | inl rc => mret rc
  | inr rc =>
      if decide (rc = RC.RECORD_EOF) then
        k ← st_get;
        rollback_all (length (trxes_ k)) ;;;
        mret RC.SUCCESS
      else mret rc
  end.
End kit.
Arguments kit : clear implicits.

(** ** [VacuousTrx] *)
Module VacuousTrx.
Section vacuous.
Context {I : Type} `{!IndexOps I}.
Context (begin : gset PageNum → PageNum) (flush_page : PageNum → RC.t)
  (area : PageNum → nat → memory) (fuel : nat).
Definition insert_record (record : memory) : ST (table I) (RC.t + RID.t) :=
  Table.insert_record None begin flush_page area fuel record.
Definition delete_record (record : memory) (rid : RID.t) : ST (table I) RC.t :=
  Table.delete_record None record rid.
Definition update_record (record new_record : memory) (rid new_rid : RID.t) : ST (table I) RC.t :=
  Table.update_record None rid record new_record new_rid.
Definition visit_record (record : memory) (readonly : bool) : ST (table I) RC.t := mret RC.SUCCESS.
Definition start_if_need : ST (table I) RC.t := mret RC.SUCCESS.
Definition commit : ST (table I) RC.t := mret RC.SUCCESS.
Definition rollback : ST (table I) RC.t := mret RC.SUCCESS.
End vacuous.
End VacuousTrx.
