(* ===== verification/MvccCorrect.v ===== *)
(** * Correctness of multi-version transactions

    A record is a version: the numbers of its begin and its end, and its payload.  The
    indexes hold the entries of the live versions, those whose end is [max_trx_id]. *)
From S2P Require Import Prelude RidKey Comparator Bitmap LruCache BufferPool RecordPage RecordFile RecordFileCorrect.
From S2P Require Import TableMeta Table TableCorrect CLog CLogCorrect Mvcc.
From Stdlib Require Import ZArith Lia.
From stdpp Require Import base option strings gmap sets list.
Local Open Scope Z_scope.
#[local] Opaque Nat.div Nat.modulo.

(** ** Versions *)
Record version : Set := Version { v_begin : Z; v_end : Z; v_payload : memory }.
Definition view (d : memory) : version := Version (int_at d) (int_at (drop 4 d)) (drop 8 d).
Definition set_begin (x : Z) (d : memory) : memory := store32 x ++ drop 4 d.
Definition set_end (x : Z) (d : memory) : memory := take 4 d ++ store32 x ++ drop 8 d.

Definition begin_field : FieldMeta.t := FieldMeta.mk "__trx_xid_begin" INTS false 0 4 false.
Definition end_field : FieldMeta.t := FieldMeta.mk "__trx_xid_end" INTS false 4 4 false.

Lemma get_begin d : (8 <= length d)%nat → get_int begin_field d = Some (v_begin (view d)).
Proof. intros Hd. unfold get_int. cbn. rewrite drop_0. apply load_int_at. lia. Qed.
Lemma get_end d : (8 <= length d)%nat → get_int end_field d = Some (v_end (view d)).
Proof. intros Hd. unfold get_int. cbn. apply load_int_at. rewrite length_drop. lia. Qed.
Lemma set_int_begin d x : (8 <= length d)%nat → set_int begin_field d x = Some (set_begin x d).
Proof.
  intros Hd. unfold set_int. rewrite decide_True by done. unfold store_bytes.
  rewrite decide_True by (cbn; lia). done.
Qed.
Lemma set_int_end d x : (8 <= length d)%nat → set_int end_field d x = Some (set_end x d).
Proof.
  intros Hd. unfold set_int. rewrite decide_True by done. unfold store_bytes.
  rewrite decide_True by (cbn; lia). done.
Qed.
Lemma length_set_begin x d : (8 <= length d)%nat → length (set_begin x d) = length d.
Proof. intros Hd. unfold set_begin. rewrite length_app, length_drop. change (length (store32 x)) with 4%nat. lia. Qed.
Lemma length_set_end x d : (8 <= length d)%nat → length (set_end x d) = length d.
Proof. intros Hd. unfold set_end. rewrite !length_app, length_take, length_drop. change (length (store32 x)) with 4%nat. lia. Qed.
Lemma view_set_begin x d :
  is_int32 x → (8 <= length d)%nat → view (set_begin x d) = Version x (v_end (view d)) (v_payload (view d)).
Proof.
  intros Hx Hd. unfold view, set_begin. cbn [v_end v_payload]. f_equal.
  - unfold int_at. by rewrite load_int_store32.
  - change 8%nat with (4 + 4)%nat. by rewrite <-!drop_drop, drop_app_length'.
Qed.
Lemma view_set_end x d :
  is_int32 x → (8 <= length d)%nat → view (set_end x d) = Version (v_begin (view d)) x (v_payload (view d)).
Proof.
  intros Hx Hd. unfold view, set_end. cbn [v_begin v_payload].
  assert (length (take 4 d) = 4%nat) as Hl by (rewrite length_take; lia). f_equal.
  - do 4 (destruct d as [|? d]; [cbn in Hd; lia|]). done.
  - rewrite drop_app_length' by done. unfold int_at. by rewrite load_int_store32.
  - change 8%nat with (4 + 4)%nat at 1. by rewrite <-drop_drop, !drop_app_length' by done.
Qed.

(** ** The metadata of a table with the two numbers *)
Record mvcc_meta (m : TableMeta.t) : Prop := {
  mm_wf : meta_wf (Some mvcc_fields) m;
  mm_begin : TableMeta.field m 0 = Some begin_field;
  mm_end : TableMeta.field m 1 = Some end_field
}.
Lemma mvcc_init_meta id name attrs m :
  TableMeta.init (Some mvcc_fields) id name attrs = Done (inr m) → mvcc_meta m.
Proof.
  intros Hm. split; [by eapply init_wf|..]; unfold TableMeta.init in Hm;
    (destruct (is_blank name); [done|]); (case_decide; [done|]);
    change (TableMeta.place_trx_fields (default [] (Some mvcc_fields)) 0)
      with (Some ([begin_field; end_field], 8)) in Hm; cbv iota beta zeta in Hm;
    (destruct (TableMeta.place_fields attrs _) as [|[fs e]]; [done|]); by injection Hm as <-.
Qed.
Section meta.
Context (m : TableMeta.t) (Hm : mvcc_meta m).
Lemma mm_fields : ∃ nf fs, TableMeta.fields m = begin_field :: end_field :: nf :: fs ∧
  FieldMeta.offset nf = 8 ∧ TableMeta.null_field (Some mvcc_fields) m = Some nf.
Proof.
  pose proof (mm_begin _ Hm) as Hb. pose proof (mm_end _ Hm) as He.
  pose proof (mw_user _ _ (mm_wf _ Hm)) as Hu. pose proof (mw_chained _ _ (mm_wf _ Hm)) as Hc.
  unfold TableMeta.field, TableMeta.field_num, TableMeta.null_field, TableMeta.sys_field_num in *.
  cbn in *. destruct (TableMeta.fields m) as [|b [|e [|nf fs]]]; cbn in *; try lia.
  injection Hb as ->. injection He as ->. exists nf, fs. split_and!; [done| |done].
  destruct Hc as (_ & _ & _ & _ & Ho & _). done.
Qed.
Lemma mm_trx_fields : trx_field_metas m = Some (begin_field, end_field).
Proof.
  unfold trx_field_metas. rewrite decide_True by (vm_compute; lia).
  by rewrite (mm_begin _ Hm), (mm_end _ Hm).
Qed.
Lemma mm_size : 8 < TableMeta.record_size m.
Proof.
  destruct mm_fields as (nf & fs & Hf & Ho & Hn). pose proof (mw_chained _ _ (mm_wf _ Hm)) as Hc.
  assert (TableMeta.fields m !! 2%nat = Some nf) as Hl by by rewrite Hf.
  destruct (chained_bounds _ _ _ _ _ Hc Hl). pose proof (chained_len _ _ _ _ _ Hc Hl). lia.
Qed.
End meta.

(** Records with the same payload. *)
Definition same_payload (d d' : memory) : Prop := length d = length d' ∧ drop 8 d = drop 8 d'.
Lemma same_payload_begin x d : (8 <= length d)%nat → same_payload d (set_begin x d).
Proof.
  intros Hd. split; [by rewrite length_set_begin|]. unfold set_begin.
  change 8%nat with (4 + 4)%nat at 2. by rewrite <-drop_drop, drop_app_length', drop_drop.
Qed.
Lemma same_payload_end x d : (8 <= length d)%nat → same_payload d (set_end x d).
Proof.
  intros Hd. split; [by rewrite length_set_end|]. unfold set_end.
  change 8%nat with (4 + 4)%nat at 2. rewrite <-drop_drop.
  by rewrite !drop_app_length' by (rewrite ?length_take; done || lia).
Qed.
Lemma drop_same (d d' : memory) k : same_payload d d' → (8 <= k)%nat → drop k d = drop k d'.
Proof.
  intros [_ Hd] Hk. replace k with (8 + (k - 8))%nat by lia. by rewrite <-!drop_drop, Hd.
Qed.
Lemma null_bit_payload m d d' k :
  mvcc_meta m → same_payload d d' →
  TableMeta.null_bit (Some mvcc_fields) m d k = TableMeta.null_bit (Some mvcc_fields) m d' k.
Proof.
  intros Hm Hd. destruct (mm_fields m Hm) as (nf & fs & _ & Ho & Hn).
  unfold TableMeta.null_bit, TableMeta.bitmap_of_null_field. rewrite Hn. cbn. rewrite Ho.
  by rewrite (drop_same d d' _ Hd) by done.
Qed.

Section payload.
Context {I : Type} `{!IndexOps I} `{!IndexSpec I}.
Implicit Types (i : I) (t : table I) (look : RID.t → option memory).

(** The fields of the user lie behind the two numbers. *)
Lemma user_field_offset m f :
  mvcc_meta m → f ∈ TableMeta.user_fields (Some mvcc_fields) m → 8 <= FieldMeta.offset f.
Proof.
  intros Hm [k Hk]%list_elem_of_lookup_1. unfold TableMeta.user_fields in Hk.
  rewrite lookup_drop in Hk. pose proof (mw_chained _ _ (mm_wf _ Hm)) as Hc.
  destruct (mm_fields m Hm) as (nf & fs & Hf & Ho & _).
  assert (TableMeta.fields m !! 2%nat = Some nf) as Hn by by rewrite Hf.
  pose proof (chained_disjoint _ _ _ _ _ _ _ Hc Hn Hk ltac:(cbn; lia)).
  pose proof (chained_len _ _ _ _ _ Hc Hn). lia.
Qed.

Lemma skips_payload m d d' i :
  mvcc_meta m → same_payload d d' → skips (Some mvcc_fields) m d i = skips (Some mvcc_fields) m d' i.
Proof.
  intros Hm Hd. unfold skips. assert (∀ fs, has_null (Some mvcc_fields) m d fs = has_null (Some mvcc_fields) m d' fs) as ->.
  { intros fs. induction fs as [|f fs IH]; [done|]. cbn [has_null]. rewrite IH.
    by rewrite (null_bit_payload m d d' _ Hm Hd). }
  done.
Qed.
Lemma same_fields_payload m i d d' :
  mvcc_meta m → (∀ f, f ∈ field_metas i → f ∈ TableMeta.user_fields (Some mvcc_fields) m) →
  same_payload d d' → ∀ f, f ∈ field_metas i → field_bytes f d = field_bytes f d'.
Proof.
  intros Hm Hu Hd f Hf%Hu. pose proof (user_field_offset m f Hm Hf).
  unfold field_bytes. by rewrite (drop_same d d' _ Hd) by lia.
Qed.

(** Indexes that follow records follow those with the same payloads. *)
Lemma follows_payload m look look' i :
  mvcc_meta m →
  (∀ r d, look r = Some d → Z.of_nat (length d) = TableMeta.record_size m ∧ RID.valid r) →
  (∀ r, option_Forall2 same_payload (look r) (look' r)) →
  follows (Some mvcc_fields) m look i → follows (Some mvcc_fields) m look' i.
Proof.
  intros Hm Hlook Hsame [Hfits Hs]. split; [done|]. intros d r Hd. rewrite (Hs d r Hd).
  destruct Hfits as (_ & Hu & Hacc). specialize (Hsame r). specialize (Hlook r).
  destruct (look r) as [x|], (look' r) as [x'|]; try (by inversion Hsame).
  inversion Hsame as [? ? Hx|]; subst. destruct (Hlook x eq_refl) as [Hlen Hvalid].
  assert (index_accepts i x r) as Hax by by apply Hacc.
  assert (index_accepts i x' r) as Hax' by (apply Hacc; [destruct Hx; congruence|done]).
  assert (index_same i x r x' r = true) as Hxx.
  { apply index_same_fields; [done..|]. by apply (same_fields_payload m). }
  assert (index_same i d r x r = index_same i d r x' r) as Heq.
  { destruct (index_same i d r x r) eqn:H1; symmetry.
    - rewrite (index_same_trans i d r x r x' r) by done. done.
    - apply not_true_is_false. intros H2. assert (index_same i d r x r = true); [|congruence].
      apply same_sym; [done..|]. rewrite (index_same_trans i x r x' r d r) by done. by apply same_sym. }
  split; intros (d' & [= <-] & Hsk & Hsm).
  - exists x'. split_and!; [done| |by rewrite <-Heq]. by rewrite <-(skips_payload m x x' i Hm Hx).
  - exists x. split_and!; [done| |by rewrite Heq]. by rewrite (skips_payload m x x' i Hm Hx).
Qed.
End payload.

(** ** A table under transactions *)
Section table.
Context {I : Type} `{!IndexOps I} `{!IndexSpec I}.
Implicit Types (t : table I) (look : RID.t → option memory) (d : memory) (rid : RID.t).

(** The indexes hold the entries of the records of [look], which are records of the file,
    up to the two numbers. *)
Record mvcc_table look t : Prop := {
  mt_meta : mvcc_meta (table_meta_ t);
  mt_inv : table_inv (Some mvcc_fields) look t;
  mt_look : ∀ r, look r = None ∨
    ∃ d d', look r = Some d ∧ table_lookup t r = Some d' ∧ same_payload d d'
}.
(** the live records: those whose end is not set *)
Definition live t rid : option memory :=
  d ← table_lookup t rid;
  if decide (v_end (view d) = max_trx_id) then Some d else None.

Lemma live_Some t rid d :
  live t rid = Some d ↔ table_lookup t rid = Some d ∧ v_end (view d) = max_trx_id.
Proof.
  unfold live. destruct (table_lookup t rid) as [x|]; cbn; [|naive_solver].
  case_decide; naive_solver.
Qed.
Lemma mvcc_length look t rid d :
  mvcc_table look t → table_lookup t rid = Some d →
  Z.of_nat (length d) = rec_size t ∧ (8 <= length d)%nat ∧ RID.valid rid ∧ RID.page_num rid ≠ BP_HEADER_PAGE.
Proof.
  intros Hm Hl. destruct (table_lookup_valid _ _ _ _ _ (mt_inv _ _ Hm) Hl) as (? & ? & ?).
  pose proof (mm_size _ (mt_meta _ _ Hm)). unfold rec_size in *. split_and!; [done|lia|done|done].
Qed.

(** The records of [look] may be exchanged for others with the same payload. *)
Lemma mvcc_table_look look look' t :
  (∀ r, option_Forall2 same_payload (look r) (look' r)) → mvcc_table look t → mvcc_table look' t.
Proof.
  intros Hsame Hm. pose proof Hm as [Hmeta Hinv Hl]. split; [done| |].
  - split; [apply Hinv|apply Hinv|]. eapply Forall_impl; [apply Hinv|]. intros i Hi.
    apply (follows_payload _ look look' i Hmeta); [|done|done]. intros r d Hr.
    destruct (Hl r) as [?|(x & d' & Hx & Hd' & Hp)]; [congruence|].
    assert (x = d) as -> by congruence. destruct (mvcc_length _ _ _ _ Hm Hd') as (? & _ & ? & _).
    destruct Hp as [-> _]. done.
  - intros r. specialize (Hsame r). destruct (Hl r) as [Hn|(x & d' & Hx & Hd' & Hp)].
    + left. rewrite Hn in Hsame. by inversion Hsame.
    + right. rewrite Hx in Hsame. inversion Hsame as [? y Hy Heq1 Heq2|]; subst.
      exists y, d'. split_and!; [done|done|]. destruct Hy, Hp. split; congruence.
Qed.
Lemma option_same_refl (o : option memory) : option_Forall2 same_payload o o.
Proof. destruct o; constructor; done. Qed.
Lemma mvcc_table_ext look look' t : (∀ r, look' r = look r) → mvcc_table look t → mvcc_table look' t.
Proof. intros Heq. apply mvcc_table_look. intros r. rewrite Heq. apply option_same_refl. Qed.

(** Changing the numbers of a record. *)
Lemma wp_update_xid look t rid d f (from to : Z) d' :
  mvcc_table look t → table_lookup t rid = Some d →
  get_int f d = Some from → set_int f d to = Some d' → same_payload d d' →
  wp (Table.visit_record rid (update_xid f from to)) t (λ res t', res = inr () ∧
    table_meta_ t' = table_meta_ t ∧ indexes_ t' = indexes_ t ∧ mvcc_table look t' ∧
    ∀ r, table_lookup t' r = look_set (table_lookup t) rid (Some d') r).
Proof.
  intros Hm Hl Hget Hset Hp. eapply wp_mono.
  - apply (wp_table_visit_inv (Some mvcc_fields) t rid _ d d' () look); [apply Hm|done| |by destruct Hp].
    unfold update_xid. rewrite Hget. cbn. rewrite decide_True by done. by rewrite Hset.
  - intros res t' (-> & Hmeta & Hidx & Hinv & Hlook). split_and!; [done..| |done].
    split; [rewrite Hmeta; apply Hm|done|]. intros r.
    destruct (mt_look _ _ Hm r) as [?|(x & y & Hx & Hy & Hxy)]; [by left|right].
    rewrite Hlook. unfold look_set. case_decide as Hr; [|by exists x, y].
    subst r. exists x, d'. split_and!; [done..|]. rewrite Hl in Hy. injection Hy as <-.
    destruct Hxy, Hp. split; congruence.
Qed.
(** Reading a record in place. *)
Lemma wp_read_record look t rid d :
  mvcc_table look t → table_lookup t rid = Some d →
  wp (Table.get_record rid) t (λ res t', res = inr d ∧
    table_meta_ t' = table_meta_ t ∧ indexes_ t' = indexes_ t ∧ mvcc_table look t' ∧
    ∀ r, table_lookup t' r = table_lookup t r).
Proof.
  intros Hm Hl. eapply wp_mono.
  - by apply (wp_table_visit_inv (Some mvcc_fields) t rid _ d d d look); [apply Hm|..].
  - intros res t' (-> & Hmeta & Hidx & Hinv & Hlook).
    assert (∀ r, table_lookup t' r = table_lookup t r) as Hsame.
    { intros r. rewrite Hlook. unfold look_set. by case_decide; [subst|]. }
    split_and!; [done..| |done]. split; [rewrite Hmeta; apply Hm|done|]. intros r.
    rewrite Hsame. apply Hm.
Qed.

(** Taking the entries of a record out of the indexes. *)
Lemma wp_delete_entries_live look t rid d x e :
  mvcc_table look t → look rid = Some x → table_lookup t rid = Some d →
  wp (delete_entry_of_indexes (Some mvcc_fields) d rid e) t (λ rc t', rc = RC.SUCCESS ∧
    table_meta_ t' = table_meta_ t ∧ record_handler_ t' = record_handler_ t ∧
    mvcc_table (look_set look rid None) t').
Proof.
  intros Hm Hx Hl. destruct (mvcc_length _ _ _ _ Hm Hl) as (Hlen & _ & Hvalid & _).
  assert (mvcc_table (look_set look rid (Some d)) t) as Hm'.
  { eapply mvcc_table_look; [|exact Hm]. intros r. unfold look_set. case_decide; [subst|apply option_same_refl].
    destruct (mt_look _ _ Hm rid) as [?|(y & d' & Hy & Hd' & Hp)]; [congruence|].
    rewrite Hx. constructor. assert (x = y ∧ d' = d) as [-> ->] by (split; congruence). done. }
  eapply wp_mono.
  - apply (wp_delete_entries (Some mvcc_fields) t (look_set look rid (Some d)) d rid e);
      [unfold look_set; by rewrite decide_True|apply Hm|apply Hm'|done|done].
  - intros rc t' (-> & l & -> & Hf). split_and!; [done..|].
    apply (mvcc_table_ext (look_set (look_set look rid (Some d)) rid None)).
    { intros r. unfold look_set. by case_decide. }
    split; [apply Hm|split; [apply Hm|apply Hm|done]|]. intros r. unfold look_set.
    case_decide; [by left|]. apply Hm.
Qed.
Lemma wp_delete_record_live look t rid d x :
  mvcc_table look t → look rid = Some x → table_lookup t rid = Some d →
  wp (Table.delete_record (Some mvcc_fields) d rid) t (λ rc t', rc = RC.SUCCESS ∧
    table_meta_ t' = table_meta_ t ∧ mvcc_table (look_set look rid None) t' ∧
    ∀ r, table_lookup t' r = look_set (table_lookup t) rid None r).
Proof.
  intros Hm Hx Hl.
  assert (mvcc_table (look_set look rid (Some d)) t) as Hm'.
  { eapply mvcc_table_look; [|exact Hm]. intros r. unfold look_set. case_decide; [subst|apply option_same_refl].
    destruct (mt_look _ _ Hm rid) as [?|(y & d' & Hy & Hd' & Hp)]; [congruence|].
    rewrite Hx. constructor. assert (x = y ∧ d' = d) as [-> ->] by (split; congruence). done. }
  eapply wp_mono.
  - apply (wp_table_delete_inv (Some mvcc_fields) t d rid (look_set look rid (Some d)));
      [apply Hm'|done|unfold look_set; by rewrite decide_True].
  - intros rc t' (-> & Hmeta & Hinv & Hlook). split_and!; [done..| |done].
    apply (mvcc_table_ext (look_set (look_set look rid (Some d)) rid None)).
    { intros r. unfold look_set. by case_decide. }
    split; [rewrite Hmeta; apply Hm|done|]. intros r. rewrite Hlook. unfold look_set.
    case_decide; [by left|]. apply Hm.
Qed.

(** Putting a record in. *)
Section insert.
Context (begin : gset PageNum → PageNum) (Hbegin : ∀ X, X ≠ ∅ → begin X ∈ X).
Context (flush_page : PageNum → RC.t) (Hflush : ∀ p, flush_page p = RC.SUCCESS).
Context (area : PageNum → nat → memory) (fuel : nat) (Hfuel : (1 <= fuel)%nat).

Lemma wp_insert_record_live look t d :
  mvcc_table look t → storable area fuel (rec_size t) → Z.of_nat (length d) = rec_size t →
  Forall index_room (indexes_ t) →
  wp (Table.insert_record (Some mvcc_fields) begin flush_page area fuel d) t (λ res t',
    table_meta_ t' = table_meta_ t ∧
    match res with
    | inr rid => table_lookup t rid = None ∧ mvcc_table (look_set look rid (Some d)) t' ∧
        ∀ r, table_lookup t' r = look_set (table_lookup t) rid (Some d) r
    | inl rc => (rc = RC.RECORD_DUPLICATE_KEY ∨ rc = RC.BUFFERPOOL_NOBUF) ∧ mvcc_table look t' ∧
        ∀ r, table_lookup t' r = table_lookup t r
    end).
Proof.
  intros Hm Hst Hlen Hroom. eapply wp_mono.
  - apply (wp_table_insert_inv (Some mvcc_fields) begin Hbegin flush_page Hflush area fuel Hfuel t d look);
      [apply Hm| |done|done|done].
    intros rid Hnone. destruct (mt_look _ _ Hm rid) as [?|(x & y & _ & Hy & _)]; [done|congruence].
  - intros [rc|rid] t' (Hmeta & Hres); (split; [done|]).
    + destruct Hres as (Hrc & Hinv & Hlook). split_and!; [done| |done].
      split; [rewrite Hmeta; apply Hm|done|]. intros r. rewrite Hlook. apply Hm.
    + destruct Hres as (Hnone & Hinv & Hlook). split_and!; [done| |done].
      split; [rewrite Hmeta; apply Hm|done|]. intros r. rewrite Hlook. unfold look_set.
      case_decide; [right; by exists d, d|]. apply Hm.
Qed.
End insert.
End table.
