(* ===== verification/MvccSession.v ===== *)
(** * Sessions: the operations of a transaction on its database

    [look_of s] are the records of all the tables; the invariant [db_inv L] says that the
    indexes of each table follow [L].  Ending a transaction applies, to each record one of
    its operations is about, the effect of that operation, in any order. *)
From S2P Require Import Prelude RidKey Comparator Bitmap LruCache BufferPool RecordPage RecordFile RecordFileCorrect.
From S2P Require Import TableMeta Table TableCorrect CLog CLogCorrect Mvcc MvccCorrect.
From Stdlib Require Import ZArith Lia.
From stdpp Require Import base option strings gmap sets list.
Local Open Scope Z_scope.
#[local] Opaque Nat.div Nat.modulo.

(** ** The records of a database *)
Definition records : Type := Z → RID.t → option memory.
Definition rec_set (L : records) (tid : Z) (rid : RID.t) (od : option memory) : records :=
  λ tid' rid', if decide (tid' = tid ∧ rid' = rid) then od else L tid' rid'.
Definition rec_eq (L L' : records) : Prop := ∀ tid rid, L' tid rid = L tid rid.
Definition rec_same (L L' : records) : Prop :=
  ∀ tid rid, option_Forall2 same_payload (L tid rid) (L' tid rid).

(** the operation on a record, and the effect of the operations of a transaction *)
Definition op_key (op : Operation.t) : Z * RID.t := (Operation.table_id op, Operation.rid op).
Definition op_find (ops : list Operation.t) (tid : Z) (rid : RID.t) : option Operation.t :=
  List.find (λ op, bool_decide (op_key op = (tid, rid))) ops.
Definition apply_ops (e : Operation.t → option memory → option memory) (ops : list Operation.t)
    (L : records) : records :=
  λ tid rid, match op_find ops tid rid with Some op => e op (L tid rid) | None => L tid rid end.

Lemma op_find_Some ops tid rid op :
  NoDup (op_key <$> ops) → op_find ops tid rid = Some op ↔ op ∈ ops ∧ op_key op = (tid, rid).
Proof.
  induction ops as [|o ops IH]; cbn; [by rewrite elem_of_nil; naive_solver|].
  intros [Ho Hops]%NoDup_cons. rewrite elem_of_cons. case_bool_decide as Hk.
  - split; [intros [= <-]; by split; [left|]|]. intros [[->|Hin] Hkey]; [done|].
    exfalso. apply Ho. rewrite Hk, <-Hkey. by apply list_elem_of_fmap_2.
  - rewrite IH by done. naive_solver.
Qed.
Lemma op_find_None ops tid rid : op_find ops tid rid = None ↔ (tid, rid) ∉ (op_key <$> ops).
Proof.
  induction ops as [|o ops IH]; cbn; [by rewrite elem_of_nil; naive_solver|].
  rewrite elem_of_cons. case_bool_decide; [naive_solver|]. rewrite IH. naive_solver.
Qed.
Lemma op_find_perm ops ops' tid rid :
  ops' ≡ₚ ops → NoDup (op_key <$> ops) → op_find ops' tid rid = op_find ops tid rid.
Proof.
  intros Hp Hnd. assert (NoDup (op_key <$> ops')) as Hnd' by by rewrite Hp.
  apply option_eq. intros op. rewrite !op_find_Some by done. by rewrite Hp.
Qed.
(** The set of operations refuses one on the same record. *)
Lemma op_insert_new op ops : op_key op ∉ (op_key <$> ops) → op_insert op ops = (true, op :: ops).
Proof.
  intros Hno. unfold op_insert. destruct (existsb _ ops) eqn:He; [|done]. exfalso. apply Hno.
  apply existsb_exists in He as (o & Ho%list_elem_of_In & Heq). unfold Operation.equal in Heq.
  apply andb_prop in Heq as [H1%bool_decide_eq_true_1 H2%bool_decide_eq_true_1].
  assert (op_key op = op_key o) as -> by (unfold op_key; congruence). by apply list_elem_of_fmap_2.
Qed.
Lemma op_insert_old op ops : op_key op ∈ (op_key <$> ops) → op_insert op ops = (false, ops).
Proof.
  intros (o & Heq & Ho)%list_elem_of_fmap. unfold op_insert.
  assert (existsb (Operation.equal op) ops = true) as ->; [|done].
  apply existsb_exists. exists o. split; [by apply list_elem_of_In|]. unfold op_key in Heq.
  injection Heq as H1 H2. unfold Operation.equal. by rewrite !bool_decide_eq_true_2.
Qed.

Section session.
Context {I : Type} `{!IndexOps I} `{!IndexSpec I}.
Implicit Types (s : session I) (t : table I) (L : records) (tid : Z) (rid : RID.t) (d : memory).

Definition table_of s tid : option (table I) := tables_ (db_ s) !! tid.
Definition look_of s : records := λ tid rid, t ← table_of s tid; table_lookup t rid.
Definition live_of s : records := λ tid rid, t ← table_of s tid; live t rid.
Definition db_inv L s : Prop := ∀ tid t, table_of s tid = Some t → mvcc_table (L tid) t.
Definition put_table tid t s : session I :=
  set_db (MkDb (<[tid := t]> (tables_ (db_ s))) (log_manager_ (db_ s)) (current_trx_id_ (db_ s))) s.

(** Only records and indexes change. *)
Definition frame s s' : Prop :=
  trx_ s' = trx_ s ∧ log_manager_ (db_ s') = log_manager_ (db_ s) ∧
  current_trx_id_ (db_ s') = current_trx_id_ (db_ s) ∧
  ∀ tid, table_meta_ <$> table_of s' tid = table_meta_ <$> table_of s tid.
Lemma frame_refl s : frame s s.
Proof. done. Qed.
Lemma frame_trans s1 s2 s3 : frame s1 s2 → frame s2 s3 → frame s1 s3.
Proof.
  intros (H1 & H2 & H3 & H4) (K1 & K2 & K3 & K4). split_and!; [congruence..|]. intros tid. by rewrite K4.
Qed.
Lemma frame_put tid t t' s :
  table_of s tid = Some t → table_meta_ t' = table_meta_ t → frame s (put_table tid t' s).
Proof.
  intros Ht Hm. split_and!; [done..|]. intros tid'. unfold table_of in *. cbn.
  destruct (decide (tid' = tid)) as [->|Hne]; [by rewrite lookup_insert_eq, Ht; cbn; rewrite Hm|].
  by rewrite lookup_insert_ne.
Qed.
Lemma table_of_put tid t s : table_of (put_table tid t s) tid = Some t.
Proof. unfold table_of. cbn. by rewrite lookup_insert_eq. Qed.
Lemma look_of_put tid t t' s rid od :
  table_of s tid = Some t → (∀ r, table_lookup t' r = look_set (table_lookup t) rid od r) →
  rec_eq (rec_set (look_of s) tid rid od) (look_of (put_table tid t' s)).
Proof.
  intros Ht Hl tid' rid'. unfold look_of, rec_set, table_of in *. cbn.
  destruct (decide (tid' = tid)) as [->|Hne].
  - rewrite lookup_insert_eq, Ht. cbn. rewrite Hl. unfold look_set. repeat case_decide; naive_solver.
  - rewrite lookup_insert_ne by done. rewrite decide_False by naive_solver. done.
Qed.
Lemma look_of_put_same tid t t' s :
  table_of s tid = Some t → (∀ r, table_lookup t' r = table_lookup t r) →
  rec_eq (look_of s) (look_of (put_table tid t' s)).
Proof.
  intros Ht Hl tid' rid'. unfold look_of, table_of in *. cbn.
  destruct (decide (tid' = tid)) as [->|Hne].
  - rewrite lookup_insert_eq, Ht. cbn. apply Hl.
  - by rewrite lookup_insert_ne.
Qed.
Lemma db_inv_put tid t' s L rid od :
  db_inv L s → mvcc_table (look_set (L tid) rid od) t' → db_inv (rec_set L tid rid od) (put_table tid t' s).
Proof.
  intros Hinv Ht' tid' t Ht. unfold table_of in Ht. cbn in Ht.
  destruct (decide (tid' = tid)) as [->|Hne].
  - rewrite lookup_insert_eq in Ht. injection Ht as <-. eapply mvcc_table_ext; [|exact Ht'].
    intros r. unfold rec_set, look_set. repeat case_decide; naive_solver.
  - rewrite lookup_insert_ne in Ht by done. eapply mvcc_table_ext; [|by apply Hinv].
    intros r. unfold rec_set. rewrite decide_False by naive_solver. done.
Qed.
Lemma db_inv_put_same tid t' s L :
  db_inv L s → mvcc_table (L tid) t' → db_inv L (put_table tid t' s).
Proof.
  intros Hinv Ht' tid' t Ht. unfold table_of in Ht. cbn in Ht.
  destruct (decide (tid' = tid)) as [->|Hne].
  - rewrite lookup_insert_eq in Ht. by injection Ht as <-.
  - rewrite lookup_insert_ne in Ht by done. by apply Hinv.
Qed.
Lemma db_inv_same L L' s : rec_same L L' → db_inv L s → db_inv L' s.
Proof. intros Hs Hinv tid t Ht. eapply mvcc_table_look; [apply Hs|by apply Hinv]. Qed.
Lemma db_inv_eq L L' s : rec_eq L L' → db_inv L s → db_inv L' s.
Proof. intros Hs Hinv tid t Ht. eapply mvcc_table_ext; [apply Hs|by apply Hinv]. Qed.
Lemma db_inv_frame L s s' : (∀ tid, table_of s' tid = table_of s tid) → db_inv L s → db_inv L s'.
Proof. intros Ht Hinv tid t. rewrite Ht. apply Hinv. Qed.

Lemma wp_on_table {A} tid (c : ST (table I) A) t s (Q : A → session I → Prop) :
  table_of s tid = Some t → wp c t (λ a t', Q a (put_table tid t' s)) → wp (on_table tid c) s Q.
Proof.
  intros Ht (a & t' & Hc & HQ). exists a, (put_table tid t' s). unfold on_table, table_of in *.
  by rewrite Ht, Hc.
Qed.
Lemma look_of_table s tid rid d :
  look_of s tid rid = Some d → ∃ t, table_of s tid = Some t ∧ table_lookup t rid = Some d.
Proof. unfold look_of. destruct (table_of s tid) as [t|]; [|done]. cbn. by exists t. Qed.

Lemma wp_trx_fields tid t s (Q : _ → session I → Prop) :
  table_of s tid = Some t → mvcc_meta (table_meta_ t) →
  Q (begin_field, end_field) s → wp (trx_fields tid) s Q.
Proof.
  intros Ht Hm HQ. unfold trx_fields. apply wp_bind, wp_get, wp_bind. eapply wp_some; [exact Ht|].
  eapply wp_some; [by apply mm_trx_fields|done].
Qed.

(** ** Ending a transaction *)
(** A record one of the operations of the transaction [me] is about. *)
Definition op_marked (me : Z) (op : Operation.t) (d : memory) : Prop :=
  match Operation.type op with
  | Operation.INSERT => v_begin (view d) = - me
  | Operation.DELETE => v_end (view d) = - me
  | _ => False
  end.
Definition ops_marked (me : Z) (ops : list Operation.t) L : Prop :=
  Forall (λ op, ∃ d, L (Operation.table_id op) (Operation.rid op) = Some d ∧ op_marked me op d) ops.

Section loop.
Context (f : Operation.t → ST (session I) ()) (e eL : Operation.t → option memory → option memory).
Context (pre : Operation.t → option memory → Prop).
Context (Hf : ∀ op s L d, db_inv L s → look_of s (Operation.table_id op) (Operation.rid op) = Some d →
  op_marked (trx_id_ (trx_ s)) op d → pre op (L (Operation.table_id op) (Operation.rid op)) →
  wp (f op) s (λ _ s', frame s s' ∧
    db_inv (rec_set L (Operation.table_id op) (Operation.rid op)
      (eL op (L (Operation.table_id op) (Operation.rid op)))) s' ∧
    rec_eq (rec_set (look_of s) (Operation.table_id op) (Operation.rid op) (e op (Some d))) (look_of s'))).

Lemma apply_ops_cons (e' : Operation.t → option memory → option memory) op ops L L' :
  op_key op ∉ (op_key <$> ops) →
  rec_eq (rec_set L (Operation.table_id op) (Operation.rid op)
    (e' op (L (Operation.table_id op) (Operation.rid op)))) L' →
  rec_eq (apply_ops e' ops L') (apply_ops e' (op :: ops) L).
Proof.
  intros Hno HL tid rid. unfold apply_ops. cbn. case_bool_decide as Hk.
  - injection Hk as <- <-. rewrite (proj2 (op_find_None ops _ _)) by done.
    rewrite HL. unfold rec_set. by rewrite decide_True.
  - assert (¬ (tid = Operation.table_id op ∧ rid = Operation.rid op)) as Hne.
    { intros [-> ->]. by apply Hk. }
    fold (op_find ops tid rid).
    by destruct (op_find ops tid rid); rewrite HL; unfold rec_set; rewrite decide_False.
Qed.
Lemma wp_for_operations ops s L :
  db_inv L s → NoDup (op_key <$> ops) → ops_marked (trx_id_ (trx_ s)) ops (look_of s) →
  Forall (λ op, pre op (L (Operation.table_id op) (Operation.rid op))) ops →
  wp (for_operations f ops) s (λ _ s', frame s s' ∧ db_inv (apply_ops eL ops L) s' ∧
    rec_eq (apply_ops e ops (look_of s)) (look_of s')).
Proof.
  revert s L. induction ops as [|op ops IH]; intros s L Hinv Hnd Hmark Hpre.
  { apply wp_ret. done. }
  apply NoDup_cons in Hnd as [Hno Hnd]. apply Forall_cons in Hmark as [(d & Hd & Hm) Hmark].
  apply Forall_cons in Hpre as [Hp Hpre]. cbn [for_operations]. apply wp_bind.
  eapply wp_mono; [by apply (Hf op s L d)|]. intros _ s1 (Hfr & Hinv1 & Hlook1).
  assert (∀ op', op' ∈ ops → ¬ (Operation.table_id op' = Operation.table_id op ∧
    Operation.rid op' = Operation.rid op)) as Hne.
  { intros op' Hin [H1 H2]. apply Hno. assert (op_key op = op_key op') as -> by (unfold op_key; congruence).
    by apply list_elem_of_fmap_2. }
  eapply wp_mono.
  - apply (IH s1 _ Hinv1 Hnd).
    + destruct Hfr as (-> & _). unfold ops_marked in *. rewrite Forall_forall in *. intros op' Hin.
      destruct (Hmark op' Hin) as (d' & Hd' & Hm'). exists d'. split; [|done].
      rewrite Hlook1. unfold rec_set. rewrite decide_False by by apply Hne. done.
    + rewrite Forall_forall in *. intros op' Hin. unfold rec_set.
      rewrite decide_False by by apply Hne. by apply Hpre.
  - intros _ s2 (Hfr2 & Hinv2 & Hlook2). split_and!; [by eapply frame_trans| |].
    + eapply db_inv_eq; [|exact Hinv2]. by apply apply_ops_cons.
    + intros tid rid. rewrite Hlook2. symmetry.
      apply (apply_ops_cons e op ops (look_of s) (look_of s1) Hno). rewrite Hd. exact Hlook1.
Qed.
End loop.

(** *** Commit *)
Definition commit_data (c : Z) (op : Operation.t) (o : option memory) : option memory :=
  match Operation.type op with
  | Operation.INSERT => set_begin c <$> o
  | _ => set_end c <$> o
  end.
Lemma wp_commit_operation c op s L d :
  db_inv L s → look_of s (Operation.table_id op) (Operation.rid op) = Some d →
  op_marked (trx_id_ (trx_ s)) op d →
  wp (commit_operation c op) s (λ _ s', frame s s' ∧
    db_inv (rec_set L (Operation.table_id op) (Operation.rid op)
      (L (Operation.table_id op) (Operation.rid op))) s' ∧
    rec_eq (rec_set (look_of s) (Operation.table_id op) (Operation.rid op) (commit_data c op (Some d)))
      (look_of s')).
Proof.
  destruct op as [ty tid rid]. cbn [Operation.table_id Operation.rid]. intros Hinv Hd Hm.
  destruct (look_of_table _ _ _ _ Hd) as (t & Ht & Hl). pose proof (Hinv _ _ Ht) as Hmt.
  destruct (mvcc_length _ _ _ _ Hmt Hl) as (_ & Hlen & _).
  unfold commit_operation. cbn [Operation.type Operation.table_id Operation.rid].
  assert (∀ f d' from, get_int f d = Some from → from = - trx_id_ (trx_ s) → set_int f d c = Some d' →
    same_payload d d' → commit_data c (Operation.mk ty tid rid) (Some d) = Some d' →
    wp (r ← on_table tid (Table.visit_record rid (update_xid f (- trx_id_ (trx_ s)) c));
        st_assert (match r with inr _ => true | inl _ => false end)) s (λ _ s', frame s s' ∧
      db_inv (rec_set L tid rid (L tid rid)) s' ∧
      rec_eq (rec_set (look_of s) tid rid (commit_data c (Operation.mk ty tid rid) (Some d))) (look_of s'))) as Hup.
  { intros f d' from Hget -> Hset Hp ->. apply wp_bind. eapply wp_on_table; [exact Ht|].
    eapply wp_mono; [by apply (wp_update_xid (L tid) t rid d f _ c d')|].
    intros r t' (-> & Hmeta & _ & Hmt' & Hlook). apply wp_assert; [done|].
    split_and!; [by eapply frame_put| |by eapply look_of_put].
    apply db_inv_put; [done|]. eapply mvcc_table_ext; [|exact Hmt'].
    intros r. unfold look_set. by case_decide; [subst|]. }
  unfold op_marked in Hm. cbn in Hm.
  destruct ty; try done; apply wp_bind; (eapply wp_trx_fields; [exact Ht|apply Hmt|]); apply wp_bind, wp_get.
  - rewrite decide_True by done.
    apply (Hup begin_field (set_begin c d) (v_begin (view d)));
      [by apply get_begin|done|by apply set_int_begin|by apply same_payload_begin|done].
  - rewrite decide_False by done.
    apply (Hup end_field (set_end c d) (v_end (view d)));
      [by apply get_end|done|by apply set_int_end|by apply same_payload_end|done].
Qed.

(** *** Rollback *)
Definition rollback_data (op : Operation.t) (o : option memory) : option memory :=
  match Operation.type op with
  | Operation.INSERT => None
  | _ => set_end max_trx_id <$> o
  end.
(** what is left in the indexes *)
Definition rollback_entry (op : Operation.t) (o : option memory) : option memory :=
  match Operation.type op with Operation.INSERT => None | _ => o end.
Definition rollback_pre (op : Operation.t) (o : option memory) : Prop :=
  Operation.type op = Operation.INSERT → is_Some o.

Lemma wp_rollback_operation op s L d :
  db_inv L s → look_of s (Operation.table_id op) (Operation.rid op) = Some d →
  op_marked (trx_id_ (trx_ s)) op d → rollback_pre op (L (Operation.table_id op) (Operation.rid op)) →
  wp (rollback_operation op) s (λ _ s', frame s s' ∧
    db_inv (rec_set L (Operation.table_id op) (Operation.rid op)
      (rollback_entry op (L (Operation.table_id op) (Operation.rid op)))) s' ∧
    rec_eq (rec_set (look_of s) (Operation.table_id op) (Operation.rid op) (rollback_data op (Some d)))
      (look_of s')).
Proof.
  destruct op as [ty tid rid]. cbn [Operation.table_id Operation.rid]. intros Hinv Hd Hm Hpre.
  destruct (look_of_table _ _ _ _ Hd) as (t & Ht & Hl). pose proof (Hinv _ _ Ht) as Hmt.
  destruct (mvcc_length _ _ _ _ Hmt Hl) as (_ & Hlen & _).
  unfold rollback_operation, op_marked, rollback_pre in *. cbn in Hm, Hpre.
  destruct ty; cbn [Operation.type Operation.table_id Operation.rid]; try done.
  - destruct (Hpre eq_refl) as [x Hx]. apply wp_bind. eapply wp_on_table; [exact Ht|].
    eapply wp_mono; [by apply (wp_read_record (L tid) t rid d)|].
    intros r t1 (-> & Hmeta1 & _ & Hmt1 & Hlook1). apply wp_bind.
    eapply wp_on_table; [apply table_of_put|].
    eapply wp_mono; [apply (wp_delete_record_live (L tid) t1 rid d x Hmt1 Hx); by rewrite Hlook1|].
    intros rc t2 (-> & Hmeta2 & Hmt2 & Hlook2). apply wp_assert; [done|].
    split_and!.
    + eapply frame_trans; [by eapply frame_put|]. eapply frame_put; [apply table_of_put|done].
    + apply db_inv_put; [|done]. apply db_inv_put_same; [done|].
      exact Hmt1.
    + intros tid' rid'. rewrite (look_of_put tid t1 t2 _ rid None (table_of_put _ _ _) Hlook2).
      unfold rec_set. case_decide; [done|]. by apply (look_of_put_same tid t t1 s Ht Hlook1).
  - apply wp_bind. eapply wp_trx_fields; [exact Ht|apply Hmt|]. apply wp_bind, wp_get, wp_bind.
    eapply wp_on_table; [exact Ht|].
    eapply wp_mono.
    { apply (wp_update_xid (L tid) t rid d end_field _ max_trx_id (set_end max_trx_id d) Hmt Hl);
        [by rewrite <-Hm; apply get_end|by apply set_int_end|by apply same_payload_end]. }
    intros r t' (-> & Hmeta & _ & Hmt' & Hlook). apply wp_assert; [done|].
    split_and!; [by eapply frame_put| |by eapply look_of_put].
    apply db_inv_put; [done|]. eapply mvcc_table_ext; [|exact Hmt'].
    intros r. unfold look_set. by case_decide; [subst|].
Qed.
End session.
