(* ===== verification/TrxCorrect.v ===== *)
(** * The statements of a transaction

    What the operations of a transaction do to the records of the database, to the set of
    its operations and to the log.  [trx_inv] is the invariant between the statements. *)
From S2P Require Import Prelude RidKey Comparator Bitmap LruCache BufferPool RecordPage RecordFile RecordFileCorrect.
From S2P Require Import TableMeta Table TableCorrect CLog CLogCorrect Mvcc MvccCorrect MvccSession.
From Stdlib Require Import ZArith Lia.
From stdpp Require Import base option strings gmap sets list.
Local Open Scope Z_scope.
#[local] Opaque Nat.div Nat.modulo.

(** ** The log *)
Definition data_log (type : CLogType.t) (trx_id tid : Z) (rid : RID.t) (d : memory) : CLogRecord :=
  MkCLogRecord
    (MkCLogRecordHeader (-1) trx_id (CLogType.to_integer type) (HEADER_SIZE + Z.of_nat (length d)))
    (MkCLogRecordData tid rid (Z.of_nat (length d)) 0 [0; 0; 0; 0] (if decide (d = []) then None else Some d))
    (-1).
Lemma data_log_built type trx_id tid rid d :
  type = CLogType.INSERT ∨ type = CLogType.UPDATE ∨ type = CLogType.DELETE →
  is_int32 trx_id → is_int32 tid → RID.valid rid → HEADER_SIZE + Z.of_nat (length d) < 2 ^ 31 →
  built (data_log type trx_id tid rid d).
Proof.
  intros Ht Hi Htid [Hp Hs] Hl. apply (built_data type trx_id tid rid 0 d); try done;
    [..|apply build_data_record_eq]; unfold is_int32 in *; change (2 ^ 31) with 2147483648 in *; lia.
Qed.
Lemma logrec_len_nonneg r : built r → 0 <= CLogRecord.logrec_len r.
Proof. intros Hr. rewrite <-length_body_bytes by done. lia. Qed.
Lemma log_size_nonneg rs : Forall built rs → 0 <= log_size rs.
Proof.
  induction 1 as [|r rs Hr _ IH]; [done|]. unfold log_size in *. cbn.
  pose proof (logrec_len_nonneg r Hr). lia.
Qed.
Lemma log_size_app rs rs' : log_size (rs ++ rs') = log_size rs + log_size rs'.
Proof. unfold log_size. induction rs as [|r rs IH]; cbn; [done|]. rewrite IH. lia. Qed.

Lemma wp_run {S A} (c : ST S A) (s : S) (Q : A → S → Prop) : wp c s Q → wp c s (λ a s', c s = Done (a, s') ∧ Q a s').
Proof. intros (a & s' & Hc & HQ). by exists a, s'. Qed.

(** ** Steps of a session *)
Section session.
Context {I : Type} `{!IndexOps I} `{!IndexSpec I}.
Implicit Types (s : session I) (t : table I) (L : records) (tid : Z) (rid : RID.t) (d : memory).

Definition buffer_of s : CLogBuffer := log_buffer_ (log_manager_ (db_ s)).
Definition me s : Z := trx_id_ (trx_ s).
Definition log_wf s : Prop :=
  Forall built (log_records_ (buffer_of s)) ∧ total_size_ (buffer_of s) = log_size (log_records_ (buffer_of s)).
Definition log_room s (n : Z) : Prop := total_size_ (buffer_of s) + n < CLOG_BUFFER_SIZE.

(** The step from [s] to [s'] leaves the transaction with the operations [ops] and appends
    [recs] to the log; the file of the log and the definitions of the tables stay. *)
Record step s s' (ops : list Operation.t) (recs : list CLogRecord) : Prop := {
  st_trx : trx_ s' = MkMvccTrx (me s) (started_ (trx_ s)) (recovering_ (trx_ s)) ops;
  st_file : log_file_ (log_manager_ (db_ s')) = log_file_ (log_manager_ (db_ s));
  st_records : log_records_ (buffer_of s') = log_records_ (buffer_of s) ++ recs;
  st_total : total_size_ (buffer_of s') = total_size_ (buffer_of s) + log_size recs;
  st_counter : current_trx_id_ (db_ s') = current_trx_id_ (db_ s);
  st_metas : ∀ tid, table_meta_ <$> table_of s' tid = table_meta_ <$> table_of s tid
}.
Lemma step_trans s1 s2 s3 ops2 ops3 r2 r3 :
  step s1 s2 ops2 r2 → step s2 s3 ops3 r3 → step s1 s3 ops3 (r2 ++ r3).
Proof.
  intros [H1 H2 H3 H4 H5 H6] [K1 K2 K3 K4 K5 K6]. split.
  - rewrite K1. unfold me. by rewrite H1.
  - by rewrite K2.
  - by rewrite K3, H3, app_assoc.
  - rewrite K4, H4, log_size_app. lia.
  - by rewrite K5.
  - intros tid. by rewrite K6.
Qed.
Lemma step_cancel s s1 s2 ops1 ops2 r2 : step s s1 ops1 [] → step s s2 ops2 r2 → step s1 s2 ops2 r2.
Proof.
  intros [H1 H2 H3 H4 H5 H6] [K1 K2 K3 K4 K5 K6]. split.
  - rewrite K1. unfold me. by rewrite H1.
  - by rewrite K2.
  - by rewrite K3, H3, app_nil_r.
  - rewrite K4, H4. by rewrite Z.add_0_r.
  - by rewrite K5.
  - intros tid. by rewrite K6.
Qed.
Lemma step_frame s s' : frame s s' → step s s' (operations_ (trx_ s)) [].
Proof.
  intros (H1 & H2 & H3 & H4). unfold buffer_of. split; unfold me, buffer_of; rewrite ?H1, ?H2; [by destruct (trx_ s)|done|..|done|done].
  - by rewrite app_nil_r.
  - by rewrite Z.add_0_r.
Qed.
Lemma log_wf_step s s' ops recs : log_wf s → Forall built recs → step s s' ops recs → log_wf s'.
Proof.
  intros [Hb Ht] Hr Hs. unfold log_wf. rewrite (st_records _ _ _ _ Hs), (st_total _ _ _ _ Hs), log_size_app.
  split; [by apply Forall_app|lia].
Qed.
Lemma log_room_built s n : log_wf s → log_room s n → n < 2 ^ 31.
Proof.
  intros [Hb Ht] Hr. pose proof (log_size_nonneg _ Hb). unfold log_room, CLOG_BUFFER_SIZE in *. lia.
Qed.

(** The pieces the statements are made of. *)
Lemma wp_append_operation_log type tid rid d s (Q : () → session I → Prop) :
  log_room s (HEADER_SIZE + Z.of_nat (length d)) →
  (∀ s', tables_ (db_ s') = tables_ (db_ s) →
    step s s' (operations_ (trx_ s)) [data_log type (me s) tid rid d] → Q () s') →
  wp (append_operation_log type tid rid d) s Q.
Proof.
  intros Hroom HQ. unfold append_operation_log. apply wp_bind, wp_get, wp_bind.
  set (r := data_log type (trx_id_ (trx_ s)) tid rid d).
  set (b := buffer_of s).
  set (s' := set_db (MkDb (tables_ (db_ s)) (MkCLogManager (MkCLogBuffer (log_records_ b ++ [r])
    (total_size_ b + CLogRecord.logrec_len r)) (log_file_ (log_manager_ (db_ s)))) (current_trx_id_ (db_ s))) s).
  exists RC.SUCCESS, s'. split.
  - unfold on_log, append_data_log, append_log, on_buffer, append_log_record.
    unfold mbind, ST_bind, st_some. rewrite build_data_record_eq. fold (data_log type (trx_id_ (trx_ s)) tid rid d).
    fold r. cbn [st_get]. rewrite decide_False; [done|].
    unfold log_room, buffer_of in Hroom. unfold CLogRecord.logrec_len, r, data_log. cbn [header_ logrec_len_].
    unfold b, buffer_of in *. lia.
  - apply wp_assert; [done|]. apply HQ; [done|]. split; try done.
    + by destruct s as [[]].
    + change (total_size_ b + CLogRecord.logrec_len r = total_size_ b + (CLogRecord.logrec_len r + 0)). lia.
Qed.
Lemma wp_insert_operation op s (Q : bool → session I → Prop) :
  Q (op_insert op (operations_ (trx_ s))).1 (set_operations (op_insert op (operations_ (trx_ s))).2 s) →
  wp (insert_operation op) s Q.
Proof.
  intros HQ. unfold insert_operation. apply wp_bind, wp_get.
  destruct (op_insert op (operations_ (trx_ s))) as [b ops]. by apply wp_bind, wp_modify, wp_ret.
Qed.
Lemma step_operations ops s : step s (set_operations ops s) ops [].
Proof. split; try done; unfold log_size; cbn; [by rewrite app_nil_r|by rewrite Z.add_0_r]. Qed.

(** Reading and writing a record through its pointer. *)
Lemma wp_in_place {A} L s tid rid d d' a f (Q : A → session I → Prop) :
  db_inv L s → look_of s tid rid = Some d → f d = Some (d', a) → same_payload d d' →
  (∀ s' t t', table_of s tid = Some t → s' = put_table tid t' s → indexes_ t' = indexes_ t →
    table_meta_ t' = table_meta_ t →
    db_inv L s' → rec_eq (rec_set (look_of s) tid rid (Some d')) (look_of s') → frame s s' → Q a s') →
  wp (in_place tid rid f) s Q.
Proof.
  intros Hinv Hd Hf Hp HQ. destruct (look_of_table _ _ _ _ Hd) as (t & Ht & Hl).
  pose proof (Hinv _ _ Ht) as Hm. unfold in_place. apply wp_bind. eapply wp_on_table; [exact Ht|].
  eapply wp_mono.
  { apply (wp_table_visit_inv (Some mvcc_fields) t rid f d d' a (L tid)); [apply Hm|done|done|by destruct Hp]. }
  intros r t' (-> & Hmeta & Hidx & Hinv' & Hlook). apply wp_ret. apply (HQ _ t t'); try done.
  - apply db_inv_put_same; [done|]. split; [rewrite Hmeta; apply Hm|done|]. intros r.
    destruct (mt_look _ _ Hm r) as [?|(x & y & Hx & Hy & Hxy)]; [by left|right].
    rewrite Hlook. unfold look_set. case_decide as Hr; [|by exists x, y].
    subst r. exists x, d'. split_and!; [done..|]. rewrite Hl in Hy. injection Hy as <-.
    destruct Hxy, Hp. split; congruence.
  - by apply (look_of_put tid t).
  - by eapply frame_put.
Qed.
Lemma rec_set_same L tid rid o tid' rid' :
  L tid rid = o → rec_set L tid rid o tid' rid' = L tid' rid'.
Proof. intros <-. unfold rec_set. case_decide as Hd; [by destruct Hd as [-> ->]|done]. Qed.
Lemma wp_record_at L s tid rid d (Q : memory → session I → Prop) :
  db_inv L s → look_of s tid rid = Some d →
  (∀ s', db_inv L s' → rec_eq (look_of s) (look_of s') → frame s s' → Q d s') →
  wp (record_at tid rid) s Q.
Proof.
  intros Hinv Hd HQ. eapply (wp_in_place L s tid rid d d d); [done|done|done|done|].
  intros s' t t' _ _ _ _ Hinv' Hlook Hfr. apply HQ; [done| |done]. intros tid' rid'.
  rewrite Hlook. by apply rec_set_same.
Qed.
Lemma look_length L s tid rid d :
  db_inv L s → look_of s tid rid = Some d → (8 <= length d)%nat ∧ RID.valid rid ∧
    ∃ t, table_of s tid = Some t ∧ mvcc_table (L tid) t ∧ table_lookup t rid = Some d ∧
      Z.of_nat (length d) = rec_size t.
Proof.
  intros Hinv Hd. destruct (look_of_table _ _ _ _ Hd) as (t & Ht & Hl). pose proof (Hinv _ _ Ht) as Hm.
  destruct (mvcc_length _ _ _ _ Hm Hl) as (Hlen & H8 & Hv & _). split_and!; [done..|]. by exists t.
Qed.
Lemma wp_set_end_at L s tid rid d x (Q : memory → session I → Prop) :
  db_inv L s → look_of s tid rid = Some d →
  (∀ s', db_inv L s' → rec_eq (rec_set (look_of s) tid rid (Some (set_end x d))) (look_of s') →
    frame s s' → Q (set_end x d) s') →
  wp (set_int_at tid rid end_field x) s Q.
Proof.
  intros Hinv Hd HQ. destruct (look_length L _ _ _ _ Hinv Hd) as (H8 & _).
  eapply (wp_in_place L s tid rid d (set_end x d) (set_end x d)); [done|done| |by apply same_payload_end|].
  - by rewrite set_int_end.
  - intros s' t t' _ _ _ _. by apply HQ.
Qed.

(** ** The invariant between statements *)
(** Every version with the number of the transaction is one of its operations. *)
Definition covers (i : Z) (ops : list Operation.t) L : Prop := ∀ tid rid d, L tid rid = Some d →
  (v_begin (view d) = - i → Operation.mk Operation.INSERT tid rid ∈ ops) ∧
  (v_end (view d) = - i → Operation.mk Operation.DELETE tid rid ∈ ops).
Record trx_inv L s : Prop := {
  ti_db : db_inv L s;
  ti_keys : NoDup (op_key <$> operations_ (trx_ s));
  ti_marked : ops_marked (me s) (operations_ (trx_ s)) (look_of s);
  ti_indexed : Forall (λ op, rollback_pre op (L (Operation.table_id op) (Operation.rid op))) (operations_ (trx_ s));
  ti_covers : covers (me s) (operations_ (trx_ s)) (look_of s);
  ti_id : 0 < me s < max_trx_id;
  ti_log : log_wf s
}.
Lemma ops_marked_eq i ops L L' : rec_eq L L' → ops_marked i ops L → ops_marked i ops L'.
Proof.
  intros Heq Hm. eapply Forall_impl; [exact Hm|]. intros op (d & Hd & Hop). exists d. by rewrite Heq.
Qed.
Lemma op_not_elem i ops L op :
  L (Operation.table_id op) (Operation.rid op) = None → ops_marked i ops L → op_key op ∉ (op_key <$> ops).
Proof.
  intros Hn Hm (op' & Hk & Hin)%list_elem_of_fmap. unfold ops_marked in Hm. rewrite Forall_forall in Hm.
  destruct (Hm op' Hin) as (d & Hd & _). unfold op_key in Hk. injection Hk as H1 H2. congruence.
Qed.
(** The records of the other operations stay when one record changes. *)
Lemma ops_marked_set i ops L tid rid o :
  (tid, rid) ∉ (op_key <$> ops) → ops_marked i ops L → ops_marked i ops (rec_set L tid rid o).
Proof.
  intros Hno Hm. unfold ops_marked in *. rewrite Forall_forall in *. intros op Hin.
  destruct (Hm op Hin) as (d & Hd & Hop). exists d. split; [|done]. unfold rec_set.
  rewrite decide_False; [done|]. intros [H1 H2]. apply Hno. rewrite <-H1, <-H2.
  by apply (list_elem_of_fmap_2 op_key).
Qed.
Lemma indexed_set ops L tid rid o :
  (tid, rid) ∉ (op_key <$> ops) →
  Forall (λ op, rollback_pre op (L (Operation.table_id op) (Operation.rid op))) ops →
  Forall (λ op, rollback_pre op (rec_set L tid rid o (Operation.table_id op) (Operation.rid op))) ops.
Proof.
  intros Hno Hm. rewrite Forall_forall in *. intros op Hin. unfold rec_set.
  rewrite decide_False; [by apply Hm|]. intros [H1 H2]. apply Hno. rewrite <-H1, <-H2.
  by apply (list_elem_of_fmap_2 op_key).
Qed.
Lemma rec_set_eq L L' tid rid o : rec_eq L L' → rec_eq (rec_set L tid rid o) (rec_set L' tid rid o).
Proof. intros Heq tid' rid'. unfold rec_set. by case_decide. Qed.
Lemma rec_eq_trans L1 L2 L3 : rec_eq L1 L2 → rec_eq L2 L3 → rec_eq L1 L3.
Proof. intros H1 H2 tid rid. by rewrite H2. Qed.
Lemma me_int32 s L : trx_inv L s → is_int32 (me s) ∧ is_int32 (- me s).
Proof. intros Hs. pose proof (ti_id _ _ Hs). unfold is_int32, max_trx_id in *. lia. Qed.

(** A record no operation is about does not carry the number of the transaction. *)
Lemma not_covered L s tid rid d :
  trx_inv L s → (tid, rid) ∉ (op_key <$> operations_ (trx_ s)) → look_of s tid rid = Some d →
  v_begin (view d) ≠ - me s ∧ v_end (view d) ≠ - me s.
Proof.
  intros Hs Hno Hd. destruct (ti_covers _ _ Hs _ _ _ Hd) as [Hb He].
  split; intros Hx; apply Hno; [apply Hb in Hx|apply He in Hx]; by apply (list_elem_of_fmap_2 op_key) in Hx.
Qed.

(** An operation on another record keeps the invariant. *)
Lemma trx_inv_step L s s' L' op tid rid o recs d :
  trx_inv L s → op_key op = (tid, rid) → (tid, rid) ∉ (op_key <$> operations_ (trx_ s)) →
  step s s' (op :: operations_ (trx_ s)) recs → Forall built recs →
  L' = rec_set L tid rid o → rollback_pre op o →
  db_inv L' s' → rec_eq (rec_set (look_of s) tid rid (Some d)) (look_of s') → op_marked (me s) op d →
  (v_begin (view d) = - me s → Operation.type op = Operation.INSERT) →
  (v_end (view d) = - me s → Operation.type op = Operation.DELETE) →
  trx_inv L' s'.
Proof.
  intros Hs Hk Hno Hstep Hb -> Hpre Hinv Hlook Hmark Hcb Hce.
  assert (me s' = me s) as Hme by (unfold me; by rewrite (st_trx _ _ _ _ Hstep)).
  assert (Operation.table_id op = tid ∧ Operation.rid op = rid) as [H1 H2] by by injection Hk.
  split; rewrite ?Hme, ?(st_trx _ _ _ _ Hstep); cbn [operations_].
  - done.
  - cbn. apply NoDup_cons. split; [by rewrite Hk|apply Hs].
  - constructor.
    + exists d. split; [|done]. rewrite Hlook, H1, H2. unfold rec_set. by rewrite decide_True.
    + eapply ops_marked_eq; [exact Hlook|]. apply ops_marked_set; [done|apply Hs].
  - constructor.
    + rewrite H1, H2. unfold rec_set. by rewrite decide_True.
    + apply indexed_set; [done|apply Hs].
  - intros tid' rid' d'. rewrite Hlook. unfold rec_set. case_decide as Hd.
    + destruct Hd as [-> ->]. intros [= <-]. destruct op as [ty ? ?]. cbn [Operation.table_id Operation.rid Operation.type] in H1, H2, Hcb, Hce. subst.
      split; intros Hx; [rewrite (Hcb Hx)|rewrite (Hce Hx)]; left.
    + intros Hd'. destruct (ti_covers _ _ Hs _ _ _ Hd') as [Hb1 Hb2]. split; intros; right; auto.
  - apply Hs.
  - eapply log_wf_step; [apply Hs|exact Hb|exact Hstep].
Qed.
(** Neither does a step that adds no operation and leaves the records. *)
Lemma trx_inv_same L s s' :
  trx_inv L s → step s s' (operations_ (trx_ s)) [] → db_inv L s' → rec_eq (look_of s) (look_of s') →
  trx_inv L s'.
Proof.
  intros Hs Hstep Hinv Hlook. assert (me s' = me s) as Hme by (unfold me; by rewrite (st_trx _ _ _ _ Hstep)).
  split; rewrite ?Hme, ?(st_trx _ _ _ _ Hstep); cbn [operations_]; [done|apply Hs| |apply Hs| |apply Hs|].
  - eapply ops_marked_eq; [exact Hlook|apply Hs].
  - intros tid rid d. rewrite Hlook. apply Hs.
  - eapply log_wf_step; [apply Hs|done|exact Hstep].
Qed.

(** ** Statements *)
Lemma wp_trx_visit_record L s tid rid d readonly (Q : RC.t → session I → Prop) :
  db_inv L s → look_of s tid rid = Some d →
  (∀ s', db_inv L s' → rec_eq (look_of s) (look_of s') → frame s s' →
    Q (visit_xids (me s) (v_begin (view d)) (v_end (view d)) readonly) s') →
  wp (visit_record tid rid readonly) s Q.
Proof.
  intros Hinv Hd HQ. destruct (look_length L _ _ _ _ Hinv Hd) as (H8 & _ & t & Ht & Hm & _).
  unfold visit_record. apply wp_bind. eapply wp_trx_fields; [exact Ht|apply Hm|]. apply wp_bind.
  eapply wp_record_at; [done|done|]. intros s1 Hinv1 Hlook1 Hfr1. apply wp_bind, wp_get, wp_bind.
  eapply wp_some; [by apply get_begin|]. apply wp_bind. eapply wp_some; [by apply get_end|].
  apply wp_ret. assert (trx_id_ (trx_ s1) = me s) as -> by (unfold me; by destruct Hfr1 as [-> _]). by apply HQ.
Qed.

(** the version a transaction makes of a record *)
Definition new_version (i : Z) (record : memory) : memory := set_end max_trx_id (set_begin (- i) record).
Lemma new_version_view i d :
  is_int32 (- i) → (8 <= length d)%nat → view (new_version i d) = Version (- i) max_trx_id (v_payload (view d)).
Proof.
  intros Hi Hd. unfold new_version. rewrite view_set_end by (done || by rewrite length_set_begin).
  by rewrite view_set_begin.
Qed.
Lemma new_version_length i d : (8 <= length d)%nat → length (new_version i d) = length d.
Proof. intros Hd. unfold new_version. by rewrite length_set_end, length_set_begin by (by rewrite ?length_set_begin). Qed.

Lemma wp_delete_entries_at L s tid rid d x e (Q : RC.t → session I → Prop) :
  db_inv L s → look_of s tid rid = Some d → L tid rid = Some x →
  (∀ s' t t', table_of s tid = Some t → delete_entry_of_indexes (Some mvcc_fields) d rid e t = Done (RC.SUCCESS, t') →
    s' = put_table tid t' s → table_meta_ t' = table_meta_ t →
    db_inv (rec_set L tid rid None) s' → rec_eq (look_of s) (look_of s') → frame s s' →
    Q RC.SUCCESS s') →
  wp (on_table tid (delete_entry_of_indexes (Some mvcc_fields) d rid e)) s Q.
Proof.
  intros Hinv Hd Hx HQ. destruct (look_length L _ _ _ _ Hinv Hd) as (_ & _ & t & Ht & Hm & Hl & _).
  eapply wp_on_table; [exact Ht|].
  destruct (wp_delete_entries_live (L tid) t rid d x e Hm Hx Hl) as (rc & t' & Hrun & -> & Hmeta & Hrh & Hm').
  exists RC.SUCCESS, t'. split; [done|]. apply (HQ _ t t'); try done.
  - by apply db_inv_put.
  - apply (look_of_put_same tid t); [done|]. intros r. unfold table_lookup. by rewrite Hrh.
  - by eapply frame_put.
Qed.

(** A record that is already ended is left alone. *)
Lemma wp_delete_record_ended L s tid rid d :
  db_inv L s → look_of s tid rid = Some d → 0 < v_end (view d) → v_end (view d) ≠ max_trx_id →
  wp (delete_record tid rid) s (λ rc s', rc = RC.SUCCESS ∧ db_inv L s' ∧
    rec_eq (look_of s) (look_of s') ∧ frame s s').
Proof.
  intros Hinv Hd Hpos Hne. destruct (look_length L _ _ _ _ Hinv Hd) as (H8 & _ & t & Ht & Hm & _).
  unfold delete_record. apply wp_bind. eapply wp_trx_fields; [exact Ht|apply Hm|]. apply wp_bind.
  eapply wp_record_at; [done|done|]. intros s1 Hinv1 Hlook1 Hfr1. apply wp_bind.
  eapply wp_some; [by apply get_end|]. apply wp_bind, wp_assert; [apply bool_decide_eq_true_2; lia|].
  rewrite decide_True by done. by apply wp_ret.
Qed.
Lemma wp_trx_delete_record L s tid rid d x :
  trx_inv L s → is_int32 tid → look_of s tid rid = Some d → v_end (view d) = max_trx_id →
  L tid rid = Some x → log_room s HEADER_SIZE →
  wp (delete_record tid rid) s (λ rc s', rc = RC.SUCCESS ∧ db_inv (rec_set L tid rid None) s' ∧
    rec_eq (rec_set (look_of s) tid rid (Some (set_end (- me s) d))) (look_of s') ∧
    step s s' (op_insert (Operation.mk Operation.DELETE tid rid) (operations_ (trx_ s))).2
      [data_log CLogType.DELETE (me s) tid rid []]).
Proof.
  intros Hs Htid Hd Hend Hx Hlog. pose proof (ti_db _ _ Hs) as Hinv. destruct (me_int32 _ _ Hs) as [Hi Hi'].
  destruct (look_length L _ _ _ _ Hinv Hd) as (H8 & Hvalid & t & Ht & Hm & _).
  unfold delete_record. apply wp_bind. eapply wp_trx_fields; [exact Ht|apply Hm|]. apply wp_bind.
  eapply wp_record_at; [done|done|]. intros s1 Hinv1 Hlook1 Hfr1. apply wp_bind.
  eapply wp_some; [by apply get_end|]. rewrite Hend. apply wp_bind, wp_assert; [done|].
  rewrite decide_False by congruence. apply wp_bind, wp_get.
  pose proof (step_frame _ _ Hfr1) as Hstep1.
  assert (trx_id_ (trx_ s1) = me s) as -> by by rewrite (st_trx _ _ _ _ Hstep1).
  apply wp_bind. eapply (wp_set_end_at L s1 tid rid d); [done|by rewrite Hlook1|].
  intros s2 Hinv2 Hlook2 Hfr2. apply wp_bind.
  pose proof (step_trans _ _ _ _ _ _ _ Hstep1 (step_frame _ _ Hfr2)) as Hstep2.
  rewrite (st_trx _ _ _ _ Hstep1) in Hstep2. cbn [operations_ app] in Hstep2.
  assert (rec_eq (rec_set (look_of s) tid rid (Some (set_end (- me s) d))) (look_of s2)) as Hlook2'.
  { eapply rec_eq_trans; [|exact Hlook2]. by apply rec_set_eq. }
  eapply (wp_delete_entries_at L s2 tid rid _ x); [done| |done|].
  { rewrite Hlook2'. unfold rec_set. by rewrite decide_True. }
  intros s3 t3 t3' _ _ _ _ Hinv3 Hlook3 Hfr3. apply wp_bind.
  pose proof (step_trans _ _ _ _ _ _ _ Hstep2 (step_frame _ _ Hfr3)) as Hstep3.
  rewrite (st_trx _ _ _ _ Hstep2) in Hstep3. cbn [operations_ app] in Hstep3.
  apply wp_append_operation_log.
  { unfold log_room in *. rewrite (st_total _ _ _ _ Hstep3). by rewrite !Z.add_0_r. }
  intros s4 Htab4 Hstep4. pose proof (step_trans _ _ _ _ _ _ _ Hstep3 Hstep4) as Hstep.
  assert (me s3 = me s) as Hme3 by (unfold me at 1; by rewrite (st_trx _ _ _ _ Hstep3)).
  rewrite Hme3, (st_trx _ _ _ _ Hstep3) in Hstep. cbn [operations_ app] in Hstep.
  apply wp_bind, wp_insert_operation, wp_ret. rewrite (st_trx _ _ _ _ Hstep). cbn [operations_].
  assert (∀ ops tid', table_of (set_operations ops s4) tid' = table_of s3 tid') as Htab.
  { intros ops tid'. unfold table_of. cbn. by rewrite Htab4. }
  split_and!; [done| | |].
  - eapply db_inv_frame; [apply Htab|done].
  - intros tid' rid'. unfold look_of at 1. rewrite Htab. change (look_of s3 tid' rid' = rec_set (look_of s) tid rid (Some (set_end (- me s) d)) tid' rid').
    by rewrite Hlook3, Hlook2'.
  - apply (step_trans _ _ _ _ _ _ _ Hstep (step_operations _ s4)).
Qed.
(** A record that no operation of the transaction is about. *)
Lemma wp_delete_record_new L s tid rid d x :
  trx_inv L s → is_int32 tid → look_of s tid rid = Some d → v_end (view d) = max_trx_id →
  L tid rid = Some x → (tid, rid) ∉ (op_key <$> operations_ (trx_ s)) → log_room s HEADER_SIZE →
  wp (delete_record tid rid) s (λ rc s', rc = RC.SUCCESS ∧ trx_inv (rec_set L tid rid None) s' ∧
    rec_eq (rec_set (look_of s) tid rid (Some (set_end (- me s) d))) (look_of s') ∧
    step s s' (Operation.mk Operation.DELETE tid rid :: operations_ (trx_ s))
      [data_log CLogType.DELETE (me s) tid rid []]).
Proof.
  intros Hs Htid Hd Hend Hx Hno Hlog. pose proof (ti_db _ _ Hs) as Hinv. destruct (me_int32 _ _ Hs) as [Hi Hi'].
  destruct (look_length L _ _ _ _ Hinv Hd) as (H8 & Hvalid & _).
  eapply wp_mono; [by eapply wp_trx_delete_record|]. intros rc s' (-> & Hinv' & Hlook & Hstep).
  rewrite op_insert_new in Hstep by done. split_and!; [done| |done|done].
  eapply (trx_inv_step L s _ _ (Operation.mk Operation.DELETE tid rid) tid rid None _ _ Hs);
    [done|done|exact Hstep| |done|done|done|exact Hlook| | |done].
  - constructor; [|done]. apply data_log_built; [by right; right|done|done|done|done].
  - change (v_end (view (set_end (- me s) d)) = - me s). by rewrite view_set_end.
  - rewrite view_set_end by done. cbn. intros Hb. by destruct (not_covered _ _ _ _ _ Hs Hno Hd).
Qed.

Section insert.
Context (begin : gset PageNum → PageNum) (Hbegin : ∀ X, X ≠ ∅ → begin X ∈ X).
Context (flush_page : PageNum → RC.t) (Hflush : ∀ p, flush_page p = RC.SUCCESS).
Context (area : PageNum → nat → memory) (fuel : nat) (Hfuel : (1 <= fuel)%nat).
#[local] Abbreviation table_insert := (Table.insert_record (Some mvcc_fields) begin flush_page area fuel).

(** A table takes a new version. *)
Lemma wp_table_insert L s tid t d (Q : RC.t + RID.t → session I → Prop) :
  db_inv L s → table_of s tid = Some t → storable area fuel (rec_size t) → Z.of_nat (length d) = rec_size t →
  Forall index_room (indexes_ t) →
  (∀ rc t' s', rc = RC.RECORD_DUPLICATE_KEY ∨ rc = RC.BUFFERPOOL_NOBUF → table_insert d t = Done (inl rc, t') →
    s' = put_table tid t' s → db_inv L s' → rec_eq (look_of s) (look_of s') → frame s s' → Q (inl rc) s') →
  (∀ rid s', look_of s tid rid = None → RID.valid rid → db_inv (rec_set L tid rid (Some d)) s' →
    rec_eq (rec_set (look_of s) tid rid (Some d)) (look_of s') → frame s s' → Q (inr rid) s') →
  wp (on_table tid (table_insert d)) s Q.
Proof.
  intros Hinv Ht Hst Hlen Hroom Hl Hr. pose proof (Hinv _ _ Ht) as Hm. eapply wp_on_table; [exact Ht|].
  destruct (wp_insert_record_live begin Hbegin flush_page Hflush area fuel Hfuel (L tid) t d Hm Hst Hlen Hroom)
    as (res & t' & Hrun & Hmeta & Hres). exists res, t'. split; [done|].
  assert (frame s (put_table tid t' s)) as Hfr by by eapply frame_put.
  destruct res as [rc|rid].
  - destruct Hres as (Hrc & Hm' & Hlook). apply (Hl rc t'); try done.
    + by apply db_inv_put_same.
    + by apply (look_of_put_same tid t).
  - destruct Hres as (Hnone & Hm' & Hlook). apply Hr; try done.
    + unfold look_of. rewrite Ht. done.
    + assert (table_lookup t' rid = Some d) as Hd.
      { rewrite Hlook. unfold look_set. by rewrite decide_True. }
      by apply (mvcc_length _ _ _ _ Hm' Hd).
    + by apply db_inv_put.
    + by apply (look_of_put tid t).
Qed.

Lemma wp_trx_insert_record L s tid t record :
  trx_inv L s → is_int32 tid → table_of s tid = Some t → storable area fuel (rec_size t) →
  Z.of_nat (length record) = rec_size t → Forall index_room (indexes_ t) →
  log_room s (HEADER_SIZE + rec_size t) →
  wp (insert_record begin flush_page area fuel tid record) s (λ res s',
    let d := new_version (me s) record in
    match res with
    | inr rid => look_of s tid rid = None ∧ trx_inv (rec_set L tid rid (Some d)) s' ∧
        rec_eq (rec_set (look_of s) tid rid (Some d)) (look_of s') ∧
        step s s' (Operation.mk Operation.INSERT tid rid :: operations_ (trx_ s))
          [data_log CLogType.INSERT (me s) tid rid d]
    | inl rc => (rc = RC.RECORD_DUPLICATE_KEY ∨ rc = RC.BUFFERPOOL_NOBUF) ∧ trx_inv L s' ∧
        rec_eq (look_of s) (look_of s') ∧ step s s' (operations_ (trx_ s)) []
    end).
Proof.
  intros Hs Htid Ht Hst Hlen Hroom Hlog. pose proof (ti_db _ _ Hs) as Hinv. pose proof (Hinv _ _ Ht) as Hm.
  pose proof (mm_size _ (mt_meta _ _ Hm)) as H8. change (TableMeta.record_size (table_meta_ t)) with (rec_size t) in H8.
  destruct (me_int32 _ _ Hs) as [Hi Hi'].
  unfold insert_record. apply wp_bind. eapply wp_trx_fields; [exact Ht|apply Hm|]. apply wp_bind, wp_get, wp_bind.
  eapply wp_some; [apply set_int_begin; lia|]. apply wp_bind.
  eapply wp_some; [apply set_int_end; rewrite length_set_begin; lia|]. fold (me s). fold (new_version (me s) record).
  assert (length (new_version (me s) record) = length record) as Hnl by (apply new_version_length; lia).
  set (d := new_version (me s) record) in *. apply wp_bind.
  eapply (wp_table_insert L s tid t d); [done|done|done|lia|done| |].
  - intros rc t' s' Hrc _ _ Hinv' Hlook Hfr. apply wp_ret. pose proof (step_frame _ _ Hfr) as Hstep.
    split_and!; [done|by eapply trx_inv_same|done|done].
  - intros rid s1 Hnone Hvalid Hinv1 Hlook1 Hfr1. pose proof (step_frame _ _ Hfr1) as Hstep1.
    assert (me s1 = me s) as Hme1 by (unfold me; by rewrite (st_trx _ _ _ _ Hstep1)).
    assert (operations_ (trx_ s1) = operations_ (trx_ s)) as Hops1 by by rewrite (st_trx _ _ _ _ Hstep1).
    apply wp_bind. apply wp_append_operation_log.
    { unfold log_room in *. rewrite (st_total _ _ _ _ Hstep1), Hnl, Hlen. by rewrite Z.add_0_r. }
    intros s2 Htab2 Hstep2. rewrite Hme1, Hops1 in Hstep2. apply wp_bind, wp_insert_operation.
    assert (operations_ (trx_ s2) = operations_ (trx_ s)) as -> by by rewrite (st_trx _ _ _ _ Hstep2).
    assert ((tid, rid) ∉ (op_key <$> operations_ (trx_ s))) as Hno.
    { apply (op_not_elem (me s) _ (look_of s) (Operation.mk Operation.INSERT tid rid)); [done|apply Hs]. }
    rewrite op_insert_new by done. cbn [fst snd]. apply wp_ret. set (op := Operation.mk Operation.INSERT tid rid).
    pose proof (step_trans _ _ _ _ _ _ _ (step_trans _ _ _ _ _ _ _ Hstep1 Hstep2)
      (step_operations (op :: operations_ (trx_ s)) s2)) as Hstep. cbn [app] in Hstep.
    assert (∀ tid', table_of (set_operations (op :: operations_ (trx_ s)) s2) tid' = table_of s1 tid') as Htab.
    { intros tid'. unfold table_of. cbn. by rewrite Htab2. }
    assert (rec_eq (rec_set (look_of s) tid rid (Some d)) (look_of (set_operations (op :: operations_ (trx_ s)) s2))) as Hlook.
    { intros tid' rid'. unfold look_of at 1. rewrite Htab. apply Hlook1. }
    split_and!; [done| |done|done].
    assert (view d = Version (- me s) max_trx_id (v_payload (view record))) as Hv.
    { apply new_version_view; [done|lia]. }
    eapply (trx_inv_step L s _ _ op tid rid (Some d) _ d Hs);
      [done|done|exact Hstep| |done|by intros _|..|done|rewrite Hv; cbn; pose proof (ti_id _ _ Hs); lia].
    + constructor; [|done]. apply data_log_built; [by left|done|done|done|].
      apply (log_room_built s); [apply Hs|]. by rewrite Hnl, Hlen.
    + by eapply db_inv_frame.
    + done.
    + change (v_begin (view d) = - me s). by rewrite Hv.
Qed.

(** *** Update *)
(** what [update_record] does to the old record before it inserts the new one *)
Definition end_old tid rid : ST (session I) RC.t :=
  s ← st_get;
  record ← set_int_at tid rid end_field (- trx_id_ (trx_ s));
  on_table tid (delete_entry_of_indexes (Some mvcc_fields) record rid false).
(** There is room in the indexes for the new entries, and for the old ones when the new
    record was refused. *)
Definition room_for_update s tid rid (record : memory) : Prop :=
  ∀ rc1 s1 rc2 s2 t2, visit_record tid rid false s = Done (rc1, s1) → end_old tid rid s1 = Done (rc2, s2) →
    table_of s2 tid = Some t2 → Forall index_room (indexes_ t2) ∧
    ∀ rc t3, table_insert record t2 = Done (inl rc, t3) → Forall index_room (indexes_ t3).

Lemma wp_end_old L s tid rid d x (Q : RC.t → session I → Prop) :
  db_inv L s → look_of s tid rid = Some d → L tid rid = Some x →
  (∀ s', db_inv (rec_set L tid rid None) s' →
    rec_eq (rec_set (look_of s) tid rid (Some (set_end (- me s) d))) (look_of s') → frame s s' →
    Q RC.SUCCESS s') →
  wp (end_old tid rid) s Q.
Proof.
  intros Hinv Hd Hx HQ. unfold end_old. apply wp_bind, wp_get, wp_bind.
  eapply (wp_set_end_at L s tid rid d); [done|done|]. intros s1 Hinv1 Hlook1 Hfr1.
  eapply (wp_delete_entries_at L s1 tid rid _ x); [done| |done|].
  { rewrite Hlook1. unfold rec_set. by rewrite decide_True. }
  intros s2 t t' _ _ _ _ Hinv2 Hlook2 Hfr2. apply HQ; [done|by eapply rec_eq_trans|by eapply frame_trans].
Qed.

(** The log and the operations of an update, from the states in which the old record is
    ended ([s3]) and the new one is inserted ([s4]). *)
Lemma wp_update_finish L s s3 s4 tid rid rid' d new :
  trx_inv L s → is_int32 tid → RID.valid rid → RID.valid rid' → rid' ≠ rid → (8 <= length d)%nat →
  (tid, rid) ∉ (op_key <$> operations_ (trx_ s)) → look_of s tid rid' = None →
  step s s3 (operations_ (trx_ s)) [] → db_inv (rec_set L tid rid None) s3 →
  rec_eq (rec_set (look_of s) tid rid (Some (set_end (- me s) d))) (look_of s3) →
  frame s s4 → db_inv (rec_set (rec_set L tid rid None) tid rid' (Some new)) s4 →
  rec_eq (rec_set (look_of s3) tid rid' (Some new)) (look_of s4) →
  look_of s tid rid = Some d → v_begin (view new) = - me s → v_end (view new) = max_trx_id → log_room s (2 * HEADER_SIZE + Z.of_nat (length new)) →
  wp (append_operation_log CLogType.DELETE tid rid [] ;;;
      append_operation_log CLogType.INSERT tid rid' new ;;;
      insert_operation (Operation.mk Operation.DELETE tid rid) ;;;
      insert_operation (Operation.mk Operation.INSERT tid rid') ;;;
      mret RC.SUCCESS) s4 (λ rc s', rc = RC.SUCCESS ∧ look_of s tid rid' = None ∧
    trx_inv (rec_set (rec_set L tid rid None) tid rid' (Some new)) s' ∧
    rec_eq (rec_set (rec_set (look_of s) tid rid (Some (set_end (- me s) d))) tid rid' (Some new)) (look_of s') ∧
    step s s' (Operation.mk Operation.INSERT tid rid' :: Operation.mk Operation.DELETE tid rid :: operations_ (trx_ s))
      [data_log CLogType.DELETE (me s) tid rid []; data_log CLogType.INSERT (me s) tid rid' new]).
Proof.
  intros Hs Htid Hvalid Hvalid' Hrid Hd8 Hno Hnone' Hstep3 Hinv3 Hlook3' Hfr Hinv4 Hlook4 Hd Hbegin' Hend' Hlog.
  destruct (me_int32 _ _ Hs) as [Hi Hi'].
  pose proof (step_frame _ _ Hfr) as Hstep4.
  assert (me s4 = me s) as Hme4 by (unfold me at 1; by rewrite (st_trx _ _ _ _ Hstep4)).
  apply wp_bind, wp_append_operation_log.
  { unfold log_room in *. rewrite (st_total _ _ _ _ Hstep4). cbn [length log_size foldr] in *. unfold HEADER_SIZE in *. lia. }
  intros s5 Htab5 Hstep5. rewrite Hme4, (st_trx _ _ _ _ Hstep4) in Hstep5. cbn [operations_] in Hstep5.
  pose proof (step_trans _ _ _ _ _ _ _ Hstep4 Hstep5) as Hstep5'. cbn [app] in Hstep5'.
  assert (me s5 = me s) as Hme5 by (unfold me at 1; by rewrite (st_trx _ _ _ _ Hstep5')).
  apply wp_bind, wp_append_operation_log.
  { unfold log_room in *. rewrite (st_total _ _ _ _ Hstep5').
    change (log_size [data_log CLogType.DELETE (me s) tid rid []]) with (HEADER_SIZE + 0 + 0). unfold HEADER_SIZE in *. lia. }
  intros s6 Htab6 Hstep6. rewrite Hme5, (st_trx _ _ _ _ Hstep5') in Hstep6. cbn [operations_] in Hstep6.
  pose proof (step_trans _ _ _ _ _ _ _ Hstep5' Hstep6) as Hstep6'. cbn [app] in Hstep6'.
  apply wp_bind, wp_insert_operation. rewrite (st_trx _ _ _ _ Hstep6'). cbn [operations_].
  rewrite op_insert_new by done. cbn [snd]. apply wp_bind, wp_insert_operation. cbn [set_operations trx_ operations_].
  assert ((tid, rid') ∉ (op_key <$> operations_ (trx_ s))) as Hno'.
  { apply (op_not_elem (me s) _ (look_of s) (Operation.mk Operation.INSERT tid rid')); [done|apply Hs]. }
  rewrite op_insert_new by (cbn; rewrite not_elem_of_cons; split; [unfold op_key; cbn; congruence|done]).
  cbn [snd]. apply wp_ret. split; [done|].
  set (ops1 := Operation.mk Operation.DELETE tid rid :: operations_ (trx_ s)).
  set (ops2 := Operation.mk Operation.INSERT tid rid' :: ops1).
  set (sf := set_operations ops2 _).
  assert (step s sf ops2 [data_log CLogType.DELETE (me s) tid rid []; data_log CLogType.INSERT (me s) tid rid' new]) as Hstepf.
  { exact (step_trans _ _ _ _ _ _ _ (step_trans _ _ _ _ _ _ _ Hstep6' (step_operations ops1 s6))
      (step_operations ops2 _)). }
  assert (∀ tid', table_of sf tid' = table_of s4 tid') as Htab.
  { intros tid'. unfold table_of, sf. cbn. by rewrite Htab6, Htab5. }
  assert (rec_eq (rec_set (rec_set (look_of s) tid rid (Some (set_end (- me s) d))) tid rid' (Some new)) (look_of sf)) as Hlookf.
  { intros tid' rid2. unfold look_of at 1. rewrite Htab. etrans; [exact (Hlook4 tid' rid2)|]. by apply rec_set_eq. }
  split_and!; [done| |done|done].
  set (sd := set_operations ops1 s3). assert (step s sd ops1 []) as Hstepd.
  { exact (step_trans _ _ _ _ _ _ _ Hstep3 (step_operations ops1 s3)). }
  assert (trx_inv (rec_set L tid rid None) sd) as Hsd.
  { eapply (trx_inv_step L s _ _ (Operation.mk Operation.DELETE tid rid) tid rid None _ _ Hs);
      [done|done|exact Hstepd|done|done|done|exact Hinv3|exact Hlook3'| | |done].
    - change (v_end (view (set_end (- me s) d)) = - me s). by rewrite view_set_end.
    - rewrite view_set_end by done. cbn. intros Hb. by destruct (not_covered _ _ _ _ _ Hs Hno Hd). }
  assert (me sd = me s) as Hmed by (unfold me at 1; by rewrite (st_trx _ _ _ _ Hstepd)).
  eapply (trx_inv_step _ sd _ _ (Operation.mk Operation.INSERT tid rid') tid rid' (Some new) _ new Hsd);
    [done| |exact (step_cancel _ _ _ _ _ _ Hstepd Hstepf)| |done|by intros _| | | |done
    |rewrite Hend', Hmed; pose proof (ti_id _ _ Hs); lia].
  + cbn. rewrite not_elem_of_cons. split; [unfold op_key; cbn; congruence|done].
  + repeat constructor; apply data_log_built; try done; [by right; right|by left|].
    apply (log_room_built s); [apply Hs|]. unfold log_room, HEADER_SIZE in *. lia.
  + by eapply db_inv_frame.
  + eapply rec_eq_trans; [|exact Hlookf]. apply rec_set_eq. intros tid' rid2. symmetry. apply Hlook3'.
  + change (v_begin (view new) = - me sd). by rewrite Hmed.
Qed.

(** A visible record is replaced by a new version; when the new version is refused the old
    record stays marked as ended by the transaction, which has no operation for it. *)
Lemma wp_trx_update_record L s tid rid t d x record :
  trx_inv L s → is_int32 tid → table_of s tid = Some t → look_of s tid rid = Some d → L tid rid = Some x →
  visit_xids (me s) (v_begin (view d)) (v_end (view d)) false = RC.SUCCESS →
  (tid, rid) ∉ (op_key <$> operations_ (trx_ s)) →
  storable area fuel (rec_size t) → Z.of_nat (length record) = rec_size t →
  room_for_update s tid rid (new_version (me s) record) → log_room s (2 * HEADER_SIZE + rec_size t) →
  wp (update_record begin flush_page area fuel tid rid record) s (λ rc s',
    let old := rec_set (look_of s) tid rid (Some (set_end (- me s) d)) in
    let new := new_version (me s) record in
    (rc = RC.SUCCESS ∧ ∃ rid', look_of s tid rid' = None ∧
       trx_inv (rec_set (rec_set L tid rid None) tid rid' (Some new)) s' ∧
       rec_eq (rec_set old tid rid' (Some new)) (look_of s') ∧
       step s s' (Operation.mk Operation.INSERT tid rid' :: Operation.mk Operation.DELETE tid rid :: operations_ (trx_ s))
         [data_log CLogType.DELETE (me s) tid rid []; data_log CLogType.INSERT (me s) tid rid' new]) ∨
    ((rc = RC.RECORD_DUPLICATE_KEY ∨ rc = RC.BUFFERPOOL_NOBUF) ∧ rec_eq old (look_of s') ∧
       step s s' (operations_ (trx_ s)) [])).
Proof.
  intros Hs Htid Ht Hd Hx Hvis Hno Hst Hlen Hroom Hlog. pose proof (ti_db _ _ Hs) as Hinv.
  destruct (me_int32 _ _ Hs) as [Hi Hi']. pose proof (Hinv _ _ Ht) as Hm.
  pose proof (mm_size _ (mt_meta _ _ Hm)) as H8. change (TableMeta.record_size (table_meta_ t)) with (rec_size t) in H8.
  assert (length (new_version (me s) record) = length record) as Hnl by (apply new_version_length; lia).
  destruct (wp_trx_visit_record L s tid rid d false (λ rc s', rc = RC.SUCCESS ∧ db_inv L s' ∧
    rec_eq (look_of s) (look_of s') ∧ frame s s') Hinv Hd) as (rc1 & s1 & Hrun1 & -> & Hinv1 & Hlook1 & Hfr1).
  { by rewrite Hvis. }
  pose proof (step_frame _ _ Hfr1) as Hstep1. assert (trx_id_ (trx_ s1) = me s) as Hme1 by by rewrite (st_trx _ _ _ _ Hstep1).
  assert (look_of s1 tid rid = Some d) as Hd1 by by rewrite Hlook1.
  destruct (look_length L _ _ _ _ Hinv1 Hd1) as (Hd8 & Hvalid & t1 & Ht1 & Hm1 & Hl1 & _).
  destruct (wp_run _ _ _ (wp_end_old L s1 tid rid d x (λ rc s', rc = RC.SUCCESS ∧ db_inv (rec_set L tid rid None) s' ∧
    rec_eq (rec_set (look_of s1) tid rid (Some (set_end (- me s1) d))) (look_of s') ∧ frame s1 s') Hinv1 Hd1 Hx
    (λ _ H1 H2 H3, conj eq_refl (conj H1 (conj H2 H3))))) as (rc3 & s3 & Hrun3 & _ & -> & Hinv3 & Hlook3 & Hfr3).
  destruct (wp_set_end_at L s1 tid rid d (- me s) (λ d' s', d' = set_end (- me s) d) Hinv1 Hd1 (λ _ _ _ _, eq_refl))
    as (d' & s2 & Hrun2 & ->).
  assert (on_table tid (delete_entry_of_indexes (Some mvcc_fields) (set_end (- me s) d) rid false) s2 = Done (RC.SUCCESS, s3)) as Hdel.
  { pose proof Hrun3 as Hr. unfold end_old, mbind, ST_bind, st_get in Hr. by rewrite Hme1, Hrun2 in Hr. }
  unfold me in Hlook3. rewrite Hme1 in Hlook3.
  assert (rec_eq (rec_set (look_of s) tid rid (Some (set_end (- me s) d))) (look_of s3)) as Hlook3'.
  { eapply rec_eq_trans; [|exact Hlook3]. by apply rec_set_eq. }
  pose proof (frame_trans _ _ _ Hfr1 Hfr3) as Hfr. pose proof (step_frame _ _ Hfr) as Hstep3.
  assert (look_of s3 tid rid = Some (set_end (- me s) d)) as Hd3.
  { rewrite Hlook3'. unfold rec_set. by rewrite decide_True. }
  destruct (look_length _ _ _ _ _ Hinv3 Hd3) as (_ & _ & t3 & Ht3 & Hm3 & Hl3 & Hlen3).
  assert (rec_size t3 = rec_size t) as Hsize.
  { pose proof (st_metas _ _ _ _ Hstep3 tid) as Hmt. rewrite Ht3, Ht in Hmt. injection Hmt as Hmt.
    unfold rec_size. by rewrite Hmt. }
  destruct (Hroom _ _ _ _ _ Hrun1 Hrun3 Ht3) as [Hroom3 Hroom4].
  unfold update_record. apply wp_bind. exists RC.SUCCESS, s1. split; [done|]. cbn [negb RC.succ].
  change (negb (RC.succ RC.SUCCESS)) with false. cbv iota.
  apply wp_bind. eapply wp_trx_fields; [exact Ht1|apply Hm1|]. apply wp_bind, wp_get, wp_bind. rewrite Hme1.
  exists (set_end (- me s) d), s2. split; [done|]. apply wp_bind.
  eapply wp_some; [apply set_int_begin; lia|]. apply wp_bind.
  eapply wp_some; [apply set_int_end; rewrite length_set_begin; lia|]. fold (new_version (me s) record).
  apply wp_bind. exists RC.SUCCESS, s3. split; [done|]. apply wp_bind.
  eapply (wp_table_insert _ s3 tid t3); [done|done|by rewrite Hsize|by rewrite Hnl, Hsize|done| |].
  - intros rc t4 s4 Hrc Hins -> Hinv4 Hlook4 Hfr4. apply wp_bind.
    pose proof (Hinv4 _ _ (table_of_put tid t4 s3)) as Hm4.
    assert (table_lookup t4 rid = Some (set_end (- me s) d)) as Hl4.
    { specialize (Hlook4 tid rid). unfold look_of in Hlook4 at 1. rewrite table_of_put in Hlook4.
      rewrite <-Hd3. exact Hlook4. }
    destruct (mvcc_length _ _ _ _ Hm4 Hl4) as (Hlen4 & _).
    eapply wp_on_table; [apply table_of_put|]. eapply wp_mono.
    { apply (wp_insert_entries (Some mvcc_fields) t4 (rec_set L tid rid None tid)); [|apply Hm4|apply Hm4|by eapply Hroom4|done|done].
      unfold rec_set. by rewrite decide_True. }
    intros rc' t5 (l & -> & _). apply wp_ret. right. split; [done|]. split.
    + intros tid' rid'. rewrite <-Hlook3'. rewrite <-Hlook4.
      by apply (look_of_put_same tid t4 _ (put_table tid t4 s3)); [apply table_of_put|].
    + apply step_frame. eapply frame_trans; [exact Hfr|]. eapply frame_trans; [exact Hfr4|].
      by eapply frame_put; [apply table_of_put|].
  - intros rid' s4 Hnone Hvalid' Hinv4 Hlook4 Hfr4. set (new := new_version (me s) record) in *.
    assert (rid' ≠ rid) as Hrid by congruence.
    assert (look_of s tid rid' = None) as Hnone'.
    { rewrite Hlook3' in Hnone. unfold rec_set in Hnone. by rewrite decide_False in Hnone by naive_solver. }
    pose proof (look_length L _ _ _ _ Hinv Hd) as (Hd8' & _).
    eapply wp_mono.
    { eapply (wp_update_finish L s s3 s4 tid rid rid' d new); try done.
      - exact (frame_trans _ _ _ Hfr Hfr4).
      - unfold new. by rewrite new_version_view by (done || lia).
      - by rewrite Hnl, Hlen. }
    intros rc s5 (-> & Hres). left. split; [done|]. by exists rid'.
Qed.
End insert.
End session.
