(* ===== verification/TrxEnd.v ===== *)
(** * The beginning and the end of a transaction

    Committing writes the commit number over the number of the transaction, in every
    version that carries it, and puts the log into the file; rolling back takes the new
    versions away and ends the end of the others. *)
From S2P Require Import Prelude RidKey Comparator Bitmap LruCache BufferPool RecordPage RecordFile RecordFileCorrect.
From S2P Require Import TableMeta Table TableCorrect CLog CLogCorrect Mvcc TrxKit MvccCorrect MvccSession TrxCorrect.
From Stdlib Require Import ZArith Lia.
From stdpp Require Import base option strings gmap sets list.
Local Open Scope Z_scope.
#[local] Opaque Nat.div Nat.modulo.

(** ** What the end of a transaction does to a version *)
Definition commit_version (i c : Z) (v : version) : version :=
  Version (if decide (v_begin v = - i) then c else v_begin v) (if decide (v_end v = - i) then c else v_end v)
    (v_payload v).
Definition rollback_version (i : Z) (v : version) : option version :=
  if decide (v_begin v = - i) then None
  else Some (Version (v_begin v) (if decide (v_end v = - i) then max_trx_id else v_end v) (v_payload v)).

Section session.
Context {I : Type} `{!IndexOps I} `{!IndexSpec I}.
Implicit Types (s : session I) (t : table I) (L : records) (tid : Z) (rid : RID.t) (d : memory).
Context (writen : memory → memory → memory * bool) (fsync_ok : bool).
Context (Hwriten : ∀ c d, writen c d = (d, true)).
Context (order : list Operation.t → list Operation.t) (Horder : ∀ ops, order ops ≡ₚ ops).

Lemma apply_ops_perm e ops ops' L :
  ops' ≡ₚ ops → NoDup (op_key <$> ops) → rec_eq (apply_ops e ops L) (apply_ops e ops' L).
Proof. intros Hp Hnd tid rid. unfold apply_ops. by rewrite (op_find_perm ops ops'). Qed.
Lemma apply_ops_id ops L : rec_eq L (apply_ops (λ _ o, o) ops L).
Proof. intros tid rid. unfold apply_ops. by destruct (op_find ops tid rid). Qed.

(** ** The records after the loops *)
Lemma op_of_record L s tid rid op :
  trx_inv L s → op_find (operations_ (trx_ s)) tid rid = Some op →
  ∃ d, look_of s tid rid = Some d ∧ op_marked (me s) op d ∧ (8 <= length d)%nat ∧
    op = Operation.mk (Operation.type op) tid rid ∧ op ∈ operations_ (trx_ s).
Proof.
  intros Hs Hop. apply op_find_Some in Hop as [Hin Hk]; [|apply Hs].
  pose proof (ti_marked _ _ Hs) as Hm. unfold ops_marked in Hm. rewrite Forall_forall in Hm.
  destruct (Hm op Hin) as (d & Hd & Hmk). unfold op_key in Hk. injection Hk as H1 H2.
  rewrite H1, H2 in Hd. exists d. destruct (look_length L _ _ _ _ (ti_db _ _ Hs) Hd) as (H8 & _).
  split_and!; [done..| |done]. destruct op. cbn in *. congruence.
Qed.
(** An operation is the only one on its record. *)
Lemma marks_of_op L s tid rid op d :
  trx_inv L s → op_find (operations_ (trx_ s)) tid rid = Some op → look_of s tid rid = Some d →
  (Operation.type op = Operation.INSERT ∧ v_begin (view d) = - me s ∧ v_end (view d) ≠ - me s) ∨
  (Operation.type op = Operation.DELETE ∧ v_begin (view d) ≠ - me s ∧ v_end (view d) = - me s).
Proof.
  intros Hs Hop Hd. destruct (op_of_record _ _ _ _ _ Hs Hop) as (d' & Hd' & Hm & _ & _ & Hin).
  assert (d' = d) as -> by congruence. clear Hd'.
  destruct (ti_covers _ _ Hs _ _ _ Hd) as [Hb He].
  assert (∀ ty, Operation.mk ty tid rid ∈ operations_ (trx_ s) → Operation.type op = ty) as Hty.
  { intros ty Hin'. assert (op_find (operations_ (trx_ s)) tid rid = Some (Operation.mk ty tid rid)) as Hf.
    { apply op_find_Some; [apply Hs|done]. }
    rewrite Hf in Hop. by injection Hop as <-. }
  unfold op_marked in Hm. destruct (Operation.type op); try done.
  - left. split_and!; [done..|]. intros Hx%He%Hty. done.
  - right. split_and!; [done| |done]. intros Hx%Hb%Hty. done.
Qed.
Lemma view_commit L s c tid rid :
  trx_inv L s → is_int32 c →
  view <$> apply_ops (commit_data c) (operations_ (trx_ s)) (look_of s) tid rid =
    commit_version (me s) c <$> (view <$> look_of s tid rid).
Proof.
  intros Hs Hc. unfold apply_ops. destruct (op_find _ tid rid) as [op|] eqn:Hop.
  - destruct (op_of_record _ _ _ _ _ Hs Hop) as (d & Hd & _ & H8 & _). rewrite Hd.
    unfold commit_data, commit_version.
    destruct (marks_of_op _ _ _ _ _ _ Hs Hop Hd) as [(-> & H1 & H2)|(-> & H1 & H2)]; cbn [fmap option_fmap option_map]; f_equal.
    + rewrite view_set_begin by done. by rewrite decide_True, decide_False.
    + rewrite view_set_end by done. by rewrite decide_False, decide_True.
  - destruct (look_of s tid rid) as [d|] eqn:Hd; [|done]. cbn. f_equal.
    destruct (not_covered _ _ _ _ _ Hs (proj1 (op_find_None _ _ _) Hop) Hd) as [Hb He].
    unfold commit_version. by rewrite !decide_False.
Qed.
Lemma view_rollback L s tid rid :
  trx_inv L s →
  view <$> apply_ops rollback_data (operations_ (trx_ s)) (look_of s) tid rid =
    (view <$> look_of s tid rid) ≫= rollback_version (me s).
Proof.
  intros Hs. unfold apply_ops. destruct (op_find _ tid rid) as [op|] eqn:Hop.
  - destruct (op_of_record _ _ _ _ _ Hs Hop) as (d & Hd & _ & H8 & _). rewrite Hd.
    unfold rollback_data, rollback_version.
    destruct (marks_of_op _ _ _ _ _ _ Hs Hop Hd) as [(-> & H1 & H2)|(-> & H1 & H2)]; cbn [fmap option_fmap option_map mbind option_bind].
    + by rewrite decide_True.
    + rewrite view_set_end by done. by rewrite decide_False, decide_True.
  - destruct (look_of s tid rid) as [d|] eqn:Hd; [|done]. cbn.
    destruct (not_covered _ _ _ _ _ Hs (proj1 (op_find_None _ _ _) Hop) Hd) as [Hb He].
    unfold rollback_version. by rewrite !decide_False.
Qed.

(** ** The operations *)
(** The log and the transaction itself. *)
Lemma wp_on_log {A} (c : ST CLogManager A) s (Q : A → session I → Prop) :
  wp c (log_manager_ (db_ s)) (λ a l, Q a (set_db (MkDb (tables_ (db_ s)) l (current_trx_id_ (db_ s))) s)) →
  wp (on_log c) s Q.
Proof. intros (a & l & Hc & HQ). exists a, (set_db (MkDb (tables_ (db_ s)) l (current_trx_id_ (db_ s))) s). unfold on_log. by rewrite Hc. Qed.
Lemma wp_append_log r l (Q : RC.t → CLogManager → Prop) :
  total_size_ (log_buffer_ l) + CLogRecord.logrec_len r < CLOG_BUFFER_SIZE →
  Q RC.SUCCESS (MkCLogManager (MkCLogBuffer (log_records_ (log_buffer_ l) ++ [r])
    (total_size_ (log_buffer_ l) + CLogRecord.logrec_len r)) (log_file_ l)) →
  wp (append_log r) l Q.
Proof.
  intros Hroom HQ. eexists _, _. split; [|exact HQ]. unfold append_log, on_buffer, append_log_record.
  unfold mbind, ST_bind, st_get. rewrite decide_False by lia. done.
Qed.

(** [start_if_need] gives the transaction a new number and logs its beginning. *)
Lemma wp_start s L :
  started_ (trx_ s) = false → operations_ (trx_ s) = [] → log_wf s → log_room s 0 → db_inv L s →
  let i := incr32 (current_trx_id_ (db_ s)) in
  0 < i < max_trx_id → (∀ tid rid d, look_of s tid rid = Some d → v_begin (view d) ≠ - i ∧ v_end (view d) ≠ - i) →
  wp start_if_need s (λ rc s', rc = RC.SUCCESS ∧ trx_inv L s' ∧ rec_eq (look_of s) (look_of s') ∧
    trx_ s' = MkMvccTrx i true (recovering_ (trx_ s)) [] ∧ current_trx_id_ (db_ s') = i ∧
    log_records_ (buffer_of s') = log_records_ (buffer_of s) ++ [CLogRecord.build_mtr_record CLogType.MTR_BEGIN i]).
Proof.
  intros Hst Hops [Hb Ht] Hroom Hinv i Hi Hfresh. unfold start_if_need. apply wp_bind, wp_get. rewrite Hst.
  apply wp_bind, wp_assert; [by apply bool_decide_eq_true_2|]. apply wp_bind. unfold next_trx_id.
  apply wp_bind, wp_get, wp_bind, wp_modify, wp_ret. apply wp_bind, wp_modify, wp_bind, wp_on_log.
  unfold begin_trx. apply wp_append_log.
  { unfold log_room in Hroom. cbn. unfold CLogRecord.logrec_len. cbn. by rewrite Z.add_0_r in *. }
  apply wp_bind, wp_assert; [done|]. apply wp_bind, wp_modify, wp_ret. cbn.
  split_and!; [done| |done|by rewrite Hops|done|done].
  split; cbn; rewrite ?Hops; try done.
  - apply NoDup_nil_2.
  - constructor.
  - intros tid rid d Hd. destruct (Hfresh tid rid d Hd) as [H1 H2]. split; intros; by exfalso.
  - split; [apply Forall_app; split; [done|]|].
    + apply Forall_singleton, built_mtr; [by left|unfold i, is_int32, max_trx_id in *; lia].
    + cbn. rewrite log_size_app. unfold buffer_of in Ht. cbn. rewrite Ht. done.
Qed.

(** The records of the log and the state when a transaction has ended. *)
Definition ended s s' : Prop :=
  trx_ s' = MkMvccTrx (me s) false (recovering_ (trx_ s)) [] ∧
  current_trx_id_ (db_ s') = current_trx_id_ (db_ s) ∧
  ∀ tid, table_meta_ <$> table_of s' tid = table_meta_ <$> table_of s tid.

(** The loop of the end of a transaction. *)
Lemma wp_end_loop f e eL pre s L k (Q : RC.t → session I → Prop) :
  (∀ op s L d, db_inv L s → look_of s (Operation.table_id op) (Operation.rid op) = Some d →
    op_marked (trx_id_ (trx_ s)) op d → pre op (L (Operation.table_id op) (Operation.rid op)) →
    wp (f op) s (λ _ s', frame s s' ∧
      db_inv (rec_set L (Operation.table_id op) (Operation.rid op)
        (eL op (L (Operation.table_id op) (Operation.rid op)))) s' ∧
      rec_eq (rec_set (look_of s) (Operation.table_id op) (Operation.rid op) (e op (Some d))) (look_of s'))) →
  db_inv L s → NoDup (op_key <$> operations_ (trx_ s)) → ops_marked (me s) (operations_ (trx_ s)) (look_of s) →
  Forall (λ op, pre op (L (Operation.table_id op) (Operation.rid op))) (operations_ (trx_ s)) →
  (∀ s', ended s s' → log_manager_ (db_ s') = log_manager_ (db_ s) →
    db_inv (apply_ops eL (operations_ (trx_ s)) L) s' →
    rec_eq (apply_ops e (operations_ (trx_ s)) (look_of s)) (look_of s') →
    wp (k (set_started false s)) s' Q) →
  wp (st_modify (set_started false) ;;;
      s ← st_get; for_operations f (order (operations_ (trx_ s))) ;;; st_modify (set_operations []) ;;; k s) s Q.
Proof.
  intros Hf Hinv0 Hnd0 Hmark0 Hpre HQ. set (ops := operations_ (trx_ s)) in *. pose proof (Horder ops) as Hp.
  assert (NoDup (op_key <$> order ops)) as Hnd by by rewrite Hp.
  apply wp_bind, wp_modify, wp_bind, wp_get, wp_bind. cbn [set_started trx_ operations_]. fold ops.
  set (s0 := set_started false s). eapply wp_mono.
  { apply (wp_for_operations f e eL pre Hf (order ops) s0 L); [by apply (db_inv_frame _ s)|done| |by rewrite Hp].
    unfold ops_marked. by rewrite Hp. }
  intros _ s1 (Hfr & Hinv & Hlook). destruct Hfr as (Htrx & Hlm & Hid & Hmeta). apply wp_bind, wp_modify, HQ.
  - unfold set_operations. cbn. rewrite Htrx. split_and!; [done..|]. exact Hmeta.
  - exact Hlm.
  - eapply db_inv_frame; [|eapply db_inv_eq; [|exact Hinv]]; [done|].
    intros tid rid. symmetry. by apply (apply_ops_perm eL ops (order ops) L Hp).
  - intros tid rid. etrans; [exact (Hlook tid rid)|]. by apply (apply_ops_perm e ops (order ops) _ Hp).
Qed.


(** The log of a commit. *)
Lemma wp_commit_log s i c :
  log_wf s → is_int32 i → is_int32 c → log_room s 4 →
  wp (on_log (commit_trx writen fsync_ok i c)) s (λ rc s', rc = (if fsync_ok then RC.SUCCESS else RC.IOERR_SYNC) ∧
    (∃ l, s' = set_db (MkDb (tables_ (db_ s)) l (current_trx_id_ (db_ s))) s) ∧
    log_records_ (buffer_of s') = [] ∧ total_size_ (buffer_of s') = 0 ∧
    contents (log_file_ (log_manager_ (db_ s'))) = contents (log_file_ (log_manager_ (db_ s))) ++
      log_bytes (log_records_ (buffer_of s) ++ [CLogRecord.build_commit_record i c])).
Proof.
  intros [Hb Ht] Hi Hc Hroom. apply wp_on_log. unfold commit_trx. apply wp_bind, wp_append_log; [exact Hroom|].
  change (RC.succ RC.SUCCESS) with true. cbv iota. eapply wp_mono.
  { apply (wp_flush_buffer writen fsync_ok Hwriten). cbn [log_buffer_ log_records_]. apply Forall_app. split; [done|].
    by apply Forall_singleton, built_commit. }
  intros rc l (-> & Hr & Htot & Hcon & _). cbn [log_buffer_ log_records_ log_file_ total_size_] in *.
  split_and!; [done|by eexists|done| |done].
  unfold buffer_of. cbn. rewrite Htot, log_size_app. unfold buffer_of in Ht. rewrite Ht. cbn. lia.
Qed.
(** What a commit needs: unlike [trx_inv] it does not ask that every version that carries
    the number of the transaction is one of its operations. *)
Record trx_ready L s : Prop := {
  tr_db : db_inv L s;
  tr_keys : NoDup (op_key <$> operations_ (trx_ s));
  tr_marked : ops_marked (me s) (operations_ (trx_ s)) (look_of s);
  tr_id : 0 < me s < max_trx_id;
  tr_log : log_wf s
}.
Lemma trx_inv_ready L s : trx_inv L s → trx_ready L s.
Proof. intros []. by split. Qed.
(** what a commit does to the version of an operation, which carries the number *)
Definition commit_of (op : Operation.t) (c : Z) (v : version) : version :=
  match Operation.type op with
  | Operation.INSERT => Version c (v_end v) (v_payload v)
  | _ => Version (v_begin v) c (v_payload v)
  end.
Lemma view_commit_ops L s c tid rid :
  trx_ready L s → is_int32 c →
  view <$> apply_ops (commit_data c) (operations_ (trx_ s)) (look_of s) tid rid =
    match op_find (operations_ (trx_ s)) tid rid with
    | Some op => commit_of op c <$> (view <$> look_of s tid rid)
    | None => view <$> look_of s tid rid
    end.
Proof.
  intros Hs Hc. unfold apply_ops. destruct (op_find _ tid rid) as [op|] eqn:Hop; [|done].
  destruct (look_of s tid rid) as [d|] eqn:Hd; [|by unfold commit_data; destruct (Operation.type op)].
  destruct (look_length L _ _ _ _ (tr_db _ _ Hs) Hd) as (H8 & _). unfold commit_data, commit_of.
  destruct (Operation.type op); cbn [fmap option_fmap option_map]; f_equal; by rewrite ?view_set_begin, ?view_set_end.
Qed.
Lemma wp_commit_any s L c :
  trx_ready L s → is_int32 c → log_room s 4 →
  wp (commit_with_trx_id writen fsync_ok order c) s (λ rc s', ended s s' ∧ db_inv L s' ∧
    rec_eq (apply_ops (commit_data c) (operations_ (trx_ s)) (look_of s)) (look_of s') ∧
    if recovering_ (trx_ s) then rc = RC.SUCCESS ∧ log_manager_ (db_ s') = log_manager_ (db_ s)
    else rc = (if fsync_ok then RC.SUCCESS else RC.IOERR_SYNC) ∧
      log_records_ (buffer_of s') = [] ∧ total_size_ (buffer_of s') = 0 ∧
      contents (log_file_ (log_manager_ (db_ s'))) = contents (log_file_ (log_manager_ (db_ s))) ++
        log_bytes (log_records_ (buffer_of s) ++ [CLogRecord.build_commit_record (me s) c])).
Proof.
  intros Hs Hc Hroom. destruct (tr_log _ _ Hs) as [Hb Ht].
  assert (is_int32 (me s)) as Hi by (pose proof (tr_id _ _ Hs); unfold is_int32, max_trx_id in *; lia).
  unfold commit_with_trx_id.
  eapply (wp_end_loop (commit_operation c) (commit_data c) (λ _ o, o) (λ _ _, True) s L); [|apply Hs..|by apply Forall_true|].
  { intros op s0 L0 d Hinv Hd Hm _. by apply wp_commit_operation. }
  intros s1 Hend Hlm Hinv Hlook. cbn [set_started trx_ recovering_ trx_id_]. fold (me s).
  assert (db_inv L s1) as Hinv1 by (eapply db_inv_eq; [|exact Hinv]; intros tid rid; symmetry; apply apply_ops_id).
  destruct (recovering_ (trx_ s)) eqn:Hrec; [by apply wp_ret|].
  eapply wp_mono.
  { apply (wp_commit_log s1 (me s) c); try done; unfold log_wf, log_room, buffer_of in *; by rewrite Hlm. }
  intros rc s' (-> & (l & ->) & Hr & Htot & Hcon). unfold buffer_of in Hcon. rewrite Hlm in Hcon. done.
Qed.
Lemma wp_commit s L :
  trx_ready L s → recovering_ (trx_ s) = false → is_int32 (incr32 (current_trx_id_ (db_ s))) → log_room s 4 →
  let c := incr32 (current_trx_id_ (db_ s)) in
  wp (commit writen fsync_ok order) s (λ rc s', rc = (if fsync_ok then RC.SUCCESS else RC.IOERR_SYNC) ∧
    db_inv L s' ∧ trx_ s' = MkMvccTrx (me s) false false [] ∧ current_trx_id_ (db_ s') = c ∧
    (∀ tid rid, view <$> look_of s' tid rid =
       match op_find (operations_ (trx_ s)) tid rid with
       | Some op => commit_of op c <$> (view <$> look_of s tid rid)
       | None => view <$> look_of s tid rid
       end) ∧
    (trx_inv L s → ∀ tid rid, view <$> look_of s' tid rid = commit_version (me s) c <$> (view <$> look_of s tid rid)) ∧
    log_records_ (buffer_of s') = [] ∧ total_size_ (buffer_of s') = 0 ∧
    contents (log_file_ (log_manager_ (db_ s'))) = contents (log_file_ (log_manager_ (db_ s))) ++
      log_bytes (log_records_ (buffer_of s) ++ [CLogRecord.build_commit_record (me s) c])).
Proof.
  intros Hs Hrec Hc Hroom c. unfold commit, next_trx_id.
  apply wp_bind, wp_bind, wp_get, wp_bind, wp_modify, wp_ret. fold c.
  set (s0 := set_db (MkDb (tables_ (db_ s)) (log_manager_ (db_ s)) c) s).
  assert (trx_ready L s0) as Hs0.
  { split; [by apply (db_inv_frame _ s); [|apply Hs]|apply Hs..]. }
  eapply wp_mono; [by apply (wp_commit_any s0 L c)|].
  intros rc s' ((H1 & H2 & _) & Hinv & Hlook & Hres).
  change (trx_ s0) with (trx_ s) in *. rewrite Hrec in Hres, H1. destruct Hres as (-> & H3 & H4 & H5).
  split_and!; [done..| | |done|done|done]; intros; rewrite Hlook.
  - by apply (view_commit_ops L s0).
  - by apply (view_commit L s).
Qed.
Lemma wp_rollback s L :
  trx_inv L s →
  log_room s 0 →
  wp (rollback order) s (λ rc s', rc = RC.SUCCESS ∧ ended s s' ∧
    db_inv (apply_ops rollback_entry (operations_ (trx_ s)) L) s' ∧
    (∀ tid rid, view <$> look_of s' tid rid = (view <$> look_of s tid rid) ≫= rollback_version (me s)) ∧
    log_records_ (buffer_of s') = log_records_ (buffer_of s) ++
      (if recovering_ (trx_ s) then [] else [CLogRecord.build_mtr_record CLogType.MTR_ROLLBACK (me s)]) ∧
    log_file_ (log_manager_ (db_ s')) = log_file_ (log_manager_ (db_ s))).
Proof.
  intros Hs Hroom. destruct (ti_log _ _ Hs) as [Hb Ht]. unfold rollback.
  eapply (wp_end_loop rollback_operation rollback_data rollback_entry rollback_pre s L); [|apply Hs..|].
  { intros op s0 L0 d Hinv Hd Hm Hp. by apply wp_rollback_operation. }
  intros s1 Hend Hlm Hinv Hlook. cbn [set_started trx_ recovering_ trx_id_]. fold (me s).
  assert (∀ tid rid, view <$> look_of s1 tid rid = (view <$> look_of s tid rid) ≫= rollback_version (me s)) as Hview.
  { intros tid rid. rewrite Hlook. by apply (view_rollback L). }
  unfold buffer_of. destruct (recovering_ (trx_ s)) eqn:Hrec.
  - apply wp_ret. rewrite Hlm, app_nil_r. done.
  - apply wp_on_log. rewrite Hlm. unfold rollback_trx. apply wp_append_log; [exact Hroom|].
    done.
Qed.
End session.

(** * Correctness of recovery

    Redoing the records a transaction has logged has, on the records of the database, the
    effect of the statements that logged them; the log is read back as it was written. *)
Section table.
Context {I : Type} `{!IndexOps I} `{!IndexSpec I}.
Context (trx_fields : option (list FieldMeta.t)).
Implicit Types (t : table I) (look : RID.t → option memory) (rid : RID.t).

(** The slot [rid] is one of a page of the file. *)
Definition has_slot t rid : Prop :=
  ∃ pg, record_pages (record_handler_ t) !! RID.page_num rid = Some pg ∧
    0 <= RID.slot_num rid < record_capacity (page_header pg).

Lemma wp_table_recover t look data rid :
  table_inv trx_fields look t → table_lookup t rid = None → look rid = None → has_slot t rid →
  Z.of_nat (length data) = rec_size t → Forall index_room (indexes_ t) →
  wp (Table.recover_insert_record trx_fields data rid) t (λ rc t', table_meta_ t' = table_meta_ t ∧
    ((rc = RC.SUCCESS ∧ table_inv trx_fields (look_set look rid (Some data)) t' ∧
      ∀ rid', table_lookup t' rid' = look_set (table_lookup t) rid (Some data) rid') ∨
     (rc = RC.RECORD_DUPLICATE_KEY ∧ (∃ i, i ∈ indexes_ t ∧ index_duplicate i data) ∧ table_inv trx_fields look t' ∧
      ∀ rid', table_lookup t' rid' = table_lookup t rid'))).
Proof.
  intros Hinv Hnone Hno (pg & Hpg & Hslot) Hlen Hroom. unfold Table.recover_insert_record.
  apply wp_bind, wp_on_handler. eapply wp_mono.
  { eapply (wp_recover_insert_record (tw_file _ _ _ Hinv)); [exact Hslot|exact Hpg|lia]. }
  intros rc h (-> & Hstep). rewrite take_ge in Hstep by lia. change (RC.succ RC.SUCCESS) with true. cbv iota.
  eapply wp_mono.
  { apply (wp_insert_into_indexes trx_fields (set_handler h t) data rid (record_handler_ t) look); try done.
    by destruct t. }
  intros rc t' (Hm & [(-> & Hinv' & Hlook)|(-> & Hdup & Hinv' & Hlook)]); (split; [done|]).
  - left. split_and!; [done..|]. intros rid'. rewrite Hlook. apply Hstep.
  - right. done.
Qed.
End table.

Section session.
Context {I : Type} `{!IndexOps I} `{!IndexSpec I}.
Implicit Types (s : session I) (t : table I) (L : records) (tid : Z) (rid : RID.t) (d : memory).
Context (writen : memory → memory → memory * bool) (fsync_ok : bool).
Context (order : list Operation.t → list Operation.t).

Lemma redo_table_found s t r :
  table_of s (table_id_ (data_record_ r)) = Some t → redo_table r s = Done (inr (), s).
Proof.
  intros Ht. unfold redo_table, table_of in *. destruct (CLogRecord.log_type r) as [[]|]; try done;
    unfold mbind, ST_bind, st_get, mret, ST_ret; by rewrite Ht.
Qed.

(** Redoing an insertion. *)
Lemma wp_redo_insert L s tid t rid d :
  trx_inv L s → table_of s tid = Some t → table_lookup t rid = None → has_slot t rid →
  Z.of_nat (length d) = rec_size t → Forall index_room (indexes_ t) →
  v_begin (view d) = - me s → v_end (view d) = max_trx_id →
  wp (redo writen fsync_ok order (data_log CLogType.INSERT (me s) tid rid d)) s (λ rc s',
    (rc = RC.SUCCESS ∧ trx_inv (rec_set L tid rid (Some d)) s' ∧
      rec_eq (rec_set (look_of s) tid rid (Some d)) (look_of s') ∧
      step s s' (Operation.mk Operation.INSERT tid rid :: operations_ (trx_ s)) []) ∨
    (rc = RC.RECORD_DUPLICATE_KEY ∧ (∃ i, i ∈ indexes_ t ∧ index_duplicate i d) ∧ trx_inv L s' ∧
      rec_eq (look_of s) (look_of s') ∧ step s s' (operations_ (trx_ s)) [])).
Proof.
  intros Hs Ht Hnone Hslot Hlen Hroom Hb He. pose proof (ti_db _ _ Hs) as Hinv. pose proof (Hinv _ _ Ht) as Hm.
  pose proof (mm_size _ (mt_meta _ _ Hm)) as H8. change (TableMeta.record_size (table_meta_ t)) with (rec_size t) in H8.
  assert (look_of s tid rid = None) as Hlook0 by (unfold look_of; by rewrite Ht).
  assert (L tid rid = None) as HL.
  { destruct (mt_look _ _ Hm rid) as [?|(x & y & _ & Hy & _)]; [done|congruence]. }
  unfold redo. apply wp_bind. exists (inr ()), s. split; [by apply (redo_table_found s t)|].
  change (CLogRecord.log_type (data_log CLogType.INSERT (me s) tid rid d)) with (Some CLogType.INSERT). cbv iota beta zeta.
  cbn [data_log data_record_ table_id_ rid_ data_].
  replace (default [] (if decide (d = []) then None else Some d)) with d by by case_decide.
  apply wp_bind. eapply wp_on_table; [exact Ht|]. eapply wp_mono.
  { by apply (wp_table_recover (Some mvcc_fields) t (L tid)); [apply Hm|..]. }
  intros rc t' (Hmeta & [(-> & Hinv' & Hlook)|(-> & Hdup & Hinv' & Hlook)]).
  - change (RC.succ RC.SUCCESS) with true. cbv iota. apply wp_bind, wp_insert_operation, wp_ret. left.
    split; [done|]. set (op := Operation.mk Operation.INSERT tid rid).
    assert ((tid, rid) ∉ (op_key <$> operations_ (trx_ s))) as Hno.
    { apply (op_not_elem (me s) _ (look_of s) op); [done|apply Hs]. }
    change (operations_ (trx_ (put_table tid t' s))) with (operations_ (trx_ s)).
    rewrite op_insert_new by done. cbn [snd].
    assert (frame s (put_table tid t' s)) as Hfr by by eapply frame_put.
    pose proof (step_trans _ _ _ _ _ _ _ (step_frame _ _ Hfr) (step_operations (op :: operations_ (trx_ s)) _)) as Hstep.
    assert (rec_eq (rec_set (look_of s) tid rid (Some d)) (look_of (set_operations (op :: operations_ (trx_ s)) (put_table tid t' s)))) as Hl.
    { exact (look_of_put tid t t' s rid (Some d) Ht Hlook). }
    split_and!; [|done|done].
    eapply (trx_inv_step L s _ _ op tid rid (Some d) _ d Hs); [done|done|exact Hstep|done|done|by intros _| |done|done|done|].
    + eapply (db_inv_frame _ (put_table tid t' s)); [done|]. apply db_inv_put; [done|].
      split; [rewrite Hmeta; apply Hm|done|]. intros r. rewrite Hlook. unfold look_set.
      case_decide; [right; by exists d, d|]. apply Hm.
    + rewrite He. pose proof (ti_id _ _ Hs). lia.
  - change (RC.succ RC.RECORD_DUPLICATE_KEY) with false. cbv iota. apply wp_ret. right. split; [done|].
    assert (frame s (put_table tid t' s)) as Hfr by by eapply frame_put. pose proof (step_frame _ _ Hfr) as Hstep.
    assert (rec_eq (look_of s) (look_of (put_table tid t' s))) as Hl by by apply (look_of_put_same tid t).
    split; [done|]. split_and!; [|done|done]. eapply trx_inv_same; [done..| |done]. apply db_inv_put_same; [done|].
    split; [rewrite Hmeta; apply Hm|done|]. intros r. rewrite Hlook. apply Hm.
Qed.

(** Redoing a deletion: the entries of the record stay in the indexes. *)
Lemma wp_redo_delete L s tid rid d :
  trx_inv L s → look_of s tid rid = Some d → v_end (view d) = max_trx_id →
  (tid, rid) ∉ (op_key <$> operations_ (trx_ s)) →
  wp (redo writen fsync_ok order (data_log CLogType.DELETE (me s) tid rid [])) s (λ rc s', rc = RC.SUCCESS ∧
    trx_inv (rec_set L tid rid (L tid rid)) s' ∧
    rec_eq (rec_set (look_of s) tid rid (Some (set_end (- me s) d))) (look_of s') ∧
    step s s' (Operation.mk Operation.DELETE tid rid :: operations_ (trx_ s)) []).
Proof.
  intros Hs Hd He Hno. pose proof (ti_db _ _ Hs) as Hinv. destruct (me_int32 _ _ Hs) as [Hi Hi'].
  destruct (look_length L _ _ _ _ Hinv Hd) as (H8 & Hvalid & t & Ht & Hm & Hl & _).
  unfold redo. apply wp_bind. exists (inr ()), s. split; [by apply (redo_table_found s t)|].
  change (CLogRecord.log_type (data_log CLogType.DELETE (me s) tid rid [])) with (Some CLogType.DELETE).
  cbv iota beta zeta. cbn [data_log data_record_ table_id_ rid_].
  apply wp_bind. eapply wp_trx_fields; [exact Ht|apply Hm|]. apply wp_bind, wp_get, wp_bind.
  eapply wp_on_table; [exact Ht|]. eapply wp_mono.
  { apply (wp_update_xid (L tid) t rid d end_field max_trx_id (- me s) (set_end (- me s) d) Hm Hl);
      [rewrite <-He; by apply get_end|by apply set_int_end|by apply same_payload_end]. }
  intros r t' (-> & Hmeta & Hidx & Hm' & Hlook). apply wp_bind, wp_assert; [done|].
  apply wp_bind, wp_insert_operation, wp_ret.
  change (operations_ (trx_ (put_table tid t' s))) with (operations_ (trx_ s)).
  rewrite op_insert_new by done. cbn [snd]. set (op := Operation.mk Operation.DELETE tid rid).
  assert (frame s (put_table tid t' s)) as Hfr by by eapply frame_put.
  pose proof (step_trans _ _ _ _ _ _ _ (step_frame _ _ Hfr) (step_operations (op :: operations_ (trx_ s)) _)) as Hstep.
  assert (rec_eq (rec_set (look_of s) tid rid (Some (set_end (- me s) d)))
    (look_of (set_operations (op :: operations_ (trx_ s)) (put_table tid t' s)))) as Hlk.
  { exact (look_of_put tid t t' s rid (Some (set_end (- me s) d)) Ht Hlook). }
  split_and!; [done| |done|done].
  eapply (trx_inv_step L s _ _ op tid rid (L tid rid) _ _ Hs); [done|done|exact Hstep|done|done|done| |exact Hlk| | |done].
  - eapply (db_inv_frame _ (put_table tid t' s)); [done|].
    eapply db_inv_eq; [|by apply (db_inv_put_same tid t' s L)]. intros tid' rid'. by apply rec_set_same.
  - change (v_end (view (set_end (- me s) d)) = - me s). by rewrite view_set_end.
  - rewrite view_set_end by done. cbn. intros Hb. by destruct (not_covered _ _ _ _ _ Hs Hno Hd).
Qed.
End session.
