(* ===== verification/TrxTheorems.v ===== *)
(** * Theorems about transactions and the log

    Visibility of versions, the statements and the end of a transaction, recovery, and the
    commit log.  The concrete database has one table with one [INTS] column and a B+ tree
    index on it. *)
From S2P Require Import Prelude RidKey Comparator Bitmap LruCache BufferPool BufferPoolHeader.
From S2P Require Import LatchMemo BplusNode BplusTree BplusInv BplusState BplusIndex.
From S2P Require Import RecordPage RecordPageCorrect RecordFile RecordFileCorrect TableMeta Table.
From S2P Require Import TableCorrect TableBplus BplusTheorems RecordTheorems TableTheorems.
From S2P Require Import CLog CLogCorrect Mvcc TrxKit MvccCorrect MvccSession TrxCorrect TrxEnd.
From Stdlib Require Import ZArith Lia.
From stdpp Require Import base option strings gmap sets list relations.
Local Open Scope Z_scope.
#[local] Opaque Nat.div Nat.modulo.

(** ** Visibility *)
(** what a reader with the number [r] sees *)
Definition seen (r : Z) (v : option version) : bool :=
  match v with Some v => RC.succ (visit_xids r (v_begin v) (v_end v) true) | None => false end.
(** The steps of other transactions on a version: a version that is ended is one from
    before the reader, a transaction that commits does so after the reader has started. *)
Inductive other_step (r : Z) : option version → option version → Prop :=
| other_insert o p : 0 < o → o ≠ r → other_step r None (Some (Version (- o) max_trx_id p))
| other_end o b p : 0 < o → o ≠ r → 0 < b <= r →
    other_step r (Some (Version b max_trx_id p)) (Some (Version b (- o) p))
| other_commit o c v : 0 < o → o ≠ r → r < c → other_step r (Some v) (Some (commit_version o c v))
| other_rollback o v : 0 < o → o ≠ r → other_step r (Some v) (rollback_version o v).
Lemma commit_version_eq o c b e p : commit_version o c (Version b e p) =
  Version (if decide (b = - o) then c else b) (if decide (e = - o) then c else e) p.
Proof. done. Qed.
Lemma rollback_version_eq o b e p : rollback_version o (Version b e p) =
  if decide (b = - o) then None else Some (Version b (if decide (e = - o) then max_trx_id else e) p).
Proof. done. Qed.
(** A version of others: not being ended before it is from before the reader. *)
Definition of_others (r : Z) (v : version) : Prop :=
  v_begin v ≠ 0 ∧ v_begin v ≠ - r ∧ v_end v ≠ - r ∧ (0 < v_end v ∨ (v_end v < 0 ∧ 0 < v_begin v <= r)).

Lemma other_step_seen r v v' :
  0 < r <= max_trx_id → (∀ x, v = Some x → of_others r x) → other_step r v v' →
  (∀ x, v' = Some x → of_others r x) ∧ seen r v' = seen r v ∧
  (seen r v = true → v_payload <$> v' = v_payload <$> v).
Proof.
  intros Hr Hv Hstep. assert (∀ b e p, of_others r (Version b e p) → seen r (Some (Version b e p)) =
    bool_decide (0 < b <= r ∧ (e < 0 ∨ r <= e))) as Hseen.
  { intros b e p (H1 & H2 & H3 & H4). cbn in *. unfold visit_xids, RC.succ.
    repeat case_decide; try case_bool_decide; try done; try lia. }
  assert (∀ o c b e p, 0 < o → o ≠ r → r < c → of_others r (Version b e p) →
    of_others r (commit_version o c (Version b e p))) as Hcom.
  { unfold of_others, commit_version. cbn. intros. repeat case_decide; lia. }
  assert (∀ o b e p x, 0 < o → o ≠ r → of_others r (Version b e p) → rollback_version o (Version b e p) = Some x →
    of_others r x) as Hrol.
  { unfold of_others, rollback_version. cbn. intros o b e p x Ho Hor Hof. case_decide; [done|]. intros [= <-]. cbn.
    unfold max_trx_id in *. case_decide; lia. }
  destruct Hstep as [o p Ho Hor|o b p Ho Hor Hb|o c [b e p] Ho Hor Hc|o [b e p] Ho Hor].
  - assert (of_others r (Version (- o) max_trx_id p)) as Hof.
    { unfold of_others, max_trx_id. cbn. lia. }
    split; [by intros x [= <-]|]. rewrite Hseen by done. split; [|done]. cbn. apply bool_decide_eq_false_2. lia.
  - assert (of_others r (Version b (- o) p)) as Hof by (unfold of_others; cbn; lia).
    split; [by intros x [= <-]|]. split; [|done]. rewrite !Hseen by (done || by apply Hv).
    apply bool_decide_ext. unfold max_trx_id in *. lia.
  - pose proof (Hv _ eq_refl) as Hof. split; [intros x [= <-]; by apply Hcom|]. split; [|done].
    pose proof (Hcom o c b e p Ho Hor Hc Hof) as Hof'. rewrite commit_version_eq in Hof' |- *.
    rewrite !Hseen by done. apply bool_decide_ext. unfold of_others in Hof. cbn in Hof. repeat case_decide; lia.
  - pose proof (Hv _ eq_refl) as Hof. split; [intros x; by apply Hrol|].
    pose proof (Hrol o b e p) as Hof'. rewrite rollback_version_eq in Hof' |- *. rewrite (Hseen b e p) by done. case_decide.
    + subst. split; [symmetry; apply bool_decide_eq_false_2; lia|]. intros Hs%bool_decide_eq_true. lia.
    + split; [|done]. rewrite Hseen by by eapply Hof'. apply bool_decide_ext. unfold of_others, max_trx_id in *. cbn in Hof.
      case_decide; lia.
Qed.

(** C9: the steps of other transactions, of which those that commit commit after the
    reader started, change neither whether the reader sees a version nor its payload, as
    long as they end only versions from before the reader; a version committed after the
    reader started is invisible until another transaction begins to end it, and then
    becomes visible. *)
Theorem snapshot_stable r v v' :
  0 < r <= max_trx_id → (∀ x, v = Some x → of_others r x) → rtc (other_step r) v v' →
  seen r v' = seen r v ∧ (seen r v = true → v_payload <$> v' = v_payload <$> v) ∧
  (∀ o c p, r < c → 0 < o → o ≠ r → seen r (Some (Version c max_trx_id p)) = false ∧
     seen r (Some (Version c (- o) p)) = true).
Proof.
  intros Hr Hv Hsteps. split; [|split].
  3:{ intros o c p Hc Ho Hor. unfold seen, visit_xids, RC.succ, max_trx_id. cbn.
      split; repeat case_decide; try case_bool_decide; done || lia. }
  all: revert Hv; induction Hsteps as [v|v v1 v' Hstep _ IH]; intros Hv; [done|];
    destruct (other_step_seen r v v1 Hr Hv Hstep) as (Hv1 & Hs1 & Hp1).
  - by rewrite IH.
  - intros Hs. rewrite IH by (done || by rewrite Hs1). by apply Hp1.
Qed.
Lemma snapshot_stable_witness :
  let v := Version 2 max_trx_id [7] in let v' := Version 2 9 [7] in
  rtc (other_step 5) (Some v) (Some v') ∧ seen 5 (Some v') = seen 5 (Some v) ∧
  (seen 5 (Some v) = true → v_payload <$> Some v' = v_payload <$> Some v).
Proof.
  cbv zeta. assert (rtc (other_step 5) (Some (Version 2 max_trx_id [7])) (Some (Version 2 9 [7]))) as Hsteps.
  { eapply rtc_l; [apply (other_end 5 8); lia|]. eapply rtc_l; [|apply rtc_refl].
    apply (other_commit 5 8 9 (Version 2 (-8) [7])); lia. }
  split; [exact Hsteps|].
  destruct (snapshot_stable 5 (Some (Version 2 max_trx_id [7])) (Some (Version 2 9 [7]))) as (H1 & H2 & _);
    [unfold max_trx_id; lia| |exact Hsteps|exact (conj H1 H2)].
  intros x [= <-]. unfold of_others, max_trx_id. cbn. lia.
Defined.

(** ** Statements *)
Section theorems.
Context {I : Type} `{!IndexOps I} `{!IndexSpec I}.
Implicit Types (s : session I) (t : table I) (L : records) (tid : Z) (rid : RID.t) (d : memory).
Context (begin : gset PageNum → PageNum) (flush_page : PageNum → RC.t)
  (area : PageNum → nat → memory) (fuel : nat).
Context (writen : memory → memory → memory * bool) (fsync_ok : bool).
Context (order : list Operation.t → list Operation.t).

(** [insert_record] stores a version that begins with the transaction and has no end,
    under a RID not in use, logs it and notes the operation; when the table refuses it,
    records, log and operations stay. *)
Theorem trx_insert_correct L s tid t record :
  (∀ X, X ≠ ∅ → begin X ∈ X) → (∀ p, flush_page p = RC.SUCCESS) → (1 <= fuel)%nat →
  trx_inv L s → is_int32 tid → table_of s tid = Some t → storable area fuel (rec_size t) →
  Z.of_nat (length record) = rec_size t → Forall index_room (indexes_ t) →
  log_room s (HEADER_SIZE + rec_size t) →
  wp (insert_record begin flush_page area fuel tid record) s (λ res s',
    let d := new_version (me s) record in
    match res with
    | inr rid => look_of s tid rid = None ∧ trx_inv (rec_set L tid rid (Some d)) s' ∧
        rec_eq (rec_set (look_of s) tid rid (Some d)) (look_of s') ∧
        step s s' (Operation.mk Operation.INSERT tid rid :: operations_ (trx_ s))
          [data_log CLogType.INSERT (me s) tid rid d]
    | inl rc => (rc = RC.RECORD_DUPLICATE_KEY ∨ rc = RC.BUFFERPOOL_NOBUF) ∧ trx_inv L s' ∧
        rec_eq (look_of s) (look_of s') ∧ step s s' (operations_ (trx_ s)) []
    end).
Proof. intros. by apply (wp_trx_insert_record begin) with (t := t). Qed.

(** [delete_record] of a live record that no operation of the transaction is about
    marks it as ended by the transaction, takes its entries out of the indexes, logs and
    notes the operation; a record that has an end is left as it is. *)
Theorem trx_delete_correct L s tid rid d x :
  trx_inv L s → is_int32 tid → look_of s tid rid = Some d → L tid rid = Some x → log_room s HEADER_SIZE →
  0 < v_end (view d) → (tid, rid) ∉ (op_key <$> operations_ (trx_ s)) →
  wp (delete_record tid rid) s (λ rc s', rc = RC.SUCCESS ∧
    if decide (v_end (view d) = max_trx_id) then
      trx_inv (rec_set L tid rid None) s' ∧
      rec_eq (rec_set (look_of s) tid rid (Some (set_end (- me s) d))) (look_of s') ∧
      step s s' (Operation.mk Operation.DELETE tid rid :: operations_ (trx_ s))
        [data_log CLogType.DELETE (me s) tid rid []]
    else trx_inv L s' ∧ rec_eq (look_of s) (look_of s') ∧ step s s' (operations_ (trx_ s)) []).
Proof.
  intros Hs Htid Hd Hx Hlog Hpos Hno. case_decide as He; [by eapply wp_delete_record_new|].
  eapply wp_mono; [by apply (wp_delete_record_ended L s tid rid d); [apply Hs|..]|].
  intros rc s' (-> & Hinv & Hlook & Hfr%step_frame). split_and!; [done|by eapply trx_inv_same|done|done].
Qed.

(** C36: [update_record] of a record the transaction may write ends it and stores the new
    version, with both in the log and in the operations; when the new version is refused
    the old one stays marked as ended by the transaction, which has no operation for it. *)
Theorem trx_update_correct L s tid rid t d x record :
  (∀ X, X ≠ ∅ → begin X ∈ X) → (∀ p, flush_page p = RC.SUCCESS) → (1 <= fuel)%nat →
  trx_inv L s → is_int32 tid → table_of s tid = Some t → look_of s tid rid = Some d → L tid rid = Some x →
  visit_xids (me s) (v_begin (view d)) (v_end (view d)) false = RC.SUCCESS →
  (tid, rid) ∉ (op_key <$> operations_ (trx_ s)) →
  storable area fuel (rec_size t) → Z.of_nat (length record) = rec_size t →
  room_for_update begin flush_page area fuel s tid rid (new_version (me s) record) →
  log_room s (2 * HEADER_SIZE + rec_size t) →
  wp (update_record begin flush_page area fuel tid rid record) s (λ rc s',
    let old := rec_set (look_of s) tid rid (Some (set_end (- me s) d)) in
    let new := new_version (me s) record in
    (rc = RC.SUCCESS ∧ ∃ rid', look_of s tid rid' = None ∧
       trx_inv (rec_set (rec_set L tid rid None) tid rid' (Some new)) s' ∧
       rec_eq (rec_set old tid rid' (Some new)) (look_of s') ∧
       step s s' (Operation.mk Operation.INSERT tid rid' :: Operation.mk Operation.DELETE tid rid :: operations_ (trx_ s))
         [data_log CLogType.DELETE (me s) tid rid []; data_log CLogType.INSERT (me s) tid rid' new]) ∨
    ((rc = RC.RECORD_DUPLICATE_KEY ∨ rc = RC.BUFFERPOOL_NOBUF) ∧ rec_eq old (look_of s') ∧
       step s s' (operations_ (trx_ s)) [])).
Proof. intros. by eapply wp_trx_update_record. Qed.

(** ** The end of a transaction *)
(** C5: [commit], when the log can be written.  It takes the next number and writes it into
    the begin of the version of each insertion among the operations of the transaction and
    into the end of that of each deletion, changes no other version, and puts the whole
    buffer of the log with the commit record behind the log file.  When every version that
    carries the number of the transaction is one of its operations, the number is gone from
    all versions; a row the transaction has inserted and deleted is not such a version: only
    its insertion is an operation, and its end keeps the number. *)
Theorem trx_commit_correct L s :
  (∀ c d, writen c d = (d, true)) → (∀ ops, order ops ≡ₚ ops) →
  trx_ready L s → recovering_ (trx_ s) = false → is_int32 (incr32 (current_trx_id_ (db_ s))) → log_room s 4 →
  let c := incr32 (current_trx_id_ (db_ s)) in
  wp (commit writen fsync_ok order) s (λ rc s', rc = (if fsync_ok then RC.SUCCESS else RC.IOERR_SYNC) ∧
    db_inv L s' ∧ trx_ s' = MkMvccTrx (me s) false false [] ∧ current_trx_id_ (db_ s') = c ∧
    (∀ tid rid, view <$> look_of s' tid rid =
       match op_find (operations_ (trx_ s)) tid rid with
       | Some op => commit_of op c <$> (view <$> look_of s tid rid)
       | None => view <$> look_of s tid rid
       end) ∧
    (trx_inv L s → ∀ tid rid, view <$> look_of s' tid rid = commit_version (me s) c <$> (view <$> look_of s tid rid)) ∧
    log_records_ (buffer_of s') = [] ∧ total_size_ (buffer_of s') = 0 ∧
    contents (log_file_ (log_manager_ (db_ s'))) = contents (log_file_ (log_manager_ (db_ s))) ++
      log_bytes (log_records_ (buffer_of s) ++ [CLogRecord.build_commit_record (me s) c])).
Proof. intros. by apply wp_commit. Qed.

(** A history of successful statements of one transaction, with the records the indexes
    follow. *)
Inductive statement : records * session I → records * session I → Prop :=
| statement_insert L s tid t record rid s' :
    is_int32 tid → table_of s tid = Some t → storable area fuel (rec_size t) →
    Z.of_nat (length record) = rec_size t → Forall index_room (indexes_ t) →
    log_room s (HEADER_SIZE + rec_size t) →
    insert_record begin flush_page area fuel tid record s = Done (inr rid, s') →
    statement (L, s) (rec_set L tid rid (Some (new_version (me s) record)), s')
| statement_delete L s tid rid d x s' rc :
    is_int32 tid → look_of s tid rid = Some d → v_end (view d) = max_trx_id → L tid rid = Some x →
    (tid, rid) ∉ (op_key <$> operations_ (trx_ s)) → log_room s HEADER_SIZE →
    delete_record tid rid s = Done (rc, s') →
    statement (L, s) (rec_set L tid rid None, s').
(** what a rollback would leave *)
Definition restored s : Z → RID.t → option version :=
  λ tid rid, (view <$> look_of s tid rid) ≫= rollback_version (me s).

Lemma statement_restored c c' :
  (∀ X, X ≠ ∅ → begin X ∈ X) → (∀ p, flush_page p = RC.SUCCESS) → (1 <= fuel)%nat →
  statement c c' → trx_inv c.1 c.2 →
  trx_inv c'.1 c'.2 ∧ recovering_ (trx_ c'.2) = recovering_ (trx_ c.2) ∧
  ∀ tid rid, restored c'.2 tid rid = restored c.2 tid rid.
Proof.
  intros Hbegin Hflush Hfuel [L s tid t record rid s' Htid Ht Hsto Hlen Hroom Hlog Hrun
    |L s tid rid d x s' rc Htid Hd He Hx Hno Hlog Hrun] Hs; cbn [fst snd] in *.
  - destruct (wp_trx_insert_record begin Hbegin flush_page Hflush area fuel Hfuel L s tid t record Hs Htid Ht Hsto Hlen Hroom Hlog)
      as (res & s1 & Hrun1 & Hpost). rewrite Hrun in Hrun1. injection Hrun1 as <- <-.
    destruct Hpost as (Hnone & Hs' & Hlook & Hstep).
    assert (8 <= length record)%nat as H8.
    { pose proof (mm_size _ (mt_meta _ _ (ti_db _ _ Hs _ _ Ht))). unfold rec_size in Hlen. lia. }
    split_and!; [done|by rewrite (st_trx _ _ _ _ Hstep)|]. intros tid' rid'. unfold restored.
    unfold me at 1. rewrite (st_trx _ _ _ _ Hstep). cbn [trx_id_]. rewrite Hlook. unfold rec_set.
    case_decide as Hd; [|done]. destruct Hd as [-> ->]. rewrite Hnone. cbn [fmap option_fmap option_map mbind option_bind].
    destruct (me_int32 _ _ Hs) as [_ Hi']. rewrite new_version_view by done. unfold rollback_version. by rewrite decide_True.
  - destruct (wp_delete_record_new L s tid rid d x Hs Htid Hd He Hx Hno Hlog) as (rc1 & s1 & Hrun1 & _ & Hs' & Hlook & Hstep).
    rewrite Hrun in Hrun1. injection Hrun1 as <- <-. split_and!; [done|by rewrite (st_trx _ _ _ _ Hstep)|].
    intros tid' rid'. unfold restored. unfold me at 1. rewrite (st_trx _ _ _ _ Hstep). cbn [trx_id_].
    rewrite Hlook. unfold rec_set. case_decide as Hk; [|done]. destruct Hk as [-> ->]. rewrite Hd.
    cbn [fmap option_fmap option_map mbind option_bind]. destruct (me_int32 _ _ Hs) as [_ Hi'].
    destruct (look_length L _ _ _ _ (ti_db _ _ Hs) Hd) as (H8 & _). rewrite view_set_end by done.
    destruct (not_covered _ _ _ _ _ Hs Hno Hd) as [Hb _]. unfold rollback_version. cbn.
    rewrite !(decide_False (P := int_at d = - me s)), decide_True by done. f_equal. f_equal.
    change (int_at (drop 4 d)) with (v_end (view d)). rewrite He. by case_decide.
Qed.

End theorems.

(** ** Recovery and the log *)
Section recovery.
Context {I : Type} `{!IndexOps I} `{!IndexSpec I}.
Implicit Types (s : session I) (t : table I) (L : records) (tid : Z) (rid : RID.t) (d : memory).
Context (writen : memory → memory → memory * bool) (fsync_ok : bool).
Context (order : list Operation.t → list Operation.t).

(** C37: redoing a log record.  That of an insertion into a free slot puts the version under its
    RID, with its entries, and notes the operation; it is refused, and then changes nothing,
    only when a unique index of the table has an entry with its attributes.  That of a
    deletion, of a version that has not ended and that the transaction has no operation on,
    marks the version as ended and notes the operation, but, unlike the statement, leaves
    the entries of the record in the indexes. *)
Theorem trx_redo_correct L s tid rid :
  trx_inv L s →
  (∀ t d, table_of s tid = Some t → table_lookup t rid = None → has_slot t rid →
     Z.of_nat (length d) = rec_size t → Forall index_room (indexes_ t) →
     v_begin (view d) = - me s → v_end (view d) = max_trx_id →
     wp (redo writen fsync_ok order (data_log CLogType.INSERT (me s) tid rid d)) s (λ rc s',
       (rc = RC.SUCCESS ∧ trx_inv (rec_set L tid rid (Some d)) s' ∧
         rec_eq (rec_set (look_of s) tid rid (Some d)) (look_of s') ∧
         step s s' (Operation.mk Operation.INSERT tid rid :: operations_ (trx_ s)) []) ∨
       (rc = RC.RECORD_DUPLICATE_KEY ∧ (∃ i, i ∈ indexes_ t ∧ index_duplicate i d) ∧ trx_inv L s' ∧
         rec_eq (look_of s) (look_of s') ∧ step s s' (operations_ (trx_ s)) []))) ∧
  (∀ d, look_of s tid rid = Some d → v_end (view d) = max_trx_id →
     (tid, rid) ∉ (op_key <$> operations_ (trx_ s)) →
     wp (redo writen fsync_ok order (data_log CLogType.DELETE (me s) tid rid [])) s (λ rc s', rc = RC.SUCCESS ∧
       trx_inv (rec_set L tid rid (L tid rid)) s' ∧
       rec_eq (rec_set (look_of s) tid rid (Some (set_end (- me s) d))) (look_of s') ∧
       step s s' (Operation.mk Operation.DELETE tid rid :: operations_ (trx_ s)) [])).
Proof.
  intros Hs. split.
  - intros t d. by apply wp_redo_insert.
  - intros d. by apply wp_redo_delete.
Qed.

(** C38: a transaction that deletes a record it has inserted and commits leaves a version
    that begins with the commit and ends with the number of the transaction, negated; every
    other reader sees it. *)
Theorem own_delete_survives L s tid rid d x c :
  (∀ c d, writen c d = (d, true)) → (∀ ops, order ops ≡ₚ ops) →
  trx_inv L s → is_int32 tid → 0 < c < 2 ^ 31 →
  Operation.mk Operation.INSERT tid rid ∈ operations_ (trx_ s) →
  look_of s tid rid = Some d → v_end (view d) = max_trx_id → L tid rid = Some x → log_room s (HEADER_SIZE + 4) →
  wp (delete_record tid rid ;;; commit_with_trx_id writen fsync_ok order c) s (λ rc s',
    ∃ d', look_of s' tid rid = Some d' ∧ view d' = Version c (- me s) (v_payload (view d)) ∧
      ∀ r, r ≠ me s → seen r (Some (view d')) = true).
Proof.
  intros Hwriten Horder Hs Htid Hc Hop Hd He Hx Hlog. pose proof (ti_db _ _ Hs) as Hinv.
  destruct (me_int32 _ _ Hs) as [Hi Hi']. pose proof (ti_id _ _ Hs) as Hid.
  destruct (look_length L _ _ _ _ Hinv Hd) as (H8 & _).
  assert (op_find (operations_ (trx_ s)) tid rid = Some (Operation.mk Operation.INSERT tid rid)) as Hfind.
  { apply op_find_Some; [apply Hs|done]. }
  destruct (marks_of_op _ _ _ _ _ _ Hs Hfind Hd) as [(_ & Hb & _)|(? & _)]; [|done].
  apply wp_bind. eapply wp_mono; [eapply wp_trx_delete_record; try done; unfold log_room in *; lia|]. intros rc s1 (-> & Hinv1 & Hlook1 & Hstep1).
  rewrite op_insert_old in Hstep1 by by apply (list_elem_of_fmap_2 op_key _ (Operation.mk Operation.INSERT tid rid)).
  cbn [snd] in Hstep1. assert (me s1 = me s) as Hme1 by (unfold me at 1; by rewrite (st_trx _ _ _ _ Hstep1)).
  assert (operations_ (trx_ s1) = operations_ (trx_ s)) as Hops1 by by rewrite (st_trx _ _ _ _ Hstep1).
  assert (look_of s1 tid rid = Some (set_end (- me s) d)) as Hd1 by (rewrite Hlook1; unfold rec_set; by rewrite decide_True).
  unfold commit_with_trx_id.
  eapply (wp_end_loop order Horder (commit_operation c) (commit_data c) (λ _ o, o) (λ _ _, True) s1);
    [|exact Hinv1|rewrite Hops1; apply Hs| |by apply Forall_true|].
  { intros op s0 L0 d0 Hinv0 Hd0 Hm0 _. by apply wp_commit_operation. }
  { rewrite Hops1, Hme1. pose proof (ti_marked _ _ Hs) as Hm. unfold ops_marked in *. rewrite Forall_forall in *.
    intros op Hin. destruct (Hm op Hin) as (d0 & Hd0 & Hm0). destruct (decide (op_key op = (tid, rid))) as [Hk|Hk].
    - assert (op_find (operations_ (trx_ s)) tid rid = Some op) as Hf by (apply op_find_Some; [apply Hs|done]).
      rewrite Hf in Hfind. injection Hfind as ->. exists (set_end (- me s) d). split; [exact Hd1|].
      change (v_begin (view (set_end (- me s) d)) = - me s). by rewrite view_set_end.
    - exists d0. split; [|done]. rewrite Hlook1. unfold rec_set. rewrite decide_False; [done|].
      intros [H1 H2]. apply Hk. unfold op_key. congruence. }
  intros s2 Hend Hlm _ Hlook2. cbn [set_started trx_ recovering_ trx_id_].
  assert (∀ s', look_of s' = look_of s2 → ∃ d', look_of s' tid rid = Some d' ∧
    view d' = Version c (- me s) (v_payload (view d)) ∧ ∀ r, r ≠ me s → seen r (Some (view d')) = true) as Hdone.
  2:{ destruct (recovering_ (trx_ s1)); [by apply wp_ret, Hdone|]. fold (me s1). rewrite Hme1.
    assert (built (data_log CLogType.DELETE (me s) tid rid [])) as Hbuilt.
    { destruct (look_length L _ _ _ _ Hinv Hd) as (_ & Hvalid & _).
      apply data_log_built; [by right; right|done|done|done|done]. }
    pose proof (log_wf_step _ _ _ _ (ti_log _ _ Hs) (proj2 (Forall_singleton _ _) Hbuilt) Hstep1) as Hwf1.
    eapply wp_mono.
    { apply (wp_commit_log writen fsync_ok Hwriten s2 (me s) c); [..|unfold is_int32; lia|];
        unfold log_wf, log_room, buffer_of in *; try rewrite Hlm; try done.
      pose proof (st_total _ _ _ _ Hstep1) as Htot. unfold buffer_of in Htot. rewrite Htot.
      change (log_size [_]) with (HEADER_SIZE + 0 + 0). lia. }
    intros rc s' (_ & (l & ->) & _). by apply Hdone. }
  intros s' ->. exists (set_begin c (set_end (- me s) d)). split_and!.
  - rewrite Hlook2. unfold apply_ops. by rewrite Hops1, Hfind, Hd1.
  - rewrite view_set_begin by (rewrite ?length_set_end by done; unfold is_int32; done || lia).
    by rewrite view_set_end.
  - intros r Hr. rewrite view_set_begin by (rewrite ?length_set_end by done; unfold is_int32; done || lia).
    rewrite view_set_end by done. unfold seen, visit_xids, RC.succ. cbn.
    repeat case_decide; try case_bool_decide; done || lia.
Qed.
End recovery.

(** Reading the file hands the records [rs] to [redo] and ends with [rc]. *)
Definition replays {W} (redo : CLogRecord → ST W RC.t) (loop_fuel : nat) (file : memory) (w : W)
    (rs : list CLogRecord) (rc : RC.t) : Prop :=
  match recover_loop redo loop_fuel (MkCLogRecordIterator (MkCLogFile file 0 false) None, w), replay redo rs rc w with
  | Done (r, (_, w')), Done (r', w'') => r = r' ∧ w' = w''
  | Crash, Crash | OutOfFuel, OutOfFuel => True
  | _, _ => False
  end.

(** C7: flushing empties the buffer and puts its records into the file so that recovery
    hands exactly them, in order, to [redo]; when only a first part of the bytes reached
    the file, recovery hands over the records that are whole and ends with [RECORD_EOF] or,
    inside the body of a record, with [IOERR_READ]. *)
Theorem log_roundtrip writen fsync_ok l :
  (∀ c d, writen c d = (d, true)) → Forall built (log_records_ (log_buffer_ l)) →
  contents (log_file_ l) = [] →
  wp (flush_buffer writen fsync_ok) l (λ rc l', rc = (if fsync_ok then RC.SUCCESS else RC.IOERR_SYNC) ∧
    log_records_ (log_buffer_ l') = [] ∧
    (∀ (W : Set) (redo : CLogRecord → ST W RC.t) loop_fuel w,
      (length (log_records_ (log_buffer_ l)) < loop_fuel)%nat →
      replays redo loop_fuel (contents (log_file_ l')) w (log_records_ (log_buffer_ l)) RC.RECORD_EOF) ∧
    (∀ n, (n <= length (contents (log_file_ l')))%nat → ∃ rs1 rs2 rc1,
      log_records_ (log_buffer_ l) = rs1 ++ rs2 ∧ (rc1 = RC.RECORD_EOF ∨ rc1 = RC.IOERR_READ) ∧
      ∀ (W : Set) (redo : CLogRecord → ST W RC.t) loop_fuel w, (length rs1 < loop_fuel)%nat →
        replays redo loop_fuel (take n (contents (log_file_ l'))) w rs1 rc1)).
Proof.
  intros Hwriten Hb Hempty. eapply wp_mono; [by apply wp_flush_buffer|].
  intros rc l' (-> & Hr & _ & Hc & _). rewrite Hempty in Hc. cbn [app] in Hc. rewrite Hc.
  split_and!; [done|done| |].
  - intros W redo loop_fuel w Hfuel. apply (recover_loop_replay redo _ [] RC.RECORD_EOF);
      [done| |split; cbn; [lia|done]| |done].
    + apply torn_header. cbn. unfold sizeof_CLogRecordHeader. lia.
    + unfold unread. cbn. by rewrite drop_0, app_nil_r.
  - intros n Hn. destruct (log_prefix _ n Hb Hn) as (rs1 & rs2 & tail & rc1 & Heq & Ht & Htake).
    exists rs1, rs2, rc1. split_and!; [done|by destruct Ht; [left|right]|].
    intros W redo loop_fuel w Hfuel. rewrite Heq in Hb. apply Forall_app in Hb as [Hb1 _].
    apply (recover_loop_replay redo rs1 tail rc1); [done|done|split; cbn; [lia|done]| |done].
    unfold unread. cbn. by rewrite drop_0.
Qed.

(** ** A concrete database *)
Definition acc_meta : TableMeta.t :=
  match TableMeta.init (Some mvcc_fields) 1 "t" [MkAttrInfo INTS "id" 4 false] with
  | Done (inr m) => m
  | _ => TableMeta.mk 0 "" [] [] 0
  end.
Definition acc_field : FieldMeta.t := FieldMeta.mk "id" INTS false 9 4 true.
Definition acc_index : BplusTreeIndex := MkBplusTreeIndex "i_id" [acc_field] int_index empty_tree.
Definition acc_table : table BplusTreeIndex :=
  MkTable acc_meta (FileState BPFileHeader.initial ∅ ∅ true) [acc_index].
(** begin and end, the null bitmap, then the number *)
Definition acc_record (x : Z) : list Z := [0; 0; 0; 0; 0; 0; 0; 0; 0; x; 0; 0; 0].
Definition acc_area (_ : PageNum) (_ : nat) : list Z := acc_record 0.
Definition acc_log : CLogManager := MkCLogManager (MkCLogBuffer [] 0) (MkCLogFile [] 0 false).
Definition acc_init : session BplusTreeIndex := MkSession new_trx (MkDb {[1 := acc_table]} acc_log 0).
Definition acc_rid : RID.t := RID.mk 1 0.
Definition keep (ops : list Operation.t) : list Operation.t := ops.
Definition write_all (c d : memory) : memory * bool := (d, true).
Abbreviation acc_insert x := (insert_record first_element (λ _, RC.SUCCESS) acc_area 1 1 (acc_record x)).
Definition acc_started : session BplusTreeIndex := after start_if_need acc_init.
Definition acc_inserted : session BplusTreeIndex := after (acc_insert 7) acc_started.
Definition acc_committed : session BplusTreeIndex := after (commit write_all true keep) acc_inserted.
Definition acc_second : session BplusTreeIndex := after start_if_need acc_committed.
Definition no_records : records := λ _ _, None.
Definition acc_version : memory := new_version 1 (acc_record 7).
Definition acc_records : records := rec_set no_records 1 acc_rid (Some acc_version).

Lemma after_run {A S} (c : ST S A) s a s' : c s = Done (a, s') → s' = after c s.
Proof. unfold after. by intros ->. Qed.
Lemma acc_table_wf : mvcc_table (no_records 1) acc_table.
Proof.
  assert (mvcc_meta acc_meta) as Hm by by apply (mvcc_init_meta 1 "t" [MkAttrInfo INTS "id" 4 false]).
  assert (represents (index_handler_ acc_index) []) as Hr by apply empty_tree_represents.
  split; [done| |by left]. split; [apply Hm|apply empty_file_wf|]. constructor; [|done]. split.
  - apply bplus_fits; [apply Hm|reflexivity|by exists []|]. intros f ->%list_elem_of_singleton. left.
  - intros d r (_ & _ & [k Hk]). cbn [index_holds BplusTreeIndex_IndexSpec].
    rewrite (bplus_holds_has acc_index d r k [] Hk Hr). split; [done|]. by intros (d' & Hd' & _).
Qed.
Lemma acc_storable : storable acc_area 1 (rec_size acc_table).
Proof. split; [done|]. split; [done|]. intros h [= <-]. done. Qed.
Lemma acc_room : Forall index_room (indexes_ acc_table).
Proof. constructor; [|done]. vm_compute. done. Qed.
Lemma acc_init_inv : db_inv no_records acc_init.
Proof.
  intros tid t Ht. unfold table_of in Ht. cbn in Ht. apply lookup_singleton_Some in Ht as [<- <-]. apply acc_table_wf.
Qed.
Lemma acc_init_none tid rid : look_of acc_init tid rid = None.
Proof.
  destruct (look_of acc_init tid rid) as [d|] eqn:Hd; [exfalso|done].
  apply look_of_table in Hd as (t & Ht & Hl). unfold table_of in Ht. cbn in Ht.
  apply lookup_singleton_Some in Ht as [_ <-]. unfold table_lookup, file_lookup in Hl. cbn in Hl.
  case_decide; [|done]. by rewrite lookup_empty in Hl.
Qed.
Lemma acc_started_inv : trx_inv no_records acc_started ∧ rec_eq (look_of acc_init) (look_of acc_started).
Proof.
  destruct (wp_start acc_init no_records eq_refl eq_refl ltac:(split; [constructor|done]) ltac:(done) acc_init_inv
    ltac:(split; done)) as (rc & s & Hrun & _ & Hs & Hlook & _).
  - intros tid rid d. by rewrite acc_init_none.
  - unfold acc_started, after. by rewrite Hrun.
Qed.
Lemma acc_started_table : table_of acc_started 1 = Some acc_table.
Proof. reflexivity. Qed.
Lemma acc_inserted_inv : trx_inv acc_records acc_inserted ∧ look_of acc_inserted 1 acc_rid = Some acc_version ∧
  operations_ (trx_ acc_inserted) = [Operation.mk Operation.INSERT 1 acc_rid] ∧
  acc_insert 7 acc_started = Done (inr acc_rid, acc_inserted) ∧
  rec_eq (rec_set (look_of acc_started) 1 acc_rid (Some acc_version)) (look_of acc_inserted).
Proof.
  destruct (wp_trx_insert_record first_element first_element_in (λ _, RC.SUCCESS) (λ _, eq_refl) acc_area 1 (le_n 1)
    no_records acc_started 1 acc_table (acc_record 7) (proj1 acc_started_inv) ltac:(done) acc_started_table acc_storable eq_refl)
    as (res & s & Hrun & Hres); [apply acc_room|done|].
  assert (match acc_insert 7 acc_started with Done (inr rid, s) => rid = acc_rid | _ => False end) as Hrid by (vm_compute; done).
  pose proof (after_run _ _ _ _ Hrun) as Hs. change (s = acc_inserted) in Hs. rewrite Hrun in Hrid.
  destruct res as [|rid]; [exfalso; exact Hrid|]. subst rid s.
  destruct Hres as (_ & Hs & Hlook & Hstep). assert (me acc_started = 1) as Hme by (vm_compute; reflexivity).
  assert (operations_ (trx_ acc_started) = []) as Hops by (vm_compute; reflexivity).
  rewrite Hme in Hs, Hlook. split; [exact Hs|]. split; [|split; [|split; [exact Hrun|exact Hlook]]].
  - rewrite Hlook. unfold rec_set. rewrite decide_True by (split; reflexivity). reflexivity.
  - rewrite (st_trx _ _ _ _ Hstep). cbn [operations_]. rewrite Hops. reflexivity.
Qed.

Lemma acc_inserted_look tid rid d : look_of acc_inserted tid rid = Some d → tid = 1 ∧ rid = acc_rid ∧ d = acc_version.
Proof.
  destruct acc_inserted_inv as (_ & _ & _ & _ & Hlook). rewrite Hlook. unfold rec_set.
  case_decide as Hd; [intros [= <-]; by destruct Hd|]. by rewrite (proj2 acc_started_inv), acc_init_none.
Qed.
Lemma trx_insert_correct_witness :
  wp (acc_insert 7) acc_started (λ res s', let d := new_version (me acc_started) (acc_record 7) in
    match res with
    | inr rid => look_of acc_started 1 rid = None ∧ trx_inv (rec_set no_records 1 rid (Some d)) s' ∧
        rec_eq (rec_set (look_of acc_started) 1 rid (Some d)) (look_of s') ∧
        step acc_started s' (Operation.mk Operation.INSERT 1 rid :: operations_ (trx_ acc_started))
          [data_log CLogType.INSERT (me acc_started) 1 rid d]
    | inl rc => (rc = RC.RECORD_DUPLICATE_KEY ∨ rc = RC.BUFFERPOOL_NOBUF) ∧ trx_inv no_records s' ∧
        rec_eq (look_of acc_started) (look_of s') ∧ step acc_started s' (operations_ (trx_ acc_started)) []
    end).
Proof.
  apply (trx_insert_correct first_element (λ _, RC.SUCCESS) acc_area 1 no_records acc_started 1 acc_table (acc_record 7));
    [apply first_element_in|reflexivity|exact (le_n 1)|apply acc_started_inv|split; done|apply acc_started_table
    |apply acc_storable|reflexivity|apply acc_room|vm_compute; reflexivity].
Defined.
Lemma trx_commit_correct_witness : let c := incr32 (current_trx_id_ (db_ acc_inserted)) in
  wp (commit write_all true keep) acc_inserted (λ rc s', rc = RC.SUCCESS ∧
    db_inv acc_records s' ∧ trx_ s' = MkMvccTrx (me acc_inserted) false false [] ∧ current_trx_id_ (db_ s') = c ∧
    (∀ tid rid, view <$> look_of s' tid rid =
       match op_find (operations_ (trx_ acc_inserted)) tid rid with
       | Some op => commit_of op c <$> (view <$> look_of acc_inserted tid rid)
       | None => view <$> look_of acc_inserted tid rid
       end) ∧
    (trx_inv acc_records acc_inserted → ∀ tid rid, view <$> look_of s' tid rid =
       commit_version (me acc_inserted) c <$> (view <$> look_of acc_inserted tid rid)) ∧
    log_records_ (buffer_of s') = [] ∧ total_size_ (buffer_of s') = 0 ∧
    contents (log_file_ (log_manager_ (db_ s'))) = contents (log_file_ (log_manager_ (db_ acc_inserted))) ++
      log_bytes (log_records_ (buffer_of acc_inserted) ++ [CLogRecord.build_commit_record (me acc_inserted) c])).
Proof.
  apply (trx_commit_correct write_all true keep acc_records acc_inserted);
    [reflexivity|reflexivity|apply trx_inv_ready, acc_inserted_inv|vm_compute; reflexivity
    |split; vm_compute; [discriminate|reflexivity]|vm_compute; reflexivity].
Defined.
(** The insertion is rolled back as if its entry were still in the index. *)
Example rollback_of_own_delete :
  match delete_record 1 acc_rid acc_inserted with
  | Done (rc, s) => rc = RC.SUCCESS ∧ rollback keep s = Crash
  | _ => False
  end.
Proof. vm_compute. by split. Qed.
Lemma own_delete_survives_witness :
  wp (delete_record 1 acc_rid ;;; commit_with_trx_id write_all true keep 2) acc_inserted (λ rc s',
    ∃ d', look_of s' 1 acc_rid = Some d' ∧
      view d' = Version 2 (- me acc_inserted) (v_payload (view acc_version)) ∧
      ∀ r, r ≠ me acc_inserted → seen r (Some (view d')) = true).
Proof.
  apply (own_delete_survives write_all true keep acc_records acc_inserted 1 acc_rid acc_version acc_version 2);
    [reflexivity|reflexivity|apply acc_inserted_inv|split; done|done| |apply acc_inserted_inv|reflexivity
    |unfold acc_records, rec_set; by rewrite decide_True|vm_compute; reflexivity].
  destruct acc_inserted_inv as (_ & _ & -> & _). left.
Defined.
Definition two_logs : CLogManager :=
  MkCLogManager (MkCLogBuffer [CLogRecord.build_mtr_record CLogType.MTR_BEGIN 1;
    data_log CLogType.INSERT 1 1 acc_rid acc_version] 61) (MkCLogFile [] 0 false).
Lemma log_roundtrip_witness :
  wp (flush_buffer write_all true) two_logs (λ rc l', rc = RC.SUCCESS ∧ log_records_ (log_buffer_ l') = [] ∧
    (∀ (W : Set) (redo : CLogRecord → ST W RC.t) loop_fuel w,
      (length (log_records_ (log_buffer_ two_logs)) < loop_fuel)%nat →
      replays redo loop_fuel (contents (log_file_ l')) w (log_records_ (log_buffer_ two_logs)) RC.RECORD_EOF) ∧
    (∀ n, (n <= length (contents (log_file_ l')))%nat → ∃ rs1 rs2 rc1,
      log_records_ (log_buffer_ two_logs) = rs1 ++ rs2 ∧ (rc1 = RC.RECORD_EOF ∨ rc1 = RC.IOERR_READ) ∧
      ∀ (W : Set) (redo : CLogRecord → ST W RC.t) loop_fuel w, (length rs1 < loop_fuel)%nat →
        replays redo loop_fuel (take n (contents (log_file_ l'))) w rs1 rc1)).
Proof.
  apply (log_roundtrip write_all true two_logs); [reflexivity| |reflexivity].
  constructor; [|constructor; [|constructor]].
  - apply built_mtr; [by left|split; done].
  - apply data_log_built; [by left|split; done|split; done|split; split; done|vm_compute; reflexivity].
Defined.

(** *** The second transaction *)
Definition acc_live : memory := set_begin 2 acc_version.
Lemma acc_second_inv : trx_inv acc_records acc_second ∧ me acc_second = 3 ∧ operations_ (trx_ acc_second) = [].
Proof.
  destruct (wp_commit write_all true ltac:(reflexivity) keep ltac:(reflexivity) acc_inserted acc_records)
    as (rc & s & Hrun & _ & Hinv & Htrx & Hid & _ & Hall & Hlog & Htot & _);
    [apply trx_inv_ready, acc_inserted_inv|vm_compute; reflexivity|split; vm_compute; [discriminate|reflexivity]|vm_compute; reflexivity|].
  pose proof (Hall (proj1 acc_inserted_inv)) as Hview. clear Hall.
  pose proof (after_run _ _ _ _ Hrun) as Hs. change (s = acc_committed) in Hs. subst s.
  assert (me acc_inserted = 1 ∧ incr32 (current_trx_id_ (db_ acc_inserted)) = 2) as [Hme Hc] by (vm_compute; by split).
  rewrite Hc in Hid, Hview. rewrite Hme in Htrx, Hview.
  assert (incr32 (current_trx_id_ (db_ acc_committed)) = 3) as Hi by (rewrite Hid; reflexivity).
  destruct (wp_start acc_committed acc_records) as (rc' & s & Hrun' & _ & Hinv' & _ & Htrx' & _); rewrite ?Htrx, ?Hi.
  - reflexivity.
  - reflexivity.
  - split; unfold buffer_of in *; rewrite ?Hlog, ?Htot; [constructor|reflexivity].
  - unfold log_room. rewrite Htot. done.
  - exact Hinv.
  - split; done.
  - intros tid rid d Hd. specialize (Hview tid rid). rewrite Hd in Hview.
    destruct (look_of acc_inserted tid rid) as [d0|] eqn:Hd0; [|discriminate Hview].
    apply acc_inserted_look in Hd0 as (_ & _ & ->). cbn [fmap option_fmap option_map] in Hview.
    injection Hview as H1 H2 _. unfold view. cbn [v_begin v_end]. rewrite H1, H2. vm_compute. split; discriminate.
  - pose proof (after_run _ _ _ _ Hrun') as Hs. change (s = acc_second) in Hs. subst s.
    split; [exact Hinv'|]. unfold me. rewrite Htrx'. rewrite Hi. split; reflexivity.
Qed.
Lemma acc_records_at : acc_records 1 acc_rid = Some acc_version.
Proof. unfold acc_records, rec_set. by rewrite decide_True. Qed.
Lemma acc_second_look : look_of acc_second 1 acc_rid = Some acc_live.
Proof. vm_compute. reflexivity. Qed.
Definition acc_second_table : table BplusTreeIndex := default acc_table (table_of acc_second 1).
Lemma acc_second_table_eq : table_of acc_second 1 = Some acc_second_table.
Proof.
  destruct (look_of_table _ _ _ _ acc_second_look) as (t & Ht & _). unfold acc_second_table. by rewrite Ht.
Qed.
Lemma trx_delete_correct_witness :
  wp (delete_record 1 acc_rid) acc_second (λ rc s', rc = RC.SUCCESS ∧
    if decide (v_end (view acc_live) = max_trx_id) then
      trx_inv (rec_set acc_records 1 acc_rid None) s' ∧
      rec_eq (rec_set (look_of acc_second) 1 acc_rid (Some (set_end (- me acc_second) acc_live))) (look_of s') ∧
      step acc_second s' (Operation.mk Operation.DELETE 1 acc_rid :: operations_ (trx_ acc_second))
        [data_log CLogType.DELETE (me acc_second) 1 acc_rid []]
    else trx_inv acc_records s' ∧ rec_eq (look_of acc_second) (look_of s') ∧
      step acc_second s' (operations_ (trx_ acc_second)) []).
Proof.
  apply (trx_delete_correct acc_records acc_second 1 acc_rid acc_live acc_version);
    [apply acc_second_inv|split; done|apply acc_second_look|apply acc_records_at
    |vm_compute; reflexivity|vm_compute; reflexivity|].
  destruct acc_second_inv as (_ & _ & ->). apply not_elem_of_nil.
Defined.
Lemma trx_redo_correct_witness :
  wp (redo write_all true keep (data_log CLogType.DELETE (me acc_second) 1 acc_rid [])) acc_second (λ rc s',
    rc = RC.SUCCESS ∧ trx_inv (rec_set acc_records 1 acc_rid (acc_records 1 acc_rid)) s' ∧
    rec_eq (rec_set (look_of acc_second) 1 acc_rid (Some (set_end (- me acc_second) acc_live))) (look_of s') ∧
    step acc_second s' (Operation.mk Operation.DELETE 1 acc_rid :: operations_ (trx_ acc_second)) []).
Proof.
  apply (proj2 (trx_redo_correct write_all true keep acc_records acc_second 1 acc_rid (proj1 acc_second_inv)));
    [apply acc_second_look|reflexivity|].
  destruct acc_second_inv as (_ & _ & ->). apply not_elem_of_nil.
Defined.
Lemma room_for_update_run {I} `{!IndexOps I} `{!IndexSpec I} begin flush_page area fuel (s : session I) tid rid record :
  match visit_record tid rid false s with
  | Done (_, s1) =>
      match end_old tid rid s1 with
      | Done (_, s2) =>
          match table_of s2 tid with
          | Some t2 => rooms (indexes_ t2) ∧
              match Table.insert_record (Some mvcc_fields) begin flush_page area fuel record t2 with
              | Done (inl _, t3) => rooms (indexes_ t3)
              | _ => True
              end
          | None => True
          end
      | _ => True
      end
  | _ => True
  end → room_for_update begin flush_page area fuel s tid rid record.
Proof.
  intros Hr rc1 s1 rc2 s2 t2 H1 H2 Ht. rewrite H1, H2, Ht in Hr. destruct Hr as [Hr2 Hr3].
  split; [by apply rooms_all|]. intros rc t3 H3. rewrite H3 in Hr3. by apply rooms_all.
Qed.
Lemma trx_update_correct_witness :
  wp (update_record first_element (λ _, RC.SUCCESS) acc_area 1 1 acc_rid (acc_record 9)) acc_second (λ rc s',
    let old := rec_set (look_of acc_second) 1 acc_rid (Some (set_end (- me acc_second) acc_live)) in
    let new := new_version (me acc_second) (acc_record 9) in
    (rc = RC.SUCCESS ∧ ∃ rid', look_of acc_second 1 rid' = None ∧
       trx_inv (rec_set (rec_set acc_records 1 acc_rid None) 1 rid' (Some new)) s' ∧
       rec_eq (rec_set old 1 rid' (Some new)) (look_of s') ∧
       step acc_second s' (Operation.mk Operation.INSERT 1 rid' :: Operation.mk Operation.DELETE 1 acc_rid ::
           operations_ (trx_ acc_second))
         [data_log CLogType.DELETE (me acc_second) 1 acc_rid []; data_log CLogType.INSERT (me acc_second) 1 rid' new]) ∨
    ((rc = RC.RECORD_DUPLICATE_KEY ∨ rc = RC.BUFFERPOOL_NOBUF) ∧ rec_eq old (look_of s') ∧
       step acc_second s' (operations_ (trx_ acc_second)) [])).
Proof.
  assert (rec_size acc_second_table = 13) as Hsize by (vm_compute; reflexivity).
  apply (trx_update_correct first_element (λ _, RC.SUCCESS) acc_area 1 acc_records acc_second 1 acc_rid
    acc_second_table acc_live acc_version (acc_record 9));
    [apply first_element_in|reflexivity|exact (le_n 1)|apply acc_second_inv|split; done|apply acc_second_table_eq
    |apply acc_second_look|apply acc_records_at
    | | | | | | ].
  { destruct acc_second_inv as (_ & -> & _). vm_compute. reflexivity. }
  { destruct acc_second_inv as (_ & _ & ->). apply not_elem_of_nil. }
  { rewrite Hsize. apply acc_storable. }
  { rewrite Hsize. reflexivity. }
  2:{ rewrite Hsize. vm_compute. reflexivity. }
  apply room_for_update_run. vm_compute. split; [split; exact Logic.I|exact Logic.I].
Defined.
