(* ===== verification/SqlValue.v ===== *)
(** * Values ([sql/parser/value.h], [sql/parser/value.cpp], [deps/common/lang/string.cpp])

    A [Value] as it lies in memory: its type, its length, the four bytes of the union
    [num_value_] and the bytes of the string.  What the C and C++ libraries do to convert
    floating point numbers from and to text, and [std::regex_match], is the class
    [LibText].  [uninit] are the bytes of a [num_value_] no constructor has written.  A
    function has no value where the code asserts, throws, or where the language leaves it
    undefined. *)
From S2P Require Import Prelude RidKey Comparator.
From Stdlib Require Import ZArith Lia Floats.SpecFloat.
From stdpp Require Import base option list strings.
Local Open Scope Z_scope.

(** ** [CompOp] *)
Module CompOp.
Inductive t : Set :=
  EQUAL_TO | LESS_EQUAL | NOT_EQUAL | LESS_THAN | GREAT_EQUAL | GREAT_THAN | LIKE | NOT_LIKE
| IS | IS_NOT | IN | NOT_IN | EXISTS | NOT_EXISTS | NO_OP.
#[global] Instance t_eq_dec : EqDecision t.
Proof. solve_decision. Defined.
End CompOp.

(** ** The library functions on text *)
Class LibText := {
  (** [std::stof]: [None] when it throws *)
  stof : memory → option spec_float;
  (** [>>] of a stream into a [float]: [None] when the stream fails *)
  stream_float : memory → option spec_float;
  (** [<<] of a [float] into a stream, and [snprintf("%.2f")] *)
  show_float : spec_float → memory;
  show_fixed2 : spec_float → memory;
  (** [std::regex_match] of a string with a pattern: [None] when the pattern is refused *)
  regex_match : memory → memory → option bool
}.
Class Uninit := uninit : memory.

(** ** Numbers *)
Definition float_of_Z (x : Z) : spec_float := binary_normalize 24 128 x 0 false.
Definition bits_of_float (f : spec_float) : Z :=
  match f with
  | S754_zero s => if s then 2 ^ 31 else 0
  | S754_infinity s => (if s then 2 ^ 31 else 0) + 255 * 2 ^ 23
  | S754_nan => 255 * 2 ^ 23 + 2 ^ 22
  | S754_finite s m e =>
      (if s then 2 ^ 31 else 0) +
      (if decide (Zpos m < 2 ^ 23) then Zpos m else (e + 150) * 2 ^ 23 + (Zpos m - 2 ^ 23))
  end.
Definition store_float (f : spec_float) : memory := store32 (bits_of_float f).
(** [(int)f] and [static_cast<int>(round(f))] *)
Definition to_int32 (z : Z) : option Z := if decide (- 2 ^ 31 <= z < 2 ^ 31) then Some z else None.
Definition trunc_float (f : spec_float) : option Z :=
  match f with
  | S754_zero _ => Some 0
  | S754_finite s m e =>
      to_int32 (cond_Zopp s (if decide (0 <= e) then Zpos m * 2 ^ e else Zpos m / 2 ^ (- e)))
  | _ => None
  end.
Definition round_float (f : spec_float) : option Z :=
  match f with
  | S754_zero _ => Some 0
  | S754_finite s m e =>
      to_int32 (cond_Zopp s (if decide (0 <= e) then Zpos m * 2 ^ e
                             else (2 * Zpos m + 2 ^ (- e)) / (2 * 2 ^ (- e))))
  | _ => None
  end.
(** [val >= EPSILON || val <= -EPSILON] *)
Definition float_nonzero (f : spec_float) : bool :=
  SFleb EPSILON (to_double f) || SFleb (to_double f) (SFopp EPSILON).

(** ** Decimal text *)
Definition char_of (a : Ascii.ascii) : Z := Z.of_N (Ascii.N_of_ascii a).
Definition text (s : string) : memory := char_of <$> String.list_ascii_of_string s.
Definition is_digit (c : Z) : bool := bool_decide (48 <= c <= 57).
Definition is_space (c : Z) : bool := bool_decide (c = 32 ∨ 9 <= c <= 13).
Fixpoint scan_digits (s : memory) (acc : Z) : Z * memory :=
  match s with
  | c :: s' => if is_digit c then scan_digits s' (10 * acc + (c - 48)) else (acc, s)
  | [] => (acc, s)
  end.
Fixpoint skip_space (s : memory) : memory :=
  match s with c :: s' => if is_space c then skip_space s' else s | [] => s end.
(** a decimal number as [strtol] reads it, with what follows it: blanks, a sign, digits *)
Definition scan_number (s : memory) : option (Z * memory) :=
  let s := skip_space s in
  let '(negative, s) := match s with
    | c :: s' => if decide (c = 45) then (true, s') else if decide (c = 43) then (false, s') else (false, s)
    | [] => (false, s)
    end in
  match s with
  | c :: _ =>
      if is_digit c then let '(n, rest) := scan_digits s 0 in Some (if negative : bool then - n else n, rest)
      else None
  | [] => None
  end.
(** [(int)std::stol(s)], [stol] throwing outside of 64 bits *)
Definition stol (s : memory) : option Z :=
  '(n, _) ← scan_number s; if decide (- 2 ^ 63 <= n < 2 ^ 63) then Some n else None.
Definition int_of_long (n : Z) : Z := int32 (n mod 2 ^ 32).
(** [>>] of a stream into an [int], 0 when the stream fails *)
Definition stream_int (s : memory) : Z :=
  match scan_number s with
  | Some (n, _) => if decide (- 2 ^ 31 <= n < 2 ^ 31) then n else 0
  | None => 0
  end.
(** [<<] of an [int] into a stream *)
Fixpoint show_digits (fuel : nat) (n : Z) (acc : memory) : memory :=
  match fuel with
  | O => acc
  | S fuel =>
      let acc := 48 + n mod 10 :: acc in
      if decide (n < 10) then acc else show_digits fuel (n / 10) acc
  end.
Definition show_int (n : Z) : memory :=
  if decide (n < 0) then 45 :: show_digits 10 (- n) [] else show_digits 10 n [].

(** ** Dates *)
(** [sscanf(s, "%d-%d-%d", &year, &month, &day)]: what was assigned; none at all when a
    number is out of range *)
Definition scan_int (s : memory) : option (option (Z * memory)) :=
  match scan_number s with
  | Some (n, rest) => if decide (- 2 ^ 31 <= n < 2 ^ 31) then Some (Some (n, rest)) else None
  | None => Some None
  end.
Definition scan_dash_int (s : memory) : option (option (Z * memory)) :=
  match s with c :: s => if decide (c = 45) then scan_int s else Some None | [] => Some None end.
Definition scan_date (s : memory) : option (option Z * option Z * option Z) :=
  r1 ← scan_int s;
  match r1 with
  | None => Some (None, None, None)
  | Some (year, s) =>
      r2 ← scan_dash_int s;
      match r2 with
      | None => Some (Some year, None, None)
      | Some (month, s) =>
          r3 ← scan_dash_int s;
          match r3 with
          | None => Some (Some year, Some month, None)
          | Some (day, _) => Some (Some year, Some month, Some day)
          end
      end
  end.
Definition month_days : list Z := [31; 28; 31; 30; 31; 30; 31; 31; 30; 31; 30; 31].
Definition is_leap (year : Z) : bool :=
  bool_decide (Z.rem year 400 = 0) || (bool_decide (Z.rem year 4 = 0) && bool_decide (Z.rem year 100 ≠ 0)).
(** [check_date], which reads its variables from left to right *)
Definition check_date (year month day : option Z) : option bool :=
  y ← year;
  if decide (y > 3999 ∨ y < 0) then Some false
  else
    mo ← month;
    if decide (mo > 12 ∨ mo < 1) then Some false
    else
      d ← day;
      if decide (d < 0 ∨ d > 31) then Some false
      else
        days ← month_days !! Z.to_nat (mo - 1);
        Some (if is_leap y then bool_decide (d <= days ∨ (mo = 2 ∧ d = 29)) else bool_decide (d <= days)).
Definition convert_string_to_date (s : memory) : option Z :=
  '(year, month, day) ← scan_date s;
  ok ← check_date year month day;
  if negb ok then Some (-1)
  else y ← year; mo ← month; d ← day; Some (y * 10000 + mo * 100 + d).
Definition pad2 (s : memory) : memory := replicate (2 - length s) 48 ++ s.
Definition date_to_string (date : Z) : memory :=
  show_int (Z.quot date 10000) ++ [45] ++ pad2 (show_int (Z.rem (Z.quot date 100) 100)) ++ [45] ++
    pad2 (show_int (Z.rem date 100)).
(** [double_to_str] *)
Definition strip_zeros (s : memory) : memory :=
  let s := rev s in
  let s := (fix go s := match s with c :: s' => if decide (c = 48) then go s' else s | [] => s end) s in
  rev (match s with c :: s' => if decide (c = 46) then s' else s | [] => s end).
(** a C string: the bytes before the first NUL, at most [n] *)
Fixpoint c_string (s : memory) : option memory :=
  match s with
  | [] => None
  | c :: s => if decide (c = 0) then Some [] else cons c <$> c_string s
  end.
Fixpoint strn_string (n : nat) (s : memory) : option memory :=
  match n with
  | O => Some []
  | S n => match s with
           | [] => None
           | c :: s => if decide (c = 0) then Some [] else cons c <$> strn_string n s
           end
  end.

(** ** [Value] *)
Record Value : Set := MkValue {
  attr_type_ : AttrType;
  length_ : Z;
  num_value_ : memory;
  str_value_ : memory
}.
#[global] Instance Value_eq_dec : EqDecision Value.
Proof. solve_decision. Defined.

Module Val.
Definition set_int (val : Z) (v : Value) : Value := MkValue INTS 4 (store32 val) (str_value_ v).
Definition set_float (val : spec_float) (v : Value) : Value := MkValue FLOATS 4 (store_float val) (str_value_ v).
Definition set_boolean (val : bool) (v : Value) : Value :=
  MkValue BOOLEANS 1 ((if val then 1 else 0) :: tail (num_value_ v)) (str_value_ v).
Definition set_date (date : Z) (v : Value) : Value := MkValue DATES 4 (store32 date) (str_value_ v).
Definition set_null (v : Value) : Value := MkValue NULLS 0 (num_value_ v) (str_value_ v).
(** [set_string] and [set_text] *)
Definition set_chars (type : AttrType) (s : memory) (len : Z) (v : Value) : option Value :=
  str ← (if decide (len > 0) then strn_string (Z.to_nat len) s else c_string s);
  Some (MkValue type (Z.of_nat (length str)) (num_value_ v) str).
Definition set_string := set_chars CHARS.
Definition set_text := set_chars TEXTS.
(** [str.c_str()] *)
Definition c_str (s : memory) : memory := s ++ [0].

Section values.
Context `{!LibText} `{!Uninit}.

(** the constructors *)
Definition new : Value := MkValue NULLS 0 uninit [].
Definition of_type (type : AttrType) : Value := MkValue type 0 uninit [].
Definition of_int (val : Z) : Value := set_int val new.
Definition of_float (val : spec_float) : Value := set_float val new.
Definition of_bool (val : bool) : Value := set_boolean val new.
Definition of_string (s : memory) : Value := MkValue CHARS (Z.of_nat (length s)) uninit s.
Definition set_type (type : AttrType) (v : Value) : Value :=
  MkValue type (length_ v) (num_value_ v) (str_value_ v).

Definition set_data (data : memory) (len : Z) (v : Value) : option Value :=
  match attr_type_ v with
  | TEXTS => set_text data len v
  | CHARS => set_string data len v
  | INTS => x ← load_bytes 0 4 data; Some (MkValue INTS len x (str_value_ v))
  | FLOATS => x ← load_bytes 0 4 data; Some (MkValue FLOATS len x (str_value_ v))
  | BOOLEANS =>
      x ← load_int data;
      Some (MkValue BOOLEANS len ((if decide (x ≠ 0) then 1 else 0) :: tail (num_value_ v)) (str_value_ v))
  | DATES => if decide (len = 4) then x ← load_int data; Some (set_date x v) else None
  | NULLS | UNDEFINED => Some v
  end.

Definition is_null (v : Value) : bool := bool_decide (attr_type_ v = NULLS).
Definition data (v : Value) : memory :=
  match attr_type_ v with
  | TEXTS | CHARS => c_str (str_value_ v)
  | _ => num_value_ v
  end.
Definition bool_value (v : Value) : option bool := b ← head (num_value_ v); Some (bool_decide (b ≠ 0)).

Definition to_string (v : Value) : option memory :=
  match attr_type_ v with
  | INTS => show_int <$> load_int (num_value_ v)
  | FLOATS => f ← load_float (num_value_ v); Some (strip_zeros (show_fixed2 (to_double f)))
  | BOOLEANS => b ← bool_value v; Some (show_int (if b : bool then 1 else 0))
  | TEXTS | CHARS => Some (str_value_ v)
  | DATES => date_to_string <$> load_int (num_value_ v)
  | NULLS => Some (text "NULL")
  | UNDEFINED => Some []
  end.

Definition get_int (v : Value) : option Z :=
  match attr_type_ v with
  | TEXTS | CHARS => Some (match stol (str_value_ v) with Some n => int_of_long n | None => 0 end)
  | INTS | DATES => load_int (num_value_ v)
  | FLOATS => load_float (num_value_ v) ≫= trunc_float
  | BOOLEANS => b ← bool_value v; Some (if b : bool then 1 else 0)
  | NULLS | UNDEFINED => Some 0
  end.
Definition get_float (v : Value) : option spec_float :=
  match attr_type_ v with
  | TEXTS | CHARS => Some (default (S754_zero false) (stof (str_value_ v)))
  | INTS | DATES => float_of_Z <$> load_int (num_value_ v)
  | FLOATS => load_float (num_value_ v)
  | BOOLEANS => b ← bool_value v; Some (float_of_Z (if b : bool then 1 else 0))
  | NULLS | UNDEFINED => Some (S754_zero false)
  end.
Definition get_boolean (v : Value) : option bool :=
  match attr_type_ v with
  | TEXTS | CHARS =>
      Some (match stof (str_value_ v) with
            | Some val =>
                if float_nonzero val then true
                else match stol (str_value_ v) with
                     | Some n => if decide (int_of_long n ≠ 0) then true else bool_decide (str_value_ v ≠ [])
                     | None => bool_decide (str_value_ v ≠ [])
                     end
            | None => bool_decide (str_value_ v ≠ [])
            end)
  | INTS => x ← load_int (num_value_ v); Some (bool_decide (x ≠ 0))
  | FLOATS => float_nonzero <$> load_float (num_value_ v)
  | BOOLEANS => bool_value v
  | NULLS | DATES | UNDEFINED => Some false
  end.
Definition get_date (v : Value) : option Z := load_int (num_value_ v).

Definition set_value (value v : Value) : option Value :=
  match attr_type_ value with
  | INTS => x ← get_int value; Some (set_int x v)
  | FLOATS => f ← get_float value; Some (set_float f v)
  | CHARS => s ← to_string value; set_string (c_str s) 0 v
  | TEXTS => set_text (c_str (str_value_ value)) 0 v
  | BOOLEANS => b ← get_boolean value; Some (set_boolean b v)
  | DATES => x ← get_date value; Some (set_date x v)
  | NULLS => Some (set_null v)
  | UNDEFINED => None
  end.

(** [type_cast]: whether it succeeds, and the value *)
Definition type_cast (target : AttrType) (v : Value) : option (bool * Value) :=
  if decide (attr_type_ v = target) then Some (true, v)
  else
    match target, attr_type_ v with
    | INTS, FLOATS => x ← load_float (num_value_ v) ≫= round_float; Some (true, set_int x v)
    | INTS, (CHARS | TEXTS) =>
        Some (true, MkValue INTS 4 (store32 (stream_int (str_value_ v))) [])
    | FLOATS, INTS => x ← load_int (num_value_ v); Some (true, set_float (float_of_Z x) v)
    | FLOATS, (CHARS | TEXTS) =>
        Some (true, set_float (default (S754_zero false) (stream_float (str_value_ v))) v)
    | CHARS, INTS =>
        x ← load_int (num_value_ v); v' ← set_string (c_str (show_int x)) 0 v; Some (true, v')
    | CHARS, FLOATS =>
        f ← load_float (num_value_ v); v' ← set_string (c_str (show_float f)) 0 v; Some (true, v')
    | CHARS, DATES =>
        val ← convert_string_to_date (c_str (str_value_ v));
        Some (if decide (val = -1) then (false, v) else (true, set_date val v))
    | TEXTS, CHARS => Some (true, set_type TEXTS v)
    | _, _ => Some (false, v)
    end.

Definition add (v1 v2 : Value) : option Value :=
  if is_null v1 || is_null v2 then Some new
  else
    match attr_type_ v1, attr_type_ v2 with
    | INTS, INTS =>
        x ← get_int v1; y ← get_int v2; z ← to_int32 (x + y); Some (of_int z)
    | INTS, FLOATS | FLOATS, INTS | FLOATS, FLOATS =>
        x ← get_float v1; y ← get_float v2; Some (of_float (SFadd 24 128 x y))
    | _, _ => None
    end.

(** [string_match]: the pattern, and the match *)
Definition like_pattern (s : memory) : memory :=
  mjoin ((λ c, if decide (c = 37) then text "[^']*" else if decide (c = 95) then text "[^']{1}" else [c]) <$> s).
Definition string_match (s1 s2 : memory) : option Z :=
  ok ← regex_match s1 (like_pattern s2); Some (if ok : bool then 0 else -1).

Definition compare_strings (s1 s2 : memory) : option Z :=
  compare_string (c_str s1) (length s1) (c_str s2) (length s2).
(** the comparison of values of one type *)
Definition compare_same (like : bool) (v1 v2 : Value) : option Z :=
  match attr_type_ v1 with
  | INTS => compare_int (num_value_ v1) (num_value_ v2)
  | FLOATS => compare_float (num_value_ v1) (num_value_ v2)
  | TEXTS | CHARS =>
      if like then string_match (str_value_ v1) (str_value_ v2)
      else compare_strings (str_value_ v1) (str_value_ v2)
  | DATES => compare_date (num_value_ v1) (num_value_ v2)
  | BOOLEANS => compare_int (num_value_ v1) (num_value_ v2)
  | NULLS | UNDEFINED => Some 0
  end.
Definition cast_to_float (v : Value) : option memory :=
  '(_, v) ← type_cast FLOATS v; Some (num_value_ v).
(** [None] of the result: the types cannot be compared.  Between a number and a string
    [self] is a fresh value and the string is not looked at. *)
Definition compare_values (like : bool) (v1 v2 : Value) : option (option Z) :=
  if decide (attr_type_ v1 = attr_type_ v2) then Some <$> compare_same like v1 v2
  else
    match attr_type_ v1, attr_type_ v2 with
    | INTS, FLOATS =>
        x ← load_int (num_value_ v1); Some <$> compare_float (store_float (float_of_Z x)) (num_value_ v2)
    | FLOATS, INTS =>
        x ← load_int (num_value_ v2); Some <$> compare_float (num_value_ v1) (store_float (float_of_Z x))
    | DATES, CHARS =>
        temp ← convert_string_to_date (data v2); Some <$> compare_date (num_value_ v1) (store32 temp)
    | (FLOATS | INTS), CHARS =>
        self ← cast_to_float new; oppsite ← cast_to_float v1; Some <$> compare_float self oppsite
    | CHARS, (INTS | FLOATS) =>
        self ← cast_to_float v1; oppsite ← cast_to_float v2; Some <$> compare_float self oppsite
    | _, _ => Some None
    end.
Definition decide_op (op : CompOp.t) (cmp_result : Z) : bool :=
  match op with
  | CompOp.EQUAL_TO | CompOp.LIKE => bool_decide (0 = cmp_result)
  | CompOp.LESS_EQUAL => bool_decide (cmp_result <= 0)
  | CompOp.NOT_EQUAL | CompOp.NOT_LIKE => bool_decide (cmp_result ≠ 0)
  | CompOp.LESS_THAN => bool_decide (cmp_result < 0)
  | CompOp.GREAT_EQUAL => bool_decide (cmp_result >= 0)
  | CompOp.GREAT_THAN => bool_decide (cmp_result > 0)
  | _ => false
  end.
Definition compare (v1 : Value) (op : CompOp.t) (v2 : Value) : option bool :=
  match op with
  | CompOp.IS => Some (is_null v1 && is_null v2)
  | CompOp.IS_NOT => Some (bool_decide (attr_type_ v1 ≠ attr_type_ v2) && is_null v2)
  | _ =>
      if is_null v1 || is_null v2 then Some false
      else
        r ← compare_values (bool_decide (op = CompOp.LIKE ∨ op = CompOp.NOT_LIKE)) v1 v2;
        Some (match r with Some cmp_result => decide_op op cmp_result | None => false end)
  end.

(** [compare_value], the order of ORDER BY *)
Definition op_of_sign (x : Z) : CompOp.t :=
  if decide (x = 0) then CompOp.EQUAL_TO else if decide (x < 0) then CompOp.LESS_THAN else CompOp.GREAT_THAN.
Definition compare_value (left right : Value) : option CompOp.t :=
  if decide (attr_type_ left ≠ attr_type_ right) then
    Some (if negb (is_null left) && negb (is_null right) then CompOp.NO_OP
          else if is_null left then CompOp.LESS_THAN else CompOp.GREAT_THAN)
  else
    match attr_type_ left with
    | NULLS => Some CompOp.EQUAL_TO
    | UNDEFINED => Some CompOp.NO_OP
    | _ => op_of_sign <$> compare_same false left right
    end.
Definition eq (v1 v2 : Value) : option bool := op ← compare_value v1 v2; Some (bool_decide (op = CompOp.EQUAL_TO)).
Definition lt (v1 v2 : Value) : option bool := op ← compare_value v1 v2; Some (bool_decide (op = CompOp.LESS_THAN)).
End values.
End Val.
