(* ===== verification/SqlValueCorrect.v ===== *)
(** * Values: text, dates and order

    A number or a date written as text is read back; dates are encoded so that their
    order is that of the calendar; [compare_value] is a total order up to equality on the
    values of a column of integers, dates, booleans or strings of 7-bit characters, nulls
    first; [compare] follows it, nulls apart. *)
From S2P Require Import Prelude RidKey Comparator SqlValue.
From Stdlib Require Import ZArith Lia.
From stdpp Require Import base option list strings.
Local Open Scope Z_scope.

(** ** Decimal digits *)
Lemma is_digit_of n : 0 <= n < 10 → is_digit (48 + n) = true.
Proof. intros. apply bool_decide_eq_true_2. lia. Qed.
Lemma digit_no_space c : is_digit c = true → is_space c = false.
Proof.
  unfold is_digit, is_space. intros H%bool_decide_eq_true_1. apply bool_decide_eq_false_2. lia.
Qed.
(** what may follow a number *)
Definition no_digit (rest : memory) : Prop := ∀ c, head rest = Some c → is_digit c = false.
Lemma scan_digits_end rest a : no_digit rest → scan_digits rest a = (a, rest).
Proof. destruct rest as [|c rest]; [done|]. intros H. cbn. by rewrite (H c). Qed.

Lemma show_digits_app fuel n acc rest :
  show_digits fuel n (acc ++ rest) = show_digits fuel n acc ++ rest.
Proof.
  revert n acc. induction fuel as [|fuel IH]; intros n acc; [done|]. cbn [show_digits].
  case_decide; [done|]. apply (IH _ (_ :: _)).
Qed.
Lemma scan_show_digits fuel n acc a :
  0 <= n < 10 ^ Z.of_nat fuel →
  ∃ k, scan_digits (show_digits fuel n acc) a = scan_digits acc (a * 10 ^ Z.of_nat k + n).
Proof.
  revert n acc a. induction fuel as [|fuel IH]; intros n acc a Hn.
  { exists 0%nat. cbn in *. f_equal. lia. }
  rewrite Nat2Z.inj_succ, Z.pow_succ_r in Hn by lia. cbn [show_digits].
  pose proof (Z.mod_pos_bound n 10 ltac:(lia)). pose proof (Z.div_mod n 10 ltac:(lia)). case_decide.
  - exists 1%nat. cbn [scan_digits]. rewrite is_digit_of by lia. f_equal.
    rewrite (Z.mod_small n) by lia. lia.
  - destruct (IH (n / 10) (48 + n mod 10 :: acc) a) as [k ->]; [split; [lia|]; apply Z.div_lt_upper_bound; lia|].
    exists (S k). cbn [scan_digits]. rewrite is_digit_of by lia. f_equal.
    rewrite Nat2Z.inj_succ, Z.pow_succ_r by lia. nia.
Qed.
Lemma show_digits_head fuel n acc :
  0 <= n → ∃ c s, show_digits (S fuel) n acc = c :: s ∧ is_digit c = true.
Proof.
  revert n acc. induction fuel as [|fuel IH]; intros n acc Hn; cbn [show_digits];
    pose proof (Z.mod_pos_bound n 10 ltac:(lia)).
  - case_decide; eexists _, _; (split; [done|]; apply is_digit_of; lia).
  - case_decide; [eexists _, _; split; [done|]; apply is_digit_of; lia|].
    apply IH. by apply Z.div_pos.
Qed.

(** ** [scan_number] undoes [show_int], with what follows *)
Lemma scan_number_digits c s n rest :
  is_digit c = true → scan_digits (c :: s) 0 = (n, rest) → scan_number (c :: s) = Some (n, rest).
Proof.
  intros Hc Hs. unfold scan_number. cbn [skip_space]. rewrite digit_no_space by done.
  pose proof (bool_decide_eq_true_1 _ Hc) as Hr. cbv beta in Hr.
  do 2 (rewrite decide_False by lia). by rewrite Hc, Hs.
Qed.
Lemma scan_number_zeros k n rest :
  0 <= n < 10 ^ 10 → no_digit rest →
  scan_number (replicate k 48 ++ show_digits 10 n [] ++ rest) = Some (n, rest).
Proof.
  intros Hn Hrest.
  assert (∀ a, a = 0 → scan_digits (replicate k 48 ++ show_digits 10 n [] ++ rest) a = (n, rest)) as Hs.
  { induction k as [|k IH]; intros a ->.
    - cbn [replicate app]. rewrite <-show_digits_app. cbn [app].
      destruct (scan_show_digits 10 n rest 0) as [k ->]; [done|]. by rewrite scan_digits_end.
    - cbn. by apply IH. }
  specialize (Hs 0 eq_refl). destruct k as [|k]; cbn [replicate app] in *.
  - destruct (show_digits_head 9 n []) as (c & s & Heq & Hc); [lia|]. rewrite Heq in *.
    by apply scan_number_digits.
  - by apply scan_number_digits.
Qed.
Lemma scan_show_int n rest :
  is_int32 n → no_digit rest → scan_number (show_int n ++ rest) = Some (n, rest).
Proof.
  unfold is_int32. intros Hn Hrest. unfold show_int. case_decide.
  - assert (scan_number (show_digits 10 (- n) [] ++ rest) = Some (- n, rest)) as Hs
      by (apply (scan_number_zeros 0); [lia|done]).
    destruct (show_digits_head 9 (- n) []) as (c & s & Heq & Hc); [lia|]. rewrite Heq in *.
    unfold scan_number in *. cbn [skip_space app] in *. rewrite digit_no_space in Hs by done.
    change (is_space 45) with false. cbv iota. rewrite decide_True by done.
    pose proof (bool_decide_eq_true_1 _ Hc) as Hr. cbv beta in Hr.
    do 2 (rewrite decide_False in Hs by lia). rewrite Hc in Hs |- *.
    destruct (scan_digits _ _). injection Hs as -> ->. f_equal. f_equal. lia.
  - apply (scan_number_zeros 0); [lia|done].
Qed.
Lemma scan_show_pad2 n rest :
  0 <= n < 2 ^ 31 → no_digit rest → scan_number (pad2 (show_int n) ++ rest) = Some (n, rest).
Proof.
  intros Hn Hrest. unfold pad2, show_int. rewrite decide_False by lia. rewrite <-app_assoc.
  apply scan_number_zeros; [lia|done].
Qed.

(** ** Dates *)
(** a date of the calendar the program knows; the day may be 0 *)
Definition calendar (y mo d : Z) : Prop :=
  0 <= y <= 3999 ∧ 1 <= mo <= 12 ∧ 0 <= d ∧
  d <= (if decide (mo = 2) then if is_leap y then 29 else 28
        else if decide (mo = 4 ∨ mo = 6 ∨ mo = 9 ∨ mo = 11) then 30 else 31).
Definition encode_date (y mo d : Z) : Z := y * 10000 + mo * 100 + d.

Lemma check_date_spec y mo d :
  ∃ b, check_date (Some y) (Some mo) (Some d) = Some b ∧ (b = true ↔ calendar y mo d).
Proof.
  unfold check_date, calendar. cbn [mbind option_bind].
  case_decide; [exists false; split; [done|split; [done|lia]]|].
  case_decide; [exists false; split; [done|split; [done|lia]]|].
  case_decide as Hd.
  { exists false. split; [done|]. split; [done|]. repeat case_decide; destruct (is_leap y); lia. }
  assert (mo = 1 ∨ mo = 2 ∨ mo = 3 ∨ mo = 4 ∨ mo = 5 ∨ mo = 6 ∨ mo = 7 ∨ mo = 8 ∨ mo = 9 ∨ mo = 10 ∨
    mo = 11 ∨ mo = 12) as Hmo by lia.
  repeat destruct Hmo as [->|Hmo]; subst; cbn; eexists; (split; [done|]);
    destruct (is_leap y); rewrite bool_decide_eq_true; repeat case_decide; lia.
Qed.

Lemma encode_parts y mo d :
  calendar y mo d →
  Z.quot (encode_date y mo d) 10000 = y ∧ Z.rem (Z.quot (encode_date y mo d) 100) 100 = mo ∧
  Z.rem (encode_date y mo d) 100 = d.
Proof.
  intros (Hy & Hm & Hd & Hd').
  assert (d <= 31) by (repeat case_decide; destruct (is_leap y); lia).
  unfold encode_date. rewrite !Z.quot_div_nonneg, !Z.rem_mod_nonneg by (try apply Z.div_pos; lia).
  split_and!.
  - symmetry. apply (Z.div_unique _ _ _ (mo * 100 + d)); lia.
  - replace ((y * 10000 + mo * 100 + d) / 100) with (y * 100 + mo)
      by (apply (Z.div_unique _ _ _ d); lia).
    symmetry. apply (Z.mod_unique _ _ y); lia.
  - symmetry. apply (Z.mod_unique _ _ (y * 100 + mo)); lia.
Qed.

Lemma scan_int_of s n rest : scan_number s = Some (n, rest) → is_int32 n → scan_int s = Some (Some (n, rest)).
Proof. unfold scan_int, is_int32. intros -> H. by rewrite decide_True. Qed.
Lemma no_digit_dash s : no_digit (45 :: s).
Proof. by intros c [= <-]. Qed.
Lemma no_digit_nul s : no_digit (0 :: s).
Proof. by intros c [= <-]. Qed.
Lemma scan_dash_int_dash s : scan_dash_int (45 :: s) = scan_int s.
Proof. reflexivity. Qed.
Lemma scan_date_text y mo d rest :
  0 <= y < 2 ^ 31 → 0 <= mo < 2 ^ 31 → 0 <= d < 2 ^ 31 → no_digit rest →
  scan_date (show_int y ++ [45] ++ pad2 (show_int mo) ++ [45] ++ pad2 (show_int d) ++ rest) =
    Some (Some y, Some mo, Some d).
Proof.
  intros Hy Hm Hd Hr. unfold scan_date. cbn [app].
  rewrite (scan_int_of _ y (45 :: pad2 (show_int mo) ++ 45 :: pad2 (show_int d) ++ rest));
    [|apply scan_show_int; [red; lia|apply no_digit_dash]|red; lia].
  cbn [mbind option_bind]. rewrite scan_dash_int_dash.
  rewrite (scan_int_of _ mo (45 :: pad2 (show_int d) ++ rest));
    [|apply scan_show_pad2; [lia|apply no_digit_dash]|red; lia].
  cbn [mbind option_bind]. rewrite scan_dash_int_dash.
  rewrite (scan_int_of _ d rest); [done|by apply scan_show_pad2|red; lia].
Qed.

Lemma calendar_small y mo d : calendar y mo d → 0 <= y < 2 ^ 31 ∧ 0 <= mo < 2 ^ 31 ∧ 0 <= d < 2 ^ 31.
Proof.
  intros (? & ? & ? & Hd). assert (d <= 31) by (repeat case_decide; destruct (is_leap y); lia). lia.
Qed.
Lemma date_text y mo d :
  calendar y mo d →
  convert_string_to_date (Val.c_str (date_to_string (encode_date y mo d))) = Some (encode_date y mo d).
Proof.
  intros Hc. destruct (encode_parts _ _ _ Hc) as (Hy & Hm & Hd).
  destruct (calendar_small _ _ _ Hc) as (? & ? & ?).
  unfold convert_string_to_date, Val.c_str, date_to_string. rewrite Hy, Hm, Hd, <-!app_assoc.
  rewrite scan_date_text by (done || apply no_digit_nul). cbn [mbind option_bind].
  destruct (check_date_spec y mo d) as (b & -> & Hb). cbn [mbind option_bind].
  by rewrite (proj2 Hb Hc).
Qed.
(** The result of a conversion: a date of the calendar, or -1. *)
Lemma convert_date_inv s x :
  convert_string_to_date s = Some x → x = -1 ∨ ∃ y mo d, calendar y mo d ∧ x = encode_date y mo d.
Proof.
  unfold convert_string_to_date. destruct (scan_date s) as [[[oy omo] od]|]; [|done]. cbn [mbind option_bind].
  destruct (check_date oy omo od) as [b|] eqn:Hc; [|done]. cbn [mbind option_bind].
  destruct b; cbn [negb]; [|by intros [= <-]; left].
  destruct oy as [y|]; [|done]. destruct omo as [mo|]; [|done]. destruct od as [d|]; [|done].
  cbn [mbind option_bind]. intros [= <-]. right. exists y, mo, d. split; [|done].
  destruct (check_date_spec y mo d) as (b & Hb & Hiff). rewrite Hc in Hb. injection Hb as <-. by apply Hiff.
Qed.
(** The order of the codes is the order of the calendar. *)
Definition date_before (y mo d y' mo' d' : Z) : Prop :=
  y < y' ∨ y = y' ∧ (mo < mo' ∨ mo = mo' ∧ d < d').
Lemma encode_date_order y mo d y' mo' d' :
  calendar y mo d → calendar y' mo' d' →
  (encode_date y mo d < encode_date y' mo' d' ↔ date_before y mo d y' mo' d').
Proof.
  intros (? & ? & ? & Hd) (? & ? & ? & Hd').
  assert (d <= 31) by (clear Hd'; repeat case_decide; destruct (is_leap y); lia).
  assert (d' <= 31) by (clear Hd; repeat case_decide; destruct (is_leap y'); lia).
  unfold encode_date, date_before. lia.
Qed.
Lemma encode_date_int32 y mo d : calendar y mo d → is_int32 (encode_date y mo d).
Proof.
  intros Hc. pose proof (calendar_small _ _ _ Hc). destruct Hc as (? & ? & ? & Hd).
  assert (d <= 31) by (repeat case_decide; destruct (is_leap y); lia). unfold encode_date, is_int32. lia.
Qed.

(** ** Numbers as text *)
Lemma stream_show_int n : is_int32 n → stream_int (show_int n) = n.
Proof.
  intros Hn. pose proof (scan_show_int n [] Hn ltac:(done)) as Hs. rewrite app_nil_r in Hs.
  unfold stream_int. rewrite Hs. by rewrite decide_True.
Qed.
Lemma show_digits_no_nul fuel n acc :
  0 <= n → Forall (λ c, c ≠ 0) acc → Forall (λ c, c ≠ 0) (show_digits fuel n acc).
Proof.
  revert n acc. induction fuel as [|fuel IH]; intros n acc Hn Hacc; [done|]. cbn [show_digits].
  pose proof (Z.mod_pos_bound n 10 ltac:(lia)).
  assert (Forall (λ c, c ≠ 0) (48 + n mod 10 :: acc)) by (constructor; [lia|done]).
  case_decide; [done|]. apply IH; [by apply Z.div_pos|done].
Qed.
Lemma show_int_no_nul n : is_int32 n → Forall (λ c, c ≠ 0) (show_int n).
Proof.
  intros Hn. unfold show_int. case_decide.
  - constructor; [done|]. apply show_digits_no_nul; [lia|done].
  - apply show_digits_no_nul; [lia|done].
Qed.
Lemma c_string_c_str s rest : Forall (λ c, c ≠ 0) s → c_string (s ++ 0 :: rest) = Some s.
Proof.
  induction 1 as [|c s Hc Hs IH]; [done|]. cbn [c_string app]. rewrite decide_False by done.
  by rewrite IH.
Qed.
Lemma set_string_c_str s v :
  Forall (λ c, c ≠ 0) s →
  Val.set_string (Val.c_str s) 0 v = Some (MkValue CHARS (Z.of_nat (length s)) (num_value_ v) s).
Proof.
  intros Hs. unfold Val.set_string, Val.set_chars, Val.c_str. rewrite decide_False by lia.
  by rewrite c_string_c_str.
Qed.

(** ** The order of strings *)
Fixpoint text_cmp (s1 s2 : memory) : Z :=
  match s1, s2 with
  | [], [] => 0
  | [], _ :: _ => -1
  | _ :: _, [] => 1
  | c1 :: s1, c2 :: s2 => if decide (c1 ≠ c2) then c1 - c2 else text_cmp s1 s2
  end.
#[global] Instance text_cmp_total : TotalCmp text_cmp.
Proof.
  split.
  - intros x. induction x as [|c1 x IH]; intros [|c2 y]; cbn; try done.
    specialize (IH y). repeat case_decide; lia.
  - intros x. induction x as [|c1 x IH]; intros [|c2 y] [|c3 z]; cbn; try done; try lia.
    specialize (IH y z). repeat case_decide; lia.
Qed.

(** strings of 7-bit characters, without NUL *)
Definition ascii7 (s : memory) : Prop := Forall (λ c, 0 < c < 128) s.
Lemma schar_ascii c : 0 < c < 128 → schar c = c.
Proof. intros. unfold schar. by rewrite decide_True by lia. Qed.
Lemma compare_strings_cons c1 s1 c2 s2 :
  c1 ≠ 0 →
  Val.compare_strings (c1 :: s1) (c2 :: s2) =
    if decide (c1 ≠ c2) then Some (c1 - c2) else Val.compare_strings s1 s2.
Proof.
  intros H1. unfold Val.compare_strings, compare_string, Val.c_str.
  cbn [length Nat.min app strncmp]. destruct (decide (c1 ≠ c2)) as [Hc|Hc].
  - cbn [mbind option_bind]. by rewrite decide_True by lia.
  - rewrite (decide_False (P := c1 = 0)) by done. destruct (strncmp (s1 ++ [0]) (s2 ++ [0]) _) as [r|]; [|done].
    cbn [mbind option_bind]. destruct (decide (r ≠ 0)); [done|]. cbn [lookup list_lookup].
    repeat case_decide; try lia; done.
Qed.
Lemma compare_strings_text s1 s2 :
  ascii7 s1 → ascii7 s2 →
  ∃ x, Val.compare_strings s1 s2 = Some x ∧ Z.sgn x = Z.sgn (text_cmp s1 s2).
Proof.
  revert s2. induction s1 as [|c1 s1 IH]; intros s2 H1 H2.
  - destruct s2 as [|c2 s2]; [by exists 0|]. inversion_clear H2 as [|? ? Hc ?].
    exists (0 - schar c2). split; [done|]. rewrite schar_ascii by done. cbn. lia.
  - inversion_clear H1 as [|? ? Hc ?]. destruct s2 as [|c2 s2].
    + exists (schar c1 - 0). split; [done|]. rewrite schar_ascii by done. cbn. lia.
    + inversion_clear H2. rewrite compare_strings_cons by lia. cbn [text_cmp].
      case_decide; [by eexists|]. by apply IH.
Qed.

(** ** The order of a column

    The values of a column of type [ty]: nulls, and values of the type. *)
Definition ordered_type (ty : AttrType) : Prop :=
  ty = INTS ∨ ty = DATES ∨ ty = BOOLEANS ∨ ty = CHARS ∨ ty = TEXTS.
Definition col_value (ty : AttrType) (v : Value) : Prop :=
  attr_type_ v = NULLS ∨
  attr_type_ v = ty ∧ (4 <= length (num_value_ v))%nat ∧ (ty = CHARS ∨ ty = TEXTS → ascii7 (str_value_ v)).
Definition null_rank (v : Value) : Z := if Val.is_null v then 0 else 1.
Definition value_cmp (ty : AttrType) : Value → Value → Z :=
  match ty with
  | CHARS | TEXTS => cmp_on str_value_ text_cmp
  | _ => cmp_on (λ v, int_at (num_value_ v)) cmp_sign
  end.
(** nulls first, all alike *)
Definition column_cmp (ty : AttrType) (v1 v2 : Value) : Z :=
  if Val.is_null v1 || Val.is_null v2 then cmp_on null_rank cmp_sign v1 v2 else value_cmp ty v1 v2.

#[global] Instance value_cmp_total ty : TotalCmp (value_cmp ty).
Proof. destruct ty; apply _. Qed.
#[global] Instance column_cmp_total ty : TotalCmp (column_cmp ty).
Proof.
  split; unfold column_cmp, cmp_on, null_rank.
  - intros x y. destruct (Val.is_null x), (Val.is_null y); cbn; try done. apply cmp_swap.
  - intros x y z. destruct (Val.is_null x), (Val.is_null y), (Val.is_null z); cbn; try done.
    apply cmp_le_trans.
Qed.

Section column.
Context `{!LibText} `{!Uninit} (ty : AttrType) (Hty : ordered_type ty).

Lemma op_of_sign_sgn x y : Z.sgn x = Z.sgn y → Val.op_of_sign x = Val.op_of_sign y.
Proof. intros. unfold Val.op_of_sign. repeat case_decide; try done; lia. Qed.
Lemma decide_op_sgn op x y : Z.sgn x = Z.sgn y → Val.decide_op op x = Val.decide_op op y.
Proof. intros. destruct op; cbn; try done; apply bool_decide_ext; lia. Qed.

Lemma compare_same_spec v1 v2 :
  col_value ty v1 → col_value ty v2 → Val.is_null v1 = false → Val.is_null v2 = false →
  attr_type_ v1 = attr_type_ v2 ∧ attr_type_ v1 = ty ∧
  ∃ x, Val.compare_same false v1 v2 = Some x ∧ Z.sgn x = Z.sgn (value_cmp ty v1 v2).
Proof.
  unfold Val.is_null. intros [?|(Ht1 & Hl1 & Ha1)] [?|(Ht2 & Hl2 & Ha2)]
    Hn1%bool_decide_eq_false_1 Hn2%bool_decide_eq_false_1; try done.
  split_and!; [congruence|done|]. unfold Val.compare_same. rewrite Ht1.
  destruct Hty as [-> | [-> | [-> | [-> | ->]]]]; cbn [value_cmp]; unfold cmp_on;
    try (unfold compare_int, compare_date; rewrite !load_int_at by done; by eexists);
    apply compare_strings_text; tauto.
Qed.

Lemma compare_value_column v1 v2 :
  col_value ty v1 → col_value ty v2 →
  Val.compare_value v1 v2 = Some (Val.op_of_sign (column_cmp ty v1 v2)).
Proof.
  intros H1 H2. unfold Val.compare_value, column_cmp, cmp_on, null_rank.
  destruct (Val.is_null v1) eqn:E1, (Val.is_null v2) eqn:E2; cbn [orb andb negb].
  - apply bool_decide_eq_true_1 in E1, E2. rewrite decide_False by congruence. by rewrite E1.
  - rewrite decide_True; [done|]. apply bool_decide_eq_true_1 in E1.
    apply bool_decide_eq_false_1 in E2. congruence.
  - rewrite decide_True; [done|]. apply bool_decide_eq_true_1 in E2.
    apply bool_decide_eq_false_1 in E1. congruence.
  - destruct (compare_same_spec v1 v2) as (Heq & Ht & x & -> & Hx); [done..|].
    rewrite decide_False by (intros Hne; by apply Hne). rewrite Ht.
    destruct Hty as [-> | [-> | [-> | [-> | ->]]]]; cbn; f_equal; by apply op_of_sign_sgn.
Qed.

Lemma lt_column v1 v2 :
  col_value ty v1 → col_value ty v2 → Val.lt v1 v2 = Some (bool_decide (column_cmp ty v1 v2 < 0)).
Proof.
  intros H1 H2. unfold Val.lt. rewrite compare_value_column by done. cbn. f_equal. apply bool_decide_ext.
  unfold Val.op_of_sign. repeat case_decide; split; try done; lia.
Qed.
(** the operators that compare *)
Definition comparison (op : CompOp.t) : bool :=
  match op with
  | CompOp.EQUAL_TO | CompOp.LESS_EQUAL | CompOp.NOT_EQUAL | CompOp.LESS_THAN | CompOp.GREAT_EQUAL
  | CompOp.GREAT_THAN => true
  | _ => false
  end.
Lemma compare_column op v1 v2 :
  comparison op = true → col_value ty v1 → col_value ty v2 →
  Val.compare v1 op v2 =
    Some (negb (Val.is_null v1 || Val.is_null v2) && Val.decide_op op (column_cmp ty v1 v2)).
Proof.
  intros Hop H1 H2.
  assert (Val.compare v1 op v2 =
    if Val.is_null v1 || Val.is_null v2 then Some false
    else r ← Val.compare_values false v1 v2;
         Some (match r with Some c => Val.decide_op op c | None => false end)) as -> by (by destruct op).
  unfold column_cmp. destruct (Val.is_null v1) eqn:E1; [done|]. destruct (Val.is_null v2) eqn:E2; [done|].
  cbn [orb negb andb]. destruct (compare_same_spec v1 v2) as (Heq & Ht & x & Hs & Hx); [done..|].
  unfold Val.compare_values. rewrite decide_True by done. rewrite Hs. cbn.
  f_equal. by apply decide_op_sgn.
Qed.
End column.
