(* ===== verification/Row.v ===== *)
(** * Rows ([Table::make_record], [sql/expr/tuple.h], [storage/field/field.cpp])

    The values of a statement are written into a record by [make_record]: first each value
    is checked against its field and converted to its type, then the bytes are copied and
    the bit of the field in the null bitmap is set or cleared.  A [RowTuple] reads the
    values back.  The record comes from [malloc]: [garbage] is what its memory holds. *)
From S2P Require Import Prelude RidKey Comparator Bitmap TableMeta SqlValue.
From Stdlib Require Import ZArith Lia.
From stdpp Require Import base option strings list.
Local Open Scope Z_scope.

Section row.
Context `{!LibText} `{!Uninit} (trx_fields : option (list FieldMeta.t)).

(** ** [Table::make_record] *)
(** the first loop: the values with their casts, or the first error *)
Fixpoint check_values (m : TableMeta.t) (index : nat) (values : list Value) : option (RC.t + list Value) :=
  match values with
  | [] => Some (inr [])
  | value :: values =>
      field ← TableMeta.field m index;
      let continue value :=
        r ← check_values m (S index) values;
        Some (match r with inl rc => inl rc | inr values => inr (value :: values) end) in
      if Val.is_null value then
        if negb (FieldMeta.nullable field) then Some (inl RC.SCHEMA_FIELD_NOT_NULLABLE) else continue value
      else if decide (FieldMeta.type field ≠ attr_type_ value) then
        '(ok, change) ← Val.type_cast (FieldMeta.type field) value;
        if ok : bool then continue change else Some (inl RC.SCHEMA_FIELD_TYPE_MISMATCH)
      else continue value
  end.

(** [null_field.set_bit(index)], [clear_bit(index)] *)
Definition write_null_bit (m : TableMeta.t) (null : bool) (index : nat) (data : memory) : option memory :=
  f ← TableMeta.null_field trx_fields m;
  let off := Z.to_nat (FieldMeta.offset f) in
  bitmap ← (if null then Bitmap.set_bit else Bitmap.clear_bit) (drop off data) index;
  Some (take off data ++ bitmap).
Definition copy_len (field : FieldMeta.t) (value : Value) : Z :=
  if decide (FieldMeta.type field = CHARS ∨ FieldMeta.type field = TEXTS) then
    if decide (FieldMeta.len field > length_ value) then length_ value + 1 else FieldMeta.len field
  else FieldMeta.len field.
(** the second loop *)
Fixpoint write_values (m : TableMeta.t) (index : nat) (values : list Value) (data : memory) : option memory :=
  match values with
  | [] => Some data
  | value :: values =>
      field ← TableMeta.field m index;
      if Val.is_null value then
        data ← write_null_bit m true index data;
        write_values m (S index) values data
      else
        data ← write_null_bit m false index data;
        bytes ← load_bytes 0 (Z.to_nat (copy_len field value)) (Val.data value);
        data ← store_bytes (Z.to_nat (FieldMeta.offset field)) bytes data;
        write_values m (S index) values data
  end.
Definition make_record (m : TableMeta.t) (values : list Value) (garbage : memory) : option (RC.t + memory) :=
  let start := TableMeta.sys_field_num trx_fields in
  if decide (length values + start ≠ TableMeta.field_num m)%nat then Some (inl RC.SCHEMA_FIELD_MISSING)
  else
    r ← check_values m start values;
    match r with
    | inl rc => Some (inl rc)
    | inr values => data ← write_values m start values garbage; Some (inr data)
    end.

(** ** [Table::is_null], [Field::is_null] *)
Definition field_is_null (m : TableMeta.t) (f : FieldMeta.t) (data : memory) : option bool :=
  let field_index := TableMeta.field_index m f in
  if decide (field_index = -1) then Some false
  else TableMeta.null_bit trx_fields m data (Z.to_nat field_index).

(** ** [RowTuple] *)
Record RowTuple : Set := MkRowTuple {
  record_ : RID.t * memory;
  table_ : TableMeta.t;
  speces_ : list FieldMeta.t
}.
Definition set_record (r : RID.t * memory) (t : RowTuple) : RowTuple := MkRowTuple r (table_ t) (speces_ t).
(** [set_schema], which adds to the fields that are there *)
Definition set_schema (m : TableMeta.t) (fields : list FieldMeta.t) (t : RowTuple) : RowTuple :=
  MkRowTuple (record_ t) m (speces_ t ++ fields).
Definition cell_num (t : RowTuple) : Z := Z.of_nat (length (speces_ t)).
Definition cell_at (t : RowTuple) (index : Z) (cell : Value) : option (RC.t * Value) :=
  if decide (index < 0 ∨ index >= cell_num t) then Some (RC.INVALID_ARGUMENT, cell)
  else
    field_meta ← speces_ t !! Z.to_nat index;
    is_null ← field_is_null (table_ t) field_meta (record_ t).2;
    if is_null : bool then Some (RC.SUCCESS, Val.set_type NULLS cell)
    else
      cell ← Val.set_data (drop (Z.to_nat (FieldMeta.offset field_meta)) (record_ t).2)
               (FieldMeta.len field_meta) (Val.set_type (FieldMeta.type field_meta) cell);
      Some (RC.SUCCESS, cell).
(** the loop of [find_cell] over the fields *)
Fixpoint find_field (field_name : string) (l : list FieldMeta.t) (i : Z) : option Z :=
  match l with
  | [] => None
  | f :: l => if decide (FieldMeta.name f = field_name) then Some i else find_field field_name l (i + 1)
  end.
Definition find_cell (t : RowTuple) (table_name field_name : string) (cell : Value) : option (RC.t * Value) :=
  if decide (table_name ≠ TableMeta.name (table_ t)) then Some (RC.NOTFOUND, cell)
  else
    match find_field field_name (speces_ t) 0 with
    | Some i => cell_at t i cell
    | None => Some (RC.NOTFOUND, cell)
    end.
End row.
