(* ===== verification/RowCorrect.v ===== *)
(** * Rows: what [make_record] writes, [RowTuple] reads

    The bytes of a field and the bits of the null bitmap lie apart, so that each value of
    the statement reads back from its own field, converted to the type of the field and,
    for a string, cut to its length. *)
From S2P Require Import Prelude RidKey Comparator Bitmap TableMeta SqlValue Row.
From Stdlib Require Import ZArith Lia.
From stdpp Require Import base option strings list.
Local Open Scope Z_scope.

(** ** Memory that agrees on a range *)
Definition agree (lo hi : nat) (d d' : memory) : Prop := ∀ k, (lo <= k < hi)%nat → d !! k = d' !! k.
Lemma agree_trans lo hi d1 d2 d3 : agree lo hi d1 d2 → agree lo hi d2 d3 → agree lo hi d1 d3.
Proof. intros H1 H2 k Hk. by rewrite H1, H2. Qed.
Lemma agree_take off n d d' : agree off (off + n) d d' → take n (drop off d) = take n (drop off d').
Proof.
  intros H. apply list_eq. intros k. destruct (decide (k < n)%nat).
  - rewrite !lookup_take_lt, !lookup_drop by done. apply H. lia.
  - by rewrite !lookup_take_ge by lia.
Qed.
Lemma agree_bit off n d d' j :
  agree off (off + n) d d' → (j < 8 * n)%nat → Bitmap.bit (drop off d) j = Bitmap.bit (drop off d') j.
Proof.
  intros H Hj. unfold Bitmap.bit, Bitmap.get_bit. destruct (Bitmap.div8_bit j).
  rewrite !lookup_drop, H by lia. done.
Qed.

Lemma store_bytes_spec off bytes d :
  (off + length bytes <= length d)%nat →
  ∃ d', store_bytes off bytes d = Some d' ∧ length d' = length d ∧ take (length bytes) (drop off d') = bytes ∧
    ∀ lo hi, (hi <= off ∨ off + length bytes <= lo)%nat → agree lo hi d d'.
Proof.
  intros Hl. unfold store_bytes. rewrite decide_True by done. eexists. split; [done|].
  assert (length (take off d) = off) as Ht by (rewrite length_take; lia). split_and!.
  - rewrite !length_app, length_drop, Ht. lia.
  - rewrite drop_app_length' by done. by rewrite take_app_length.
  - intros lo hi Hr k Hk. destruct (decide (k < off)%nat).
    + rewrite lookup_app_l by lia. by rewrite lookup_take_lt.
    + rewrite lookup_app_r, Ht by lia. rewrite lookup_app_r by lia. rewrite lookup_drop. f_equal. lia.
Qed.

Section bits.
Context (edit : list Z → nat → option (list Z)) (v : bool).
(** [set_bit] and [clear_bit] change one byte. *)
Definition edits_bit : Prop :=
  ∀ bitmap k, (k < 8 * length bitmap)%nat → ∃ bitmap', edit bitmap k = Some bitmap' ∧
    length bitmap' = length bitmap ∧
    (∀ i, i ≠ (k / 8)%nat → bitmap' !! i = bitmap !! i) ∧
    ∀ j, Bitmap.bit bitmap' j = if decide (j = k) then v else Bitmap.bit bitmap j.
End bits.
Lemma set_bit_edits : edits_bit Bitmap.set_bit true.
Proof.
  intros bitmap k Hk. destruct (Bitmap.set_bit_spec bitmap k Hk) as (b' & Hb & Hl & Hbits).
  exists b'. split_and!; [done|done| |done]. intros i Hi. unfold Bitmap.set_bit in Hb.
  destruct (bitmap !! (k / 8)%nat) as [x|]; [|done]. injection Hb as <-. by rewrite list_lookup_insert_ne.
Qed.
Lemma clear_bit_edits : edits_bit Bitmap.clear_bit false.
Proof.
  intros bitmap k Hk. destruct (Bitmap.clear_bit_spec bitmap k Hk) as (b' & Hb & Hl & Hbits).
  exists b'. split_and!; [done|done| |done]. intros i Hi. unfold Bitmap.clear_bit in Hb.
  destruct (bitmap !! (k / 8)%nat) as [x|]; [|done]. injection Hb as <-. by rewrite list_lookup_insert_ne.
Qed.

Section row.
Context `{!LibText} `{!Uninit} (trx_fields : option (list FieldMeta.t)).
Context (m : TableMeta.t) (Hm : meta_wf trx_fields m).
Abbreviation sys := (TableMeta.sys_field_num trx_fields).
Abbreviation start f := (Z.to_nat (FieldMeta.offset f)).
Abbreviation size f := (Z.to_nat (FieldMeta.len f)).

Definition record_ok (d : memory) : Prop := Z.of_nat (length d) = TableMeta.record_size m.
Definition null_off : nat :=
  match TableMeta.null_field trx_fields m with Some f => start f | None => 0 end.
Definition null_at (d : memory) (j : nat) : bool := Bitmap.bit (drop null_off d) j.

Lemma null_field_at :
  ∃ f, TableMeta.null_field trx_fields m = Some f ∧ TableMeta.field m (sys - 1) = Some f ∧
    null_off = start f ∧ (TableMeta.field_num m <= 8 * size f)%nat.
Proof.
  destruct (mw_null _ _ Hm) as (f & Hf & Hl). exists f. unfold null_off. rewrite Hf.
  split_and!; [done|done|done|]. destruct (chained_bounds _ _ _ _ _ (mw_chained _ _ Hm) Hf). lia.
Qed.
Lemma field_bounds i f :
  TableMeta.field m i = Some f →
  0 <= FieldMeta.offset f ∧ 0 < FieldMeta.len f ∧ FieldMeta.offset f + FieldMeta.len f <= TableMeta.record_size m.
Proof.
  intros Hf. pose proof (chained_bounds _ _ _ _ _ (mw_chained _ _ Hm) Hf).
  pose proof (chained_len _ _ _ _ _ (mw_chained _ _ Hm) Hf). lia.
Qed.
Lemma fields_apart i j f g :
  TableMeta.field m i = Some f → TableMeta.field m j = Some g → i ≠ j →
  (start f + size f <= start g ∨ start g + size g <= start f)%nat.
Proof.
  intros Hf Hg Hne. pose proof (field_bounds _ _ Hf). pose proof (field_bounds _ _ Hg).
  destruct (decide (i < j)%nat).
  - pose proof (chained_disjoint _ _ _ _ _ _ _ (mw_chained _ _ Hm) Hf Hg). lia.
  - pose proof (chained_disjoint _ _ _ _ _ _ _ (mw_chained _ _ Hm) Hg Hf). lia.
Qed.

(** ** The steps of the second loop *)
Lemma write_null_bit_spec null i d :
  record_ok d → (i < TableMeta.field_num m)%nat →
  ∃ d', write_null_bit trx_fields m null i d = Some d' ∧ record_ok d' ∧
    (∀ j, null_at d' j = if decide (j = i) then null else null_at d j) ∧
    ∀ j f, (sys <= j)%nat → TableMeta.field m j = Some f → agree (start f) (start f + size f) d d'.
Proof.
  unfold record_ok. intros Hd Hi. destruct null_field_at as (nf & Hnf & Hnf' & Hoff & Hsize).
  destruct (field_bounds _ _ Hnf') as (? & ? & ?).
  assert (edits_bit (if null then Bitmap.set_bit else Bitmap.clear_bit) null) as Hedit
    by (destruct null; [apply set_bit_edits|apply clear_bit_edits]).
  destruct (Hedit (drop (start nf) d) i) as (b' & Hb & Hl & Hsame & Hbits); [rewrite length_drop; lia|].
  unfold write_null_bit. rewrite Hnf. cbn [mbind option_bind]. rewrite Hb. cbn [mbind option_bind].
  eexists. split; [done|].
  assert (length (take (start nf) d) = start nf) as Ht by (rewrite length_take; lia). split_and!.
  - rewrite length_app, Ht, Hl, length_drop. lia.
  - intros j. unfold null_at. rewrite Hoff, drop_app_length' by done. apply Hbits.
  - intros j f Hj Hf k Hk.
    pose proof (fields_apart (sys - 1) j _ _ Hnf' Hf) as Hap.
    assert (sys ≠ 0)%nat by (unfold TableMeta.sys_field_num; lia). specialize (Hap ltac:(lia)).
    destruct (Bitmap.div8_bit i). destruct (decide (k < start nf)%nat).
    + rewrite lookup_app_l by lia. by rewrite lookup_take_lt.
    + rewrite lookup_app_r, Ht by lia. rewrite Hsame by lia. rewrite lookup_drop. f_equal. lia.
Qed.

Lemma write_bytes_spec i f bytes d :
  record_ok d → (sys <= i)%nat → TableMeta.field m i = Some f → (length bytes <= size f)%nat →
  ∃ d', store_bytes (start f) bytes d = Some d' ∧ record_ok d' ∧
    take (length bytes) (drop (start f) d') = bytes ∧
    (∀ j, (j < TableMeta.field_num m)%nat → null_at d' j = null_at d j) ∧
    ∀ j g, j ≠ i → TableMeta.field m j = Some g → agree (start g) (start g + size g) d d'.
Proof.
  unfold record_ok. intros Hd Hi Hf Hb. pose proof (field_bounds _ _ Hf).
  destruct (store_bytes_spec (start f) bytes d) as (d' & Hs & Hl & Ht & Hag); [lia|].
  exists d'. split_and!; [done|by rewrite Hl|done| |].
  - intros j Hj. destruct null_field_at as (nf & Hnf & Hnf' & Hoff & Hsize).
    unfold null_at. rewrite Hoff. symmetry. apply (agree_bit _ (size nf)); [|lia].
    apply Hag. pose proof (fields_apart (sys - 1) i _ _ Hnf' Hf).
    assert (sys ≠ 0)%nat by (unfold TableMeta.sys_field_num; lia). lia.
  - intros j g Hj Hg. apply Hag. pose proof (fields_apart _ _ _ _ Hg Hf Hj). lia.
Qed.

(** ** Values and fields *)
Definition no_nul (s : memory) : Prop := Forall (λ c, c ≠ 0) s.
Definition bytes4 (x : memory) : Prop := length x = 4%nat ∧ Forall Bitmap.byte_ok x.
Definition value_wf (v : Value) : Prop :=
  bytes4 (num_value_ v) ∧
  (attr_type_ v = CHARS ∨ attr_type_ v = TEXTS →
     no_nul (str_value_ v) ∧ length_ v = Z.of_nat (length (str_value_ v))).
(** the types of fields, with the length of the numbers *)
Definition field_ok (f : FieldMeta.t) : Prop :=
  FieldMeta.type f = CHARS ∨ FieldMeta.type f = TEXTS ∨
  (FieldMeta.type f = INTS ∨ FieldMeta.type f = FLOATS ∨ FieldMeta.type f = DATES) ∧ FieldMeta.len f = 4.
Definition fits (f : FieldMeta.t) (v : Value) : Prop :=
  field_ok f ∧ value_wf v ∧ (attr_type_ v = NULLS ∨ attr_type_ v = FieldMeta.type f).
(** what a field holds of a value *)
Definition stored_as (f : FieldMeta.t) (v c : Value) : Prop :=
  if Val.is_null v then attr_type_ c = NULLS
  else attr_type_ c = FieldMeta.type f ∧
    match FieldMeta.type f with
    | CHARS | TEXTS => str_value_ c = take (size f) (str_value_ v)
    | _ => num_value_ c = num_value_ v
    end.
(** the bytes of the field in a record *)
Definition field_written (f : FieldMeta.t) (v : Value) (d : memory) : Prop :=
  let n := Z.to_nat (copy_len f v) in
  (n <= length (Val.data v))%nat ∧ take n (drop (start f) d) = take n (Val.data v).

Lemma copy_len_spec f v :
  fits f v → Val.is_null v = false → 0 < FieldMeta.len f →
  (Z.to_nat (copy_len f v) <= size f)%nat ∧ (Z.to_nat (copy_len f v) <= length (Val.data v))%nat.
Proof.
  intros (Hok & [[Hn _] Hs] & Ht) Hnull Hlen. unfold Val.is_null in Hnull.
  apply bool_decide_eq_false_1 in Hnull. destruct Ht as [?|Ht]; [done|].
  unfold copy_len, Val.data, Val.c_str. rewrite Ht in *.
  destruct Hok as [Hf | [Hf | [[Hf | [Hf | Hf]] Hl]]]; rewrite Hf in *.
  1, 2: rewrite decide_True by auto; destruct Hs as [_ Hs]; [by auto|];
        rewrite length_app; cbn [length]; case_decide; lia.
  all: rewrite decide_False by (intros [?|?]; discriminate); lia.
Qed.

(** ** The second loop *)
Lemma write_values_spec vs i d :
  record_ok d → (sys <= i)%nat →
  (∀ k v, vs !! k = Some v → ∃ f, TableMeta.field m (i + k) = Some f ∧ fits f v) →
  ∃ d', write_values trx_fields m i vs d = Some d' ∧ record_ok d' ∧
    (∀ j, (j < TableMeta.field_num m)%nat → (j < i)%nat → null_at d' j = null_at d j) ∧
    (∀ j f, (sys <= j < i)%nat → TableMeta.field m j = Some f → agree (start f) (start f + size f) d d') ∧
    ∀ k v f, vs !! k = Some v → TableMeta.field m (i + k) = Some f →
      null_at d' (i + k) = Val.is_null v ∧ (Val.is_null v = false → field_written f v d').
Proof.
  revert i d. induction vs as [|v vs IH]; intros i d Hd Hi Hvs.
  { exists d. by split_and!. }
  destruct (Hvs 0%nat v eq_refl) as (f & Hf & Hfit). rewrite Nat.add_0_r in Hf.
  pose proof (field_bounds _ _ Hf) as (Ho & Hlen & _).
  assert (i < TableMeta.field_num m)%nat as Hif by (by eapply lookup_lt_Some).
  destruct (write_null_bit_spec (Val.is_null v) i d Hd Hif) as (d1 & Hd1 & Hr1 & Hnull1 & Hag1).
  assert (∃ d2, record_ok d2 ∧
    write_values trx_fields m i (v :: vs) d = write_values trx_fields m (S i) vs d2 ∧
    (∀ j, (j < TableMeta.field_num m)%nat → null_at d2 j = if decide (j = i) then Val.is_null v else null_at d j) ∧
    (∀ j g, (sys <= j)%nat → j ≠ i → TableMeta.field m j = Some g → agree (start g) (start g + size g) d d2) ∧
    (Val.is_null v = false → field_written f v d2)) as (d2 & Hr2 & -> & Hnull2 & Hag2 & Hw2).
  { cbn [write_values]. rewrite Hf. cbn [mbind option_bind]. destruct (Val.is_null v) eqn:En.
    - exists d1. rewrite Hd1. split_and!; [done|done|intros j _; apply Hnull1|intros j g Hj _; by apply Hag1|done].
    - rewrite Hd1. cbn [mbind option_bind].
      destruct (copy_len_spec f v Hfit En Hlen) as [Hc1 Hc2].
      unfold load_bytes. rewrite decide_True by (cbn; lia). cbn [mbind option_bind]. rewrite drop_0.
      set (bytes := take _ (Val.data v)).
      assert (length bytes = Z.to_nat (copy_len f v)) as Hlb by (unfold bytes; rewrite length_take; lia).
      destruct (write_bytes_spec i f bytes d1 Hr1 Hi Hf) as (d2 & Hd2 & Hr2 & Ht & Hn & Hag); [lia|].
      exists d2. rewrite Hd2. split_and!; [done|done|..].
      + intros j Hj. rewrite Hn by done. apply Hnull1.
      + intros j g Hj Hne Hg. eapply agree_trans; [by apply (Hag1 j)|by apply (Hag j)].
      + intros _. split; [done|]. rewrite Hlb in Ht. exact Ht. }
  destruct (IH (S i) d2 Hr2 ltac:(lia)) as (d' & Hd' & Hr' & Hn' & Hag' & Hv').
  { intros k w Hk. destruct (Hvs (S k) w Hk) as (g & Hg & ?). exists g. split; [|done].
    by replace (S i + k)%nat with (i + S k)%nat by lia. }
  exists d'. split_and!; [done|done|..].
  - intros j Hj Hji. rewrite Hn', Hnull2 by lia. by rewrite decide_False by lia.
  - intros j g Hj Hg. eapply agree_trans; [apply (Hag2 j); [lia|lia|done]|apply (Hag' j); [lia|done]].
  - intros [|k] w g Hk Hg.
    + injection Hk as <-. rewrite Nat.add_0_r in *. rewrite Hf in Hg. injection Hg as <-. split.
      * rewrite Hn', Hnull2 by lia. by rewrite decide_True.
      * intros En. destruct (Hw2 En) as [Hc Hw]. split; [done|]. rewrite <-Hw.
        destruct (copy_len_spec f v Hfit En Hlen) as [Hc1 _].
        symmetry. apply agree_take. intros x Hx. apply (Hag' i f); [lia|done|lia].
    + cbn in Hk. replace (i + S k)%nat with (S i + k)%nat in * by lia. by apply Hv'.
Qed.

(** ** Reading a field *)
Lemma strn_string_prefix n s rest :
  no_nul s → strn_string n (s ++ 0 :: rest) = Some (take n s).
Proof.
  revert n. induction s as [|c s IH]; intros [|n] Hs; try done. inversion_clear Hs.
  cbn [app strn_string]. rewrite decide_False by done. by rewrite IH.
Qed.
Lemma strn_string_full n s : no_nul s → (n <= length s)%nat → strn_string n s = Some (take n s).
Proof.
  revert n. induction s as [|c s IH]; intros [|n] Hs Hn; try done; [cbn in Hn; lia|]. inversion_clear Hs.
  cbn [strn_string]. rewrite decide_False by done. rewrite IH; [done|done|cbn in Hn; lia].
Qed.
(** The string of a field: to its NUL, or to the length of the field. *)
Lemma read_string f v d :
  no_nul (str_value_ v) → length_ v = Z.of_nat (length (str_value_ v)) → 0 < FieldMeta.len f →
  FieldMeta.type f = CHARS ∨ FieldMeta.type f = TEXTS → attr_type_ v = FieldMeta.type f →
  field_written f v d →
  strn_string (size f) (drop (start f) d) = Some (take (size f) (str_value_ v)).
Proof.
  intros Hs Hl Hlen Ht Hv [Hc Hw]. unfold copy_len in *. rewrite decide_True in * by done.
  assert (Val.data v = str_value_ v ++ [0]) as Hdata.
  { unfold Val.data, Val.c_str. rewrite Hv. by destruct Ht as [-> | ->]. }
  rewrite Hdata in *. set (b := drop (start f) d) in *. case_decide as Hgt.
  - replace (Z.to_nat (length_ v + 1)) with (length (str_value_ v ++ [0])) in * by (rewrite length_app; cbn; lia).
    rewrite firstn_all in Hw.
    rewrite <-(take_drop (length (str_value_ v ++ [0])) b), Hw, <-app_assoc. by apply strn_string_prefix.
  - rewrite take_app_le in Hw by lia. rewrite <-(take_drop (size f) b), Hw.
    assert (∀ n s rest, no_nul s → (n <= length s)%nat → strn_string n (take n s ++ rest) = Some (take n s)) as Hgen.
    { clear. induction n as [|n IH]; intros [|c s] rest Hs Hn; try done; [cbn in Hn; lia|]. inversion_clear Hs.
      cbn [take app strn_string]. rewrite decide_False by done. rewrite IH; [done|done|cbn in Hn; lia]. }
    apply Hgen; [done|lia].
Qed.
Lemma read_number f v d :
  length (num_value_ v) = 4%nat → FieldMeta.len f = 4 → attr_type_ v = FieldMeta.type f →
  FieldMeta.type f = INTS ∨ FieldMeta.type f = FLOATS ∨ FieldMeta.type f = DATES →
  field_written f v d → take 4 (drop (start f) d) = num_value_ v.
Proof.
  intros Hn Hl Hv Ht [Hc Hw].
  assert (copy_len f v = 4 ∧ Val.data v = num_value_ v) as [Hcl Hdata].
  { unfold copy_len, Val.data. rewrite Hv, Hl.
    destruct Ht as [-> | [-> | ->]]; (split; [|done]); by rewrite decide_False by (intros [?|?]; discriminate). }
  rewrite Hcl in Hw. change (Z.to_nat 4) with 4%nat in Hw. rewrite Hw, Hdata. by rewrite firstn_all2 by lia.
Qed.

Lemma load32_take b x : take 4 b = x → length x = 4%nat → load32 b = load32 x ∧ (4 <= length b)%nat.
Proof.
  intros <- Hl. rewrite length_take in Hl. do 4 (destruct b as [|? b]; [cbn in Hl; lia|]).
  split; [done|cbn; lia].
Qed.
(** A date is read as a number and stored again. *)
Lemma store_load32 x y : bytes4 x → load32 x = Some y → store32 (int32 y) = x.
Proof.
  intros [Hl Hb] Hload. do 4 (destruct x as [|? x]; [done|]). destruct x; [|done].
  do 4 (apply Forall_cons_1 in Hb as [? Hb]). unfold Bitmap.byte_ok in *. cbn in Hload. injection Hload as <-.
  rewrite !Z.shiftl_mul_pow2 by lia. change (2 ^ 8) with 256. change (2 ^ 16) with 65536. change (2 ^ 24) with 16777216.
  set (y := _ + _). assert (0 <= y < 2 ^ 32) by (unfold y; lia).
  assert (∀ k, 0 <= k → k < 32 → Z.land (Z.shiftr (int32 y) k) 255 = y / 2 ^ k mod 256 ∨ 24 < k) as Hk.
  { intros k Hk0 Hk1. destruct (decide (24 < k)); [by right|left]. change 255 with (Z.ones 8).
    rewrite Z.land_ones, Z.shiftr_div_pow2 by lia. unfold int32. case_decide; [done|].
    replace (y - 2 ^ 32) with (y + (- 2 ^ (32 - k)) * 2 ^ k).
    - rewrite Z.div_add by lia. replace (- 2 ^ (32 - k)) with ((- 2 ^ (24 - k)) * 256).
      + by rewrite Z_mod_plus_full.
      + replace (32 - k) with (24 - k + 8) by lia. rewrite Z.pow_add_r by lia. lia.
    - replace (2 ^ 32) with (2 ^ (32 - k) * 2 ^ k) by (rewrite <-Z.pow_add_r by lia; f_equal; lia). lia. }
  unfold store32. pose proof (Hk 0 ltac:(lia) ltac:(lia)) as Hk0. rewrite Z.shiftr_0_r in Hk0.
  destruct Hk0 as [-> |]; [|lia].
  destruct (Hk 8 ltac:(lia) ltac:(lia)) as [-> |]; [|lia].
  destruct (Hk 16 ltac:(lia) ltac:(lia)) as [-> |]; [|lia].
  destruct (Hk 24 ltac:(lia) ltac:(lia)) as [-> |]; [|lia].
  change (2 ^ 0) with 1. change (2 ^ 8) with 256. change (2 ^ 16) with 65536. change (2 ^ 24) with 16777216.
  unfold y. repeat f_equal; Z.to_euclidean_division_equations; lia.
Qed.

Lemma cell_at_field rid d i f v cell :
  record_ok d → (sys <= i)%nat → TableMeta.field m i = Some f → fits f v →
  null_at d i = Val.is_null v → (Val.is_null v = false → field_written f v d) →
  ∃ c, cell_at trx_fields (MkRowTuple (rid, d) m (TableMeta.fields m)) (Z.of_nat i) cell = Some (RC.SUCCESS, c) ∧
    stored_as f v c.
Proof.
  unfold record_ok. intros Hd Hi Hf Hfit Hnull Hw.
  assert (i < TableMeta.field_num m)%nat as Hif by (by eapply lookup_lt_Some).
  pose proof (field_bounds _ _ Hf) as (? & Hlen & ?).
  unfold cell_at, cell_num. cbn [speces_ table_ record_ snd]. fold (TableMeta.field_num m).
  rewrite decide_False by lia. rewrite Nat2Z.id. unfold TableMeta.field in Hf. rewrite Hf. cbn [mbind option_bind].
  assert (field_is_null trx_fields m f d = Some (Val.is_null v)) as ->.
  { unfold field_is_null, TableMeta.field_index.
    rewrite (chained_index _ _ _ _ _ _ (mw_chained _ _ Hm) Hf), decide_False by lia.
    rewrite Z.add_0_l, Nat2Z.id. destruct null_field_at as (nf & Hnf & Hnf' & Hoff & Hsize).
    pose proof (field_bounds _ _ Hnf').
    unfold TableMeta.null_bit, TableMeta.bitmap_of_null_field. rewrite Hnf. cbn [mbind option_bind].
    unfold null_at, Bitmap.bit in Hnull. rewrite Hoff in Hnull.
    destruct (proj1 (Bitmap.get_bit_is_Some (drop (start nf) d) i)) as [b Hb].
    { rewrite length_drop. lia. }
    rewrite Hb in *. cbn in Hnull. by subst b. }
  cbn [mbind option_bind]. unfold stored_as. destruct (Val.is_null v) eqn:En; [by eexists|].
  specialize (Hw eq_refl). destruct Hfit as (Hok & [Hb Hs] & Ht).
  destruct Ht as [Ht|Ht]; [unfold Val.is_null in En; apply bool_decide_eq_false_1 in En; by rewrite Ht in En|].
  destruct Hok as [Hty | [Hty | [Hty Hl]]].
  1, 2: destruct Hs as [Hs Hls]; [rewrite Ht; auto|];
    unfold Val.set_data, Val.set_type, Val.set_string, Val.set_text, Val.set_chars; cbn [attr_type_]; rewrite Hty;
    rewrite decide_True by lia; rewrite (read_string f v d) by auto; cbn; by eexists.
  pose proof (read_number f v d (proj1 Hb) Hl Ht Hty Hw) as Hr.
  destruct (load32_take _ _ Hr (proj1 Hb)) as [Hload Hlb].
  unfold Val.set_data, Val.set_type. cbn [attr_type_ num_value_ str_value_].
  destruct Hty as [Hty | [Hty | Hty]]; rewrite Hty.
  1, 2: unfold load_bytes; rewrite decide_True by (cbn; lia); cbn; rewrite drop_0, Hr; by eexists.
  rewrite decide_True by done. unfold load_int. rewrite Hload.
  destruct (load32_is_Some (num_value_ v)) as [y Hy]; [rewrite (proj1 Hb); lia|]. rewrite Hy. cbn.
  eexists. split; [done|]. cbn. split; [done|]. by apply store_load32.
Qed.

(** ** The first loop *)
Lemma store32_bytes4 x : bytes4 (store32 x).
Proof.
  split; [done|]. unfold store32. change 255 with (Z.ones 8).
  repeat constructor; rewrite Z.land_ones by lia; apply Z.mod_pos_bound; lia.
Qed.
Lemma c_string_no_nul s str : c_string s = Some str → no_nul str.
Proof.
  revert str. induction s as [|c s IH]; intros str; cbn; [done|]. case_decide; [intros [= <-]; constructor|].
  destruct (c_string s) as [s'|]; [|done]. intros [= <-]. constructor; [done|]. by apply IH.
Qed.
Lemma set_string_wf s v v' :
  bytes4 (num_value_ v) → Val.set_string (Val.c_str s) 0 v = Some v' → value_wf v' ∧ attr_type_ v' = CHARS.
Proof.
  intros Hb. unfold Val.set_string, Val.set_chars. rewrite decide_False by lia.
  destruct (c_string _) as [str|] eqn:Hs; [|done]. cbn. intros [= <-]. split; [|done].
  split; [done|]. intros _. split; [by eapply c_string_no_nul|done].
Qed.
Lemma type_cast_wf ty v v' :
  value_wf v → (ty = CHARS → attr_type_ v ≠ DATES) → Val.type_cast ty v = Some (true, v') →
  value_wf v' ∧ attr_type_ v' = ty.
Proof.
  intros Hv Hne. destruct (Hv) as [Hb Hs]. unfold Val.type_cast.
  case_decide as Heq; [by intros [= <-]|].
  assert (∀ x str, value_wf (MkValue INTS 4 (store32 x) str)) as Hint.
  { intros x str. split; [apply store32_bytes4|]. cbn. by intros [?|?]. }
  assert (∀ x w, value_wf (Val.set_float x w)) as Hfloat.
  { intros x w. split; [apply store32_bytes4|]. cbn. by intros [?|?]. }
  assert (∀ w : Value, Some (false, w) = Some (true, v') → value_wf v' ∧ attr_type_ v' = ty) as Hno
    by (intros w Hw; discriminate Hw).
  assert (∀ b x w, bytes4 (num_value_ w) → mbind (λ v', Some (true, v')) (Val.set_string (Val.c_str x) 0 w) = Some (b, v') →
    value_wf v' ∧ attr_type_ v' = CHARS) as Hstr.
  { intros b x w Hw. destruct (Val.set_string _ 0 w) as [w'|] eqn:He; [|discriminate]. cbn.
    intros [= <- <-]. by eapply set_string_wf. }
  destruct ty, (attr_type_ v) eqn:Ev; try apply Hno; try done.
  - by destruct (Hne eq_refl).
  - destruct (load_int _) as [x|]; [|discriminate]. by apply Hstr.
  - destruct (load_float _) as [x|]; [|discriminate]. by apply Hstr.
  - intros [= <-]. by split; [apply Hint|].
  - destruct (load_float _) as [x|]; [|discriminate]. cbn. destruct (round_float x) as [y|]; [|discriminate].
    intros [= <-]. by split; [apply Hint|].
  - intros [= <-]. by split; [apply Hint|].
  - intros [= <-]. by split; [apply Hfloat|].
  - destruct (load_int _) as [x|]; [|discriminate]. intros [= <-]. by split; [apply Hfloat|].
  - intros [= <-]. by split; [apply Hfloat|].
  - intros [= <-]. split; [|done]. split; [done|]. intros _. apply Hs. by left.
Qed.

(** A value the code can convert, or refuses, for a field. *)
Definition castable (f : FieldMeta.t) (v : Value) : Prop :=
  field_ok f ∧ value_wf v ∧ (FieldMeta.type f = CHARS → attr_type_ v ≠ DATES) ∧
  is_Some (Val.type_cast (FieldMeta.type f) v).
Definition converts (f : FieldMeta.t) (v v' : Value) : Prop :=
  if Val.is_null v then FieldMeta.nullable f = true ∧ v' = v
  else Val.type_cast (FieldMeta.type f) v = Some (true, v').
Definition refuses (f : FieldMeta.t) (v : Value) (rc : RC.t) : Prop :=
  if Val.is_null v then FieldMeta.nullable f = false ∧ rc = RC.SCHEMA_FIELD_NOT_NULLABLE
  else (∃ v', Val.type_cast (FieldMeta.type f) v = Some (false, v')) ∧ rc = RC.SCHEMA_FIELD_TYPE_MISMATCH.
Lemma converts_fits f v v' : castable f v → converts f v v' → fits f v'.
Proof.
  intros (Hok & Hv & Hne & _). unfold converts. destruct (Val.is_null v) eqn:En.
  - intros [_ ->]. split_and!; [done|done|left]. by apply bool_decide_eq_true_1 in En.
  - intros Hc. destruct (type_cast_wf _ _ _ Hv Hne Hc). split_and!; [done|done|by right].
Qed.

Lemma check_values_spec vs i :
  (∀ k v, vs !! k = Some v → ∃ f, TableMeta.field m (i + k) = Some f ∧ castable f v) →
  ∃ r, check_values m i vs = Some r ∧
    match r with
    | inr vs' => length vs' = length vs ∧
        ∀ k v v', vs !! k = Some v → vs' !! k = Some v' →
          ∃ f, TableMeta.field m (i + k) = Some f ∧ converts f v v'
    | inl rc => ∃ k v f, vs !! k = Some v ∧ TableMeta.field m (i + k) = Some f ∧ refuses f v rc
    end.
Proof.
  revert i. induction vs as [|v vs IH]; intros i Hvs; [by eexists|].
  destruct (Hvs 0%nat v eq_refl) as (f & Hf & Hc). rewrite Nat.add_0_r in Hf.
  destruct (IH (S i)) as (r & Hr & Hspec).
  { intros k w Hk. destruct (Hvs (S k) w Hk) as (g & Hg & ?). exists g. split; [|done].
    by replace (S i + k)%nat with (i + S k)%nat by lia. }
  cbn [check_values]. rewrite Hf. cbn [mbind option_bind]. rewrite Hr. cbn [mbind option_bind].
  assert (∀ v', converts f v v' → ∃ r', Some (match r with inl rc => inl rc | inr values => inr (v' :: values) end) = Some r' ∧
    match r' with
    | inr vs' => length vs' = length (v :: vs) ∧
        ∀ k w w', (v :: vs) !! k = Some w → vs' !! k = Some w' →
          ∃ f, TableMeta.field m (i + k) = Some f ∧ converts f w w'
    | inl rc => ∃ k v0 f, (v :: vs) !! k = Some v0 ∧ TableMeta.field m (i + k) = Some f ∧ refuses f v0 rc
    end) as Hcont.
  { intros v' Hv'. eexists. split; [done|]. destruct r as [rc|vs'].
    - destruct Hspec as (k & w & g & Hk & Hg & ?). exists (S k), w, g. split_and!; [done| |done].
      by replace (i + S k)%nat with (S i + k)%nat by lia.
    - destruct Hspec as [Hl Hspec]. split; [cbn; by f_equal|]. intros [|k] w w' Hk Hk'.
      + cbn in Hk, Hk'. simplify_eq. exists f. by rewrite Nat.add_0_r.
      + cbn in Hk, Hk'. replace (i + S k)%nat with (S i + k)%nat by lia. by eapply Hspec. }
  assert (∀ rc, refuses f v rc → ∃ r', Some (inl rc) = Some (r' : RC.t + list Value) ∧
    match r' with
    | inr vs' => length vs' = length (v :: vs) ∧
        ∀ k w w', (v :: vs) !! k = Some w → vs' !! k = Some w' →
          ∃ f, TableMeta.field m (i + k) = Some f ∧ converts f w w'
    | inl rc => ∃ k v0 f, (v :: vs) !! k = Some v0 ∧ TableMeta.field m (i + k) = Some f ∧ refuses f v0 rc
    end) as Hstop.
  { intros rc Hrc. eexists. split; [done|]. exists 0%nat, v, f. by rewrite Nat.add_0_r. }
  unfold converts, refuses in Hcont, Hstop. destruct (Val.is_null v).
  - destruct (FieldMeta.nullable f); cbn [negb]; [by apply Hcont|by apply Hstop].
  - destruct Hc as (_ & _ & _ & [[ok v'] Hcast]). case_decide as Hty.
    + rewrite Hcast in *. cbn [mbind option_bind]. destruct ok; [by apply Hcont|].
      apply Hstop. split; [by eexists|done].
    + apply Hcont. unfold Val.type_cast. rewrite decide_True; [done|].
      destruct (decide (FieldMeta.type f = attr_type_ v)); [done|]. by destruct Hty.
Qed.
End row.

(** ** [make_record]: every value in its field, or the reason why not *)
Lemma make_record_spec (L : LibText) (U : Uninit) (trx_fields : option (list FieldMeta.t)) (m : TableMeta.t)
  (vs : list Value) (garbage : memory) (rid : RID.t) (cell : Value)
  (Hm : meta_wf trx_fields m) (Hg : record_ok m garbage)
  (Hvs : ∀ k v f, vs !! k = Some v → TableMeta.user_fields trx_fields m !! k = Some f → castable f v) :
  ∃ r, make_record trx_fields m vs garbage = Some r ∧
    match r with
    | inl rc =>
        rc = RC.SCHEMA_FIELD_MISSING ∧ length vs ≠ length (TableMeta.user_fields trx_fields m) ∨
        ∃ k v f, vs !! k = Some v ∧ TableMeta.user_fields trx_fields m !! k = Some f ∧ refuses f v rc
    | inr data =>
        record_ok m data ∧ length vs = length (TableMeta.user_fields trx_fields m) ∧
        ∀ k v f, vs !! k = Some v → TableMeta.user_fields trx_fields m !! k = Some f →
          ∃ v' c, converts f v v' ∧ stored_as f v' c ∧
            cell_at trx_fields (MkRowTuple (rid, data) m (TableMeta.fields m))
              (Z.of_nat (TableMeta.sys_field_num trx_fields + k)) cell = Some (RC.SUCCESS, c)
    end.
Proof.
  pose proof (mw_user _ _ Hm) as Huser. unfold TableMeta.field_num in Huser.
  unfold TableMeta.user_fields in *. rewrite length_drop. set (sys := TableMeta.sys_field_num trx_fields) in *.
  unfold make_record. fold sys. unfold TableMeta.field_num. case_decide as Hn.
  { eexists. split; [done|]. left. split; [done|lia]. }
  assert (∀ k v, vs !! k = Some v → ∃ f, TableMeta.field m (sys + k) = Some f ∧ castable f v) as Hcast.
  { intros k v Hk. pose proof (lookup_lt_Some _ _ _ Hk).
    destruct (lookup_lt_is_Some_2 (TableMeta.fields m) (sys + k)) as [f Hf]; [lia|].
    exists f. split; [done|]. apply (Hvs k); [done|]. by rewrite lookup_drop. }
  destruct (check_values_spec m vs sys Hcast) as (r & -> & Hr). cbn [mbind option_bind]. destruct r as [rc|vs'].
  { eexists. split; [done|]. right. destruct Hr as (k & v & f & Hk & Hf & ?). exists k, v, f.
    by rewrite lookup_drop. }
  destruct Hr as [Hl Hconv].
  assert (∀ k v', vs' !! k = Some v' → ∃ v f, vs !! k = Some v ∧ TableMeta.field m (sys + k) = Some f ∧
    converts f v v' ∧ fits f v') as Hfits.
  { intros k v' Hk. destruct (lookup_lt_is_Some_2 vs k) as [v Hv]; [apply lookup_lt_Some in Hk; lia|].
    destruct (Hconv k v v' Hv Hk) as (f & Hf & Hc). exists v, f. split_and!; [done..|].
    destruct (Hcast k v Hv) as (f' & Hf' & Hca). rewrite Hf in Hf'. injection Hf' as <-.
    by eapply converts_fits. }
  destruct (write_values_spec trx_fields m Hm vs' sys garbage Hg) as (d & -> & Hd & _ & _ & Hw); [lia| |].
  { intros k v' Hk. destruct (Hfits k v' Hk) as (v & f & _ & Hf & _ & ?). by exists f. }
  eexists. split; [done|]. split_and!; [done|lia|]. intros k v f Hk Hf. rewrite lookup_drop in Hf.
  destruct (lookup_lt_is_Some_2 vs' k) as [v' Hv']; [apply lookup_lt_Some in Hk; lia|].
  destruct (Hfits k v' Hv') as (v0 & f0 & Hv0 & Hf0 & Hc & Hfit). unfold TableMeta.field in Hf0. simplify_eq.
  destruct (Hw k v' f Hv' Hf) as [Hnull Hwr].
  destruct (cell_at_field trx_fields m Hm rid d (sys + k) f v' cell) as (c & Hcell & Hst); [done|lia|done..|].
  by exists v', c.
Qed.
