(* ===== verification/SqlTheorems.v ===== *)
(** * Values and rows: the theorems

    Dates and numbers survive their text; the order of the values of a column; what
    [make_record] stores is what a row shows. *)
From S2P Require Import Prelude RidKey Comparator Bitmap TableMeta SqlValue SqlValueCorrect Row RowCorrect.
From Stdlib Require Import ZArith Lia Floats.SpecFloat.
From stdpp Require Import base option strings list.
Local Open Scope Z_scope.

(** A date is its own text: whatever string [convert_string_to_date] accepts, the
    date it gives is one of the calendar, its text [date_to_string] converts to the same
    date, the codes are ordered as the calendar is, and -1, which stands for a refusal,
    is never the code of a date. *)
Theorem date_roundtrip (s s' : memory) (x x' : Z)
  (Hs : convert_string_to_date s = Some x) (Hs' : convert_string_to_date s' = Some x') :
  (x = -1 ∨ convert_string_to_date (Val.c_str (date_to_string x)) = Some x) ∧
  (x ≠ -1 → x' ≠ -1 → ∃ y mo d y' mo' d',
     calendar y mo d ∧ x = encode_date y mo d ∧ calendar y' mo' d' ∧ x' = encode_date y' mo' d' ∧
     0 <= x ∧ (x < x' ↔ date_before y mo d y' mo' d') ∧
     ∃ c, compare_date (store32 x) (store32 x') = Some c ∧ (c < 0 ↔ date_before y mo d y' mo' d')).
Proof.
  destruct (convert_date_inv _ _ Hs) as [->|(y & mo & d & Hc & ->)]; [by split; [left|]|].
  split; [right; by apply date_text|]. intros _ Hx'.
  destruct (convert_date_inv _ _ Hs') as [?|(y' & mo' & d' & Hc' & ->)]; [done|].
  exists y, mo, d, y', mo', d'. split_and!; [done|done|done|done| |by apply encode_date_order|].
  { pose proof (calendar_small _ _ _ Hc). unfold encode_date. lia. }
  assert (∀ x, is_int32 x → load_int (store32 x) = Some x) as Hload.
  { intros x Hx. rewrite <-(app_nil_r (store32 x)). by apply load_int_store32. }
  unfold compare_date. rewrite !Hload by by apply encode_date_int32. eexists. split; [done|].
  rewrite <-(encode_date_order _ _ _ _ _ _ Hc Hc'). repeat case_decide; lia.
Qed.
Lemma date_roundtrip_witness :
  convert_string_to_date (Val.c_str (text "2024-2-29")) = Some 20240229 ∧
  convert_string_to_date (Val.c_str (text "2023-2-29")) = Some (-1) ∧
  date_to_string 20240229 = text "2024-02-29" ∧
  (20240229 = -1 ∨ convert_string_to_date (Val.c_str (date_to_string 20240229)) = Some 20240229).
Proof.
  split_and!; [vm_compute; reflexivity|vm_compute; reflexivity|vm_compute; reflexivity|].
  apply (date_roundtrip (Val.c_str (text "2024-2-29")) (Val.c_str (text "2024-2-29")) 20240229 20240229);
    vm_compute; reflexivity.
Defined.

(** ** A library for the witnesses *)
Definition demo_text : LibText := {|
  stof := λ _, None; stream_float := λ _, None; show_float := λ _, []; show_fixed2 := λ _, [];
  regex_match := λ s p, Some (bool_decide (s = p)) |}.
Definition demo_uninit : Uninit := [0; 0; 0; 0].

(** The order of strings with other characters is no order: [compare_string] compares
    the common part as unsigned bytes and the rest as a signed one, so that a string can
    come before a second, the second before a third, and the third before the first. *)
Lemma text_order_cycle (L : LibText) (n1 n2 n3 : memory) :
  let a := MkValue CHARS 1 n1 (text "a") in
  let ab := MkValue CHARS 2 n2 (text "ab") in
  let ae := MkValue CHARS 3 n3 (text "a" ++ [195; 164]) in
  Val.lt a ab = Some true ∧ Val.lt ab ae = Some true ∧ Val.lt ae a = Some true.
Proof. by vm_compute. Qed.

(** The order of floats is no order either: two that differ by less than [EPSILON] compare as
    equal, so that equality is not transitive. *)
Definition float_value (bits : Z) : Value := MkValue FLOATS 4 (store32 bits) [].
Lemma float_order_cycle (L : LibText) :
  let zero := float_value 0 in
  let half := float_value 891359152 in
  let one := float_value 899747760 in
  Val.compare_value zero half = Some CompOp.EQUAL_TO ∧ Val.compare_value half one = Some CompOp.EQUAL_TO ∧
  Val.compare_value zero one = Some CompOp.LESS_THAN.
Proof. by vm_compute. Qed.

(** C21: The order of the values of a column.  On nulls and values of one of the types INTS,
    DATES, BOOLEANS, CHARS and TEXTS, where strings have 7-bit characters, [compare_value]
    is a total preorder with the nulls first; the comparison operators say the same, but
    are false as soon as a null is compared.  On the other values it is none: three floats,
    0, 0.0000006 and 0.0000012, are such that the first equals the second, the second the
    third, and the first comes before the third; and three strings with a character above
    127 form a cycle. *)
Theorem value_order (L : LibText) (U : Uninit) (ty : AttrType) (v1 v2 : Value)
  (Hty : ordered_type ty) (H1 : col_value ty v1) (H2 : col_value ty v2) :
  (TotalCmp (column_cmp ty) ∧
  Val.compare_value v1 v2 = Some (Val.op_of_sign (column_cmp ty v1 v2)) ∧
  Val.lt v1 v2 = Some (bool_decide (column_cmp ty v1 v2 < 0)) ∧
  ∀ op, comparison op = true →
    Val.compare v1 op v2 =
      Some (negb (Val.is_null v1 || Val.is_null v2) && Val.decide_op op (column_cmp ty v1 v2))) ∧
  (∃ x y z, [attr_type_ x; attr_type_ y; attr_type_ z] = [FLOATS; FLOATS; FLOATS] ∧
    Val.compare_value x y = Some CompOp.EQUAL_TO ∧ Val.compare_value y z = Some CompOp.EQUAL_TO ∧
    Val.compare_value x z = Some CompOp.LESS_THAN) ∧
  (∃ x y z, [attr_type_ x; attr_type_ y; attr_type_ z] = [CHARS; CHARS; CHARS] ∧
    Val.lt x y = Some true ∧ Val.lt y z = Some true ∧ Val.lt z x = Some true).
Proof.
  split; [|split].
  2:{ exists (float_value 0), (float_value 891359152), (float_value 899747760). split; [done|apply (float_order_cycle L)]. }
  2:{ eexists _, _, _. split; [|exact (text_order_cycle L [] [] [])]. done. }
  split_and!; [apply _|by apply compare_value_column|by apply lt_column|by intros op Hop; apply compare_column].
Qed.
Lemma value_order_witness :
  let v1 := MkValue CHARS 1 [0; 0; 0; 0] (text "a") in
  let v2 := MkValue CHARS 2 [0; 0; 0; 0] (text "ab") in
  @Val.compare_value demo_text v1 v2 = Some CompOp.LESS_THAN.
Proof.
  intros v1 v2. destruct (value_order demo_text demo_uninit CHARS v1 v2) as [(_ & -> & _) _].
  - right. right. right. by left.
  - right. split; [done|]. split; [cbn; lia|]. intros _. repeat constructor; cbn; lia.
  - right. split; [done|]. split; [cbn; lia|]. intros _. repeat constructor; cbn; lia.
  - reflexivity.
Defined.

(** C19: [make_record] stores the values of a statement field by field, whatever the memory
    of the record held: every value reads back from its field, a null as a null, any other
    as the value converted to the type of the field, a string cut to the length of the
    field; it fails only for a wrong number of values, a null in a field that does not
    take one, or a value that cannot be converted. *)
Theorem make_record_correct (L : LibText) (U : Uninit) (trx_fields : option (list FieldMeta.t)) (m : TableMeta.t)
  (vs : list Value) (garbage : memory) (rid : RID.t) (cell : Value)
  (Hm : meta_wf trx_fields m) (Hg : record_ok m garbage)
  (Hvs : ∀ k v f, vs !! k = Some v → TableMeta.user_fields trx_fields m !! k = Some f → castable f v) :
  ∃ r, make_record trx_fields m vs garbage = Some r ∧
    match r with
    | inl rc =>
        rc = RC.SCHEMA_FIELD_MISSING ∧ length vs ≠ length (TableMeta.user_fields trx_fields m) ∨
        ∃ k v f, vs !! k = Some v ∧ TableMeta.user_fields trx_fields m !! k = Some f ∧ refuses f v rc
    | inr data =>
        record_ok m data ∧ length vs = length (TableMeta.user_fields trx_fields m) ∧
        ∀ k v f, vs !! k = Some v → TableMeta.user_fields trx_fields m !! k = Some f →
          ∃ v' c, converts f v v' ∧ stored_as f v' c ∧
            cell_at trx_fields (MkRowTuple (rid, data) m (TableMeta.fields m))
              (Z.of_nat (TableMeta.sys_field_num trx_fields + k)) cell = Some (RC.SUCCESS, c)
    end.
Proof. by apply make_record_spec. Qed.
Definition demo_attrs : list AttrInfo :=
  [MkAttrInfo INTS "id" 4 false; MkAttrInfo CHARS "name" 3 true; MkAttrInfo DATES "born" 4 true].
Definition demo_table : TableMeta.t :=
  match TableMeta.init None 1 "people" demo_attrs with Done (inr m) => m | _ => TableMeta.mk 0 "" [] [] 0 end.
Definition demo_values : list Value :=
  [MkValue INTS 4 (store32 7) []; MkValue CHARS 5 [0; 0; 0; 0] (text "carol"); MkValue NULLS 0 [0; 0; 0; 0] []].
Lemma make_record_correct_witness :
  let garbage := replicate (Z.to_nat (TableMeta.record_size demo_table)) 255 in
  let sys := TableMeta.sys_field_num None in
  ∃ data, @make_record demo_text None demo_table demo_values garbage = Some (inr data) ∧
    record_ok demo_table data ∧
    ∃ c, cell_at None (MkRowTuple (RID.mk 1 0, data) demo_table (TableMeta.fields demo_table))
           (Z.of_nat (sys + 1)) (MkValue NULLS 0 [0; 0; 0; 0] []) = Some (RC.SUCCESS, c) ∧ str_value_ c = text "car".
Proof.
  intros garbage sys.
  destruct (make_record_correct demo_text demo_uninit None demo_table demo_values garbage (RID.mk 1 0)
    (MkValue NULLS 0 [0; 0; 0; 0] [])) as (r & Hr & Hspec).
  - apply (init_wf None 1 "people" demo_attrs). reflexivity.
  - reflexivity.
  - assert (Forall2 (@castable demo_text) (TableMeta.user_fields None demo_table) demo_values) as Hall.
    { assert (∀ f v, field_ok f → value_wf v → (FieldMeta.type f = CHARS → attr_type_ v ≠ DATES) →
        is_Some (@Val.type_cast demo_text (FieldMeta.type f) v) → @castable demo_text f v) as Hc
        by (intros f v ? ? ? ?; unfold castable; split_and!; assumption).
      assert (∀ x, Bitmap.byte_ok x ↔ 0 <= x < 256) as Hbyte by done.
      constructor; [|constructor; [|constructor; [|constructor]]]; apply Hc; try (by eexists); try discriminate.
      + right. right. split; [by left|done].
      + split; [apply store32_bytes4|]. by intros [?|?].
      + by left.
      + split; [split; [done|repeat constructor; apply Hbyte; lia]|]. intros _. split; [|done]. by repeat constructor.
      + right. right. split; [by right; right|done].
      + split; [split; [done|repeat constructor; apply Hbyte; lia]|]. by intros [?|?]. }
    intros k v f Hv Hf. by eapply (Forall2_lookup_lr (@castable demo_text)).
  - assert (@make_record demo_text None demo_table demo_values garbage = @make_record demo_text None demo_table demo_values garbage) as Heq by done.
    rewrite Hr in Heq at 1. vm_compute in Heq. injection Heq as ->.
    destruct Hspec as (Hd & _ & Hcell). eexists. split; [exact Hr|]. split; [exact Hd|].
    destruct (Hcell 1%nat _ _ eq_refl eq_refl) as (v' & c & Hc & Hst & Hcell').
    exists c. split; [exact Hcell'|]. injection Hc as <-. destruct Hst as [_ Hst]. exact Hst.
Defined.
