(* ===== verification/Expr.v ===== *)
(** * Expressions and tuples ([sql/expr/expression.h], [sql/expr/tuple.h], [sql/expr/tuple_cell.h])

    The classes derived from [Expression] and [Tuple] are the constructors of two inductive
    types, their virtual functions are recursive functions.  [get_value] and [cell_at]
    write into a value the caller passes, which they return next to the return code;
    without a value of the [option] the code fails an assertion, follows a null pointer or
    is otherwise undefined.  A subquery stands for the values its last execution left. *)
From S2P Require Import Prelude RidKey Comparator Bitmap TableMeta SqlValue Row.
From Stdlib Require Import ZArith Lia Floats.SpecFloat.
From stdpp Require Import base option strings list.
Local Open Scope Z_scope.

(** ** [AggreType], [Field], [TupleCellSpec] *)
Module Aggre.
Inductive t : Set := NONE | MAX | MIN | COUNT | COUNT_ALL | AVG | SUM.
#[global] Instance t_eq_dec : EqDecision t.
Proof. solve_decision. Defined.
End Aggre.

Record Field : Set := MkField { fd_table : TableMeta.t; fd_meta : FieldMeta.t }.
Definition fd_table_name (f : Field) : string := TableMeta.name (fd_table f).
Definition fd_field_name (f : Field) : string := FieldMeta.name (fd_meta f).
Definition fd_attr_type (f : Field) : AttrType := FieldMeta.type (fd_meta f).

(** [aggre_type_] has no value where no constructor has set it *)
Record TupleCellSpec : Set := MkCellSpec {
  table_name_ : string;
  field_name_ : string;
  aggre_type_ : option Aggre.t;
  alias_ : string
}.
Definition spec_alias (table_name field_name : string) (alias : option string) : string :=
  match alias with
  | Some alias => alias
  | None =>
      match table_name with
      | EmptyString => field_name
      | _ => String.append table_name (String.append "." field_name)
      end
  end.
Definition field_spec (table_name field_name : string) (alias : option string) : TupleCellSpec :=
  MkCellSpec table_name field_name None (spec_alias table_name field_name alias).
Definition set_aggre_type (a : Aggre.t) (s : TupleCellSpec) : TupleCellSpec :=
  MkCellSpec (table_name_ s) (field_name_ s) (Some a) (alias_ s).
Definition alias_spec (alias : string) : TupleCellSpec := MkCellSpec "" "" None alias.

(** ** [Expression] *)
Module Conj.
Inductive t : Set := AND | OR.
#[global] Instance t_eq_dec : EqDecision t.
Proof. solve_decision. Defined.
End Conj.
Module Arith.
Inductive t : Set := ADD | SUB | MUL | DIV | NEGATIVE.
End Arith.

(** [SubQueryExpr]: [plan_] names its physical operator, [select_type] is the type of the
    first expression it selects *)
Record SubQuery : Set := MkSubQuery {
  plan_ : nat;
  select_type : AttrType;
  need_parent_tuple_ : bool;
  finished_ : bool;
  value_list_ : list Value
}.
Record AggreExpr : Set := MkAggre { ag_type : Aggre.t; ag_field : Field }.

Module Expr.
Inductive t : Set :=
| FieldExpr (f : Field)
| ValueExpr (v : Value)
| CastExpr (child : t) (cast_type : AttrType)
| ComparisonExpr (comp : CompOp.t) (left_ right_ : t)
| ConjunctionExpr (type : Conj.t) (children : list t)
| ArithmeticExpr (type : Arith.t) (left_ : t) (right_ : option t)
| ValueListExpr (l : list Value)
| SubQueryExpr (q : SubQuery)
| InExpr (left_ : t) (comp : CompOp.t) (right_ : t)
| ExistsExpr (comp : CompOp.t) (right_ : t)
| AggreExpression (a : AggreExpr).

Section ind.
Context (P : t → Prop).
Context (HField : ∀ f, P (FieldExpr f)) (HValue : ∀ v, P (ValueExpr v)).
Context (HCast : ∀ c ty, P c → P (CastExpr c ty)).
Context (HComp : ∀ op l r, P l → P r → P (ComparisonExpr op l r)).
Context (HConj : ∀ ty cs, Forall P cs → P (ConjunctionExpr ty cs)).
Context (HArith1 : ∀ ty l, P l → P (ArithmeticExpr ty l None)).
Context (HArith : ∀ ty l r, P l → P r → P (ArithmeticExpr ty l (Some r))).
Context (HList : ∀ l, P (ValueListExpr l)) (HSub : ∀ q, P (SubQueryExpr q)).
Context (HIn : ∀ l op r, P l → P r → P (InExpr l op r)) (HExists : ∀ op r, P r → P (ExistsExpr op r)).
Context (HAggre : ∀ a, P (AggreExpression a)).
(** induction with a hypothesis for every child of a conjunction *)
Fixpoint expr_ind (e : t) : P e :=
  match e with
  | FieldExpr f => HField f
  | ValueExpr v => HValue v
  | CastExpr c ty => HCast c ty (expr_ind c)
  | ComparisonExpr op l r => HComp op l r (expr_ind l) (expr_ind r)
  | ConjunctionExpr ty cs =>
      HConj ty cs ((fix go (cs : list t) : Forall P cs :=
        match cs with
        | [] => Forall_nil_2 P
        | c :: cs => Forall_cons_2 P c cs (expr_ind c) (go cs)
        end) cs)
  | ArithmeticExpr ty l None => HArith1 ty l (expr_ind l)
  | ArithmeticExpr ty l (Some r) => HArith ty l r (expr_ind l) (expr_ind r)
  | ValueListExpr l => HList l
  | SubQueryExpr q => HSub q
  | InExpr l op r => HIn l op r (expr_ind l) (expr_ind r)
  | ExistsExpr op r => HExists op r (expr_ind r)
  | AggreExpression a => HAggre a
  end.
End ind.

(** [value_type] *)
Fixpoint value_type (e : t) : option AttrType :=
  match e with
  | FieldExpr f => Some (fd_attr_type f)
  | ValueExpr v => Some (attr_type_ v)
  | CastExpr _ cast_type => Some cast_type
  | ComparisonExpr _ _ _ | ConjunctionExpr _ _ | InExpr _ _ _ | ExistsExpr _ _ => Some BOOLEANS
  | ArithmeticExpr type left_ right_ =>
      match right_ with
      | None => value_type left_
      | Some right_ =>
          l ← value_type left_;
          if decide (l = INTS) then
            r ← value_type right_;
            Some (if decide (r = INTS) then match type with Arith.DIV => FLOATS | _ => INTS end else FLOATS)
          else Some FLOATS
      end
  | ValueListExpr l => attr_type_ <$> head l
  | SubQueryExpr q => Some (select_type q)
  | AggreExpression a =>
      Some (match ag_type a with
            | Aggre.MAX | Aggre.MIN | Aggre.SUM => fd_attr_type (ag_field a)
            | Aggre.AVG => FLOATS
            | Aggre.COUNT | Aggre.COUNT_ALL => INTS
            | Aggre.NONE => UNDEFINED
            end)
  end.
(** the list of an expression that is a [ValueListExpr] or derived from it *)
Definition list_of (e : t) : option (list Value) :=
  match e with ValueListExpr l => Some l | SubQueryExpr q => Some (value_list_ q) | _ => None end.

Section eval.
Context `{!LibText} `{!Uninit}.

Definition cast (cast_type : AttrType) (value cast_value : Value) : option (RC.t * Value) :=
  if decide (cast_type = attr_type_ value) then Some (RC.SUCCESS, value)
  else
    match cast_type with
    | BOOLEANS => val ← Val.get_boolean value; Some (RC.SUCCESS, Val.set_boolean val cast_value)
    | _ => Some (RC.INTERNAL, cast_value)
    end.
(** [numeric_limits<float>::max()], and the test for a divisor near 0 *)
Definition float_max : spec_float := float_of_bits (2 ^ 31 - 2 ^ 23 - 1).
Definition near_zero (f : spec_float) : bool :=
  SFltb (SFopp EPSILON) (to_double f) && SFltb (to_double f) EPSILON.
Definition calc_value (arithmetic_type : Arith.t) (target_type : AttrType) (left_ right_ value : Value)
  : option (RC.t * Value) :=
  v ← (if decide (target_type = INTS) then
         l ← Val.get_int left_;
         let with_right f := r ← Val.get_int right_; f r in
         x ← match arithmetic_type with
             | Arith.ADD => with_right (λ r, to_int32 (l + r))
             | Arith.SUB => with_right (λ r, to_int32 (l - r))
             | Arith.MUL => with_right (λ r, to_int32 (l * r))
             | Arith.DIV => with_right (λ r, if decide (r = 0) then Some (2 ^ 31 - 1) else to_int32 (Z.quot l r))
             | Arith.NEGATIVE => to_int32 (- l)
             end;
         Some (Val.set_int x value)
       else
         l ← Val.get_float left_;
         let with_right f := r ← Val.get_float right_; Some (f r) in
         x ← match arithmetic_type with
             | Arith.ADD => with_right (λ r, SFadd 24 128 l r)
             | Arith.SUB => with_right (λ r, SFsub 24 128 l r)
             | Arith.MUL => with_right (λ r, SFmul 24 128 l r)
             | Arith.DIV => with_right (λ r, if near_zero r then float_max else SFdiv 24 128 l r)
             | Arith.NEGATIVE => Some (SFopp l)
             end;
         Some (Val.set_float x value));
  Some (RC.SUCCESS, v).
(** [ValueListExpr::try_get_value] *)
Definition list_value (l : list Value) (value : Value) : RC.t * Value :=
  match l with
  | [] => (RC.SUCCESS, Val.new)
  | [v] => (RC.SUCCESS, v)
  | _ => (RC.INTERNAL, value)
  end.
(** [std::find] with [operator==] of the elements *)
Fixpoint contains (l : list Value) (value : Value) : option bool :=
  match l with
  | [] => Some false
  | v :: l => b ← Val.eq v value; if b : bool then Some true else contains l value
  end.
Definition exists_value (comp : CompOp.t) (right_ : t) (value : Value) : option (RC.t * Value) :=
  l ← list_of right_;
  Some (RC.SUCCESS, Val.set_boolean (xorb (bool_decide (l ≠ [])) (bool_decide (comp = CompOp.NOT_EXISTS))) value).

(** [r <-! c ;; k]: the value of [c], or an early return with its code *)
Definition on_success (c : option (RC.t * Value)) (value : Value) (k : Value → option (RC.t * Value))
  : option (RC.t * Value) :=
  '(rc, v) ← c; if RC.succ rc then k v else Some (rc, value).

(** [try_get_value]: without a tuple *)
Fixpoint try_get_value (e : t) (value : Value) : option (RC.t * Value) :=
  match e with
  | ValueExpr v => Some (RC.SUCCESS, v)
  | CastExpr child cast_type =>
      '(rc, value) ← try_get_value child value;
      if RC.succ rc then cast cast_type value value else Some (rc, value)
  | ComparisonExpr comp (ValueExpr left_) (ValueExpr right_) =>
      b ← Val.compare left_ comp right_; Some (RC.SUCCESS, Val.set_boolean b value)
  | ComparisonExpr _ _ _ => Some (RC.INVALID_ARGUMENT, value)
  | ArithmeticExpr type left_ right_ =>
      on_success (try_get_value left_ Val.new) value (λ left_value,
        target_type ← value_type e;
        match right_ with
        | None => calc_value type target_type left_value Val.new value
        | Some right_ =>
            on_success (try_get_value right_ Val.new) value (λ right_value,
              calc_value type target_type left_value right_value value)
        end)
  | ValueListExpr l => Some (list_value l value)
  | SubQueryExpr q => Some (list_value (value_list_ q) value)
  | ExistsExpr comp right_ => exists_value comp right_ value
  | FieldExpr _ | ConjunctionExpr _ _ | InExpr _ _ _ | AggreExpression _ => Some (RC.UNIMPLENMENT, value)
  end.
End eval.
End Expr.

(** ** [Tuple] *)
(** [AggregationTuple]; the fields it is projected to are never looked up *)
Record AggregationTuple : Set := MkAggregation {
  count_ : Z;
  all_null_ : list bool;
  counts_ : list Z;
  aggre_results_ : list Value;
  aggre_exprs_ : list AggreExpr
}.

Module Tuple.
Inductive t : Set :=
| Row (r : RowTuple)
| Project (speces : list TupleCellSpec) (tuple : option t)
| Expressions (expressions : list (string * Expr.t))
| Aggregation (a : AggregationTuple) (tuple : option t)
| ValueList (cells : list Value)
| Joined (left_ right_ : t)
| Compound (left_ right_ : t).

Section tuple.
Context `{!LibText} `{!Uninit} (trx_fields : option (list FieldMeta.t)).

Definition of_cell (r : option Value) (rc : RC.t) (cell : Value) : RC.t * Value :=
  match r with Some v => (RC.SUCCESS, v) | None => (rc, cell) end.
(** an index of a vector *)
Definition at_index {A} (l : list A) (index : Z) : option A :=
  if decide (0 <= index) then l !! Z.to_nat index else None.

Fixpoint cell_num (tuple : t) : option Z :=
  match tuple with
  | Row r => Some (Row.cell_num r)
  | Project speces _ => Some (Z.of_nat (length speces))
  | Expressions l => Some (Z.of_nat (length l))
  | Aggregation _ tuple => tuple ← tuple; cell_num tuple
  | ValueList cells => Some (Z.of_nat (length cells))
  | Joined l r | Compound l r => x ← cell_num l; y ← cell_num r; Some (x + y)
  end.

(** the aggregation a description means *)
Definition spec_matches (spec : TupleCellSpec) (a : AggreExpr) : bool :=
  bool_decide (fd_table_name (ag_field a) = table_name_ spec) &&
  bool_decide (fd_field_name (ag_field a) = field_name_ spec) &&
  bool_decide (Some (ag_type a) = aggre_type_ spec).
Fixpoint find_aggre (spec : TupleCellSpec) (exprs : list AggreExpr) (results : list Value) : option (option Value) :=
  match exprs with
  | [] => Some None
  | a :: exprs =>
      if spec_matches spec a then res ← head results; Some (Some res) else find_aggre spec exprs (tail results)
  end.
Fixpoint find_cell (tuple : t) (spec : TupleCellSpec) (cell : Value) : option (RC.t * Value) :=
  match tuple with
  | Row r => Row.find_cell trx_fields r (table_name_ spec) (field_name_ spec) cell
  | Project _ tuple => tuple ← tuple; find_cell tuple spec cell
  | Expressions l =>
      match List.find (λ e, bool_decide (alias_ spec = e.1)) l with
      | Some e => Expr.try_get_value e.2 cell
      | None => Some (RC.NOTFOUND, cell)
      end
  | Aggregation a _ =>
      aggre_type ← aggre_type_ spec;
      if decide (aggre_type ≠ Aggre.NONE) then
        r ← find_aggre spec (aggre_exprs_ a) (aggre_results_ a);
        Some (match r with Some v => (RC.SUCCESS, v) | None => (RC.NOTFOUND, cell) end)
      else Some (RC.NOTFOUND, cell)
  | ValueList _ => Some (RC.INTERNAL, cell)
  | Joined left_ right_ =>
      '(rc, cell) ← find_cell left_ spec cell;
      if decide (rc = RC.SUCCESS ∨ rc ≠ RC.NOTFOUND) then Some (rc, cell) else find_cell right_ spec cell
  | Compound left_ right_ =>
      '(rc, cell) ← find_cell left_ spec cell;
      if decide (rc = RC.SUCCESS) then Some (rc, cell) else find_cell right_ spec cell
  end.
Fixpoint cell_at (tuple : t) (index : Z) (cell : Value) : option (RC.t * Value) :=
  match tuple with
  | Row r => Row.cell_at trx_fields r index cell
  | Project speces tuple =>
      match at_index speces index, tuple with
      | Some spec, Some tuple => find_cell tuple spec cell
      | _, _ => Some (RC.INTERNAL, cell)
      end
  | Expressions l =>
      match at_index l index with
      | Some e => Expr.try_get_value e.2 cell
      | None => Some (RC.INTERNAL, cell)
      end
  | Aggregation _ tuple =>
      match tuple with Some tuple => cell_at tuple index cell | None => Some (RC.EMPTY, cell) end
  | ValueList cells =>
      Some (match at_index cells index with Some v => (RC.SUCCESS, v) | None => (RC.NOTFOUND, cell) end)
  | Joined left_ right_ =>
      l ← cell_num left_; r ← cell_num right_;
      if decide (0 <= index < l) then cell_at left_ index cell
      else if decide (l <= index < l + r) then cell_at right_ (index - l) cell
      else Some (RC.NOTFOUND, cell)
  | Compound left_ right_ =>
      l ← cell_num left_;
      if decide (index < l) then cell_at left_ index cell else cell_at right_ (index - l) cell
  end.
End tuple.
End Tuple.

(** ** [Expression::get_value] *)
Section get_value.
Context `{!LibText} `{!Uninit} (trx_fields : option (list FieldMeta.t)) (tuple : Tuple.t).
Import Expr.

(** the loop over the children of a conjunction, which share [tmp_value] *)
Definition conjunction_loop (get : t → Value → option (RC.t * Value)) (type : Conj.t) :
    list t → Value → Value → option (RC.t * Value) :=
  fix go children tmp_value value :=
    match children with
    | [] => Some (RC.SUCCESS, Val.set_boolean (bool_decide (type = Conj.AND)) value)
    | e :: children =>
        '(rc, tmp_value) ← get e tmp_value;
        if RC.succ rc then
          b ← Val.get_boolean tmp_value;
          if match type with Conj.AND => negb b | Conj.OR => b end
          then Some (RC.SUCCESS, Val.set_boolean b value)
          else go children tmp_value value
        else Some (rc, value)
    end.

Fixpoint get_value (e : t) (value : Value) : option (RC.t * Value) :=
  match e with
  | FieldExpr f => Tuple.find_cell trx_fields tuple (field_spec (fd_table_name f) (fd_field_name f) None) value
  | ValueExpr v => Some (RC.SUCCESS, v)
  | CastExpr child cast_type =>
      '(rc, cell) ← get_value child value;
      if RC.succ rc then cast cast_type cell cell else Some (rc, cell)
  | ComparisonExpr comp left_ right_ =>
      on_success (get_value left_ Val.new) value (λ left_value,
      on_success (get_value right_ Val.new) value (λ right_value,
        b ← Val.compare left_value comp right_value; Some (RC.SUCCESS, Val.set_boolean b value)))
  | ConjunctionExpr type children =>
      match children with
      | [] => Some (RC.SUCCESS, Val.set_boolean true value)
      | _ => conjunction_loop get_value type children Val.new value
      end
  | ArithmeticExpr type left_ right_ =>
      on_success (get_value left_ Val.new) value (λ left_value,
        right_ ← right_;
        on_success (get_value right_ Val.new) value (λ right_value,
          target_type ← value_type e;
          calc_value type target_type left_value right_value value))
  | ValueListExpr l => Some (list_value l value)
  | SubQueryExpr q => Some (list_value (value_list_ q) value)
  | InExpr left_ comp right_ =>
      on_success (get_value left_ Val.new) value (λ left_value,
        l ← list_of right_;
        b ← contains l left_value;
        Some (RC.SUCCESS, Val.set_boolean (if decide (comp = CompOp.NOT_IN) then negb b else b) value))
  | ExistsExpr comp right_ => exists_value comp right_ value
  | AggreExpression a =>
      Tuple.find_cell trx_fields tuple
        (set_aggre_type (ag_type a) (field_spec (fd_table_name (ag_field a)) (fd_field_name (ag_field a)) None)) value
  end.
End get_value.

(** ** [sql/expr/do_expr.cpp]: the subqueries of an expression are executed

    [executor q tuple]: the return code and the subquery afterwards; [set_parent_tuple]
    comes before it for a subquery that needs the tuple. *)
Section do_expr.
Context (executor : SubQuery → option Tuple.t → option (RC.t * SubQuery)).
Import Expr.

Definition do_subquery_expr (q : SubQuery) (tuple : option Tuple.t) : option (RC.t * SubQuery) :=
  if need_parent_tuple_ q then
    match tuple with None => Some (RC.SUCCESS, q) | Some _ => executor q tuple end
  else executor q None.
(** one side of a comparison, of [IN], of [EXISTS]: [rc] is kept when it is no subquery *)
Definition do_side (many : bool) (e : t) (tuple : option Tuple.t) (rc : RC.t) : option (RC.t * t * bool) :=
  match e with
  | SubQueryExpr q =>
      '(rc, q) ← do_subquery_expr q tuple;
      Some (rc, SubQueryExpr q, negb many && bool_decide (1 < length (value_list_ q))%nat)
  | _ => Some (rc, e, false)
  end.
Definition do_comparison_expr (comp : CompOp.t) (left_ right_ : t) (tuple : option Tuple.t) : option (RC.t * t) :=
  '(rc, left_, invalid) ← do_side false left_ tuple RC.SUCCESS;
  if invalid : bool then Some (RC.INTERNAL, ComparisonExpr comp left_ right_)
  else
    '(rc, right_, invalid) ← do_side false right_ tuple rc;
    Some (if invalid : bool then RC.INTERNAL else rc, ComparisonExpr comp left_ right_).
Definition do_in_expr (left_ : t) (comp : CompOp.t) (right_ : t) (tuple : option Tuple.t) : option (RC.t * t) :=
  '(rc, left_, _) ← do_side true left_ tuple RC.SUCCESS;
  '(rc, right_, _) ← do_side true right_ tuple rc;
  Some (rc, InExpr left_ comp right_).
Definition do_exists_expr (comp : CompOp.t) (right_ : t) (tuple : option Tuple.t) : option (RC.t * t) :=
  match right_ with
  | SubQueryExpr q => '(rc, q) ← do_subquery_expr q tuple; Some (rc, ExistsExpr comp (SubQueryExpr q))
  | _ => None
  end.
(** [do_expr]; the loop of [do_conjunction_expr] returns the code of the last child that has
    one *)
Fixpoint do_expr (e : t) (tuple : option Tuple.t) : option (RC.t * t) :=
  match e with
  | ConjunctionExpr type children =>
      '(rc, children) ←
        (fix go (children : list t) (rc : RC.t) : option (RC.t * list t) :=
           match children with
           | [] => Some (rc, [])
           | e :: children =>
               '(rc, e) ← match e with
                          | ConjunctionExpr _ _ | ComparisonExpr _ _ _ | InExpr _ _ _ | ExistsExpr _ _
                          | SubQueryExpr _ => do_expr e tuple
                          | _ => Some (rc, e)
                          end;
               '(rc, children) ← go children rc;
               Some (rc, e :: children)
           end) children RC.SUCCESS;
      Some (rc, ConjunctionExpr type children)
  | ComparisonExpr comp left_ right_ => do_comparison_expr comp left_ right_ tuple
  | InExpr left_ comp right_ => do_in_expr left_ comp right_ tuple
  | ExistsExpr comp right_ => do_exists_expr comp right_ tuple
  | SubQueryExpr q => '(rc, q) ← do_subquery_expr q tuple; Some (rc, SubQueryExpr q)
  | _ => Some (RC.SUCCESS, e)
  end.
End do_expr.
