(* ===== verification/Rewrite.v ===== *)
(** * Logical plans and their rewriting ([sql/operator/logical_operator.h], [sql/optimizer])

    A logical operator is a node with its expressions and its children; the rewriter
    applies the rules of [ExpressionRewriter], [PredicateRewriteRule] and
    [PredicatePushdownRewriter] from the root down, as often as one of them reports a
    change.  Every path of the rules returns [RC::SUCCESS], so a rewrite is the new tree
    and [change_made].  [vector::erase] in a loop over the vector is read as the iterator
    staying where it is, which is what the libraries do.  The functions that follow
    rewritten children have fuel; the sizes of the trees are enough of it. *)
From S2P Require Import Prelude RidKey Comparator TableMeta SqlValue Row Expr.
From Stdlib Require Import ZArith Lia.
From stdpp Require Import base option strings list.
Local Open Scope Z_scope.

Module Logical.
Inductive oper : Set :=
| CALC
| TABLE_GET (table : TableMeta.t) (readonly : bool) (predicates : list Expr.t)
| PREDICATE
| PROJECTION (expres : list Expr.t)
| JOIN
| INSERT (table : TableMeta.t) (values_list : list (list Value))
| UPDATE (table : TableMeta.t) (field_metas : list FieldMeta.t) (expr_list : list Expr.t)
| DELETE (table : TableMeta.t)
| EXPLAIN
| ORDER_BY (order_units : list (Field * bool))
| AGGREGATION (aggre_expressions : list AggreExpr).
Inductive t : Set := Node (type : oper) (expressions : list Expr.t) (children : list t).
Definition type (n : t) : oper := let 'Node o _ _ := n in o.
Definition expressions (n : t) : list Expr.t := let 'Node _ es _ := n in es.
Definition children (n : t) : list t := let 'Node _ _ cs := n in cs.
End Logical.
Import Expr.

(** ** Sizes *)
Fixpoint expr_size (e : Expr.t) : nat :=
  match e with
  | CastExpr c _ => S (expr_size c)
  | ComparisonExpr _ l r => S (expr_size l + expr_size r)
  | ConjunctionExpr _ cs => S (sum_list_with expr_size cs)
  | ArithmeticExpr _ l r => S (expr_size l + match r with Some r => expr_size r | None => 0 end)
  | InExpr l _ r => S (expr_size l + expr_size r)
  | ExistsExpr _ r => S (expr_size r)
  | _ => 1
  end.
Fixpoint node_size (n : Logical.t) : nat :=
  let 'Logical.Node _ es cs := n in S (sum_list_with expr_size es + sum_list_with node_size cs).

Section rewrite.
Context `{!LibText} `{!Uninit}.

(** ** [ComparisonSimplificationRule] *)
Definition comparison_simplification (expr : Expr.t) : option (Expr.t * bool) :=
  match expr with
  | ComparisonExpr _ _ _ =>
      '(sub_rc, value) ← try_get_value expr Val.new;
      Some (if RC.succ sub_rc then (ValueExpr value, true) else (expr, false))
  | _ => Some (expr, false)
  end.

(** ** [ConjunctionSimplificationRule] *)
Definition try_to_get_bool_constant (expr : Expr.t) : option (option bool) :=
  match expr with
  | ValueExpr value =>
      if decide (attr_type_ value = BOOLEANS) then Some <$> Val.get_boolean value else Some None
  | _ => Some None
  end.
(** the constant that decides a conjunction, and the one that can be left out *)
Definition deciding (type : Conj.t) : bool := match type with Conj.AND => false | Conj.OR => true end.
(** The loop at a child: [kept ++ child_exprs] is the vector.  A constant that decides the
    conjunction stops the loop with the first child of the vector. *)
Fixpoint conjunction_children (type : Conj.t) (kept child_exprs : list Expr.t) : option (list Expr.t + Expr.t) :=
  match child_exprs with
  | [] => Some (inl kept)
  | child_expr :: rest =>
      constant ← try_to_get_bool_constant child_expr;
      match constant with
      | None => conjunction_children type (kept ++ [child_expr]) rest
      | Some constant_value =>
          if Bool.eqb constant_value (deciding type) then inr <$> head (kept ++ child_exprs)
          else conjunction_children type kept rest
      end
  end.
Definition conjunction_simplification (expr : Expr.t) : option (Expr.t * bool) :=
  match expr with
  | ConjunctionExpr type child_exprs =>
      r ← conjunction_children type [] child_exprs;
      Some (match r with
            | inr child_expr => (child_expr, false)
            | inl [child_expr] => (child_expr, true)
            | inl child_exprs => (ConjunctionExpr type child_exprs, false)
            end)
  | _ => Some (expr, false)
  end.

(** ** [ExpressionRewriter] *)
(** a loop over expressions or operators that is undone by the first failure, with the
    disjunction of the changes *)
Fixpoint rewrite_each {A} (f : A → outcome (A * bool)) (l : list A) : outcome (list A * bool) :=
  match l with
  | [] => Done ([], false)
  | x :: l =>
      match f x with
      | Done (x, change) =>
          match rewrite_each f l with
          | Done (l, changes) => Done (x :: l, change || changes)
          | Crash => Crash
          | OutOfFuel => OutOfFuel
          end
      | Crash => Crash
      | OutOfFuel => OutOfFuel
      end
  end.
Definition from_option_crash {A} (o : option A) : outcome A := match o with Some a => Done a | None => Crash end.

Definition apply_rules (expr : Expr.t) : option (Expr.t * bool) :=
  '(expr, change1) ← comparison_simplification expr;
  '(expr, change2) ← conjunction_simplification expr;
  Some (expr, change1 || change2).
Fixpoint rewrite_expression (fuel : nat) (expr : Expr.t) : outcome (Expr.t * bool) :=
  match fuel with
  | O => OutOfFuel
  | S fuel =>
      outcome_bind (from_option_crash (apply_rules expr)) (λ '(expr, change_made),
        if change_made : bool then Done (expr, true)
        else
          match expr with
          | CastExpr child cast_type =>
              outcome_bind (rewrite_expression fuel child) (λ '(child, change_made),
                Done (CastExpr child cast_type, change_made))
          | ComparisonExpr comp left_expr right_expr =>
              outcome_bind (rewrite_expression fuel left_expr) (λ '(left_expr, left_change_made),
              outcome_bind (rewrite_expression fuel right_expr) (λ '(right_expr, right_change_made),
                Done (ComparisonExpr comp left_expr right_expr, left_change_made || right_change_made)))
          | ConjunctionExpr type children =>
              outcome_bind (rewrite_each (rewrite_expression fuel) children) (λ '(children, change_made),
                Done (ConjunctionExpr type children, change_made))
          | _ => Done (expr, false)
          end)
  end.
Definition rewrite_expr (expr : Expr.t) : outcome (Expr.t * bool) := rewrite_expression (expr_size expr) expr.
Fixpoint rewrite_expressions (oper : Logical.t) : outcome (Logical.t * bool) :=
  let 'Logical.Node type expressions child_opers := oper in
  outcome_bind (rewrite_each rewrite_expr expressions) (λ '(expressions, change_made),
  outcome_bind (rewrite_each rewrite_expressions child_opers) (λ '(child_opers, sub_change_made),
    Done (Logical.Node type expressions child_opers, change_made || sub_change_made))).

(** ** [PredicateRewriteRule] *)
Definition predicate_rewrite (oper : Logical.t) : option (Logical.t * bool) :=
  let 'Logical.Node type expressions child_opers := oper in
  match child_opers with
  | [Logical.Node Logical.PREDICATE [ValueExpr value] grand_child_opers] =>
      bool_value ← Val.get_boolean value;
      Some (Logical.Node type expressions (if bool_value : bool then grand_child_opers else []), true)
  | _ => Some (oper, false)
  end.

(** ** [PredicatePushdownRewriter] *)
Definition is_field (e : Expr.t) : bool := match e with FieldExpr _ => true | _ => false end.
Definition is_value (e : Expr.t) : bool := match e with ValueExpr _ => true | _ => false end.
(** what is left of the expression, and what is pushed down *)
Fixpoint get_exprs_can_pushdown (expr : Expr.t) : option Expr.t * list Expr.t :=
  match expr with
  | ConjunctionExpr Conj.AND child_exprs =>
      let '(kept, pushdown_exprs) :=
        (fix go (child_exprs : list Expr.t) : list Expr.t * list Expr.t :=
           match child_exprs with
           | [] => ([], [])
           | e :: child_exprs =>
               let '(e, pushed) := get_exprs_can_pushdown e in
               let '(kept, pushdown_exprs) := go child_exprs in
               (match e with Some e => e :: kept | None => kept end, pushed ++ pushdown_exprs)
           end) child_exprs in
      (Some (ConjunctionExpr Conj.AND kept), pushdown_exprs)
  | ComparisonExpr comp left_expr right_expr =>
      if decide (comp ≠ CompOp.EQUAL_TO) then (Some expr, [])
      else if negb (is_field left_expr) && negb (is_field right_expr) then (Some expr, [])
      else if negb (is_field left_expr) && negb (is_value left_expr) && negb (is_field right_expr) &&
              negb (is_value right_expr) then (Some expr, [])
      else (None, [expr])
  | _ => (Some expr, [])
  end.
Definition predicate_pushdown (oper : Logical.t) : Logical.t * bool :=
  match oper with
  | Logical.Node Logical.PREDICATE [predicate_expr]
      [Logical.Node (Logical.TABLE_GET table readonly predicates) expressions children] =>
      let '(kept, pushdown_exprs) := get_exprs_can_pushdown predicate_expr in
      let predicate_expr := default (ValueExpr (Val.of_bool true)) kept in
      match pushdown_exprs with
      | [] => (Logical.Node Logical.PREDICATE [predicate_expr]
                 [Logical.Node (Logical.TABLE_GET table readonly predicates) expressions children], false)
      | _ => (Logical.Node Logical.PREDICATE [predicate_expr]
                [Logical.Node (Logical.TABLE_GET table readonly pushdown_exprs) expressions children], true)
      end
  | _ => (oper, false)
  end.

(** ** [Rewriter] *)
Fixpoint rewrite (fuel : nat) (oper : Logical.t) : outcome (Logical.t * bool) :=
  match fuel with
  | O => OutOfFuel
  | S fuel =>
      outcome_bind (rewrite_expressions oper) (λ '(oper, change1),
      outcome_bind (from_option_crash (predicate_rewrite oper)) (λ '(oper, change2),
      let '(Logical.Node type expressions child_opers, change3) := predicate_pushdown oper in
      outcome_bind (rewrite_each (rewrite fuel) child_opers) (λ '(child_opers, change4),
        Done (Logical.Node type expressions child_opers, change1 || change2 || change3 || change4))))
  end.
(** [OptimizeStage::rewrite]: a pass after the other until one changes nothing; [passes] and
    [fuel] bound the passes and the depth of each *)
Fixpoint optimize_rewrite (passes : nat) (oper : Logical.t) : outcome Logical.t :=
  match passes with
  | O => OutOfFuel
  | S passes =>
      outcome_bind (rewrite (node_size oper) oper) (λ '(oper, change_made),
        if change_made : bool then optimize_rewrite passes oper else Done oper)
  end.
End rewrite.
