(* ===== verification/RewriteCorrect.v ===== *)
(** * The rewriter: soundness and termination

    [holds tuple e]: the predicate [e] is true of [tuple].  A where clause is a
    conjunction or a disjunction of atoms; it is [safe] when no constant that decides it
    comes after an atom that is not constant, and when a disjunction does not consist of
    false constants.  On safe clauses the rules keep the meaning, and a plan gives the same
    rows after the rewriter.  The passes end for every plan, since each pass that reports a
    change makes the plan smaller. *)
From S2P Require Import Prelude RidKey Comparator TableMeta SqlValue Row Expr Rewrite.
From Stdlib Require Import ZArith Lia.
From stdpp Require Import base option strings list.
Local Open Scope Z_scope.
Import Expr.

(** ** Sizes only shrink *)
Lemma sum_list_app {A} (f : A → nat) l1 l2 : sum_list_with f (l1 ++ l2) = (sum_list_with f l1 + sum_list_with f l2)%nat.
Proof. induction l1; cbn; lia. Qed.
Lemma sum_list_elem {A} (f : A → nat) l x : x ∈ l → (f x <= sum_list_with f l)%nat.
Proof. induction 1; cbn; lia. Qed.
Lemma expr_size_pos e : (0 < expr_size e)%nat.
Proof. destruct e; cbn; lia. Qed.
Lemma node_size_pos n : (0 < node_size n)%nat.
Proof. destruct n; cbn; lia. Qed.

(** A rewrite that reports a change makes the tree smaller, any other one does not make it
    larger. *)
Definition shrinks {A} (size : A → nat) (x : A) (r : A * bool) : Prop :=
  (size r.1 <= size x)%nat ∧ (r.2 = true → (size r.1 < size x)%nat).
Definition ends {A} (size : A → nat) (x : A) (c : outcome (A * bool)) : Prop :=
  match c with Done r => shrinks size x r | Crash => True | OutOfFuel => False end.

Lemma rewrite_each_ends {A} (size : A → nat) (f : A → outcome (A * bool)) l :
  (∀ x, x ∈ l → ends size x (f x)) →
  match rewrite_each f l with
  | Done (l', c) => (sum_list_with size l' <= sum_list_with size l)%nat ∧ length l' = length l ∧
      (c = true → (sum_list_with size l' < sum_list_with size l)%nat)
  | Crash => True
  | OutOfFuel => False
  end.
Proof.
  induction l as [|x l IH]; intros Hf; [done|]. cbn.
  pose proof (Hf x ltac:(by left)) as Hx.
  specialize (IH ltac:(intros y Hy; apply Hf; by right)).
  destruct (f x) as [[x' c]| |]; [|done|done]. destruct Hx as [Hle Hlt]. cbn in *.
  destruct (rewrite_each f l) as [[l' c']| |]; [|done|done]. destruct IH as (Hle' & Hlen & Hlt'). cbn.
  split_and!; [lia|lia|]. intros [->| ->]%orb_prop; [specialize (Hlt eq_refl)|specialize (Hlt' eq_refl)]; lia.
Qed.
(** a bind of two steps *)
Lemma ends_bind {A B} (sizeA : A → nat) (sizeB : B → nat) (x : A) (y : B) c (k : A * bool → outcome (B * bool)) :
  ends sizeA x c → (∀ x' ch, shrinks sizeA x (x', ch) → ends sizeB y (k (x', ch))) → ends sizeB y (outcome_bind c k).
Proof. destruct c as [[x' ch]| |]; cbn; [|done|done]. intros H Hk. by apply Hk. Qed.

Section sizes.
Context `{!LibText} `{!Uninit}.

Lemma comparison_shrinks e r : comparison_simplification e = Some r → shrinks expr_size e r.
Proof.
  destruct e; try (by intros [= <-]; split; [done|]). unfold comparison_simplification.
  destruct (try_get_value _ _) as [[rc v]|]; [|done]. cbn. intros [= <-].
  pose proof (expr_size_pos e1). pose proof (expr_size_pos e2).
  destruct (RC.succ rc); split; cbn; try done; lia.
Qed.
Lemma conjunction_children_size type kept cs r :
  conjunction_children type kept cs = Some r →
  match r with
  | inl kept' => (sum_list_with expr_size kept' <= sum_list_with expr_size kept + sum_list_with expr_size cs)%nat
  | inr e => (expr_size e <= sum_list_with expr_size kept + sum_list_with expr_size cs)%nat
  end.
Proof.
  revert kept. induction cs as [|e cs IH]; intros kept; cbn; [intros [= <-]; lia|].
  destruct (try_to_get_bool_constant e) as [[b|]|]; cbn; [| |done].
  - destruct (Bool.eqb b _).
    + destruct (head (kept ++ e :: cs)) as [h|] eqn:Hh; [|done]. intros [= <-].
      assert (h ∈ kept ++ e :: cs) as Hin.
      { destruct (kept ++ e :: cs); [done|]. injection Hh as <-. by left. }
      pose proof (sum_list_elem expr_size _ _ Hin) as Hle. rewrite sum_list_app in Hle. cbn in Hle. lia.
    + intros Hr%IH. destruct r; lia.
  - intros Hr%IH. rewrite sum_list_app in Hr. cbn in Hr. destruct r; lia.
Qed.
Lemma conjunction_shrinks e r : conjunction_simplification e = Some r → shrinks expr_size e r.
Proof.
  destruct e; try (by intros [= <-]; split; [done|]). unfold conjunction_simplification.
  destruct (conjunction_children _ _ _) as [[kept|h]|] eqn:Hc; [| |done]; cbn;
    pose proof (conjunction_children_size _ _ _ _ Hc) as Hs; cbn in Hs; intros [= <-].
  - destruct kept as [|h [|]]; split; cbn in *; try done; lia.
  - split; cbn; [lia|done].
Qed.
Lemma apply_rules_shrinks e r : apply_rules e = Some r → shrinks expr_size e r.
Proof.
  unfold apply_rules. destruct (comparison_simplification e) as [[e1 c1]|] eqn:H1; [|done]. cbn.
  destruct (conjunction_simplification e1) as [[e2 c2]|] eqn:H2; [|done]. cbn. intros [= <-].
  apply comparison_shrinks in H1 as [Hle1 Hlt1]. apply conjunction_shrinks in H2 as [Hle2 Hlt2]. cbn in *.
  split; cbn; [lia|]. intros [->| ->]%orb_prop; [specialize (Hlt1 eq_refl)|specialize (Hlt2 eq_refl)]; lia.
Qed.
Lemma rewrite_expression_ends fuel e :
  (expr_size e <= fuel)%nat → ends expr_size e (rewrite_expression fuel e).
Proof.
  revert e. induction fuel as [|fuel IH]; intros e He; [pose proof (expr_size_pos e); lia|]. cbn.
  destruct (apply_rules e) as [[e' c]|] eqn:Hr; [|done]. cbn.
  apply apply_rules_shrinks in Hr as [Hle Hlt]. cbn in *.
  destruct c; [by split; cbn; [|intros _; apply Hlt]|]. clear Hlt.
  destruct e'; try (by split; cbn in *; [lia|]).
  - apply (ends_bind expr_size _ e'); [apply IH; cbn in Hle; lia|]. intros x ch [H1 H2]. cbn in *.
    split; cbn; [lia|]. intros ->. specialize (H2 eq_refl). lia.
  - cbn in Hle. apply (ends_bind expr_size _ e'1); [apply IH; lia|]. intros x ch [H1 H2].
    apply (ends_bind expr_size _ e'2); [apply IH; lia|]. intros y ch' [H3 H4]. cbn in *.
    split; cbn; [lia|]. intros [->| ->]%orb_prop; [specialize (H2 eq_refl)|specialize (H4 eq_refl)]; lia.
  - cbn in Hle. pose proof (rewrite_each_ends expr_size (rewrite_expression fuel) children) as Heach.
    destruct (rewrite_each _ _) as [[cs ch]| |]; cbn in *; try done.
    + destruct Heach as (H1 & _ & H2).
      { intros x Hx. apply IH. pose proof (sum_list_elem expr_size _ _ Hx). lia. }
      split; cbn; [lia|]. intros ->. specialize (H2 eq_refl). lia.
    + apply Heach. intros x Hx. apply IH. pose proof (sum_list_elem expr_size _ _ Hx). lia.
Qed.

Lemma node_ind' (P : Logical.t → Prop) :
  (∀ o es cs, Forall P cs → P (Logical.Node o es cs)) → ∀ n, P n.
Proof.
  intros HP. fix IH 1. intros [o es cs]. apply HP. induction cs as [|c cs IHcs]; constructor; [apply IH|apply IHcs].
Qed.
Lemma rewrite_expressions_ends n : ends node_size n (rewrite_expressions n).
Proof.
  induction n as [o es cs IH] using node_ind'. cbn [rewrite_expressions].
  pose proof (rewrite_each_ends expr_size rewrite_expr es) as Hes.
  destruct (rewrite_each rewrite_expr es) as [[es' c1]| |]; cbn; [|done|].
  2:{ apply Hes. intros x _. by apply rewrite_expression_ends. }
  destruct Hes as (H1 & _ & H2); [intros x _; by apply rewrite_expression_ends|].
  pose proof (rewrite_each_ends node_size rewrite_expressions cs) as Hcs. rewrite Forall_forall in IH.
  destruct (rewrite_each rewrite_expressions cs) as [[cs' c2]| |]; cbn; [|done|by apply Hcs].
  destruct Hcs as (H3 & _ & H4); [done|]. split; cbn; [lia|].
  intros [->| ->]%orb_prop; [specialize (H2 eq_refl)|specialize (H4 eq_refl)]; lia.
Qed.
Lemma predicate_rewrite_shrinks n r : predicate_rewrite n = Some r → shrinks node_size n r.
Proof.
  destruct n as [o es cs]. cbn.
  destruct cs as [|[o' es' gcs] [|]]; try (by intros [= <-]; split; [done|]).
  2:{ destruct o'; try (by intros [= <-]; split; [done|]).
      destruct es' as [|[] [|]]; by intros [= <-]; split. }
  destruct o'; try (by intros [= <-]; split; [done|]).
  destruct es' as [|[] [|]]; try (by intros [= <-]; split; [done|]).
  destruct (Val.get_boolean v) as [b|]; [|done]. cbn. intros [= <-].
  destruct b; split; cbn; intros; lia.
Qed.
Lemma pushdown_size e :
  let '(kept, pushed) := get_exprs_can_pushdown e in
  (match kept with Some e' => expr_size e' | None => 0 end + sum_list_with expr_size pushed <= expr_size e)%nat ∧
  (pushed = [] → kept = Some e) ∧ (kept = None → ∃ op l r, e = ComparisonExpr op l r).
Proof.
  induction e as [| | | |ty cs Hcs| | | | | | |] using expr_ind; try (by split_and!; cbn; [lia|done|done]).
  - cbn. case_decide; [split_and!; cbn; [lia|done|done]|].
    destruct (negb (is_field e1) && negb (is_field e2)); [split_and!; cbn; [lia|done|done]|].
    destruct (_ && _); [split_and!; cbn; [lia|done|done]|].
    split_and!; cbn; [lia|done|]. intros _. by eexists _, _, _.
  - destruct ty; [|split_and!; cbn; [lia|done|done]]. cbn [get_exprs_can_pushdown].
    set (go := fix go (child_exprs : list Expr.t) : list Expr.t * list Expr.t := _).
    assert (let '(kept, pushed) := go cs in
      (sum_list_with expr_size kept + sum_list_with expr_size pushed <= sum_list_with expr_size cs)%nat ∧
      (pushed = [] → kept = cs)) as Hgo.
    { induction Hcs as [|c cs Hc _ IHcs]; [done|]. cbn [go]. fold go.
      destruct (get_exprs_can_pushdown c) as [k p]. destruct (go cs) as [kept pushed].
      destruct Hc as (Hs & Hp & _), IHcs as [Hs' Hp']. rewrite sum_list_app. cbn. split.
      - destruct k; cbn; lia.
      - intros [-> ->]%app_nil. rewrite Hp by done. by rewrite Hp'. }
    destruct (go cs) as [kept pushed]. destruct Hgo as [Hs Hp]. cbn. split_and!; [lia| |done].
    intros Hnil. by rewrite Hp.
Qed.
Lemma predicate_pushdown_shrinks n : shrinks node_size n (predicate_pushdown n).
Proof.
  assert (shrinks node_size n (n, false)) as Hsame by (by split).
  destruct n as [o es cs]. destruct o; try done. destruct es as [|e [|]]; try done.
  destruct cs as [|[o' es' gcs] [|]]; try done; try (by destruct o').
  destruct o'; try done. cbn. pose proof (pushdown_size e) as Hp.
  destruct (get_exprs_can_pushdown e) as [kept pushed]. destruct Hp as (Hs & Hnil & Hnone).
  destruct pushed as [|p pushed].
  - rewrite Hnil by done. by split; cbn.
  - pose proof (expr_size_pos p). destruct kept as [e'|]; cbn in *.
    + split; cbn; intros; lia.
    + destruct (Hnone eq_refl) as (op & l & r & ->). cbn in *.
      pose proof (expr_size_pos l). pose proof (expr_size_pos r). split; cbn; intros; lia.
Qed.
Lemma rewrite_ends fuel n : (node_size n <= fuel)%nat → ends node_size n (rewrite fuel n).
Proof.
  revert n. induction fuel as [|fuel IH]; intros n Hn; [pose proof (node_size_pos n); lia|]. cbn [rewrite].
  apply (ends_bind node_size _ n); [apply rewrite_expressions_ends|]. intros n1 c1 [Hle1 Hlt1]. cbn in Hle1, Hlt1.
  destruct (predicate_rewrite n1) as [[n2 c2]|] eqn:H2; [|done]. cbn [from_option_crash outcome_bind].
  apply predicate_rewrite_shrinks in H2 as [Hle2 Hlt2]. cbn in Hle2, Hlt2.
  destruct (predicate_pushdown_shrinks n2) as [Hle3 Hlt3].
  destruct (predicate_pushdown n2) as [[o es cs] c3]. cbn [fst snd] in Hle3, Hlt3.
  pose proof (rewrite_each_ends node_size (rewrite fuel) cs) as Hcs.
  assert (∀ x, x ∈ cs → ends node_size x (rewrite fuel x)) as Hx.
  { intros x Hx. apply IH. pose proof (sum_list_elem node_size _ _ Hx). cbn in Hle3. lia. }
  destruct (rewrite_each (rewrite fuel) cs) as [[cs' c4]| |]; cbn; [|done|by apply Hcs].
  destruct (Hcs Hx) as (Hle4 & _ & Hlt4). cbn in Hle3, Hlt3. split; cbn; [lia|].
  intros [[[->| ->]%orb_prop| ->]%orb_prop| ->]%orb_prop;
    [specialize (Hlt1 eq_refl)|specialize (Hlt2 eq_refl)|specialize (Hlt3 eq_refl)|specialize (Hlt4 eq_refl)]; lia.
Qed.
(** The passes end: there are at most as many as the plan has nodes and expressions. *)
Lemma optimize_rewrite_ends passes n :
  (node_size n < passes)%nat →
  optimize_rewrite passes n ≠ OutOfFuel ∧ ∀ n', optimize_rewrite passes n = Done n' → (node_size n' <= node_size n)%nat.
Proof.
  revert n. induction passes as [|passes IH]; intros n Hn; [lia|]. cbn.
  pose proof (rewrite_ends (node_size n) n ltac:(done)) as Hr.
  destruct (rewrite (node_size n) n) as [[n1 c]| |]; cbn; [|done|done]. destruct Hr as [Hle Hlt]. cbn in *.
  destruct c; [|split; [done|]; by intros n' [= <-]]. specialize (Hlt eq_refl).
  destruct (IH n1) as [Ho Hd]; [lia|]. split; [done|]. intros n' Hn'%Hd. lia.
Qed.
End sizes.

(** ** Where clauses *)
Definition simple (e : Expr.t) : bool :=
  match e with ComparisonExpr _ _ _ | ConjunctionExpr _ _ | CastExpr _ _ => false | _ => true end.
Definition atom (e : Expr.t) : bool :=
  match e with
  | ComparisonExpr _ l r => simple l && simple r
  | InExpr _ _ _ | ExistsExpr _ _ => true
  | ValueExpr v => bool_decide (attr_type_ v = BOOLEANS)
  | _ => false
  end.
(** the atoms of a where clause *)
Definition atoms (e : Expr.t) : list Expr.t := match e with ConjunctionExpr _ cs => cs | _ => [e] end.

Section sound.
Context `{!LibText} `{!Uninit} (trx_fields : option (list FieldMeta.t)).

(** ** The truth of a predicate *)
Definition pred_of (r : option (RC.t * Value)) : option (RC.t + bool) :=
  '(rc, v) ← r; if RC.succ rc then inr <$> Val.get_boolean v else Some (inl rc).
Definition pred_result (tuple : Tuple.t) (e : Expr.t) : option (RC.t + bool) :=
  pred_of (get_value trx_fields tuple e Val.new).
Definition holds (tuple : Tuple.t) (e : Expr.t) : bool := bool_decide (pred_result tuple e = Some (inr true)).
(** two predicates that no tuple tells apart, errors included *)
Definition same_pred (e e' : Expr.t) : Prop := ∀ tuple, pred_result tuple e = pred_result tuple e'.

Lemma pred_of_boolean b v : pred_of (Some (RC.SUCCESS, Val.set_boolean b v)) = Some (inr b).
Proof. by destruct b. Qed.
Lemma on_success_ext c c' value value' k k' :
  pred_of c = pred_of c → c = c' → (∀ v, pred_of (k v) = pred_of (k' v)) →
  pred_of (on_success c value k) = pred_of (on_success c' value' k').
Proof.
  intros _ <- Hk. unfold on_success. destruct c as [[rc v]|]; [|done]. cbn. destruct (RC.succ rc) eqn:E; [done|].
  cbn. by rewrite E.
Qed.
(** An atom says the same whatever the value it is given held before. *)
Lemma atom_result tuple e v :
  atom e = true → pred_of (get_value trx_fields tuple e v) = pred_result tuple e.
Proof.
  unfold pred_result. destruct e; try done; intros Ha; cbn [get_value].
  - apply on_success_ext; [done..|]. intros l. apply on_success_ext; [done..|]. intros r.
    destruct (Val.compare l comp r) as [b|]; [|done]. cbn [mbind option_bind]. by rewrite !pred_of_boolean.
  - apply on_success_ext; [done..|]. intros l. destruct (list_of e2) as [vs|]; [|done]. cbn [mbind option_bind].
    destruct (contains vs l) as [b|]; [|done]. cbn [mbind option_bind]. by rewrite !pred_of_boolean.
  - unfold exists_value. destruct (list_of e) as [vs|]; [|done]. cbn [mbind option_bind]. by rewrite !pred_of_boolean.
Qed.

(** the result of a conjunction from those of its children *)
Fixpoint conj_fold (type : Conj.t) (l : list (option (RC.t + bool))) : option (RC.t + bool) :=
  match l with
  | [] => Some (inr (negb (deciding type)))
  | r :: l =>
      match r with
      | Some (inr b) => if Bool.eqb b (deciding type) then Some (inr b) else conj_fold type l
      | _ => r
      end
  end.
Lemma conjunction_loop_fold tuple type cs tmp value :
  Forall (λ e, atom e = true) cs →
  pred_of (conjunction_loop (get_value trx_fields tuple) type cs tmp value) =
    conj_fold type (pred_result tuple <$> cs).
Proof.
  intros Hcs. revert tmp. induction Hcs as [|e cs He Hcs IH]; intros tmp.
  - cbn [conjunction_loop fmap list_fmap conj_fold]. rewrite pred_of_boolean. by destruct type.
  - cbn [fmap list_fmap conj_fold]. rewrite <-(atom_result tuple e tmp He). cbn [conjunction_loop].
    destruct (get_value trx_fields tuple e tmp) as [[rc v]|]; [|done]. cbn.
    destruct (RC.succ rc) eqn:E; [|cbn; by rewrite E].
    destruct (Val.get_boolean v) as [b|]; [|done]. cbn [mbind option_bind fmap option_fmap option_map].
    destruct type, b; cbn [negb deciding Bool.eqb]; rewrite ?pred_of_boolean; try done; apply IH.
Qed.
Lemma conjunction_result tuple type cs :
  cs ≠ [] → Forall (λ e, atom e = true) cs →
  pred_result tuple (ConjunctionExpr type cs) = conj_fold type (pred_result tuple <$> cs).
Proof. intros Hne Hcs. unfold pred_result at 1. destruct cs as [|e cs]; [done|]. by apply conjunction_loop_fold. Qed.
Lemma empty_conjunction_result tuple type : pred_result tuple (ConjunctionExpr type []) = Some (inr true).
Proof. done. Qed.

(** ** Constants *)
(** a boolean constant; a comparison of constants *)
Definition vconst (e : Expr.t) : option bool :=
  match e with ValueExpr v => if decide (attr_type_ v = BOOLEANS) then Val.get_boolean v else None | _ => None end.
Definition is_vconst (e : Expr.t) : bool := match e with ValueExpr _ => true | _ => false end.
Definition is_cconst (e : Expr.t) : bool :=
  match e with ComparisonExpr _ (ValueExpr _) (ValueExpr _) => true | _ => false end.
Definition constant (e : Expr.t) : option bool :=
  match e with
  | ValueExpr v => vconst e
  | ComparisonExpr op (ValueExpr l) (ValueExpr r) => Val.compare l op r
  | _ => None
  end.
(** constants can be evaluated *)
Definition defined (e : Expr.t) : Prop := is_vconst e || is_cconst e = true → is_Some (constant e).

Record safe (e : Expr.t) : Prop := {
  safe_form : atom e = true ∨ ∃ type cs, e = ConjunctionExpr type cs;
  safe_atoms : Forall (λ a, atom a = true ∧ defined a) (atoms e);
  (** the comparisons of constants have all been evaluated, or none *)
  safe_phase : Forall (λ a, is_vconst a = false) (atoms e) ∨ Forall (λ a, is_cconst a = false) (atoms e);
  safe_deciding : ∀ type cs pre a post, e = ConjunctionExpr type cs → cs = pre ++ a :: post →
    constant a = Some (deciding type) → Forall (λ x, is_Some (constant x)) pre;
  safe_some : ∀ cs, e = ConjunctionExpr Conj.OR cs → cs ≠ [] → ¬ Forall (λ x, constant x = Some false) cs
}.

Lemma constant_result tuple e b : atom e = true → constant e = Some b → pred_result tuple e = Some (inr b).
Proof.
  destruct e; try done; cbn [atom constant vconst].
  - intros Ht%bool_decide_eq_true_1. rewrite decide_True by done. intros Hb. unfold pred_result. cbn. by rewrite Hb.
  - destruct e1; try done. destruct e2; try done. intros _ Hc. unfold pred_result. cbn. rewrite Hc.
    by destruct b.
Qed.
Lemma safe_value b v : attr_type_ v = BOOLEANS → Val.get_boolean v = Some b → safe (ValueExpr v).
Proof.
  intros Ht Hb. split; try done.
  - left. by apply bool_decide_eq_true_2.
  - constructor; [|constructor]. split; [by apply bool_decide_eq_true_2|]. intros _. exists b. cbn.
    by rewrite decide_True.
  - right. by constructor.
Qed.
Lemma safe_atom a : atom a = true → defined a → safe a.
Proof.
  intros Ha Hd. split; try (by intros; subst).
  - by left.
  - destruct a; try done; by repeat constructor.
  - destruct a; try done; try (by left; constructor). by right; constructor.
Qed.
Lemma safe_atom_of e a : safe e → a ∈ atoms e → atom a = true ∧ defined a.
Proof. intros Hs Ha. pose proof (safe_atoms _ Hs) as Hf. rewrite Forall_forall in Hf. by apply Hf. Qed.

(** ** The rules on atoms *)
Lemma rewrite_simple fuel e :
  simple e = true → (0 < fuel)%nat → rewrite_expression fuel e = Done (e, false).
Proof. intros Hs Hf. destruct fuel as [|fuel]; [lia|]. by destruct e. Qed.
(** an atom after the rules: a comparison of constants becomes its value *)
Definition simplified (a : Expr.t) : Expr.t :=
  match a with
  | ComparisonExpr op (ValueExpr l) (ValueExpr r) =>
      match Val.compare l op r with Some b => ValueExpr (Val.set_boolean b Val.new) | None => a end
  | _ => a
  end.
Lemma rewrite_atom fuel a :
  atom a = true → defined a → (expr_size a <= fuel)%nat →
  ∃ c, rewrite_expression fuel a = Done (simplified a, c).
Proof.
  intros Ha Hd Hf. destruct fuel as [|fuel]; [pose proof (expr_size_pos a); lia|].
  destruct a; try done; try (by eexists). cbn in Ha. apply andb_prop in Ha as [Hl Hr].
  assert (is_cconst (ComparisonExpr comp a1 a2) = true ∨ is_cconst (ComparisonExpr comp a1 a2) = false ∧
    try_get_value (ComparisonExpr comp a1 a2) Val.new = Some (RC.INVALID_ARGUMENT, Val.new) ∧
    simplified (ComparisonExpr comp a1 a2) = ComparisonExpr comp a1 a2) as [Hc|(_ & Htry & Hsame)].
  { destruct a1; try (by right); destruct a2; try (by right). by left. }
  - destruct a1; try done. destruct a2; try done. destruct (Hd eq_refl) as [b Hb]. cbn in Hb. cbn.
    rewrite Hb. by eexists.
  - assert (apply_rules (ComparisonExpr comp a1 a2) = Some (ComparisonExpr comp a1 a2, false)) as Hrules.
    { unfold apply_rules, comparison_simplification. by rewrite Htry. }
    rewrite Hsame. cbn [rewrite_expression]. rewrite Hrules. cbn [from_option_crash outcome_bind].
    cbn in Hf. pose proof (expr_size_pos a1). pose proof (expr_size_pos a2).
    rewrite (rewrite_simple fuel a1) by (done || lia). cbn [outcome_bind].
    rewrite (rewrite_simple fuel a2) by (done || lia). by eexists.
Qed.
Lemma simplified_atom a :
  atom a = true → defined a →
  atom (simplified a) = true ∧ constant (simplified a) = constant a ∧ defined (simplified a) ∧
  is_cconst (simplified a) = false ∧ ∀ tuple, pred_result tuple (simplified a) = pred_result tuple a.
Proof.
  intros Ha Hd. assert (is_cconst a = false → simplified a = a) as Hsame.
  { destruct a; try done. destruct a1; try done. by destruct a2. }
  destruct (is_cconst a) eqn:Hc; [|by rewrite Hsame].
  destruct a; try done. destruct a1; try done. destruct a2; try done.
  destruct (Hd eq_refl) as [b Hb]. cbn in Hb. cbn [simplified]. rewrite Hb.
  split_and!; [done|cbn; rewrite Hb; by destruct b| |done|].
  - intros _. exists b. by destruct b.
  - intros tuple. rewrite (constant_result tuple (ComparisonExpr comp (ValueExpr v) (ValueExpr v0)) b) by done.
    by destruct b.
Qed.

(** ** The rule on conjunctions *)
Abbreviation atomic cs := (Forall (λ a, atom a = true ∧ defined a) cs).
Lemma not_constant a : is_vconst a = false → is_cconst a = false → constant a = None.
Proof. destruct a; try done. destruct a1; try done. by destruct a2. Qed.
Lemma try_constant a : atom a = true → defined a → try_to_get_bool_constant a = Some (if is_vconst a then constant a else None).
Proof.
  intros Ha Hd. destruct a; try done. cbn in Ha. apply bool_decide_eq_true_1 in Ha. cbn.
  rewrite !decide_True by done. destruct (Hd eq_refl) as [b Hb]. cbn in Hb. rewrite decide_True in Hb by done.
  by rewrite Hb.
Qed.
Abbreviation open cs := (filter (λ a, is_vconst a = false) cs).
Abbreviation neutral type cs := (Forall (λ a, is_vconst a = true → constant a = Some (negb (deciding type))) cs).

Lemma conjunction_children_spec type kept cs :
  atomic cs →
  conjunction_children type kept cs = Some (inl (kept ++ open cs)) ∧ neutral type cs ∨
  ∃ pre a post e, cs = pre ++ a :: post ∧ constant a = Some (deciding type) ∧ is_vconst a = true ∧
    neutral type pre ∧ head (kept ++ open pre ++ a :: post) = Some e ∧
    conjunction_children type kept cs = Some (inr e).
Proof.
  intros Hcs. revert kept. induction Hcs as [|a cs [Ha Hd] Hcs IH]; intros kept.
  { left. split; [by rewrite app_nil_r|constructor]. }
  cbn [conjunction_children]. rewrite try_constant by done. cbn [mbind option_bind].
  destruct (is_vconst a) eqn:Hv.
  - destruct (Hd ltac:(by rewrite Hv)) as [b Hb]. rewrite Hb. destruct (Bool.eqb b (deciding type)) eqn:Hdec.
    + right. apply Bool.eqb_prop in Hdec as ->. exists [], a, cs.
      assert (is_Some (head (kept ++ a :: cs))) as [e He] by (destruct kept; by eexists).
      exists e. split_and!; [done|done|done|constructor|exact He|by rewrite He].
    + assert (b = negb (deciding type)) as -> by (by destruct b, (deciding type)).
      destruct (IH kept) as [[-> Hn]|(pre & d & post & e & -> & Hc & Hvd & Hn & Hh & ->)].
      * left. rewrite filter_cons_False by (by rewrite Hv). split; [done|]. by constructor.
      * right. exists (a :: pre), d, post, e. rewrite filter_cons_False by (by rewrite Hv).
        split_and!; [done..|by constructor|done|done].
  - destruct (IH (kept ++ [a])) as [[-> Hn]|(pre & d & post & e & -> & Hc & Hvd & Hn & Hh & ->)].
    + left. rewrite filter_cons_True, <-app_assoc by done. split; [done|]. constructor; [by rewrite Hv|done].
    + right. exists (a :: pre), d, post, e. rewrite filter_cons_True by done.
      split_and!; [done..|constructor; [by rewrite Hv|done]| |done]. by rewrite <-app_assoc in Hh.
Qed.
(** neutral constants do not matter *)
Lemma conj_fold_open tuple type cs :
  atomic cs → neutral type cs →
  conj_fold type (pred_result tuple <$> cs) = conj_fold type (pred_result tuple <$> open cs).
Proof.
  intros Hcs. induction Hcs as [|a cs [Ha Hd] Hcs IH]; intros Hn; [done|]. inversion_clear Hn as [|? ? Hna Hn'].
  destruct (is_vconst a) eqn:Hv.
  - rewrite filter_cons_False by (by rewrite Hv). cbn [fmap list_fmap conj_fold].
    rewrite (constant_result _ _ _ Ha (Hna eq_refl)). destruct (deciding type); by apply IH.
  - rewrite filter_cons_True by done. cbn [fmap list_fmap conj_fold].
    destruct (pred_result tuple a) as [[rc|b]|]; [done| |done]. destruct (Bool.eqb b _); [done|by apply IH].
Qed.
Lemma conj_fold_deciding tuple type pre a post :
  atomic (pre ++ a :: post) → neutral type pre → constant a = Some (deciding type) → open pre = [] →
  conj_fold type (pred_result tuple <$> pre ++ a :: post) = Some (inr (deciding type)).
Proof.
  intros Hat Hn Hc Hop. apply Forall_app in Hat as [Hpre [Ha _]%Forall_cons_1].
  induction pre as [|p pre IH]; cbn [app fmap list_fmap conj_fold].
  - rewrite (constant_result _ _ _ (proj1 Ha) Hc). by destruct (deciding type).
  - inversion_clear Hpre as [|? ? [Hp Hd] Hpre']. inversion_clear Hn as [|? ? Hnp Hn'].
    destruct (is_vconst p) eqn:Hv; [|by rewrite filter_cons_True in Hop].
    rewrite (constant_result _ _ _ Hp (Hnp eq_refl)). rewrite filter_cons_False in Hop by (by rewrite Hv).
    destruct (deciding type); by apply IH.
Qed.
Lemma conj_fold_one type r : conj_fold type [r] = r.
Proof. destruct r as [[|b]|]; try done. by destruct type, b. Qed.
Lemma rewrite_atoms fuel cs :
  atomic cs → (sum_list_with expr_size cs <= fuel)%nat →
  ∃ c, rewrite_each (rewrite_expression fuel) cs = Done (simplified <$> cs, c).
Proof.
  intros Hcs Hf. induction Hcs as [|a cs [Ha Hd] Hcs IH]; [by eexists|]. cbn in Hf.
  destruct (rewrite_atom fuel a Ha Hd) as [c1 H1]; [lia|]. destruct IH as [c2 H2]; [lia|].
  cbn [rewrite_each]. rewrite H1, H2. by eexists.
Qed.

(** ** One rewrite of a safe clause *)
Definition rewritten (e : Expr.t) (r : outcome (Expr.t * bool)) : Prop :=
  ∃ e' c, r = Done (e', c) ∧ safe e' ∧ same_pred e' e ∧ ∀ a, a ∈ atoms e' → is_vconst a = true ∨ a ∈ atoms e.

Lemma rewritten_atom e cs a c :
  atoms e = cs → a ∈ cs → atomic cs → (∀ tuple, pred_result tuple a = pred_result tuple e) →
  rewritten e (Done (a, c)).
Proof.
  intros He Ha Hcs Hp. rewrite Forall_forall in Hcs. destruct (Hcs a Ha) as [Hat Hd].
  exists a, c. split_and!; [done|by apply safe_atom|done|].
  assert (atoms a = [a]) as -> by (by destruct a). intros b Hb. apply list_elem_of_singleton in Hb as ->. subst cs. by right.
Qed.
Lemma rewrite_safe_atom e : atom e = true → safe e → rewritten e (rewrite_expr e).
Proof.
  intros Ha Hs. assert (atoms e = [e]) as Hat by (by destruct e).
  destruct (safe_atom_of e e Hs) as [_ Hd]; [rewrite Hat; by left|].
  destruct (rewrite_atom (expr_size e) e Ha Hd) as [c Hc]; [done|].
  destruct (simplified_atom e Ha Hd) as (Ha' & _ & Hd' & _ & Hp).
  exists (simplified e), c. split_and!; [done|by apply safe_atom|done|].
  intros a Hin. assert (atoms (simplified e) = [simplified e]) as Heq by (by destruct (simplified e)).
  rewrite Heq in Hin. apply list_elem_of_singleton in Hin as ->. rewrite Hat.
  destruct e; try (right; by left). destruct e1; try (right; by left). destruct e2; try (right; by left).
  cbn. destruct (Val.compare _ _ _); [by left|right; by left].
Qed.
Lemma simplified_open cs : Forall (λ a, is_cconst a = false) cs → simplified <$> cs = cs.
Proof.
  induction 1 as [|a cs Ha Hcs IH]; [done|]. cbn. rewrite IH. f_equal.
  destruct a; try done. destruct a1; try done. by destruct a2.
Qed.
Lemma safe_open type cs :
  atomic cs → Forall (λ a, is_vconst a = false) cs → Forall (λ a, is_cconst a = false) cs → safe (ConjunctionExpr type cs).
Proof.
  intros Hat Hv Hc. assert (∀ a, a ∈ cs → constant a = None) as Hno.
  { intros a Ha. rewrite Forall_forall in Hv, Hc. apply not_constant; [by apply Hv|by apply Hc]. }
  split; cbn [atoms]; [right; by eexists _, _|done|by left| |].
  - intros type' cs' pre a post [= <- <-] -> Ha. rewrite Hno in Ha; [done|].
    apply elem_of_app. right. by left.
  - intros cs' [= -> ->] Hne Hall. destruct cs' as [|a cs']; [done|]. inversion_clear Hall as [|? ? Ha].
    rewrite Hno in Ha; [done|by left].
Qed.
Lemma safe_simplified type cs : safe (ConjunctionExpr type cs) → safe (ConjunctionExpr type (simplified <$> cs)).
Proof.
  intros Hs. pose proof (safe_atoms _ Hs) as Hat. cbn in Hat.
  assert (∀ a, a ∈ cs → constant (simplified a) = constant a) as Hconst.
  { intros a Ha. rewrite Forall_forall in Hat. destruct (Hat a Ha). by apply simplified_atom. }
  split; cbn [atoms].
  - right. by eexists _, _.
  - apply Forall_fmap. eapply Forall_impl; [exact Hat|]. intros a [Ha Hd].
    destruct (simplified_atom a Ha Hd) as (? & _ & ? & _). by split.
  - right. apply Forall_fmap. eapply Forall_impl; [exact Hat|]. intros a [Ha Hd].
    by destruct (simplified_atom a Ha Hd) as (_ & _ & _ & ? & _).
  - intros type' cs' pre a post [= <- <-] Hcs' Ha.
    apply fmap_app_inv in Hcs' as (pre' & rest' & -> & Hrest & ->).
    symmetry in Hrest. apply fmap_cons_inv in Hrest as (a' & post' & -> & -> & ->).
    assert (Forall (λ x, is_Some (constant x)) pre') as Hpre.
    { eapply (safe_deciding _ Hs); [done|done|]. rewrite <-Hconst; [done|]. apply elem_of_app. right. by left. }
    apply Forall_fmap. rewrite Forall_forall in Hpre |- *. intros x Hx. cbn. rewrite Hconst; [by apply Hpre|].
    apply elem_of_app. by left.
  - intros cs' [= -> <-] Hne Hall. apply (safe_some _ Hs cs eq_refl).
    + intros ->. by apply Hne.
    + apply Forall_fmap in Hall. rewrite Forall_forall in Hall |- *. intros x Hx. rewrite <-Hconst by done.
      by apply Hall.
Qed.

Lemma apply_rules_conjunction type cs :
  apply_rules (ConjunctionExpr type cs) =
    r ← conjunction_children type [] cs;
    Some (match r with
          | inr a => (a, false)
          | inl [a] => (a, true)
          | inl cs => (ConjunctionExpr type cs, false)
          end).
Proof.
  unfold apply_rules. cbn. destruct (conjunction_children type [] cs) as [[[|a [|]]|a]|]; done.
Qed.
Lemma rewrite_vconst a : is_vconst a = true → rewrite_expr a = Done (a, false).
Proof. by destruct a. Qed.

Lemma rewrite_safe_conjunction type cs :
  safe (ConjunctionExpr type cs) → rewritten (ConjunctionExpr type cs) (rewrite_expr (ConjunctionExpr type cs)).
Proof.
  intros Hs. pose proof (safe_atoms _ Hs) as Hat. cbn [atoms] in Hat.
  assert (Forall (λ e, atom e = true) cs) as Hatom by (eapply Forall_impl; [exact Hat|]; by intros a []).
  unfold rewrite_expr. cbn [expr_size rewrite_expression]. rewrite apply_rules_conjunction.
  destruct (conjunction_children_spec type [] cs Hat) as
    [[-> Hn]|(pre & a & post & e & Hcs & Hc & Hv & Hn & Hh & ->)]; cbn [app mbind option_bind from_option_crash outcome_bind].
  - assert (atomic (open cs)) as Hat'.
    { rewrite Forall_forall in Hat |- *. intros x [_ Hx]%list_elem_of_filter. by apply Hat. }
    assert (∀ tuple, cs ≠ [] → pred_result tuple (ConjunctionExpr type cs) = conj_fold type (pred_result tuple <$> open cs)) as Hp.
    { intros tuple Hne. rewrite conjunction_result by done. by apply conj_fold_open. }
    destruct (open cs) as [|a [|b l]] eqn:Hop; cbn [from_option_crash outcome_bind].
    + cbn. exists (ConjunctionExpr type []), false. split_and!; [done|by apply safe_open| |].
      2:{ intros a Ha. by apply not_elem_of_nil in Ha. }
      intros tuple. rewrite empty_conjunction_result. destruct (decide (cs = [])) as [->|Hne]; [done|].
      rewrite Hp by done. cbn. destruct type; [done|]. exfalso. apply (safe_some _ Hs cs eq_refl Hne).
      rewrite Forall_forall in Hn |- *. intros x Hx. apply Hn; [done|].
      destruct (is_vconst x) eqn:Hvx; [done|]. assert (x ∈ open cs) as Hin by (by apply list_elem_of_filter).
      rewrite Hop in Hin. by apply not_elem_of_nil in Hin.
    + assert (a ∈ cs) as Hin.
      { assert (a ∈ open cs) as Hin by (rewrite Hop; by left). by apply list_elem_of_filter in Hin as [_ ?]. }
      apply (rewritten_atom _ cs); [done|done|done|]. intros tuple. rewrite Hp by (by intros ->).
      cbn [fmap list_fmap]. by rewrite conj_fold_one.
    + assert (sum_list_with expr_size (a :: b :: l) <= sum_list_with expr_size cs)%nat as Hsz.
      { rewrite <-Hop. clear. induction cs as [|x cs IH]; [done|]. destruct (decide (is_vconst x = false)).
        - rewrite filter_cons_True by done. cbn. lia.
        - rewrite filter_cons_False by done. cbn. lia. }
      destruct (rewrite_atoms (sum_list_with expr_size cs) (a :: b :: l) Hat' Hsz) as [c ->].
      cbn [outcome_bind]. eexists _, c. split; [done|].
      assert (safe (ConjunctionExpr type (simplified <$> a :: b :: l)) ∧
        ∀ x, x ∈ simplified <$> a :: b :: l → is_vconst x = true ∨ x ∈ cs) as [Hsafe Hin].
      { assert (Forall (λ x, x ∈ cs) (a :: b :: l)) as Hsub.
        { apply Forall_forall. intros x. rewrite <-Hop. by intros [_ ?]%list_elem_of_filter. }
        destruct (safe_phase _ Hs) as [Hph|Hph]; cbn [atoms] in Hph.
        - assert (open cs = cs) as Hall.
          { clear -Hph. induction Hph as [|x cs Hx Hph IH]; [done|]. rewrite filter_cons_True by done. by rewrite IH. }
          rewrite <-Hop, Hall. split; [by apply safe_simplified|].
          intros x (y & -> & Hy)%list_elem_of_fmap.
          destruct y; try (by right). destruct y1; try (by right). destruct y2; try (by right).
          cbn. destruct (Val.compare _ _ _); [by left|by right].
        - assert (Forall (λ x, is_cconst x = false) (a :: b :: l)) as Hcc.
          { eapply Forall_impl; [exact Hsub|]. intros x Hx. rewrite Forall_forall in Hph. by apply Hph. }
          rewrite simplified_open by done. split.
          + apply safe_open; [done| |done]. rewrite <-Hop. apply Forall_forall. by intros x [? _]%list_elem_of_filter.
          + intros x Hx. right. rewrite Forall_forall in Hsub. by apply Hsub. }
      split_and!; [done| |done]. intros tuple. rewrite Hp by (by intros ->).
      pose proof (safe_atoms _ Hsafe) as Hat2. cbn [atoms] in Hat2.
      rewrite conjunction_result; [|done|eapply Forall_impl; [exact Hat2|]; by intros x []].
      f_equal. rewrite <-list_fmap_compose. apply list_fmap_ext. intros i x Hx. cbn.
      apply (Forall_lookup_1 _ _ _ _ Hat') in Hx as [Hx Hd]. by apply simplified_atom.
  - assert (is_cconst a = false) as Hca by (by destruct a).
    assert (open pre = []) as Hop.
    { pose proof (safe_deciding _ Hs type cs pre a post eq_refl Hcs Hc) as Hpre.
      destruct (safe_phase _ Hs) as [Hph|Hph]; cbn [atoms] in Hph; rewrite Hcs in Hph;
        apply Forall_app in Hph as [Hph1 Hph2%Forall_inv]; [congruence|].
      clear -Hpre Hph1. induction pre as [|p pre IH]; [done|]. inversion_clear Hpre as [|? ? [b Hb] Hpre'].
      inversion_clear Hph1. rewrite filter_cons_False; [by apply IH|].
      intros Hvp. rewrite not_constant in Hb; done. }
    rewrite Hop in Hh. cbn in Hh. injection Hh as <-.
    assert (∃ v, a = ValueExpr v) as [v Ha] by (destruct a; try done; by eexists). rewrite Ha. rewrite <-Ha.
    apply (rewritten_atom _ cs); [done| |done|].
    { rewrite Hcs. apply elem_of_app. right. by left. }
    intros tuple. rewrite conjunction_result by (done || by destruct cs, pre).
    rewrite Forall_forall in Hat. rewrite Hcs. rewrite (conj_fold_deciding tuple type pre a post).
    + apply constant_result; [|done]. apply Hat. rewrite Hcs. apply elem_of_app. right. by left.
    + rewrite <-Hcs. by apply Forall_forall.
    + done.
    + done.
    + done.
Qed.
Lemma rewrite_safe e : safe e → rewritten e (rewrite_expr e).
Proof.
  intros Hs. destruct (safe_form _ Hs) as [Ha|(type & cs & ->)]; [by apply rewrite_safe_atom|by apply rewrite_safe_conjunction].
Qed.

(** ** The rows of a plan

    [scan] are the rows of a table, [unary] is what the operators above the joins do to the
    rows of their input; an operator without a child has no rows as its input. *)
Section plans.
Context (scan : TableMeta.t → list Tuple.t) (unary : Logical.oper → list Tuple.t → list Tuple.t).

Definition all_hold (es : list Expr.t) (r : Tuple.t) : bool := forallb (holds r) es.
Fixpoint rows (n : Logical.t) : list Tuple.t :=
  let 'Logical.Node type es cs := n in
  let input := match cs with [c] => rows c | _ => [] end in
  match type with
  | Logical.TABLE_GET table _ predicates => List.filter (all_hold predicates) (scan table)
  | Logical.PREDICATE => List.filter (all_hold es) input
  | Logical.JOIN => match cs with [l; r] => x ← rows l; y ← rows r; [Tuple.Joined x y] | _ => [] end
  | _ => unary type input
  end.

(** what is asked of the conditions on the rows they are evaluated on, of the operators above
    the joins on the rows of their input, and of the tables *)
Context (good : list Tuple.t → list Expr.t → Prop) (upper : Logical.oper → list Tuple.t → Prop).
Context (known : TableMeta.t → bool → Prop).
Context (good_some : ∀ l es es', (∀ a, a ∈ es' → is_Some (vconst a) ∨ a ∈ es) → good l es → good l es').
Context (good_filter : ∀ f l es, good l es → good (List.filter f l) es).
Definition is_unary (type : Logical.oper) : bool :=
  match type with Logical.TABLE_GET _ _ _ | Logical.PREDICATE | Logical.JOIN => false | _ => true end.
Definition pushable (a : Expr.t) : bool := match (get_exprs_can_pushdown a).1 with None => true | Some _ => false end.
(** Predicates are pushed down to a table at most once: the second time would replace those
    of the first. *)
Definition push_ok (e : Expr.t) (type : Logical.oper) : Prop :=
  match type with Logical.TABLE_GET _ _ (_ :: _) => Forall (λ a, pushable a = false) (atoms e) | _ => True end.
Definition is_get (type : Logical.oper) : bool := match type with Logical.TABLE_GET _ _ _ => true | _ => false end.
(** plans as the generator builds them, and as the rewriter leaves them *)
Inductive plan_ok : Logical.t → Prop :=
| plan_get table readonly predicates :
    known table readonly → good (scan table) predicates → Forall (λ e, atom e = true) predicates →
    plan_ok (Logical.Node (Logical.TABLE_GET table readonly predicates) [] [])
| plan_predicate e c :
    safe e → plan_ok c → Logical.type c ≠ Logical.PREDICATE → push_ok e (Logical.type c) →
    good (rows c) (atoms e) → plan_ok (Logical.Node Logical.PREDICATE [e] [c])
| plan_join l r : plan_ok l → plan_ok r → is_get (Logical.type r) = true → plan_ok (Logical.Node Logical.JOIN [] [l; r])
| plan_unary type c : is_unary type = true → upper type (rows c) → plan_ok c → plan_ok (Logical.Node type [] [c])
| plan_leaf type : is_unary type = true → upper type [] → plan_ok (Logical.Node type [] []).

(** what a step of the rewriter keeps *)
Definition keeps (n n' : Logical.t) : Prop :=
  plan_ok n' ∧ rows n' = rows n ∧ Logical.type n' = Logical.type n.

Lemma holds_same e e' : same_pred e e' → ∀ r, holds r e = holds r e'.
Proof. intros H1 r. unfold holds. by rewrite (H1 r). Qed.
Lemma filter_same {A} (f g : A → bool) l : (∀ x, f x = g x) → List.filter f l = List.filter g l.
Proof. intros Hfg. induction l as [|x l IH]; [done|]. cbn. by rewrite Hfg, IH. Qed.
Lemma filter_twice {A} (f g : A → bool) l :
  List.filter f (List.filter g l) = List.filter (λ x, g x && f x) l.
Proof. induction l as [|x l IH]; [done|]. cbn. destruct (g x); cbn; [|done]. destruct (f x); by rewrite IH. Qed.
Lemma filter_one e l : List.filter (all_hold [e]) l = List.filter (λ r, holds r e) l.
Proof. apply filter_same. intros r. cbn. by rewrite andb_true_r. Qed.
Lemma holds_and r cs : Forall (λ e, atom e = true) cs → holds r (ConjunctionExpr Conj.AND cs) = all_hold cs r.
Proof.
  intros Hcs. unfold holds.
  assert (pred_result r (ConjunctionExpr Conj.AND cs) = conj_fold Conj.AND (pred_result r <$> cs)) as ->.
  { destruct cs; [done|]. by apply conjunction_result. }
  unfold all_hold. clear Hcs. induction cs as [|c cs IH]; [done|]. cbn [fmap list_fmap conj_fold forallb].
  rewrite <-IH. unfold holds. destruct (pred_result r c) as [[rc|[|]]|]; cbn [Bool.eqb deciding].
  - by rewrite !bool_decide_eq_false_2 by done.
  - by rewrite (bool_decide_eq_true_2 (Some (inr true) = _)) by done.
  - by rewrite !bool_decide_eq_false_2 by done.
  - by rewrite !bool_decide_eq_false_2 by done.
Qed.

(** *** The rewriting of the expressions *)
Lemma vconst_not_pushable a : is_vconst a = true → pushable a = false.
Proof. by destruct a. Qed.
Lemma push_ok_rewritten e e' type :
  push_ok e type → (∀ a, a ∈ atoms e' → is_vconst a = true ∨ a ∈ atoms e) → push_ok e' type.
Proof.
  destruct type; try done. destruct predicates; [done|]. cbn. rewrite !Forall_forall. intros He Hin a Ha.
  destruct (Hin a Ha) as [Hv|Hin']; [by apply vconst_not_pushable|by apply He].
Qed.
Lemma good_rewritten l e e' :
  good l (atoms e) → safe e' → (∀ a, a ∈ atoms e' → is_vconst a = true ∨ a ∈ atoms e) → good l (atoms e').
Proof.
  intros He Hs Hin. apply (good_some l (atoms e)); [|done]. pose proof (safe_atoms _ Hs) as Hat.
  rewrite Forall_forall in Hat. intros a Ha. destruct (Hin a Ha) as [Hv|Hin']; [|by right]. left.
  destruct (Hat a Ha) as [_ Hd]. destruct a; try done. apply Hd. by rewrite Hv.
Qed.
Lemma rewrite_expressions_keeps n : plan_ok n → ∃ n' c, rewrite_expressions n = Done (n', c) ∧ keeps n n'.
Proof.
  unfold keeps. induction 1 as [t ro ps Hk Hg Ha|e c Hs Hc (c' & ch & Hrc & Hc' & Hrows & Htype) Hp Hpush Hg
    |l r Hl (l' & cl & Hrl & Hl' & Hrowl & Htl) Hr (r' & cr & Hrr & Hr' & Hrowr & Htr) Hget
    |type c Hu Hup Hc (c' & ch & Hrc & Hc' & Hrows & Htype)|type Hu Hup].
  - eexists _, _. split; [done|]. by split_and!; [constructor|..].
  - destruct (rewrite_safe e Hs) as (e' & ce & Hre & Hs' & Hsame & Hat).
    cbn [rewrite_expressions rewrite_each]. rewrite Hre. cbn [outcome_bind]. rewrite Hrc. cbn [outcome_bind].
    eexists _, _. split; [done|]. split_and!; [|cbn [rows]; rewrite !filter_one, Hrows|done].
    + constructor; [done|done|by rewrite Htype| |rewrite Hrows; by eapply good_rewritten].
      rewrite Htype. by eapply push_ok_rewritten.
    + apply filter_same. by apply holds_same.
  - cbn [rewrite_expressions rewrite_each outcome_bind]. rewrite Hrl, Hrr. cbn [outcome_bind].
    eexists _, _. split; [done|]. split_and!; [constructor; by rewrite ?Htr|cbn [rows]; by rewrite Hrowl, Hrowr|done].
  - cbn [rewrite_expressions rewrite_each outcome_bind]. rewrite Hrc. cbn [outcome_bind].
    eexists _, _. split; [done|]. split_and!; [apply plan_unary; by rewrite ?Hrows| |done]. destruct type; try done; cbn [rows]; by rewrite Hrows.
  - eexists _, _. split; [done|]. by split_and!; [apply plan_leaf|..].
Qed.

(** *** The rule on constant predicates *)
Lemma rows_keep_refl n : plan_ok n → keeps n n.
Proof. intros Hn. by split_and!. Qed.
Lemma safe_constant v : safe (ValueExpr v) → ∃ b, Val.get_boolean v = Some b ∧ ∀ r, holds r (ValueExpr v) = b.
Proof.
  intros Hs. destruct (safe_atom_of _ (ValueExpr v) Hs) as [Ha Hd]; [by left|].
  destruct (Hd eq_refl) as [b Hb]. cbn in Hb, Ha. apply bool_decide_eq_true_1 in Ha. rewrite decide_True in Hb by done.
  exists b. split; [done|]. intros r. unfold holds, pred_result. cbn. rewrite Hb. cbn. by destruct b.
Qed.
Lemma filter_constant b l (f : Tuple.t → bool) : (∀ r, f r = b) → List.filter f l = if b then l else [].
Proof. intros Hf. induction l as [|x l IH]; cbn; [by destruct b|]. rewrite Hf, IH. by destruct b. Qed.
Lemma predicate_rewrite_keeps n : plan_ok n → ∃ n' c, predicate_rewrite n = Some (n', c) ∧ keeps n n'.
Proof.
  intros Hn. assert (∃ n' c, Some (n, false) = Some (n', c) ∧ keeps n n') as Hsame
    by (eexists _, _; split; [done|by apply rows_keep_refl]).
  destruct Hn as [t ro ps Hk Hg Ha|e c Hs Hc Hp Hpush Hg|l r Hl Hr Hget|type c Hu Hup Hc|type Hu Hup]; try done.
  - destruct c as [o es cs]. cbn. cbn in Hp. by destruct o.
  - destruct l as [o es cs]. by destruct o, es as [|[] []].
  - destruct Hc as [t ro ps Hk Hg Ha|e c Hs Hc Hp Hpush Hg|l r Hl Hr Hget|type' c Hu' Hup' Hc|type' Hu' Hup']; try done;
      try (by destruct type'); destruct e; try done;
      destruct (safe_constant v Hs) as (b & Hb & Hh); cbn [predicate_rewrite]; rewrite Hb; cbn [mbind option_bind];
      eexists _, _; (split; [done|]); unfold keeps.
    cbn [rows] in Hup; rewrite filter_one, (filter_constant b) in Hup by done.
    destruct b; split_and!; try done; [by apply plan_unary| |by apply plan_leaf|].
    + destruct type; try done; cbn [rows]; by rewrite filter_one, (filter_constant true).
    + destruct type; try done; cbn [rows]; by rewrite filter_one, (filter_constant false).
Qed.

(** *** The pushdown *)
Abbreviation stays cs := (filter (λ a, pushable a = false) cs).
Abbreviation pushed cs := (filter (λ a, pushable a = true) cs).
Lemma pushdown_atom a :
  atom a = true → get_exprs_can_pushdown a = if pushable a then (None, [a]) else (Some a, []).
Proof.
  destruct a; try done. intros _. unfold pushable. cbn. case_decide; [done|].
  destruct (negb (is_field a1) && negb (is_field a2)); [done|]. by destruct (_ && _).
Qed.
Lemma pushdown_and cs :
  Forall (λ e, atom e = true) cs →
  get_exprs_can_pushdown (ConjunctionExpr Conj.AND cs) = (Some (ConjunctionExpr Conj.AND (stays cs)), pushed cs).
Proof.
  intros Hcs. cbn [get_exprs_can_pushdown].
  set (go := fix go (child_exprs : list Expr.t) : list Expr.t * list Expr.t := _).
  assert (go cs = (stays cs, pushed cs)) as ->; [|done].
  induction Hcs as [|a cs Ha Hcs IH]; [done|]. cbn [go]. fold go. rewrite IH, (pushdown_atom a Ha).
  destruct (pushable a) eqn:Hp.
  - by rewrite filter_cons_False, filter_cons_True by (done || by rewrite Hp).
  - by rewrite filter_cons_True, filter_cons_False by (done || by rewrite Hp).
Qed.
Lemma filter_cons_inv {A} (P : A → Prop) `{!∀ x, Decision (P x)} l pre a post :
  filter P l = pre ++ a :: post → ∃ pre0 post0, l = pre0 ++ a :: post0 ∧ filter P pre0 = pre.
Proof.
  revert pre. induction l as [|x l IH]; intros pre Hl; [by destruct pre|].
  destruct (decide (P x)) as [Hx|Hx].
  - rewrite filter_cons_True in Hl by done. destruct pre as [|y pre]; cbn in Hl; injection Hl as -> Hl.
    + exists [], l. done.
    + destruct (IH pre Hl) as (pre0 & post0 & -> & Hf). exists (y :: pre0), post0.
      by rewrite filter_cons_True, Hf by done.
  - rewrite filter_cons_False in Hl by done. destruct (IH pre Hl) as (pre0 & post0 & -> & Hf).
    exists (x :: pre0), post0. by rewrite filter_cons_False, Hf by done.
Qed.
Lemma safe_stays cs : safe (ConjunctionExpr Conj.AND cs) → safe (ConjunctionExpr Conj.AND (stays cs)).
Proof.
  intros Hs. assert (∀ Q : Expr.t → Prop, Forall Q cs → Forall Q (stays cs)) as Hsub.
  { intros Q. rewrite !Forall_forall. intros HQ x [_ Hx]%list_elem_of_filter. by apply HQ. }
  split; cbn [atoms].
  - right. by eexists _, _.
  - apply Hsub, (safe_atoms _ Hs).
  - destruct (safe_phase _ Hs); [left|right]; by apply Hsub.
  - intros type cs' pre a post [= <- <-] Hcs Ha.
    destruct (filter_cons_inv _ _ _ _ _ Hcs) as (pre0 & post0 & -> & <-).
    pose proof (safe_deciding _ Hs _ _ pre0 a post0 eq_refl eq_refl Ha) as Hpre.
    rewrite !Forall_forall in Hpre |- *. intros x [_ Hx]%list_elem_of_filter. by apply Hpre.
  - done.
Qed.
Lemma all_hold_split r cs : all_hold cs r = all_hold (pushed cs) r && all_hold (stays cs) r.
Proof.
  unfold all_hold. induction cs as [|c cs IH]; [done|]. cbn [forallb]. rewrite IH.
  destruct (pushable c) eqn:Hp.
  - rewrite (filter_cons_True (λ a, pushable a = true)), filter_cons_False by (done || by rewrite Hp).
    cbn [forallb]. by rewrite andb_assoc.
  - rewrite (filter_cons_False (λ a, pushable a = true)), filter_cons_True by (done || by rewrite Hp).
    cbn [forallb]. rewrite !andb_assoc. f_equal. apply andb_comm.
Qed.
Lemma no_push e :
  safe e → Forall (λ a, pushable a = false) (atoms e) → get_exprs_can_pushdown e = (Some e, []).
Proof.
  intros Hs Hno. pose proof (safe_atoms _ Hs) as Hat.
  destruct (safe_form _ Hs) as [Ha|(type & cs & ->)].
  - rewrite (pushdown_atom e Ha). assert (atoms e = [e]) as Heq by (by destruct e). rewrite Heq in Hno.
    apply Forall_inv in Hno. by rewrite Hno.
  - destruct type; [|done]. cbn [atoms] in Hat, Hno.
    rewrite pushdown_and by (eapply Forall_impl; [exact Hat|]; by intros x []).
    assert (stays cs = cs ∧ pushed cs = []) as [-> ->]; [|done]. clear -Hno.
    induction Hno as [|a cs Ha Hno [IH1 IH2]]; [done|].
    rewrite filter_cons_True, filter_cons_False by (done || by rewrite Ha). by rewrite IH1, IH2.
Qed.
Lemma pushdown_table e :
  safe e →
  let '(kept, pushed) := get_exprs_can_pushdown e in
  let e' := default (ValueExpr (Val.of_bool true)) kept in
  safe e' ∧ (pushed ≠ [] → Forall (λ a, pushable a = false) (atoms e')) ∧ (pushed = [] → e' = e) ∧
  (∀ a, a ∈ pushed → a ∈ atoms e ∧ atom a = true) ∧ (∀ a, a ∈ atoms e' → is_vconst a = true ∨ a ∈ atoms e) ∧
  ∀ r, holds r e = all_hold pushed r && holds r e'.
Proof.
  intros Hs. pose proof (safe_atoms _ Hs) as Hat.
  assert (∀ r, holds r (ValueExpr (Val.of_bool true)) = true) as Htrue by done.
  destruct (safe_form _ Hs) as [Ha|(type & cs & ->)].
  - rewrite (pushdown_atom e Ha). destruct (pushable e) eqn:Hp; cbn [from_option id].
    + assert (atoms e = [e]) as Heq by (by destruct e).
      split_and!; [by apply (safe_value true)|by repeat constructor|done| | |].
      * intros a ->%list_elem_of_singleton. split; [rewrite Heq; by left|done].
      * intros a ->%list_elem_of_singleton. by left.
      * intros r. rewrite Htrue. cbn. by rewrite !andb_true_r.
    + split_and!; try done; [by intros a ?%not_elem_of_nil|by right].
  - cbn [atoms] in Hat. assert (Forall (λ e, atom e = true) cs) as Hatom by (eapply Forall_impl; [exact Hat|]; by intros x []).
    destruct type; [|by split_and!; try done; [intros a ?%not_elem_of_nil|right]]. rewrite pushdown_and by done. cbn [from_option id]. split_and!.
    + by apply safe_stays.
    + intros _. cbn [atoms]. apply Forall_forall. by intros x [? _]%list_elem_of_filter.
    + intros Hnil. f_equal. clear -Hnil. induction cs as [|a cs IH]; [done|]. destruct (pushable a) eqn:Hp.
      * by rewrite filter_cons_True in Hnil.
      * rewrite filter_cons_False in Hnil by (by rewrite Hp). rewrite filter_cons_True by done. by rewrite IH.
    + intros a [_ Ha]%list_elem_of_filter. split; [done|]. rewrite Forall_forall in Hatom. by apply Hatom.
    + intros a [_ Ha]%list_elem_of_filter. by right.
    + intros r. rewrite !holds_and; [apply all_hold_split| |done].
      rewrite !Forall_forall in Hatom |- *. intros x [_ Hx]%list_elem_of_filter. by apply Hatom.
Qed.
(** The operator keeps its type; below it, a table may have taken predicates over. *)
Lemma predicate_pushdown_keeps n : plan_ok n → ∃ n' c, predicate_pushdown n = (n', c) ∧ keeps n n'.
Proof.
  unfold keeps. intros Hn. assert (∃ n' c, (n, false) = (n', c) ∧ plan_ok n' ∧ rows n' = rows n ∧ Logical.type n' = Logical.type n) as Hsame
    by (by eexists _, _).
  destruct Hn as [t ro ps Hk Hg Ha|e c Hs Hc Hp Hpush Hg|l r Hl Hr Hget|type c Hu Hup Hc|type Hu Hup]; try done; try (by destruct type).
  destruct Hc as [t ro ps Hk Hg' Ha|e' c Hs' Hc Hp' Hpush' Hg'|l r Hl Hr Hget|type' c Hu' Hup' Hc|type' Hu' Hup']; try done;
    try (by destruct type').
  cbn [predicate_pushdown]. pose proof (pushdown_table e Hs) as Hpd.
  destruct (get_exprs_can_pushdown e) as [kept pushed] eqn:He. destruct Hpd as (Hs' & Hno & Hnil & Hpa & Hin & Hholds).
  set (e' := default _ kept) in *. destruct pushed as [|p pushed].
  - rewrite Hnil by done. eexists _, _. split; [done|]. split_and!; [by constructor; [|constructor|..]|done|done].
  - assert (ps = []) as ->.
    { destruct ps as [|q ps]; [done|]. cbn in Hpush. by rewrite (no_push e Hs Hpush) in He. }
    assert (List.filter (all_hold []) (scan t) = scan t) as Hall by (by apply (filter_constant true)).
    eexists _, _. split; [done|]. split_and!; [|cbn [rows]|done].
    + constructor; [done|constructor| |cbn; by apply Hno|].
      * done.
      * cbn [rows] in Hg. rewrite Hall in Hg. apply (good_some _ (atoms e)); [|done]. intros a Ha'. right. by apply Hpa.
      * rewrite Forall_forall. intros a Ha'. by apply Hpa.
      * done.
      * eapply good_rewritten; [|done|done]. cbn [rows] in Hg |- *. rewrite Hall in Hg. by apply good_filter.
    + rewrite !filter_one, filter_twice. rewrite filter_twice. apply filter_same. intros r.
      rewrite Hholds. done.
Qed.

(** ** The rewriter on the plans of the generator *)
Lemma rewrite_keeps fuel n :
  plan_ok n → (node_size n <= fuel)%nat → ∃ n' c, rewrite fuel n = Done (n', c) ∧ keeps n n'.
Proof.
  revert n. induction fuel as [|fuel IH]; intros n Hn Hsz; [pose proof (node_size_pos n); lia|].
  destruct (rewrite_expressions_keeps n Hn) as (n1 & c1 & H1 & Hok1 & Hr1 & Ht1).
  pose proof (rewrite_expressions_ends n) as He1. rewrite H1 in He1. destruct He1 as [Hsz1 _]. cbn in Hsz1.
  destruct (predicate_rewrite_keeps n1 Hok1) as (n2 & c2 & H2 & Hok2 & Hr2 & Ht2).
  destruct (predicate_rewrite_shrinks _ _ H2) as [Hsz2 _]. cbn in Hsz2.
  destruct (predicate_pushdown_keeps n2 Hok2) as (n3 & c3 & H3 & Hok3 & Hr3 & Ht3).
  destruct (predicate_pushdown_shrinks n2) as [Hsz3 _]. rewrite H3 in Hsz3. cbn in Hsz3.
  cbn [rewrite]. rewrite H1. cbn [outcome_bind]. rewrite H2. cbn [from_option_crash outcome_bind]. rewrite H3.
  assert (∀ c, (node_size c < node_size n3)%nat → plan_ok c → ∃ c' ch, rewrite fuel c = Done (c', ch) ∧ keeps c c') as Hchild
    by (intros c Hlt Hc; apply IH; [done|lia]).
  unfold keeps. rewrite <-Hr1, <-Hr2, <-Hr3, <-Ht1, <-Ht2, <-Ht3. clear - Hchild Hok3.
  destruct Hok3 as [t ro ps Hk Hg Ha|e c Hs Hc Hp Hpush Hg|l r Hl Hr Hget|type c Hu Hup Hc|type Hu Hup]; cbn [rewrite_each outcome_bind].
  - eexists _, _. split; [done|]. by split_and!; [constructor|..].
  - destruct (Hchild c) as (c' & ch & -> & Hc' & Hrows & Htype); [cbn; lia|done|]. cbn [outcome_bind].
    eexists _, _. split; [done|]. split_and!; [|cbn [rows]; by rewrite Hrows|done].
    apply plan_predicate; rewrite ?Htype, ?Hrows; done.
  - destruct (Hchild l) as (l' & ch & -> & Hl' & Hrowl & _); [cbn; lia|done|].
    destruct (Hchild r) as (r' & ch' & -> & Hr' & Hrowr & Htr); [cbn; lia|done|]. cbn [outcome_bind].
    eexists _, _. split; [done|]. split_and!; [constructor; by rewrite ?Htr|cbn [rows]; by rewrite Hrowl, Hrowr|done].
  - destruct (Hchild c) as (c' & ch & -> & Hc' & Hrows & Htype); [cbn; lia|done|]. cbn [outcome_bind].
    eexists _, _. split; [done|]. split_and!; [apply plan_unary; by rewrite ?Hrows| |done].
    destruct type; try done; cbn [rows]; by rewrite Hrows.
  - eexists _, _. split; [done|]. by split_and!; [apply plan_leaf|..].
Qed.
Lemma optimize_rewrite_keeps passes n :
  plan_ok n → (node_size n < passes)%nat → ∃ n', optimize_rewrite passes n = Done n' ∧ keeps n n'.
Proof.
  revert n. induction passes as [|passes IH]; intros n Hn Hsz; [lia|]. cbn [optimize_rewrite].
  destruct (rewrite_keeps (node_size n) n Hn) as (n1 & c & H1 & Hok & Hrows & Htype); [done|]. rewrite H1. cbn [outcome_bind].
  pose proof (rewrite_ends (node_size n) n ltac:(done)) as He. rewrite H1 in He. destruct He as [_ Hlt]. cbn in Hlt.
  destruct c; [|by eexists; split; [done|split_and!]]. specialize (Hlt eq_refl).
  destruct (IH n1 Hok) as (n' & Hn' & Hok' & Hrows' & Htype'); [lia|]. exists n'. split; [done|].
  split_and!; [done|by rewrite Hrows'|by rewrite Htype'].
Qed.
End plans.
End sound.
