(* ===== verification/Operators.v ===== *)
(** * Physical operators ([sql/operator])

    An operator is a state with [open], [next], [close] and [current_tuple]; what is common
    to all of them is the class [PhysOps], and an operator with children is defined over
    any children of that class.  [W] is the state of the database the operators share.
    The tuples of the operators are allocated one by one and never changed afterwards, so
    that a pointer to a tuple is its value; [None] is the null pointer.  The loops over the
    rows of a child have fuel.  Subqueries are executed by [executor]. *)
From S2P Require Import Prelude RidKey Comparator TableMeta SqlValue Row Expr.
From Stdlib Require Import ZArith Lia Floats.SpecFloat.
From stdpp Require Import base option strings list.
Local Open Scope Z_scope.

Class PhysOps (W C : Type) := {
  oper_open : ST (W * C) RC.t;
  oper_next : ST (W * C) RC.t;
  oper_close : ST (W * C) RC.t;
  oper_current : C → outcome (option Tuple.t);
  oper_set_parent : Tuple.t → C → option C
}.

(** [PhysicalOperator::set_parent_tuple]: handed to the first child, if there is one *)
Definition set_parent_children {W C} `{!PhysOps W C} (p : Tuple.t) (l : list C) : option (list C) :=
  match l with [] => Some [] | c :: l => c ← oper_set_parent p c; Some (c :: l) end.
(** a step of a part of the state *)
Definition on_part {W C O A} (get : O → option C) (put : C → O → O) (c : ST (W * C) A) : ST (W * O) A :=
  λ '(w, o),
    match get o with
    | None => Crash
    | Some x =>
        match c (w, x) with
        | Done (a, (w, x)) => Done (a, (w, put x o))
        | Crash => Crash
        | OutOfFuel => OutOfFuel
        end
    end.
Definition get_state {W O} : ST (W * O) O := λ '(w, o), Done (o, (w, o)).
Definition set_state {W O} (f : O → O) : ST (W * O) () := λ '(w, o), Done ((), (w, f o)).
Definition lift_outcome {S A} (c : outcome A) : ST S A :=
  λ s, match c with Done a => Done (a, s) | Crash => Crash | OutOfFuel => OutOfFuel end.
(** the vector of the children *)
Definition put_head {C} (c : C) (l : list C) : list C := match l with [] => [] | _ :: l => c :: l end.
(** [tuple] behind the tuple of the query around this one *)
Definition with_parent (parent : option Tuple.t) (tuple : Tuple.t) : Tuple.t :=
  match parent with Some p => Tuple.Compound p tuple | None => tuple end.

(** ** [ProjectPhysicalOperator] *)
Module Project.
Record t (C : Type) : Type := mk { children_ : list C; speces_ : list TupleCellSpec }.
Arguments mk {C}.
Arguments children_ {C}.
Arguments speces_ {C}.
(** [add_projection] *)
Definition projection (e : Expr.t) : option TupleCellSpec :=
  match e with
  | Expr.FieldExpr f => Some (field_spec (fd_table_name f) (fd_field_name f) None)
  | Expr.AggreExpression a =>
      Some (set_aggre_type (ag_type a) (field_spec (fd_table_name (ag_field a)) (fd_field_name (ag_field a)) None))
  | _ => None
  end.
Section ops.
Context {W C : Type} `{!PhysOps W C}.
Definition on_child {A} : ST (W * C) A → ST (W * t C) A :=
  on_part (λ o, head (children_ o)) (λ c o, mk (put_head c (children_ o)) (speces_ o)).
Definition open : ST (W * t C) RC.t :=
  o ← get_state;
  match children_ o with
  | [] => mret RC.SUCCESS
  | _ => try on_child oper_open ;; mret RC.SUCCESS
  end.
Definition next : ST (W * t C) RC.t :=
  o ← get_state; match children_ o with [] => mret RC.RECORD_EOF | _ => on_child oper_next end.
Definition close : ST (W * t C) RC.t :=
  o ← get_state;
  match children_ o with [] => mret RC.SUCCESS | _ => on_child oper_close ;;; mret RC.SUCCESS end.
Definition current_tuple (o : t C) : outcome (option Tuple.t) :=
  match children_ o with
  | [] => Crash
  | c :: _ =>
      match oper_current c with
      | Done tuple => Done (Some (Tuple.Project (speces_ o) tuple))
      | Crash => Crash
      | OutOfFuel => OutOfFuel
      end
  end.
#[global] Instance ops : PhysOps W (t C) := {|
  oper_open := open; oper_next := next; oper_close := close; oper_current := current_tuple;
  oper_set_parent p o :=
    match children_ o with [] => None | l => l ← set_parent_children p l; Some (mk l (speces_ o)) end |}.
End ops.
End Project.

Section operators.
Context `{!LibText} `{!Uninit} (trx_fields : option (list FieldMeta.t)).
Context (executor : SubQuery → option Tuple.t → option (RC.t * SubQuery)).

(** the value of a predicate, and whether the code goes on with it *)
Definition eval_predicate (tuple : Tuple.t) (e : Expr.t) (value : Value) : option (RC.t * Value * bool) :=
  '(rc, value) ← get_value trx_fields tuple e value;
  if RC.succ rc then b ← Val.get_boolean value; Some (rc, value, b) else Some (rc, value, false).
End operators.

(** ** [PredicatePhysicalOperator] *)
Module Predicate.
Record t (C : Type) : Type := mk { children_ : list C; expression_ : Expr.t; parent_tuple_ : option Tuple.t }.
Arguments mk {C}.
Arguments children_ {C}.
Arguments expression_ {C}.
Arguments parent_tuple_ {C}.
(** the constructor asserts that the expression is boolean *)
Definition make {C} (expr : Expr.t) (children : list C) : option (t C) :=
  type ← Expr.value_type expr;
  if decide (type = BOOLEANS) then Some (mk children expr None) else None.
Section ops.
Context `{!LibText} `{!Uninit} (trx_fields : option (list FieldMeta.t)).
Context (executor : SubQuery → option Tuple.t → option (RC.t * SubQuery)).
Context {W C : Type} `{!PhysOps W C} (fuel : nat).
Definition on_child {A} : ST (W * C) A → ST (W * t C) A :=
  on_part (λ o, head (children_ o)) (λ c o, mk (put_head c (children_ o)) (expression_ o) (parent_tuple_ o)).
Definition set_expression (e : Expr.t) (o : t C) : t C := mk (children_ o) e (parent_tuple_ o).
(** the code of a child that fails to open is replaced *)
Definition open : ST (W * t C) RC.t :=
  o ← get_state;
  if decide (length (children_ o) ≠ 1%nat) then mret RC.INTERNAL
  else
    on_child oper_open ;;;
    r ← st_some (do_expr executor (expression_ o) None);
    set_state (set_expression r.2) ;;;
    mret r.1.
Definition next_loop : nat → ST (W * t C) RC.t :=
  fix go fuel :=
  match fuel with
  | O => st_nofuel
  | S fuel =>
      try on_child oper_next ;;
      o ← get_state;
      c ← st_some (head (children_ o));
      tuple ← lift_outcome (oper_current c);
      match tuple with
      | None => mret RC.INTERNAL
      | Some tuple =>
          let tuple := with_parent (parent_tuple_ o) tuple in
          r ← st_some (do_expr executor (expression_ o) (Some tuple));
          set_state (set_expression r.2) ;;;
          if negb (RC.succ r.1) then mret r.1
          else
            v ← st_some (eval_predicate trx_fields tuple r.2 Val.new);
            let '(rc, _, b) := v in
            if negb (RC.succ rc) then mret rc
            else if b : bool then mret rc else go fuel
      end
  end.
Definition close : ST (W * t C) RC.t := on_child oper_close ;;; mret RC.SUCCESS.
Definition current_tuple (o : t C) : outcome (option Tuple.t) :=
  match children_ o with [] => Crash | c :: _ => oper_current c end.
Definition ops : PhysOps W (t C) := {|
  oper_open := open; oper_next := next_loop fuel; oper_close := close; oper_current := current_tuple;
  oper_set_parent p o := l ← set_parent_children p (children_ o); Some (mk l (expression_ o) (Some p)) |}.
End ops.
End Predicate.

(** ** [NestedLoopJoinPhysicalOperator] *)
Module NestedLoopJoin.
Record t (C : Type) : Type := mk {
  children_ : list C;
  left_tuple_ : option Tuple.t;
  right_tuple_ : option Tuple.t;
  round_done_ : bool;
  right_closed_ : bool
}.
Arguments mk {C}.
Arguments children_ {C}.
Arguments left_tuple_ {C}.
Arguments right_tuple_ {C}.
Arguments round_done_ {C}.
Arguments right_closed_ {C}.
Definition make {C} (children : list C) : t C := mk children None None true true.
Section ops.
Context {W C : Type} `{!PhysOps W C}.
Definition set_children (l : list C) (o : t C) : t C :=
  mk l (left_tuple_ o) (right_tuple_ o) (round_done_ o) (right_closed_ o).
Definition set_left (tuple : option Tuple.t) (o : t C) : t C :=
  mk (children_ o) tuple (right_tuple_ o) (round_done_ o) (right_closed_ o).
Definition set_right (tuple : option Tuple.t) (o : t C) : t C :=
  mk (children_ o) (left_tuple_ o) tuple (round_done_ o) (right_closed_ o).
Definition set_round_done (b : bool) (o : t C) : t C :=
  mk (children_ o) (left_tuple_ o) (right_tuple_ o) b (right_closed_ o).
Definition set_right_closed (b : bool) (o : t C) : t C :=
  mk (children_ o) (left_tuple_ o) (right_tuple_ o) (round_done_ o) b.
Definition on_index {A} (i : nat) : ST (W * C) A → ST (W * t C) A :=
  on_part (λ o, children_ o !! i) (λ c o, set_children (<[i := c]> (children_ o)) o).
Definition on_left {A} : ST (W * C) A → ST (W * t C) A := on_index 0.
Definition on_right {A} : ST (W * C) A → ST (W * t C) A := on_index 1.
Definition current_of (i : nat) : ST (W * t C) (option Tuple.t) :=
  o ← get_state; c ← st_some (children_ o !! i); lift_outcome (oper_current c).

Definition open : ST (W * t C) RC.t :=
  o ← get_state;
  if decide (length (children_ o) ≠ 2%nat) then mret RC.INTERNAL
  else
    set_state (set_right_closed true) ;;;
    set_state (set_round_done true) ;;;
    on_left oper_open.
Definition left_next : ST (W * t C) RC.t :=
  try on_left oper_next ;;
  tuple ← current_of 0;
  set_state (set_left tuple) ;;;
  mret RC.SUCCESS.
(** the start of a round over the right child *)
Definition start_round : ST (W * t C) RC.t :=
  o ← get_state;
  if round_done_ o then
    rc ← (if negb (right_closed_ o) then
            rc ← on_right oper_close; set_state (set_right_closed true) ;;; mret rc
          else mret RC.SUCCESS);
    if negb (RC.succ rc) then mret rc
    else
      try on_right oper_open ;;
      set_state (set_right_closed false) ;;;
      set_state (set_round_done false) ;;;
      mret RC.SUCCESS
  else mret RC.SUCCESS.
Definition right_next : ST (W * t C) RC.t :=
  try start_round ;;
  rc ← on_right oper_next;
  if negb (RC.succ rc) then
    (if decide (rc = RC.RECORD_EOF) then set_state (set_round_done true) else mret ()) ;;;
    mret rc
  else
    tuple ← current_of 1;
    set_state (set_right tuple) ;;;
    mret rc.
Definition next : ST (W * t C) RC.t :=
  o ← get_state;
  if round_done_ o then try left_next ;; right_next
  else
    rc ← right_next;
    if negb (RC.succ rc) then
      if decide (rc = RC.RECORD_EOF) then try left_next ;; right_next else mret rc
    else mret rc.
Definition close : ST (W * t C) RC.t :=
  rc ← on_left oper_close;
  o ← get_state;
  if negb (right_closed_ o) then
    rc ← on_right oper_close;
    (if RC.succ rc then set_state (set_right_closed true) else mret ()) ;;;
    mret rc
  else mret rc.
(** a copy of [joined_tuple_]; a side of it that was never set is not told from a pair
    nobody may look at *)
Definition current_tuple (o : t C) : outcome (option Tuple.t) :=
  match left_tuple_ o, right_tuple_ o with
  | Some l, Some r => Done (Some (Tuple.Joined l r))
  | _, _ => Crash
  end.
#[global] Instance ops : PhysOps W (t C) := {|
  oper_open := open; oper_next := next; oper_close := close; oper_current := current_tuple;
  oper_set_parent p o := l ← set_parent_children p (children_ o); Some (set_children l o) |}.
End ops.
End NestedLoopJoin.
