(* ===== verification/Aggregate.v ===== *)
(** * Aggregation ([sql/expr/tuple.cpp], [sql/operator/aggre_physical_operator.cpp])

    [AggregationTuple] keeps, for each aggregation, the number of values that are not
    null, whether all were null, and the result so far. *)
From S2P Require Import Prelude RidKey Comparator TableMeta SqlValue Row Expr Operators.
From Stdlib Require Import ZArith Lia Floats.SpecFloat.
From stdpp Require Import base option strings list.
Local Open Scope Z_scope.

(** what the loops know of an aggregation: [all_null_[i]], [counts_[i]], [aggre_results_[i]],
    [aggre_exprs_[i]] *)
Record slot : Set := MkSlot { s_null : bool; s_count : Z; s_res : Value; s_expr : AggreExpr }.
Fixpoint slots_of (all_null : list bool) (counts : list Z) (results : list Value) (exprs : list AggreExpr)
  : option (list slot) :=
  match all_null, counts, results, exprs with
  | n :: all_null, c :: counts, r :: results, e :: exprs =>
      l ← slots_of all_null counts results exprs; Some (MkSlot n c r e :: l)
  | _, _, _, [] => Some []
  | _, _, _, _ => None
  end.
Definition slots (a : AggregationTuple) : option (list slot) :=
  slots_of (all_null_ a) (counts_ a) (aggre_results_ a) (aggre_exprs_ a).
Definition of_slots (count : Z) (l : list slot) : AggregationTuple :=
  MkAggregation count (s_null <$> l) (s_count <$> l) (s_res <$> l) (s_expr <$> l).

(** [double] to [float] *)
Definition to_float (f : spec_float) : spec_float :=
  match f with S754_finite s m e => binary_normalize 24 128 (cond_Zopp s (Zpos m)) e s | _ => f end.

Section aggregate.
Context `{!LibText} `{!Uninit} (trx_fields : option (list FieldMeta.t)).

Definition counts_only (t : Aggre.t) : bool := bool_decide (t = Aggre.COUNT ∨ t = Aggre.COUNT_ALL).
(** a new slot of [init] and [reinit] *)
Definition init_slot (e : AggreExpr) : slot :=
  MkSlot false 0 (if counts_only (ag_type e) then Val.set_int 0 Val.new else Val.new) e.
Definition init (exprs : list AggreExpr) : AggregationTuple := of_slots 0 (init_slot <$> exprs).
Definition reinit (a : AggregationTuple) : AggregationTuple := init (aggre_exprs_ a).
Definition do_aggregation_begin (a : AggregationTuple) : option AggregationTuple :=
  l ← slots a; Some (of_slots 0 ((λ s, MkSlot true 0 (s_res s) (s_expr s)) <$> l)).

(** the first value of a sum, of a maximum or a minimum *)
Definition first_result (t : Aggre.t) (cur_value : Value) : Value :=
  if decide (t = Aggre.AVG ∨ t = Aggre.SUM) then
    if decide (attr_type_ cur_value = INTS) then Val.set_int 0 Val.new
    else Val.set_float (S754_zero false) Val.new
  else cur_value.
Definition fold_value (t : Aggre.t) (res cur_value : Value) : option Value :=
  match t with
  | Aggre.MAX => b ← Val.lt res cur_value; Some (if b : bool then cur_value else res)
  | Aggre.MIN => b ← Val.lt cur_value res; Some (if b : bool then cur_value else res)
  | Aggre.AVG | Aggre.SUM => Val.add res cur_value
  | _ => Some res
  end.
(** the body of the loop; [cur_value] keeps the value before when [get_value] fails *)
Definition aggregate_slot (tuple : Tuple.t) (s : slot) (cur_value : Value) : option (slot * Value) :=
  '(_, cur_value) ← get_value trx_fields tuple (Expr.AggreExpression (s_expr s)) cur_value;
  if Val.is_null cur_value then Some (s, cur_value)
  else
    let t := ag_type (s_expr s) in
    let s := MkSlot (s_null s) (s_count s + 1) (s_res s) (s_expr s) in
    if counts_only t then Some (s, cur_value)
    else
      let res := if Val.is_null (s_res s) then first_result t cur_value else s_res s in
      res ← fold_value t res cur_value;
      Some (MkSlot false (s_count s) res (s_expr s), cur_value).
Fixpoint aggregate_slots (tuple : Tuple.t) (l : list slot) (cur_value : Value) : option (list slot) :=
  match l with
  | [] => Some []
  | s :: l =>
      '(s, cur_value) ← aggregate_slot tuple s cur_value;
      l ← aggregate_slots tuple l cur_value;
      Some (s :: l)
  end.
Definition do_aggregation (tuple : Tuple.t) (a : AggregationTuple) : option AggregationTuple :=
  count ← to_int32 (count_ a + 1);
  l ← slots a;
  l ← aggregate_slots tuple l Val.new;
  Some (of_slots count l).

Definition average (s : slot) : option Value :=
  let res := s_res s in
  let tot := int32 (s_count s mod 2 ^ 32) in
  if decide (attr_type_ res = INTS) then
    val ← Val.get_int res;
    if decide (tot = 0) then None
    else if decide (Z.rem val tot = 0) then Some (Val.set_int (Z.quot val tot) res)
    else Some (Val.set_float (to_float (SFdiv 53 1024 (double_of_Z val) (double_of_Z tot))) res)
  else f ← Val.get_float res; Some (Val.set_float (SFdiv 24 128 f (float_of_Z tot)) res).
Definition end_slot (count : Z) (s : slot) : option slot :=
  let t := ag_type (s_expr s) in
  res ← (if s_null s && negb (counts_only t) then Some (Val.set_null (s_res s))
         else
           match t with
           | Aggre.COUNT => Some (Val.set_int (int32 (s_count s mod 2 ^ 32)) (s_res s))
           | Aggre.COUNT_ALL => Some (Val.set_int count (s_res s))
           | Aggre.AVG => average s
           | _ => Some (s_res s)
           end);
  Some (MkSlot (s_null s) (s_count s) res (s_expr s)).
Definition do_aggregation_end (a : AggregationTuple) : option AggregationTuple :=
  l ← slots a; l ← mapM (end_slot (count_ a)) l; Some (of_slots (count_ a) l).
End aggregate.

(** ** [AggrePhysicalOperator] *)
Module AggreOper.
Record t (C : Type) : Type := mk {
  children_ : list C;
  is_started_ : bool;
  is_record_eof : bool;
  tuple_ : AggregationTuple;
  current_ : option Tuple.t
}.
Arguments mk {C}.
Arguments children_ {C}.
Arguments is_started_ {C}.
Arguments is_record_eof {C}.
Arguments tuple_ {C}.
Arguments current_ {C}.
Section ops.
Context `{!LibText} `{!Uninit} (trx_fields : option (list FieldMeta.t)).
Context {W C : Type} `{!PhysOps W C} (fuel : nat).
Definition make (exprs : list AggreExpr) (children : list C) : t C := mk children false false (init exprs) None.
Definition on_child {A} : ST (W * C) A → ST (W * t C) A :=
  on_part (λ o, head (children_ o)) (λ c o, mk (put_head c (children_ o)) (is_started_ o) (is_record_eof o) (tuple_ o) (current_ o)).
Definition set_started (o : t C) : t C := mk (children_ o) true (is_record_eof o) (tuple_ o) (current_ o).
Definition set_eof (o : t C) : t C := mk (children_ o) (is_started_ o) true (tuple_ o) (current_ o).
Definition set_aggregation (a : AggregationTuple) (o : t C) : t C :=
  mk (children_ o) (is_started_ o) (is_record_eof o) a (current_ o).
Definition set_tuple (tuple : option Tuple.t) (o : t C) : t C :=
  mk (children_ o) (is_started_ o) (is_record_eof o) (tuple_ o) tuple.
Definition aggregation_step (f : AggregationTuple → option AggregationTuple) : ST (W * t C) () :=
  o ← get_state; a ← st_some (f (tuple_ o)); set_state (set_aggregation a).

Definition open : ST (W * t C) RC.t :=
  o ← get_state; if decide (length (children_ o) ≠ 1%nat) then mret RC.SUCCESS else on_child oper_open.
Definition aggregate_loop : nat → ST (W * t C) RC.t :=
  fix go fuel :=
  match fuel with
  | O => st_nofuel
  | S fuel =>
      try on_child oper_next ;;
      o ← get_state;
      c ← st_some (head (children_ o));
      tuple ← lift_outcome (oper_current c);
      set_state (set_tuple tuple) ;;;
      (if negb (is_started_ o) then
         aggregation_step do_aggregation_begin ;;; set_state set_started
       else mret ()) ;;;
      tuple ← st_some tuple;
      aggregation_step (do_aggregation trx_fields tuple) ;;;
      go fuel
  end.
Definition next : ST (W * t C) RC.t :=
  o ← get_state;
  if is_record_eof o then mret RC.RECORD_EOF
  else if decide (children_ o = []) then set_state set_eof ;;; mret RC.SUCCESS
  else
    rc ← aggregate_loop fuel;
    if decide (rc = RC.RECORD_EOF) then
      set_state set_eof ;;;
      o ← get_state;
      (if is_started_ o then aggregation_step do_aggregation_end else mret ()) ;;;
      mret RC.SUCCESS
    else mret rc.
Definition close : ST (W * t C) RC.t :=
  o ← get_state;
  match children_ o with
  | [] => mret RC.SUCCESS
  | _ =>
      set_state (λ o, mk (children_ o) false false (reinit (tuple_ o)) (current_ o)) ;;;
      on_child oper_close
  end.
Definition current_tuple (o : t C) : outcome (option Tuple.t) :=
  Done (Some (Tuple.Aggregation (tuple_ o) (current_ o))).
Definition ops : PhysOps W (t C) := {|
  oper_open := open; oper_next := next; oper_close := close; oper_current := current_tuple;
  oper_set_parent p o :=
    l ← set_parent_children p (children_ o);
    Some (mk l (is_started_ o) (is_record_eof o) (tuple_ o) (current_ o)) |}.
End ops.
End AggreOper.
