(* ===== verification/OrderScan.v ===== *)
(** * Ordering, table scans and calculations ([sql/operator])

    [std::sort] is the function [sort] of a comparison that may fail; its contract is the
    class [StdSort].  A table scan works on any scanner of the class [ScanOps]. *)
From S2P Require Import Prelude RidKey Comparator LruCache BufferPool RecordPage RecordFile TableMeta SqlValue.
From S2P Require Import Row Expr Operators.
From Stdlib Require Import ZArith Lia Floats.SpecFloat.
From stdpp Require Import base option strings list sorting gmap.
Local Open Scope Z_scope.

(** ** [std::sort] *)
Section strict.
Context {A : Type} (comp : A → A → option bool).
(** what the library asks of a comparison on the elements of the range: it is defined and a
    strict weak order *)
Record strict_weak (l : list A) : Prop := {
  sw_defined : ∀ x y, x ∈ l → y ∈ l → is_Some (comp x y);
  sw_irrefl : ∀ x, x ∈ l → comp x x = Some false;
  sw_trans : ∀ x y z, x ∈ l → y ∈ l → z ∈ l → comp x y = Some true → comp y z = Some true → comp x z = Some true;
  sw_equiv : ∀ x y z, x ∈ l → y ∈ l → z ∈ l → comp x y = Some false → comp y z = Some false → comp x z = Some false
}.
(** no later element comes before an earlier one *)
Definition in_order (l : list A) : Prop := StronglySorted (λ x y, comp y x = Some false) l.
End strict.
Class SortOps := sort : ∀ A : Type, (A → A → option bool) → list A → option (list A).
Class StdSort `{!SortOps} : Prop :=
  sort_spec : ∀ A (comp : A → A → option bool) (l : list A),
    strict_weak comp l → ∃ l', sort A comp l = Some l' ∧ Permutation l' l ∧ in_order comp l'.

(** Insertion keeps the contract. *)
Section demo_sort.
Context {A : Type} (comp : A → A → option bool).
Fixpoint demo_insert (x : A) (l : list A) : option (list A) :=
  match l with
  | [] => Some [x]
  | y :: l' => b ← comp y x; if b : bool then r ← demo_insert x l'; Some (y :: r) else Some (x :: l)
  end.
Fixpoint demo_sorted (l : list A) : option (list A) :=
  match l with [] => Some [] | x :: l => r ← demo_sorted l; demo_insert x r end.

Context (all : list A) (Hsw : strict_weak comp all).
Lemma demo_insert_spec x l :
  x ∈ all → (∀ y, y ∈ l → y ∈ all) → in_order comp l →
  ∃ l', demo_insert x l = Some l' ∧ Permutation l' (x :: l) ∧ in_order comp l'.
Proof.
  intros Hx Hl Hs. induction l as [|y l IH].
  { exists [x]. split_and!; [done..|]. repeat constructor. }
  inversion Hs as [|? ? Hs' Hall]; subst. assert (y ∈ all) as Hy by (apply Hl; left).
  destruct (sw_defined _ _ Hsw y x Hy Hx) as [b Hb]. cbn. rewrite Hb. cbn. destruct b.
  - destruct IH as (l' & Hi & Hp & Ho); [by intros z Hz; apply Hl; right|done|]. rewrite Hi. cbn.
    exists (y :: l'). split_and!; [done| |].
    + rewrite Hp. by rewrite Permutation_swap.
    + constructor; [done|]. rewrite Hp. constructor; [|done].
      destruct (sw_defined _ _ Hsw x y Hx Hy) as [[|] Hc]; [|done].
      pose proof (sw_trans _ _ Hsw x y x Hx Hy Hx Hc Hb) as Hxx. by rewrite (sw_irrefl _ _ Hsw x Hx) in Hxx.
  - exists (x :: y :: l). split_and!; [done..|]. constructor; [done|]. constructor; [done|].
    rewrite Forall_forall in Hall |- *. intros z Hz.
    apply (sw_equiv _ _ Hsw z y x); [apply Hl; by right|done|done|by apply Hall|done].
Qed.
Lemma demo_sorted_spec l :
  (∀ y, y ∈ l → y ∈ all) → ∃ l', demo_sorted l = Some l' ∧ Permutation l' l ∧ in_order comp l'.
Proof.
  induction l as [|x l IH]; intros Hl; [exists []; split_and!; [done..|constructor]|].
  destruct IH as (r & Hr & Hp & Ho); [by intros y Hy; apply Hl; right|].
  destruct (demo_insert_spec x r) as (l' & Hi & Hp' & Ho'); [apply Hl; left| |done|].
  - intros y Hy. apply Hl. right. by rewrite <-Hp.
  - exists l'. cbn. rewrite Hr. split_and!; [done|by rewrite Hp', Hp|done].
Qed.
End demo_sort.
Definition demo_sort : SortOps := λ A comp l, demo_sorted comp l.
Lemma demo_sort_std : @StdSort demo_sort.
Proof. intros A comp l Hsw. by apply (demo_sorted_spec comp l Hsw). Qed.

Lemma demo_sort_perm {A} (comp : A → A → option bool) l :
  is_Some (demo_sort A comp l) → ∃ l', demo_sort A comp l = Some l' ∧ Permutation l' l.
Proof.
  assert (∀ x l l', demo_insert comp x l = Some l' → Permutation l' (x :: l)) as Hins.
  { clear l. intros x l. induction l as [|y l IH]; intros l'; cbn; [by intros [= <-]|]. intros Hb.
    apply bind_Some in Hb as ([|] & _ & Hb); [|by injection Hb as <-].
    apply bind_Some in Hb as (r & Hr & [= <-]). rewrite (IH r Hr). apply Permutation_swap. }
  intros [l' Hl']. exists l'. split; [done|]. unfold demo_sort in Hl'. revert l' Hl'.
  induction l as [|x l IH]; intros l'; cbn; [by intros [= <-]|]. intros Hb. apply bind_Some in Hb as (r & Hr & Hi).
  rewrite (Hins x r l' Hi). by rewrite (IH r Hr).
Qed.

(** ** [OrderPhysicalOperator] *)
Module Order.
Record t (C : Type) : Type := mk {
  children_ : list C;
  order_rules : list (TupleCellSpec * bool);
  is_inited_ : bool;
  iterator_ : nat;
  ordered_tuples_ : list Tuple.t
}.
Arguments mk {C}.
Arguments children_ {C}.
Arguments order_rules {C}.
Arguments is_inited_ {C}.
Arguments iterator_ {C}.
Arguments ordered_tuples_ {C}.
Section ops.
Context `{!LibText} `{!Uninit} (trx_fields : option (list FieldMeta.t)).
Context `{!SortOps} {W C : Type} `{!PhysOps W C} (fuel : nat).
Definition make (units : list (Field * bool)) (children : list C) : t C :=
  mk children ((λ u, (field_spec (fd_table_name u.1) (fd_field_name u.1) None, u.2)) <$> units) false 0 [].
(** [comprule]; its two values are kept from one rule to the next *)
Fixpoint comprule_from (rules : list (TupleCellSpec * bool)) (l r : Tuple.t) (vleft vright : Value) : option bool :=
  match rules with
  | [] => Some false
  | (spec, asc) :: rules =>
      '(_, vleft) ← Tuple.find_cell trx_fields l spec vleft;
      '(_, vright) ← Tuple.find_cell trx_fields r spec vright;
      comp_result ← Val.compare_value vleft vright;
      match comp_result with
      | CompOp.LESS_THAN => Some asc
      | CompOp.GREAT_THAN => Some (negb asc)
      | _ => comprule_from rules l r vleft vright
      end
  end.
Definition comprule (rules : list (TupleCellSpec * bool)) (l r : Tuple.t) : option bool :=
  comprule_from rules l r Val.new Val.new.

Definition on_child {A} : ST (W * C) A → ST (W * t C) A :=
  on_part (λ o, head (children_ o))
    (λ c o, mk (put_head c (children_ o)) (order_rules o) (is_inited_ o) (iterator_ o) (ordered_tuples_ o)).
Definition set_tuples (l : list Tuple.t) (o : t C) : t C :=
  mk (children_ o) (order_rules o) (is_inited_ o) (iterator_ o) l.
Definition start_iterator (o : t C) : t C := mk (children_ o) (order_rules o) true 0 (ordered_tuples_ o).
Definition advance (o : t C) : t C := mk (children_ o) (order_rules o) (is_inited_ o) (S (iterator_ o)) (ordered_tuples_ o).
(** the loop of [initialize]: whatever code of the child ends it *)
Definition fetch_loop : nat → ST (W * t C) RC.t :=
  fix go fuel :=
  match fuel with
  | O => st_nofuel
  | S fuel =>
      rc ← on_child oper_next;
      if negb (RC.succ rc) then mret RC.SUCCESS
      else
        o ← get_state;
        c ← st_some (head (children_ o));
        tuple ← lift_outcome (oper_current c);
        match tuple with
        | None => mret RC.INTERNAL
        | Some tuple => set_state (λ o, set_tuples (ordered_tuples_ o ++ [tuple]) o) ;;; go fuel
        end
  end.
Definition initialize : ST (W * t C) RC.t :=
  try fetch_loop fuel ;;
  o ← get_state;
  l ← st_some (sort _ (comprule (order_rules o)) (ordered_tuples_ o));
  set_state (set_tuples l) ;;;
  set_state start_iterator ;;;
  mret RC.SUCCESS.
Definition open : ST (W * t C) RC.t :=
  o ← get_state; if decide (1 < length (children_ o))%nat then mret RC.INTERNAL else on_child oper_open.
Definition next : ST (W * t C) RC.t :=
  o ← get_state;
  if negb (is_inited_ o) then try initialize ;; mret RC.SUCCESS
  else if decide (ordered_tuples_ o = []) then mret RC.RECORD_EOF
  else
    st_assert (bool_decide (iterator_ o < length (ordered_tuples_ o))%nat) ;;;
    set_state advance ;;;
    mret (if decide (S (iterator_ o) = length (ordered_tuples_ o)) then RC.RECORD_EOF else RC.SUCCESS).
Definition close : ST (W * t C) RC.t :=
  o ← get_state; match children_ o with [] => mret RC.SUCCESS | _ => on_child oper_close end.
Definition current_tuple (o : t C) : outcome (option Tuple.t) :=
  match ordered_tuples_ o with
  | [] => Done None
  | l => match l !! iterator_ o with Some tuple => Done (Some tuple) | None => Crash end
  end.
Definition ops : PhysOps W (t C) := {|
  oper_open := open; oper_next := next; oper_close := close; oper_current := current_tuple;
  oper_set_parent p o :=
    l ← set_parent_children p (children_ o);
    Some (mk l (order_rules o) (is_inited_ o) (iterator_ o) (ordered_tuples_ o)) |}.
End ops.
End Order.

(** ** [TableScanPhysicalOperator] *)
(** a [RecordFileScanner] on the table, for a transaction *)
Class ScanOps (W SC : Type) := {
  scan_open : bool → ST (W * SC) RC.t;
  scan_has_next : SC → bool;
  scan_next : ST (W * SC) (RC.t * (RID.t * memory));
  scan_close : ST (W * SC) RC.t
}.
Module TableScan.
Record t (SC : Type) : Type := mk {
  table_ : TableMeta.t;
  readonly_ : bool;
  record_scanner_ : SC;
  oper_meta : option TableMeta.t;
  inspector_ : RowTuple;
  tuples_ : list RowTuple;
  predicates_ : list Expr.t;
  parent_tuple_ : option Tuple.t
}.
Arguments mk {SC}.
Arguments table_ {SC}.
Arguments readonly_ {SC}.
Arguments record_scanner_ {SC}.
Arguments oper_meta {SC}.
Arguments inspector_ {SC}.
Arguments tuples_ {SC}.
Arguments predicates_ {SC}.
Arguments parent_tuple_ {SC}.
Section ops.
Context `{!LibText} `{!Uninit} (trx_fields : option (list FieldMeta.t)).
Context (executor : SubQuery → option Tuple.t → option (RC.t * SubQuery)).
Context {W SC : Type} `{!ScanOps W SC} (fuel : nat).
Definition empty_row (m : TableMeta.t) : RowTuple := MkRowTuple (RID.mk (-1) (-1), []) m [].
Definition make (table : TableMeta.t) (readonly : bool) (predicates : list Expr.t) (scanner : SC) : t SC :=
  mk table readonly scanner None (empty_row table) [] predicates None.
Definition on_scanner {A} : ST (W * SC) A → ST (W * t SC) A :=
  on_part (λ o, Some (record_scanner_ o))
    (λ sc o, mk (table_ o) (readonly_ o) sc (oper_meta o) (inspector_ o) (tuples_ o) (predicates_ o) (parent_tuple_ o)).
Definition set_meta (o : t SC) : t SC :=
  mk (table_ o) (readonly_ o) (record_scanner_ o) (Some (table_ o)) (inspector_ o) (tuples_ o) (predicates_ o) (parent_tuple_ o).
Definition set_inspector (r : RowTuple) (o : t SC) : t SC :=
  mk (table_ o) (readonly_ o) (record_scanner_ o) (oper_meta o) r (tuples_ o) (predicates_ o) (parent_tuple_ o).
Definition push_tuple (r : RowTuple) (o : t SC) : t SC :=
  mk (table_ o) (readonly_ o) (record_scanner_ o) (oper_meta o) (inspector_ o) (tuples_ o ++ [r]) (predicates_ o) (parent_tuple_ o).
Definition set_predicates (l : list Expr.t) (o : t SC) : t SC :=
  mk (table_ o) (readonly_ o) (record_scanner_ o) (oper_meta o) (inspector_ o) (tuples_ o) l (parent_tuple_ o).
(** the subqueries of the predicates; the code is that of the last predicate *)
Fixpoint do_predicates (l : list Expr.t) (rc : RC.t) : option (RC.t * list Expr.t) :=
  match l with
  | [] => Some (rc, [])
  | e :: l =>
      '(rc, e) ← do_expr executor e None;
      '(rc, l) ← do_predicates l rc;
      Some (rc, e :: l)
  end.
Definition open : ST (W * t SC) RC.t :=
  o ← get_state;
  rc ← on_scanner (scan_open (readonly_ o));
  (if RC.succ rc then set_state set_meta else mret ()) ;;;
  r ← st_some (do_predicates (predicates_ o) rc);
  set_state (set_predicates r.2) ;;;
  mret r.1.
(** [filter]: the predicates share [value] *)
Fixpoint filter (predicates : list Expr.t) (tuple : Tuple.t) (value : Value) : option (RC.t * bool) :=
  match predicates with
  | [] => Some (RC.SUCCESS, true)
  | e :: predicates =>
      '(rc, value, b) ← eval_predicate trx_fields tuple e value;
      if negb (RC.succ rc) then Some (rc, false)
      else if negb b then Some (rc, false)
      else filter predicates tuple value
  end.
Definition next_loop : nat → RC.t → ST (W * t SC) RC.t :=
  fix go fuel rc :=
  match fuel with
  | O => st_nofuel
  | S fuel =>
      o ← get_state;
      if scan_has_next (record_scanner_ o) then
        r ← on_scanner scan_next;
        let '(rc, current_record) := r in
        if negb (RC.succ rc) then mret rc
        else
          m ← st_some (oper_meta o);
          set_state (λ o, set_inspector (set_schema m (TableMeta.fields m) (set_record current_record (inspector_ o))) o) ;;;
          o ← get_state;
          f ← st_some (filter (predicates_ o) (with_parent (parent_tuple_ o) (Tuple.Row (inspector_ o))) Val.new);
          let '(rc, filter_result) := f in
          if negb (RC.succ rc) then mret rc
          else if filter_result : bool then
            set_state (push_tuple (set_schema m (TableMeta.fields m) (set_record current_record (empty_row m)))) ;;;
            mret rc
          else go fuel RC.RECORD_EOF
      else mret rc
  end.
Definition next : ST (W * t SC) RC.t :=
  o ← get_state;
  if negb (scan_has_next (record_scanner_ o)) then mret RC.RECORD_EOF else next_loop fuel RC.SUCCESS.
Definition close : ST (W * t SC) RC.t := on_scanner scan_close.
Definition current_tuple (o : t SC) : outcome (option Tuple.t) :=
  match last (tuples_ o) with Some r => Done (Some (Tuple.Row r)) | None => Crash end.
Definition ops : PhysOps W (t SC) := {|
  oper_open := open; oper_next := next; oper_close := close; oper_current := current_tuple;
  oper_set_parent p o :=
    Some (mk (table_ o) (readonly_ o) (record_scanner_ o) (oper_meta o) (inspector_ o) (tuples_ o) (predicates_ o) (Some p)) |}.
End ops.
End TableScan.

(** ** [CalcPhysicalOperator] *)
Module Calc.
Record t : Type := mk { expressions_ : list (string * Expr.t); emitted_ : bool }.
Section ops.
Context `{!LibText} `{!Uninit} {W : Type}.
(** the cells are computed once for their codes *)
Fixpoint check_cells (l : list (string * Expr.t)) : option RC.t :=
  match l with
  | [] => Some RC.SUCCESS
  | e :: l => '(rc, _) ← Expr.try_get_value e.2 Val.new; if RC.succ rc then check_cells l else Some rc
  end.
Definition next : ST (W * t) RC.t :=
  o ← get_state;
  if emitted_ o then mret RC.RECORD_EOF
  else
    set_state (λ o, mk (expressions_ o) true) ;;;
    rc ← st_some (check_cells (expressions_ o));
    mret rc.
#[global] Instance ops : PhysOps W t := {|
  oper_open := mret RC.SUCCESS; oper_next := next; oper_close := mret RC.SUCCESS;
  oper_current o := Done (Some (Tuple.Expressions (expressions_ o)));
  oper_set_parent _ o := Some o |}.
End ops.
End Calc.

(** * The scanner of a table ([Table::get_record_scanner], [RecordFileScanner::open_scan], [close_scan])

    [RecordFile.v] has the scanner of a file that is scanned once.  Here it is opened,
    closed and opened again, as the operators do.  [close_scan] lets go of the page but
    leaves [record_page_iterator_] where it was: a scanner that was closed before its end
    reads a page it no longer holds when it is opened again, and a scanner that is read
    after [close_scan] has no buffer pool.  Both are undefined. *)
Module TableScanner.
Record t : Type := mk { scanner_ : RecordFileScanner; readonly_ : bool; is_open_ : bool }.
(** a new scanner *)
Definition fresh (it : BufferPoolIterator) : t := mk (Scanner it None (RID.mk (-1) (-1), [])) false false.
Section ops.
(** [file]: the record file of the table; [visit]: [trx_->visit_record], if there is a
    transaction *)
Context {W : Type} (file : W → file_state) (visit : W → option (RID.t → memory → bool → RC.t)).

Definition stale (sc : RecordFileScanner) : bool :=
  match record_page_iterator_ sc with Some it => page_iterator_has_next it | None => false end.
Definition open_scan (readonly : bool) : ST (W * t) RC.t := λ '(w, o),
  let sc := set_bp_iterator (bp_iterator_init (file_hdr (file w)) 0) (scanner_ o) in
  if stale sc then Crash
  else
    match fetch_next_record None (visit w) readonly (file w) sc with
    | Done (rc, sc) => Done (if decide (rc = RC.RECORD_EOF) then RC.SUCCESS else rc, (w, mk sc readonly true))
    | Crash => Crash
    | OutOfFuel => OutOfFuel
    end.
Definition close_scan : ST (W * t) RC.t := λ '(w, o), Done (RC.SUCCESS, (w, mk (scanner_ o) (readonly_ o) false)).
Definition next : ST (W * t) (RC.t * (RID.t * memory)) := λ '(w, o),
  if is_open_ o then
    match scanner_next None (visit w) (readonly_ o) (file w) (scanner_ o) with
    | Done (r, sc) => Done (r, (w, mk sc (readonly_ o) true))
    | Crash => Crash
    | OutOfFuel => OutOfFuel
    end
  else Crash.
Definition ops : ScanOps W t := {|
  scan_open := open_scan; scan_has_next o := has_next (scanner_ o); scan_next := next; scan_close := close_scan |}.
End ops.
End TableScanner.
