(* ===== verification/Catalog.v ===== *)
(** * Databases and the files of their tables ([storage/db], [storage/default/default_handler.cpp],
      [storage/table/table.cpp])

    The metadata of a table as a document, the files of tables and indexes, and the tables a
    database has opened.  The documents are those of jsoncpp, the class [Json].  The state is
    the world of files, and of the [DiskBufferPool]s of the process, which are pointers.
    Every call of the system may fail, the class [Os] says which does. *)
From S2P Require Import Prelude RidKey Comparator BufferPool BplusNode TableMeta OrderScan.
From Stdlib Require Import ZArith Lia Ascii String.
From stdpp Require Import base option strings gmap sets list.
Local Open Scope Z_scope.
Local Open Scope string_scope.

(** ** JSON values and documents

    [get_member] is the constant [operator[]], which throws on a value that is neither null
    nor an object; [asBool] throws on strings, arrays and objects. *)
Class Json (J T : Type) := {
  json_null : J;
  json_int : Z → J;
  json_string : string → J;
  json_bool : bool → J;
  set_member : J → string → J → J;
  json_append : J → J → J;
  get_member : J → string → option J;
  json_elements : J → list J;
  isInt : J → bool;
  isString : J → bool;
  isBool : J → bool;
  isArray : J → bool;
  isObject : J → bool;
  json_empty : J → bool;
  asInt : J → Z;
  asString : J → string;
  asBool : J → option bool;
  json_write : J → T;
  json_parse : T → option J;
  no_text : T
}.
(** What the program relies on: members and elements are those that were stored, and a
    document of plain values is read as it was written.  Texts are plain when they are ASCII. *)
Definition is_ascii (s : string) : bool := forallb (λ c, bool_decide (Ascii.N_of_ascii c < 128)%N) (String.list_ascii_of_string s).
Class JsonSpec (J T : Type) `{!Json J T} := {
  plain : J → Prop;
  plain_null : plain json_null;
  plain_int n : is_int32 n → plain (json_int n);
  plain_string s : is_ascii s = true → plain (json_string s);
  plain_bool b : plain (json_bool b);
  plain_set v k x : plain v → plain x → is_ascii k = true → plain (set_member v k x);
  plain_append v x : plain v → plain x → plain (json_append v x);
  parse_write v : plain v → json_parse (json_write v) = Some v;
  parse_no_text : json_parse no_text = None;
  get_null k : get_member json_null k = Some json_null;
  get_set v k k' x : v = json_null ∨ isObject v = true →
    get_member (set_member v k x) k' = if decide (k = k') then Some x else get_member v k';
  object_set v k x : v = json_null ∨ isObject v = true → isObject (set_member v k x) = true;
  elements_null : json_elements json_null = [];
  elements_append v x : v = json_null ∨ isArray v = true → json_elements (json_append v x) = (json_elements v ++ [x])%list;
  array_append v x : v = json_null ∨ isArray v = true → isArray (json_append v x) = true;
  empty_null : json_empty json_null = true;
  empty_append v x : v = json_null ∨ isArray v = true → json_empty (json_append v x) = false;
  int_int n : is_int32 n → isInt (json_int n) = true ∧ asInt (json_int n) = n;
  string_string s : isString (json_string s) = true ∧ asString (json_string s) = s;
  bool_bool b : isBool (json_bool b) = true ∧ asBool (json_bool b) = Some b
}.

(** ** The metadata of a table as a document ([field_meta.cpp], [index_meta.cpp], [table_meta.cpp]) *)
Definition attr_type_from_string (s : string) : AttrType :=
  default UNDEFINED (List.find (λ t, bool_decide (attr_type_to_string t = s))
    [UNDEFINED; CHARS; DATES; INTS; FLOATS; BOOLEANS; NULLS; TEXTS]).

Section documents.
Context {J T : Type} `{!Json J T} {So : SortOps}.

(** the value at a key; undefined where jsoncpp throws *)
Definition member (v : J) (key : string) (k : J → outcome (RC.t + FieldMeta.t)) : outcome (RC.t + FieldMeta.t) :=
  match get_member v key with Some x => k x | None => Crash end.

(** [FieldMeta::to_json] and [FieldMeta::from_json] *)
Definition field_to_json (f : FieldMeta.t) : J :=
  let v := set_member json_null "name" (json_string (FieldMeta.name f)) in
  let v := set_member v "type" (json_string (attr_type_to_string (FieldMeta.type f))) in
  let v := set_member v "nullable" (json_bool (FieldMeta.nullable f)) in
  let v := set_member v "offset" (json_int (FieldMeta.offset f)) in
  let v := set_member v "len" (json_int (FieldMeta.len f)) in
  set_member v "visible" (json_bool (FieldMeta.visible f)).
Definition field_from_json (v : J) : outcome (RC.t + FieldMeta.t) :=
  if negb (isObject v) then Done (inl RC.INTERNAL)
  else
    member v "name" (λ name, member v "type" (λ type, member v "nullable" (λ nullable,
    member v "offset" (λ offset, member v "len" (λ len, member v "visible" (λ visible,
      if negb (isString name) then Done (inl RC.INTERNAL)
      else if negb (isString type) then Done (inl RC.INTERNAL)
      (* that [nullable] is not a bool is only logged *)
      else if negb (isInt offset) then Done (inl RC.INTERNAL)
      else if negb (isInt len) then Done (inl RC.INTERNAL)
      else if negb (isBool visible) then Done (inl RC.INTERNAL)
      else
        let type := attr_type_from_string (asString type) in
        if decide (UNDEFINED = type) then Done (inl RC.INTERNAL)
        else
          match asBool nullable, asBool visible with
          | Some nullable, Some visible =>
              Done (FieldMeta.init (asString name) type nullable (asInt offset) (asInt len) visible)
          | _, _ => Crash
          end)))))).

(** [IndexMeta::to_json] and [IndexMeta::from_json] *)
Definition index_to_json (i : IndexMeta.t) : J :=
  let v := set_member json_null "name" (json_string (IndexMeta.name i)) in
  let v := set_member v "unique" (json_bool (IndexMeta.unique i)) in
  match IndexMeta.fields i with
  | [] => v
  | fields => set_member v "field_name" (fold_left (λ l f, json_append l (json_string f)) fields json_null)
  end.
(** the loop over the names of the fields *)
Fixpoint index_field_names (table : TableMeta.t) (field_values : list J) : RC.t + list string :=
  match field_values with
  | [] => inr []
  | v :: field_values =>
      if negb (isString v) then inl RC.INTERNAL
      else
        match TableMeta.field_by_name table (asString v) with
        | None => inl RC.SCHEMA_FIELD_MISSING
        | Some field =>
            match index_field_names table field_values with
            | inl rc => inl rc
            | inr names => inr (FieldMeta.name field :: names)
            end
        end
  end.
Definition index_from_json (table : TableMeta.t) (v : J) : outcome (RC.t + IndexMeta.t) :=
  match get_member v "name", get_member v "field_name", get_member v "unique" with
  | Some name, Some fields, Some unique =>
      if negb (isString name) then Done (inl RC.INTERNAL)
      else if negb (isBool unique) then Done (inl RC.INTERNAL)
      else
        match index_field_names table (json_elements fields) with
        | inl rc => Done (inl rc)
        | inr names =>
            match asBool unique with
            | Some unique => Done (IndexMeta.init (asString name) names unique)
            | None => Crash
            end
        end
  | _, _, _ => Crash
  end.

(** [TableMeta::serialize] and [TableMeta::deserialize]: the document, and [None] for -1, the
    object then being thrown away with its table *)
Definition meta_to_json (m : TableMeta.t) : J :=
  let v := set_member json_null "table_id" (json_int (TableMeta.table_id m)) in
  let v := set_member v "table_name" (json_string (TableMeta.name m)) in
  let v := set_member v "fields" (fold_left (λ l f, json_append l (field_to_json f)) (TableMeta.fields m) json_null) in
  set_member v "indexes" (fold_left (λ l i, json_append l (index_to_json i)) (TableMeta.indexes m) json_null).
Definition serialize (m : TableMeta.t) : T := json_write (meta_to_json m).

(** the loops over the elements: [None] for the return of -1 *)
Fixpoint each_element {A} (from_json : J → outcome (RC.t + A)) (l : list J) : outcome (option (list A)) :=
  match l with
  | [] => Done (Some [])
  | v :: l =>
      outcome_bind (from_json v) (λ r,
        match r with
        | inl _ => Done None
        | inr x => outcome_bind (each_element from_json l) (λ r, Done ((x ::.) <$> r))
        end)
  end.
Definition offset_before (f1 f2 : FieldMeta.t) : option bool := Some (bool_decide (FieldMeta.offset f1 < FieldMeta.offset f2)).
Definition meta_from_json (v : J) : outcome (option TableMeta.t) :=
  match get_member v "table_id", get_member v "table_name", get_member v "fields", get_member v "indexes" with
  | Some table_id, Some table_name, Some fields, Some indexes =>
      if negb (isInt table_id) then Done None
      else if negb (isString table_name) then Done None
      else if negb (isArray fields) || bool_decide (json_elements fields = []) then Done None
      else
        outcome_bind (each_element field_from_json (json_elements fields)) (λ r,
          match r with
          | None => Done None
          | Some fields =>
              match sort FieldMeta.t offset_before fields with
              | None => Crash
              | Some fields =>
                  match TableMeta.reload_record_size fields with
                  | None => Crash
                  | Some record_size =>
                      let m := TableMeta.mk (asInt table_id) (asString table_name) fields [] record_size in
                      if json_empty indexes then Done (Some m)
                      else if negb (isArray indexes) then Done None
                      else outcome_bind (each_element (index_from_json m) (json_elements indexes)) (λ r,
                        Done ((λ l, TableMeta.mk (asInt table_id) (asString table_name) fields l record_size) <$> r))
                  end
              end
          end)
  | _, _, _, _ => Crash
  end.
Definition deserialize (text : T) : outcome (option TableMeta.t) :=
  match json_parse text with
  | None => Done None
  | Some v => meta_from_json v
  end.
End documents.

(** ** The system and the buffer pools of the process ([disk_buffer_pool.cpp])

    The calls of the system are numbered: [os_ok n] tells whether the call [n] succeeds, where
    the state of the files lets it; [os_written n d] is what of a document [d] reaches the
    file; [os_order] is the order of [readdir] and of the hash maps. *)
Class Os (T : Type) := {
  os_ok : nat → bool;
  os_written : nat → T → T;
  os_order : ∀ A : Type, list A → list A
}.

(** the first page of the file of an index: [IndexFileHeader] with the layout of the keys *)
Record IndexPage : Set := MkIndexPage {
  tree_header : IndexFileHeader;
  key_length : Z;
  attr_offsets : list Z;
  attr_lengths : list Z;
  attr_types : list AttrType
}.
Definition MAX_LEAF_SIZE : nat := 20.
Definition FIRST_INDEX_PAGE : Z := 1.
(** the file of a buffer pool: its header page, unless it could not be written, and the page
    behind it where that is the header of an index *)
Record pool_pages : Set := MkPages { header_page : option BPFileHeader.t; index_page : option IndexPage }.
Inductive content (T : Type) : Type := Document (d : T) | Pages (p : pool_pages).
Arguments Document {T} d.
Arguments Pages {T} p.
(** [DiskBufferPool] with an open file; [pages_dirty] when it holds pages that are not written *)
Record DiskBufferPool : Set := MkDiskBufferPool { file_name_ : string; frames : pool_pages; pages_dirty : bool }.

Record world (T : Type) : Type := MkWorld {
  calls : nat;
  dirs : gset string;
  files : gmap string (content T);
  pools : gmap nat DiskBufferPool;
  buffer_pools_ : gmap string nat;
  next_pool : nat
}.
Arguments MkWorld {T} _ _ _ _ _ _.
Arguments calls {T} _.
Arguments dirs {T} _.
Arguments files {T} _.
Arguments pools {T} _.
Arguments buffer_pools_ {T} _.
Arguments next_pool {T} _.

Section world.
Context {T : Type} `{!Os T}.
Abbreviation M := (ST (world T)).

Definition set_files (f : gmap string (content T)) (w : world T) : world T :=
  MkWorld (calls w) (dirs w) f (pools w) (buffer_pools_ w) (next_pool w).
Definition set_pools (p : gmap nat DiskBufferPool) (b : gmap string nat) (w : world T) : world T :=
  MkWorld (calls w) (dirs w) (files w) p b (next_pool w).
Definition add_dir (d : string) (w : world T) : world T :=
  MkWorld (calls w) ({[d]} ∪ dirs w) (files w) (pools w) (buffer_pools_ w) (next_pool w).
(** a call of the system *)
Definition call : M bool := λ w,
  Done (os_ok (calls w), MkWorld (S (calls w)) (dirs w) (files w) (pools w) (buffer_pools_ w) (next_pool w)).
Definition put_file (path : string) (c : content T) : M () := st_modify (λ w, set_files (<[path := c]> (files w)) w).
Definition file_at (path : string) : M (option (content T)) := w ← st_get; mret (files w !! path).
(** [remove(path)]: true when it fails *)
Definition remove_file (path : string) : M bool :=
  ok ← call; c ← file_at path;
  if ok && bool_decide (is_Some c) then st_modify (λ w, set_files (delete path (files w)) w) ;;; mret false else mret true.

(** ** [BufferPoolManager] and [DiskBufferPool]

    A frame for a page is found in the end, [allocate_frame] of [BufferPool]. *)
Definition create_file (file_name : string) : M RC.t :=
  ok ← call; c ← file_at file_name;
  if negb ok || bool_decide (is_Some c) then mret RC.SCHEMA_DB_EXIST
  else
    put_file file_name (Pages (MkPages None None)) ;;;
    ok ← call;
    if negb ok then mret RC.IOERR_ACCESS
    else
      ok ← call;
      if negb ok then mret RC.IOERR_SEEK
      else
        ok ← call;
        if negb ok then mret RC.IOERR_WRITE
        else put_file file_name (Pages (MkPages (Some BPFileHeader.initial) None)) ;;; mret RC.SUCCESS.
(** [DiskBufferPool::open_file] reads the header; a document is too short for one *)
Definition bp_open_file (file_name : string) : M (RC.t + pool_pages) :=
  ok ← call; c ← file_at file_name;
  match c with
  | None => mret (inl RC.IOERR_ACCESS)
  | Some c =>
      if negb ok then mret (inl RC.IOERR_ACCESS)
      else
        ok ← call;
        match c with
        | Pages (MkPages (Some h) i) => if ok : bool then mret (inr (MkPages (Some h) i)) else mret (inl RC.IOERR_READ)
        | _ => mret (inl RC.IOERR_READ)
        end
  end.
Definition open_file (file_name : string) : M (RC.t + nat) :=
  w ← st_get;
  match buffer_pools_ w !! file_name with
  | Some _ => mret (inl RC.BUFFERPOOL_OPEN)
  | None =>
      p <-? bp_open_file file_name ;;
      w ← st_get;
      let id := next_pool w in
      st_modify (λ w, MkWorld (calls w) (dirs w) (files w) (<[id := MkDiskBufferPool file_name p false]> (pools w))
        (<[file_name := id]> (buffer_pools_ w)) (S id)) ;;;
      mret (inr id)
  end.
(** the pages of a pool; a pool that is deleted must not be looked at *)
Definition pool_at (id : nat) : M DiskBufferPool := w ← st_get; st_some (pools w !! id).
Definition set_pool (id : nat) (b : DiskBufferPool) : M () := st_modify (λ w, set_pools (<[id := b]> (pools w)) (buffer_pools_ w) w).
(** [purge_all_pages] and [flush_all_pages]: a page that cannot be written stays dirty *)
Definition flush_all_pages (id : nat) : M RC.t :=
  b ← pool_at id;
  if pages_dirty b then
    ok ← call;
    if negb ok then mret RC.IOERR_WRITE
    else
      st_modify (λ w, set_files (alter (λ _, Pages (frames b)) (file_name_ b) (files w)) w) ;;;
      set_pool id (MkDiskBufferPool (file_name_ b) (frames b) false) ;;; mret RC.SUCCESS
  else mret RC.SUCCESS.
(** [DiskBufferPool::close_file], which deletes the pool: [bp_manager_.close_file] *)
Definition bp_close_file (id : nat) : M RC.t :=
  flush_all_pages id ;;;
  b ← pool_at id;
  ok ← call;
  if negb ok then mret RC.IOERR_CLOSE
  else st_modify (λ w, set_pools (delete id (pools w)) (delete (file_name_ b) (buffer_pools_ w)) w) ;;; mret RC.SUCCESS.
(** [BufferPoolManager::close_file]; the destructor of the pool closes the file, and finds
    its name no longer in the map *)
Definition close_file (file_name : string) : M RC.t :=
  w ← st_get;
  match buffer_pools_ w !! file_name with
  | None => mret RC.INTERNAL
  | Some id =>
      st_modify (λ w, set_pools (pools w) (delete file_name (buffer_pools_ w)) w) ;;;
      bp_close_file id ;;;
      st_modify (λ w, set_pools (delete id (pools w)) (buffer_pools_ w) w) ;;;
      mret RC.SUCCESS
  end.

(** ** The file of an index ([BplusTreeHandler] and [BplusTreeIndex]) *)
Record Index : Set := MkIndex {
  index_meta_ : IndexMeta.t;
  field_metas_ : list FieldMeta.t;
  inited_ : bool;
  disk_buffer_pool_ : option nat;
  file_header_ : IndexPage;
  header_dirty_ : bool
}.
Definition no_header : IndexPage := MkIndexPage (FileHeader BP_INVALID_PAGE_NUM 0 0 false) 0 [] [] [].
Definition new_index : Index := MkIndex (IndexMeta.mk "" [] false) [] false None no_header false.
Definition set_pool_of (p : option nat) (i : Index) : Index :=
  MkIndex (index_meta_ i) (field_metas_ i) (inited_ i) p (file_header_ i) (header_dirty_ i).
Definition set_inited (b : bool) (i : Index) : Index :=
  MkIndex (index_meta_ i) (field_metas_ i) b (disk_buffer_pool_ i) (file_header_ i) (header_dirty_ i).
Definition set_header (h : IndexPage) (dirty : bool) (i : Index) : Index :=
  MkIndex (index_meta_ i) (field_metas_ i) (inited_ i) (disk_buffer_pool_ i) h dirty.

(** [BplusTreeHandler::close]; what [close_file] returns is not looked at *)
Definition handler_close (i : Index) : M Index :=
  match disk_buffer_pool_ i with
  | None => mret i
  | Some p => bp_close_file p ;;; mret (set_pool_of None i)
  end.
(** [BplusTreeHandler::sync]: the header goes to its page, if the page can be had, and the
    pages to the file *)
Definition handler_sync (i : Index) : M (RC.t * Index) :=
  p ← st_some (disk_buffer_pool_ i);
  b ← pool_at p;
  i ← (if header_dirty_ i then
         ok ← call;
         match index_page (frames b) with
         | None => mret i
         | Some _ =>
             if negb ok then mret i
             else
             set_pool p (MkDiskBufferPool (file_name_ b) (MkPages (header_page (frames b)) (Some (file_header_ i))) true) ;;;
             mret (set_header (file_header_ i) false i)
         end
       else mret i);
  rc ← flush_all_pages p;
  mret (rc, i).
(** the header of a new tree; its arrays have [MAX_LEAF_SIZE] places *)
Definition new_header (fields : list FieldMeta.t) (unique : bool) : IndexPage :=
  let lengths := FieldMeta.len <$> fields in
  let attr_sum_length := foldr Z.add 0 lengths in
  MkIndexPage (FileHeader BP_INVALID_PAGE_NUM (Z.to_nat (calc_internal_page_capacity attr_sum_length))
      (Z.to_nat (calc_leaf_page_capacity attr_sum_length)) unique)
    (attr_sum_length + sizeof_RID) (FieldMeta.offset <$> fields) lengths (FieldMeta.type <$> fields).
(** [BplusTreeHandler::create] *)
Definition handler_create (file_name : string) (fields : list FieldMeta.t) (unique : bool) (i : Index) : M (RC.t * Index) :=
  rc ← create_file file_name;
  if negb (RC.succ rc) then mret (rc, i)
  else
    r ← open_file file_name;
    match r with
    | inl rc => mret (rc, i)
    | inr p =>
        b ← pool_at p;
        h ← st_some (header_page (frames b));
        match BPFileHeader.allocate h with
        | inl rc => close_file file_name ;;; mret (rc, i)
        | inr (page_num, h) =>
            if decide (Z.of_nat page_num ≠ FIRST_INDEX_PAGE) then
              set_pool p (MkDiskBufferPool file_name (MkPages (Some h) (index_page (frames b))) true) ;;;
              close_file file_name ;;; mret (RC.INTERNAL, i)
            else
              st_assert (bool_decide (length fields <= MAX_LEAF_SIZE)%nat) ;;;
              let page := new_header fields unique in
              set_pool p (MkDiskBufferPool file_name (MkPages (Some h) (Some page)) true) ;;;
              let i := set_header page false (set_pool_of (Some p) i) in
              ok ← call;
              if negb ok then i ← handler_close i; mret (RC.NOMEM, i)
              else
                '(rc, i) ← handler_sync i;
                mret (RC.SUCCESS, i)
        end
    end.
(** [BplusTreeHandler::open] *)
Definition handler_open (file_name : string) (i : Index) : M (RC.t * Index) :=
  match disk_buffer_pool_ i with
  | Some _ => mret (RC.RECORD_OPENNED, i)
  | None =>
      r ← open_file file_name;
      match r with
      | inl rc => mret (rc, i)
      | inr p =>
          b ← pool_at p;
          ok ← call;
          match index_page (frames b) with
          | Some page =>
              if negb ok then close_file file_name ;;; mret (RC.IOERR_READ, i)
              else
                let i := set_header page false (set_pool_of (Some p) i) in
                ok ← call;
                if negb ok then i ← handler_close i; mret (RC.NOMEM, i) else mret (RC.SUCCESS, i)
          | None => close_file file_name ;;; mret (RC.IOERR_READ, i)
          end
      end
  end.

(** [BplusTreeIndex::create], [open], [close] and [sync] *)
Definition index_create (file_name : string) (m : IndexMeta.t) (fields : list FieldMeta.t) (i : Index) : M (RC.t * Index) :=
  if inited_ i then mret (RC.RECORD_OPENNED, i)
  else
    let i := MkIndex m fields false (disk_buffer_pool_ i) (file_header_ i) (header_dirty_ i) in
    '(rc, i) ← handler_create file_name fields (IndexMeta.unique m) i;
    mret (rc, if RC.succ rc then set_inited true i else i).
Definition index_open (file_name : string) (m : IndexMeta.t) (fields : list FieldMeta.t) (i : Index) : M (RC.t * Index) :=
  if inited_ i then mret (RC.RECORD_OPENNED, i)
  else
    let i := MkIndex m fields false (disk_buffer_pool_ i) (file_header_ i) (header_dirty_ i) in
    '(rc, i) ← handler_open file_name i;
    mret (rc, if RC.succ rc then set_inited true i else i).
Definition index_close (i : Index) : M Index :=
  if inited_ i then i ← handler_close i; mret (set_inited false i) else mret i.
Definition index_sync (i : Index) : M (RC.t * Index) := handler_sync i.

(** ** [Table]: its files ([storage/common/meta_util.cpp], [table.cpp]) *)
Definition table_meta_file (base_dir table_name : string) : string := base_dir +:+ "/" +:+ table_name +:+ ".table".
Definition table_data_file (base_dir table_name : string) : string := base_dir +:+ "/" +:+ table_name +:+ ".data".
Definition table_index_file (base_dir table_name index_name : string) : string :=
  base_dir +:+ "/" +:+ table_name +:+ "-" +:+ index_name +:+ ".index".

(** the record handler is opened and closed with the pool of the data file *)
Record Table : Type := MkTable {
  table_meta_ : TableMeta.t;
  base_dir_ : string;
  data_buffer_pool_ : option nat;
  indexes_ : list Index
}.
Definition no_meta : TableMeta.t := TableMeta.mk (-1) "" [] [] 0.
Definition new_table : Table := MkTable no_meta "" None [].
Definition set_meta (m : TableMeta.t) (t : Table) : Table := MkTable m (base_dir_ t) (data_buffer_pool_ t) (indexes_ t).
Definition set_base_dir (d : string) (t : Table) : Table := MkTable (table_meta_ t) d (data_buffer_pool_ t) (indexes_ t).
Definition set_data_pool (p : option nat) (t : Table) : Table := MkTable (table_meta_ t) (base_dir_ t) p (indexes_ t).
Definition set_indexes (l : list Index) (t : Table) : Table := MkTable (table_meta_ t) (base_dir_ t) (data_buffer_pool_ t) l.
Definition table_name (t : Table) : string := TableMeta.name (table_meta_ t).
Definition table_id (t : Table) : Z := TableMeta.table_id (table_meta_ t).

(** [Table::~Table] *)
Fixpoint close_indexes (l : list Index) : M () :=
  match l with [] => mret () | i :: l => index_close i ;;; close_indexes l end.
Definition destroy_table (t : Table) : M () :=
  match data_buffer_pool_ t with
  | None => close_indexes (indexes_ t)
  | Some p => bp_close_file p ;;; close_indexes (indexes_ t)
  end.

(** [Table::init_record_handler]; [RecordFileHandler::init] returns SUCCESS for a new handler *)
Definition init_record_handler (base_dir : string) (t : Table) : M (RC.t * Table) :=
  r ← open_file (table_data_file base_dir (table_name t));
  match r with
  | inl rc => mret (rc, t)
  | inr p => mret (RC.SUCCESS, set_data_pool (Some p) t)
  end.

Section tables.
Context {J : Type} `{!Json J T} {So : SortOps} (trx_fields : option (list FieldMeta.t)).

(** an [fstream] opened for writing, and the document written to it: [None] when it does not
    open, else whether the stream is still good afterwards *)
Definition write_document (path : string) (d : T) : M (option bool) :=
  ok ← call;
  if negb ok then mret None
  else
    w ← st_get; ok ← call;
    put_file path (Document (os_written (calls w) d)) ;;; mret (Some ok).
Definition read_document (path : string) : M (option T) :=
  ok ← call; c ← file_at path;
  mret (match c with Some (Document d) => if ok : bool then Some d else None | _ => None end).

(** [Table::create] *)
Definition table_create (table_id : Z) (path name base_dir : string) (attributes : list AttrInfo) (t : Table) : M (RC.t * Table) :=
  if decide (table_id < 0) then mret (RC.INVALID_ARGUMENT, t)
  else if is_blank name then mret (RC.INVALID_ARGUMENT, t)
  else if decide (attributes = []) then mret (RC.INVALID_ARGUMENT, t)
  else
    ok ← call; c ← file_at path;
    if bool_decide (is_Some c) then mret (RC.SCHEMA_TABLE_EXIST, t)
    else if negb ok then mret (RC.IOERR_OPEN, t)
    else
      put_file path (Document no_text) ;;;
      match TableMeta.init trx_fields table_id name attributes with
      | Crash => st_crash
      | OutOfFuel => st_nofuel
      | Done (inl rc) => mret (rc, t)
      | Done (inr m) =>
          let t := set_meta m t in
          good ← write_document path (serialize m);
          if bool_decide (good = None) then mret (RC.IOERR_OPEN, t)
          else
            rc ← create_file (table_data_file base_dir name);
            if negb (RC.succ rc) then mret (rc, t)
            else
              '(rc, t) ← init_record_handler base_dir t;
              mret (rc, if RC.succ rc then set_base_dir base_dir t else t)
      end.

(** [Table::drop]; what closing the file of an index returns is not looked at *)
Fixpoint drop_indexes (base_dir name : string) (l : list Index) : M RC.t :=
  match l with
  | [] => mret RC.SUCCESS
  | i :: l =>
      let path := table_index_file base_dir name (IndexMeta.name (index_meta_ i)) in
      close_file path ;;;
      fail ← remove_file path;
      if fail : bool then mret RC.FAIL_TO_DELETE_FILE else drop_indexes base_dir name l
  end.
Definition table_drop (base_dir : string) (t : Table) : M RC.t :=
  let path := table_data_file base_dir (table_name t) in
  rc ← close_file path;
  if negb (RC.succ rc) then mret RC.FAILURE
  else
    fail ← remove_file path;
    if fail : bool then mret RC.FAIL_TO_DELETE_FILE
    else
      fail ← remove_file (table_meta_file base_dir (table_name t));
      if fail : bool then mret RC.FAIL_TO_DELETE_FILE else drop_indexes base_dir (table_name t) (indexes_ t).

(** [Table::open]: the fields of an index by their names, and the loop over the indexes *)
Fixpoint metas_of (m : TableMeta.t) (names : list string) : option (list FieldMeta.t) :=
  match names with
  | [] => Some []
  | n :: names => f ← TableMeta.field_by_name m n; l ← metas_of m names; Some (f :: l)
  end.
Fixpoint open_indexes (base_dir : string) (l : list IndexMeta.t) (t : Table) : M (RC.t * Table) :=
  match l with
  | [] => mret (RC.SUCCESS, t)
  | m :: l =>
      match metas_of (table_meta_ t) (IndexMeta.fields m) with
      | None => mret (RC.INTERNAL, t)
      | Some fields =>
          '(rc, i) ← index_open (table_index_file base_dir (table_name t) (IndexMeta.name m)) m fields new_index;
          if RC.succ rc then open_indexes base_dir l (set_indexes (indexes_ t ++ [i])%list t)
          else index_close i ;;; mret (rc, t)
      end
  end.
Definition table_open (meta_file base_dir : string) (t : Table) : M (RC.t * Table) :=
  d ← read_document (base_dir +:+ "/" +:+ meta_file);
  match d with
  | None => mret (RC.IOERR_OPEN, t)
  | Some d =>
      match deserialize d with
      | Crash => st_crash
      | OutOfFuel => st_nofuel
      | Done None => mret (RC.INTERNAL, t)
      | Done (Some m) =>
          '(rc, t) ← init_record_handler base_dir (set_meta m t);
          if negb (RC.succ rc) then mret (rc, t)
          else open_indexes base_dir (TableMeta.indexes m) (set_base_dir base_dir t)
      end
  end.

(** [Table::sync] *)
Fixpoint sync_indexes (l : list Index) : M (RC.t * list Index) :=
  match l with
  | [] => mret (RC.SUCCESS, [])
  | i :: l =>
      '(rc, i) ← index_sync i;
      if RC.succ rc then '(rc, l) ← sync_indexes l; mret (rc, i :: l) else mret (rc, i :: l)
  end.
Definition table_sync (t : Table) : M (RC.t * Table) :=
  '(rc, l) ← sync_indexes (indexes_ t); mret (rc, set_indexes l t).

(** [Table::create_index], the files: [fill] is the code of the scan that inserts the records
    into the new index, [Table.create_index].  A failure leaves the new index in the air. *)
Definition table_create_index (fill : RC.t) (unique : bool) (fields : list FieldMeta.t) (name : string) (t : Table) : M (RC.t * Table) :=
  let names := FieldMeta.name <$> fields in
  if is_blank name || bool_decide (fields = []) then mret (RC.INVALID_ARGUMENT, t)
  else if TableMeta.find_index_by_fields (table_meta_ t) names is Some _ then mret (RC.INVALID_ARGUMENT, t)
  else
    match IndexMeta.init name names unique with
    | inl rc => mret (rc, t)
    | inr m =>
        '(rc, i) ← index_create (table_index_file (base_dir_ t) (table_name t) name) m fields new_index;
        if negb (RC.succ rc) then index_close i ;;; mret (rc, t)
        else if negb (RC.succ fill) then mret (fill, t)
        else
          let t := set_indexes (indexes_ t ++ [i])%list t in
          let new_table_meta := TableMeta.add_index (table_meta_ t) m in
          let meta_file := table_meta_file (base_dir_ t) (table_name t) in
          good ← write_document (meta_file +:+ ".tmp") (serialize new_table_meta);
          if bool_decide (good = None) then mret (RC.IOERR_OPEN, t)
          else if bool_decide (good = Some false) then mret (RC.IOERR_WRITE, t)
          else
            ok ← call; c ← file_at (meta_file +:+ ".tmp");
            match c with
            | Some c =>
                if negb ok then mret (RC.IOERR_WRITE, t)
                else
                  st_modify (λ w, set_files (<[meta_file := c]> (delete (meta_file +:+ ".tmp") (files w))) w) ;;;
                  mret (RC.SUCCESS, set_meta new_table_meta t)
            | None => mret (RC.IOERR_WRITE, t)
            end
    end.

(** ** [Db] ([storage/db/db.cpp])

    [clog_init] and [clog_recover] are what the log manager of the database returns. *)
Record Db : Type := MkDb {
  db_name : string;
  db_path : string;
  opened_tables_ : gmap string Table;
  next_table_id_ : Z
}.
Definition new_db : Db := MkDb "" "" ∅ 0.
Definition set_opened (o : gmap string Table) (d : Db) : Db := MkDb (db_name d) (db_path d) o (next_table_id_ d).
Definition set_next_id (n : Z) (d : Db) : Db := MkDb (db_name d) (db_path d) (opened_tables_ d) n.

(** the tables in the order of the hash map *)
Definition tables_in_order (d : Db) : list (string * Table) := os_order _ (map_to_list (opened_tables_ d)).
Definition find_table (d : Db) (name : string) : option Table := opened_tables_ d !! name.
Definition find_table_by_id (d : Db) (id : Z) : option Table :=
  snd <$> List.find (λ p, bool_decide (table_id p.2 = id)) (tables_in_order d).
Definition all_tables (d : Db) : list string := fst <$> tables_in_order d.

(** [Db::~Db] *)
Fixpoint destroy_tables (l : list (string * Table)) : M () :=
  match l with [] => mret () | p :: l => destroy_table p.2 ;;; destroy_tables l end.
Definition destroy_db (d : Db) : M () := destroy_tables (tables_in_order d).

Definition db_create_table (name : string) (attributes : list AttrInfo) (d : Db) : M (RC.t * Db) :=
  match opened_tables_ d !! name with
  | Some _ => mret (RC.SCHEMA_TABLE_EXIST, d)
  | None =>
      let id := next_table_id_ d in
      let d := set_next_id (int32 ((id + 1) mod 2 ^ 32)) d in
      '(rc, t) ← table_create id (table_meta_file (db_path d) name) name (db_path d) attributes new_table;
      if negb (RC.succ rc) then destroy_table t ;;; mret (rc, d)
      else mret (RC.SUCCESS, set_opened (<[name := t]> (opened_tables_ d)) d)
  end.
Definition db_drop_table (name : string) (d : Db) : M (RC.t * Db) :=
  match find_table d name with
  | None => mret (RC.SCHEMA_TABLE_NOT_EXIST, d)
  | Some t =>
      rc ← table_drop (db_path d) t;
      if negb (RC.succ rc) then mret (rc, d)
      else destroy_table t ;;; mret (RC.SUCCESS, set_opened (delete name (opened_tables_ d)) d)
  end.

(** [common::list_file(path, TABLE_META_FILE_PATTERN)]: the files of a directory whose names
    end in [.table], the hidden ones left out; [None] for -1 *)
Fixpoint after_prefix (p s : list ascii) : option (list ascii) :=
  match p, s with
  | [], _ => Some s
  | c :: p, c' :: s => if decide (c = c') then after_prefix p s else None
  | _ :: _, [] => None
  end.
Definition in_directory (dir path : string) : option string :=
  f ← after_prefix (String.list_ascii_of_string dir ++ ["/"%char])%list (String.list_ascii_of_string path);
  if bool_decide ("/"%char ∈ f) then None else Some (String.string_of_list_ascii f).
Definition meta_file_name (f : string) : bool :=
  match f with
  | String "." _ => false
  | _ => bool_decide (String.list_ascii_of_string ".table" `suffix_of` String.list_ascii_of_string f)
  end.
Definition list_meta_files (dir : string) : M (option (list string)) :=
  ok ← call; w ← st_get;
  mret (if ok && bool_decide (dir ∈ dirs w)
        then Some (os_order _ (filter meta_file_name (omap (in_directory dir) (map_to_list (files w)).*1))) else None).

(** [Db::open_all_tables]: the loop over the files *)
Fixpoint open_tables (l : list string) (d : Db) : M (RC.t * Db) :=
  match l with
  | [] => mret (RC.SUCCESS, d)
  | filename :: l =>
      '(rc, t) ← table_open filename (db_path d) new_table;
      if negb (RC.succ rc) then destroy_table t ;;; mret (rc, d)
      else if bool_decide (is_Some (opened_tables_ d !! table_name t)) then destroy_table t ;;; mret (RC.INTERNAL, d)
      else
        let d := if decide (next_table_id_ d <= table_id t) then set_next_id (int32 ((table_id t + 1) mod 2 ^ 32)) d else d in
        open_tables l (set_opened (<[table_name t := t]> (opened_tables_ d)) d)
  end.
Definition open_all_tables (d : Db) : M (RC.t * Db) :=
  l ← list_meta_files (db_path d);
  match l with
  | None => mret (RC.IOERR_READ, d)
  | Some l => open_tables l d
  end.

(** [Db::sync] *)
Fixpoint sync_tables (l : list (string * Table)) (d : Db) : M (RC.t * Db) :=
  match l with
  | [] => mret (RC.SUCCESS, d)
  | (name, t) :: l =>
      '(rc, t) ← table_sync t;
      let d := set_opened (<[name := t]> (opened_tables_ d)) d in
      if RC.succ rc then sync_tables l d else mret (rc, d)
  end.
Definition db_sync (d : Db) : M (RC.t * Db) := sync_tables (tables_in_order d) d.

(** [Db::init] *)
Context (clog_init : string → M RC.t) (clog_recover : Db → M (RC.t * Db)).
Definition is_directory (path : string) : M bool := w ← st_get; mret (bool_decide (path ∈ dirs w)).
Definition db_init (name path : string) (d : Db) : M (RC.t * Db) :=
  if is_blank name then mret (RC.INVALID_ARGUMENT, d)
  else
    b ← is_directory path;
    if negb b then mret (RC.INTERNAL, d)
    else
      rc ← clog_init path;
      if negb (RC.succ rc) then mret (rc, d)
      else
        '(rc, d) ← open_all_tables (MkDb name path (opened_tables_ d) (next_table_id_ d));
        if negb (RC.succ rc) then mret (rc, d) else clog_recover d.

(** ** [DefaultHandler] ([storage/default/default_handler.cpp]) *)
Record DefaultHandler : Type := MkHandler {
  base_dir : string;
  db_dir_ : string;
  opened_dbs_ : gmap string Db;
  default_db : option string
}.
Definition set_opened_dbs (o : gmap string Db) (h : DefaultHandler) : DefaultHandler :=
  MkHandler (base_dir h) (db_dir_ h) o (default_db h).

Definition find_db (h : DefaultHandler) (dbname : string) : option Db := opened_dbs_ h !! dbname.
Definition handler_find_table (h : DefaultHandler) (dbname name : string) : option Table :=
  d ← find_db h dbname; find_table d name.
Fixpoint drop_slashes (r : list ascii) : list ascii :=
  match r with c :: r' => if decide (c = "/"%char) then drop_slashes r' else r | [] => [] end.
(** [mkdir(path) == 0 || is_directory(path)]: the directory above has to be there *)
Fixpoint before_slash (r : list ascii) : option (list ascii) :=
  match r with [] => None | c :: r => if decide (c = "/"%char) then Some r else before_slash r end.
Definition parent (path : string) : option string :=
  (λ r, String.string_of_list_ascii (rev (drop_slashes r))) <$> before_slash (rev (String.list_ascii_of_string path)).
Definition mkdir (path : string) : M bool :=
  ok ← call; w ← st_get;
  if bool_decide (path ∈ dirs w) then mret true
  else if ok && bool_decide (path ≠ "" ∧ files w !! path = None) &&
    match parent path with None => true | Some q => bool_decide (q = "" ∨ q ∈ dirs w) end
  then st_modify (add_dir path) ;;; mret true else mret false.
Fixpoint mkdir_each (l : list string) : M bool :=
  match l with [] => mret true | path :: l => b ← mkdir path; if b : bool then mkdir_each l else mret false end.
(** the parts of a path before its slashes, of several in a row before the first *)
Fixpoint parts (before rest : list ascii) (sep_state : bool) : list string :=
  match rest with
  | [] => []
  | c :: rest =>
      if decide (c = "/"%char) then
        (if sep_state then [] else [String.string_of_list_ascii before]) ++ parts (before ++ [c]) rest true
      else parts (before ++ [c]) rest false
  end%list.
(** [common::check_directory], which takes the slashes at the end off its argument *)
Definition check_directory (path : string) : M (bool * string) :=
  let l := rev (drop_slashes (rev (String.list_ascii_of_string path))) in
  let path := String.string_of_list_ascii l in
  b ← mkdir path;
  if b : bool then mret (true, path)
  else
    b ← mkdir_each (parts [] l false);
    if b : bool then b ← mkdir path; mret (b, path) else mret (false, path).
Definition create_db (dbname : string) (h : DefaultHandler) : M RC.t :=
  if is_blank dbname then mret RC.INVALID_ARGUMENT
  else
    let dbpath := db_dir_ h +:+ dbname in
    b ← is_directory dbpath;
    if b : bool then mret RC.SCHEMA_DB_EXIST
    else '(b, _) ← check_directory dbpath; mret (if b : bool then RC.SUCCESS else RC.INTERNAL).
Definition open_db (dbname : string) (h : DefaultHandler) : M (RC.t * DefaultHandler) :=
  if is_blank dbname then mret (RC.INVALID_ARGUMENT, h)
  else
    match opened_dbs_ h !! dbname with
    | Some _ => mret (RC.SUCCESS, h)
    | None =>
        let dbpath := db_dir_ h +:+ dbname in
        b ← is_directory dbpath;
        if negb b then mret (RC.SCHEMA_DB_NOT_EXIST, h)
        else
          '(rc, d) ← db_init dbname dbpath new_db;
          if negb (RC.succ rc) then destroy_db d ;;; mret (rc, h)
          else mret (rc, set_opened_dbs (<[dbname := d]> (opened_dbs_ h)) h)
    end.
(** with [Session::set_current_db] of the default session *)
Definition handler_init (dir : string) (h : DefaultHandler) : M (RC.t * DefaultHandler) :=
  '(b, tmp) ← check_directory (dir +:+ "/db");
  if negb b then mret (RC.INTERNAL, h)
  else
    let h := MkHandler dir (tmp +:+ "/") (opened_dbs_ h) (default_db h) in
    ret ← create_db "sys" h;
    if bool_decide (ret ≠ RC.SUCCESS ∧ ret ≠ RC.SCHEMA_DB_EXIST) then mret (ret, h)
    else
      '(ret, h) ← open_db "sys" h;
      if negb (RC.succ ret) then mret (ret, h)
      else
        mret (RC.SUCCESS, match find_db h "sys" with
                          | Some _ => MkHandler (base_dir h) (db_dir_ h) (opened_dbs_ h) (Some "sys") | None => h end).
Definition handler_create_table (dbname name : string) (attributes : list AttrInfo) (h : DefaultHandler)
  : M (RC.t * DefaultHandler) :=
  match find_db h dbname with
  | None => mret (RC.SCHEMA_DB_NOT_OPENED, h)
  | Some d =>
      '(rc, d) ← db_create_table name attributes d;
      mret (rc, set_opened_dbs (<[dbname := d]> (opened_dbs_ h)) h)
  end.
Definition drop_db (dbname : string) : RC.t := RC.INTERNAL.
Definition close_db (dbname : string) : RC.t := RC.UNIMPLENMENT.
Definition handler_execute (sql : string) : RC.t := RC.UNIMPLENMENT.
Definition handler_drop_table (dbname name : string) : RC.t := RC.UNIMPLENMENT.
(** the order of the databases is left to [os_order], [std::map] has that of the names *)
Fixpoint sync_dbs (l : list (string * Db)) (h : DefaultHandler) : M (RC.t * DefaultHandler) :=
  match l with
  | [] => mret (RC.SUCCESS, h)
  | (name, d) :: l =>
      '(rc, d) ← db_sync d;
      let h := set_opened_dbs (<[name := d]> (opened_dbs_ h)) h in
      if RC.succ rc then sync_dbs l h else mret (rc, h)
  end.
Definition handler_sync_dbs (h : DefaultHandler) : M (RC.t * DefaultHandler) := sync_dbs (os_order _ (map_to_list (opened_dbs_ h))) h.
Fixpoint destroy_dbs (l : list (string * Db)) : M () :=
  match l with [] => mret () | p :: l => destroy_db p.2 ;;; destroy_dbs l end.
Definition handler_destroy (h : DefaultHandler) : M DefaultHandler :=
  '(rc, h) ← handler_sync_dbs h;
  destroy_dbs (os_order _ (map_to_list (opened_dbs_ h))) ;;;
  mret (set_opened_dbs ∅ h).
End tables.
End world.
