(* ===== verification/IndexScan.v ===== *)
(** * Index scans and lists ([sql/operator/index_scan_physical_operator.cpp], [index_list_physical_operator.cpp], [string_list_physical_operator.h])

    The index, the record file and the transaction are the class [IndexScanOps].
    [record_page_handler_] is cleaned up at the start of [next] only: [page_held_] tells
    whether it holds a page, and [RecordPageHandler::init] refuses a second one. *)
From S2P Require Import Prelude RidKey Comparator TableMeta SqlValue Row Expr Operators OrderScan.
From Stdlib Require Import ZArith Lia.
From stdpp Require Import base option strings list.
Local Open Scope Z_scope.

(** an index with its scanner [SX], the record file of its table, a transaction *)
Class IndexScanOps (W IX SX : Type) := {
  (** [create_scanner]: [None] is a null pointer *)
  index_create_scanner : IX → memory → nat → bool → memory → nat → bool → ST W (option SX);
  (** [next_entry]; the RID is written when it succeeds *)
  index_next_entry : bool → ST (W * SX) (RC.t * RID.t);
  index_destroy : SX → ST W RC.t;
  (** [RecordFileHandler::get_record] with a handler that holds no page *)
  record_get : bool → RID.t → ST W (RC.t + memory);
  (** [trx_->visit_record] *)
  record_visit : RID.t * memory → bool → ST W RC.t
}.

Module IndexScan.
Record t (IX SX : Type) : Type := mk {
  table_ : TableMeta.t;
  index_ : option IX;
  readonly_ : bool;
  index_scanner_ : option SX;
  page_held_ : bool;
  inspector_ : RowTuple;
  tuples_ : list RowTuple;
  left_value_ : memory;
  left_value_len_ : nat;
  left_inclusive_ : bool;
  right_value_ : memory;
  right_value_len_ : nat;
  right_inclusive_ : bool;
  idx_iterator_neet_increase : bool;
  predicates_ : list Expr.t;
  parent_tuple_ : option Tuple.t
}.
Arguments mk {IX SX}.
Arguments table_ {IX SX}.
Arguments index_ {IX SX}.
Arguments readonly_ {IX SX}.
Arguments index_scanner_ {IX SX}.
Arguments page_held_ {IX SX}.
Arguments inspector_ {IX SX}.
Arguments tuples_ {IX SX}.
Arguments left_value_ {IX SX}.
Arguments left_value_len_ {IX SX}.
Arguments left_inclusive_ {IX SX}.
Arguments right_value_ {IX SX}.
Arguments right_value_len_ {IX SX}.
Arguments right_inclusive_ {IX SX}.
Arguments idx_iterator_neet_increase {IX SX}.
Arguments predicates_ {IX SX}.
Arguments parent_tuple_ {IX SX}.
Section ops.
Context `{!LibText} `{!Uninit} (trx_fields : option (list FieldMeta.t)).
Context (executor : SubQuery → option Tuple.t → option (RC.t * SubQuery)).
Context {W IX SX : Type} `{!IndexScanOps W IX SX} (fuel : nat).
Abbreviation oper := (t IX SX).

(** the constructor, followed by [set_predicates] *)
Definition make (table : TableMeta.t) (index : option IX) (readonly : bool) (left_value : memory) (left_value_len : nat)
    (left_inclusive : bool) (right_value : memory) (right_value_len : nat) (right_inclusive : bool)
    (predicates : list Expr.t) : oper :=
  mk table index readonly None false (TableScan.empty_row table) [] left_value left_value_len left_inclusive
    right_value right_value_len right_inclusive true predicates None.
Definition set_scanner (sc : option SX) (o : oper) : oper :=
  mk (table_ o) (index_ o) (readonly_ o) sc (page_held_ o) (inspector_ o) (tuples_ o) (left_value_ o) (left_value_len_ o)
    (left_inclusive_ o) (right_value_ o) (right_value_len_ o) (right_inclusive_ o) (idx_iterator_neet_increase o)
    (predicates_ o) (parent_tuple_ o).
Definition set_held (b : bool) (o : oper) : oper :=
  mk (table_ o) (index_ o) (readonly_ o) (index_scanner_ o) b (inspector_ o) (tuples_ o) (left_value_ o) (left_value_len_ o)
    (left_inclusive_ o) (right_value_ o) (right_value_len_ o) (right_inclusive_ o) (idx_iterator_neet_increase o)
    (predicates_ o) (parent_tuple_ o).
Definition set_rows (r : RowTuple) (l : list RowTuple) (o : oper) : oper :=
  mk (table_ o) (index_ o) (readonly_ o) (index_scanner_ o) (page_held_ o) r l (left_value_ o) (left_value_len_ o)
    (left_inclusive_ o) (right_value_ o) (right_value_len_ o) (right_inclusive_ o) (idx_iterator_neet_increase o)
    (predicates_ o) (parent_tuple_ o).
Definition set_idx_increase (b : bool) (o : oper) : oper :=
  mk (table_ o) (index_ o) (readonly_ o) (index_scanner_ o) (page_held_ o) (inspector_ o) (tuples_ o) (left_value_ o)
    (left_value_len_ o) (left_inclusive_ o) (right_value_ o) (right_value_len_ o) (right_inclusive_ o) b
    (predicates_ o) (parent_tuple_ o).
Definition set_predicates (ps : list Expr.t) (o : oper) : oper :=
  mk (table_ o) (index_ o) (readonly_ o) (index_scanner_ o) (page_held_ o) (inspector_ o) (tuples_ o) (left_value_ o)
    (left_value_len_ o) (left_inclusive_ o) (right_value_ o) (right_value_len_ o) (right_inclusive_ o)
    (idx_iterator_neet_increase o) ps (parent_tuple_ o).
Definition set_parent (p : Tuple.t) (o : oper) : oper :=
  mk (table_ o) (index_ o) (readonly_ o) (index_scanner_ o) (page_held_ o) (inspector_ o) (tuples_ o) (left_value_ o)
    (left_value_len_ o) (left_inclusive_ o) (right_value_ o) (right_value_len_ o) (right_inclusive_ o)
    (idx_iterator_neet_increase o) (predicates_ o) (Some p).
(** a call on the shared state, or of the scanner *)
Definition on_world {A} (c : ST W A) : ST (W * oper) A := λ '(w, o),
  match c w with Done (a, w) => Done (a, (w, o)) | Crash => Crash | OutOfFuel => OutOfFuel end.
Definition on_scanner {A} : ST (W * SX) A → ST (W * oper) A := on_part index_scanner_ (λ sc, set_scanner (Some sc)).

Definition open : ST (W * oper) RC.t :=
  o ← get_state;
  match index_ o with
  | None => mret RC.INTERNAL
  | Some index =>
      sc ← on_world (index_create_scanner index (left_value_ o) (left_value_len_ o) (left_inclusive_ o)
                       (right_value_ o) (right_value_len_ o) (right_inclusive_ o));
      match sc with
      | None => mret RC.INTERNAL
      | Some sc =>
          set_state (set_scanner (Some sc)) ;;;
          set_state (λ o, set_rows (set_schema (table_ o) (TableMeta.fields (table_ o)) (inspector_ o)) (tuples_ o) o) ;;;
          r ← st_some (TableScan.do_predicates executor (predicates_ o) RC.SUCCESS);
          set_state (set_predicates r.2) ;;;
          mret r.1
      end
  end.
(** [record_handler_->get_record(record_page_handler_, &rid, readonly_, &current_record_)] *)
Definition get_record (rid : RID.t) : ST (W * oper) (RC.t + memory) :=
  o ← get_state;
  if page_held_ o then mret (inl RC.RECORD_OPENNED)
  else
    r ← on_world (record_get (readonly_ o) rid);
    match r with
    | inl rc => mret (inl rc)
    | inr data => set_state (set_held true) ;;; mret (inr data)
    end.
(** The loop.  A failing [get_record] ends it, so that whether it left the handler with a
    page does not matter: the next call of [next] cleans it up. *)
Definition next_loop : nat → ST (W * oper) RC.t :=
  fix go fuel :=
  match fuel with
  | O => st_nofuel
  | S fuel =>
      o ← get_state;
      e ← on_scanner (index_next_entry (idx_iterator_neet_increase o));
      let '(rc, rid) := e in
      if negb (RC.succ rc) then mret rc
      else
        set_state (set_idx_increase true) ;;;
        r ← get_record rid;
        match r with
        | inl rc => mret rc
        | inr data =>
            set_state (λ o, set_rows (set_record (rid, data) (inspector_ o)) (tuples_ o) o) ;;;
            o ← get_state;
            f ← st_some (TableScan.filter trx_fields (predicates_ o) (with_parent (parent_tuple_ o) (Tuple.Row (inspector_ o))) Val.new);
            let '(rc, filter_result) := f in
            if negb (RC.succ rc) then mret rc
            else if negb filter_result then go fuel
            else
              rc ← on_world (record_visit (rid, data) (readonly_ o));
              if decide (rc = RC.RECORD_INVISIBLE) then go fuel
              else
                set_state (λ o, set_rows (inspector_ o)
                  (tuples_ o ++ [set_schema (table_ o) (TableMeta.fields (table_ o))
                                   (set_record (rid, data) (TableScan.empty_row (table_ o)))]) o) ;;;
                mret rc
        end
  end.
Definition next : ST (W * oper) RC.t := set_state (set_held false) ;;; next_loop fuel.
Definition close : ST (W * oper) RC.t :=
  o ← get_state;
  sc ← st_some (index_scanner_ o);
  on_world (index_destroy sc) ;;;
  set_state (set_scanner None) ;;;
  mret RC.SUCCESS.
Definition current_tuple (o : oper) : outcome (option Tuple.t) :=
  match last (tuples_ o) with Some r => Done (Some (Tuple.Row r)) | None => Crash end.
Definition ops : PhysOps W oper := {|
  oper_open := open; oper_next := next; oper_close := close; oper_current := current_tuple;
  oper_set_parent p o := Some (set_parent p o) |}.
End ops.
End IndexScan.

(** ** [IndexListPhysicalOperator]: SHOW INDEX *)
Module IndexList.
Record t : Type := mk {
  table_name_ : string;
  indexes_ : list IndexMeta.t;
  index_fields_ : list (list FieldMeta.t);
  cur_index_idx_ : nat;
  cur_fields_idx_ : nat;
  started_ : bool
}.
Definition make (table_name : string) (indexes : list IndexMeta.t) (index_fields : list (list FieldMeta.t)) : t :=
  mk table_name indexes index_fields 0 0 false.
Section ops.
Context `{!LibText} `{!Uninit} {W : Type}.
Definition set_position (i j : nat) (o : t) : t := mk (table_name_ o) (indexes_ o) (index_fields_ o) i j true.
Definition next : ST (W * t) RC.t :=
  o ← get_state;
  if decide (indexes_ o = []) then mret RC.RECORD_EOF
  else if negb (started_ o) then set_state (set_position (cur_index_idx_ o) (cur_fields_idx_ o)) ;;; mret RC.SUCCESS
  else
    fields ← st_some (index_fields_ o !! cur_index_idx_ o);
    let j := S (cur_fields_idx_ o) in
    if decide (j = length fields) then
      let i := S (cur_index_idx_ o) in
      if decide (i = length (indexes_ o)) then set_state (set_position i j) ;;; mret RC.RECORD_EOF
      else set_state (set_position i 0) ;;; mret RC.SUCCESS
    else set_state (set_position (cur_index_idx_ o) j) ;;; mret RC.SUCCESS.
(** [cells.push_back(Value(std::string))] goes through [const char *] *)
Definition string_value (s : string) : Value := Val.of_string (text s).
Definition current_tuple (o : t) : outcome (option Tuple.t) :=
  if decide (cur_index_idx_ o = length (indexes_ o)) then Done None
  else
    match indexes_ o !! cur_index_idx_ o, index_fields_ o !! cur_index_idx_ o ≫= (.!! cur_fields_idx_ o) with
    | Some m, Some f =>
        Done (Some (Tuple.ValueList
          [string_value (table_name_ o); Val.of_bool (negb (IndexMeta.unique m)); string_value (IndexMeta.name m);
           Val.of_int (int32 ((Z.of_nat (cur_fields_idx_ o) + 1) mod 2 ^ 32)); string_value (FieldMeta.name f)]))
    | _, _ => Crash
    end.
#[global] Instance ops : PhysOps W t := {|
  oper_open := mret RC.SUCCESS; oper_next := next; oper_close := mret RC.SUCCESS; oper_current := current_tuple;
  oper_set_parent _ o := Some o |}.
End ops.
End IndexList.

(** ** [StringListPhysicalOperator]: SHOW TABLES, HELP, DESC *)
Module StringList.
(** [iterator_]: a position of [strings_], its length at the end *)
Record t : Type := mk { strings_ : list (list string); iterator_ : nat; started_ : bool }.
Section ops.
Context `{!LibText} `{!Uninit} {W : Type}.
Definition append (l : list string) (o : t) : t := mk (strings_ o ++ [l]) (iterator_ o) (started_ o).
Definition next : ST (W * t) RC.t :=
  o ← get_state;
  let i := if negb (started_ o) then 0%nat
           else if decide (iterator_ o ≠ length (strings_ o)) then S (iterator_ o) else iterator_ o in
  set_state (λ o, mk (strings_ o) i true) ;;;
  mret (if decide (i = length (strings_ o)) then RC.RECORD_EOF else RC.SUCCESS).
Definition close : ST (W * t) RC.t :=
  set_state (λ o, mk (strings_ o) (length (strings_ o)) (started_ o)) ;;; mret RC.SUCCESS.
Definition current_tuple (o : t) : outcome (option Tuple.t) :=
  if decide (iterator_ o = length (strings_ o)) then Done None
  else
    match strings_ o !! iterator_ o with
    | Some l => match mapM (λ s, Val.set_string (Val.c_str (text s)) 0 Val.new) l with
                | Some cells => Done (Some (Tuple.ValueList cells))
                | None => Crash
                end
    | None => Crash
    end.
#[global] Instance ops : PhysOps W t := {|
  oper_open := mret RC.SUCCESS; oper_next := next; oper_close := close; oper_current := current_tuple;
  oper_set_parent _ o := Some o |}.
End ops.
End StringList.
