(* ===== verification/Dml.v ===== *)
(** * Insert, delete, update ([sql/operator/insert_physical_operator.cpp], [delete_physical_operator.cpp], [update_physical_operator.cpp])

    The statements of a transaction on a table are the class [TrxOps].  [malloc k] is what
    the memory of the [k]th record of an insertion holds before it is written. *)
From S2P Require Import Prelude RidKey Comparator Bitmap TableMeta SqlValue Row Expr Operators.
From Stdlib Require Import ZArith Lia.
From stdpp Require Import base option strings list.
Local Open Scope Z_scope.

Class TrxOps (W : Type) := {
  trx_insert_record : TableMeta.t → memory → ST W RC.t;
  trx_delete_record : TableMeta.t → RID.t * memory → ST W RC.t;
  trx_update_record : TableMeta.t → RID.t * memory → RID.t * memory → ST W RC.t;
  (** [table_->get_indexes()]: whether an index is unique, and its fields *)
  table_indexes : W → TableMeta.t → list (bool * list FieldMeta.t)
}.
(** a call on the shared state *)
Definition on_world {W O A} (c : ST W A) : ST (W * O) A := λ '(w, o),
  match c w with Done (a, w) => Done (a, (w, o)) | Crash => Crash | OutOfFuel => OutOfFuel end.

(** ** [InsertPhysicalOperator] *)
Module Insert.
Record t : Type := mk { table_ : TableMeta.t; values_list : list (list Value) }.
Section ops.
Context `{!LibText} `{!Uninit} (trx_fields : option (list FieldMeta.t)).
Context {W : Type} `{!TrxOps W} (malloc : nat → memory).
Fixpoint insert_all (table : TableMeta.t) (k : nat) (values_list : list (list Value)) : ST W RC.t :=
  match values_list with
  | [] => mret RC.SUCCESS
  | values :: values_list =>
      r ← st_some (make_record trx_fields table values (malloc k));
      match r with
      | inl rc => mret rc
      | inr data => try trx_insert_record table data ;; insert_all table (S k) values_list
      end
  end.
Definition open : ST (W * t) RC.t := o ← get_state; on_world (insert_all (table_ o) 0 (values_list o)).
#[global] Instance ops : PhysOps W t := {|
  oper_open := open; oper_next := mret RC.RECORD_EOF; oper_close := mret RC.SUCCESS;
  oper_current _ := Done None; oper_set_parent _ o := Some o |}.
End ops.
End Insert.

(** ** [DeletePhysicalOperator] *)
(** [stay]: [set_idx_increase(false)] of the child, or of its first child, when that is an
    index scan *)
Module Delete.
Record t (C : Type) : Type := mk { children_ : list C; table_ : TableMeta.t }.
Arguments mk {C}.
Arguments children_ {C}.
Arguments table_ {C}.
Section ops.
Context {W C : Type} `{!PhysOps W C} `{!TrxOps W} (stay : C → C) (fuel : nat).
Definition on_child {A} : ST (W * C) A → ST (W * t C) A :=
  on_part (λ o, head (children_ o)) (λ c o, mk (put_head c (children_ o)) (table_ o)).
Definition open : ST (W * t C) RC.t :=
  o ← get_state;
  match children_ o with
  | [] => mret RC.SUCCESS
  | _ => try on_child oper_open ;; mret RC.SUCCESS
  end.
(** whatever code of the child ends the loop, the result is the end *)
Definition next_loop : nat → ST (W * t C) RC.t :=
  fix go fuel :=
  match fuel with
  | O => st_nofuel
  | S fuel =>
      rc ← on_child oper_next;
      if negb (RC.succ rc) then mret RC.RECORD_EOF
      else
        o ← get_state;
        c ← st_some (head (children_ o));
        tuple ← lift_outcome (oper_current c);
        match tuple with
        | None => mret rc
        | Some (Tuple.Row r) =>
            try on_world (trx_delete_record (table_ o) (record_ r)) ;;
            set_state (λ o, mk (match children_ o with [] => [] | c :: l => stay c :: l end) (table_ o)) ;;;
            go fuel
        | Some _ => st_crash
        end
  end.
Definition next : ST (W * t C) RC.t :=
  o ← get_state; match children_ o with [] => mret RC.RECORD_EOF | _ => next_loop fuel end.
Definition close : ST (W * t C) RC.t :=
  o ← get_state;
  match children_ o with [] => mret RC.SUCCESS | _ => on_child oper_close ;;; mret RC.SUCCESS end.
Definition ops : PhysOps W (t C) := {|
  oper_open := open; oper_next := next; oper_close := close; oper_current _ := Done None;
  oper_set_parent p o := l ← set_parent_children p (children_ o); Some (mk l (table_ o)) |}.
End ops.
End Delete.

(** ** [UpdatePhysicalOperator] *)
Module Update.
Record t (C : Type) : Type := mk {
  children_ : list C;
  table_ : TableMeta.t;
  field_metas_ : list FieldMeta.t;
  expr_list_ : list Expr.t;
  value_list_ : list Value;
  invalid_value_list_ : bool;
  has_unique_index_ : bool
}.
Arguments mk {C}.
Arguments children_ {C}.
Arguments table_ {C}.
Arguments field_metas_ {C}.
Arguments expr_list_ {C}.
Arguments value_list_ {C}.
Arguments invalid_value_list_ {C}.
Arguments has_unique_index_ {C}.
Definition make {C} (table : TableMeta.t) (field_metas : list FieldMeta.t) (expr_list : list Expr.t) (children : list C) : t C :=
  mk children table field_metas expr_list [] false false.

Section values.
Context `{!LibText} `{!Uninit}.
(** the subqueries are executed *)
Fixpoint execute_all (executor : SubQuery → option (RC.t * SubQuery)) (l : list Expr.t) : option (RC.t * list Expr.t) :=
  match l with
  | [] => Some (RC.SUCCESS, [])
  | e :: l =>
      '(rc, e) ← match e with
                 | Expr.SubQueryExpr q => '(rc, q) ← executor q; Some (rc, Expr.SubQueryExpr q)
                 | _ => Some (RC.SUCCESS, e)
                 end;
      if negb (RC.succ rc) then Some (rc, e :: l)
      else '(rc, l) ← execute_all executor l; Some (rc, e :: l)
  end.
(** the values are collected; a list of no value is a null, one of several is invalid, and
    an expression of another kind has no value *)
Fixpoint collect_values (l : list Expr.t) : list Value * bool :=
  match l with
  | [] => ([], false)
  | e :: l =>
      let '(values, invalid) := collect_values l in
      match e with
      | Expr.ValueExpr v => (v :: values, invalid)
      | _ =>
          match Expr.list_of e with
          | Some [] => (Val.new :: values, invalid)
          | Some [v] => (v :: values, invalid)
          | Some (v :: _) => (v :: values, true)
          | None => (values, true)
          end
      end
  end.
(** a value against its field: the value, and whether it is invalid *)
Definition check_field (field : FieldMeta.t) (value : Value) : option (Value * bool) :=
  if Val.is_null value then Some (value, negb (FieldMeta.nullable field))
  else if decide (FieldMeta.type field ≠ attr_type_ value) then
    if decide (FieldMeta.type field = DATES ∧ attr_type_ value = CHARS) then
      dateval ← convert_string_to_date (Val.data value); Some (Val.set_date dateval value, false)
    else
      '(ok, change) ← Val.type_cast (FieldMeta.type field) value;
      Some (change, if ok : bool then bool_decide (attr_type_ change = TEXTS) && bool_decide (length_ change > FieldMeta.len field)
                    else true)
  else Some (value, false).
Fixpoint check_fields (fields : list FieldMeta.t) (values : list Value) : option (list Value * bool) :=
  match fields, values with
  | [], _ => Some (values, false)
  | f :: fields, v :: values =>
      '(v, bad) ← check_field f v;
      '(values, invalid) ← check_fields fields values;
      Some (v :: values, bad || invalid)
  | _ :: _, [] => None
  end.
(** a unique index over a field that becomes null *)
Definition sets_null (fields : list FieldMeta.t) (values : list Value) (index_field : FieldMeta.t) : bool :=
  existsb (λ fv, bool_decide (FieldMeta.offset index_field = FieldMeta.offset fv.1) && Val.is_null fv.2) (zip fields values).
Definition unique_null (indexes : list (bool * list FieldMeta.t)) (fields : list FieldMeta.t) (values : list Value) : bool :=
  existsb (λ i, i.1 && existsb (sets_null fields values) i.2) indexes.

(** [Record::set_value] and the bits of the null fields *)
Definition set_value (field : FieldMeta.t) (value : Value) (data : memory) : option memory :=
  bytes ← load_bytes 0 (Z.to_nat (FieldMeta.len field)) (Val.data value);
  store_bytes (Z.to_nat (FieldMeta.offset field)) bytes data.
Fixpoint write_fields (trx_fields : option (list FieldMeta.t)) (table : TableMeta.t) (fields : list FieldMeta.t)
    (values : list Value) (data : memory) : option memory :=
  match fields, values with
  | [], _ => Some data
  | f :: fields, v :: values =>
      let field_index := TableMeta.field_index table f in
      if decide (field_index < 0) then None
      else
        data ← write_null_bit trx_fields table (Val.is_null v) (Z.to_nat field_index) data;
        data ← (if Val.is_null v then Some data else set_value f v data);
        write_fields trx_fields table fields values data
  | _ :: _, [] => None
  end.
End values.

Section ops.
Context `{!LibText} `{!Uninit} (trx_fields : option (list FieldMeta.t)).
Context (executor : SubQuery → option (RC.t * SubQuery)).
Context {W C : Type} `{!PhysOps W C} `{!TrxOps W} (fuel : nat).
Definition on_child {A} : ST (W * C) A → ST (W * t C) A :=
  on_part (λ o, head (children_ o))
    (λ c o, mk (put_head c (children_ o)) (table_ o) (field_metas_ o) (expr_list_ o) (value_list_ o)
       (invalid_value_list_ o) (has_unique_index_ o)).
Definition set_exprs (l : list Expr.t) (o : t C) : t C :=
  mk (children_ o) (table_ o) (field_metas_ o) l (value_list_ o) (invalid_value_list_ o) (has_unique_index_ o).
Definition set_values (l : list Value) (invalid : bool) (o : t C) : t C :=
  mk (children_ o) (table_ o) (field_metas_ o) (expr_list_ o) l (invalid || invalid_value_list_ o) (has_unique_index_ o).
Definition set_unique (b : bool) (o : t C) : t C :=
  mk (children_ o) (table_ o) (field_metas_ o) (expr_list_ o) (value_list_ o) (invalid_value_list_ o) (b || has_unique_index_ o).
Definition get_world : ST (W * t C) W := λ '(w, o), Done (w, (w, o)).

Definition open : ST (W * t C) RC.t :=
  o ← get_state;
  match children_ o with
  | [] => mret RC.SUCCESS
  | _ =>
      try on_child oper_open ;;
      r ← st_some (execute_all executor (expr_list_ o));
      set_state (set_exprs r.2) ;;;
      if negb (RC.succ r.1) then mret r.1
      else
        let '(values, invalid) := collect_values r.2 in
        c ← st_some (check_fields (field_metas_ o) (value_list_ o ++ values));
        set_state (set_values c.1 (invalid || c.2)) ;;;
        w ← get_world;
        set_state (set_unique (unique_null (table_indexes w (table_ o)) (field_metas_ o) c.1)) ;;;
        mret RC.SUCCESS
  end.
(** an update of a row *)
Definition update_row (o : t C) (r : RowTuple) : ST (W * t C) RC.t :=
  new_data ← st_some (write_fields trx_fields (table_ o) (field_metas_ o) (value_list_ o) (record_ r).2);
  on_world (trx_update_record (table_ o) (record_ r) ((record_ r).1, new_data)).
Definition next_loop : nat → ST (W * t C) RC.t :=
  fix go fuel :=
  match fuel with
  | O => st_nofuel
  | S fuel =>
      rc ← on_child oper_next;
      if negb (RC.succ rc) then mret RC.RECORD_EOF
      else
        o ← get_state;
        if invalid_value_list_ o then mret RC.INTERNAL
        else
          rc ← (if has_unique_index_ o then on_child oper_next else mret RC.RECORD_EOF);
          if RC.succ rc then mret RC.RECORD_DUPLICATE_KEY
          else
            o ← get_state;
            c ← st_some (head (children_ o));
            tuple ← lift_outcome (oper_current c);
            match tuple with
            | None => mret (if has_unique_index_ o then rc else RC.SUCCESS)
            | Some (Tuple.Row r) => try update_row o r ;; go fuel
            | Some _ => mret RC.INTERNAL
            end
  end.
Definition next : ST (W * t C) RC.t :=
  o ← get_state; match children_ o with [] => mret RC.RECORD_EOF | _ => next_loop fuel end.
Definition close : ST (W * t C) RC.t :=
  o ← get_state; match children_ o with [] => mret RC.SUCCESS | _ => on_child oper_close end.
Definition ops : PhysOps W (t C) := {|
  oper_open := open; oper_next := next; oper_close := close; oper_current _ := Done None;
  oper_set_parent p o :=
    l ← set_parent_children p (children_ o);
    Some (mk l (table_ o) (field_metas_ o) (expr_list_ o) (value_list_ o) (invalid_value_list_ o) (has_unique_index_ o)) |}.
End ops.
End Update.
