(* ===== verification/PlanGen.v ===== *)
(** * Logical plans of statements ([sql/optimizer/logical_plan_generator.cpp], [sql/stmt])

    The statements are records of what their classes keep.  A side of a condition that is
    neither a field, a value, a list nor a subquery, and an operator the generator does not
    know, leave a null pointer in the plan, and so does a SELECT without a table; they have no
    value here. *)
From S2P Require Import Prelude RidKey Comparator TableMeta SqlValue Row Expr Rewrite.
From Stdlib Require Import ZArith Lia.
From stdpp Require Import base option strings list.
Local Open Scope Z_scope.

(** ** [FilterUnit], [FilterStmt], [SelectStmt], and the other statements with a plan *)
Record FilterUnit : Set := MkFilterUnit { comp_ : CompOp.t; left_ : Expr.t; right_ : Expr.t }.
Record FilterStmt : Set := MkFilterStmt { filter_units_ : list FilterUnit; has_or_ : bool }.
(** an [OrderByUnit] is its field, with its table, and whether it is ascending *)
Record SelectStmt : Set := MkSelectStmt {
  tables_ : list TableMeta.t;
  expressions_ : list Expr.t;
  filter_stmt_ : FilterStmt;
  order_units_ : list (Field * bool)
}.
Module Stmt.
Inductive t : Set :=
| CALC (expressions : list Expr.t)
| SELECT (s : SelectStmt)
| INSERT (table : TableMeta.t) (values_list : list (list Value))
| UPDATE (table : TableMeta.t) (field_metas : list FieldMeta.t) (expr_list : list Expr.t) (filter : FilterStmt)
| DELETE (table : TableMeta.t) (filter : FilterStmt)
| EXPLAIN (child : t)
(** the statements without a plan *)
| COMMAND.
End Stmt.

Module LogicalPlanGenerator.
Import Expr.

(** a side of a condition is copied, except a subquery, which is taken over *)
Definition filter_side (e : Expr.t) : option Expr.t :=
  match e with
  | FieldExpr _ | ValueExpr _ | ValueListExpr _ | SubQueryExpr _ => Some e
  | _ => None
  end.
Definition filter_expr (u : FilterUnit) : option Expr.t :=
  let left := filter_side (left_ u) in
  let right := filter_side (right_ u) in
  match comp_ u with
  | CompOp.EQUAL_TO | CompOp.LESS_EQUAL | CompOp.NOT_EQUAL | CompOp.LESS_THAN | CompOp.GREAT_EQUAL
  | CompOp.GREAT_THAN | CompOp.LIKE | CompOp.NOT_LIKE | CompOp.IS | CompOp.IS_NOT =>
      l ← left; r ← right; Some (ComparisonExpr (comp_ u) l r)
  | CompOp.IN | CompOp.NOT_IN => l ← left; r ← right; Some (InExpr l (comp_ u) r)
  | CompOp.EXISTS | CompOp.NOT_EXISTS => r ← right; Some (ExistsExpr (comp_ u) r)
  | CompOp.NO_OP => None
  end.
(** [create_plan(FilterStmt)]: the expression of the predicate, if there is a condition *)
Definition create_filter (f : FilterStmt) : option (option Expr.t) :=
  expr_list ← mapM filter_expr (filter_units_ f);
  Some (match expr_list with
        | [] => None
        | _ => Some (ConjunctionExpr (if has_or_ f then Conj.OR else Conj.AND) expr_list)
        end).
Definition add_predicate (predicate : option Expr.t) (root : Logical.t) : Logical.t :=
  match predicate with Some e => Logical.Node Logical.PREDICATE [e] [root] | None => root end.

(** the loop over the tables *)
Definition table_get (readonly : bool) (table : TableMeta.t) : Logical.t :=
  Logical.Node (Logical.TABLE_GET table readonly []) [] [].
Fixpoint join_tables (table_oper : option Logical.t) (tables : list TableMeta.t) : option Logical.t :=
  match tables with
  | [] => table_oper
  | table :: tables =>
      join_tables (Some (match table_oper with
                         | None => table_get true table
                         | Some oper => Logical.Node Logical.JOIN [] [oper; table_get true table]
                         end)) tables
  end.
(** [AggreExpression::get_aggre_expression] *)
Definition get_aggre_expression (e : Expr.t) : list AggreExpr :=
  match e with AggreExpression a => [a] | _ => [] end.
(** [create_plan(SelectStmt)] *)
Definition create_select (s : SelectStmt) : option Logical.t :=
  root_oper ← join_tables None (tables_ s);
  predicate_oper ← create_filter (filter_stmt_ s);
  let root_oper := add_predicate predicate_oper root_oper in
  let aggre_exprs := expressions_ s ≫= get_aggre_expression in
  let root_oper := match aggre_exprs with
                   | [] => root_oper
                   | _ => Logical.Node (Logical.AGGREGATION aggre_exprs) [] [root_oper]
                   end in
  let root_oper := match order_units_ s with
                   | [] => root_oper
                   | units => Logical.Node (Logical.ORDER_BY units) [] [root_oper]
                   end in
  Some (Logical.Node (Logical.PROJECTION (expressions_ s)) [] [root_oper]).
(** what [UPDATE] and [DELETE] have below them *)
Definition create_target (table : TableMeta.t) (filter : FilterStmt) : option Logical.t :=
  predicate_oper ← create_filter filter; Some (add_predicate predicate_oper (table_get false table)).
(** [create] *)
Fixpoint create (s : Stmt.t) : option (RC.t + Logical.t) :=
  match s with
  | Stmt.CALC expressions => Some (inr (Logical.Node Logical.CALC expressions []))
  | Stmt.SELECT s => inr <$> create_select s
  | Stmt.INSERT table values_list => Some (inr (Logical.Node (Logical.INSERT table values_list) [] []))
  | Stmt.UPDATE table field_metas expr_list filter =>
      child ← create_target table filter;
      Some (inr (Logical.Node (Logical.UPDATE table field_metas expr_list) [] [child]))
  | Stmt.DELETE table filter =>
      child ← create_target table filter;
      Some (inr (Logical.Node (Logical.DELETE table) [] [child]))
  | Stmt.EXPLAIN child =>
      c ← create child;
      Some (match c with inl rc => inl rc | inr c => inr (Logical.Node Logical.EXPLAIN [] [c]) end)
  | Stmt.COMMAND => Some (inl RC.UNIMPLENMENT)
  end.
End LogicalPlanGenerator.

(** ** [SubQueryExpr::if_need_parent_tuple] *)
Definition unit_needs_parent (u : FilterUnit) : bool :=
  match left_ u, right_ u with
  | Expr.FieldExpr l, Expr.FieldExpr r => bool_decide (fd_table_name l ≠ fd_table_name r)
  | _, _ => false
  end ||
  match left_ u with Expr.SubQueryExpr q => need_parent_tuple_ q | _ => false end ||
  match right_ u with Expr.SubQueryExpr q => need_parent_tuple_ q | _ => false end.
Definition if_need_parent_tuple (f : FilterStmt) : bool := existsb unit_needs_parent (filter_units_ f).
