(* ===== verification/Resolve.v ===== *)
(** * From the syntax tree to statements ([sql/stmt], [FieldExpr::create], [AggreExpression::create])

    The nodes of the parser with their names looked up in the tables of the database,
    [find_table].  A subquery is created as a statement of its own; the statements created
    so far are the state, and [plan_] of a subquery is its place among them.  The depth of
    the subqueries is bounded by fuel.  The values of the conditions are converted while
    they are checked, as the code does in place.  The plan of a subquery, which its
    constructor makes without looking at the return code, is left to [PlanExec.v]. *)
From S2P Require Import Prelude RidKey Comparator TableMeta SqlValue Row Expr Rewrite PlanGen.
From Stdlib Require Import ZArith Lia.
From stdpp Require Import base option strings list.
Local Open Scope Z_scope.

(** ** The syntax tree ([sql/parser/parse_defs.h], [parse_expr_defs.h]) *)
Record RelAttrSqlNode : Set := MkRelAttr {
  relation_name : string; table_alias : string; attribute_name : string; field_alias : string
}.
Record AttrSqlNode : Set := MkAttr { at_relation : string; at_alias : string }.
Record AggreSqlNode : Set := MkAggreNode { an_attr : RelAttrSqlNode; an_type : Aggre.t; an_alias : string }.
Record OrderSqlNode : Set := MkOrderNode { rel_attr : RelAttrSqlNode; order_asc : bool }.
Inductive ParseExpr : Set :=
| ParseFieldExpr (table_name field_name : string)
| ParseValueExpr (v : Value)
| ParseValueListExpr (l : list Value)
| ParseSubQueryExpr (sub_query : SelectSqlNode)
with ConditionSqlNode : Set :=
| MkCondition (left : ParseExpr) (comp : CompOp.t) (right : ParseExpr) (has_or : bool)
with SelectSqlNode : Set :=
| MkSelectNode (attributes : list RelAttrSqlNode) (aggregations : list AggreSqlNode) (relations : list AttrSqlNode)
    (conditions : list ConditionSqlNode) (joinctions : list (string * list ConditionSqlNode)) (orders : list OrderSqlNode).
Definition is_empty (s : string) : bool := match s with EmptyString => true | _ => false end.
Definition cond_left (c : ConditionSqlNode) : ParseExpr := let 'MkCondition l _ _ _ := c in l.
Definition cond_right (c : ConditionSqlNode) : ParseExpr := let 'MkCondition _ _ r _ := c in r.
Definition cond_or (c : ConditionSqlNode) : bool := let 'MkCondition _ _ _ b := c in b.

(** ** Aliases ([sql/stmt/select_stmt.cpp]) *)
(** [std::unique] finds two neighbours with the same alias *)
Fixpoint repeated_alias (l : list AttrSqlNode) : bool :=
  match l with
  | a :: (b :: _) as l' =>
      (negb (is_empty (at_alias a)) && negb (is_empty (at_alias b)) && bool_decide (at_alias a = at_alias b)) || repeated_alias l'
  | _ => false
  end.
Definition star_alias (f : RelAttrSqlNode) : bool :=
  bool_decide (attribute_name f = "*"%string) && negb (is_empty (field_alias f)).
Definition alias_field (node : AttrSqlNode) (f : RelAttrSqlNode) : RelAttrSqlNode :=
  if negb (is_empty (at_alias node)) && bool_decide (relation_name f = at_alias node)
  then MkRelAttr (at_relation node) (at_alias node) (attribute_name f) (field_alias f) else f.
Definition alias_aggre (node : AttrSqlNode) (a : AggreSqlNode) : AggreSqlNode :=
  let f := an_attr a in
  if negb (is_empty (at_alias node)) && bool_decide (table_alias f = at_alias node)
  then MkAggreNode (MkRelAttr (at_relation node) (at_alias node) (attribute_name f) (field_alias f)) (an_type a) (an_alias a) else a.
(** the name of the first table with the alias *)
Fixpoint table_of_alias (nodes : list AttrSqlNode) (name : string) : string :=
  match nodes with
  | [] => name
  | node :: nodes =>
      if negb (is_empty (at_alias node)) && bool_decide (name = at_alias node) then at_relation node else table_of_alias nodes name
  end.
(** [handle_where_alias]: the conditions, given what to do with a side *)
Definition handle_conditions (side : ParseExpr → RC.t + ParseExpr) : list ConditionSqlNode → RC.t + list ConditionSqlNode :=
  fix go conditions :=
  match conditions with
  | [] => inr []
  | MkCondition l comp r has_or :: conditions =>
      match side l with
      | inl rc => inl rc
      | inr l =>
          match side r with
          | inl rc => inl rc
          | inr r =>
              match go conditions with
              | inl rc => inl rc
              | inr conditions => inr (MkCondition l comp r has_or :: conditions)
              end
          end
      end
  end.
(** what [handle_alias] and [handle_sub_query_alias] share: [table_names] are the tables the
    conditions may name *)
Definition handle_select (side : list AttrSqlNode → ParseExpr → RC.t + ParseExpr) (table_names : list AttrSqlNode)
    (q : SelectSqlNode) : RC.t + SelectSqlNode :=
  let 'MkSelectNode fields aggres relations conditions joinctions orders := q in
  if repeated_alias relations then inl RC.INVALID_ARGUMENT
  else if existsb star_alias fields then inl RC.INVALID_ARGUMENT
  else
    let fields := foldl (λ fields node, alias_field node <$> fields) fields relations in
    let aggres := foldl (λ aggres node, alias_aggre node <$> aggres) aggres relations in
    match handle_conditions (side (table_names ++ relations)) conditions with
    | inl rc => inl rc
    | inr conditions => inr (MkSelectNode fields aggres relations conditions joinctions orders)
    end.
Fixpoint handle_side (table_names : list AttrSqlNode) (e : ParseExpr) : RC.t + ParseExpr :=
  match e with
  | ParseFieldExpr table_name field_name =>
      inr (ParseFieldExpr (if is_empty table_name then table_name else table_of_alias table_names table_name) field_name)
  | ParseSubQueryExpr q =>
      match handle_select handle_side table_names q with inl rc => inl rc | inr q => inr (ParseSubQueryExpr q) end
  | _ => inr e
  end.
(** the depth of the subqueries *)
Fixpoint expr_depth (e : ParseExpr) : nat :=
  match e with
  | ParseSubQueryExpr (MkSelectNode _ _ _ conditions joinctions _) =>
      S (Nat.max (max_list_with (λ '(MkCondition l _ r _), Nat.max (expr_depth l) (expr_depth r)) conditions)
           (max_list_with (λ j : string * list ConditionSqlNode,
              max_list_with (λ '(MkCondition l _ r _), Nat.max (expr_depth l) (expr_depth r)) j.2) joinctions))
  | _ => 0
  end.
Definition select_depth (q : SelectSqlNode) : nat := expr_depth (ParseSubQueryExpr q).
Definition handle_alias (q : SelectSqlNode) : RC.t + SelectSqlNode := handle_select handle_side [] q.

(** ** Names *)
Definition map_result {A B : Type} (f : A → B) (r : RC.t + A) : RC.t + B := match r with inl rc => inl rc | inr a => inr (f a) end.
Abbreviation tables_map := (list (string * TableMeta.t)).
(** [unordered_map::find]; [insert] keeps what is there, so that a new entry goes behind *)
Definition map_find (m : tables_map) (name : string) : option TableMeta.t :=
  snd <$> List.find (λ p, bool_decide (p.1 = name)) m.

Section resolve.
Context `{!LibText} `{!Uninit} (trx_fields : option (list FieldMeta.t)).
Context (find_table : string → option TableMeta.t).
Abbreviation ST := (ST (list SelectStmt)).

(** [get_table_and_field], and [get_unit_info] of ORDER BY, always called with a map *)
Definition get_table_and_field (default_table : option TableMeta.t) (tables : tables_map) (table_name field_name : string)
  : RC.t + Field :=
  match (if is_blank table_name then default_table else map_find tables table_name) with
  | None => inl RC.SCHEMA_TABLE_NOT_EXIST
  | Some table =>
      match TableMeta.field_by_name table field_name with
      | None => inl RC.SCHEMA_FIELD_NOT_EXIST
      | Some field => inr (MkField table field)
      end
  end.

(** ** [FieldExpr::create] *)
(** an item of the select list: its field, and the aliases it is shown with *)
Record SelectItem : Set := MkItem { si_field : Field; si_table_alias : string; si_field_alias : string }.
Definition wildcard_fields (table : TableMeta.t) : list SelectItem :=
  (λ f, MkItem (MkField table f) "" "") <$> TableMeta.user_fields trx_fields table.
Definition one_field (table : TableMeta.t) (table_alias : string) (f : RelAttrSqlNode) : RC.t + list SelectItem :=
  match TableMeta.field_by_name table (attribute_name f) with
  | None => inl RC.SCHEMA_FIELD_MISSING
  | Some field_meta => inr [MkItem (MkField table field_meta) table_alias (field_alias f)]
  end.
Definition select_field (table_map : tables_map) (tables : list TableMeta.t) (f : RelAttrSqlNode) : RC.t + list SelectItem :=
  let table_name := relation_name f in
  let field_name := attribute_name f in
  if bool_decide (table_name = "*"%string) || is_empty field_name then inl RC.SCHEMA_FIELD_MISSING
  else if is_empty table_name && bool_decide (field_name = "*"%string) then inr (tables ≫= wildcard_fields)
  else if is_empty table_name then
    match tables with [table] => one_field table "" f | _ => inl RC.SCHEMA_FIELD_MISSING end
  else
    match map_find table_map table_name with
    | None => inl RC.SCHEMA_FIELD_MISSING
    | Some table =>
        if decide (field_name = "*"%string) then inr (wildcard_fields table) else one_field table (table_alias f) f
    end.
Fixpoint create_fields (table_map : tables_map) (tables : list TableMeta.t) (attributes : list RelAttrSqlNode)
  : RC.t + list SelectItem :=
  match attributes with
  | [] => inr []
  | f :: attributes =>
      match select_field table_map tables f with
      | inl rc => inl rc
      | inr items =>
          match create_fields table_map tables attributes with inl rc => inl rc | inr rest => inr (items ++ rest) end
      end
  end.
(** the name a column is shown with *)
Definition item_name (tables : list TableMeta.t) (i : SelectItem) : string :=
  let field_name := match si_field_alias i with EmptyString => fd_field_name (si_field i) | alias => alias end in
  match tables with
  | [_] => field_name
  | _ =>
      let table_name := match si_table_alias i with EmptyString => fd_table_name (si_field i) | alias => alias end in
      String.append table_name (String.append "." field_name)
  end.

(** ** [AggreExpression::create] *)
Definition aggre_field (table_map : tables_map) (tables : list TableMeta.t) (node : RelAttrSqlNode) : RC.t + Field :=
  match (if is_empty (relation_name node) then match tables with [table] => Some table | _ => None end
         else map_find table_map (relation_name node)) with
  | None => inl RC.SCHEMA_FIELD_MISSING
  | Some table =>
      match TableMeta.field_by_name table (attribute_name node) with
      | None => inl RC.SCHEMA_FIELD_MISSING
      | Some field_meta => inr (MkField table field_meta)
      end
  end.
(** COUNT of the star is a count of the rows, on a field nobody looks at *)
Definition create_aggre (table_map : tables_map) (tables : list TableMeta.t) (node : AggreSqlNode) : option (RC.t + AggreExpr) :=
  table ← head tables;
  if bool_decide (attribute_name (an_attr node) = "*"%string) && negb (bool_decide (an_type node = Aggre.COUNT))
  then Some (inl RC.FAILURE)
  else if bool_decide (attribute_name (an_attr node) = "*"%string) then
    field ← TableMeta.field table 1; Some (inr (MkAggre Aggre.COUNT_ALL (MkField table field)))
  else
    Some (match aggre_field table_map tables (an_attr node) with
          | inl rc => inl rc
          | inr field => inr (MkAggre (an_type node) field)
          end).
Fixpoint create_aggres (table_map : tables_map) (tables : list TableMeta.t) (nodes : list AggreSqlNode)
  : option (RC.t + list AggreExpr) :=
  match nodes with
  | [] => Some (inr [])
  | node :: nodes =>
      r ← create_aggre table_map tables node;
      match r with
      | inl rc => Some (inl rc)
      | inr a =>
          r ← create_aggres table_map tables nodes;
          Some (map_result (cons a) r)
      end
  end.
(** [get_expressions] *)
Definition get_expressions (table_map : tables_map) (tables : list TableMeta.t) (attributes : list RelAttrSqlNode)
    (aggregations : list AggreSqlNode) : option (RC.t + list Expr.t) :=
  match attributes with
  | [] =>
      map_result (List.map Expr.AggreExpression) <$> create_aggres table_map tables aggregations
  | _ =>
      Some (map_result (List.map (λ i, Expr.FieldExpr (si_field i))) (create_fields table_map tables attributes))
  end.

(** ** [FilterStmt::create_filter_unit]: the types of the two sides *)
(** the values of the sides after the conversions, or the code *)
Definition cast_float (v : Value) : option (RC.t + Value) :=
  '(ok, v) ← Val.type_cast FLOATS v; Some (if ok : bool then inr v else inl RC.FAILURE).
Definition check_sides (l r : Expr.t) : option (RC.t + Expr.t * Expr.t) :=
  lt ← Expr.value_type l;
  rt ← Expr.value_type r;
  if decide (lt = rt) then Some (inr (l, r))
  else
    match l, r with
    | Expr.FieldExpr _, Expr.ValueExpr value =>
        if Val.is_null value then Some (inr (l, r))
        else if decide (lt = DATES ∧ rt = CHARS) then
          check ← convert_string_to_date (Val.data value);
          Some (if decide (check = -1) then inl RC.FAILURE else inr (l, Expr.ValueExpr (Val.set_date check value)))
        else if decide (rt = CHARS) then
          c ← cast_float value;
          Some (match c with inl rc => inl rc | inr value => inr (l, Expr.ValueExpr value) end)
        else Some (inr (l, r))
    | Expr.ValueExpr lv, Expr.ValueExpr rv =>
        if decide (lt = NULLS ∨ rt = NULLS) then Some (inr (l, r))
        else if decide (lt ≠ CHARS ∨ rt ≠ CHARS) then
          cl ← cast_float lv;
          match cl with
          | inl rc => Some (inl rc)
          | inr lv =>
              cr ← cast_float rv;
              Some (match cr with inl rc => inl rc | inr rv => inr (Expr.ValueExpr lv, Expr.ValueExpr rv) end)
          end
        else Some (inr (l, r))
    | _, _ => Some (inr (l, r))
    end.

(** ** ORDER BY *)
Fixpoint create_order (default_table : option TableMeta.t) (tables : tables_map) (orders : list OrderSqlNode)
  : RC.t + list (Field * bool) :=
  match orders with
  | [] => inr []
  | o :: orders =>
      match get_table_and_field default_table tables (relation_name (rel_attr o)) (attribute_name (rel_attr o)) with
      | inl rc => inl rc
      | inr f => match create_order default_table tables orders with inl rc => inl rc | inr l => inr ((f, order_asc o) :: l) end
      end
  end.

(** ** Tables of a statement *)
Fixpoint find_tables (names : list string) : RC.t + tables_map :=
  match names with
  | [] => inr []
  | name :: names =>
      match find_table name with
      | None => inl RC.SCHEMA_TABLE_NOT_EXIST
      | Some table => match find_tables names with inl rc => inl rc | inr l => inr ((name, table) :: l) end
      end
  end.
(** the tables the conditions name, those of a query around this one among them *)
Definition named_table (e : ParseExpr) : list string :=
  match e with ParseFieldExpr table_name _ => if is_empty table_name then [] else [table_name] | _ => [] end.
Definition condition_tables (conditions : list ConditionSqlNode) : list string :=
  conditions ≫= λ c, named_table (cond_left c) ++ named_table (cond_right c).

(** ** [FilterStmt::create], [SelectStmt::create] *)
Section filter.
Context (create_select : SelectSqlNode → ST (RC.t + SelectStmt)).
(** [new SubQueryExpr(select_stmt)] *)
Definition new_subquery (s : SelectStmt) : ST Expr.t :=
  subs ← st_get;
  e ← st_some (head (expressions_ s));
  type ← st_some (Expr.value_type e);
  st_modify (λ subs, subs ++ [s]) ;;;
  mret (Expr.SubQueryExpr (MkSubQuery (length subs) type (if_need_parent_tuple (filter_stmt_ s)) false [])).
Definition create_subquery (q : SelectSqlNode) : ST (RC.t + Expr.t) :=
  s <-? create_select q;; e ← new_subquery s; mret (inr e).
Definition create_side (default_table : option TableMeta.t) (tables : tables_map) (e : ParseExpr) : ST (RC.t + Expr.t) :=
  match e with
  | ParseFieldExpr table_name field_name =>
      mret (match get_table_and_field default_table tables table_name field_name with
            | inl rc => inl rc
            | inr f => inr (Expr.FieldExpr f)
            end)
  | ParseValueExpr v => mret (inr (Expr.ValueExpr v))
  | ParseValueListExpr l => mret (inr (Expr.ValueListExpr l))
  | ParseSubQueryExpr q => create_subquery q
  end.
Definition create_filter_unit (default_table : option TableMeta.t) (tables : tables_map) (condition : ConditionSqlNode)
  : ST (RC.t + FilterUnit) :=
  let 'MkCondition l comp r _ := condition in
  if decide (comp = CompOp.NO_OP) then mret (inl RC.INVALID_ARGUMENT)
  else
    l <-? create_side default_table tables l;;
    r <-? create_side default_table tables r;;
    c ← st_some (check_sides l r);
    mret (match c with inl rc => inl rc | inr (l, r) => inr (MkFilterUnit comp l r) end).
Fixpoint create_units (default_table : option TableMeta.t) (tables : tables_map) (conditions : list ConditionSqlNode)
  : ST (RC.t + list FilterUnit) :=
  match conditions with
  | [] => mret (inr [])
  | c :: conditions =>
      u <-? create_filter_unit default_table tables c;;
      l <-? create_units default_table tables conditions;;
      mret (inr (u :: l))
  end.
(** the second condition tells whether all are alternatives *)
Definition create_filter (default_table : option TableMeta.t) (tables : tables_map) (conditions : list ConditionSqlNode)
  : ST (RC.t + FilterStmt) :=
  units <-? create_units default_table tables conditions;;
  mret (inr (MkFilterStmt units (match conditions with _ :: c :: _ => cond_or c | _ => false end))).
(** The tables that are joined come behind those of the list, their conditions behind those
    of the statement. *)
Definition create_select_node (q : SelectSqlNode) : ST (RC.t + SelectStmt) :=
  let 'MkSelectNode _ _ relations _ joinctions orders := q in
  match find_tables ((at_relation <$> relations) ++ (fst <$> joinctions)) with
  | inl rc => mret (inl rc)
  | inr table_map =>
      let tables := snd <$> table_map in
      match handle_alias q with
      | inl rc => mret (inl rc)
      | inr (MkSelectNode attributes aggregations _ where_conditions _ _) =>
          expressions <-? st_some (get_expressions table_map tables attributes aggregations);;
          let default_table := match tables with [table] => Some table | _ => None end in
          let conditions := where_conditions ++ (joinctions ≫= snd) in
          match find_tables (condition_tables conditions) with
          | inl rc => mret (inl rc)
          | inr outer =>
              let table_map := table_map ++ outer in
              filter <-? create_filter default_table table_map conditions;;
              mret (match create_order default_table table_map orders with
                    | inl rc => inl rc
                    | inr units => inr (MkSelectStmt tables expressions filter units)
                    end)
          end
      end
  end.
End filter.
Fixpoint create_select (fuel : nat) (q : SelectSqlNode) : ST (RC.t + SelectStmt) :=
  match fuel with O => st_nofuel | S fuel => create_select_node (create_select fuel) q end.

(** ** The other statements *)
(** [InsertStmt::create]: the values of a row, converted *)
Fixpoint convert_row (fields : list FieldMeta.t) (values : list Value) : option (RC.t + list Value) :=
  match fields, values with
  | field :: fields, value :: values =>
      let continue v :=
        r ← convert_row fields values; Some (map_result (cons v) r) in
      if Val.is_null value then
        if negb (FieldMeta.nullable field) then Some (inl RC.SCHEMA_FIELD_NOT_NULLABLE) else continue value
      else if decide (FieldMeta.type field ≠ attr_type_ value) then
        if decide (FieldMeta.type field = DATES ∧ attr_type_ value = CHARS) then
          mid ← convert_string_to_date (Val.data value);
          if decide (mid = -1) then Some (inl RC.SCHEMA_FIELD_TYPE_MISMATCH) else continue (Val.set_date mid value)
        else
          '(ok, change) ← Val.type_cast (FieldMeta.type field) value;
          if negb ok then Some (inl RC.SCHEMA_FIELD_TYPE_MISMATCH)
          else if decide (attr_type_ change = TEXTS ∧ length_ change > FieldMeta.len field) then Some (inl RC.SCHEMA_FIELD_TYPE_MISMATCH)
          else continue change
      else continue value
  | _, _ => Some (inr [])
  end.
Fixpoint convert_rows (fields : list FieldMeta.t) (rows : list (list Value)) : option (RC.t + list (list Value)) :=
  match rows with
  | [] => Some (inr [])
  | values :: rows =>
      if decide (length fields ≠ length values) then Some (inl RC.SCHEMA_FIELD_MISSING)
      else
        r ← convert_row fields values;
        match r with
        | inl rc => Some (inl rc)
        | inr values =>
            r ← convert_rows fields rows; Some (map_result (cons values) r)
        end
  end.
Definition create_insert (table_name : string) (values_list : list (list Value)) : option (RC.t + Stmt.t) :=
  match values_list with
  | [] => Some (inl RC.INVALID_ARGUMENT)
  | _ =>
      match find_table table_name with
      | None => Some (inl RC.SCHEMA_TABLE_NOT_EXIST)
      | Some table =>
          r ← convert_rows (TableMeta.user_fields trx_fields table) values_list;
          Some (match r with inl rc => inl rc | inr rows => inr (Stmt.INSERT table rows) end)
      end
  end.
Definition create_delete (fuel : nat) (table_name : string) (conditions : list ConditionSqlNode) : ST (RC.t + Stmt.t) :=
  match find_table table_name with
  | None => mret (inl RC.SCHEMA_TABLE_NOT_EXIST)
  | Some table =>
      filter <-? create_filter (create_select fuel) (Some table) [(table_name, table)] conditions;;
      mret (inr (Stmt.DELETE table filter))
  end.
Fixpoint find_fields (table : TableMeta.t) (names : list string) : RC.t + list FieldMeta.t :=
  match names with
  | [] => inr []
  | name :: names =>
      match TableMeta.field_by_name table name with
      | None => inl RC.SCHEMA_FIELD_NOT_EXIST
      | Some f => match find_fields table names with inl rc => inl rc | inr l => inr (f :: l) end
      end
  end.
(** a field on the right side of an assignment is left out *)
Fixpoint create_exprs (fuel : nat) (l : list ParseExpr) : ST (RC.t + list Expr.t) :=
  match l with
  | [] => mret (inr [])
  | e :: l =>
      es <-? (match e with
              | ParseValueExpr v => mret (inr [Expr.ValueExpr v])
              | ParseValueListExpr vs => mret (inr [Expr.ValueListExpr vs])
              | ParseSubQueryExpr q => e <-? create_subquery (create_select fuel) q;; mret (inr [e])
              | ParseFieldExpr _ _ => mret (inr [])
              end);;
      rest <-? create_exprs fuel l;;
      mret (inr (es ++ rest))
  end.
Definition create_update (fuel : nat) (table_name : string) (attr_list : list string) (expr_list : list ParseExpr)
    (conditions : list ConditionSqlNode) : ST (RC.t + Stmt.t) :=
  match find_table table_name with
  | None => mret (inl RC.SCHEMA_TABLE_NOT_EXIST)
  | Some table =>
      match find_fields table attr_list with
      | inl rc => mret (inl rc)
      | inr field_metas =>
          exprs <-? create_exprs fuel expr_list;;
          filter <-? create_filter (create_select fuel) (Some table) [(table_name, table)] conditions;;
          mret (inr (Stmt.UPDATE table field_metas exprs filter))
      end
  end.
End resolve.
