(* ===== verification/PlanExec.v ===== *)
(** * Physical plans ([sql/optimizer/physical_plan_generator.cpp], [sql/operator/explain_physical_operator.cpp])

    A plan is a tree of the operators; what [open], [next], [close] and [current_tuple] of an
    operator do to it is the dispatch of [Plan.ops], which follows the tree down to a depth.
    [find_index] is [Table::find_index_by_fields] with the fields of the index, [new_char n]
    what the memory of a key holds before it is written, [scanner] the record scanner of a
    new table scan.  A null pointer among the children has no value. *)
From S2P Require Import Prelude RidKey Comparator TableMeta SqlValue Row Expr Rewrite Operators Aggregate OrderScan IndexScan Dml PlanGen.
From Stdlib Require Import ZArith Lia.
From stdpp Require Import base option strings list.
Local Open Scope Z_scope.

(** ** [ExplainPhysicalOperator] *)
Module Explain.
(** [name()], [param()] and [children()] of an operator *)
Inductive tree : Set := Shown (name param : string) (children : list tree).
Record t (C : Type) : Type := mk { children_ : list C; physical_plan_ : string; cells_ : list Value }.
Arguments mk {C}.
Arguments children_ {C}.
Arguments physical_plan_ {C}.
Arguments cells_ {C}.
Definition make {C} (children : list C) : t C := mk children "" [].

Definition newline : string := String (Ascii.ascii_of_nat 10) EmptyString.
(** [ends.resize(n)] when it is shorter, [ends[i] = b], [ends[i]] *)
Definition grow (n : nat) (ends : list bool) : list bool := ends ++ replicate (n - length ends) false.
Fixpoint indent (ends : list bool) (i n : nat) : option string :=
  match n with
  | O => Some ""%string
  | S n => b ← ends !! i; s ← indent ends (S i) n; Some (String.append (if b : bool then "  " else "│ ")%string s)
  end.
(** [to_string]: the text and [ends] afterwards *)
Fixpoint to_string (oper : tree) (level : nat) (last_child : bool) (ends : list bool) : option (string * list bool) :=
  let 'Shown name param children := oper in
  margin ← indent ends 0 (level - 1);
  '(branch, ends) ← match level with
                    | O => Some (""%string, ends)
                    | S i =>
                        if last_child then (if decide (i < length ends)%nat then Some ("└─"%string, <[i := true]> ends) else None)
                        else Some ("├─"%string, ends)
                    end;
  let param := match param with EmptyString => ""%string | _ => String.append "(" (String.append param ")") end in
  let line := String.append margin (String.append branch (String.append name (String.append param newline))) in
  let ends := <[S level := false]> (grow (level + 2) ends) in
  '(rest, ends) ←
    (fix go (children : list tree) (ends : list bool) : option (string * list bool) :=
       match children with
       | [] => Some (""%string, ends)
       | c :: children =>
           '(s, ends) ← to_string c (S level) (match children with [] => true | _ => false end) ends;
           '(rest, ends) ← go children ends;
           Some (String.append s rest, ends)
       end) children ends;
  Some (String.append line rest, ends).
(** the loop of [next] *)
Fixpoint show_children (children : list tree) (ends : list bool) : option string :=
  match children with
  | [] => Some ""%string
  | c :: children =>
      '(s, ends) ← to_string c 0 (match children with [] => true | _ => false end) ends;
      rest ← show_children children ends;
      Some (String.append s rest)
  end.

Section ops.
Context `{!LibText} `{!Uninit} {W C : Type} `{!PhysOps W C} (shown : C → tree).
Definition on_index {A} (i : nat) : ST (W * C) A → ST (W * t C) A :=
  on_part (λ o, children_ o !! i) (λ c o, mk (<[i := c]> (children_ o)) (physical_plan_ o) (cells_ o)).
Definition open : ST (W * t C) RC.t :=
  o ← get_state;
  st_assert (bool_decide (length (children_ o) = 1%nat)) ;;;
  on_index 0 oper_open ;;;
  mret RC.SUCCESS.
Fixpoint close_from (i n : nat) : ST (W * t C) RC.t :=
  match n with
  | O => mret RC.SUCCESS
  | S n => on_index i oper_close ;;; close_from (S i) n
  end.
Definition close : ST (W * t C) RC.t := o ← get_state; close_from 0 (length (children_ o)).
Definition next : ST (W * t C) RC.t :=
  o ← get_state;
  match physical_plan_ o with
  | EmptyString =>
      s ← st_some (show_children (shown <$> children_ o) [true]);
      let plan := String.append (String.append "OPERATOR(NAME)" newline) s in
      cell ← st_some (Val.set_string (Val.c_str (text plan)) 0 Val.new);
      set_state (λ o, mk (children_ o) plan [cell]) ;;;
      mret RC.SUCCESS
  | _ => mret RC.RECORD_EOF
  end.
Definition current_tuple (o : t C) : outcome (option Tuple.t) := Done (Some (Tuple.ValueList (cells_ o))).
Definition ops : PhysOps W (t C) := {|
  oper_open := open; oper_next := next; oper_close := close; oper_current := current_tuple;
  oper_set_parent p o := l ← set_parent_children p (children_ o); Some (mk l (physical_plan_ o) (cells_ o)) |}.
End ops.
End Explain.

(** ** Plans *)
Module Plan.
Section plan.
Context {SC IX SX : Type}.
Inductive t : Type :=
| TABLE_SCAN (o : TableScan.t SC)
| INDEX_SCAN (o : IndexScan.t IX SX)
| NESTED_LOOP_JOIN (o : NestedLoopJoin.t t)
| EXPLAIN (o : Explain.t t)
| PREDICATE (o : Predicate.t t)
| PROJECT (o : Project.t t)
| INSERT (o : Insert.t)
| DELETE (o : Delete.t t)
| UPDATE (o : Update.t t)
| CALC (o : Calc.t)
| ORDER_BY (o : Order.t t)
| AGGREGATION (o : AggreOper.t t).
Definition children (p : t) : list t :=
  match p with
  | NESTED_LOOP_JOIN o => NestedLoopJoin.children_ o
  | EXPLAIN o => Explain.children_ o
  | PREDICATE o => Predicate.children_ o
  | PROJECT o => Project.children_ o
  | DELETE o => Delete.children_ o
  | UPDATE o => Update.children_ o
  | ORDER_BY o => Order.children_ o
  | AGGREGATION o => AggreOper.children_ o
  | TABLE_SCAN _ | INDEX_SCAN _ | INSERT _ | CALC _ => []
  end.
(** [physical_operator_type_name], or the name of the operator itself *)
Definition name (p : t) : string :=
  match p with
  | TABLE_SCAN _ => "TABLE_SCAN"
  | INDEX_SCAN _ => "INDEX_SCAN"
  | NESTED_LOOP_JOIN _ => "NESTED_LOOP_JOIN"
  | EXPLAIN _ => "EXPLAIN"
  | PREDICATE _ => "PREDICATE"
  | PROJECT _ => "PROJECT"
  | INSERT _ => "INSERT"
  | DELETE _ => "DELETE"
  | UPDATE _ => "UPDATE"
  | CALC _ => "CALC"
  | ORDER_BY _ => "ORDER_BY"
  | AGGREGATION _ => "UNKNOWN"
  end.
(** [index_name]: the name of an index *)
Definition param (index_name : IX → string) (p : t) : string :=
  match p with
  | TABLE_SCAN o => TableMeta.name (TableScan.table_ o)
  | INDEX_SCAN o =>
      match IndexScan.index_ o with
      | Some i => String.append (index_name i) (String.append " ON " (TableMeta.name (IndexScan.table_ o)))
      | None => ""
      end
  | _ => ""
  end.
(** the tree below an operator, down to a depth *)
Fixpoint shown (index_name : IX → string) (depth : nat) (p : t) : Explain.tree :=
  Explain.Shown (name p) (param index_name p)
    match depth with O => [] | S depth => shown index_name depth <$> children p end.
(** [set_idx_increase(false)] of an index scan that is the child or its first child *)
Definition stop_increase (p : t) : t := match p with INDEX_SCAN o => INDEX_SCAN (IndexScan.set_idx_increase false o) | _ => p end.
Definition stop_first (l : list t) : list t := match l with [] => [] | c :: l => stop_increase c :: l end.
Definition stay (p : t) : t :=
  match p with
  | INDEX_SCAN _ => stop_increase p
  | NESTED_LOOP_JOIN o => NESTED_LOOP_JOIN (NestedLoopJoin.set_children (stop_first (NestedLoopJoin.children_ o)) o)
  | EXPLAIN (Explain.mk l text cells) => EXPLAIN (Explain.mk (stop_first l) text cells)
  | PREDICATE (Predicate.mk l e parent) => PREDICATE (Predicate.mk (stop_first l) e parent)
  | PROJECT (Project.mk l speces) => PROJECT (Project.mk (stop_first l) speces)
  | DELETE (Delete.mk l table) => DELETE (Delete.mk (stop_first l) table)
  | UPDATE (Update.mk l table fields exprs values invalid unique) =>
      UPDATE (Update.mk (stop_first l) table fields exprs values invalid unique)
  | ORDER_BY (Order.mk l rules inited i tuples) => ORDER_BY (Order.mk (stop_first l) rules inited i tuples)
  | AGGREGATION (AggreOper.mk l started eof a tuple) => AGGREGATION (AggreOper.mk (stop_first l) started eof a tuple)
  | TABLE_SCAN _ | INSERT _ | CALC _ => p
  end.

(** *** The virtual functions *)
Context `{!LibText} `{!Uninit} (trx_fields : option (list FieldMeta.t)).
Context (executor : SubQuery → option Tuple.t → option (RC.t * SubQuery)).
Context {W : Type} `{!ScanOps W SC} `{!IndexScanOps W IX SX} `{!TrxOps W} `{!SortOps}.
Context (malloc : nat → memory) (index_name : IX → string) (fuel : nat).
(** a call on an operator, seen as a plan *)
Definition at_oper {T A} (inj : T → t) (c : ST (W * T) A) (o : T) : W → outcome (A * (W * t)) := λ w,
  match c (w, o) with Done (a, (w, o)) => Done (a, (w, inj o)) | Crash => Crash | OutOfFuel => OutOfFuel end.
(** [f]: what to do with an operator of a class of operators *)
Definition dispatch (O : PhysOps W t) {R : Type} (f : ∀ T, PhysOps W T → (T → t) → T → R) (p : t) : R :=
  match p with
  | TABLE_SCAN o => f _ (TableScan.ops trx_fields executor fuel) TABLE_SCAN o
  | INDEX_SCAN o => f _ (IndexScan.ops trx_fields executor fuel) INDEX_SCAN o
  | NESTED_LOOP_JOIN o => f _ NestedLoopJoin.ops NESTED_LOOP_JOIN o
  | EXPLAIN o => f _ (Explain.ops (shown index_name fuel)) EXPLAIN o
  | PREDICATE o => f _ (Predicate.ops trx_fields executor fuel) PREDICATE o
  | PROJECT o => f _ Project.ops PROJECT o
  | INSERT o => f _ (Insert.ops trx_fields malloc) INSERT o
  | DELETE o => f _ (Delete.ops stay fuel) DELETE o
  | UPDATE o => f _ (Update.ops trx_fields (λ q, executor q None) fuel) UPDATE o
  | CALC o => f _ Calc.ops CALC o
  | ORDER_BY o => f _ (Order.ops trx_fields fuel) ORDER_BY o
  | AGGREGATION o => f _ (AggreOper.ops trx_fields fuel) AGGREGATION o
  end.
Fixpoint ops (depth : nat) : PhysOps W t :=
  match depth with
  | O => {| oper_open := st_nofuel; oper_next := st_nofuel; oper_close := st_nofuel;
            oper_current _ := OutOfFuel; oper_set_parent _ _ := None |}
  | S depth =>
      let O := ops depth in
      {| oper_open := λ '(w, p), dispatch O (λ T OT inj o, at_oper inj (@oper_open W T OT) o w) p;
         oper_next := λ '(w, p), dispatch O (λ T OT inj o, at_oper inj (@oper_next W T OT) o w) p;
         oper_close := λ '(w, p), dispatch O (λ T OT inj o, at_oper inj (@oper_close W T OT) o w) p;
         oper_current p := dispatch O (λ T OT inj o, @oper_current W T OT o) p;
         oper_set_parent tuple p := dispatch O (λ T OT inj o, inj <$> @oper_set_parent W T OT tuple o) p |}
  end.
End plan.
Arguments t : clear implicits.
End Plan.

(** ** [PhysicalPlanGenerator] *)
Module PhysicalPlanGenerator.
Import Expr.
Section generator.
Context `{!LibText} `{!Uninit} {SC IX SX : Type}.
Context (find_index : TableMeta.t → list string → option (IX * list FieldMeta.t)).
Context (new_char : nat → memory) (scanner : TableMeta.t → SC).
(** [name()] of an expression, which the parser gives it *)
Context (expr_name : Expr.t → string).
Abbreviation plan := (Plan.t SC IX SX).

(** a comparison that an index may answer: its field and its value *)
Definition index_term (e : Expr.t) : option (Field * Value) :=
  match e with
  | ComparisonExpr CompOp.EQUAL_TO (FieldExpr f) (ValueExpr v) => Some (f, v)
  | ComparisonExpr CompOp.EQUAL_TO (ValueExpr v) (FieldExpr f) => Some (f, v)
  | _ => None
  end.
Definition index_terms (predicates : list Expr.t) : list (Field * Value) := omap index_term predicates.
(** [len], and the values copied into [ukey] *)
Definition key_length (field_metas : list FieldMeta.t) : Z :=
  foldl (λ len f, Z.max len (FieldMeta.offset f + FieldMeta.len f)) 0 field_metas.
Fixpoint write_key (field_metas : list FieldMeta.t) (terms : list (Field * Value)) (ukey : memory) : option memory :=
  match terms with
  | [] => Some ukey
  | (f, value) :: terms =>
      target ← List.find (λ m, bool_decide (FieldMeta.name m = fd_field_name f)) field_metas;
      bytes ← load_bytes 0 (Z.to_nat (FieldMeta.len target)) (Val.data value);
      ukey ← store_bytes (Z.to_nat (FieldMeta.offset target)) bytes ukey;
      write_key field_metas terms ukey
  end.
(** [create_plan(TableGetLogicalOperator)]; [value_expr] is the value of the last term *)
Definition table_get_plan (table : TableMeta.t) (readonly : bool) (predicates : list Expr.t) : option plan :=
  let terms := index_terms predicates in
  let value_expr := snd <$> last terms in
  let index := find_index table ((λ t, fd_field_name t.1) <$> terms) in
  let index := match value_expr with Some v => if Val.is_null v then None else index | None => index end in
  match index with
  | Some (index, field_metas) =>
      _ ← value_expr;
      let len := Z.to_nat (key_length field_metas) in
      ukey ← write_key field_metas terms (new_char len);
      Some (Plan.INDEX_SCAN (IndexScan.make table (Some index) readonly ukey len true ukey len true predicates))
  | None => Some (Plan.TABLE_SCAN (TableScan.make table readonly predicates (scanner table)))
  end.
(** a pointer that is given to [add_child] *)
Definition child_of (r : RC.t + option plan) (k : plan → option (RC.t + option plan)) : option (RC.t + option plan) :=
  match r with inl rc => Some (inl rc) | inr (Some p) => k p | inr None => None end.
(** one that is tested before *)
Definition children_of (p : option plan) : list plan := match p with Some p => [p] | None => [] end.
(** The first of the children, if there is one: the other children are dropped. *)
Definition first_child (create : Logical.t → option (RC.t + option plan)) (children : list Logical.t)
    (k : list plan → option plan) : option (RC.t + option plan) :=
  match children with
  | [] => p ← k []; Some (inr (Some p))
  | c :: _ =>
      r ← create c;
      match r with inl rc => Some (inl rc) | inr p => p ← k (children_of p); Some (inr (Some p)) end
  end.
Fixpoint create (oper : Logical.t) : option (RC.t + option plan) :=
  let 'Logical.Node type expressions child_opers := oper in
  match type with
  | Logical.CALC => Some (inr (Some (Plan.CALC (Calc.mk ((λ e, (expr_name e, e)) <$> expressions) false))))
  | Logical.TABLE_GET table readonly predicates => p ← table_get_plan table readonly predicates; Some (inr (Some p))
  | Logical.PREDICATE =>
      match child_opers, expressions with
      | [child_oper], [expression] =>
          r ← create child_oper;
          child_of r (λ p, o ← Predicate.make expression [p]; Some (inr (Some (Plan.PREDICATE o))))
      | _, _ => None
      end
  | Logical.PROJECTION expres =>
      first_child create child_opers (λ l, speces ← mapM Project.projection expres; Some (Plan.PROJECT (Project.mk l speces)))
  | Logical.INSERT table values_list => Some (inr (Some (Plan.INSERT (Insert.mk table values_list))))
  | Logical.UPDATE table field_metas expr_list =>
      first_child create child_opers (λ l, Some (Plan.UPDATE (Update.make table field_metas expr_list l)))
  | Logical.DELETE table => first_child create child_opers (λ l, Some (Plan.DELETE (Delete.mk l table)))
  | Logical.EXPLAIN =>
      (fix go (child_opers : list Logical.t) (children : list plan) : option (RC.t + option plan) :=
         match child_opers with
         | [] => Some (inr (Some (Plan.EXPLAIN (Explain.make children))))
         | c :: child_opers => r ← create c; child_of r (λ p, go child_opers (children ++ [p]))
         end) child_opers []
  | Logical.JOIN =>
      match child_opers with
      | [l; r] =>
          l ← create l;
          child_of l (λ l, r ← create r; child_of r (λ r, Some (inr (Some (Plan.NESTED_LOOP_JOIN (NestedLoopJoin.make [l; r]))))))
      | _ => Some (inl RC.INTERNAL)
      end
  | Logical.ORDER_BY order_units =>
      match child_opers with
      | [] => Some (inr None)
      | _ => first_child create child_opers (λ l, Some (Plan.ORDER_BY (Order.make order_units l)))
      end
  | Logical.AGGREGATION aggre_expressions =>
      if decide (1 < length child_opers)%nat then None
      else first_child create child_opers (λ l, Some (Plan.AGGREGATION (AggreOper.make aggre_expressions l)))
  end.

(** ** [OptimizeStage::handle_request]: from a statement to its physical plan *)
Definition plan_statement (passes : nat) (stmt : Stmt.t) : outcome (RC.t + option plan) :=
  outcome_bind (from_option_crash (LogicalPlanGenerator.create stmt)) (λ r,
    match r with
    | inl rc => Done (inl rc)
    | inr oper => outcome_bind (optimize_rewrite passes oper) (λ oper, from_option_crash (create oper))
    end).
End generator.
End PhysicalPlanGenerator.
