(* ===== verification/OperatorsCorrect.v ===== *)
(** * Physical operators: what they produce

    [executes w R Q l]: from a state [R] an operator opens, [next] gives the tuples [l] one
    by one and then the end, in a state [Q]; it can be closed after each of them.  The
    operators are proved against this promise of their children. *)
From S2P Require Import Prelude RidKey Comparator TableMeta SqlValue Row Expr Rewrite RewriteCorrect Operators.
From Stdlib Require Import ZArith Lia.
From stdpp Require Import base option strings list.
Local Open Scope Z_scope.

Section promise.
Context {W C : Type} (O : PhysOps W C) (w : W).

Definition closes (c : C) : Prop := ∃ c', oper_close (w, c) = Done (RC.SUCCESS, (w, c')).
Definition rewinds (R : C → Prop) (c : C) : Prop := ∃ c', oper_close (w, c) = Done (RC.SUCCESS, (w, c')) ∧ R c'.
Inductive yields (Q : C → Prop) : C → list Tuple.t → Prop :=
| yields_nil c c' : oper_next (w, c) = Done (RC.RECORD_EOF, (w, c')) → Q c' → yields Q c []
| yields_cons c c' tuple l :
    oper_next (w, c) = Done (RC.SUCCESS, (w, c')) → oper_current c' = Done (Some tuple) → closes c' →
    yields Q c' l → yields Q c (tuple :: l).
Definition executes (R Q : C → Prop) (l : list Tuple.t) : Prop :=
  ∀ c, R c → ∃ c1, oper_open (w, c) = Done (RC.SUCCESS, (w, c1)) ∧ yields Q c1 l.
(** an operator that can be opened again after the last tuple, and one for a single use *)
Definition runs (R : C → Prop) (l : list Tuple.t) : Prop := executes R (rewinds R) l.
Definition once (R : C → Prop) (l : list Tuple.t) : Prop := executes R closes l.

Lemma rewinds_closes R c : rewinds R c → closes c.
Proof. intros (c' & Hc & _). by exists c'. Qed.
Lemma yields_mono Q Q' c l : (∀ c, Q c → Q' c) → yields Q c l → yields Q' c l.
Proof. intros HQ. induction 1; [econstructor; by eauto|by econstructor]. Qed.
Lemma runs_once R l : runs R l → once R l.
Proof.
  intros H c Hc. destruct (H c Hc) as (c1 & Ho & Hy). exists c1. split; [done|].
  eapply yields_mono; [|exact Hy]. apply rewinds_closes.
Qed.
End promise.
Arguments closes {W C} O w c.
Arguments rewinds {W C} O w R c.
Arguments yields {W C} O w Q c l.

#[local] Arguments eval_predicate : simpl never.
(** the monad unfolded *)
Ltac st_cbn := unfold mbind, ST_bind, mret, ST_ret, get_state, set_state, st_some, lift_outcome, on_part; cbn.
Ltac rc_cbn := cbn; repeat change (RC.succ RC.SUCCESS) with true; cbn.
Lemma bind_done {S A B} (c : ST S A) (k : A → ST S B) s a s' : c s = Done (a, s') → (c ≫= k) s = k a s'.
Proof. intros Hc. unfold mbind, ST_bind. by rewrite Hc. Qed.
Lemma bind_get {W O B} (k : O → ST (W * O) B) w o : (get_state ≫= k) (w, o) = k o (w, o).
Proof. done. Qed.
Lemma bind_set {W O B} (f : O → O) (k : () → ST (W * O) B) w o : (set_state f ≫= k) (w, o) = k () (w, f o).
Proof. done. Qed.
Lemma bind_mret {S A B} (a : A) (k : A → ST S B) s : (mret a ≫= k) s = k a s.
Proof. done. Qed.
(** a step of a child, seen from its parent *)
Lemma on_part_done {W C T A} (get : T → option C) (put : C → T → T) (c : ST (W * C) A) w o x a x' :
  get o = Some x → c (w, x) = Done (a, (w, x')) → on_part get put c (w, o) = Done (a, (w, put x' o)).
Proof. intros Hg Hc. cbn. by rewrite Hg, Hc. Qed.

(** ** Projection *)
Ltac project_step :=
  cbn; unfold Project.open, Project.next, Project.close, Project.current_tuple, Project.on_child; st_cbn.
Section project.
Context {W C : Type} (O : PhysOps W C) (w : W).
Abbreviation OP := (Project.ops (W := W) (C := C)).
Definition project_state (speces : list TupleCellSpec) (Q : C → Prop) (o : Project.t C) : Prop :=
  ∃ c, o = Project.mk [c] speces ∧ Q c.
Definition project_tuple (speces : list TupleCellSpec) (tuple : Tuple.t) : Tuple.t :=
  Tuple.Project speces (Some tuple).

Lemma project_closes speces c : closes O w c → closes OP w (Project.mk [c] speces).
Proof. intros (c' & Hc). eexists. project_step. by rewrite Hc. Qed.
Lemma project_rewinds speces R o :
  project_state speces (rewinds O w R) o → rewinds OP w (project_state speces R) o.
Proof.
  intros (c & -> & c' & Hc & HR). eexists. split; [project_step; by rewrite Hc|]. by exists c'.
Qed.
Lemma project_yields speces Q c l :
  yields O w Q c l → yields OP w (project_state speces Q) (Project.mk [c] speces) (project_tuple speces <$> l).
Proof.
  induction 1 as [c c' Hn HQ|c c' tuple l Hn Hcur Hcl Hy IH].
  - econstructor; [project_step; by rewrite Hn|]. by exists c'.
  - cbn [fmap list_fmap]. econstructor; [project_step; by rewrite Hn|project_step; by rewrite Hcur|by apply project_closes|exact IH].
Qed.
Lemma project_executes speces R Q l :
  executes O w R Q l →
  executes OP w (project_state speces R) (project_state speces Q) (project_tuple speces <$> l).
Proof.
  intros H o (c & -> & HR). destruct (H c HR) as (c1 & Ho & Hy). exists (Project.mk [c1] speces).
  split; [project_step; by rewrite Ho|]. by apply project_yields.
Qed.
(** Without a child, as the rewriter leaves a plan whose predicate is false. *)
Lemma project_no_child speces :
  runs OP w (λ o, o = Project.mk [] speces) [].
Proof. intros o ->. eexists. split; [done|]. eapply yields_nil; [done|]. by eexists. Qed.
End project.

(** ** Predicates *)
(** where clauses without subqueries *)
Definition no_subquery (e : Expr.t) : bool := match e with Expr.SubQueryExpr _ => false | _ => true end.
Fixpoint plain (e : Expr.t) : bool :=
  match e with
  | Expr.ConjunctionExpr _ cs => forallb plain cs
  | Expr.ComparisonExpr _ l r | Expr.InExpr l _ r => no_subquery l && no_subquery r
  | Expr.ExistsExpr _ _ | Expr.SubQueryExpr _ => false
  | _ => true
  end.
Lemma do_expr_plain executor e tuple : plain e = true → do_expr executor e tuple = Some (RC.SUCCESS, e).
Proof.
  induction e as [| | |op l r _ _|ty cs Hcs| | | | |l op r _ _| |] using Expr.expr_ind; try done; cbn [plain do_expr].
  - intros [Hl Hr]%andb_prop. unfold do_comparison_expr. by destruct l; try done; destruct r.
  - intros Hp. match goal with |- context [(?f cs RC.SUCCESS)] => set (go := f) end.
    assert (go cs RC.SUCCESS = Some (RC.SUCCESS, cs)) as ->; [|done].
    induction Hcs as [|c cs Hc Hcs IH]; [done|]. cbn in Hp. apply andb_prop in Hp as [Hpc Hp].
    cbn [go]. specialize (Hc Hpc). specialize (IH Hp). fold go.
    destruct c; try done; rewrite ?Hc; cbn [mbind option_bind]; by rewrite IH.
  - intros [Hl Hr]%andb_prop. unfold do_in_expr. by destruct l; try done; destruct r.
Qed.

#[local] Arguments do_expr : simpl never.
Section predicate.
Context `{!LibText} `{!Uninit} (trx_fields : option (list FieldMeta.t)).
Context (executor : SubQuery → option Tuple.t → option (RC.t * SubQuery)).
Context {W C : Type} (O : PhysOps W C) (w : W) (fuel : nat).
Context (e : Expr.t) (He : plain e = true) (parent : option Tuple.t).
Abbreviation OP := (Predicate.ops trx_fields executor fuel).
Abbreviation result tuple := (pred_result trx_fields (with_parent parent tuple) e).
Abbreviation keep tuple := (holds trx_fields (with_parent parent tuple) e).
Definition predicate_state (Q : C → Prop) (o : Predicate.t C) : Prop := ∃ c, o = Predicate.mk [c] e parent ∧ Q c.
(** the predicate can be evaluated on the tuples *)
Definition decided (l : list Tuple.t) : Prop := Forall (λ tuple, ∃ b, result tuple = Some (inr b)) l.

Lemma predicate_closes c : closes O w c → closes OP w (Predicate.mk [c] e parent).
Proof. intros (c' & Hc). eexists. cbn. unfold Predicate.close, Predicate.on_child. st_cbn. by rewrite Hc. Qed.
Lemma predicate_rewinds R o : predicate_state (rewinds O w R) o → rewinds OP w (predicate_state R) o.
Proof.
  intros (c & -> & c' & Hc & HR). eexists. split; [cbn; unfold Predicate.close, Predicate.on_child; st_cbn; by rewrite Hc|]. by exists c'.
Qed.

Lemma eval_predicate_holds tuple b :
  pred_result trx_fields tuple e = Some (inr b) →
  ∃ v, eval_predicate trx_fields tuple e Val.new = Some (RC.SUCCESS, v, b) ∧ holds trx_fields tuple e = b.
Proof.
  intros Hr. unfold holds. rewrite Hr. unfold pred_result, pred_of in Hr. unfold eval_predicate.
  destruct (get_value trx_fields tuple e Val.new) as [[rc v]|]; [|done]. cbn in *.
  destruct (RC.succ rc) eqn:Hs; [|done]. apply bool_decide_eq_true_1 in Hs as ->.
  destruct (Val.get_boolean v) as [b'|]; [|done]. injection Hr as ->. exists v. split; [done|]. by destruct b.
Qed.
(** One call of [next]: it goes on to the next tuple the predicate holds of. *)
Lemma predicate_next Q n c l :
  yields O w Q c l → decided l → (length l < n)%nat →
  match List.filter (λ t, keep t) l with
  | [] => ∃ c', Predicate.next_loop trx_fields executor n (w, Predicate.mk [c] e parent) =
      Done (RC.RECORD_EOF, (w, Predicate.mk [c'] e parent)) ∧ Q c'
  | tuple :: rest => ∃ c' l', Predicate.next_loop trx_fields executor n (w, Predicate.mk [c] e parent) =
      Done (RC.SUCCESS, (w, Predicate.mk [c'] e parent)) ∧ oper_current c' = Done (Some tuple) ∧ closes O w c' ∧
      yields O w Q c' l' ∧ List.filter (λ t, keep t) l' = rest ∧ (length l' < length l)%nat ∧ decided l'
  end.
Proof.
  intros Hy. revert n. induction Hy as [c c' Hn HQ|c c' tuple l Hn Hcur Hcl Hy IH]; intros n Hd Hlen;
    (destruct n as [|n]; [lia|]).
  - exists c'. split; [|done]. cbn [Predicate.next_loop]. unfold Predicate.on_child. st_cbn. by rewrite Hn.
  - inversion_clear Hd as [|? ? [b Hb] Hd']. cbn [List.filter].
    destruct (eval_predicate_holds _ _ Hb) as (v & Hev & Hh). rewrite Hh.
    assert (Predicate.next_loop trx_fields executor (S n) (w, Predicate.mk [c] e parent) =
      if b then Done (RC.SUCCESS, (w, Predicate.mk [c'] e parent))
      else Predicate.next_loop trx_fields executor n (w, Predicate.mk [c'] e parent)) as ->.
    { cbn [Predicate.next_loop]. unfold Predicate.on_child. st_cbn. rewrite Hn. rc_cbn. rewrite Hcur. rc_cbn.
      rewrite (do_expr_plain executor e _ He). rc_cbn. rewrite Hev. rc_cbn. by destruct b. }
    destruct b.
    + exists c', l. split_and!; [done|done|done|done|done|cbn; lia|done].
    + cbn in Hlen. specialize (IH n Hd' ltac:(lia)).
      destruct (List.filter _ l) as [|t rest]; [exact IH|].
      destruct IH as (c2 & l' & H1 & H2 & H3 & H4 & H5 & H6 & H7). exists c2, l'. split_and!; try done. cbn. lia.
Qed.
Lemma predicate_yields Q c l :
  yields O w Q c l → decided l → (length l < fuel)%nat →
  yields OP w (predicate_state Q) (Predicate.mk [c] e parent) (List.filter (λ t, keep t) l).
Proof.
  remember (length l) as n eqn:Hn. revert c l Hn. induction n as [n IH] using lt_wf_ind. intros c l -> Hy Hd Hlen.
  pose proof (predicate_next Q fuel c l Hy Hd Hlen) as Hnext. destruct (List.filter _ l) as [|t rest].
  - destruct Hnext as (c' & Hn & HQ). econstructor; [exact Hn|]. by exists c'.
  - destruct Hnext as (c' & l' & Hn & Hcur & Hcl & Hy' & <- & Hlt & Hd').
    econstructor; [exact Hn|exact Hcur|by apply predicate_closes|]. apply (IH (length l')); [done|done|done|done|lia].
Qed.
Lemma predicate_executes R Q l :
  executes O w R Q l → decided l → (length l < fuel)%nat →
  executes OP w (predicate_state R) (predicate_state Q) (List.filter (λ t, keep t) l).
Proof.
  intros Hex Hd Hlen o (c & -> & HR). destruct (Hex c HR) as (c1 & Ho & Hy). exists (Predicate.mk [c1] e parent).
  split; [|by apply predicate_yields]. cbn. unfold Predicate.open, Predicate.on_child. st_cbn.
  case_decide as Hlen1; [by destruct Hlen1|]. cbn. rewrite Ho. cbn.
  by rewrite (do_expr_plain executor e _ He).
Qed.
End predicate.

(** * The nested loop join: the product of its children

    The left child is read once, the right child once for each of its tuples.  When the
    right child is empty the join ends at the first tuple of the left child, which is then
    closed before its end. *)
Definition product (ll lr : list Tuple.t) : list Tuple.t := x ← ll; y ← lr; [Tuple.Joined x y].
Lemma product_cons x ll lr : product (x :: ll) lr = (Tuple.Joined x <$> lr) ++ product ll lr.
Proof.
  unfold product. rewrite bind_cons. f_equal.
Qed.
Lemma product_nil_r ll : product ll [] = [].
Proof. induction ll as [|x ll IH]; [done|]. by rewrite product_cons, IH. Qed.

Section join.
Context {W C : Type} (O : PhysOps W C) (w : W) (Rl Ql Rr : C → Prop) (ll lr : list Tuple.t).
Context (Hleft : executes O w Rl Ql ll) (Hright : runs O w Rr lr).
Abbreviation OJ := (NestedLoopJoin.ops (W := W) (C := C)).
Import NestedLoopJoin.

(** the right child between two rounds *)
Definition between (closed : bool) (cr : C) : Prop := if closed then Rr cr else rewinds O w Rr cr.
Definition join_start (o : NestedLoopJoin.t C) : Prop :=
  ∃ cl cr x y rd rc, o = mk [cl; cr] x y rd rc ∧ Rl cl ∧ Rr cr.
Definition join_end (o : NestedLoopJoin.t C) : Prop :=
  ∃ cl cr x y closed, o = mk [cl; cr] x y true closed ∧ (Ql cl ∨ lr = [] ∧ closes O w cl) ∧ between closed cr.

Ltac join_step :=
  cbn; unfold open, left_next, start_round, right_next, next, close, current_of, on_left, on_right, on_index,
    set_children, set_left, set_right, set_round_done, set_right_closed; st_cbn.

Lemma between_closes closed cr : between closed cr → closed = true ∨ closes O w cr.
Proof. destruct closed; cbn; [by left|]. intros H%rewinds_closes. by right. Qed.
Lemma join_closes cl cr x y rd closed :
  closes O w cl → closed = true ∨ closes O w cr → closes OJ w (mk [cl; cr] x y rd closed).
Proof.
  intros [cl' Hl] Hr. unfold closes. join_step. rewrite Hl. cbn. destruct closed; cbn; [by eexists|].
  destruct Hr as [?|[cr' Hr]]; [done|]. rewrite Hr. rc_cbn. by eexists.
Qed.
Lemma on_left_done {A} (c : ST (W * C) A) a cl cl' cr x y rd rc :
  c (w, cl) = Done (a, (w, cl')) → on_left c (w, mk [cl; cr] x y rd rc) = Done (a, (w, mk [cl'; cr] x y rd rc)).
Proof. intros Hc. exact (on_part_done _ _ c w (mk [cl; cr] x y rd rc) cl a cl' eq_refl Hc). Qed.
Lemma on_right_done {A} (c : ST (W * C) A) a cl cr cr' x y rd rc :
  c (w, cr) = Done (a, (w, cr')) → on_right c (w, mk [cl; cr] x y rd rc) = Done (a, (w, mk [cl; cr'] x y rd rc)).
Proof. intros Hc. exact (on_part_done _ _ c w (mk [cl; cr] x y rd rc) cr a cr' eq_refl Hc). Qed.
Lemma left_next_spec cl cr x y closed l :
  yields O w Ql cl l →
  match l with
  | [] => ∃ cl', left_next (w, mk [cl; cr] x y true closed) = Done (RC.RECORD_EOF, (w, mk [cl'; cr] x y true closed)) ∧ Ql cl'
  | t :: l' => ∃ cl', left_next (w, mk [cl; cr] x y true closed) = Done (RC.SUCCESS, (w, mk [cl'; cr] (Some t) y true closed)) ∧
      closes O w cl' ∧ yields O w Ql cl' l'
  end.
Proof.
  intros Hy. destruct Hy as [c c' Hn HQ|c c' t l Hn Hcur Hcl Hy]; exists c'; (split; [|done]); unfold left_next; rewrite (bind_done _ _ _ _ _ (on_left_done _ _ _ _ _ _ _ _ _ Hn)); rc_cbn.
  - done.
  - join_step. by rewrite Hcur.
Qed.
Lemma start_round_idle cl cr x y rc :
  start_round (w, mk [cl; cr] x y false rc) = Done (RC.SUCCESS, (w, mk [cl; cr] x y false rc)).
Proof. done. Qed.
Lemma right_step cl cr x y l :
  yields O w (rewinds O w Rr) cr l →
  match l with
  | [] => ∃ cr', right_next (w, mk [cl; cr] x y false false) = Done (RC.RECORD_EOF, (w, mk [cl; cr'] x y true false)) ∧
      rewinds O w Rr cr'
  | t :: l' => ∃ cr', right_next (w, mk [cl; cr] x y false false) = Done (RC.SUCCESS, (w, mk [cl; cr'] x (Some t) false false)) ∧
      closes O w cr' ∧ yields O w (rewinds O w Rr) cr' l'
  end.
Proof.
  intros Hy. destruct Hy as [c c' Hn HQ|c c' t l Hn Hcur Hcl Hy]; exists c'; (split; [|done]); unfold right_next;
    rewrite (bind_done _ _ _ _ _ (start_round_idle _ _ _ _ _)); change (RC.succ RC.SUCCESS) with true; cbv iota;
    rewrite (bind_done _ _ _ _ _ (on_right_done _ _ _ _ _ _ _ _ _ Hn)); rc_cbn.
  - join_step. done.
  - join_step. by rewrite Hcur.
Qed.
Lemma start_round_spec cl cr x y closed :
  between closed cr →
  ∃ cr', right_next (w, mk [cl; cr] x y true closed) = right_next (w, mk [cl; cr'] x y false false) ∧
    yields O w (rewinds O w Rr) cr' lr.
Proof.
  intros Hb. assert (∃ c1, Rr c1 ∧ (closed = true ∧ c1 = cr ∨ closed = false ∧ oper_close (w, cr) = Done (RC.SUCCESS, (w, c1))))
    as (c1 & HR & Hc1).
  { destruct closed; cbn in Hb; [exists cr; split; [done|by left]|]. destruct Hb as (c1 & Hc & HR). exists c1. split; [done|by right]. }
  destruct (Hright c1 HR) as (cr' & Ho & Hy). exists cr'. split; [|done].
  assert (start_round (w, mk [cl; cr] x y true closed) = Done (RC.SUCCESS, (w, mk [cl; cr'] x y false false))) as Hs.
  { unfold start_round. rewrite bind_get. cbn [round_done_ right_closed_].
    destruct Hc1 as [[-> ->]|[-> Hc]]; cbn [negb].
    - rewrite bind_mret. change (negb (RC.succ RC.SUCCESS)) with false. cbv iota.
      by rewrite (bind_done _ _ _ _ _ (on_right_done _ _ _ _ _ _ _ _ _ Ho)).
    - erewrite bind_done by (rewrite (bind_done _ _ _ _ _ (on_right_done _ _ _ _ _ _ _ _ _ Hc)); reflexivity).
      change (negb (RC.succ RC.SUCCESS)) with false. cbv iota. unfold set_right_closed. cbn [children_ left_tuple_ right_tuple_ round_done_].
      by rewrite (bind_done _ _ _ _ _ (on_right_done _ _ _ _ _ _ _ _ _ Ho)). }
  unfold right_next. by rewrite (bind_done _ _ _ _ _ Hs), (bind_done _ _ _ _ _ (start_round_idle _ _ _ _ _)).
Qed.

Lemma yields_same Q o1 o2 l :
  oper_next (PhysOps := OJ) (w, o1) = oper_next (PhysOps := OJ) (w, o2) → yields OJ w Q o2 l → yields OJ w Q o1 l.
Proof. intros Heq Hy. destruct Hy; [eapply yields_nil|eapply yields_cons]; try done; by rewrite Heq. Qed.

Lemma in_round x l lr' cl cr y :
  (∀ cl cr x y closed, yields O w Ql cl l → between closed cr →
     yields OJ w join_end (mk [cl; cr] x y true closed) (product l lr)) →
  yields O w (rewinds O w Rr) cr lr' → yields O w Ql cl l → closes O w cl →
  yields OJ w join_end (mk [cl; cr] (Some x) y false false) ((Tuple.Joined x <$> lr') ++ product l lr).
Proof.
  intros Hrest. revert cr y. induction lr' as [|t lr' IH]; intros cr y Hr Hl Hcl.
  - destruct (right_step cl cr (Some x) y [] Hr) as (cr' & Hn & HR).
    apply (yields_same _ _ (mk [cl; cr'] (Some x) y true false)); [|by apply Hrest].
    cbn [oper_next NestedLoopJoin.ops]. unfold next, mbind at 1 4, ST_bind at 1 4, get_state at 1 2. cbn [round_done_].
    unfold mbind at 1, ST_bind at 1. rewrite Hn. done.
  - destruct (right_step cl cr (Some x) y _ Hr) as (cr' & Hn & Hcr & Hr').
    cbn [fmap list_fmap app]. apply yields_cons with (mk [cl; cr'] (Some x) (Some t) false false).
    + cbn [oper_next NestedLoopJoin.ops]. unfold next, mbind at 1, ST_bind at 1, get_state at 1. cbn [round_done_].
      unfold mbind at 1, ST_bind at 1. rewrite Hn. done.
    + done.
    + apply join_closes; [done|by right].
    + by apply IH.
Qed.
Lemma rounds l cl cr x y closed :
  yields O w Ql cl l → between closed cr →
  yields OJ w join_end (mk [cl; cr] x y true closed) (product l lr).
Proof.
  revert cl cr x y closed. induction l as [|t l IH]; intros cl cr x y closed Hl Hb.
  - destruct (left_next_spec cl cr x y closed [] Hl) as (cl' & Hn & HQ). apply yields_nil with (mk [cl'; cr] x y true closed).
    + cbn [oper_next NestedLoopJoin.ops]. unfold next, mbind at 1, ST_bind at 1, get_state at 1. cbn [round_done_].
      unfold mbind at 1, ST_bind at 1. by rewrite Hn.
    + exists cl', cr, x, y, closed. split_and!; [done|by left|done].
  - destruct (left_next_spec cl cr x y closed _ Hl) as (cl' & Hn & Hcl & Hl').
    destruct (start_round_spec cl' cr (Some t) y closed Hb) as (cr' & Hs & Hr).
    assert (oper_next (PhysOps := OJ) (w, mk [cl; cr] x y true closed) = right_next (w, mk [cl'; cr'] (Some t) y false false)) as Hnext.
    { cbn [oper_next NestedLoopJoin.ops]. unfold next, mbind at 1, ST_bind at 1, get_state at 1. cbn [round_done_].
      unfold mbind at 1, ST_bind at 1. rewrite Hn. change (RC.succ RC.SUCCESS) with true. cbv iota. done. }
    pose proof (right_step cl' cr' (Some t) y lr Hr) as Hstep. rewrite product_cons. destruct lr as [|u lr'] eqn:Elr.
    + destruct Hstep as (c2 & H2 & HR). rewrite product_nil_r.
      apply yields_nil with (mk [cl'; c2] (Some t) y true false); [by rewrite Hnext|].
      exists cl', c2, (Some t), y, false. split_and!; [done|right; by rewrite Elr|done].
    + destruct Hstep as (c2 & H2 & Hc2 & Hy2). cbn [fmap list_fmap app].
      apply yields_cons with (mk [cl'; c2] (Some t) (Some u) false false); [by rewrite Hnext|done| |].
      * apply join_closes; [done|by right].
      * rewrite <-Elr. apply in_round; [|done|done|done]. rewrite Elr. exact IH.
Qed.
Lemma join_executes : executes OJ w join_start join_end (product ll lr).
Proof.
  intros o (cl & cr & x & y & rd & rc & -> & HRl & HRr). destruct (Hleft cl HRl) as (cl1 & Ho & Hy).
  exists (mk [cl1; cr] x y true true). split; [|by apply rounds]. join_step. case_decide as Hlen; [by destruct Hlen|].
  cbn. by rewrite Ho.
Qed.
Lemma join_end_closes o : (∀ c, Ql c → closes O w c) → join_end o → closes OJ w o.
Proof.
  intros HQ (cl & cr & x & y & closed & -> & Hl & Hb). apply join_closes; [|by apply between_closes].
  destruct Hl as [?|[_ ?]]; [by apply HQ|done].
Qed.
End join.

(** A join whose right child is not empty can be opened again. *)
Lemma join_rewinds {W C : Type} (O : PhysOps W C) w Rl Rr lr o :
  lr ≠ [] → join_end O w (rewinds O w Rl) Rr lr o → rewinds NestedLoopJoin.ops w (join_start Rl Rr) o.
Proof.
  intros Hne (cl & cr & x & y & closed & -> & [(cl' & Hl & HR)|[? _]] & Hb); [|done]. unfold rewinds. cbn.
  unfold NestedLoopJoin.close, NestedLoopJoin.on_left, NestedLoopJoin.on_right, NestedLoopJoin.on_index,
    NestedLoopJoin.set_children, NestedLoopJoin.set_right_closed. st_cbn. rewrite Hl. cbn.
  destruct closed; cbn in *.
  - eexists. split; [done|]. by eexists _, _, _, _, _, _.
  - destruct Hb as (cr' & Hr & HR'). rewrite Hr. rc_cbn. eexists. split; [done|]. by eexists _, _, _, _, _, _.
Qed.
