(* ===== verification/OrderCorrect.v ===== *)
(** * Ordering: the tuples of the child, sorted

    [std::sort] asks for a strict weak order.  The comparison of the operator is one when
    every tuple has a cell of one type for each rule; it is then the lexicographic order of
    the columns, ascending or descending. *)
From S2P Require Import Prelude RidKey Comparator TableMeta SqlValue SqlValueCorrect Row Expr Operators OrderScan OperatorsCorrect.
From Stdlib Require Import ZArith Lia.
From stdpp Require Import base option strings list sorting.
Local Open Scope Z_scope.

(** ** Comparisons from total preorders *)
#[export] Instance cmp_opp_total {A} (c : A → A → Z) : TotalCmp c → TotalCmp (λ x y, - c x y).
Proof.
  intros Hc. split; cbn.
  - intros x y. pose proof (cmp_swap (cmp := c) x y). lia.
  - intros x y z H1 H2. pose proof (cmp_swap (cmp := c) x y). pose proof (cmp_swap (cmp := c) y z).
    pose proof (cmp_swap (cmp := c) x z). pose proof (cmp_le_trans (cmp := c) z y x). lia.
Qed.
#[export] Instance cmp_zero_total {A} : TotalCmp (λ _ _ : A, 0).
Proof. by split. Qed.
Section total_less.
Context {A : Type} (comp : A → A → option bool) (c : A → A → Z) `{!TotalCmp c} (l : list A).
Context (Hcomp : ∀ x y, x ∈ l → y ∈ l → comp x y = Some (bool_decide (c x y < 0))).

Lemma total_strict_weak : strict_weak comp l.
Proof.
  split.
  - intros x y Hx Hy. rewrite Hcomp by done. by eexists.
  - intros x Hx. rewrite Hcomp by done. f_equal. apply bool_decide_eq_false_2. rewrite (cmp_refl c). lia.
  - intros x y z Hx Hy Hz. rewrite !Hcomp by done. intros [= H1%bool_decide_eq_true_1] [= H2%bool_decide_eq_true_1].
    f_equal. apply bool_decide_eq_true_2. by eapply (cmp_lt_trans c).
  - intros x y z Hx Hy Hz. rewrite !Hcomp by done. intros [= H1%bool_decide_eq_false_1] [= H2%bool_decide_eq_false_1].
    f_equal. apply bool_decide_eq_false_2. pose proof (cmp_swap (cmp := c) x y). pose proof (cmp_swap (cmp := c) y z).
    pose proof (cmp_swap (cmp := c) x z). pose proof (cmp_le_trans (cmp := c) z y x). lia.
Qed.
Lemma total_in_order l' :
  (∀ x, x ∈ l' → x ∈ l) → in_order comp l' → StronglySorted (λ x y, c x y <= 0) l'.
Proof.
  unfold in_order. intros Hin Hs. induction Hs as [|x l' Hs IH Hall]; [constructor|]. constructor.
  - apply IH. intros y Hy. apply Hin. by right.
  - rewrite Forall_forall in Hall |- *. intros y Hy. specialize (Hall y Hy).
    rewrite Hcomp in Hall by (apply Hin; by constructor). injection Hall as Hall%bool_decide_eq_false_1.
    pose proof (cmp_swap (cmp := c) x y). lia.
Qed.
End total_less.

(** ** The rules *)
Section rules.
Context `{!LibText} `{!Uninit} (trx_fields : option (list FieldMeta.t)).
Abbreviation find := (Tuple.find_cell trx_fields).

(** two values no comparison with values of the column tells apart *)
Definition same_place (ty : AttrType) (v k : Value) : Prop :=
  ∀ x, column_cmp ty v x = column_cmp ty k x ∧ column_cmp ty x v = column_cmp ty x k.
Definition key (spec : TupleCellSpec) (t : Tuple.t) : Value :=
  match find t spec Val.new with Some (_, v) => v | None => Val.new end.
(** the cell of a column, whatever the value it is read into held *)
Definition has_cell (ty : AttrType) (spec : TupleCellSpec) (t : Tuple.t) : Prop :=
  ∀ cell, ∃ v, find t spec cell = Some (RC.SUCCESS, v) ∧ col_value ty v ∧ same_place ty v (key spec t).
(** a rule of ORDER BY with the type of its column *)
Abbreviation rule := (TupleCellSpec * bool * AttrType)%type.
Definition rule_cmp (r : rule) (t1 t2 : Tuple.t) : Z :=
  let '(spec, asc, ty) := r in
  if asc : bool then column_cmp ty (key spec t1) (key spec t2) else - column_cmp ty (key spec t1) (key spec t2).
Fixpoint rules_cmp (rules : list rule) : Tuple.t → Tuple.t → Z :=
  match rules with [] => λ _ _, 0 | r :: rules => cmp_lex (rule_cmp r) (rules_cmp rules) end.
Definition sortable (rules : list rule) (t : Tuple.t) : Prop :=
  Forall (λ '(spec, asc, ty), ordered_type ty ∧ has_cell ty spec t) rules.

#[export] Instance rule_cmp_total r : TotalCmp (rule_cmp r).
Proof.
  destruct r as [[spec asc] ty]. unfold rule_cmp. destruct asc.
  - exact (cmp_on_total (key spec) (column_cmp ty) _).
  - exact (cmp_on_total (key spec) (λ x y, - column_cmp ty x y) _).
Qed.
#[export] Instance rules_cmp_total rules : TotalCmp (rules_cmp rules).
Proof. induction rules as [|r rules IH]; cbn; apply _. Qed.

Lemma comprule_from_spec rules t1 t2 vl vr :
  sortable rules t1 → sortable rules t2 →
  Order.comprule_from trx_fields rules.*1 t1 t2 vl vr = Some (bool_decide (rules_cmp rules t1 t2 < 0)).
Proof.
  intros H1 H2. revert vl vr. induction rules as [|[[spec asc] ty] rules IH]; intros vl vr; [done|].
  apply Forall_cons in H1 as [Hs1 Hr1], H2 as [Hs2 Hr2]. cbn in Hs1, Hs2. destruct Hs1 as [Hty Hc1], Hs2 as [_ Hc2].
  destruct (Hc1 vl) as (v1 & F1 & C1 & S1). destruct (Hc2 vr) as (v2 & F2 & C2 & S2).
  cbn [fmap list_fmap fst Order.comprule_from]. rewrite F1. cbn [mbind option_bind]. rewrite F2. cbn [mbind option_bind].
  rewrite (compare_value_column ty) by done. cbn [mbind option_bind].
  assert (column_cmp ty v1 v2 = column_cmp ty (key spec t1) (key spec t2)) as ->.
  { rewrite (proj1 (S1 v2)). apply S2. }
  cbn [rules_cmp]. unfold Val.op_of_sign, cmp_lex, rule_cmp. set (x := column_cmp _ _ _).
  destruct (decide (x = 0)) as [->|Hx].
  - rewrite IH by done. f_equal. apply bool_decide_ext. by destruct asc.
  - destruct (decide (x < 0)) as [Hlt|Hlt]; (rewrite decide_True by (destruct asc; lia)); f_equal; symmetry; destruct asc; cbn [negb];
      first [apply bool_decide_eq_true_2; lia|apply bool_decide_eq_false_2; lia].
Qed.
Lemma comprule_strict_weak rules l :
  Forall (sortable rules) l → strict_weak (Order.comprule trx_fields rules.*1) l.
Proof.
  intros Hl. apply (total_strict_weak _ (rules_cmp rules)). rewrite Forall_forall in Hl.
  intros x y Hx Hy. apply comprule_from_spec; by apply Hl.
Qed.
Lemma comprule_in_order rules l l' :
  Forall (sortable rules) l → (∀ x, x ∈ l' → x ∈ l) → in_order (Order.comprule trx_fields rules.*1) l' →
  StronglySorted (λ x y, rules_cmp rules x y <= 0) l'.
Proof.
  intros Hl. apply total_in_order; [apply _|]. rewrite Forall_forall in Hl.
  intros x y Hx Hy. apply comprule_from_spec; by apply Hl.
Qed.
End rules.

(** ** The operator *)
Section order.
Context `{!LibText} `{!Uninit} (trx_fields : option (list FieldMeta.t)) `{!SortOps} `{!StdSort}.
Context {W C : Type} (O : PhysOps W C) (w : W) (fuel : nat).
Abbreviation OO := (Order.ops trx_fields fuel).
Abbreviation comp := (Order.comprule trx_fields).
Import Order.
Context (rules : list (TupleCellSpec * bool)).
Abbreviation mk_order := (mk (C := C)).

Definition order_start (R : C → Prop) (o : Order.t C) : Prop := ∃ c i, o = mk [c] rules false i [] ∧ R c.
(** the sorted tuples at a position *)
Definition order_at (Q : C → Prop) (i : nat) (l : list Tuple.t) (o : Order.t C) : Prop :=
  ∃ c, o = mk [c] rules true i l ∧ Q c.
Definition order_end (Q : C → Prop) (l : list Tuple.t) : Order.t C → Prop := order_at Q (length l) l.

Lemma on_child_done {A} (c : ST (W * C) A) a x x' b i l :
  c (w, x) = Done (a, (w, x')) →
  Order.on_child c (w, mk [x] rules b i l) = Done (a, (w, mk [x'] rules b i l)).
Proof. intros Hc. exact (on_part_done _ _ c w (mk [x] rules b i l) x a x' eq_refl Hc). Qed.
Lemma order_closes c b i l : closes O w c → closes OO w (mk [c] rules b i l).
Proof. intros (c' & Hc). eexists. exact (on_child_done _ _ _ _ _ _ _ Hc). Qed.

Lemma fetch_loop_spec Q n c l acc i :
  yields O w Q c l → (length l < n)%nat →
  ∃ c', fetch_loop n (w, mk [c] rules false i acc) =
    Done (RC.SUCCESS, (w, mk [c'] rules false i (acc ++ l))) ∧ Q c'.
Proof.
  intros Hy. revert n acc. induction Hy as [c c' Hn HQ|c c' t l Hn Hcur Hcl Hy IH]; intros n acc Hlen;
    (destruct n as [|n]; [lia|]); cbn [fetch_loop].
  - exists c'. rewrite (bind_done _ _ _ _ _ (on_child_done _ _ _ _ _ _ _ Hn)), app_nil_r. done.
  - cbn in Hlen. destruct (IH n (acc ++ [t])) as (c2 & Hloop & HQ); [lia|]. exists c2. split; [|done].
    rewrite (bind_done _ _ _ _ _ (on_child_done _ _ _ _ _ _ _ Hn)). change (negb (RC.succ RC.SUCCESS)) with false. cbv iota.
    rewrite <-app_assoc in Hloop. etrans; [|exact Hloop]. st_cbn. by rewrite Hcur.
Qed.
(** Each later call moves on by one tuple, the last one to the end. *)
Lemma order_steps Q i l :
  (∀ c, Q c → closes O w c) → (i < length l)%nat →
  ∀ o, order_at Q i l o → yields OO w (order_end Q l) o (drop (S i) l).
Proof.
  intros HQ Hi. remember (length l - i)%nat as n eqn:Hn. revert i Hi Hn.
  induction n as [|n IH]; intros i Hi Hn o (c & -> & Hc); [lia|].
  assert (oper_next (PhysOps := OO) (w, mk_order [c] rules true i l) =
    Done (if decide (S i = length l) then RC.RECORD_EOF else RC.SUCCESS, (w, mk [c] rules true (S i) l))) as Hnext.
  { cbn. unfold next. rewrite bind_get. cbn [is_inited_ negb ordered_tuples_ iterator_].
    rewrite decide_False by (intros ->; cbn in Hi; lia).
    unfold st_assert. rewrite bool_decide_eq_true_2 by done. done. }
  destruct (decide (S i = length l)) as [He|He].
  - rewrite drop_ge by lia. eapply yields_nil; [exact Hnext|]. rewrite He. by exists c.
  - destruct (lookup_lt_is_Some_2 l (S i)) as [t Ht]; [lia|]. rewrite (drop_S l t) by done.
    eapply yields_cons; [exact Hnext| | |].
    + unfold oper_current. cbn. destruct l as [|u l]; [done|]. change (match (u :: l) !! S i with Some t => Done (Some t) | None => Crash end = Done (Some t)). by rewrite Ht.
    + apply order_closes, HQ, Hc.
    + apply (IH (S i)); [lia|lia|by exists c].
Qed.
Lemma order_executes R Q l l' :
  executes O w R Q l → (∀ c, Q c → closes O w c) → l ≠ [] → (length l < fuel)%nat →
  OrderScan.sort _ (comp rules) l = Some l' → Permutation l' l →
  executes OO w (order_start R) (order_end Q l') l'.
Proof.
  intros Hex HQ Hne Hlen Hsort Hperm o (c & i & -> & HR). destruct (Hex c HR) as (c1 & Ho & Hy).
  exists (mk [c1] rules false i []). split.
  { cbn. unfold open. rewrite bind_get. cbn [children_]. rewrite decide_False by (cbn; lia).
    exact (on_child_done _ _ _ _ _ _ _ Ho). }
  destruct (fetch_loop_spec Q fuel c1 l [] i Hy Hlen) as (c2 & Hf & HQ2). cbn [app] in Hf.
  assert (oper_next (PhysOps := OO) (w, mk_order [c1] rules false i []) = Done (RC.SUCCESS, (w, mk [c2] rules true 0 l'))) as Hnext.
  { cbn. unfold next, initialize. rewrite bind_get. cbn [is_inited_ negb].
    assert (initialize trx_fields fuel (w, mk [c1] rules false i []) = Done (RC.SUCCESS, (w, mk [c2] rules true 0 l'))) as Hi.
    { unfold initialize. rewrite (bind_done _ _ _ _ _ Hf). change (RC.succ RC.SUCCESS) with true. cbv iota.
      rewrite bind_get. cbn [order_rules ordered_tuples_]. unfold st_some. st_cbn. by rewrite Hsort. }
    unfold initialize in Hi. by rewrite (bind_done _ _ _ _ _ Hi). }
  assert (0 < length l')%nat as Hpos by (rewrite Hperm; destruct l; [done|cbn; lia]).
  destruct l' as [|t l']; [cbn in Hpos; lia|].
  eapply yields_cons; [exact Hnext|done|apply order_closes, HQ, HQ2|].
  apply (order_steps Q 0 (t :: l')); [done|done|by exists c2].
Qed.
(** No tuple: the first call succeeds all the same, and there is no current tuple. *)
Lemma order_empty R Q o :
  executes O w R Q [] → order_start R o → (0 < fuel)%nat →
  ∃ o1 o2, oper_open (PhysOps := OO) (w, o) = Done (RC.SUCCESS, (w, o1)) ∧
    (OrderScan.sort _ (comp rules) [] = Some [] →
     oper_next (PhysOps := OO) (w, o1) = Done (RC.SUCCESS, (w, o2)) ∧
     oper_current (PhysOps := OO) o2 = Done None).
Proof.
  intros Hex (c & i & -> & HR) Hf. destruct (Hex c HR) as (c1 & Ho & Hy).
  destruct (fetch_loop_spec Q fuel c1 [] [] i Hy Hf) as (c2 & Hloop & _). cbn [app] in Hloop.
  exists (mk [c1] rules false i []), (mk [c2] rules true 0 []). split.
  { cbn. unfold open. rewrite bind_get. cbn [children_]. rewrite decide_False by (cbn; lia).
    exact (on_child_done _ _ _ _ _ _ _ Ho). }
  intros Hsort. split; [|done]. cbn. unfold next. rewrite bind_get. cbn [is_inited_ negb].
  assert (initialize trx_fields fuel (w, mk [c1] rules false i []) = Done (RC.SUCCESS, (w, mk [c2] rules true 0 []))) as Hi.
  { unfold initialize. rewrite (bind_done _ _ _ _ _ Hloop). change (RC.succ RC.SUCCESS) with true. cbv iota.
    rewrite bind_get. cbn [order_rules ordered_tuples_]. st_cbn. by rewrite Hsort. }
  by rewrite (bind_done _ _ _ _ _ Hi).
Qed.
End order.
