(* ===== verification/ScanCorrect.v ===== *)
(** * Table scans: the rows the predicates hold of

    The scan is proved against the promise [scans] of its scanner, which the scanner of
    [TableScanner.v] keeps for the visible records of a file.  The tuple the predicates are
    evaluated on gathers the fields of the table once more for every record; its cells are
    those of the row all the same. *)
From S2P Require Import Prelude RidKey Comparator LruCache BufferPool RecordPage RecordPageCorrect RecordFile RecordFileCorrect.
From S2P Require Import Bitmap TableMeta SqlValue Row Expr Rewrite RewriteCorrect Operators OrderScan OperatorsCorrect.
From Stdlib Require Import ZArith Lia.
From stdpp Require Import base option strings gmap list.
Local Open Scope Z_scope.

(** ** The promise of a scanner *)
Section promise.
Context {W SC : Type} (S : ScanOps W SC) (w : W).
Definition scan_closes (sc : SC) : Prop := ∃ sc', scan_close (w, sc) = Done (RC.SUCCESS, (w, sc')).
Inductive scan_yields (Q : SC → Prop) : SC → list (RID.t * memory) → Prop :=
| scan_yields_nil sc : scan_has_next sc = false → Q sc → scan_yields Q sc []
| scan_yields_cons sc sc' r l :
    scan_has_next sc = true → scan_next (w, sc) = Done ((RC.SUCCESS, r), (w, sc')) → scan_closes sc' →
    scan_yields Q sc' l → scan_yields Q sc (r :: l).
(** from a state [R] the scan opens, goes through the records [l], and can be closed and
    opened again *)
Definition scans (readonly : bool) (R : SC → Prop) (l : list (RID.t * memory)) : Prop :=
  ∀ sc, R sc → ∃ sc1, scan_open readonly (w, sc) = Done (RC.SUCCESS, (w, sc1)) ∧
    scan_yields (λ sc, ∃ sc', scan_close (w, sc) = Done (RC.SUCCESS, (w, sc')) ∧ R sc') sc1 l.
End promise.
Arguments scan_closes {W SC} S w sc.
Arguments scan_yields {W SC} S w Q sc l.

(** ** The scanner of a table keeps it *)
Section table_scanner.
Context {W : Type} (file : W → file_state) (visit : W → option (RID.t → memory → bool → RC.t)) (w : W).
Abbreviation s := (file w).
Context {size : Z} (Hwf : file_wf size s) (Hbytes : Forall Bitmap.byte_ok (BPFileHeader.bitmap (file_hdr s))).
Context (readonly : bool).
Abbreviation keeps := (scan_keeps None (visit w) readonly).
Abbreviation says := (verdict (visit w) readonly).
(** the transaction sees a record, or does not; it has no conflict *)
Context (Hsees : ∀ r, says r = RC.SUCCESS ∨ says r = RC.RECORD_INVISIBLE).
Abbreviation OS := (TableScanner.ops file visit).
Definition visible : list (RID.t * memory) := base.filter (λ r, keeps r = true) (file_records s).
Definition scanner_idle (o : TableScanner.t) : Prop := idle s (TableScanner.scanner_ o).

Lemma sees_eof r : says r ≠ RC.RECORD_EOF.
Proof. by destruct (Hsees r) as [-> | ->]. Qed.
Lemma keeps_success r : keeps r = true → says r = RC.SUCCESS.
Proof.
  unfold scan_keeps. destruct (Hsees r) as [? | ->]; [done|]. by rewrite bool_decide_eq_true_2.
Qed.
Lemma idle_not_stale sc : idle s sc → TableScanner.stale sc = false.
Proof.
  unfold idle, TableScanner.stale. destruct (record_page_iterator_ sc) as [it|]; [|done].
  intros (p & _ & _ & Hno). unfold page_iterator_has_next. rewrite Hno. done.
Qed.
Abbreviation hold := (holding None (visit w) readonly s).
Lemma hold_yields sc K :
  hold sc K →
  scan_yields OS w (λ o, ∃ o', scan_close (ScanOps := OS) (w, o) = Done (RC.SUCCESS, (w, o')) ∧ scanner_idle o')
    (TableScanner.mk sc readonly true) K.
Proof.
  revert sc. induction K as [|r K IH]; intros sc Hh.
  - destruct (holding_end None (visit w) readonly s Hwf sc Hh) as [Hn Hidle].
    apply scan_yields_nil; [exact Hn|]. by eexists.
  - destruct Hh as (rest & Hsc & Hnr & Hv & Hpos & HK).
    destruct (fetch_holding None (visit w) readonly s Hwf Hbytes sees_eof sc rest Hsc keeps_success) as (sc' & Hf & Hh).
    rewrite <-HK in Hf, Hh. apply scan_yields_cons with (TableScanner.mk sc' readonly true).
    + cbn. unfold has_next. rewrite Hnr. apply bool_decide_eq_true_2. lia.
    + cbn. unfold scanner_next. st_cbn. rewrite Hf, Hnr. by destruct K.
    + by eexists.
    + by apply IH.
Qed.
Lemma table_scans : scans OS w readonly scanner_idle visible.
Proof.
  intros o Ho. set (sc := set_bp_iterator (bp_iterator_init (file_hdr s) 0) (TableScanner.scanner_ o)).
  assert (idle s sc) as Hidle by exact Ho.
  assert (scanning s sc (file_records s)) as Hsc.
  { apply (scanning_start s Hwf); done. }
  destruct (fetch_holding None (visit w) readonly s Hwf Hbytes sees_eof sc _ Hsc keeps_success) as (sc' & Hf & Hh).
  fold visible in Hf, Hh. exists (TableScanner.mk sc' readonly true). split; [|by apply hold_yields].
  cbn. unfold TableScanner.open_scan. fold sc. rewrite (idle_not_stale sc Hidle). rewrite Hf. by destruct visible.
Qed.
End table_scanner.

(** ** Tuples with the same cells *)
Section cells.
Context `{!LibText} `{!Uninit} (trx_fields : option (list FieldMeta.t)).
Definition same_cells (t1 t2 : Tuple.t) : Prop :=
  ∀ spec cell, Tuple.find_cell trx_fields t1 spec cell = Tuple.find_cell trx_fields t2 spec cell.
Lemma same_cells_parent parent t1 t2 : same_cells t1 t2 → same_cells (with_parent parent t1) (with_parent parent t2).
Proof.
  intros Hs. destruct parent as [p|]; [|done]. intros spec cell. cbn.
  destruct (Tuple.find_cell trx_fields p spec cell) as [[rc c]|]; [|done]. cbn. case_decide; [done|apply Hs].
Qed.
Lemma on_success_same c value k k' :
  (∀ v, k v = k' v) → Expr.on_success c value k = Expr.on_success c value k'.
Proof. intros Hk. unfold Expr.on_success. destruct c as [[rc v]|]; [|done]. cbn. by rewrite Hk. Qed.
Lemma get_value_same t1 t2 e v :
  same_cells t1 t2 → get_value trx_fields t1 e v = get_value trx_fields t2 e v.
Proof.
  intros Hs. revert v. induction e as [f|v'|c ty IH|op l r IHl IHr|ty cs Hcs|ty l IHl|ty l r IHl IHr|l|q|l op r IHl IHr|op r IHr|a]
    using Expr.expr_ind; intros v; cbn [get_value]; try done.
  - by rewrite IH.
  - rewrite IHl. apply on_success_same. intros lv. by rewrite IHr.
  - destruct cs as [|e cs]; [done|]. revert Hcs. generalize (Val.new) as tmp. generalize (e :: cs) as l. intros l tmp Hl.
    revert tmp. induction Hl as [|c l Hc Hl IHl]; intros tmp; [done|]. cbn [conjunction_loop]. rewrite Hc.
    destruct (get_value trx_fields t2 c tmp) as [[rc cv]|]; [|done]. cbn. destruct (RC.succ rc); [|done].
    destruct (Val.get_boolean cv) as [b|]; [|done]. cbn. destruct ty, b; cbn; try done; apply IHl.
  - by rewrite IHl.
  - rewrite IHl. apply on_success_same. intros lv. cbn. by rewrite IHr.
  - by rewrite IHl.
Qed.
Lemma pred_result_same t1 t2 e : same_cells t1 t2 → pred_result trx_fields t1 e = pred_result trx_fields t2 e.
Proof. intros Hs. unfold pred_result. by rewrite (get_value_same t1 t2). Qed.

(** ** The fields of the inspected tuple *)
Definition table_row (m : TableMeta.t) (r : RID.t * memory) : Tuple.t := Tuple.Row (MkRowTuple r m (TableMeta.fields m)).
Lemma find_field_range name l i j : find_field name l i = Some j → i <= j < i + Z.of_nat (length l).
Proof.
  revert i. induction l as [|f l IH]; intros i; [done|]. cbn. case_decide; [intros [= <-]; lia|].
  intros Hj%IH. lia.
Qed.
Lemma find_field_app name l l' i :
  find_field name (l ++ l') i =
    match find_field name l i with Some j => Some j | None => find_field name l' (i + Z.of_nat (length l)) end.
Proof.
  revert i. induction l as [|f l IH]; intros i; cbn; [by rewrite Z.add_0_r|]. case_decide; [done|].
  rewrite IH. destruct (find_field name l (i + 1)); [done|]. f_equal. lia.
Qed.
Lemma find_field_none name l i j : find_field name l i = None → find_field name l j = None.
Proof. revert i j. induction l as [|f l IH]; intros i j; [done|]. cbn. case_decide; [done|]. apply IH. Qed.
Lemma find_field_repeat name l n i :
  find_field name l 0 = None → find_field name (mjoin (replicate n l)) i = None.
Proof.
  intros Hno. revert i. induction n as [|n IH]; intros i; [done|]. cbn. rewrite find_field_app.
  rewrite (find_field_none _ _ 0 i) by done. apply IH.
Qed.
(** A row whose fields have been gathered several times has the cells of the row. *)
Lemma gathered_cells m r n : same_cells (Tuple.Row (MkRowTuple r m (mjoin (replicate (S n) (TableMeta.fields m))))) (table_row m r).
Proof.
  assert (∀ l : list FieldMeta.t, mjoin (replicate (S n) l) = l ++ mjoin (replicate n l)) as -> by done.
  intros spec cell. cbn [Tuple.find_cell table_row]. unfold find_cell. cbn [table_ speces_]. case_decide; [done|].
  rewrite find_field_app. destruct (find_field (field_name_ spec) (TableMeta.fields m) 0) as [j|] eqn:Hj.
  - apply find_field_range in Hj. unfold cell_at, cell_num. cbn [speces_ table_ record_]. rewrite length_app.
    rewrite !decide_False by lia. by rewrite lookup_app_l by lia.
  - by rewrite (find_field_repeat _ _ n).
Qed.
End cells.

(** ** The predicates of a scan *)
Section filter.
Context `{!LibText} `{!Uninit} (trx_fields : option (list FieldMeta.t)).
Abbreviation result tuple := (pred_result trx_fields tuple).

Lemma eval_predicate_atom tuple e v :
  atom e = true →
  match result tuple e with
  | Some (inr b) => ∃ v', eval_predicate trx_fields tuple e v = Some (RC.SUCCESS, v', b)
  | _ => True
  end.
Proof.
  intros He. rewrite <-(atom_result trx_fields tuple e v He). unfold eval_predicate, pred_of.
  destruct (get_value trx_fields tuple e v) as [[rc v']|]; [|done]. cbn. destruct (RC.succ rc) eqn:Hs; [|done].
  apply bool_decide_eq_true_1 in Hs as ->. destruct (Val.get_boolean v') as [b|]; [|done]. by exists v'.
Qed.
(** the predicates can be evaluated, up to the first that is false *)
Definition testable (ps : list Expr.t) (tuple : Tuple.t) : Prop := ∃ b, conj_fold Conj.AND (result tuple <$> ps) = Some (inr b).
Lemma filter_spec ps tuple v :
  Forall (λ e, atom e = true) ps → testable ps tuple →
  TableScan.filter trx_fields ps tuple v = Some (RC.SUCCESS, all_hold trx_fields ps tuple).
Proof.
  intros Hps [b Hb]. revert v. induction Hps as [|e ps He Hps IH]; intros v; [done|].
  cbn [fmap list_fmap conj_fold] in Hb. cbn [TableScan.filter all_hold forallb]. pose proof (eval_predicate_atom tuple e v He) as Hev.
  unfold holds. destruct (result tuple e) as [[rc|b']|]; try done. destruct Hev as (v' & ->). cbn [mbind option_bind].
  change (negb (RC.succ RC.SUCCESS)) with false. cbv iota. destruct b'.
  - cbn [negb andb]. rewrite (bool_decide_eq_true_2 (Some (inr true) = _)) by done. by rewrite IH.
  - cbn [negb andb]. by rewrite bool_decide_eq_false_2 by done.
Qed.
Lemma testable_same ps t1 t2 : same_cells trx_fields t1 t2 → testable ps t1 → testable ps t2 ∧ all_hold trx_fields ps t1 = all_hold trx_fields ps t2.
Proof.
  intros Hs. assert (∀ e, result t1 e = result t2 e) as Heq by (intros e; by apply pred_result_same). split.
  - destruct H1 as [b Hb]. exists b. rewrite <-Hb. f_equal. by apply list_fmap_ext.
  - unfold all_hold. clear H1. induction ps as [|e ps IH]; [done|]. cbn. rewrite IH. unfold holds. by rewrite Heq.
Qed.
End filter.

(** ** The operator *)
#[local] Arguments do_expr : simpl never.
Section table_scan.
Context `{!LibText} `{!Uninit} (trx_fields : option (list FieldMeta.t)).
Context (executor : SubQuery → option Tuple.t → option (RC.t * SubQuery)).
Context {W SC : Type} (S : ScanOps W SC) (w : W) (fuel : nat).
Context (table : TableMeta.t) (readonly : bool) (ps : list Expr.t) (parent : option Tuple.t).
Context (Hatoms : Forall (λ e, atom e = true) ps) (Hplain : Forall (λ e, plain e = true) ps).
Abbreviation OT := (TableScan.ops trx_fields executor fuel).
Import TableScan.

Abbreviation row r := (table_row table r).
Abbreviation seen r := (with_parent parent (row r)).
Abbreviation keep r := (all_hold trx_fields ps (seen r)).
Definition all_testable (l : list (RID.t * memory)) : Prop := Forall (λ r, testable trx_fields ps (seen r)) l.
Definition gathered (insp : RowTuple) : Prop := ∃ n, speces_ insp = mjoin (replicate n (TableMeta.fields table)).
Abbreviation st sc meta insp tuples := (mk table readonly sc meta insp tuples ps parent).
Definition table_scan_state (R : SC → Prop) (o : TableScan.t SC) : Prop :=
  ∃ sc meta insp tuples, o = st sc meta insp tuples ∧ gathered insp ∧ R sc.

Lemma do_predicates_plain : do_predicates executor ps RC.SUCCESS = Some (RC.SUCCESS, ps).
Proof.
  clear -Hplain. induction Hplain as [|e l He Hl IH]; [done|]. cbn [do_predicates]. rewrite do_expr_plain by done.
  cbn [mbind option_bind]. by rewrite IH.
Qed.
Lemma on_scanner_done {A} (c : ST (W * SC) A) a sc sc' meta insp tuples :
  c (w, sc) = Done (a, (w, sc')) → on_scanner c (w, st sc meta insp tuples) = Done (a, (w, st sc' meta insp tuples)).
Proof. intros Hc. exact (on_part_done _ _ c w (st sc meta insp tuples) sc a sc' eq_refl Hc). Qed.
Lemma table_scan_closes sc meta insp tuples : scan_closes S w sc → closes OT w (st sc meta insp tuples).
Proof. intros (sc' & Hc). eexists. exact (on_scanner_done _ _ _ _ _ _ _ Hc). Qed.

(** The loop, at a scanner with the records [l] to come. *)
Lemma next_loop_spec Q n rc sc insp tuples l :
  scan_yields S w Q sc l → all_testable l → gathered insp → (length l < n)%nat →
  match List.filter (λ r, keep r) l with
  | [] => ∃ sc' insp',
      next_loop trx_fields n rc (w, st sc (Some table) insp tuples) =
        Done (match l with [] => rc | _ => RC.RECORD_EOF end, (w, st sc' (Some table) insp' tuples)) ∧ gathered insp' ∧ Q sc'
  | r :: rest => ∃ sc' insp' l',
      next_loop trx_fields n rc (w, st sc (Some table) insp tuples) =
        Done (RC.SUCCESS, (w, st sc' (Some table) insp' (tuples ++ [MkRowTuple r table (TableMeta.fields table)]))) ∧
      gathered insp' ∧ scan_closes S w sc' ∧ scan_yields S w Q sc' l' ∧
      List.filter (λ r, keep r) l' = rest ∧ (length l' < length l)%nat ∧ all_testable l'
  end.
Proof.
  intros Hy. revert n rc insp. induction Hy as [sc Hh HQ|sc sc' r l Hh Hn Hcl Hy IH]; intros n rc insp Ht Hg Hlen;
    (destruct n as [|n]; [lia|]).
  - exists sc, insp. split; [|done]. cbn [next_loop]. rewrite bind_get. cbn [record_scanner_]. by rewrite Hh.
  - apply Forall_cons in Ht as [Htr Ht]. destruct Hg as [k Hk].
    set (insp' := MkRowTuple r table (mjoin (replicate (Datatypes.S k) (TableMeta.fields table)))).
    assert (gathered insp') as Hg' by (by exists (Datatypes.S k)).
    assert (next_loop trx_fields (Datatypes.S n) rc (w, st sc (Some table) insp tuples) =
      if keep r then Done (RC.SUCCESS, (w, st sc' (Some table) insp' (tuples ++ [MkRowTuple r table (TableMeta.fields table)])))
      else next_loop trx_fields n RC.RECORD_EOF (w, st sc' (Some table) insp' tuples)) as ->.
    { pose proof (same_cells_parent trx_fields parent _ _ (gathered_cells trx_fields table r k)) as Hsame.
      assert (set_schema table (TableMeta.fields table) (set_record r insp) = insp') as Hinsp.
      { unfold set_schema, set_record, insp'. cbn. rewrite Hk. f_equal. clear. induction k as [|k IH]; [by cbn; rewrite app_nil_r|].
        cbn. rewrite <-app_assoc. f_equal. exact IH. }
      assert (testable trx_fields ps (with_parent parent (Tuple.Row insp')) ∧
        all_hold trx_fields ps (with_parent parent (Tuple.Row insp')) = keep r) as [Hti Hhold].
      { destruct (testable_same trx_fields ps (seen r) (with_parent parent (Tuple.Row insp'))) as [? ->]; [|exact Htr|done].
        intros spec cell. symmetry. apply Hsame. }
      cbn [next_loop]. rewrite bind_get. cbn [record_scanner_]. rewrite Hh.
      rewrite (bind_done _ _ _ _ _ (on_scanner_done _ _ _ _ _ _ _ Hn)). change (negb (RC.succ RC.SUCCESS)) with false. cbv iota.
      st_cbn. rewrite Hinsp. rewrite (filter_spec trx_fields ps _ Val.new Hatoms Hti), Hhold. by destruct (keep r). }
    cbn [List.filter]. destruct (keep r).
    + exists sc', insp', l. split_and!; try done. cbn. lia.
    + cbn in Hlen. specialize (IH n RC.RECORD_EOF insp' Ht Hg' ltac:(lia)).
      destruct (List.filter _ l) as [|r' rest].
      * destruct IH as (sc2 & insp2 & -> & Hg2 & HQ). exists sc2, insp2. split; [|done]. by destruct l.
      * destruct IH as (sc2 & insp2 & l2 & H1 & H2 & H3 & H4 & H5 & H6 & H7). exists sc2, insp2, l2.
        split_and!; try done. cbn. lia.
Qed.
Lemma table_scan_yields Q sc insp tuples l :
  scan_yields S w Q sc l → all_testable l → gathered insp → (length l < fuel)%nat →
  yields OT w (table_scan_state Q) (st sc (Some table) insp tuples) ((λ r, row r) <$> List.filter (λ r, keep r) l).
Proof.
  remember (length l) as n eqn:Hn. revert sc insp tuples l Hn. induction n as [n IH] using lt_wf_ind.
  intros sc insp tuples l -> Hy Ht Hg Hlen.
  assert (oper_next (PhysOps := OT) (w, st sc (Some table) insp tuples) =
    match l with [] => Done (RC.RECORD_EOF, (w, st sc (Some table) insp tuples))
    | _ => next_loop trx_fields fuel RC.SUCCESS (w, st sc (Some table) insp tuples) end) as Hnext.
  { cbn. unfold next. rewrite bind_get. cbn [record_scanner_]. by destruct Hy as [sc Hh _|sc sc' r l Hh _ _ _]; rewrite Hh. }
  pose proof (next_loop_spec Q fuel RC.SUCCESS sc insp tuples l Hy Ht Hg Hlen) as Hspec.
  destruct l as [|r0 l0].
  { eapply yields_nil; [exact Hnext|]. inversion_clear Hy. by eexists _, _, _, _. }
  destruct (List.filter _ (r0 :: l0)) as [|r rest] eqn:Hf.
  - destruct Hspec as (sc' & insp' & Hrun & Hg' & HQ). eapply yields_nil; [by rewrite Hnext, Hrun|]. by eexists _, _, _, _.
  - destruct Hspec as (sc' & insp' & l' & Hrun & Hg' & Hcl & Hy' & <- & Hlt & Ht'). cbn [fmap list_fmap].
    eapply yields_cons; [by rewrite Hnext, Hrun| | |].
    + cbn. unfold current_tuple. cbn [tuples_]. by rewrite last_snoc.
    + by apply table_scan_closes.
    + apply (IH (length l')); [done|done|done|done|done|lia].
Qed.
Lemma table_scan_runs R l :
  scans S w readonly R l → all_testable l → (length l < fuel)%nat →
  runs OT w (table_scan_state R) ((λ r, row r) <$> List.filter (λ r, keep r) l).
Proof.
  intros Hs Ht Hlen o (sc & meta & insp & tuples & -> & Hg & HR). destruct (Hs sc HR) as (sc1 & Ho & Hy).
  exists (st sc1 (Some table) insp tuples). split.
  - cbn. unfold open. rewrite bind_get. cbn [readonly_]. rewrite (bind_done _ _ _ _ _ (on_scanner_done _ _ _ _ _ _ _ Ho)).
    change (RC.succ RC.SUCCESS) with true. cbv iota. st_cbn. by rewrite do_predicates_plain.
  - eapply yields_mono; [|by apply table_scan_yields]. intros o' (sc2 & meta2 & insp2 & tuples2 & -> & Hg2 & sc3 & Hc & HR3).
    eexists. split; [exact (on_scanner_done _ _ _ _ _ _ _ Hc)|]. by eexists _, _, _, _.
Qed.
End table_scan.
