(* ===== verification/AggregateCorrect.v ===== *)
(** * Aggregation: what the results are

    [aggregate] is the composition of the steps of [AggregationTuple] the operator makes.
    Its results are those of the cells that are not null: their number, their sum, their
    average, one that no other exceeds.  The sums are proved for integers, where every
    partial sum has to be in range. *)
From S2P Require Import Prelude RidKey Comparator TableMeta SqlValue SqlValueCorrect Row Expr Operators OperatorsCorrect OrderCorrect Aggregate.
From Stdlib Require Import ZArith Lia Floats.SpecFloat.
From stdpp Require Import base option strings list.
Local Open Scope Z_scope.

Definition zsum : list Z → Z := foldr Z.add 0.
Lemma zsum_app l1 l2 : zsum (l1 ++ l2) = zsum l1 + zsum l2.
Proof. induction l1 as [|x l1 IH]; [done|]. cbn in *. lia. Qed.
Definition int_of (v : Value) : Z := int_at (num_value_ v).

Section aggregate.
Context `{!LibText} `{!Uninit} (trx_fields : option (list FieldMeta.t)).
Abbreviation key := (key trx_fields).
Abbreviation has_cell := (has_cell trx_fields).

Fixpoint aggregate_all (l : list Tuple.t) (a : AggregationTuple) : option AggregationTuple :=
  match l with [] => Some a | t :: l => a ← do_aggregation trx_fields t a; aggregate_all l a end.
Definition aggregate (exprs : list AggreExpr) (l : list Tuple.t) : option AggregationTuple :=
  match l with
  | [] => Some (init exprs)
  | _ => a ← do_aggregation_begin (init exprs); a ← aggregate_all l a; do_aggregation_end a
  end.

(** ** The column of an aggregation *)
Definition agg_spec (e : AggreExpr) : TupleCellSpec :=
  set_aggre_type (ag_type e) (field_spec (fd_table_name (ag_field e)) (fd_field_name (ag_field e)) None).
Definition agg_attr (e : AggreExpr) : AttrType := fd_attr_type (ag_field e).
Definition not_null (v : Value) : Prop := Val.is_null v = false.
(** the cells that are not null *)
Definition cells (e : AggreExpr) (l : list Tuple.t) : list Value := base.filter not_null (key (agg_spec e) <$> l).
Definition int_total (e : AggreExpr) (l : list Tuple.t) : Z := zsum (int_of <$> cells e l).

(** what the columns have to be *)
Definition agg_types (e : AggreExpr) : Prop :=
  match ag_type e with
  | Aggre.MAX | Aggre.MIN => ordered_type (agg_attr e)
  | Aggre.SUM | Aggre.AVG => agg_attr e = INTS
  | Aggre.COUNT | Aggre.COUNT_ALL => True
  | Aggre.NONE => False
  end.
Definition in_range (e : AggreExpr) (l : list Tuple.t) : Prop :=
  ag_type e = Aggre.SUM ∨ ag_type e = Aggre.AVG → ∀ l1 l2, l = l1 ++ l2 → is_int32 (int_total e l1).
Definition agg_ok (l : list Tuple.t) (e : AggreExpr) : Prop :=
  agg_types e ∧ Forall (has_cell (agg_attr e) (agg_spec e)) l ∧ in_range e l.

(** ** The results *)
Definition is_int (v : Value) (x : Z) : Prop := attr_type_ v = INTS ∧ num_value_ v = store32 x.
(** a value of the column that none of [vs] comes before in the order [cmp] *)
Definition extreme (ty : AttrType) (cmp : Value → Value → Z) (vs : list Value) (v : Value) : Prop :=
  not_null v ∧ col_value ty v ∧ ∃ k, k ∈ vs ∧ same_place ty v k ∧ Forall (λ x, cmp x k <= 0) vs.
Definition agg_result (l : list Tuple.t) (e : AggreExpr) (v : Value) : Prop :=
  let vs := cells e l in
  match ag_type e with
  | Aggre.COUNT => is_int v (Z.of_nat (length vs))
  | Aggre.COUNT_ALL => is_int v (Z.of_nat (length l))
  | _ =>
      if decide (vs = []) then Val.is_null v = true
      else
        match ag_type e with
        | Aggre.MAX => extreme (agg_attr e) (column_cmp (agg_attr e)) vs v
        | Aggre.MIN => extreme (agg_attr e) (λ x y, column_cmp (agg_attr e) y x) vs v
        | Aggre.SUM => is_int v (int_total e l)
        | Aggre.AVG =>
            let n := Z.of_nat (length vs) in
            if decide (Z.rem (int_total e l) n = 0) then is_int v (Z.quot (int_total e l) n)
            else attr_type_ v = FLOATS ∧
              num_value_ v = store_float (to_float (SFdiv 53 1024 (double_of_Z (int_total e l)) (double_of_Z n)))
        | _ => False
        end
  end.

(** ** Cells read and the keys of their columns *)
Lemma same_place_null ty v k : same_place ty v k → Val.is_null v = Val.is_null k.
Proof.
  intros Hs. set (x := MkValue NULLS 0 [] []). destruct (Hs x) as [Heq _]. unfold column_cmp, cmp_on, null_rank, cmp_sign in Heq.
  destruct (Val.is_null v), (Val.is_null k); cbn in Heq; done.
Qed.
Lemma same_place_int v k : same_place INTS v k → Val.is_null k = false → int_of v = int_of k.
Proof.
  intros Hs Hk. pose proof (same_place_null _ _ _ Hs) as Hv. destruct (Hs k) as [Heq _].
  rewrite (cmp_refl (column_cmp INTS)) in Heq. unfold column_cmp in Heq. rewrite Hv, Hk in Heq. cbn in Heq.
  unfold cmp_on, cmp_sign in Heq. unfold int_of. repeat case_decide; lia.
Qed.
Lemma slots_of_slots c l : slots (of_slots c l) = Some l.
Proof. unfold slots. cbn. induction l as [|[n ct r e] l IH]; [done|]. cbn. by rewrite IH. Qed.
Lemma cells_snoc e l t :
  cells e (l ++ [t]) = cells e l ++ (if Val.is_null (key (agg_spec e) t) then [] else [key (agg_spec e) t]).
Proof.
  unfold cells. rewrite fmap_app, filter_app. f_equal.
  change (key (agg_spec e) <$> [t]) with [key (agg_spec e) t].
  destruct (Val.is_null (key (agg_spec e) t)) eqn:E.
  - by rewrite filter_cons_False by (unfold not_null; by rewrite E).
  - by rewrite filter_cons_True by done.
Qed.

(** ** A step *)
Lemma add_int v1 v2 x :
  is_int v1 x → is_int32 x → col_value INTS v2 → not_null v2 → is_int32 (x + int_of v2) →
  ∃ v, Val.add v1 v2 = Some v ∧ is_int v (x + int_of v2).
Proof.
  intros [Ht1 Hn1] Hx [Hnull|(Ht2 & Hl & _)] H2 Hr.
  { unfold not_null, Val.is_null in H2. by rewrite bool_decide_eq_true_2 in H2. }
  exists (Val.of_int (x + int_of v2)). split; [|done]. unfold Val.add, Val.is_null.
  rewrite !bool_decide_eq_false_2 by (by rewrite ?Ht1, ?Ht2). cbn [orb]. unfold Val.get_int. rewrite Ht1, Ht2, Hn1.
  rewrite <-(app_nil_r (store32 x)), load_int_store32 by done. cbn [mbind option_bind]. rewrite load_int_at by done.
  cbn [mbind option_bind]. unfold to_int32. unfold is_int32, int_of in Hr. by rewrite decide_True.
Qed.
Lemma extreme_fold ty cmp vs res v k :
  TotalCmp cmp → (∀ v k, same_place ty v k → ∀ x, cmp v x = cmp k x ∧ cmp x v = cmp x k) →
  not_null v → col_value ty v → same_place ty v k → extreme ty cmp vs res ∨ vs = [] ∧ res = v →
  extreme ty cmp (vs ++ [k]) (if bool_decide (cmp res v < 0) then v else res).
Proof.
  intros Htot Hsame Hn Hc Hk. assert (cmp k k = 0) as Hkk by (apply cmp_refl, Htot).
  intros [(Hnr & Hcr & k0 & Hin & Hk0 & Hall)|[-> ->]].
  - assert (cmp res v = cmp k0 k) as -> by (rewrite (proj1 (Hsame _ _ Hk0 v)); apply (Hsame _ _ Hk)).
    case_bool_decide as Hlt; (split; [done|split; [done|]]).
    + exists k. split; [apply elem_of_app; right; by left|]. split; [done|]. apply Forall_app. split.
      * eapply Forall_impl; [exact Hall|]. cbn. intros x Hx. eapply (cmp_le_trans (cmp := cmp)); [exact Hx|lia].
      * constructor; [lia|done].
    + exists k0. split; [apply elem_of_app; by left|]. split; [done|]. apply Forall_app. split; [done|].
      constructor; [|done]. apply (cmp_flip_le cmp). lia.
  - assert (cmp v v = 0) as -> by (apply cmp_refl, Htot). rewrite bool_decide_eq_false_2 by lia.
    split; [done|split; [done|]]. exists k. split; [by left|]. split; [done|]. constructor; [lia|done].
Qed.

(** the result so far *)
Definition partial (l : list Tuple.t) (e : AggreExpr) (r : Value) : Prop :=
  if decide (cells e l = []) then Val.is_null r = true
  else
    match ag_type e with
    | Aggre.MAX => extreme (agg_attr e) (column_cmp (agg_attr e)) (cells e l) r
    | Aggre.MIN => extreme (agg_attr e) (λ x y, column_cmp (agg_attr e) y x) (cells e l) r
    | Aggre.SUM | Aggre.AVG => is_int r (int_total e l)
    | _ => False
    end.
Definition slot_inv (l : list Tuple.t) (e : AggreExpr) (s : slot) : Prop :=
  s_expr s = e ∧ s_count s = Z.of_nat (length (cells e l)) ∧
  (counts_only (ag_type e) = false → s_null s = bool_decide (cells e l = []) ∧ partial l e (s_res s)).
Lemma fold_partial l e t res v :
  agg_types e → counts_only (ag_type e) = false → partial l e res → not_null v → col_value (agg_attr e) v →
  same_place (agg_attr e) v (key (agg_spec e) t) → in_range e (l ++ [t]) →
  ∃ r, fold_value (ag_type e) (if Val.is_null res then first_result (ag_type e) v else res) v = Some r ∧
    partial (l ++ [t]) e r.
Proof.
  intros Hty Hco Hp Hn Hc Hs Hrange. set (k := key (agg_spec e) t) in *.
  assert (Val.is_null k = false) as Hk by (by rewrite <-(same_place_null _ _ _ Hs)).
  assert (cells e (l ++ [t]) = cells e l ++ [k]) as Hcells by (rewrite cells_snoc; fold k; by rewrite Hk).
  assert (∀ r, partial (l ++ [t]) e r =
    match ag_type e with
    | Aggre.MAX => extreme (agg_attr e) (column_cmp (agg_attr e)) (cells e l ++ [k]) r
    | Aggre.MIN => extreme (agg_attr e) (λ x y, column_cmp (agg_attr e) y x) (cells e l ++ [k]) r
    | Aggre.SUM | Aggre.AVG => is_int r (int_total e (l ++ [t]))
    | _ => False
    end) as Hnew.
  { intros r. unfold partial. rewrite Hcells. by rewrite decide_False by (by destruct (cells e l)). }
  unfold partial in Hp.
  assert (∀ cmp, (cmp = column_cmp (agg_attr e) ∨ cmp = λ x y, column_cmp (agg_attr e) y x) →
    TotalCmp cmp ∧ ∀ v k, same_place (agg_attr e) v k → ∀ x, cmp v x = cmp k x ∧ cmp x v = cmp x k) as Hcmp.
  { intros cmp [-> | ->]; (split; [|intros v' k' Hs' x; split; apply Hs']); [apply _|].
    split; [intros; apply cmp_swap|intros x y z ? ?; by eapply (cmp_le_trans (cmp := column_cmp (agg_attr e)) z y x)]. }
  assert (∀ cmp, (cmp = column_cmp (agg_attr e) ∨ cmp = λ x y, column_cmp (agg_attr e) y x) →
    let res' := if Val.is_null res then v else res in
    (if decide (cells e l = []) then Val.is_null res = true else extreme (agg_attr e) cmp (cells e l) res) →
    col_value (agg_attr e) res' ∧
    extreme (agg_attr e) cmp (cells e l ++ [k]) (if bool_decide (cmp res' v < 0) then v else res')) as Hext.
  { intros cmp Hcm res' Hpart. destruct (Hcmp cmp Hcm) as [Htot Hsame]. unfold res'. case_decide as Hnil.
    - rewrite Hpart, Hnil. split; [done|]. apply (extreme_fold _ cmp [] v); try done. by right.
    - destruct Hpart as (Hnr & Hcr & Hx). rewrite Hnr. split; [done|]. apply extreme_fold; try done. by left. }
  assert (agg_attr e = INTS → (if decide (cells e l = []) then Val.is_null res = true else is_int res (int_total e l)) →
    (∀ l1 l2, l ++ [t] = l1 ++ l2 → is_int32 (int_total e l1)) →
    ∃ r, Val.add (if Val.is_null res then first_result Aggre.SUM v else res) v = Some r ∧
      is_int r (int_total e (l ++ [t]))) as Hadd.
  { intros Hint Hpart Hr. rewrite Hint in *.
    assert (int_total e (l ++ [t]) = int_total e l + int_of v) as Htot.
    { unfold int_total. rewrite Hcells, fmap_app, zsum_app, (same_place_int _ _ Hs Hk). cbn. lia. }
    rewrite Htot. apply add_int; [|by apply (Hr l [t])|done|done|rewrite <-Htot; apply (Hr _ []); by rewrite app_nil_r].
    case_decide as Hnil.
    - rewrite Hpart. unfold int_total. rewrite Hnil. unfold first_result. rewrite decide_True by (by right).
      destruct Hc as [Hnull|(Ht & _)]; [|by rewrite decide_True].
      unfold not_null, Val.is_null in Hn. by rewrite bool_decide_eq_true_2 in Hn.
    - destruct Hpart as [Ht' Hn']. unfold Val.is_null. by rewrite bool_decide_eq_false_2 by (by rewrite Ht'). }
  unfold agg_types in Hty. unfold in_range in Hrange. destruct (ag_type e) eqn:Ht; try done; cbn [fold_value].
  - destruct (Hext (column_cmp (agg_attr e))) as [Hcr He]; [by left|done|].
    rewrite (lt_column (agg_attr e)) by done. cbn [mbind option_bind]. eexists. split; [done|by rewrite Hnew].
  - destruct (Hext (λ x y, column_cmp (agg_attr e) y x)) as [Hcr He]; [by right|done|].
    rewrite (lt_column (agg_attr e)) by done. cbn [mbind option_bind]. eexists. split; [done|by rewrite Hnew].
  - destruct Hadd as (r & Hr & Hi); [done|done|apply Hrange; by right|]. exists r. by rewrite Hnew.
  - destruct Hadd as (r & Hr & Hi); [done|done|apply Hrange; by left|]. exists r. by rewrite Hnew.
Qed.

Lemma aggregate_slot_inv l e t s cur :
  agg_types e → has_cell (agg_attr e) (agg_spec e) t → in_range e (l ++ [t]) → slot_inv l e s →
  ∃ s' cur', aggregate_slot trx_fields t s cur = Some (s', cur') ∧ slot_inv (l ++ [t]) e s'.
Proof.
  intros Hty Hcell Hr (He & Hct & Hres). destruct (Hcell cur) as (v & Hf & Hc & Hs).
  pose proof (same_place_null _ _ _ Hs) as Hnull. unfold aggregate_slot. cbn [get_value]. rewrite He. fold (agg_spec e).
  rewrite Hf. cbn [mbind option_bind]. unfold slot_inv. rewrite cells_snoc, <-Hnull.
  destruct (Val.is_null v) eqn:Hv.
  - exists s, v. rewrite app_nil_r. split; [done|]. split; [done|split; [done|]]. intros Hco.
    destruct (Hres Hco) as [Hsn Hp]. split; [done|]. unfold partial, int_total in *.
    assert (cells e (l ++ [t]) = cells e l) as -> by (by rewrite cells_snoc, <-Hnull, app_nil_r). exact Hp.
  - rewrite length_app. cbn [length s_res s_expr s_null s_count]. destruct (counts_only (ag_type e)) eqn:Hco.
    + eexists _, _. split; [done|]. split_and!; [done|cbn; lia|done].
    + destruct (Hres eq_refl) as [Hsn Hp].
      destruct (fold_partial l e t (s_res s) v) as (r & Hfold & Hpr); try done. rewrite Hfold. cbn [mbind option_bind].
      eexists _, _. split; [done|]. cbn. split_and!; [done|lia|]. intros _. split; [|done].
      symmetry. apply bool_decide_eq_false_2. by destruct (cells e l).
Qed.
Lemma aggregate_slots_inv l t es ss cur :
  Forall (λ e, agg_types e ∧ has_cell (agg_attr e) (agg_spec e) t ∧ in_range e (l ++ [t])) es →
  Forall2 (slot_inv l) es ss →
  ∃ ss', aggregate_slots trx_fields t ss cur = Some ss' ∧ Forall2 (slot_inv (l ++ [t])) es ss'.
Proof.
  intros Hes Hss. revert cur Hes. induction Hss as [|e s es ss Hs Hss IH]; intros cur Hes; [by eexists|].
  apply Forall_cons in Hes as [(Hty & Hc & Hr) Hes].
  destruct (aggregate_slot_inv l e t s cur) as (s' & cur' & Hstep & Hs'); [done..|].
  destruct (IH cur' Hes) as (ss' & Hrest & Hss'). cbn [aggregate_slots]. rewrite Hstep. cbn [mbind option_bind].
  rewrite Hrest. eexists. split; [done|]. by constructor.
Qed.
Lemma in_range_prefix e l1 l2 : in_range e (l1 ++ l2) → in_range e l1.
Proof. intros Hr Ht l l' ->. apply (Hr Ht l (l' ++ l2)). by rewrite app_assoc. Qed.
Lemma aggregate_all_inv es l1 l2 ss :
  Forall (agg_ok (l1 ++ l2)) es → Forall2 (slot_inv l1) es ss → Z.of_nat (length (l1 ++ l2)) < 2 ^ 31 →
  ∃ ss', aggregate_all l2 (of_slots (Z.of_nat (length l1)) ss) = Some (of_slots (Z.of_nat (length (l1 ++ l2))) ss') ∧
    Forall2 (slot_inv (l1 ++ l2)) es ss'.
Proof.
  revert l1 ss. induction l2 as [|t l2 IH]; intros l1 ss Hes Hss Hlen.
  { rewrite app_nil_r. by exists ss. }
  assert (l1 ++ t :: l2 = (l1 ++ [t]) ++ l2) as Happ by (by rewrite <-app_assoc). rewrite Happ in *.
  destruct (aggregate_slots_inv l1 t es ss Val.new) as (ss1 & Hstep & Hss1); [|done|].
  { eapply Forall_impl; [exact Hes|]. intros e (Hty & Hc & Hr). split_and!; [done| |by apply in_range_prefix in Hr].
    rewrite <-Happ in Hc. apply Forall_app in Hc as [_ Hc]. by apply Forall_cons in Hc as [Hc _]. }
  destruct (IH (l1 ++ [t]) ss1 Hes Hss1 Hlen) as (ss' & Hall & Hss'). exists ss'. split; [|done].
  cbn [aggregate_all]. unfold do_aggregation. rewrite slots_of_slots. cbn [count_ of_slots]. unfold to_int32.
  rewrite decide_True by (rewrite !length_app in Hlen; cbn in Hlen; lia). cbn [mbind option_bind]. rewrite Hstep.
  cbn [mbind option_bind]. rewrite <-Hall. f_equal. f_equal. rewrite length_app. cbn. lia.
Qed.

(** ** The end *)
Lemma int32_small x : 0 <= x < 2 ^ 31 → int32 (x mod 2 ^ 32) = x.
Proof. intros Hx. rewrite Z.mod_small by lia. unfold int32. by rewrite decide_True by lia. Qed.
Lemma average_spec s x n :
  is_int (s_res s) x → is_int32 x → s_count s = n → 0 < n < 2 ^ 31 →
  ∃ v, average s = Some v ∧
    if decide (Z.rem x n = 0) then is_int v (Z.quot x n)
    else attr_type_ v = FLOATS ∧ num_value_ v = store_float (to_float (SFdiv 53 1024 (double_of_Z x) (double_of_Z n))).
Proof.
  intros [Ht Hn] Hx Hcn Hc. unfold average. rewrite Hcn, int32_small by lia. rewrite decide_True by done.
  unfold Val.get_int. rewrite Ht, Hn. rewrite <-(app_nil_r (store32 x)), load_int_store32 by done. cbn [mbind option_bind].
  rewrite decide_False by lia. case_decide; by eexists.
Qed.
Lemma end_slot_result l e s :
  agg_types e → in_range e l → Z.of_nat (length l) < 2 ^ 31 → slot_inv l e s →
  ∃ s', end_slot (Z.of_nat (length l)) s = Some s' ∧ s_expr s' = e ∧ agg_result l e (s_res s').
Proof.
  intros Hty Hr Hlen (He & Hct & Hres). unfold end_slot. rewrite He.
  assert (length (cells e l) <= length l)%nat as Hle.
  { unfold cells. etrans; [apply length_filter|]. by rewrite length_fmap. }
  assert (s_count s = Z.of_nat (length (cells e l)) ∧ 0 <= s_count s < 2 ^ 31) as [_ Hb] by lia.
  unfold agg_result. destruct (counts_only (ag_type e)) eqn:Hco.
  - rewrite andb_false_r. unfold counts_only in Hco. apply bool_decide_eq_true_1 in Hco.
    destruct Hco as [Ht|Ht]; rewrite Ht; cbn [mbind option_bind]; eexists; (split; [done|]); cbn; (split; [done|]).
    + rewrite int32_small by lia. by rewrite Hct.
    + done.
  - rewrite andb_true_r. destruct (Hres eq_refl) as [Hsn Hp]. rewrite Hsn. unfold partial in Hp.
    assert (ag_type e ≠ Aggre.COUNT ∧ ag_type e ≠ Aggre.COUNT_ALL) as [Hn1 Hn2].
    { unfold counts_only in Hco. apply bool_decide_eq_false_1 in Hco. tauto. }
    unfold agg_types in Hty. destruct (decide (cells e l = [])) as [Hnil|Hnil].
    + rewrite bool_decide_eq_true_2 by done. cbn [mbind option_bind]. eexists. split; [done|]. cbn. split; [done|].
      by destruct (ag_type e).
    + rewrite bool_decide_eq_false_2 by done. destruct (ag_type e) eqn:Ht; try done; cbn [mbind option_bind].
      * eexists. split; [done|]. by split.
      * eexists. split; [done|]. by split.
      * destruct (average_spec s (int_total e l) (s_count s)) as (v & Hv & Hspec).
        -- done.
        -- apply (Hr ltac:(by right) l []). by rewrite app_nil_r.
        -- done.
        -- destruct (cells e l); [done|]. cbn in Hct. lia.
        -- rewrite Hv. cbn [mbind option_bind]. eexists. split; [done|]. split; [done|]. cbn. by rewrite <-Hct.
      * eexists. split; [done|]. by split.
Qed.
Lemma init_slots_inv es : Forall2 (slot_inv []) es ((λ s, MkSlot true 0 (s_res s) (s_expr s)) <$> (init_slot <$> es)).
Proof.
  induction es as [|e es IH]; [constructor|]. cbn [fmap list_fmap]. constructor; [|exact IH].
  split_and!; [done|done|]. intros Hco. split; [done|]. cbn. by rewrite Hco.
Qed.
(** The results of an aggregation. *)
Lemma aggregate_spec es l :
  Forall (agg_ok l) es → Z.of_nat (length l) < 2 ^ 31 →
  ∃ a, aggregate es l = Some a ∧ aggre_exprs_ a = es ∧ Forall2 (agg_result l) es (aggre_results_ a).
Proof.
  intros Hes Hlen. destruct l as [|t l].
  - exists (init es). unfold init. cbn. rewrite <-!list_fmap_compose. split; [done|].
    induction es as [|e es IH]; [split; [done|constructor]|]. apply Forall_cons in Hes as [(Hty & _) Hes].
    destruct (IH Hes) as [Heq Hf]. cbn in *. split; [by f_equal|]. constructor; [|exact Hf].
    unfold agg_result, init_slot, counts_only, agg_types in *. cbn. by destruct (ag_type e).
  - cbn [aggregate]. unfold do_aggregation_begin, init. rewrite slots_of_slots. cbn [mbind option_bind].
    destruct (aggregate_all_inv es [] (t :: l) _ Hes (init_slots_inv es) Hlen) as (ss & Hall & Hss). cbn [length app] in Hall.
    change (Z.of_nat 0) with 0 in Hall. rewrite Hall. cbn [mbind option_bind]. unfold do_aggregation_end. rewrite slots_of_slots.
    cbn [mbind option_bind count_ of_slots].
    assert (∃ ss', mapM (end_slot (Z.of_nat (length (t :: l)))) ss = Some ss' ∧ s_expr <$> ss' = es ∧
      Forall2 (agg_result (t :: l)) es (s_res <$> ss')) as (ss' & Hend & Hex & Hresults).
    { clear Hall. cbn [app] in Hss. induction Hss as [|e s es ss Hs Hss IH]; [by exists []|].
      apply Forall_cons in Hes as [(Hty & _ & Hr) Hes]. destruct (IH Hes) as (ss' & Hm & Hex & Hf).
      destruct (end_slot_result (t :: l) e s Hty Hr Hlen Hs) as (s' & Hs' & Hes' & Hres).
      exists (s' :: ss'). cbn [mapM]. rewrite Hs'. cbn [mbind option_bind]. rewrite Hm. split; [done|].
      cbn [fmap list_fmap]. split; [by rewrite Hes', Hex|by constructor]. }
    change (Z.of_nat (S (length l))) with (Z.of_nat (length (t :: l))). rewrite Hend. eexists. split; [done|]. by split.
Qed.
End aggregate.

(** ** The operator: one tuple, then the end *)
#[local] Arguments do_aggregation_begin : simpl never.
#[local] Arguments do_aggregation : simpl never.
#[local] Arguments do_aggregation_end : simpl never.
#[local] Arguments init : simpl never.
Section aggre_oper.
Context `{!LibText} `{!Uninit} (trx_fields : option (list FieldMeta.t)).
Context {W C : Type} (O : PhysOps W C) (w : W) (fuel : nat) (es : list AggreExpr).
Abbreviation OA := (AggreOper.ops trx_fields fuel).
Import AggreOper.

Definition aggre_start (R : C → Prop) (o : AggreOper.t C) : Prop := ∃ c cur, o = mk [c] false false (init es) cur ∧ R c.
Definition aggre_end (Q : C → Prop) (o : AggreOper.t C) : Prop :=
  ∃ c b a cur, o = mk [c] b true a cur ∧ aggre_exprs_ a = es ∧ Q c.
Lemma aggre_child_done {A} (f : ST (W * C) A) r c c' b eof a cur :
  f (w, c) = Done (r, (w, c')) → on_child f (w, mk [c] b eof a cur) = Done (r, (w, mk [c'] b eof a cur)).
Proof. intros Hc. exact (on_part_done _ _ f w (mk [c] b eof a cur) c r c' eq_refl Hc). Qed.
Lemma reinit_init a : aggre_exprs_ a = es → reinit a = init es.
Proof. intros <-. done. Qed.

(** the loop, once it has started *)
Lemma aggregate_loop_started Q n c l a a' cur :
  yields O w Q c l → aggregate_all trx_fields l a = Some a' → (length l < n)%nat →
  ∃ c', aggregate_loop trx_fields n (w, mk [c] true false a cur) =
    Done (RC.RECORD_EOF, (w, mk [c'] true false a' (match last l with Some t => Some t | None => cur end))) ∧ Q c'.
Proof.
  intros Hy. revert n a cur. induction Hy as [c c' Hn HQ|c c' t l Hn Hcur Hcl Hy IH]; intros n a cur Ha Hlen;
    (destruct n as [|n]; [lia|]); cbn [aggregate_loop].
  - injection Ha as ->. exists c'. by rewrite (bind_done _ _ _ _ _ (aggre_child_done _ _ _ _ _ _ _ _ Hn)).
  - cbn [aggregate_all] in Ha. destruct (do_aggregation trx_fields t a) as [a1|] eqn:Hd; [|done]. cbn in Ha, Hlen.
    destruct (IH n a1 (Some t) Ha) as (c2 & Hloop & HQ); [lia|]. exists c2. split; [|done].
    rewrite (bind_done _ _ _ _ _ (aggre_child_done _ _ _ _ _ _ _ _ Hn)). change (RC.succ RC.SUCCESS) with true. cbv iota.
    etrans; [|etrans; [exact Hloop|]].
    + st_cbn. rewrite Hcur. unfold aggregation_step. st_cbn. by rewrite Hd.
    + rewrite last_cons. by destruct (last l).
Qed.
Lemma aggre_next Q c l a cur :
  yields O w Q c l → aggregate trx_fields es l = Some a → (length l < fuel)%nat →
  ∃ c' b cur', oper_next (PhysOps := OA) (w, mk [c] false false (init es) cur) =
    Done (RC.SUCCESS, (w, mk [c'] b true a cur')) ∧ Q c' ∧ cur' = match last l with Some t => Some t | None => cur end.
Proof.
  intros Hy Ha Hlen. cbn. unfold next. rewrite bind_get. cbn [is_record_eof children_]. rewrite decide_False by done.
  destruct fuel as [|n]; [lia|]. cbn [aggregate_loop]. destruct Hy as [c c' Hn HQ|c c' t l Hn Hcur Hcl Hy].
  - injection Ha as <-. exists c', false, cur. split; [|done].
    erewrite bind_done by (rewrite (bind_done _ _ _ _ _ (aggre_child_done _ _ _ _ _ _ _ _ Hn)); reflexivity).
    by rewrite decide_True by done.
  - cbn [aggregate] in Ha. destruct (do_aggregation_begin (init es)) as [a0|] eqn:Hb; [|done]. cbn [mbind option_bind aggregate_all] in Ha.
    destruct (do_aggregation trx_fields t a0) as [a1|] eqn:Hd; [|done]. cbn [mbind option_bind] in Ha.
    destruct (aggregate_all trx_fields l a1) as [a2|] eqn:Hall; [|done]. cbn [mbind option_bind] in Ha.
    cbn in Hlen. destruct (aggregate_loop_started Q n c' l a1 a2 (Some t) Hy Hall) as (c2 & Hloop & HQ); [lia|].
    exists c2, true, (match last l with Some t => Some t | None => Some t end). split.
    + erewrite bind_done; cycle 1.
      { rewrite (bind_done _ _ _ _ _ (aggre_child_done _ _ _ _ _ _ _ _ Hn)). change (RC.succ RC.SUCCESS) with true. cbv iota.
        etrans; [|exact Hloop]. st_cbn. rewrite Hcur. cbn. unfold aggregation_step. st_cbn. rewrite Hb. cbn. by rewrite Hd. }
      rewrite decide_True by done. st_cbn. unfold aggregation_step. st_cbn. by rewrite Ha.
    + split; [done|]. rewrite last_cons. by destruct (last l).
Qed.
Lemma aggre_closes c b eof a cur : aggre_exprs_ a = es → closes O w c → closes OA w (mk [c] b eof a cur).
Proof.
  intros Ha (c' & Hc). eexists. cbn. unfold close. rewrite bind_get. cbn [children_].
  rewrite bind_set. exact (aggre_child_done _ _ _ _ _ _ _ _ Hc).
Qed.
Lemma aggre_rewinds R o : aggre_end (rewinds O w R) o → rewinds OA w (aggre_start R) o.
Proof.
  intros (c & b & a & cur & -> & Ha & c' & Hc & HR). eexists. split.
  - cbn. unfold close. rewrite bind_get. cbn [children_].
    rewrite bind_set. exact (aggre_child_done _ _ _ _ _ _ _ _ Hc).
  - rewrite reinit_init by done. by eexists _, _.
Qed.
Lemma aggregate_exprs l a : aggregate trx_fields es l = Some a → Forall (agg_ok trx_fields l) es → Z.of_nat (length l) < 2 ^ 31 → aggre_exprs_ a = es.
Proof. intros Ha Hok Hlen. destruct (aggregate_spec trx_fields es l Hok Hlen) as (a' & Ha' & He & _). congruence. Qed.
Lemma aggre_executes R Q l a cur :
  executes O w R Q l → (∀ c, Q c → closes O w c) → aggregate trx_fields es l = Some a → aggre_exprs_ a = es →
  (length l < fuel)%nat →
  executes OA w (λ o, ∃ c, o = mk [c] false false (init es) cur ∧ R c) (aggre_end Q)
    [Tuple.Aggregation a (match last l with Some t => Some t | None => cur end)].
Proof.
  intros Hex HQ Ha Hes Hlen o (c & -> & HR). destruct (Hex c HR) as (c1 & Ho & Hy).
  destruct (aggre_next Q c1 l a cur Hy Ha Hlen) as (c2 & b & cur' & Hn & HQ2 & Hcur).
  exists (mk [c1] false false (init es) cur). split.
  - cbn. unfold open. rewrite bind_get. cbn [children_]. rewrite decide_False by (intros Hne; by apply Hne).
    exact (aggre_child_done _ _ _ _ _ _ _ _ Ho).
  - rewrite <-Hcur. eapply yields_cons; [exact Hn|done|by apply aggre_closes, HQ|].
    eapply yields_nil; [done|]. by eexists _, _, _, _.
Qed.
End aggre_oper.
