(* ===== verification/PlanCorrect.v ===== *)
(** * The plans of queries: what they execute

    The rows of a logical plan ([rows] of [RewriteCorrect.v]) are what the physical plan the
    generator makes of it yields, from the root of the tree down to the scanners of the
    tables.  A plan is dispatched on down to a depth; the size of the logical plan is
    enough of it. *)
From S2P Require Import Prelude RidKey Comparator TableMeta SqlValue SqlValueCorrect Row Expr Rewrite RewriteCorrect.
From S2P Require Import Operators OperatorsCorrect Aggregate AggregateCorrect OrderScan OrderCorrect ScanCorrect IndexScan Dml PlanGen PlanExec.
From Stdlib Require Import ZArith Lia.
From stdpp Require Import base option strings list.
Local Open Scope Z_scope.

(** ** An operator seen as a plan *)
Section embeds.
Context {W T P : Type} (OT : PhysOps W T) (inj : T → P) (O : PhysOps W P).
Definition onto {A} (r : outcome (A * (W * T))) : outcome (A * (W * P)) :=
  match r with Done (a, (w, o)) => Done (a, (w, inj o)) | Crash => Crash | OutOfFuel => OutOfFuel end.
Record embeds : Prop := {
  emb_open : ∀ w o, oper_open (PhysOps := O) (w, inj o) = onto (oper_open (w, o));
  emb_next : ∀ w o, oper_next (PhysOps := O) (w, inj o) = onto (oper_next (w, o));
  emb_close : ∀ w o, oper_close (PhysOps := O) (w, inj o) = onto (oper_close (w, o));
  emb_current : ∀ o, oper_current (PhysOps := O) (inj o) = oper_current o
}.
Definition image (R : T → Prop) (p : P) : Prop := ∃ o, p = inj o ∧ R o.

Context (Hemb : embeds) (w : W).
Lemma embeds_closes o : closes OT w o → closes O w (inj o).
Proof. intros (o' & Hc). exists (inj o'). by rewrite (emb_close Hemb), Hc. Qed.
Lemma embeds_rewinds R p : image (rewinds OT w R) p → rewinds O w (image R) p.
Proof.
  intros (o & -> & o' & Hc & HR). exists (inj o'). split; [by rewrite (emb_close Hemb), Hc|]. by exists o'.
Qed.
Lemma embeds_yields Q o l : yields OT w Q o l → yields O w (image Q) (inj o) l.
Proof.
  induction 1 as [o o' Hn HQ|o o' tuple l Hn Hcur Hcl Hy IH].
  - eapply yields_nil; [by rewrite (emb_next Hemb), Hn|]. by exists o'.
  - eapply yields_cons; [by rewrite (emb_next Hemb), Hn|by rewrite (emb_current Hemb)|by apply embeds_closes|exact IH].
Qed.
Lemma embeds_executes R Q l : executes OT w R Q l → executes O w (image R) (image Q) l.
Proof.
  intros Hex p (o & -> & HR). destruct (Hex o HR) as (o1 & Ho & Hy). exists (inj o1).
  split; [by rewrite (emb_open Hemb), Ho|]. by apply embeds_yields.
Qed.
Lemma embeds_runs R l : runs OT w R l → runs O w (image R) l.
Proof.
  intros Hr p Hp. destruct (embeds_executes _ _ _ Hr p Hp) as (p1 & Ho & Hy). exists p1. split; [done|].
  eapply yields_mono; [|exact Hy]. apply embeds_rewinds.
Qed.
Lemma image_closes Q : (∀ o, Q o → closes OT w o) → ∀ p, image Q p → closes O w p.
Proof. intros HQ p (o & -> & Ho). by apply embeds_closes, HQ. Qed.
End embeds.

(** ** The conditions *)

(** the fields that conditions compare with a value by [=]: what an index is looked up by *)
Definition equated_field (es : list Expr.t) (name : string) : Prop :=
  ∃ e t, e ∈ es ∧ PhysicalPlanGenerator.index_term e = Some t ∧ fd_field_name t.1 = name.
Section plans.
Context `{!LibText} `{!Uninit} (trx_fields : option (list FieldMeta.t)) `{!SortOps}.
Context (executor : SubQuery → option Tuple.t → option (RC.t * SubQuery)).
Context {SC IX SX W : Type} (S : ScanOps W SC) `{!IndexScanOps W IX SX} `{!TrxOps W}.
Context (malloc : nat → memory) (index_name : IX → string) (fuel : nat).
Context (find_index : TableMeta.t → list string → option (IX * list FieldMeta.t)).
Context (looked : string → Prop) (new_char : nat → memory) (scanner : TableMeta.t → SC) (expr_name : Expr.t → string).
Context (w : W) (records : TableMeta.t → list (RID.t * memory)).
Abbreviation plan := (Plan.t SC IX SX).
Abbreviation OP depth := (Plan.ops trx_fields executor malloc index_name fuel depth : PhysOps W plan).
Abbreviation create := (PhysicalPlanGenerator.create find_index new_char scanner expr_name).

Definition table_rows (table : TableMeta.t) : list Tuple.t := table_row table <$> records table.
(** the condition has no subquery, can be evaluated on the rows, and compares only fields of
    [looked] by [=] *)
Definition evaluable (l : list Tuple.t) (e : Expr.t) : Prop :=
  plain e = true ∧ Forall (λ t, ∃ b, pred_result trx_fields t e = Some (inr b)) l ∧
  ∀ t, PhysicalPlanGenerator.index_term e = Some t → looked (fd_field_name t.1).
Definition conditions (l : list Tuple.t) (es : list Expr.t) : Prop :=
  (length l < fuel)%nat ∧ Forall (evaluable l) es.
(** a table that has no index over fields of [looked] alone, and whose scanner goes through
    its records *)
Definition scannable (table : TableMeta.t) (readonly : bool) : Prop :=
  (∀ names, Forall looked names → find_index table names = None) ∧
  ∃ R : SC → Prop, R (scanner table) ∧ scans S w readonly R (records table).

Lemma conditions_some l es es' :
  (∀ a, a ∈ es' → is_Some (vconst a) ∨ a ∈ es) → conditions l es → conditions l es'.
Proof.
  intros Hin [Hl He]. split; [done|]. rewrite Forall_forall in He |- *. intros a Ha.
  destruct (Hin a Ha) as [[b Hb]|?]; [|by apply He]. destruct a; try done. split_and!; [done| |done].
  apply Forall_forall. intros t _. exists b. cbn in Hb. case_decide; [|done]. unfold pred_result. cbn. by rewrite Hb.
Qed.
Lemma conditions_filter f l es : conditions l es → conditions (List.filter f l) es.
Proof.
  intros [Hl He]. split; [pose proof (List.filter_length_le f l); lia|]. rewrite Forall_forall in He |- *. intros a Ha.
  destruct (He a Ha) as (Hp & Hd & Hi). split_and!; [done| |done]. rewrite Forall_forall in Hd |- *. intros t.
  rewrite list_elem_of_In. intros [Ht _]%filter_In. apply Hd. by apply list_elem_of_In.
Qed.

(** ** The operators above the joins *)
Abbreviation comp units := (Order.comprule trx_fields ((λ u, (field_spec (fd_table_name u.1) (fd_field_name u.1) None, u.2)) <$> units)).
Definition above (type : Logical.oper) (l : list Tuple.t) : list Tuple.t :=
  match type with
  | Logical.PROJECTION expres =>
      match mapM Project.projection expres with Some speces => project_tuple speces <$> l | None => [] end
  | Logical.ORDER_BY units => default [] (OrderScan.sort _ (comp units) l)
  | Logical.AGGREGATION exprs =>
      match aggregate trx_fields exprs l with Some a => [Tuple.Aggregation a (last l)] | None => [] end
  | _ => []
  end.
(** The operators are applied to rows they can handle; there has to be a row to be sorted. *)
Definition above_ok (type : Logical.oper) (l : list Tuple.t) : Prop :=
  match type with
  | Logical.PROJECTION expres => is_Some (mapM Project.projection expres)
  | Logical.ORDER_BY units =>
      l ≠ [] ∧ (length l < fuel)%nat ∧ ∃ l', OrderScan.sort _ (comp units) l = Some l' ∧ Permutation l' l
  | Logical.AGGREGATION exprs =>
      (length l < fuel)%nat ∧ ∃ a, aggregate trx_fields exprs l = Some a ∧ aggre_exprs_ a = exprs
  | _ => False
  end.
Abbreviation ok := (plan_ok trx_fields table_rows above conditions above_ok scannable).
Abbreviation result := (rows trx_fields table_rows above).

(** the plan of an operator yields the rows, from the state it is created in *)
Definition makes (O : PhysOps W plan) (p : plan) (l : list Tuple.t) : Prop :=
  ∃ R Q : plan → Prop, R p ∧ executes O w R Q l ∧ ∀ c, Q c → closes O w c.

Lemma makes_embeds {T} (OT : PhysOps W T) (inj : T → plan) O o R Q l :
  embeds OT inj O → executes OT w R Q l → (∀ o, Q o → closes OT w o) → R o → makes O (inj o) l.
Proof.
  intros Hemb Hex HQ HR. exists (image inj R), (image inj Q). split_and!; [by exists o|by eapply embeds_executes|].
  by eapply image_closes.
Qed.

(** *** Table scans *)
Lemma evaluable_testable ps t :
  Forall (λ e, ∃ b, pred_result trx_fields t e = Some (inr b)) ps → testable trx_fields ps t.
Proof.
  unfold testable. induction 1 as [|e ps [b He] Hps IH]; [by eexists|]. cbn [fmap list_fmap conj_fold]. rewrite He.
  destruct b; [|by eexists]. exact IH.
Qed.
Lemma table_get_runs table readonly ps depth :
  scannable table readonly → conditions (table_rows table) ps → Forall (λ e, atom e = true) ps →
  ∃ p, PhysicalPlanGenerator.create find_index new_char scanner expr_name (Logical.Node (Logical.TABLE_GET table readonly ps) [] []) = Some (inr (Some p)) ∧
    ∃ R : plan → Prop, R p ∧ runs (OP (Datatypes.S depth)) w R (List.filter (all_hold trx_fields ps) (table_rows table)).
Proof.
  intros [Hno (R & HR & Hscan)] [Hlen Hev] Hat. eexists. split.
  { cbn. unfold PhysicalPlanGenerator.table_get_plan. rewrite Hno.
    2:{ apply Forall_forall. intros name Hname. apply list_elem_of_fmap in Hname as (t & -> & Ht).
      apply list_elem_of_omap in Ht as (e & He & Ht). rewrite Forall_forall in Hev. by apply (Hev e He). }
    destruct (snd <$> last _) as [v|]; [destruct (Val.is_null v)|]; done. }
  assert (Forall (λ e, plain e = true) ps) as Hplain by (eapply Forall_impl; [exact Hev|]; by intros e (? & _ & _)).
  exists (image Plan.TABLE_SCAN (table_scan_state table readonly ps None R)). split.
  { eexists. split; [done|]. eexists _, _, _, _. split; [done|]. split; [by exists O|done]. }
  assert (List.filter (all_hold trx_fields ps) (table_rows table) =
    table_row table <$> List.filter (λ r, all_hold trx_fields ps (with_parent None (table_row table r))) (records table)) as ->.
  { unfold table_rows. generalize (records table) as l. induction l as [|r l IH]; [done|]. cbn. rewrite IH.
    by destruct (all_hold trx_fields ps (table_row table r)). }
  apply (embeds_runs (TableScan.ops trx_fields executor fuel)); [done|].
  apply table_scan_runs; [done|done|done| |by unfold table_rows in Hlen; rewrite length_fmap in Hlen].
  apply Forall_forall. intros r Hr. apply evaluable_testable. rewrite Forall_forall in Hev. apply Forall_forall.
  intros e He. destruct (Hev e He) as (_ & Hd & _). rewrite Forall_forall in Hd. apply Hd. apply list_elem_of_fmap. by exists r.
Qed.

(** *** Predicates *)
Lemma safe_boolean e : safe e → Expr.value_type e = Some BOOLEANS.
Proof.
  intros Hs. destruct (safe_form _ Hs) as [Ha|(type & cs & ->)]; [|done]. destruct e; try done.
  cbn in Ha |- *. by apply bool_decide_eq_true_1 in Ha as ->.
Qed.
Lemma evaluable_predicate e t :
  safe e → Forall (λ a, ∃ b, pred_result trx_fields t a = Some (inr b)) (atoms e) →
  ∃ b, pred_result trx_fields t e = Some (inr b).
Proof.
  intros Hs Hev. destruct (safe_form _ Hs) as [Ha|(type & cs & ->)].
  { assert (atoms e = [e]) as Heq by (by destruct e). rewrite Heq in Hev. by apply Forall_inv in Hev. }
  pose proof (safe_atoms _ Hs) as Hat. cbn [atoms] in *. destruct cs as [|c cs]; [by eexists|].
  rewrite conjunction_result; [|done|eapply Forall_impl; [exact Hat|]; by intros a []].
  clear Hs Hat. induction Hev as [|a l [b Ha] Hev IH]; [by eexists|]. cbn [fmap list_fmap conj_fold]. rewrite Ha.
  destruct (Bool.eqb b (deciding type)); [by eexists|exact IH].
Qed.
Lemma plain_atoms e : safe e → Forall (λ a, plain a = true) (atoms e) → plain e = true.
Proof.
  intros Hs Hp. destruct (safe_form _ Hs) as [Ha|(type & cs & ->)].
  { assert (atoms e = [e]) as Heq by (by destruct e). rewrite Heq in Hp. by apply Forall_inv in Hp. }
  cbn [atoms plain] in *. apply forallb_forall. intros a Ha. rewrite Forall_forall in Hp. apply Hp. by apply list_elem_of_In.
Qed.
Lemma predicate_makes e p l depth :
  safe e → conditions l (atoms e) → makes (OP depth) p l →
  Predicate.make e [p] = Some (Predicate.mk [p] e None) ∧
  makes (OP (Datatypes.S depth)) (Plan.PREDICATE (Predicate.mk [p] e None)) (List.filter (all_hold trx_fields [e]) l).
Proof.
  intros Hs [Hlen Hev] (R & Q & HR & Hex & HQ). split; [unfold Predicate.make; by rewrite (safe_boolean e Hs)|].
  rewrite filter_one.
  apply (makes_embeds (Predicate.ops trx_fields executor (PhysOps0 := OP depth) fuel) Plan.PREDICATE _ _ (predicate_state e None R) (predicate_state e None Q)); [done| | |by exists p].
  - apply (predicate_executes trx_fields executor (OP depth)); [|done| |done].
    + apply plain_atoms; [done|]. eapply Forall_impl; [exact Hev|]. by intros a (? & _ & _).
    + apply Forall_forall. intros t Ht. apply evaluable_predicate; [done|]. rewrite Forall_forall in Hev.
      apply Forall_forall. intros a Ha. destruct (Hev a Ha) as (_ & Hd & _). rewrite Forall_forall in Hd. by apply Hd.
  - intros o (c & -> & Hc). apply predicate_closes. by apply HQ.
Qed.

(** *** The other operators *)
Lemma join_makes pl pr ll lr depth :
  makes (OP depth) pl ll → (∃ R : plan → Prop, R pr ∧ runs (OP depth) w R lr) →
  makes (OP (Datatypes.S depth)) (Plan.NESTED_LOOP_JOIN (NestedLoopJoin.make [pl; pr])) (product ll lr).
Proof.
  intros (Rl & Ql & HRl & Hl & HQ) (Rr & HRr & Hr).
  apply (makes_embeds (NestedLoopJoin.ops (PhysOps0 := OP depth)) Plan.NESTED_LOOP_JOIN _ _ (join_start Rl Rr) (join_end (OP depth) w Ql Rr lr)); [done| | |].
  - by apply join_executes.
  - intros o Ho. by eapply join_end_closes.
  - by eexists _, _, _, _, _, _.
Qed.
Lemma project_makes p speces l depth :
  makes (OP depth) p l → makes (OP (Datatypes.S depth)) (Plan.PROJECT (Project.mk [p] speces)) (project_tuple speces <$> l).
Proof.
  intros (R & Q & HR & Hex & HQ).
  apply (makes_embeds (Project.ops (PhysOps0 := OP depth)) Plan.PROJECT _ _ (project_state speces R) (project_state speces Q)); [done| | |by exists p].
  - by apply project_executes.
  - intros o (c & -> & Hc). apply project_closes. by apply HQ.
Qed.
Lemma order_makes p units l depth :
  makes (OP depth) p l → above_ok (Logical.ORDER_BY units) l →
  makes (OP (Datatypes.S depth)) (Plan.ORDER_BY (Order.make units [p])) (above (Logical.ORDER_BY units) l).
Proof.
  intros (R & Q & HR & Hex & HQ) (Hne & Hlen & l' & Hsort & Hperm). cbn [above]. rewrite Hsort.
  eapply (makes_embeds (Order.ops trx_fields (PhysOps0 := OP depth) fuel) Plan.ORDER_BY); [done|by eapply order_executes| |by eexists _, _].
  intros o (c & -> & Hc). apply order_closes. by apply HQ.
Qed.
Lemma aggre_makes p exprs l depth :
  makes (OP depth) p l → above_ok (Logical.AGGREGATION exprs) l →
  makes (OP (Datatypes.S depth)) (Plan.AGGREGATION (AggreOper.make exprs [p])) (above (Logical.AGGREGATION exprs) l).
Proof.
  intros (R & Q & HR & Hex & HQ) (Hlen & a & Ha & He). cbn [above]. rewrite Ha.
  assert (last l = match last l with Some t => Some t | None => None end) as -> by (by destruct (last l)).
  eapply (makes_embeds (AggreOper.ops trx_fields (PhysOps0 := OP depth) fuel) Plan.AGGREGATION);
    [done|by eapply (aggre_executes trx_fields (OP depth) w fuel exprs R Q l a None)| |by exists p].
  intros o (c & b & a' & cur & -> & Ha' & Hc). by apply (aggre_closes trx_fields (OP depth) w fuel exprs); [|apply HQ].
Qed.
(** without a child, where the condition is never true *)
Lemma leaf_makes type depth :
  is_unary type = true → above_ok type [] →
  ∃ p, create (Logical.Node type [] []) = Some (inr (Some p)) ∧ makes (OP (Datatypes.S depth)) p (above type []).
Proof.
  intros _ Hok. destruct type; try done.
  - destruct Hok as [speces Hs]. cbn. rewrite Hs. cbn. eexists. split; [done|].
    apply (makes_embeds (Project.ops (PhysOps0 := OP depth)) Plan.PROJECT _ _ (λ o, o = Project.mk [] speces) (rewinds (Project.ops (PhysOps0 := OP depth)) w (λ o, o = Project.mk [] speces))); [done| | |done].
    + apply project_no_child.
    + intros o Ho. by eapply rewinds_closes.
  - by destruct Hok.
  - cbn. eexists. split; [done|].
    apply (makes_embeds (AggreOper.ops trx_fields (PhysOps0 := OP depth) fuel) Plan.AGGREGATION _ _ (λ o, o = AggreOper.make aggre_expressions [])
      (λ o, AggreOper.children_ o = [])); [done| | |done].
    + intros o ->. eexists. split; [done|]. eapply yields_cons; [done|done|by eexists|]. by eapply yields_nil.
    + intros [cs b eof a cur] Hc. cbn in Hc. subst cs. by eexists.
Qed.

(** ** The plans of queries *)
Lemma plan_makes n :
  ok n → ∃ p, create n = Some (inr (Some p)) ∧ ∀ depth, (node_size n <= depth)%nat → makes (OP depth) p (result n).
Proof.
  induction 1 as [t ro ps Hk Hg Ha|e c Hs Hc (p & Hp & IH) Hpr Hpush Hg|l r Hl (pl & Hpl & IHl) Hr _ Hget|type c Hu Hup Hc (p & Hp & IH)|type Hu Hup].
  - destruct (table_get_runs t ro ps 0 Hk Hg Ha) as (p & Hp & _). exists p. split; [done|]. intros [|depth] Hd; [cbn in Hd; lia|].
    destruct (table_get_runs t ro ps depth Hk Hg Ha) as (p' & Hp' & R & HR & Hruns). assert (p' = p) as -> by congruence.
    exists R, (rewinds (OP (Datatypes.S depth)) w R). split_and!; [done|exact Hruns|]. intros c. apply rewinds_closes.
  - assert (Predicate.make e [p] = Some (Predicate.mk [p] e None)) as Hmake by (unfold Predicate.make; by rewrite (safe_boolean e Hs)).
    eexists. split; [cbn; rewrite Hp; cbn; by rewrite Hmake|]. intros [|depth] Hd; [cbn in Hd; lia|].
    apply (predicate_makes e p (result c) depth Hs Hg). apply IH. cbn in Hd. lia.
  - inversion Hr as [t ro ps Hk Hg Ha| | | |]; subst r; try done; try (by destruct type).
    destruct (table_get_runs t ro ps 0 Hk Hg Ha) as (pr & Hpr & _).
    eexists. split; [cbn; rewrite Hpl; cbn; cbn in Hpr; rewrite Hpr; done|]. intros [|depth] Hd; [cbn in Hd; lia|].
    apply join_makes; [apply IHl; cbn in Hd; lia|]. destruct depth as [|depth]; [cbn in Hd; pose proof (node_size_pos l); lia|].
    destruct (table_get_runs t ro ps depth Hk Hg Ha) as (p' & Hp' & R & HR & Hruns). assert (p' = pr) as -> by congruence.
    by exists R.
  - destruct type; try done.
    + destruct Hup as [speces Hsp]. eexists. split; [cbn; rewrite Hp; cbn; by rewrite Hsp|].
      intros [|depth] Hd; [cbn in Hd; lia|]. cbn [rows above]. rewrite Hsp. apply project_makes, IH. cbn in Hd. lia.
    + eexists. split; [cbn; by rewrite Hp|].
      intros [|depth] Hd; [cbn in Hd; lia|]. apply order_makes; [|done]. apply IH. cbn in Hd. lia.
    + eexists. split; [cbn; rewrite Hp; done|].
      intros [|depth] Hd; [cbn in Hd; lia|]. apply aggre_makes; [|done]. apply IH. cbn in Hd. lia.
  - destruct (leaf_makes type 0 Hu Hup) as (p & Hp & _). exists p. split; [done|]. intros [|depth] Hd; [cbn in Hd; lia|].
    destruct (leaf_makes type depth Hu Hup) as (p' & Hp' & Hm). assert (p' = p) as -> by congruence.
    assert (result (Logical.Node type [] []) = above type []) as -> by (by destruct type). done.
Qed.

(** ** SELECT *)
Definition from_rows (tables : list TableMeta.t) : list Tuple.t :=
  match tables with [] => [] | t :: ts => foldl (λ l t, product l (table_rows t)) (table_rows t) ts end.
Definition where_holds (has_or : bool) (es : list Expr.t) (tuple : Tuple.t) : bool :=
  match es with
  | [] => true
  | _ => if has_or then existsb (holds trx_fields tuple) es else forallb (holds trx_fields tuple) es
  end.
Definition where_rows (f : FilterStmt) (es : list Expr.t) (l : list Tuple.t) : list Tuple.t :=
  List.filter (where_holds (has_or_ f) es) l.
Definition aggre_rows (exprs : list AggreExpr) (l : list Tuple.t) : list Tuple.t :=
  match exprs with [] => l | _ => above (Logical.AGGREGATION exprs) l end.
Definition order_rows (units : list (Field * bool)) (l : list Tuple.t) : list Tuple.t :=
  match units with [] => l | _ => above (Logical.ORDER_BY units) l end.
(** the rows of the tables side by side; those the conditions hold of; their aggregation;
    in order; projected *)
Definition select_rows (s : SelectStmt) (es : list Expr.t) : list Tuple.t :=
  let l := where_rows (filter_stmt_ s) es (from_rows (tables_ s)) in
  let l := aggre_rows (expressions_ s ≫= LogicalPlanGenerator.get_aggre_expression) l in
  above (Logical.PROJECTION (expressions_ s)) (order_rows (order_units_ s) l).

(** what is asked of a statement with the conditions [es]: scannable tables of fewer rows
    than there is fuel, conditions without subqueries that can be evaluated and that the
    rewriter may simplify, and rows the operators above can handle, one at least to be
    sorted *)
Record select_ok (s : SelectStmt) (es : list Expr.t) : Prop := {
  so_tables : tables_ s ≠ [] ∧ Forall (λ t, scannable t true ∧ (length (records t) < fuel)%nat) (tables_ s);
  so_where : mapM LogicalPlanGenerator.filter_expr (filter_units_ (filter_stmt_ s)) = Some es;
  so_safe : safe (Expr.ConjunctionExpr (if has_or_ (filter_stmt_ s) then Conj.OR else Conj.AND) es);
  so_evaluable : conditions (from_rows (tables_ s)) es;
  so_aggre :
    let exprs := expressions_ s ≫= LogicalPlanGenerator.get_aggre_expression in
    exprs ≠ [] → above_ok (Logical.AGGREGATION exprs) (where_rows (filter_stmt_ s) es (from_rows (tables_ s)));
  so_order : order_units_ s ≠ [] →
    above_ok (Logical.ORDER_BY (order_units_ s))
      (aggre_rows (expressions_ s ≫= LogicalPlanGenerator.get_aggre_expression)
         (where_rows (filter_stmt_ s) es (from_rows (tables_ s))));
  so_project : is_Some (mapM Project.projection (expressions_ s))
}.

Lemma filter_expr_atom u e :
  LogicalPlanGenerator.filter_expr u = Some e → is_cconst e = false →
  atom e = true ∧ is_vconst e = false ∧ constant e = None.
Proof.
  assert (∀ x y, LogicalPlanGenerator.filter_side x = Some y → simple y = true ∧ (is_vconst y = false → is_value y = false)) as Hside
    by (intros x y; destruct x; try done; by intros [= <-]).
  unfold LogicalPlanGenerator.filter_expr. intros He Hc.
  destruct (LogicalPlanGenerator.filter_side (left_ u)) as [l|] eqn:Hl;
    destruct (LogicalPlanGenerator.filter_side (right_ u)) as [r|] eqn:Hr;
    destruct (comp_ u); try done; injection He as <-; try done;
    destruct (Hside _ _ Hl) as [Hsl _]; destruct (Hside _ _ Hr) as [Hsr _];
    (split; [cbn; by rewrite Hsl, Hsr|split; [done|]]); by destruct l; try done; destruct r.
Qed.
Lemma where_safe type us es :
  mapM LogicalPlanGenerator.filter_expr us = Some es → Forall (λ e, is_cconst e = false) es →
  safe (Expr.ConjunctionExpr type es).
Proof.
  intros Hes Hc.
  assert (Forall (λ e, atom e = true ∧ is_vconst e = false ∧ constant e = None) es) as Hall.
  { apply mapM_Some_1 in Hes. revert Hc. induction Hes as [|u e us es Hue Hes IH]; intros Hc; [constructor|].
    apply Forall_cons in Hc as [He Hc]. constructor; [by eapply filter_expr_atom|by apply IH]. }
  split; cbn [atoms].
  - right. by eexists _, _.
  - rewrite !Forall_forall in Hall, Hc |- *. intros a Ha. destruct (Hall a Ha) as (Hat & Hv & _). split; [done|].
    intros Hor. by rewrite Hv, (Hc a Ha) in Hor.
  - left. eapply Forall_impl; [exact Hall|]. by intros a (_ & ? & _).
  - intros type' cs pre a post [= <- <-] -> Ha. apply Forall_app in Hall as [_ Hall]. apply Forall_inv in Hall as (_ & _ & Hno).
    by rewrite Hno in Ha.
  - intros cs [= -> <-] Hne Hf. destruct es as [|e es]; [done|]. apply Forall_inv in Hall as (_ & _ & Hno).
    apply Forall_inv in Hf. by rewrite Hno in Hf.
Qed.
Lemma where_holds_conjunction (has_or : bool) es t :
  es ≠ [] → Forall (λ e, atom e = true) es → Forall (λ a, ∃ b, pred_result trx_fields t a = Some (inr b)) es →
  holds trx_fields t (Expr.ConjunctionExpr (if has_or then Conj.OR else Conj.AND) es) = where_holds has_or es t.
Proof.
  intros Hne Hat Hev. unfold holds, where_holds. rewrite conjunction_result by done. destruct es as [|e es]; [done|].
  clear Hne Hat. remember (e :: es) as l eqn:Hl. clear Hl e es. destruct has_or.
  - induction Hev as [|a l [b Hb] Hl IH]; [done|]. cbn [fmap list_fmap conj_fold existsb]. unfold holds at 1. rewrite Hb.
    destruct b; [by rewrite !bool_decide_eq_true_2 by done|]. cbn [Bool.eqb deciding]. rewrite IH.
    by rewrite (bool_decide_eq_false_2 (Some (inr false) = _)) by done.
  - induction Hev as [|a l [b Hb] Hl IH]; [done|]. cbn [fmap list_fmap conj_fold forallb]. unfold holds at 1. rewrite Hb.
    destruct b; [|by rewrite !bool_decide_eq_false_2 by done]. cbn [Bool.eqb deciding]. rewrite IH.
    by rewrite (bool_decide_eq_true_2 (Some (inr true) = _)) by done.
Qed.

Definition from_ok (n : Logical.t) : Prop := ok n ∧ Logical.type n ≠ Logical.PREDICATE ∧ ∀ e, push_ok e (Logical.type n).
Lemma join_tables_ok n ts :
  from_ok n → Forall (λ t, scannable t true ∧ (length (records t) < fuel)%nat) ts →
  ∃ n', LogicalPlanGenerator.join_tables (Some n) ts = Some n' ∧ from_ok n' ∧
    result n' = foldl (λ l t, product l (table_rows t)) (result n) ts.
Proof.
  intros Hn Hts. revert n Hn. induction Hts as [|t ts [Ht Hlen] Hts IH]; intros n Hn; [by exists n|].
  cbn [LogicalPlanGenerator.join_tables foldl].
  assert (result (Logical.Node Logical.JOIN [] [n; LogicalPlanGenerator.table_get true t]) = product (result n) (table_rows t)) as <-.
  { cbn [rows LogicalPlanGenerator.table_get]. by rewrite (filter_constant true) by done. }
  apply IH. split_and!; [|done|done]. destruct Hn as (Hn & _). apply plan_join; [done| |done].
  apply plan_get; [done| |done]. split; [|done]. unfold table_rows. by rewrite length_fmap.
Qed.
Lemma from_ok_tables s es :
  select_ok s es → ∃ n, LogicalPlanGenerator.join_tables None (tables_ s) = Some n ∧ from_ok n ∧ result n = from_rows (tables_ s).
Proof.
  intros Hs. destruct (so_tables _ _ Hs) as [Hne Hts]. unfold from_rows. destruct (tables_ s) as [|t ts]; [done|].
  apply Forall_cons in Hts as [[Ht Hlen] Hts]. cbn [LogicalPlanGenerator.join_tables].
  destruct (join_tables_ok (LogicalPlanGenerator.table_get true t) ts) as (n & Hn & Hok & Hr); [|done|].
  - split_and!; [|done|done]. apply plan_get; [done| |done]. split; [|done]. unfold table_rows. by rewrite length_fmap.
  - exists n. split_and!; [done..|]. rewrite Hr. cbn [rows LogicalPlanGenerator.table_get]. by rewrite (filter_constant true) by done.
Qed.
Lemma where_ok s es n :
  select_ok s es → from_ok n → result n = from_rows (tables_ s) →
  ∃ p, LogicalPlanGenerator.create_filter (filter_stmt_ s) = Some p ∧ ok (LogicalPlanGenerator.add_predicate p n) ∧
    result (LogicalPlanGenerator.add_predicate p n) = where_rows (filter_stmt_ s) es (from_rows (tables_ s)).
Proof.
  intros Hs (Hn & Htype & Hpush) Hr. unfold LogicalPlanGenerator.create_filter. rewrite (so_where _ _ Hs). cbn [mbind option_bind].
  eexists. split; [done|]. pose proof (so_safe _ _ Hs) as Hsafe.
  destruct (decide (es = [])) as [->|Hne].
  { split; [exact Hn|]. cbn. rewrite Hr. unfold where_rows. by rewrite (filter_constant true). }
  set (e := Expr.ConjunctionExpr _ es) in *.
  assert (match es with [] => None | _ => Some e end = Some e) as -> by (by destruct es). split.
  - apply plan_predicate; [done|done|done|done|]. rewrite Hr. exact (so_evaluable _ _ Hs).
  - cbn [rows LogicalPlanGenerator.add_predicate]. rewrite Hr, filter_one. unfold where_rows.
    destruct (so_evaluable _ _ Hs) as [_ Hev]. apply filter_ext_in. intros t Ht%list_elem_of_In.
    apply where_holds_conjunction; [done|eapply Forall_impl; [apply (safe_atoms _ Hsafe)|]; by intros a []|].
    eapply Forall_impl; [exact Hev|]. intros a (_ & Ha & _). rewrite Forall_forall in Ha. by apply Ha.
Qed.
Lemma plan_of_select s es :
  select_ok s es → ∃ n, LogicalPlanGenerator.create_select s = Some n ∧ ok n ∧ result n = select_rows s es.
Proof.
  intros Hs. destruct (from_ok_tables s es Hs) as (n0 & Hn0 & Hok0 & Hr0).
  destruct (where_ok s es n0 Hs Hok0 Hr0) as (p & Hp & Hok1 & Hr1).
  unfold LogicalPlanGenerator.create_select. rewrite Hn0. cbn [mbind option_bind]. rewrite Hp. cbn [mbind option_bind].
  eexists. split; [done|]. unfold select_rows. set (n1 := LogicalPlanGenerator.add_predicate p n0) in *.
  set (exprs := expressions_ s ≫= LogicalPlanGenerator.get_aggre_expression).
  set (n2 := match exprs with [] => n1 | _ => Logical.Node (Logical.AGGREGATION exprs) [] [n1] end).
  assert (ok n2 ∧ result n2 = aggre_rows exprs (where_rows (filter_stmt_ s) es (from_rows (tables_ s)))) as [Hok2 Hr2].
  { unfold n2, aggre_rows. pose proof (so_aggre _ _ Hs) as Ha. fold exprs in Ha. cbv zeta in Ha.
    destruct exprs as [|x xs]; [done|]. split; [|cbn [rows]; by rewrite Hr1].
    apply plan_unary; [done| |done]. rewrite Hr1. by apply Ha. }
  set (n3 := match order_units_ s with [] => n2 | units => Logical.Node (Logical.ORDER_BY units) [] [n2] end).
  assert (ok n3 ∧ result n3 = order_rows (order_units_ s) (result n2)) as [Hok3 Hr3].
  { unfold n3, order_rows. pose proof (so_order _ _ Hs) as Ho. fold exprs in Ho. rewrite <-Hr2 in Ho.
    destruct (order_units_ s) as [|x xs]; [done|]. split; [|done]. apply plan_unary; [done| |done]. by apply Ho. }
  split; [apply plan_unary; [done|exact (so_project _ _ Hs)|done]|]. cbn [rows]. by rewrite Hr3, Hr2.
Qed.
(** The statement has a plan, and the plan yields the rows. *)
Lemma select_makes s es passes n :
  select_ok s es → LogicalPlanGenerator.create_select s = Some n → (node_size n < passes)%nat →
  ∃ p, PhysicalPlanGenerator.plan_statement find_index new_char scanner expr_name passes (Stmt.SELECT s) = Done (inr (Some p)) ∧
    ∀ depth, (node_size n <= depth)%nat → makes (OP depth) p (select_rows s es).
Proof.
  intros Hs Hn Hpasses. destruct (plan_of_select s es Hs) as (n' & Hn' & Hok & Hr). assert (n' = n) as -> by congruence.
  destruct (optimize_rewrite_keeps trx_fields table_rows above conditions above_ok scannable
    conditions_some conditions_filter passes n Hok Hpasses) as (n1 & Hn1 & Hok1 & Hr1 & _).
  destruct (optimize_rewrite_ends passes n Hpasses) as [_ Hsz]. specialize (Hsz n1 Hn1).
  destruct (plan_makes n1 Hok1) as (p & Hp & Hm). exists p. split.
  - unfold PhysicalPlanGenerator.plan_statement. cbn [LogicalPlanGenerator.create]. rewrite Hn. cbn [fmap option_fmap option_map from_option_crash outcome_bind].
    rewrite Hn1. cbn [outcome_bind]. by rewrite Hp.
  - intros depth Hd. rewrite <-Hr, <-Hr1. apply Hm. lia.
Qed.
End plans.
