(* ===== verification/SubQuery.v ===== *)
(** * Subqueries ([sql/expr/sub_query_expr.cpp])

    [SubQueryExpr::executor] over the physical operator of the subquery.  The expressions of
    [Expr.v] show of a subquery what its last execution left, [value_list_]. *)
From S2P Require Import Prelude RidKey Comparator TableMeta SqlValue Row Expr Operators OperatorsCorrect.
From Stdlib Require Import ZArith Lia.
From stdpp Require Import base option strings list.
Local Open Scope Z_scope.

Module SubQueryExpr.
Record t (C : Type) : Type := mk {
  physical_operator_ : option C;
  need_parent_tuple_ : bool;
  parent_tuple_ : option Tuple.t;
  finished : bool;
  value_list_ : list Value
}.
Arguments mk {C}.
Arguments physical_operator_ {C}.
Arguments need_parent_tuple_ {C}.
Arguments parent_tuple_ {C}.
Arguments finished {C}.
Arguments value_list_ {C}.
Section ops.
Context `{!LibText} `{!Uninit} (trx_fields : option (list FieldMeta.t)).
Context {W C : Type} `{!PhysOps W C} (fuel : nat).
Definition set_operator (c : C) (q : t C) : t C := mk (Some c) (need_parent_tuple_ q) (parent_tuple_ q) (finished q) (value_list_ q).
Definition set_values (l : list Value) (q : t C) : t C :=
  mk (physical_operator_ q) (need_parent_tuple_ q) (parent_tuple_ q) (finished q) l.
Definition set_finished (q : t C) : t C :=
  mk (physical_operator_ q) (need_parent_tuple_ q) (parent_tuple_ q) true (value_list_ q).
Definition set_parent_tuple (tuple : option Tuple.t) (q : t C) : t C :=
  mk (physical_operator_ q) (need_parent_tuple_ q) tuple (finished q) (value_list_ q).
Definition on_operator {A} : ST (W * C) A → ST (W * t C) A := on_part physical_operator_ set_operator.

Definition open : ST (W * t C) RC.t :=
  q ← get_state;
  match physical_operator_ q with
  | None => mret RC.INTERNAL
  | Some _ => set_state (set_values []) ;;; on_operator oper_open
  end.
Definition close : ST (W * t C) RC.t :=
  q ← get_state;
  match physical_operator_ q with None => mret RC.INTERNAL | Some _ => on_operator oper_close end.
(** the loop: the code that ends it, or a code that is returned at once *)
Definition fetch_values : nat → ST (W * t C) (RC.t + RC.t) :=
  fix go fuel :=
  match fuel with
  | O => st_nofuel
  | S fuel =>
      rc ← on_operator oper_next;
      if negb (RC.succ rc) then mret (inr rc)
      else
        q ← get_state;
        c ← st_some (physical_operator_ q);
        tuple ← lift_outcome (oper_current c);
        tuple ← st_some tuple;
        n ← st_some (Tuple.cell_num tuple);
        if decide (n ≠ 1) then mret (inl RC.INTERNAL)
        else
          r ← st_some (Tuple.cell_at trx_fields tuple 0 Val.new);
          let '(rc, value) := r in
          if negb (RC.succ rc) then mret (inl rc)
          else set_state (λ q, set_values (value_list_ q ++ [value]) q) ;;; go fuel
  end.
Definition executor : ST (W * t C) RC.t :=
  q ← get_state;
  (match parent_tuple_ q with
   | Some p =>
       if need_parent_tuple_ q then
         c ← st_some (physical_operator_ q);
         c ← st_some (oper_set_parent p c);
         set_state (set_operator c)
       else mret ()
   | None => mret ()
   end) ;;;
  if negb (need_parent_tuple_ q) && finished q then mret RC.SUCCESS
  else
    try open ;;
    r ← fetch_values fuel;
    match r with
    | inl rc => mret rc
    | inr rc =>
        if decide (rc ≠ RC.RECORD_EOF) then mret rc
        else
          rc ← close;
          set_state set_finished ;;;
          mret rc
    end.
End ops.
End SubQueryExpr.

(** ** The values of a subquery *)
#[local] Arguments Tuple.cell_at : simpl never.
#[local] Arguments Tuple.cell_num : simpl never.
Section executor.
Context `{!LibText} `{!Uninit} (trx_fields : option (list FieldMeta.t)).
Context {W C : Type} (O : PhysOps W C) (w : W) (fuel : nat).
Import SubQueryExpr.
(** a tuple of one cell *)
Definition one_cell (tuple : Tuple.t) (v : Value) : Prop :=
  Tuple.cell_num tuple = Some 1 ∧ Tuple.cell_at trx_fields tuple 0 Val.new = Some (RC.SUCCESS, v).

Lemma fetch_values_spec Q n c l vs need parent b acc :
  yields O w Q c l → Forall2 one_cell l vs → (length l < n)%nat →
  ∃ c', SubQueryExpr.fetch_values trx_fields n (w, mk (Some c) need parent b acc) =
    Done (inr RC.RECORD_EOF, (w, mk (Some c') need parent b (acc ++ vs))) ∧ Q c'.
Proof.
  intros Hy. revert n vs acc. induction Hy as [c c' Hn HQ|c c' tuple l Hn Hcur Hcl Hy IH]; intros n vs acc Hvs Hlen;
    (destruct n as [|n]; [lia|]).
  - inversion Hvs; subst. rewrite app_nil_r. exists c'. split; [|done].
    cbn [fetch_values]. unfold on_operator. st_cbn. by rewrite Hn.
  - inversion Hvs as [|? v ? vs' [Hnum Hcell] Hvs']; subst. cbn in Hlen.
    destruct (IH n vs' (acc ++ [v]) Hvs' ltac:(lia)) as (c2 & Hrun & HQ). exists c2. split; [|done].
    rewrite <-app_assoc in Hrun. cbn [app] in Hrun. rewrite <-Hrun.
    cbn [fetch_values]. unfold on_operator. st_cbn. rewrite Hn. rc_cbn. rewrite Hcur. rc_cbn. rewrite Hnum. cbn.
    rewrite Hcell. by rc_cbn.
Qed.
(** It ends with the cells of the tuples, and is executed once when it does not depend on the
    tuple around it. *)
Lemma executor_spec R l vs c b old :
  executes O w R (closes O w) l → R c → Forall2 one_cell l vs → (length l < fuel)%nat → b = false →
  ∃ c', SubQueryExpr.executor trx_fields fuel (w, mk (Some c) false None b old) =
      Done (RC.SUCCESS, (w, mk (Some c') false None true vs)) ∧
    SubQueryExpr.executor trx_fields fuel (w, mk (Some c') false None true vs) =
      Done (RC.SUCCESS, (w, mk (Some c') false None true vs)).
Proof.
  intros Hex HR Hvs Hlen ->. destruct (Hex c HR) as (c1 & Ho & Hy).
  destruct (fetch_values_spec _ fuel c1 l vs false None false [] Hy Hvs Hlen) as (c2 & Hf & c3 & Hc).
  exists c3. split; [|done]. unfold executor. rewrite bind_get. cbn [parent_tuple_].
  assert (open (w, mk (Some c) false None false old) = Done (RC.SUCCESS, (w, mk (Some c1) false None false []))) as Hopen
    by (unfold open, on_operator; st_cbn; by rewrite Ho).
  assert (close (w, mk (Some c2) false None false vs) = Done (RC.SUCCESS, (w, mk (Some c3) false None false vs))) as Hclose
    by (unfold close, on_operator; st_cbn; by rewrite Hc).
  rewrite bind_mret. cbn [need_parent_tuple_ finished negb andb]. rewrite (bind_done _ _ _ _ _ Hopen).
  change (RC.succ RC.SUCCESS) with true. cbv iota. rewrite (bind_done _ _ _ _ _ Hf). cbn [app].
  rewrite decide_False by (intros Hne; by apply Hne). by rewrite (bind_done _ _ _ _ _ Hclose).
Qed.
End executor.
