(* ===== verification/ResolveCorrect.v ===== *)
(** * The types of expressions

    A value is of the type [value_type] announces, or null.  The tuples are those of the
    scans and of the joins over them, whose fields the statements have looked up by name. *)
From S2P Require Import Prelude RidKey Comparator TableMeta SqlValue Row Expr Rewrite Operators PlanGen Resolve.
From S2P Require Import ScanCorrect.
From Stdlib Require Import ZArith Lia.
From stdpp Require Import base option strings list.
Local Open Scope Z_scope.
Import Expr.

Section types.
Context `{!LibText} `{!Uninit} (trx_fields : option (list FieldMeta.t)).

Definition typed (ty : AttrType) (v : Value) : Prop := attr_type_ v = ty ∨ Val.is_null v = true.
(** the field is looked up in the tables the tuple has rows of *)
Inductive from_tables : Tuple.t → list TableMeta.t → Prop :=
| from_row m r : from_tables (table_row m r) [m]
| from_join t1 t2 l1 l2 : from_tables t1 l1 → from_tables t2 l2 → from_tables (Tuple.Joined t1 t2) (l1 ++ l2).
Definition looked_up (f : Field) (m : TableMeta.t) : Prop :=
  TableMeta.name m = fd_table_name f → TableMeta.field_by_name m (fd_field_name f) = Some (fd_meta f).
(** an expression over the tables: no aggregation, and the values a subquery left are of
    its type *)
Fixpoint over_tables (l : list TableMeta.t) (e : Expr.t) : Prop :=
  match e with
  | FieldExpr f => Forall (looked_up f) l
  | CastExpr c _ => over_tables l c
  | SubQueryExpr q => Forall (typed (select_type q)) (value_list_ q)
  | AggreExpression _ => False
  | _ => True
  end.

Lemma set_boolean_typed b v : typed BOOLEANS (Val.set_boolean b v).
Proof. by left. Qed.
Lemma set_data_typed data len v v' : Val.set_data data len v = Some v' → attr_type_ v' = attr_type_ v.
Proof.
  unfold Val.set_data, Val.set_text, Val.set_string, Val.set_chars. intros Hd.
  destruct (attr_type_ v) eqn:Ht; try (by injection Hd as <-); try case_decide; try done;
    by apply bind_Some in Hd as (x & _ & [= <-]).
Qed.
Lemma cell_at_typed r i cell rc v f :
  cell_at trx_fields r i cell = Some (rc, v) → RC.succ rc = true → speces_ r !! Z.to_nat i = Some f →
  typed (FieldMeta.type f) v.
Proof.
  unfold cell_at. intros Hc Hrc Hf. case_decide; [by injection Hc as <- <-|]. rewrite Hf in Hc. cbn [mbind option_bind] in Hc.
  destruct (field_is_null trx_fields (table_ r) f (record_ r).2) as [[|]|]; [|cbn [mbind option_bind] in Hc|done].
  - injection Hc as <- <-. right. done.
  - destruct (Val.set_data _ _ _) as [v'|] eqn:Hd; [|done]. apply set_data_typed in Hd. injection Hc as <- <-. left. exact Hd.
Qed.
Lemma find_field_lookup name l i j :
  find_field name l i = Some j →
  l !! Z.to_nat (j - i) = List.find (λ f, bool_decide (FieldMeta.name f = name)) l.
Proof.
  revert i. induction l as [|f l IH]; intros i; [done|]. cbn [find_field List.find]. case_decide as Hn.
  - intros [= ->]. by rewrite Z.sub_diag, bool_decide_eq_true_2.
  - intros Hj. rewrite bool_decide_eq_false_2 by done. pose proof (find_field_range _ _ _ _ Hj). rewrite <-(IH (i + 1) Hj).
    replace (j - i) with (Z.succ (j - (i + 1))) by lia. by rewrite Z2Nat.inj_succ by lia.
Qed.
Lemma find_cell_typed tuple l f cell rc v :
  from_tables tuple l → Forall (looked_up f) l →
  Tuple.find_cell trx_fields tuple (field_spec (fd_table_name f) (fd_field_name f) None) cell = Some (rc, v) →
  RC.succ rc = true → typed (fd_attr_type f) v.
Proof.
  intros Ht. revert cell rc v. induction Ht as [m r|t1 t2 l1 l2 Ht1 IH1 Ht2 IH2]; intros cell rc v Hl Hf Hrc.
  - apply Forall_inv in Hl. cbn in Hf. unfold find_cell in Hf. cbn [table_ speces_] in Hf.
    case_decide as Hn; [by injection Hf as <- <-|].
    assert (TableMeta.name m = fd_table_name f) as Hm by done.
    destruct (find_field (fd_field_name f) (TableMeta.fields m) 0) as [j|] eqn:Hj; [|by injection Hf as <- <-].
    apply find_field_lookup in Hj. rewrite Z.sub_0_r in Hj. specialize (Hl Hm). unfold TableMeta.field_by_name in Hl.
    rewrite Hl in Hj. by eapply cell_at_typed.
  - apply Forall_app in Hl as [Hl1 Hl2]. cbn [Tuple.find_cell] in Hf.
    destruct (Tuple.find_cell trx_fields t1 _ cell) as [[rc1 v1]|] eqn:H1; [|done]. cbn [mbind option_bind] in Hf. case_decide.
    + injection Hf as -> ->. by eapply IH1.
    + by eapply IH2.
Qed.
Lemma list_value_typed l value rc v ty :
  list_value l value = (rc, v) → RC.succ rc = true → (l = [] → typed ty Val.new) → Forall (typed ty) l → typed ty v.
Proof.
  intros Hl Hrc Hnil Hall. destruct l as [|x [|y l]]; injection Hl as <- <-; [by apply Hnil|by apply Forall_inv in Hall|done].
Qed.
Lemma calc_value_typed type ty l r value rc v :
  calc_value type ty l r value = Some (rc, v) → ty = INTS ∨ ty = FLOATS → attr_type_ v = ty.
Proof.
  unfold calc_value. intros Hc Hty. apply bind_Some in Hc as (x & Hx & [= <- <-]). case_decide as Hi.
  - apply bind_Some in Hx as (i & _ & Hx). by apply bind_Some in Hx as (y & _ & [= <-]).
  - destruct Hty as [?|Hty]; [done|]. apply bind_Some in Hx as (i & _ & Hx). by apply bind_Some in Hx as (y & _ & [= <-]).
Qed.
Lemma value_type_arith type l r ty : value_type (ArithmeticExpr type l (Some r)) = Some ty → ty = INTS ∨ ty = FLOATS.
Proof.
  cbn. destruct (value_type l); [|done]. cbn. case_decide; [|intros [= <-]; by right].
  destruct (value_type r); [|done]. cbn. case_decide; intros [= <-]; [destruct type; auto|by right].
Qed.
Lemma on_success_inv c value k rc v :
  on_success c value k = Some (rc, v) → RC.succ rc = true → ∃ v', c = Some (RC.SUCCESS, v') ∧ k v' = Some (rc, v).
Proof.
  unfold on_success. intros Hc Hrc. apply bind_Some in Hc as ([rc' v'] & -> & Hk). destruct (RC.succ rc') eqn:Hs.
  - apply bool_decide_eq_true_1 in Hs as ->. by exists v'.
  - injection Hk as -> ->. congruence.
Qed.
Lemma conjunction_loop_typed get type cs tmp value rc v :
  conjunction_loop get type cs tmp value = Some (rc, v) → RC.succ rc = true → typed BOOLEANS v.
Proof.
  revert tmp. induction cs as [|c cs IH]; intros tmp; cbn [conjunction_loop].
  - intros [= <- <-] _. apply set_boolean_typed.
  - intros Hc Hrc. apply bind_Some in Hc as ([rc' v'] & _ & Hk). destruct (RC.succ rc') eqn:Hs.
    + apply bind_Some in Hk as (b & _ & Hk). destruct (match type with Conj.AND => negb b | Conj.OR => b end).
      * injection Hk as <- <-. apply set_boolean_typed.
      * by eapply IH.
    + injection Hk as -> ->. congruence.
Qed.
Lemma get_value_typed tuple l e value rc v ty :
  from_tables tuple l → over_tables l e → get_value trx_fields tuple e value = Some (rc, v) → RC.succ rc = true →
  value_type e = Some ty → typed ty v.
Proof.
  intros Ht. revert value rc v ty.
  induction e as [f|x|c cty IH|op a b _ _|ct cs _|at_ a _|at_ a b _ _|vs|q|a op b _ _|op a _|a] using Expr.expr_ind;
    intros value rc v ty Ho Hg Hrc Hty; cbn in Ho; cbn [get_value] in Hg.
  - injection Hty as <-. by eapply find_cell_typed.
  - injection Hg as <- <-. injection Hty as <-. by left.
  - injection Hty as <-. apply bind_Some in Hg as ([rc' v'] & Hc & Hk). destruct (RC.succ rc') eqn:Hs.
    + unfold cast in Hk. case_decide as He; [injection Hk as <- <-; by left|].
      destruct cty; try (by injection Hk as <- <-). apply bind_Some in Hk as (b & _ & [= <- <-]). apply set_boolean_typed.
    + injection Hk as -> ->. congruence.
  - injection Hty as <-. apply on_success_inv in Hg as (x & _ & Hg); [|done]. apply on_success_inv in Hg as (y & _ & Hg); [|done].
    apply bind_Some in Hg as (z & _ & [= <- <-]). apply set_boolean_typed.
  - injection Hty as <-. destruct cs as [|c cs]; [injection Hg as <- <-; apply set_boolean_typed|].
    by eapply conjunction_loop_typed.
  - by apply on_success_inv in Hg as (x & _ & ?).
  - apply on_success_inv in Hg as (x & _ & Hg); [|done]. cbn [mbind option_bind] in Hg.
    apply on_success_inv in Hg as (y & _ & Hg); [|done]. rewrite Hty in Hg. cbn [mbind option_bind] in Hg.
    left. eapply calc_value_typed; [exact Hg|by eapply value_type_arith].
  - injection Hg as Hg. destruct vs as [|x [|y vs]]; [done| |by injection Hg as <- <-].
    injection Hty as <-. injection Hg as <- <-. by left.
  - injection Hty as <-. injection Hg as Hg. eapply list_value_typed; [exact Hg|done| |done]. intros _. by right.
  - injection Hty as <-. apply on_success_inv in Hg as (x & _ & Hg); [|done]. apply bind_Some in Hg as (vs & _ & Hg).
    apply bind_Some in Hg as (z & _ & [= <- <-]). apply set_boolean_typed.
  - injection Hty as <-. unfold exists_value in Hg. apply bind_Some in Hg as (vs & _ & [= <- <-]). apply set_boolean_typed.
  - done.
Qed.
End types.

(** * Statements are resolved

    The creation of a statement ends, with the depth of its subqueries as fuel, and what it
    creates names fields of tables of the database. *)
(** ** Runs that end, if they do not crash *)
Section ends_with.
Context {S : Type}.
Definition ends_with {A} (c : ST S A) (Q : A → Prop) : Prop :=
  ∀ s, match c s with Done (a, _) => Q a | Crash => True | OutOfFuel => False end.
Lemma ends_ret {A} (a : A) (Q : A → Prop) : Q a → ends_with (mret a) Q.
Proof. by intros HQ s. Qed.
Lemma ends_with_bind {A B} (c : ST S A) (k : A → ST S B) P Q :
  ends_with c P → (∀ a, P a → ends_with (k a) Q) → ends_with (c ≫= k) Q.
Proof.
  intros Hc Hk s. specialize (Hc s). unfold mbind, ST_bind. destruct (c s) as [[a s']| |]; [|done|done].
  exact (Hk a Hc s').
Qed.
Lemma ends_some {A} (o : option A) (Q : A → Prop) : (∀ a, o = Some a → Q a) → ends_with (st_some o) Q.
Proof. intros Ho s. unfold st_some. destruct o; [by apply Ho|done]. Qed.
Lemma ends_mono {A} (c : ST S A) P Q : (∀ a, P a → Q a) → ends_with c P → ends_with c Q.
Proof. intros HPQ Hc s. specialize (Hc s). destruct (c s) as [[a s']| |]; [by apply HPQ|done|done]. Qed.
(** a result that satisfies [Q], or a code *)
Definition or_code {A} (Q : A → Prop) (r : RC.t + A) : Prop := match r with inl _ => True | inr a => Q a end.
Lemma ends_or_bind {A B} (c : ST S (RC.t + A)) (k : A → ST S (RC.t + B)) P Q :
  ends_with c (or_code P) → (∀ a, P a → ends_with (k a) (or_code Q)) → ends_with (a <-? c;; k a) (or_code Q).
Proof. intros Hc Hk. eapply ends_with_bind; [exact Hc|]. intros [rc|a] Ha; [by apply ends_ret|by apply Hk]. Qed.
End ends_with.

(** ** The depth of the subqueries *)
Lemma max_list_le {A} (f : A → nat) l d : (max_list_with f l <= d)%nat ↔ Forall (λ x, (f x <= d)%nat) l.
Proof.
  induction l as [|x l IH]; [split; [done|cbn; lia]|]. cbn. rewrite Forall_cons, <-IH. lia.
Qed.
Definition cond_depth (c : ConditionSqlNode) : nat := Nat.max (expr_depth (cond_left c)) (expr_depth (cond_right c)).
Definition shallow (d : nat) (c : ConditionSqlNode) : Prop := (cond_depth c <= d)%nat.
Lemma select_depth_le q d :
  (select_depth q <= S d)%nat ↔
  let 'MkSelectNode _ _ _ conditions joinctions _ := q in
  Forall (shallow d) conditions ∧ Forall (λ j, Forall (shallow d) j.2) joinctions.
Proof.
  destruct q as [attrs aggres rels conds joins orders]. unfold select_depth. cbn [expr_depth].
  rewrite <-Nat.succ_le_mono, Nat.max_lub_iff, !max_list_le.
  assert (∀ l : list ConditionSqlNode, Forall (λ c, ((let 'MkCondition l _ r _ := c in Nat.max (expr_depth l) (expr_depth r)) <= d)%nat) l ↔ Forall (shallow d) l) as Heq.
  { intros l. split; intros Hl; eapply Forall_impl; try exact Hl; by intros []. }
  rewrite Heq. apply and_iff_compat_l. split; intros Hj; (eapply Forall_impl; [exact Hj|]); intros j; by rewrite max_list_le, Heq.
Qed.
Lemma handle_conditions_depth side d conditions r :
  (∀ e e', (expr_depth e <= d)%nat → side e = inr e' → (expr_depth e' <= d)%nat) →
  Forall (shallow d) conditions → handle_conditions side conditions = inr r → Forall (shallow d) r.
Proof.
  intros Hside Hc. revert r. induction Hc as [|[l comp rr b] conds Hd Hc IH]; intros r; cbn.
  - by intros [= <-].
  - unfold shallow, cond_depth in Hd. cbn in Hd.
    destruct (side l) as [|l'] eqn:Hl; [done|]. destruct (side rr) as [|r'] eqn:Hr; [done|].
    destruct (handle_conditions side conds) as [|rest]; [done|]. intros [= <-]. constructor; [|by apply IH].
    pose proof (Hside l l' ltac:(lia) Hl). pose proof (Hside rr r' ltac:(lia) Hr). unfold shallow, cond_depth. cbn. lia.
Qed.
Lemma handle_select_depth side d names q q' :
  (∀ names e e', (expr_depth e <= d)%nat → side names e = inr e' → (expr_depth e' <= d)%nat) →
  (select_depth q <= S d)%nat → handle_select side names q = inr q' → (select_depth q' <= S d)%nat.
Proof.
  intros Hside. destruct q as [attrs aggres rels conds joins orders]. rewrite select_depth_le. intros [Hc Hj].
  unfold handle_select. destruct (repeated_alias rels); [done|]. destruct (existsb star_alias attrs); [done|].
  destruct (handle_conditions (side (names ++ rels)) conds) as [|conds'] eqn:Hh; [done|]. intros [= <-].
  apply select_depth_le. split; [|done]. eapply handle_conditions_depth; [|exact Hc|exact Hh]. intros e e'. apply Hside.
Qed.
Lemma handle_side_depth d names e e' :
  (expr_depth e <= d)%nat → handle_side names e = inr e' → (expr_depth e' <= d)%nat.
Proof.
  revert names e e'. induction d as [|d IH]; intros names e e' Hd; destruct e as [t f|v|l|q];
    cbn [handle_side]; try (by intros [= <-]).
  - destruct q; cbn in Hd. lia.
  - destruct (handle_select handle_side names q) as [|q'] eqn:Hq; [done|]. intros [= <-].
    by apply (handle_select_depth handle_side d names q q').
Qed.
Lemma handle_alias_depth q q' d : (select_depth q <= S d)%nat → handle_alias q = inr q' → (select_depth q' <= S d)%nat.
Proof. apply handle_select_depth. intros names e e'. apply handle_side_depth. Qed.

(** ** What is created *)
Section resolve.
Context `{!LibText} `{!Uninit} (trx_fields : option (list FieldMeta.t)).
Context (find_table : string → option TableMeta.t).
Definition in_db (t : TableMeta.t) : Prop := ∃ n, find_table n = Some t.
Definition map_ok (m : list (string * TableMeta.t)) : Prop := Forall (λ p, in_db p.2) m.
(** a field looked up in a table of the database *)
Definition resolved (f : Field) : Prop :=
  in_db (fd_table f) ∧ TableMeta.field_by_name (fd_table f) (fd_field_name f) = Some (fd_meta f).
(** a field of a table of the database; it may be hidden by one before it that has its name *)
Definition listed (f : Field) : Prop :=
  in_db (fd_table f) ∧ fd_meta f ∈ TableMeta.fields (fd_table f).
Definition side_ok (e : Expr.t) : Prop :=
  match e with
  | Expr.FieldExpr f => resolved f
  | Expr.ValueExpr _ | Expr.ValueListExpr _ => True
  | Expr.SubQueryExpr q => value_list_ q = []
  | _ => False
  end.
Definition item_ok (e : Expr.t) : Prop :=
  match e with Expr.FieldExpr f => listed f | Expr.AggreExpression a => listed (ag_field a) | _ => False end.
Definition unit_ok (u : FilterUnit) : Prop := side_ok (left_ u) ∧ side_ok (right_ u) ∧ comp_ u ≠ CompOp.NO_OP.
Record statement_ok (s : SelectStmt) : Prop := {
  st_tables : Forall in_db (tables_ s);
  st_expressions : Forall item_ok (expressions_ s);
  st_units : Forall unit_ok (filter_units_ (filter_stmt_ s));
  st_orders : Forall (λ u, resolved u.1) (order_units_ s)
}.

Lemma lookup_resolved t name f : in_db t → TableMeta.field_by_name t name = Some f → resolved (MkField t f).
Proof.
  intros Ht Hf. split; [done|]. unfold fd_field_name. cbn. unfold TableMeta.field_by_name in *.
  pose proof (List.find_some _ _ Hf) as [_ Hn]. apply bool_decide_eq_true_1 in Hn. by rewrite Hn.
Qed.
Lemma lookup_listed t name f : in_db t → TableMeta.field_by_name t name = Some f → listed (MkField t f).
Proof. intros Ht [Hf _]%List.find_some. split; [done|]. by apply list_elem_of_In. Qed.
Lemma map_find_ok m name t : map_ok m → map_find m name = Some t → in_db t.
Proof.
  unfold map_find. intros Hm Hf. destruct (List.find _ m) as [p|] eqn:Hp; [|done]. injection Hf as <-.
  apply List.find_some in Hp as [Hin _]. unfold map_ok in Hm. rewrite Forall_forall in Hm. apply Hm. by apply list_elem_of_In.
Qed.
Lemma get_table_and_field_ok d m tn fn :
  (∀ t, d = Some t → in_db t) → map_ok m → or_code resolved (get_table_and_field d m tn fn).
Proof.
  intros Hd Hm. unfold get_table_and_field. destruct (if is_blank tn then d else map_find m tn) as [t|] eqn:Ht; [|done].
  destruct (TableMeta.field_by_name t fn) as [f|] eqn:Hf; [|done]. cbn. eapply lookup_resolved; [|exact Hf].
  destruct (is_blank tn); [by apply Hd|by eapply map_find_ok].
Qed.
Lemma find_tables_ok names : or_code map_ok (find_tables find_table names).
Proof.
  induction names as [|n names IH]; [constructor|]. cbn. destruct (find_table n) as [t|] eqn:Ht; [|done].
  destruct (find_tables find_table names); [done|]. constructor; [by exists n|exact IH].
Qed.
Lemma create_order_ok d m orders :
  (∀ t, d = Some t → in_db t) → map_ok m → or_code (Forall (λ u : Field * bool, resolved u.1)) (create_order d m orders).
Proof.
  intros Hd Hm. induction orders as [|o orders IH]; [constructor|]. cbn.
  pose proof (get_table_and_field_ok d m (relation_name (rel_attr o)) (attribute_name (rel_attr o)) Hd Hm) as Hf.
  destruct (get_table_and_field _ _ _ _) as [|f]; [done|]. destruct (create_order d m orders); [done|]. by constructor.
Qed.

(** *** The items *)
Lemma listed_resolved f : NoDup (FieldMeta.name <$> TableMeta.fields (fd_table f)) → listed f → resolved f.
Proof.
  destruct f as [t f]. cbn. intros Hnd [Ht Hf]. split; [done|]. unfold fd_field_name. cbn in Hf |- *. unfold TableMeta.field_by_name.
  clear Ht. induction (TableMeta.fields t) as [|g l IH]; [by apply not_elem_of_nil in Hf|].
  cbn in Hnd. apply NoDup_cons in Hnd as [Hg Hnd]. cbn [List.find]. inversion Hf as [|? ? ? Hf']; subst.
  - by rewrite bool_decide_eq_true_2.
  - rewrite bool_decide_eq_false_2; [by apply IH|]. intros Heq. apply Hg. rewrite Heq. by apply list_elem_of_fmap_2.
Qed.
Lemma wildcard_ok t : in_db t → Forall (λ i, listed (si_field i)) (wildcard_fields trx_fields t).
Proof.
  intros Ht. unfold wildcard_fields, TableMeta.user_fields. rewrite Forall_fmap. apply Forall_drop.
  apply Forall_forall. intros f Hf. by split.
Qed.
Lemma create_fields_ok m tables attrs :
  map_ok m → Forall in_db tables → or_code (Forall (λ i, listed (si_field i))) (create_fields trx_fields m tables attrs).
Proof.
  intros Hm Ht. assert (∀ t al f, in_db t → or_code (Forall (λ i, listed (si_field i))) (one_field t al f)) as Hone.
  { intros t al f Hdb. unfold one_field. destruct (TableMeta.field_by_name t (attribute_name f)) eqn:Hf; [|done].
    constructor; [by eapply lookup_listed|constructor]. }
  assert (∀ f, or_code (Forall (λ i, listed (si_field i))) (select_field trx_fields m tables f)) as Hsel.
  { intros f. unfold select_field. destruct (_ || _); [done|]. destruct (is_empty (relation_name f) && _).
    { cbn. clear -Ht. induction Ht as [|t ts Ht Hts IH]; [constructor|]. cbn. apply Forall_app. split; [|exact IH].
      by apply wildcard_ok. }
    destruct (is_empty (relation_name f)).
    - destruct tables as [|t [|]]; [done| |done]. apply Hone. by apply Forall_inv in Ht.
    - destruct (map_find m (relation_name f)) as [t|] eqn:Hf; [|done]. pose proof (map_find_ok _ _ _ Hm Hf).
      case_decide; [|by apply Hone]. by apply wildcard_ok. }
  induction attrs as [|f attrs IH]; [constructor|]. cbn. specialize (Hsel f).
  destruct (select_field trx_fields m tables f); [done|]. destruct (create_fields trx_fields m tables attrs); [done|].
  by apply Forall_app.
Qed.
Lemma create_aggres_ok m tables nodes r :
  map_ok m → Forall in_db tables → create_aggres m tables nodes = Some r → or_code (Forall (λ a, listed (ag_field a))) r.
Proof.
  intros Hm Ht. revert r. induction nodes as [|n nodes IH]; intros r; cbn; [intros [= <-]; constructor|].
  intros Hr. apply bind_Some in Hr as (a & Ha & Hr). assert (or_code (λ a, listed (ag_field a)) a) as Hok.
  { unfold create_aggre in Ha. apply bind_Some in Ha as (t & Hh & Ha).
    assert (in_db t) as Hdb by (destruct tables; [done|]; injection Hh as ->; by apply Forall_inv in Ht).
    destruct (_ && _); [by injection Ha as <-|]. case_bool_decide.
    - apply bind_Some in Ha as (f & Hf & [= <-]). split; [done|]. by eapply list_elem_of_lookup_2.
    - injection Ha as <-. unfold aggre_field. destruct (if is_empty _ then _ else _) as [t'|] eqn:Ht'; [|done].
      destruct (TableMeta.field_by_name t' _) eqn:Hf; [|done]. eapply lookup_listed; [|exact Hf].
      destruct (is_empty _); [|by eapply map_find_ok]. destruct tables as [|x [|]]; [done| |done]. injection Ht' as ->. by apply Forall_inv in Ht. }
  destruct a as [|a]; [by injection Hr as <-|]. apply bind_Some in Hr as (r' & Hr' & [= <-]). specialize (IH r' Hr').
  destruct r'; [done|]. by constructor.
Qed.
Lemma get_expressions_ok m tables attrs nodes r :
  map_ok m → Forall in_db tables → get_expressions trx_fields m tables attrs nodes = Some r → or_code (Forall item_ok) r.
Proof.
  intros Hm Ht. unfold get_expressions. destruct attrs as [|f attrs].
  - intros Hr. apply fmap_Some in Hr as (r' & Hr' & ->). pose proof (create_aggres_ok _ _ _ _ Hm Ht Hr') as Hok.
    destruct r' as [|l]; [done|]. cbn in *. apply Forall_forall. intros e (a & <- & Ha)%list_elem_of_In%in_map_iff.
    rewrite Forall_forall in Hok. apply Hok. by apply list_elem_of_In.
  - generalize (f :: attrs). intros l0 Hr. pose proof (create_fields_ok m tables l0 Hm Ht) as Hok.
    injection Hr as <-. destruct (create_fields trx_fields m tables l0) as [|l]; [done|]. cbn in *.
    apply Forall_forall. intros e (a & <- & Ha)%list_elem_of_In%in_map_iff.
    rewrite Forall_forall in Hok. apply Hok. by apply list_elem_of_In.
Qed.

(** *** The conditions *)
Lemma check_sides_ok l r c : side_ok l → side_ok r → check_sides l r = Some c → or_code (λ p, side_ok p.1 ∧ side_ok p.2) c.
Proof.
  intros Hl Hr Hc. apply bind_Some in Hc as (lt & _ & Hc). apply bind_Some in Hc as (rt & _ & Hc).
  case_decide; [by injection Hc as <-|].
  assert (∀ x y, Some (inr (x, y)) = Some c → side_ok x → side_ok y → or_code (λ p, side_ok p.1 ∧ side_ok p.2) c) as Hdone
    by (by intros x y [= <-]).
  destruct l; try done; destruct r; try (by apply (Hdone _ _ Hc)).
  - destruct (Val.is_null v); [by apply (Hdone _ _ Hc)|]. case_decide.
    + apply bind_Some in Hc as (d & _ & [= <-]). by case_decide.
    + case_decide; [|by apply (Hdone _ _ Hc)]. apply bind_Some in Hc as ([|] & _ & [= <-]); done.
  - case_decide; [by apply (Hdone _ _ Hc)|]. case_decide; [|by apply (Hdone _ _ Hc)].
    apply bind_Some in Hc as ([|] & _ & Hc); [by injection Hc as <-|]. apply bind_Some in Hc as ([|] & _ & [= <-]); done.
Qed.
Section filter.
Context (create : SelectSqlNode → ST (list SelectStmt) (RC.t + SelectStmt)) (d : nat).
Context (Hcreate : ∀ q, (select_depth q <= d)%nat → ends_with (create q) (or_code statement_ok)).
Lemma create_side_ok dt m e :
  (∀ t, dt = Some t → in_db t) → map_ok m → (expr_depth e <= d)%nat → ends_with (create_side create dt m e) (or_code side_ok).
Proof.
  intros Hd Hm He. destruct e as [tn fn|v|l|q]; cbn [create_side]; [|by apply ends_ret|by apply ends_ret|].
  - apply ends_ret. pose proof (get_table_and_field_ok dt m tn fn Hd Hm) as Hf. by destruct (get_table_and_field dt m tn fn).
  - eapply ends_or_bind; [by apply Hcreate|]. intros s _. eapply (ends_with_bind _ _ side_ok); [|intros a Ha; by apply ends_ret].
    unfold new_subquery. eapply (ends_with_bind _ _ (λ _, True)); [done|]. intros subs _.
    eapply ends_with_bind; [by apply (ends_some _ (λ _, True))|]. intros e _.
    eapply ends_with_bind; [by apply (ends_some _ (λ _, True))|]. intros ty _.
    eapply (ends_with_bind _ _ (λ _, True)); [done|]. intros _ _. by apply ends_ret.
Qed.
Lemma create_filter_ok dt m conds :
  (∀ t, dt = Some t → in_db t) → map_ok m → Forall (shallow d) conds →
  ends_with (create_filter create dt m conds) (or_code (λ f, Forall unit_ok (filter_units_ f))).
Proof.
  intros Hd Hm Hc. unfold create_filter. apply (ends_or_bind _ _ (Forall unit_ok)); [|by intros us Hus; apply ends_ret].
  induction Hc as [|[l comp r b] conds Hs Hc IH]; [apply ends_ret; constructor|]. cbn [create_units create_filter_unit].
  unfold shallow, cond_depth in Hs. cbn in Hs. apply (ends_or_bind _ _ unit_ok).
  - case_decide as Hop; [by apply ends_ret|]. eapply ends_or_bind; [apply (create_side_ok dt m l); [done|done|lia]|].
    intros l' Hl. eapply ends_or_bind; [apply (create_side_ok dt m r); [done|done|lia]|]. intros r' Hr.
    eapply ends_with_bind; [apply ends_some; intros c; by apply (check_sides_ok l' r')|].
    intros [rc|[l2 r2]] Hok; [by apply ends_ret|]. apply ends_ret. destruct Hok. by split_and!.
  - intros u Hu. eapply ends_or_bind; [exact IH|]. intros us Hus. apply ends_ret. by constructor.
Qed.
End filter.

(** ** The statements *)
Lemma create_select_ok fuel q :
  (select_depth q <= fuel)%nat → ends_with (create_select trx_fields find_table fuel q) (or_code statement_ok).
Proof.
  revert q. induction fuel as [|fuel IH]; intros q Hq; [destruct q; cbn in Hq; lia|]. cbn [create_select].
  destruct q as [attrs aggres rels conds joins orders] eqn:Heq. rewrite <-Heq in Hq. unfold create_select_node.
  pose proof (find_tables_ok ((at_relation <$> rels) ++ (fst <$> joins))) as Hm.
  destruct (find_tables find_table _) as [|m]; [by apply ends_ret|]. cbn in Hm.
  assert (Forall in_db (snd <$> m)) as Ht by (by apply Forall_fmap).
  rewrite <-Heq. destruct (handle_alias q) as [|q'] eqn:Ha; [by apply ends_ret|].
  pose proof (handle_alias_depth _ _ _ Hq Ha) as Hq'. destruct q' as [attrs' aggres' rels' conds' joins' orders'].
  apply select_depth_le in Hq' as [Hc' _].
  rewrite Heq in Hq. apply select_depth_le in Hq as [_ Hj].
  eapply ends_or_bind; [apply ends_some; intros r; by apply get_expressions_ok|]. intros es Hes.
  set (cs := conds' ++ (joins ≫= snd)). assert (Forall (shallow fuel) cs) as Hcs.
  { apply Forall_app. split; [done|]. clear -Hj. induction Hj as [|j joins Hj _ IH]; [constructor|]. cbn. by apply Forall_app. }
  pose proof (find_tables_ok (condition_tables cs)) as Hm2.
  destruct (find_tables find_table (condition_tables cs)) as [|m2]; [by apply ends_ret|]. cbn in Hm2.
  assert (map_ok (m ++ m2)) as Hmm by (by apply Forall_app).
  assert (∀ t, match snd <$> m with [t] => Some t | _ => None end = Some t → in_db t) as Hd.
  { destruct m as [|p [|]]; try done. intros t [= <-]. by apply Forall_inv in Ht. }
  eapply ends_or_bind; [by apply (create_filter_ok _ fuel)|]. intros f Hf. apply ends_ret.
  pose proof (create_order_ok (match snd <$> m with [t] => Some t | _ => None end) (m ++ m2) orders Hd Hmm) as Ho.
  destruct (create_order _ _ orders); [done|]. by split.
Qed.

(** ** Their types *)
Lemma resolved_looked_up f l :
  (∀ n t, find_table n = Some t → TableMeta.name t = n) → Forall in_db l → resolved f → Forall (looked_up f) l.
Proof.
  intros Hn Hl [[n Hf] Hm]. rewrite Forall_forall in Hl |- *. intros m Hin Heq. destruct (Hl m Hin) as [n' Hf'].
  pose proof (Hn _ _ Hf). pose proof (Hn _ _ Hf'). unfold fd_table_name in Heq.
  assert (n = n') by congruence. assert (fd_table f = m) as <- by congruence. done.
Qed.
End resolve.
