(* ===== verification/QueryTheorems.v ===== *)
(** * Queries: the theorems

    From the syntax tree of a SELECT to the rows its physical plan yields; the rewriter; the
    operators one by one, and where they do not do what they should. *)
From S2P Require Import Prelude RidKey Comparator Bitmap TableMeta SqlValue SqlValueCorrect Row RowCorrect SqlTheorems Expr Rewrite RewriteCorrect.
From S2P Require Import Operators OperatorsCorrect Aggregate AggregateCorrect OrderScan OrderCorrect ScanCorrect IndexScan Dml.
From S2P Require Import LruCache BufferPool RecordPage RecordFile RecordFileCorrect RecordTheorems.
From S2P Require Import PlanGen PlanExec PlanCorrect SubQuery ResolveCorrect Resolve.
From Stdlib Require Import ZArith Lia Floats.SpecFloat.
From stdpp Require Import base option strings list sorting.
Local Open Scope Z_scope.

(** ** A database for the witnesses *)
(** two tables, [people(id, name)] and [pets(owner)], read by a scanner of lists *)
Definition people : TableMeta.t :=
  match TableMeta.init None 1 "people" [MkAttrInfo INTS "id" 4 false; MkAttrInfo CHARS "name" 8 true] with
  | Done (inr m) => m | _ => TableMeta.mk 0 "" [] [] 0 end.
Definition pets : TableMeta.t :=
  match TableMeta.init None 2 "pets" [MkAttrInfo INTS "owner" 4 false] with
  | Done (inr m) => m | _ => TableMeta.mk 0 "" [] [] 0 end.
Definition int_value (x : Z) : Value := MkValue INTS 4 (store32 x) [].
Definition char_value (s : string) : Value := MkValue CHARS (Z.of_nat (String.length s)) [0; 0; 0; 0] (text s).
Definition demo_record (m : TableMeta.t) (n : Z) (vs : list Value) : RID.t * memory :=
  (RID.mk 1 n, match @make_record demo_text None m vs (replicate (Z.to_nat (TableMeta.record_size m)) 0) with
               | Some (inr data) => data | _ => [] end).
Definition demo_records (m : TableMeta.t) : list (RID.t * memory) :=
  if decide (TableMeta.name m = "people"%string) then
    [demo_record people 0 [int_value 2; char_value "bob"]; demo_record people 1 [int_value 1; char_value "ann"];
     demo_record people 2 [int_value 3; char_value "eve"]]
  else [demo_record pets 0 [int_value 3]; demo_record pets 1 [int_value 2]; demo_record pets 2 [int_value 3]].
Definition demo_find (name : string) : option TableMeta.t :=
  if decide (name = "people"%string) then Some people
  else if decide (name = "pets"%string) then Some pets else None.
Abbreviation demo_scanner := (list (RID.t * memory) * list (RID.t * memory))%type.
Definition demo_scan : ScanOps () demo_scanner := {|
  scan_open := λ _ '(w, sc), Done (RC.SUCCESS, (w, (sc.1, sc.1)));
  scan_has_next sc := match sc.2 with [] => false | _ => true end;
  scan_next := λ '(w, sc), match sc.2 with r :: l => Done ((RC.SUCCESS, r), (w, (sc.1, l))) | [] => Crash end;
  scan_close := λ '(w, sc), Done (RC.SUCCESS, (w, sc)) |}.
Lemma demo_scans l : scans demo_scan () true (λ sc, sc.1 = l) l.
Proof.
  intros sc <-. exists (sc.1, sc.1). split; [done|].
  assert (∀ all rest, scan_yields demo_scan () (λ s, ∃ s', scan_close (ScanOps := demo_scan) ((), s) = Done (RC.SUCCESS, ((), s')) ∧ s'.1 = all)
    (all, rest) rest) as Hy; [|apply Hy].
  clear. intros all rest. induction rest as [|r rest IH]; [constructor; [done|by eexists]|].
  eapply scan_yields_cons; [done|done|by eexists|exact IH].
Qed.
Definition demo_index_scan : IndexScanOps () () () := {|
  index_create_scanner := λ _ _ _ _ _ _ _ w, Done (Some (), w);
  index_next_entry := λ _ s, Done ((RC.RECORD_EOF, RID.mk 0 0), s);
  index_destroy := λ _ w, Done (RC.SUCCESS, w);
  record_get := λ _ _ w, Done (inl RC.RECORD_NOT_EXIST, w);
  record_visit := λ _ _ w, Done (RC.SUCCESS, w) |}.
Definition demo_trx : TrxOps () := {|
  trx_insert_record := λ _ _ w, Done (RC.SUCCESS, w); trx_delete_record := λ _ _ w, Done (RC.SUCCESS, w);
  trx_update_record := λ _ _ _ w, Done (RC.SUCCESS, w); table_indexes := λ _ _, [] |}.
Definition no_executor (q : SubQuery) (_ : option Tuple.t) : option (RC.t * SubQuery) := Some (RC.SUCCESS, q).

Section demo_query.
#[local] Existing Instance demo_text.
#[local] Existing Instance demo_uninit.
#[local] Existing Instance demo_sort.
#[local] Existing Instance demo_index_scan.
#[local] Existing Instance demo_trx.
#[local] Existing Instance demo_scan.
(** SELECT people.name, people.id FROM people, pets WHERE people.id = pets.owner AND
    people.id > 1 ORDER BY people.id DESC *)
Definition demo_query : SelectSqlNode :=
  MkSelectNode [MkRelAttr "people" "" "name" ""; MkRelAttr "people" "" "id" ""] [] [MkAttr "people" ""; MkAttr "pets" ""]
    [MkCondition (ParseFieldExpr "people" "id") CompOp.EQUAL_TO (ParseFieldExpr "pets" "owner") false;
     MkCondition (ParseFieldExpr "people" "id") CompOp.GREAT_THAN (ParseValueExpr (int_value 1)) false]
    [] [MkOrderNode (MkRelAttr "people" "" "id" "") false].
Definition demo_select : SelectStmt :=
  match create_select None demo_find 1 demo_query [] with
  | Done (inr s, _) => s | _ => MkSelectStmt [] [] (MkFilterStmt [] false) [] end.
Definition demo_conditions : list Expr.t :=
  default [] (mapM LogicalPlanGenerator.filter_expr (filter_units_ (filter_stmt_ demo_select))).
Definition demo_rows : list Tuple.t := select_rows None demo_records demo_select demo_conditions.
Definition demo_scan_of (m : TableMeta.t) : demo_scanner := (demo_records m, []).
(** every table has an index over its id, which the query does not use *)
Definition demo_find_index (t : TableMeta.t) (names : list string) : option (() * list FieldMeta.t) :=
  if decide (names = ["id"%string]) then Some ((), []) else None.
Lemma demo_not_equated name : ¬ equated_field demo_conditions name.
Proof.
  assert (omap PhysicalPlanGenerator.index_term demo_conditions = []) as Hnil by (vm_compute; reflexivity).
  intros (e & t & He & Ht & _). apply (not_elem_of_nil t). rewrite <-Hnil. apply list_elem_of_omap. by exists e.
Qed.
Lemma demo_select_ok fuel :
  (20 <= fuel)%nat → select_ok (IX := ()) None demo_scan fuel demo_find_index (equated_field demo_conditions) demo_scan_of () demo_records demo_select demo_conditions.
Proof.
  intros Hfuel. split.
  - split; [vm_compute; discriminate|]. apply Forall_forall. intros t Ht. split.
    + split.
      { intros names Hnames. unfold demo_find_index. case_decide as Hn; [|done]. subst names.
        apply Forall_inv in Hnames. by apply demo_not_equated in Hnames. }
      exists (λ sc, sc.1 = demo_records t). split; [done|]. apply demo_scans.
    + unfold demo_records. case_decide; cbn; lia.
  - vm_compute. reflexivity.
  - apply (where_safe (H := demo_text) (H0 := demo_uninit) _ (filter_units_ (filter_stmt_ demo_select))); [vm_compute; reflexivity|vm_compute; repeat constructor].
  - split; [vm_compute; lia|].
    assert (∀ l e, forallb (λ t, match pred_result None t e with Some (inr _) => true | _ => false end) l = true → plain e = true →
      (∀ t, PhysicalPlanGenerator.index_term e = Some t → equated_field demo_conditions (fd_field_name t.1)) →
      evaluable None (equated_field demo_conditions) l e) as He.
    { intros l e Hl Hp Hi. split_and!; [done| |done]. apply Forall_forall. intros t Ht. rewrite forallb_forall in Hl.
      specialize (Hl t ltac:(by apply list_elem_of_In)). destruct (pred_result None t e) as [[|b]|]; [done|by exists b|done]. }
    apply Forall_forall. intros e Ht. apply He.
    + assert (forallb (λ e, forallb (λ t, match pred_result None t e with Some (inr _) => true | _ => false end)
        (from_rows demo_records (tables_ demo_select))) demo_conditions = true) as Hall by (vm_compute; reflexivity).
      rewrite forallb_forall in Hall. apply Hall. by apply list_elem_of_In.
    + assert (forallb plain demo_conditions = true) as Hall by (vm_compute; reflexivity).
      rewrite forallb_forall in Hall. apply Hall. by apply list_elem_of_In.
    + intros t Hi. by exists e, t.
  - vm_compute. by intros [].
  - intros _. split; [vm_compute; discriminate|]. split; [vm_compute; lia|].
    apply demo_sort_perm. vm_compute. by eexists.
  - vm_compute. by eexists.
Qed.
End demo_query.

(** The rewriter is wrong on constants.  A conjunction with a false constant behind
    another condition becomes that condition, so that `WHERE id = 1 AND 1 = 2' keeps rows;
    a disjunction of false constants becomes empty, which is true. *)
Lemma rewrite_wrong_on_constants (L : LibText) (U : Uninit) (trx_fields : option (list FieldMeta.t)) (a f : Expr.t)
  (Ha : try_to_get_bool_constant a = Some None) (Hf : try_to_get_bool_constant f = Some (Some false)) (Hat : atom a = true) :
  (conjunction_simplification (Expr.ConjunctionExpr Conj.AND [a; f]) = Some (a, false) ∧
   ∀ tuple b, pred_result trx_fields tuple a = Some (inr b) →
     pred_result trx_fields tuple (Expr.ConjunctionExpr Conj.AND [a; f]) = Some (inr false)) ∧
  (conjunction_simplification (Expr.ConjunctionExpr Conj.OR [f; f]) = Some (Expr.ConjunctionExpr Conj.OR [], false) ∧
   ∀ tuple, pred_result trx_fields tuple (Expr.ConjunctionExpr Conj.OR [f; f]) = Some (inr false) ∧
     pred_result trx_fields tuple (Expr.ConjunctionExpr Conj.OR []) = Some (inr true)).
Proof.
  assert (atom f = true ∧ ∀ tuple, pred_result trx_fields tuple f = Some (inr false)) as [Hfa Hff].
  { destruct f; try done. cbn in Hf. case_decide as Ht; [|done]. apply fmap_Some in Hf as (b & Hb & [= <-]).
    split; [by apply bool_decide_eq_true_2|]. intros tuple. unfold pred_result. cbn. by rewrite Hb. }
  split; split.
  - cbn [conjunction_simplification conjunction_children]. rewrite Ha. cbn [mbind option_bind app conjunction_children].
    by rewrite ?Hf.
  - intros tuple b Hb. rewrite conjunction_result by (done || by repeat constructor). cbn. rewrite Hb, Hff. by destruct b.
  - cbn [conjunction_simplification conjunction_children]. rewrite Hf. cbn [mbind option_bind app conjunction_children Bool.eqb deciding].
    by rewrite ?Hf.
  - intros tuple. split; [|done]. rewrite conjunction_result by (done || by repeat constructor). cbn. by rewrite Hff.
Qed.
(** C12: The rewriter ends; it keeps the rows of the plans in whose conditions no constant
    decides before others, and is wrong on the others.  Whatever the plan, as many passes
    as it has nodes and expressions are enough.  On a plan of the generator whose conditions
    the rewriter may simplify ([plan_ok]: no conjunction has a constant that decides it next
    to other conditions) the rewritten plan has the rows of the plan, whatever the tables
    hold, and no more nodes.  Elsewhere it need not: a conjunction with a false constant
    behind another condition becomes that condition, so that `WHERE id = 1 AND 1 = 2' keeps
    the rows with id 1, which the conjunction refuses; a disjunction of false constants, which
    refuses every row, becomes an empty one, which accepts them all. *)
Theorem rewrite_correct (L : LibText) (U : Uninit) (trx_fields : option (list FieldMeta.t))
  (scan : TableMeta.t → list Tuple.t) (unary : Logical.oper → list Tuple.t → list Tuple.t) (passes : nat) (n : Logical.t)
  (Hpasses : (node_size n < passes)%nat) :
  optimize_rewrite passes n ≠ OutOfFuel ∧
  (plan_ok trx_fields scan unary (λ _ _, True) (λ _ _, True) (λ _ _, True) n →
   ∃ n', optimize_rewrite passes n = Done n' ∧ rows trx_fields scan unary n' = rows trx_fields scan unary n ∧
     (node_size n' <= node_size n)%nat) ∧
  (∀ a f, try_to_get_bool_constant a = Some None → try_to_get_bool_constant f = Some (Some false) → atom a = true →
   (conjunction_simplification (Expr.ConjunctionExpr Conj.AND [a; f]) = Some (a, false) ∧
    ∀ tuple b, pred_result trx_fields tuple a = Some (inr b) →
      pred_result trx_fields tuple (Expr.ConjunctionExpr Conj.AND [a; f]) = Some (inr false)) ∧
   (conjunction_simplification (Expr.ConjunctionExpr Conj.OR [f; f]) = Some (Expr.ConjunctionExpr Conj.OR [], false) ∧
    ∀ tuple, pred_result trx_fields tuple (Expr.ConjunctionExpr Conj.OR [f; f]) = Some (inr false) ∧
      pred_result trx_fields tuple (Expr.ConjunctionExpr Conj.OR []) = Some (inr true))).
Proof.
  destruct (optimize_rewrite_ends passes n Hpasses) as [Hends Hsz]. split_and!; [done| |by intros; apply rewrite_wrong_on_constants]. intros Hok.
  destruct (optimize_rewrite_keeps trx_fields scan unary (λ _ _, True) (λ _ _, True) (λ _ _, True)
    ltac:(done) ltac:(done) passes n Hok Hpasses) as (n' & Hn' & _ & Hr & _).
  exists n'. split_and!; [done|done|by apply Hsz].
Qed.
Lemma rewrite_correct_witness :
  let e := Expr.ConjunctionExpr Conj.AND demo_conditions in
  let n := Logical.Node Logical.PREDICATE [e] [LogicalPlanGenerator.table_get true people] in
  let id := Expr.FieldExpr (MkField people (default (FieldMeta.mk "" INTS false 0 0 false) (TableMeta.field people 1))) in
  let a := Expr.ComparisonExpr CompOp.EQUAL_TO id (Expr.ValueExpr (int_value 1)) in
  let f := Expr.ValueExpr (MkValue BOOLEANS 1 [0; 0; 0; 0] []) in
  @conjunction_simplification demo_text (Expr.ConjunctionExpr Conj.AND [a; f]) = Some (a, false) ∧
  ∃ n', @optimize_rewrite demo_text demo_uninit 20 n = Done n' ∧
    ∀ scan unary, rows (H := demo_text) (H0 := demo_uninit) None scan unary n' = rows (H := demo_text) (H0 := demo_uninit) None scan unary n.
Proof.
  intros e n id a f. split.
  { destruct (rewrite_correct demo_text demo_uninit None (λ _, []) (λ _ l, l) 20 n) as (_ & _ & Hwrong); [vm_compute; lia|].
    apply (Hwrong a f); vm_compute; reflexivity. }
  assert (∀ scan unary, ∃ n', @optimize_rewrite demo_text demo_uninit 20 n = Done n' ∧
    rows (H := demo_text) (H0 := demo_uninit) None scan unary n' = rows (H := demo_text) (H0 := demo_uninit) None scan unary n) as Hr.
  { intros scan unary. destruct (rewrite_correct demo_text demo_uninit None scan unary 20 n) as (_ & Hn & _); [vm_compute; lia|].
    destruct Hn as (n' & Hn' & Hr & _); [|by exists n']. apply plan_predicate; [|by apply plan_get|done|done|done].
    apply (where_safe (H := demo_text) (H0 := demo_uninit) Conj.AND (filter_units_ (filter_stmt_ demo_select))); [vm_compute; reflexivity|vm_compute; repeat constructor]. }
  destruct (Hr (λ _, []) (λ _ l, l)) as (n' & Hn' & _). exists n'. split; [exact Hn'|]. intros scan unary.
  destruct (Hr scan unary) as (n1 & Hn1 & Heq). assert (n1 = n') as -> by congruence. exact Heq.
Defined.

(** ** The operators *)
(** an operator that yields a list of tuples: those to come, and the current one *)
Abbreviation demo_child := (list Tuple.t * list Tuple.t * option Tuple.t)%type.
Definition demo_oper : PhysOps () demo_child := {|
  oper_open := λ '(w, (all, _, c)), Done (RC.SUCCESS, (w, (all, all, c)));
  oper_next := λ '(w, (all, rest, c)),
    match rest with
    | [] => Done (RC.RECORD_EOF, (w, (all, [], c)))
    | t :: rest => Done (RC.SUCCESS, (w, (all, rest, Some t)))
    end;
  oper_close := λ '(w, o), Done (RC.SUCCESS, (w, o));
  oper_current := λ '(_, _, c), Done c;
  oper_set_parent _ o := Some o |}.
Lemma demo_executes l : executes demo_oper () (λ o, o.1.1 = l) (closes demo_oper ()) l.
Proof.
  intros [[all rest] c] Hl. cbn in Hl. subst all. exists (l, l, c). split; [done|].
  assert (∀ rest c, yields demo_oper () (closes demo_oper ()) (l, rest, c) rest) as Hy; [|apply Hy].
  clear. intros rest. induction rest as [|t rest IH]; intros c; [eapply yields_nil; [done|by eexists]|].
  eapply yields_cons; [done|done|by eexists|apply IH].
Qed.
Definition demo_people : list Tuple.t := table_row people <$> demo_records people.
Lemma demo_people_forall (P : Tuple.t → Prop) :
  (∀ n vs, vs = [int_value 2; char_value "bob"] ∨ vs = [int_value 1; char_value "ann"] ∨ vs = [int_value 3; char_value "eve"] →
     P (table_row people (demo_record people n vs))) →
  Forall P demo_people.
Proof. intros HP. repeat constructor; apply HP; auto. Qed.
Definition id_spec : TupleCellSpec := field_spec "people" "id" None.

(** ORDER BY over no row.  When the child has no tuple, the first call of [next] says
    that there is one, and the current tuple is a null pointer; nothing tells it from a
    row. *)
Lemma order_of_nothing (L : LibText) (U : Uninit) (trx_fields : option (list FieldMeta.t)) (So : SortOps) (Std : @StdSort So)
  (W C : Type) (O : PhysOps W C) (w : W) (fuel : nat) (rules : list (TupleCellSpec * bool)) (R Q : C → Prop) (o : Order.t C)
  (Hex : executes O w R Q []) (Ho : order_start rules R o) (Hfuel : (0 < fuel)%nat) :
  ∃ o1 o2, oper_open (PhysOps := Order.ops trx_fields fuel) (w, o) = Done (RC.SUCCESS, (w, o1)) ∧
    oper_next (PhysOps := Order.ops trx_fields fuel) (w, o1) = Done (RC.SUCCESS, (w, o2)) ∧
    oper_current (PhysOps := Order.ops trx_fields fuel) o2 = Done None.
Proof.
  destruct (order_empty trx_fields O w fuel rules R Q o Hex Ho Hfuel) as (o1 & o2 & Hopen & Hn). exists o1, o2. split; [done|].
  apply Hn. destruct (Std _ (Order.comprule trx_fields rules) []) as (l' & Hs & Hp & _).
  - by split; intros x; intros; match goal with H : _ ∈ [] |- _ => by apply not_elem_of_nil in H end.
  - symmetry in Hp. apply Permutation_nil in Hp as ->. done.
Qed.

Definition id_field : Field := MkField people (default (FieldMeta.mk "" INTS false 0 0 false) (TableMeta.field people 1)).

(** ** Scans *)
(** C18: A table scan over a record file.  Whatever buffer the file and whatever transaction
    that sees or does not see its records, the operator yields the rows of the visible
    records the predicates hold of, in the order of the file, and can be closed and opened
    again behind the last one. *)
Theorem table_scan_correct (L : LibText) (U : Uninit) (trx_fields : option (list FieldMeta.t))
  (executor : SubQuery → option Tuple.t → option (RC.t * SubQuery)) (W : Type) (file : W → file_state)
  (visit : W → option (RID.t → memory → bool → RC.t)) (w : W) (size : Z) (readonly : bool) (fuel : nat)
  (table : TableMeta.t) (ps : list Expr.t) (parent : option Tuple.t) (it : BufferPoolIterator)
  (Hwf : file_wf size (file w)) (Hbytes : Forall Bitmap.byte_ok (BPFileHeader.bitmap (file_hdr (file w))))
  (Hsees : ∀ r, verdict (visit w) readonly r = RC.SUCCESS ∨ verdict (visit w) readonly r = RC.RECORD_INVISIBLE)
  (Hatoms : Forall (λ e, atom e = true) ps) (Hplain : Forall (λ e, plain e = true) ps)
  (Htest : Forall (λ r, testable trx_fields ps (with_parent parent (table_row table r))) (visible file visit w readonly))
  (Hfuel : (length (visible file visit w readonly) < fuel)%nat) :
  let O := @TableScan.ops L U trx_fields executor W TableScanner.t (TableScanner.ops file visit) fuel in
  let l := table_row table <$> List.filter (λ r, all_hold trx_fields ps (with_parent parent (table_row table r))) (visible file visit w readonly) in
  ∃ R : TableScan.t TableScanner.t → Prop,
    R (TableScan.mk table readonly (TableScanner.fresh it) None (TableScan.empty_row table) [] ps parent) ∧ runs O w R l.
Proof.
  intros O l. exists (table_scan_state table readonly ps parent (scanner_idle file w)). split.
  - eexists _, _, _, _. split; [done|]. split; [by exists 0%nat|done].
  - apply (table_scan_runs trx_fields executor (TableScanner.ops file visit)); [done|done| |done|done].
    by apply (table_scans file visit w Hwf Hbytes readonly Hsees).
Qed.
Lemma table_scan_correct_witness :
  let O := @TableScan.ops demo_text demo_uninit None no_executor () TableScanner.t (TableScanner.ops (λ _, one_page_file) (λ _, None)) 5 in
  let ps := [Expr.ComparisonExpr CompOp.EQUAL_TO (Expr.ValueExpr (int_value 1)) (Expr.ValueExpr (int_value 1))] in
  ∃ R : TableScan.t TableScanner.t → Prop,
    runs O () R [table_row pets (RID.mk 1 0, [1; 2; 3; 4]); table_row pets (RID.mk 1 2, [5; 6; 7; 8])].
Proof.
  intros O ps.
  destruct (table_scan_correct demo_text demo_uninit None no_executor () (λ _, one_page_file) (λ _, None) () 4 true 5 pets ps None
    (bp_iterator_init one_page_header 0) one_page_file_wf one_page_bytes) as (R & _ & Hruns).
  - intros r. by left.
  - by repeat constructor.
  - by repeat constructor.
  - assert (visible (λ _ : (), one_page_file) (λ _, None) () true = [(RID.mk 1 0, [1; 2; 3; 4]); (RID.mk 1 2, [5; 6; 7; 8])]) as -> by (vm_compute; reflexivity).
    repeat constructor; exists true; vm_compute; reflexivity.
  - vm_compute. lia.
  - exists R. assert (visible (λ _ : (), one_page_file) (λ _, None) () true = [(RID.mk 1 0, [1; 2; 3; 4]); (RID.mk 1 2, [5; 6; 7; 8])]) as Hv by (vm_compute; reflexivity).
    rewrite Hv in Hruns. exact Hruns.
Defined.

Section index_steps.
Context `{!LibText} `{!Uninit} (trx_fields : option (list FieldMeta.t)).
Context (executor : SubQuery → option Tuple.t → option (RC.t * SubQuery)).
Context {W IX SX : Type} `{!IndexScanOps W IX SX} (w : W).
Import IndexScan.
Abbreviation loop := (IndexScan.next_loop trx_fields).
Lemma index_scanner_done {A} (c : ST (W * SX) A) (o : IndexScan.t IX SX) sc a sc' :
  index_scanner_ o = Some sc → c (w, sc) = Done (a, (w, sc')) → on_scanner c (w, o) = Done (a, (w, set_scanner (Some sc') o)).
Proof. intros Hs Hc. exact (on_part_done _ _ c w o sc a sc' Hs Hc). Qed.
Lemma index_world_done {A} (c : ST W A) (o : IndexScan.t IX SX) a : c w = Done (a, w) → IndexScan.on_world c (w, o) = Done (a, (w, o)).
Proof. intros Hc. unfold IndexScan.on_world. by rewrite Hc. Qed.
(** an entry that is left out: the page of its record stays open *)
Lemma index_skip n o sc sc1 rid data b :
  index_scanner_ o = Some sc → page_held_ o = false →
  index_next_entry (idx_iterator_neet_increase o) (w, sc) = Done ((RC.SUCCESS, rid), (w, sc1)) →
  record_get (readonly_ o) rid w = Done (inr data, w) →
  TableScan.filter trx_fields (predicates_ o)
    (with_parent (parent_tuple_ o) (Tuple.Row (set_record (rid, data) (inspector_ o)))) Val.new = Some (RC.SUCCESS, b) →
  (b = true → record_visit (rid, data) (readonly_ o) w = Done (RC.RECORD_INVISIBLE, w)) →
  ∃ o', loop (S n) (w, o) = loop n (w, o') ∧ page_held_ o' = true ∧ index_scanner_ o' = Some sc1 ∧ idx_iterator_neet_increase o' = true.
Proof.
  intros Hs Hh He Hg Hf Hv. cbn [IndexScan.next_loop]. rewrite bind_get.
  rewrite (bind_done _ _ _ _ _ (index_scanner_done _ o sc _ sc1 Hs He)). change (negb (RC.succ RC.SUCCESS)) with false. cbv iota.
  rewrite bind_set. set (o1 := set_idx_increase true (set_scanner (Some sc1) o)).
  assert (get_record rid (w, o1) = Done (inr data, (w, set_held true o1))) as Hget.
  { unfold get_record. rewrite bind_get. change (page_held_ o1) with (page_held_ o). rewrite Hh.
    by rewrite (bind_done _ _ _ _ _ (index_world_done _ o1 _ Hg)). }
  rewrite (bind_done _ _ _ _ _ Hget). rewrite bind_set, bind_get.
  match goal with |- context [st_some ?e] => assert (e = Some (RC.SUCCESS, b)) as Hf2 by exact Hf; rewrite Hf2 end.
  set (o2 := set_rows _ _ _). rewrite (bind_done (st_some _) _ _ (RC.SUCCESS, b) (w, o2)) by done.
  change (negb (RC.succ RC.SUCCESS)) with false. cbv iota. destruct b; cbn [negb].
  - rewrite (bind_done _ _ _ _ _ (index_world_done _ o2 _ (Hv eq_refl))). rewrite decide_True by done. by exists o2.
  - by exists o2.
Qed.
(** the next entry is refused *)
Lemma index_refused n o sc sc1 rid :
  index_scanner_ o = Some sc → page_held_ o = true →
  index_next_entry (idx_iterator_neet_increase o) (w, sc) = Done ((RC.SUCCESS, rid), (w, sc1)) →
  ∃ o', loop (S n) (w, o) = Done (RC.RECORD_OPENNED, (w, o')).
Proof.
  intros Hs Hh He. cbn [IndexScan.next_loop]. rewrite bind_get.
  rewrite (bind_done _ _ _ _ _ (index_scanner_done _ o sc _ sc1 Hs He)). change (negb (RC.succ RC.SUCCESS)) with false. cbv iota.
  rewrite bind_set. unfold get_record at 1. eexists. st_cbn. rewrite Hh. done.
Qed.
End index_steps.

(** An index scan that leaves an entry out fails.  When the predicates do not hold of the
    record of an entry, or the transaction does not see it, the page of the record stays
    open, so that the record of the next entry is refused with RECORD_OPENNED, whatever it
    is; a DELETE over the scan takes this for the end, deletes nothing and reports
    success. *)
Theorem index_scan_keeps_page (L : LibText) (U : Uninit) (trx_fields : option (list FieldMeta.t))
  (executor : SubQuery → option Tuple.t → option (RC.t * SubQuery)) (W IX SX : Type) (I : IndexScanOps W IX SX) (T : TrxOps W)
  (fuel : nat) (o : IndexScan.t IX SX) (w : W) (sc sc1 sc2 : SX) (rid1 rid2 : RID.t) (data : memory) (b : bool)
  (Hsc : IndexScan.index_scanner_ o = Some sc)
  (H1 : index_next_entry (IndexScan.idx_iterator_neet_increase o) (w, sc) = Done ((RC.SUCCESS, rid1), (w, sc1)))
  (Hget : record_get (IndexScan.readonly_ o) rid1 w = Done (inr data, w))
  (Hfilter : TableScan.filter trx_fields (IndexScan.predicates_ o)
     (with_parent (IndexScan.parent_tuple_ o) (Tuple.Row (set_record (rid1, data) (IndexScan.inspector_ o)))) Val.new = Some (RC.SUCCESS, b))
  (Hskip : b = true → record_visit (rid1, data) (IndexScan.readonly_ o) w = Done (RC.RECORD_INVISIBLE, w))
  (H2 : index_next_entry true (w, sc1) = Done ((RC.SUCCESS, rid2), (w, sc2))) (Hfuel : (2 <= fuel)%nat) :
  (∃ o', oper_next (PhysOps := IndexScan.ops trx_fields executor fuel) (w, o) = Done (RC.RECORD_OPENNED, (w, o'))) ∧
  ∀ table stay, ∃ d', oper_next (PhysOps := @Delete.ops W _ (IndexScan.ops trx_fields executor fuel) T stay fuel)
    (w, Delete.mk [o] table) = Done (RC.RECORD_EOF, (w, d')).
Proof.
  assert (∃ o', oper_next (PhysOps := IndexScan.ops trx_fields executor fuel) (w, o) = Done (RC.RECORD_OPENNED, (w, o'))) as [o' Ho].
  { destruct fuel as [|[|n]]; [lia|lia|]. set (o0 := IndexScan.set_held false o).
    destruct (index_skip trx_fields w (S n) o0 sc sc1 rid1 data b) as (o1 & Hskip1 & Hh1 & Hs1 & Hi1); try done.
    destruct (index_refused trx_fields w n o1 sc1 sc2 rid2 Hs1 Hh1) as (o2 & Ho2); [by rewrite Hi1|].
    exists o2. cbn [oper_next IndexScan.ops]. unfold IndexScan.next. rewrite bind_set. fold o0. by rewrite Hskip1, Ho2. }
  split; [by exists o'|]. intros table stay. destruct fuel as [|fuel]; [lia|].
  exists (Delete.mk [o'] table). cbn [oper_next Delete.ops]. unfold Delete.next. rewrite bind_get. cbn [Delete.children_].
  change (@Delete.next_loop W _ (IndexScan.ops trx_fields executor (S fuel)) T stay (S fuel) (w, Delete.mk [o] table) =
    Done (RC.RECORD_EOF, (w, Delete.mk [o'] table))).
  cbn [Delete.next_loop]. unfold Delete.on_child.
  rewrite (bind_done _ _ _ _ _ (on_part_done _ _ _ w (Delete.mk [o] table) o _ o' eq_refl Ho)). done.
Qed.
Lemma index_scan_keeps_page_witness :
  let I : IndexScanOps () () nat := {|
    index_create_scanner := λ _ _ _ _ _ _ _ w, Done (Some 0%nat, w);
    index_next_entry := λ _ '(w, n), if decide (n = 2%nat) then Done ((RC.RECORD_EOF, RID.mk 0 0), (w, n))
                                     else Done ((RC.SUCCESS, RID.mk 1 (Z.of_nat n)), (w, S n));
    index_destroy := λ _ w, Done (RC.SUCCESS, w);
    record_get := λ _ rid w, Done (inr [0; 0; 0; 0; 0], w);
    record_visit := λ _ _ w, Done (RC.SUCCESS, w) |} in
  let none := Expr.ComparisonExpr CompOp.EQUAL_TO (Expr.ValueExpr (int_value 1)) (Expr.ValueExpr (int_value 2)) in
  let o := IndexScan.set_scanner (Some 0%nat) (@IndexScan.make () nat pets (Some ()) false [] 0 true [] 0 true [none]) in
  ∃ d', oper_next (PhysOps := @Delete.ops () _ (@IndexScan.ops demo_text demo_uninit None no_executor () () nat I 5) demo_trx (λ c, c) 5)
    ((), Delete.mk [o] pets) = Done (RC.RECORD_EOF, ((), d')).
Proof.
  intros I none o.
  destruct (index_scan_keeps_page demo_text demo_uninit None no_executor () () nat I demo_trx 5 o () 0%nat 1%nat 2%nat (RID.mk 1 0) (RID.mk 1 1)
    [0; 0; 0; 0; 0] false) as [_ Hd]; [reflexivity|reflexivity|reflexivity|vm_compute; reflexivity|done|reflexivity|lia|].
  apply Hd.
Defined.

(** ** Subqueries *)
(** C17: A subquery ends, and is executed once.  Over a plan whose tuples have one cell, its
    executor returns SUCCESS with the cells as the values of the expression, in the order of
    the tuples; executed again it succeeds at once and keeps them. *)
Theorem subquery_correct (L : LibText) (U : Uninit) (trx_fields : option (list FieldMeta.t)) (W C : Type) (O : PhysOps W C)
  (w : W) (fuel : nat) (R : C → Prop) (l : list Tuple.t) (vs : list Value) (c : C) (old : list Value)
  (Hex : executes O w R (closes O w) l) (HR : R c) (Hvs : Forall2 (one_cell trx_fields) l vs) (Hfuel : (length l < fuel)%nat) :
  ∃ c', SubQueryExpr.executor trx_fields fuel (w, SubQueryExpr.mk (Some c) false None false old) =
      Done (RC.SUCCESS, (w, SubQueryExpr.mk (Some c') false None true vs)) ∧
    SubQueryExpr.executor trx_fields fuel (w, SubQueryExpr.mk (Some c') false None true vs) =
      Done (RC.SUCCESS, (w, SubQueryExpr.mk (Some c') false None true vs)).
Proof. by apply (executor_spec trx_fields O w fuel R l vs c false old). Qed.
Lemma subquery_correct_witness :
  let l := [Tuple.ValueList [int_value 1]; Tuple.ValueList [int_value 2]] in
  ∃ c', @SubQueryExpr.executor demo_text demo_uninit None () demo_child demo_oper 3
      ((), SubQueryExpr.mk (Some (l, [], None)) false None false [int_value 7]) =
    Done (RC.SUCCESS, ((), SubQueryExpr.mk (Some c') false None true [int_value 1; int_value 2])).
Proof.
  intros l. destruct (subquery_correct demo_text demo_uninit None () demo_child demo_oper () 3 (λ o, o.1.1 = l) l
    [int_value 1; int_value 2] (l, [], None) [int_value 7]) as (c' & Hc & _); [apply demo_executes|done| |cbn; lia|by exists c'].
  repeat constructor; vm_compute; reflexivity.
Defined.

(** ** Statements *)
(** C13: A SELECT is created, or refused.  With as much fuel as its subqueries are deep the
    creation ends, whatever the database, its tables and their fields; the statement it
    creates has tables of the database; every item is a field of one of them or an
    aggregation of one; every side of a condition is a constant, a list, a subquery that has
    not run, or, like the keys of the order, a field that its table finds by its name. *)
Theorem statement_created (L : LibText) (U : Uninit) (trx_fields : option (list FieldMeta.t)) (find_table : string → option TableMeta.t)
  (fuel : nat) (q : SelectSqlNode) (subs : list SelectStmt)
  (Hfuel : (select_depth q <= fuel)%nat) :
  create_select trx_fields find_table fuel q subs ≠ OutOfFuel ∧
  ∀ s subs', create_select trx_fields find_table fuel q subs = Done (inr s, subs') → statement_ok find_table s.
Proof.
  pose proof (create_select_ok trx_fields find_table fuel q Hfuel subs) as Hok.
  split; [by intros Heq; rewrite Heq in Hok|]. intros s subs' Heq. by rewrite Heq in Hok.
Qed.
Lemma demo_db t : in_db demo_find t → t = people ∨ t = pets.
Proof. intros [n Hn]. unfold demo_find in Hn. repeat case_decide; [left|right|]; congruence. Qed.
Lemma demo_db_names t : in_db demo_find t → NoDup (FieldMeta.name <$> TableMeta.fields t).
Proof.
  intros [-> | ->]%demo_db; apply (bool_decide_unpack _); vm_compute; reflexivity.
Qed.
Lemma statement_created_witness :
  statement_ok demo_find demo_select ∧ length (expressions_ demo_select) = 2%nat.
Proof.
  split; [|vm_compute; reflexivity].
  destruct (statement_created demo_text demo_uninit None demo_find 1 demo_query []) as [_ Hs]; [vm_compute; lia|].
  apply (Hs demo_select []). vm_compute. reflexivity.
Defined.

(** C14: Values of fields, constants and subqueries have the announced types.  In a database
    that finds its tables by their names and whose tables have no two fields of one name: over
    a row of a table, or of several side by side, what a side of a condition of a created
    SELECT (a subquery before it has run), or an item of it that is no aggregation, evaluates
    to has the type the expression announces, or is null.  (An aggregation is left out: AVG of integers announces one type
    and has another when it does not divide.) *)
Theorem statement_types (L : LibText) (U : Uninit) (trx_fields : option (list FieldMeta.t)) (find_table : string → option TableMeta.t)
  (fuel : nat) (q : SelectSqlNode) (subs subs' : list SelectStmt) (s : SelectStmt) (tuple : Tuple.t) (l : list TableMeta.t)
  (Hnames : ∀ t, in_db find_table t → NoDup (FieldMeta.name <$> TableMeta.fields t)) (Hfuel : (select_depth q <= fuel)%nat)
  (Hfind : ∀ n t, find_table n = Some t → TableMeta.name t = n)
  (Hs : create_select trx_fields find_table fuel q subs = Done (inr s, subs'))
  (Htuple : from_tables tuple l) (Hl : Forall (in_db find_table) l) :
  ∀ e, (e ∈ expressions_ s ∧ (∀ a, e ≠ Expr.AggreExpression a)) ∨
      (∃ u, u ∈ filter_units_ (filter_stmt_ s) ∧ (e = left_ u ∨ e = right_ u)) →
  ∀ value rc v ty, Expr.get_value trx_fields tuple e value = Some (rc, v) → RC.succ rc = true →
    Expr.value_type e = Some ty → typed ty v.
Proof.
  pose proof (create_select_ok trx_fields find_table fuel q Hfuel subs) as Hok. rewrite Hs in Hok.
  assert (statement_ok find_table s) as [_ He Hu _] by exact Hok. clear Hok.
  intros e Hin value rc v ty. apply (get_value_typed trx_fields tuple l e); [done|].
  pose proof (λ f, resolved_looked_up find_table f l Hfind Hl) as Hr. destruct Hin as [[Hin Ha]|(u & Hin & Hside)].
  - rewrite Forall_forall in He. specialize (He e Hin). destruct e; try done; [|by destruct (Ha a)].
    apply Hr, listed_resolved; [by apply Hnames, He|exact He].
  - rewrite Forall_forall in Hu. destruct (Hu u Hin) as (Hlo & Hro & _).
    assert (side_ok find_table e) as Hok by (destruct Hside; by subst). destruct e; try done; [by apply Hr|].
    cbn in Hok |- *. rewrite Hok. constructor.
Qed.
Lemma statement_types_witness :
  let tuple := Tuple.Joined (table_row people (demo_record people 0 [int_value 2; char_value "bob"]))
    (table_row pets (demo_record pets 0 [int_value 3])) in
  ∃ e v, head (expressions_ demo_select) = Some e ∧ Expr.value_type e = Some CHARS ∧
    @Expr.get_value demo_text demo_uninit None tuple e (@Val.new demo_uninit) = Some (RC.SUCCESS, v) ∧ typed CHARS v.
Proof.
  intros tuple.
  assert (∃ e v, head (expressions_ demo_select) = Some e ∧ Expr.value_type e = Some CHARS ∧
    @Expr.get_value demo_text demo_uninit None tuple e (@Val.new demo_uninit) = Some (RC.SUCCESS, v) ∧ ∀ a, e ≠ Expr.AggreExpression a)
    as (e & v & He & Hty & Hv & Ha).
  { eexists _, _. split; [vm_compute; reflexivity|]. split; [vm_compute; reflexivity|]. split; [vm_compute; reflexivity|done]. }
  exists e, v. split_and!; [done..|].
  apply (statement_types demo_text demo_uninit None demo_find 1 demo_query [] [] demo_select tuple [people; pets])
    with (e := e) (value := @Val.new demo_uninit) (rc := RC.SUCCESS).
  - apply demo_db_names.
  - vm_compute. lia.
  - intros n t Hn. unfold demo_find in Hn. repeat case_decide; [injection Hn as <-|injection Hn as <-|done]; by subst.
  - vm_compute. reflexivity.
  - apply (from_join _ _ [people] [pets]); apply from_row.
  - repeat constructor; [by exists "people"%string|by exists "pets"%string].
  - left. split; [|done]. destruct (expressions_ demo_select); [done|]. injection He as ->. left.
  - done.
  - done.
  - done.
Defined.
