(* ===== verification/NetBuffer.v ===== *)
(** * Buffers of a connection, reading and writing ([net/ring_buffer.cpp], [net/buffered_writer.cpp],
    [deps/common/io/io.cpp])

    [RingBuffer]: the array a connection collects its output in, how many bytes it holds and
    where the next byte goes; [contents] is the queue of bytes it stands for, and each
    operation is shown to be that of the queue.  A [char *] into the array is an offset.
    [BufferedWriter] hands the bytes to [::write] when the buffer is full or flushed.  [Io]:
    [writen] and [readn], which repeat [::write] and [::read] until all bytes are through.
    [::write] is a parameter ([OsWrite]); [OsWriteLaws] is what is relied on: it takes a part
    of the bytes it is offered, in order, and does not answer "try again" for ever.
    Whatever it does, nothing is lost, doubled or reordered. *)
From S2P Require Import Prelude Comparator.
From Stdlib Require Import ZArith Lia.
From stdpp Require Import base option list numbers.
Local Open Scope Z_scope.

Module RingBuffer.
Record t : Set := mk { buffer_ : memory; data_size_ : Z; write_pos_ : Z }.
Definition DEFAULT_BUFFER_SIZE : Z := 16 * 1024.
(** the constructors *)
Definition make (size : Z) : t := mk (replicate (Z.to_nat size) 0) 0 0.
Definition make_default : t := make DEFAULT_BUFFER_SIZE.

Definition capacity (b : t) : Z := Z.of_nat (length (buffer_ b)).
Definition size (b : t) : Z := data_size_ b.
Definition remain (b : t) : Z := capacity b - size b.
Definition read_pos (b : t) : Z := Z.rem (write_pos_ b - size b + capacity b) (capacity b).

(** [buffer]: the return code, the pointer and [read_size] *)
Definition buffer (b : t) : RC.t * Z * Z :=
  if decide (size b = 0) then (RC.SUCCESS, 0, 0)
  else
    let read_pos := read_pos b in
    (RC.SUCCESS, read_pos,
     if decide (read_pos < write_pos_ b) then write_pos_ b - read_pos else capacity b - read_pos).
Definition forward (size_ : Z) : ST t RC.t :=
  b ← st_get;
  if decide (size_ <= 0) then mret RC.INVALID_ARGUMENT
  else if decide (size_ > size b) then mret RC.INVALID_ARGUMENT
  else st_modify (λ b, mk (buffer_ b) (data_size_ b - size_) (write_pos_ b)) ;;; mret RC.SUCCESS.

(** [read]: the return code and the bytes copied to [buf], [read_size] of them *)
Fixpoint read_loop (fuel : nat) (size_ : Z) (rc : RC.t) (buf : memory) : ST t (RC.t * memory) :=
  b ← st_get;
  let read_size := Z.of_nat (length buf) in
  if RC.succ rc && bool_decide (read_size < size_) && bool_decide (size b > 0) then
    match fuel with
    | O => st_nofuel
    | S fuel =>
        let '(rc, tmp_buf, tmp_size) := buffer b in
        if RC.succ rc then
          let copy_size := Z.min (size_ - read_size) tmp_size in
          bytes ← st_some (load_bytes (Z.to_nat tmp_buf) (Z.to_nat copy_size) (buffer_ b));
          rc ← forward copy_size;
          read_loop fuel size_ rc (buf ++ bytes)
        else read_loop fuel size_ rc buf
    end
  else mret (rc, buf).
Definition read (fuel : nat) (size_ : Z) : ST t (RC.t * memory) :=
  if decide (size_ < 0) then mret (RC.INVALID_ARGUMENT, [])
  else read_loop fuel size_ RC.SUCCESS [].

(** [write]: the return code and [write_size] *)
Fixpoint write_loop (fuel : nat) (data : memory) (size_ write_size : Z) : ST t (RC.t * Z) :=
  b ← st_get;
  if bool_decide (write_size < size_) && bool_decide (remain b > 0) then
    match fuel with
    | O => st_nofuel
    | S fuel =>
        let read_pos := read_pos b in
        let tmp_buf_size :=
          if decide (read_pos <= write_pos_ b) then capacity b - write_pos_ b else read_pos - write_pos_ b in
        let copy_size := Z.min (size_ - write_size) tmp_buf_size in
        bytes ← st_some (load_bytes (Z.to_nat write_size) (Z.to_nat copy_size) data);
        buffer ← st_some (store_bytes (Z.to_nat (write_pos_ b)) bytes (buffer_ b));
        st_modify (λ b, mk buffer (data_size_ b + copy_size)
                          (Z.rem (write_pos_ b + copy_size) (capacity b))) ;;;
        write_loop fuel data size_ (write_size + copy_size)
    end
  else mret (RC.SUCCESS, write_size).
Definition write (fuel : nat) (data : memory) (size_ : Z) : ST t (RC.t * Z) :=
  if decide (size_ < 0) then mret (RC.INVALID_ARGUMENT, 0)
  else write_loop fuel data size_ 0.
Definition clear : ST t RC.t := st_modify (λ b, mk (buffer_ b) 0 0) ;;; mret RC.SUCCESS.

(** ** The queue a buffer stands for *)
Definition wf (b : t) : Prop :=
  0 <= data_size_ b <= capacity b ∧ 0 <= write_pos_ b ∧ (write_pos_ b < capacity b ∨ capacity b = 0 ∧ write_pos_ b = 0).
(** the cell of the byte number [i] *)
Definition cell (b : t) (i : nat) : nat :=
  Z.to_nat ((write_pos_ b - data_size_ b + Z.of_nat i) mod capacity b).
Definition contents (b : t) : memory :=
  (λ i, default 0 (buffer_ b !! cell b i)) <$> seq 0 (Z.to_nat (data_size_ b)).
End RingBuffer.

Module Import RingBufferCorrect.
Import RingBuffer.

Lemma make_wf n : 0 <= n → wf (make n) ∧ contents (make n) = [] ∧ capacity (make n) = n.
Proof.
  intros Hn. unfold wf, contents, capacity, make; simpl. rewrite length_replicate. split_and!; (done || lia).
Qed.
Lemma length_contents b : wf b → Z.of_nat (length (contents b)) = data_size_ b.
Proof. intros [? _]. unfold contents. rewrite length_fmap, length_seq. lia. Qed.
Lemma contents_nil b : wf b → contents b = [] ↔ data_size_ b = 0.
Proof.
  intros H. rewrite <-(length_contents b H). split; [by intros ->|].
  intros ?. apply nil_length_inv. lia.
Qed.
Lemma cell_lt b i : 0 < capacity b → (cell b i < length (buffer_ b))%nat.
Proof.
  intros Hc. unfold cell. pose proof (Z.mod_pos_bound (write_pos_ b - data_size_ b + Z.of_nat i) _ Hc).
  unfold capacity in *. lia.
Qed.
Lemma lookup_contents b i :
  wf b → (i < Z.to_nat (data_size_ b))%nat → contents b !! i = buffer_ b !! cell b i.
Proof.
  intros ((? & ?) & _) Hi. unfold contents. rewrite list_lookup_fmap, lookup_seq_lt by done. simpl.
  destruct (lookup_lt_is_Some_2 (buffer_ b) (cell b i)) as [x Hx]; [apply cell_lt; lia|]. by rewrite Hx.
Qed.
(** the read position, and the bytes from there to the end of the array or of the data *)
Lemma read_pos_spec b :
  wf b → 0 < capacity b →
  read_pos b = (write_pos_ b - data_size_ b) mod capacity b ∧
  (data_size_ b <= write_pos_ b ∧ read_pos b = write_pos_ b - data_size_ b ∨
   write_pos_ b < data_size_ b ∧ read_pos b = write_pos_ b - data_size_ b + capacity b).
Proof.
  intros ((? & ?) & ? & Hw) Hs. unfold read_pos, size.
  rewrite Z.rem_mod_nonneg by lia.
  replace (write_pos_ b - data_size_ b + capacity b)
    with (write_pos_ b - data_size_ b + 1 * capacity b) by lia.
  rewrite Z_mod_plus_full. split; [done|].
  destruct (decide (data_size_ b <= write_pos_ b)).
  - left. split; [done|]. rewrite Z.mod_small; lia.
  - right. split; [lia|].
    replace (write_pos_ b - data_size_ b) with (write_pos_ b - data_size_ b + capacity b + (-1) * capacity b) by lia.
    rewrite Z_mod_plus_full, Z.mod_small; lia.
Qed.
Lemma cell_read_pos b i :
  wf b → 0 < data_size_ b → read_pos b + Z.of_nat i < capacity b →
  cell b i = Z.to_nat (read_pos b + Z.of_nat i).
Proof.
  intros Hwf Hs Hi. destruct (read_pos_spec b Hwf) as [Hr _]; [destruct Hwf; lia|]. unfold cell. f_equal.
  rewrite <-Zplus_mod_idemp_l, <-Hr. apply Z.mod_small.
  assert (0 <= read_pos b) by (rewrite Hr; apply Z.mod_pos_bound; destruct Hwf; lia). lia.
Qed.
Lemma load_bytes_take off n m d bytes :
  load_bytes off n d = Some (take n bytes) → (m <= n)%nat → load_bytes off m d = Some (take m bytes).
Proof.
  unfold load_bytes. destruct (decide _); [|done]. intros [= Heq] Hm. rewrite decide_True by lia. f_equal.
  rewrite <-(Nat.min_l m n), <-!take_take by lia. by rewrite Heq.
Qed.
Lemma take_take_drop {A} (l : list A) k m :
  (k <= m)%nat → take k l ++ take (m - k) (drop k l) = take m l.
Proof.
  intros Hk. rewrite take_drop_commute. replace (k + (m - k))%nat with m by lia.
  rewrite <-(take_drop k (take m l)) at 2. by rewrite take_take, Nat.min_l by lia.
Qed.
(** [buffer] shows the front of the queue, and some of it if there is any. *)
Lemma buffer_spec b :
  wf b →
  ∃ p n, buffer b = (RC.SUCCESS, p, n) ∧ 0 <= p ∧
    n = (if decide (data_size_ b <= write_pos_ b) then data_size_ b else data_size_ b - write_pos_ b) ∧
    load_bytes (Z.to_nat p) (Z.to_nat n) (buffer_ b) = Some (take (Z.to_nat n) (contents b)).
Proof.
  intros Hwf. unfold buffer, size. destruct (decide (data_size_ b = 0)) as [Hz|Hz].
  - exists 0, 0. unfold load_bytes. destruct (decide (Z.to_nat 0 + Z.to_nat 0 <= _)%nat); [|lia].
    destruct (decide (data_size_ b <= write_pos_ b)); [|destruct Hwf; lia]. split_and!; done || lia.
  - assert (0 < data_size_ b) as Hs by (destruct Hwf; lia).
    destruct (read_pos_spec b Hwf) as [Hr Hcases]; [destruct Hwf; lia|].
    assert (0 <= read_pos b < capacity b) as Hrb
      by (rewrite Hr; apply Z.mod_pos_bound; destruct Hwf; lia).
    set (n := if decide (read_pos b < write_pos_ b) then _ else _).
    assert (Hn : 0 < n <= data_size_ b ∧ read_pos b + n <= capacity b ∧
      n = if decide (data_size_ b <= write_pos_ b) then data_size_ b else data_size_ b - write_pos_ b).
    { subst n. destruct Hwf as ((? & ?) & ? & ?). repeat destruct (decide _); lia. }
    exists (read_pos b), n. split; [done|]. split; [lia|]. split; [tauto|].
    unfold load_bytes. unfold capacity in *. rewrite decide_True by lia. f_equal.
    apply list_eq. intros i. destruct (decide (i < Z.to_nat n)%nat).
    + rewrite !lookup_take_lt, lookup_drop, lookup_contents by (done || lia).
      f_equal. rewrite cell_read_pos; [lia|done|done|]. unfold capacity. lia.
    + by rewrite !lookup_take_ge by lia.
Qed.
Lemma forward_spec b n (Q : RC.t → t → Prop) :
  wf b → 0 < n <= data_size_ b →
  (∀ b', wf b' → contents b' = drop (Z.to_nat n) (contents b) → capacity b' = capacity b →
     data_size_ b' = data_size_ b - n → write_pos_ b' = write_pos_ b → Q RC.SUCCESS b') →
  wp (forward n) b Q.
Proof.
  intros Hwf Hn HQ. unfold forward. apply wp_bind, wp_get. unfold size.
  destruct (decide (n <= 0)); [lia|]. destruct (decide (n > data_size_ b)); [lia|].
  apply wp_bind, wp_modify, wp_ret.
  set (b' := mk _ _ _). assert (wf b') as Hwf' by (destruct Hwf as ((? & ?) & ? & ?); split; simpl; unfold capacity in *; simpl; lia).
  apply HQ; try done. apply list_eq. intros i. rewrite lookup_drop.
  destruct (decide (i < Z.to_nat (data_size_ b'))%nat) as [Hi|Hi].
  - rewrite !lookup_contents by (done || simpl in Hi; lia). unfold b', cell, capacity; simpl. do 3 f_equal. lia.
  - rewrite !lookup_ge_None_2; [done| |].
    + pose proof (length_contents b Hwf). simpl in Hi. lia.
    + pose proof (length_contents b' Hwf'). lia.
Qed.
Lemma lookup_store_bytes off bytes d :
  (off + length bytes <= length d)%nat →
  ∃ d', store_bytes off bytes d = Some d' ∧ length d' = length d ∧
    (∀ i, (i < length bytes)%nat → d' !! (off + i)%nat = bytes !! i) ∧
    ∀ k, (k < off ∨ off + length bytes <= k)%nat → d' !! k = d !! k.
Proof.
  intros Hl. unfold store_bytes. rewrite decide_True by done. eexists. split; [done|].
  assert (length (take off d) = off) as Ht by (rewrite length_take; lia). split_and!.
  - rewrite !length_app, length_drop, Ht. lia.
  - intros i Hi. rewrite lookup_app_r, Ht, lookup_app_l by lia. f_equal. lia.
  - intros k Hk. destruct (decide (k < off)%nat).
    + rewrite lookup_app_l by lia. by rewrite lookup_take_lt.
    + rewrite lookup_app_r, Ht, lookup_app_r, lookup_drop by lia. f_equal. lia.
Qed.
(** bytes stored behind the data, in free cells that follow each other *)
Lemma append_spec b bytes :
  wf b → Z.of_nat (length bytes) <= remain b → write_pos_ b + Z.of_nat (length bytes) <= capacity b →
  0 < Z.of_nat (length bytes) →
  ∃ buffer, store_bytes (Z.to_nat (write_pos_ b)) bytes (buffer_ b) = Some buffer ∧
    let b' := mk buffer (data_size_ b + Z.of_nat (length bytes))
                (Z.rem (write_pos_ b + Z.of_nat (length bytes)) (capacity b)) in
    wf b' ∧ contents b' = contents b ++ bytes ∧ capacity b' = capacity b.
Proof.
  intros Hwf Hr Hc Hpos. unfold remain, size in Hr. destruct (Hwf) as ((? & ?) & ? & ?).
  destruct (lookup_store_bytes (Z.to_nat (write_pos_ b)) bytes (buffer_ b)) as (buffer & Hst & Hlen & Hin & Hout);
    [unfold capacity in *; lia|].
  exists buffer. split; [done|]. set (n := Z.of_nat (length bytes)) in *.
  set (b' := mk _ _ _). cbv zeta.
  assert (capacity b' = capacity b) as Hcap by (unfold capacity; simpl; by rewrite Hlen).
  assert (Hw : write_pos_ b' = (write_pos_ b + n) mod capacity b) by (simpl; apply Z.rem_mod_nonneg; lia).
  assert (wf b') as Hwf'.
  { pose proof (Z.mod_pos_bound (write_pos_ b + n) (capacity b) ltac:(lia)). split; [simpl; lia|].
    rewrite Hcap, Hw. lia. }
  split_and!; [done| |done].
  assert (Hcell : ∀ i, cell b' i = cell b i).
  { intros i. unfold cell. rewrite Hcap, Hw. simpl. f_equal.
    rewrite <-Z.add_opp_r, <-Z.add_assoc, Zplus_mod_idemp_l. f_equal. lia. }
  pose proof (length_contents b Hwf) as Hlb. pose proof (length_contents b' Hwf') as Hlb'. simpl in Hlb'.
  apply list_eq. intros i. destruct (decide (i < Z.to_nat (data_size_ b + n))%nat) as [Hi|Hi].
  - rewrite lookup_contents, Hcell by done. simpl.
    destruct (decide (i < Z.to_nat (data_size_ b))%nat) as [Hd|Hd].
    + rewrite lookup_app_l, lookup_contents by (done || lia). apply Hout. unfold cell.
      destruct (decide (0 <= write_pos_ b - data_size_ b + Z.of_nat i)).
      * rewrite Z.mod_small; lia.
      * replace (write_pos_ b - data_size_ b + Z.of_nat i)
          with (write_pos_ b - data_size_ b + Z.of_nat i + capacity b + (-1) * capacity b) by lia.
        rewrite Z_mod_plus_full, Z.mod_small; lia.
    + rewrite lookup_app_r by lia.
      assert (cell b i = Z.to_nat (write_pos_ b) + (i - length (contents b)))%nat as ->.
      { unfold cell. rewrite Z.mod_small; lia. }
      apply Hin. lia.
  - rewrite !lookup_ge_None_2; [done| |lia]. rewrite length_app. lia.
Qed.
(** Two rounds suffice, one if the data do not run over the end of the array. *)
Lemma read_loop_spec fuel n buf b (Q : RC.t * memory → t → Prop) :
  wf b →
  n <= Z.of_nat (length buf) ∨ data_size_ b = 0 ∨ data_size_ b <= write_pos_ b ∧ (1 <= fuel)%nat ∨ (2 <= fuel)%nat →
  (∀ b', wf b' → capacity b' = capacity b →
     contents b' = drop (Z.to_nat n - length buf) (contents b) →
     Q (RC.SUCCESS, buf ++ take (Z.to_nat n - length buf) (contents b)) b') →
  wp (read_loop fuel n RC.SUCCESS buf) b Q.
Proof.
  revert buf b. induction fuel as [|fuel IH]; intros buf b Hwf Hf HQ;
    cbn [read_loop]; unfold size; apply wp_bind, wp_get;
    pose proof (length_contents b Hwf) as Hlen; change (RC.succ RC.SUCCESS) with true.
  all: destruct (decide (n <= Z.of_nat (length buf) ∨ data_size_ b = 0)) as [Hd|Hd].
  1,3: assert (bool_decide (Z.of_nat (length buf) < n) && bool_decide (data_size_ b > 0) = false) as E
    by (rewrite andb_false_iff, !bool_decide_eq_false; lia);
    cbn [andb]; rewrite E; apply wp_ret; assert (take (Z.to_nat n - length buf) (contents b) = []) as Ht
      by (apply nil_length_inv; rewrite length_take; lia);
    rewrite <-(app_nil_r buf) at 1; rewrite <-Ht; apply HQ; [done|done|];
    rewrite <-(take_drop (Z.to_nat n - length buf) (contents b)) at 1; by rewrite Ht.
  { exfalso. destruct Hwf. lia. }
  rewrite !bool_decide_eq_true_2 by (destruct Hwf; lia). cbn [andb].
  destruct (buffer_spec b Hwf) as (p & m & -> & Hp & Hm & Hl). change (RC.succ RC.SUCCESS) with true.
  set (c := Z.min (n - Z.of_nat (length buf)) m).
  assert (Hc : 0 < c <= data_size_ b ∧ c <= m) by (destruct Hwf, (decide _); lia).
  apply wp_bind. eapply wp_some; [apply (load_bytes_take _ (Z.to_nat m)); [exact Hl|lia]|].
  apply wp_bind, forward_spec; [done|lia|]. intros b' Hwf' Hc' Hcap Hds Hwp.
  assert (Z.to_nat n - length (buf ++ take (Z.to_nat c) (contents b)) = Z.to_nat n - length buf - Z.to_nat c)%nat as Hrest.
  { rewrite length_app, length_take. lia. }
  apply IH; [done| |].
  - rewrite length_app, length_take, Hds, Hwp. destruct (decide _); lia.
  - intros b'' Hwf'' Hcap'' Hc''. rewrite Hrest, Hc' in *.
    rewrite <-app_assoc, take_take_drop by lia. apply HQ; [done|congruence|].
    rewrite Hc'', drop_drop. f_equal. lia.
Qed.
Lemma read_spec fuel n b (Q : RC.t * memory → t → Prop) :
  wf b → 0 <= n → (2 <= fuel)%nat →
  (∀ b', wf b' → capacity b' = capacity b → contents b' = drop (Z.to_nat n) (contents b) →
     Q (RC.SUCCESS, take (Z.to_nat n) (contents b)) b') →
  wp (read fuel n) b Q.
Proof.
  intros Hwf Hn Hf HQ. unfold read. destruct (decide (n < 0)); [lia|].
  apply read_loop_spec; [done|lia|]. simpl. rewrite Nat.sub_0_r. auto.
Qed.
Lemma write_loop_spec fuel data n ws b (Q : RC.t * Z → t → Prop) :
  wf b → 0 <= ws → n <= Z.of_nat (length data) →
  n <= ws ∨ remain b = 0 ∨ write_pos_ b < data_size_ b ∧ (1 <= fuel)%nat ∨ (2 <= fuel)%nat →
  (∀ b', let k := Z.max 0 (Z.min (n - ws) (remain b)) in
     wf b' → capacity b' = capacity b →
     contents b' = contents b ++ take (Z.to_nat k) (drop (Z.to_nat ws) data) →
     Q (RC.SUCCESS, ws + k) b') →
  wp (write_loop fuel data n ws) b Q.
Proof.
  revert ws b. induction fuel as [|fuel IH]; intros ws b Hwf Hws Hn Hf HQ;
    cbn [write_loop]; apply wp_bind, wp_get; cbv zeta in HQ.
  all: destruct (decide (n <= ws ∨ remain b = 0)) as [Hd|Hd].
  1,3: assert (bool_decide (ws < n) && bool_decide (remain b > 0) = false) as E
    by (rewrite andb_false_iff, !bool_decide_eq_false; lia);
    rewrite E; apply wp_ret; rewrite <-(Z.add_0_r ws) at 1;
    replace 0 with (Z.max 0 (Z.min (n - ws) (remain b))) at 1 by (destruct Hwf; unfold remain, size in *; lia);
    apply HQ; [done|done|];
    replace (Z.max 0 (Z.min (n - ws) (remain b))) with 0 by (destruct Hwf; unfold remain, size in *; lia);
    by rewrite app_nil_r.
  { exfalso. destruct Hwf. unfold remain, size in *. lia. }
  assert (0 < remain b) as Hrem by (destruct Hwf; unfold remain, size in *; lia).
  rewrite !bool_decide_eq_true_2 by lia. cbn [andb].
  destruct (read_pos_spec b Hwf) as [_ Hrp]; [destruct Hwf; unfold remain, size in *; lia|].
  set (m := if decide (read_pos b <= write_pos_ b) then _ else _).
  set (c := Z.min (n - ws) m).
  assert (Hm : m = if decide (write_pos_ b < data_size_ b) then remain b else capacity b - write_pos_ b).
  { subst m. destruct Hwf. unfold remain, size in *. repeat destruct (decide _); lia. }
  assert (Hc : 0 < c <= remain b ∧ c <= m ∧ write_pos_ b + c <= capacity b ∧ (c = n - ws ∨ c = m) ∧ c <= n - ws).
  { subst c. destruct Hwf. unfold remain, size in *. destruct (decide _); lia. }
  clearbody c. apply wp_bind. eapply (wp_some _ (take (Z.to_nat c) (drop (Z.to_nat ws) data))).
  { unfold load_bytes. by rewrite decide_True by lia. }
  assert (Z.of_nat (length (take (Z.to_nat c) (drop (Z.to_nat ws) data))) = c) as Hl
    by (rewrite length_take, length_drop; lia).
  destruct (append_spec b (take (Z.to_nat c) (drop (Z.to_nat ws) data)) Hwf) as (buffer & Hst & Hwf' & Hcont & Hcap);
    [lia..|]. rewrite Hl in Hwf', Hcont, Hcap. cbv zeta in Hwf', Hcont, Hcap.
  apply wp_bind. eapply wp_some; [exact Hst|]. apply wp_bind, wp_modify.
  assert (Hr : remain (mk buffer (data_size_ b + c) (Z.rem (write_pos_ b + c) (capacity b))) = remain b - c)
    by (unfold remain, size; rewrite Hcap; simpl; lia).
  apply IH; [done|lia|lia| |].
  - rewrite Hr. simpl. destruct (decide (write_pos_ b < data_size_ b)); [lia|].
    destruct (decide (c = n - ws)); [lia|]. replace (write_pos_ b + c) with (capacity b) by lia.
    rewrite Z.rem_same by (destruct Hwf; unfold remain, size in *; lia). destruct Hwf. lia.
  - cbv zeta. rewrite Hr. intros b'' Hwf'' Hcap'' Hcont''.
    replace (ws + c + _) with (ws + Z.max 0 (Z.min (n - ws) (remain b))) by lia.
    apply HQ; [done|congruence|]. rewrite Hcont'', Hcont, <-app_assoc. f_equal.
    replace (Z.to_nat (ws + c)) with (Z.to_nat ws + Z.to_nat c)%nat by lia. rewrite <-drop_drop.
    replace (Z.to_nat (Z.max 0 (Z.min (n - (ws + c)) (remain b - c))))
      with (Z.to_nat (Z.max 0 (Z.min (n - ws) (remain b))) - Z.to_nat c)%nat by lia.
    apply take_take_drop. lia.
Qed.
Lemma ring_write_spec fuel data n b (Q : RC.t * Z → t → Prop) :
  wf b → 0 <= n <= Z.of_nat (length data) → (2 <= fuel)%nat →
  (∀ b', let k := Z.min n (remain b) in
     wf b' → capacity b' = capacity b → contents b' = contents b ++ take (Z.to_nat k) data → Q (RC.SUCCESS, k) b') →
  wp (write fuel data n) b Q.
Proof.
  intros Hwf Hn Hf HQ. unfold write. destruct (decide (n < 0)); [lia|].
  apply write_loop_spec; [done|lia|lia|lia|]. cbv zeta in *. intros b' Hwf' Hcap Hc.
  assert (Z.max 0 (Z.min (n - 0) (remain b)) = Z.min n (remain b)) as E
    by (destruct Hwf; unfold remain, size; lia).
  rewrite E in *. by apply HQ.
Qed.
Lemma ring_clear_spec b (Q : RC.t → t → Prop) :
  wf b → (∀ b', wf b' → capacity b' = capacity b → contents b' = [] → Q RC.SUCCESS b') → wp clear b Q.
Proof.
  intros Hwf HQ. apply wp_bind, wp_modify, wp_ret. apply HQ; [|done|done].
  destruct Hwf. unfold wf, capacity in *; simpl. lia.
Qed.
End RingBufferCorrect.

(** ** [BufferedWriter] *)
(** The answer of [::write]: the number of bytes, or an error, which is [EAGAIN] or [EINTR]
    if [again]. *)
Inductive write_result : Set :=
| Written (n : Z)
| WriteError (again : bool).
(** The answer of [::read]: the bytes, or an error, after which the caller tries again if
    [again] ([EAGAIN]; for [readn] also [EINTR]). *)
Inductive read_result : Set :=
| ReadBytes (bytes : memory)
| ReadError (again : bool).
Class OsWrite (W : Type) : Type := sys_write : Z → memory → W → write_result * W.

Module BufferedWriter.
Record t : Set := mk { fd_ : Z; buffer_ : RingBuffer.t }.
Definition make (fd : Z) : t := mk fd RingBuffer.make_default.
Definition make_sized (fd size : Z) : t := mk fd (RingBuffer.make size).

Section writer.
Context {W : Type} `{!OsWrite W} (fuel : nat).
Abbreviation M := (ST (W * t)).

Definition get_writer : M t := λ '(w, b), Done (b, (w, b)).
Definition set_fd (fd : Z) : M () := λ '(w, b), Done ((), (w, mk fd (buffer_ b))).
Definition on_buffer {A} (c : ST RingBuffer.t A) : M A :=
  λ '(w, b),
    match c (buffer_ b) with
    | Done (a, buffer) => Done (a, (w, mk (fd_ b) buffer))
    | Crash => Crash
    | OutOfFuel => OutOfFuel
    end.
Definition os_write (buf : memory) : M write_result :=
  λ '(w, b), let '(r, w) := sys_write (fd_ b) buf w in Done (r, (w, b)).

(** the loop around [::write]: [None] is an error *)
Fixpoint write_some (tries : nat) (buf : memory) : M (option Z) :=
  match tries with
  | O => st_nofuel
  | S tries =>
      r ← os_write buf;
      match r with
      | Written tmp_write_size => if decide (tmp_write_size = 0) then write_some tries buf else mret (Some tmp_write_size)
      | WriteError again => if again then write_some tries buf else mret None
      end
  end.
Fixpoint flush_loop (rounds : nat) (size write_size : Z) : M RC.t :=
  b ← get_writer;
  if bool_decide (RingBuffer.size (buffer_ b) > 0) && bool_decide (size > write_size) then
    match rounds with
    | O => st_nofuel
    | S rounds =>
        let '(rc, buf, read_size) := RingBuffer.buffer (buffer_ b) in
        if negb (RC.succ rc) then mret rc
        else
          bytes ← st_some (load_bytes (Z.to_nat buf) (Z.to_nat read_size) (RingBuffer.buffer_ (buffer_ b)));
          r ← write_some fuel bytes;
          match r with
          | None => mret RC.IOERR_WRITE
          | Some tmp_write_size =>
              on_buffer (RingBuffer.forward tmp_write_size) ;;;
              flush_loop rounds size (write_size + tmp_write_size)
          end
    end
  else mret RC.SUCCESS.
Definition flush_internal (size : Z) : M RC.t :=
  b ← get_writer;
  if decide (fd_ b < 0) then mret RC.INVALID_ARGUMENT else flush_loop fuel size 0.
Fixpoint flush_all (rounds : nat) (rc : RC.t) : M RC.t :=
  b ← get_writer;
  if RC.succ rc && bool_decide (RingBuffer.size (buffer_ b) > 0) then
    match rounds with
    | O => st_nofuel
    | S rounds => rc ← flush_internal (RingBuffer.size (buffer_ b)); flush_all rounds rc
    end
  else mret rc.
Definition flush : M RC.t :=
  b ← get_writer;
  if decide (fd_ b < 0) then mret RC.INVALID_ARGUMENT else flush_all fuel RC.SUCCESS.

(** [write]: the return code and [write_size] *)
Definition write (data : memory) (size : Z) : M (RC.t * Z) :=
  b ← get_writer;
  if decide (fd_ b < 0) then mret (RC.INVALID_ARGUMENT, 0)
  else
    rc ← (if decide (RingBuffer.remain (buffer_ b) = 0) then flush_internal size else mret RC.SUCCESS);
    if RC.succ rc then on_buffer (RingBuffer.write fuel data size) else mret (rc, 0).
Fixpoint writen_loop (rounds : nat) (data : memory) (size write_size : Z) : M RC.t :=
  if decide (write_size < size) then
    match rounds with
    | O => st_nofuel
    | S rounds =>
        r ← write (drop (Z.to_nat write_size) data) (size - write_size);
        let '(rc, tmp_write_size) := r in
        if RC.succ rc then writen_loop rounds data size (write_size + tmp_write_size) else mret rc
    end
  else mret RC.SUCCESS.
Definition writen (data : memory) (size : Z) : M RC.t :=
  b ← get_writer;
  if decide (fd_ b < 0) then mret RC.INVALID_ARGUMENT else writen_loop fuel data size 0.

Definition clear : M RC.t :=
  b ← get_writer;
  if decide (fd_ b < 0) then mret RC.INVALID_ARGUMENT else on_buffer RingBuffer.clear ;;; mret RC.SUCCESS.
Definition close : M RC.t :=
  b ← get_writer;
  if decide (fd_ b < 0) then mret RC.SUCCESS
  else
    try flush ;;
    set_fd (-1) ;;;
    mret RC.SUCCESS.
End writer.
End BufferedWriter.

(** ** What is relied on

    [sent fd w] are the bytes [::write] has taken for [fd]; [patience] bounds how often it
    answers "try again", or takes nothing, in a row. *)
Class OsWriteLaws (W : Type) `{!OsWrite W} : Type := {
  sent : Z → W → memory;
  patience : W → nat;
  max_wait : nat;
  patience_bound w : (patience w <= max_wait)%nat;
  write_written fd d w n w' :
    sys_write fd d w = (Written n, w') → d ≠ [] →
    0 <= n <= Z.of_nat (length d) ∧ sent fd w' = sent fd w ++ take (Z.to_nat n) d;
  write_zero fd d w w' : sys_write fd d w = (Written 0, w') → d ≠ [] → (patience w' < patience w)%nat;
  write_error fd d w again w' : sys_write fd d w = (WriteError again, w') → sent fd w' = sent fd w;
  write_again fd d w w' : sys_write fd d w = (WriteError true, w') → (patience w' < patience w)%nat
}.

(** [incoming net] are the bytes the peer has sent and nobody has read; [::read] gives some
    of them, or asks to try again, at most [max_read_wait] times in a row. *)
Class OsReadLaws {N : Type} (sys_read : Z → N → read_result * N) : Type := {
  incoming : N → memory;
  read_wait : N → nat;
  max_read_wait : nat;
  read_wait_bound net : (read_wait net <= max_read_wait)%nat;
  read_some n net r net' :
    sys_read n net = (r, net') → 0 < n → incoming net ≠ [] →
    match r with
    | ReadBytes d => incoming net = d ++ incoming net' ∧ Z.of_nat (length d) <= n ∧ d ≠ []
    | ReadError again => again = true ∧ incoming net' = incoming net ∧ (read_wait net' < read_wait net)%nat
    end;
  read_nothing net : ∃ net', sys_read 0 net = (ReadBytes [], net')
}.

Module Import BufferedWriterCorrect.
Import RingBufferCorrect BufferedWriter.
Section correct.
Context {W : Type} `{OsWriteLaws W} (fuel : nat).
Implicit Types (w : W) (b : t) (s : W * t).

(** [::write] can fail *)
Definition fails : Prop := ∃ fd d w w', sys_write (W := W) fd d w = (WriteError false, w').
(** the output of a connection: what has been sent, then what waits in the buffer *)
Definition stream (s : W * t) : memory := sent (fd_ s.2) s.1 ++ RingBuffer.contents (buffer_ s.2).
(** an open writer on [fd] with [cap] bytes of buffer, and fuel for its loops *)
Definition ready (fd cap : Z) (s : W * t) : Prop :=
  fd_ s.2 = fd ∧ 0 <= fd ∧ RingBuffer.wf (buffer_ s.2) ∧ RingBuffer.capacity (buffer_ s.2) = cap ∧ 0 < cap ∧
  (max_wait < fuel)%nat ∧ cap < Z.of_nat fuel ∧ (2 <= fuel)%nat.

Lemma wp_get_writer s (Q : t → W * t → Prop) : Q s.2 s → wp get_writer s Q.
Proof. destruct s. intros ?. by exists t0, (w, t0). Qed.
Lemma wp_on_buffer {A} (c : ST RingBuffer.t A) s (Q : A → W * t → Prop) :
  wp c (buffer_ s.2) (λ a buffer, Q a (s.1, mk (fd_ s.2) buffer)) → wp (on_buffer c) s Q.
Proof.
  destruct s as [w b]. intros (a & b' & Hc & HQ). exists a, (w, mk (fd_ b) b'). split; [|done].
  unfold on_buffer. simpl in *. by rewrite Hc.
Qed.

Lemma write_some_spec tries d s (Q : option Z → W * t → Prop) :
  d ≠ [] → (patience s.1 < tries)%nat →
  (∀ w' n, 0 < n <= Z.of_nat (length d) → sent (fd_ s.2) w' = sent (fd_ s.2) s.1 ++ take (Z.to_nat n) d →
     Q (Some n) (w', s.2)) →
  (∀ w', fails → sent (fd_ s.2) w' = sent (fd_ s.2) s.1 → Q None (w', s.2)) →
  wp (write_some tries d) s Q.
Proof.
  intros Hd. revert s. induction tries as [|tries IH]; intros [w b] Ht HQ HQ'; [lia|].
  cbn [write_some]. unfold os_write, wp. unfold mbind, ST_bind. cbn [fst snd] in *.
  destruct (sys_write (fd_ b) d w) as [r w'] eqn:E.
  assert (Hgo : sent (fd_ b) w' = sent (fd_ b) w → (patience w' < patience w)%nat → wp (write_some tries d) (w', b) Q).
  { intros Hs Hp. apply IH; simpl; [lia| |].
    - intros w'' n Hn Hw''. apply HQ; [done|]. by rewrite Hw'', Hs.
    - intros w'' Hfails Hw''. apply HQ'; [done|]. by rewrite Hw''. }
  destruct r as [n|[|]].
  - destruct (write_written _ _ _ _ _ E Hd) as [Hn Hs]. destruct (decide (n = 0)) as [->|Hz].
    + apply Hgo; [|by eapply write_zero]. by rewrite Hs, app_nil_r.
    + apply wp_ret, HQ; [lia|done].
  - apply Hgo; [by eapply write_error|by eapply write_again].
  - apply wp_ret, HQ'; [by repeat eexists|]. by eapply write_error.
Qed.
(** A part of the buffer is handed over: the stream of the connection stays. *)
Lemma flush_loop_spec rounds size ws s fd cap (Q : RC.t → W * t → Prop) :
  ready fd cap s → (Z.to_nat (RingBuffer.data_size_ (buffer_ s.2)) <= rounds)%nat →
  (∀ s', ready fd cap s' → stream s' = stream s →
     (RingBuffer.contents (buffer_ s'.2) = [] ∨ size - ws <= RingBuffer.remain (buffer_ s'.2) - RingBuffer.remain (buffer_ s.2)) →
     Q RC.SUCCESS s') →
  (∀ s', fails → ready fd cap s' → stream s' = stream s → Q RC.IOERR_WRITE s') →
  wp (flush_loop fuel rounds size ws) s Q.
Proof.
  revert ws s. induction rounds as [|rounds IH]; intros ws s Hr Hf HQ HQ'; cbn [flush_loop];
    apply wp_bind, wp_get_writer; unfold RingBuffer.size;
    destruct (Hr) as (Hfd & Hpos & Hwf & Hcap & Hcpos & Hfuel);
    (destruct (decide (RingBuffer.data_size_ (buffer_ s.2) > 0 ∧ size > ws)) as [Hc|Hc];
     [rewrite !bool_decide_eq_true_2 by tauto; cbn [andb]|
      assert (bool_decide (RingBuffer.data_size_ (buffer_ s.2) > 0) && bool_decide (size > ws) = false) as ->
        by (rewrite andb_false_iff, !bool_decide_eq_false; lia);
      apply wp_ret, HQ; [done|done|];
      destruct (decide (RingBuffer.data_size_ (buffer_ s.2) = 0)); [left; by apply contents_nil|right];
      destruct Hwf; lia]).
  { lia. }
  destruct (buffer_spec _ Hwf) as (p & m & -> & Hp & Hm & Hl). cbn [negb].
  change (RC.succ RC.SUCCESS) with true. cbn [negb].
  assert (0 < m <= RingBuffer.data_size_ (buffer_ s.2)) as Hm'
    by (destruct Hwf; destruct (decide _); lia).
  apply wp_bind. eapply wp_some; [exact Hl|].
  pose proof (length_contents _ Hwf) as Hlen.
  set (d := take (Z.to_nat m) _). assert (Z.of_nat (length d) = m) as Hd by (unfold d; rewrite length_take; lia).
  apply wp_bind, write_some_spec.
  - intros Hnil. rewrite Hnil in Hd. simpl in Hd. lia.
  - pose proof (patience_bound s.1). lia.
  - intros w' n Hn Hsent. apply wp_bind, wp_on_buffer, forward_spec; [done|simpl; lia|].
    cbn [fst snd fd_ buffer_]. intros buffer Hwf' Hcont' Hcap' Hds' _.
    set (s' := (w', mk (fd_ s.2) buffer)).
    assert (stream s' = stream s) as Hst.
    { unfold stream. simpl. rewrite Hsent, Hcont', <-app_assoc. f_equal. unfold d.
      rewrite take_take, Nat.min_l by lia. apply take_drop. }
    assert (ready fd cap s') by (unfold ready; simpl; intuition congruence).
    apply IH; [done|simpl; lia| |].
    + intros s'' Hr'' Hst'' Hend. apply HQ; [done|congruence|]. destruct Hend as [|Hend]; [by left|right].
      unfold RingBuffer.remain, RingBuffer.size in *. simpl in Hend. rewrite Hcap', Hds' in Hend. lia.
    + intros s'' Hfails Hr'' Hst''. apply HQ'; [done|done|congruence].
  - intros w' Hfails Hsent. apply wp_ret, HQ'; [done| |].
    + unfold ready in *. simpl. intuition congruence.
    + unfold stream. simpl. by rewrite Hsent.
Qed.
Lemma flush_internal_spec size s fd cap (Q : RC.t → W * t → Prop) :
  ready fd cap s →
  (∀ s', ready fd cap s' → stream s' = stream s →
     (RingBuffer.contents (buffer_ s'.2) = [] ∨ size <= RingBuffer.remain (buffer_ s'.2) - RingBuffer.remain (buffer_ s.2)) →
     Q RC.SUCCESS s') →
  (∀ s', fails → ready fd cap s' → stream s' = stream s → Q RC.IOERR_WRITE s') →
  wp (flush_internal fuel size) s Q.
Proof.
  intros Hr HQ HQ'. destruct (Hr) as (Hfd & ? & Hwf & ? & ? & ?). unfold flush_internal.
  apply wp_bind, wp_get_writer. destruct (decide _); [lia|].
  eapply flush_loop_spec; [done| |rewrite Z.sub_0_r; exact HQ|done]. destruct Hwf. lia.
Qed.
Lemma flush_spec s fd cap (Q : RC.t → W * t → Prop) :
  ready fd cap s →
  (∀ s', ready fd cap s' → stream s' = stream s → RingBuffer.contents (buffer_ s'.2) = [] → Q RC.SUCCESS s') →
  (∀ s', fails → ready fd cap s' → stream s' = stream s → Q RC.IOERR_WRITE s') →
  wp (flush fuel) s Q.
Proof.
  intros Hr HQ HQ'. destruct (Hr) as (Hfd & ? & Hwf & ? & ? & Hfuel & ? & Hfuel2). unfold flush.
  apply wp_bind, wp_get_writer. destruct (decide _); [lia|].
  destruct fuel as [|rounds] eqn:Ef; [lia|]. cbn [flush_all]. rewrite <-Ef in *.
  apply wp_bind, wp_get_writer. change (RC.succ RC.SUCCESS) with true. unfold RingBuffer.size. cbn [andb].
  case_bool_decide as Hs.
  - apply wp_bind. eapply flush_internal_spec; [done| |].
    + intros s' Hr' Hst Hend.
      assert (RingBuffer.data_size_ (buffer_ s'.2) = 0) as Hz.
      { destruct Hr' as (_ & _ & Hwf' & Hcap' & _). destruct Hend as [Hnil|Hend]; [by apply contents_nil in Hnil|].
        unfold RingBuffer.remain, RingBuffer.size in Hend. destruct Hwf'. lia. }
      destruct rounds; cbn [flush_all]; apply wp_bind, wp_get_writer;
        unfold RingBuffer.size; rewrite Hz; apply wp_ret, HQ; try done; apply contents_nil; try done; apply Hr'.
    + intros s' Hfails Hr' Hst. destruct rounds; cbn [flush_all]; apply wp_bind, wp_get_writer, wp_ret, HQ'; done.
  - apply wp_ret, HQ; [done|done|]. apply contents_nil; [done|]. destruct Hwf. lia.
Qed.
Lemma write_spec data size s fd cap (Q : RC.t * Z → W * t → Prop) :
  ready fd cap s → 0 < size <= Z.of_nat (length data) →
  (∀ s' k, ready fd cap s' → 0 < k <= size → stream s' = stream s ++ take (Z.to_nat k) data → Q (RC.SUCCESS, k) s') →
  (∀ s', fails → ready fd cap s' → stream s' = stream s → Q (RC.IOERR_WRITE, 0) s') →
  wp (write fuel data size) s Q.
Proof.
  intros Hr Hsize HQ HQ'. destruct (Hr) as (Hfd & ? & Hwf & ? & ? & ?). unfold write.
  apply wp_bind, wp_get_writer. destruct (decide (_ < 0)); [lia|].
  assert (Hw : ∀ s', ready fd cap s' → stream s' = stream s → 0 < RingBuffer.remain (buffer_ s'.2) →
    wp (on_buffer (RingBuffer.write fuel data size)) s' Q).
  { intros s' Hr' Hst Hrem. pose proof Hr' as (Hfd' & _ & Hwf' & Hcap' & Hfuel').
    apply wp_on_buffer, RingBufferCorrect.ring_write_spec; [done|lia|lia|]. cbv zeta.
    intros buffer Hwf'' Hcap'' Hcont. apply HQ; [|lia|].
    - unfold ready in *. simpl. intuition congruence.
    - unfold stream in *. simpl. by rewrite Hcont, app_assoc, Hst. }
  destruct (decide (RingBuffer.remain (buffer_ s.2) = 0)) as [Hz|Hz].
  - apply wp_bind. eapply flush_internal_spec; [done| |].
    + intros s' Hr' Hst Hend. apply Hw; [done|done|].
      destruct Hr' as (_ & _ & Hwf' & Hcap' & _). destruct Hend as [Hnil|Hend]; [|lia].
      apply contents_nil in Hnil; [|done]. unfold RingBuffer.remain, RingBuffer.size. lia.
    + intros s' Hfails Hr' Hst. by apply wp_ret, HQ'.
  - apply wp_bind, wp_ret, Hw; [done|done|]. unfold RingBuffer.remain, RingBuffer.size in *. destruct Hwf. lia.
Qed.
Lemma writen_spec data size s fd cap (Q : RC.t → W * t → Prop) :
  ready fd cap s → 0 <= size <= Z.of_nat (length data) → size <= Z.of_nat fuel →
  (∀ s', ready fd cap s' → stream s' = stream s ++ take (Z.to_nat size) data → Q RC.SUCCESS s') →
  (∀ s' k, fails → ready fd cap s' → (k <= Z.to_nat size)%nat → stream s' = stream s ++ take k data → Q RC.IOERR_WRITE s') →
  wp (writen fuel data size) s Q.
Proof.
  intros Hr Hsize Hf HQ HQ'. destruct (Hr) as (Hfd & ? & _). unfold writen.
  apply wp_bind, wp_get_writer. destruct (decide (_ < 0)); [lia|]. clear Hfd.
  assert (Hgo : ∀ rounds ws s', ready fd cap s' → 0 <= ws <= size → size - ws <= Z.of_nat rounds →
    stream s' = stream s ++ take (Z.to_nat ws) data → wp (writen_loop fuel rounds data size ws) s' Q).
  { intros rounds. induction rounds as [|rounds IH]; intros ws s' Hr' Hws Hrounds Hst; cbn [writen_loop].
    - rewrite decide_False by lia. apply wp_ret, HQ; [done|]. by replace size with ws by lia.
    - destruct (decide (ws < size)).
      + apply wp_bind. eapply write_spec; [done|rewrite length_drop; lia| |].
        * intros s'' k Hr'' Hk Hst''. change (RC.succ RC.SUCCESS) with true. cbv iota.
          apply IH; [done|lia|lia|]. rewrite Hst'', Hst, <-app_assoc. f_equal.
          replace (Z.to_nat k) with (Z.to_nat (ws + k) - Z.to_nat ws)%nat by lia. apply take_take_drop. lia.
        * intros s'' Hfails Hr'' Hst''. apply wp_ret, (HQ' _ (Z.to_nat ws)); [done|done|lia|congruence].
      + apply wp_ret, HQ; [done|]. by replace size with ws by lia. }
  apply Hgo; [done|lia|lia|]. by rewrite app_nil_r.
Qed.
Lemma clear_spec s fd cap (Q : RC.t → W * t → Prop) :
  ready fd cap s →
  (∀ s', ready fd cap s' → stream s' = sent fd s.1 → Q RC.SUCCESS s') → wp clear s Q.
Proof.
  intros Hr HQ. destruct (Hr) as (Hfd & ? & Hwf & ?). unfold clear.
  apply wp_bind, wp_get_writer. destruct (decide (_ < 0)); [lia|].
  apply wp_bind, wp_on_buffer, RingBufferCorrect.ring_clear_spec; [done|]. intros buffer Hwf' Hcap' Hc.
  apply wp_ret, HQ; [unfold ready in *; simpl; intuition congruence|].
  unfold stream. simpl. by rewrite Hc, app_nil_r, Hfd.
Qed.
End correct.
End BufferedWriterCorrect.

(** ** [common::writen], [common::readn] *)
Module Io.
Section writing.
Context {N : Type} `{!OsWrite N}.
(** whether it returns 0 *)
Fixpoint writen (fuel : nat) (fd : Z) (buf : memory) : ST N bool :=
  match buf with
  | [] => mret true
  | _ =>
      match fuel with
      | O => st_nofuel
      | S fuel =>
          r ← (λ net, Done (sys_write fd buf net)) : ST N write_result;
          match r with
          | Written ret => writen fuel fd (drop (Z.to_nat ret) buf)
          | WriteError again => if again then writen fuel fd buf else mret false
          end
      end
  end.
End writing.
Section reading.
Context {N : Type} (sys_read : Z → N → read_result * N).
(** the bytes, or [None] at the end of the file and after an error; [buf] are those before *)
Fixpoint readn_loop (fuel : nat) (size : nat) (buf : memory) : ST N (option memory) :=
  match size with
  | O => mret (Some buf)
  | _ =>
      match fuel with
      | O => st_nofuel
      | S fuel =>
          r ← (λ net, Done (sys_read (Z.of_nat size) net)) : ST N read_result;
          match r with
          | ReadBytes [] => mret None
          | ReadBytes bytes => readn_loop fuel (size - length bytes) (buf ++ bytes)
          | ReadError again => if again then readn_loop fuel size buf else mret None
          end
      end
  end.
Definition readn (fuel : nat) (size : nat) : ST N (option memory) := readn_loop fuel size [].
End reading.
End Io.

Module IoCorrect.
Import RingBufferCorrect.
Section writing.
Context {N : Type} `{OsWriteLaws N} (fd : Z).
Lemma io_writen_spec fuel buf net (Q : bool → N → Prop) :
  (length buf * S max_wait + patience net < fuel)%nat →
  (∀ net', sent fd net' = sent fd net ++ buf → Q true net') →
  (∀ net' k, BufferedWriterCorrect.fails (W := N) → sent fd net' = sent fd net ++ take k buf → Q false net') →
  wp (Io.writen fuel fd buf) net Q.
Proof.
  revert buf net. induction fuel as [|fuel IH]; intros buf net Hf HQ HQ'; [lia|].
  destruct buf as [|x buf]; [apply wp_ret, HQ; by rewrite app_nil_r|].
  cbn [Io.writen]. set (d := x :: buf) in *. assert (d ≠ []) as Hd by done.
  apply wp_bind. destruct (sys_write fd d net) as [r net'] eqn:E. exists r, net'. rewrite E. split; [done|].
  pose proof (patience_bound net').
  assert (Hgo : sent fd net' = sent fd net → (patience net' < patience net)%nat → wp (Io.writen fuel fd d) net' Q).
  { intros Hs Hp. apply IH; [lia| |].
    - intros n2 Hn2. apply HQ. by rewrite Hn2, Hs.
    - intros n2 k Hfail Hn2. apply (HQ' _ k); [done|]. by rewrite Hn2, Hs. }
  destruct r as [n|[|]].
  - destruct (write_written _ _ _ _ _ E Hd) as [Hn Hs]. destruct (decide (n = 0)) as [->|Hz].
    + apply Hgo; [by rewrite Hs, app_nil_r|by eapply write_zero].
    + apply IH.
      * rewrite length_drop. assert (length d = (length d - Z.to_nat n) + Z.to_nat n)%nat as E2 by lia.
        assert (1 <= Z.to_nat n)%nat by lia. rewrite E2 in Hf. nia.
      * intros n2 Hn2. apply HQ. by rewrite Hn2, Hs, <-app_assoc, take_drop.
      * intros n2 k Hfail Hn2. apply (HQ' _ (Z.to_nat n + k)%nat); [done|]. rewrite Hn2, Hs, <-app_assoc. f_equal.
        rewrite <-(take_take_drop d (Z.to_nat n) (Z.to_nat n + k)) by lia. do 2 f_equal. lia.
  - apply Hgo; [by eapply write_error|by eapply write_again].
  - apply wp_ret, (HQ' _ 0%nat); [by repeat eexists|]. rewrite app_nil_r. by eapply write_error.
Qed.
End writing.

Section reading.
Context {N : Type} (sys_read : Z → N → read_result * N) `{!OsReadLaws sys_read}.
Lemma readn_loop_spec fuel size buf net (Q : option memory → N → Prop) :
  (size <= length (incoming net))%nat → (size * S max_read_wait + read_wait net < fuel)%nat →
  (∀ net', incoming net = take size (incoming net) ++ incoming net' → Q (Some (buf ++ take size (incoming net))) net') →
  wp (Io.readn_loop sys_read fuel size buf) net Q.
Proof.
  revert size buf net. induction fuel as [|fuel IH]; intros size buf net Hsize Hf HQ; [lia|].
  destruct size as [|size]; [apply wp_ret; rewrite <-(app_nil_r buf); by apply HQ|].
  cbn [Io.readn_loop]. set (n := S size) in *. assert (incoming net ≠ []) as Hne by (intros E; rewrite E in Hsize; simpl in Hsize; lia).
  apply wp_bind. destruct (sys_read (Z.of_nat n) net) as [r net'] eqn:E. exists r, net'. rewrite E. split; [done|].
  pose proof (read_some _ _ _ _ E ltac:(lia) Hne) as Hr. pose proof (read_wait_bound net'). destruct r as [d|again].
  - destruct Hr as (Hin & Hlen & Hd). destruct d as [|x d]; [done|]. set (bs := x :: d) in *.
    assert (1 <= length bs <= n)%nat as Hl by (subst bs n; simpl in *; lia).
    rewrite Hin in Hsize, HQ. rewrite length_app in Hsize. apply IH; [lia| |].
    + assert (n = (n - length bs) + length bs)%nat as E2 by lia. rewrite E2 in Hf. nia.
    + intros net2 Hnet2. rewrite <-app_assoc. rewrite take_app_ge in HQ by lia. apply HQ.
      by rewrite <-app_assoc, <-Hnet2.
  - destruct Hr as (-> & Hi & Hw). apply IH; [by rewrite Hi|lia|]. by rewrite Hi.
Qed.
(** [readn] takes the next [size] bytes. *)
Lemma readn_spec fuel size net (Q : option memory → N → Prop) :
  (size <= length (incoming net))%nat → (size * S max_read_wait + read_wait net < fuel)%nat →
  (∀ net', incoming net = take size (incoming net) ++ incoming net' → Q (Some (take size (incoming net))) net') →
  wp (Io.readn sys_read fuel size) net Q.
Proof. intros Hs Hf HQ. apply readn_loop_spec; [done|done|]. exact HQ. Qed.
End reading.
End IoCorrect.
