(* ===== verification/SqlResult.v ===== *)
(** * Requests and their results ([event/session_event.h], [sql/executor/sql_result.cpp], [session/session.h])

    A request of a client: its session, the result the stages leave in it (an operator with
    the header of its rows, or a code with a text), and the texts for debugging.  The
    operator is a [PhysOps]; [W] is the world the statement runs in, with the transaction of
    the session ([TrxEnds]). *)
From S2P Require Import Prelude RidKey Comparator TableMeta SqlValue Row Expr Rewrite Operators.
From Stdlib Require Import ZArith Lia Ascii String.
From stdpp Require Import base option strings list.
Local Open Scope Z_scope.

(** [strrc] ([common/rc.cpp]) *)
Definition strrc (rc : RC.t) : memory :=
  text (match rc with
  | RC.SUCCESS => "SUCCESS"
  | RC.INVALID_ARGUMENT => "INVALID_ARGUMENT"
  | RC.UNIMPLENMENT => "UNIMPLENMENT"
  | RC.SQL_SYNTAX => "SQL_SYNTAX"
  | RC.INTERNAL => "INTERNAL"
  | RC.NOMEM => "NOMEM"
  | RC.NOTFOUND => "NOTFOUND"
  | RC.EMPTY => "EMPTY"
  | RC.BUFFERPOOL_OPEN => "BUFFERPOOL_OPEN"
  | RC.BUFFERPOOL_NOBUF => "BUFFERPOOL_NOBUF"
  | RC.BUFFERPOOL_INVALID_PAGE_NUM => "BUFFERPOOL_INVALID_PAGE_NUM"
  | RC.RECORD_OPENNED => "RECORD_OPENNED"
  | RC.RECORD_INVALID_RID => "RECORD_INVALID_RID"
  | RC.RECORD_INVALID_KEY => "RECORD_INVALID_KEY"
  | RC.RECORD_DUPLICATE_KEY => "RECORD_DUPLICATE_KEY"
  | RC.RECORD_NOMEM => "RECORD_NOMEM"
  | RC.RECORD_EOF => "RECORD_EOF"
  | RC.RECORD_NOT_EXIST => "RECORD_NOT_EXIST"
  | RC.RECORD_INVISIBLE => "RECORD_INVISIBLE"
  | RC.SCHEMA_DB_EXIST => "SCHEMA_DB_EXIST"
  | RC.SCHEMA_DB_NOT_EXIST => "SCHEMA_DB_NOT_EXIST"
  | RC.TUPLE_NOT_EXIST => "TUPLE_NOT_EXIST"
  | RC.SCHEMA_DB_NOT_OPENED => "SCHEMA_DB_NOT_OPENED"
  | RC.SCHEMA_TABLE_NOT_EXIST => "SCHEMA_TABLE_NOT_EXIST"
  | RC.SCHEMA_TABLE_EXIST => "SCHEMA_TABLE_EXIST"
  | RC.SCHEMA_FIELD_NOT_EXIST => "SCHEMA_FIELD_NOT_EXIST"
  | RC.SCHEMA_FIELD_MISSING => "SCHEMA_FIELD_MISSING"
  | RC.SCHEMA_FIELD_TYPE_MISMATCH => "SCHEMA_FIELD_TYPE_MISMATCH"
  | RC.SCHEMA_INDEX_NAME_REPEAT => "SCHEMA_INDEX_NAME_REPEAT"
  | RC.IOERR_READ => "IOERR_READ"
  | RC.IOERR_WRITE => "IOERR_WRITE"
  | RC.IOERR_ACCESS => "IOERR_ACCESS"
  | RC.IOERR_OPEN => "IOERR_OPEN"
  | RC.IOERR_CLOSE => "IOERR_CLOSE"
  | RC.IOERR_SEEK => "IOERR_SEEK"
  | RC.IOERR_TOO_LONG => "IOERR_TOO_LONG"
  | RC.IOERR_SYNC => "IOERR_SYNC"
  | RC.LOCKED_UNLOCK => "LOCKED_UNLOCK"
  | RC.LOCKED_NEED_WAIT => "LOCKED_NEED_WAIT"
  | RC.LOCKED_CONCURRENCY_CONFLICT => "LOCKED_CONCURRENCY_CONFLICT"
  | RC.FILE_EXIST => "FILE_EXIST"
  | RC.FILE_NOT_EXIST => "FILE_NOT_EXIST"
  | RC.FILE_NAME => "FILE_NAME"
  | RC.FILE_BOUND => "FILE_BOUND"
  | RC.FILE_CREATE => "FILE_CREATE"
  | RC.FILE_OPEN => "FILE_OPEN"
  | RC.FILE_NOT_OPENED => "FILE_NOT_OPENED"
  | RC.FILE_CLOSE => "FILE_CLOSE"
  | RC.FILE_REMOVE => "FILE_REMOVE"
  | RC.FILE_SEEK => "FILE_SEEK"
  | RC.FILE_READ => "FILE_READ"
  | RC.FILE_WRITE => "FILE_WRITE"
  | RC.VARIABLE_NOT_EXISTS => "VARIABLE_NOT_EXISTS"
  | RC.VARIABLE_NOT_VALID => "VARIABLE_NOT_VALID"
  | RC.LOGBUF_FULL => "LOGBUF_FULL"
  | RC.FAILURE => "FAILURE"
  | RC.FAIL_TO_DELETE_FILE => "FAIL_TO_DELETE_FILE"
  | RC.SCHEMA_FIELD_NOT_NULLABLE => "SCHEMA_FIELD_NOT_NULLABLE"
  | RC.NEED_TUPLE => "NEED_TUPLE"
  end).

(** [Session]: the database and the transaction are part of the world *)
Module Session.
Record t : Set := mk { trx_multi_operation_mode_ : bool; sql_debug_ : bool }.
Definition default : t := mk false true.
Definition set_trx_multi_operation_mode (b : bool) (s : t) : t := mk b (sql_debug_ s).
Definition set_sql_debug (b : bool) (s : t) : t := mk (trx_multi_operation_mode_ s) b.
End Session.

(** what a session does with its transaction *)
Class TrxEnds (W : Type) := {
  start_if_need : ST W RC.t;
  commit : ST W RC.t;
  rollback : ST W RC.t
}.

(** [SessionEvent] with its [SqlResult] and its [SqlDebug] *)
Module SessionEvent.
Record t (C : Type) : Type := mk {
  session_ : Session.t;
  operator_ : option C;
  tuple_schema_ : list TupleCellSpec;
  return_code_ : RC.t;
  state_string_ : memory;
  debug_infos_ : list memory;
  query_ : memory
}.
Arguments mk {C}.
Arguments session_ {C}.
Arguments operator_ {C}.
Arguments tuple_schema_ {C}.
Arguments return_code_ {C}.
Arguments state_string_ {C}.
Arguments debug_infos_ {C}.
Arguments query_ {C}.
Definition make {C} (session : Session.t) (query : memory) : t C := mk session None [] RC.SUCCESS [] [] query.
Section set.
Context {C : Type}.
Implicit Types e : t C.
Definition set_session (f : Session.t → Session.t) e : t C :=
  mk (f (session_ e)) (operator_ e) (tuple_schema_ e) (return_code_ e) (state_string_ e) (debug_infos_ e) (query_ e).
Definition put_operator (o : option C) e : t C :=
  mk (session_ e) o (tuple_schema_ e) (return_code_ e) (state_string_ e) (debug_infos_ e) (query_ e).
Definition set_tuple_schema (l : list TupleCellSpec) e : t C :=
  mk (session_ e) (operator_ e) l (return_code_ e) (state_string_ e) (debug_infos_ e) (query_ e).
Definition set_return_code (rc : RC.t) e : t C :=
  mk (session_ e) (operator_ e) (tuple_schema_ e) rc (state_string_ e) (debug_infos_ e) (query_ e).
Definition set_state_string (s : memory) e : t C :=
  mk (session_ e) (operator_ e) (tuple_schema_ e) (return_code_ e) s (debug_infos_ e) (query_ e).
(** [sql_debug] *)
Definition add_debug_info (s : memory) e : t C :=
  mk (session_ e) (operator_ e) (tuple_schema_ e) (return_code_ e) (state_string_ e) (debug_infos_ e ++ [s]) (query_ e).
End set.
End SessionEvent.

(** ** [SqlResult] *)
Module SqlResult.
Import SessionEvent.
Section result.
Context {W C : Type} `{!PhysOps W C} `{!TrxEnds W}.
Abbreviation M := (ST (W * SessionEvent.t C)).

Definition has_operator (e : SessionEvent.t C) : bool := bool_decide (operator_ e ≠ None).
Definition on_operator {A} : ST (W * C) A → M A := on_part operator_ (λ c e, put_operator (Some c) e).
Definition on_world {A} (c : ST W A) : M A :=
  λ '(w, e),
    match c w with
    | Done (a, w) => Done (a, (w, e))
    | Crash => Crash
    | OutOfFuel => OutOfFuel
    end.
Definition set_operator (o : C) : M () :=
  e ← get_state; st_assert (negb (has_operator e)) ;;; set_state (put_operator (Some o)).
Definition open : M RC.t :=
  e ← get_state;
  if has_operator e then on_world start_if_need ;;; on_operator oper_open else mret RC.INVALID_ARGUMENT.
(** the code of a failed rollback is only logged *)
Definition close : M RC.t :=
  e ← get_state;
  if has_operator e then
    rc ← on_operator oper_close;
    (if RC.succ rc then mret ()
     else set_state (add_debug_info (text "failed to close operator. rc=" ++ strrc rc))) ;;;
    set_state (put_operator None) ;;;
    if Session.trx_multi_operation_mode_ (session_ e) then mret rc
    else if RC.succ rc then on_world commit
    else on_world rollback ;;; mret rc
  else mret RC.INVALID_ARGUMENT.
(** [next_tuple]: the return code and the tuple *)
Definition next_tuple : M (RC.t * option Tuple.t) :=
  rc ← on_operator oper_next;
  if RC.succ rc then
    e ← get_state;
    c ← st_some (operator_ e);
    tuple ← lift_outcome (oper_current c);
    mret (rc, tuple)
  else mret (rc, None).
End result.
End SqlResult.
