(* ===== verification/PlainCommunicator.v ===== *)
(** * The text protocol ([net/plain_communicator.cpp], [net/cli_communicator.cpp])

    How a request is read and its result written.  The state is that of the request and of
    the writer of the connection; [fuel] bounds the rows of a result and the loops of the
    writer.  [::read] is a parameter of [read_event]. *)
From S2P Require Import Prelude RidKey Comparator TableMeta SqlValue Row Expr Rewrite Operators NetBuffer SqlResult.
From Stdlib Require Import ZArith Lia Ascii String.
From stdpp Require Import base option strings list.
Local Open Scope Z_scope.

(** ** Steps of a part of the state *)
Definition on_fst {S T A} (c : ST S A) : ST (S * T) A :=
  λ '(s, t), match c s with Done (a, s) => Done (a, (s, t)) | Crash => Crash | OutOfFuel => OutOfFuel end.
Definition on_snd {S T A} (c : ST T A) : ST (S * T) A :=
  λ '(s, t), match c t with Done (a, t) => Done (a, (s, t)) | Crash => Crash | OutOfFuel => OutOfFuel end.

(** the bytes of a C string, and [snprintf] into [n] bytes *)
Fixpoint c_prefix (s : memory) : memory :=
  match s with [] => [] | c :: s => if decide (c = 0) then [] else c :: c_prefix s end.
Definition snprintf (n : nat) (s : memory) : memory := take (n - 1) s.
Definition newline : memory := [10].

(** the text of a state, as [write_state] prints it *)
Definition state_text {C} (e : SessionEvent.t C) : memory :=
  match SessionEvent.state_string_ e with
  | [] => text (if RC.succ (SessionEvent.return_code_ e) then "SUCCESS" else "FAILURE")
  | s => strrc (SessionEvent.return_code_ e) ++ text " > " ++ c_prefix s
  end.

Section communicator.
Context `{!LibText} `{!Uninit} (trx_fields : option (list FieldMeta.t)).
Context {W C N : Type} `{!PhysOps W C} `{!TrxEnds W} `{!OsWrite N} (fuel : nat).
Abbreviation M := (ST ((W * SessionEvent.t C) * (N * BufferedWriter.t))).

Definition get_event : M (SessionEvent.t C) := on_fst get_state.
Definition set_event (f : SessionEvent.t C → SessionEvent.t C) : M () := on_fst (set_state f).
Definition writen (d : memory) : M RC.t := on_snd (BufferedWriter.writen fuel d (Z.of_nat (length d))).
Definition flush : M RC.t := on_snd (BufferedWriter.flush fuel).
Definition open : M RC.t := on_fst SqlResult.open.
Definition close : M RC.t := on_fst SqlResult.close.
Definition next_tuple : M (RC.t * option Tuple.t) := on_fst SqlResult.next_tuple.
End communicator.

(** ** [PlainCommunicator] *)
Module PlainCommunicator.
Definition debug_message_prefix : memory := text "# ".
Definition delim : memory := text " | ".
Definition max_packet_size : Z := 70000.

Section plain.
Context `{!LibText} `{!Uninit} (trx_fields : option (list FieldMeta.t)).
Context {W C N : Type} `{!PhysOps W C} `{!TrxEnds W} `{!OsWrite N} (fuel : nat).
(** [send_message_delimiter_] *)
Context (send_message_delimiter : memory).
Abbreviation M := (ST ((W * SessionEvent.t C) * (N * BufferedWriter.t))).
Abbreviation writen := (writen (W := W) (C := C) (N := N) fuel).
Abbreviation flush := (flush (W := W) (C := C) (N := N) fuel).
Abbreviation close := (close : M RC.t).

(** The writing functions return their code and [need_disconnect]. *)
Definition write_state : M (RC.t * bool) :=
  e ← get_event;
  rc ← writen (snprintf 2048 (state_text e ++ newline));
  mret (if RC.succ rc then (RC.SUCCESS, false) else (RC.IOERR_WRITE, true)).

Fixpoint write_debug_infos (infos : list memory) : M (RC.t * bool) :=
  match infos with
  | [] => mret (RC.SUCCESS, false)
  | debug_info :: infos =>
      rc ← writen debug_message_prefix;
      if negb (RC.succ rc) then mret (RC.IOERR_WRITE, true)
      else
        rc ← writen debug_info;
        if negb (RC.succ rc) then mret (RC.IOERR_WRITE, true)
        else
          rc ← writen newline;
          if negb (RC.succ rc) then mret (RC.IOERR_WRITE, true) else write_debug_infos infos
  end.
Definition write_debug (need_disconnect : bool) : M (RC.t * bool) :=
  e ← get_event;
  if Session.sql_debug_ (SessionEvent.session_ e) then write_debug_infos (SessionEvent.debug_infos_ e)
  else mret (RC.SUCCESS, need_disconnect).

(** the header: the branch of a failed separator does not close the result *)
Fixpoint write_header (i : nat) (cells : list TupleCellSpec) : M RC.t :=
  match cells with
  | [] => mret RC.SUCCESS
  | spec :: cells =>
      rc ← (if decide (i ≠ 0%nat) then writen delim else mret RC.SUCCESS);
      if negb (RC.succ rc) then mret rc
      else
        rc ← writen (c_prefix (text (alias_ spec)));
        if negb (RC.succ rc) then close ;;; mret rc else write_header (S i) cells
  end.
(** the cells of a row, from [i] on, [n] of them *)
Fixpoint write_cells (tuple : Tuple.t) (i n : nat) : M RC.t :=
  match n with
  | O => mret RC.SUCCESS
  | S n =>
      rc ← (if decide (i ≠ 0%nat) then writen delim else mret RC.SUCCESS);
      if negb (RC.succ rc) then close ;;; mret rc
      else
        r ← st_some (Tuple.cell_at trx_fields tuple (Z.of_nat i) Val.new);
        let '(rc, value) := r in
        if negb (RC.succ rc) then close ;;; mret rc
        else
          cell_str ← st_some (Val.to_string value);
          rc ← writen cell_str;
          if negb (RC.succ rc) then close ;;; mret rc else write_cells tuple (S i) n
  end.
(** the rows: the code [next_tuple] ends with ([inr]), or the one the function returns ([inl]) *)
Fixpoint write_rows (rows : nat) : M (RC.t + RC.t) :=
  match rows with
  | O => st_nofuel
  | S rows =>
      r ← next_tuple;
      let '(rc, tuple) := r in
      if negb (RC.succ rc) then mret (inr rc)
      else
        tuple ← st_some tuple;
        cell_num ← st_some (Tuple.cell_num tuple);
        rc ← write_cells tuple 0 (Z.to_nat cell_num);
        if negb (RC.succ rc) then mret (inl rc)
        else
          rc ← writen newline;
          if negb (RC.succ rc) then close ;;; mret (inl rc) else write_rows rows
  end.
Definition write_result_internal : M (RC.t * bool) :=
  e ← get_event;
  if negb (RC.succ (SessionEvent.return_code_ e)) || negb (SqlResult.has_operator e) then write_state
  else
    rc ← open;
    if negb (RC.succ rc) then close ;;; set_event (SessionEvent.set_return_code rc) ;;; write_state
    else
      e ← get_event;
      let cells := SessionEvent.tuple_schema_ e in
      rc ← write_header 0 cells;
      if negb (RC.succ rc) then mret (rc, true)
      else
        rc ← (if decide (cells ≠ []) then
                rc ← writen newline;
                if negb (RC.succ rc) then close ;;; mret rc else mret rc
              else mret RC.SUCCESS);
        if negb (RC.succ rc) then mret (rc, true)
        else
          r ← write_rows fuel;
          match r with
          | inl rc => mret (rc, true)
          | inr rc =>
              rc ← (if decide (rc = RC.RECORD_EOF) then mret RC.SUCCESS
                    else on_snd BufferedWriter.clear ;;; mret rc);
              if decide (cells = [] ∨ rc ≠ RC.SUCCESS) then
                rc_close ← close;
                set_event (SessionEvent.set_return_code (if RC.succ rc then rc_close else rc)) ;;;
                write_state
              else
                rc_close ← close;
                mret (rc_close, false)
          end.
(** [write_result]; what [flush] returns is not looked at *)
Definition write_result : M (RC.t * bool) :=
  r ← write_result_internal;
  let '(rc, need_disconnect) := r in
  need_disconnect ← (if negb need_disconnect then r ← write_debug need_disconnect; mret r.2
                     else mret need_disconnect : M bool);
  if negb need_disconnect then
    rc ← writen send_message_delimiter;
    if negb (RC.succ rc) then mret (rc, true) else flush ;;; mret (rc, need_disconnect)
  else flush ;;; mret (rc, need_disconnect).
End plain.

(** ** [read_event]: only [EAGAIN] is tried again *)
Section read.
Context {N : Type} (sys_read : Z → N → read_result * N).

Definition find_nul (bytes : memory) : option nat := fst <$> list_find (λ c, c = 0) bytes.
(** the loop: the bytes received so far, and the last [read_len], negative for an error *)
Fixpoint read_loop (fuel : nat) (buf : memory) (net : N) : outcome (memory * Z * N) :=
  match fuel with
  | O => OutOfFuel
  | S fuel =>
      let '(r, net) := sys_read (max_packet_size - Z.of_nat (length buf)) net in
      match r with
      | ReadError true => read_loop fuel buf net
      | ReadError false => Done (buf, -1, net)
      | ReadBytes bytes =>
          let read_len := Z.of_nat (length bytes) in
          if decide (read_len = 0) then Done (buf, 0, net)
          else if decide (read_len + Z.of_nat (length buf) > max_packet_size) then Done (buf ++ bytes, read_len, net)
          else
            match find_nul bytes with
            | Some i => Done (buf ++ take (S i) bytes, read_len, net)
            | None => read_loop fuel (buf ++ bytes) net
            end
      end
  end.
(** [read_event]: the query of the new request *)
Definition read_event (fuel : nat) (net : N) : outcome (RC.t * option memory * N) :=
  match read_loop fuel [] net with
  | Done (buf, read_len, net) =>
      Done (if decide (Z.of_nat (length buf) > max_packet_size) then (RC.IOERR_TOO_LONG, None, net)
            else if decide (read_len = 0) then (RC.IOERR_CLOSE, None, net)
            else if decide (read_len < 0) then (RC.IOERR_READ, None, net)
            else (RC.SUCCESS, Some (c_prefix buf), net))
  | Crash => Crash
  | OutOfFuel => OutOfFuel
  end.
End read.
End PlainCommunicator.

(** [CliCommunicator::write_result]: the console is never disconnected *)
Definition cli_write_result `{!LibText} `{!Uninit} (trx_fields : option (list FieldMeta.t)) {W C N : Type}
    `{!PhysOps W C} `{!TrxEnds W} `{!OsWrite N} (fuel : nat) : ST ((W * SessionEvent.t C) * (N * BufferedWriter.t)) (RC.t * bool) :=
  r ← PlainCommunicator.write_result trx_fields fuel newline; mret (r.1, false).
