(* ===== verification/PlainCorrect.v ===== *)
(** * The text protocol: what reaches the client

    [select_text] is the answer to a query: a header, a line for each row, the texts for
    debugging and the delimiter.  With an operator that yields its rows and a peer that
    takes the bytes, exactly this is sent. *)
From S2P Require Import Prelude RidKey Comparator TableMeta SqlValue Row Expr Rewrite Operators OperatorsCorrect.
From S2P Require Import NetBuffer SqlResult PlainCommunicator.
From Stdlib Require Import ZArith Lia Ascii String.
From stdpp Require Import base option strings list.
Import BufferedWriterCorrect PlainCommunicator.
Local Open Scope Z_scope.

(** ** The text of a result *)
Definition behind (sep : memory) (l : list memory) : memory := concat (app sep <$> l).
Definition join (sep : memory) (l : list memory) : memory :=
  match l with [] => [] | x :: l => x ++ behind sep l end.
(** the cells from number [i] on *)
Definition cells_from (i : nat) (l : list memory) : memory :=
  match i with O => join delim l | S _ => behind delim l end.
Definition row_line (cells : list memory) : memory := join delim cells ++ newline.
Definition header_line (specs : list TupleCellSpec) : memory :=
  join delim ((λ s, c_prefix (text (alias_ s))) <$> specs) ++ newline.
Definition debug_line (info : memory) : memory := debug_message_prefix ++ info ++ newline.

Section texts.
Context `{!LibText} `{!Uninit} (trx_fields : option (list FieldMeta.t)).
(** the text of a cell; [None] if it cannot be read *)
Definition cell_text (tuple : Tuple.t) (value : Value) (i : nat) : option memory :=
  '(rc, value) ← Tuple.cell_at trx_fields tuple (Z.of_nat i) value;
  if RC.succ rc then Val.to_string value else None.
Definition tuple_texts (tuple : Tuple.t) : option (list memory) :=
  n ← Tuple.cell_num tuple; mapM (cell_text tuple Val.new) (seq 0 (Z.to_nat n)).
Definition select_text (specs : list TupleCellSpec) (rows : list (list memory)) (infos : list memory) (delimiter : memory) : memory :=
  header_line specs ++ concat (row_line <$> rows) ++ concat (debug_line <$> infos) ++ delimiter.
End texts.

Lemma wp_on_fst {S T A} (c : ST S A) (s : S * T) (Q : A → S * T → Prop) :
  wp c s.1 (λ a x, Q a (x, s.2)) → wp (on_fst c) s Q.
Proof. destruct s. intros (a & x & Hc & HQ). exists a, (x, t). split; [|done]. unfold on_fst. simpl in Hc. by rewrite Hc. Qed.
Lemma wp_on_snd {S T A} (c : ST T A) (s : S * T) (Q : A → S * T → Prop) :
  wp c s.2 (λ a x, Q a (s.1, x)) → wp (on_snd c) s Q.
Proof. destruct s. intros (a & x & Hc & HQ). exists a, (s, x). split; [|done]. unfold on_snd. simpl in Hc. by rewrite Hc. Qed.
Lemma wp_done {S A} (c : ST S A) s a s' (Q : A → S → Prop) : c s = Done (a, s') → Q a s' → wp c s Q.
Proof. intros. by exists a, s'. Qed.

Section writing.
Context `{LT : !LibText} `{UN : !Uninit} (trx_fields : option (list FieldMeta.t)).
Context {W C N : Type} {O : PhysOps W C} {TE : TrxEnds W} {OW : OsWrite N} {OL : OsWriteLaws N} (fuel : nat).
Context (fd cap : Z) (Hreliable : ¬ fails (W := N)).
Implicit Types (s : (W * SessionEvent.t C) * (N * BufferedWriter.t)).
Abbreviation M := (ST ((W * SessionEvent.t C) * (N * BufferedWriter.t))).

(** the output so far, and a writer that can go on *)
Definition out s : memory := stream s.2.
Definition alive s : Prop := ready fuel fd cap s.2.

Lemma writen_ok d s (Q : RC.t → _ → Prop) :
  alive s → (length d <= fuel)%nat →
  (∀ s', alive s' → s'.1 = s.1 → out s' = out s ++ d → Q RC.SUCCESS s') →
  wp (writen fuel d) s Q.
Proof.
  intros Ha Hd HQ. unfold writen. apply wp_on_snd. eapply writen_spec; [exact Ha|lia|lia| |by intros].
  intros x Hr Hst. apply HQ; [done|done|]. unfold out. simpl. rewrite Hst. f_equal.
  rewrite Nat2Z.id. by rewrite take_ge.
Qed.
Lemma conn_flush_ok s (Q : RC.t → _ → Prop) :
  alive s → (∀ s', alive s' → s'.1 = s.1 → sent fd s'.2.1 = out s → Q RC.SUCCESS s') → wp (flush fuel) s Q.
Proof.
  intros Ha HQ. unfold flush. apply wp_on_snd. eapply flush_spec; [exact Ha| |by intros].
  intros x Hr Hst Hc. apply HQ; [done|done|]. unfold out. rewrite <-Hst. unfold stream. simpl.
  rewrite Hc, app_nil_r. destruct Hr as (-> & _). done.
Qed.
Lemma get_event_ok s (Q : SessionEvent.t C → _ → Prop) : Q s.1.2 s → wp get_event s Q.
Proof. intros HQ. apply wp_on_fst. destruct s as [[w e] x]. by eapply wp_done. Qed.
(** a [writen], and the test of its code *)
Ltac send := eapply writen_ok; [eassumption|try (simpl; lia)|].
Ltac sent_ok := change (RC.succ RC.SUCCESS) with true; cbn [negb].
Lemma separator_ok i s (Q : RC.t → _ → Prop) :
  alive s → (3 <= fuel)%nat →
  (∀ s', alive s' → s'.1 = s.1 → out s' = out s ++ (if decide (i ≠ 0%nat) then delim else []) → Q RC.SUCCESS s') →
  wp (if decide (i ≠ 0%nat) then writen fuel delim else mret RC.SUCCESS) s Q.
Proof.
  intros Ha Hf HQ. destruct (decide _); [by send|]. apply wp_ret, HQ; [done|done|by rewrite app_nil_r].
Qed.
Lemma cells_from_cons i x l :
  (if decide (i ≠ 0%nat) then delim else []) ++ x ++ cells_from (S i) l = cells_from i (x :: l).
Proof. destruct i; [done|]. cbn [cells_from]. by unfold behind. Qed.
Lemma write_header_ok i specs s (Q : RC.t → _ → Prop) :
  alive s → (3 <= fuel)%nat → Forall (λ spec, length (c_prefix (text (alias_ spec))) <= fuel)%nat specs →
  (∀ s', alive s' → s'.1 = s.1 →
     out s' = out s ++ cells_from i ((λ spec, c_prefix (text (alias_ spec))) <$> specs) → Q RC.SUCCESS s') →
  wp (write_header fuel i specs) s Q.
Proof.
  intros Ha Hf Hall. revert i s Ha. induction Hall as [|spec specs Hlen _ IH]; intros i s Ha HQ; cbn [write_header].
  - apply wp_ret, HQ; [done|done|]. destruct i; simpl; by rewrite app_nil_r.
  - apply wp_bind, separator_ok; [done|done|]. intros s1 Ha1 He1 Ho1. sent_ok.
    apply wp_bind. send. intros s2 Ha2 He2 Ho2. sent_ok. apply IH; [done|].
    intros s3 Ha3 He3 Ho3. apply HQ; [done|congruence|].
    rewrite Ho3, Ho2, Ho1, <-!app_assoc. f_equal. cbn [fmap list_fmap]. by rewrite <-cells_from_cons.
Qed.
Lemma write_cells_ok tuple i n texts s (Q : RC.t → _ → Prop) :
  mapM (cell_text trx_fields tuple Val.new) (seq i n) = Some texts →
  alive s → (3 <= fuel)%nat → Forall (λ t, length t <= fuel)%nat texts →
  (∀ s', alive s' → s'.1 = s.1 → out s' = out s ++ cells_from i texts → Q RC.SUCCESS s') →
  wp (write_cells trx_fields fuel tuple i n) s Q.
Proof.
  intros Ht Ha Hf Hall. revert i texts s Ht Ha Hall. induction n as [|n IH]; intros i texts s Ht Ha Hall HQ; cbn [write_cells].
  - injection Ht as <-. apply wp_ret, HQ; [done|done|]. destruct i; simpl; by rewrite app_nil_r.
  - cbn [seq] in Ht. apply mapM_Some, Forall2_cons_inv_l in Ht as (x & texts' & Hx & Ht%mapM_Some & ->).
    apply Forall_cons in Hall as [Hlen Hall].
    apply wp_bind, separator_ok; [done|done|]. intros s1 Ha1 He1 Ho1. sent_ok.
    unfold cell_text in Hx. destruct (Tuple.cell_at _ _ _ _) as [[rc value]|] eqn:Hcell; [|done]. cbn [mbind option_bind] in Hx.
    destruct (RC.succ rc) eqn:Hrc; [|done].
    apply wp_bind. eapply wp_some; [done|]. cbv iota beta. rewrite Hrc. cbn [negb].
    apply wp_bind. eapply wp_some; [exact Hx|].
    apply wp_bind. send. intros s2 Ha2 He2 Ho2. sent_ok. eapply IH; [exact Ht|done|done|].
    intros s3 Ha3 He3 Ho3. apply HQ; [done|congruence|].
    rewrite Ho3, Ho2, Ho1, <-!app_assoc. f_equal. by rewrite <-cells_from_cons.
Qed.

(** ** The operator of the request *)
Import SessionEvent.
Implicit Types (e : SessionEvent.t C) (c : C) (w : W).
Lemma put_put o o' e : put_operator o (put_operator o' e) = put_operator o e.
Proof. done. Qed.
Lemma on_operator_done {A} (f : ST (W * C) A) w w' e c c' a :
  operator_ e = Some c → f (w, c) = Done (a, (w', c')) →
  SqlResult.on_operator f (w, e) = Done (a, (w', put_operator (Some c') e)).
Proof. intros Hc Hf. unfold SqlResult.on_operator, on_part. by rewrite Hc, Hf. Qed.
Lemma open_ok w w1 rc c c1 e :
  operator_ e = Some c → start_if_need w = Done (rc, w1) → oper_open (w1, c) = Done (RC.SUCCESS, (w1, c1)) →
  SqlResult.open (w, e) = Done (RC.SUCCESS, (w1, put_operator (Some c1) e)).
Proof.
  intros Hc Hs Ho. unfold SqlResult.open, SqlResult.has_operator. rewrite bind_get, Hc.
  rewrite bool_decide_eq_true_2 by done. unfold SqlResult.on_world, mbind, ST_bind. rewrite Hs.
  by apply (on_operator_done _ _ _ _ c).
Qed.
Lemma next_tuple_ok w e c c' tuple :
  operator_ e = Some c → oper_next (w, c) = Done (RC.SUCCESS, (w, c')) → oper_current c' = Done (Some tuple) →
  SqlResult.next_tuple (w, e) = Done ((RC.SUCCESS, Some tuple), (w, put_operator (Some c') e)).
Proof.
  intros Hc Hn Hcur. unfold SqlResult.next_tuple.
  erewrite bind_done by (eapply on_operator_done; eassumption).
  change (RC.succ RC.SUCCESS) with true. cbv iota. rewrite bind_get. cbn [operator_ put_operator].
  unfold mbind, ST_bind, st_some, lift_outcome. by rewrite Hcur.
Qed.
Lemma next_tuple_eof w e c c' rc :
  operator_ e = Some c → oper_next (w, c) = Done (rc, (w, c')) → RC.succ rc = false →
  SqlResult.next_tuple (w, e) = Done ((rc, None), (w, put_operator (Some c') e)).
Proof.
  intros Hc Hn Hrc. unfold SqlResult.next_tuple.
  erewrite bind_done by (eapply on_operator_done; eassumption). by rewrite Hrc.
Qed.
(** closing ends the transaction of a statement of its own *)
Definition ends (e : SessionEvent.t C) w rc w' : Prop :=
  if Session.trx_multi_operation_mode_ (session_ e) then rc = RC.SUCCESS ∧ w' = w else commit w = Done (rc, w').
Lemma close_ok w w' rc e c :
  operator_ e = Some c → closes O w c → ends e w rc w' →
  SqlResult.close (w, e) = Done (rc, (w', put_operator None e)).
Proof.
  intros Hc (c' & Hcl) He. unfold SqlResult.close, SqlResult.has_operator, ends in *. rewrite bind_get, Hc.
  rewrite bool_decide_eq_true_2 by done.
  erewrite bind_done by (eapply on_operator_done; eassumption).
  change (RC.succ RC.SUCCESS) with true. cbv iota. rewrite bind_mret, bind_set.
  destruct (Session.trx_multi_operation_mode_ _); [by destruct He as [-> ->]|].
  unfold SqlResult.on_world. by rewrite He.
Qed.

Lemma write_rows_ok rows c l w e texts s (Q : RC.t + RC.t → _ → Prop) :
  yields O w (closes O w) c l → mapM (tuple_texts trx_fields) l = Some texts → (length l < rows)%nat →
  s.1 = (w, e) → operator_ e = Some c → alive s → (3 <= fuel)%nat → Forall (Forall (λ t, length t <= fuel)%nat) texts →
  (∀ s' c', alive s' → s'.1 = (w, put_operator (Some c') e) → closes O w c' →
     out s' = out s ++ concat (row_line <$> texts) → Q (inr RC.RECORD_EOF) s') →
  wp (write_rows trx_fields fuel rows) s Q.
Proof.
  intros Hy. revert rows e texts s. induction Hy as [c c' Hn Hcl|c c' tuple l Hn Hcur Hcl Hy IH];
    intros [|rows] e texts s Ht Hrows He Hc Ha Hf Hall HQ; try (simpl in Hrows; lia); cbn [write_rows].
  - injection Ht as <-. apply wp_bind, wp_on_fst. rewrite He. eapply wp_done; [by eapply next_tuple_eof|].
    cbv iota beta. change (RC.succ RC.RECORD_EOF) with false. cbn [negb].
    apply wp_ret, (HQ _ c'); [done|done|done|]. unfold out. simpl. by rewrite app_nil_r.
  - apply mapM_Some, Forall2_cons_inv_l in Ht as (x & texts' & Hx & Ht%mapM_Some & ->).
    apply Forall_cons in Hall as [Hlens Hall].
    unfold tuple_texts in Hx. destruct (Tuple.cell_num tuple) as [n|] eqn:Hnum; [|done]. cbn [mbind option_bind] in Hx.
    apply wp_bind, wp_on_fst. rewrite He. eapply wp_done; [by eapply next_tuple_ok|].
    cbv iota beta. sent_ok. apply wp_bind. eapply wp_some; [done|].
    apply wp_bind. eapply wp_some; [exact Hnum|].
    apply wp_bind. eapply write_cells_ok; [exact Hx|done|done|done|]. intros s1 Ha1 He1 Ho1. sent_ok.
    apply wp_bind. send. intros s2 Ha2 He2 Ho2. sent_ok.
    eapply (IH rows _ _ s2); [exact Ht|simpl in Hrows; lia|by rewrite He2, He1|done|done|done|done|].
    intros s3 c3 Ha3 He3 Hcl3 Ho3. eapply HQ; [done|by rewrite He3|done|].
    rewrite Ho3, Ho2, Ho1. cbn [fmap list_fmap concat]. unfold row_line at 2, out. cbn [fst snd]. by rewrite <-!app_assoc.
Qed.
Lemma write_debug_infos_ok infos s (Q : RC.t * bool → _ → Prop) :
  alive s → (3 <= fuel)%nat → Forall (λ t, length t <= fuel)%nat infos →
  (∀ s', alive s' → s'.1 = s.1 → out s' = out s ++ concat (debug_line <$> infos) → Q (RC.SUCCESS, false) s') →
  wp (write_debug_infos fuel infos) s Q.
Proof.
  intros Ha Hf Hall. revert s Ha. induction Hall as [|info infos Hlen _ IH]; intros s Ha HQ; cbn [write_debug_infos].
  - apply wp_ret, HQ; [done|done|]. simpl. by rewrite app_nil_r.
  - apply wp_bind. send. intros s1 Ha1 He1 Ho1. sent_ok. apply wp_bind. send. intros s2 Ha2 He2 Ho2. sent_ok.
    apply wp_bind. send. intros s3 Ha3 He3 Ho3. sent_ok. apply IH; [done|]. intros s4 Ha4 He4 Ho4.
    apply HQ; [done|congruence|]. rewrite Ho4, Ho3, Ho2, Ho1. cbn [fmap list_fmap concat]. unfold debug_line at 2.
    by rewrite <-!app_assoc.
Qed.

(** ** Answers

    [answers w e text w' e']: what a request in the state [e] is answered, and the world and
    the request after it. *)
Definition fits (texts : list memory) : Prop := Forall (λ t, length t <= fuel)%nat texts.
Inductive answers w e : memory → W → SessionEvent.t C → Prop :=
| answers_state :
    RC.succ (return_code_ e) = false ∨ operator_ e = None →
    answers w e (snprintf 2048 (state_text e ++ newline)) w e
| answers_open_fails c c1 rc0 w1 rc e2 w2 rc2 :
    return_code_ e = RC.SUCCESS → operator_ e = Some c → start_if_need w = Done (rc0, w1) →
    oper_open (w1, c) = Done (rc, (w1, c1)) → RC.succ rc = false →
    SqlResult.close (w1, put_operator (Some c1) e) = Done (rc2, (w2, e2)) →
    answers w e (snprintf 2048 (state_text (set_return_code rc e2) ++ newline)) w2 (set_return_code rc e2)
| answers_done c c1 rc0 w1 rc w2 :
    return_code_ e = RC.SUCCESS → operator_ e = Some c → tuple_schema_ e = [] →
    start_if_need w = Done (rc0, w1) → oper_open (w1, c) = Done (RC.SUCCESS, (w1, c1)) →
    yields O w1 (closes O w1) c1 [] → ends e w1 rc w2 →
    answers w e (snprintf 2048 (state_text (set_return_code rc e) ++ newline)) w2 (set_return_code rc (put_operator None e))
| answers_rows c c1 rc0 w1 rc w2 l texts :
    return_code_ e = RC.SUCCESS → operator_ e = Some c → tuple_schema_ e ≠ [] →
    start_if_need w = Done (rc0, w1) → oper_open (w1, c) = Done (RC.SUCCESS, (w1, c1)) →
    yields O w1 (closes O w1) c1 l → mapM (tuple_texts trx_fields) l = Some texts → ends e w1 rc w2 →
    (length l < fuel)%nat → Forall fits texts → fits ((λ spec, c_prefix (text (alias_ spec))) <$> tuple_schema_ e) →
    answers w e (header_line (tuple_schema_ e) ++ concat (row_line <$> texts)) w2 (put_operator None e).

Lemma write_state_ok s (Q : RC.t * bool → _ → Prop) :
  alive s → (2047 <= fuel)%nat →
  (∀ s', alive s' → s'.1 = s.1 → out s' = out s ++ snprintf 2048 (state_text s.1.2 ++ newline) → Q (RC.SUCCESS, false) s') →
  wp (write_state fuel) s Q.
Proof.
  intros Ha Hf HQ. unfold write_state. apply wp_bind, get_event_ok. apply wp_bind. send.
  { unfold snprintf. rewrite length_take. lia. }
  intros s1 Ha1 He1 Ho1. sent_ok. by apply wp_ret, HQ.
Qed.
Lemma on_event_ok {A} (f : ST (W * SessionEvent.t C) A) s a x (Q : A → _ → Prop) :
  f s.1 = Done (a, x) → alive s → (∀ s', alive s' → s'.1 = x → out s' = out s → Q a s') → wp (on_fst f) s Q.
Proof. intros Hf Ha HQ. apply wp_on_fst. eapply wp_done; [exact Hf|]. by apply HQ. Qed.
Lemma write_result_internal_ok w e answer w' e' s (Q : RC.t * bool → _ → Prop) :
  answers w e answer w' e' → s.1 = (w, e) → alive s → (2047 <= fuel)%nat →
  (∀ rc s', alive s' → s'.1 = (w', e') → out s' = out s ++ answer → Q (rc, false) s') →
  wp (write_result_internal trx_fields fuel) s Q.
Proof.
  intros Hans Hs Ha Hf HQ. unfold write_result_internal. apply wp_bind, get_event_ok. rewrite Hs. cbn [fst snd].
  assert (Hop : ∀ c, operator_ e = Some c → return_code_ e = RC.SUCCESS →
    negb (RC.succ (return_code_ e)) || negb (SqlResult.has_operator e) = false).
  { intros c Hc ->. unfold SqlResult.has_operator. by rewrite Hc, bool_decide_eq_true_2. }
  destruct Hans as [Hst|c c1 rc0 w1 rc e2 w2 rc2 Hrc Hc Hstart Hopen Hfail Hclose
    |c c1 rc0 w1 rc w2 Hrc Hc Hschema Hstart Hopen Hy Hends
    |c c1 rc0 w1 rc w2 l texts Hrc Hc Hschema Hstart Hopen Hy Htexts Hends Hl Hfits Hfitsh].
  - assert (negb (RC.succ (return_code_ e)) || negb (SqlResult.has_operator e) = true) as ->.
    { destruct Hst as [->|Hn]; [done|]. unfold SqlResult.has_operator. rewrite Hn. by rewrite orb_true_r. }
    apply write_state_ok; [done|done|]. rewrite Hs. intros s1 Ha1 He1 Ho1. by apply HQ.
  - rewrite (Hop c Hc Hrc). apply wp_bind. eapply on_event_ok; [rewrite Hs|done|].
    { unfold SqlResult.open, SqlResult.has_operator. rewrite bind_get, Hc, bool_decide_eq_true_2 by done.
      unfold SqlResult.on_world, mbind, ST_bind. rewrite Hstart. by eapply on_operator_done. }
    intros s1 Ha1 He1 Ho1. rewrite Hfail. cbn [negb].
    apply wp_bind. eapply on_event_ok; [rewrite He1; exact Hclose|done|]. intros s2 Ha2 He2 Ho2.
    apply wp_bind. eapply on_event_ok; [rewrite He2; done|done|]. intros s3 Ha3 He3 Ho3.
    apply write_state_ok; [done|done|]. rewrite He3. intros s4 Ha4 He4 Ho4. apply HQ; [done|done|].
    by rewrite Ho4, Ho3, Ho2, Ho1.
  - rewrite (Hop c Hc Hrc). apply wp_bind. eapply on_event_ok; [rewrite Hs; by eapply open_ok|done|].
    intros s1 Ha1 He1 Ho1. sent_ok. apply wp_bind, get_event_ok. rewrite He1. cbn [snd tuple_schema_ put_operator].
    rewrite Hschema. cbn [write_header]. apply wp_bind, wp_ret. sent_ok. rewrite decide_False by (intros []; done).
    apply wp_bind, wp_ret. sent_ok. apply wp_bind.
    eapply write_rows_ok; [exact Hy|done|simpl; lia|exact He1|done|done|lia|constructor|].
    intros s2 c2 Ha2 He2 Hcl2 Ho2. cbv iota beta. rewrite decide_True by done. apply wp_bind, wp_ret.
    rewrite decide_True by (by left). apply wp_bind.
    eapply on_event_ok; [rewrite He2; by eapply close_ok|done|]. intros s3 Ha3 He3 Ho3. sent_ok.
    apply wp_bind. eapply on_event_ok; [rewrite He3; done|done|]. intros s4 Ha4 He4 Ho4.
    apply write_state_ok; [done|done|]. rewrite He4. intros s5 Ha5 He5 Ho5. apply HQ; [done|done|].
    rewrite Ho5, Ho4, Ho3, Ho2. simpl. by rewrite app_nil_r, Ho1.
  - rewrite (Hop c Hc Hrc). apply wp_bind. eapply on_event_ok; [rewrite Hs; by eapply open_ok|done|].
    intros s1 Ha1 He1 Ho1. sent_ok. apply wp_bind, get_event_ok. rewrite He1. cbn [snd tuple_schema_ put_operator].
    apply wp_bind, write_header_ok; [done|lia|by apply Forall_fmap in Hfitsh|]. intros s2 Ha2 He2 Ho2. sent_ok.
    rewrite decide_True by done. apply wp_bind, wp_bind. send. intros s3 Ha3 He3 Ho3. sent_ok. apply wp_ret. sent_ok.
    apply wp_bind. eapply write_rows_ok; [exact Hy|exact Htexts|lia|by rewrite He3, He2|done|done|lia|done|].
    intros s4 c4 Ha4 He4 Hcl4 Ho4. cbv iota beta. rewrite decide_True by done. apply wp_bind, wp_ret.
    rewrite decide_False by (intros [|]; done). apply wp_bind.
    eapply on_event_ok; [rewrite He4; by eapply close_ok|done|]. intros s5 Ha5 He5 Ho5.
    apply wp_ret, HQ; [done|done|]. rewrite Ho5, Ho4, Ho3, Ho2, Ho1. unfold header_line. by rewrite <-!app_assoc.
Qed.
(** The whole answer is sent, with the texts for debugging and the delimiter behind it. *)
Lemma write_result_ok delimiter w e answer w' e' s (Q : RC.t * bool → _ → Prop) :
  answers w e answer w' e' → s.1 = (w, e) → alive s → (2047 <= fuel)%nat → fits (debug_infos_ e') →
  (length delimiter <= fuel)%nat →
  (∀ s', alive s' → s'.1 = (w', e') →
     sent fd s'.2.1 = out s ++ answer ++
       concat (debug_line <$> (if Session.sql_debug_ (session_ e') then debug_infos_ e' else [])) ++ delimiter →
     Q (RC.SUCCESS, false) s') →
  wp (write_result trx_fields fuel delimiter) s Q.
Proof.
  intros Hans Hs Ha Hf Hinfos Hdel HQ. unfold write_result. apply wp_bind.
  eapply write_result_internal_ok; [exact Hans|done|done|done|]. intros rc s1 Ha1 He1 Ho1. cbv iota beta. cbn [negb].
  apply wp_bind, wp_bind. unfold write_debug. apply wp_bind, get_event_ok. rewrite He1. cbn [snd].
  match goal with |- wp _ s1 ?P => assert (Hgo : ∀ s2, alive s2 → s2.1 = s1.1 →
    out s2 = out s1 ++ concat (debug_line <$> (if Session.sql_debug_ (session_ e') then debug_infos_ e' else [])) →
    P (RC.SUCCESS, false) s2) end.
  { intros s2 Ha2 He2 Ho2. apply wp_ret. cbn [snd negb]. apply wp_bind. send. intros s3 Ha3 He3 Ho3. sent_ok.
    apply wp_bind, conn_flush_ok; [done|]. intros s4 Ha4 He4 Ho4. apply wp_ret, HQ; [done|congruence|].
    by rewrite Ho4, Ho3, Ho2, Ho1, <-!app_assoc. }
  destruct (Session.sql_debug_ (session_ e')).
  - apply write_debug_infos_ok; [done|lia|done|]. exact Hgo.
  - apply wp_ret, Hgo; [done|done|]. simpl. by rewrite app_nil_r.
Qed.
End writing.

(** ** Reading a request *)
Section reading.
Context {N : Type} (sys_read : Z → N → read_result * N) `{!OsReadLaws sys_read}.

Lemma c_prefix_app s t : 0 ∉ s → c_prefix (s ++ 0 :: t) = s.
Proof.
  induction s as [|x s IH]; intros Hs; [done|]. apply not_elem_of_cons in Hs as [Hx Hs].
  cbn [c_prefix app]. rewrite decide_False by done. by rewrite IH.
Qed.
Lemma find_nul_none d : find_nul d = None ↔ 0 ∉ d.
Proof.
  unfold find_nul. rewrite fmap_None, list_find_None, Forall_forall. split; [by intros H ?%H|]. intros H x Hx ->. done.
Qed.
Lemma find_nul_some d i : find_nul d = Some i → ∃ t, d = take i d ++ 0 :: t ∧ (0 ∉ take i d) ∧ take (S i) d = take i d ++ [0].
Proof.
  unfold find_nul. intros ([j x] & (Hx & -> & Hbefore)%list_find_Some & Hj)%fmap_Some. simpl in Hj. subst j.
  exists (drop (S i) d). assert (take (S i) d = take i d ++ [0]) as Ht by (by apply take_S_r). split_and!; [| |done].
  - rewrite <-(take_drop (S i) d) at 1. by rewrite Ht, <-app_assoc.
  - intros Hin. apply list_elem_of_lookup in Hin as [k Hk]. apply lookup_take_Some in Hk as [Hk ?].
    by eapply Hbefore.
Qed.

Lemma split_nul x t msg rest :
  x ++ 0 :: t = msg ++ 0 :: rest → 0 ∉ x → 0 ∉ msg → x = msg ∧ t = rest.
Proof.
  revert msg. induction x as [|a x IH]; intros [|b msg] Heq Hx Hmsg; simpl in Heq.
  - by injection Heq as ->.
  - injection Heq as <- _. apply not_elem_of_cons in Hmsg as [? _]. done.
  - injection Heq as -> _. apply not_elem_of_cons in Hx as [? _]. done.
  - injection Heq as -> Heq. apply not_elem_of_cons in Hx as [_ Hx], Hmsg as [_ Hmsg].
    destruct (IH _ Heq Hx Hmsg) as [-> ->]. done.
Qed.
Lemma before_nul buf l msg rest :
  buf ++ l = msg ++ 0 :: rest → 0 ∉ msg → (length buf <= length msg)%nat → 0 ∉ buf.
Proof.
  intros Heq Hmsg Hl Hb. apply Hmsg. assert (buf = take (length buf) msg) as E.
  { rewrite <-(take_app_le msg (0 :: rest)) by done. by rewrite <-Heq, take_app_length. }
  rewrite E in Hb. apply list_elem_of_lookup in Hb as [k Hk]. apply lookup_take_Some in Hk as [Hk _].
  apply list_elem_of_lookup. by exists k.
Qed.
Lemma no_nul_short buf d l msg rest :
  (buf ++ d) ++ l = msg ++ 0 :: rest → 0 ∉ d → (length buf <= length msg)%nat → (length (buf ++ d) <= length msg)%nat.
Proof.
  intros Heq Hd Hl. destruct (decide (length (buf ++ d) <= length msg)%nat) as [|Hlt]; [done|]. exfalso.
  assert ((msg ++ 0 :: rest) !! length msg = Some 0) as H0 by (by apply list_lookup_middle).
  rewrite <-Heq, lookup_app_l, lookup_app_r in H0 by (rewrite length_app in *; lia).
  apply Hd, list_elem_of_lookup. by eexists.
Qed.
Definition budget (buf : memory) (net : N) : nat :=
  (S (Z.to_nat max_packet_size) - length buf) * S max_read_wait + read_wait net.
Lemma budget_read buf d net net' : d ≠ [] → (length (buf ++ d) <= Z.to_nat max_packet_size)%nat →
  (budget (buf ++ d) net' < budget buf net)%nat.
Proof.
  intros Hd Hl. unfold budget. pose proof (read_wait_bound net'). rewrite length_app in *.
  assert (0 < length d)%nat by (destruct d; [done|simpl; lia]).
  remember (Z.to_nat max_packet_size) as mx. clear Heqmx.
  assert (S mx - length buf = (S mx - (length buf + length d)) + length d)%nat as -> by lia. nia.
Qed.
Lemma read_loop_ok fuel buf msg rest net :
  buf ++ incoming net = msg ++ 0 :: rest → 0 ∉ msg → (length buf <= length msg)%nat →
  Z.of_nat (length msg) < max_packet_size → (budget buf net < fuel)%nat →
  ∃ n net', read_loop sys_read fuel buf net = Done (msg ++ [0], n, net') ∧ 0 < n ∧ (incoming net' `suffix_of` rest).
Proof.
  revert buf net. induction fuel as [|fuel IH]; intros buf net Hin Hmsg Hbuf Hmax Hf; [lia|]. cbn [read_loop].
  destruct (sys_read _ net) as [r net'] eqn:Er.
  assert (Hne : incoming net ≠ []).
  { intros Hnil. rewrite Hnil, app_nil_r in Hin. subst buf. rewrite length_app in Hbuf. simpl in Hbuf. lia. }
  pose proof (read_some _ _ _ _ Er ltac:(lia) Hne) as Hr. destruct r as [d|eagain].
  - destruct Hr as (Hd & Hlen & Hdne). assert (0 < length d)%nat by (destruct d; [done|simpl; lia]).
    rewrite decide_False, decide_False by lia. rewrite Hd, app_assoc in Hin.
    destruct (find_nul d) as [i|] eqn:Ei.
    + apply find_nul_some in Ei as (t & Hdt & Hnot & HS). rewrite HS, app_assoc.
      assert (Hin' : (buf ++ take i d) ++ 0 :: (t ++ incoming net') = msg ++ 0 :: rest).
      { rewrite <-Hin, <-!app_assoc. f_equal. rewrite Hdt at 2. by rewrite <-app_assoc. }
      assert (buf ++ take i d = msg ∧ t ++ incoming net' = rest) as [-> <-].
      { apply split_nul; [exact Hin'| |done]. apply not_elem_of_app. split; [|done].
        eapply (before_nul buf (d ++ incoming net')); [by rewrite app_assoc|done|done]. }
      eexists _, net'. split; [done|]. split; [lia|]. by exists t.
    + apply find_nul_none in Ei.
      assert (length (buf ++ d) <= length msg)%nat by (eapply no_nul_short; eauto).
      apply IH; [done|done|done|done|]. pose proof (budget_read buf d net net' Hdne ltac:(lia)). lia.
  - destruct Hr as (-> & Hi & Hw). apply IH; [by rewrite Hi|done|done|done|]. unfold budget in *. lia.
Qed.
(** A request up to its NUL is read, however the bytes arrive; what came with it behind the
    NUL is dropped. *)
Lemma read_event_ok fuel msg rest net :
  incoming net = msg ++ 0 :: rest → 0 ∉ msg → Z.of_nat (length msg) < max_packet_size → (budget [] net < fuel)%nat →
  ∃ net', read_event sys_read fuel net = Done (RC.SUCCESS, Some msg, net') ∧ (incoming net' `suffix_of` rest).
Proof.
  intros Hin Hmsg Hmax Hf.
  destruct (read_loop_ok fuel [] msg rest net) as (n & net' & Hr & Hn & Hsuf); [done|done|simpl; lia|done|done|].
  exists net'. split; [|done]. unfold read_event. rewrite Hr.
  rewrite decide_False, decide_False, decide_False by (rewrite ?length_app; simpl; lia).
  by rewrite c_prefix_app.
Qed.
(** A request that fills the buffer without a NUL looks like a closed connection. *)
Lemma read_loop_full fuel buf L net :
  buf ++ incoming net = L → 0 ∉ take (Z.to_nat max_packet_size) L → max_packet_size <= Z.of_nat (length L) →
  Z.of_nat (length buf) <= max_packet_size → (budget buf net < fuel)%nat →
  ∃ net', read_loop sys_read fuel buf net = Done (take (Z.to_nat max_packet_size) L, 0, net').
Proof.
  revert buf net. induction fuel as [|fuel IH]; intros buf net Hin Hnul HL Hbuf Hf; [lia|]. cbn [read_loop].
  assert (Hpre : ∀ k, (k <= Z.to_nat max_packet_size)%nat → 0 ∉ take k L).
  { intros k Hk Hi. apply Hnul. apply list_elem_of_lookup in Hi as [j Hj].
    apply lookup_take_Some in Hj as [Hj ?]. apply list_elem_of_lookup. exists j. rewrite lookup_take_Some. split; [done|lia]. }
  destruct (decide (Z.of_nat (length buf) = max_packet_size)) as [Heq|Hlt].
  - rewrite Heq, Z.sub_diag. destruct (read_nothing net) as [net' ->]. cbn [length]. rewrite decide_True by done.
    exists net'. do 3 f_equal. rewrite <-Hin. symmetry. rewrite take_app_le by lia. apply take_ge. lia.
  - destruct (sys_read _ net) as [r net'] eqn:Er.
    assert (Hne : incoming net ≠ []).
    { intros Hnil. rewrite Hnil, app_nil_r in Hin. subst buf. lia. }
    pose proof (read_some _ _ _ _ Er ltac:(lia) Hne) as Hr. destruct r as [d|eagain].
    + destruct Hr as (Hd & Hlen & Hdne). assert (0 < length d)%nat by (destruct d; [done|simpl; lia]).
      rewrite decide_False, decide_False by lia. rewrite Hd, app_assoc in Hin.
      destruct (find_nul d) as [i|] eqn:Ei.
      * exfalso. assert (0 ∈ d) as Hd0.
        { apply find_nul_some in Ei as (t & -> & _). apply elem_of_app. right. left. }
        apply (Hpre (length (buf ++ d))); [rewrite length_app; lia|].
        rewrite <-Hin, take_app_length. apply elem_of_app. by right.
      * assert (Z.of_nat (length (buf ++ d)) <= max_packet_size) as Hl by (rewrite length_app; lia).
        apply IH; [done|done|done|done|]. pose proof (budget_read buf d net net' Hdne ltac:(lia)). lia.
    + destruct Hr as (-> & Hi & Hw). apply IH; [by rewrite Hi|done|done|done|]. unfold budget in *. lia.
Qed.
Lemma read_event_too_long fuel net :
  0 ∉ take (Z.to_nat max_packet_size) (incoming net) → max_packet_size <= Z.of_nat (length (incoming net)) →
  (budget [] net < fuel)%nat → ∃ net', read_event sys_read fuel net = Done (RC.IOERR_CLOSE, None, net').
Proof.
  intros Hnul HL Hf. destruct (read_loop_full fuel [] (incoming net) net) as [net' Hr]; [done|done|done|unfold max_packet_size; simpl; lia|done|].
  exists net'. unfold read_event. rewrite Hr. rewrite decide_False by (rewrite length_take; unfold max_packet_size in *; lia).
  by rewrite decide_True.
Qed.
End reading.
