(* ===== verification/MysqlCommunicator.v ===== *)
(** * Packets of the MySQL protocol ([net/mysql_communicator.cpp])

    The functions that store numbers and strings, the packets of the server and how each is
    encoded.  A packet is written to a buffer of a fixed size: the state of the encoder are
    the bytes before the position, and storing beyond the size is undefined.  The first
    three bytes are the length, filled in at the end. *)
From S2P Require Import Prelude RidKey Comparator TableMeta SqlValue Row Expr Rewrite Operators NetBuffer SqlResult.
From S2P Require Import PlainCommunicator.
From Stdlib Require Import ZArith Lia Ascii String.
From stdpp Require Import base option strings list numbers.
Local Open Scope Z_scope.

(** ** Capabilities *)
Definition CLIENT_PROTOCOL_41 : Z := 512.
Definition CLIENT_TRANSACTIONS : Z := 65535.
Definition CLIENT_SESSION_TRACK : Z := Z.shiftl 1 23.
Definition CLIENT_DEPRECATE_EOF : Z := Z.shiftl 1 24.
Definition CLIENT_OPTIONAL_RESULTSET_METADATA : Z := Z.shiftl 1 25.
Definition has_flag (capabilities flag : Z) : bool := bool_decide (Z.land capabilities flag ≠ 0).

(** ** Storing *)
(** the [n] low bytes of a number, little endian *)
Fixpoint le_bytes (n : nat) (value : Z) : memory :=
  match n with O => [] | S n => Z.land value 255 :: le_bytes n (Z.shiftr value 8) end.
(** [store_lenenc_int]: the limits are [2UL << 16] and [2UL << 24] *)
Definition lenenc_int (value : Z) : memory :=
  if decide (value < 251) then [value]
  else if decide (value < Z.shiftl 2 16) then 252 :: le_bytes 2 value
  else if decide (value < Z.shiftl 2 24) then 253 :: le_bytes 3 value
  else 254 :: le_bytes 8 value.
(** [uint64_t] of an [int] *)
Definition uint64 (x : Z) : Z := x mod 2 ^ 64.

Section encoder.
(** the size of the buffer *)
Context (capacity : Z).
Abbreviation E := (ST memory).
Definition store (bytes : memory) : E () :=
  λ buf, if decide (Z.of_nat (length buf + length bytes) <= capacity) then Done ((), buf ++ bytes) else Crash.
Definition store_int1 (value : Z) : E () := store (le_bytes 1 value).
Definition store_int2 (value : Z) : E () := store (le_bytes 2 value).
Definition store_int4 (value : Z) : E () := store (le_bytes 4 value).
Definition store_lenenc_int (value : Z) : E () := store (lenenc_int value).
Definition store_null_terminated_string (s : memory) : E () :=
  match c_prefix s with [] => mret () | s => store (s ++ [0]) end.
Definition store_fix_length_string (s : memory) (len : nat) : E () :=
  if decide (len = 0%nat) then mret () else bytes ← st_some (load_bytes 0 len s); store bytes.
Definition store_lenenc_string (s : memory) : E () :=
  let s := c_prefix s in store_lenenc_int (Z.of_nat (length s)) ;;; store s.
(** a packet: header, body, and the length of the payload *)
Definition packet (sequence_id : Z) (body : E ()) : outcome memory :=
  match (store [0; 0; 0] ;;; store_int1 sequence_id ;;; body) [] with
  | Done (_, buf) => Done (le_bytes 3 (Z.of_nat (length buf) - 4) ++ drop 3 buf)
  | Crash => Crash
  | OutOfFuel => OutOfFuel
  end.
End encoder.

(** ** The packets *)
Module HandshakeV10.
Definition protocol : Z := 10.
Definition server_version : memory := text "5.7.25".
Definition thread_id : Z := 21501807.
Definition auth_plugin_data_part_1 : memory := text "12345678".
Definition capability_flags_1 : Z := 63455.
Definition character_set : Z := 83.
Definition auth_plugin_data_part_2 : memory := text "bbbbbbbbbbbb".
Definition encode (sequence_id : Z) : outcome memory :=
  packet 100 sequence_id (
    store_int1 100 protocol ;;;
    store_null_terminated_string 100 server_version ;;;
    store_int4 100 thread_id ;;;
    store_null_terminated_string 100 auth_plugin_data_part_1 ;;;
    store_int2 100 capability_flags_1 ;;;
    store_int1 100 character_set ;;;
    store_int2 100 0 ;;;
    store_int2 100 0 ;;;
    store_int1 100 0 ;;;
    store_fix_length_string 100 (replicate 10 0) 10 ;;;
    store_null_terminated_string 100 auth_plugin_data_part_2).
End HandshakeV10.

Module OkPacket.
Record t : Set := mk {
  sequence_id : Z; header : Z; affected_rows : Z; last_insert_id : Z; status_flags : Z; warnings : Z; info : memory
}.
Definition make (sequence : Z) : t := mk sequence 0 0 0 34 0 [].
Definition encode (capabilities : Z) (p : t) : outcome memory :=
  packet 100 (sequence_id p) (
    store_int1 100 (header p) ;;;
    store_lenenc_int 100 (uint64 (affected_rows p)) ;;;
    store_lenenc_int 100 (uint64 (last_insert_id p)) ;;;
    (if has_flag capabilities CLIENT_PROTOCOL_41 then store_int2 100 (status_flags p) ;;; store_int2 100 (warnings p)
     else if has_flag capabilities CLIENT_TRANSACTIONS then store_int2 100 (status_flags p) else mret ()) ;;;
    if has_flag capabilities CLIENT_SESSION_TRACK then store_lenenc_string 100 (Val.c_str (info p))
    else store_fix_length_string 100 (info p) (length (info p))).
End OkPacket.

Module EofPacket.
Record t : Set := mk { sequence_id : Z; header : Z; warnings : Z; status_flags : Z }.
Definition make (sequence : Z) : t := mk sequence 254 0 34.
Definition encode (capabilities : Z) (p : t) : outcome memory :=
  packet 10 (sequence_id p) (
    store_int1 10 (header p) ;;;
    if has_flag capabilities CLIENT_PROTOCOL_41 then store_int2 10 (warnings p) ;;; store_int2 10 (status_flags p)
    else mret ()).
End EofPacket.

Module ErrPacket.
Record t : Set := mk { sequence_id : Z; header : Z; error_code : Z; sql_state : memory; error_message : memory }.
Definition make (sequence : Z) : t := mk sequence 255 0 (text "HY000") [].
Definition encode (capabilities : Z) (p : t) : outcome memory :=
  packet 1000 (sequence_id p) (
    store_int1 1000 (header p) ;;;
    store_int2 1000 (error_code p) ;;;
    (if has_flag capabilities CLIENT_PROTOCOL_41
     then store_fix_length_string 1000 (text "#") 1 ;;; store_fix_length_string 1000 (sql_state p) 5 else mret ()) ;;;
    store_fix_length_string 1000 (error_message p) (length (error_message p))).
End ErrPacket.

(** [decode_query_packet]: the payload of a command, without its first byte, as a statement *)
Definition decode_query_packet (net_packet : memory) : memory := drop 1 net_packet ++ [59].

(** * The MySQL protocol ([net/mysql_communicator.cpp])

    [MysqlCommunicator]: the handshake, reading commands, and writing a result: a state as an
    OK or ERR packet, rows as a result set.  The state is that of the request and of the
    writer, with the fields of the communicator.  [string_list] is the operator over a list
    of texts, [::read] a parameter. *)
(** [static_cast<int>] of a return code *)
Definition rc_number (rc : RC.t) : Z :=
  match rc with
  | RC.SUCCESS => 0 | RC.INVALID_ARGUMENT => 1 | RC.UNIMPLENMENT => 2 | RC.SQL_SYNTAX => 3
  | RC.INTERNAL => 4 | RC.NOMEM => 5 | RC.NOTFOUND => 6 | RC.EMPTY => 7 | RC.BUFFERPOOL_OPEN => 8
  | RC.BUFFERPOOL_NOBUF => 9 | RC.BUFFERPOOL_INVALID_PAGE_NUM => 10 | RC.RECORD_OPENNED => 11
  | RC.RECORD_INVALID_RID => 12 | RC.RECORD_INVALID_KEY => 13 | RC.RECORD_DUPLICATE_KEY => 14
  | RC.RECORD_NOMEM => 15 | RC.RECORD_EOF => 16 | RC.RECORD_NOT_EXIST => 17
  | RC.RECORD_INVISIBLE => 18 | RC.SCHEMA_DB_EXIST => 19 | RC.SCHEMA_DB_NOT_EXIST => 20
  | RC.TUPLE_NOT_EXIST => 21 | RC.SCHEMA_DB_NOT_OPENED => 22 | RC.SCHEMA_TABLE_NOT_EXIST => 23
  | RC.SCHEMA_TABLE_EXIST => 24 | RC.SCHEMA_FIELD_NOT_EXIST => 25 | RC.SCHEMA_FIELD_MISSING => 26
  | RC.SCHEMA_FIELD_TYPE_MISMATCH => 27 | RC.SCHEMA_INDEX_NAME_REPEAT => 28 | RC.IOERR_READ => 29
  | RC.IOERR_WRITE => 30 | RC.IOERR_ACCESS => 31 | RC.IOERR_OPEN => 32 | RC.IOERR_CLOSE => 33
  | RC.IOERR_SEEK => 34 | RC.IOERR_TOO_LONG => 35 | RC.IOERR_SYNC => 36 | RC.LOCKED_UNLOCK => 37
  | RC.LOCKED_NEED_WAIT => 38 | RC.LOCKED_CONCURRENCY_CONFLICT => 39 | RC.FILE_EXIST => 40
  | RC.FILE_NOT_EXIST => 41 | RC.FILE_NAME => 42 | RC.FILE_BOUND => 43 | RC.FILE_CREATE => 44
  | RC.FILE_OPEN => 45 | RC.FILE_NOT_OPENED => 46 | RC.FILE_CLOSE => 47 | RC.FILE_REMOVE => 48
  | RC.FILE_SEEK => 49 | RC.FILE_READ => 50 | RC.FILE_WRITE => 51 | RC.VARIABLE_NOT_EXISTS => 52
  | RC.VARIABLE_NOT_VALID => 53 | RC.LOGBUF_FULL => 54 | RC.FAILURE => 55
  | RC.FAIL_TO_DELETE_FILE => 56 | RC.SCHEMA_FIELD_NOT_NULLABLE => 57 | RC.NEED_TUPLE => 58
  end.
Definition int8 (x : Z) : Z := (x + 128) mod 256 - 128.
(** [std::string::find] succeeds *)
Fixpoint contains_text (pattern s : memory) : bool :=
  bool_decide (take (length pattern) s = pattern) || match s with [] => false | _ :: s => contains_text pattern s end.

Module MysqlCommunicator.
Record t : Set := mk { authed_ : bool; client_capabilities_flag_ : Z; sequence_id_ : Z }.
Definition make : t := mk false 0 0.
Definition set_authed (c : t) : t := mk true (client_capabilities_flag_ c) (sequence_id_ c).
Definition set_flag (flag : Z) (c : t) : t := mk (authed_ c) flag (sequence_id_ c).
Definition set_sequence (n : Z) (c : t) : t := mk (authed_ c) (client_capabilities_flag_ c) n.

Section mysql.
Context `{!LibText} `{!Uninit} (trx_fields : option (list FieldMeta.t)).
Context {W C N : Type} `{!PhysOps W C} `{!TrxEnds W} `{!OsWrite N} (fuel : nat).
Abbreviation S0 := ((W * SessionEvent.t C) * (N * BufferedWriter.t))%type.
Abbreviation M := (ST (S0 * t)).

Definition get_comm : M t := on_snd st_get.
Definition set_comm (f : t → t) : M () := on_snd (st_modify f).
Definition get_request : M (SessionEvent.t C) := on_fst get_event.
Definition set_request (f : SessionEvent.t C → SessionEvent.t C) : M () := on_fst (set_event f).
Definition send (d : memory) : M RC.t := on_fst (writen fuel d).
Definition flush_writer : M RC.t := on_fst (flush fuel).
(** [sequence_id_++] *)
Definition next_sequence : M Z :=
  c ← get_comm; set_comm (set_sequence (int8 (sequence_id_ c + 1))) ;;; mret (sequence_id_ c).

(** the packet is encoded for the capabilities of the client *)
Definition send_packet (encode : Z → outcome memory) : M RC.t :=
  c ← get_comm; net_packet ← lift_outcome (encode (client_capabilities_flag_ c)); send net_packet.

Definition init : M RC.t :=
  rc ← send_packet (λ _, HandshakeV10.encode 0);
  if negb (RC.succ rc) then mret rc else flush_writer ;;; mret rc.

(** The writing functions return their code and [need_disconnect]. *)
Definition write_state : M (RC.t * bool) :=
  e ← get_request;
  let buf := snprintf 2048 (state_text e) in
  sequence_id ← next_sequence;
  rc ← (if RC.succ (SessionEvent.return_code_ e) then
          send_packet (λ caps, OkPacket.encode caps (OkPacket.mk sequence_id 0 0 0 34 0 buf))
        else
          send_packet (λ caps, ErrPacket.encode caps
            (ErrPacket.mk sequence_id 255 (rc_number (SessionEvent.return_code_ e)) (text "HY000") buf)));
  flush_writer ;;;
  mret (rc, negb (RC.succ rc)).

(** one column definition *)
Definition column_definition (sequence_id : Z) (spec : TupleCellSpec) : outcome memory :=
  let table := Val.c_str (text (table_name_ spec)) in
  let name := Val.c_str (text (alias_ spec)) in
  packet 1024 sequence_id (
    store_lenenc_string 1024 (Val.c_str (text "def")) ;;;
    store_lenenc_string 1024 (Val.c_str (text "sys")) ;;;
    store_lenenc_string 1024 table ;;;
    store_lenenc_string 1024 table ;;;
    store_lenenc_string 1024 name ;;;
    store_lenenc_string 1024 name ;;;
    store_lenenc_int 1024 12 ;;;
    store_int2 1024 33 ;;;
    store_int4 1024 16384 ;;;
    store_int1 1024 253 ;;;
    store_int2 1024 0 ;;;
    store_int1 1024 31 ;;;
    store_int2 1024 0).
Fixpoint send_columns (specs : list TupleCellSpec) : M RC.t :=
  match specs with
  | [] => mret RC.SUCCESS
  | spec :: specs =>
      sequence_id ← next_sequence;
      net_packet ← lift_outcome (column_definition sequence_id spec);
      rc ← send net_packet;
      if negb (RC.succ rc) then mret rc else send_columns specs
  end.
(** a failure to send the EOF packet is not returned *)
Definition send_column_definition : M (RC.t * bool) :=
  e ← get_request;
  let cells := SessionEvent.tuple_schema_ e in
  c ← get_comm;
  sequence_id ← next_sequence;
  net_packet ← lift_outcome (packet 1024 sequence_id (
    (if has_flag (client_capabilities_flag_ c) CLIENT_OPTIONAL_RESULTSET_METADATA then store_int1 1024 1 else mret ()) ;;;
    store_lenenc_int 1024 (Z.of_nat (length cells))));
  rc ← send net_packet;
  if negb (RC.succ rc) then mret (rc, true)
  else
    rc ← send_columns cells;
    if negb (RC.succ rc) then mret (rc, true)
    else
      (if negb (has_flag (client_capabilities_flag_ c) CLIENT_DEPRECATE_EOF) then
         sequence_id ← next_sequence;
         send_packet (λ caps, EofPacket.encode caps (EofPacket.mk sequence_id 254 0 2))
       else mret RC.SUCCESS) ;;;
      mret (RC.SUCCESS, false).

(** The cells of a row, from [i] on, [n] of them: after a cell that fails the code of the
    result is set and the row ends.  [value] is kept from cell to cell. *)
Definition row_capacity : Z := 4 * 1024 * 1024.
Fixpoint row_cells (tuple : Tuple.t) (i n : nat) (value : Value) (buf : memory) : M memory :=
  match n with
  | O => mret buf
  | S n =>
      r ← st_some (Tuple.cell_at trx_fields tuple (Z.of_nat i) value);
      let '(rc, value) := r in
      if negb (RC.succ rc) then set_request (SessionEvent.set_return_code rc) ;;; mret buf
      else
        s ← st_some (Val.to_string value);
        buf ← (match store_lenenc_string row_capacity (Val.c_str s) buf with
               | Done (_, buf) => mret buf | Crash => st_crash | OutOfFuel => st_nofuel end : M memory);
        row_cells tuple (S i) n value buf
  end.
(** the rows: the number of them, or the code of a failed [writen] *)
Fixpoint send_rows (rows : nat) (affected_rows : Z) : M (RC.t + Z) :=
  match rows with
  | O => st_nofuel
  | S rows =>
      r ← on_fst next_tuple;
      let '(rc, tuple) := r in
      if negb (RC.succ rc) then mret (inr affected_rows)
      else
        tuple ← st_some tuple;
        cell_num ← st_some (Tuple.cell_num tuple);
        if decide (cell_num = 0) then send_rows rows (affected_rows + 1)
        else
          sequence_id ← next_sequence;
          buf ← row_cells tuple 0 (Z.to_nat cell_num) Val.new ([0; 0; 0] ++ le_bytes 1 sequence_id);
          rc ← send (le_bytes 3 (Z.of_nat (length buf) - 4) ++ drop 3 buf);
          if negb (RC.succ rc) then mret (inl rc) else send_rows rows (affected_rows + 1)
  end.
Definition send_result_rows (no_column_def : bool) : M (RC.t * bool) :=
  r ← send_rows fuel 0;
  match r with
  | inl rc => mret (rc, true)
  | inr affected_rows =>
      c ← get_comm;
      sequence_id ← next_sequence;
      rc ← (if has_flag (client_capabilities_flag_ c) CLIENT_DEPRECATE_EOF || no_column_def then
              send_packet (λ caps, OkPacket.encode caps (OkPacket.mk sequence_id 0 affected_rows 0 34 0 []))
            else send_packet (λ caps, EofPacket.encode caps (EofPacket.make sequence_id)));
      mret (rc, false)
  end.
(** The code of the rows stays in an inner variable: what is returned is that of [close]. *)
Definition write_result : M (RC.t * bool) :=
  e ← get_request;
  if negb (RC.succ (SessionEvent.return_code_ e)) || negb (SqlResult.has_operator e) then write_state
  else
    rc ← on_fst open;
    if negb (RC.succ rc) then set_request (SessionEvent.set_return_code rc) ;;; write_state
    else
      e ← get_request;
      let no_column_def := bool_decide (SessionEvent.tuple_schema_ e = []) in
      r ← (if no_column_def then mret (RC.SUCCESS, true) else send_column_definition);
      if negb (RC.succ r.1) then on_fst close ;;; mret r
      else
        r ← send_result_rows no_column_def;
        close_rc ← on_fst close;
        flush_writer ;;;
        mret (close_rc, r.2).

(** ** Reading commands *)
Context (sys_read : Z → N → read_result * N) (string_list : list (list string) → C).
Definition readn (size : nat) : M (option memory) := on_fst (on_snd (on_fst (Io.readn sys_read fuel size))).
(** a [char] and the signed field of 24 bits *)
Definition payload_length (header : memory) : option Z :=
  match header with
  | b0 :: b1 :: b2 :: _ => let n := b0 + Z.shiftl b1 8 + Z.shiftl b2 16 in Some (if decide (n < 2 ^ 23) then n else n - 2 ^ 24)
  | _ => None
  end.
Definition version_comment_query : memory := text "select @@version_comment".
Definition handle_version_comment : M (RC.t * bool) :=
  set_request (λ e, SessionEvent.make (SessionEvent.session_ e) []) ;;;
  set_request (SessionEvent.set_return_code RC.SUCCESS) ;;;
  set_request (SessionEvent.set_tuple_schema [field_spec "" "" (Some "@@version_comment"%string)]) ;;;
  on_fst (on_fst (SqlResult.set_operator (string_list [["MiniOB"%string]]))) ;;;
  write_result.
(** [read_event]: the return code, and the query of a new request *)
Definition read_event : M (RC.t * option memory) :=
  header ← readn 4;
  match header with
  | None => mret (RC.IOERR_READ, None)
  | Some header =>
      sequence ← st_some (header !! 3%nat);
      set_comm (set_sequence (int8 (sequence + 1))) ;;;
      len ← st_some (payload_length header);
      st_assert (bool_decide (0 <= len)) ;;;
      buf ← readn (Z.to_nat len);
      match buf with
      | None => mret (RC.IOERR_READ, None)
      | Some buf =>
          c ← get_comm;
          if negb (authed_ c) then
            client_flag ← st_some (load32 buf);
            set_comm (set_flag client_flag) ;;;
            rc ← send_packet (λ caps, OkPacket.encode caps (OkPacket.make (sequence_id_ c)));
            flush_writer ;;;
            set_comm set_authed ;;;
            mret (rc, None)
          else
            command_type ← st_some (head buf);
            if decide (command_type = 3) then
              let query := decode_query_packet buf in
              if contains_text version_comment_query query then r ← handle_version_comment; mret (r.1, None)
              else mret (RC.SUCCESS, Some query)
            else
              rc ← send_packet (λ caps, OkPacket.encode caps (OkPacket.make (sequence_id_ c)));
              if negb (RC.succ rc) then mret (rc, None) else flush_writer ;;; mret (rc, None)
      end
  end.
End mysql.
End MysqlCommunicator.
