(* ===== verification/MysqlCorrect.v ===== *)
(** * The MySQL protocol: what a client reads back

    The first part is the client: the bytes of numbers and strings, packets and result sets
    read as the protocol documents them ([decode_...]).  Then the packets the server sends
    for a query, and that the client gets the columns and the rows from them. *)
From S2P Require Import Prelude RidKey Comparator TableMeta SqlValue Row Expr Rewrite Operators OperatorsCorrect.
From S2P Require Import NetBuffer SqlResult PlainCommunicator PlainCorrect MysqlCommunicator.
From Stdlib Require Import ZArith Lia Ascii String.
From stdpp Require Import base option strings list.
Import BufferedWriterCorrect.
Local Open Scope Z_scope.

(** ** The client *)
Fixpoint le_value (bytes : memory) : Z := match bytes with [] => 0 | b :: bytes => b + 256 * le_value bytes end.
Definition decode_le (n : nat) (m : memory) : option (Z * memory) :=
  if decide (n <= length m)%nat then Some (le_value (take n m), drop n m) else None.
Definition decode_lenenc (m : memory) : option (Z * memory) :=
  match m with
  | [] => None
  | b :: m =>
      if decide (b < 251) then Some (b, m)
      else if decide (b = 252) then decode_le 2 m
      else if decide (b = 253) then decode_le 3 m
      else if decide (b = 254) then decode_le 8 m else None
  end.
Definition decode_string (m : memory) : option (memory * memory) :=
  '(n, m) ← decode_lenenc m;
  if decide (0 <= n <= Z.of_nat (length m)) then Some (take (Z.to_nat n) m, drop (Z.to_nat n) m) else None.
Fixpoint decode_strings (n : nat) (m : memory) : option (list memory * memory) :=
  match n with
  | O => Some ([], m)
  | S n => '(s, m) ← decode_string m; '(l, m) ← decode_strings n m; Some (s :: l, m)
  end.
(** a packet: its payload and what follows *)
Definition decode_packet (m : memory) : option (memory * memory) :=
  '(len, m) ← decode_le 3 m;
  '(_, m) ← decode_le 1 m;
  if decide (len <= Z.of_nat (length m)) then Some (take (Z.to_nat len) m, drop (Z.to_nat len) m) else None.
Definition is_eof (payload : memory) : bool :=
  bool_decide (head payload = Some 254) && bool_decide (length payload < 9)%nat.
(** the columns, by name, then the rows up to the EOF packet *)
Fixpoint decode_columns (n : nat) (m : memory) : option (list memory * memory) :=
  match n with
  | O => Some ([], m)
  | S n =>
      '(payload, m) ← decode_packet m;
      '(strings, _) ← decode_strings 6 payload;
      name ← strings !! 4%nat;
      '(names, m) ← decode_columns n m;
      Some (name :: names, m)
  end.
Fixpoint decode_rows (fuel columns : nat) (m : memory) : option (list (list memory) * memory) :=
  match fuel with
  | O => None
  | S fuel =>
      '(payload, m) ← decode_packet m;
      if is_eof payload then Some ([], m)
      else
        '(row, _) ← decode_strings columns payload;
        '(rows, m) ← decode_rows fuel columns m;
        Some (row :: rows, m)
  end.
Definition decode_result_set (fuel : nat) (m : memory) : option (list memory * list (list memory) * memory) :=
  '(payload, m) ← decode_packet m;
  '(count, _) ← decode_lenenc payload;
  '(names, m) ← decode_columns (Z.to_nat count) m;
  '(eof, m) ← decode_packet m;
  if is_eof eof then '(rows, m) ← decode_rows fuel (Z.to_nat count) m; Some (names, rows, m) else None.

(** ** Numbers and strings *)
Lemma length_le_bytes n v : length (le_bytes n v) = n.
Proof. revert v. induction n; intros v; simpl; [done|]. by rewrite IHn. Qed.
Lemma le_value_bytes n v : le_value (le_bytes n v) = v mod 2 ^ (8 * Z.of_nat n).
Proof.
  revert v. induction n as [|n IH]; intros v; [symmetry; apply Z.mod_1_r|].
  cbn [le_bytes le_value]. rewrite IH. change 255 with (Z.ones 8). rewrite Z.land_ones, Z.shiftr_div_pow2 by lia.
  replace (8 * Z.of_nat (S n)) with (8 + 8 * Z.of_nat n) by lia. rewrite Z.pow_add_r by lia.
  rewrite Z.rem_mul_r by (try lia; apply Z.pow_nonzero; lia). change (2 ^ 8) with 256. lia.
Qed.
Lemma decode_le_bytes n v m : decode_le n (le_bytes n v ++ m) = Some (v mod 2 ^ (8 * Z.of_nat n), m).
Proof.
  unfold decode_le. rewrite decide_True by (rewrite length_app, length_le_bytes; lia).
  by rewrite take_app_length', drop_app_length', le_value_bytes by (by rewrite length_le_bytes).
Qed.
(** [store_lenenc_int] is read back as the number, except between [2^16] and [2^17] and
    between [2^24] and [2^25], where the highest bit is lost. *)
Lemma decode_lenenc_int v m :
  0 <= v < 2 ^ 64 →
  decode_lenenc (lenenc_int v ++ m) =
    Some (if decide (2 ^ 16 <= v < 2 ^ 17) then v - 2 ^ 16 else if decide (2 ^ 24 <= v < 2 ^ 25) then v - 2 ^ 24 else v, m).
Proof.
  intros Hv. unfold lenenc_int. change (Z.shiftl 2 16) with (2 ^ 17). change (Z.shiftl 2 24) with (2 ^ 25).
  destruct (decide (v < 251)).
  { cbn [app decode_lenenc]. rewrite (decide_True (P := v < 251)) by done. rewrite !decide_False by lia. done. }
  destruct (decide (v < 2 ^ 17)); [|destruct (decide (v < 2 ^ 25))]; cbn [app decode_lenenc];
    repeat (rewrite decide_False by lia); rewrite decide_True by lia; rewrite decode_le_bytes; do 2 f_equal.
  - destruct (decide (2 ^ 16 <= v < 2 ^ 17)).
    + replace v with (v - 2 ^ 16 + 1 * 2 ^ 16) at 1 by lia. change (2 ^ (8 * Z.of_nat 2)) with (2 ^ 16).
      rewrite Z_mod_plus_full. apply Z.mod_small. lia.
    + rewrite decide_False by lia. apply Z.mod_small. change (2 ^ (8 * Z.of_nat 2)) with (2 ^ 16). lia.
  - rewrite decide_False by lia. destruct (decide (2 ^ 24 <= v < 2 ^ 25)).
    + replace v with (v - 2 ^ 24 + 1 * 2 ^ 24) at 1 by lia. change (2 ^ (8 * Z.of_nat 3)) with (2 ^ 24).
      rewrite Z_mod_plus_full. apply Z.mod_small. lia.
    + apply Z.mod_small. change (2 ^ (8 * Z.of_nat 3)) with (2 ^ 24). lia.
  - rewrite !decide_False by lia. apply Z.mod_small. change (2 ^ (8 * Z.of_nat 8)) with (2 ^ 64). lia.
Qed.
Definition lenenc_string (s : memory) : memory := lenenc_int (Z.of_nat (length s)) ++ s.
Definition short (s : memory) : Prop := Z.of_nat (length s) < 2 ^ 16.
Lemma decode_lenenc_string s m : short s → decode_string (lenenc_string s ++ m) = Some (s, m).
Proof.
  unfold short. intros Hs. unfold decode_string, lenenc_string. rewrite <-app_assoc, decode_lenenc_int by lia.
  rewrite !decide_False by lia. cbn [mbind option_bind]. rewrite decide_True by (rewrite length_app; lia).
  by rewrite Nat2Z.id, take_app_length, drop_app_length.
Qed.
Lemma decode_lenenc_strings l m :
  Forall short l → decode_strings (length l) (concat (lenenc_string <$> l) ++ m) = Some (l, m).
Proof.
  induction 1 as [|s l Hs _ IH]; [done|]. cbn [length decode_strings fmap list_fmap concat].
  rewrite <-app_assoc, decode_lenenc_string by done. cbn [mbind option_bind]. by rewrite IH.
Qed.

(** ** Packets *)
Definition pkt (sequence_id : Z) (payload : memory) : memory :=
  le_bytes 3 (Z.of_nat (length payload)) ++ le_bytes 1 sequence_id ++ payload.
Lemma decode_pkt n payload m :
  Z.of_nat (length payload) < 2 ^ 24 → decode_packet (pkt n payload ++ m) = Some (payload, m).
Proof.
  intros Hl. unfold decode_packet, pkt. rewrite <-!app_assoc, decode_le_bytes. cbn [mbind option_bind].
  rewrite decode_le_bytes. cbn [mbind option_bind]. change (2 ^ (8 * Z.of_nat 3)) with (2 ^ 24).
  rewrite Z.mod_small, decide_True by (rewrite ?length_app; lia).
  by rewrite Nat2Z.id, take_app_length, drop_app_length.
Qed.
(** an encoder that appends [payload] *)
Definition stores (capacity : Z) (body : ST memory ()) (payload : memory) : Prop :=
  ∀ buf, Z.of_nat (length buf + length payload) <= capacity → body buf = Done ((), buf ++ payload).
Section stores.
Context (capacity : Z).
Abbreviation stores := (stores capacity).
Lemma stores_store bytes : stores (store capacity bytes) bytes.
Proof. intros buf H. unfold store. by rewrite decide_True. Qed.
Lemma stores_nothing : stores (mret ()) [].
Proof. intros buf _. by rewrite app_nil_r. Qed.
Lemma stores_bind b1 b2 p1 p2 : stores b1 p1 → stores b2 p2 → stores (b1 ;;; b2) (p1 ++ p2).
Proof.
  intros H1 H2 buf H. rewrite length_app in H. unfold mbind, ST_bind. rewrite H1 by lia.
  rewrite H2 by (rewrite length_app; lia). by rewrite app_assoc.
Qed.
Lemma stores_lenenc_string s : stores (store_lenenc_string capacity (Val.c_str s)) (lenenc_string (c_prefix s)).
Proof.
  assert (c_prefix (Val.c_str s) = c_prefix s) as E.
  { unfold Val.c_str. induction s as [|x s IH]; [done|]. simpl. destruct (decide (x = 0)); [done|]. by rewrite IH. }
  unfold store_lenenc_string. rewrite E. apply stores_bind; apply stores_store.
Qed.
Lemma stores_fix_length s : stores (store_fix_length_string capacity s (length s)) s.
Proof.
  unfold store_fix_length_string. destruct s; [rewrite decide_True by done; apply stores_nothing|].
  rewrite decide_False by done. intros buf H. unfold load_bytes. rewrite decide_True by done.
  cbn [drop]. rewrite take_ge by done. by apply stores_store.
Qed.
Lemma stores_if (b : bool) b1 b2 p1 p2 :
  stores b1 p1 → stores b2 p2 → stores (if b then b1 else b2) (if b then p1 else p2).
Proof. by destruct b. Qed.
Lemma packet_pkt n body payload :
  stores body payload → 4 + Z.of_nat (length payload) <= capacity → packet capacity n body = Done (pkt n payload).
Proof.
  intros Hb Hc. unfold packet.
  rewrite (stores_bind _ _ [0; 0; 0] (le_bytes 1 n ++ payload) (stores_store _) (stores_bind _ _ _ _ (stores_store _) Hb));
    [|rewrite !length_app, length_le_bytes; simpl; lia].
  cbn [app drop]. unfold pkt. do 2 f_equal. f_equal. cbn [length]. rewrite length_app, length_le_bytes. lia.
Qed.
End stores.

(** ** The packets of a result set *)
Definition eof_payload (capabilities status : Z) : memory :=
  [254] ++ (if has_flag capabilities CLIENT_PROTOCOL_41 then le_bytes 2 0 ++ le_bytes 2 status else []).
Definition column_payload (spec : TupleCellSpec) : memory :=
  let table := c_prefix (text (table_name_ spec)) in
  let name := c_prefix (text (alias_ spec)) in
  lenenc_string (text "def") ++ lenenc_string (text "sys") ++ lenenc_string table ++ lenenc_string table ++
    lenenc_string name ++ lenenc_string name ++
    lenenc_int 12 ++ le_bytes 2 33 ++ le_bytes 4 16384 ++ le_bytes 1 253 ++ le_bytes 2 0 ++ le_bytes 1 31 ++ le_bytes 2 0.
Definition row_payload (texts : list memory) : memory := concat (lenenc_string <$> texts).
Definition result_payloads (capabilities : Z) (specs : list TupleCellSpec) (rows : list (list memory)) : list memory :=
  [lenenc_int (Z.of_nat (length specs))] ++ (column_payload <$> specs) ++ [eof_payload capabilities 2] ++
    (row_payload <$> rows) ++ [eof_payload capabilities 34].
(** packets with consecutive numbers *)
Fixpoint number (sequence_id : Z) (payloads : list memory) : memory :=
  match payloads with [] => [] | p :: payloads => pkt sequence_id p ++ number (int8 (sequence_id + 1)) payloads end.
Fixpoint after (n : nat) (sequence_id : Z) : Z :=
  match n with O => sequence_id | S n => after n (int8 (sequence_id + 1)) end.
Lemma number_app n p q : number n (p ++ q) = number n p ++ number (after (length p) n) q.
Proof. revert n. induction p as [|x p IH]; intros n; [done|]. simpl. by rewrite IH, <-app_assoc. Qed.

Definition column_fits (spec : TupleCellSpec) : Prop := 4 + Z.of_nat (length (column_payload spec)) <= 1024.
Definition row_fits (texts : list memory) : Prop :=
  texts ≠ [] ∧ Forall short texts ∧ 4 + Z.of_nat (length (row_payload texts)) <= MysqlCommunicator.row_capacity.

(** *** What the client reads *)
Lemma decode_pkts_short p n m : Z.of_nat (length p) < 2 ^ 24 → decode_packet (pkt n p ++ m) = Some (p, m).
Proof. apply decode_pkt. Qed.
Lemma column_names_short spec :
  column_fits spec → short (c_prefix (text (table_name_ spec))) ∧ short (c_prefix (text (alias_ spec))).
Proof.
  unfold column_fits, column_payload, short, lenenc_string. rewrite !length_app. lia.
Qed.
Lemma decode_columns_ok specs n m :
  Forall column_fits specs →
  decode_columns (length specs) (number n (column_payload <$> specs) ++ m) =
    Some ((λ spec, c_prefix (text (alias_ spec))) <$> specs, m).
Proof.
  intros Hall. revert n. induction Hall as [|spec specs Hfit _ IH]; intros n; [done|].
  cbn [length decode_columns fmap list_fmap number]. rewrite <-app_assoc, decode_pkt by (unfold column_fits in Hfit; lia).
  cbn [mbind option_bind]. destruct (column_names_short spec Hfit) as [Ht Ha].
  set (l := [text "def"; text "sys"; c_prefix (text (table_name_ spec)); c_prefix (text (table_name_ spec));
             c_prefix (text (alias_ spec)); c_prefix (text (alias_ spec))]).
  assert (∃ r, column_payload spec = concat (lenenc_string <$> l) ++ r) as [r ->].
  { eexists. unfold column_payload, l. cbn [fmap list_fmap concat]. rewrite <-!app_assoc. reflexivity. }
  change 6%nat with (length l). rewrite decode_lenenc_strings by (subst l; repeat constructor; done).
  cbn [mbind option_bind]. subst l. cbn [lookup list_lookup mbind option_bind]. by rewrite IH.
Qed.
Lemma eof_is_eof capabilities status : is_eof (eof_payload capabilities status) = true.
Proof. unfold is_eof, eof_payload. by destruct (has_flag _ _). Qed.
Lemma length_eof capabilities status : (length (eof_payload capabilities status) <= 5)%nat.
Proof. unfold eof_payload. destruct (has_flag _ _); simpl; lia. Qed.
Lemma row_not_eof texts : texts ≠ [] → Forall short texts → is_eof (row_payload texts) = false.
Proof.
  intros Hne Hs. destruct texts as [|x texts]; [done|]. apply Forall_cons in Hs as [Hx _]. unfold short in Hx.
  unfold is_eof. rewrite bool_decide_eq_false_2; [done|]. unfold row_payload. cbn [fmap list_fmap concat].
  unfold lenenc_string, lenenc_int. change (Z.shiftl 2 16) with (2 ^ 17).
  destruct (decide _); [cbn [app head]; intros [=]; lia|]. rewrite decide_True by lia. by cbn.
Qed.
Lemma decode_rows_ok columns capabilities rows n m fuel :
  Forall (λ r, row_fits r ∧ length r = columns) rows → (length rows < fuel)%nat →
  decode_rows fuel columns (number n ((row_payload <$> rows) ++ [eof_payload capabilities 34]) ++ m) = Some (rows, m).
Proof.
  intros Hall. revert n fuel. induction Hall as [|row rows [(Hne & Hs & Hfit) Hlen] _ IH]; intros n [|fuel] Hf; try (simpl in Hf; lia).
  - cbn [decode_rows fmap list_fmap app number]. rewrite app_nil_r, decode_pkt by (pose proof (length_eof capabilities 34); lia).
    cbn [mbind option_bind]. by rewrite eof_is_eof.
  - cbn [decode_rows fmap list_fmap app number]. rewrite <-app_assoc, decode_pkt.
    2:{ unfold MysqlCommunicator.row_capacity in Hfit. lia. }
    cbn [mbind option_bind]. rewrite row_not_eof by done.
    assert (decode_strings columns (row_payload row) = Some (row, [])) as ->.
    { rewrite <-Hlen, <-(app_nil_r (row_payload row)). by apply decode_lenenc_strings. }
    cbn [mbind option_bind]. rewrite IH by (simpl in Hf; lia). done.
Qed.
Lemma decode_result_set_ok capabilities specs rows n fuel :
  (length specs < 251)%nat → Forall column_fits specs →
  Forall (λ r, row_fits r ∧ length r = length specs) rows → (length rows < fuel)%nat →
  decode_result_set fuel (number n (result_payloads capabilities specs rows)) =
    Some ((λ spec, c_prefix (text (alias_ spec))) <$> specs, rows, []).
Proof.
  intros Hlen Hcols Hrows Hf. unfold decode_result_set, result_payloads. cbn [app number].
  assert (lenenc_int (Z.of_nat (length specs)) = [Z.of_nat (length specs)]) as E
    by (unfold lenenc_int; by rewrite decide_True by lia).
  rewrite E, decode_pkt by (simpl; lia). cbn [mbind option_bind decode_lenenc]. rewrite decide_True by lia. cbn [mbind option_bind].
  rewrite Nat2Z.id, number_app, decode_columns_ok by done. cbn [mbind option_bind app number].
  rewrite decode_pkt by (pose proof (length_eof capabilities 2); lia). cbn [mbind option_bind]. rewrite eof_is_eof.
  rewrite <-(app_nil_r (number _ _)), decode_rows_ok by done. done.
Qed.

(** ** The server sends them *)
Section server.
Context `{LT : !LibText} `{UN : !Uninit} (trx_fields : option (list FieldMeta.t)).
(** the texts of the cells from [i] on; the value is kept from cell to cell *)
Fixpoint texts_from (tuple : Tuple.t) (i n : nat) (value : Value) : option (list memory) :=
  match n with
  | O => Some []
  | S n =>
      '(rc, value) ← Tuple.cell_at trx_fields tuple (Z.of_nat i) value;
      if RC.succ rc then s ← Val.to_string value; l ← texts_from tuple (S i) n value; Some (c_prefix s :: l) else None
  end.
Definition tuple_row (tuple : Tuple.t) : option (list memory) :=
  n ← Tuple.cell_num tuple; texts_from tuple 0 (Z.to_nat n) Val.new.

Context {W C N : Type} {O : PhysOps W C} {TE : TrxEnds W} {OW : OsWrite N} {OL : OsWriteLaws N} (fuel : nat).
Context (fd cap : Z) (Hreliable : ¬ fails (W := N)) (Hfuel : Z.of_nat fuel >= MysqlCommunicator.row_capacity).
Import MysqlCommunicator.
Abbreviation state := (((W * SessionEvent.t C) * (N * BufferedWriter.t)) * MysqlCommunicator.t)%type.
Implicit Types s : state.
Abbreviation alive := (alive fuel fd cap).

Lemma send_ok d s (Q : RC.t → _ → Prop) :
  alive s.1 → Z.of_nat (length d) <= row_capacity →
  (∀ s', alive s'.1 → s'.1.1 = s.1.1 → s'.2 = s.2 → out s'.1 = out s.1 ++ d → Q RC.SUCCESS s') →
  wp (send fuel d) s Q.
Proof.
  intros Ha Hd HQ. apply wp_on_fst. eapply writen_ok; [done|exact Ha|lia|]. intros x Hx He Ho. by apply HQ.
Qed.
Lemma get_comm_ok s (Q : _ → _ → Prop) : Q s.2 s → wp get_comm s Q.
Proof. intros HQ. apply wp_on_snd, wp_get. by destruct s. Qed.
Lemma next_sequence_ok s (Q : Z → state → Prop) :
  Q (sequence_id_ s.2) (s.1, set_sequence (int8 (sequence_id_ s.2 + 1)) s.2) → wp next_sequence s Q.
Proof.
  intros HQ. apply wp_bind, get_comm_ok. apply wp_bind, wp_on_snd, wp_modify, wp_ret. exact HQ.
Qed.
Lemma send_packet_ok encode d s (Q : RC.t → _ → Prop) :
  encode (client_capabilities_flag_ s.2) = Done d → alive s.1 → Z.of_nat (length d) <= row_capacity →
  (∀ s', alive s'.1 → s'.1.1 = s.1.1 → s'.2 = s.2 → out s'.1 = out s.1 ++ d → Q RC.SUCCESS s') →
  wp (send_packet fuel encode) s Q.
Proof.
  intros He Ha Hd HQ. unfold send_packet. apply wp_bind, get_comm_ok. rewrite He.
  apply wp_bind. eapply wp_done; [done|]. by apply send_ok.
Qed.
Lemma get_request_ok s (Q : _ → _ → Prop) : Q s.1.1.2 s → wp get_request s Q.
Proof. intros HQ. apply wp_on_fst, get_event_ok. by destruct s. Qed.
Lemma length_pkt n p : Z.of_nat (length (pkt n p)) = 4 + Z.of_nat (length p).
Proof. unfold pkt. rewrite !length_app, !length_le_bytes. lia. Qed.

Lemma eof_fits n caps status : Z.of_nat (length (pkt n (eof_payload caps status))) <= row_capacity.
Proof. rewrite length_pkt. pose proof (length_eof caps status). unfold row_capacity. lia. Qed.
Lemma column_definition_ok n spec : column_fits spec → column_definition n spec = Done (pkt n (column_payload spec)).
Proof.
  intros Hfit. apply packet_pkt; [|exact Hfit]. unfold column_payload.
  repeat (apply stores_bind; [first [apply stores_lenenc_string|apply stores_store]|]). apply stores_store.
Qed.
Lemma eof_ok caps n w status :
  w = 0 → EofPacket.encode caps (EofPacket.mk n 254 w status) = Done (pkt n (eof_payload caps status)).
Proof.
  intros ->. apply packet_pkt; [|pose proof (length_eof caps status); lia]. unfold eof_payload.
  apply (stores_bind _ _ _ [254]); [apply (stores_store _ [254])|]. apply stores_if; [|apply stores_nothing].
  apply stores_bind; apply stores_store.
Qed.
Lemma send_columns_ok specs s (Q : RC.t → _ → Prop) :
  Forall column_fits specs → alive s.1 →
  (∀ s', alive s'.1 → s'.1.1 = s.1.1 → s'.2 = set_sequence (after (length specs) (sequence_id_ s.2)) s.2 →
     out s'.1 = out s.1 ++ number (sequence_id_ s.2) (column_payload <$> specs) → Q RC.SUCCESS s') →
  wp (send_columns fuel specs) s Q.
Proof.
  intros Hall. revert s. induction Hall as [|spec specs Hfit _ IH]; intros s Ha HQ; cbn [send_columns].
  - apply wp_ret, HQ; [done|done|by destruct s as [? []]|by rewrite app_nil_r].
  - apply wp_bind, next_sequence_ok. rewrite column_definition_ok by done. apply wp_bind. eapply wp_done; [done|].
    apply wp_bind, send_ok; [done|rewrite length_pkt; unfold column_fits, row_capacity in *; lia|].
    intros s1 Ha1 He1 Hc1 Ho1. change (RC.succ RC.SUCCESS) with true. cbn [negb]. apply IH; [done|].
    rewrite Hc1. cbn [sequence_id_ set_sequence fst snd] in *. intros s2 Ha2 He2 Hc2 Ho2.
    apply HQ; [done|congruence|by rewrite Hc2|]. rewrite Ho2, Ho1. cbn [fmap list_fmap number]. by rewrite <-app_assoc.
Qed.
Lemma row_cells_ok tuple i n value texts buf s (Q : memory → _ → Prop) :
  texts_from tuple i n value = Some texts → Z.of_nat (length buf + length (row_payload texts)) <= row_capacity →
  Q (buf ++ row_payload texts) s → wp (row_cells trx_fields tuple i n value buf) s Q.
Proof.
  revert i value texts buf. induction n as [|n IH]; intros i value texts buf Ht Hbuf HQ; cbn [row_cells texts_from] in *.
  - injection Ht as <-. apply wp_ret. by rewrite app_nil_r in HQ.
  - destruct (Tuple.cell_at _ _ _ _) as [[rc v]|] eqn:Hcell; [|done]. cbn [mbind option_bind] in Ht.
    destruct (RC.succ rc) eqn:Hrc; [|done]. destruct (Val.to_string v) as [x|] eqn:Hx; [|done].
    cbn [mbind option_bind] in Ht. destruct (texts_from tuple (S i) n v) as [l|] eqn:Hl; [|done]. injection Ht as <-.
    unfold row_payload in *. cbn [fmap list_fmap concat] in *. rewrite length_app in Hbuf.
    apply wp_bind. eapply wp_some; [done|]. cbv iota beta. rewrite Hrc. cbn [negb].
    apply wp_bind. eapply wp_some; [exact Hx|]. rewrite stores_lenenc_string by lia.
    apply wp_bind, wp_ret. eapply IH; [exact Hl|rewrite length_app; lia|]. by rewrite <-app_assoc.
Qed.

(** ** The rows of an operator

    [stops w c l rc]: the operator gives the tuples [l] and then the code [rc], the end or a
    failure. *)
Import SessionEvent.
Inductive stops (w : W) : C → list Tuple.t → RC.t → Prop :=
| stops_here c c' rc : oper_next (w, c) = Done (rc, (w, c')) → RC.succ rc = false → closes O w c' → stops w c [] rc
| stops_later c c' tuple l rc :
    oper_next (w, c) = Done (RC.SUCCESS, (w, c')) → oper_current c' = Done (Some tuple) → stops w c' l rc →
    stops w c (tuple :: l) rc.
Lemma yields_stops w c l : yields O w (closes O w) c l → stops w c l RC.RECORD_EOF.
Proof. induction 1; [by eapply stops_here|by eapply stops_later]. Qed.

Lemma send_rows_ok rounds w c l rc e rows affected s (Q : RC.t + Z → _ → Prop) :
  stops w c l rc → mapM tuple_row l = Some rows → Forall row_fits rows → (length l < rounds)%nat →
  s.1.1 = (w, e) → operator_ e = Some c → alive s.1 →
  (∀ s' c', alive s'.1 → s'.1.1 = (w, put_operator (Some c') e) → closes O w c' →
     s'.2 = set_sequence (after (length rows) (sequence_id_ s.2)) s.2 →
     out s'.1 = out s.1 ++ number (sequence_id_ s.2) (row_payload <$> rows) →
     Q (inr (affected + Z.of_nat (length rows))) s') →
  wp (send_rows trx_fields fuel rounds affected) s Q.
Proof.
  intros Hy. revert rounds e rows affected s.
  induction Hy as [c c' rc Hn Hrc Hcl|c c' tuple l rc Hn Hcur Hy IH];
    intros [|rounds] e rows affected s Ht Hfits Hrounds He Hc Ha HQ; try (simpl in Hrounds; lia); cbn [send_rows].
  - injection Ht as <-. apply wp_bind, wp_on_fst, wp_on_fst. rewrite He. eapply wp_done; [by eapply next_tuple_eof|].
    cbv iota beta. rewrite Hrc. cbn [negb]. apply wp_ret. rewrite <-(Z.add_0_r affected).
    apply (HQ _ c'); [done|done|done|by destruct s as [? []]|]. unfold out. cbn. by rewrite app_nil_r.
  - apply mapM_Some, Forall2_cons_inv_l in Ht as (row & rows' & Hrow & Ht%mapM_Some & ->).
    apply Forall_cons in Hfits as [(Hne & Hs & Hfit) Hfits].
    unfold tuple_row in Hrow. destruct (Tuple.cell_num tuple) as [n|] eqn:Hnum; [|done]. cbn [mbind option_bind] in Hrow.
    apply wp_bind, wp_on_fst, wp_on_fst. rewrite He. eapply wp_done; [by eapply next_tuple_ok|].
    cbv iota beta. change (RC.succ RC.SUCCESS) with true. cbn [negb].
    apply wp_bind. eapply wp_some; [done|]. apply wp_bind. eapply wp_some; [exact Hnum|].
    destruct (decide (n = 0)) as [->|Hz]; [injection Hrow as <-; done|].
    apply wp_bind, next_sequence_ok. apply wp_bind. cbn [fst snd].
    eapply row_cells_ok; [exact Hrow|rewrite length_app, length_le_bytes; simpl; lia|].
    assert (le_bytes 3 (Z.of_nat (length (([0; 0; 0] ++ le_bytes 1 (sequence_id_ s.2)) ++ row_payload row)) - 4) ++
      drop 3 (([0; 0; 0] ++ le_bytes 1 (sequence_id_ s.2)) ++ row_payload row) = pkt (sequence_id_ s.2) (row_payload row)) as ->.
    { rewrite <-app_assoc. cbn [app drop]. unfold pkt. f_equal. f_equal. cbn [length].
      rewrite length_app, length_le_bytes. lia. }
    apply wp_bind, send_ok; [done|rewrite length_pkt; lia|]. intros s1 Ha1 He1 Hc1 Ho1.
    change (RC.succ RC.SUCCESS) with true. cbn [negb]. cbn [fst snd] in He1, Hc1, Ho1.
    eapply (IH rounds _ rows' _ s1); [exact Ht|done|simpl in Hrounds; lia|exact He1|done|done|].
    intros s2 c2 Ha2 He2 Hcl2 Hc2 Ho2.
    assert (affected + 1 + Z.of_nat (length rows') = affected + Z.of_nat (length (row :: rows'))) as -> by (simpl; lia).
    eapply HQ; [done|by rewrite He2|done|by rewrite Hc2, Hc1|].
    rewrite Ho2, Hc1. cbn [fmap list_fmap number sequence_id_ set_sequence].
    assert (out s1.1 = out s.1 ++ pkt (sequence_id_ s.2) (row_payload row)) as -> by exact Ho1. by rewrite <-app_assoc.
Qed.
(** A query of a client that wants EOF packets and no metadata flags: the packets sent, for
    any code the rows end with. *)
Lemma write_result_rows w w1 w2 rc0 rc_end rc c c1 l rows e s (Q : RC.t * bool → _ → Prop) :
  return_code_ e = RC.SUCCESS → operator_ e = Some c → tuple_schema_ e ≠ [] →
  (length (tuple_schema_ e) < 251)%nat → Forall column_fits (tuple_schema_ e) →
  start_if_need w = Done (rc0, w1) → oper_open (w1, c) = Done (RC.SUCCESS, (w1, c1)) →
  stops w1 c1 l rc → mapM tuple_row l = Some rows → Forall row_fits rows → (length l < fuel)%nat → ends e w1 rc_end w2 →
  has_flag (client_capabilities_flag_ s.2) CLIENT_DEPRECATE_EOF = false →
  has_flag (client_capabilities_flag_ s.2) CLIENT_OPTIONAL_RESULTSET_METADATA = false →
  s.1.1 = (w, e) → alive s.1 →
  (∀ s', s'.1.1 = (w2, put_operator None e) →
     sent fd s'.1.2.1 = out s.1 ++
       number (sequence_id_ s.2) (result_payloads (client_capabilities_flag_ s.2) (tuple_schema_ e) rows) →
     Q (rc_end, false) s') →
  wp (write_result trx_fields fuel) s Q.
Proof.
  intros Hrc Hc Hschema Hcols Hcfits Hstart Hopen Hy Hrows Hrfits Hl Hends Hdep Hmeta He Ha HQ.
  set (caps := client_capabilities_flag_ s.2) in *. set (n0 := sequence_id_ s.2) in *.
  unfold write_result. apply wp_bind, get_request_ok. rewrite He. cbn [snd]. rewrite Hrc.
  unfold SqlResult.has_operator. rewrite Hc, bool_decide_eq_true_2 by done. change (RC.succ RC.SUCCESS) with true. cbn [negb orb].
  apply wp_bind, wp_on_fst. eapply on_event_ok; [rewrite He; by eapply open_ok|exact Ha|]. intros x Hx Hxe Hxo.
  set (s1 := (x, s.2)). assert (alive s1.1) as Ha1 by done. assert (out s1.1 = out s.1) as Ho1 by exact Hxo.
  assert (s1.1.1 = (w1, put_operator (Some c1) e)) as He1 by done.
  assert (s1.2 = s.2) as Hs1 by done. clearbody s1. clear x Hx Hxe Hxo.
  change (RC.succ RC.SUCCESS) with true. cbn [negb]. apply wp_bind, get_request_ok. rewrite He1. cbn [snd tuple_schema_ put_operator].
  rewrite bool_decide_eq_false_2 by done. apply wp_bind. unfold send_column_definition.
  apply wp_bind, get_request_ok. rewrite He1. cbn [snd tuple_schema_ put_operator].
  apply wp_bind, get_comm_ok. rewrite Hs1. fold caps. rewrite Hmeta.
  apply wp_bind, next_sequence_ok. rewrite Hs1. fold n0.
  assert (lenenc_int (Z.of_nat (length (tuple_schema_ e))) = [Z.of_nat (length (tuple_schema_ e))]) as Elen
    by (unfold lenenc_int; by rewrite decide_True by lia).
  rewrite (packet_pkt 1024 n0 _ (lenenc_int (Z.of_nat (length (tuple_schema_ e)))));
    [|apply (stores_bind _ _ _ []); [apply stores_nothing|apply stores_store]|rewrite Elen; simpl; lia].
  apply wp_bind. eapply wp_done; [done|]. apply wp_bind, send_ok; [done|rewrite length_pkt, Elen; unfold row_capacity; simpl; lia|].
  intros s2 Ha2 He2 Hc2 Ho2. change (RC.succ RC.SUCCESS) with true. cbn [negb fst snd] in *.
  apply wp_bind, send_columns_ok; [done|done|]. intros s3 Ha3 He3 Hc3 Ho3.
  change (RC.succ RC.SUCCESS) with true. cbn [negb]. rewrite Hdep. cbn [negb].
  apply wp_bind, wp_bind, next_sequence_ok.
  eapply send_packet_ok; [cbn [fst snd]; by apply eof_ok|done|apply eof_fits|].
  intros s4 Ha4 He4 Hc4 Ho4. cbn [fst snd client_capabilities_flag_ set_sequence] in *. apply wp_ret.
  change (RC.succ (RC.SUCCESS, false).1) with true. cbn [negb].
  assert (client_capabilities_flag_ s4.2 = caps) as Hcaps4 by (by rewrite Hc4, Hc3, Hc2).
  apply wp_bind. unfold send_result_rows. apply wp_bind.
  eapply send_rows_ok; [exact Hy|exact Hrows|done|exact Hl|by rewrite He4, He3, He2, He1|done|done|].
  intros s5 c5 Ha5 He5 Hcl5 Hc5 Ho5. cbv iota beta. apply wp_bind, get_comm_ok.
  assert (client_capabilities_flag_ s5.2 = caps) as Hcaps5 by (by rewrite Hc5).
  apply wp_bind, next_sequence_ok. rewrite Hcaps5, Hdep. cbn [orb].
  apply wp_bind. eapply send_packet_ok; [cbn [fst snd client_capabilities_flag_ set_sequence]; by apply eof_ok|done|
    apply eof_fits|].
  intros s6 Ha6 He6 Hc6 Ho6. apply wp_ret. cbn [fst snd] in *.
  apply wp_bind, wp_on_fst. eapply on_event_ok; [rewrite He6, He5; by eapply close_ok|exact Ha6|]. intros x Hx Hxe Hxo.
  apply wp_bind, wp_on_fst. eapply conn_flush_ok; [done|exact Hx|]. intros y Hy' Hye Hyo. apply wp_ret, HQ.
  - exact (eq_trans Hye Hxe).
  - cbn [fst snd]. rewrite Hyo. cbn [fst snd]. rewrite Hxo, Ho6, Ho5, Ho4, Ho3, Ho2, Ho1, Hcaps5.
    unfold result_payloads. rewrite !number_app. cbn [number length after app]. rewrite !length_fmap, !app_nil_r, <-!app_assoc.
    by rewrite Hc5, Hc4, Hc3, Hc2.
Qed.
End server.
