(* ===== verification/SessionStage.v ===== *)
(** * From the text of a request to its result ([session/session_stage.cpp], [sql/executor])

    [handle_request] takes a query through the stages: parser, resolver ([Stmt::create_stmt]),
    optimizer, executor, and the communicator writes the result.  The statements without a
    plan and their executors are here.  The parser, generated from a grammar, is a parameter;
    [DbOps] is what the statements ask of the database, [LoadOps] what LOAD DATA does.
    The texts of [sql_debug] on the way are left out. *)
From S2P Require Import Prelude RidKey Comparator TableMeta SqlValue Row Expr Rewrite Operators IndexScan.
From S2P Require Import PlanGen Resolve PlanExec TrxKit NetBuffer SqlResult PlainCommunicator.
From Stdlib Require Import ZArith Lia Ascii String.
From stdpp Require Import base option strings list.
Local Open Scope Z_scope.

(** ** [ParsedSqlNode] ([sql/parser/parse_defs.h]) *)
Inductive ParsedSqlNode : Set :=
| SCF_ERROR
| SCF_CALC (expressions : list Expr.t)
| SCF_SELECT (selection : SelectSqlNode)
| SCF_INSERT (relation_name : string) (values_list : list (list Value))
| SCF_UPDATE (relation_name : string) (attribute_names : list string) (exprs : list ParseExpr) (conditions : list ConditionSqlNode)
| SCF_DELETE (relation_name : string) (conditions : list ConditionSqlNode)
| SCF_CREATE_TABLE (relation_name : string) (attr_infos : list AttrInfo)
| SCF_DROP_TABLE (relation_name : string)
| SCF_CREATE_INDEX (index_name relation_name : string) (attribute_names : list string) (unique : bool)
| SCF_SHOW_INDEX (relation_name : string)
| SCF_SHOW_TABLES
| SCF_DESC_TABLE (relation_name : string)
| SCF_BEGIN | SCF_COMMIT | SCF_ROLLBACK
| SCF_LOAD_DATA (relation_name : string) (file_name : string)
| SCF_HELP | SCF_EXIT
| SCF_EXPLAIN (sql_node : ParsedSqlNode)
| SCF_SET_VARIABLE (name : string) (value : Value)
(** [SCF_DROP_INDEX], [SCF_SYNC], [SCF_CLOG_SYNC] *)
| SCF_OTHER.

(** ** The statements: those with a plan, and the commands *)
Module Command.
Inductive t : Set :=
| PLAN (s : Stmt.t)
| CREATE_TABLE (table_name : string) (attr_infos : list AttrInfo)
| DROP_TABLE (table_name : string)
| CREATE_INDEX (table : TableMeta.t) (field_metas : list FieldMeta.t) (unique : bool) (index_name : string)
| SHOW_INDEX (table_name : string)
| SHOW_TABLES
| DESC_TABLE (table_name : string)
| BEGIN | COMMIT | ROLLBACK
| LOAD_DATA (table : TableMeta.t) (filename : string)
| HELP | EXIT
| SET_VARIABLE (var_name : string) (var_value : Value).
(** a statement seen from EXPLAIN *)
Definition stmt (c : t) : Stmt.t := match c with PLAN s => s | _ => Stmt.COMMAND end.
End Command.

(** what the statements ask of the current database *)
Class DbOps (W : Type) := {
  has_db : W → bool;
  find_table : W → string → option TableMeta.t;
  has_index : W → TableMeta.t → string → bool;
  table_indexes_of : W → TableMeta.t → list IndexMeta.t * list (list FieldMeta.t);
  all_tables : W → list string;
  readable_file : W → string → bool;
  db_create_table : string → list AttrInfo → ST W RC.t;
  db_drop_table : string → ST W RC.t;
  table_create_index : TableMeta.t → bool → list FieldMeta.t → string → ST W RC.t
}.

(** [Stmt::create_stmt] *)
Section create_stmt.
Context `{!LibText} `{!Uninit} (trx_fields : option (list FieldMeta.t)) {W : Type} `{!DbOps W} (w : W) (fuel : nat).
Abbreviation R := (ST (list SelectStmt) (RC.t + Command.t)).
Definition planned (r : RC.t + Stmt.t) : RC.t + Command.t := map_result Command.PLAN r.
Definition create_index_stmt (index_name relation_name : string) (attribute_names : list string) (unique : bool)
    : RC.t + Command.t :=
  if is_blank relation_name || is_blank index_name then inl RC.INVALID_ARGUMENT
  else
    match find_table w relation_name with
    | None => inl RC.SCHEMA_TABLE_NOT_EXIST
    | Some table =>
        if has_index w table index_name then inl RC.SCHEMA_INDEX_NAME_REPEAT
        else map_result (λ fields, Command.CREATE_INDEX table fields unique index_name) (find_fields table attribute_names)
    end.
Definition load_data_stmt (relation_name file_name : string) : RC.t + Command.t :=
  if is_blank relation_name || is_blank file_name then inl RC.INVALID_ARGUMENT
  else
    match find_table w relation_name with
    | None => inl RC.SCHEMA_TABLE_NOT_EXIST
    | Some table => if readable_file w file_name then inr (Command.LOAD_DATA table file_name) else inl RC.FILE_NOT_EXIST
    end.
Fixpoint create_stmt (sql_node : ParsedSqlNode) : R :=
  match sql_node with
  | SCF_INSERT table values_list =>
      r ← st_some (create_insert trx_fields (find_table w) table values_list); mret (planned r)
  | SCF_UPDATE table names exprs conditions =>
      r ← create_update trx_fields (find_table w) fuel table names exprs conditions; mret (planned r)
  | SCF_DELETE table conditions => r ← create_delete trx_fields (find_table w) fuel table conditions; mret (planned r)
  | SCF_SELECT selection =>
      s <-? create_select trx_fields (find_table w) fuel selection;; mret (inr (Command.PLAN (Stmt.SELECT s)))
  | SCF_EXPLAIN sql_node => c <-? create_stmt sql_node;; mret (inr (Command.PLAN (Stmt.EXPLAIN (Command.stmt c))))
  | SCF_CREATE_INDEX index_name relation_name names unique => mret (create_index_stmt index_name relation_name names unique)
  | SCF_SHOW_INDEX relation_name => mret (inr (Command.SHOW_INDEX relation_name))
  | SCF_CREATE_TABLE relation_name attr_infos => mret (inr (Command.CREATE_TABLE relation_name attr_infos))
  | SCF_DROP_TABLE relation_name => mret (inr (Command.DROP_TABLE relation_name))
  | SCF_DESC_TABLE relation_name =>
      mret (match find_table w relation_name with
            | None => inl RC.SCHEMA_TABLE_NOT_EXIST | Some _ => inr (Command.DESC_TABLE relation_name) end)
  | SCF_HELP => mret (inr Command.HELP)
  | SCF_SHOW_TABLES => mret (inr Command.SHOW_TABLES)
  | SCF_BEGIN => mret (inr Command.BEGIN)
  | SCF_COMMIT => mret (inr Command.COMMIT)
  | SCF_ROLLBACK => mret (inr Command.ROLLBACK)
  | SCF_EXIT => mret (inr Command.EXIT)
  | SCF_SET_VARIABLE name value => mret (inr (Command.SET_VARIABLE name value))
  | SCF_LOAD_DATA relation_name file_name => mret (load_data_stmt relation_name file_name)
  | SCF_CALC expressions => mret (inr (Command.PLAN (Stmt.CALC expressions)))
  | SCF_ERROR | SCF_OTHER => mret (inl RC.UNIMPLENMENT)
  end.
End create_stmt.

(** ** The operator of a result

    A plan, with the statements of its subqueries, or a list of a command. *)
Module Root.
Inductive t (P : Type) : Type :=
| PLAN (subqueries : list SelectStmt) (o : P)
| STRINGS (o : StringList.t)
| INDEXES (o : IndexList.t).
Arguments PLAN {P}.
Arguments STRINGS {P}.
Arguments INDEXES {P}.
Section ops.
Context `{!LibText} `{!Uninit} {W P : Type} (plan_ops : list SelectStmt → PhysOps W P).
Definition dispatch {A} (f : ∀ C, PhysOps W C → ST (W * C) A) : ST (W * t P) A :=
  λ '(w, o),
    match o with
    | PLAN l p => match f P (plan_ops l) (w, p) with
                  | Done (a, (w, p)) => Done (a, (w, PLAN l p)) | Crash => Crash | OutOfFuel => OutOfFuel end
    | STRINGS p => match f _ StringList.ops (w, p) with
                   | Done (a, (w, p)) => Done (a, (w, STRINGS p)) | Crash => Crash | OutOfFuel => OutOfFuel end
    | INDEXES p => match f _ IndexList.ops (w, p) with
                   | Done (a, (w, p)) => Done (a, (w, INDEXES p)) | Crash => Crash | OutOfFuel => OutOfFuel end
    end.
Definition current_tuple (o : t P) : outcome (option Tuple.t) :=
  match o with
  | PLAN l p => @oper_current _ _ (plan_ops l) p
  | STRINGS p => StringList.current_tuple p
  | INDEXES p => IndexList.current_tuple p
  end.
Definition ops : PhysOps W (t P) := {|
  oper_open := dispatch (λ _ O, oper_open);
  oper_next := dispatch (λ _ O, oper_next);
  oper_close := dispatch (λ _ O, oper_close);
  oper_current := current_tuple;
  oper_set_parent parent o :=
    match o with
    | PLAN l p => p ← @oper_set_parent _ _ (plan_ops l) parent p; Some (PLAN l p)
    | _ => Some o
    end |}.
End ops.
End Root.

Definition string_of (m : memory) : string :=
  string_of_list_ascii ((λ c, ascii_of_N (Z.to_N c)) <$> m).
(** the header cells [TupleCellSpec("", name, name)] and [TupleCellSpec(name)] *)
Definition named_cell (name : string) : TupleCellSpec := field_spec "" name (Some name).

(** ** LOAD DATA ([sql/executor/load_data_executor.cpp], [deps/common/lang/string.cpp]) *)
(** what loading asks of its surroundings: the bytes of a file, or why it is not opened; the
    insertion into a table, without a transaction, which is [Table.insert_record] ([table_loads]
    of NetTheorems.v); whether [>>] of a [float] that succeeds
    reads to the end; the seconds of a load as they are written *)
Class LoadOps (W : Type) := {
  file_data : W → string → memory + memory;
  table_insert_record : TableMeta.t → memory → ST W RC.t;
  float_to_end : memory → bool;
  cost_text : W → memory
}.
Module LoadData.
(** the pieces between delimiters: what [std::getline] reads one by one until the stream has
    ended, the last one perhaps empty *)
Fixpoint cut (delim : Z) (s : memory) : list memory :=
  match s with
  | [] => [[]]
  | c :: s =>
      if decide (c = delim) then [] :: cut delim s
      else match cut delim s with piece :: l => (c :: piece) :: l | [] => [[c]] end
  end.
(** [split_string], which drops what is empty *)
Definition split_string (delim : Z) (s : memory) : list memory := filter (λ piece, piece ≠ []) (cut delim s).
(** [strip(std::string &)]: a text of blanks alone is read before its beginning *)
Definition strip (s : memory) : option memory :=
  if forallb is_space s then None else Some (rev (skip_space (rev (skip_space s)))).
Definition type_number (type : AttrType) : Z :=
  match type with
  | UNDEFINED => 0 | CHARS => 1 | DATES => 2 | INTS => 3 | FLOATS => 4 | BOOLEANS => 5 | NULLS => 6 | TEXTS => 7
  end.

Section load.
Context `{!LibText} `{!Uninit} (trx_fields : option (list FieldMeta.t)).
Context {W : Type} {LO : LoadOps W} (malloc : nat → memory).
Abbreviation sys := (TableMeta.sys_field_num trx_fields).
(** the switch of [insert_record_from_file]: the value, or [errmsg] *)
Definition read_field (type : AttrType) (i : nat) (file_value : memory) (value : Value) : option (memory + Value) :=
  match type with
  | INTS =>
      Some (match scan_number file_value with
            | Some (n, []) => if decide (- 2 ^ 31 <= n < 2 ^ 31) then inr (Val.set_int n value)
                              else inl (text "need an integer but got '" ++ file_value ++ text "' (field index:" ++ show_int (Z.of_nat i) ++ text ")")
            | _ => inl (text "need an integer but got '" ++ file_value ++ text "' (field index:" ++ show_int (Z.of_nat i) ++ text ")")
            end)
  | FLOATS =>
      let error := inl (text "need a float number but got '" ++ file_value ++ text "'(field index:" ++ show_int (Z.of_nat i) ++ text ")") in
      Some (match stream_float file_value with
            | Some x => if float_to_end file_value then inr (Val.set_float x value) else error
            | None => error
            end)
  | CHARS => inr <$> Val.set_string (Val.c_str file_value) 0 value
  | DATES => date ← convert_string_to_date (Val.c_str file_value); Some (inr (Val.set_date date value))
  | _ => Some (inl (text "Unsupported field type to loading: " ++ show_int (type_number type)))
  end.
(** the loop over the fields *)
Fixpoint read_fields (m : TableMeta.t) (i : nat) (file_values : list memory) (record_values : list Value)
    : option (memory + list Value) :=
  match record_values, file_values with
  | [], _ => Some (inr [])
  | value :: record_values, file_value :: file_values =>
      field ← TableMeta.field m (i + sys);
      file_value ← (if decide (FieldMeta.type field ≠ CHARS) then strip file_value else Some file_value);
      r ← read_field (FieldMeta.type field) i file_value value;
      match r with
      | inl errmsg => Some (inl errmsg)
      | inr value =>
          r ← read_fields m (S i) file_values record_values;
          Some (match r with inl errmsg => inl errmsg | inr record_values => inr (value :: record_values) end)
      end
  | _ :: _, [] => None
  end.
(** the code and [errmsg], with [record_values], which the next line reuses: a line that
    fails is the last one *)
Definition insert_record_from_file (m : TableMeta.t) (k : nat) (file_values : list memory) (record_values : list Value)
    : ST W ((RC.t * memory) * list Value) :=
  if decide (length file_values < length record_values)%nat then mret ((RC.SCHEMA_FIELD_MISSING, []), record_values)
  else
    r ← st_some (read_fields m 0 file_values record_values);
    match r with
    | inl errmsg => mret ((RC.SCHEMA_FIELD_TYPE_MISMATCH, errmsg), record_values)
    | inr record_values =>
        r ← st_some (make_record trx_fields m record_values (malloc k));
        match r with
        | inl rc => mret ((rc, text "insert failed."), record_values)
        | inr data =>
            rc ← table_insert_record m data;
            mret ((rc, if decide (rc ≠ RC.SUCCESS) then text "insert failed." else []), record_values)
        end
    end.
(** the loop over the lines: the code, the text of an error, [line_num], [insertion_count] *)
Fixpoint load_lines (m : TableMeta.t) (lines : list memory) (record_values : list Value) (line_num insertion_count : nat)
    : ST W (RC.t * memory * (nat * nat)) :=
  match lines with
  | [] => mret (RC.SUCCESS, [], (line_num, insertion_count))
  | line :: lines =>
      let line_num := S line_num in
      if forallb is_space (c_prefix line) then load_lines m lines record_values line_num insertion_count
      else
        r ← insert_record_from_file m insertion_count (split_string 124 line) record_values;
        let '((rc, errmsg), record_values) := r in
        if decide (rc ≠ RC.SUCCESS) then
          mret (rc, text "Line:" ++ show_int (Z.of_nat line_num) ++ text " insert record failed:" ++ errmsg ++ text ". error:" ++
                    strrc rc ++ [10], (line_num, insertion_count))
        else load_lines m lines record_values line_num (S insertion_count)
  end.
Definition total_text (line_num insertion_count : nat) (cost : memory) : memory :=
  strrc RC.SUCCESS ++ text ". total " ++ show_int (Z.of_nat line_num) ++ text " line(s) handled and " ++
  show_int (Z.of_nat insertion_count) ++ text " record(s) loaded, total cost " ++ cost ++ text " second(s)" ++ [10].
(** [load_data]: the code and the text of the result *)
Definition load_data (m : TableMeta.t) (file_name : string) : ST W (RC.t * memory) :=
  w ← st_get;
  match file_data w file_name with
  | inl error => mret (RC.FILE_NOT_EXIST, text "Failed to open file: " ++ text file_name ++ text ". system error=" ++ error ++ [10])
  | inr content =>
      r ← load_lines m (cut 10 content) (replicate (TableMeta.field_num m - sys) Val.new) 0 0;
      let '(rc, result, (line_num, insertion_count)) := r in
      w ← st_get;
      mret (RC.SUCCESS, if decide (rc = RC.SUCCESS) then total_text line_num insertion_count (cost_text w) else result)
  end.
End load.
End LoadData.

Section stages.
Context `{!LibText} `{!Uninit} (trx_fields : option (list FieldMeta.t)).
Context {W P : Type} (plan_ops : list SelectStmt → PhysOps W P) `{!TrxEnds W} `{!DbOps W} `{!LoadOps W} (fuel : nat).
Context (malloc : nat → memory) (parse : memory → list ParsedSqlNode) (plan_of : Stmt.t → outcome (RC.t + option P)).
Context (expr_name : Expr.t → string).
Abbreviation M := (ST (W * SessionEvent.t (Root.t P))).
#[local] Instance root_ops : PhysOps W (Root.t P) := Root.ops plan_ops.

Definition set_request (f : SessionEvent.t (Root.t P) → SessionEvent.t (Root.t P)) : M () := set_state f.
Definition get_world : M W := λ '(w, e), Done (w, (w, e)).
Definition set_result (schema : list TupleCellSpec) (o : Root.t P) : M () :=
  set_request (SessionEvent.set_tuple_schema schema) ;;; SqlResult.set_operator o.

(** ** The commands ([sql/executor]) *)
Definition help_strings : list (list string) :=
  [["show tables;"]; ["desc `table name`;"];
   ["create table `table name` (`column name` `column type`, ...);"];
   ["create index `index name` on `table` (`column`);"];
   ["insert into `table` values(`value1`,`value2`);"];
   ["update `table` set column=value [where `column`=`value`];"];
   ["delete from `table` [where `column`=`value`];"];
   ["select [ * | `columns` ] from `table`;"]]%string.
Definition strings (l : list (list string)) : Root.t P := Root.STRINGS (StringList.mk l 0 false).
Definition help : M RC.t := set_result [alias_spec "Commands"] (strings help_strings) ;;; mret RC.SUCCESS.
Definition show_tables : M RC.t :=
  w ← get_world;
  set_result [named_cell "Tables_in_SYS"] (strings ((λ s, [s]) <$> all_tables w)) ;;; mret RC.SUCCESS.
Definition desc_table (table_name : string) : M RC.t :=
  w ← get_world;
  match find_table w table_name with
  | Some table =>
      set_result [named_cell "Field"; named_cell "Type"; named_cell "Length"]
        (strings ((λ f, [FieldMeta.name f; attr_type_to_string (FieldMeta.type f); string_of (show_int (FieldMeta.len f))])
                  <$> TableMeta.user_fields trx_fields table)) ;;;
      mret RC.SUCCESS
  | None =>
      set_request (SessionEvent.set_return_code RC.SCHEMA_TABLE_NOT_EXIST) ;;;
      set_request (SessionEvent.set_state_string (text "Table not exists")) ;;;
      mret RC.SUCCESS
  end.
Definition show_index (table_name : string) : M RC.t :=
  w ← get_world;
  match find_table w table_name with
  | None => mret RC.FAILURE
  | Some table =>
      let '(indexes, fields) := table_indexes_of w table in
      set_result [alias_spec "Table"; alias_spec "Non_unique"; alias_spec "Key_name"; alias_spec "Seq_in_index"; alias_spec "Column_name"]
        (Root.INDEXES (IndexList.make table_name indexes fields)) ;;;
      mret RC.SUCCESS
  end.
Definition trx_begin : M RC.t :=
  set_request (SessionEvent.set_session (Session.set_trx_multi_operation_mode true)) ;;;
  SqlResult.on_world start_if_need.
Definition trx_end (c : ST W RC.t) : M RC.t :=
  set_request (SessionEvent.set_session (Session.set_trx_multi_operation_mode false)) ;;; SqlResult.on_world c.
(** [SetVariableExecutor]: the code of a variable that does not exist is not returned.  A
    variable without a branch keeps [bool_value]. *)
Definition lower (s : memory) : memory := (λ c, if decide (65 <= c <= 90) then c + 32 else c) <$> c_prefix s.
Definition one_of (s : memory) (l : list string) : bool := existsb (λ x, bool_decide (lower s = text x)) l.
Definition var_value_to_boolean (v : Value) : option (RC.t + bool) :=
  match attr_type_ v with
  | BOOLEANS => b ← Val.get_boolean v; Some (inr b)
  | INTS => n ← Val.get_int v; Some (inr (bool_decide (n ≠ 0)))
  | FLOATS => f ← Val.get_float v; Some (inr (float_nonzero f))
  | CHARS =>
      s ← Val.to_string v;
      Some (if one_of s ["true"; "on"; "yes"; "t"; "1"]%string then inr true
            else if one_of s ["false"; "off"; "no"; "f"; "0"]%string then inr false
            else inl RC.VARIABLE_NOT_VALID)
  | _ => Some (inr false)
  end.
Definition set_variable (var_name : string) (var_value : Value) : M RC.t :=
  if strcasecmp_eq var_name "sql_debug" then
    r ← st_some (var_value_to_boolean var_value);
    match r with
    | inl rc => mret rc
    | inr b => set_request (SessionEvent.set_session (Session.set_sql_debug b)) ;;; mret RC.SUCCESS
    end
  else mret RC.SUCCESS.
(** [LoadDataExecutor::execute] *)
Definition load_data (table : TableMeta.t) (file_name : string) : M RC.t :=
  r ← SqlResult.on_world (LoadData.load_data trx_fields malloc table file_name);
  let '(rc, result) := r in
  set_request (SessionEvent.set_return_code rc) ;;;
  set_request (SessionEvent.set_state_string result) ;;;
  mret RC.SUCCESS.
(** [CommandExecutor::execute] *)
Definition execute_command (c : Command.t) : M RC.t :=
  match c with
  | Command.CREATE_INDEX table fields unique name => SqlResult.on_world (table_create_index table unique fields name)
  | Command.CREATE_TABLE name attrs => SqlResult.on_world (db_create_table name attrs)
  | Command.DROP_TABLE name => SqlResult.on_world (db_drop_table name)
  | Command.DESC_TABLE name => desc_table name
  | Command.HELP => help
  | Command.SHOW_TABLES => show_tables
  | Command.SHOW_INDEX name => show_index name
  | Command.BEGIN => trx_begin
  | Command.COMMIT => trx_end commit
  | Command.ROLLBACK => trx_end rollback
  | Command.SET_VARIABLE name value => set_variable name value
  | Command.LOAD_DATA table file => load_data table file
  | Command.EXIT => mret RC.SUCCESS
  | Command.PLAN _ => mret RC.UNIMPLENMENT
  end.

(** ** The stages *)
(** [ParseStage]: the first node *)
Definition parse_stage : M (RC.t + ParsedSqlNode) :=
  e ← get_state;
  match parse (SessionEvent.query_ e) with
  | [] =>
      set_request (SessionEvent.set_return_code RC.SUCCESS) ;;;
      set_request (SessionEvent.set_state_string []) ;;;
      mret (inl RC.INTERNAL)
  | SCF_ERROR :: _ => set_request (SessionEvent.set_return_code RC.SQL_SYNTAX) ;;; mret (inl RC.SQL_SYNTAX)
  | sql_node :: _ => mret (inr sql_node)
  end.
(** [ResolveStage]: the statement, with those of its subqueries *)
Definition resolve_stage (sql_node : ParsedSqlNode) : M (RC.t + Command.t * list SelectStmt) :=
  w ← get_world;
  if negb (has_db w) then
    set_request (SessionEvent.set_return_code RC.SCHEMA_DB_NOT_EXIST) ;;;
    set_request (SessionEvent.set_state_string (text "no db selected")) ;;;
    mret (inl RC.SCHEMA_DB_NOT_EXIST)
  else
    r ← lift_outcome (create_stmt trx_fields w fuel sql_node []);
    match r with
    | (inl rc, _) =>
        (if decide (rc ≠ RC.UNIMPLENMENT) then set_request (SessionEvent.set_return_code rc) else mret ()) ;;;
        mret (inl rc)
    | (inr c, subqueries) => mret (inr (c, subqueries))
    end.
(** [OptimizeStage]: [rc], and the plan if one was made *)
Definition optimize_stage (c : Command.t) : M (RC.t + option P) := lift_outcome (plan_of (Command.stmt c)).
(** [handle_request_with_physical_operator] *)
Definition result_schema (c : Command.t) : list TupleCellSpec :=
  match c with
  | Command.PLAN (Stmt.SELECT s) => (λ e, alias_spec (expr_name e)) <$> expressions_ s
  | Command.PLAN (Stmt.CALC l) => (λ e, alias_spec (expr_name e)) <$> l
  | Command.PLAN (Stmt.EXPLAIN _) => [alias_spec "Query Plan"]
  | _ => []
  end.
Definition execute_stage (c : Command.t) (subqueries : list SelectStmt) (p : option P) : M RC.t :=
  match p with
  | Some p => set_result (result_schema c) (Root.PLAN subqueries p) ;;; mret RC.SUCCESS
  | None => rc ← execute_command c; set_request (SessionEvent.set_return_code rc) ;;; mret rc
  end.
(** [SessionStage::handle_sql] *)
Definition handle_sql : M RC.t :=
  sql_node <-? parse_stage;;
  r <-? resolve_stage sql_node;;
  let '(c, subqueries) := r in
  p ← optimize_stage c;
  match p with
  | inl rc => if decide (rc ≠ RC.UNIMPLENMENT) then mret rc else execute_stage c subqueries None
  | inr p => execute_stage c subqueries p
  end.
End stages.

(** [SessionStage::handle_request]: [None] for a blank query, which is not answered *)
Definition handle_request {W C N : Type} (handle_sql : ST (W * SessionEvent.t C) RC.t)
    (write_result : ST ((W * SessionEvent.t C) * (N * BufferedWriter.t)) (RC.t * bool))
    : ST ((W * SessionEvent.t C) * (N * BufferedWriter.t)) (option (RC.t * bool)) :=
  e ← get_event;
  if forallb is_space (c_prefix (SessionEvent.query_ e)) then mret None
  else on_fst handle_sql ;;; r ← write_result; mret (Some r).
