(* ===== verification/SessionCorrect.v ===== *)
(** * Requests through the stages

    What [handle_sql] leaves in the request, branch by branch, and a SELECT from its text to
    the bytes of its answer.  LOAD DATA reads back what was written line by line. *)
From S2P Require Import Prelude RidKey Comparator Bitmap TableMeta SqlValue Row Expr Rewrite Operators IndexScan OrderScan.
From S2P Require Import PlanGen Resolve PlanExec TrxKit NetBuffer SqlResult PlainCommunicator SessionStage.
From S2P Require Import SqlValueCorrect RowCorrect OperatorsCorrect OrderCorrect ScanCorrect AggregateCorrect PlanCorrect PlainCorrect.
From Stdlib Require Import ZArith Lia Ascii String.
From stdpp Require Import base option strings list.
Import BufferedWriterCorrect SessionEvent.
Local Open Scope Z_scope.

(** ** The operator of a result gives what its plan gives *)
Section root.
Context `{!LibText} `{!Uninit} {W P : Type} (plan_ops : list SelectStmt → PhysOps W P) (l : list SelectStmt) (w : W).
Abbreviation OR := (Root.ops plan_ops).
Lemma root_done {A} (f : ∀ C, PhysOps W C → ST (W * C) A) w1 w2 p p' a :
  f P (plan_ops l) (w1, p) = Done (a, (w2, p')) →
  Root.dispatch plan_ops f (w1, Root.PLAN l p) = Done (a, (w2, Root.PLAN l p')).
Proof. intros Hf. cbn. by rewrite Hf. Qed.
Lemma root_closes p : closes (plan_ops l) w p → closes OR w (Root.PLAN l p).
Proof. intros (p' & Hp). exists (Root.PLAN l p'). by apply root_done. Qed.
Lemma root_yields p rows :
  yields (plan_ops l) w (closes (plan_ops l) w) p rows → yields OR w (closes OR w) (Root.PLAN l p) rows.
Proof.
  induction 1 as [p p' Hn Hcl|p p' tuple rows Hn Hcur Hcl Hy IH].
  - eapply yields_nil; [by apply (root_done (λ _ O, oper_next))|by apply root_closes].
  - eapply yields_cons; [by apply (root_done (λ _ O, oper_next))|exact Hcur|by apply root_closes|exact IH].
Qed.
End root.

Section stages.
Context `{LT : !LibText} `{UN : !Uninit} (trx_fields : option (list FieldMeta.t)).
Context {W P : Type} (plan_ops : list SelectStmt → PhysOps W P) {TE : TrxEnds W} {DB : DbOps W} {LO : LoadOps W} (fuel : nat).
Context (malloc : nat → memory) (parse : memory → list ParsedSqlNode) (plan_of : Stmt.t → outcome (RC.t + option P)).
Context (expr_name : Expr.t → string).
Implicit Types (e : SessionEvent.t (Root.t P)) (w : W).
Abbreviation handle_sql := (handle_sql trx_fields fuel malloc parse plan_of expr_name).

(** the parser and the resolver succeed *)
Definition resolves w e (c : Command.t) (subqueries : list SelectStmt) : Prop :=
  ∃ node nodes, parse (query_ e) = node :: nodes ∧ node ≠ SCF_ERROR ∧ has_db w = true ∧
    create_stmt trx_fields w fuel node [] = Done (inr c, subqueries).
Lemma handle_sql_resolved w e c subqueries :
  resolves w e c subqueries →
  handle_sql (w, e) =
    (p ← optimize_stage plan_of c;
     match p with
     | inl rc => if decide (rc ≠ RC.UNIMPLENMENT) then mret rc else execute_stage trx_fields malloc expr_name c subqueries None
     | inr p => execute_stage trx_fields malloc expr_name c subqueries p
     end) (w, e).
Proof.
  intros (node & nodes & Hp & Hne & Hdb & Hc). unfold SessionStage.handle_sql, parse_stage.
  unfold mbind at 1, ST_bind at 1. rewrite bind_get, Hp.
  assert (∀ (x : ST (W * SessionEvent.t (Root.t P)) (RC.t + ParsedSqlNode)),
    match node with SCF_ERROR => x | _ => mret (inr node) end = mret (inr node)) as E by (intros x; by destruct node).
  destruct node; try done; cbn [mret ST_ret];
    unfold resolve_stage, mbind at 1, ST_bind at 1, get_world, mbind at 1, ST_bind at 1; rewrite Hdb; cbn [negb];
    unfold mbind at 1, ST_bind at 1, lift_outcome; rewrite Hc; cbn [mret ST_ret]; done.
Qed.
(** a statement with a plan: its operator and its header are left in the request *)
Lemma handle_sql_plan w e s subqueries p :
  resolves w e (Command.PLAN s) subqueries → plan_of s = Done (inr (Some p)) → operator_ e = None →
  handle_sql (w, e) =
    Done (RC.SUCCESS, (w, put_operator (Some (Root.PLAN subqueries p))
                            (set_tuple_schema (result_schema expr_name (Command.PLAN s)) e))).
Proof.
  intros Hr Hp Ho. rewrite (handle_sql_resolved w e _ _ Hr). unfold optimize_stage, mbind at 1, ST_bind at 1, lift_outcome.
  cbn [Command.stmt]. rewrite Hp. unfold execute_stage, set_result, set_request, SqlResult.set_operator, SqlResult.has_operator.
  destruct e. cbn in Ho. by subst.
Qed.
(** A plan that cannot be made leaves the request as it was. *)
Lemma handle_sql_no_plan w e c subqueries rc :
  resolves w e c subqueries → plan_of (Command.stmt c) = Done (inl rc) → rc ≠ RC.UNIMPLENMENT →
  handle_sql (w, e) = Done (rc, (w, e)).
Proof.
  intros Hr Hp Hrc. rewrite (handle_sql_resolved w e _ _ Hr). unfold optimize_stage, mbind at 1, ST_bind at 1, lift_outcome.
  rewrite Hp. by destruct (decide (rc ≠ RC.UNIMPLENMENT)).
Qed.
(** the parser or the resolver refuses the query *)
Inductive refused w e : RC.t → Prop :=
| refused_parser nodes : parse (query_ e) = SCF_ERROR :: nodes → refused w e RC.SQL_SYNTAX
| refused_resolver node nodes subqueries rc :
    parse (query_ e) = node :: nodes → node ≠ SCF_ERROR → has_db w = true →
    create_stmt trx_fields w fuel node [] = Done (inl rc, subqueries) → rc ≠ RC.UNIMPLENMENT → refused w e rc.
Lemma handle_sql_refused w e rc : refused w e rc → handle_sql (w, e) = Done (rc, (w, set_return_code rc e)).
Proof.
  intros [nodes Hp|node nodes subqueries rc' Hp Hne Hdb Hc Hrc].
  - unfold SessionStage.handle_sql, parse_stage. unfold mbind at 1, ST_bind at 1. by rewrite bind_get, Hp.
  - unfold SessionStage.handle_sql, parse_stage. unfold mbind at 1, ST_bind at 1. rewrite bind_get, Hp.
    destruct node; try done; cbn [mret ST_ret];
      unfold resolve_stage, mbind at 1, ST_bind at 1, get_world, mbind at 1, ST_bind at 1; rewrite Hdb; cbn [negb];
      unfold mbind at 1, ST_bind at 1, lift_outcome; rewrite Hc; cbn [mret ST_ret];
      by destruct (decide (rc' ≠ RC.UNIMPLENMENT)).
Qed.
End stages.

(** ** A request over the text protocol *)
Section requests.
Context `{LT : !LibText} `{UN : !Uninit} (trx_fields : option (list FieldMeta.t)).
Context {W C N : Type} {O : PhysOps W C} {TE : TrxEnds W} {OW : OsWrite N} {OL : OsWriteLaws N} (fuel : nat).
Context (fd cap : Z) (Hreliable : ¬ fails (W := N)).
Implicit Types (s : (W * SessionEvent.t C) * (N * BufferedWriter.t)).
Definition debug_text (e : SessionEvent.t C) : memory :=
  concat (debug_line <$> (if Session.sql_debug_ (session_ e) then debug_infos_ e else [])).
Lemma handle_request_ok handle_sql delimiter w e rc w1 e1 answer w2 e2 s (Q : option (RC.t * bool) → _ → Prop) :
  forallb is_space (c_prefix (query_ e)) = false → handle_sql (w, e) = Done (rc, (w1, e1)) →
  answers trx_fields fuel w1 e1 answer w2 e2 → s.1 = (w, e) → alive fuel fd cap s → (2047 <= fuel)%nat →
  fits fuel (debug_infos_ e2) → (length delimiter <= fuel)%nat →
  (∀ s', s'.1 = (w2, e2) → sent fd s'.2.1 = out s ++ answer ++ debug_text e2 ++ delimiter → Q (Some (RC.SUCCESS, false)) s') →
  wp (handle_request handle_sql (PlainCommunicator.write_result trx_fields fuel delimiter)) s Q.
Proof.
  intros Hq Hsql Hans Hs Ha Hf Hi Hd HQ. unfold handle_request. apply wp_bind, get_event_ok. rewrite Hs. cbn [snd].
  rewrite Hq. apply wp_bind. eapply (on_event_ok (C := C)); [rewrite Hs; exact Hsql|exact Ha|]. intros s1 Ha1 He1 Ho1.
  apply wp_bind. eapply write_result_ok; [done|exact Hans|exact He1|exact Ha1|done|done|done|].
  intros s2 Ha2 He2 Ho2. apply wp_ret, HQ; [done|]. by rewrite Ho2, Ho1.
Qed.
End requests.

(** ** LOAD DATA reads back what is written *)
(** a line from its pieces, and a file from its lines *)
Fixpoint join_with (delim : Z) (l : list memory) : memory :=
  match l with [] => [] | [s] => s | s :: l => s ++ delim :: join_with delim l end.
Definition file_text (lines : list (list memory)) : memory := concat (fmap (λ ss, join_with 124 ss ++ [10]) lines).
Section cut.
Import LoadData.
Implicit Types s t : memory.
Lemma cut_end d s : d ∉ s → cut d s = [s].
Proof.
  induction s as [|c s IH]; intros Hd; [done|]. apply not_elem_of_cons in Hd as [Hc Hd]. cbn.
  rewrite decide_False by done. by rewrite IH.
Qed.
Lemma cut_app d s t : d ∉ s → cut d (s ++ d :: t) = s :: cut d t.
Proof.
  induction s as [|c s IH]; intros Hd; cbn; [by rewrite decide_True|]. apply not_elem_of_cons in Hd as [Hc Hd].
  rewrite decide_False by done. by rewrite IH.
Qed.
Lemma cut_join d l : Forall (λ s, d ∉ s) l → l ≠ [] → cut d (join_with d l) = l.
Proof.
  induction 1 as [|s l Hs Hl IH]; [done|]. intros _. destruct l as [|s' l]; [by apply cut_end|].
  change (join_with d (s :: s' :: l)) with (s ++ d :: join_with d (s' :: l)). by rewrite cut_app, IH.
Qed.
Lemma split_join d l : Forall (λ s, (d ∉ s) ∧ s ≠ []) l → l ≠ [] → split_string d (join_with d l) = l.
Proof.
  intros Hl Hne. unfold split_string. rewrite cut_join; [|by eapply Forall_impl; [exact Hl|intros ? []]|done].
  apply filter_all. intros s Hs. rewrite Forall_forall in Hl. by apply Hl in Hs as [].
Qed.
Lemma cut_file lines t :
  Forall (λ ss, 10 ∉ join_with 124 ss) lines → cut 10 (file_text lines ++ t) = (join_with 124 <$> lines) ++ cut 10 t.
Proof.
  induction 1 as [|ss lines Hs Hl IH]; [done|]. unfold file_text in *. cbn. rewrite <-!app_assoc. cbn.
  rewrite cut_app by done. by rewrite IH.
Qed.
Lemma join_forall (P : Z → Prop) d l : P d → Forall (Forall P) l → Forall P (join_with d l).
Proof.
  intros Hd. induction 1 as [|s l Hs Hl IH]; [done|]. destruct l as [|s' l]; [done|].
  change (join_with d (s :: s' :: l)) with (s ++ d :: join_with d (s' :: l)). apply Forall_app. split; [done|]. by constructor.
Qed.
Lemma skip_space_word s : Forall (λ c, is_space c = false) s → skip_space s = s.
Proof. destruct 1 as [|c s Hc]; [done|]. cbn. by rewrite Hc. Qed.
Lemma strip_word s : Forall (λ c, is_space c = false) s → s ≠ [] → strip s = Some s.
Proof.
  intros Hs Hne. unfold strip. destruct (forallb is_space s) eqn:E.
  { destruct Hs as [|c s Hc]; [done|]. cbn in E. by rewrite Hc in E. }
  rewrite (skip_space_word s Hs), (skip_space_word (rev s)); [by rewrite rev_involutive|]. by apply Forall_rev.
Qed.
End cut.

Section load.
Context `{LT : !LibText} `{UN : !Uninit} (trx_fields : option (list FieldMeta.t)).
Context {W : Type} {LO : LoadOps W} (malloc : nat → memory) (m : TableMeta.t) (Hm : meta_wf trx_fields m).
Import LoadData.
Implicit Types (w : W) (f : FieldMeta.t) (v : Value) (s : memory).
Abbreviation user := (TableMeta.user_fields trx_fields m).

(** [s] is a text of the value [v] of the field [f], which is not null: it is not empty, has
    no delimiter, and blanks in strings alone *)
Definition plain_text s : Prop := Forall (λ c, c ≠ 0 ∧ c ≠ 10 ∧ c ≠ 124) s ∧ s ≠ [].
Definition dumps f v s : Prop :=
  field_ok f ∧ value_wf v ∧ attr_type_ v = FieldMeta.type f ∧ plain_text s ∧
  (FieldMeta.type f ≠ CHARS → Forall (λ c, is_space c = false) s) ∧
  match FieldMeta.type f with
  | CHARS | INTS => Val.to_string v = Some s
  | DATES => Val.to_string v = Some s ∧ ∃ y mo d, calendar y mo d ∧ num_value_ v = store32 (encode_date y mo d)
  | FLOATS => ∃ x, stream_float s = Some x ∧ float_to_end s = true ∧ num_value_ v = store_float x
  | _ => False
  end.
(** what is read back of it *)
Definition same f v v' : Prop :=
  value_wf v' ∧ attr_type_ v' = FieldMeta.type f ∧ FieldMeta.type f ≠ NULLS ∧ field_ok f ∧ attr_type_ v = FieldMeta.type f ∧
  match FieldMeta.type f with
  | CHARS => str_value_ v' = str_value_ v
  | _ => FieldMeta.type f ≠ TEXTS ∧ num_value_ v' = num_value_ v
  end.
Lemma plain_no s c : plain_text s → c = 0 ∨ c = 10 ∨ c = 124 → c ∉ s.
Proof. intros [Hs _] Hc Hin. rewrite Forall_forall in Hs. apply Hs in Hin. lia. Qed.
Lemma plain_some s : plain_text s → s ≠ [].
Proof. by intros []. Qed.
Lemma number_wf ty n (num str : memory) : bytes4 num → ty ≠ CHARS → ty ≠ TEXTS → value_wf (MkValue ty n num str).
Proof. intros ? ? ?. split; [done|]. by intros [?|?]. Qed.
Lemma load32_is_int32 (x : memory) y : bytes4 x → load32 x = Some y → is_int32 (int32 y).
Proof.
  intros [Hl Hb] Hx. destruct x as [|a [|b [|c [|d [|]]]]]; try done. cbn in Hx. injection Hx as <-.
  rewrite !Z.shiftl_mul_pow2 by lia. rewrite !Forall_cons in Hb. unfold Bitmap.byte_ok in Hb.
  unfold int32, is_int32. case_decide; lia.
Qed.
Lemma read_field_ok f v s v0 i :
  dumps f v s → bytes4 (num_value_ v0) →
  (if decide (FieldMeta.type f ≠ CHARS) then strip s else Some s) = Some s ∧
  ∃ v', read_field (FieldMeta.type f) i s v0 = Some (inr v') ∧ same f v v'.
Proof.
  intros (Hf & [Hnum Hstr] & Ht & Hp & Hsp & Hd) Hv0. split.
  { case_decide; [|done]. apply strip_word; [auto|by apply plain_some]. }
  unfold same, read_field. destruct (FieldMeta.type f) eqn:Ety; try done; unfold Val.to_string in *; rewrite ?Ht in *.
  - injection Hd as Hd. rewrite Hd in Hstr. destruct Hstr as [Hnn _]; [auto|]. rewrite set_string_c_str by done.
    eexists. split; [done|]. split_and!; [|done..]. split; [done|]. by intros _.
  - destruct Hd as [Hts (y & mo & d & Hc & Hn)]. rewrite Hn in Hts.
    assert (load_int (store32 (encode_date y mo d)) = Some (encode_date y mo d)) as E.
    { rewrite <-(app_nil_r (store32 _)). by apply load_int_store32, encode_date_int32. }
    rewrite E in Hts. injection Hts as <-. rewrite date_text by done. eexists. split; [done|].
    split; [apply number_wf; [apply store32_bytes4|done..]|done].
  - destruct (load_int (num_value_ v)) as [n|] eqn:En; [|done]. injection Hd as <-.
    unfold load_int in En. destruct (load32 (num_value_ v)) as [n'|] eqn:El; [|done]. injection En as <-.
    assert (is_int32 (int32 n')) as Hi by exact (load32_is_int32 _ _ Hnum El).
    pose proof (scan_show_int (int32 n') [] Hi ltac:(done)) as Hscan. rewrite app_nil_r in Hscan. rewrite Hscan.
    rewrite decide_True by exact Hi. eexists. split; [done|].
    split; [apply number_wf; [apply store32_bytes4|done..]|]. split_and!; try done. cbn. by apply store_load32.
  - destruct Hd as (x & -> & -> & Hn). eexists. split; [done|].
    split; [apply number_wf; [apply store32_bytes4|done..]|done].
Qed.

(** ** A line *)
Inductive row_dumps : list FieldMeta.t → list Value → list memory → Prop :=
| row_dumps_nil : row_dumps [] [] []
| row_dumps_cons f v s fs vs ss : dumps f v s → row_dumps fs vs ss → row_dumps (f :: fs) (v :: vs) (s :: ss).
(** a row and the texts of a line that is not blank *)
Definition line_dumps (fs : list FieldMeta.t) (vs : list Value) (ss : list memory) : Prop :=
  row_dumps fs vs ss ∧ forallb is_space (join_with 124 ss) = false.
Inductive row_same : list FieldMeta.t → list Value → list Value → Prop :=
| row_same_nil : row_same [] [] []
| row_same_cons f v v' fs vs vs' : same f v v' → row_same fs vs vs' → row_same (f :: fs) (v :: vs) (v' :: vs').
(** the values that lines reuse *)
Definition reused (n : nat) (vs : list Value) : Prop := length vs = n ∧ Forall (λ v, bytes4 (num_value_ v)) vs.
Lemma row_dumps_length fs vs ss : row_dumps fs vs ss → length ss = length fs ∧ length vs = length fs.
Proof. induction 1 as [|f v s fs vs ss Hd H [IH1 IH2]]; cbn; lia. Qed.
Lemma row_dumps_plain fs vs ss : row_dumps fs vs ss → Forall plain_text ss.
Proof. induction 1 as [|f v s fs vs ss (_ & _ & _ & Hp & _) H IH]; by constructor. Qed.
Lemma row_same_lookup fs vs vs' :
  row_same fs vs vs' → length vs = length fs ∧ length vs' = length fs ∧
  ∀ k f, fs !! k = Some f → ∃ v v', vs !! k = Some v ∧ vs' !! k = Some v' ∧ same f v v'.
Proof.
  induction 1 as [|f v v' fs vs vs' Hs H (IH1 & IH2 & IH)]; [done|]. cbn. split_and!; [lia|lia|].
  intros [|k] g Hg; [|by apply IH]. cbn in Hg. simplify_eq. by exists v, v'.
Qed.
Lemma row_same_reused fs vs vs' : row_same fs vs vs' → reused (length fs) vs'.
Proof.
  induction 1 as [|f v v' fs vs vs' Hs H [IH1 IH2]]; [by split|]. destruct Hs as [[Hn _] _].
  split; [cbn; lia|]. by constructor.
Qed.
Lemma read_fields_ok fs vs ss i rv :
  row_dumps fs vs ss → drop (i + TableMeta.sys_field_num trx_fields) (TableMeta.fields m) = fs → reused (length fs) rv →
  ∃ vs', read_fields trx_fields m i ss rv = Some (inr vs') ∧ row_same fs vs vs'.
Proof.
  intros H. revert i rv. induction H as [|f v s fs vs ss Hd H IH]; intros i rv Hfs [Hl Hrv].
  { destruct rv; [|done]. exists []. split; [done|constructor]. }
  destruct rv as [|v0 rv]; [done|]. apply Forall_cons in Hrv as [Hv0 Hrv]. injection Hl as Hl. cbn [read_fields].
  assert (TableMeta.field m (i + TableMeta.sys_field_num trx_fields) = Some f) as ->.
  { unfold TableMeta.field. rewrite <-(Nat.add_0_r (i + _)), <-lookup_drop. by rewrite Hfs. }
  cbn [mbind option_bind]. destruct (read_field_ok f v s v0 i Hd Hv0) as (-> & v' & Hr & Hs).
  cbn [mbind option_bind]. rewrite Hr. cbn [mbind option_bind].
  destruct (IH (S i) rv) as (vs' & -> & Hsame); [|done|].
  - replace (S i + TableMeta.sys_field_num trx_fields)%nat with ((i + TableMeta.sys_field_num trx_fields) + 1)%nat by lia.
    by rewrite <-drop_drop, Hfs.
  - eexists. split; [done|]. by constructor.
Qed.

(** the record shows the values *)
Definition row_shows (vs : list Value) (data : memory) : Prop :=
  record_ok m data ∧ ∀ rid cell k v f, vs !! k = Some v → user !! k = Some f →
    ∃ c, cell_at trx_fields (MkRowTuple (rid, data) m (TableMeta.fields m))
           (Z.of_nat (TableMeta.sys_field_num trx_fields + k)) cell = Some (RC.SUCCESS, c) ∧ stored_as f v c.
Lemma type_cast_same v : Val.type_cast (attr_type_ v) v = Some (true, v).
Proof. unfold Val.type_cast. by rewrite decide_True. Qed.
Lemma same_castable f v v' : same f v v' → castable f v'.
Proof.
  intros (Hwf & Ht & Hn & Hf & _). unfold castable. rewrite <-Ht, type_cast_same. split_and!; [done|done| |by eexists].
  by intros ->.
Qed.
Lemma same_not_null f v v' : same f v v' → Val.is_null v' = false ∧ Val.is_null v = false.
Proof. intros (_ & Ht & Hn & _ & Htv & _). unfold Val.is_null. rewrite Ht, Htv. split; by apply bool_decide_eq_false_2. Qed.
Lemma record_of_row k vs vs' :
  row_same user vs vs' → record_ok m (malloc k) →
  ∃ data, make_record trx_fields m vs' (malloc k) = Some (inr data) ∧ row_shows vs data.
Proof.
  intros Hsame Hg. destruct (row_same_lookup _ _ _ Hsame) as (Hl & Hl' & Hlook).
  assert (∀ k v f, vs' !! k = Some v → user !! k = Some f → castable f v) as Hcast.
  { intros j v f Hv Hf. destruct (Hlook j f Hf) as (v0 & v' & _ & Hv' & Hs). simplify_eq. by eapply same_castable. }
  destruct (make_record trx_fields m vs' (malloc k)) as [[rc|data]|] eqn:E.
  - exfalso. destruct (make_record_spec _ _ trx_fields m vs' (malloc k) (RID.mk 0 0) Val.new Hm Hg Hcast) as (r & Hr & Hspec).
    rewrite E in Hr. injection Hr as <-. destruct Hspec as [[_ Hne]|(j & v & f & Hv & Hf & Href)]; [by rewrite Hl' in Hne|].
    destruct (Hlook j f Hf) as (v0 & v' & _ & Hv' & Hs). simplify_eq. unfold refuses in Href.
    destruct (same_not_null _ _ _ Hs) as [Hnull _]. rewrite Hnull in Href. destruct Href as [[v' Href] _].
    destruct Hs as (_ & Ht & _). rewrite <-Ht, type_cast_same in Href. by injection Href.
  - exists data. split; [done|]. split.
    { destruct (make_record_spec _ _ trx_fields m vs' (malloc k) (RID.mk 0 0) Val.new Hm Hg Hcast) as (r & Hr & Hspec).
      rewrite E in Hr. injection Hr as <-. by destruct Hspec. }
    intros rid cell j v f Hv Hf.
    destruct (make_record_spec _ _ trx_fields m vs' (malloc k) rid cell Hm Hg Hcast) as (r & Hr & Hspec).
    rewrite E in Hr. injection Hr as <-. destruct Hspec as (_ & _ & Hcell).
    destruct (Hlook j f Hf) as (v0 & v' & Hv0 & Hv' & Hs). simplify_eq.
    destruct (Hcell j v' f Hv' Hf) as (v'' & c & Hconv & Hst & Hc). exists c. split; [done|].
    destruct (same_not_null _ _ _ Hs) as [Hn' Hn]. destruct Hs as (_ & Ht & _ & Hok & _ & Heq). unfold converts in Hconv.
    rewrite Hn' in Hconv. rewrite <-Ht, type_cast_same in Hconv. injection Hconv as <-. unfold stored_as in *.
    rewrite Hn' in Hst. rewrite Hn. destruct Hst as [Hct Hst]. split; [done|].
    destruct (FieldMeta.type f); first [by rewrite <-Heq|destruct Heq as [? Heq]; done || by rewrite <-Heq].
  - exfalso. destruct (make_record_spec _ _ trx_fields m vs' (malloc k) (RID.mk 0 0) Val.new Hm Hg Hcast) as (r & Hr & _).
    by rewrite E in Hr.
Qed.

(** ** A file *)
Context (Hmalloc : ∀ k, record_ok m (malloc k)).
(** the state after the insertions of records, each of which succeeds *)
Inductive inserted : W → list memory → W → Prop :=
| inserted_nil w : inserted w [] w
| inserted_cons w data w1 records w2 :
    table_insert_record m data w = Done (RC.SUCCESS, w1) → inserted w1 records w2 → inserted w (data :: records) w2.
(** [n] insertions return *)
Context (inv : nat → W → Prop).
Context (Hinsert : ∀ n w data, inv (S n) w → record_ok m data →
  ∃ rc w', table_insert_record m data w = Done (rc, w') ∧ (rc = RC.SUCCESS → inv n w')).
Lemma user_some : user ≠ [].
Proof.
  intros H%(f_equal length). unfold TableMeta.user_fields in H. rewrite length_drop in H. pose proof (mw_user _ _ Hm).
  unfold TableMeta.field_num in *. cbn in H. lia.
Qed.
Lemma insert_line_ok vs ss k rv w n :
  row_dumps user vs ss → reused (length user) rv → inv (S n) w →
  ∃ rv' data rc w', table_insert_record m data w = Done (rc, w') ∧ (rc = RC.SUCCESS → inv n w') ∧
    insert_record_from_file trx_fields malloc m k ss rv w =
      Done ((rc, if decide (rc ≠ RC.SUCCESS) then text "insert failed." else []), rv', w') ∧
    reused (length user) rv' ∧ row_shows vs data.
Proof.
  intros Hd Hrv Hi. destruct (row_dumps_length _ _ _ Hd) as [Hls _]. unfold insert_record_from_file.
  rewrite decide_False by (destruct Hrv; lia).
  destruct (read_fields_ok _ _ _ 0 rv Hd eq_refl Hrv) as (vs' & Hread & Hsame).
  destruct (record_of_row k vs vs' Hsame (Hmalloc k)) as (data & Hmake & Hshows).
  destruct (Hinsert n w data Hi (proj1 Hshows)) as (rc & w' & Hins & Hi'). exists vs', data, rc, w'.
  split_and!; [done|done| |exact (row_same_reused _ _ _ Hsame)|done].
  unfold mbind at 1, ST_bind at 1, st_some. rewrite Hread. cbv iota beta.
  unfold mbind at 1, ST_bind at 1. rewrite Hmake. cbv iota beta.
  unfold mbind at 1, ST_bind at 1. by rewrite Hins.
Qed.
Lemma line_plain ss : Forall plain_text ss → (10 ∉ join_with 124 ss) ∧ (0 ∉ join_with 124 ss).
Proof.
  intros H. assert (Forall (λ c, c ≠ 10 ∧ c ≠ 0) (join_with 124 ss)) as Hall.
  { apply join_forall; [done|]. eapply Forall_impl; [exact H|]. intros s [Hs _]. eapply Forall_impl; [exact Hs|]. by intros c (? & ? & ?). }
  rewrite Forall_forall in Hall. split; intros Hin; apply Hall in Hin as [? ?]; lia.
Qed.
Lemma line_not_blank ss :
  Forall plain_text ss → forallb is_space (join_with 124 ss) = false → forallb is_space (c_prefix (join_with 124 ss)) = false.
Proof.
  intros H. assert (c_prefix (join_with 124 ss) = join_with 124 ss) as ->; [|done].
  destruct (line_plain ss H) as [_ H0]. revert H0. generalize (join_with 124 ss). intros s. induction s as [|c s IH]; [done|].
  intros [Hc Hs]%not_elem_of_cons. cbn. rewrite decide_False by done. by rewrite IH.
Qed.
(** what the result says of a line whose record is refused *)
Definition refused_text (line_num : nat) (rc : RC.t) : memory :=
  text "Line:" ++ show_int (Z.of_nat line_num) ++ text " insert record failed:" ++ text "insert failed." ++ text ". error:" ++
  strrc rc ++ [10].
(** The first record that is refused ends the load. *)
Lemma load_rows rows texts lines n k rv w :
  Forall2 (line_dumps user) rows texts → reused (length user) rv → inv (length rows) w →
  ∃ records w1, inserted w records w1 ∧ Forall2 row_shows (take (length records) rows) records ∧
    ((length records = length rows ∧ ∃ rv', reused (length user) rv' ∧
      load_lines trx_fields malloc m ((join_with 124 <$> texts) ++ lines) rv n k w =
        load_lines trx_fields malloc m lines rv' (n + length rows) (k + length rows) w1) ∨
     (∃ vs data rc w2, rows !! length records = Some vs ∧ row_shows vs data ∧ rc ≠ RC.SUCCESS ∧
        table_insert_record m data w1 = Done (rc, w2) ∧
        load_lines trx_fields malloc m ((join_with 124 <$> texts) ++ lines) rv n k w =
          Done ((rc, refused_text (n + S (length records)) rc, (n + S (length records), k + length records)%nat), w2))).
Proof.
  intros H. revert n k rv w. induction H as [|vs ss rows texts [Hd Hblank] H IH]; intros n k rv w Hrv Hi.
  { exists [], w. split; [constructor|]. split; [constructor|]. left. split; [done|]. exists rv. by rewrite !Nat.add_0_r. }
  pose proof (row_dumps_plain _ _ _ Hd) as Hplain. destruct (row_dumps_length _ _ _ Hd) as [Hls _].
  assert (ss ≠ []) as Hne by (intros ->; by destruct user_some; apply nil_length_inv).
  cbn [fmap list_fmap app load_lines]. rewrite line_not_blank by done.
  rewrite split_join; [|eapply Forall_impl; [exact Hplain|]; intros s Hs; split; [by apply plain_no; auto|by apply plain_some]|done].
  destruct (insert_line_ok vs ss k rv w (length rows) Hd Hrv Hi) as (rv1 & data & rc & w1 & Hrun & Hi1 & Hins & Hrv1 & Hsh).
  destruct (decide (rc = RC.SUCCESS)) as [->|Hrc].
  - destruct (IH (S n) (S k) rv1 w1 Hrv1 (Hi1 eq_refl)) as (records & w2 & Hch & Hall & Hcases).
    exists (data :: records), w2. split; [by econstructor|]. split; [by constructor|].
    cbn [length]. destruct Hcases as [(Hl & rv' & Hrv' & E)|(vs' & data' & rc & w3 & Hvs & Hsh' & Hrc & Hrun' & E)].
    + left. split; [lia|]. exists rv'. split; [done|]. unfold mbind at 1, ST_bind at 1. rewrite Hins. cbv iota beta.
      rewrite !decide_False by auto. rewrite E. f_equal; lia.
    + right. exists vs', data', rc, w3. split_and!; [done|done|done|done|].
      unfold mbind at 1, ST_bind at 1. rewrite Hins. cbv iota beta. rewrite !decide_False by auto. rewrite E.
      by rewrite !Nat.add_succ_r.
  - exists [], w. split; [constructor|]. split; [constructor|]. right. exists vs, data, rc, w1.
    split_and!; [done|done|done|done|]. unfold mbind at 1, ST_bind at 1. rewrite Hins. cbv iota beta.
    rewrite !decide_True by done. cbn [length]. by rewrite !Nat.add_0_r, Nat.add_1_r.
Qed.
(** what follows the rows: nothing, or a line with too few fields *)
Definition bad_line (rest : memory) : Prop :=
  ∃ bad more, rest = bad ++ 10 :: more ∧ (10 ∉ bad) ∧ forallb is_space (c_prefix bad) = false ∧
    (length (split_string 124 bad) < length user)%nat.
Definition load_text (n : nat) (cost rest : memory) : memory :=
  match rest with
  | [] => total_text (S n) n cost
  | _ => text "Line:" ++ show_int (Z.of_nat (S n)) ++ text " insert record failed:. error:SCHEMA_FIELD_MISSING" ++ [10]
  end.
Lemma load_data_ok file rows texts rest w :
  file_data w file = inr (file_text texts ++ rest) → Forall2 (line_dumps user) rows texts → (rest = [] ∨ bad_line rest) →
  bytes4 uninit → inv (length rows) w →
  ∃ records w1, inserted w records w1 ∧ Forall2 row_shows (take (length records) rows) records ∧
    ((length records = length rows ∧
      load_data trx_fields malloc m file w = Done ((RC.SUCCESS, load_text (length rows) (cost_text w1) rest), w1)) ∨
     (∃ vs data rc w2, rows !! length records = Some vs ∧ row_shows vs data ∧ rc ≠ RC.SUCCESS ∧
        table_insert_record m data w1 = Done (rc, w2) ∧
        load_data trx_fields malloc m file w = Done ((RC.SUCCESS, refused_text (S (length records)) rc), w2))).
Proof.
  intros Hfile Hrows Hrest Hu Hi.
  assert (Forall (λ ss, 10 ∉ join_with 124 ss) texts) as Hten.
  { clear -Hrows. induction Hrows as [|vs ss rows texts [Hd _] H IH]; constructor; [|done].
    by apply line_plain, (row_dumps_plain _ _ _ Hd). }
  set (rv := replicate (TableMeta.field_num m - TableMeta.sys_field_num trx_fields) Val.new).
  assert (reused (length user) rv) as Hrv.
  { subst rv. split; [rewrite length_replicate; unfold TableMeta.user_fields; by rewrite length_drop|].
    apply Forall_replicate. exact Hu. }
  destruct (load_rows rows texts (cut 10 rest) 0 0 rv w Hrows Hrv Hi) as (records & w1 & Hch & Hall & Hcases).
  exists records, w1. split; [done|]. split; [done|].
  assert (load_data trx_fields malloc m file w =
    (r ← load_lines trx_fields malloc m ((join_with 124 <$> texts) ++ cut 10 rest) rv 0 0;
     let '(rc, result, (line_num, insertion_count)) := r in
     w ← st_get;
     mret (RC.SUCCESS, if decide (rc = RC.SUCCESS) then total_text line_num insertion_count (cost_text w) else result)) w) as ->.
  { unfold load_data. unfold mbind at 1, ST_bind at 1. unfold st_get at 1. rewrite Hfile. by rewrite cut_file by done. }
  destruct Hcases as [(Hlen & rv' & [Hl _] & E)|(vs & data & rc & w2 & Hvs & Hsh & Hrc & Hrun & E)].
  - left. split; [done|]. unfold mbind at 1, ST_bind at 1. rewrite E. cbn [Nat.add].
    destruct Hrest as [->|(bad & more & -> & Hbad & Hblank & Hfew)].
    + cbn [cut load_lines]. done.
    + rewrite cut_app by done. cbn [load_lines]. rewrite Hblank. unfold insert_record_from_file at 1.
      rewrite decide_True by lia. cbn [mret ST_ret]. unfold mbind at 1, ST_bind at 1. cbn [mret ST_ret].
      rewrite decide_True by done. cbn [mret ST_ret]. destruct bad; [done|]. done.
  - right. exists vs, data, rc, w2. split_and!; [done|done|done|done|].
    unfold mbind at 1, ST_bind at 1. rewrite E. cbv iota beta. unfold mbind at 1, ST_bind at 1, st_get.
    by rewrite decide_False by done.
Qed.
End load.
