(* ===== verification/NetTheorems.v ===== *)
(** * Serving requests: the main theorems

    The buffered writer, requests of the text protocol from the statement to the bytes of the
    answer, the MySQL protocol, and LOAD DATA, with instances. *)
From S2P Require Import LruCache BufferPool BufferPoolHeader RecordPage RecordFile RecordFileCorrect RecordTheorems TableMeta Table TableCorrect TableBplus.
From S2P Require Import Prelude RidKey Comparator Bitmap TableMeta SqlValue SqlValueCorrect Row RowCorrect Expr Rewrite RewriteCorrect Operators IndexScan OrderScan Dml.
From S2P Require Import PlanGen Resolve PlanExec TrxKit NetBuffer SqlResult PlainCommunicator MysqlCommunicator SessionStage.
From S2P Require Import OperatorsCorrect OrderCorrect ScanCorrect AggregateCorrect PlanCorrect PlainCorrect MysqlCorrect SessionCorrect SqlTheorems QueryTheorems.
From Stdlib Require Import ZArith Lia Ascii String.
From stdpp Require Import base option strings gmap sets list.
Import BufferedWriterCorrect.
Local Open Scope Z_scope.

(** ** A peer that takes three bytes at a time and is busy every other time; it sends its
    requests two bytes at a time *)
Record demo_net : Set := MkNet { got : memory; to_come : memory; busy : bool }.
Definition demo_write : OsWrite demo_net := λ _ d net,
  if busy net then (WriteError true, MkNet (got net) (to_come net) false)
  else (Written (Z.min 3 (Z.of_nat (length d))), MkNet (got net ++ take 3 d) (to_come net) true).
#[local] Existing Instance demo_write.
#[local] Instance demo_write_laws : OsWriteLaws demo_net.
Proof.
  refine {| sent _ net := got net; patience net := if busy net then 1%nat else 0%nat; max_wait := 1%nat |}.
  - intros []. simpl. destruct busy0; lia.
  - intros fd d [g t []] n w'; unfold sys_write, demo_write; simpl; intros [= <- <-] Hd. split; [lia|]. simpl. f_equal.
    destruct (decide (length d <= 3)%nat); [rewrite Z.min_r by lia; rewrite Nat2Z.id, !take_ge by lia; done|].
    by rewrite Z.min_l by lia.
  - intros fd d [g t []] w'; unfold sys_write, demo_write; simpl; intros [= Hz <-] Hd. destruct d; [done|]. simpl in *. lia.
  - intros fd d [g t []] again w'; unfold sys_write, demo_write; simpl; by intros [= <- <-].
  - intros fd d [g t []] w'; unfold sys_write, demo_write; simpl; intros [= <-]; simpl; lia.
Defined.
Lemma demo_reliable : ¬ fails (W := demo_net).
Proof. intros (fd & d & [g t []] & w' & E); unfold sys_write, demo_write in E; simpl in E; discriminate. Qed.
Definition demo_read (n : Z) (net : demo_net) : read_result * demo_net :=
  if decide (n = 0) then (ReadBytes [], net)
  else if busy net then (ReadError true, MkNet (got net) (to_come net) false)
  else (ReadBytes (take (Z.to_nat (Z.min 2 n)) (to_come net)), MkNet (got net) (drop (Z.to_nat (Z.min 2 n)) (to_come net)) true).
#[local] Instance demo_read_laws : OsReadLaws demo_read.
Proof.
  refine {| incoming net := to_come net; read_wait net := if busy net then 1%nat else 0%nat; max_read_wait := 1%nat |}.
  - intros []. simpl. destruct busy0; lia.
  - intros n [g t b] r net'. unfold demo_read. cbn [busy to_come got]. intros E Hn Ht. rewrite decide_False in E by lia.
    destruct b; injection E as <- <-; cbn [busy to_come got]; [repeat split; lia|].
    split; [by rewrite take_drop|]. rewrite length_take. split; [lia|].
    intros Hnil. apply (f_equal length) in Hnil. rewrite length_take in Hnil. destruct t; [done|]. simpl in Hnil. lia.
  - intros net. exists net. unfold demo_read. by rewrite decide_True.
Defined.
Lemma demo_ready fuel net : (64 < fuel)%nat → ready fuel 3 64 (net, BufferedWriter.make_sized 3 64).
Proof.
  intros Hf. destruct (RingBufferCorrect.make_wf 64 ltac:(lia)) as (Hwf & _ & Hc).
  unfold ready. cbn [snd BufferedWriter.make_sized BufferedWriter.fd_ BufferedWriter.buffer_]. rewrite Hc.
  change (@max_wait demo_net demo_write demo_write_laws) with 1%nat. repeat split; (apply Hwf || lia).
Qed.

(** C29: The buffered writer is a queue in front of the descriptor.  Whatever [::write] does,
    [writen] ends; with SUCCESS exactly its bytes have joined the output (what was sent, then
    what waits in the ring buffer), with IOERR_WRITE a prefix of them, and only if [::write]
    failed.  [flush] then ends too, keeps the output, and with SUCCESS all of it is sent. *)
Theorem writer_correct (N : Type) (OW : OsWrite N) (OL : OsWriteLaws N) (fuel : nat) (fd cap : Z) (data : memory)
  (s : N * BufferedWriter.t) (Hready : ready fuel fd cap s) (Hlen : Z.of_nat (length data) <= Z.of_nat fuel) :
  wp (BufferedWriter.writen fuel data (Z.of_nat (length data))) s (λ rc s1,
    (rc = RC.SUCCESS ∧ stream s1 = stream s ++ data ∨
     rc = RC.IOERR_WRITE ∧ fails (W := N) ∧ ∃ k, stream s1 = stream s ++ take k data) ∧
    wp (BufferedWriter.flush fuel) s1 (λ rc' s2,
      stream s2 = stream s1 ∧
      (rc' = RC.SUCCESS ∧ sent fd s2.1 = stream s1 ∨ rc' = RC.IOERR_WRITE ∧ fails (W := N)))).
Proof.
  assert (Hflush : ∀ s1, ready fuel fd cap s1 → wp (BufferedWriter.flush fuel) s1 (λ rc' s2,
      stream s2 = stream s1 ∧ (rc' = RC.SUCCESS ∧ sent fd s2.1 = stream s1 ∨ rc' = RC.IOERR_WRITE ∧ fails (W := N)))).
  { intros s1 Hr1. eapply flush_spec; [exact Hr1| |].
    - intros s2 Hr2 Hst Hc. split; [done|]. left. split; [done|]. rewrite <-Hst. unfold stream.
      rewrite Hc, app_nil_r. by destruct Hr2 as (-> & _).
    - intros s2 Hf Hr2 Hst. split; [done|]. by right. }
  eapply writen_spec; [exact Hready|lia|done| |].
  - intros s1 Hr1 Hst. split; [|by apply Hflush]. left. split; [done|]. rewrite Hst, Nat2Z.id. by rewrite take_ge.
  - intros s1 k Hf Hr1 Hk Hst. split; [|by apply Hflush]. right. split_and!; [done|done|by exists k].
Qed.
Lemma writer_correct_witness :
  let s := (MkNet [] [] true, BufferedWriter.make_sized 3 64) in
  wp (BufferedWriter.writen 100 (text "some bytes") (Z.of_nat (length (text "some bytes")))) s (λ rc s1,
    (rc = RC.SUCCESS ∧ stream s1 = stream s ++ text "some bytes" ∨
     rc = RC.IOERR_WRITE ∧ fails (W := demo_net) ∧ ∃ k, stream s1 = stream s ++ take k (text "some bytes")) ∧
    wp (BufferedWriter.flush 100) s1 (λ rc' s2,
      stream s2 = stream s1 ∧
      (rc' = RC.SUCCESS ∧ sent 3 s2.1 = stream s1 ∨ rc' = RC.IOERR_WRITE ∧ fails (W := demo_net)))).
Proof.
  apply (writer_correct demo_net demo_write demo_write_laws 100 3 64 (text "some bytes")
    (MkNet [] [] true, BufferedWriter.make_sized 3 64)); [apply demo_ready; lia|vm_compute; discriminate].
Defined.

(** C31: Requests of the text protocol.  However the bytes arrive, a request of fewer than
    70000 bytes up to its NUL is read as the query, and nothing behind the bytes that came
    with the NUL is taken; a request that fills the buffer without a NUL ends as
    IOERR_CLOSE, not as IOERR_TOO_LONG. *)
Theorem plain_read_correct (N : Type) (sys_read : Z → N → read_result * N) (OR : OsReadLaws sys_read) (fuel : nat) (net : N)
  (Hfuel : (budget sys_read [] net < fuel)%nat) (msg rest : memory) (Hmsg : 0 ∉ msg) (Hin : incoming net = msg ++ rest)
  (Hcase : Z.of_nat (length msg) < PlainCommunicator.max_packet_size ∧ head rest = Some 0 ∨
           Z.of_nat (length msg) = PlainCommunicator.max_packet_size) :
  ∃ net', PlainCommunicator.read_event sys_read fuel net =
      Done (if decide (Z.of_nat (length msg) < PlainCommunicator.max_packet_size)
            then (RC.SUCCESS, Some msg) else (RC.IOERR_CLOSE, None), net') ∧
    (Z.of_nat (length msg) < PlainCommunicator.max_packet_size → incoming net' `suffix_of` tail rest).
Proof.
  destruct Hcase as [[Hlen Hnul]|Hlen].
  - destruct rest as [|x rest]; [done|]. injection Hnul as ->.
    destruct (read_event_ok sys_read fuel msg rest net Hin Hmsg Hlen Hfuel) as (net' & Hr & Hsuf).
    exists net'. rewrite decide_True by done. done.
  - destruct (read_event_too_long sys_read fuel net) as (net' & Hr).
    + rewrite Hin, take_app_ge by lia. rewrite <-Hlen, Nat2Z.id, Nat.sub_diag. simpl. by rewrite app_nil_r.
    + rewrite Hin, length_app. lia.
    + done.
    + exists net'. rewrite decide_False by lia. split; [done|lia].
Qed.
Lemma plain_read_correct_witness :
  ∃ net', PlainCommunicator.read_event demo_read (Z.to_nat 150000) (MkNet [] (text "select 1;" ++ 0 :: text "!") true) =
      Done (if decide (Z.of_nat (length (text "select 1;")) < PlainCommunicator.max_packet_size)
            then (RC.SUCCESS, Some (text "select 1;")) else (RC.IOERR_CLOSE, None), net') ∧
    (Z.of_nat (length (text "select 1;")) < PlainCommunicator.max_packet_size → incoming net' `suffix_of` tail (0 :: text "!")).
Proof.
  apply (plain_read_correct demo_net demo_read demo_read_laws (Z.to_nat 150000) (MkNet [] (text "select 1;" ++ 0 :: text "!") true)).
  - apply (proj1 (Nat.ltb_lt _ _)). vm_compute. reflexivity.
  - apply (bool_decide_unpack _). vm_compute. exact I.
  - reflexivity.
  - left. split; vm_compute; reflexivity.
Defined.

(** The answer of the text protocol.  For a peer that takes what it is sent, [write_result]
    ends with SUCCESS, keeps the connection, and has sent exactly the answer of the request
    ([answers]: the state, or header and rows, whichever branch), the texts for debugging
    and the delimiter; the transaction of a statement of its own is ended. *)
Theorem plain_answer_correct (L : LibText) (U : Uninit) (trx_fields : option (list FieldMeta.t)) (W C N : Type)
  (O : PhysOps W C) (TE : TrxEnds W) (OW : OsWrite N) (OL : OsWriteLaws N) (fuel : nat) (fd cap : Z) (delimiter : memory)
  (w w' : W) (e e' : SessionEvent.t C) (answer : memory) (s : (W * SessionEvent.t C) * (N * BufferedWriter.t))
  (Hreliable : ¬ fails (W := N)) (Hanswers : answers trx_fields fuel w e answer w' e') (Hs : s.1 = (w, e))
  (Halive : alive fuel fd cap s) (Hfuel : (2047 <= fuel)%nat) (Hinfos : fits fuel (SessionEvent.debug_infos_ e'))
  (Hdel : (length delimiter <= fuel)%nat) :
  wp (PlainCommunicator.write_result trx_fields fuel delimiter) s (λ r s',
    r = (RC.SUCCESS, false) ∧ s'.1 = (w', e') ∧ sent fd s'.2.1 = out s ++ answer ++ debug_text e' ++ delimiter).
Proof. eapply write_result_ok; [exact Hreliable|exact Hanswers|done..|]. by intros s' _ He Ho. Qed.

(** *** An instance: two rows of one column *)
Definition demo_fuel : nat := Z.to_nat 3000.
Lemma demo_fuel_enough n : Z.of_nat n < 3000 → (n < demo_fuel)%nat.
Proof. unfold demo_fuel. lia. Qed.
Lemma all_fit ls : forallb (forallb (λ t : memory, Z.of_nat (length t) <? 3000)) ls = true → Forall (fits demo_fuel) ls.
Proof.
  intros H%Is_true_true%forallb_True. eapply Forall_impl; [exact H|]. intros l Hl%forallb_True.
  eapply Forall_impl; [exact Hl|]. intros t Ht%Is_true_true%Z.ltb_lt%demo_fuel_enough. lia.
Qed.
Lemma one_fits l : forallb (λ t : memory, Z.of_nat (length t) <? 3000) l = true → fits demo_fuel l.
Proof. intros H. apply (Forall_singleton (fits demo_fuel)), all_fit. simpl. by rewrite H. Qed.
Definition demo_list : StringList.t := StringList.mk [["ann"]; ["bob"]]%string 0 false.
Definition demo_ends : TrxEnds () := {| start_if_need := mret RC.SUCCESS; commit := mret RC.SUCCESS; rollback := mret RC.SUCCESS |}.
Definition demo_event : SessionEvent.t StringList.t :=
  SessionEvent.mk Session.default (Some demo_list) [alias_spec "name"] RC.SUCCESS [] [text "hi"] (text "show").
Definition demo_state : (() * SessionEvent.t StringList.t) * (demo_net * BufferedWriter.t) :=
  (((), demo_event), (MkNet [] [] true, BufferedWriter.make_sized 3 64)).
Section demo_answer.
#[local] Existing Instance demo_text.
#[local] Existing Instance demo_uninit.
#[local] Existing Instance demo_ends.
Definition demo_tuple (s : string) : Tuple.t := Tuple.ValueList (option_list (Val.set_string (Val.c_str (text s)) 0 Val.new)).
Lemma demo_list_yields :
  yields (W := ()) StringList.ops () (closes StringList.ops ()) demo_list [demo_tuple "ann"; demo_tuple "bob"].
Proof.
  eapply yields_cons; [vm_compute; reflexivity|vm_compute; reflexivity|by eexists|].
  eapply yields_cons; [vm_compute; reflexivity|vm_compute; reflexivity|by eexists|].
  eapply yields_nil; [vm_compute; reflexivity|by eexists].
Qed.
Lemma demo_answers :
  answers None demo_fuel () demo_event (text "name" ++ [10] ++ text "ann" ++ [10] ++ text "bob" ++ [10]) ()
    (SessionEvent.put_operator None demo_event).
Proof.
  apply (answers_rows None demo_fuel () demo_event demo_list demo_list RC.SUCCESS () RC.SUCCESS ()
    [demo_tuple "ann"; demo_tuple "bob"] [[text "ann"]; [text "bob"]]); try done; try (vm_compute; reflexivity).
  - apply demo_list_yields.
  - apply demo_fuel_enough. simpl. lia.
  - by apply all_fit.
  - by apply one_fits.
Qed.
Lemma plain_answer_correct_witness :
  wp (PlainCommunicator.write_result None demo_fuel [0]) demo_state (λ r s',
    r = (RC.SUCCESS, false) ∧ s'.1 = ((), SessionEvent.put_operator None demo_event) ∧
    sent 3 s'.2.1 = out demo_state ++ (text "name" ++ [10] ++ text "ann" ++ [10] ++ text "bob" ++ [10]) ++
      debug_text (SessionEvent.put_operator None demo_event) ++ [0]) ∧
  out demo_state = [] ∧ debug_text (SessionEvent.put_operator None demo_event) = text "# hi" ++ [10].
Proof.
  split; [|split; reflexivity].
  apply (plain_answer_correct demo_text demo_uninit None () StringList.t demo_net StringList.ops demo_ends demo_write
    demo_write_laws demo_fuel 3 64 [0] () () demo_event (SessionEvent.put_operator None demo_event)
    (text "name" ++ [10] ++ text "ann" ++ [10] ++ text "bob" ++ [10]) demo_state demo_reliable demo_answers).
  - reflexivity.
  - by apply demo_ready, demo_fuel_enough.
  - by apply Nat.lt_le_incl, demo_fuel_enough.
  - by apply one_fits.
  - by apply Nat.lt_le_incl, demo_fuel_enough.
Defined.
End demo_answer.


(** *** An instance: the query of the demonstration, sent to the peer above *)
#[local] Instance demo_db : DbOps () := {|
  has_db _ := true; find_table _ := demo_find; has_index _ _ _ := false; table_indexes_of _ _ := ([], []);
  all_tables _ := ["people"; "pets"]%string; readable_file _ _ := false;
  db_create_table _ _ := mret RC.SUCCESS; db_drop_table _ := mret RC.SUCCESS; table_create_index _ _ _ _ := mret RC.SUCCESS |}.
#[local] Instance demo_load : LoadOps () := {|
  file_data _ _ := inl []; table_insert_record _ _ := mret RC.SUCCESS; float_to_end _ := true; cost_text _ := [] |}.
Definition demo_parse (query : memory) : list ParsedSqlNode :=
  if bool_decide (query = text "show") then [SCF_SHOW_TABLES] else [SCF_SELECT demo_query].
Definition demo_expr_name (e : Expr.t) : string :=
  match e with Expr.FieldExpr f => fd_field_name f | _ => "?" end.
Definition demo_request {C} (query : string) : SessionEvent.t C := SessionEvent.make Session.default (text query).
Section demo_served.
#[local] Existing Instance demo_text.
#[local] Existing Instance demo_uninit.
#[local] Existing Instance demo_sort.
#[local] Existing Instance demo_index_scan.
#[local] Existing Instance demo_trx.
#[local] Existing Instance demo_scan.
#[local] Existing Instance demo_ends.
Abbreviation demo_plan_ops := (λ l : list SelectStmt, Plan.ops None no_executor (λ _, []) (λ _, ""%string) demo_fuel 20 : PhysOps () (Plan.t demo_scanner () ())).
Definition demo_plan_of : Stmt.t → outcome (RC.t + option (Plan.t demo_scanner () ())) :=
  PhysicalPlanGenerator.plan_statement demo_find_index (λ _, []) demo_scan_of demo_expr_name 20.
Definition demo_handle_sql :=
  handle_sql None demo_fuel (λ _, []) demo_parse demo_plan_of demo_expr_name.

Definition demo_texts : list (list memory) := [[text "eve"; text "3"]; [text "eve"; text "3"]; [text "bob"; text "2"]].
End demo_served.

(** C32: A statement that fails before it runs.  A query refused by the parser or by the resolver
    is answered FAILURE; one whose plan cannot be made is answered SUCCESS, although nothing
    has been done.  In both cases the world is as before, and neither transaction nor
    operator has been started. *)
Theorem failed_statement_answer (L : LibText) (U : Uninit) (trx_fields : option (list FieldMeta.t)) (W P N : Type)
  (plan_ops : list SelectStmt → PhysOps W P) (TE : TrxEnds W) (DB : DbOps W) (LO : LoadOps W) (OW : OsWrite N) (OL : OsWriteLaws N)
  (fuel : nat) (malloc : nat → memory) (parse : memory → list ParsedSqlNode) (plan_of : Stmt.t → outcome (RC.t + option P))
  (expr_name : Expr.t → string)
  (w : W) (e : SessionEvent.t (Root.t P)) (x : N * BufferedWriter.t) (fd cap : Z) (delimiter : memory) (rc : RC.t)
  (planning : bool) (Hreliable : ¬ fails (W := N)) (Halive : ready fuel fd cap x) (Hfuel : (2047 <= fuel)%nat)
  (Hquery : forallb is_space (c_prefix (SessionEvent.query_ e)) = false)
  (Hfresh : SessionEvent.operator_ e = None ∧ SessionEvent.return_code_ e = RC.SUCCESS ∧ SessionEvent.state_string_ e = [])
  (Hfits : fits fuel (delimiter :: SessionEvent.debug_infos_ e)) (Hrc : RC.succ rc = false ∧ rc ≠ RC.UNIMPLENMENT)
  (Hfails : if planning then ∃ c subqueries, resolves trx_fields fuel parse w e c subqueries ∧ plan_of (Command.stmt c) = Done (inl rc)
            else refused trx_fields fuel parse w e rc) :
  let O := root_ops plan_ops in
  wp (handle_request (handle_sql trx_fields fuel malloc parse plan_of expr_name)
        (PlainCommunicator.write_result trx_fields fuel delimiter)) ((w, e), x) (λ r s',
    r = Some (RC.SUCCESS, false) ∧ s'.1 = (w, if planning then e else SessionEvent.set_return_code rc e) ∧
    ∃ infos, sent fd s'.2.1 = stream x ++ text (if planning then "SUCCESS" else "FAILURE") ++ [10] ++ infos).
Proof.
  intros O. destruct Hfresh as (Hop & Hsucc & Hstate). destruct Hrc as [Hrc Hun]. apply Forall_cons in Hfits as [Hd Hi].
  set (e1 := if planning then e else SessionEvent.set_return_code rc e).
  assert (∃ rc', handle_sql trx_fields fuel malloc parse plan_of expr_name (w, e) = Done (rc', (w, e1))) as [rc' Hsql].
  { subst e1. destruct planning; [destruct Hfails as (c & subqueries & Hr & Hp)|]; eexists;
      [by eapply handle_sql_no_plan|by apply handle_sql_refused]. }
  assert (answers trx_fields fuel w e1 (snprintf 2048 (state_text e1 ++ newline)) w e1) as Hans.
  { apply answers_state. right. subst e1. by destruct planning. }
  eapply (handle_request_ok trx_fields fuel fd cap Hreliable);
    [exact Hquery|exact Hsql|exact Hans|reflexivity|exact Halive|exact Hfuel|by subst e1; destruct planning|exact Hd|].
  assert (snprintf 2048 (state_text e1 ++ newline) = text (if planning then "SUCCESS" else "FAILURE") ++ [10]) as Eline.
  { subst e1. unfold state_text. destruct planning; cbn [SessionEvent.set_return_code SessionEvent.return_code_ SessionEvent.state_string_];
      rewrite Hstate; [rewrite Hsucc|rewrite Hrc]; reflexivity. }
  intros s' Hs' Hsent. split_and!; [done|exact Hs'|]. eexists. rewrite Hsent, Eline, <-app_assoc. reflexivity.
Qed.
(** *** An instance: the planner fails *)
Section demo_failure.
#[local] Existing Instance demo_text.
#[local] Existing Instance demo_uninit.
#[local] Existing Instance demo_ends.
Lemma failed_statement_answer_witness :
  let O := root_ops (W := ()) (P := StringList.t) (λ _, StringList.ops) in
  wp (handle_request (handle_sql (P := StringList.t) None demo_fuel (λ _, []) demo_parse (λ _, Done (inl RC.INTERNAL)) demo_expr_name)
      (PlainCommunicator.write_result None demo_fuel [0]))
    (((), demo_request "show"), (MkNet [] [] true, BufferedWriter.make_sized 3 64)) (λ r s',
    r = Some (RC.SUCCESS, false) ∧ s'.1 = ((), demo_request "show") ∧
    ∃ infos, sent 3 s'.2.1 = [] ++ text "SUCCESS" ++ [10] ++ infos).
Proof.
  apply (failed_statement_answer demo_text demo_uninit None () StringList.t demo_net (λ _, StringList.ops) demo_ends demo_db demo_load
    demo_write demo_write_laws demo_fuel (λ _, []) demo_parse (λ _, Done (inl RC.INTERNAL)) demo_expr_name ()
    (demo_request "show") (MkNet [] [] true, BufferedWriter.make_sized 3 64) 3 64 [0] RC.INTERNAL true demo_reliable).
  - by apply demo_ready, demo_fuel_enough.
  - by apply Nat.lt_le_incl, demo_fuel_enough.
  - reflexivity.
  - done.
  - by apply one_fits.
  - done.
  - exists Command.SHOW_TABLES, []. split; [|reflexivity].
    exists SCF_SHOW_TABLES, []. split_and!; [reflexivity|discriminate|reflexivity|reflexivity].
Defined.
End demo_failure.

(** C30: A result over the MySQL protocol.  For a reliable peer that is a client without the
    flags for missing EOF packets and metadata, and rows with as many cells as there are
    columns, texts shorter than 2^16 bytes and packets that fit the buffers ([column_fits],
    [row_fits]): the packets sent for an operator that gives the tuples [l] and then any
    code [rc] are read by the client as the names of the columns and the texts of all the
    cells, followed by the end of a complete result; a failure after the rows is not seen.
    A null is sent as the text NULL, not as the 0xFB of the protocol, and the client reads
    this text.  The limit on the texts is that of the code: of a length from 2^16 to 2^17 the
    highest bit is lost. *)
Theorem mysql_result_roundtrip (L : LibText) (U : Uninit) (trx_fields : option (list FieldMeta.t)) (W C N : Type)
  (O : PhysOps W C) (TE : TrxEnds W) (OW : OsWrite N) (OL : OsWriteLaws N) (fuel : nat) (fd cap : Z)
  (w w1 w2 : W) (rc0 rc rc_end : RC.t) (c c1 : C) (l : list Tuple.t) (rows : list (list memory)) (e : SessionEvent.t C)
  (x : N * BufferedWriter.t) (comm : MysqlCommunicator.t)
  (Hreliable : ¬ fails (W := N)) (Halive : ready fuel fd cap x) (Hfuel : Z.of_nat fuel >= MysqlCommunicator.row_capacity)
  (Hop : SessionEvent.return_code_ e = RC.SUCCESS ∧ SessionEvent.operator_ e = Some c)
  (Hschema : SessionEvent.tuple_schema_ e ≠ [] ∧ (length (SessionEvent.tuple_schema_ e) < 251)%nat ∧
             Forall column_fits (SessionEvent.tuple_schema_ e))
  (Hopen : start_if_need w = Done (rc0, w1) ∧ oper_open (w1, c) = Done (RC.SUCCESS, (w1, c1)))
  (Hstops : stops w1 c1 l rc) (Hends : ends e w1 rc_end w2) (Hrows : mapM (tuple_row trx_fields) l = Some rows)
  (Hfits : Forall (λ r, row_fits r ∧ length r = length (SessionEvent.tuple_schema_ e)) rows) (Hl : (length l < fuel)%nat)
  (Hflags : has_flag (MysqlCommunicator.client_capabilities_flag_ comm) CLIENT_DEPRECATE_EOF = false ∧
            has_flag (MysqlCommunicator.client_capabilities_flag_ comm) CLIENT_OPTIONAL_RESULTSET_METADATA = false) :
  (∀ v, Val.is_null v = true → Val.to_string v = Some (text "NULL")) ∧
  (∀ n m, 2 ^ 16 <= n < 2 ^ 17 → decode_lenenc (lenenc_int n ++ m) = Some (n - 2 ^ 16, m)) ∧
  wp (MysqlCommunicator.write_result trx_fields fuel) (((w, e), x), comm) (λ r s',
    r = (rc_end, false) ∧ s'.1.1 = (w2, SessionEvent.put_operator None e) ∧
    ∃ bytes, sent fd s'.1.2.1 = stream x ++ bytes ∧
      decode_result_set fuel bytes =
        Some ((λ spec, c_prefix (text (alias_ spec))) <$> SessionEvent.tuple_schema_ e, rows, [])).
Proof.
  split; [intros v Hv%bool_decide_eq_true_1; unfold Val.to_string; by rewrite Hv|].
  split; [intros n m Hn; rewrite decode_lenenc_int by lia; by rewrite decide_True|].
  destruct Hop as [Hrc Hc]. destruct Hschema as (Hne & Hlen & Hcols). destruct Hopen as [Hstart Ho]. destruct Hflags as [Hdep Hmeta].
  assert (length rows = length l) as Hrl by (symmetry; eapply Forall2_length; by apply mapM_Some).
  eapply (write_result_rows trx_fields fuel fd cap Hreliable Hfuel w w1 w2); try eassumption.
  - eapply Forall_impl; [exact Hfits|]. by intros r [].
  - reflexivity.
  - intros s' Hs' Hsent. split_and!; [done|done|]. eexists. split; [exact Hsent|]. apply decode_result_set_ok; [done|done|done|lia].
Qed.
(** *** An instance: an operator that fails after two rows *)
Section demo_mysql.
#[local] Existing Instance demo_text.
#[local] Existing Instance demo_uninit.
#[local] Existing Instance demo_ends.
#[local] Instance broken_ops : PhysOps () (list string * option string) := {|
  oper_open := mret RC.SUCCESS;
  oper_next '(w, (l, _)) := match l with [] => Done (RC.IOERR_READ, (w, ([], None))) | x :: l => Done (RC.SUCCESS, (w, (l, Some x))) end;
  oper_close := mret RC.SUCCESS;
  oper_current c := Done (demo_tuple <$> c.2);
  oper_set_parent _ c := Some c |}.
Definition broken_event : SessionEvent.t (list string * option string) :=
  SessionEvent.mk Session.default (Some (["ann"; "bob"]%string, None)) [alias_spec "name"] RC.SUCCESS [] [] (text "show").
Lemma mysql_result_roundtrip_witness :
  let comm := MysqlCommunicator.mk true CLIENT_PROTOCOL_41 1 in
  wp (MysqlCommunicator.write_result None (Z.to_nat 4194304))
    ((((), broken_event), (MkNet [] [] true, BufferedWriter.make_sized 3 64)), comm) (λ r s',
    r = (RC.SUCCESS, false) ∧ s'.1.1 = ((), SessionEvent.put_operator None broken_event) ∧
    ∃ bytes, sent 3 s'.1.2.1 = [] ++ bytes ∧
      decode_result_set (Z.to_nat 4194304) bytes = Some ([text "name"], [[text "ann"]; [text "bob"]], [])).
Proof.
  intros comm.
  destruct (mysql_result_roundtrip demo_text demo_uninit None () (list string * option string) demo_net broken_ops demo_ends
    demo_write demo_write_laws (Z.to_nat 4194304) 3 64 () () () RC.SUCCESS RC.IOERR_READ RC.SUCCESS (["ann"; "bob"]%string, None)
    (["ann"; "bob"]%string, None) [demo_tuple "ann"; demo_tuple "bob"] [[text "ann"]; [text "bob"]] broken_event
    (MkNet [] [] true, BufferedWriter.make_sized 3 64) comm demo_reliable) as (_ & _ & Hw).
  - apply demo_ready. lia.
  - unfold MysqlCommunicator.row_capacity. lia.
  - done.
  - split_and!; [done|simpl; lia|]. repeat constructor. vm_compute. discriminate.
  - done.
  - eapply stops_later; [reflexivity|reflexivity|]. eapply stops_later; [reflexivity|reflexivity|].
    eapply stops_here; [reflexivity|reflexivity|by eexists].
  - reflexivity.
  - vm_compute. reflexivity.
  - repeat constructor; try discriminate; vm_compute; discriminate.
  - cbn [length]. lia.
  - done.
  - exact Hw.
Defined.
End demo_mysql.

(** Numbers of the MySQL protocol.  A client reads the number that [store_lenenc_int] stored,
    unless it is in [2^16, 2^17) or [2^24, 2^25): there the highest bit is lost. *)
Theorem lenenc_roundtrip (v : Z) (m : memory) (Hv : 0 <= v < 2 ^ 64) :
  (decode_lenenc (lenenc_int v ++ m) = Some (v, m) ↔ ¬ (2 ^ 16 <= v < 2 ^ 17) ∧ ¬ (2 ^ 24 <= v < 2 ^ 25)) ∧
  (2 ^ 16 <= v < 2 ^ 17 → decode_lenenc (lenenc_int v ++ m) = Some (v - 2 ^ 16, m)) ∧
  (2 ^ 24 <= v < 2 ^ 25 → decode_lenenc (lenenc_int v ++ m) = Some (v - 2 ^ 24, m)).
Proof.
  rewrite decode_lenenc_int by done. split_and!.
  - split.
    + intros [= Hd]. destruct (decide (2 ^ 16 <= v < 2 ^ 17)); [lia|]. destruct (decide (2 ^ 24 <= v < 2 ^ 25)); [lia|done].
    + intros [H1 H2]. by rewrite !decide_False.
  - intros H. by rewrite decide_True.
  - intros H. rewrite decide_False by lia. by rewrite decide_True.
Qed.
Lemma lenenc_roundtrip_witness :
  (decode_lenenc (lenenc_int 70000 ++ [7]) = Some (70000, [7]) ↔ ¬ (2 ^ 16 <= 70000 < 2 ^ 17) ∧ ¬ (2 ^ 24 <= 70000 < 2 ^ 25)) ∧
  (2 ^ 16 <= 70000 < 2 ^ 17 → decode_lenenc (lenenc_int 70000 ++ [7]) = Some (70000 - 2 ^ 16, [7])) ∧
  (2 ^ 24 <= 70000 < 2 ^ 25 → decode_lenenc (lenenc_int 70000 ++ [7]) = Some (70000 - 2 ^ 24, [7])).
Proof. apply (lenenc_roundtrip 70000 [7]). lia. Defined.

(** ** LOAD DATA *)

(** The world of the load is the table: [Table::insert_record] is the model of [Table.v], over
    any indexes. *)
Section load_table.
Context {I : Type} `{IO : !IndexOps I} `{IS : !IndexSpec I} (trx_fields : option (list FieldMeta.t)).
Context (begin : gset PageNum → PageNum) (Hbegin : ∀ X, X ≠ ∅ → begin X ∈ X).
Context (flush_page : PageNum → RC.t) (Hflush : ∀ p, flush_page p = RC.SUCCESS).
Context (area : PageNum → nat → memory) (page_fuel : nat) (Hfuel : (1 <= page_fuel)%nat).
Context (files : string → memory + memory) (float_end : memory → bool) (cost : Table.table I → memory).
Implicit Types (t : Table.table I) (data : memory).
Abbreviation insert := (Table.insert_record trx_fields begin flush_page area page_fuel).
Definition table_loads : LoadOps (Table.table I) := {|
  file_data _ := files; table_insert_record _ data := (r ← insert data; mret (match r with inl rc => rc | inr _ => RC.SUCCESS end));
  float_to_end := float_end; cost_text := cost |}.
#[local] Existing Instance table_loads.
Context (m : TableMeta.t).
(** the indexes have room for [n] records more *)
Definition rooms_for (n : nat) t : Prop :=
  ∀ l t1, inserted (LO := table_loads) m t l t1 → (length l < n)%nat → Forall index_room (indexes_ t1).
Definition loadable (n : nat) t : Prop :=
  table_wf trx_fields t ∧ table_meta_ t = m ∧ storable area page_fuel (rec_size t) ∧ rooms_for n t.
Lemma load_step n t data :
  loadable (S n) t → record_ok m data →
  ∃ res t', insert data t = Done (res, t') ∧ table_wf trx_fields t' ∧ table_meta_ t' = m ∧
    match res with
    | inr rid => table_lookup t rid = None ∧ loadable n t' ∧
        ∀ rid', table_lookup t' rid' = if decide (rid' = rid) then Some data else table_lookup t rid'
    | inl rc => rc ≠ RC.SUCCESS ∧ ∀ rid', table_lookup t' rid' = table_lookup t rid'
    end.
Proof.
  intros (Hwf & Hm & Hst & Hroom) Hd.
  destruct (wp_table_insert_inv trx_fields begin Hbegin flush_page Hflush area page_fuel Hfuel t data (table_lookup t) Hwf)
    as (res & t' & Hrun & Hm' & Hres); [done|done|by unfold rec_size; rewrite Hm|apply (Hroom [] t); [constructor|cbn; lia]|].
  exists res, t'. rewrite Hm'. split; [done|]. destruct res as [rc|rid].
  - destruct Hres as (Hrc & Hinv & Hl). split; [by eapply table_inv_wf|]. split; [done|]. split; [|done]. by destruct Hrc as [-> | ->].
  - destruct Hres as (Hnone & Hinv & Hl). split; [by eapply table_inv_wf|]. split; [done|]. split; [done|]. split; [|done].
    split; [by eapply table_inv_wf|]. split; [by rewrite Hm'|]. split; [unfold rec_size in *; by rewrite Hm'|].
    intros l t1 Hl1 Hn. apply (Hroom (data :: l)); [|cbn; lia]. eapply inserted_cons; [|exact Hl1].
    cbn. unfold mbind, ST_bind. by rewrite Hrun.
Qed.
Lemma load_returns n t data :
  loadable (S n) t → record_ok m data →
  ∃ rc t', table_insert_record m data t = Done (rc, t') ∧ (rc = RC.SUCCESS → loadable n t').
Proof.
  intros Hl Hd. destruct (load_step n t data Hl Hd) as (res & t' & Hrun & _ & _ & Hres).
  exists (match res with inl rc => rc | inr _ => RC.SUCCESS end), t'. split; [cbn; unfold mbind, ST_bind; by rewrite Hrun|].
  intros Hrc. destruct res; [by destruct Hres|by destruct Hres as (_ & ? & _)].
Qed.
(** [t1] is the well-formed table [t] with the records under RIDs that were not in use. *)
Definition loaded t (rids : list RID.t) (records : list memory) t1 : Prop :=
  table_wf trx_fields t1 ∧ table_meta_ t1 = table_meta_ t ∧ length rids = length records ∧ NoDup rids ∧
  (∀ k rid data, rids !! k = Some rid → records !! k = Some data →
    table_lookup t rid = None ∧ table_lookup t1 rid = Some data) ∧
  ∀ rid, rid ∉ rids → table_lookup t1 rid = table_lookup t rid.
Lemma inserted_loaded t records t1 n :
  inserted (LO := table_loads) m t records t1 → Forall (record_ok m) records → (length records <= n)%nat → loadable n t →
  loadable (n - length records) t1 ∧ ∃ rids, loaded t rids records t1.
Proof.
  intros H. revert n. induction H as [t|t data t' records t1 Hrun H IH]; intros n Hok Hn Hl.
  { rewrite Nat.sub_0_r. split; [done|]. exists []. split_and!; [apply Hl|done|done|constructor|done|done]. }
  apply Forall_cons in Hok as [Hd Hok]. destruct n as [|n]; [cbn in Hn; lia|].
  destruct (load_step n t data Hl Hd) as (res & t2 & Hrun2 & _ & Hm2 & Hres).
  cbn in Hrun. unfold mbind, ST_bind in Hrun. rewrite Hrun2 in Hrun. injection Hrun as Hrc ->.
  destruct res as [rc|rid]; [by destruct Hres|]. destruct Hres as (Hnone & Hl2 & Hlook).
  destruct (IH n Hok) as [Hl1 (rids & Hwf1 & Hm1 & Hlen & Hnd & Hrids & Hother)]; [cbn in Hn; lia|done|]. split; [done|].
  assert (rid ∉ rids) as Hfresh.
  { intros [k Hk]%list_elem_of_lookup. destruct (lookup_lt_is_Some_2 records k) as [d Hkd].
    - rewrite <-Hlen. by eapply lookup_lt_Some.
    - destruct (Hrids k rid d Hk Hkd) as [Hnone' _]. rewrite Hlook, decide_True in Hnone' by done. done. }
  exists (rid :: rids). split_and!; [done|by rewrite Hm1, Hm2; symmetry; apply Hl|cbn; lia|by constructor| |].
  - intros [|k] rid' d Hk Hkd; cbn in Hk, Hkd; simplify_eq.
    + split; [done|]. rewrite Hother by done. by rewrite Hlook, decide_True.
    + destruct (Hrids k rid' d Hk Hkd) as [Hn' Hs']. split; [|done]. rewrite Hlook in Hn'. by case_decide.
  - intros rid' [Hne Hin]%not_elem_of_cons. rewrite Hother by done. by rewrite Hlook, decide_False.
Qed.
End load_table.

(** C20: LOAD DATA reads a file of rows back into a table.  The file has a line for each row: the
    texts of its values, none of them null, between the delimiters, each text non-empty
    ([split_string] drops empty ones) and without a delimiter, blanks in strings alone, and
    the line not blank.  The statement ends with SUCCESS, and has inserted with
    [Table::insert_record] records that show the first rows, in order, under RIDs that were
    not in use, and nothing else: all the rows, or those before the first row that the
    table refuses (a duplicate key, a full file), whose line and code the text of the result
    names.  When all the rows are in and a line with too few fields follows, what comes
    after it is not read and the rows before it stay.  The code of the request is SUCCESS in
    each case: only the text tells.  The table is well-formed, its indexes have room for the
    rows, and pages can be flushed. *)
Theorem load_data_roundtrip (L : LibText) (U : Uninit) (trx_fields : option (list FieldMeta.t))
  (I : Type) (IO : IndexOps I) (IS : IndexSpec I) (P : Type) (TE : TrxEnds (Table.table I)) (DB : DbOps (Table.table I))
  (begin : gset PageNum → PageNum) (flush_page : PageNum → RC.t) (area : PageNum → nat → memory) (page_fuel : nat)
  (files : string → memory + memory) (float_end : memory → bool) (cost : Table.table I → memory) (malloc : nat → memory)
  (t : Table.table I) (file : string) (rows : list (list Value)) (texts : list (list memory)) (rest : memory)
  (e : SessionEvent.t (Root.t P))
  (Hbegin : ∀ X, X ≠ ∅ → begin X ∈ X) (Hflush : ∀ p, flush_page p = RC.SUCCESS) (Hfuel : (1 <= page_fuel)%nat)
  (Hwf : table_wf trx_fields t) (Hst : storable area page_fuel (rec_size t))
  (Hrooms : rooms_for trx_fields begin flush_page area page_fuel files float_end cost (table_meta_ t) (length rows) t)
  (Hmalloc : ∀ k, record_ok (table_meta_ t) (malloc k)) (Hu : bytes4 uninit) :
  let LO := table_loads trx_fields begin flush_page area page_fuel files float_end cost in
  let m := table_meta_ t in
  Forall2 (line_dumps (LO := LO) (TableMeta.user_fields trx_fields m)) rows texts →
  rest = [] ∨ bad_line trx_fields m rest → files file = inr (file_text texts ++ rest) →
  let done t1 message := execute_command (LoadOps0 := LO) trx_fields malloc (Command.LOAD_DATA m file) (t, e) =
    Done (RC.SUCCESS, (t1, SessionEvent.set_state_string message (SessionEvent.set_return_code RC.SUCCESS e))) in
  ∃ rids records t1, loaded trx_fields t rids records t1 ∧
    Forall2 (row_shows trx_fields m) (take (length records) rows) records ∧
    ((length records = length rows ∧ done t1 (load_text (length rows) (cost t1) rest)) ∨
     (∃ vs data rc t2, rows !! length records = Some vs ∧ row_shows trx_fields m vs data ∧
        Table.insert_record trx_fields begin flush_page area page_fuel data t1 = Done (inl rc, t2) ∧
        table_wf trx_fields t2 ∧ (∀ rid, table_lookup t2 rid = table_lookup t1 rid) ∧
        done t2 (refused_text (S (length records)) rc))).
Proof.
  intros LO m Hrows Hrest Hfile ends.
  assert (loadable trx_fields begin flush_page area page_fuel files float_end cost m (length rows) t) as Hl by by split_and!.
  destruct (load_data_ok trx_fields malloc m (tw_meta _ _ _ Hwf) Hmalloc
    (loadable trx_fields begin flush_page area page_fuel files float_end cost m)
    (load_returns trx_fields begin Hbegin flush_page Hflush area page_fuel Hfuel files float_end cost m)
    file rows texts rest t Hfile Hrows Hrest Hu Hl) as (records & t1 & Hch & Hall & Hcases).
  assert (Forall (record_ok m) records) as Hok.
  { clear -Hall. revert Hall. generalize (take (length records) rows). intros l Hall. induction Hall as [|vs d l l' [Hd _] Hall IH]; by constructor. }
  assert (length records <= length rows)%nat as Hle.
  { apply Forall2_length in Hall. rewrite length_take in Hall. lia. }
  destruct (inserted_loaded trx_fields begin Hbegin flush_page Hflush area page_fuel Hfuel files float_end cost m
    t records t1 (length rows) Hch Hok Hle Hl) as [Hl1 (rids & Hloaded)].
  exists rids, records, t1. split; [done|]. split; [done|].
  assert (∀ t' message, LoadData.load_data trx_fields malloc m file t = Done ((RC.SUCCESS, message), t') → ends t' message) as Hends.
  { intros t' message E. unfold ends, execute_command, load_data, mbind at 1, ST_bind at 1, SqlResult.on_world. by rewrite E. }
  destruct Hcases as [[Hlen Hload]|(vs & data & rc & t2 & Hvs & Hsh & Hrc & Hrun & Hload)]; apply Hends in Hload; [by left|right].
  destruct (load_step trx_fields begin Hbegin flush_page Hflush area page_fuel Hfuel files float_end cost m
    (length rows - length records - 1) t1 data) as (res & t2' & Hrun2 & Hwf2 & _ & Hres).
  { apply lookup_lt_Some in Hvs. by replace (S (length rows - length records - 1)) with (length rows - length records)%nat by lia. }
  { by destruct Hsh. }
  cbn in Hrun. unfold mbind, ST_bind in Hrun. rewrite Hrun2 in Hrun. injection Hrun as Hrc' <-.
  destruct res as [rc'|rid]; [|by destruct Hrc]. subst rc'. exists vs, data, rc, t2'. by destruct Hres.
Qed.
(** *** An instance: an empty table, two people, and a line without a name *)
Section demo_load_data.
#[local] Existing Instance demo_text.
#[local] Existing Instance demo_uninit.
Definition demo_lines : list (list memory) := [[text "7"; text " bob"; text "2024-02-29"]; [text "-12"; text "al"; text "1999-12-31"]].
Definition demo_rest : memory := text "9" ++ [10] ++ text "10|eve|2001-01-01".
Definition demo_row (id : Z) (name : string) (born : Z) : list Value :=
  [MkValue INTS 4 (store32 id) []; MkValue CHARS (Z.of_nat (length (text name))) [0; 0; 0; 0] (text name); MkValue DATES 4 (store32 born) []].
Definition people_table : Table.table BplusTreeIndex := MkTable demo_table (FileState BPFileHeader.initial ∅ ∅ true) [].
Definition demo_garbage : memory := replicate (Z.to_nat (TableMeta.record_size demo_table)) 255.
Lemma people_storable : storable (λ _ _, demo_garbage) 1 (rec_size people_table).
Proof. split; [done|]. split; [done|]. intros h [= <-]. done. Qed.
Lemma people_wf : table_wf None people_table.
Proof. split; [by apply (init_wf None 1 "people" demo_attrs)|apply empty_file_wf|constructor]. Qed.
(** without an index there is room for any number of records *)
Lemma insert_no_indexes (data : memory) (t t' : Table.table BplusTreeIndex) r begin flush_page area fuel :
  Table.insert_record None begin flush_page area fuel data t = Done (r, t') → indexes_ t = [] → indexes_ t' = [].
Proof.
  unfold Table.insert_record, insert_into_indexes, insert_entry_of_indexes, on_indexes, on_handler.
  destruct t as [m h l]. intros Hrun Hl. cbn in Hl. subst l. unfold mbind, ST_bind, st_get in Hrun. cbn in Hrun.
  destruct (RecordFile.insert_record _ _ _ _ _ _ h) as [[[rc|rid] h']| |]; try done; cbn in Hrun; injection Hrun as <- <-; done.
Qed.
#[local] Instance demo_file_db : DbOps (Table.table BplusTreeIndex) := {|
  has_db _ := true; find_table _ _ := Some demo_table; has_index _ _ _ := false; table_indexes_of _ _ := ([], []);
  all_tables _ := ["people"]%string; readable_file _ _ := true;
  db_create_table _ _ := mret RC.SUCCESS; db_drop_table _ := mret RC.SUCCESS; table_create_index _ _ _ _ := mret RC.SUCCESS |}.
#[local] Instance demo_file_ends : TrxEnds (Table.table BplusTreeIndex) := {|
  start_if_need := mret RC.SUCCESS; commit := mret RC.SUCCESS; rollback := mret RC.SUCCESS |}.
Definition demo_user : list FieldMeta.t := Eval vm_compute in TableMeta.user_fields None demo_table.
Lemma demo_plain s : bool_decide (Forall (λ c, c ≠ 0 ∧ c ≠ 10 ∧ c ≠ 124) s) = true → s ≠ [] → plain_text s.
Proof. intros Hs%bool_decide_eq_true_1 Hb. by split. Qed.
Lemma demo_word s : bool_decide (Forall (λ c, is_space c = false) s) = true → Forall (λ c, is_space c = false) s.
Proof. by intros Hs%bool_decide_eq_true_1. Qed.
Lemma demo_dumps (f : FieldMeta.t) (ty : AttrType) (n : Z) (s : memory) y mo d :
  FieldMeta.type f = ty → FieldMeta.len f = 4 → plain_text s → Forall (λ c, is_space c = false) s →
  Val.to_string (MkValue ty 4 (store32 n) []) = Some s →
  ty = INTS ∨ ty = DATES ∧ calendar y mo d ∧ n = encode_date y mo d →
  dumps f (MkValue ty 4 (store32 n) []) s.
Proof.
  intros <- Hl Hp Hs Hts H.
  assert (FieldMeta.type f = INTS ∨ FieldMeta.type f = DATES) as Hty by (destruct H as [?|[? _]]; auto).
  split; [right; right; destruct Hty; auto|].
  split; [by apply number_wf; [apply store32_bytes4|destruct Hty as [-> | ->]..]|]. split; [done|]. split; [done|].
  split; [done|]. destruct H as [E|(E & Hc & ->)]; rewrite E in *; [done|]. split; [done|]. by exists y, mo, d.
Qed.
Lemma demo_no_nul s : bool_decide (no_nul s) = true → no_nul s.
Proof. by intros Hs%bool_decide_eq_true_1. Qed.
Lemma demo_dumps_name (f : FieldMeta.t) name :
  FieldMeta.type f = CHARS → no_nul (text name) → plain_text (text name) →
  dumps f (MkValue CHARS (Z.of_nat (length (text name))) [0; 0; 0; 0] (text name)) (text name).
Proof.
  intros E Hn Hp. split; [by left|]. split; [|by rewrite E]. split; [|done]. split; [done|]. by repeat constructor.
Qed.
Definition demo_files (_ : string) : memory + memory := inr (file_text demo_lines ++ demo_rest).
Abbreviation demo_loads := (table_loads None first_element (λ _, RC.SUCCESS) (λ _ _, demo_garbage) 1 demo_files (λ _, true)
  (λ _ : Table.table BplusTreeIndex, text "0")).
Lemma people_rooms n :
  rooms_for None first_element (λ _, RC.SUCCESS) (λ _ _, demo_garbage) 1 demo_files (λ _, true) (λ _, text "0") demo_table n people_table.
Proof.
  intros l t1 H _. assert (indexes_ t1 = []) as ->; [|constructor].
  assert (indexes_ people_table = []) as Hl by done. revert Hl. induction H as [|t data t' l t1 Hrun H IH]; [done|]. intros Hl.
  apply IH. cbn in Hrun. unfold mbind, ST_bind in Hrun.
  destruct (Table.insert_record _ _ _ _ _ data t) as [[r t2]| |] eqn:E; try done. injection Hrun as _ <-. by eapply insert_no_indexes.
Qed.
Lemma load_data_roundtrip_witness :
  ∃ rids records t1, loaded None people_table rids records t1 ∧
    Forall2 (row_shows None demo_table) (take (length records) [demo_row 7 " bob" 20240229; demo_row (-12) "al" 19991231]) records ∧
    ((length records = 2%nat ∧
      execute_command (P := ()) (LoadOps0 := demo_loads) None (λ _, demo_garbage) (Command.LOAD_DATA demo_table "people.txt") (people_table, demo_request "load") =
        Done (RC.SUCCESS, (t1, SessionEvent.set_state_string
          (text "Line:3 insert record failed:. error:SCHEMA_FIELD_MISSING" ++ [10]) (demo_request "load")))) ∨
     (∃ vs data rc t2, [demo_row 7 " bob" 20240229; demo_row (-12) "al" 19991231] !! length records = Some vs ∧ row_shows None demo_table vs data ∧
        Table.insert_record None first_element (λ _, RC.SUCCESS) (λ _ _, demo_garbage) 1 data t1 = Done (inl rc, t2) ∧
        table_wf None t2 ∧ (∀ rid, table_lookup t2 rid = table_lookup t1 rid) ∧
        execute_command (P := ()) (LoadOps0 := demo_loads) None (λ _, demo_garbage) (Command.LOAD_DATA demo_table "people.txt") (people_table, demo_request "load") =
          Done (RC.SUCCESS, (t2, SessionEvent.set_state_string (refused_text (S (length records)) rc) (demo_request "load"))))).
Proof.
  refine (load_data_roundtrip demo_text demo_uninit None BplusTreeIndex _ _ () demo_file_ends demo_file_db first_element (λ _, RC.SUCCESS)
    (λ _ _, demo_garbage) 1 demo_files (λ _, true) (λ _, text "0") (λ _, demo_garbage) people_table "people.txt"
    [demo_row 7 " bob" 20240229; demo_row (-12) "al" 19991231] demo_lines demo_rest (demo_request "load")
    first_element_in (λ _, eq_refl) (le_n 1) people_wf people_storable (people_rooms 2) (λ _, eq_refl) _ _ _ eq_refl).
  - split; [done|]. repeat constructor; unfold Bitmap.byte_ok; lia.
  - repeat apply Forall2_cons_2; [..|constructor]; (split; [|vm_compute; reflexivity]).
    + change (TableMeta.user_fields None demo_table) with demo_user. apply row_dumps_cons; [|apply row_dumps_cons; [|apply row_dumps_cons; [|constructor]]].
      * apply (demo_dumps _ INTS 7 _ 0 0 0); [reflexivity|reflexivity|by apply demo_plain|by apply demo_word|reflexivity|by left].
      * apply demo_dumps_name; [reflexivity|by apply demo_no_nul|by apply demo_plain].
      * apply (demo_dumps _ DATES 20240229 _ 2024 2 29); [reflexivity|reflexivity|by apply demo_plain|by apply demo_word|reflexivity|right; split; [done|]; split; [by vm_compute|done]].
    + change (TableMeta.user_fields None demo_table) with demo_user. apply row_dumps_cons; [|apply row_dumps_cons; [|apply row_dumps_cons; [|constructor]]].
      * apply (demo_dumps _ INTS (-12) _ 0 0 0); [reflexivity|reflexivity|by apply demo_plain|by apply demo_word|reflexivity|by left].
      * apply demo_dumps_name; [reflexivity|by apply demo_no_nul|by apply demo_plain].
      * apply (demo_dumps _ DATES 19991231 _ 1999 12 31); [reflexivity|reflexivity|by apply demo_plain|by apply demo_word|reflexivity|right; split; [done|]; split; [by vm_compute|done]].
  - right. exists (text "9"), (text "10|eve|2001-01-01"). split_and!; [reflexivity| |reflexivity|vm_compute; lia].
    intros [?|?%elem_of_nil]%elem_of_cons; done.
Defined.
End demo_load_data.
