(* ===== verification/CatalogCorrect.v ===== *)
(** * Databases and their files, proved

    The document of a table gives the table back.  While the calls of the system succeed, the
    files of a database and the tables it has opened belong together, [catalog_ok]: creating
    tables and indexes keeps it, and a new process opens the same tables from the files. *)
From S2P Require Import Prelude RidKey Comparator Bitmap BufferPool BplusNode TableMeta TableTheorems OrderScan Catalog.
From Stdlib Require Import ZArith Lia Ascii String.
From stdpp Require Import base option strings gmap sets list sorting.
Local Open Scope Z_scope.
Local Open Scope string_scope.

(** ** Documents *)
Section documents.
Context {J T : Type} `{!Json J T} `{!JsonSpec J T} {So : SortOps} {Std : StdSort}.

Definition field_ok (f : FieldMeta.t) : Prop :=
  is_blank (FieldMeta.name f) = false ∧ is_ascii (FieldMeta.name f) = true ∧ FieldMeta.type f ≠ UNDEFINED ∧
  0 <= FieldMeta.offset f ∧ 0 < FieldMeta.len f ∧ is_int32 (FieldMeta.offset f) ∧ is_int32 (FieldMeta.len f).
Definition index_meta_ok (m : TableMeta.t) (i : IndexMeta.t) : Prop :=
  is_blank (IndexMeta.name i) = false ∧ is_ascii (IndexMeta.name i) = true ∧
  Forall (λ n, is_ascii n = true ∧ is_Some (TableMeta.field_by_name m n)) (IndexMeta.fields i).
(** the metadata that documents can hold *)
Record meta_ok (m : TableMeta.t) : Prop := {
  mo_chained : chained 0 (TableMeta.fields m) (TableMeta.record_size m);
  mo_fields : TableMeta.fields m ≠ [];
  mo_field : Forall field_ok (TableMeta.fields m);
  mo_id : 0 <= TableMeta.table_id m ∧ is_int32 (TableMeta.table_id m);
  mo_name : is_ascii (TableMeta.name m) = true;
  mo_indexes : Forall (index_meta_ok m) (TableMeta.indexes m)
}.

Lemma attr_type_back t : attr_type_from_string (attr_type_to_string t) = t.
Proof. by destruct t. Qed.

(** the members of a built object *)
Definition is_object (v : J) : Prop := v = json_null ∨ isObject v = true.
Lemma object_null : is_object json_null.
Proof. by left. Qed.
Lemma object_set_ok v k x : is_object v → is_object (set_member v k x).
Proof. right. by apply object_set. Qed.
Lemma get_of_set v k k' x : is_object v → get_member (set_member v k x) k' = if (k =? k')%string then Some x else get_member v k'.
Proof. intros Hv. rewrite get_set by done. destruct (String.eqb_spec k k'); case_decide; done. Qed.
Ltac objects := repeat apply object_set_ok; apply object_null.
Ltac members := rewrite !get_of_set by objects; cbn [String.eqb Ascii.eqb Bool.eqb]; cbn beta iota.

Lemma plain_field f : field_ok f → plain (field_to_json f).
Proof.
  intros (_ & Ha & _ & _ & _ & Ho & Hl). unfold field_to_json.
  apply plain_set; [|apply plain_bool|reflexivity]. apply plain_set; [|by apply plain_int|reflexivity].
  apply plain_set; [|by apply plain_int|reflexivity]. apply plain_set; [|apply plain_bool|reflexivity].
  apply plain_set; [|apply plain_string; by destruct (FieldMeta.type f)|reflexivity].
  apply plain_set; [apply plain_null|by apply plain_string|reflexivity].
Qed.
Lemma field_back f : field_ok f → field_from_json (field_to_json f) = Done (inr f).
Proof.
  intros (Hb & Ha & Ht & Ho & Hl & Ho32 & Hl32). unfold field_from_json.
  assert (isObject (field_to_json f) = true) as -> by (apply object_set; objects).
  cbn [negb]. unfold member, field_to_json. members.
  rewrite !(proj1 (string_string _)), !(proj2 (string_string _)).
  rewrite (proj1 (int_int _ Ho32)), (proj2 (int_int _ Ho32)), (proj1 (int_int _ Hl32)), (proj2 (int_int _ Hl32)).
  rewrite !(proj1 (bool_bool _)), !(proj2 (bool_bool _)), attr_type_back. cbn [negb]. rewrite decide_False by done.
  unfold FieldMeta.init. rewrite Hb, decide_False by (intros [?|[?|?]]; [done|lia|lia]). by destruct f.
Qed.

(** arrays *)
Lemma elements_build {A} (g : A → J) l v :
  (v = json_null ∨ isArray v = true) → l ≠ [] →
  json_elements (fold_left (λ l x, json_append l (g x)) l v) = (json_elements v ++ (g <$> l))%list ∧
  isArray (fold_left (λ l x, json_append l (g x)) l v) = true ∧
  json_empty (fold_left (λ l x, json_append l (g x)) l v) = false.
Proof.
  revert v. induction l as [|x l IH]; intros v Hv Hne; [done|]. cbn [fold_left fmap list_fmap].
  destruct l as [|y l].
  - cbn. rewrite elements_append, array_append, empty_append by done. done.
  - destruct (IH (json_append v (g x)) (or_intror (array_append _ _ Hv)) ltac:(done)) as (-> & -> & ->).
    rewrite elements_append by done. by rewrite <-(assoc_L (++)%list).
Qed.
Lemma plain_build {A} (g : A → J) l v : plain v → Forall (λ x, plain (g x)) l → plain (fold_left (λ l x, json_append l (g x)) l v).
Proof. revert v. induction l as [|x l IH]; intros v Hv Hl; [done|]. inversion Hl; subst. cbn. apply IH; [by apply plain_append|done]. Qed.
Lemma elements_of_null {A} (g : A → J) l : json_elements (fold_left (λ l x, json_append l (g x)) l json_null) = (g <$> l)%list.
Proof.
  destruct l as [|x l]; [apply elements_null|].
  destruct (elements_build g (x :: l) json_null (or_introl eq_refl) ltac:(done)) as (-> & _). by rewrite elements_null.
Qed.

Lemma plain_index m i : index_meta_ok m i → plain (index_to_json i).
Proof.
  intros (_ & Ha & Hf). unfold index_to_json.
  assert (plain (set_member (set_member json_null "name" (json_string (IndexMeta.name i))) "unique" (json_bool (IndexMeta.unique i)))) as Hp.
  { apply plain_set; [apply plain_set; [apply plain_null|by apply plain_string|reflexivity]|apply plain_bool|reflexivity]. }
  destruct (IndexMeta.fields i) as [|n ns] eqn:E; [done|]. apply plain_set; [done| |reflexivity].
  apply (plain_build json_string); [apply plain_null|]. eapply Forall_impl; [exact Hf|]. intros x [? _]. by apply plain_string.
Qed.
Lemma field_names_back m l :
  Forall (λ n, is_ascii n = true ∧ is_Some (TableMeta.field_by_name m n)) l → index_field_names m (json_string <$> l) = inr l.
Proof.
  induction l as [|n l IH]; intros Hl; [done|]. apply Forall_cons in Hl as [[_ [f Hf]] Hl]. cbn.
  rewrite (proj1 (string_string n)), (proj2 (string_string n)), Hf, (IH Hl). cbn.
  apply List.find_some in Hf as [_ Hn]. apply bool_decide_eq_true in Hn. by rewrite Hn.
Qed.
Lemma index_back m i : index_meta_ok m i → index_from_json m (index_to_json i) = Done (inr i).
Proof.
  intros (Hb & Ha & Hf). unfold index_from_json, index_to_json.
  assert (∀ fields, json_elements fields = (json_string <$> IndexMeta.fields i)%list →
    match index_field_names m (json_elements fields) with
    | inl rc => Done (inl rc)
    | inr names => Done (IndexMeta.init (IndexMeta.name i) names (IndexMeta.unique i))
    end = Done (inr i)) as Hrest.
  { intros fields ->. rewrite (field_names_back _ _ Hf). unfold IndexMeta.init. rewrite Hb. by destruct i. }
  destruct (IndexMeta.fields i) as [|n ns] eqn:E.
  - members. rewrite get_null.
    rewrite !(proj1 (string_string _)), !(proj2 (string_string _)), !(proj1 (bool_bool _)), !(proj2 (bool_bool _)). cbn [negb].
    apply Hrest. by rewrite elements_null.
  - members.
    rewrite !(proj1 (string_string _)), !(proj2 (string_string _)), !(proj1 (bool_bool _)), !(proj2 (bool_bool _)). cbn [negb].
    apply Hrest. by rewrite elements_of_null.
Qed.

Lemma each_back {A} (to : A → J) (from : J → outcome (RC.t + A)) l :
  Forall (λ x, from (to x) = Done (inr x)) l → each_element from (to <$> l)%list = Done (Some l).
Proof. induction 1 as [|x l Hx _ IH]; [done|]. cbn. rewrite Hx. cbn. by rewrite IH. Qed.

(** sorting what is in order already *)
Lemma chained_sorted o l e : chained o l e → StronglySorted (λ f g, FieldMeta.offset f < FieldMeta.offset g) l.
Proof.
  revert o. induction l as [|f l IH]; intros o; [constructor|]. cbn. intros (Ho & Hl & Hc). constructor; [by eapply IH|].
  apply Forall_forall. intros g [i Hi]%list_elem_of_lookup. destruct (chained_bounds _ _ _ _ _ Hc Hi). lia.
Qed.
Lemma sort_chained o l e : chained o l e → OrderScan.sort FieldMeta.t offset_before l = Some l.
Proof.
  intros Hc. pose proof (chained_sorted _ _ _ Hc) as Hs.
  assert (strict_weak offset_before l) as Hw.
  { unfold offset_before. split.
    - intros x y _ _. eauto.
    - intros x _. f_equal. apply bool_decide_eq_false. lia.
    - intros x y z _ _ _ [= Hx%bool_decide_eq_true] [= Hy%bool_decide_eq_true]. f_equal. apply bool_decide_eq_true. lia.
    - intros x y z _ _ _ [= Hx%bool_decide_eq_false] [= Hy%bool_decide_eq_false]. f_equal. apply bool_decide_eq_false. lia. }
  destruct (sort_spec _ _ _ Hw) as (l' & -> & Hp & Ho). f_equal.
  apply (StronglySorted_unique_strong (λ f g, FieldMeta.offset f <= FieldMeta.offset g)); [| | |done].
  - intros f g Hf Hg H1 H2. rewrite Hp in Hf. clear -Hs Hf Hg H1 H2.
    induction Hs as [|x l Hs IH Hx]; [by apply not_elem_of_nil in Hf|]. rewrite Forall_forall in Hx.
    apply elem_of_cons in Hf as [->|Hf], Hg as [->|Hg]; [done| | |by apply IH].
    + specialize (Hx _ Hg). lia.
    + specialize (Hx _ Hf). lia.
  - unfold in_order, offset_before in Ho. clear -Ho. induction Ho as [|x l' Ho IH Hx]; constructor; [done|].
    eapply Forall_impl; [exact Hx|]. intros y [= H%bool_decide_eq_false]. lia.
  - clear -Hs. induction Hs as [|x l Hs IH Hx]; constructor; [done|]. eapply Forall_impl; [exact Hx|]. intros y ?. cbn in *. lia.
Qed.

Lemma metadata_back m : meta_ok m → deserialize (serialize m) = Done (Some m).
Proof.
  intros [Hc Hne Hf [Hid0 Hid] Hn Hi]. unfold deserialize, serialize. rewrite parse_write.
  2: { unfold meta_to_json. apply plain_set; [apply plain_set; [apply plain_set; [apply plain_set; [apply plain_null|by apply plain_int|reflexivity]|
      by apply plain_string|reflexivity]| |reflexivity]| |reflexivity].
    - apply plain_build; [apply plain_null|]. eapply Forall_impl; [exact Hf|]. apply plain_field.
    - apply plain_build; [apply plain_null|]. eapply Forall_impl; [exact Hi|]. apply plain_index. }
  unfold meta_from_json, meta_to_json. members.
  rewrite (proj1 (int_int _ Hid)), (proj2 (int_int _ Hid)), (proj1 (string_string _)), (proj2 (string_string _)). cbn [negb].
  destruct (elements_build field_to_json (TableMeta.fields m) json_null (or_introl eq_refl) Hne) as (_ & -> & _).
  rewrite !elements_of_null. cbn [negb orb].
  rewrite bool_decide_eq_false_2 by (by destruct (TableMeta.fields m)).
  rewrite each_back by (eapply Forall_impl; [exact Hf|]; apply field_back). cbn [outcome_bind].
  rewrite (sort_chained _ _ _ Hc), (chained_size _ _ Hc Hne).
  destruct (TableMeta.indexes m) as [|i il] eqn:Ei.
  - cbn. rewrite empty_null. destruct m; cbn in *. by subst.
  - destruct (elements_build index_to_json (i :: il) json_null (or_introl eq_refl) ltac:(done)) as (_ & -> & ->). cbn [negb].
    rewrite each_back.
    + cbn. destruct m; cbn in *. by subst.
    + rewrite <-Ei in *. eapply Forall_impl; [exact Hi|]. intros x Hx. apply index_back. exact Hx.
Qed.
End documents.

(** *** The metadata of a new table *)
Section new_meta.
Context (trx_fields : option (list FieldMeta.t)).
Definition attr_small (a : AttrInfo) : Prop := is_ascii (attr_name a) = true.
Lemma init_field name ty n o l v f :
  FieldMeta.init name ty n o l v = inr f → is_ascii name = true → is_int32 (o + l) → field_ok f.
Proof.
  unfold FieldMeta.init, field_ok, is_int32. destruct (is_blank name) eqn:Hb; [done|]. case_decide as H; [done|].
  intros [= <-] Ha Hi. cbn. split_and!; try done; try lia. intros ->. tauto.
Qed.
Lemma place_trx_ok l o fs e :
  TableMeta.place_trx_fields l o = Some (fs, e) → Forall (λ f, is_ascii (FieldMeta.name f) = true) l →
  e < 2 ^ 31 → Forall field_ok fs.
Proof.
  revert o fs. induction l as [|f l IH]; intros o fs; cbn; [by intros [= <- <-]|].
  destruct (FieldMeta.make _ _ _ _ _ _) as [f'|] eqn:Hf; [|done]. cbn.
  destruct (TableMeta.place_trx_fields l _) as [[fs' e']|] eqn:Hp; [|done]. cbn.
  intros [= <- <-] Ha He. apply Forall_cons in Ha as [Ha Hl]. pose proof (make_inv _ _ _ _ _ _ _ Hf) as (Ho & Hlen & Hpos).
  destruct (place_trx_chained _ _ _ _ Hp) as [Hc%chained_le _].
  constructor; [|by eapply IH]. unfold FieldMeta.make in Hf. destruct (FieldMeta.init _ _ _ _ _ _) as [|g] eqn:Hg; [done|].
  injection Hf as <-. eapply init_field; [exact Hg|done|]. unfold FieldMeta.init in Hg.
  destruct (is_blank _); [done|]. case_decide as H; [done|]. unfold is_int32. lia.
Qed.
Lemma place_ok l o fs e :
  TableMeta.place_fields l o = inr (fs, e) → Forall attr_small l → e < 2 ^ 31 → Forall field_ok fs.
Proof.
  revert o fs. induction l as [|a l IH]; intros o fs; cbn; [by intros [= <- <-]|].
  destruct (FieldMeta.init _ _ _ _ _ _) as [|f] eqn:Hf; [done|].
  destruct (TableMeta.place_fields l _) as [|[fs' e']] eqn:Hp; [done|].
  intros [= <- <-] Ha He. apply Forall_cons in Ha as [Ha Hl]. destruct (place_chained _ _ _ _ Hp) as [Hc%chained_le _].
  constructor; [|by eapply IH]. eapply init_field; [exact Hf|done|]. unfold FieldMeta.init in Hf.
  destruct (is_blank _); [done|]. case_decide as H; [done|]. unfold is_int32. lia.
Qed.
Lemma init_ok id name attrs m :
  TableMeta.init trx_fields id name attrs = Done (inr m) → 0 <= id < 2 ^ 31 → is_ascii name = true →
  Forall attr_small attrs → Forall (λ f, is_ascii (FieldMeta.name f) = true) (default [] trx_fields) →
  TableMeta.record_size m < 2 ^ 31 →
  meta_ok m ∧ TableMeta.name m = name ∧ TableMeta.table_id m = id ∧ TableMeta.indexes m = [].
Proof.
  intros Hinit Hid Hname Hattrs Htrx Hsize. pose proof (init_wf _ _ _ _ _ Hinit) as [Hc Hu _].
  unfold TableMeta.init in Hinit. destruct (is_blank name); [done|]. case_decide as Hne; [done|].
  destruct (TableMeta.place_trx_fields _ 0) as [[trx o]|] eqn:Ht; [|done]. cbv zeta in Hinit.
  set (len := TableMeta.null_field_len _ _) in Hinit.
  destruct (TableMeta.place_fields attrs _) as [|[fs e]] eqn:Hf; [done|]. injection Hinit as <-. cbn in *.
  assert (0 < len) as Hl0.
  { unfold len, TableMeta.null_field_len. rewrite Z.quot_div_nonneg by lia.
    pose proof (Z.div_pos (Z.of_nat (length trx) + 1 + Z.of_nat (length attrs)) 8). lia. }
  destruct (place_trx_chained _ _ _ _ Ht) as [Hct%chained_le _]. destruct (place_chained _ _ _ _ Hf) as [Hcf%chained_le _].
  split_and!; [|done..]. split; cbn; [done| | | |done|constructor].
  - by destruct trx.
  - apply Forall_app. split; [eapply place_trx_ok; [exact Ht|done|lia]|]. constructor; [|eapply place_ok; [exact Hf|done|lia]].
    destruct (FieldMeta.init TableMeta.null_field_name CHARS false o len false) as [|f] eqn:Hn.
    + exfalso. unfold FieldMeta.init in Hn. change (is_blank TableMeta.null_field_name) with false in Hn. cbv iota in Hn.
      rewrite decide_False in Hn by (intros [?|[?|?]]; [done|lia|lia]). done.
    + eapply init_field; [exact Hn|done|]. unfold is_int32. lia.
  - split; [lia|]. unfold is_int32. lia.
Qed.
End new_meta.

(** ** The names of files *)
Abbreviation la := String.list_ascii_of_string.
Lemma la_app s1 s2 : la (s1 +:+ s2) = (la s1 ++ la s2)%list.
Proof. induction s1 as [|c s1 IH]; [done|]. exact (f_equal (cons c) IH). Qed.
Lemma la_inj s1 s2 : la s1 = la s2 → s1 = s2.
Proof. intros H. by rewrite <-(String.string_of_list_ascii_of_string s1), H, String.string_of_list_ascii_of_string. Qed.
(** a name that does not end the name of a table inside that of a file *)
Definition name_char (c : ascii) : Prop := c ≠ "-"%char ∧ c ≠ "."%char ∧ c ≠ "/"%char.
Definition plain_name (n : string) : Prop := is_blank n = false ∧ is_ascii n = true ∧ Forall name_char (la n).

Lemma meta_file_inj d n n' : table_meta_file d n = table_meta_file d n' → n = n'.
Proof.
  unfold table_meta_file. intros H%(f_equal la). rewrite !la_app in H.
  apply (inj (app (la d))), (inj (app (la "/"))), (inj (λ l, app l (la ".table"))) in H. by apply la_inj.
Qed.
Lemma tmp_file_inj d n n' : table_meta_file d n +:+ ".tmp" = table_meta_file d n' +:+ ".tmp" → n = n'.
Proof.
  intros H%(f_equal la). rewrite !la_app in H. apply (inj (λ l, app l (la ".tmp"))), la_inj in H. by eapply meta_file_inj.
Qed.
Lemma data_file_inj d n n' : table_data_file d n = table_data_file d n' → n = n'.
Proof.
  unfold table_data_file. intros H%(f_equal la). rewrite !la_app in H.
  apply (inj (app (la d))), (inj (app (la "/"))), (inj (λ l, app l (la ".data"))) in H. by apply la_inj.
Qed.
Lemma split_dash l1 l2 r1 r2 :
  Forall name_char l1 → Forall name_char l2 → (l1 ++ "-"%char :: r1 = l2 ++ "-"%char :: r2)%list → l1 = l2 ∧ r1 = r2.
Proof.
  intros H1. revert l2. induction H1 as [|c l1 Hc H1 IH]; intros l2 H2; inversion H2 as [|c' l2' Hc' H2']; subst; cbn.
  - by intros [= ->].
  - intros [= <- _]. by destruct Hc'.
  - intros [= -> _]. by destruct Hc.
  - intros [= -> H]. by destruct (IH _ H2' H) as [-> ->].
Qed.
Lemma index_file_inj d n i n' i' :
  plain_name n → plain_name n' → table_index_file d n i = table_index_file d n' i' → n = n' ∧ i = i'.
Proof.
  intros (_ & _ & Hn) (_ & _ & Hn'). unfold table_index_file. intros H%(f_equal la). rewrite !la_app in H.
  apply (inj (app (la d))), (inj (app (la "/"))) in H. destruct (split_dash _ _ _ _ Hn Hn' H) as [H1 H2].
  apply (inj (λ l, app l (la ".index"))) in H2. split; by apply la_inj.
Qed.
(** the kinds of files differ in the last character *)
Lemma last_of s s' c c' : last (la s) = Some c → last (la s') = Some c' → c ≠ c' → s ≠ s'.
Proof. intros H1 H2 Hc ->. congruence. Qed.
Lemma last_meta d n : last (la (table_meta_file d n)) = Some "e"%char.
Proof. unfold table_meta_file. by rewrite !la_app, !last_app. Qed.
Lemma last_tmp d n : last (la (table_meta_file d n +:+ ".tmp")) = Some "p"%char.
Proof. by rewrite la_app, last_app. Qed.
Lemma last_data d n : last (la (table_data_file d n)) = Some "a"%char.
Proof. unfold table_data_file. by rewrite !la_app, !last_app. Qed.
Lemma last_index d n i : last (la (table_index_file d n i)) = Some "x"%char.
Proof. unfold table_index_file. by rewrite !la_app, !last_app. Qed.
Ltac other_kind := eapply last_of; [eauto using last_meta, last_data, last_index, last_tmp..|done].

Lemma after_prefix_Some p s r : after_prefix p s = Some r ↔ s = (p ++ r)%list.
Proof.
  revert s. induction p as [|c p IH]; intros s; cbn; [split; congruence|]. destruct s as [|c' s]; [done|].
  case_decide as H; [subst; rewrite IH; split; congruence|]. split; [done|]. congruence.
Qed.
Lemma in_directory_Some d path f : in_directory d path = Some f ↔ path = d +:+ "/" +:+ f ∧ "/"%char ∉ la f.
Proof.
  unfold in_directory. destruct (after_prefix _ _) as [r|] eqn:E; cbn [mbind option_bind].
  - apply after_prefix_Some in E. rewrite <-(assoc_L (++)%list) in E. split.
    + case_bool_decide; [done|]. intros [= <-]. rewrite String.list_ascii_of_string_of_list_ascii. split; [|done].
      apply la_inj. by rewrite !la_app, String.list_ascii_of_string_of_list_ascii.
    + intros [-> Hf]. rewrite !la_app in E. apply (inj (app (la d))), (inj (app (la "/"))) in E. subst r.
      rewrite bool_decide_eq_false_2 by done. by rewrite String.string_of_list_ascii_of_string.
  - split; [done|]. intros [-> Hf]. rewrite !la_app in E.
    assert (after_prefix (la d ++ ["/"%char])%list (la d ++ la "/" ++ la f)%list = Some (la f)) as E'; [|congruence].
    apply after_prefix_Some. by rewrite <-(assoc_L (++)%list).
Qed.
Lemma meta_file_listed d n : plain_name n →
  in_directory d (table_meta_file d n) = Some (n +:+ ".table") ∧ meta_file_name (n +:+ ".table") = true.
Proof.
  intros (Hb & _ & Hn). split.
  - apply in_directory_Some. split; [done|]. rewrite la_app. intros [H|H]%elem_of_app.
    + rewrite Forall_forall in Hn. by destruct (Hn _ H) as (_ & _ & ?).
    + by vm_compute in H; repeat (apply elem_of_cons in H as [H|H]; [done|]); apply not_elem_of_nil in H.
  - destruct n as [|c n]; [done|]. cbn in Hn. apply Forall_cons in Hn as [(_ & Hc & _) _].
    assert (bool_decide (la ".table" `suffix_of` la (String c n +:+ ".table")) = true) as Hs.
    { apply bool_decide_eq_true. rewrite la_app. by apply suffix_app_r. }
    unfold meta_file_name. cbn in *. rewrite Hs. destruct c as [[] [] [] [] [] [] [] []]; done.
Qed.

(** ** The files and the tables that are open *)
Section catalog.
Context {J T : Type} `{!Json J T} `{!JsonSpec J T} {So : SortOps} {Std : StdSort} `{!Os T}.
Implicit Types (w : world T) (d : Db) (t : Table).

Definition pages_at w (path : string) (P : pool_pages → Prop) : Prop :=
  ∃ p, files w !! path = Some (Pages p) ∧ is_Some (header_page p) ∧ P p.
Definition pool_ok w (path : string) (p : option nat) : Prop :=
  ∃ id b, p = Some id ∧ buffer_pools_ w !! path = Some id ∧ pools w !! id = Some b ∧ file_name_ b = path.
(** the header of an index says how its keys are made *)
Definition layout (g : IndexPage) : bool * Z * list Z * list Z * list AttrType :=
  (unique (tree_header g), key_length g, attr_offsets g, attr_lengths g, attr_types g).
Definition has_layout (fields : list FieldMeta.t) (u : bool) (p : pool_pages) : Prop :=
  ∃ g, index_page p = Some g ∧ layout g = layout (new_header fields u).
Record index_ok w (dir n : string) (m : TableMeta.t) (im : IndexMeta.t) (i : Index) : Prop := {
  io_meta : index_meta_ i = im;
  io_fields : metas_of m (IndexMeta.fields im) = Some (field_metas_ i);
  io_inited : inited_ i = true;
  io_pool : pool_ok w (table_index_file dir n (IndexMeta.name im)) (disk_buffer_pool_ i);
  io_header : layout (file_header_ i) = layout (new_header (field_metas_ i) (IndexMeta.unique im));
  io_file : pages_at w (table_index_file dir n (IndexMeta.name im)) (has_layout (field_metas_ i) (IndexMeta.unique im))
}.
Record table_ok w (dir n : string) t : Prop := {
  to_name : table_name t = n;
  to_plain : plain_name n;
  to_dir : base_dir_ t = dir;
  to_meta : meta_ok (table_meta_ t);
  to_meta_file : files w !! table_meta_file dir n = Some (Document (serialize (table_meta_ t)));
  to_data_file : pages_at w (table_data_file dir n) (λ _, True);
  to_data_pool : pool_ok w (table_data_file dir n) (data_buffer_pool_ t);
  to_indexes : Forall2 (index_ok w dir n (table_meta_ t)) (TableMeta.indexes (table_meta_ t)) (indexes_ t);
  to_names : NoDup (IndexMeta.name <$> TableMeta.indexes (table_meta_ t))
}.
Record pools_ok w : Prop := {
  po_named : ∀ path id, buffer_pools_ w !! path = Some id → ∃ b, pools w !! id = Some b ∧ file_name_ b = path;
  po_next : ∀ id, is_Some (pools w !! id) → (id < next_pool w)%nat;
  po_file : ∀ path, is_Some (buffer_pools_ w !! path) → ∃ p, files w !! path = Some (Pages p)
}.
Record catalog_ok w d : Prop := {
  co_dir : db_path d ∈ dirs w;
  co_tables : ∀ n t, opened_tables_ d !! n = Some t → table_ok w (db_path d) n t;
  co_ids : ∀ n t n' t', opened_tables_ d !! n = Some t → opened_tables_ d !! n' = Some t' → table_id t = table_id t' → n = n';
  co_next : ∀ n t, opened_tables_ d !! n = Some t → table_id t < next_table_id_ d;
  co_range : 0 <= next_table_id_ d < 2 ^ 31;
  co_files : ∀ f, meta_file_name f = true → "/"%char ∉ la f → is_Some (files w !! (db_path d +:+ "/" +:+ f)) →
    ∃ n t, opened_tables_ d !! n = Some t ∧ f = n +:+ ".table";
  co_pools : pools_ok w
}.

(** *** What changes and what does not *)
Inductive table_file (dir n : string) : string → Prop :=
| file_meta : table_file dir n (table_meta_file dir n)
| file_data : table_file dir n (table_data_file dir n)
| file_tmp : table_file dir n (table_meta_file dir n +:+ ".tmp")
| file_index i : table_file dir n (table_index_file dir n i).
Definition keeps (P : string → Prop) w w' : Prop := ∀ path, P path →
  (∀ c, files w !! path = Some c → files w' !! path = Some c) ∧
  (∀ id b, buffer_pools_ w !! path = Some id → pools w !! id = Some b → buffer_pools_ w' !! path = Some id ∧ pools w' !! id = Some b).
Lemma keeps_pool (P : string → Prop) w w' path p : keeps P w w' → P path → pool_ok w path p → pool_ok w' path p.
Proof. intros Hk HP (id & b & -> & Hb & Hp & Hf). destruct (Hk _ HP) as [_ Hkp]. destruct (Hkp _ _ Hb Hp). by exists id, b. Qed.
Lemma keeps_pages (P : string → Prop) w w' path Q : keeps P w w' → P path → pages_at w path Q → pages_at w' path Q.
Proof. intros Hk HP (p & Hp & Hh & HQ). exists p. split; [by apply (Hk _ HP)|done]. Qed.
Lemma keeps_index w w' dir n m im i : keeps (table_file dir n) w w' → index_ok w dir n m im i → index_ok w' dir n m im i.
Proof. intros Hk [H1 H2 H3 H4 H5 H6]. split; [done..| |done|]; [eapply keeps_pool|eapply keeps_pages]; try done; constructor. Qed.
Lemma keeps_table w w' dir n t : keeps (table_file dir n) w w' → table_ok w dir n t → table_ok w' dir n t.
Proof.
  intros Hk [H1 H2 H3 H4 H5 H6 H7 H8 H9]. split; try done.
  - apply (Hk _ (file_meta dir n)), H5.
  - eapply keeps_pages; [done|constructor|done].
  - eapply keeps_pool; [done|constructor|done].
  - eapply Forall2_impl; [exact H8|]. intros. by eapply keeps_index.
Qed.
Lemma table_file_apart dir n n' path : plain_name n → plain_name n' → table_file dir n path → table_file dir n' path → n = n'.
Proof.
  intros Hn Hn' H1 H2. destruct H1; inversion H2 as [E|E|E|i' E].
  all: first [by apply meta_file_inj in E|by apply data_file_inj in E|by apply tmp_file_inj in E|by apply index_file_inj in E as [? ?]|exfalso; revert E; other_kind].
Qed.
End catalog.

(** ** Opening *)
Section opening.
Context {J T : Type} `{!Json J T} `{!JsonSpec J T} {So : SortOps} {Std : StdSort} `{!Os T}.
Context (Hok : ∀ n, os_ok n = true).
Implicit Types (w : world T) (d : Db) (t : Table).

(** more pools are open, at names of which [P] holds *)
Record grows (P : string → Prop) w w' : Prop := {
  gr_dirs : dirs w' = dirs w;
  gr_files : files w' = files w;
  gr_pools : pools w ⊆ pools w';
  gr_named : buffer_pools_ w ⊆ buffer_pools_ w';
  gr_ok : pools_ok w → pools_ok w';
  gr_new : ∀ path, is_Some (buffer_pools_ w' !! path) → is_Some (buffer_pools_ w !! path) ∨ P path
}.
Lemma grows_refl P w : grows P w w.
Proof. split; auto. Qed.
Lemma grows_trans (P Q : string → Prop) w w' w'' : grows P w w' → (∀ x, P x → Q x) → grows Q w' w'' → grows Q w w''.
Proof.
  intros [H1 H2 H3 H4 H5 H6] HPQ [G1 G2 G3 G4 G5 G6]. split; [congruence|congruence|by etrans|by etrans|by auto|].
  intros path [H|H]%G6; [|by right]. apply H6 in H as [H|H]; auto.
Qed.
Lemma grows_keeps P Q w w' : grows P w w' → keeps Q w w'.
Proof.
  intros [_ Hf Hp Hb _ _] path _. split; [by rewrite Hf|]. intros id b H1 H2. split; [by eapply lookup_weaken|by eapply lookup_weaken].
Qed.
(** a new pool *)
Definition opened_pool (path : string) (p : pool_pages) w w' : Prop :=
  dirs w' = dirs w ∧ files w' = files w ∧ pools w' = <[next_pool w := MkDiskBufferPool path p false]> (pools w) ∧
  buffer_pools_ w' = <[path := next_pool w]> (buffer_pools_ w) ∧ next_pool w' = S (next_pool w).
Lemma opened_grows path p w w' : pools_ok w → (∃ p', files w !! path = Some (Pages p')) → buffer_pools_ w !! path = None →
  opened_pool path p w w' → grows (eq path) w w'.
Proof.
  intros [Hn Hx Hfi] Hfile Hnone (H1 & H2 & H3 & H4 & H5). assert (pools w !! next_pool w = None) as Hfree.
  { destruct (pools w !! next_pool w) eqn:E; [|done]. specialize (Hx _ (mk_is_Some _ _ E)). lia. }
  split; [done|done| | | |].
  - rewrite H3. by apply insert_subseteq.
  - rewrite H4. by apply insert_subseteq.
  - intros _. split; rewrite ?H2, ?H3, ?H4, ?H5.
    + intros q id. rewrite lookup_insert_Some. intros [[<- <-]|[Hq Hl]].
      * rewrite lookup_insert_eq. by eexists.
      * destruct (Hn _ _ Hl) as (b & Hb & Hf). exists b. rewrite lookup_insert_ne; [done|]. intros E. rewrite E in Hfree. congruence.
    + intros id. rewrite lookup_insert_is_Some'. intros [<-|H%Hx]; lia.
    + intros q. rewrite lookup_insert_is_Some'. intros [<-|?]; auto.
  - intros q. rewrite H4, lookup_insert_is_Some'. intros [<-|?]; auto.
Qed.
Lemma opened_ok path p w w' : opened_pool path p w w' → pool_ok w' path (Some (next_pool w)).
Proof. intros (_ & _ & H3 & H4 & _). exists (next_pool w), (MkDiskBufferPool path p false). by rewrite H3, H4, !lookup_insert_eq. Qed.

Lemma wp_open_file w path p (Q : RC.t + nat → world T → Prop) :
  files w !! path = Some (Pages p) → is_Some (header_page p) → buffer_pools_ w !! path = None →
  (∀ w', opened_pool path p w w' → Q (inr (next_pool w)) w') → wp (open_file path) w Q.
Proof.
  intros Hf [h Hh] Hb HQ. destruct p as [hp ip]. cbn in Hh. subst hp. eexists _, _. split.
  - unfold open_file, bp_open_file, call, file_at, mbind, ST_bind, st_get. rewrite Hb. cbn. rewrite Hf. cbn. rewrite Hok. cbn. rewrite Hok. cbn. reflexivity.
  - apply HQ. by repeat split.
Qed.
Lemma pages_there w path P : pages_at w path P → ∃ p, files w !! path = Some (Pages p).
Proof. intros (p & -> & _). by eexists. Qed.
Lemma pages_open w path P (Q : RC.t + nat → world T → Prop) :
  pages_at w path P → buffer_pools_ w !! path = None →
  (∀ w' p, opened_pool path p w w' → is_Some (header_page p) → P p → Q (inr (next_pool w)) w') → wp (open_file path) w Q.
Proof. intros (p & Hf & Hh & HP) Hb HQ. eapply wp_open_file; [done..|]. intros w' Hw. by eapply HQ. Qed.
Lemma wp_call w (Q : bool → world T → Prop) :
  (∀ w', dirs w' = dirs w → files w' = files w → pools w' = pools w → buffer_pools_ w' = buffer_pools_ w → next_pool w' = next_pool w → Q true w') →
  wp call w Q.
Proof. intros HQ. eexists _, _. split; [reflexivity|]. rewrite Hok. by apply HQ. Qed.
Lemma wp_pool_at w id b (Q : DiskBufferPool → world T → Prop) : pools w !! id = Some b → Q b w → wp (pool_at id) w Q.
Proof. intros Hb HQ. apply wp_bind, wp_get. by eapply wp_some. Qed.
(** the same pools and files *)
Lemma same_grows P w w' : dirs w' = dirs w → files w' = files w → pools w' = pools w → buffer_pools_ w' = buffer_pools_ w →
  next_pool w' = next_pool w → grows P w w'.
Proof.
  intros H1 H2 H3 H4 H5. split; [done|done|by rewrite H3|by rewrite H4| |rewrite H4; auto].
  intros [Hn Hx Hfi]. split; [rewrite H3, H4; done|rewrite H3, H5; done|rewrite H2, H4; done].
Qed.

Lemma wp_index_open w dir n m im fields :
  let path := table_index_file dir n (IndexMeta.name im) in
  pools_ok w → pages_at w path (has_layout fields (IndexMeta.unique im)) → buffer_pools_ w !! path = None →
  metas_of m (IndexMeta.fields im) = Some fields →
  wp (index_open path im fields new_index) w (λ r w', r.1 = RC.SUCCESS ∧ grows (eq path) w w' ∧ index_ok w' dir n m im r.2).
Proof.
  intros path Hp Hat Hb Hm. unfold index_open, handler_open. cbn [new_index inited_ disk_buffer_pool_].
  apply wp_bind, wp_bind. eapply pages_open; [done..|]. intros w1 p Ho Hh (g & Hg & Hlay).
  pose proof (opened_grows _ _ _ _ Hp (pages_there _ _ _ Hat) Hb Ho) as Hgr. pose proof (opened_ok _ _ _ _ Ho) as Hpo.
  apply wp_bind. eapply wp_pool_at; [destruct Ho as (_ & _ & -> & _); apply lookup_insert_eq|].
  apply wp_bind, wp_call. intros w2 A1 A2 A3 A4 A5. cbn [frames]. rewrite Hg. cbn [negb].
  apply wp_bind, wp_call. intros w3 B1 B2 B3 B4 B5. cbn [negb]. apply wp_ret, wp_ret. cbn [fst snd RC.succ].
  split; [done|].
  assert (grows (eq path) w1 w3) as Hgr' by (apply same_grows; congruence).
  split; [by eapply grows_trans|].
  assert (pages_at w path (has_layout fields (IndexMeta.unique im))) as Hat' by done.
  split; cbn; [done|done|done| |done|].
  - eapply (keeps_pool (λ _, True)); [by eapply grows_keeps|done|done].
  - eapply (keeps_pages (λ _, True)); [|done|exact Hat]. eapply grows_keeps, grows_trans; [exact Hgr|by intros|exact Hgr'].
Qed.
Lemma wp_open_indexes w dir n l t :
  let m := table_meta_ t in
  TableMeta.name m = n → plain_name n → pools_ok w → NoDup (IndexMeta.name <$> l) →
  Forall (λ im, ∃ fields, metas_of m (IndexMeta.fields im) = Some fields ∧
    pages_at w (table_index_file dir n (IndexMeta.name im)) (has_layout fields (IndexMeta.unique im))) l →
  (∀ im, im ∈ l → buffer_pools_ w !! table_index_file dir n (IndexMeta.name im) = None) →
  wp (open_indexes dir l t) w (λ r w', r.1 = RC.SUCCESS ∧ grows (table_file dir n) w w' ∧
    ∃ il, r.2 = set_indexes (indexes_ t ++ il)%list t ∧ Forall2 (index_ok w' dir n m) l il).
Proof.
  intros m Hn Hplain. revert w t m Hn. induction l as [|im l IH]; intros w t m Hn Hp Hnd Hl Hb.
  { apply wp_ret. split; [done|]. split; [apply grows_refl|]. exists []. rewrite app_nil_r. split; [by destruct t|constructor]. }
  apply Forall_cons in Hl as [(fields & Hm & Hat) Hl]. apply NoDup_cons in Hnd as [Hnot Hnd]. cbn [open_indexes].
  fold m. rewrite Hm. unfold table_name. fold m. rewrite Hn. apply wp_bind.
  eapply wp_mono; [apply (wp_index_open w dir n m im fields); [done|done|apply Hb; by left|done]|].
  intros [rc i] w1 (Hrc & Hgr & Hi). cbn in Hrc, Hi. subst rc. cbn [RC.succ].
  assert (grows (table_file dir n) w w1) as Hgr1.
  { eapply grows_trans; [exact Hgr| |apply grows_refl]. intros path <-. constructor. }
  eapply wp_mono; [apply (IH w1 (set_indexes (indexes_ t ++ [i])%list t)); [done|by apply Hgr|done| |]|].
  - eapply Forall_impl; [exact Hl|]. intros x (fs & Hfs & Hx). exists fs. split; [done|].
    eapply (keeps_pages (λ _, True)); [by eapply grows_keeps|done|done].
  - intros x Hx. destruct (buffer_pools_ w1 !! _) eqn:E; [|done]. exfalso.
    destruct (gr_new _ _ _ Hgr _ (mk_is_Some _ _ E)) as [[? Hy]|Hy]; [by rewrite Hb in Hy by (by right)|].
    apply index_file_inj in Hy as [_ Hy]; [|done..]. apply Hnot. rewrite Hy. by apply list_elem_of_fmap_2.
  - intros [rc t'] w2 (Hrc & Hgr2 & il & Ht & Hil). cbn in *. split; [done|]. split; [by eapply grows_trans|].
    exists (i :: il). rewrite Ht. split; [by rewrite <-(assoc_L (++)%list)|]. constructor; [|done].
    eapply keeps_index; [by eapply grows_keeps|done].
Qed.

(** what the files say of a table *)
Record stored w (dir n : string) (m : TableMeta.t) : Prop := {
  st_name : TableMeta.name m = n;
  st_plain : plain_name n;
  st_meta : meta_ok m;
  st_meta_file : files w !! table_meta_file dir n = Some (Document (serialize m));
  st_data_file : pages_at w (table_data_file dir n) (λ _, True);
  st_indexes : Forall (λ im, ∃ fields, metas_of m (IndexMeta.fields im) = Some fields ∧
    pages_at w (table_index_file dir n (IndexMeta.name im)) (has_layout fields (IndexMeta.unique im))) (TableMeta.indexes m);
  st_names : NoDup (IndexMeta.name <$> TableMeta.indexes m)
}.
Lemma table_stored w dir n t : table_ok w dir n t → stored w dir n (table_meta_ t).
Proof.
  intros [H1 H2 H3 H4 H5 H6 H7 H8 H9]. split; try done. clear -H8.
  induction H8 as [|im i l il Hi Hl IH]; constructor; [|done]. exists (field_metas_ i). split; apply Hi.
Qed.
Lemma stored_keeps w w' dir n m :
  (∀ q c, table_file dir n q → files w !! q = Some c → files w' !! q = Some c) → stored w dir n m → stored w' dir n m.
Proof.
  intros Hf [H1 H2 H3 H4 H5 H6 H7].
  assert (∀ q P, table_file dir n q → pages_at w q P → pages_at w' q P) as Hat.
  { intros q P Hq (p & Hp & ?). exists p. split; [by apply Hf|done]. }
  split; [done..| | | |done]; [apply Hf; [constructor|done]|apply Hat; [constructor|done]|].
  eapply Forall_impl; [exact H6|]. intros im (fs & ? & Hi). exists fs. split; [done|]. apply Hat; [constructor|done].
Qed.
Lemma stored_files w w' dir n m : files w' = files w → stored w dir n m → stored w' dir n m.
Proof. intros Hf. apply stored_keeps. intros q c _. by rewrite Hf. Qed.
Lemma wp_table_open w dir n m :
  stored w dir n m → pools_ok w → (∀ path, table_file dir n path → buffer_pools_ w !! path = None) →
  wp (table_open (n +:+ ".table") dir new_table) w (λ r w', r.1 = RC.SUCCESS ∧ grows (table_file dir n) w w' ∧
    table_ok w' dir n r.2 ∧ table_meta_ r.2 = m).
Proof.
  intros [H1 H2 H3 H4 H5 H6 H7] Hp Hnone. unfold table_open, read_document. apply wp_bind, wp_bind, wp_call.
  intros w1 A1 A2 A3 A4 A5. apply wp_bind. apply wp_bind, wp_get. apply wp_ret. apply wp_ret.
  change (dir +:+ "/" +:+ n +:+ ".table") with (table_meta_file dir n). rewrite A2, H4, (metadata_back _ H3).
  assert (pools_ok w1) as Hp1 by (by apply (gr_ok (λ _, True) w w1), Hp; apply same_grows).
  apply wp_bind, wp_bind. eapply (pages_open _ _ (λ _, True)).
  { destruct H5 as (p & Hf & ?). exists p. rewrite A2. cbn. unfold table_name. cbn. by rewrite H1. }
  { rewrite A4. apply Hnone. cbn. unfold table_name. cbn. rewrite H1. constructor. }
  unfold table_name. cbn [set_meta table_meta_]. rewrite H1.
  intros w2 p Ho Hh _. pose proof (opened_ok _ _ _ _ Ho) as Hpo.
  assert (grows (eq (table_data_file dir n)) w w2) as Hgr.
  { eapply grows_trans; [apply (same_grows (eq (table_data_file dir n)) w w1); done|done|].
    apply (opened_grows _ p); [done|rewrite A2; by eapply pages_there|rewrite A4; apply Hnone; constructor|done]. }
  apply wp_ret. cbn [negb RC.succ]. eapply wp_mono.
  { apply (wp_open_indexes w2 dir n); [done|done|by apply Hgr|done| |].
    - eapply Forall_impl; [exact H6|]. intros im (fs & ? & Hat). exists fs. split; [done|].
      eapply (keeps_pages (λ _, True)); [by eapply grows_keeps|done|done].
    - intros im Him. destruct (buffer_pools_ w2 !! _) eqn:E; [|done]. exfalso.
      destruct (gr_new _ _ _ Hgr _ (mk_is_Some _ _ E)) as [[? Hy]|Hy]; [by rewrite Hnone in Hy by constructor|].
      revert Hy. other_kind. }
  intros [rc t'] w3 (Hrc & Hgr3 & il & -> & Hil). cbn in *. split; [done|].
  assert (grows (table_file dir n) w w3) as Hgr'.
  { eapply grows_trans; [exact Hgr| |exact Hgr3]. intros path <-. constructor. }
  split; [done|]. split; [|done]. pose proof (grows_keeps _ (λ _, True) _ _ Hgr') as Hk.
  split; cbn; try done.
  - by apply (Hk _ I).
  - by eapply keeps_pages.
  - eapply (keeps_pool _ _ _ _ _ (grows_keeps _ (λ _, True) _ _ Hgr3)); [done|exact Hpo].
Qed.

Record reopened (metas : gmap string TableMeta.t) w d : Prop := {
  re_tables : ∀ n t, opened_tables_ d !! n = Some t → table_ok w (db_path d) n t ∧ metas !! n = Some (table_meta_ t);
  re_next : ∀ n t, opened_tables_ d !! n = Some t → table_id t < next_table_id_ d;
  re_range : 0 <= next_table_id_ d < 2 ^ 31;
  re_pools : pools_ok w
}.
Lemma next_int32 x : 0 <= x < 2 ^ 31 - 1 → int32 ((x + 1) mod 2 ^ 32) = x + 1.
Proof. intros Hx. rewrite Z.mod_small by lia. unfold int32. by rewrite decide_True by lia. Qed.
Lemma wp_open_tables metas todo w d :
  reopened metas w d → NoDup todo →
  (∀ n m, metas !! n = Some m → stored w (db_path d) n m ∧ 0 <= TableMeta.table_id m < 2 ^ 31 - 1) →
  (∀ n, n ∈ todo → is_Some (metas !! n) ∧ opened_tables_ d !! n = None) →
  (∀ n path, n ∈ todo → table_file (db_path d) n path → buffer_pools_ w !! path = None) →
  wp (open_tables ((λ n, n +:+ ".table") <$> todo)%list d) w (λ r w', r.1 = RC.SUCCESS ∧
    dirs w' = dirs w ∧ files w' = files w ∧ db_path r.2 = db_path d ∧ db_name r.2 = db_name d ∧
    reopened metas w' r.2 ∧ (∀ n, is_Some (opened_tables_ r.2 !! n) ↔ is_Some (opened_tables_ d !! n) ∨ n ∈ todo)).
Proof.
  revert w d. induction todo as [|n todo IH]; intros w d Hre Hnd Hst Htodo Hnone.
  { apply wp_ret. split_and!; try done. intros n. cbn. pose proof (not_elem_of_nil n). tauto. }
  apply NoDup_cons in Hnd as [Hnot Hnd]. destruct (Htodo n ltac:(by left)) as [[m Hm] Hfresh].
  destruct (Hst n m Hm) as [Hs Hid]. cbn [fmap list_fmap open_tables]. apply wp_bind.
  eapply wp_mono; [apply (wp_table_open w (db_path d) n m); [done|apply Hre|]|].
  { intros path Hpath. eapply Hnone; [by left|done]. }
  intros [rc t] w1 (Hrc & Hgr & Ht & Hmeta). cbn in Hrc, Ht, Hmeta. subst rc. cbn [RC.succ]. rewrite (to_name _ _ _ _ Ht), Hfresh.
  change (bool_decide (RC.SUCCESS = RC.SUCCESS)) with true. cbn [negb].
  rewrite bool_decide_eq_false_2 by (by intros [??]).
  set (d1 := if decide (next_table_id_ d <= table_id t) then _ else d).
  assert (db_path d1 = db_path d ∧ db_name d1 = db_name d ∧ opened_tables_ d1 = opened_tables_ d ∧ table_id t < next_table_id_ d1 ∧
    next_table_id_ d <= next_table_id_ d1 < 2 ^ 31) as (P1 & P2 & P3 & P4 & P5).
  { pose proof (re_range _ _ _ Hre). unfold d1, table_id in *. rewrite Hmeta. case_decide; cbn; [rewrite next_int32 by lia|]; split_and!; try done; lia. }
  clearbody d1. eapply wp_mono; [apply (IH w1 (set_opened (<[n := t]> (opened_tables_ d1)) d1)); cbn|].
  - split; cbn; rewrite ?P1, ?P3.
    + intros n' t'. rewrite lookup_insert_Some. intros [[<- <-]|[Hne Ht']]; [by rewrite Hm, Hmeta|].
      destruct (re_tables _ _ _ Hre _ _ Ht') as [Hok' ?]. split; [|done]. eapply keeps_table; [by eapply grows_keeps|done].
    + intros n' t'. rewrite lookup_insert_Some. intros [[<- <-]|[Hne Ht']]; [done|].
      pose proof (re_next _ _ _ Hre _ _ Ht'). lia.
    + pose proof (re_range _ _ _ Hre). lia.
    + apply Hgr, Hre.
  - done.
  - intros n' m' Hm'. rewrite P1. destruct (Hst n' m' Hm'). split; [|done]. eapply stored_files; [apply Hgr|done].
  - intros n' Hn'. destruct (Htodo n' ltac:(by right)). split; [done|]. rewrite P3, lookup_insert_ne; [done|]. by intros ->.
  - intros n' path Hn' Hpath. rewrite P1 in Hpath. destruct (buffer_pools_ w1 !! path) eqn:E; [|done]. exfalso.
    destruct (gr_new _ _ _ Hgr _ (mk_is_Some _ _ E)) as [[? Hy]|Hy].
    + rewrite (Hnone n' path) in Hy; [done|by right|done].
    + destruct (Htodo n' ltac:(by right)) as [[m' Hm'] _]. destruct (Hst n' m' Hm') as [Hs' _].
      apply Hnot. by rewrite (table_file_apart _ _ _ _ (st_plain _ _ _ _ Hs) (st_plain _ _ _ _ Hs') Hy Hpath).
  - intros [rc d2] w2 (Q1 & Q2 & Q3 & Q4 & Q5 & Q6 & Q7). cbn in *. split_and!; [done| | | | |done|].
    + rewrite Q2. apply Hgr.
    + rewrite Q3. apply Hgr.
    + congruence.
    + congruence.
    + intros n'. rewrite Q7, P3, lookup_insert_is_Some', elem_of_cons. split; [intros [[->|?]|?]|intros [?|[->|?]]]; auto.
Qed.

Definition reboot w : world T := MkWorld (calls w) (dirs w) (files w) ∅ ∅ 0.
Lemma omap_NoDup {A B} (g : A → option B) l :
  (∀ x y z, g x = Some z → g y = Some z → x = y) → NoDup l → NoDup (omap g l).
Proof.
  intros Hg. induction 1 as [|x l Hx Hl IH]; cbn; [constructor|]. destruct (g x) as [z|] eqn:E; [|done].
  constructor; [|done]. intros (y & Hy & Hz)%list_elem_of_omap. apply Hx. by rewrite (Hg x y z).
Qed.
Lemma names_of (P : string → Prop) (l : list string) :
  (∀ f, f ∈ l → ∃ n, P n ∧ f = n +:+ ".table") → ∃ ns, l = ((λ n, n +:+ ".table") <$> ns)%list ∧ ∀ n, n ∈ ns → P n.
Proof.
  induction l as [|f l IH]; intros Hl; [by exists []; split; [|intros n ?%not_elem_of_nil]|].
  destruct (Hl f ltac:(by left)) as (n & Hn & ->). destruct IH as (ns & -> & Hns); [intros f' ?; apply Hl; by right|].
  exists (n :: ns). split; [done|]. intros n' [->|?]%elem_of_cons; auto.
Qed.
Lemma table_suffix_inj n n' : n +:+ ".table" = n' +:+ ".table" → n = n'.
Proof. intros H%(f_equal la). rewrite !la_app in H. apply (inj (λ l, app l (la ".table"))) in H. by apply la_inj. Qed.

Context (Horder : ∀ A (l : list A), os_order A l ≡ₚ l).
(** the loop over the files in two parts *)
Lemma wp_open_tables_app l1 l2 w d (Q : RC.t * Db → world T → Prop) :
  wp (open_tables l1 d) w (λ r w', r.1 = RC.SUCCESS ∧ wp (open_tables l2 r.2) w' Q) → wp (open_tables (l1 ++ l2)%list d) w Q.
Proof.
  revert w d. induction l1 as [|f l1 IH]; intros w d; [by intros (r & w' & [= <- <-] & _ & H)|].
  intros (r & w' & Hrun & Hrc & HQ). cbn [app open_tables] in *. unfold mbind, ST_bind in Hrun.
  destruct (table_open f (db_path d) new_table w) as [[[rc t] w1]| |] eqn:Eo; [|done|done]. apply wp_bind. exists (rc, t), w1. split; [done|].
  destruct (negb (RC.succ rc)) eqn:Erc.
  { destruct (destroy_table t w1) as [[? ?]| |]; [|done|done]. injection Hrun as <- <-. cbn in Hrc. by rewrite Hrc in Erc. }
  case_bool_decide.
  { destruct (destroy_table t w1) as [[? ?]| |]; [|done|done]. by injection Hrun as <- <-. }
  apply IH. by exists r, w'.
Qed.
(** the list of the files, in some order *)
Lemma wp_list_meta_files w dir (Q : option (list string) → world T → Prop) :
  dir ∈ dirs w →
  (∀ w' l, dirs w' = dirs w → files w' = files w → pools w' = pools w → buffer_pools_ w' = buffer_pools_ w → next_pool w' = next_pool w →
    (∀ f, f ∈ l ↔ meta_file_name f = true ∧ ("/"%char ∉ la f) ∧ is_Some (files w !! (dir +:+ "/" +:+ f))) → NoDup l → Q (Some l) w') →
  wp (list_meta_files dir) w Q.
Proof.
  intros Hdir HQ. unfold list_meta_files. apply wp_bind, wp_call. intros w1 A1 A2 A3 A4 A5. apply wp_bind, wp_get, wp_ret.
  rewrite A1, A2, bool_decide_eq_true_2 by done. cbn [andb]. apply HQ; [done..| |].
  - intros f. rewrite Horder, list_elem_of_filter, list_elem_of_omap. split.
    + intros (Hm & path & Hp & Hin). apply list_elem_of_fmap in Hp as ([path' c] & -> & Hc%elem_of_map_to_list).
      apply in_directory_Some in Hin as [Hin Hs]. cbn in Hin. subst path'. split_and!; [by apply Is_true_true|done|by eexists].
    + intros (Hm & Hs & [c Hc]). split; [by apply Is_true_true|]. exists (dir +:+ "/" +:+ f). split; [|by apply in_directory_Some].
      apply list_elem_of_fmap. exists (dir +:+ "/" +:+ f, c). split; [done|]. by apply elem_of_map_to_list.
  - rewrite Horder. apply NoDup_filter, omap_NoDup; [|apply NoDup_fst_map_to_list].
    intros x y z [Hx _]%in_directory_Some [Hy _]%in_directory_Some. congruence.
Qed.
Lemma listed_table n : plain_name n → meta_file_name (n +:+ ".table") = true ∧ "/"%char ∉ la (n +:+ ".table").
Proof. intros Hn. destruct (meta_file_listed "" n Hn) as [[_ ?]%in_directory_Some ?]. done. Qed.

Lemma wp_open_all_tables w d :
  catalog_ok w d →
  wp (open_all_tables (MkDb (db_name d) (db_path d) ∅ 0)) (reboot w) (λ r w', r.1 = RC.SUCCESS ∧
    dirs w' = dirs w ∧ files w' = files w ∧ catalog_ok w' r.2 ∧ db_path r.2 = db_path d ∧ db_name r.2 = db_name d ∧
    table_meta_ <$> opened_tables_ r.2 = table_meta_ <$> opened_tables_ d).
Proof.
  intros [Hdir Htables Hids Hnext Hrange Hfiles Hpools]. unfold open_all_tables. cbn [db_path].
  apply wp_bind, wp_list_meta_files; [done|]. cbn. intros w1 l A1 A2 A3 A4 A5 Hl Hnd.
  destruct (names_of (λ n, ∃ t, opened_tables_ d !! n = Some t) l) as (todo & -> & Htodo).
  { intros f (Hm & Hs & Hf)%Hl. destruct (Hfiles f Hm Hs Hf) as (n & t & Ht & ->). eauto. }
  apply NoDup_fmap_1 in Hnd.
  assert (∀ n t, opened_tables_ d !! n = Some t → n ∈ todo) as Hall.
  { intros n t Ht. pose proof (Htables _ _ Ht) as Hok'. destruct (listed_table n (to_plain _ _ _ _ Hok')) as [Hmn Hs]. assert ((n +:+ ".table") ∈ ((λ n, n +:+ ".table") <$> todo)%list) as Hin.
    { apply Hl. split_and!; [done|done|]. pose proof (to_meta_file _ _ _ _ Hok') as Hf. unfold table_meta_file in Hf. rewrite Hf. done. }
    apply list_elem_of_fmap in Hin as (n' & Hn%table_suffix_inj & Hin). by subst. }
  eapply wp_mono; [apply (wp_open_tables (table_meta_ <$> opened_tables_ d) todo w1 (MkDb (db_name d) (db_path d) ∅ 0)); cbn [db_path opened_tables_]|].
  - split; cbn; [done..|lia|]. split; rewrite ?A3, ?A4; [done|intros id [? ?]; done|intros path [? ?]; done].
  - done.
  - intros n m. rewrite lookup_fmap_Some. intros (t & <- & Ht). split.
    + eapply stored_files; [|apply table_stored, Htables, Ht]. done.
    + pose proof (mo_id _ (to_meta _ _ _ _ (Htables _ _ Ht))) as [? _]. pose proof (Hnext _ _ Ht). unfold table_id in *. lia.
  - intros n Hn. destruct (Htodo n Hn) as [t Ht]. by rewrite lookup_fmap, Ht.
  - intros n path _ _. by rewrite A4.
  - intros [rc d'] w2 (Q1 & Q2 & Q3 & Q4 & Q5 & [R1 R2 R3 R4] & Q7). cbn in *.
    assert (table_meta_ <$> opened_tables_ d' = table_meta_ <$> opened_tables_ d) as Hmeta.
    { apply map_eq. intros n. rewrite !lookup_fmap. destruct (opened_tables_ d' !! n) as [t|] eqn:E.
      - destruct (R1 _ _ E) as [_ H]. by rewrite lookup_fmap in H.
      - cbn. destruct (opened_tables_ d !! n) as [t|] eqn:E'; [|done]. exfalso.
        destruct (proj2 (Q7 n)) as [? H]; [right; by eapply Hall|]. congruence. }
    split_and!; try done; [congruence|congruence|]. split; rewrite ?Q4.
    + rewrite Q2, A1. done.
    + intros n t Ht. rewrite <-Q4. by apply R1.
    + intros n t n' t' Ht Ht' Hid. destruct (R1 _ _ Ht) as [_ H1], (R1 _ _ Ht') as [_ H2].
      apply lookup_fmap_Some in H1 as (u & Hu & Hu1), H2 as (u' & Hu' & Hu1').
      eapply (Hids n u n' u'); [done..|]. unfold table_id in *. congruence.
    + done.
    + lia.
    + intros f Hm Hs Hf. rewrite Q3, A2 in Hf. destruct (Hfiles f Hm Hs Hf) as (n & t & Ht & ->).
      destruct (proj2 (Q7 n)) as [t' Ht']; [right; by eapply Hall|]. eauto.
    + done.
Qed.

(** ** Creating *)
(** what an operation on the files of one table does to the rest *)
Record adds (P : string → Prop) w w' : Prop := {
  ad_dirs : dirs w' = dirs w;
  ad_keeps : keeps (λ q, ¬ P q) w w';
  ad_files : ∀ q, is_Some (files w' !! q) → is_Some (files w !! q) ∨ P q;
  ad_ok : pools_ok w → pools_ok w'
}.
Lemma adds_trans P w w' w'' : adds P w w' → adds P w' w'' → adds P w w''.
Proof.
  intros [H1 H2 H3 H4] [G1 G2 G3 G4]. split; [congruence| | |by auto].
  - intros q Hq. destruct (H2 q Hq) as [Hf Hb], (G2 q Hq) as [Gf Gb]. split; [by auto|]. intros id b Hid Hp. by destruct (Hb id b Hid Hp); apply Gb.
  - intros q [Hq|?]%G3; [by apply H3|by right].
Qed.
Lemma grows_adds (P Q : string → Prop) w w' : grows P w w' → adds Q w w'.
Proof.
  intros Hg. split; [apply Hg|by eapply grows_keeps| |apply Hg]. intros q. rewrite (gr_files _ _ _ Hg). auto.
Qed.
Definition wrote (path : string) (c : content T) w w' : Prop :=
  dirs w' = dirs w ∧ files w' = <[path := c]> (files w) ∧ pools w' = pools w ∧ buffer_pools_ w' = buffer_pools_ w ∧ next_pool w' = next_pool w.
Lemma wrote_adds (P : string → Prop) path c w w' :
  wrote path c w w' → P path → (∃ p, c = Pages p) ∨ buffer_pools_ w !! path = None → adds P w w'.
Proof.
  intros (H1 & H2 & H3 & H4 & H5) HP Hkind. split; [done| | |].
  - intros q Hq. rewrite H2, H3, H4. split; [|done]. intros c' Hc. rewrite lookup_insert_ne; [done|]. by intros ->.
  - intros q. rewrite H2, lookup_insert_is_Some'. intros [<-|?]; auto.
  - intros [Hn Hx Hf]. split; rewrite ?H2, ?H3, ?H4, ?H5; [done..|]. intros q Hq. destruct (decide (path = q)) as [<-|Hne].
    + rewrite lookup_insert_eq. destruct Hkind as [[p ->]|Hkind]; [by eexists|]. rewrite Hkind in Hq. by destruct Hq.
    + rewrite lookup_insert_ne by done. auto.
Qed.
Lemma meta_kind dir f : meta_file_name f = true → last (la (dir +:+ "/" +:+ f)) = Some "e"%char.
Proof.
  intros Hf. assert (la ".table" `suffix_of` la f) as [l Hl].
  { unfold meta_file_name in Hf. destruct f as [|[[] [] [] [] [] [] [] []] f]; try done; by apply bool_decide_eq_true in Hf. }
  rewrite !la_app, Hl. by rewrite !last_app.
Qed.
Lemma catalog_update w w' d d' n t :
  catalog_ok w d → adds (table_file (db_path d) n) w w' → table_ok w' (db_path d) n t →
  db_path d' = db_path d → opened_tables_ d' = <[n := t]> (opened_tables_ d) →
  next_table_id_ d <= next_table_id_ d' < 2 ^ 31 → table_id t < next_table_id_ d' →
  (∀ n' t', opened_tables_ d !! n' = Some t' → n' ≠ n → table_id t' ≠ table_id t) → catalog_ok w' d'.
Proof.
  intros [Hdir Htables Hids Hnext Hrange Hfiles Hpools] [A1 A2 A3 A4] Ht Hpath Hop Hnx Hid Hnew. split; rewrite ?Hpath, ?Hop.
  - by rewrite A1.
  - intros n' t'. rewrite lookup_insert_Some. intros [[<- <-]|[Hne Ht']]; [done|]. pose proof (Htables _ _ Ht') as Hok'.
    eapply keeps_table; [|exact Hok']. intros q Hq. apply A2. intros Hq'. apply Hne.
    exact (table_file_apart _ _ _ _ (to_plain _ _ _ _ Ht) (to_plain _ _ _ _ Hok') Hq' Hq).
  - intros n1 t1 n2 t2. rewrite !lookup_insert_Some. intros [[<- <-]|[Hn1 H1]] [[<- <-]|[Hn2 H2]] Heq; [done| | |by eapply Hids].
    + exfalso. by eapply (Hnew n2 t2).
    + exfalso. by eapply (Hnew n1 t1).
  - intros n' t'. rewrite lookup_insert_Some. intros [[<- <-]|[Hne Ht']]; [done|]. pose proof (Hnext _ _ Ht'). lia.
  - lia.
  - intros f Hm Hs Hf. destruct (A3 _ Hf) as [Hold|Hfile].
    + destruct (Hfiles f Hm Hs Hold) as (n' & t' & Ht' & ->). destruct (decide (n = n')) as [<-|Hne].
      * exists n, t. by rewrite lookup_insert_eq.
      * exists n', t'. by rewrite lookup_insert_ne.
    + exists n, t. rewrite lookup_insert_eq. split; [done|]. pose proof (meta_kind (db_path d) f Hm) as Hk.
      inversion Hfile as [E|E|E|i E].
      * unfold table_meta_file in E. apply (f_equal la) in E. rewrite !la_app in E.
        apply (inj (app (la (db_path d)))), (inj (app (la "/"))) in E. rewrite <-la_app in E. by apply la_inj in E.
      * by rewrite <-E, last_data in Hk.
      * by rewrite <-E, last_tmp in Hk.
      * by rewrite <-E, last_index in Hk.
  - by apply A4.
Qed.

Lemma wp_file_at w path (Q : option (content T) → world T → Prop) : Q (files w !! path) w → wp (file_at path) w Q.
Proof. intros HQ. apply wp_bind, wp_get. by apply wp_ret. Qed.
Lemma wp_put_file w path c (Q : () → world T → Prop) : (∀ w', wrote path c w w' → Q () w') → wp (put_file path c) w Q.
Proof. intros HQ. apply wp_modify, HQ. by repeat split. Qed.
(** calls in between *)
Lemma wp_call_wrote w path c w0 (Q : bool → world T → Prop) :
  wrote path c w0 w → (∀ w', wrote path c w0 w' → Q true w') → wp call w Q.
Proof. intros (H1 & H2 & H3 & H4 & H5) HQ. apply wp_call. intros w' A1 A2 A3 A4 A5. apply HQ. split_and!; congruence. Qed.
Lemma wp_create_file w path (Q : RC.t → world T → Prop) :
  files w !! path = None → (∀ w', wrote path (Pages (MkPages (Some BPFileHeader.initial) None)) w w' → Q RC.SUCCESS w') →
  wp (create_file path) w Q.
Proof.
  intros Hf HQ. eexists _, _. split.
  - unfold create_file, call, file_at, put_file, st_modify, mbind, ST_bind, st_get. rewrite Hok. cbn. rewrite Hf. cbn.
    rewrite !Hok. cbn. rewrite !Hok. cbn. rewrite !Hok. cbn. reflexivity.
  - apply HQ. repeat split. cbn. by rewrite insert_insert_eq.
Qed.

Context (Hwritten : ∀ n (d : T), os_written n d = d).
Lemma not_open w path : pools_ok w → files w !! path = None → buffer_pools_ w !! path = None.
Proof. intros Hp Hf. destruct (buffer_pools_ w !! path) eqn:E; [|done]. destruct (po_file _ Hp _ (mk_is_Some _ _ E)). congruence. Qed.
Lemma wp_write_document w path (x : T) (Q : option bool → world T → Prop) :
  (∀ w', wrote path (Document x) w w' → Q (Some true) w') → wp (write_document path x) w Q.
Proof.
  intros HQ. eexists _, _. split.
  - unfold write_document, call, put_file, st_modify, mbind, ST_bind, st_get. rewrite Hok. cbn. rewrite Hwritten, Hok. reflexivity.
  - apply HQ. by repeat split.
Qed.
Lemma wp_table_create trx_fields w dir id n attrs m :
  TableMeta.init trx_fields id n attrs = Done (inr m) → 0 <= id → plain_name n → meta_ok m → TableMeta.name m = n → TableMeta.indexes m = [] →
  pools_ok w → files w !! table_meta_file dir n = None → files w !! table_data_file dir n = None →
  wp (table_create trx_fields id (table_meta_file dir n) n dir attrs new_table) w (λ r w', r.1 = RC.SUCCESS ∧
    adds (table_file dir n) w w' ∧ table_ok w' dir n r.2 ∧ table_meta_ r.2 = m).
Proof.
  intros Hinit Hid Hplain Hmok Hname Hidx Hp Hmf Hdf. unfold table_create. rewrite decide_False by lia.
  rewrite (proj1 Hplain). rewrite decide_False.
  2: { intros ->. unfold TableMeta.init in Hinit. by rewrite (proj1 Hplain) in Hinit. }
  assert (table_meta_file dir n ≠ table_data_file dir n) as Hne by other_kind.
  apply wp_bind, wp_call. intros w1 A1 A2 A3 A4 A5. apply wp_bind, wp_file_at. rewrite A2, Hmf. cbn [negb].
  rewrite bool_decide_eq_false_2 by (by intros [??]).
  apply wp_bind, wp_put_file. intros w2 W2. rewrite Hinit.
  apply wp_bind, wp_write_document. intros w3 W3. change (bool_decide (Some true = None)) with false. cbv iota.
  apply wp_bind, wp_create_file.
  { destruct W3 as (_ & -> & _), W2 as (_ & -> & _). by rewrite !lookup_insert_ne, A2. }
  intros w4 W4. change (RC.succ RC.SUCCESS) with true. cbn [negb].
  assert (adds (table_file dir n) w w4) as Hadds.
  { eapply adds_trans; [apply (grows_adds (λ _, True)), (same_grows _ w w1); done|].
    eapply adds_trans; [eapply wrote_adds; [exact W2|constructor|right]|eapply adds_trans; [eapply wrote_adds; [exact W3|constructor|right]|]].
    - by rewrite A4, (not_open _ _ Hp Hmf).
    - destruct W2 as (_ & _ & _ & -> & _). by rewrite A4, (not_open _ _ Hp Hmf).
    - eapply wrote_adds; [exact W4|constructor|left; by eexists]. }
  pose proof (ad_ok _ _ _ Hadds Hp) as Hp4.
  assert (files w4 !! table_data_file dir n = Some (Pages (MkPages (Some BPFileHeader.initial) None))) as Hd4.
  { destruct W4 as (_ & -> & _). by rewrite lookup_insert_eq. }
  apply wp_bind. unfold init_record_handler. apply wp_bind. unfold table_name. cbn [set_meta table_meta_]. rewrite Hname.
  eapply wp_open_file; [done|by eexists| |].
  { destruct W4 as (_ & _ & _ & -> & _), W3 as (_ & _ & _ & -> & _), W2 as (_ & _ & _ & -> & _). rewrite A4. by apply not_open. }
  intros w5 Ho. assert (buffer_pools_ w4 !! table_data_file dir n = None) as Hb4.
  { destruct W4 as (_ & _ & _ & -> & _), W3 as (_ & _ & _ & -> & _), W2 as (_ & _ & _ & -> & _). rewrite A4. by apply not_open. }
  pose proof (opened_ok _ _ _ _ Ho) as Hpo. pose proof (opened_grows _ _ _ _ Hp4 (ex_intro _ _ Hd4) Hb4 Ho) as Hgr.
  apply wp_ret. change (RC.succ RC.SUCCESS) with true. cbv iota. apply wp_ret. cbn [fst snd].
  split; [done|]. split; [eapply adds_trans; [done|by eapply grows_adds]|]. split; [|done].
  split; cbn; try done.
  - rewrite (gr_files _ _ _ Hgr). destruct W4 as (_ & -> & _). rewrite lookup_insert_ne by done.
    destruct W3 as (_ & -> & _). by rewrite lookup_insert_eq.
  - eexists. rewrite (gr_files _ _ _ Hgr), Hd4. split; [done|]. split; [by eexists|done].
  - rewrite Hidx. constructor.
  - rewrite Hidx. constructor.
Qed.

(** no table of the name, no file of its metadata *)
Lemma no_meta_file w d n : catalog_ok w d → plain_name n → opened_tables_ d !! n = None → files w !! table_meta_file (db_path d) n = None.
Proof.
  intros Hc Hn Hnone. destruct (files w !! _) as [c|] eqn:E; [|done]. destruct (listed_table n Hn) as [Hm Hs].
  destruct (co_files _ _ Hc _ Hm Hs (mk_is_Some _ _ E)) as (n' & t & Ht & <-%table_suffix_inj). congruence.
Qed.
Definition small_attrs (attrs : list AttrInfo) : Prop := Forall attr_small attrs.
Definition small_trx (trx_fields : option (list FieldMeta.t)) : Prop := Forall (λ f, is_ascii (FieldMeta.name f) = true) (default [] trx_fields).
Lemma wp_db_create_table trx_fields w d n attrs m :
  catalog_ok w d → plain_name n → opened_tables_ d !! n = None → next_table_id_ d < 2 ^ 31 - 1 →
  small_attrs attrs → small_trx trx_fields → TableMeta.init trx_fields (next_table_id_ d) n attrs = Done (inr m) →
  TableMeta.record_size m < 2 ^ 31 → files w !! table_data_file (db_path d) n = None →
  wp (db_create_table trx_fields n attrs d) w (λ r w', r.1 = RC.SUCCESS ∧ catalog_ok w' r.2 ∧
    db_path r.2 = db_path d ∧ table_meta_ <$> opened_tables_ r.2 = <[n := m]> (table_meta_ <$> opened_tables_ d)).
Proof.
  intros Hc Hplain Hnone Hnext Hattrs Htrx Hinit Hsize Hdf. pose proof (co_range _ _ Hc) as Hrange.
  destruct (init_ok _ _ _ _ _ Hinit ltac:(lia) (proj1 (proj2 Hplain)) Hattrs Htrx Hsize) as (Hmok & Hname & Hid & Hidx).
  unfold db_create_table. rewrite Hnone. apply wp_bind. cbn [set_next_id db_path].
  eapply wp_mono; [apply (wp_table_create trx_fields w (db_path d) (next_table_id_ d) n attrs m); try done; [lia|apply Hc|by apply no_meta_file]|].
  intros [rc t] w' (Hrc & Hadds & Ht & Hmeta). cbn in Hrc, Ht, Hmeta. subst rc. 
  change (RC.succ RC.SUCCESS) with true. cbn [negb]. apply wp_ret. cbn [fst snd]. split; [done|].
  split; [|split; [done|]; cbn; by rewrite fmap_insert, Hmeta].
  eapply (catalog_update w w' d _ n t); cbn; try done; rewrite ?next_int32 by lia; [lia|unfold table_id; rewrite Hmeta, Hid; lia|].
  intros n' t' Ht' _. pose proof (co_next _ _ Hc _ _ Ht'). unfold table_id in *. rewrite Hmeta, Hid. lia.
Qed.

(** *** A table that cannot be created *)
Lemma place_fields_rc l o rc : TableMeta.place_fields l o = inl rc → rc = RC.INVALID_ARGUMENT.
Proof.
  revert o. induction l as [|a l IH]; intros o; cbn; [done|]. destruct (FieldMeta.init _ _ _ _ _ _) as [rc'|f] eqn:E.
  - intros [= <-]. unfold FieldMeta.init in E. destruct (is_blank _); [congruence|]. case_decide; congruence.
  - destruct (TableMeta.place_fields l _) as [rc'|[fs o']] eqn:E'; [|done]. intros [= <-]. by eapply IH.
Qed.
Lemma init_rc trx_fields id n attrs rc : TableMeta.init trx_fields id n attrs = Done (inl rc) → rc = RC.INVALID_ARGUMENT.
Proof.
  unfold TableMeta.init. destruct (is_blank n); [congruence|]. case_decide; [congruence|].
  destruct (TableMeta.place_trx_fields _ 0) as [[? ?]|]; [|done]. cbv zeta.
  destruct (TableMeta.place_fields _ _) as [rc'|[fs o']] eqn:E; [|done]. intros [= <-]. by eapply place_fields_rc.
Qed.
Lemma wp_failed_create trx_fields w d n attrs rc :
  catalog_ok w d → plain_name n → opened_tables_ d !! n = None → attrs ≠ [] →
  TableMeta.init trx_fields (next_table_id_ d) n attrs = Done (inl rc) →
  wp (db_create_table trx_fields n attrs d) w (λ r w', r.1 = RC.INVALID_ARGUMENT ∧
    r.2 = set_next_id (int32 ((next_table_id_ d + 1) mod 2 ^ 32)) d ∧ wrote (table_meta_file (db_path d) n) (Document no_text) w w').
Proof.
  intros Hc Hplain Hnone Hattrs Hinit. pose proof (co_range _ _ Hc) as Hrange. rewrite (init_rc _ _ _ _ _ Hinit) in Hinit.
  pose proof (no_meta_file _ _ _ Hc Hplain Hnone) as Hmf.
  unfold db_create_table. rewrite Hnone. apply wp_bind. cbn [set_next_id db_path]. unfold table_create.
  rewrite decide_False by lia. rewrite (proj1 Hplain), decide_False by done.
  apply wp_bind, wp_call. intros w1 A1 A2 A3 A4 A5. apply wp_bind, wp_file_at. rewrite A2, Hmf. cbn [negb].
  rewrite bool_decide_eq_false_2 by (by intros [??]). apply wp_bind, wp_put_file. intros w2 (B1 & B2 & B3 & B4 & B5). rewrite Hinit. apply wp_ret.
  change (RC.succ RC.INVALID_ARGUMENT) with false. cbn [negb]. apply wp_bind, wp_ret, wp_ret. cbn [fst snd].
  split_and!; [done..|]. split_and!; congruence.
Qed.
(** the name is taken from then on *)
Lemma wp_create_again trx_fields w d n attrs :
  opened_tables_ d !! n = None → 0 <= next_table_id_ d → plain_name n → attrs ≠ [] → is_Some (files w !! table_meta_file (db_path d) n) →
  wp (db_create_table trx_fields n attrs d) w (λ r w', r.1 = RC.SCHEMA_TABLE_EXIST ∧ opened_tables_ r.2 = opened_tables_ d).
Proof.
  intros Hnone Hid Hplain Hattrs Hf. unfold db_create_table. rewrite Hnone. apply wp_bind. cbn [set_next_id db_path]. unfold table_create.
  rewrite decide_False by lia. rewrite (proj1 Hplain), decide_False by done.
  apply wp_bind, wp_call. intros w1 A1 A2 A3 A4 A5. apply wp_bind, wp_file_at. rewrite A2, bool_decide_eq_true_2 by done.
  apply wp_ret. change (RC.succ RC.SCHEMA_TABLE_EXIST) with false. cbn [negb]. by apply wp_bind, wp_ret, wp_ret.
Qed.
(** and a new process does not start *)
Lemma wp_open_orphan w w' d n :
  catalog_ok w d → plain_name n → opened_tables_ d !! n = None → wrote (table_meta_file (db_path d) n) (Document no_text) w w' →
  wp (open_all_tables (MkDb (db_name d) (db_path d) ∅ 0)) (reboot w') (λ r _, r.1 = RC.INTERNAL).
Proof.
  intros [Hdir Htables Hids Hnext Hrange Hfiles Hpools] Hplain Hnone (B1 & B2 & _). unfold open_all_tables. cbn [db_path].
  apply wp_bind, wp_list_meta_files; [cbn; by rewrite B1|]. cbn. intros w1 l A1 A2 A3 A4 A5 Hl Hnd.
  destruct (listed_table n Hplain) as [Hmn Hsn].
  assert (n +:+ ".table" ∈ l) as Hin.
  { apply Hl. split_and!; [done|done|]. rewrite B2. change (db_path d +:+ "/" +:+ n +:+ ".table") with (table_meta_file (db_path d) n).
    rewrite lookup_insert_eq. by eexists. }
  apply list_elem_of_split in Hin as (l1 & l2 & ->). apply NoDup_app in Hnd as (Hnd & Hnot & _).
  destruct (names_of (λ n, ∃ t, opened_tables_ d !! n = Some t) l1) as (todo & -> & Htodo).
  { intros f Hf. destruct (proj1 (Hl f)) as (Hm & Hs & Hfile); [apply elem_of_app; by left|].
    rewrite B2, lookup_insert_is_Some' in Hfile. destruct Hfile as [E|Hfile].
    - exfalso. apply (Hnot f Hf). apply elem_of_cons. left. unfold table_meta_file in E. apply (f_equal la) in E. rewrite !la_app in E.
      apply (inj (app (la (db_path d)))), (inj (app (la "/"))) in E. rewrite <-la_app in E. by apply la_inj in E.
    - destruct (Hfiles f Hm Hs Hfile) as (n' & t & Ht & ->). eauto. }
  apply NoDup_fmap_1 in Hnd. apply wp_open_tables_app.
  eapply wp_mono; [apply (wp_open_tables (table_meta_ <$> opened_tables_ d) todo w1 (MkDb (db_name d) (db_path d) ∅ 0)); cbn [db_path opened_tables_]|].
  - split; cbn; [done..|lia|]. split; rewrite ?A3, ?A4; [done|intros id [? ?]; done|intros path [? ?]; done].
  - done.
  - intros n' m. rewrite lookup_fmap_Some. intros (t & <- & Ht). pose proof (Htables _ _ Ht) as Hok'. split.
    + eapply stored_keeps; [|apply table_stored, Hok']. intros q c Hq Hc. rewrite A2, B2. cbn. rewrite lookup_insert_ne; [done|]. intros <-.
      assert (n = n') as -> by exact (table_file_apart _ _ _ _ Hplain (to_plain _ _ _ _ Hok') (file_meta _ n) Hq). congruence.
    + pose proof (mo_id _ (to_meta _ _ _ _ Hok')) as [? _]. pose proof (Hnext _ _ Ht). unfold table_id in *. lia.
  - intros n' Hn. destruct (Htodo n' Hn) as [t Ht]. by rewrite lookup_fmap, Ht.
  - intros n' path _ _. by rewrite A4.
  - intros [rc d'] w2 (Q1 & Q2 & Q3 & Q4 & _). cbn in *. split; [done|]. apply wp_bind.
    unfold table_open, read_document. apply wp_bind, wp_bind, wp_call. intros w3 C1 C2 C3 C4 C5. apply wp_bind, wp_file_at, wp_ret.
    rewrite C2, Q3, A2, B2, Q4. change (db_path d +:+ "/" +:+ n +:+ ".table") with (table_meta_file (db_path d) n). rewrite lookup_insert_eq.
    unfold deserialize. rewrite parse_no_text. apply wp_ret. change (RC.succ RC.INTERNAL) with false. cbn [negb].
    by apply wp_bind, wp_ret, wp_ret.
Qed.

(** ** Dropping *)
(** a file that is closed and removed *)
Record removed (path : string) w w' : Prop := {
  rm_dirs : dirs w' = dirs w;
  rm_files : files w' = delete path (files w);
  rm_named : buffer_pools_ w' = delete path (buffer_pools_ w);
  rm_pools : pools w' ⊆ pools w;
  rm_others : ∀ id b, pools w !! id = Some b → file_name_ b ≠ path → pools w' !! id = Some b;
  rm_gone : ∀ id, buffer_pools_ w !! path = Some id → pools w' !! id = None;
  rm_ok : pools_ok w → pools_ok w'
}.
Lemma removed_adds (P : string → Prop) path w w' : pools_ok w → removed path w w' → P path → adds P w w'.
Proof.
  intros Hp [H1 H2 H3 H4 H5 H6 H7] HP. split; [done| | |done].
  - intros q Hq. assert (path ≠ q) as Hne by (by intros ->). rewrite H2, H3, !lookup_delete_ne by done. split; [done|].
    intros id b Hid Hb. split; [done|]. apply H5; [done|]. destruct (po_named _ Hp _ _ Hid) as (b' & Hb' & <-). intros <-. congruence.
  - intros q. rewrite H2, lookup_delete_is_Some. intros [_ ?]. by left.
Qed.
Lemma wp_flush_all_pages w id b (Q : RC.t → world T → Prop) :
  pools w !! id = Some b →
  (∀ w' c, dirs w' = dirs w → files w' = alter c (file_name_ b) (files w) → (∀ id', id' ≠ id → pools w' !! id' = pools w !! id') →
    (∃ b', pools w' !! id = Some b' ∧ file_name_ b' = file_name_ b) → buffer_pools_ w' = buffer_pools_ w → next_pool w' = next_pool w → Q RC.SUCCESS w') →
  wp (flush_all_pages id) w Q.
Proof.
  intros Hb HQ. unfold flush_all_pages. apply wp_bind. eapply wp_pool_at; [done|]. destruct (pages_dirty b).
  - apply wp_bind, wp_call. intros w1 A1 A2 A3 A4 A5. cbn [negb]. apply wp_bind, wp_modify, wp_bind, wp_modify, wp_ret.
    apply (HQ _ (λ _, Pages (frames b))); cbn; [done|by rewrite A2| |eexists; by rewrite lookup_insert_eq|done|done].
    intros id' Hne. by rewrite lookup_insert_ne, A3.
  - apply wp_ret. apply (HQ _ (λ x, x)); [done| |done|by exists b|done|done]. apply map_eq. intros q.
    destruct (decide (file_name_ b = q)) as [<-|Hne]; [rewrite lookup_alter_eq; by destruct (files w !! file_name_ b)|by rewrite lookup_alter_ne].
Qed.
Lemma wp_close_file w path id (Q : RC.t → world T → Prop) :
  pools_ok w → buffer_pools_ w !! path = Some id →
  (∀ w' c, dirs w' = dirs w → files w' = alter c path (files w) → pools w' = delete id (pools w) →
    buffer_pools_ w' = delete path (buffer_pools_ w) → next_pool w' = next_pool w → Q RC.SUCCESS w') →
  wp (close_file path) w Q.
Proof.
  intros Hp Hid HQ. destruct (po_named _ Hp _ _ Hid) as (b & Hb & Hname). unfold close_file. apply wp_bind, wp_get. rewrite Hid.
  apply wp_bind, wp_modify. apply wp_bind. unfold bp_close_file. apply wp_bind. eapply wp_flush_all_pages; [exact Hb|].
  intros w1 c A1 A2 A3 (b' & A4 & Hname') A5 A6. cbn in *. apply wp_bind. eapply wp_pool_at; [done|].
  apply wp_bind, wp_call. intros w2 B1 B2 B3 B4 B5. cbn [negb]. apply wp_bind, wp_modify, wp_ret. apply wp_bind, wp_modify, wp_ret.
  apply (HQ _ c); cbn; [congruence|by rewrite B2, A2, Hname| | |congruence].
  - rewrite B3. apply map_eq. intros id'. destruct (decide (id' = id)) as [->|Hne]; [by rewrite !lookup_delete_eq|].
    by rewrite !lookup_delete_ne, A3 by done.
  - rewrite B4, A5, Hname', Hname, delete_delete_eq. done.
Qed.
Lemma wp_remove w path (Q : bool → world T → Prop) :
  is_Some (files w !! path) →
  (∀ w', dirs w' = dirs w → files w' = delete path (files w) → pools w' = pools w → buffer_pools_ w' = buffer_pools_ w → next_pool w' = next_pool w → Q false w') →
  wp (remove_file path) w Q.
Proof.
  intros Hf HQ. unfold remove_file. apply wp_bind, wp_call. intros w1 A1 A2 A3 A4 A5. apply wp_bind, wp_file_at.
  rewrite A2, bool_decide_eq_true_2 by done. cbn [andb]. apply wp_bind, wp_modify, wp_ret. apply HQ; cbn; congruence.
Qed.
Lemma wp_close_remove w path p :
  pools_ok w → pool_ok w path p →
  wp (close_file path) w (λ rc w1, rc = RC.SUCCESS ∧ wp (remove_file path) w1 (λ fail w', fail = false ∧ removed path w w')).
Proof.
  intros Hp (id & b & -> & Hid & Hb & Hname). eapply wp_close_file; [done|done|]. intros w1 c A1 A2 A3 A4 A5.
  assert (is_Some (files w1 !! path)) as Hf.
  { destruct (po_file _ Hp _ (mk_is_Some _ _ Hid)) as [p Hpf]. rewrite A2, lookup_alter_eq, Hpf. by eexists. }
  split; [done|]. apply wp_remove; [done|]. intros w2 B1 B2 B3 B4 B5. split; [done|]. split; rewrite ?B1, ?B2, ?B3, ?B4, ?A1, ?A2, ?A3, ?A4; try done.
  - apply map_eq. intros q. destruct (decide (q = path)) as [->|Hne]; [by rewrite !lookup_delete_eq|].
    rewrite !lookup_delete_ne by done. by rewrite lookup_alter_ne.
  - apply delete_subseteq.
  - intros id' b' Hb' Hne. rewrite lookup_delete_ne; [done|]. intros <-. congruence.
  - intros id' Hid'. rewrite Hid in Hid'. injection Hid' as <-. apply lookup_delete_eq.
  - intros [Hn Hx Hfi]. split; rewrite ?B1, ?B2, ?B3, ?B4, ?B5, ?A1, ?A2, ?A3, ?A4, ?A5.
    + intros q id'. rewrite lookup_delete_Some. intros [Hq Hl]. destruct (Hn _ _ Hl) as (b' & Hb' & <-). exists b'.
      rewrite lookup_delete_ne; [done|]. intros <-. congruence.
    + intros id'. rewrite lookup_delete_is_Some. intros [_ ?]. by apply Hx.
    + intros q. rewrite lookup_delete_is_Some. intros [Hq Hs]. rewrite lookup_delete_ne, lookup_alter_ne by done. by apply Hfi.
Qed.
Record drops (dir n : string) w w' : Prop := {
  dp_adds : adds (table_file dir n) w w';
  dp_pools : pools w' ⊆ pools w;
  dp_files : files w' ⊆ files w
}.
Lemma drops_trans dir n w w' w'' : drops dir n w w' → drops dir n w' w'' → drops dir n w w''.
Proof. intros [H1 H2 H3] [G1 G2 G3]. split; [by eapply adds_trans|by etrans|by etrans]. Qed.
Lemma removed_drops dir n path w w' : pools_ok w → removed path w w' → table_file dir n path → drops dir n w w'.
Proof.
  intros Hp Hr Hf. split; [by eapply removed_adds|apply Hr|]. rewrite (rm_files _ _ _ Hr). apply delete_subseteq.
Qed.
Lemma removed_pool_ok path w w' q p : removed path w w' → q ≠ path → pool_ok w q p → pool_ok w' q p.
Proof.
  intros Hr Hq (id & b & -> & Hid & Hb & <-). exists id, b. split; [done|]. rewrite (rm_named _ _ _ Hr), lookup_delete_ne by done.
  split; [done|]. split; [|done]. by apply (rm_others _ _ _ Hr).
Qed.
Lemma gone_stays w w' (id : nat) : pools w' ⊆ pools w → pools w !! id = None → pools w' !! id = None.
Proof. intros Hs Hn. by eapply lookup_weaken_None. Qed.

Lemma wp_drop_indexes w dir n l :
  plain_name n → pools_ok w → NoDup ((λ i, IndexMeta.name (index_meta_ i)) <$> l)%list →
  Forall (λ i, pool_ok w (table_index_file dir n (IndexMeta.name (index_meta_ i))) (disk_buffer_pool_ i)) l →
  wp (drop_indexes dir n l) w (λ rc w', rc = RC.SUCCESS ∧ drops dir n w w' ∧
    ∀ i, i ∈ l → files w' !! table_index_file dir n (IndexMeta.name (index_meta_ i)) = None).
Proof.
  intros Hplain. revert w. induction l as [|i l IH]; intros w Hp Hnd Hl.
  { apply wp_ret. split; [done|]. split; [|intros i ?%not_elem_of_nil; done].
    split; [apply (grows_adds (λ _, True)), grows_refl|done|done]. }
  apply Forall_cons in Hl as [Hi Hl]. apply NoDup_cons in Hnd as [Hnot Hnd]. cbn [drop_indexes].
  apply wp_bind. eapply wp_mono; [by apply (wp_close_remove w _ _ Hp Hi)|]. intros rc w1 [-> Hrm].
  apply wp_bind. eapply wp_mono; [exact Hrm|]. intros fail w2 [-> Hr].
  assert (drops dir n w w2) as Hd by (eapply removed_drops; [done|exact Hr|constructor]).
  eapply wp_mono; [apply (IH w2); [by apply (rm_ok _ _ _ Hr)|done|]|].
  - rewrite Forall_forall in Hl |- *. intros i' Hi'. eapply removed_pool_ok; [exact Hr| |by apply Hl].
    intros [_ E]%index_file_inj; [|done..]. apply Hnot. apply list_elem_of_fmap. by exists i'.
  - intros rc w3 (-> & Hd3 & Hgone). split; [done|]. split; [by eapply drops_trans|]. intros i' [->|Hi']%elem_of_cons; [|by apply Hgone].
    eapply lookup_weaken_None; [|apply (dp_files _ _ _ _ Hd3)]. rewrite (rm_files _ _ _ Hr). apply lookup_delete_eq.
Qed.
Lemma index_names w dir n m l il : Forall2 (index_ok w dir n m) l il → (λ i, IndexMeta.name (index_meta_ i)) <$> il = IndexMeta.name <$> l.
Proof. induction 1 as [|im i l il Hi _ IH]; [done|]. cbn. by rewrite IH, (io_meta _ _ _ _ _ _ Hi). Qed.
Lemma wp_table_drop w d n t :
  catalog_ok w d → opened_tables_ d !! n = Some t →
  wp (table_drop (db_path d) t) w (λ rc w', rc = RC.SUCCESS ∧ drops (db_path d) n w w' ∧
    files w' !! table_meta_file (db_path d) n = None ∧ files w' !! table_data_file (db_path d) n = None ∧
    (∀ im, im ∈ TableMeta.indexes (table_meta_ t) → files w' !! table_index_file (db_path d) n (IndexMeta.name im) = None) ∧
    destroy_table t w' = Crash).
Proof.
  intros Hc Ht. pose proof (co_tables _ _ Hc _ _ Ht) as [H1 H2 H3 H4 H5 H6 H7 H8 H9]. pose proof (co_pools _ _ Hc) as Hp.
  set (dir := db_path d) in *. unfold table_drop. rewrite H1.
  apply wp_bind. eapply wp_mono; [by apply (wp_close_remove w _ _ Hp H7)|]. intros rc w1 [-> Hrm].
  change (RC.succ RC.SUCCESS) with true. cbn [negb]. apply wp_bind. eapply wp_mono; [exact Hrm|]. intros fail w2 [-> Hr].
  assert (table_meta_file dir n ≠ table_data_file dir n) as Hne by other_kind.
  apply wp_bind, wp_remove.
  { rewrite (rm_files _ _ _ Hr), lookup_delete_ne by done. rewrite H5. by eexists. }
  intros w3 A1 A2 A3 A4 A5. assert (removed (table_meta_file dir n) w2 w3) as Hr3.
  { assert (buffer_pools_ w !! table_meta_file dir n = None) as Hb.
    { destruct (buffer_pools_ w !! _) eqn:E; [|done]. destruct (po_file _ Hp _ (mk_is_Some _ _ E)). congruence. }
    assert (buffer_pools_ w2 !! table_meta_file dir n = None) as Hb2 by (by rewrite (rm_named _ _ _ Hr), lookup_delete_ne by done).
    split; rewrite ?A1, ?A2, ?A3, ?A4, ?A5; try done; [by rewrite delete_id|congruence|].
    intros [Hn Hx Hfi]. split; rewrite ?A2, ?A3, ?A4, ?A5; [done..|]. intros q Hq. rewrite lookup_delete_ne; [by apply Hfi|].
    intros <-. rewrite Hb2 in Hq. by destruct Hq. }
  pose proof (rm_ok _ _ _ Hr Hp) as Hp2. pose proof (rm_ok _ _ _ Hr3 Hp2) as Hp3.
  assert (drops dir n w w3) as Hd.
  { eapply drops_trans; [eapply removed_drops; [done|exact Hr|constructor]|eapply removed_drops; [done|exact Hr3|constructor]]. }
  eapply wp_mono; [apply (wp_drop_indexes w3 dir n (indexes_ t)); [done|done| |]|].
  - erewrite index_names; done.
  - clear -H8 Hr Hr3. induction H8 as [|im i l il Hi Hl IH]; constructor; [|done]. pose proof (io_pool _ _ _ _ _ _ Hi) as Hpo.
    rewrite (io_meta _ _ _ _ _ _ Hi). eapply removed_pool_ok; [exact Hr3|other_kind|]. eapply removed_pool_ok; [exact Hr|other_kind|done].
  - intros rc w4 (-> & Hd4 & Hgone). split; [done|]. split; [by eapply drops_trans|].
    assert (∀ q, files w3 !! q = None → files w4 !! q = None) as Hstay by (intros q ?; by eapply lookup_weaken_None, Hd4).
    split_and!.
    + apply Hstay. rewrite (rm_files _ _ _ Hr3). apply lookup_delete_eq.
    + apply Hstay. rewrite (rm_files _ _ _ Hr3), lookup_delete_ne by done. rewrite (rm_files _ _ _ Hr). apply lookup_delete_eq.
    + intros im Him. apply list_elem_of_lookup in Him as [k Hk]. destruct (Forall2_lookup_l _ _ _ _ _ H8 Hk) as (i & Hi & Hio).
      rewrite <-(io_meta _ _ _ _ _ _ Hio). apply Hgone. by eapply list_elem_of_lookup_2.
    + destruct H7 as (id & b & Hid & Hb & _ & _). unfold destroy_table. rewrite Hid.
      assert (pools w4 !! id = None) as Hnone.
      { eapply gone_stays; [apply Hd4|]. rewrite A3. by apply (rm_gone _ _ _ Hr). }
      unfold bp_close_file, flush_all_pages, pool_at, mbind, ST_bind, st_get, st_some. by rewrite Hnone.
Qed.
(** the rest of the database is as before *)
Lemma catalog_drop w w' d n :
  catalog_ok w d → drops (db_path d) n w w' → is_Some (opened_tables_ d !! n) → files w' !! table_meta_file (db_path d) n = None →
  catalog_ok w' (set_opened (delete n (opened_tables_ d)) d).
Proof.
  intros [Hdir Htables Hids Hnext Hrange Hfiles Hpools] [[A1 A2 A3 A4] Hps Hfs] [t Ht] Hgone. pose proof (to_plain _ _ _ _ (Htables _ _ Ht)) as Hplain.
  split; cbn.
  - by rewrite A1.
  - intros n' t'. rewrite lookup_delete_Some. intros [Hne Ht']. pose proof (Htables _ _ Ht') as Hok'.
    eapply keeps_table; [|exact Hok']. intros q Hq. apply A2. intros Hq'. apply Hne.
    exact (table_file_apart _ _ _ _ Hplain (to_plain _ _ _ _ Hok') Hq' Hq).
  - intros n1 t1 n2 t2. rewrite !lookup_delete_Some. intros [_ ?] [_ ?]. by eapply Hids.
  - intros n' t'. rewrite lookup_delete_Some. intros [_ ?]. by eapply Hnext.
  - done.
  - intros f Hm Hs [c Hf]. destruct (Hfiles f Hm Hs) as (n' & t' & Ht' & ->); [exists c; by eapply lookup_weaken|].
    exists n', t'. rewrite lookup_delete_ne; [done|]. intros <-. unfold table_meta_file in Hgone. congruence.
  - by apply A4.
Qed.

(** ** A new index *)
Lemma allocate_initial : ∃ h, BPFileHeader.allocate BPFileHeader.initial = inr (1%nat, h).
Proof.
  unfold BPFileHeader.allocate, BPFileHeader.choose_free, BPFileHeader.initial. cbn [BPFileHeader.page_count BPFileHeader.allocated_pages].
  rewrite decide_False by lia. rewrite decide_False by (vm_compute; intros H; by apply H).
  unfold BPFileHeader.extend_page. cbn [BPFileHeader.page_count BPFileHeader.bitmap]. unfold Bitmap.set_bit. change (1 / 8)%nat with 0%nat.
  cbn [lookup list_lookup mbind option_bind]. by eexists.
Qed.
Lemma wp_index_create w path im fields (Q : RC.t * Index → world T → Prop) :
  files w !! path = None → buffer_pools_ w !! path = None → (length fields <= MAX_LEAF_SIZE)%nat →
  (∀ w0 w' h, let p := MkPages (Some h) (Some (new_header fields (IndexMeta.unique im))) in
    wrote path (Pages p) w w0 → opened_pool path p w0 w' →
    Q (RC.SUCCESS, MkIndex im fields true (Some (next_pool w0)) (new_header fields (IndexMeta.unique im)) false) w') →
  wp (index_create path im fields new_index) w Q.
Proof.
  intros Hf Hb Hlen HQ. unfold index_create, handler_create. cbn [new_index inited_ disk_buffer_pool_ file_header_ header_dirty_].
  apply wp_bind, wp_bind, wp_create_file; [done|]. intros w1 W1. change (RC.succ RC.SUCCESS) with true. cbn [negb].
  assert (files w1 !! path = Some (Pages (MkPages (Some BPFileHeader.initial) None))) as Hf1 by (destruct W1 as (_ & -> & _); by rewrite lookup_insert_eq).
  apply wp_bind. eapply wp_open_file; [done|by eexists|by destruct W1 as (_ & _ & _ & -> & _)|]. intros w2 (O1 & O2 & O3 & O4 & O5).
  set (id := next_pool w1) in *. apply wp_bind. eapply wp_pool_at; [rewrite O3; apply lookup_insert_eq|]. cbn [frames header_page].
  apply wp_bind. eapply wp_some; [done|]. destruct allocate_initial as [h ->]. rewrite decide_False by (unfold FIRST_INDEX_PAGE; lia).
  apply wp_bind, wp_assert; [by apply bool_decide_eq_true_2|]. cbn [index_page]. apply wp_bind, wp_modify.
  apply wp_bind, wp_call. intros w3 A1 A2 A3 A4 A5. cbn in A1, A2, A3, A4, A5. cbn [negb]. apply wp_bind. unfold handler_sync. apply wp_bind.
  eapply wp_some; [done|]. apply wp_bind. eapply wp_pool_at; [rewrite A3; apply lookup_insert_eq|]. cbn [set_header set_pool_of header_dirty_].
  apply wp_bind, wp_ret. apply wp_bind. unfold flush_all_pages. apply wp_bind. eapply wp_pool_at; [rewrite A3; apply lookup_insert_eq|].
  cbn [pages_dirty]. apply wp_bind, wp_call. intros w4 B1 B2 B3 B4 B5. cbn [negb]. apply wp_bind, wp_modify, wp_bind, wp_modify, wp_ret, wp_ret, wp_ret, wp_ret.
  set (p := MkPages (Some h) (Some (new_header fields (IndexMeta.unique im)))). cbn [frames file_name_].
  refine (HQ (MkWorld (calls w1) (dirs w1) (<[path := Pages p]> (files w)) (pools w1) (buffer_pools_ w1) id) _ h _ _).
  - destruct W1 as (W1 & _ & W3 & W4 & W5). by repeat split.
  - split_and!; cbn; [congruence| | | |].
    + rewrite B2, A2, O2. destruct W1 as (_ & -> & _). by rewrite alter_insert_eq.
    + rewrite B3, A3, O3. by rewrite !insert_insert_eq.
    + congruence.
    + congruence.
Qed.
Lemma metas_of_fields m fields :
  Forall (λ f, TableMeta.field_by_name m (FieldMeta.name f) = Some f) fields → metas_of m (FieldMeta.name <$> fields) = Some fields.
Proof. induction 1 as [|f l Hf _ IH]; [done|]. cbn. by rewrite Hf, IH. Qed.
Lemma metas_of_add m i l : metas_of (TableMeta.add_index m i) l = metas_of m l.
Proof. induction l as [|x l IH]; [done|]. cbn. by rewrite IH. Qed.
(** the new metadata takes the place of the old *)
Lemma renamed_adds dir n c w w' :
  dirs w' = dirs w → files w' = <[table_meta_file dir n := Document c]> (delete (table_meta_file dir n +:+ ".tmp") (files w)) →
  pools w' = pools w → buffer_pools_ w' = buffer_pools_ w → next_pool w' = next_pool w →
  buffer_pools_ w !! table_meta_file dir n = None → buffer_pools_ w !! (table_meta_file dir n +:+ ".tmp") = None →
  adds (table_file dir n) w w'.
Proof.
  intros H1 H2 H3 H4 H5 Hm Ht. split; [done| | |].
  - intros q Hq. rewrite H2, H3, H4. split; [|done]. intros c' Hc. rewrite lookup_insert_ne, lookup_delete_ne; [done| |]; intros <-; apply Hq; constructor.
  - intros q. rewrite H2, lookup_insert_is_Some'. intros [<-|Hs]; [right; constructor|]. apply lookup_delete_is_Some in Hs as [_ ?]. by left.
  - intros [Hn Hx Hf]. split; rewrite ?H2, ?H3, ?H4, ?H5; [done..|]. intros q Hq.
    rewrite lookup_insert_ne, lookup_delete_ne; [by apply Hf| |]; intros <-; destruct Hq; congruence.
Qed.
Lemma add_index_ok m im : meta_ok m → index_meta_ok m im → meta_ok (TableMeta.add_index m im).
Proof. intros [H1 H2 H3 H4 H5 H6] Hi. split; try done. apply Forall_app. split; [exact H6|]. by constructor. Qed.
Lemma wp_table_create_index w dir n t unique fields name :
  table_ok w dir n t → pools_ok w → is_blank name = false → is_ascii name = true → fields ≠ [] → (length fields <= MAX_LEAF_SIZE)%nat →
  Forall (λ f, TableMeta.field_by_name (table_meta_ t) (FieldMeta.name f) = Some f) fields →
  TableMeta.find_index_by_fields (table_meta_ t) (FieldMeta.name <$> fields) = None →
  files w !! table_index_file dir n name = None → files w !! (table_meta_file dir n +:+ ".tmp") = None →
  let im := IndexMeta.mk name (FieldMeta.name <$> fields) unique in
  wp (table_create_index RC.SUCCESS unique fields name t) w (λ r w', r.1 = RC.SUCCESS ∧
    adds (table_file dir n) w w' ∧ table_ok w' dir n r.2 ∧ table_meta_ r.2 = TableMeta.add_index (table_meta_ t) im).
Proof.
  intros Ht Hp Hblank Hascii Hne Hlen Hfields Hfind Hif Htf im. pose proof Ht as [H1 H2 H3 H4 H5 H6 H7 H8 H9].
  assert (index_meta_ok (table_meta_ t) im) as Him.
  { split; [done|]. split; [done|]. cbn. apply Forall_fmap. rewrite Forall_forall in Hfields |- *. intros f Hf. cbn.
    specialize (Hfields f Hf). split; [|by eexists]. apply List.find_some in Hfields as [Hin _].
    pose proof (mo_field _ H4) as Hall. rewrite Forall_forall in Hall. by apply (Hall f), list_elem_of_In. }
  unfold table_create_index. rewrite Hblank, bool_decide_eq_false_2 by done. cbn [orb]. rewrite Hfind. unfold IndexMeta.init. rewrite Hblank.
  fold im. rewrite H3, H1. apply wp_bind, wp_index_create; [done|by apply not_open|done|]. cbv zeta. intros w0 w1 h W O.
  change (RC.succ RC.SUCCESS) with true. cbn [negb set_indexes base_dir_ table_meta_]. rewrite H3.
  set (p := MkPages _ _) in W, O. set (i := MkIndex _ _ _ _ _ _).
  assert (table_name (set_indexes (indexes_ t ++ [i])%list t) = n) as Hn by done. rewrite Hn. clear Hn.
  set (path := table_index_file dir n name) in *. set (meta := table_meta_file dir n) in *.
  assert (adds (table_file dir n) w w0) as Ha0 by (eapply wrote_adds; [exact W|constructor|left; by eexists]).
  assert (files w0 !! path = Some (Pages p)) as Hp0 by (destruct W as (_ & -> & _); by rewrite lookup_insert_eq).
  assert (buffer_pools_ w0 !! path = None) as Hb0 by (destruct W as (_ & _ & _ & -> & _); by apply not_open).
  pose proof (opened_grows _ _ _ _ (ad_ok _ _ _ Ha0 Hp) (ex_intro _ _ Hp0) Hb0 O) as Hgr. pose proof (opened_ok _ _ _ _ O) as Hpo.
  assert (files w1 = <[path := Pages p]> (files w)) as Hf1 by (destruct O as (_ & -> & _), W as (_ & -> & _); done).
  assert (path ≠ meta) as N1 by other_kind. assert (path ≠ meta +:+ ".tmp") as N2 by other_kind. assert (meta ≠ meta +:+ ".tmp") as N3 by other_kind.
  assert (pools_ok w1) as Hp1 by (by apply (gr_ok _ _ _ Hgr), (ad_ok _ _ _ Ha0)).
  assert (buffer_pools_ w1 !! (meta +:+ ".tmp") = None) as Hbt by (apply not_open; [done|by rewrite Hf1, lookup_insert_ne]).
  assert (buffer_pools_ w1 !! meta = None) as Hbm.
  { destruct (buffer_pools_ w1 !! meta) eqn:E; [|done]. destruct (po_file _ Hp1 _ (mk_is_Some _ _ E)) as [p' Hp']. rewrite Hf1, lookup_insert_ne in Hp' by done. congruence. }
  apply wp_bind, wp_write_document. intros w2 W2. change (bool_decide (Some true = None)) with false. change (bool_decide (Some true = Some false)) with false. cbv iota.
  apply wp_bind. eapply wp_call_wrote; [exact W2|]. clear w2 W2. intros w2 W2. apply wp_bind, wp_file_at. pose proof W2 as (V1 & V2 & V3 & V4 & V5).
  rewrite V2, lookup_insert_eq. cbn [negb]. apply wp_bind, wp_modify, wp_ret. cbn [fst snd].
  set (w3 := set_files _ _). assert (adds (table_file dir n) w w3) as Hadds.
  { eapply adds_trans; [exact Ha0|]. eapply adds_trans; [by eapply grows_adds|]. eapply adds_trans; [eapply wrote_adds; [exact W2|constructor|by right]|].
    eapply (renamed_adds dir n); try done; rewrite V4; done. }
  assert (files w3 = <[meta := Document (serialize (TableMeta.add_index (table_meta_ t) im))]> (<[path := Pages p]> (files w))) as Hf3.
  { unfold w3. cbn. rewrite V2, delete_insert_id; [by rewrite Hf1|]. by rewrite Hf1, lookup_insert_ne. }
  assert (∀ q p', pool_ok w1 q p' → pool_ok w3 q p') as Hpools by (intros q p' (x & b & ?); exists x, b; unfold w3; cbn; by rewrite V3, V4).
  assert (∀ q p', pool_ok w q p' → pool_ok w1 q p') as Hpools1.
  { intros q p' (x & b & -> & Hx & Hbx & Hname). destruct W as (_ & _ & W3 & W4 & _). exists x, b. split; [done|].
    split_and!; [eapply lookup_weaken; [|apply Hgr]; by rewrite W4|eapply lookup_weaken; [|apply Hgr]; by rewrite W3|done]. }
  assert (∀ q P, q ≠ meta → pages_at w q P → pages_at w3 q P) as Hat.
  { intros q P Hq (p' & Hp' & ?). exists p'. split; [|done]. rewrite Hf3, lookup_insert_ne by done. destruct (decide (path = q)) as [<-|?]; [congruence|by rewrite lookup_insert_ne]. }
  clearbody w3. split; [done|]. split; [done|]. split; [|done]. split; cbn; try done.
  - by apply add_index_ok.
  - rewrite Hf3. apply lookup_insert_eq.
  - apply Hat; [other_kind|done].
  - by apply Hpools, Hpools1.
  - apply Forall2_app.
    + eapply Forall2_impl; [exact H8|]. intros x y [I1 I2 I3 I4 I5 I6]. split; [done|by rewrite metas_of_add|done|by apply Hpools, Hpools1|done|apply Hat; [other_kind|done]].
    + constructor; [|constructor]. split; cbn; [done|by rewrite metas_of_add; apply metas_of_fields|done|by apply Hpools|done|].
      exists p. rewrite Hf3, lookup_insert_ne, lookup_insert_eq by done. split; [done|]. split; [by eexists|]. by eexists.
  - rewrite fmap_app. apply NoDup_app. split; [done|]. split; [|apply NoDup_singleton]. intros x Hx ->%list_elem_of_singleton. cbn in Hx.
    apply list_elem_of_fmap in Hx as (y & Hy & Hin). apply list_elem_of_lookup in Hin as [k Hk].
    destruct (Forall2_lookup_l _ _ _ _ _ H8 Hk) as (z & _ & Hz). destruct (io_file _ _ _ _ _ _ Hz) as (p' & Hp' & _). rewrite <-Hy in Hp'. unfold im in Hp'. cbn in Hp'. fold path in Hp'. congruence.
Qed.
End opening.

(** ** An empty database *)
Lemma empty_ok {J T} `{!Json J T} (w : world T) (name dir : string) :
  dir ∈ dirs w → (∀ f, files w !! (dir +:+ "/" +:+ f) = None) → pools w = ∅ → buffer_pools_ w = ∅ → catalog_ok w (MkDb name dir ∅ 0).
Proof.
  intros Hdir Hf Hp Hb. split; cbn; [done..|lia| |].
  - intros f _ _ [c Hc]. by rewrite Hf in Hc.
  - split; rewrite ?Hp, ?Hb; [done|intros id [? ?]; done|intros path [? ?]; done].
Qed.

(** ** JSON as a tree, and a system that does not fail *)
Inductive tree : Type :=
| TreeNull | TreeInt (n : Z) | TreeString (s : string) | TreeBool (b : bool) | TreeArray (l : list tree) | TreeObject (l : list (string * tree)).
Definition tree_get (l : list (string * tree)) (k : string) : tree :=
  match List.find (λ p, bool_decide (p.1 = k)) l with Some p => p.2 | None => TreeNull end.
#[global] Instance tree_json : Json tree (option tree) := {|
  json_null := TreeNull; json_int := TreeInt; json_string := TreeString; json_bool := TreeBool;
  set_member v k x := match v with TreeNull => TreeObject [(k, x)] | TreeObject l => TreeObject ((k, x) :: l) | _ => v end;
  json_append v x := match v with TreeNull => TreeArray [x] | TreeArray l => TreeArray (l ++ [x])%list | _ => v end;
  get_member v k := match v with TreeNull => Some TreeNull | TreeObject l => Some (tree_get l k) | _ => None end;
  json_elements v := match v with TreeArray l => l | _ => [] end;
  isInt v := match v with TreeInt _ => true | _ => false end;
  isString v := match v with TreeString _ => true | _ => false end;
  isBool v := match v with TreeBool _ => true | _ => false end;
  isArray v := match v with TreeArray _ => true | _ => false end;
  isObject v := match v with TreeObject _ => true | _ => false end;
  json_empty v := match v with TreeNull | TreeArray [] | TreeObject [] => true | _ => false end;
  asInt v := match v with TreeInt n => n | _ => 0 end;
  asString v := match v with TreeString s => s | _ => "" end;
  asBool v := match v with TreeNull => Some false | TreeInt n => Some (negb (bool_decide (n = 0))) | TreeBool b => Some b | _ => None end;
  json_write := Some; json_parse := id; no_text := None |}.
#[global] Instance tree_json_spec : JsonSpec tree (option tree).
Proof.
  refine {| plain := λ _, True |}; try done.
  - intros v k k' x [->|Hv]; cbn; unfold tree_get; cbn; [by case_bool_decide; case_decide|].
    destruct v; try done. cbn. unfold tree_get. cbn. by case_bool_decide; case_decide.
  - intros v k x [->|Hv]; [done|]. by destruct v.
  - intros v x [->|Hv]; [done|]. by destruct v.
  - intros v x [->|Hv]; [done|]. by destruct v.
  - intros v x [->|Hv]; [done|]. destruct v as [| | | |[|y l]|]; done.
Qed.
Definition good_os : Os (option tree) := {| os_ok := λ _, true; os_written := λ _ d, d; os_order := λ _ l, l |}.
Definition demo_world : world (option tree) := MkWorld 0 {["miniob/db/sys"]} ∅ ∅ ∅ 0.
Definition demo_db : Db := MkDb "sys" "miniob/db/sys" ∅ 0.
Definition demo_attrs : list AttrInfo := [MkAttrInfo INTS "id" 4 false; MkAttrInfo CHARS "name" 8 true].

(** ** The main theorems *)
(** C35: The metadata of a table.  [TableMeta::init] places the fields one behind the other from
    offset 0 to the record size without overlap, the bitmap of the null fields has a bit for
    each field and lies inside the record, [field_index] finds each field again by its offset;
    and whatever indexes are added, [deserialize] reads the document [serialize] writes as the
    same metadata. *)
Theorem metadata_roundtrip {J T} `{!Json J T} `{!JsonSpec J T} {So : SortOps} {Std : StdSort}
    (trx_fields : option (list FieldMeta.t)) (id : Z) (name : string) (attrs : list AttrInfo) (m : TableMeta.t)
  (Hinit : TableMeta.init trx_fields id name attrs = Done (inr m))
  (Hid : 0 <= id < 2 ^ 31) (Hsize : TableMeta.record_size m < 2 ^ 31) (Hname : is_ascii name = true)
  (Hattrs : Forall (λ a, is_ascii (attr_name a) = true) attrs)
  (Htrx : Forall (λ f, is_ascii (FieldMeta.name f) = true) (default [] trx_fields)) :
  (∀ i f, TableMeta.field m i = Some f →
    0 <= FieldMeta.offset f ∧ FieldMeta.offset f + FieldMeta.len f <= TableMeta.record_size m ∧
    TableMeta.field_index m f = Z.of_nat i) ∧
  (∀ i j f g, TableMeta.field m i = Some f → TableMeta.field m j = Some g → (i < j)%nat →
    FieldMeta.offset f + FieldMeta.len f <= FieldMeta.offset g) ∧
  (∀ data i, Z.of_nat (length data) = TableMeta.record_size m → (i < TableMeta.field_num m)%nat →
    is_Some (TableMeta.null_bit trx_fields m data i)) ∧
  (∀ l, Forall (index_meta_ok m) l →
    let m' := fold_left TableMeta.add_index l m in deserialize (serialize m') = Done (Some m')).
Proof.
  destruct (table_meta_layout _ _ _ _ _ Hinit) as (H1 & H2 & H3 & _). split_and!; [done..|].
  destruct (init_ok _ _ _ _ _ Hinit Hid Hname Hattrs Htrx Hsize) as (Hm & _). intros l Hl m'. apply metadata_back. unfold m'.
  clear -Hm Hl. revert m Hm Hl. induction l as [|i l IH]; intros m Hm Hl; [done|]. apply Forall_cons in Hl as [Hi Hl].
  cbn. apply IH; [by apply add_index_ok|]. done.
Qed.
Lemma metadata_roundtrip_witness :
  ∃ m, TableMeta.init None 3 "people" demo_attrs = Done (inr m) ∧
  let m' := fold_left TableMeta.add_index [IndexMeta.mk "by_id" ["id"] true] m in
  @deserialize tree (option tree) _ demo_sort (serialize m') = Done (Some m').
Proof.
  eexists. split; [vm_compute; reflexivity|].
  refine (proj2 (proj2 (proj2 (metadata_roundtrip (So := demo_sort) (Std := demo_sort_std) None 3 "people" demo_attrs _ _ _ _ _ _ _))) _ _);
    [reflexivity|lia|vm_compute; reflexivity|reflexivity|repeat constructor|constructor|].
  repeat constructor; vm_compute; by eexists.
Defined.

(** the calls succeed, documents are written whole, and orders are orders *)
Record os_good {T} `{!Os T} : Prop := {
  og_ok : ∀ n, os_ok n = true;
  og_written : ∀ n (x : T), os_written n x = x;
  og_order : ∀ A (l : list A), os_order A l ≡ₚ l
}.
Lemma good_os_good : @os_good _ good_os.
Proof. by split. Qed.
Definition metas (d : Db) : gmap string TableMeta.t := table_meta_ <$> opened_tables_ d.
(** the database of a new process *)
Definition fresh_db (d : Db) : Db := MkDb (db_name d) (db_path d) ∅ 0.
(** what CREATE TABLE needs, and CREATE INDEX *)
Record can_create {T} `{!Os T} (trx_fields : option (list FieldMeta.t)) (w : world T) (d : Db) (n : string) (attrs : list AttrInfo)
    (m : TableMeta.t) : Prop := {
  cc_name : plain_name n;
  cc_new : opened_tables_ d !! n = None;
  cc_id : next_table_id_ d < 2 ^ 31 - 1;
  cc_attrs : small_attrs attrs;
  cc_trx : small_trx trx_fields;
  cc_init : TableMeta.init trx_fields (next_table_id_ d) n attrs = Done (inr m);
  cc_size : TableMeta.record_size m < 2 ^ 31;
  cc_file : files w !! table_data_file (db_path d) n = None
}.
Record can_index {T} `{!Os T} (w : world T) (d : Db) (n : string) (t : Table) (fields : list FieldMeta.t) (name : string) : Prop := {
  ci_table : opened_tables_ d !! n = Some t;
  ci_name : is_blank name = false ∧ is_ascii name = true;
  ci_fields : fields ≠ [] ∧ (length fields <= MAX_LEAF_SIZE)%nat;
  ci_of_table : Forall (λ f, TableMeta.field_by_name (table_meta_ t) (FieldMeta.name f) = Some f) fields;
  ci_new : TableMeta.find_index_by_fields (table_meta_ t) (FieldMeta.name <$> fields) = None;
  ci_file : files w !! table_index_file (db_path d) n name = None;
  ci_tmp : files w !! (table_meta_file (db_path d) n +:+ ".tmp") = None
}.

(** C8: The tables of a database and its files.  While they belong together and the calls of the
    system succeed, a new process opens exactly the tables there were, with their metadata;
    creating a table and creating an index add to the tables what they should and keep the
    files in step; and dropping a table removes its files and leaves the rest, but the
    process then reads the buffer pool it has deleted. *)
Theorem catalog_correct {J T} `{!Json J T} `{!JsonSpec J T} {So : SortOps} {Std : StdSort} `{!Os T} (Hos : os_good (T := T))
    (w : world T) (d : Db) (Hc : catalog_ok w d) :
  wp (open_all_tables (fresh_db d)) (reboot w) (λ r w', r.1 = RC.SUCCESS ∧ catalog_ok w' r.2 ∧ metas r.2 = metas d) ∧
  (∀ trx_fields n attrs m, can_create trx_fields w d n attrs m →
    wp (db_create_table trx_fields n attrs d) w (λ r w', r.1 = RC.SUCCESS ∧ catalog_ok w' r.2 ∧ metas r.2 = <[n := m]> (metas d))) ∧
  (∀ n t fields name unique, can_index w d n t fields name →
    wp (table_create_index RC.SUCCESS unique fields name t) w (λ r w',
      let d' := set_opened (<[n := r.2]> (opened_tables_ d)) d in
      r.1 = RC.SUCCESS ∧ catalog_ok w' d' ∧
      metas d' = <[n := TableMeta.add_index (table_meta_ t) (IndexMeta.mk name (FieldMeta.name <$> fields) unique)]> (metas d))) ∧
  (∀ n t, opened_tables_ d !! n = Some t →
    wp (table_drop (db_path d) t) w (λ rc w', let d' := set_opened (delete n (opened_tables_ d)) d in
      rc = RC.SUCCESS ∧ catalog_ok w' d' ∧ metas d' = delete n (metas d)) ∧
    db_drop_table n d w = Crash).
Proof.
  destruct Hos as [Hok Hwritten Horder]. split_and!.
  - eapply wp_mono; [by apply wp_open_all_tables|]. intros [rc d'] w' (H1 & _ & _ & H4 & _ & _ & H7). done.
  - intros trx_fields n attrs m []. eapply wp_mono; [by eapply wp_db_create_table|]. intros r w' (H1 & H2 & _ & H4). done.
  - intros n t fields name unique [Ht [??] [??] ? ? ? ?]. pose proof (co_tables _ _ Hc _ _ Ht) as Htok.
    eapply wp_mono; [apply (wp_table_create_index Hok Hwritten w (db_path d) n t unique fields name); try done; apply (co_pools _ _ Hc)|].
    intros [rc t'] w' (Hrc & Ha & Hok' & Hmeta). cbn in Hrc, Hok', Hmeta |- *.
    assert (table_id t' = table_id t) as Hid by (unfold table_id; by rewrite Hmeta).
    split; [done|]. split; [|unfold metas; cbn; by rewrite fmap_insert, Hmeta].
    pose proof (co_range _ _ Hc). pose proof (co_next _ _ Hc _ _ Ht).
    eapply (catalog_update w w' d _ n t'); cbn; try done; [lia|by rewrite Hid|].
    intros n' t'' Ht'' Hne E. apply Hne. eapply (co_ids _ _ Hc); [done..|]. congruence.
  - intros n t Ht. pose proof (wp_table_drop Hok w d n t Hc Ht) as Hdrop. split.
    + eapply wp_mono; [exact Hdrop|]. intros rc w' (H1 & Hd & Hm & _). split; [done|]. split.
      * eapply catalog_drop; [done|done|by eexists|done].
      * unfold metas. cbn. by rewrite fmap_delete.
    + destruct Hdrop as (rc & w' & Hrun & -> & _ & _ & _ & _ & Hcrash). unfold db_drop_table, find_table. rewrite Ht.
      unfold mbind, ST_bind. rewrite Hrun. change (RC.succ RC.SUCCESS) with true. cbn [negb]. by rewrite Hcrash.
Qed.
(** *** An instance: a database with one table *)
Lemma demo_catalog : ∃ w d, catalog_ok (J := tree) w d ∧ is_Some (opened_tables_ d !! "people").
Proof.
  destruct (wp_db_create_table (J := tree) (Os0 := good_os) (λ _, eq_refl) (λ _ _, eq_refl) None demo_world demo_db "people" demo_attrs
    (match TableMeta.init None 0 "people" demo_attrs with Done (inr m) => m | _ => no_meta end))
    as (r & w & _ & _ & Hok & _ & Hm); [|split_and!; try done; repeat constructor; done|done|done|repeat constructor|constructor|vm_compute; reflexivity|done|done|].
  - by apply empty_ok; [set_solver|..].
  - exists w, r.2. split; [exact Hok|]. apply (f_equal (lookup "people")) in Hm. rewrite lookup_fmap, lookup_insert_eq in Hm.
    destruct (opened_tables_ r.2 !! "people"); [by eexists|done].
Qed.
Lemma catalog_correct_witness :
  ∃ w d, is_Some (opened_tables_ d !! "people") ∧
    wp (open_all_tables (J := tree) (So := demo_sort) (Os0 := good_os) (fresh_db d)) (reboot w) (λ r w', r.1 = RC.SUCCESS ∧ catalog_ok (J := tree) w' r.2 ∧ metas r.2 = metas d) ∧
    db_drop_table (Os0 := good_os) "people" d w = Crash.
Proof.
  destruct demo_catalog as (w & d & Hok & t & Ht). exists w, d. split; [by eexists|].
  destruct (catalog_correct (So := demo_sort) (Std := demo_sort_std) (Os0 := good_os) good_os_good w d Hok)
    as (H1 & _ & _ & H4). split; [exact H1|]. by apply (H4 "people" t).
Defined.

(** C40: A table that cannot be created.  When [TableMeta::init] refuses the fields of a CREATE TABLE,
    as those of length 0, the empty file of its metadata stays: creating a table of the name
    gets SCHEMA_TABLE_EXIST from then on, and the next process cannot open the database. *)
Theorem failed_create_blocks {J T} `{!Json J T} `{!JsonSpec J T} {So : SortOps} {Std : StdSort} `{!Os T} (Hos : os_good (T := T))
    (trx_fields : option (list FieldMeta.t)) (w : world T) (d : Db) (n : string) (attrs : list AttrInfo) (rc : RC.t)
  (Hc : catalog_ok w d) (Hname : plain_name n) (Hnew : opened_tables_ d !! n = None) (Hid : next_table_id_ d < 2 ^ 31 - 1)
  (Hattrs : attrs ≠ []) (Hinit : TableMeta.init trx_fields (next_table_id_ d) n attrs = Done (inl rc)) :
  wp (db_create_table trx_fields n attrs d) w (λ r w', r.1 = RC.INVALID_ARGUMENT ∧ opened_tables_ r.2 = opened_tables_ d ∧
    (∀ attrs', attrs' ≠ [] → wp (db_create_table trx_fields n attrs' r.2) w' (λ r' _, r'.1 = RC.SCHEMA_TABLE_EXIST)) ∧
    wp (open_all_tables (fresh_db d)) (reboot w') (λ r' _, r'.1 = RC.INTERNAL)).
Proof.
  destruct Hos as [Hok Hwritten Horder]. pose proof (co_range _ _ Hc) as Hrange.
  eapply wp_mono; [by eapply (wp_failed_create Hok trx_fields w d n attrs rc)|].
  intros [rc' d'] w' (H1 & H2 & Hw). cbn in H1, H2. subst d'. cbn. split_and!; [done|done| |].
  - intros attrs' Hattrs'. eapply wp_mono; [apply (wp_create_again Hok)|by intros r' w'' [? _]]; cbn; try done.
    + rewrite next_int32; lia.
    + destruct Hw as (_ & -> & _). rewrite lookup_insert_eq. by eexists.
  - by eapply (wp_open_orphan Hok Horder w).
Qed.
Lemma failed_create_blocks_witness :
  wp (db_create_table (J := tree) (Os0 := good_os) None "t" [MkAttrInfo CHARS "a" 0 true] demo_db) demo_world (λ r w',
    r.1 = RC.INVALID_ARGUMENT ∧ opened_tables_ r.2 = opened_tables_ demo_db ∧
    (∀ attrs', attrs' ≠ [] → wp (db_create_table (J := tree) (Os0 := good_os) None "t" attrs' r.2) w' (λ r' _, r'.1 = RC.SCHEMA_TABLE_EXIST)) ∧
    wp (open_all_tables (J := tree) (So := demo_sort) (Os0 := good_os) (fresh_db demo_db)) (reboot w') (λ r' _, r'.1 = RC.INTERNAL)).
Proof.
  apply (failed_create_blocks (So := demo_sort) (Std := demo_sort_std) (Os0 := good_os) good_os_good
    None demo_world demo_db "t" _ RC.INVALID_ARGUMENT); [by apply empty_ok; [set_solver|..]|split_and!; try done; repeat constructor; done|done|done|done|reflexivity].
Defined.
